(* ===== verification/_CoqProject ===== *)
-Q . S2P
Prelude.v
BitUtils.v
Validity.v
MaskSearch.v
Boundaries.v
RangeSearch.v
Frames.v
WindowMasks.v
WindowMasksInvariant.v
WindowSource.v
WindowSourceInvariant.v
WindowSchedules.v
WindowSourceResult.v
Rank.v
RankExecutor.v
RowNumber.v
Aggregates.v
WindowValue.v
MergeSortTree.v
MergeSortGames.v
MergeSortRuns.v
MergeSortBuild.v
SegmentTree.v
SegmentTreeInvariant.v
SegmentTreeBuild.v
SortKey.v
Radix.v
CreateSortKey.v
SortKeyOperators.v
SortKeyLayout.v
SortKeyOrder.v
SortKeyDecode.v
RadixPartitioning.v
Pruning.v
Sort.v
SortInvariant.v
HashedSort.v
HashedSortInvariant.v
MergePath.v
SortedRunMerger.v
MergerInvariant.v
SortSource.v
HashGroups.v
MergeSortThreads.v
MergeSortSearch.v
MergeSortAggregate.v
WindowTrees.v
WindowTreesInvariant.v
WindowTreeThreads.v
WindowTreeSearch.v
WindowTreeRuns.v
WindowTreeRounds.v
WindowTreeSort.v
