(* ===== verification/Prelude.v ===== *)
(** * Window functions in DuckDB with rank predicates: a verification library

    The repository is DuckDB with optimisations for queries that filter on the
    result of a window function (RANK() OVER (PARTITION BY .. ORDER BY ..) <= k).
    The library models the window operator from its sink to its functions: rows are
    distributed into hash groups, each group is sorted by a parallel merge of sorted
    runs, and the window functions are evaluated over the sorted rows with the
    bounds of their partitions, peer groups and frames.  Rows that a predicate on a
    rank discards are dropped in four places: while a thread receives its rows
    (partition pruning), while runs are merged (Merge Pruning), while a merged
    partition is scanned, and while the function is evaluated (filter and early
    out).  All source paths are below src/src.

    ** The files

    - Prelude: machine integers (Z with wrap-around [u64] and [i64]), doubles, arrays
      ([znth], [zload], [zstore]), exceptions, bit and list lemmas, automation.
    - BitUtils: CountZeros of include/duckdb/common/bit_utils.hpp.
    - Validity: ValidityMask and ValidityArray, include/duckdb/common/types/
      validity_mask.hpp and common/types/validity_mask.cpp.  A mask is the list of its
      words or no buffer at all; [rows_of] reads it as rows.
    - MaskSearch: FindNextStart and FindPrevStart of
      function/window/window_boundaries_state.cpp.
    - Boundaries, RangeSearch, Frames: WindowBoundariesState of the same file.
      Boundaries has the state and the operations (one Definition per column of
      bounds, [Bounds] for a chunk), RangeSearch the theorems on the binary search of
      RANGE frames, Frames the row-wise specification and the refinement.
    - WindowMasks, WindowMasksInvariant: the masks of a hash group, ComputeMasks and
      ComputeMasksForSmallRuns of execution/operator/aggregate/physical_window.cpp over the
      scanners of include/duckdb/function/window/window_collection.hpp; the
      tasks that compute them, in any order.
    - WindowSource, WindowSourceInvariant, WindowSchedules, WindowSourceResult: the source
      of the window operator in the same file.  WindowSource has the hash groups with their stages, the
      global state that assigns tasks, and a step of a thread, over a record of
      functions ([WindowExecutors]); WindowSourceInvariant declares what the
      source needs of the functions (class [ExecutorLaws]) and proves the steps inside
      a group, WindowSchedules those of all threads, WindowSourceResult the set-up and
      the theorems.
    - Rank, RowNumber: function/window/window_rank_function.cpp and
      window_rownumber_function.cpp.
    - RankExecutor: function/window/window_executor.cpp with RANK as the function, an
      instance of [ExecutorLaws].
    - Aggregates: the interface of aggregate functions (record [AggregateFunction],
      class [AggregateLaws]), the state arrays of window_aggregate_states.cpp, and the
      FILTER mask and the sub-frames of EXCLUDE of window_aggregator.cpp.
    - WindowValue: function/window/window_value_function.cpp without FILL; the trees of
      argument orders are interfaces (classes [IndexTreeLaws], [RowTreeLaws]), which
      WindowTreeSearch implements.
    - MergeSortTree: include/duckdb/execution/merge_sort_tree.hpp, the construction by
      concurrent threads and the two searches, for all template parameters (class
      [MergeSortTraits]).  MergeSortGames has the tournament, MergeSortRuns the merge of a
      run with its cascading pointers, MergeSortBuild what a complete tree is,
      MergeSortThreads the threads, MergeSortSearch SelectNth and MergeSortAggregate
      AggregateLowerBound.
    - WindowTrees: the trees of argument orders, window_merge_sort_tree.cpp with its classes
      in window_index_tree.cpp and window_token_tree.cpp ([TreeKind]): sinking, the stages and
      their tasks, a step of a thread of Finalize and Build, the searches; the sort is a
      [SortOps] and its source a class of laws ([SortSourceLaws]).  WindowTreesInvariant has what the tasks
      write, WindowTreeThreads the invariant of the stages, WindowTreeSearch what the finished
      trees find, WindowTreeRuns the theorems from the sunk rows to the searches,
      WindowTreeRounds that the threads finish, WindowTreeSort that the sort operator
      with its merger is such a source.
    - SegmentTree, SegmentTreeInvariant, SegmentTreeBuild: window_segment_tree.cpp.
      SegmentTree has the construction by concurrent threads and the evaluation of
      chunks, SegmentTreeInvariant the rows that nodes, buffers and states stand for,
      SegmentTreeBuild the invariant of the threads and the theorems.
    - SortKey: the fixed and variable size keys of include/duckdb/common/types/row/ (and the
      encoding of their parts).
    - Radix: include/duckdb/common/radix.hpp, the bytes of values of constant size, and the
      theory of encodings that compare as their values do whatever follows ([is_code]).
    - CreateSortKey, SortKeyOperators, SortKeyLayout, SortKeyOrder, SortKeyDecode:
      function/scalar/create_sort_key.cpp.  CreateSortKey has the operations that create
      keys, over trees of vectors; SortKeyOperators the interface of the three encodings
      (class [OperatorLaws]) and its instances; SortKeyLayout what every loop appends to the
      keys (class [AppendRow], for the lengths and for the bytes); SortKeyOrder the order
      of rows; SortKeyDecode the decoder and what it gives back.
    - RadixPartitioning: common/radix_partitioning.cpp and
      common/types/row/partitioned_tuple_data.cpp, over both maps of partition entries:
      the fixed-size map and the perfect unordered map (class [EntryMap]).
    - Pruning: no code; the contract between a step that drops rows and the function
      that ranks them ([prune], [safe_prune], class [RankFunction]).
    - Sort, SortInvariant: common/sort/sort.cpp and sorted_run.cpp: the layouts of keys
      and payloads, and the sink with its memory reservations.  Sort also declares
      the interface of the sort operator, the record [SortOps] with the class of laws
      [SortSinkLaws]; SortInvariant proves that the operator implements it.
    - HashedSort, HashedSortInvariant: the sink of common/sort/hashed_sort.cpp with its
      HyperLogLog and its heaps, for every sort with the laws [SortSinkLaws].
    - MergePath: ComputePartitionBoundaries of common/sort/sorted_run_merger.cpp.
    - SortedRunMerger, MergerInvariant: the merger of the same file.
    - SortSource: the source of common/sort/sort.cpp, the batches of
      common/types/batched_data_collection.cpp and the tasks of common/sort/hashed_sort.cpp
      that materialize a hash group.
    - HashGroups: the materialization of all hash groups, and the theorem that puts
      the hashed sort, the sort operator and the merger together.

    SegmentTree is proved for every aggregate function with the laws [AggregateLaws].
    HashedSort uses RadixPartitioning and BitUtils; Frames and Rank read masks with
    MaskSearch; SortedRunMerger calls MergePath and reads keys of SortKey.
    HashedSortInvariant and MergerInvariant discharge the contract of Pruning.
    WindowSource uses WindowMasks; RankExecutor puts Boundaries and Rank into it.
    SortKeyOrder composes the encoding of rows with the comparison of SortKey.
    WindowTrees uses the delta scanner of WindowMasks and the sort through its interface, and
    builds a tree of MergeSortTree; WindowValue uses the trees through its interfaces.

    ** Effects, concurrency and errors

    A result of [None], or [Throw] where the code catches or promises an exception,
    stands for a failed assertion, an exception or an access outside of an array, so
    a theorem that an operation gives [Some] says that none of these happens.  The
    threads of the merger, of the hashed sort, of the sort, of the trees and of the window source are steps from one critical section
    (or atomic access) to the next on a shared state; a schedule is a list of thread
    numbers and the theorems hold for every schedule.

    ** What the theorems show

    - Masks: every operation is described by what it does to the rows; the three
      branches of SliceInPlace agree; Read inverts Write; the searches equal a naive
      scan.
    - Bounds: from every state that earlier chunks leave, a chunk gets the bounds of
      a specification that looks at each row alone ([Bounds_correct]); the searches
      with hints equal those without.
    - Functions: RANK, DENSE_RANK, PERCENT_RANK, ROW_NUMBER and NTILE agree with
      their definitions; the selection of the filter is exact.  FIRST_VALUE, LAST_VALUE
      and NTH_VALUE are the rows of the frame they say, and LEAD and LAG the row at the
      offset, whether runs of rows are shifted or not.
    - Aggregates: however the threads that build a segment tree interleave, they finish, and
      every row gets the aggregate of exactly the rows of its frame that EXCLUDE keeps
      and FILTER passes, in their order for an aggregate that depends on it.
    - Merge sort trees: in every interleaving the threads build all runs, sorted and with
      pointers that enclose every search, and finish ([Build_correct],
      [Build_terminates]); SelectNth finds the n-th leaf in the frames, and the runs of
      AggregateLowerBound add up to the leaves of the range below the needle.
    - Argument orders: in every interleaving of the threads that sink, combine, sort, fill
      and build a tree no step fails and all threads finish ([sort_tree_terminates]); an index
      tree implements the interface of the value functions for an order of the sunk rows
      ([index_tree_correct]), and the tokens of a token tree rank the rows of a frame
      ([token_tree_correct]).
    - Window source: mask tasks in any order set exactly the starts of partitions and peers; in
      every interleaving each stage of a group begins when the one before is
      complete, every chunk is put out at most once with the result of the
      functions, and under fair schedules exactly once ([WindowSource_correct],
      [WindowSource_terminates]).  With RANK the results are the SQL ranks, or the
      rows whose rank satisfies the predicate ([RankSource_correct]).
    - Merging: the boundaries are the exact cuts, found independently of each other;
      in every interleaving each partition has one owner, the output is the sorted
      input, pruning keeps the contract, destroyed data was scanned, the threads
      terminate.  The tasks that materialize a hash group keep the batches apart and
      never read destroyed runs, and their columns are the sorted keys.
    - End to end ([window_input_safe]): from the chunks that the threads sink to the
      columns of the hash groups, the two prunings together keep every row that a
      RANK predicate selects, whatever the interleavings.
    - Sorting: in every interleaving and for every answer of the memory manager the
      sink of the sort operator keeps all rows in sorted runs that were finalized
      with the flag the merger gets, and ends; what it stores of a row is enough to
      give back its columns.
    - Sort keys: the vectorised encoder writes, within what it allocates, the encoding of
      each row by itself; keys of rows with nested columns compare as the rows under the
      modifiers of the columns, as byte strings, as integers and as the keys of the sort
      operator ([CreateSortKey_order], [sort_keys_order_rows]); decoding inverts encoding.
    - Hash grouping: a chunk and a repartitioning distribute rows by the upper bits of
      their hash; in every interleaving of sinking and combining threads no access
      fails, the threads agree on the radix bits, the groups hold exactly the kept
      rows, and every thread that gets enough turns finishes.
    - Pruning: what the heaps of a thread drop has a rank above the predicate in its
      hash group; if hashes do not collide, results do not change.
    - Errors: theorems that end in a false selection, an exception or [None] show
      inputs on which the code fails (see each file).

    ** Where the theorems stop

    The conditions below are hypotheses of theorems because the code fails or gives wrong
    results without them; an example or a finding shows each.

    - Merge Pruning reads two columns of 5 bytes from the start of a key of 16 bytes.  The
      merger asserts that nothing follows them ([keys_asserted]; a second ORDER BY
      column fails, [second_order_column_fails]), and pruning keeps the ranks if
      [operator<] compares exactly these columns ([keys_compare_columns], which holds of
      two nullable columns of 4 bytes, [int_columns_pruned], and not of a first column
      of 9 bytes, [extract_partition_wide]).  It applies to every sort with such keys, so a tree of an argument
      order gets all its rows only if its keys are not such or shrink_runs is off.
    - Partition pruning keeps the ranks if no hashes collide ([partition_pruning_collision]).
    - The masks of runs of any size: the number of rows of a group is not a multiple of 64.
    - Early out: at most one PARTITION BY column ([early_out_two_partitions]), and
      partitions with a miss before those that match completely ([early_out_selects_twice]).
    - A frame that ends at a RANGE value PRECEDING: not at a row with later peers
      ([range_zero_preceding_ties]), and not with a stale VALID_END
      ([stale_valid_end_changes_frame]).
    - The row numbers of a tree of 32 bits are below 2^31 ([index_column_overflow]).
    - A selection is not appended to a state that keeps constant indices
      ([stale_constant_indices]).

    ** Fuel and bounds

    Loops that are not structural take fuel: the searches in a mask one unit per
    entry and bit of the range, the merge path the number of keys that remain (each
    step removes one), the radix bit loops the distance to their limit of 8, the
    doubling of a memory request 64, the levels of a segment tree the number of rows, the
    delta scanner three units per chunk (it alternates between the rows of a chunk and
    the boundary to the next), the groups that are not active yet their number, the loop over
    the elements of a decoded list the bytes of its key (an element has at least one), the merge of
    a run of a merge sort tree its elements, a replayed game the games.  The
    rounds after which the threads of a tree are done are computed from the local sorts, the
    threads and the rows ([enough_rounds]).  The
    theorems are about the fuel that the definitions pass, and show that it is
    enough.  Counts of rows are integers without wrap-around where 2^64 rows would be
    needed to reach it; arithmetic on values given by the user wraps as in the code, and
    the row numbers of the trees have the width of their column.

    ** Parameters

    The order and validity of column values in the window and sort operators, which take
    encoded keys (Radix and CreateSortKey model the encoding itself), the hash of a value, the estimate of a HyperLogLog from its register counts, the sort
    of one partition (vergesort or pdqsort) with "a sorted permutation", the chunks in
    which a collection is scanned or read by position, an aggregate function with its
    laws, the chunks that a sort materializes for a tree (with the laws [SortSourceLaws],
    which WindowTreeSort proves of the sort operator without Merge Pruning), IS DISTINCT FROM of two values, the
    functions of the window source with their laws, the order in which an unordered map is
    traversed, and for the merger the two columns of a key with the outcome of the
    assertion about it (SortedRunMerger also computes all three from the bytes of a key, and
    [int_columns_pruned] uses these).  Theorems
    with such a parameter have a witness with a concrete one.

    ** Not modelled

    The memory layout of rows, pages and vectors (lists of rows instead), so the
    reordering of an external run only sets a flag; interrupts, and the rounding of
    progress to doubles, of the tasks that materialize hash groups; the parsing of the
    modifiers of create_sort_key, its collations and the flattening of its vectors
    (a vector is what ToUnifiedFormat gives); the destruction of
    aggregate states; FILL and the other aggregators; the choice of the columns that a tree
    of an argument order sorts; the
    materialized expressions and the progress of the window operator, and its sink, which
    only calls the hashed sort; the streaming window operator; the rest of the database (parser,
    planner, optimizer, storage, other operators), which the modelled code does not
    call except through the parameters above.

    Planned next: FILL, the constant aggregator, and the other
    functions as instances of [ExecutorLaws]. *)

From stdpp Require Export base tactics numbers list sorting gmap.
From Stdlib Require Export ZArith Lia Bool SpecFloat.

#[global] Open Scope Z_scope.

Declare Scope idx_scope.
Delimit Scope idx_scope with idx.

(** ** Machine integers

    [idx_t], [hash_t], [validity_t] and [uint64_t] are values of [Z] in
    [0, 2^64); [int64_t] values are in [-2^63, 2^63). *)

Definition u64 (z : Z) : Z := z mod 2 ^ 64.

Definition i64 (z : Z) : Z := (z + 2 ^ 63) mod 2 ^ 64 - 2 ^ 63.

(** Wrap-around arithmetic of [idx_t]. *)
Notation "x '+u' y" := (u64 (x + y)) (at level 50, left associativity) : idx_scope.
Notation "x '-u' y" := (u64 (x - y)) (at level 50, left associativity) : idx_scope.
Notation "x '*u' y" := (u64 (x * y)) (at level 40, left associativity) : idx_scope.

Definition idx_max : Z := 2 ^ 64 - 1.

(** A [double] is a binary64 number. *)
Definition double : Set := spec_float.
Definition double_of_int (z : Z) : double := binary_normalize 53 1024 z 0 false.
Definition double_div (x y : double) : double := SFdiv 53 1024 x y.
Definition double_sub (x y : double) : double := SFsub 53 1024 x y.
Definition double_positive (x : double) : bool := SFltb (S754_zero false) x.

(** [STANDARD_VECTOR_SIZE] with its default value. *)
Definition STANDARD_VECTOR_SIZE : Z := 2048.

(** ** Enumerations *)

Inductive OrderType : Set := ORDER_INVALID | ORDER_DEFAULT | ASCENDING | DESCENDING.
Inductive OrderByNullType : Set := NULLS_INVALID | NULLS_DEFAULT | NULLS_FIRST | NULLS_LAST.

(** ** Exceptions *)

Inductive exn : Set :=
  | InternalException
  | OutOfRangeException
  | InvalidInputException
  | NotImplementedException.

Inductive res (A : Type) : Type :=
  | Ok (a : A)
  | Throw (e : exn).
Arguments Ok {A} a.
Arguments Throw {A} e.

#[export] Instance res_ret : MRet res := fun A a => Ok a.
#[export] Instance res_bind : MBind res :=
  fun A B f m => match m with Ok a => f a | Throw e => Throw e end.

(** ** Arrays

    [znth d l i] is [l[i]]; [zstore l i v] is the assignment [l[i] = v], which
    is undefined ([None]) outside of the allocation. *)

Definition znth {A} (d : A) (l : list A) (i : Z) : A := default d (l !! Z.to_nat i).

Definition zload {A} (l : list A) (i : Z) : option A :=
  if decide (0 <= i) then l !! Z.to_nat i else None.

Definition zstore {A} (l : list A) (i : Z) (v : A) : option (list A) :=
  if decide (0 <= i < Z.of_nat (length l)) then Some (<[Z.to_nat i := v]> l) else None.

(** The integers [a, a+1, ..., b-1]. *)
Definition zrange (a b : Z) : list Z := (fun k => a + Z.of_nat k) <$> seq 0 (Z.to_nat (b - a)).

(** The number of [i] in [[a, b)] that satisfy [f]. *)
Definition zcount (f : Z -> bool) (a b : Z) : Z :=
  Z.of_nat (length (List.filter f (zrange a b))).

(** ** Automation *)

Create HintDb idx.

Ltac bool_to_prop :=
  repeat match goal with
  | H : _ && _ = true |- _ => apply andb_prop in H; destruct H
  | H : _ || _ = false |- _ => apply orb_false_elim in H; destruct H
  | H : (_ =? _) = true |- _ => apply Z.eqb_eq in H
  | H : (_ =? _) = false |- _ => apply Z.eqb_neq in H
  | H : (_ <? _) = true |- _ => apply Z.ltb_lt in H
  | H : (_ <? _) = false |- _ => apply Z.ltb_ge in H
  | H : (_ <=? _) = true |- _ => apply Z.leb_le in H
  | H : (_ <=? _) = false |- _ => apply Z.leb_gt in H
  | H : negb _ = true |- _ => apply negb_true_iff in H
  | H : negb _ = false |- _ => apply negb_false_iff in H
  end.

(** Case on the boolean comparison of the first [if] of the goal. *)
Ltac case_if :=
  match goal with
  | |- context [if ?b then _ else _] =>
      lazymatch type of b with
      | bool => destruct b eqn:?; bool_to_prop
      | _ => destruct b
      end
  end.

(** Inverts an equation [body = Some x] through the binds and cases of [body]. *)
Ltac opt_inv H :=
  repeat (cbn [mbind option_bind] in H;
    match type of H with
    | (if ?b then _ else _) = Some _ => destruct b; try discriminate H
    | (match ?x with _ => _ end) = Some _ => destruct x; try discriminate H
    | mbind _ ?x = Some _ => destruct x; try discriminate H
    | Some _ = Some _ => first [injection H as <- <- | injection H as <-]
    end).

Ltac zdm := Z.to_euclidean_division_equations; lia.

(** ** Machine integers: lemmas *)

Lemma u64_small z : 0 <= z < 2 ^ 64 -> u64 z = z.
Proof. intros. by apply Z.mod_small. Qed.

Lemma u64_range z : 0 <= u64 z < 2 ^ 64.
Proof. apply Z.mod_pos_bound. lia. Qed.

Lemma u64_add_wrap a b : u64 (u64 a + b) = u64 (a + b).
Proof. unfold u64. by rewrite Zplus_mod_idemp_l. Qed.

Lemma i64_small z : - 2 ^ 63 <= z < 2 ^ 63 -> i64 z = z.
Proof. intros. unfold i64. rewrite Z.mod_small; lia. Qed.

Lemma i64_range z : - 2 ^ 63 <= i64 z < 2 ^ 63.
Proof. unfold i64. pose proof (Z.mod_pos_bound (z + 2 ^ 63) (2 ^ 64)). lia. Qed.

#[export] Hint Resolve u64_range i64_range : idx.

(** ** Arrays: lemmas *)

Section arrays.
Context {A : Type}.
Implicit Types (l : list A) (i j : Z) (v d : A).

Lemma zstore_Some l i v :
  0 <= i < Z.of_nat (length l) -> zstore l i v = Some (<[Z.to_nat i := v]> l).
Proof. intros. unfold zstore. by rewrite decide_True. Qed.

Lemma zstore_inv l i v l' :
  zstore l i v = Some l' ->
  0 <= i < Z.of_nat (length l) /\ l' = <[Z.to_nat i := v]> l.
Proof. unfold zstore. case_decide; intros [= <-]. done. Qed.

Lemma zstore_length l i v l' : zstore l i v = Some l' -> length l' = length l.
Proof. intros [_ ->]%zstore_inv. apply length_insert. Qed.

Lemma znth_insert d l i j v :
  0 <= i < Z.of_nat (length l) -> 0 <= j ->
  znth d (<[Z.to_nat i := v]> l) j = if decide (i = j) then v else znth d l j.
Proof.
  intros ??. unfold znth. case_decide as E.
  - subst. rewrite list_lookup_insert_eq; [done | lia].
  - rewrite list_lookup_insert_ne; [done | lia].
Qed.

Lemma znth_lookup d l i x : l !! Z.to_nat i = Some x -> znth d l i = x.
Proof. intros H. unfold znth. by rewrite H. Qed.

Lemma zload_Some d l i :
  0 <= i < Z.of_nat (length l) -> zload l i = Some (znth d l i).
Proof.
  intros. unfold zload, znth. rewrite decide_True by lia.
  destruct (l !! Z.to_nat i) eqn:E; [done |]. apply lookup_ge_None in E. lia.
Qed.

Lemma znth_Forall (P : A -> Prop) d l i :
  Forall P l -> P d -> P (znth d l i).
Proof.
  intros Hl Hd. unfold znth. destruct (l !! Z.to_nat i) eqn:E; [| done].
  by eapply Forall_lookup_1.
Qed.
End arrays.

(** ** Ranges and counting *)

Lemma length_zrange a b : length (zrange a b) = Z.to_nat (b - a).
Proof. unfold zrange. by rewrite length_fmap, length_seq. Qed.

Lemma elem_of_zrange a b i : i ∈ zrange a b <-> a <= i < b.
Proof.
  unfold zrange. rewrite list_elem_of_fmap. setoid_rewrite elem_of_seq. split.
  - intros (k & -> & ?). lia.
  - intros. exists (Z.to_nat (i - a)). lia.
Qed.

Lemma NoDup_zrange a b : NoDup (zrange a b).
Proof. unfold zrange. apply NoDup_fmap_2_strong; [lia | apply NoDup_seq]. Qed.

Lemma zrange_nil a b : b <= a -> zrange a b = [].
Proof. intros. unfold zrange. by replace (Z.to_nat (b - a)) with 0%nat by lia. Qed.

Lemma zrange_split a b c : a <= b <= c -> zrange a c = zrange a b ++ zrange b c.
Proof.
  intros. unfold zrange.
  replace (Z.to_nat (c - a)) with (Z.to_nat (b - a) + Z.to_nat (c - b))%nat by lia.
  rewrite seq_app, fmap_app. f_equal.
  rewrite Nat.add_0_l. rewrite <- (Nat.add_0_r (Z.to_nat (b - a))) at 1.
  rewrite <- fmap_add_seq, <- list_fmap_compose. apply list_fmap_ext. intros k x _. simpl. lia.
Qed.

Lemma zrange_cons a b : a < b -> zrange a b = a :: zrange (a + 1) b.
Proof.
  intros. rewrite (zrange_split a (a + 1) b) by lia.
  unfold zrange at 1. replace (Z.to_nat (a + 1 - a)) with 1%nat by lia. simpl. f_equal. lia.
Qed.

Lemma zrange_snoc a b : a <= b -> zrange a (b + 1) = zrange a b ++ [b].
Proof.
  intros. rewrite (zrange_split a b (b + 1)) by lia. f_equal.
  rewrite zrange_cons, zrange_nil by lia. done.
Qed.

Section counting.
Implicit Types (f g : Z -> bool).

Lemma zcount_nil f a b : b <= a -> zcount f a b = 0.
Proof. intros. unfold zcount. by rewrite zrange_nil. Qed.

Lemma zcount_cons f a b : a < b -> zcount f a b = Z.b2z (f a) + zcount f (a + 1) b.
Proof.
  intros. unfold zcount. rewrite zrange_cons by done. simpl.
  destruct (f a); cbn [length Z.b2z]; lia.
Qed.

Lemma zcount_split f a b c : a <= b <= c -> zcount f a c = zcount f a b + zcount f b c.
Proof.
  intros. unfold zcount. rewrite (zrange_split a b c), List.filter_app, length_app by done. lia.
Qed.

Lemma zcount_snoc f a b : a <= b -> zcount f a (b + 1) = zcount f a b + Z.b2z (f b).
Proof.
  intros. rewrite (zcount_split f a b (b + 1)), (zcount_cons f b), (zcount_nil f (b + 1)) by lia.
  lia.
Qed.

Lemma zcount_nonneg f a b : 0 <= zcount f a b.
Proof. unfold zcount. lia. Qed.

Lemma zcount_le f a b : zcount f a b <= Z.max 0 (b - a).
Proof.
  unfold zcount. pose proof (List.filter_length_le f (zrange a b)) as H.
  rewrite length_zrange in H. lia.
Qed.

Lemma zcount_ext f g a b :
  (forall i, a <= i < b -> f i = g i) -> zcount f a b = zcount g a b.
Proof.
  intros H. unfold zcount. f_equal. f_equal. apply List.filter_ext_in.
  intros i Hi%list_elem_of_In. apply H. by apply elem_of_zrange.
Qed.

Lemma zcount_mono f g a b :
  (forall i, a <= i < b -> f i = true -> g i = true) -> zcount f a b <= zcount g a b.
Proof.
  intros H. destruct (decide (a <= b)); [| rewrite !zcount_nil by lia; done].
  revert H. replace b with (a + Z.of_nat (Z.to_nat (b - a))) by lia.
  induction (Z.to_nat (b - a)) as [| n IH]; intros H; [rewrite !zcount_nil by lia; done |].
  replace (a + Z.of_nat (S n)) with (a + Z.of_nat n + 1) in * by lia.
  rewrite !zcount_snoc by lia. pose proof (H (a + Z.of_nat n) ltac:(lia)) as Hn.
  assert (zcount f a (a + Z.of_nat n) <= zcount g a (a + Z.of_nat n))
    by (apply IH; intros; apply H; [lia | done]).
  destruct (f (a + Z.of_nat n)), (g (a + Z.of_nat n)); cbn; lia || by specialize (Hn eq_refl).
Qed.

Lemma zcount_all f a b :
  a <= b -> (forall i, a <= i < b -> f i = true) -> zcount f a b = b - a.
Proof.
  intros Hab H. rewrite (zcount_ext f (fun _ => true)) by done. unfold zcount.
  rewrite List.forallb_filter_id, length_zrange by (induction (zrange a b); done). lia.
Qed.

Lemma zcount_none f a b :
  (forall i, a <= i < b -> f i = false) -> zcount f a b = 0.
Proof.
  intros H. rewrite (zcount_ext f (fun _ => false)) by done. unfold zcount.
  induction (zrange a b); done.
Qed.

Lemma zcount_zero_inv f a b i : zcount f a b = 0 -> a <= i < b -> f i = false.
Proof.
  intros Hc Hi. rewrite (zcount_split f a i b), (zcount_cons f i b) in Hc by lia.
  pose proof (zcount_nonneg f a i). pose proof (zcount_nonneg f (i + 1) b).
  destruct (f i); simpl in Hc; [lia | done].
Qed.

Lemma zcount_negb f a b : a <= b -> zcount f a b + zcount (fun i => negb (f i)) a b = b - a.
Proof.
  intros Hab. replace b with (a + Z.of_nat (Z.to_nat (b - a))) by lia.
  induction (Z.to_nat (b - a)) as [| n IH].
  - rewrite !zcount_nil by lia. lia.
  - replace (a + Z.of_nat (S n)) with (a + Z.of_nat n + 1) by lia.
    rewrite !zcount_snoc by lia. destruct (f (a + Z.of_nat n)); simpl; lia.
Qed.

Lemma zcount_shift f a b k : zcount f (a + k) (b + k) = zcount (fun i => f (i + k)) a b.
Proof.
  destruct (decide (a <= b)); [| rewrite !zcount_nil by lia; done].
  replace b with (a + Z.of_nat (Z.to_nat (b - a))) by lia.
  induction (Z.to_nat (b - a)) as [| n IH].
  - rewrite !zcount_nil by lia. done.
  - replace (a + Z.of_nat (S n)) with (a + Z.of_nat n + 1) by lia.
    replace (a + Z.of_nat n + 1 + k) with (a + Z.of_nat n + k + 1) by lia.
    rewrite !zcount_snoc, IH by lia. done.
Qed.
End counting.

#[export] Hint Resolve zcount_nonneg : idx.

(** ** Orders

    What searches and sorts need of the comparison of a type. *)
Class StrictWeakOrder {T} (lt : T -> T -> bool) : Prop := {
  swo_asym : forall x y, lt x y = true -> lt y x = false;
  swo_cotrans : forall x y z, lt x z = true -> lt x y = true \/ lt y z = true
}.

#[export] Instance Zltb_order : StrictWeakOrder Z.ltb.
Proof. split; intros; rewrite ?Z.ltb_lt, ?Z.ltb_ge in *; lia. Qed.

#[export] Instance flip_order {T} (lt : T -> T -> bool) `{StrictWeakOrder T lt} :
  StrictWeakOrder (fun a b => lt b a).
Proof.
  split; intros.
  - by apply swo_asym.
  - edestruct swo_cotrans as [E | E]; [eassumption | right; exact E | left; exact E].
Qed.

(** ** Loops of assignments

    [ofold f s l] runs [f] on the elements of [l] in order and stops at the
    first undefined step. *)

Definition ofold {S A} (f : S -> A -> option S) (s : S) (l : list A) : option S :=
  foldl (fun o a => o ≫= fun s => f s a) (Some s) l.

Section ofold.
Context {S A : Type} (f : S -> A -> option S).

Lemma ofold_none l : foldl (fun o a => o ≫= fun s => f s a) None l = None.
Proof. by induction l. Qed.

Lemma ofold_cons s a l : ofold f s (a :: l) = f s a ≫= fun s' => ofold f s' l.
Proof. unfold ofold. simpl. destruct (f s a); simpl; [done | apply ofold_none]. Qed.

Lemma ofold_app s l k : ofold f s (l ++ k) = ofold f s l ≫= fun s' => ofold f s' k.
Proof.
  revert s. induction l as [| a l IH]; intros s; [done |].
  cbn [app]. rewrite !ofold_cons. destruct (f s a); simpl; [apply IH | done].
Qed.
End ofold.

(** Rule of invariants for a loop over the indices [[a, b)]. *)
Lemma ofold_zrange_inv {S} (f : S -> Z -> option S) (I : Z -> S -> Prop) a b s :
  a <= b -> I a s ->
  (forall i s, a <= i < b -> I i s -> exists s', f s i = Some s' /\ I (i + 1) s') ->
  exists s', ofold f s (zrange a b) = Some s' /\ I b s'.
Proof.
  intros Hab Ha Hstep. remember (Z.to_nat (b - a)) as n eqn:Hn.
  revert a s Hab Hn Ha Hstep. induction n as [| n IH]; intros a s Hab Hn Ha Hstep.
  - replace b with a in * by lia. rewrite zrange_nil by lia. by exists s.
  - rewrite zrange_cons, ofold_cons by lia.
    destruct (Hstep a s) as (s1 & -> & H1); [lia | done |]. simpl.
    apply IH; [lia | lia | done |]. intros i s' Hi. apply Hstep. lia.
Qed.

(** The same for a loop that counts down. *)
Lemma ofold_down_inv {S} (f : S -> Z -> option S) (I : Z -> S -> Prop) a b s :
  a <= b -> I b s ->
  (forall i s, a <= i < b -> I (i + 1) s -> exists s', f s i = Some s' /\ I i s') ->
  exists s', ofold f s (reverse (zrange a b)) = Some s' /\ I a s'.
Proof.
  intros Hab Hb Hstep. remember (Z.to_nat (b - a)) as n eqn:Hn.
  revert b s Hab Hn Hb Hstep. induction n as [| n IH]; intros b s Hab Hn Hb Hstep.
  - replace b with a in * by lia. rewrite zrange_nil by lia. by exists s.
  - replace b with (b - 1 + 1) by lia. rewrite zrange_snoc, reverse_snoc, ofold_cons by lia.
    destruct (Hstep (b - 1) s) as (s1 & -> & H1); [lia | by rewrite Z.sub_add |]. simpl.
    apply IH; [lia | lia | done |]. intros i s' Hi. apply Hstep. lia.
Qed.

Lemma ofold_seq_inv {S} (f : S -> nat -> option S) (I : nat -> S -> Prop) k s :
  I 0%nat s -> (forall i s, (i < k)%nat -> I i s -> exists s', f s i = Some s' /\ I (Datatypes.S i) s') ->
  exists s', ofold f s (seq 0 k) = Some s' /\ I k s'.
Proof.
  intros H0 Hstep. induction k as [| k IH]; [by exists s |].
  destruct IH as (s1 & E1 & H1); [intros i s' Hi; apply Hstep; lia |].
  destruct (Hstep k s1) as (s2 & E2 & H2); [lia | done |].
  exists s2. rewrite seq_S, ofold_app, E1. cbn [mbind option_bind Nat.add]. by rewrite ofold_cons, E2.
Qed.

(** [for (i = a; i < b; i++) l[i] = g(i)] *)
Lemma ofold_store {A} (x : A) (g : Z -> A) (l : list A) a b :
  0 <= a -> b <= Z.of_nat (length l) ->
  exists l', ofold (fun l i => zstore l i (g i)) l (zrange a b) = Some l' /\
    length l' = length l /\
    forall j, 0 <= j ->
      znth x l' j = if decide (a <= j < b) then g j else znth x l j.
Proof.
  intros Ha Hb. destruct (decide (a <= b)); cycle 1.
  { rewrite zrange_nil by lia. exists l. split_and!; [done..|].
    intros. rewrite decide_False by lia. done. }
  destruct (ofold_zrange_inv (fun l i => zstore l i (g i))
    (fun i l' => length l' = length l /\ forall j, 0 <= j ->
      znth x l' j = if decide (a <= j < i) then g j else znth x l j) a b l) as (l' & ? & ?);
    [done | | | by exists l'].
  - split; [done |]. intros. rewrite decide_False by lia. done.
  - intros i l' Hi [Hlen Hl']. eexists. split; [apply zstore_Some; lia |].
    split; [by rewrite length_insert |]. intros j Hj.
    rewrite znth_insert by lia. rewrite Hl' by done.
    repeat case_decide; try done; try lia. by subst.
Qed.

Lemma ofold_fmap {S A B} (f : S -> B -> option S) (h : A -> B) s (l : list A) :
  ofold f s (h <$> l) = ofold (fun s a => f s (h a)) s l.
Proof. revert s. induction l as [| a l IH]; intros s; [done |]. rewrite fmap_cons, !ofold_cons. destruct (f s (h a)); [apply IH | done]. Qed.

(** An array given by a function of the index. *)
Lemma zload_tabulate {A} (f : Z -> A) n i : 0 <= i < n -> zload (f <$> zrange 0 n) i = Some (f i).
Proof.
  intros Hi. unfold zload, zrange. rewrite decide_True, !list_lookup_fmap, lookup_seq_lt by lia. cbn. do 2 f_equal. lia.
Qed.

Lemma zstore_tabulate {A} (f : Z -> A) n i x :
  0 <= i < n -> zstore (f <$> zrange 0 n) i x = Some ((fun j => if j =? i then x else f j) <$> zrange 0 n).
Proof.
  intros Hi. rewrite zstore_Some by (rewrite length_fmap, length_zrange; lia). f_equal.
  apply list_eq. intros j. destruct (decide (j < Z.to_nat n)%nat) as [Hj | Hj].
  - destruct (decide (j = Z.to_nat i)) as [-> | Hne].
    + rewrite list_lookup_insert_eq by (rewrite length_fmap, length_zrange; lia).
      unfold zrange. rewrite !list_lookup_fmap, lookup_seq_lt by lia. cbn. rewrite (proj2 (Z.eqb_eq _ i)) by lia. done.
    + rewrite list_lookup_insert_ne by done. unfold zrange. rewrite !list_lookup_fmap, lookup_seq_lt by lia. cbn.
      rewrite (proj2 (Z.eqb_neq _ i)) by lia. done.
  - rewrite !lookup_ge_None_2; [done | rewrite ?length_insert, length_fmap, length_zrange; lia..].
Qed.

(** ** Sums *)

Definition zsum {A} (f : A -> Z) (l : list A) : Z := foldr (fun a n => f a + n) 0 l.

Section sums.
Context {A : Type}.
Implicit Types (f g : A -> Z) (l : list A).

Lemma zsum_cons f x l : zsum f (x :: l) = f x + zsum f l.
Proof. done. Qed.

Lemma zsum_app f l k : zsum f (l ++ k) = zsum f l + zsum f k.
Proof. induction l as [| x l IH]; [done |]. cbn [app]. rewrite !zsum_cons. lia. Qed.

Lemma zsum_le f g l : (forall x, x ∈ l -> f x <= g x) -> zsum f l <= zsum g l.
Proof.
  induction l as [| x l IH]; intros H; [done |]. rewrite !zsum_cons.
  pose proof (H x ltac:(by left)). assert (zsum f l <= zsum g l); [| lia].
  apply IH. intros y Hy. apply H. by right.
Qed.

Lemma zsum_ext f g l : (forall x, x ∈ l -> f x = g x) -> zsum f l = zsum g l.
Proof. intros H. apply Z.le_antisymm; apply zsum_le; intros x Hx; rewrite H; done. Qed.

Lemma zsum_nonneg f l : (forall x, x ∈ l -> 0 <= f x) -> 0 <= zsum f l.
Proof.
  intros H. transitivity (zsum (fun _ : A => 0) l); [| by apply zsum_le].
  induction l; [done |]. rewrite zsum_cons. apply IHl. intros. apply H. by right.
Qed.

Lemma zsum_member f l x :
  (forall x, x ∈ l -> 0 <= f x) -> x ∈ l -> f x <= zsum f l.
Proof.
  induction l as [| y l IH]; intros H Hx; [by apply not_elem_of_nil in Hx |].
  rewrite zsum_cons. apply elem_of_cons in Hx as [-> | Hx].
  - pose proof (zsum_nonneg f l ltac:(intros; apply H; by right)). lia.
  - pose proof (H y ltac:(by left)). pose proof (IH ltac:(intros; apply H; by right) Hx). lia.
Qed.

Lemma zsum_plus f g l : zsum (fun x => f x + g x) l = zsum f l + zsum g l.
Proof. induction l as [| x l IH]; [done |]. rewrite !zsum_cons. lia. Qed.

Lemma zsum_insert f l i x y :
  l !! i = Some x -> zsum f (<[i := y]> l) = zsum f l - f x + f y.
Proof.
  intros H. pose proof (lookup_lt_Some _ _ _ H). rewrite insert_take_drop by done.
  rewrite <- (take_drop_middle l i x H) at 3. rewrite !zsum_app, !zsum_cons. lia.
Qed.

Lemma zsum_le_eq f g l :
  (forall x, x ∈ l -> f x <= g x) -> zsum g l <= zsum f l -> forall x, x ∈ l -> f x = g x.
Proof.
  intros Hle Hs x Hx. pose proof (Hle x Hx). set (h := fun x => g x - f x).
  assert (h x <= zsum h l) as Hm.
  { apply zsum_member; [| done]. intros y Hy. specialize (Hle y Hy). unfold h. lia. }
  assert (zsum g l = zsum f l + zsum h l) as E; [| unfold h at 1 in Hm; lia].
  rewrite <- zsum_plus. apply zsum_ext. intros. unfold h. lia.
Qed.

Lemma zsum_fmap {B} (h : B -> A) f (l : list B) : zsum f (h <$> l) = zsum (fun b => f (h b)) l.
Proof. induction l as [| x l IH]; [done |]. rewrite fmap_cons, !zsum_cons, IH. done. Qed.
End sums.

(** ** Sorted lists *)

Lemma StronglySorted_sublist {A} (R : relation A) l k :
  l `sublist_of` k -> StronglySorted R k -> StronglySorted R l.
Proof.
  induction 1 as [| x l k Hlk IH | x l k Hlk IH]; intros Hk; [constructor | |];
    apply StronglySorted_cons in Hk as [Hx Hk]; [| by apply IH].
  apply StronglySorted_cons. split; [| by apply IH].
  apply Forall_forall. intros y Hy. rewrite Forall_forall in Hx. apply Hx.
  by eapply elem_of_submseteq, sublist_submseteq.
Qed.

Lemma mjoin_cons {A} (x : list A) (l : list (list A)) : mjoin (x :: l) = x ++ mjoin l.
Proof. done. Qed.

Lemma mjoin_app {A} (l k : list (list A)) : mjoin (l ++ k) = mjoin l ++ mjoin k.
Proof. induction l as [| x l IH]; [done |]. cbn [app]. by rewrite !mjoin_cons, IH, app_assoc. Qed.

(** One list of a list of lists changes. *)
Lemma mjoin_insert_perm {A} (xs : list (list A)) i x x' :
  xs !! i = Some x -> exists rest, mjoin xs ≡ₚ x ++ rest /\ mjoin (<[i := x']> xs) ≡ₚ x' ++ rest.
Proof.
  intros Hx. exists (mjoin (take i xs) ++ mjoin (drop (S i) xs)).
  rewrite insert_take_drop by (by eapply lookup_lt_Some).
  rewrite <- (take_drop_middle _ _ _ Hx) at 1. rewrite !mjoin_app, !mjoin_cons.
  split; rewrite !app_assoc; apply Permutation_app_tail, Permutation_app_comm.
Qed.

(** ** Lists of optional values *)

Lemma omap_insert_perm {A B} (f : A -> option B) (l : list A) i x y :
  l !! i = Some x ->
  exists rest, omap f l ≡ₚ option_list (f x) ++ rest /\ omap f (<[i := y]> l) ≡ₚ option_list (f y) ++ rest.
Proof.
  revert i. induction l as [| z l IH]; intros [| i] Hi; try done; cbn in Hi.
  - injection Hi as ->. exists (omap f l). cbn. destruct (f x), (f y); done.
  - destruct (IH i Hi) as (rest & H1 & H2). exists (option_list (f z) ++ rest).
    rewrite Permutation_app_swap_app, (Permutation_app_swap_app (option_list (f y))).
    cbn. destruct (f z); cbn; by rewrite H1, H2.
Qed.

Lemma omap_NoDup_lookup {A B} (f : A -> option B) (l : list A) i j x y b :
  NoDup (omap f l) -> l !! i = Some x -> l !! j = Some y -> f x = Some b -> f y = Some b -> i = j.
Proof.
  revert i j. induction l as [| z l IH]; intros i j Hnd Hi Hj Hx Hy; [done |].
  assert (forall k w, l !! k = Some w -> f w = Some b -> b ∈ omap f l) as Hin.
  { intros k w Hk Hw. apply list_elem_of_omap. exists w. split; [| done].
    by eapply list_elem_of_lookup_2. }
  cbn in Hnd. destruct i as [| i], j as [| j]; cbn in Hi, Hj; [done | | |].
  - injection Hi as ->. rewrite Hx in Hnd. apply NoDup_cons in Hnd as [Hnd _].
    destruct Hnd. by eapply Hin.
  - injection Hj as ->. rewrite Hy in Hnd. apply NoDup_cons in Hnd as [Hnd _].
    destruct Hnd. by eapply Hin.
  - f_equal. apply IH; try done. destruct (f z); [by apply NoDup_cons in Hnd as [_ ?] | done].
Qed.

Lemma imap_forallb {T} (f : nat -> T -> bool) l i x :
  forallb id (imap f l) = true -> l !! i = Some x -> f i x = true.
Proof.
  revert f i. induction l as [| y l IH]; intros f i Hall Hi; [done |].
  rewrite imap_cons in Hall. cbn in Hall. apply andb_true_iff in Hall as [Hy Hall].
  destruct i as [| i]; cbn in Hi; [by injection Hi as <- |]. exact (IH (f ∘ S) i Hall Hi).
Qed.

Lemma default_Some {T} (d : T) (o : option T) : (if o then true else false) = true -> o = Some (default d o).
Proof. by destruct o. Qed.

Lemma length_mjoin {A} (xs : list (list A)) :
  Z.of_nat (length (mjoin xs)) = zsum (fun x => Z.of_nat (length x)) xs.
Proof. induction xs as [| x xs IH]; [done |]. rewrite mjoin_cons, length_app, zsum_cons. lia. Qed.

Lemma zsum_perm {A} (f : A -> Z) (l k : list A) : l ≡ₚ k -> zsum f l = zsum f k.
Proof. induction 1; rewrite ?zsum_cons in *; lia. Qed.

Lemma filter_Forall_nil {A} (P : A -> Prop) `{!forall x, Decision (P x)} (l : list A) :
  Forall (fun x => ~ P x) l -> filter P l = [].
Proof.
  induction 1 as [| x l Hx _ IH]; [done |]. by rewrite filter_cons_False.
Qed.

Lemma filter_iff_in {A} (P Q : A -> Prop) `{!forall x, Decision (P x), !forall x, Decision (Q x)} (l : list A) :
  (forall x, x ∈ l -> P x <-> Q x) -> filter P l = filter Q l.
Proof.
  induction l as [| x l IH]; intros HPQ; [done |]. rewrite !filter_cons, IH by set_solver.
  pose proof (HPQ x). repeat case_decide; set_solver.
Qed.

Lemma filter_fmap_comp {A B} (f : A -> B) (P : B -> Prop) `{!forall x, Decision (P x)} (l : list A) :
  filter P (f <$> l) = f <$> filter (fun x => P (f x)) l.
Proof.
  induction l as [| x l IH]; [done |]. rewrite fmap_cons, !filter_cons, IH.
  by case_decide.
Qed.

(** Parts of a range that a test keeps. *)
Lemma filter_zrange_all P a b : (forall i, a <= i < b -> P i = true) -> List.filter P (zrange a b) = zrange a b.
Proof.
  intros H. rewrite (List.filter_ext_in P (fun _ => true)).
  - induction (zrange a b) as [| i l IH]; [done |]. cbn. by rewrite IH.
  - intros i Hi%list_elem_of_In%elem_of_zrange. by apply H.
Qed.

Lemma filter_zrange_none P a b : (forall i, a <= i < b -> P i = false) -> List.filter P (zrange a b) = [].
Proof.
  intros H. rewrite (List.filter_ext_in P (fun _ => false)).
  - by induction (zrange a b).
  - intros i Hi%list_elem_of_In%elem_of_zrange. by apply H.
Qed.

Lemma filter_zrange_prefix P a b c :
  a <= b <= c -> (forall i, a <= i < b -> P i = true) -> (forall i, b <= i < c -> P i = false) ->
  List.filter P (zrange a c) = zrange a b.
Proof.
  intros Hb Ht Hn. rewrite (zrange_split a b c), List.filter_app by lia.
  by rewrite filter_zrange_all, filter_zrange_none, app_nil_r.
Qed.

Lemma filter_zrange_suffix P a b c :
  a <= b <= c -> (forall i, b <= i < c -> P i = true) -> (forall i, a <= i < b -> P i = false) ->
  List.filter P (zrange a c) = zrange b c.
Proof.
  intros Hb Ht Hn. rewrite (zrange_split a b c), List.filter_app by lia.
  by rewrite filter_zrange_none, filter_zrange_all.
Qed.

Lemma filter_zrange_split P a b c d :
  a <= b <= c -> c <= d -> (forall i, a <= i < b \/ c <= i < d -> P i = true) ->
  (forall i, b <= i < c -> P i = false) -> List.filter P (zrange a d) = zrange a b ++ zrange c d.
Proof.
  intros Hb Hd Ht Hn. rewrite (zrange_split a c d), List.filter_app by lia.
  rewrite (filter_zrange_prefix P a b c), (filter_zrange_all P c d); auto.
Qed.

Lemma filter_fmap {A B} (f : A -> B) (P : B -> bool) l : List.filter P (f <$> l) = f <$> List.filter (fun x => P (f x)) l.
Proof. induction l as [| x l IH]; [done |]. cbn. destruct (P (f x)); cbn; by rewrite IH. Qed.

Lemma filter_length_negb {A} (f : A -> bool) l :
  (length (List.filter f l) + length (List.filter (fun x => negb (f x)) l) = length l)%nat.
Proof. induction l as [| x l IH]; [done |]. cbn. destruct (f x); cbn; lia. Qed.

Lemma elem_of_filter_seq (P : nat -> bool) len k : k ∈ List.filter P (seq 0 len) <-> (k < len)%nat /\ P k = true.
Proof. rewrite list_elem_of_In, List.filter_In, in_seq. intuition lia. Qed.

(** Sums and concatenations over [0, n) with one element changed. *)
Lemma seq_middle k n : (k < n)%nat -> seq 0 n = seq 0 k ++ k :: seq (S k) (n - S k).
Proof. intros Hk. replace n with (k + S (n - S k))%nat at 1 by lia. by rewrite seq_app. Qed.

Lemma zsum_seq_update (f f' : nat -> Z) n k :
  (k < n)%nat -> (forall k', (k' < n)%nat -> k' <> k -> f' k' = f k') ->
  zsum f' (seq 0 n) = zsum f (seq 0 n) - f k + f' k.
Proof.
  intros Hk Hf. rewrite (seq_middle k n Hk), !zsum_app, !zsum_cons.
  rewrite (zsum_ext f' f (seq 0 k)) by (intros k' Hk'%elem_of_seq; apply Hf; lia).
  rewrite (zsum_ext f' f (seq (S k) _)) by (intros k' Hk'%elem_of_seq; apply Hf; lia). lia.
Qed.

Lemma zsum_zrange_update (f f' : Z -> Z) a b k :
  a <= k < b -> (forall k', a <= k' < b -> k' <> k -> f' k' = f k') ->
  zsum f' (zrange a b) = zsum f (zrange a b) - f k + f' k.
Proof.
  intros Hk Hf. rewrite (zrange_split a k b), (zrange_cons k b), !zsum_app, !zsum_cons by lia.
  rewrite (zsum_ext f' f (zrange a k)) by (intros k' Hk'%elem_of_zrange; apply Hf; lia).
  rewrite (zsum_ext f' f (zrange (k + 1) b)) by (intros k' Hk'%elem_of_zrange; apply Hf; lia). lia.
Qed.

Lemma zsum_telescope (g : Z -> Z) a b : a <= b -> zsum (fun i => g (i + 1) - g i) (zrange a b) = g b - g a.
Proof.
  intros Hab. replace b with (a + Z.of_nat (Z.to_nat (b - a))) by lia. generalize (Z.to_nat (b - a)) as n. clear b Hab.
  induction n as [| n IH]; [rewrite zrange_nil by lia; cbn; replace (a + Z.of_nat 0) with a by lia; lia |].
  replace (a + Z.of_nat (S n)) with (a + Z.of_nat n + 1) by lia.
  rewrite zrange_snoc, zsum_app, zsum_cons, IH by lia. cbn. lia.
Qed.

Lemma mjoin_seq_update {A} (f f' : nat -> list A) x n k :
  (k < n)%nat -> (forall k', (k' < n)%nat -> k' <> k -> f' k' = f k') -> f' k ≡ₚ f k ++ x ->
  mjoin (f' <$> seq 0 n) ≡ₚ mjoin (f <$> seq 0 n) ++ x.
Proof.
  intros Hk Hf Hx. rewrite (seq_middle k n Hk), !fmap_app, !fmap_cons, !mjoin_app, !mjoin_cons.
  assert (f' <$> seq 0 k = f <$> seq 0 k) as ->.
  { apply list_fmap_ext. intros i k' Hi%lookup_seq. apply Hf; lia. }
  assert (f' <$> seq (S k) (n - S k) = f <$> seq (S k) (n - S k)) as ->.
  { apply list_fmap_ext. intros i k' Hi%lookup_seq. apply Hf; lia. }
  rewrite Hx, <- !app_assoc. do 2 f_equiv. by rewrite Permutation_app_comm.
Qed.
