(* ===== verification/BitUtils.v ===== *)
(** * Counting zeros

    [CountZeros<uint64_t>] of include/duckdb/common/bit_utils.hpp: the leading and
    trailing zeros of a word, found with a de Bruijn multiplication and a table. *)

From S2P Require Import Prelude.

Definition index64msb : list Z :=
  [0; 47; 1; 56; 48; 27; 2; 60; 57; 49; 41; 37; 28; 16; 3; 61;
   54; 58; 35; 52; 50; 42; 21; 44; 38; 32; 29; 23; 17; 11; 4; 62;
   46; 55; 26; 59; 40; 36; 15; 53; 34; 51; 20; 43; 31; 22; 10; 45;
   25; 39; 14; 33; 19; 30; 9; 24; 13; 18; 8; 12; 7; 6; 5; 63].

Definition debruijn64msb : Z := 0x03F79D71B4CB0A89.

Definition index64lsb : list Z :=
  [63; 0; 58; 1; 59; 47; 53; 2; 60; 39; 48; 27; 54; 33; 42; 3;
   61; 51; 37; 40; 49; 18; 28; 20; 55; 30; 34; 11; 43; 14; 22; 4;
   62; 57; 46; 52; 38; 26; 32; 41; 50; 36; 17; 19; 29; 10; 13; 21;
   56; 45; 25; 31; 35; 16; 9; 12; 44; 24; 15; 8; 23; 7; 6; 5].

Definition debruijn64lsb : Z := 0x07EDD5E59A4E28C2.

(** [value |= value >> w] for every width. *)
Definition smear (value : Z) : Z :=
  foldl (fun value w => Z.lor value (Z.shiftr value w)) value [1; 2; 4; 8; 16; 32].

Definition Leading (value_in : Z) : Z :=
  if value_in =? 0 then 64
  else u64 (63 - znth 0 index64msb (Z.shiftr (u64 (smear value_in * debruijn64msb)) 58)).

Definition Trailing (value_in : Z) : Z :=
  if value_in =? 0 then 64
  else znth 0 index64lsb (Z.shiftr (u64 (Z.land value_in (u64 (- value_in)) * debruijn64lsb)) 58).

(** ** The lowest bit *)

Lemma land_opp_odd m : Z.land (2 * m + 1) (- (2 * m + 1)) = 1.
Proof.
  replace (- (2 * m + 1)) with (Z.lnot (2 * m)) by (rewrite <- Z.opp_lnot; unfold Z.lnot; lia).
  apply Z.bits_inj'. intros i Hi. rewrite Z.land_spec, Z.lnot_spec by done.
  destruct (decide (i = 0)) as [-> |]; [by rewrite Z.testbit_odd_0, Z.testbit_even_0 |].
  replace i with (Z.succ (i - 1)) by lia. rewrite Z.testbit_odd_succ, Z.testbit_even_succ by lia.
  rewrite andb_negb_r, Z.bits_above_log2; [done | lia | change (Z.log2 1) with 0; lia].
Qed.

(** A positive number is an odd number shifted. *)
Lemma odd_part v : 0 < v -> exists k m, 0 <= k /\ v = 2 ^ k * (2 * m + 1).
Proof.
  intros Hv. remember (Z.to_nat v) as n eqn:En. revert v Hv En.
  induction (lt_wf n) as [n _ IH]. intros v Hv ->. destruct (Z.Even_or_Odd v) as [[u Hu] | [m Hm]].
  - destruct (IH (Z.to_nat u) ltac:(lia) u ltac:(lia) eq_refl) as (k & m & Hk & E).
    exists (k + 1), m. rewrite Z.pow_add_r, Hu, E by lia. split; [lia | ring].
  - exists 0, m. split; [lia |]. rewrite Hm. ring.
Qed.

Lemma land_lowest v : 0 < v < 2 ^ 64 ->
  exists k m, 0 <= k < 64 /\ v = 2 ^ k * (2 * m + 1) /\ Z.land v (u64 (- v)) = 2 ^ k.
Proof.
  intros Hv. destruct (odd_part v) as (k & m & Hk & E); [lia |]. exists k, m.
  assert (k < 64).
  { destruct (Z.lt_ge_cases k 64); [done |]. pose proof (Z.pow_pos_nonneg 2 k ltac:(lia) Hk).
    pose proof (Z.pow_le_mono_r 2 64 k ltac:(lia) ltac:(lia)). assert (1 <= 2 * m + 1) by nia. nia. }
  split; [lia |]. split; [done |]. unfold u64. rewrite <- Z.land_ones by lia.
  rewrite (Z.land_comm (- v)), Z.land_assoc, Z.land_ones, Z.mod_small by lia.
  rewrite E, Z.mul_comm, <- Z.mul_opp_l, <- !Z.shiftl_mul_pow2, <- Z.shiftl_land, land_opp_odd by done.
  by rewrite Z.shiftl_mul_pow2, Z.mul_1_l by done.
Qed.

Lemma index64lsb_table k :
  0 <= k < 64 -> znth 0 index64lsb (Z.shiftr (u64 (2 ^ k * debruijn64lsb)) 58) = k.
Proof.
  intros Hk. assert (Forall (fun k => znth 0 index64lsb (Z.shiftr (u64 (2 ^ k * debruijn64lsb)) 58) = k)
    (zrange 0 64)) as H by (apply (bool_decide_unpack _); vm_compute; exact I).
  rewrite Forall_forall in H. apply H, elem_of_zrange. lia.
Qed.

(** ** The highest bit *)

(** The [w] bits below and including bit [n] are set, those above are not. *)
Definition top_bits (n w x : Z) : Prop :=
  0 <= x /\ forall i, 0 <= i -> (n < i -> Z.testbit x i = false) /\ (n - w < i <= n -> Z.testbit x i = true).

Lemma top_bits_step n w x : 0 <= w -> top_bits n w x -> top_bits n (2 * w) (Z.lor x (Z.shiftr x w)).
Proof.
  intros Hw [Hx H]. split; [apply Z.lor_nonneg; split; [done | by apply Z.shiftr_nonneg] |].
  intros i Hi. rewrite Z.lor_spec, Z.shiftr_spec by done.
  destruct (H i Hi) as [H1 H2]. destruct (H (i + w)) as [H3 H4]; [lia |]. split; intros Hn.
  - by rewrite H1, H3 by lia.
  - destruct (Z.lt_ge_cases (n - w) i); [by rewrite H2 by lia | by rewrite H4, orb_true_r by lia].
Qed.

Lemma top_bits_log2 v : 0 < v -> top_bits (Z.log2 v) 1 v.
Proof.
  intros Hv. split; [lia |]. intros i Hi. split; intros Hn; [by apply Z.bits_above_log2; lia |].
  replace i with (Z.log2 v) by lia. by apply Z.bit_log2.
Qed.

Lemma smear_ones v : 0 < v < 2 ^ 64 -> smear v = Z.ones (Z.log2 v + 1).
Proof.
  intros Hv. assert (Z.log2 v < 64) as Hn by (apply Z.log2_lt_pow2; lia).
  pose proof (Z.log2_nonneg v) as Hn'.
  assert (top_bits (Z.log2 v) 64 (smear v)) as [_ H].
  { pose proof (top_bits_log2 v ltac:(lia)) as H. unfold smear. cbn [foldl].
    do 6 (apply top_bits_step in H; [| lia]). exact H. }
  apply Z.bits_inj'. intros i Hi. destruct (H i Hi) as [H1 H2].
  destruct (Z.lt_ge_cases (Z.log2 v) i).
  - rewrite H1, Z.ones_spec_high by lia. done.
  - rewrite H2, Z.ones_spec_low by lia. done.
Qed.

Lemma index64msb_table n :
  0 <= n < 64 -> znth 0 index64msb (Z.shiftr (u64 (Z.ones (n + 1) * debruijn64msb)) 58) = n.
Proof.
  intros Hn. assert (Forall (fun n => znth 0 index64msb (Z.shiftr (u64 (Z.ones (n + 1) * debruijn64msb)) 58) = n)
    (zrange 0 64)) as H by (apply (bool_decide_unpack _); vm_compute; exact I).
  rewrite Forall_forall in H. apply H, elem_of_zrange. lia.
Qed.

(** ** Theorems *)

Lemma Trailing_spec v :
  0 < v < 2 ^ 64 -> exists m, 0 <= Trailing v < 64 /\ v = 2 ^ Trailing v * (2 * m + 1).
Proof.
  intros Hv. destruct (land_lowest v Hv) as (k & m & Hk & E & El). exists m.
  unfold Trailing. rewrite (proj2 (Z.eqb_neq v 0)), El, index64lsb_table by lia. done.
Qed.

(** For every word that is not zero the tables give the position of its highest
    bit and of its lowest bit: [63 - Leading v] is the logarithm of [v] and
    [2 ^ Trailing v] is the largest power of 2 that divides [v]. *)
Theorem CountZeros_correct v :
  0 < v < 2 ^ 64 ->
  Leading v = 63 - Z.log2 v /\ exists m, 0 <= Trailing v < 64 /\ v = 2 ^ Trailing v * (2 * m + 1).
Proof.
  intros Hv. split; [| by apply Trailing_spec].
  assert (Z.log2 v < 64) as Hn by (apply Z.log2_lt_pow2; lia). pose proof (Z.log2_nonneg v).
  unfold Leading. rewrite (proj2 (Z.eqb_neq v 0)), smear_ones, index64msb_table by lia.
  unfold u64. rewrite Z.mod_small by lia. done.
Qed.

Lemma CountZeros_correct_witness :
  Leading 40 = 63 - Z.log2 40 /\ exists m, 0 <= Trailing 40 < 64 /\ 40 = 2 ^ Trailing 40 * (2 * m + 1).
Proof. apply (CountZeros_correct 40). lia. Defined.
