(* ===== verification/Validity.v ===== *)
(** Validity masks (src/src/include/duckdb/common/types/validity_mask.hpp and
    src/src/common/types/validity_mask.cpp).

    A mask is a bitmap with 64 rows per entry, or no bitmap at all when every
    row is valid.  Writes go through [zstore], so a write outside of the
    allocation is undefined ([None]); the theorems show the operations defined
    and describe every bit of their result. *)
From S2P Require Import Prelude.

Definition BITS_PER_VALUE : Z := 64.

Definition MAX_ENTRY : Z := 2 ^ 64 - 1.

Definition EntryCount (count : Z) : Z := (count + (BITS_PER_VALUE - 1)) / BITS_PER_VALUE.

(** [TemplatedValidityData(count)] and [TemplatedValidityData(validity_mask, count)] *)
Definition ValidityData_new (count : Z) : list Z :=
  replicate (Z.to_nat (EntryCount count)) MAX_ENTRY.

Definition ValidityData_copy (data : list Z) (count : Z) : option (list Z) :=
  if decide (EntryCount count <= Z.of_nat (length data))
  then Some (take (Z.to_nat (EntryCount count)) data) else None.

Record ValidityMask : Type := mkMask {
  validity_mask : option (list Z);
  capacity : Z
}.

Definition ValidityMask_empty (target_count : Z) : ValidityMask := mkMask None target_count.

Definition ValidityMaskSize (count : Z) : Z := EntryCount count * 8.

Definition AllValid (m : ValidityMask) : bool :=
  match validity_mask m with None => true | Some _ => false end.

Definition IsMaskSet (m : ValidityMask) : bool :=
  match validity_mask m with None => false | Some _ => true end.

(** ** Entries *)

Definition not64 (x : Z) : Z := u64 (Z.lnot x).
Definition shl64 (x k : Z) : Z := u64 (Z.shiftl x k).

Definition GetValidityEntry (m : ValidityMask) (entry_idx : Z) : Z :=
  match validity_mask m with
  | None => MAX_ENTRY
  | Some data => znth 0 data entry_idx
  end.

Definition EntryAllValid (entry : Z) : bool := entry =? MAX_ENTRY.
Definition NoneValid (entry : Z) : bool := entry =? 0.

Definition EntryRowIsValid (entry idx_in_entry : Z) : bool :=
  negb (Z.land entry (shl64 1 idx_in_entry) =? 0).

Definition GetEntryIndex (row_idx : Z) : Z * Z :=
  (row_idx / BITS_PER_VALUE, row_idx mod BITS_PER_VALUE).

Definition EntryWithValidBits (n : Z) : Z :=
  if n =? 0 then 0 else Z.shiftr MAX_ENTRY (BITS_PER_VALUE - n).

(** ** Rows *)

Definition RowIsValidUnsafe (m : ValidityMask) (row_idx : Z) : bool :=
  let '(entry_idx, idx_in_entry) := GetEntryIndex row_idx in
  EntryRowIsValid (GetValidityEntry m entry_idx) idx_in_entry.

Definition RowIsValid (m : ValidityMask) (row_idx : Z) : bool :=
  if AllValid m then true else RowIsValidUnsafe m row_idx.

(** [validity_mask[entry_idx] = f(validity_mask[entry_idx])] *)
Definition update_entry (m : ValidityMask) (entry_idx : Z) (f : Z -> Z) : option ValidityMask :=
  data ← validity_mask m;
  entry ← zload data entry_idx;
  data' ← zstore data entry_idx (f entry);
  Some (mkMask (Some data') (capacity m)).

Definition SetValidUnsafe (m : ValidityMask) (row_idx : Z) : option ValidityMask :=
  let '(entry_idx, idx_in_entry) := GetEntryIndex row_idx in
  update_entry m entry_idx (fun e => Z.lor e (shl64 1 idx_in_entry)).

Definition SetValid (m : ValidityMask) (row_idx : Z) : option ValidityMask :=
  if AllValid m then Some m else SetValidUnsafe m row_idx.

Definition SetInvalidUnsafe (m : ValidityMask) (row_idx : Z) : option ValidityMask :=
  let '(entry_idx, idx_in_entry) := GetEntryIndex row_idx in
  update_entry m entry_idx (fun e => Z.land e (not64 (shl64 1 idx_in_entry))).

(** [Initialize(count)] and [Initialize()] *)
Definition Initialize (count : Z) : ValidityMask := mkMask (Some (ValidityData_new count)) count.

Definition EnsureWritable (m : ValidityMask) : ValidityMask :=
  match validity_mask m with None => Initialize (capacity m) | Some _ => m end.

Definition SetInvalid (m : ValidityMask) (row_idx : Z) : option ValidityMask :=
  SetInvalidUnsafe (EnsureWritable m) row_idx.

Definition SetRow (m : ValidityMask) (row_idx : Z) (valid : bool) : option ValidityMask :=
  if valid then SetValid m row_idx else SetInvalid m row_idx.

Definition Reset (target_count : Z) : ValidityMask := mkMask None target_count.

Definition Copy (other : ValidityMask) (count : Z) : option ValidityMask :=
  match validity_mask other with
  | None => Some (mkMask None count)
  | Some data => data' ← ValidityData_copy data count; Some (mkMask (Some data') count)
  end.

(** ** Counting valid rows *)

(** Kernighan's loop [while (entry) { entry &= entry - 1; ++valid; }]; an entry
    has 64 bits, so 64 iterations empty it. *)
Fixpoint kernighan (fuel : nat) (entry valid : Z) : Z :=
  match fuel with
  | O => valid
  | S fuel =>
      if entry =? 0 then valid
      else kernighan fuel (Z.land entry (entry - 1)) (valid + 1)
  end.

Definition CountEntry (m : ValidityMask) (count : Z) (valid entry_idx : Z) : Z :=
  let entry := GetValidityEntry m entry_idx in
  if (entry_idx + 1 =? EntryCount count) && negb (count mod BITS_PER_VALUE =? 0) then
    let shift := BITS_PER_VALUE - count mod BITS_PER_VALUE in
    let mask := Z.shiftr MAX_ENTRY shift in
    kernighan 64 (Z.land entry mask) valid
  else if EntryAllValid entry then valid + BITS_PER_VALUE
  else kernighan 64 entry valid.

Definition CountValid (m : ValidityMask) (count : Z) : Z :=
  if AllValid m || (count =? 0) then count
  else foldl (CountEntry m count) 0 (zrange 0 (EntryCount count)).

Definition CheckAllValid (m : ValidityMask) (count : Z) : bool := CountValid m count =? count.
Definition CheckAllInvalid (m : ValidityMask) (count : Z) : bool := CountValid m count =? 0.

(** [CheckAllValid(to, from)] *)
Definition CheckAllValidRange (m : ValidityMask) (to from : Z) : bool :=
  if AllValid m then true else forallb (RowIsValid m) (zrange from to).

(** ** Ranges of rows *)

Definition with_data (m : ValidityMask) (f : list Z -> option (list Z)) : option ValidityMask :=
  data ← validity_mask m; data' ← f data; Some (mkMask (Some data') (capacity m)).

Definition SetRangeInvalid (m : ValidityMask) (count begin_entry end_entry : Z) : option ValidityMask :=
  let m := EnsureWritable m in
  if count =? 0 then Some m else
  let last_entry_index := EntryCount count - 1 in
  with_data m (fun data =>
    data ← ofold (fun data i => zstore data i 0) data
             (zrange begin_entry (Z.min last_entry_index end_entry));
    if end_entry <=? last_entry_index then Some data else
    let last_entry_bits := count mod BITS_PER_VALUE in
    zstore data last_entry_index
      (if last_entry_bits =? 0 then 0 else shl64 MAX_ENTRY last_entry_bits)).

Definition and_entry (data : list Z) (i mask : Z) : option (list Z) :=
  entry ← zload data i; zstore data i (Z.land entry mask).

Definition SetEntryRangeInvalid (m : ValidityMask)
    (count begin_entry begin_idx end_entry end_idx : Z) : option ValidityMask :=
  let m := EnsureWritable m in
  if count =? 0 then Some m else
  let begin_mask :=
    if begin_idx =? 0 then 0 else Z.shiftr MAX_ENTRY (BITS_PER_VALUE - begin_idx) in
  let end_mask := shl64 MAX_ENTRY end_idx in
  with_data m (fun data =>
    if begin_entry =? end_entry then
      and_entry data begin_entry (Z.lor begin_mask end_mask)
    else
      data ← and_entry data begin_entry begin_mask;
      data ← and_entry data end_entry end_mask;
      ofold (fun data i => zstore data i 0) data (zrange (begin_entry + 1) (end_entry - 1 + 1))).

Definition SetAllInvalid (m : ValidityMask) (count : Z) : option ValidityMask :=
  SetRangeInvalid m count 0 (EntryCount count).

Definition SetAllValid (m : ValidityMask) (count : Z) : option ValidityMask :=
  let m := EnsureWritable m in
  if count =? 0 then Some m else
  let last_entry_index := EntryCount count - 1 in
  with_data m (fun data =>
    data ← ofold (fun data i => zstore data i MAX_ENTRY) data (zrange 0 last_entry_index);
    let last_entry_bits := count mod BITS_PER_VALUE in
    entry ← zload data last_entry_index;
    zstore data last_entry_index
      (Z.lor entry (if last_entry_bits =? 0 then MAX_ENTRY
                    else not64 (shl64 MAX_ENTRY last_entry_bits)))).

(** ** Combining, resizing and slicing masks *)

(** [same_buffer] is the comparison [validity_mask == other.validity_mask] of
    the two data pointers. *)
Definition Combine (m other : ValidityMask) (same_buffer : bool) (count : Z) : option ValidityMask :=
  match validity_mask other, validity_mask m with
  | None, _ => Some m
  | Some _, None => Some other
  | Some other_data, Some data =>
      if same_buffer then Some m else
      result ← ofold (fun result entry_idx =>
          x ← zload data entry_idx; y ← zload other_data entry_idx;
          zstore result entry_idx (Z.land x y))
        (ValidityData_new count) (zrange 0 (EntryCount count));
      Some (mkMask (Some result) count)
  end.

Definition Resize (m : ValidityMask) (new_size : Z) : option ValidityMask :=
  let old_size := capacity m in
  if new_size <=? old_size then Some m else
  match validity_mask m with
  | None => Some (mkMask None new_size)
  | Some data =>
      new_data ← ofold (fun new_data i => x ← zload data i; zstore new_data i x)
        (ValidityData_new new_size) (zrange 0 (EntryCount old_size));
      new_data ← ofold (fun new_data i => zstore new_data i MAX_ENTRY)
        new_data (zrange (EntryCount old_size) (EntryCount new_size));
      Some (mkMask (Some new_data) new_size)
  end.

Definition IsAligned (count : Z) : bool := count mod BITS_PER_VALUE =? 0.

(** The last, ragged entry of an aligned slice keeps the target's bits past the
    end. *)
Definition ragged_entry (tgt_entry src_entry ragged : Z) : Z :=
  Z.lor (Z.land tgt_entry (shl64 MAX_ENTRY ragged))
        (Z.land src_entry (Z.shiftr MAX_ENTRY (BITS_PER_VALUE - ragged))).

(** First branch of [SliceInPlace]: both offsets aligned, whole entries copied. *)
Definition SliceAligned (data : list Z) (source : option (list Z))
    (target_offset source_offset count : Z) : option (list Z) :=
  let ragged := count mod BITS_PER_VALUE in
  let entire_units := count / BITS_PER_VALUE in
  let source_offset_entries := EntryCount source_offset in
  let target_offset_entries := EntryCount target_offset in
  data ← ofold (fun data i =>
      x ← match source with
          | None => Some MAX_ENTRY
          | Some src => zload src (source_offset_entries + i)
          end;
      zstore data (target_offset_entries + i) x) data (zrange 0 entire_units);
  if ragged =? 0 then Some data else
  src_entry ← match source with
              | None => Some MAX_ENTRY
              | Some src => zload src (source_offset_entries + entire_units)
              end;
  tgt_entry ← zload data (target_offset_entries + entire_units);
  zstore data (target_offset_entries + entire_units) (ragged_entry tgt_entry src_entry ragged).

(** Second branch: only the target is aligned, entries are stitched together.
    A source without bitmap is a null pointer here. *)
Definition SliceShift (data : list Z) (source : option (list Z))
    (target_offset source_offset count : Z) : option (list Z) :=
  let ragged := count mod BITS_PER_VALUE in
  let entire_units := count / BITS_PER_VALUE in
  let tail := source_offset mod BITS_PER_VALUE in
  let head := BITS_PER_VALUE - tail in
  let s := source_offset / BITS_PER_VALUE in
  let t := target_offset / BITS_PER_VALUE in
  src ← source;
  src_entry ← zload src s;
  '(data, src_entry) ← ofold (fun st i =>
      let '(data, src_entry) := st in
      let tgt_entry := Z.shiftr src_entry tail in
      src_entry ← zload src (s + 1 + i);
      data ← zstore data (t + i) (Z.lor tgt_entry (shl64 src_entry head));
      Some (data, src_entry)) (data, src_entry) (zrange 0 entire_units);
  if ragged =? 0 then Some data else
  let tgt_entry := Z.shiftr src_entry tail in
  tgt_entry ← (if head <? ragged then
                 src_entry ← zload src (s + 1 + entire_units);
                 Some (Z.lor tgt_entry (shl64 src_entry head))
               else Some tgt_entry);
  let tgt_entry := Z.land tgt_entry (Z.shiftr MAX_ENTRY (BITS_PER_VALUE - ragged)) in
  old ← zload data (t + entire_units);
  zstore data (t + entire_units) (Z.lor tgt_entry (Z.land old (shl64 MAX_ENTRY ragged))).

Definition SliceInPlace (m other : ValidityMask) (target_offset source_offset count : Z)
    : option ValidityMask :=
  if AllValid m && AllValid other then Some m else
  let m := EnsureWritable m in
  if IsAligned source_offset && IsAligned target_offset then
    with_data m (fun data => SliceAligned data (validity_mask other) target_offset source_offset count)
  else if IsAligned target_offset then
    with_data m (fun data => SliceShift data (validity_mask other) target_offset source_offset count)
  else
    ofold (fun m i => SetRow m (target_offset + i) (RowIsValid other (source_offset + i)))
      m (zrange 0 count).

Definition Slice (other : ValidityMask) (m : ValidityMask) (source_offset count : Z) : option ValidityMask :=
  if AllValid other then Some (mkMask None (capacity m))
  else if source_offset =? 0 then Some other
  else SliceInPlace (ValidityMask_empty count) other 0 source_offset count.

(** A selection vector that is not set selects row [i] at position [i]. *)
Definition SelectionVector : Type := option (list Z).
Definition get_index (sel : SelectionVector) (i : Z) : Z :=
  match sel with None => i | Some s => znth 0 s i end.

Definition CopySel (m other : ValidityMask) (sel : SelectionVector)
    (source_offset target_offset copy_count : Z) : option ValidityMask :=
  if negb (IsMaskSet other) && negb (IsMaskSet m) then Some m
  else if match sel with None => true | Some _ => false end
          && IsAligned source_offset && IsAligned target_offset
  then SliceInPlace m other target_offset source_offset copy_count
  else ofold (fun m i =>
         SetRow m (target_offset + i) (RowIsValid other (get_index sel (source_offset + i))))
       m (zrange 0 copy_count).

(** ** Serialization *)

(** Little-endian bytes of an unsigned integer, as [WriteStream::Write<T>]
    stores them. *)
Fixpoint le_bytes (n : nat) (z : Z) : list Z :=
  match n with O => [] | S n => (z mod 256) :: le_bytes n (z / 256) end.

Fixpoint le_value (bytes : list Z) : Z :=
  match bytes with [] => 0 | b :: bytes => b + 256 * le_value bytes end.

Inductive ValiditySerialization : Set := BITMASK | VALID_VALUES | INVALID_VALUES.

Definition flag_byte (f : ValiditySerialization) : Z :=
  match f with BITMASK => 0 | VALID_VALUES => 1 | INVALID_VALUES => 2 end.

Definition UINT16_MAX : Z := 2 ^ 16 - 1.
Definition UINT32_MAX : Z := 2 ^ 32 - 1.

(** The bytes [Write] appends to the stream; [NumericCast<uint32_t>] throws when
    the count does not fit. *)
Definition Write (m : ValidityMask) (count : Z) : res (list Z) :=
  let valid_values := CountValid m count in
  let invalid_values := count - valid_values in
  let bitmask_bytes := ValidityMaskSize count in
  let need_u32 := UINT16_MAX <=? count in
  let bytes_per_value := if need_u32 then 4 else 2 in
  let valid_value_size := bytes_per_value * valid_values + 4 in
  let invalid_value_size := bytes_per_value * invalid_values + 4 in
  if (valid_value_size <? bitmask_bytes) || (invalid_value_size <? bitmask_bytes) then
    let serialize_valid := valid_value_size <? invalid_value_size in
    let flag := if serialize_valid then VALID_VALUES else INVALID_VALUES in
    let n := Z.min valid_values invalid_values in
    if UINT32_MAX <? n then Throw InternalException else
    Ok (le_bytes 1 (flag_byte flag) ++ le_bytes 4 n ++
        concat ((fun i => le_bytes (if need_u32 then 4 else 2) i) <$>
                List.filter (fun i => eqb (RowIsValid m i) serialize_valid) (zrange 0 count)))
  else
    Ok (le_bytes 1 (flag_byte BITMASK) ++
        concat (le_bytes 8 <$> default [] (take (Z.to_nat (EntryCount count)) <$> validity_mask m))).

(** [ReadStream::Read<T>]: the next [n] bytes of the stream. *)
Definition read (n : nat) (s : list Z) : option (Z * list Z) :=
  if decide (n <= length s)%nat then Some (le_value (take n s), drop n s) else None.

(** [ReadData] into the entries of a fresh mask. *)
Fixpoint read_entries (n : nat) (s : list Z) : option (list Z * list Z) :=
  match n with
  | O => Some ([], s)
  | S n => '(e, s) ← read 8 s; '(es, s) ← read_entries n s; Some (e :: es, s)
  end.

Fixpoint read_indices (n : nat) (is_u32 is_valid : bool) (m : ValidityMask) (s : list Z)
    : option (ValidityMask * list Z) :=
  match n with
  | O => Some (m, s)
  | S n =>
      '(index, s) ← read (if is_u32 then 4 else 2) s;
      m ← SetRow m index is_valid;
      read_indices n is_u32 is_valid m s
  end.

(** [Read]: the mask and what is left of the stream. *)
Definition Read (s : list Z) (count : Z) : option (ValidityMask * list Z) :=
  let m := Initialize count in
  '(flag, s) ← read 1 s;
  if flag =? flag_byte BITMASK then
    '(data, s) ← read_entries (Z.to_nat (EntryCount count)) s;
    Some (mkMask (Some data) count, s)
  else
    let is_u32 := UINT16_MAX <=? count in
    let is_valid := flag =? flag_byte VALID_VALUES in
    '(serialize_count, s) ← read 4 s;
    m ← (if is_valid then SetAllInvalid m count else Some m);
    read_indices (Z.to_nat serialize_count) is_u32 is_valid m s.

(** ** Byte-per-row masks *)

Record ValidityArray : Type := mkArray { array_mask : option (list bool); array_capacity : Z }.

Definition ArrayRowIsValidUnsafe (a : list bool) (row_idx : Z) : bool := znth false a row_idx.

Definition ArrayAllValid (a : ValidityArray) : bool :=
  match array_mask a with None => true | Some _ => false end.

Definition ArrayInitialize (count : Z) (initial : bool) : ValidityArray :=
  mkArray (Some (replicate (Z.to_nat count) initial)) count.

Definition ArrayInitializeEmpty (a : ValidityArray) (count : Z) : ValidityArray :=
  mkArray (array_mask a) count.

Definition ArrayRowIsValid (a : ValidityArray) (row_idx : Z) : bool :=
  match array_mask a with None => true | Some rows => ArrayRowIsValidUnsafe rows row_idx end.

Definition ArraySetValid (a : ValidityArray) (row_idx : Z) : option ValidityArray :=
  match array_mask a with
  | None => Some a
  | Some rows => rows ← zstore rows row_idx true; Some (mkArray (Some rows) (array_capacity a))
  end.

(** One entry from the rows [row_idx, row_idx + n). *)
Definition pack_entry (a : list bool) (row_idx n : Z) : Z :=
  foldl (fun entry j =>
      if ArrayRowIsValidUnsafe a (row_idx + j) then Z.lor entry (shl64 1 j) else entry)
    0 (zrange 0 n).

Definition Pack (a : ValidityArray) (count : Z) : ValidityMask :=
  match array_mask a with
  | None => Reset count
  | Some rows =>
      let entire_entries := count / BITS_PER_VALUE in
      let ragged := count mod BITS_PER_VALUE in
      let entries := (fun i => pack_entry rows (i * BITS_PER_VALUE) BITS_PER_VALUE)
                     <$> zrange 0 entire_entries in
      let last := if ragged =? 0 then []
                  else [pack_entry rows (entire_entries * BITS_PER_VALUE) ragged] in
      mkMask (Some (entries ++ last)) count
  end.

(** ** Bits of entries *)

Lemma MAX_ENTRY_ones : MAX_ENTRY = Z.ones 64.
Proof. reflexivity. Qed.

Lemma testbit_u64 x j : 0 <= j < 64 -> Z.testbit (u64 x) j = Z.testbit x j.
Proof. intros. apply Z.mod_pow2_bits_low. lia. Qed.

Lemma testbit_not64 x j : 0 <= j < 64 -> Z.testbit (not64 x) j = negb (Z.testbit x j).
Proof. intros. unfold not64. by rewrite testbit_u64, Z.lnot_spec by lia. Qed.

Lemma testbit_shl64 x k j :
  0 <= j < 64 -> Z.testbit (shl64 x k) j = Z.testbit x (j - k).
Proof. intros. unfold shl64. by rewrite testbit_u64, Z.shiftl_spec by lia. Qed.

Lemma testbit_MAX j : 0 <= j -> Z.testbit MAX_ENTRY j = bool_decide (j < 64).
Proof.
  intros. rewrite MAX_ENTRY_ones. case_bool_decide.
  - apply Z.ones_spec_low. lia.
  - apply Z.ones_spec_high. lia.
Qed.

Lemma testbit_shl64_one k j : 0 <= j < 64 -> Z.testbit (shl64 1 k) j = bool_decide (j = k).
Proof.
  intros. rewrite testbit_shl64 by done.
  change 1 with (2 ^ 0) at 1. rewrite Z.pow2_bits_eqb by lia.
  case_bool_decide; [apply Z.eqb_eq | apply Z.eqb_neq]; lia.
Qed.

Lemma testbit_tail_mask k j :
  0 <= j < 64 -> 0 <= k -> Z.testbit (shl64 MAX_ENTRY k) j = bool_decide (k <= j).
Proof.
  intros. rewrite testbit_shl64 by done. destruct (decide (k <= j)).
  - rewrite testbit_MAX by lia. rewrite !bool_decide_true by lia. done.
  - rewrite Z.testbit_neg_r by lia. by rewrite bool_decide_false by lia.
Qed.

Lemma testbit_head_mask n j :
  0 <= j -> 0 <= n <= 64 ->
  Z.testbit (Z.shiftr MAX_ENTRY (BITS_PER_VALUE - n)) j = bool_decide (j < n).
Proof.
  intros. rewrite Z.shiftr_spec by done. unfold BITS_PER_VALUE.
  rewrite testbit_MAX by lia. apply bool_decide_ext. lia.
Qed.

Lemma EntryRowIsValid_testbit e i : 0 <= i < 64 -> EntryRowIsValid e i = Z.testbit e i.
Proof.
  intros Hi. unfold EntryRowIsValid. destruct (Z.testbit e i) eqn:E.
  - apply negb_true_iff, Z.eqb_neq. intros H0.
    assert (Z.testbit (Z.land e (shl64 1 i)) i = true) as H1.
    { rewrite Z.land_spec, E, testbit_shl64_one by done. by rewrite bool_decide_true. }
    rewrite H0, Z.testbit_0_l in H1. done.
  - apply negb_false_iff, Z.eqb_eq, Z.bits_inj'. intros j Hj.
    rewrite Z.land_spec, Z.testbit_0_l. destruct (decide (j = i)) as [-> | Hne]; [by rewrite E |].
    destruct (decide (j < 64)).
    + rewrite testbit_shl64_one, bool_decide_false by lia. apply andb_false_r.
    + unfold shl64, u64. rewrite Z.mod_pow2_bits_high by lia. apply andb_false_r.
Qed.

(** ** Bits of masks

    [wf_mask m n]: the mask has room for [n] rows and its entries are 64-bit
    words. *)
Definition wf_entries (data : list Z) : Prop := Forall (fun e => 0 <= e < 2 ^ 64) data.

Definition wf_mask (m : ValidityMask) (n : Z) : Prop :=
  match validity_mask m with
  | None => n <= capacity m
  | Some data => EntryCount n <= Z.of_nat (length data) /\ wf_entries data
  end.

Definition data_bit (data : list Z) (i : Z) : bool :=
  Z.testbit (znth 0 data (i / 64)) (i mod 64).

Lemma RowIsValid_data data c i : RowIsValid (mkMask (Some data) c) i = data_bit data i.
Proof.
  unfold RowIsValid, RowIsValidUnsafe, GetEntryIndex, GetValidityEntry, BITS_PER_VALUE. simpl.
  apply EntryRowIsValid_testbit. apply Z.mod_pos_bound. lia.
Qed.

Lemma EntryCount_spec n i : 0 <= i < n -> 0 <= i / 64 < EntryCount n.
Proof. unfold EntryCount, BITS_PER_VALUE. intros. zdm. Qed.

Lemma EntryCount_bound n e : 0 <= n -> e < EntryCount n <-> e * 64 < n.
Proof. unfold EntryCount, BITS_PER_VALUE. intros. zdm. Qed.

Lemma EntryCount_nonneg n : 0 <= n -> 0 <= EntryCount n.
Proof. unfold EntryCount, BITS_PER_VALUE. intros. zdm. Qed.

(** A write to one entry changes the rows of that entry only. *)
Lemma data_bit_insert data e v i :
  0 <= e < Z.of_nat (length data) -> 0 <= i ->
  data_bit (<[Z.to_nat e := v]> data) i =
    if decide (i / 64 = e) then Z.testbit v (i mod 64) else data_bit data i.
Proof.
  intros. unfold data_bit. rewrite znth_insert by (lia || zdm).
  repeat case_decide; congruence.
Qed.

Lemma update_entry_spec data c e f :
  0 <= e < Z.of_nat (length data) ->
  update_entry (mkMask (Some data) c) e f =
    Some (mkMask (Some (<[Z.to_nat e := f (znth 0 data e)]> data)) c).
Proof.
  intros. unfold update_entry. simpl. rewrite (zload_Some 0) by done. simpl.
  by rewrite zstore_Some.
Qed.

Lemma ValidityData_new_bit n i : 0 <= i < n -> data_bit (ValidityData_new n) i = true.
Proof.
  intros Hi. unfold data_bit, ValidityData_new.
  rewrite (znth_lookup _ _ _ MAX_ENTRY).
  - rewrite testbit_MAX by zdm. apply bool_decide_true. zdm.
  - apply lookup_replicate_2. pose proof (EntryCount_spec n i Hi). lia.
Qed.

Lemma ValidityData_new_length n : 0 <= n -> Z.of_nat (length (ValidityData_new n)) = EntryCount n.
Proof.
  intros. unfold ValidityData_new. rewrite length_replicate.
  pose proof (EntryCount_nonneg n). lia.
Qed.

Lemma wf_ValidityData_new n : wf_entries (ValidityData_new n).
Proof. apply Forall_replicate. unfold MAX_ENTRY. lia. Qed.

Lemma wf_insert data e v : wf_entries data -> 0 <= v < 2 ^ 64 -> wf_entries (<[e := v]> data).
Proof. intros. by apply Forall_insert. Qed.

Lemma wf_znth data e : wf_entries data -> 0 <= znth 0 data e < 2 ^ 64.
Proof. intros. apply (znth_Forall (fun e => 0 <= e < 2 ^ 64)); [done | lia]. Qed.

Lemma wf_entries_znth data :
  (forall k, 0 <= k < Z.of_nat (length data) -> 0 <= znth 0 data k < 2 ^ 64) -> wf_entries data.
Proof.
  intros H. apply Forall_lookup. intros k e Hk.
  pose proof (lookup_lt_Some _ _ _ Hk). specialize (H (Z.of_nat k)).
  unfold znth in H. rewrite Nat2Z.id, Hk in H. simpl in H. lia.
Qed.

Lemma land_range a b n : 0 <= n -> 0 <= a < 2 ^ n -> 0 <= b -> 0 <= Z.land a b < 2 ^ n.
Proof.
  intros. split; [apply Z.land_nonneg; lia |].
  destruct (decide (Z.land a b = 0)) as [-> | Hne]; [apply Z.pow_pos_nonneg; lia |].
  assert (0 <= Z.land a b) by (apply Z.land_nonneg; lia).
  apply Z.log2_lt_pow2; [lia |].
  pose proof (Z.log2_land a b). 
  destruct (decide (a = 0)) as [-> | ?]; [by rewrite Z.land_0_l in Hne |].
  assert (Z.log2 a < n) by (apply Z.log2_lt_pow2; lia). lia.
Qed.

Lemma lor_range a b n : 0 <= n -> 0 <= a < 2 ^ n -> 0 <= b < 2 ^ n -> 0 <= Z.lor a b < 2 ^ n.
Proof.
  intros. split; [apply Z.lor_nonneg; lia |].
  destruct (decide (Z.lor a b = 0)) as [-> | Hne]; [apply Z.pow_pos_nonneg; lia |].
  assert (0 <= Z.lor a b) by (apply Z.lor_nonneg; lia).
  apply Z.log2_lt_pow2; [lia |]. rewrite Z.log2_lor by lia.
  destruct (decide (a = 0)) as [-> |], (decide (b = 0)) as [-> |]; simpl;
    try (assert (Z.log2 a < n) by (apply Z.log2_lt_pow2; lia));
    try (assert (Z.log2 b < n) by (apply Z.log2_lt_pow2; lia)); try lia.
  - by rewrite Z.lor_0_r in Hne.
  - change (Z.log2 0) with 0. assert (0 <= Z.log2 b) by apply Z.log2_nonneg. lia.
  - change (Z.log2 0) with 0. assert (0 <= Z.log2 a) by apply Z.log2_nonneg. lia.
Qed.

(** ** Setting one row *)

Lemma set_row_frame data row b v :
  0 <= row -> row / 64 < Z.of_nat (length data) ->
  (forall j, 0 <= j < 64 -> Z.testbit v j = if decide (j = row mod 64) then b
                            else Z.testbit (znth 0 data (row / 64)) j) ->
  forall i, 0 <= i ->
    data_bit (<[Z.to_nat (row / 64) := v]> data) i = if decide (i = row) then b else data_bit data i.
Proof.
  intros Hr Hl Hv i Hi. rewrite data_bit_insert by zdm. case_decide as E.
  - rewrite Hv by zdm. destruct (decide (i = row)) as [-> |].
    + by rewrite decide_True.
    + rewrite decide_False by zdm. unfold data_bit. by rewrite E.
  - rewrite decide_False; [done |]. congruence.
Qed.

Lemma EnsureWritable_spec m n :
  wf_mask m n -> 0 <= n ->
  exists data c, EnsureWritable m = mkMask (Some data) c /\
    EntryCount n <= Z.of_nat (length data) /\ wf_entries data /\
    forall i, 0 <= i < n -> data_bit data i = RowIsValid m i.
Proof.
  destruct m as [[data |] c]; unfold wf_mask, EnsureWritable; simpl.
  - intros [? ?] ?. exists data, c. split_and!; [done..|].
    intros i ?. by rewrite RowIsValid_data.
  - intros Hc Hn. exists (ValidityData_new c), c. split_and!.
    + done.
    + rewrite ValidityData_new_length by lia. unfold EntryCount, BITS_PER_VALUE. zdm.
    + apply wf_ValidityData_new.
    + intros i ?. rewrite ValidityData_new_bit by lia. done.
Qed.

Lemma SetRow_spec m row b n :
  wf_mask m n -> 0 <= row < n ->
  exists m', SetRow m row b = Some m' /\ wf_mask m' n /\
    forall i, 0 <= i < n ->
      RowIsValid m' i = if decide (i = row) then b else RowIsValid m i.
Proof.
  intros Hwf Hrow. pose proof (EntryCount_spec n row Hrow) as He.
  destruct b; simpl.
  - destruct m as [[data |] c]; unfold SetValid; simpl.
    + destruct Hwf as [Hl Hd]. unfold SetValidUnsafe, GetEntryIndex, BITS_PER_VALUE.
      rewrite update_entry_spec by lia. eexists. split; [done |]. split.
      * split; [by rewrite length_insert |]. apply wf_insert; [done |].
        apply lor_range; [lia | by apply wf_znth | apply u64_range].
      * intros i Hi. rewrite !RowIsValid_data. apply set_row_frame; [lia..| | lia].
        intros j Hj. rewrite Z.lor_spec, testbit_shl64_one by done.
        case_decide; [by rewrite bool_decide_true, orb_true_r |].
        by rewrite bool_decide_false, orb_false_r.
    + eexists. split; [done |]. split; [done |]. intros i Hi. by case_decide.
  - unfold SetInvalid. destruct (EnsureWritable_spec m n Hwf) as (data & c & -> & Hl & Hd & Hb); [lia |].
    unfold SetInvalidUnsafe, GetEntryIndex, BITS_PER_VALUE.
    rewrite update_entry_spec by lia. eexists. split; [done |]. split.
    + split; [by rewrite length_insert |]. apply wf_insert; [done |].
      apply land_range; [lia | by apply wf_znth | apply u64_range].
    + intros i Hi. rewrite RowIsValid_data, <- Hb by done.
      apply set_row_frame; [lia..| | lia].
      intros j Hj. rewrite Z.land_spec, testbit_not64, testbit_shl64_one by done.
      case_decide; [by rewrite bool_decide_true, andb_false_r |].
      by rewrite bool_decide_false, andb_true_r.
Qed.

(** ** Counting *)

Fixpoint pop (p : positive) : Z :=
  match p with xH => 1 | xO p => pop p | xI p => 1 + pop p end.

Definition popcount (z : Z) : Z := match z with Zpos p => pop p | _ => 0 end.

Lemma pop_pos p : 1 <= pop p.
Proof. induction p; simpl; lia. Qed.

Lemma popcount_step z :
  0 < z -> 0 <= Z.land z (z - 1) /\ popcount (Z.land z (z - 1)) + 1 = popcount z /\
           Z.land z (z - 1) <= z.
Proof.
  destruct z as [| p |]; [lia | intros _ | lia].
  induction p as [p IH | p IH |].
  - replace (Z.land (Z.pos p~1) (Z.pos p~1 - 1)) with (Z.pos p~0).
    + simpl. lia.
    + replace (Z.pos p~1 - 1) with (2 * Z.pos p) by lia.
      change (Z.pos p~1) with (2 * Z.pos p + 1). change (Z.pos p~0) with (2 * Z.pos p).
      apply Z.bits_inj'. intros i Hi. rewrite Z.land_spec. destruct (decide (i = 0)) as [-> |].
      * by rewrite Z.testbit_even_0, andb_false_r.
      * replace i with (Z.succ (i - 1)) by lia.
        rewrite Z.testbit_even_succ, Z.testbit_odd_succ by lia. by rewrite andb_diag.
  - destruct IH as (IH0 & IH1 & IH2).
    replace (Z.land (Z.pos p~0) (Z.pos p~0 - 1)) with (2 * Z.land (Z.pos p) (Z.pos p - 1)).
    + split_and!; [lia | | lia]. generalize dependent (Z.land (Z.pos p) (Z.pos p - 1)). intros [| q |] **;
      [| change (2 * Z.pos q) with (Z.pos q~0) |]; simpl in *; lia.
    + apply Z.bits_inj'. intros i Hi. destruct (decide (i = 0)) as [-> |].
      * rewrite Z.testbit_even_0, Z.land_spec. done.
      * replace i with (Z.succ (i - 1)) by lia.
        rewrite Z.testbit_even_succ, !Z.land_spec by lia.
        replace (Z.pos p~0 - 1) with (2 * (Z.pos p - 1) + 1) by lia.
        change (Z.pos p~0) with (2 * Z.pos p).
        by rewrite Z.testbit_even_succ, Z.testbit_odd_succ by lia.
  - change (Z.land 1 (1 - 1)) with 0. simpl. lia.
Qed.

Lemma kernighan_popcount fuel z v :
  0 <= z -> popcount z <= Z.of_nat fuel -> kernighan fuel z v = v + popcount z.
Proof.
  revert z v. induction fuel as [| fuel IH]; intros z v Hz Hf.
  - destruct z as [| p |]; simpl in *; [lia | | lia]. pose proof (pop_pos p). lia.
  - simpl. case_if; [subst; simpl; lia |].
    destruct (popcount_step z) as (? & ? & ?); [lia |]. rewrite IH; lia.
Qed.

Lemma popcount_zcount z n :
  0 <= n -> 0 <= z < 2 ^ n -> zcount (Z.testbit z) 0 n = popcount z.
Proof.
  intros Hn. revert z. pattern n. apply natlike_ind; [| | done].
  - intros z ?. change (2 ^ 0) with 1 in *. replace z with 0 by lia. done.
  - clear n Hn. intros n Hn IH z Hz. rewrite zcount_cons by lia.
    change (0 + 1) with (0 + 1). replace (Z.succ n) with (n + 1) by lia.
    rewrite zcount_shift.
    rewrite (zcount_ext _ (Z.testbit (z / 2))).
    + rewrite IH by (rewrite Z.pow_succ_r in Hz by lia; zdm).
      destruct z as [| p | p]; [done | | lia].
      destruct p; simpl; rewrite ?Z.add_0_l; try done.
      * rewrite Pos2Z.inj_xI, Z.mul_comm, Z.div_add_l by lia. simpl. lia.
      * rewrite Pos2Z.inj_xO, Z.mul_comm, Z.div_mul by lia. simpl. lia.
    + intros i Hi. change 2 with (2 ^ 1). rewrite <- Z.shiftr_div_pow2, Z.shiftr_spec by lia. done.
Qed.

#[local] Arguments kernighan : simpl never.

Lemma kernighan_entry e v :
  0 <= e < 2 ^ 64 -> kernighan 64 e v = v + zcount (Z.testbit e) 0 64.
Proof.
  intros. rewrite popcount_zcount by lia. apply kernighan_popcount; [lia |].
  rewrite <- (popcount_zcount e 64) by lia. pose proof (zcount_le (Z.testbit e) 0 64). lia.
Qed.

Lemma data_bit_entry data e n :
  0 <= e -> 0 <= n <= 64 ->
  zcount (data_bit data) (e * 64) (e * 64 + n) = zcount (Z.testbit (znth 0 data e)) 0 n.
Proof.
  intros. replace (e * 64) with (0 + e * 64) at 1 by lia. rewrite (Z.add_comm (e * 64)).
  rewrite zcount_shift. apply zcount_ext. intros i Hi. unfold data_bit.
  replace ((i + e * 64) / 64) with e by zdm.
  replace ((i + e * 64) mod 64) with i by zdm. done.
Qed.

Lemma CountEntry_spec data c count v e :
  wf_entries data -> 0 <= e < EntryCount count -> 0 < count ->
  CountEntry (mkMask (Some data) c) count v e =
    v + zcount (data_bit data) (e * 64) (Z.min count (e * 64 + 64)).
Proof.
  intros Hd He Hc. pose proof (wf_znth data e Hd).
  unfold CountEntry, GetValidityEntry. simpl. unfold BITS_PER_VALUE.
  destruct ((e + 1 =? EntryCount count) && negb (count mod 64 =? 0)) eqn:Elast; bool_to_prop.
  - replace (Z.min count (e * 64 + 64)) with (e * 64 + count mod 64)
      by (unfold EntryCount, BITS_PER_VALUE in *; zdm).
    rewrite kernighan_entry by (apply land_range; [lia.. |]; apply Z.shiftr_nonneg; done).
    f_equal. rewrite data_bit_entry by zdm.
    rewrite (zcount_split _ 0 (count mod 64) 64) by zdm.
    rewrite (zcount_none _ (count mod 64)).
    + rewrite Z.add_0_r. apply zcount_ext. intros i Hi.
      rewrite Z.land_spec, (testbit_head_mask (count mod 64)) by zdm.
      by rewrite bool_decide_true, andb_true_r by lia.
    + intros i Hi. rewrite Z.land_spec, (testbit_head_mask (count mod 64)) by zdm.
      by rewrite bool_decide_false, andb_false_r by lia.
  - replace (Z.min count (e * 64 + 64)) with (e * 64 + 64).
    + rewrite data_bit_entry by lia. unfold EntryAllValid. case_if.
      * f_equal. rewrite zcount_all; [lia | lia |]. intros i Hi.
        rewrite Heqb, testbit_MAX, bool_decide_true by lia. done.
      * by apply kernighan_entry.
    + apply andb_false_iff in Elast.
      destruct Elast; bool_to_prop; unfold EntryCount, BITS_PER_VALUE in *; zdm.
Qed.

(** [CountValid] visits the entries once, and counts the valid rows. *)
Lemma CountValid_count m count :
  wf_mask m count -> 0 <= count -> CountValid m count = zcount (RowIsValid m) 0 count.
Proof.
  intros Hwf Hc. unfold CountValid. destruct m as [[data |] c]; simpl; cycle 1.
  { rewrite zcount_all; [lia | done |]. done. }
  case_if; [subst; by rewrite zcount_nil |].
  destruct Hwf as [Hl Hd]. rewrite (zcount_ext _ (data_bit data)) by (intros; apply RowIsValid_data).
  assert (forall k v, Z.of_nat k <= EntryCount count ->
    foldl (CountEntry (mkMask (Some data) c) count) v (zrange 0 (Z.of_nat k)) =
    v + zcount (data_bit data) 0 (Z.min count (Z.of_nat k * 64))) as Hloop.
  { induction k as [| k IH]; intros v Hk.
    - rewrite zrange_nil, zcount_nil by lia. simpl. lia.
    - replace (Z.of_nat (S k)) with (Z.of_nat k + 1) by lia.
      rewrite zrange_snoc, foldl_app, IH by lia. simpl.
      assert (Z.of_nat k * 64 < count) by (apply EntryCount_bound; lia).
      rewrite CountEntry_spec by (done || lia).
      rewrite (zcount_split _ 0 (Z.of_nat k * 64) (Z.min count ((Z.of_nat k + 1) * 64))) by lia.
      replace (Z.min count (Z.of_nat k * 64)) with (Z.of_nat k * 64) by lia.
      replace ((Z.of_nat k + 1) * 64) with (Z.of_nat k * 64 + 64) by lia. lia. }
  pose proof (EntryCount_nonneg count Hc).
  specialize (Hloop (Z.to_nat (EntryCount count)) 0).
  rewrite (Z2Nat.id (EntryCount count)) in Hloop by done.
  rewrite Hloop, Z.add_0_l by done. f_equal.
  unfold EntryCount, BITS_PER_VALUE. zdm.
Qed.

(** ** Ranges *)

(** Entries described pointwise describe the rows. *)
Lemma data_bit_eq data data' i e :
  e = i / 64 -> znth 0 data e = znth 0 data' e -> data_bit data i = data_bit data' i.
Proof. intros -> H. unfold data_bit. by rewrite H. Qed.

Lemma SetRangeInvalid_rows m count begin_entry end_entry :
  wf_mask m count -> 0 <= count -> 0 <= begin_entry < end_entry -> end_entry <= EntryCount count ->
  exists m', SetRangeInvalid m count begin_entry end_entry = Some m' /\ wf_mask m' count /\
    forall i, 0 <= i < count ->
      RowIsValid m' i = if decide (begin_entry <= i / 64 < end_entry) then false else RowIsValid m i.
Proof.
  intros Hwf Hc Hb Hend. unfold SetRangeInvalid.
  destruct (EnsureWritable_spec m count Hwf Hc) as (data & c & -> & Hl & Hd & Hbits).
  destruct (count =? 0) eqn:?; bool_to_prop.
  { subst. eexists. split; [done |]. split; [done | lia]. }
  unfold with_data. simpl.
  pose proof (EntryCount_nonneg count Hc).
  assert (1 <= EntryCount count) by (unfold EntryCount, BITS_PER_VALUE; zdm).
  destruct (ofold_store 0 (fun _ => 0) data begin_entry
              (Z.min (EntryCount count - 1) end_entry)) as (data1 & -> & Hlen1 & Hget1); [lia.. |].
  assert (wf_entries data1) as Hd1.
  { apply wf_entries_znth. intros k ?. rewrite Hget1 by lia. case_decide; [lia | by apply wf_znth]. }
  simpl. destruct (end_entry <=? EntryCount count - 1) eqn:?; bool_to_prop.
  - eexists. split; [done |]. split; [split; [by rewrite Hlen1 | done] |].
    intros i Hi. rewrite RowIsValid_data, <- Hbits by done.
    pose proof (EntryCount_spec count i Hi).
    unfold data_bit. rewrite Hget1 by lia.
    repeat case_decide; try lia; [apply Z.testbit_0_l | done].
  - rewrite zstore_Some by lia. simpl.
    eexists. split; [done |]. split.
    { split; [by rewrite length_insert, Hlen1 |]. apply wf_insert; [done |].
      case_if; [lia | apply u64_range]. }
    intros i Hi. rewrite RowIsValid_data, <- Hbits by done.
    pose proof (EntryCount_spec count i Hi).
    rewrite data_bit_insert by lia. unfold data_bit. rewrite Hget1 by lia.
    destruct (decide (i / 64 = EntryCount count - 1)) as [E | E].
    + unfold BITS_PER_VALUE. case_if; [rewrite Z.testbit_0_l |].
      * case_decide; [done | lia].
      * rewrite testbit_tail_mask, bool_decide_false
          by (unfold EntryCount, BITS_PER_VALUE in *; zdm). case_decide; [done | lia].
    + repeat case_decide; try lia; [apply Z.testbit_0_l | done].
Qed.

Lemma SetAllInvalid_rows m count :
  wf_mask m count -> 0 < count ->
  exists m', SetAllInvalid m count = Some m' /\ wf_mask m' count /\
    forall i, 0 <= i < count -> RowIsValid m' i = false.
Proof.
  intros Hm Hc. assert (1 <= EntryCount count) by (unfold EntryCount, BITS_PER_VALUE; zdm).
  destruct (SetRangeInvalid_rows m count 0 (EntryCount count)) as (m' & ? & ? & Hb); [done | lia.. |].
  exists m'. split_and!; [done | done |]. intros i Hi. rewrite Hb by done.
  pose proof (EntryCount_spec count i Hi). by rewrite decide_True by lia.
Qed.

(** The rows of a masked entry. *)
Lemma and_entry_rows data e mask :
  0 <= e < Z.of_nat (length data) -> wf_entries data -> 0 <= mask ->
  exists data', and_entry data e mask = Some data' /\ length data' = length data /\
    wf_entries data' /\
    forall i, 0 <= i ->
      data_bit data' i =
        if decide (i / 64 = e) then data_bit data i && Z.testbit mask (i mod 64) else data_bit data i.
Proof.
  intros He Hd Hm. unfold and_entry. rewrite (zload_Some 0) by done. simpl.
  rewrite zstore_Some by done. eexists. split; [done |]. split; [by rewrite length_insert |].
  split.
  { apply wf_insert; [done |]. apply land_range; [lia | by apply wf_znth | done]. }
  intros i Hi. rewrite data_bit_insert by done.
  case_decide as E; [| done]. rewrite Z.land_spec. unfold data_bit. by rewrite E.
Qed.

Lemma begin_mask_nonneg b :
  0 <= if b =? 0 then 0 else Z.shiftr MAX_ENTRY (BITS_PER_VALUE - b).
Proof. case_if; [done | by apply Z.shiftr_nonneg]. Qed.

Lemma testbit_begin_mask b j :
  0 <= j -> 0 <= b < 64 ->
  Z.testbit (if b =? 0 then 0 else Z.shiftr MAX_ENTRY (BITS_PER_VALUE - b)) j = bool_decide (j < b).
Proof.
  intros. case_if.
  - subst. rewrite Z.testbit_0_l, bool_decide_false; [done | lia].
  - apply testbit_head_mask; lia.
Qed.

(** [SetEntryRangeInvalid] clears the rows from [begin_entry * 64 + begin_idx] up
    to [end_entry * 64 + end_idx] when the entry of the end is allocated. *)
Lemma SetEntryRangeInvalid_rows m n count begin_entry begin_idx end_entry end_idx :
  wf_mask m n -> 0 < count -> 0 <= n ->
  0 <= begin_entry <= end_entry -> end_entry < EntryCount n ->
  0 <= begin_idx < 64 -> 0 <= end_idx < 64 ->
  begin_entry * 64 + begin_idx <= end_entry * 64 + end_idx ->
  exists m', SetEntryRangeInvalid m count begin_entry begin_idx end_entry end_idx = Some m' /\
    wf_mask m' n /\
    forall i, 0 <= i < n ->
      RowIsValid m' i =
        if decide (begin_entry * 64 + begin_idx <= i < end_entry * 64 + end_idx)
        then false else RowIsValid m i.
Proof.
  intros Hwf Hcount Hn Hbe He Hbi Hei Hle. unfold SetEntryRangeInvalid.
  destruct (EnsureWritable_spec m n Hwf Hn) as (data & c & -> & Hl & Hd & Hbits).
  rewrite (proj2 (Z.eqb_neq count 0)) by lia. unfold with_data. simpl.
  set (bm := if begin_idx =? 0 then 0 else _).
  assert (0 <= bm) by apply begin_mask_nonneg.
  assert (forall j, 0 <= j -> Z.testbit bm j = bool_decide (j < begin_idx)) as Hbm
    by (intros; by apply testbit_begin_mask).
  assert (0 <= shl64 MAX_ENTRY end_idx) by apply u64_range.
  case_if.
  - destruct (and_entry_rows data begin_entry (Z.lor bm (shl64 MAX_ENTRY end_idx)))
      as (data1 & -> & Hl1 & Hd1 & Hb1); [lia | done | by apply Z.lor_nonneg |].
    simpl. eexists. split; [done |]. split; [split; [by rewrite Hl1 | done] |].
    intros i Hi. rewrite RowIsValid_data, Hb1, <- Hbits by lia.
    destruct (decide (i / 64 = begin_entry)); cycle 1.
    { rewrite decide_False by zdm. done. }
    rewrite Z.lor_spec, Hbm, testbit_tail_mask by zdm.
    case_decide.
    + rewrite !bool_decide_false by zdm. apply andb_false_r.
    + destruct (decide (i mod 64 < begin_idx)).
      * rewrite bool_decide_true by zdm. by rewrite andb_true_r.
      * rewrite (bool_decide_true (end_idx <= _)) by zdm. by rewrite orb_true_r, andb_true_r.
  - destruct (and_entry_rows data begin_entry bm) as (data1 & -> & Hl1 & Hd1 & Hb1); [lia | done.. |].
    simpl.
    destruct (and_entry_rows data1 end_entry (shl64 MAX_ENTRY end_idx))
      as (data2 & -> & Hl2 & Hd2 & Hb2); [lia | done.. |]. simpl.
    destruct (ofold_store 0 (fun _ => 0) data2 (begin_entry + 1) (end_entry - 1 + 1))
      as (data3 & -> & Hl3 & Hget3); [lia.. |]. simpl.
    eexists. split; [done |]. split.
    { split; [rewrite Hl3, Hl2, Hl1; done |]. apply wf_entries_znth. intros k ?.
      rewrite Hget3 by lia. case_decide; [lia | by apply wf_znth]. }
    intros i Hi. rewrite RowIsValid_data, <- Hbits by done.
    assert (data_bit data3 i = if decide (begin_entry + 1 <= i / 64 < end_entry - 1 + 1)
                               then false else data_bit data2 i) as ->.
    { unfold data_bit. rewrite Hget3 by zdm. case_decide; [apply Z.testbit_0_l | done]. }
    rewrite Hb2, Hb1 by lia.
    destruct (decide (i / 64 = end_entry)).
    + rewrite (decide_False (P := _ <= i / 64 < _)), (decide_False (P := i / 64 = begin_entry)) by lia.
      rewrite testbit_tail_mask by zdm. case_decide.
      * rewrite bool_decide_false by zdm. apply andb_false_r.
      * rewrite bool_decide_true by zdm. apply andb_true_r.
    + destruct (decide (i / 64 = begin_entry)).
      * rewrite (decide_False (P := _ <= i / 64 < _)) by lia. rewrite Hbm by zdm. case_decide.
        -- rewrite bool_decide_false by zdm. apply andb_false_r.
        -- rewrite bool_decide_true by zdm. apply andb_true_r.
      * repeat case_decide; try done; zdm.
Qed.

(** ** Slices *)

Definition src_bit (source : option (list Z)) (i : Z) : bool :=
  match source with None => true | Some src => data_bit src i end.

Definition src_entry_at (source : option (list Z)) (e : Z) : Z :=
  match source with None => MAX_ENTRY | Some src => znth 0 src e end.

Definition src_ok (source : option (list Z)) (n : Z) : Prop :=
  match source with None => True | Some src => EntryCount n <= Z.of_nat (length src) end.

Lemma testbit_src_entry source e j :
  0 <= j < 64 -> 0 <= e -> Z.testbit (src_entry_at source e) j = src_bit source (e * 64 + j).
Proof.
  intros. destruct source as [src |]; simpl.
  - unfold data_bit. replace ((e * 64 + j) / 64) with e by zdm.
    by replace ((e * 64 + j) mod 64) with j by zdm.
  - rewrite testbit_MAX by lia. apply bool_decide_true. lia.
Qed.

Lemma load_src_entry source n e :
  src_ok source n -> 0 <= e < EntryCount n ->
  match source with None => Some MAX_ENTRY | Some src => zload src e end =
  Some (src_entry_at source e).
Proof.
  intros Hok He. destruct source as [src |]; simpl in *; [| done].
  apply zload_Some. lia.
Qed.

(** The ragged entry holds [ragged] bits of the source over the old bits. *)
Lemma testbit_ragged_entry tgt src r j :
  0 <= j < 64 -> 0 < r < 64 ->
  Z.testbit (ragged_entry tgt src r) j = if decide (j < r) then Z.testbit src j else Z.testbit tgt j.
Proof.
  intros. unfold ragged_entry.
  rewrite Z.lor_spec, !Z.land_spec, testbit_tail_mask, testbit_head_mask by lia.
  case_decide.
  - rewrite (bool_decide_false (r <= j)), bool_decide_true by lia. by rewrite andb_false_r, andb_true_r.
  - rewrite (bool_decide_true (r <= j)), bool_decide_false by lia.
    by rewrite andb_false_r, andb_true_r, orb_false_r.
Qed.

Lemma testbit_stitch se se' tail j :
  0 <= se < 2 ^ 64 -> 0 < tail < 64 -> 0 <= j < 64 ->
  Z.testbit (Z.lor (Z.shiftr se tail) (shl64 se' (64 - tail))) j =
    if decide (j + tail < 64) then Z.testbit se (j + tail) else Z.testbit se' (j + tail - 64).
Proof.
  intros. rewrite Z.lor_spec, Z.shiftr_spec, testbit_shl64 by lia. case_decide.
  - by rewrite (Z.testbit_neg_r se'), orb_false_r by lia.
  - rewrite <- (Z.mod_small se (2 ^ 64)) at 1 by done.
    rewrite Z.mod_pow2_bits_high by lia. simpl. f_equal. lia.
Qed.

Section slice.
Context (data : list Z) (source : option (list Z)) (to so count : Z).
Hypothesis (Hto : 0 <= to) (Hso : 0 <= so) (Hcount : 0 <= count).
Hypothesis Hlen : EntryCount (to + count) <= Z.of_nat (length data).
Hypothesis Hsrc : src_ok source (so + count).

(** What a slice of the first [k] rows does to the target's rows. *)
Definition sliced (k : Z) (data' : list Z) : Prop :=
  length data' = length data /\
  forall i, 0 <= i -> data_bit data' i =
    if decide (to <= i < to + k) then src_bit source (so + (i - to)) else data_bit data i.

(** Writing the next [r] source rows into an entry extends the slice. *)
Lemma sliced_store t u r data' v :
  to = t * 64 -> 0 <= u -> 0 < r <= 64 -> u * 64 + r <= count ->
  sliced (u * 64) data' ->
  (forall j, 0 <= j < 64 -> Z.testbit v j =
     if decide (j < r) then src_bit source (so + u * 64 + j)
     else Z.testbit (znth 0 data' (t + u)) j) ->
  exists data'', zstore data' (t + u) v = Some data'' /\ sliced (u * 64 + r) data''.
Proof using Hto Hcount Hlen.
  intros Ht Hu Hr Hcnt [Hl Hb] Hv.
  assert (t + u < EntryCount (to + count)) by (apply EntryCount_bound; lia).
  rewrite zstore_Some by lia. eexists. split; [done |]. split; [by rewrite length_insert |].
  intros i Hi. rewrite data_bit_insert by lia. case_decide as E.
  - rewrite Hv by zdm. case_decide.
    + rewrite decide_True by zdm. f_equal. zdm.
    + rewrite <- E. fold (data_bit data' i). rewrite Hb by lia.
      rewrite !decide_False by zdm. done.
  - rewrite Hb by lia. repeat case_decide; try done; zdm.
Qed.

Lemma SliceAligned_rows :
  so mod 64 = 0 -> to mod 64 = 0 ->
  exists data', SliceAligned data source to so count = Some data' /\ sliced count data'.
Proof using Hto Hso Hcount Hlen Hsrc.
  intros Hsa Hta. unfold SliceAligned, BITS_PER_VALUE.
  assert (EntryCount so = so / 64) as -> by (unfold EntryCount, BITS_PER_VALUE; zdm).
  assert (EntryCount to = to / 64) as -> by (unfold EntryCount, BITS_PER_VALUE; zdm).
  set (F := fun (data : list Z) (i : Z) => _ ≫= _).
  destruct (ofold_zrange_inv F (fun u => sliced (u * 64)) 0 (count / 64) data)
    as (data1 & -> & H1); [zdm | | |].
  { split; [done |]. intros. by rewrite decide_False by lia. }
  { intros u d Hu Hd. unfold F.
    rewrite (load_src_entry source (so + count)); [| done | split; [zdm | apply EntryCount_bound; zdm]].
    simpl. replace ((u + 1) * 64) with (u * 64 + 64) by lia.
    apply sliced_store; [zdm | lia | lia | zdm | done |].
    intros j Hj. rewrite decide_True, testbit_src_entry by zdm. f_equal. zdm. }
  simpl. case_if.
  { eexists. split; [done |]. by replace count with (count / 64 * 64) by zdm. }
  rewrite (load_src_entry source (so + count)); [| done | split; [zdm | apply EntryCount_bound; zdm]].
  assert (to / 64 + count / 64 < EntryCount (to + count)) by (apply EntryCount_bound; zdm).
  rewrite (zload_Some 0) by (destruct H1; zdm). simpl.
  replace (sliced count) with (sliced (count / 64 * 64 + count mod 64)) by (f_equal; zdm).
  apply sliced_store; [zdm | zdm | zdm | zdm | done |].
  intros j Hj. rewrite testbit_ragged_entry by zdm.
  case_decide; [| done]. rewrite testbit_src_entry by zdm. f_equal. zdm.
Qed.
Lemma SliceShift_rows src :
  source = Some src -> wf_entries src -> so mod 64 <> 0 -> to mod 64 = 0 ->
  exists data', SliceShift data source to so count = Some data' /\ sliced count data'.
Proof using Hto Hso Hcount Hlen Hsrc.
  intros Hsome Hwf Hsa Hta. unfold SliceShift, BITS_PER_VALUE.
  pose proof Hsrc as Hsrc'. rewrite Hsome in Hsrc' |- *. simpl in Hsrc'.
  destruct (decide (count = 0)) as [Hc0 | Hc0].
  { (* the first source entry is loaded even for an empty slice *)
    destruct (zload src (so / 64)) eqn:E; cycle 1.
    - exfalso. revert E. rewrite (zload_Some 0); [done |]. split; [zdm |].
      apply (Z.lt_le_trans _ (EntryCount (so + count))); [| done].
      apply EntryCount_bound; zdm.
    - simpl. rewrite Hc0. change (0 / 64) with 0. change (0 mod 64) with 0.
      rewrite zrange_nil by lia. simpl. rewrite E. eexists. split; [done |]. split; [done |].
      intros. by rewrite decide_False by lia. }
  assert (forall e, 0 <= e -> e * 64 < so + count -> zload src e = Some (znth 0 src e)) as Hload.
  { intros e ? ?. apply zload_Some. split; [done |].
    apply (Z.lt_le_trans _ (EntryCount (so + count))); [| done]. apply EntryCount_bound; lia. }
  assert (forall se u j, 0 <= u -> 0 <= j < 64 -> se = znth 0 src (so / 64 + u) ->
    Z.testbit (Z.lor (Z.shiftr se (so mod 64))
      (shl64 (znth 0 src (so / 64 + 1 + u)) (64 - so mod 64))) j =
    src_bit source (so + u * 64 + j)) as Hstitch.
  { intros se u j Hu Hj ->. rewrite Hsome. cbn [src_bit].
    rewrite testbit_stitch; [| by apply wf_znth | zdm | done].
    unfold data_bit. case_decide; (f_equal; [f_equal |]; zdm). }
  cbn [mbind option_bind]. rewrite (Hload (so / 64)) by zdm. cbn [mbind option_bind].
  set (F := fun (st : list Z * Z) (i : Z) => _).
  destruct (ofold_zrange_inv F
    (fun u st => st.2 = znth 0 src (so / 64 + u) /\ sliced (u * 64) st.1) 0 (count / 64)
    (data, znth 0 src (so / 64))) as ([data1 se] & -> & Hse & H1); [zdm | | |].
  { split; [by rewrite Z.add_0_r |]. split; [done |]. intros. by rewrite decide_False by lia. }
  { intros u [d se] Hu [Hse Hd]. cbn [fst snd] in *. unfold F.
    rewrite Hload by zdm. cbn [mbind option_bind].
    destruct (sliced_store (to / 64) u 64 d
      (Z.lor (Z.shiftr se (so mod 64)) (shl64 (znth 0 src (so / 64 + 1 + u)) (64 - so mod 64))))
      as (d' & -> & Hd'); [zdm | lia | lia | zdm | done | |].
    - intros j Hj. rewrite decide_True by lia. apply Hstitch; [lia | done | done].
    - cbn [mbind option_bind]. eexists. split; [done |]. cbn [fst snd].
      split; [f_equal; lia |]. by replace ((u + 1) * 64) with (u * 64 + 64) by lia. }
  cbn [mbind option_bind fst snd] in *. case_if.
  { eexists. split; [done |]. by replace count with (count / 64 * 64) by zdm. }
  assert (to / 64 + count / 64 < EntryCount (to + count)) by (apply EntryCount_bound; zdm).
  assert (exists x, (if 64 - so mod 64 <? count mod 64 then
      src_entry ← zload src (so / 64 + 1 + count / 64);
      Some (Z.lor (Z.shiftr se (so mod 64)) (shl64 src_entry (64 - so mod 64)))
    else Some (Z.shiftr se (so mod 64))) = Some x /\
    forall j, 0 <= j < count mod 64 ->
      Z.testbit x j = src_bit source (so + count / 64 * 64 + j)) as (x & -> & Hx).
  { case_if.
    - rewrite Hload by zdm. eexists. split; [done |]. intros j Hj. apply Hstitch; [zdm | zdm | done].
    - eexists. split; [done |]. intros j Hj. rewrite Hse, Hsome. cbn [src_bit].
      rewrite Z.shiftr_spec by lia. unfold data_bit. f_equal; [f_equal |]; zdm. }
  cbn [mbind option_bind]. rewrite (zload_Some 0) by (destruct H1; zdm). cbn [mbind option_bind].
  replace (sliced count) with (sliced (count / 64 * 64 + count mod 64)) by (f_equal; zdm).
  apply sliced_store; [zdm | zdm | zdm | zdm | done |].
  intros j Hj. rewrite Z.lor_comm.
  change (Z.testbit (ragged_entry (znth 0 data1 (to / 64 + count / 64)) x (count mod 64)) j =
    if decide (j < count mod 64) then src_bit source (so + count / 64 * 64 + j)
    else Z.testbit (znth 0 data1 (to / 64 + count / 64)) j).
  rewrite testbit_ragged_entry by zdm. case_decide; [| done]. apply Hx. lia.
Qed.
End slice.

(** [for (i = 0; i < count; i++) Set(to + i, g(i))] *)
Lemma set_rows_loop m (g : Z -> bool) to count n :
  wf_mask m n -> 0 <= to -> 0 <= count -> to + count <= n ->
  exists m', ofold (fun m i => SetRow m (to + i) (g i)) m (zrange 0 count) = Some m' /\
    wf_mask m' n /\
    forall i, 0 <= i < n -> RowIsValid m' i =
      if decide (to <= i < to + count) then g (i - to) else RowIsValid m i.
Proof.
  intros Hm Hto Hc Hn.
  destruct (ofold_zrange_inv (fun m i => SetRow m (to + i) (g i))
      (fun k m' => wf_mask m' n /\ forall i, 0 <= i < n -> RowIsValid m' i =
         if decide (to <= i < to + k) then g (i - to) else RowIsValid m i) 0 count m)
      as (m' & ? & ?); [done | | | by exists m'].
  - split; [done |]. intros i Hi. by rewrite decide_False by lia.
  - intros k m1 Hk [Hwf1 Hb1].
    destruct (SetRow_spec m1 (to + k) (g k) n) as (m2 & -> & Hwf2 & Hb2); [done | lia |].
    eexists. split; [done |]. split; [done |]. intros i Hi. rewrite Hb2, Hb1 by done.
    repeat case_decide; try done; try lia. f_equal. lia.
Qed.

(** The pointer arithmetic of the second branch of [SliceInPlace] needs a
    source bitmap. *)
Definition slice_source_ok (m other : ValidityMask) (target_offset source_offset : Z) : Prop :=
  AllValid m = true \/ AllValid other = false \/ source_offset mod 64 = 0 \/ target_offset mod 64 <> 0.

(** The three branches of [SliceInPlace] (entries copied, entries stitched,
    rows copied) all write rows [source_offset, source_offset + count) of the
    source over the rows at [target_offset] of the target, and nothing else. *)
Theorem SliceInPlace_rows m other to so count n :
  wf_mask m n -> wf_mask other (so + count) ->
  0 <= to -> 0 <= so -> 0 <= count -> to + count <= n ->
  slice_source_ok m other to so ->
  exists m', SliceInPlace m other to so count = Some m' /\
    forall i, 0 <= i < n -> RowIsValid m' i =
      if decide (to <= i < to + count) then RowIsValid other (so + (i - to)) else RowIsValid m i.
Proof.
  intros Hm Ho Hto Hso Hc Hn Hok. unfold SliceInPlace.
  destruct (AllValid m && AllValid other) eqn:Eall.
  { bool_to_prop. eexists. split; [done |]. intros i Hi. unfold RowIsValid.
    rewrite H, H0. by case_decide. }
  destruct (EnsureWritable_spec m n Hm) as (data & c & HE & Hl & Hd & Hbits); [lia |].
  rewrite HE. unfold IsAligned, with_data, BITS_PER_VALUE. cbn [validity_mask mbind option_bind capacity].
  assert (EntryCount (to + count) <= Z.of_nat (length data)) as Hlen
    by (unfold EntryCount, BITS_PER_VALUE in *; zdm).
  assert (src_ok (validity_mask other) (so + count)) as Hsrc.
  { unfold src_ok, wf_mask in *. destruct (validity_mask other); [tauto | done]. }
  assert (forall i, src_bit (validity_mask other) i = RowIsValid other i) as Hsb.
  { intros i. destruct other as [[src |] ?]; [by rewrite RowIsValid_data | done]. }
  assert (forall data', sliced data (validity_mask other) to so count data' ->
    exists m', Some (mkMask (Some data') c) = Some m' /\
    forall i, 0 <= i < n -> RowIsValid m' i =
      if decide (to <= i < to + count) then RowIsValid other (so + (i - to)) else RowIsValid m i)
    as Hdone.
  { intros data' [_ Hb]. eexists. split; [done |]. intros i Hi.
    rewrite RowIsValid_data, Hb, Hsb, Hbits by lia. done. }
  assert (exists m', ofold (fun m i => SetRow m (to + i) (RowIsValid other (so + i)))
      (mkMask (Some data) c) (zrange 0 count) = Some m' /\
    forall i, 0 <= i < n -> RowIsValid m' i =
      if decide (to <= i < to + count) then RowIsValid other (so + (i - to)) else RowIsValid m i)
    as Hrows.
  { destruct (set_rows_loop (mkMask (Some data) c) (fun i => RowIsValid other (so + i)) to count n)
      as (m' & -> & _ & Hm'); [by split | done.. |].
    exists m'. split; [done |]. intros i Hi. by rewrite Hm', RowIsValid_data, Hbits by done. }
  destruct (to mod 64 =? 0) eqn:Eto, (so mod 64 =? 0) eqn:Eso; cbn [andb]; bool_to_prop.
  - destruct (SliceAligned_rows data (validity_mask other) to so count) as (data' & -> & H');
      [done.. |]. by apply Hdone.
  - destruct (validity_mask other) as [src |] eqn:Esrc.
    + destruct (SliceShift_rows data (Some src) to so count Hto Hso Hc Hlen Hsrc src)
        as (data' & -> & H'); [done | | done | done |].
      * unfold wf_mask in Ho. rewrite Esrc in Ho. apply Ho.
      * by apply Hdone.
    + exfalso. unfold slice_source_ok in Hok. unfold AllValid in *. rewrite Esrc in *.
      destruct (validity_mask m); simpl in *; [| done]. 
      destruct Hok as [? | [? | [? | ?]]]; done.
  - by apply Hrows.
  - by apply Hrows.
Qed.

(** ** Serialization *)

Lemma length_le_bytes n z : length (le_bytes n z) = n.
Proof. revert z. induction n as [| n IH]; intros z; simpl; [done | by rewrite IH]. Qed.

Lemma le_value_bytes n z : 0 <= z < 256 ^ Z.of_nat n -> le_value (le_bytes n z) = z.
Proof.
  revert z. induction n as [| n IH]; intros z Hz.
  - change (256 ^ Z.of_nat 0) with 1 in Hz. simpl. lia.
  - rewrite Nat2Z.inj_succ, Z.pow_succ_r in Hz by lia. simpl. rewrite IH by zdm. zdm.
Qed.

Lemma read_le_bytes n z s : 0 <= z < 256 ^ Z.of_nat n -> read n (le_bytes n z ++ s) = Some (z, s).
Proof.
  intros Hz. unfold read. rewrite length_app, length_le_bytes, decide_True by lia.
  rewrite take_app_length', drop_app_length' by (by rewrite length_le_bytes).
  by rewrite le_value_bytes.
Qed.

Lemma read_entries_spec data s :
  wf_entries data ->
  read_entries (length data) (concat (le_bytes 8 <$> data) ++ s) = Some (data, s).
Proof.
  induction data as [| e data IH]; intros Hd; [done |].
  apply Forall_cons in Hd as [He Hd]. cbn [fmap list_fmap concat length read_entries].
  rewrite <- app_assoc, read_le_bytes by (change (256 ^ Z.of_nat 8) with (2 ^ 64); lia).
  cbn [mbind option_bind]. by rewrite IH.
Qed.

Lemma read_indices_spec (is_u32 b : bool) (l : list Z) m n s :
  wf_mask m n -> (forall i, i ∈ l -> 0 <= i < n) ->
  n <= (if is_u32 then 2 ^ 32 else 2 ^ 16) ->
  exists m', read_indices (length l) is_u32 b m
      (concat ((fun i => le_bytes (if is_u32 then 4 else 2) i) <$> l) ++ s) = Some (m', s) /\
    forall i, 0 <= i < n -> RowIsValid m' i = if decide (i ∈ l) then b else RowIsValid m i.
Proof.
  intros Hm Hl Hn. revert m Hm Hl. induction l as [| j l IH]; intros m Hm Hl.
  - exists m. split; [done |]. intros. rewrite decide_False; [done | apply not_elem_of_nil].
  - cbn [fmap list_fmap concat length read_indices].
    assert (0 <= j < n) as Hj by (apply Hl; left).
    rewrite <- app_assoc, read_le_bytes.
    2: { destruct is_u32; [change (256 ^ Z.of_nat 4) with (2 ^ 32) | change (256 ^ Z.of_nat 2) with (2 ^ 16)];
         lia. }
    cbn [mbind option_bind].
    destruct (SetRow_spec m j b n Hm Hj) as (m1 & -> & Hm1 & Hb1). cbn [mbind option_bind].
    destruct (IH m1 Hm1) as (m' & -> & Hb').
    { intros i Hi. apply Hl. by right. }
    exists m'. split; [done |]. intros i Hi. rewrite Hb', Hb1 by done.
    destruct (decide (i = j)) as [-> |].
    + assert (j ∈ j :: l) by left. by repeat case_decide.
    + assert (i ∈ j :: l <-> i ∈ l) as Hjl by (rewrite elem_of_cons; tauto).
      repeat case_decide; tauto.
Qed.

(** The number of rows written by the sparse formats. *)
Lemma length_filter_eqb f b count :
  0 <= count ->
  Z.of_nat (length (List.filter (fun i => eqb (f i) b) (zrange 0 count))) =
    if b then zcount f 0 count else count - zcount f 0 count.
Proof.
  intros Hc. destruct b.
  - apply zcount_ext. intros. by destruct (f i).
  - change (zcount (fun i => eqb (f i) false) 0 count = count - zcount f 0 count).
    rewrite <- (Z2Nat.id count) by done. induction (Z.to_nat count) as [| k IH].
    + by rewrite !zcount_nil.
    + replace (Z.of_nat (S k)) with (Z.of_nat k + 1) by lia. rewrite !zcount_snoc, IH by lia.
      destruct (f (Z.of_nat k)); simpl; lia.
Qed.

Lemma elem_of_filter_eqb f b count i :
  i ∈ List.filter (fun i => eqb (f i) b) (zrange 0 count) <-> 0 <= i < count /\ f i = b.
Proof.
  rewrite list_elem_of_In, List.filter_In, <- list_elem_of_In, elem_of_zrange.
  by rewrite eqb_true_iff.
Qed.

Lemma sparse_roundtrip m count b rest :
  wf_mask m count -> 0 <= count < 2 ^ 32 ->
  let rows := List.filter (fun i => eqb (RowIsValid m i) b) (zrange 0 count) in
  exists m', Read (le_bytes 1 (flag_byte (if b then VALID_VALUES else INVALID_VALUES)) ++
      le_bytes 4 (Z.of_nat (length rows)) ++
      concat ((fun i => le_bytes (if UINT16_MAX <=? count then 4 else 2) i) <$> rows) ++ rest) count
    = Some (m', rest) /\
    forall i, 0 <= i < count -> RowIsValid m' i = RowIsValid m i.
Proof.
  intros Hm Hc rows. unfold Read.
  assert (Z.of_nat (length rows) <= count) as Hlen.
  { unfold rows. rewrite length_filter_eqb by lia.
    pose proof (zcount_le (RowIsValid m) 0 count). pose proof (zcount_nonneg (RowIsValid m) 0 count).
    destruct b; lia. }
  rewrite read_le_bytes by (destruct b; simpl; lia). cbn [mbind option_bind].
  replace (flag_byte _ =? flag_byte BITMASK) with false by (by destruct b).
  rewrite read_le_bytes by (change (256 ^ Z.of_nat 4) with (2 ^ 32); lia). cbn [mbind option_bind].
  rewrite Nat2Z.id.
  assert (wf_mask (Initialize count) count) as Hi.
  { split; [rewrite ValidityData_new_length; lia | apply wf_ValidityData_new]. }
  assert (exists m0, (if flag_byte (if b then VALID_VALUES else INVALID_VALUES) =? flag_byte VALID_VALUES
      then SetAllInvalid (Initialize count) count else Some (Initialize count)) = Some m0 /\
    wf_mask m0 count /\ forall i, 0 <= i < count -> RowIsValid m0 i = negb b) as (m0 & -> & Hm0 & Hb0).
  { destruct b; simpl.
    - destruct (decide (count = 0)) as [-> |].
      { eexists. split; [done |]. split; [done | lia]. }
      apply SetAllInvalid_rows; [done | lia].
    - eexists. split; [done |]. split; [done |]. intros i ?. unfold Initialize.
      rewrite RowIsValid_data. by apply ValidityData_new_bit. }
  cbn [mbind option_bind].
  destruct (read_indices_spec (UINT16_MAX <=? count) b rows m0 count rest) as (m' & Hr & Hb'); [done | | |].
  { intros i [? _]%elem_of_filter_eqb. done. }
  { unfold UINT16_MAX. destruct (Z.leb_spec (2 ^ 16 - 1) count); lia. }
  exists m'. split.
  { rewrite <- Hr. by destruct b. }
  intros i Hi'. rewrite Hb' by done. unfold rows. case_decide as E.
  - apply elem_of_filter_eqb in E. symmetry. apply E.
  - rewrite elem_of_filter_eqb in E. rewrite Hb0 by done.
    destruct (RowIsValid m i) eqn:?, b; simpl; try done; exfalso; by apply E.
Qed.

(** Any mask below 2^32 rows can be written, and reading it back gives the same
    rows and leaves the rest of the stream. *)
Theorem Write_Read_roundtrip m count rest :
  wf_mask m count -> 0 <= count < 2 ^ 32 ->
  exists bytes m', Write m count = Ok bytes /\ Read (bytes ++ rest) count = Some (m', rest) /\
    forall i, 0 <= i < count -> RowIsValid m' i = RowIsValid m i.
Proof.
  intros Hm Hc. unfold Write. pose proof (CountValid_count m count Hm (proj1 Hc)) as Hcv.
  pose proof (zcount_le (RowIsValid m) 0 count). pose proof (zcount_nonneg (RowIsValid m) 0 count).
  set (v := CountValid m count) in *. set (w := if UINT16_MAX <=? count then 4 else 2).
  assert (0 < w) by (unfold w; case_if; lia).
  destruct (_ || _) eqn:Hor.
  - unfold UINT32_MAX. rewrite (proj2 (Z.ltb_ge _ _)) by lia.
    set (b := w * v + 4 <? w * (count - v) + 4).
    destruct (sparse_roundtrip m count b rest Hm Hc) as (m' & Hr & Hb).
    rewrite length_filter_eqb in Hr by lia. do 2 eexists. split; [done |].
    split; [| exact Hb]. rewrite <- Hr. rewrite <- !app_assoc. do 3 f_equal.
    f_equal. unfold b. destruct (w * v + 4 <? w * (count - v) + 4) eqn:E; bool_to_prop; nia.
  - bool_to_prop. unfold ValidityMaskSize in *. unfold Read.
    destruct m as [[data |] c]; cbn [validity_mask fmap option_fmap option_map default from_option id];
      do 2 eexists; (split; [reflexivity |]); rewrite <- app_assoc, read_le_bytes by (simpl; lia);
      cbn [mbind option_bind]; change (flag_byte BITMASK =? flag_byte BITMASK) with true; cbn iota.
    + destruct Hm as [Hl Hd]. pose proof (EntryCount_nonneg count (proj1 Hc)).
      replace (Z.to_nat (EntryCount count))
        with (length (take (Z.to_nat (EntryCount count)) data)) at 1 by (rewrite length_take; lia).
      rewrite read_entries_spec by (by apply Forall_take). cbn [mbind option_bind].
      split; [done |]. intros i Hi'. rewrite !RowIsValid_data.
      apply (data_bit_eq _ _ _ (i / 64)); [done |]. unfold znth. f_equal.
      pose proof (EntryCount_spec count i Hi'). rewrite lookup_take, decide_True by lia. done.
    + (* no bitmap: the sparse format is smaller unless there are no rows *)
      assert (v = count) as Ev by done.
      assert (count = 0) as -> by (unfold EntryCount, BITS_PER_VALUE in *; zdm).
      split; [done | lia].
Qed.

(** ** Properties *)

(** [CountValid] (whole entries, ragged end and Kernighan's loop) is the number
    of valid rows, and the two checks built on it say whether all or no rows are
    valid. *)
Theorem CountValid_correct m count :
  wf_mask m count -> 0 <= count ->
  CountValid m count = zcount (RowIsValid m) 0 count /\
  (CheckAllValid m count = true <-> forall i, 0 <= i < count -> RowIsValid m i = true) /\
  (CheckAllInvalid m count = true <-> forall i, 0 <= i < count -> RowIsValid m i = false).
Proof.
  intros Hm Hc. unfold CheckAllValid, CheckAllInvalid. rewrite CountValid_count by done.
  rewrite !Z.eqb_eq. split_and!; [done | |]; split.
  - intros Heq i Hi. apply negb_false_iff. apply (zcount_zero_inv (fun i => negb (RowIsValid m i)) 0 count); [| done].
    pose proof (zcount_negb (RowIsValid m) 0 count Hc). lia.
  - intros Hall. rewrite zcount_all by done. lia.
  - intros Heq i Hi. by apply (zcount_zero_inv _ 0 count).
  - by apply zcount_none.
Qed.

(** [SetEntryRangeInvalid] clears the rows between its two positions and no
    other, when the entry of the end position is allocated. *)
Theorem SetEntryRangeInvalid_correct m n count begin_entry begin_idx end_entry end_idx :
  wf_mask m n -> 0 < count -> 0 <= n ->
  0 <= begin_entry <= end_entry -> end_entry < EntryCount n ->
  0 <= begin_idx < 64 -> 0 <= end_idx < 64 ->
  begin_entry * 64 + begin_idx <= end_entry * 64 + end_idx ->
  exists m', SetEntryRangeInvalid m count begin_entry begin_idx end_entry end_idx = Some m' /\
    wf_mask m' n /\
    forall i, 0 <= i < n ->
      RowIsValid m' i =
        if decide (begin_entry * 64 + begin_idx <= i < end_entry * 64 + end_idx)
        then false else RowIsValid m i.
Proof. apply SetEntryRangeInvalid_rows. Qed.

(** Clearing up to the end of a mask whose size is a multiple of 64 accesses
    the entry past the allocation. *)
Theorem SetEntryRangeInvalid_past_the_end :
  SetEntryRangeInvalid (Initialize 64) 64 0 0 1 0 = None.
Proof. reflexivity. Qed.

(** ** Witnesses *)

Lemma Initialize_wf n : 0 <= n -> wf_mask (Initialize n) n.
Proof. intros. split; [rewrite ValidityData_new_length; lia | apply wf_ValidityData_new]. Qed.

Lemma CountValid_correct_witness :
  CountValid (Initialize 70) 70 = zcount (RowIsValid (Initialize 70)) 0 70.
Proof. exact (proj1 (CountValid_correct (Initialize 70) 70 (Initialize_wf 70 ltac:(lia)) ltac:(lia))). Defined.

Lemma SetEntryRangeInvalid_correct_witness :
  exists m', SetEntryRangeInvalid (Initialize 200) 200 0 5 2 3 = Some m' /\ wf_mask m' 200 /\
    forall i, 0 <= i < 200 -> RowIsValid m' i =
      if decide (0 * 64 + 5 <= i < 2 * 64 + 3) then false else RowIsValid (Initialize 200) i.
Proof.
  apply (SetEntryRangeInvalid_correct (Initialize 200) 200 200 0 5 2 3);
    first [apply Initialize_wf; lia | lia | reflexivity].
Defined.

Lemma SliceInPlace_rows_witness :
  exists m', SliceInPlace (Initialize 128) (Initialize 110) 64 70 40 = Some m' /\
    forall i, 0 <= i < 128 -> RowIsValid m' i =
      if decide (64 <= i < 64 + 40) then RowIsValid (Initialize 110) (70 + (i - 64))
      else RowIsValid (Initialize 128) i.
Proof.
  apply (SliceInPlace_rows (Initialize 128) (Initialize 110) 64 70 40 128);
    first [apply Initialize_wf; lia | lia | right; left; reflexivity].
Defined.

Lemma Write_Read_roundtrip_witness :
  exists bytes m', Write (Initialize 3) 3 = Ok bytes /\ Read (bytes ++ [7]) 3 = Some (m', [7]) /\
    forall i, 0 <= i < 3 -> RowIsValid m' i = RowIsValid (Initialize 3) i.
Proof. apply (Write_Read_roundtrip (Initialize 3) 3 [7]); [apply Initialize_wf; lia | lia]. Defined.
