(* ===== verification/MaskSearch.v ===== *)
(** Searching a mask for starts (FindNextStart and FindPrevStart of
    src/src/function/window/window_boundaries_state.cpp).

    The searches skip blank blocks of 64 rows and have a shortcut for a mask
    without a bitmap; the theorems show that neither changes the result. *)
From S2P Require Import Prelude Validity.

Open Scope idx_scope.

(** ** Searching a mask for starts

    [n] is a reference parameter of the code; it is returned with the position. *)

(** The inner loop over one block: the state is [(shift, l, n)]; [Some l] in the
    last component is the early return. *)
Fixpoint next_in_block (fuel : nat) (block shift l r n : Z) : Z * Z * option Z :=
  match fuel with
  | O => (l, n, None)
  | S fuel =>
      if (shift <? BITS_PER_VALUE) && (l <? r) then
        if EntryRowIsValid block shift then
          let n := (n -u 1)%idx in
          if n =? 0 then (l, n, Some (Z.min l r))
          else next_in_block fuel block (shift + 1) (l + 1) r n
        else next_in_block fuel block (shift + 1) (l + 1) r n
      else (l, n, None)
  end.

Fixpoint next_loop (fuel : nat) (mask : ValidityMask) (l r n : Z) : Z * Z :=
  match fuel with
  | O => (r, n)
  | S fuel =>
      if l <? r then
        let '(entry_idx, shift) := GetEntryIndex l in
        let block := GetValidityEntry mask entry_idx in
        if NoneValid block && (shift =? 0) then next_loop fuel mask (l + BITS_PER_VALUE) r n
        else
          match next_in_block 64 block shift l r n with
          | (_, n, Some p) => (p, n)
          | (l, n, None) => next_loop fuel mask l r n
          end
      else (r, n)
  end.

Definition FindNextStart (mask : ValidityMask) (l r n : Z) : Z * Z :=
  if AllValid mask then
    let start := Z.min (l +u n -u 1)%idx r in
    (start, n - Z.min n (r -u l)%idx)
  else next_loop (Z.to_nat (r - l) + 1) mask l r n.

(** [for (++shift; shift-- > 0 && l < r; --r)]: [shift] here is the value before
    the decrement of the test. *)
Fixpoint prev_in_block (fuel : nat) (block shift l r n : Z) : Z * Z * option Z :=
  match fuel with
  | O => (r, n, None)
  | S fuel =>
      if (0 <? shift) && (l <? r) then
        if EntryRowIsValid block (shift - 1) then
          let n := (n -u 1)%idx in
          if n =? 0 then (r, n, Some (Z.max l (r - 1)))
          else prev_in_block fuel block (shift - 1) l (r - 1) n
        else prev_in_block fuel block (shift - 1) l (r - 1) n
      else (r, n, None)
  end.

Fixpoint prev_loop (fuel : nat) (mask : ValidityMask) (l r n : Z) : Z * Z :=
  match fuel with
  | O => (l, n)
  | S fuel =>
      if l <? r then
        let '(entry_idx, shift) := GetEntryIndex (r - 1) in
        let block := GetValidityEntry mask entry_idx in
        if NoneValid block && (shift + 1 =? BITS_PER_VALUE)
        then prev_loop fuel mask l (r -u BITS_PER_VALUE)%idx n
        else
          match prev_in_block 64 block (shift + 1) l r n with
          | (_, n, Some p) => (p, n)
          | (r, n, None) => prev_loop fuel mask l r n
          end
      else (l, n)
  end.

Definition FindPrevStart (mask : ValidityMask) (l r n : Z) : Z * Z :=
  if AllValid mask then
    let start := if r <=? (l +u n)%idx then l else r - n in
    (start, n - (r - start))
  else prev_loop (Z.to_nat (r - l) + 1) mask l r n.

(** ** Specification of the searches

    [starts V l r] are the rows of [[l, r)] that satisfy [V]. *)

Definition starts (V : Z -> bool) (l r : Z) : list Z := List.filter V (zrange l r).

Definition nth_start (V : Z -> bool) (l r n : Z) : Z :=
  default r (starts V l r !! Z.to_nat (n - 1)).

Definition nth_last (V : Z -> bool) (l r n : Z) : Z :=
  default l (rev (starts V l r) !! Z.to_nat (n - 1)).

(** What is left of [n]. *)
Definition left_over (V : Z -> bool) (l r n : Z) : Z := n - Z.min n (zcount V l r).

Lemma starts_nil V l r : r <= l -> starts V l r = [].
Proof. intros. unfold starts. by rewrite zrange_nil. Qed.

Lemma starts_cons V l r :
  l < r -> starts V l r = (if V l then [l] else []) ++ starts V (l + 1) r.
Proof. intros. unfold starts. rewrite zrange_cons by done. simpl. by destruct (V l). Qed.

Lemma starts_snoc V l r :
  l < r -> starts V l r = starts V l (r - 1) ++ (if V (r - 1) then [r - 1] else []).
Proof.
  intros. unfold starts. replace r with (r - 1 + 1) at 1 by lia.
  rewrite zrange_snoc, List.filter_app by lia. simpl. by destruct (V (r - 1)).
Qed.

Lemma starts_split V l m r : l <= m <= r -> starts V l r = starts V l m ++ starts V m r.
Proof. intros. unfold starts. by rewrite (zrange_split l m r), List.filter_app. Qed.

Lemma length_starts V l r : Z.of_nat (length (starts V l r)) = zcount V l r.
Proof. done. Qed.

Lemma elem_of_starts V l r i : i ∈ starts V l r <-> l <= i < r /\ V i = true.
Proof.
  unfold starts. rewrite list_elem_of_In, List.filter_In, <- list_elem_of_In. by rewrite elem_of_zrange.
Qed.

Section steps.
Context (V : Z -> bool).

(** Skipping rows from the left. *)
Lemma nth_start_skip l m r n :
  l <= m <= r -> zcount V l m < n ->
  nth_start V l r n = nth_start V m r (n - zcount V l m).
Proof.
  intros Hm Hn. unfold nth_start. rewrite (starts_split V l m r) by done. f_equal.
  pose proof (length_starts V l m). pose proof (zcount_nonneg V l m).
  rewrite lookup_app_r by lia. f_equal. lia.
Qed.

Lemma left_over_skip l m r n :
  l <= m <= r -> zcount V l m < n ->
  left_over V l r n = left_over V m r (n - zcount V l m).
Proof. intros. unfold left_over. rewrite (zcount_split V l m r) by done. lia. Qed.

(** Skipping rows from the right. *)
Lemma nth_last_skip l m r n :
  l <= m <= r -> zcount V m r < n ->
  nth_last V l r n = nth_last V l m (n - zcount V m r).
Proof.
  intros Hm Hn. unfold nth_last. rewrite (starts_split V l m r), rev_app_distr by done. f_equal.
  pose proof (length_starts V m r). pose proof (zcount_nonneg V m r).
  rewrite lookup_app_r; rewrite length_rev; [f_equal |]; lia.
Qed.

Lemma left_over_skip_r l m r n :
  l <= m <= r -> zcount V m r < n ->
  left_over V l r n = left_over V l m (n - zcount V m r).
Proof. intros. unfold left_over. rewrite (zcount_split V l m r) by done. lia. Qed.

Lemma zcount_one l : zcount V l (l + 1) = Z.b2z (V l).
Proof. rewrite zcount_snoc, zcount_nil by lia. lia. Qed.

Lemma nth_start_here l r : l < r -> V l = true -> nth_start V l r 1 = l.
Proof. intros Hl HV. unfold nth_start. by rewrite starts_cons, HV by done. Qed.

Lemma nth_last_here l r : l < r -> V (r - 1) = true -> nth_last V l r 1 = r - 1.
Proof.
  intros Hl HV. unfold nth_last. rewrite starts_snoc, HV, rev_app_distr by done. done.
Qed.

Lemma left_over_here l r : l < r -> V l = true -> left_over V l r 1 = 0.
Proof.
  intros Hl HV. unfold left_over. rewrite zcount_cons, HV by done.
  pose proof (zcount_nonneg V (l + 1) r). simpl. lia.
Qed.

Lemma left_over_here_r l r : l < r -> V (r - 1) = true -> left_over V l r 1 = 0.
Proof.
  intros Hl HV. unfold left_over. replace r with (r - 1 + 1) by lia.
  rewrite zcount_snoc, HV by lia. pose proof (zcount_nonneg V l (r - 1)). simpl. lia.
Qed.

Lemma nth_start_empty l r n : r <= l -> nth_start V l r n = r /\ left_over V l r n = n - Z.min n 0.
Proof. intros. unfold nth_start, left_over. rewrite starts_nil, zcount_nil by done. done. Qed.

Lemma nth_last_empty l r n : r <= l -> nth_last V l r n = l /\ left_over V l r n = n - Z.min n 0.
Proof. intros. unfold nth_last, left_over. rewrite starts_nil, zcount_nil by done. done. Qed.
End steps.

Lemma next_in_block_spec fuel block V shift l r n :
  0 <= shift <= 64 -> 1 <= n < 2 ^ 64 ->
  (forall k, 0 <= k -> shift + k < 64 -> EntryRowIsValid block (shift + k) = V (l + k)) ->
  match next_in_block fuel block shift l r n with
  | (_, n', Some p) => p = nth_start V l r n /\ n' = left_over V l r n
  | (l', n', None) =>
      l <= l' <= Z.max l r /\ 1 <= n' < 2 ^ 64 /\
      (fuel <> O -> shift < 64 -> l < r -> l < l') /\
      nth_start V l' r n' = nth_start V l r n /\ left_over V l' r n' = left_over V l r n
  end.
Proof.
  revert shift l n. induction fuel as [| fuel IH]; intros shift l n Hs Hn HV; cbn [next_in_block].
  { split_and!; [lia..| done | done | done]. }
  destruct ((shift <? BITS_PER_VALUE) && (l <? r)) eqn:E; unfold BITS_PER_VALUE in E; cycle 1.
  { apply andb_false_iff in E. rewrite Z.ltb_ge, Z.ltb_ge in E. split_and!; try done; lia. }
  bool_to_prop. pose proof (HV 0 ltac:(lia) ltac:(lia)) as HV0. rewrite !Z.add_0_r in HV0. rewrite HV0.
  assert (forall k, 0 <= k -> shift + 1 + k < 64 ->
    EntryRowIsValid block (shift + 1 + k) = V (l + 1 + k)) as HV1.
  { intros k ??. rewrite <- !Z.add_assoc. apply HV; lia. }
  pose proof (zcount_one V l) as Hc.
  destruct (V l) eqn:HVl; simpl in Hc.
  - rewrite u64_small by lia. case_if.
    + replace n with 1 by lia. rewrite nth_start_here, left_over_here by done. lia.
    + specialize (IH (shift + 1) (l + 1) (n - 1) ltac:(lia) ltac:(lia) HV1).
      rewrite (nth_start_skip V l (l + 1) r n), (left_over_skip V l (l + 1) r n), Hc by lia.
      destruct (next_in_block fuel block (shift + 1) (l + 1) r (n - 1)) as [[l' n'] [p |]]; [done |].
      destruct IH as (? & ? & _ & ? & ?). split_and!; try done; lia.
  - specialize (IH (shift + 1) (l + 1) n ltac:(lia) ltac:(lia) HV1).
    rewrite (nth_start_skip V l (l + 1) r n), (left_over_skip V l (l + 1) r n), Hc, Z.sub_0_r by lia.
    destruct (next_in_block fuel block (shift + 1) (l + 1) r n) as [[l' n'] [p |]]; [done |].
    destruct IH as (? & ? & _ & ? & ?). split_and!; try done; lia.
Qed.

Lemma prev_in_block_spec fuel block V shift l r n :
  0 <= shift <= 64 -> 1 <= n < 2 ^ 64 ->
  (forall k, 0 <= k < shift -> EntryRowIsValid block (shift - 1 - k) = V (r - 1 - k)) ->
  match prev_in_block fuel block shift l r n with
  | (_, n', Some p) => p = nth_last V l r n /\ n' = left_over V l r n
  | (r', n', None) =>
      Z.min l r <= r' <= r /\ 1 <= n' < 2 ^ 64 /\
      (fuel <> O -> 0 < shift -> l < r -> r' < r) /\
      nth_last V l r' n' = nth_last V l r n /\ left_over V l r' n' = left_over V l r n
  end.
Proof.
  revert shift r n. induction fuel as [| fuel IH]; intros shift r n Hs Hn HV; cbn [prev_in_block].
  { split_and!; [lia..| done | done | done]. }
  destruct ((0 <? shift) && (l <? r)) eqn:E; cycle 1.
  { apply andb_false_iff in E. rewrite Z.ltb_ge, Z.ltb_ge in E. split_and!; try done; lia. }
  bool_to_prop. pose proof (HV 0 ltac:(lia)) as HV0. rewrite !Z.sub_0_r in HV0. rewrite HV0.
  assert (forall k, 0 <= k < shift - 1 ->
    EntryRowIsValid block (shift - 1 - 1 - k) = V (r - 1 - 1 - k)) as HV1.
  { intros k ?. rewrite <- (Z.sub_add_distr _ 1 k), <- (Z.sub_add_distr (r - 1) 1 k). apply HV; lia. }
  pose proof (zcount_one V (r - 1)) as Hc. rewrite Z.sub_add in Hc.
  destruct (V (r - 1)) eqn:HVl; simpl in Hc.
  - rewrite u64_small by lia. case_if.
    + replace n with 1 by lia. rewrite nth_last_here, left_over_here_r by done. lia.
    + specialize (IH (shift - 1) (r - 1) (n - 1) ltac:(lia) ltac:(lia) HV1).
      rewrite (nth_last_skip V l (r - 1) r n), (left_over_skip_r V l (r - 1) r n), Hc by lia.
      destruct (prev_in_block fuel block (shift - 1) l (r - 1) (n - 1)) as [[l' n'] [p |]]; [done |].
      destruct IH as (? & ? & _ & ? & ?). split_and!; try done; lia.
  - specialize (IH (shift - 1) (r - 1) n ltac:(lia) ltac:(lia) HV1).
    rewrite (nth_last_skip V l (r - 1) r n), (left_over_skip_r V l (r - 1) r n), Hc, Z.sub_0_r by lia.
    destruct (prev_in_block fuel block (shift - 1) l (r - 1) n) as [[l' n'] [p |]]; [done |].
    destruct IH as (? & ? & _ & ? & ?). split_and!; try done; lia.
Qed.

Lemma RowIsValidUnsafe_eq mask i : RowIsValid mask i = RowIsValidUnsafe mask i.
Proof.
  unfold RowIsValid, AllValid. destruct mask as [[data |] c]; [done |].
  unfold RowIsValidUnsafe, GetEntryIndex, GetValidityEntry. simpl.
  rewrite EntryRowIsValid_testbit, testbit_MAX by (apply Z.mod_pos_bound; done || apply Z.mod_pos_bound; done).
  rewrite bool_decide_true; [done |]. apply Z.mod_pos_bound. done.
Qed.

Lemma block_rows mask l k :
  0 <= l -> 0 <= l mod 64 + k < 64 ->
  EntryRowIsValid (GetValidityEntry mask (l / 64)) (l mod 64 + k) = RowIsValid mask (l + k).
Proof.
  intros Hl Hk. rewrite RowIsValidUnsafe_eq. unfold RowIsValidUnsafe, GetEntryIndex, BITS_PER_VALUE.
  replace ((l + k) / 64) with (l / 64) by zdm. by replace ((l + k) mod 64) with (l mod 64 + k) by zdm.
Qed.

Lemma blank_block mask l r :
  0 <= l -> l / 64 = (r - 1) / 64 -> NoneValid (GetValidityEntry mask (l / 64)) = true ->
  zcount (RowIsValid mask) l r = 0.
Proof.
  intros Hl Hr Hb. apply zcount_none. intros i Hi.
  replace i with (i - 0) by lia. pose proof (block_rows mask i 0) as H. rewrite Z.add_0_r in H.
  rewrite Z.sub_0_r. replace (i + 0) with i in H by lia. rewrite <- H; [| lia | zdm].
  replace (i / 64) with (l / 64) by zdm. unfold NoneValid in Hb. apply Z.eqb_eq in Hb. rewrite Hb.
  unfold EntryRowIsValid. by rewrite Z.land_0_l.
Qed.

Lemma next_loop_spec fuel mask l r n :
  0 <= l -> r - l < Z.of_nat fuel -> 1 <= n < 2 ^ 64 ->
  next_loop fuel mask l r n =
    (nth_start (RowIsValid mask) l r n, left_over (RowIsValid mask) l r n).
Proof.
  revert l n. induction fuel as [| fuel IH]; intros l n Hl Hf Hn.
  { destruct (nth_start_empty (RowIsValid mask) l r n ltac:(lia)) as [-> ->].
    simpl. f_equal. lia. }
  cbn [next_loop]. destruct (Z.ltb_spec l r); cycle 1.
  { destruct (nth_start_empty (RowIsValid mask) l r n ltac:(lia)) as [-> ->]. f_equal. lia. }
  unfold GetEntryIndex, BITS_PER_VALUE. destruct (NoneValid _ && _) eqn:Hb; bool_to_prop.
  - rewrite IH by lia. destruct (decide (l + 64 <= r)).
    + pose proof (blank_block mask l (l + 64) Hl ltac:(zdm) ltac:(done)) as Hc.
      rewrite (nth_start_skip _ l (l + 64) r n), (left_over_skip _ l (l + 64) r n), Hc by lia.
      f_equal; f_equal; lia.
    + pose proof (blank_block mask l r Hl ltac:(zdm) ltac:(done)) as Hc.
      destruct (nth_start_empty (RowIsValid mask) (l + 64) r n ltac:(lia)) as [-> ->].
      rewrite (nth_start_skip _ l r r n), (left_over_skip _ l r r n), Hc by lia.
      destruct (nth_start_empty (RowIsValid mask) r r (n - 0) ltac:(lia)) as [-> ->]. f_equal; lia.
  - pose proof (next_in_block_spec 64 (GetValidityEntry mask (l / 64)) (RowIsValid mask) (l mod 64) l r n
      ltac:(zdm) Hn) as H1.
    specialize (H1 ltac:(intros; apply block_rows; zdm)).
    destruct (next_in_block 64 _ (l mod 64) l r n) as [[l' n'] [p |]].
    + destruct H1 as [-> ->]. done.
    + destruct H1 as (? & ? & Hp & <- & <-). specialize (Hp ltac:(done) ltac:(zdm) ltac:(done)).
      apply IH; lia.
Qed.

Lemma prev_loop_spec fuel mask l r n :
  0 <= l -> r < 2 ^ 64 -> r - l < Z.of_nat fuel -> 1 <= n < 2 ^ 64 ->
  prev_loop fuel mask l r n =
    (nth_last (RowIsValid mask) l r n, left_over (RowIsValid mask) l r n).
Proof.
  intros Hl. revert r n. induction fuel as [| fuel IH]; intros r n Hr Hf Hn.
  { destruct (nth_last_empty (RowIsValid mask) l r n ltac:(lia)) as [-> ->].
    simpl. f_equal. lia. }
  cbn [prev_loop]. destruct (Z.ltb_spec l r); cycle 1.
  { destruct (nth_last_empty (RowIsValid mask) l r n ltac:(lia)) as [-> ->]. f_equal. lia. }
  unfold GetEntryIndex, BITS_PER_VALUE. destruct (NoneValid _ && _) eqn:Hb; bool_to_prop.
  - rewrite u64_small by zdm. rewrite IH by lia. destruct (decide (l <= r - 64)).
    + assert (zcount (RowIsValid mask) (r - 64) r = 0) as Hc.
      { apply blank_block; [lia | zdm |]. by replace ((r - 64) / 64) with ((r - 1) / 64) by zdm. }
      rewrite (nth_last_skip _ l (r - 64) r n), (left_over_skip_r _ l (r - 64) r n), Hc by lia.
      f_equal; f_equal; lia.
    + assert (zcount (RowIsValid mask) l r = 0) as Hc.
      { apply blank_block; [lia | zdm |]. by replace (l / 64) with ((r - 1) / 64) by zdm. }
      destruct (nth_last_empty (RowIsValid mask) l (r - 64) n ltac:(lia)) as [-> ->].
      rewrite (nth_last_skip _ l l r n), (left_over_skip_r _ l l r n), Hc by lia.
      destruct (nth_last_empty (RowIsValid mask) l l (n - 0) ltac:(lia)) as [-> ->]. f_equal; lia.
  - pose proof (prev_in_block_spec 64 (GetValidityEntry mask ((r - 1) / 64)) (RowIsValid mask)
      ((r - 1) mod 64 + 1) l r n ltac:(zdm) Hn) as H1.
    assert (forall k, 0 <= k < (r - 1) mod 64 + 1 ->
      EntryRowIsValid (GetValidityEntry mask ((r - 1) / 64)) ((r - 1) mod 64 + 1 - 1 - k)
      = RowIsValid mask (r - 1 - k)) as Hk.
    { intros k Hk. replace ((r - 1) mod 64 + 1 - 1 - k) with ((r - 1) mod 64 + (- k)) by lia.
      rewrite block_rows by zdm. f_equal. }
    specialize (H1 Hk).
    destruct (prev_in_block 64 _ _ l r n) as [[r' n'] [p |]].
    + destruct H1 as [-> ->]. done.
    + destruct H1 as (? & ? & Hp & <- & <-). specialize (Hp ltac:(done) ltac:(zdm) ltac:(done)).
      apply IH; lia.
Qed.

Lemma RowIsValid_AllValid mask i : AllValid mask = true -> RowIsValid mask i = true.
Proof. intros H. unfold RowIsValid. by rewrite H. Qed.

Lemma starts_all V l r : (forall i, V i = true) -> starts V l r = zrange l r.
Proof. intros HV. unfold starts. induction (zrange l r); simpl; [done |]. rewrite HV. by f_equal. Qed.

Lemma lookup_zrange l r k : 0 <= k < r - l -> zrange l r !! Z.to_nat k = Some (l + k).
Proof.
  intros. unfold zrange. rewrite list_lookup_fmap, lookup_seq_lt by lia. simpl. f_equal. lia.
Qed.

Lemma lookup_rev_zrange l r k : 0 <= k < r - l -> rev (zrange l r) !! Z.to_nat k = Some (r - 1 - k).
Proof.
  intros. rewrite rev_alt. change (rev_append (zrange l r) []) with (reverse (zrange l r)).
  rewrite reverse_lookup by (rewrite length_zrange; lia). rewrite length_zrange.
  replace (Z.to_nat (r - l) - S (Z.to_nat k))%nat with (Z.to_nat (r - l - 1 - k)) by lia.
  rewrite lookup_zrange by lia. f_equal. lia.
Qed.

Lemma FindNextStart_nth mask l r n :
  0 <= l <= r + 1 -> r < 2 ^ 63 -> 1 <= n < 2 ^ 63 ->
  fst (FindNextStart mask l r n) = nth_start (RowIsValid mask) l r n /\
  (l <= r -> snd (FindNextStart mask l r n) = left_over (RowIsValid mask) l r n).
Proof.
  intros Hl Hr Hn. unfold FindNextStart. destruct (AllValid mask) eqn:Ha; cycle 1.
  { rewrite next_loop_spec by lia. done. }
  pose proof (fun i => RowIsValid_AllValid mask i Ha) as HV. cbn [fst snd].
  rewrite (u64_small (l + n)), (u64_small (l + n - 1)) by lia. split.
  - unfold nth_start. rewrite starts_all by done. destruct (decide (l + n - 1 < r)).
    + rewrite lookup_zrange by lia. simpl. lia.
    + rewrite (proj2 (lookup_ge_None _ _)); [simpl; lia |]. rewrite length_zrange. lia.
  - intros. rewrite u64_small by lia. unfold left_over. rewrite zcount_all by (done || lia). done.
Qed.

Lemma FindPrevStart_nth mask l r n :
  0 <= l <= r -> r < 2 ^ 63 -> 1 <= n <= 2 ^ 63 ->
  FindPrevStart mask l r n =
    (nth_last (RowIsValid mask) l r n, left_over (RowIsValid mask) l r n).
Proof.
  intros Hl Hr Hn. unfold FindPrevStart. destruct (AllValid mask) eqn:Ha; cycle 1.
  { apply prev_loop_spec; lia. }
  pose proof (fun i => RowIsValid_AllValid mask i Ha) as HV. rewrite u64_small by lia.
  unfold left_over. rewrite zcount_all by (done || lia). f_equal; [| case_if; lia].
  unfold nth_last. rewrite starts_all by done.
  destruct (Z.leb_spec r (l + n)), (decide (r < l + n)).
  - rewrite (proj2 (lookup_ge_None _ _)); [done |]. rewrite length_rev, length_zrange. lia.
  - rewrite lookup_rev_zrange by lia. simpl. lia.
  - lia.
  - rewrite lookup_rev_zrange by lia. simpl. lia.
Qed.

(** [FindNextStart] returns the position of the [n]-th set row of [[l, r)] and
    leaves 0 in [n], or returns [r] with the number of rows that are missing; the
    skipping of blank blocks and the shortcut for a mask without a bitmap do not
    change the result. *)
Theorem FindNextStart_correct mask l r n :
  0 <= l <= r -> r < 2 ^ 63 -> 1 <= n < 2 ^ 63 ->
  FindNextStart mask l r n =
    (nth_start (RowIsValid mask) l r n, left_over (RowIsValid mask) l r n).
Proof.
  intros Hl Hr Hn. destruct (FindNextStart_nth mask l r n) as [H1 H2]; [lia..|].
  rewrite <- H1, <- (H2 (proj2 Hl)). by destruct (FindNextStart mask l r n).
Qed.

(** [FindPrevStart] returns the position of the [n]-th set row of [[l, r)]
    counted from the right and leaves 0 in [n], or returns [l] with the number of
    rows that are missing. *)
Theorem FindPrevStart_correct mask l r n :
  0 <= l <= r -> r < 2 ^ 63 -> 1 <= n <= 2 ^ 63 ->
  FindPrevStart mask l r n =
    (nth_last (RowIsValid mask) l r n, left_over (RowIsValid mask) l r n).
Proof. apply FindPrevStart_nth. Qed.

(** ** Witnesses *)

Lemma FindNextStart_correct_witness :
  FindNextStart (mkMask (Some [0; 5; 2 ^ 63]) 192) 3 192 3 =
    (nth_start (RowIsValid (mkMask (Some [0; 5; 2 ^ 63]) 192)) 3 192 3,
     left_over (RowIsValid (mkMask (Some [0; 5; 2 ^ 63]) 192)) 3 192 3).
Proof. apply (FindNextStart_correct (mkMask (Some [0; 5; 2 ^ 63]) 192) 3 192 3); lia. Defined.

Lemma FindPrevStart_correct_witness :
  FindPrevStart (mkMask (Some [9; 0; 4]) 192) 0 192 2 =
    (nth_last (RowIsValid (mkMask (Some [9; 0; 4]) 192)) 0 192 2,
     left_over (RowIsValid (mkMask (Some [9; 0; 4]) 192)) 0 192 2).
Proof. apply (FindPrevStart_correct (mkMask (Some [9; 0; 4]) 192) 0 192 2); lia. Defined.
