(* ===== verification/Boundaries.v ===== *)
(** Window boundaries (src/src/function/window/window_boundaries_state.cpp and
    src/src/include/duckdb/function/window/window_boundaries_state.hpp).

    For every row of a chunk: where its partition, peer group, non-NULL range and
    frame begin and end.  The state is carried from chunk to chunk; the theorems
    show that what a chunk gets depends on its rows only, whatever chunks were
    evaluated before and in whatever order. *)
From S2P Require Import Prelude Validity MaskSearch.

(** ** Expression descriptions *)

Inductive WindowBoundary : Set :=
  | INVALID | UNBOUNDED_PRECEDING | UNBOUNDED_FOLLOWING
  | CURRENT_ROW_RANGE | CURRENT_ROW_ROWS
  | EXPR_PRECEDING_ROWS | EXPR_FOLLOWING_ROWS
  | EXPR_PRECEDING_RANGE | EXPR_FOLLOWING_RANGE
  | CURRENT_ROW_GROUPS | EXPR_PRECEDING_GROUPS | EXPR_FOLLOWING_GROUPS.

Inductive WindowExcludeMode : Set := NO_OTHER | CURRENT_ROW | GROUP | TIES.

(** The window functions of [ExpressionType]. *)
Inductive ExpressionType : Set :=
  | WINDOW_AGGREGATE | WINDOW_RANK | WINDOW_RANK_DENSE | WINDOW_NTILE | WINDOW_PERCENT_RANK
  | WINDOW_CUME_DIST | WINDOW_ROW_NUMBER | WINDOW_FIRST_VALUE | WINDOW_LAST_VALUE
  | WINDOW_LEAD | WINDOW_LAG | WINDOW_NTH_VALUE | WINDOW_FILL
  | NOT_A_WINDOW.

Inductive WindowBounds : Set :=
  | PARTITION_BEGIN | PARTITION_END | PEER_BEGIN | PEER_END
  | VALID_BEGIN | VALID_END | FRAME_BEGIN | FRAME_END.

#[export] Instance WindowBoundary_dec : EqDecision WindowBoundary.
Proof. solve_decision. Defined.
#[export] Instance WindowExcludeMode_dec : EqDecision WindowExcludeMode.
Proof. solve_decision. Defined.
#[export] Instance ExpressionType_dec : EqDecision ExpressionType.
Proof. solve_decision. Defined.
#[export] Instance WindowBounds_dec : EqDecision WindowBounds.
Proof. solve_decision. Defined.

(** The part of [BoundWindowExpression] the boundaries use; of the argument
    orders only their number. *)
Record BoundWindowExpression : Set := mkExpr {
  expr_type : ExpressionType;
  partitions : Z;
  orders : list OrderType;
  arg_orders : Z;
  wexpr_start : WindowBoundary;
  wexpr_end : WindowBoundary;
  exclude_clause : WindowExcludeMode
}.

(** [unordered_set<WindowBounds>] *)
Definition WindowBoundsSet : Set := list WindowBounds.
Definition insert_bounds (s : WindowBoundsSet) (bs : list WindowBounds) : WindowBoundsSet := bs ++ s.
Definition required_count (s : WindowBoundsSet) (b : WindowBounds) : bool := bool_decide (b ∈ s).

Definition HasPrecedingRange (w : BoundWindowExpression) : bool :=
  bool_decide (wexpr_start w = EXPR_PRECEDING_RANGE) || bool_decide (wexpr_end w = EXPR_PRECEDING_RANGE).

Definition HasFollowingRange (w : BoundWindowExpression) : bool :=
  bool_decide (wexpr_start w = EXPR_FOLLOWING_RANGE) || bool_decide (wexpr_end w = EXPR_FOLLOWING_RANGE).

(** The bounds a function needs by itself. *)
Definition function_bounds (w : BoundWindowExpression) : res WindowBoundsSet :=
  let plain := arg_orders w =? 0 in
  match expr_type w with
  | WINDOW_ROW_NUMBER => Ok (if plain then [PARTITION_BEGIN] else [FRAME_BEGIN; FRAME_END])
  | WINDOW_NTILE => Ok (if plain then [PARTITION_BEGIN; PARTITION_END] else [FRAME_BEGIN; FRAME_END])
  | WINDOW_RANK =>
      Ok (if plain then [PARTITION_BEGIN; PEER_BEGIN] else [FRAME_BEGIN; FRAME_END; PEER_BEGIN])
  | WINDOW_RANK_DENSE => Ok [PARTITION_BEGIN; PEER_BEGIN]
  | WINDOW_PERCENT_RANK =>
      Ok (if plain then [PARTITION_BEGIN; PARTITION_END; PEER_BEGIN]
          else [FRAME_BEGIN; FRAME_END; PEER_BEGIN])
  | WINDOW_CUME_DIST =>
      Ok (if plain then [PARTITION_BEGIN; PARTITION_END; PEER_END]
          else [FRAME_BEGIN; FRAME_END; PEER_END])
  | WINDOW_LEAD | WINDOW_LAG =>
      Ok (if plain then [PARTITION_BEGIN; PARTITION_END] else [FRAME_BEGIN; FRAME_END])
  | WINDOW_FILL =>
      Ok (if plain then [FRAME_BEGIN; FRAME_END; VALID_BEGIN; VALID_END] else [FRAME_BEGIN; FRAME_END])
  | WINDOW_FIRST_VALUE | WINDOW_LAST_VALUE | WINDOW_NTH_VALUE | WINDOW_AGGREGATE =>
      Ok [FRAME_BEGIN; FRAME_END]
  | NOT_A_WINDOW => Throw InternalException
  end.

(** The two [switch] statements over the frame boundaries. *)
Definition start_bounds (b : WindowBoundary) : list WindowBounds :=
  match b with
  | CURRENT_ROW_RANGE | CURRENT_ROW_GROUPS => [PEER_BEGIN]
  | EXPR_PRECEDING_RANGE => [PEER_BEGIN; VALID_BEGIN; VALID_END]
  | EXPR_FOLLOWING_RANGE => [PEER_BEGIN; VALID_END]
  | EXPR_PRECEDING_GROUPS | EXPR_FOLLOWING_GROUPS => [PEER_BEGIN]
  | _ => []
  end.

Definition end_bounds (b : WindowBoundary) : list WindowBounds :=
  match b with
  | CURRENT_ROW_RANGE | CURRENT_ROW_GROUPS => [PEER_END]
  | EXPR_PRECEDING_RANGE => [PEER_END; VALID_BEGIN]
  | EXPR_FOLLOWING_RANGE => [PEER_END; VALID_BEGIN; VALID_END]
  | EXPR_PRECEDING_GROUPS | EXPR_FOLLOWING_GROUPS => [PEER_END]
  | _ => []
  end.

Definition when (b : bool) (bs : list WindowBounds) : list WindowBounds := if b then bs else [].

Definition GetWindowBounds (w : BoundWindowExpression) : res WindowBoundsSet :=
  let partition_count := partitions w in
  let order_count := Z.of_nat (length (orders w)) in
  result ← function_bounds w;
  let result :=
    if required_count result FRAME_BEGIN || required_count result FRAME_END then
      let result := insert_bounds result [PARTITION_BEGIN; PARTITION_END] in
      let result := insert_bounds result
        (when (negb (bool_decide (exclude_clause w = NO_OTHER))) [PEER_BEGIN; PEER_END]) in
      let result := insert_bounds result (start_bounds (wexpr_start w)) in
      insert_bounds result (end_bounds (wexpr_end w))
    else result in
  let result := insert_bounds result (when (required_count result VALID_END)
    (PARTITION_END :: when (HasFollowingRange w) [VALID_BEGIN])) in
  let result := insert_bounds result
    (when (required_count result VALID_BEGIN) [PARTITION_BEGIN; PARTITION_END]) in
  let result := insert_bounds result (when (required_count result PEER_END)
    (PARTITION_END :: when (negb (order_count =? 0)) [PEER_BEGIN])) in
  let result := insert_bounds result (when (required_count result PARTITION_END &&
    negb (partition_count + order_count =? 0)) [PARTITION_BEGIN]) in
  Ok result.

(** ** Cells

    [WindowCursor] gives access to the ordering column; [WindowInputExpression]
    to a boundary expression, evaluated for the chunk, whose vector is constant
    ([scalar]) or flat.  [T] is the C++ type of the ordering values. *)

Record WindowCursor (T : Type) : Type := mkCursor {
  Cell : Z -> T;
  CellIsNull : Z -> bool
}.
Arguments mkCursor {T}.
Arguments Cell {T}.
Arguments CellIsNull {T}.

Record WindowInputExpression (T : Type) : Type := mkInput {
  scalar : bool;
  input_data : Z -> T;
  input_null : Z -> bool
}.
Arguments mkInput {T}.
Arguments scalar {T}.
Arguments input_data {T}.
Arguments input_null {T}.

Definition GetCell {T} (e : WindowInputExpression T) (i : Z) : T :=
  input_data e (if scalar e then 0 else i).

Definition InputIsNull {T} (e : WindowInputExpression T) (i : Z) : bool :=
  input_null e (if scalar e then 0 else i).

Record FrameBounds : Set := mkFrame { fb_start : Z; fb_end : Z }.

(** ** Binary search

    [std::lower_bound] and [std::upper_bound] halve the range; they differ in the
    predicate that sends them to the right half. *)
Fixpoint bsearch (right : Z -> bool) (first len : Z) (fuel : nat) : Z :=
  match fuel with
  | O => first
  | S fuel =>
      if 0 <? len then
        let half := Z.shiftr len 1 in
        let middle := first + half in
        if right middle then bsearch right (middle + 1) (len - half - 1) fuel
        else bsearch right first half fuel
      else first
  end.

Section search.
Context {T : Type} (comp : T -> T -> bool).

Definition lower_bound (cell : Z -> T) (first last : Z) (val : T) : Z :=
  bsearch (fun i => comp (cell i) val) first (last - first) (Z.to_nat (last - first)).

Definition upper_bound (cell : Z -> T) (first last : Z) (val : T) : Z :=
  bsearch (fun i => negb (comp val (cell i))) first (last - first) (Z.to_nat (last - first)).

(** The part of the range that is searched, or the early return. *)
Definition reuse_start (from : bool) (cell : Z -> T) (order_begin order_end : Z) (val : T)
    (prev : FrameBounds) : Z + Z :=
  if (order_begin <=? fb_start prev) && (fb_start prev <? order_end) then
    let first := cell (fb_start prev) in
    if from && negb (comp val first) then
      if negb (comp first val) then inl (fb_start prev)
      else inr (order_begin + (fb_start prev - order_begin))
    else inr order_begin
  else inr order_begin.

Definition reuse_end (from : bool) (cell : Z -> T) (order_begin order_end : Z) (val : T)
    (prev : FrameBounds) : Z + Z :=
  if (order_begin <? fb_end prev) && (fb_end prev <? order_end) then
    let second := cell (fb_end prev - 1) in
    if negb (comp second val) then
      if negb from && negb (comp val second) then inl (fb_end prev)
      else inr (order_end - (order_end - fb_end prev - 1))
    else inr order_end
  else inr order_end.

Definition search_bound (from : bool) (cell : Z -> T) (order_begin order_end : Z) (val : T)
    (prev : FrameBounds) : Z :=
  let search b e := if from then lower_bound cell b e val else upper_bound cell b e val in
  if fb_start prev <? fb_end prev then
    match reuse_start from cell order_begin order_end val prev with
    | inl p => p
    | inr b =>
        match reuse_end from cell order_begin order_end val prev with
        | inl p => p
        | inr e => search b e
        end
    end
  else search order_begin order_end.

Definition FindTypedRangeBound (from : bool) (range_lo range_hi : WindowCursor T)
    (order_begin order_end : Z) (range : WindowBoundary) (boundary : WindowInputExpression T)
    (chunk_idx : Z) (prev : FrameBounds) : res Z :=
  let val := GetCell boundary chunk_idx in
  if (if bool_decide (range = EXPR_PRECEDING_RANGE)
      then comp (Cell range_hi (order_end - 1)) val
      else comp val (Cell range_lo order_begin))
  then Throw OutOfRangeException
  else Ok (search_bound from (Cell range_lo) order_begin order_end val prev).
End search.

(** [lt] is [LessThan] at the physical type of the column; [supported] says
    whether the [switch] over the physical types has a case for it. *)
Class RangeType (T : Type) : Type := {
  range_lt : T -> T -> bool;
  range_supported : bool;
  (** [GetCell<int64_t>] of a boundary cell *)
  as_int64 : T -> Z
}.

Section boundaries.
Context {T : Type} `{RangeType T}.

Definition FindOrderedRangeBound (from : bool) (range_lo range_hi : WindowCursor T)
    (range_sense : OrderType) (order_begin order_end : Z) (range : WindowBoundary)
    (boundary : WindowInputExpression T) (chunk_idx : Z) (prev : FrameBounds) : res Z :=
  match range_sense with
  | ASCENDING =>
      if range_supported then
        FindTypedRangeBound range_lt from range_lo range_hi order_begin order_end range boundary
          chunk_idx prev
      else Throw InternalException
  | DESCENDING =>
      if range_supported then
        FindTypedRangeBound (fun a b => range_lt b a) from range_lo range_hi order_begin order_end
          range boundary chunk_idx prev
      else Throw InternalException
  | _ => Throw InternalException
  end.

(** ** The state of a thread *)

Record WindowBoundariesState : Type := mkState {
  required : WindowBoundsSet;
  input_size : Z;
  start_boundary : WindowBoundary;
  end_boundary : WindowBoundary;
  partition_count : Z;
  order_count : Z;
  range_sense : OrderType;
  next_pos : Z;
  partition_start : Z;
  partition_end : Z;
  peer_start : Z;
  valid_start : Z;
  valid_end : Z
}.

Definition WindowBoundariesState_new (w : BoundWindowExpression) (input_size : Z)
    : res WindowBoundariesState :=
  required ← GetWindowBounds w;
  Ok (mkState required input_size (wexpr_start w) (wexpr_end w) (partitions w)
        (Z.of_nat (length (orders w)))
        (match orders w with [] => ORDER_INVALID | o :: _ => o end) 0 0 0 0 0 0).

(** The columns of the bounds chunk.  Their contents before [Bounds] are what
    the buffers last held. *)
Definition DataChunk : Type := WindowBounds -> list Z.

Definition set_column (c : DataChunk) (b : WindowBounds) (values : list Z) : DataChunk :=
  fun b' => if decide (b' = b) then values else c b'.

(** [for (chunk_idx = 0; chunk_idx < count; ++chunk_idx, ++row_idx)]: the body
    gives the value stored at [chunk_idx]. *)
Fixpoint row_loop {S} (body : S -> Z -> Z -> S * Z) (s : S) (chunk_idx row_idx : Z) (n : nat)
    : S * list Z :=
  match n with
  | O => (s, [])
  | S n =>
      let '(s, v) := body s chunk_idx row_idx in
      let '(s, vs) := row_loop body s (chunk_idx + 1) (row_idx + 1) n in
      (s, v :: vs)
  end.

Fixpoint row_loop_res {S} (body : S -> Z -> Z -> res (S * Z)) (s : S) (chunk_idx row_idx : Z)
    (n : nat) : res (list Z) :=
  match n with
  | O => Ok []
  | S n =>
      '(s, v) ← body s chunk_idx row_idx;
      vs ← row_loop_res body s (chunk_idx + 1) (row_idx + 1) n;
      Ok (v :: vs)
  end.

Definition rows (count : Z) : nat := Z.to_nat count.

Definition over_all (st : WindowBoundariesState) : bool := partition_count st + order_count st =? 0.

(** ** Partitions and peers *)

Definition PartitionBegin (st : WindowBoundariesState) (row_idx count : Z) (is_jump : bool)
    (partition_mask : ValidityMask) : Z * list Z :=
  if over_all st then (partition_start st, replicate (rows count) 0) else
  let '((start, _), values) :=
    row_loop (fun '(start, is_jump) chunk_idx row_idx =>
      let is_same_partition := negb (RowIsValidUnsafe partition_mask row_idx) in
      let '(start, is_jump) :=
        if negb is_same_partition || is_jump then
          if is_jump then (fst (FindPrevStart partition_mask 0 (row_idx + 1) 1), false)
          else (row_idx, is_jump)
        else (start, is_jump) in
      ((start, is_jump), start)) (partition_start st, is_jump) 0 row_idx (rows count) in
  (start, values).

Definition PartitionEnd (st : WindowBoundariesState) (bounds : DataChunk) (row_idx count : Z)
    (is_jump : bool) (partition_mask : ValidityMask) : Z * list Z :=
  if over_all st then (partition_end st, replicate (rows count) (input_size st)) else
  let '((end_, _), values) :=
    row_loop (fun '(end_, is_jump) chunk_idx row_idx =>
      let is_same_partition := negb (RowIsValidUnsafe partition_mask row_idx) in
      let '(end_, is_jump) :=
        if negb is_same_partition || is_jump then
          (if partition_count st =? 0 then input_size st
           else fst (FindNextStart partition_mask (znth 0 (bounds PARTITION_BEGIN) chunk_idx + 1)
                       (input_size st) 1), false)
        else (end_, is_jump) in
      ((end_, is_jump), end_)) (partition_end st, is_jump) 0 row_idx (rows count) in
  (end_, values).

Definition PeerBegin (st : WindowBoundariesState) (row_idx count : Z) (is_jump : bool)
    (partition_mask order_mask : ValidityMask) : Z * list Z :=
  if over_all st then (peer_start st, replicate (rows count) 0) else
  let '((start, _), values) :=
    row_loop (fun '(start, is_jump) chunk_idx row_idx =>
      let is_same_partition := negb (RowIsValidUnsafe partition_mask row_idx) in
      let is_peer := negb (RowIsValidUnsafe order_mask row_idx) in
      let '(start, is_jump) :=
        if negb is_same_partition || is_jump then
          (if is_jump then fst (FindPrevStart order_mask 0 (row_idx + 1) 1) else row_idx, false)
        else if negb is_peer then (row_idx, is_jump)
        else (start, is_jump) in
      ((start, is_jump), start)) (peer_start st, is_jump) 0 row_idx (rows count) in
  (start, values).

Definition PeerEnd (st : WindowBoundariesState) (bounds : DataChunk) (row_idx count : Z)
    (order_mask : ValidityMask) : list Z :=
  if order_count st =? 0 then bounds PARTITION_END else
  snd (row_loop (fun prev_end chunk_idx row_idx =>
    let peer_start := znth 0 (bounds PEER_BEGIN) chunk_idx in
    let prev_end :=
      if prev_end <=? peer_start
      then fst (FindNextStart order_mask (peer_start + 1) (znth 0 (bounds PARTITION_END) chunk_idx) 1)
      else prev_end in
    (prev_end, prev_end)) (znth 0 (bounds PEER_BEGIN) 0) 0 row_idx (rows count)).

(** ** Non-NULL ordering values *)

Definition ValidBegin (st : WindowBoundariesState) (bounds : DataChunk) (row_idx count : Z)
    (is_jump : bool) (partition_mask order_mask : ValidityMask) (range : WindowCursor T)
    : Z * list Z :=
  row_loop (fun start chunk_idx row_idx =>
    let is_same_partition := negb (RowIsValidUnsafe partition_mask row_idx) in
    let start :=
      if negb is_same_partition || is_jump then
        let start := znth 0 (bounds PARTITION_BEGIN) chunk_idx in
        let valid_end := znth 0 (bounds PARTITION_END) chunk_idx in
        if (start <? valid_end) && CellIsNull range start
        then fst (FindNextStart order_mask (start + 1) valid_end 1)
        else start
      else start in
    (start, start)) (valid_start st) 0 row_idx (rows count).

Definition ValidEnd (st : WindowBoundariesState) (bounds : DataChunk) (row_idx count : Z)
    (is_jump : bool) (partition_mask order_mask : ValidityMask) (range : WindowCursor T)
    : Z * list Z :=
  row_loop (fun end_ chunk_idx row_idx =>
    let is_same_partition := negb (RowIsValidUnsafe partition_mask row_idx) in
    let end_ :=
      if negb is_same_partition || is_jump then
        let valid_start := znth 0 (bounds VALID_BEGIN) chunk_idx in
        let end_ := znth 0 (bounds PARTITION_END) chunk_idx in
        if (valid_start <? end_) && CellIsNull range (end_ - 1)
        then fst (FindPrevStart order_mask valid_start end_ 1)
        else end_
      else end_ in
    (end_, end_)) (valid_end st) 0 row_idx (rows count).

(** ** Frames *)

Definition ClampFrame (values begin_ end_ : list Z) : list Z :=
  imap (fun i v => Z.min (Z.max v (znth 0 begin_ (Z.of_nat i))) (znth 0 end_ (Z.of_nat i))) values.

(** [TrySubtractOperator] and [TryAddOperator] on [int64_t] *)
Definition in_int64 (z : Z) : option Z := if (- 2 ^ 63 <=? z) && (z <? 2 ^ 63) then Some z else None.
Definition TrySubtract (a b : Z) : option Z := in_int64 (a - b).
Definition TryAdd (a b : Z) : option Z := in_int64 (a + b).

(** The offset of a ROWS frame from [pos]: [MaxValue(computed, 0)], or
    [on_overflow]. *)
Definition rows_offset (computed : option Z) (on_overflow : Z) : Z :=
  match computed with Some c => Z.max c 0 | None => on_overflow end.

(** A GROUPS frame: NULL offsets stay at the current peer group. *)
Definition groups_offset (boundary : WindowInputExpression T) (chunk_idx current : Z)
    (find : Z -> Z) : res Z :=
  if InputIsNull boundary chunk_idx then Ok current else
  let b := as_int64 (GetCell boundary chunk_idx) in
  if b <? 0 then Throw OutOfRangeException
  else if b =? 0 then Ok current
  else Ok (find b).

(** The hints of a RANGE loop: [prev] and [prev_partition]. *)
Definition range_hints : Type := FrameBounds * Z.

(** When [FRAME_BEGIN] is made a reference to [PEER_BEGIN] (or [FRAME_END] to
    [PEER_END]) the two share a buffer, so the clamped values appear in both.
    A reference to [PARTITION_BEGIN] or [PARTITION_END] is never written to,
    except through [PEER_END] when there are no orders, where clamping stores
    the values that are there. *)
Definition FrameBegin (st : WindowBoundariesState) (bounds : DataChunk) (row_idx count : Z)
    (boundary : WindowInputExpression T) (order_mask : ValidityMask) (range : WindowCursor T)
    : res DataChunk :=
  let pb := znth 0 (bounds PARTITION_BEGIN) in
  let pe := znth 0 (bounds PARTITION_END) in
  let peer := znth 0 (bounds PEER_BEGIN) in
  let vb := znth 0 (bounds VALID_BEGIN) in
  let ve := znth 0 (bounds VALID_END) in
  let hints : range_hints := (mkFrame (vb 0) (ve 0), pb 0) in
  let clamp values := ClampFrame values (bounds PARTITION_BEGIN) (bounds PARTITION_END) in
  let loop {S} (s : S) body :=
    values ← row_loop_res body s 0 row_idx (rows count);
    Ok (set_column bounds FRAME_BEGIN (clamp values)) in
  let pure_loop f := loop tt (fun _ chunk_idx row_idx => Ok (tt, f chunk_idx row_idx)) in
  match start_boundary st with
  | UNBOUNDED_PRECEDING => Ok (set_column bounds FRAME_BEGIN (bounds PARTITION_BEGIN))
  | CURRENT_ROW_ROWS => pure_loop (fun _ row_idx => row_idx)
  | CURRENT_ROW_RANGE | CURRENT_ROW_GROUPS =>
      let values := clamp (bounds PEER_BEGIN) in
      Ok (set_column (set_column bounds PEER_BEGIN values) FRAME_BEGIN values)
  | EXPR_PRECEDING_ROWS =>
      pure_loop (fun chunk_idx row_idx =>
        rows_offset (TrySubtract (i64 row_idx) (as_int64 (GetCell boundary chunk_idx))) (pb chunk_idx))
  | EXPR_FOLLOWING_ROWS =>
      pure_loop (fun chunk_idx row_idx =>
        rows_offset (TryAdd (i64 row_idx) (as_int64 (GetCell boundary chunk_idx))) (pb chunk_idx))
  | EXPR_PRECEDING_RANGE =>
      loop hints (fun '(prev, prev_partition) chunk_idx row_idx =>
        if InputIsNull boundary chunk_idx then Ok ((prev, prev_partition), peer chunk_idx) else
        let prev := mkFrame (if negb (pb chunk_idx =? prev_partition) then vb chunk_idx else fb_start prev)
                      (ve chunk_idx) in
        window_start ← FindOrderedRangeBound true range range (range_sense st) (vb chunk_idx)
          (row_idx + 1) (start_boundary st) boundary chunk_idx prev;
        Ok ((mkFrame window_start (fb_end prev), pb chunk_idx), window_start))
  | EXPR_FOLLOWING_RANGE =>
      loop hints (fun '(prev, prev_partition) chunk_idx row_idx =>
        if InputIsNull boundary chunk_idx then Ok ((prev, prev_partition), peer chunk_idx) else
        let prev := mkFrame (if negb (pb chunk_idx =? prev_partition) then vb chunk_idx else fb_start prev)
                      (ve chunk_idx) in
        window_start ← FindOrderedRangeBound true range range (range_sense st) row_idx (ve chunk_idx)
          (start_boundary st) boundary chunk_idx prev;
        Ok ((mkFrame window_start (fb_end prev), pb chunk_idx), window_start))
  | EXPR_PRECEDING_GROUPS =>
      loop tt (fun _ chunk_idx row_idx =>
        w ← groups_offset boundary chunk_idx (peer chunk_idx) (fun n =>
          fst (FindPrevStart order_mask (pb chunk_idx) (peer chunk_idx) n));
        Ok (tt, w))
  | EXPR_FOLLOWING_GROUPS =>
      loop tt (fun _ chunk_idx row_idx =>
        w ← groups_offset boundary chunk_idx (peer chunk_idx) (fun n =>
          fst (FindNextStart order_mask (peer chunk_idx + 1) (pe chunk_idx) n));
        Ok (tt, w))
  | UNBOUNDED_FOLLOWING | INVALID => Throw InternalException
  end.

Definition FrameEnd (st : WindowBoundariesState) (bounds : DataChunk) (row_idx count : Z)
    (boundary : WindowInputExpression T) (order_mask : ValidityMask) (range : WindowCursor T)
    : res DataChunk :=
  let pb := znth 0 (bounds PARTITION_BEGIN) in
  let pe := znth 0 (bounds PARTITION_END) in
  let peer := znth 0 (bounds PEER_END) in
  let vb := znth 0 (bounds VALID_BEGIN) in
  let ve := znth 0 (bounds VALID_END) in
  let hints : range_hints := (mkFrame (vb 0) (ve 0), pb 0) in
  let clamp values := ClampFrame values (bounds PARTITION_BEGIN) (bounds PARTITION_END) in
  let loop {S} (s : S) body :=
    values ← row_loop_res body s 0 row_idx (rows count);
    Ok (set_column bounds FRAME_END (clamp values)) in
  let pure_loop f := loop tt (fun _ chunk_idx row_idx => Ok (tt, f chunk_idx row_idx)) in
  match end_boundary st with
  | CURRENT_ROW_ROWS => pure_loop (fun _ row_idx => row_idx + 1)
  | CURRENT_ROW_RANGE | CURRENT_ROW_GROUPS =>
      let values := clamp (bounds PEER_END) in
      Ok (set_column (set_column bounds PEER_END values) FRAME_END values)
  | UNBOUNDED_FOLLOWING => Ok (set_column bounds FRAME_END (bounds PARTITION_END))
  | EXPR_PRECEDING_ROWS =>
      pure_loop (fun chunk_idx row_idx =>
        rows_offset (TrySubtract (i64 (row_idx + 1)) (as_int64 (GetCell boundary chunk_idx))) (pe chunk_idx))
  | EXPR_FOLLOWING_ROWS =>
      pure_loop (fun chunk_idx row_idx =>
        rows_offset (TryAdd (i64 (row_idx + 1)) (as_int64 (GetCell boundary chunk_idx))) (pe chunk_idx))
  | EXPR_PRECEDING_RANGE =>
      loop hints (fun '(prev, prev_partition) chunk_idx row_idx =>
        if InputIsNull boundary chunk_idx then Ok ((prev, prev_partition), peer chunk_idx) else
        (* the member [valid_end], not the column *)
        let prev := mkFrame (vb chunk_idx)
                      (if negb (pb chunk_idx =? prev_partition) then valid_end st else fb_end prev) in
        window_end ← FindOrderedRangeBound false range range (range_sense st) (vb chunk_idx)
          (row_idx + 1) (end_boundary st) boundary chunk_idx prev;
        Ok ((mkFrame (fb_start prev) window_end, pb chunk_idx), window_end))
  | EXPR_FOLLOWING_RANGE =>
      loop hints (fun '(prev, prev_partition) chunk_idx row_idx =>
        if InputIsNull boundary chunk_idx then Ok ((prev, prev_partition), peer chunk_idx) else
        let prev := mkFrame (vb chunk_idx)
                      (if negb (pb chunk_idx =? prev_partition) then ve chunk_idx else fb_end prev) in
        window_end ← FindOrderedRangeBound false range range (range_sense st) row_idx (ve chunk_idx)
          (end_boundary st) boundary chunk_idx prev;
        Ok ((mkFrame (fb_start prev) window_end, pb chunk_idx), window_end))
  | EXPR_PRECEDING_GROUPS =>
      loop tt (fun _ chunk_idx row_idx =>
        w ← groups_offset boundary chunk_idx (peer chunk_idx) (fun n =>
          fst (FindPrevStart order_mask (pb chunk_idx) (peer chunk_idx) n));
        Ok (tt, w))
  | EXPR_FOLLOWING_GROUPS =>
      loop tt (fun _ chunk_idx row_idx =>
        w ← groups_offset boundary chunk_idx (peer chunk_idx) (fun n =>
          fst (FindNextStart order_mask (peer chunk_idx + 1) (pe chunk_idx) n));
        Ok (tt, w))
  | UNBOUNDED_PRECEDING | INVALID => Throw InternalException
  end.

(** ** A chunk *)

(** [if (required.count(b)) ...]: the column [b] and the value its operation
    leaves in the state. *)
Definition column_step (need : bool) (b : WindowBounds) (old : Z) (bounds : DataChunk)
    (compute : Z * list Z) : Z * DataChunk :=
  if need then let '(s, c) := compute in (s, set_column bounds b c) else (old, bounds).

(** The columns every frame builds on. *)
Definition Columns (st : WindowBoundariesState) (bounds : DataChunk) (row_idx : Z)
    (range : WindowCursor T) (count : Z) (partition_mask order_mask : ValidityMask)
    : DataChunk * WindowBoundariesState :=
  let is_jump := negb (next_pos st =? row_idx) in
  let need := required_count (required st) in
  let '(pstart, bounds) := column_step (need PARTITION_BEGIN) PARTITION_BEGIN (partition_start st) bounds
    (PartitionBegin st row_idx count is_jump partition_mask) in
  let '(pend, bounds) := column_step (need PARTITION_END) PARTITION_END (partition_end st) bounds
    (PartitionEnd st bounds row_idx count is_jump partition_mask) in
  let '(peer, bounds) := column_step (need PEER_BEGIN) PEER_BEGIN (peer_start st) bounds
    (PeerBegin st row_idx count is_jump partition_mask order_mask) in
  let '(_, bounds) := column_step (need PEER_END) PEER_END 0 bounds
    (0, PeerEnd st bounds row_idx count order_mask) in
  let '(vstart, bounds) := column_step (need VALID_BEGIN) VALID_BEGIN (valid_start st) bounds
    (ValidBegin st bounds row_idx count is_jump partition_mask order_mask range) in
  let '(vend, bounds) := column_step (need VALID_END) VALID_END (valid_end st) bounds
    (ValidEnd st bounds row_idx count is_jump partition_mask order_mask range) in
  (bounds, mkState (required st) (input_size st) (start_boundary st) (end_boundary st)
    (partition_count st) (order_count st) (range_sense st) (row_idx + count)
    pstart pend peer vstart vend).

Definition Bounds (st : WindowBoundariesState) (bounds : DataChunk) (row_idx : Z)
    (range : WindowCursor T) (count : Z) (boundary_start boundary_end : WindowInputExpression T)
    (partition_mask order_mask : ValidityMask) : res (DataChunk * WindowBoundariesState) :=
  let need := required_count (required st) in
  let '(bounds, st) := Columns st bounds row_idx range count partition_mask order_mask in
  bounds ← (if need FRAME_BEGIN
            then FrameBegin st bounds row_idx count boundary_start order_mask range else Ok bounds);
  bounds ← (if need FRAME_END
            then FrameEnd st bounds row_idx count boundary_end order_mask range else Ok bounds);
  Ok (bounds, st).
End boundaries.

(** ** What the boundaries of a row are

    [P] and [O] are the starts of partitions and of peer groups, [N] the number of
    rows, [nul] whether the ordering value of a row is NULL. *)

Section row_spec.
Context (P O nul : Z -> bool) (N pc oc : Z).

Definition part_begin (i : Z) : Z := if pc + oc =? 0 then 0 else nth_last P 0 (i + 1) 1.

Definition part_end (i : Z) : Z :=
  if (pc + oc =? 0) || (pc =? 0) then N else nth_start P (part_begin i + 1) N 1.

Definition peer_first (i : Z) : Z := if pc + oc =? 0 then 0 else nth_last O 0 (i + 1) 1.

Definition peer_last (i : Z) : Z :=
  if oc =? 0 then part_end i else nth_start O (peer_first i + 1) (part_end i) 1.

(** NULLs come first or last in a partition and are peers. *)
Definition valid_first (i : Z) : Z :=
  if (part_begin i <? part_end i) && nul (part_begin i)
  then nth_start O (part_begin i + 1) (part_end i) 1 else part_begin i.

Definition valid_last (i : Z) : Z :=
  if (valid_first i <? part_end i) && nul (part_end i - 1)
  then nth_last O (valid_first i) (part_end i) 1 else part_end i.
End row_spec.


(** ** The columns of a chunk *)

(** A mask pair for [N] rows: a partition start is a peer group start, and row 0
    starts a partition.  The set of bounds is closed under what each of them
    reads. *)
Definition closed_bounds (s : WindowBoundsSet) (pc oc : Z) : bool :=
  let need := required_count s in
  implb (need PARTITION_END && negb (pc + oc =? 0)) (need PARTITION_BEGIN) &&
  implb (need PEER_END) (need PARTITION_END && implb (negb (oc =? 0)) (need PEER_BEGIN)) &&
  implb (need VALID_BEGIN) (need PARTITION_BEGIN && need PARTITION_END) &&
  implb (need VALID_END) (need VALID_BEGIN && need PARTITION_END) &&
  implb (need FRAME_BEGIN || need FRAME_END) (need PARTITION_BEGIN && need PARTITION_END).


(** *** Properties of the searches *)

Section search_facts.
Context (V : Z -> bool).

Lemma nth_last_skip_one i : 0 <= i -> V i = false -> nth_last V 0 (i + 1) 1 = nth_last V 0 i 1.
Proof.
  intros Hi HV. assert (zcount V i (i + 1) = 0) as Hc by (by rewrite zcount_one, HV).
  rewrite (nth_last_skip V 0 i (i + 1) 1), Hc by lia. done.
Qed.

Lemma nth_last_at i : 0 <= i -> V i = true -> nth_last V 0 (i + 1) 1 = i.
Proof. intros Hi HV. rewrite nth_last_here; [lia | lia |]. by replace (i + 1 - 1) with i by lia. Qed.

Lemma nth_start_range l r n : l <= r -> l <= nth_start V l r n <= r.
Proof.
  intros. unfold nth_start. destruct (starts V l r !! Z.to_nat (n - 1)) eqn:E; simpl; [| lia].
  apply list_elem_of_lookup_2, elem_of_starts in E. lia.
Qed.

Lemma nth_last_range l r n : l <= r -> l <= nth_last V l r n <= r.
Proof.
  intros. unfold nth_last. destruct (rev (starts V l r) !! Z.to_nat (n - 1)) eqn:E; simpl; [| lia].
  apply list_elem_of_lookup_2 in E. apply list_elem_of_In, in_rev, list_elem_of_In, elem_of_starts in E. lia.
Qed.

Lemma nth_last_lt l r n : l < r -> l <= nth_last V l r n < r.
Proof.
  intros. unfold nth_last. destruct (rev (starts V l r) !! Z.to_nat (n - 1)) eqn:E; simpl; [| lia].
  apply list_elem_of_lookup_2 in E. apply list_elem_of_In, in_rev, list_elem_of_In, elem_of_starts in E. lia.
Qed.

(** The first start is not past any start. *)
Lemma nth_start_le l r i : l <= i < r -> V i = true -> nth_start V l r 1 <= i.
Proof.
  intros Hi HV. assert (zcount V l i = 0 \/ 0 < zcount V l i) as [Hc | Hc]
    by (pose proof (zcount_nonneg V l i); lia).
  - rewrite (nth_start_skip V l i r 1), Hc by lia. rewrite Z.sub_0_r, nth_start_here by (done || lia). lia.
  - unfold nth_start. rewrite (starts_split V l i r) by lia.
    pose proof (length_starts V l i) as Hl. destruct (starts V l i) as [| a k] eqn:E; simpl in *; [lia |].
    assert (a ∈ starts V l i) as Ha by (rewrite E; left). apply elem_of_starts in Ha. lia.
Qed.

(** There is no start strictly before the first one. *)
Lemma nth_start_before l r i : l <= i < nth_start V l r 1 -> i < r -> V i = false.
Proof.
  intros Hi Hr. destruct (V i) eqn:E; [| done]. pose proof (nth_start_le l r i ltac:(lia) E). lia.
Qed.

(** The last start is not before any start. *)
Lemma nth_last_ge l r i : l <= i < r -> V i = true -> i <= nth_last V l r 1.
Proof.
  intros Hi HV. assert (zcount V (i + 1) r = 0 \/ 0 < zcount V (i + 1) r) as [Hc | Hc]
    by (pose proof (zcount_nonneg V (i + 1) r); lia).
  - rewrite (nth_last_skip V l (i + 1) r 1), Hc by lia. rewrite Z.sub_0_r, nth_last_here; [lia | lia |].
    by replace (i + 1 - 1) with i by lia.
  - unfold nth_last. rewrite (starts_split V l (i + 1) r), rev_app_distr by lia.
    pose proof (length_starts V (i + 1) r) as Hl. rewrite <- (length_rev) in Hl.
    destruct (rev (starts V (i + 1) r)) as [| a k] eqn:E; simpl in *; [lia |].
    assert (a ∈ rev (starts V (i + 1) r)) as Ha by (rewrite E; left).
    apply list_elem_of_In, in_rev, list_elem_of_In, elem_of_starts in Ha. lia.
Qed.

Lemma nth_last_is_start l r i : l <= i < r -> V i = true -> V (nth_last V l r 1) = true.
Proof.
  intros Hi HV. unfold nth_last. change (Z.to_nat (1 - 1)) with 0%nat.
  destruct (rev (starts V l r)) as [| a k] eqn:E; simpl.
  - apply (f_equal (@rev Z)) in E. rewrite rev_involutive in E.
    assert (i ∈ starts V l r) as Hin by (by apply elem_of_starts). rewrite E in Hin. by apply not_elem_of_nil in Hin.
  - assert (a ∈ rev (starts V l r)) as Ha by (rewrite E; left).
    apply list_elem_of_In, in_rev, list_elem_of_In, elem_of_starts in Ha. apply Ha.
Qed.
End search_facts.

(** *** Loops over the rows of a chunk *)

Lemma row_loop_inv {S} (body : S -> Z -> Z -> S * Z) (I : Z -> S -> Prop) (f : Z -> Z) n row s c0 :
  I row s ->
  (forall s ri, row <= ri < row + Z.of_nat n -> I ri s ->
    I (ri + 1) (fst (body s (c0 + (ri - row)) ri)) /\ snd (body s (c0 + (ri - row)) ri) = f ri) ->
  I (row + Z.of_nat n) (fst (row_loop body s c0 row n)) /\
  snd (row_loop body s c0 row n) = f <$> zrange row (row + Z.of_nat n).
Proof.
  revert row s c0. induction n as [| n IH]; intros row s c0 Hs Hb.
  - simpl. rewrite Z.add_0_r, zrange_nil by lia. done.
  - pose proof (Hb s row ltac:(lia) Hs) as [H1 H2]. rewrite Z.sub_diag, Z.add_0_r in H1, H2.
    cbn [row_loop]. destruct (body s c0 row) as [s1 v]; simpl in H1, H2. subst v.
    destruct (IH (row + 1) s1 (c0 + 1)) as [H3 H4]; [done | |].
    { intros s' ri Hri Hs'. replace (c0 + 1 + (ri - (row + 1))) with (c0 + (ri - row)) by lia.
      apply Hb; [lia | done]. }
    destruct (row_loop body s1 (c0 + 1) (row + 1) n) as [s2 vs]. simpl in *.
    replace (row + Z.of_nat (Datatypes.S n)) with (row + 1 + Z.of_nat n) by lia.
    split; [done |]. rewrite H4, (zrange_cons row) by lia. done.
Qed.

Lemma znth_rows (f : Z -> Z) row n ci :
  0 <= ci < n -> znth 0 (f <$> zrange row (row + n)) ci = f (row + ci).
Proof.
  intros. apply znth_lookup. rewrite list_lookup_fmap, lookup_zrange by lia. done.
Qed.

Lemma replicate_rows (f : Z -> Z) row n x :
  0 <= n -> (forall i, f i = x) -> replicate (rows n) x = f <$> zrange row (row + n).
Proof.
  intros Hn Hf. apply list_eq. intros k. rewrite list_lookup_fmap.
  destruct (decide (Z.of_nat k < n)).
  - rewrite lookup_replicate_2 by (unfold rows; lia).
    replace k with (Z.to_nat (Z.of_nat k)) at 1 by lia. rewrite lookup_zrange by lia. simpl. by rewrite Hf.
  - rewrite !(proj2 (lookup_ge_None _ _)); [done | rewrite length_zrange; lia |].
    rewrite length_replicate. unfold rows. lia.
Qed.

(** *** One chunk *)

Section columns.
Context {T : Type} `{RangeType T} (partition_mask order_mask : ValidityMask) (range : WindowCursor T).
Context (pc oc N : Z).
Abbreviation P := (RowIsValid partition_mask).
Abbreviation O := (RowIsValid order_mask).
Abbreviation pb := (part_begin P pc oc).
Abbreviation pe := (part_end P N pc oc).
Abbreviation peer_b := (peer_first O pc oc).
Abbreviation peer_e := (peer_last P O N pc oc).
Abbreviation vb := (valid_first P O (CellIsNull range) N pc oc).
Abbreviation ve := (valid_last P O (CellIsNull range) N pc oc).

Record masks_ok : Prop := {
  ok_counts : 0 <= pc /\ 0 <= oc;
  ok_size : 0 <= N < 2 ^ 63;
  ok_first : pc + oc <> 0 -> P 0 = true;
  ok_single : pc = 0 -> forall i, 0 < i < N -> P i = false;
  ok_order : forall i, 0 <= i < N -> P i = true -> O i = true
}.
Hypothesis Hok : masks_ok.

Lemma pb_range i : 0 <= i -> 0 <= pb i <= i.
Proof.
  intros Hi. unfold part_begin. case_if; [lia |]. pose proof (nth_last_lt P 0 (i + 1) 1). lia.
Qed.

Lemma pb_start i : pc + oc <> 0 -> 0 <= i -> P i = true -> pb i = i.
Proof. intros Ha Hi HP. unfold part_begin. case_if; [lia |]. by apply nth_last_at. Qed.

Lemma pb_same i : 0 < i -> P i = false -> pb i = pb (i - 1).
Proof.
  intros Hi HP. unfold part_begin. case_if; [done |].
  rewrite nth_last_skip_one by (done || lia). by replace (i - 1 + 1) with i by lia.
Qed.

Lemma peer_b_range i : 0 <= i -> 0 <= peer_b i <= i.
Proof.
  intros Hi. unfold peer_first. case_if; [lia |]. pose proof (nth_last_lt O 0 (i + 1) 1). lia.
Qed.

Lemma peer_b_start i : pc + oc <> 0 -> 0 <= i -> O i = true -> peer_b i = i.
Proof. intros Ha Hi HP. unfold peer_first. case_if; [lia |]. by apply nth_last_at. Qed.

Lemma peer_b_same i : 0 < i -> O i = false -> peer_b i = peer_b (i - 1).
Proof.
  intros Hi HP. unfold peer_first. case_if; [done |].
  rewrite nth_last_skip_one by (done || lia). by replace (i - 1 + 1) with i by lia.
Qed.

Lemma pe_same i : 0 < i -> P i = false -> pe i = pe (i - 1).
Proof. intros Hi HP. unfold part_end. by rewrite pb_same. Qed.

Lemma pe_range i : 0 <= i < N -> pb i < pe i <= N.
Proof.
  intros Hi. pose proof (pb_range i). unfold part_end. case_if; [lia |].
  pose proof (nth_start_range P (pb i + 1) N 1). lia.
Qed.

(** Every row of [pb i + 1, i] is not a partition start. *)
Lemma pb_between i j : pc + oc <> 0 -> 0 <= i -> pb i < j <= i -> P j = false.
Proof.
  intros Ha Hi Hj. destruct (P j) eqn:E; [| done]. exfalso. pose proof (pb_range i Hi).
  assert (forall k : nat, Z.of_nat k <= i - j -> pb i = pb (i - Z.of_nat k) \/ j < pb i) as Hk.
  { induction k as [| k IH]; intros Hk; [left; f_equal; lia |].
    destruct IH as [IH | ?]; [lia | | by right]. destruct (P (i - Z.of_nat k)) eqn:Ek.
    - right. rewrite IH, pb_start by (done || lia). lia.
    - left. rewrite IH, pb_same by (done || lia). f_equal. lia. }
  destruct (Hk (Z.to_nat (i - j)) ltac:(lia)) as [Hk' | ?]; [| lia].
  rewrite Z2Nat.id in Hk' by lia. replace (i - (i - j)) with j in Hk' by lia.
  rewrite (pb_start j) in Hk' by (done || lia). lia.
Qed.

Lemma pe_gt i : 0 <= i < N -> i < pe i.
Proof.
  intros Hi. unfold part_end. case_if; [lia |].
  pose proof (pb_range i ltac:(lia)).
  destruct (decide (i < nth_start P (pb i + 1) N 1)) as [| Hlt]; [done | exfalso].
  pose proof (nth_start_range P (pb i + 1) N 1 ltac:(lia)) as Hr.
  assert (P (nth_start P (pb i + 1) N 1) = true) as HP.
  { unfold nth_start in Hlt |- *. destruct (starts P (pb i + 1) N !! Z.to_nat (1 - 1)) eqn:E;
      simpl in *; [| lia]. apply list_elem_of_lookup_2, elem_of_starts in E. apply E. }
  rewrite (pb_between i) in HP; [done | done | lia | lia].
Qed.

(** What is carried from row [i - 1] to row [i]: the value for row [i - 1], or
    something that is not looked at. *)
Definition carried (is_jump : bool) (f : Z -> Z) (i s : Z) : Prop :=
  is_jump = true \/ (pc + oc <> 0 /\ P i = true) \/ (0 < i /\ s = f (i - 1)).

(** The invariant of the loops over the chunk that starts at [row]. *)
Definition carried_from (row : Z) (is_jump : bool) (f : Z -> Z) (i s : Z) : Prop :=
  (i = row -> carried is_jump f i s) /\ (row < i -> s = f (i - 1)).

Lemma carried_from_use row jump f i s :
  0 <= row <= i -> carried_from row jump f i s -> carried jump f i s.
Proof.
  intros Hr [H1 H2]. destruct (decide (i = row)); [by apply H1 |].
  right; right. split; [lia |]. apply H2. lia.
Qed.

Lemma carried_from_next row jump (f : Z -> Z) i : row <= i -> carried_from row jump f (i + 1) (f i).
Proof. intros. split; [lia |]. intros _. by replace (i + 1 - 1) with i by lia. Qed.

(** The loop of a column: the body gives [f] from the value carried. *)
Lemma carried_loop (body : Z * bool -> Z -> Z -> (Z * bool) * Z) (f : Z -> Z) row count s jump :
  0 <= row -> 0 <= count -> carried jump f row s ->
  (forall s j ri, row <= ri < row + count -> carried j f ri s ->
    let r := body (s, j) (ri - row) ri in snd r = f ri /\ fst (fst r) = f ri) ->
  (0 < count -> fst (fst (row_loop body (s, jump) 0 row (rows count))) = f (row + count - 1)) /\
  snd (row_loop body (s, jump) 0 row (rows count)) = f <$> zrange row (row + count).
Proof.
  intros Hrow Hc Hs Hb.
  destruct (row_loop_inv body (fun ri s => carried_from row (snd s) f ri (fst s)) f (rows count) row
    (s, jump) 0) as [H1 H2].
  - split; [done | lia].
  - unfold rows. rewrite Z2Nat.id by done. intros [s' j] ri Hri Hs'. rewrite Z.add_0_l.
    simpl in Hs'. destruct (Hb s' j ri Hri) as [Hv Hf]; [by eapply carried_from_use; [| done]; lia |].
    split; [| done]. rewrite Hf. apply carried_from_next. lia.
  - unfold rows in *. rewrite Z2Nat.id in H1, H2 by done. split; [| done].
    intros Hpos. destruct H1 as [_ H1]. apply H1. lia.
Qed.

Lemma PartitionBegin_rows (st : WindowBoundariesState) row count jump :
  partition_count st = pc -> order_count st = oc -> 0 <= row -> 0 <= count -> row + count <= N ->
  (pc + oc <> 0 -> carried jump pb row (partition_start st)) ->
  (0 < count -> pc + oc <> 0 ->
    fst (PartitionBegin st row count jump partition_mask) = pb (row + count - 1)) /\
  snd (PartitionBegin st row count jump partition_mask) = pb <$> zrange row (row + count).
Proof.
  intros Hpc Hoc Hrow Hc Hn Hcar. pose proof (ok_size Hok).
  unfold PartitionBegin, over_all. rewrite Hpc, Hoc. case_if; simpl.
  { split; [lia |]. apply replicate_rows; [done |]. intros. unfold part_begin. by rewrite Heqb. }
  match goal with |- context [row_loop ?body _ 0 row _] =>
    pose proof (carried_loop body pb row count (partition_start st) jump Hrow Hc (Hcar Heqb)) as HL;
    destruct (row_loop body (partition_start st, jump) 0 row (rows count)) as [[s' j'] vs] end.
  simpl in HL |- *. destruct HL as [H1 H2]; [| split; [by intros; apply H1 | done]].
  intros s j ri Hri Hs. rewrite <- RowIsValidUnsafe_eq.
  rewrite negb_involutive, FindPrevStart_nth by lia. cbn [fst].
  assert (pb ri = if j then nth_last P 0 (ri + 1) 1 else if P ri then ri else s) as Hv.
  { unfold carried in Hs. destruct j.
    - unfold part_begin. rewrite (proj2 (Z.eqb_neq _ _)) by done. done.
    - destruct (P ri) eqn:E; [apply pb_start; lia || done |].
      destruct Hs as [? | [[_ ?] | [? ->]]]; [done | done | by apply pb_same]. }
  rewrite Hv. by destruct (P ri), j.
Qed.

Lemma PeerBegin_rows (st : WindowBoundariesState) row count jump :
  partition_count st = pc -> order_count st = oc -> 0 <= row -> 0 <= count -> row + count <= N ->
  (pc + oc <> 0 -> carried jump peer_b row (peer_start st)) ->
  (0 < count -> pc + oc <> 0 ->
    fst (PeerBegin st row count jump partition_mask order_mask) = peer_b (row + count - 1)) /\
  snd (PeerBegin st row count jump partition_mask order_mask) = peer_b <$> zrange row (row + count).
Proof.
  intros Hpc Hoc Hrow Hc Hn Hcar. pose proof (ok_size Hok).
  unfold PeerBegin, over_all. rewrite Hpc, Hoc. case_if; simpl.
  { split; [lia |]. apply replicate_rows; [done |]. intros. unfold peer_first. by rewrite Heqb. }
  match goal with |- context [row_loop ?body _ 0 row _] =>
    pose proof (carried_loop body peer_b row count (peer_start st) jump Hrow Hc (Hcar Heqb)) as HL;
    destruct (row_loop body (peer_start st, jump) 0 row (rows count)) as [[s' j'] vs] end.
  simpl in HL |- *. destruct HL as [H1 H2]; [| split; [by intros; apply H1 | done]].
  intros s j ri Hri Hs. rewrite <- !RowIsValidUnsafe_eq.
  rewrite !negb_involutive, FindPrevStart_nth by lia. cbn [fst].
  pose proof (ok_order Hok ri ltac:(lia)) as HPO.
  assert (peer_b ri = if j then nth_last O 0 (ri + 1) 1 else if O ri then ri else s) as Hv.
  { unfold carried in Hs. destruct j.
    - unfold peer_first. rewrite (proj2 (Z.eqb_neq _ _)) by done. done.
    - destruct (O ri) eqn:E; [apply peer_b_start; lia || done |].
      destruct Hs as [? | [[_ ?] | [? ->]]]; [done | specialize (HPO ltac:(done)); congruence | by apply peer_b_same]. }
  rewrite Hv. destruct (P ri), j, (O ri); try done; by specialize (HPO eq_refl).
Qed.

Lemma PartitionEnd_rows (st : WindowBoundariesState) bounds row count jump :
  partition_count st = pc -> order_count st = oc -> input_size st = N ->
  0 <= row -> 0 <= count -> row + count <= N ->
  (pc + oc <> 0 -> bounds PARTITION_BEGIN = pb <$> zrange row (row + count)) ->
  (pc + oc <> 0 -> carried jump pe row (partition_end st)) ->
  (0 < count -> pc + oc <> 0 ->
    fst (PartitionEnd st bounds row count jump partition_mask) = pe (row + count - 1)) /\
  snd (PartitionEnd st bounds row count jump partition_mask) = pe <$> zrange row (row + count).
Proof.
  intros Hpc Hoc HN Hrow Hc Hn Hcol Hcar. pose proof (ok_size Hok).
  unfold PartitionEnd, over_all. rewrite Hpc, Hoc, HN. case_if; simpl.
  { split; [lia |]. apply replicate_rows; [done |]. intros. unfold part_end. by rewrite Heqb. }
  match goal with |- context [row_loop ?body _ 0 row _] =>
    pose proof (carried_loop body pe row count (partition_end st) jump Hrow Hc (Hcar Heqb)) as HL;
    destruct (row_loop body (partition_end st, jump) 0 row (rows count)) as [[s' j'] vs] end.
  simpl in HL |- *. destruct HL as [H1 H2]; [| split; [by intros; apply H1 | done]].
  intros s j ri Hri Hs. rewrite <- RowIsValidUnsafe_eq, negb_involutive.
  rewrite (Hcol Heqb), znth_rows by lia. replace (row + (ri - row)) with ri by lia.
  pose proof (pb_range ri ltac:(lia)).
  rewrite (proj1 (FindNextStart_nth partition_mask (pb ri + 1) N 1 ltac:(lia) ltac:(lia) ltac:(lia))).
  assert (pe ri = if P ri || j then
    (if pc =? 0 then N else nth_start P (pb ri + 1) N 1) else s) as Hv.
  { unfold carried in Hs. destruct (P ri || j) eqn:E.
    - unfold part_end. rewrite (proj2 (Z.eqb_neq (pc + oc) 0)) by done. done.
    - bool_to_prop. destruct Hs as [? | [[_ ?] | [? ->]]]; [congruence | congruence | by apply pe_same]. }
  rewrite Hv. by destruct (P ri), j.
Qed.

(** *** Peers: the end *)

Lemma peer_e_same i : 0 < i -> O i = false -> P i = false -> peer_e i = peer_e (i - 1).
Proof. intros Hi HO HP. unfold peer_last. by rewrite (pe_same i), (peer_b_same i). Qed.

(** A row that starts after the end of the previous peer group, or not at all. *)
Lemma peer_e_step i :
  pc + oc <> 0 -> oc <> 0 -> 0 < i < N -> peer_b i < peer_e (i - 1) -> peer_e i = peer_e (i - 1).
Proof.
  intros Ha Ho Hi Hlt. destruct (O i) eqn:EO.
  - exfalso. rewrite peer_b_start in Hlt by (done || lia). revert Hlt. unfold peer_last. case_if; [lia |].
    pose proof (peer_b_range (i - 1) ltac:(lia)). pose proof (pe_gt (i - 1) ltac:(lia)).
    pose proof (nth_start_range O (peer_first O pc oc (i - 1) + 1) (pe (i - 1)) 1 ltac:(lia)).
    intros Hlt. pose proof (nth_start_le O (peer_first O pc oc (i - 1) + 1) (pe (i - 1)) i ltac:(lia) EO).
    lia.
  - destruct (P i) eqn:EP; [| by apply peer_e_same; lia || done].
    rewrite (ok_order Hok i) in EO; [done | lia | done].
Qed.

Lemma PeerEnd_rows (st : WindowBoundariesState) bounds row count :
  order_count st = oc -> 0 <= row -> 0 <= count -> row + count <= N ->
  bounds PARTITION_END = pe <$> zrange row (row + count) ->
  (oc <> 0 -> bounds PEER_BEGIN = peer_b <$> zrange row (row + count)) ->
  PeerEnd st bounds row count order_mask = peer_e <$> zrange row (row + count).
Proof.
  intros Hoc Hrow Hc Hn Hpe Hpb. pose proof (ok_size Hok). destruct (ok_counts Hok).
  unfold PeerEnd. rewrite Hoc, Hpe. case_if.
  { apply list_fmap_ext. intros. unfold peer_last. by rewrite Heqb. }
  rewrite (Hpb Heqb).
  destruct (decide (count = 0)) as [-> |].
  { simpl. by rewrite zrange_nil by lia. }
  match goal with |- context [row_loop ?body ?s0 0 row _] =>
    pose proof (row_loop_inv body (fun ri s => (ri = row /\ s = peer_b row) \/
      (row < ri /\ s = peer_e (ri - 1))) peer_e (rows count) row s0 0) as HL end.
  unfold rows in HL |- *. rewrite Z2Nat.id in HL by done. apply HL; clear HL.
  { left. rewrite znth_rows by lia. by rewrite Z.add_0_r. }
  intros s ri Hri Hs. rewrite Z.add_0_l, !znth_rows by lia.
  replace (row + (ri - row)) with ri by lia. cbn [fst snd].
  pose proof (peer_b_range ri ltac:(lia)). pose proof (pe_gt ri ltac:(lia)). pose proof (pe_range ri ltac:(lia)).
  rewrite (proj1 (FindNextStart_nth order_mask (peer_b ri + 1) (pe ri) 1
    ltac:(lia) ltac:(lia) ltac:(lia))).
  assert ((if s <=? peer_b ri then nth_start O (peer_b ri + 1) (pe ri) 1 else s) = peer_e ri) as ->.
  { destruct (Z.leb_spec s (peer_b ri)).
    - unfold peer_last. by rewrite (proj2 (Z.eqb_neq oc 0)).
    - destruct Hs as [[-> ->] | [? ->]]; [lia |]. symmetry. apply peer_e_step; lia. }
  split; [| done]. right. split; [lia |]. by replace (ri + 1 - 1) with ri by lia.
Qed.

(** *** Non-NULL values *)

Lemma vb_same i : 0 < i -> P i = false -> vb i = vb (i - 1).
Proof. intros. unfold valid_first. by rewrite (pb_same i), (pe_same i). Qed.

Lemma ve_same i : 0 < i -> P i = false -> ve i = ve (i - 1).
Proof. intros. unfold valid_last. by rewrite (vb_same i), (pe_same i). Qed.

Lemma vb_range i : 0 <= i < N -> pb i <= vb i <= pe i.
Proof.
  intros Hi. pose proof (pe_range i Hi). unfold valid_first. case_if; [| lia].
  pose proof (nth_start_range O (pb i + 1) (pe i) 1). lia.
Qed.

Lemma ve_range i : 0 <= i < N -> vb i <= ve i <= pe i.
Proof.
  intros Hi. pose proof (vb_range i Hi). unfold valid_last. case_if; [| lia].
  pose proof (nth_last_range O (vb i) (pe i) 1). lia.
Qed.

(** The loops that look at [is_jump] without resetting it. *)
Lemma carried_loop_const (body : Z -> Z -> Z -> Z * Z) (f : Z -> Z) row count s jump :
  0 <= row -> 0 <= count -> carried jump f row s ->
  (forall s ri, row <= ri < row + count -> carried jump f ri s ->
    let r := body s (ri - row) ri in snd r = f ri /\ fst r = f ri) ->
  (0 < count -> fst (row_loop body s 0 row (rows count)) = f (row + count - 1)) /\
  snd (row_loop body s 0 row (rows count)) = f <$> zrange row (row + count).
Proof.
  intros Hrow Hc Hs Hb.
  destruct (row_loop_inv body (fun ri s => carried_from row jump f ri s) f (rows count) row s 0)
    as [H1 H2].
  - split; [done | lia].
  - unfold rows. rewrite Z2Nat.id by done. intros s' ri Hri Hs'. rewrite Z.add_0_l.
    destruct (Hb s' ri Hri) as [Hv Hf]; [by eapply carried_from_use; [| done]; lia |].
    split; [| done]. rewrite Hf. apply carried_from_next. lia.
  - unfold rows in *. rewrite Z2Nat.id in H1, H2 by done. split; [| done].
    intros Hpos. destruct H1 as [_ H1]. apply H1. lia.
Qed.

Lemma ValidBegin_rows (st : WindowBoundariesState) bounds row count jump :
  0 <= row -> 0 <= count -> row + count <= N ->
  bounds PARTITION_BEGIN = pb <$> zrange row (row + count) ->
  bounds PARTITION_END = pe <$> zrange row (row + count) ->
  carried jump vb row (valid_start st) ->
  (0 < count ->
    fst (ValidBegin st bounds row count jump partition_mask order_mask range) = vb (row + count - 1)) /\
  snd (ValidBegin st bounds row count jump partition_mask order_mask range) =
    vb <$> zrange row (row + count).
Proof.
  intros Hrow Hc Hn Hpb Hpe Hcar. pose proof (ok_size Hok). unfold ValidBegin.
  apply (carried_loop_const _ vb row count (valid_start st) jump Hrow Hc Hcar).
  intros s ri Hri Hs. rewrite <- RowIsValidUnsafe_eq, negb_involutive.
  rewrite Hpb, Hpe, !znth_rows by lia. replace (row + (ri - row)) with ri by lia. cbn [fst snd].
  pose proof (pb_range ri ltac:(lia)). pose proof (pe_range ri ltac:(lia)).
  rewrite (proj1 (FindNextStart_nth order_mask (pb ri + 1) (pe ri) 1 ltac:(lia) ltac:(lia) ltac:(lia))).
  assert ((if P ri || jump then
    if (pb ri <? pe ri) && CellIsNull range (pb ri) then nth_start O (pb ri + 1) (pe ri) 1 else pb ri
    else s) = vb ri) as ->; [| done].
  destruct (P ri || jump) eqn:E; [done |]. bool_to_prop.
  destruct Hs as [? | [[_ ?] | [? ->]]]; [congruence | congruence |]. symmetry. by apply vb_same.
Qed.

Lemma ValidEnd_rows (st : WindowBoundariesState) bounds row count jump :
  0 <= row -> 0 <= count -> row + count <= N ->
  bounds VALID_BEGIN = vb <$> zrange row (row + count) ->
  bounds PARTITION_END = pe <$> zrange row (row + count) ->
  carried jump ve row (valid_end st) ->
  (0 < count ->
    fst (ValidEnd st bounds row count jump partition_mask order_mask range) = ve (row + count - 1)) /\
  snd (ValidEnd st bounds row count jump partition_mask order_mask range) =
    ve <$> zrange row (row + count).
Proof.
  intros Hrow Hc Hn Hpb Hpe Hcar. pose proof (ok_size Hok). unfold ValidEnd.
  apply (carried_loop_const _ ve row count (valid_end st) jump Hrow Hc Hcar).
  intros s ri Hri Hs. rewrite <- RowIsValidUnsafe_eq, negb_involutive.
  rewrite Hpb, Hpe, !znth_rows by lia. replace (row + (ri - row)) with ri by lia. cbn [fst snd].
  pose proof (pb_range ri ltac:(lia)). pose proof (vb_range ri ltac:(lia)). pose proof (pe_range ri ltac:(lia)).
  rewrite (FindPrevStart_nth order_mask (vb ri) (pe ri) 1) by lia. cbn [fst].
  assert ((if P ri || jump then
    if (vb ri <? pe ri) && CellIsNull range (pe ri - 1) then nth_last O (vb ri) (pe ri) 1 else pe ri
    else s) = ve ri) as ->; [| done].
  destruct (P ri || jump) eqn:E; [done |]. bool_to_prop.
  destruct Hs as [? | [[_ ?] | [? ->]]]; [congruence | congruence |]. symmetry. by apply ve_same.
Qed.

(** *** How the bounds of a row are nested *)

Lemma pb_le_peer i : 0 <= i < N -> pb i <= peer_b i.
Proof.
  intros Hi. pose proof (pb_range i ltac:(lia)). unfold peer_first. case_if.
  { unfold part_begin. rewrite (proj2 (Z.eqb_eq _ _)) by done. lia. }
  apply nth_last_ge; [lia |]. apply (ok_order Hok); [lia |].
  unfold part_begin. rewrite (proj2 (Z.eqb_neq _ _)) by done.
  apply (nth_last_is_start P 0 (i + 1) 0); [lia | by apply (ok_first Hok)].
Qed.

Lemma peer_b_bounds i : 0 <= i < N -> pb i <= peer_b i <= i.
Proof. intros Hi. pose proof (pb_le_peer i Hi). pose proof (peer_b_range i). lia. Qed.

Lemma peer_e_bounds i : 0 <= i < N -> peer_b i < peer_e i <= pe i.
Proof.
  intros Hi. pose proof (peer_b_bounds i Hi). pose proof (pe_gt i Hi). unfold peer_last. case_if; [lia |].
  pose proof (nth_start_range O (peer_b i + 1) (pe i) 1). lia.
Qed.

(** Every row of [peer_b i + 1, i] is not a peer group start. *)
Lemma peer_b_between i j : pc + oc <> 0 -> 0 <= i -> peer_b i < j <= i -> O j = false.
Proof.
  intros Ha Hi Hj. destruct (O j) eqn:E; [| done]. exfalso. pose proof (peer_b_range i Hi).
  assert (j <= peer_b i); [| lia]. unfold peer_first. rewrite (proj2 (Z.eqb_neq _ _)) by done.
  apply nth_last_ge; [lia | done].
Qed.

Lemma peer_e_gt i : 0 <= i < N -> i < peer_e i.
Proof.
  intros Hi. pose proof (pe_gt i Hi). unfold peer_last. case_if; [done |].
  destruct (ok_counts Hok). pose proof (peer_b_range i ltac:(lia)).
  set (s := nth_start O (peer_b i + 1) (pe i) 1).
  destruct (decide (i < s)) as [| Hlt]; [done | exfalso].
  pose proof (nth_start_range O (peer_b i + 1) (pe i) 1 ltac:(lia)) as Hr. fold s in Hr.
  assert (O s = true) as HO.
  { unfold s, nth_start in Hlt |- *. destruct (starts O (peer_b i + 1) (pe i) !! Z.to_nat (1 - 1)) eqn:E;
      simpl in *; [| lia]. apply list_elem_of_lookup_2, elem_of_starts in E. apply E. }
  rewrite (peer_b_between i) in HO; [done | lia | lia | lia].
Qed.

Lemma pe_pb i j : pb i = pb j -> pe i = pe j.
Proof. intros E. unfold part_end. by rewrite E. Qed.

Lemma vb_pb i j : pb i = pb j -> vb i = vb j.
Proof. intros E. unfold valid_first. by rewrite (pe_pb i j E), E. Qed.

Lemma ve_pb i j : pb i = pb j -> ve i = ve j.
Proof. intros E. unfold valid_last. by rewrite (pe_pb i j E), (vb_pb i j E). Qed.

(** Bounds of rows of a later partition come later. *)
Lemma pb_mono i j : 0 <= i <= j -> j < N -> pb i <= pb j.
Proof.
  intros Hij Hj. unfold part_begin. case_if; [lia |].
  pose proof (nth_last_lt P 0 (i + 1) 1 ltac:(lia)).
  apply nth_last_ge; [lia |]. apply (nth_last_is_start P 0 (i + 1) 0); [lia | by apply (ok_first Hok)].
Qed.

Lemma peer_b_mono i j : 0 <= i <= j -> j < N -> peer_b i <= peer_b j.
Proof.
  intros Hij Hj. unfold peer_first. case_if; [lia |].
  pose proof (nth_last_lt O 0 (i + 1) 1 ltac:(lia)).
  apply nth_last_ge; [lia |]. apply (nth_last_is_start O 0 (i + 1) 0); [lia |].
  apply (ok_order Hok); [lia | by apply (ok_first Hok)].
Qed.

(** The bounds of a row and of the next one. *)
Lemma bounds_step i :
  0 <= i -> i + 1 < N ->
  pb (i + 1) = i + 1 \/
  (pb (i + 1) = pb i /\ (peer_b (i + 1) = i + 1 \/ peer_b (i + 1) = peer_b i)).
Proof.
  intros Hi Hn. destruct (decide (pc + oc = 0)) as [Ha |].
  { right. unfold part_begin, peer_first. rewrite (proj2 (Z.eqb_eq _ _)) by done. auto. }
  destruct (P (i + 1)) eqn:EP; [left; apply pb_start; done || lia |]. right.
  rewrite pb_same by (done || lia). replace (i + 1 - 1) with i by lia. split; [done |].
  destruct (O (i + 1)) eqn:EO; [left; apply peer_b_start; done || lia |]. right.
  rewrite peer_b_same by (done || lia). by replace (i + 1 - 1) with i by lia.
Qed.

Lemma pb_of_pb i k : pc + oc <> 0 -> 0 <= i < N -> pb i <= k <= i -> pb k = pb i.
Proof.
  intros Ha Hi Hk. pose proof (pb_range i ltac:(lia)). apply Z.le_antisymm; [apply pb_mono; lia |].
  unfold part_begin at 2. rewrite (proj2 (Z.eqb_neq _ _)) by done.
  apply nth_last_ge; [lia |]. unfold part_begin. rewrite (proj2 (Z.eqb_neq _ _)) by done.
  apply (nth_last_is_start P 0 (i + 1) 0); [lia | by apply (ok_first Hok)].
Qed.

Lemma ve_mono i j : pc + oc <> 0 -> 0 <= i <= j -> j < N -> ve i <= ve j.
Proof.
  intros Ha Hij Hj. pose proof (pb_mono i j Hij Hj).
  destruct (decide (pb i = pb j)) as [E |]; [rewrite (ve_pb i j E); lia |].
  pose proof (vb_range j ltac:(lia)). pose proof (ve_range j ltac:(lia)). pose proof (ve_range i ltac:(lia)).
  pose proof (pb_range i ltac:(lia)). pose proof (pb_range j ltac:(lia)).
  assert (i < pb j) as Hlt.
  { destruct (decide (i < pb j)); [done |]. exfalso. pose proof (pb_of_pb j i Ha ltac:(lia) ltac:(lia)). lia. }
  enough (pe i <= pb j) by lia. unfold part_end. destruct (_ || _) eqn:E; cycle 1.
  { apply nth_start_le; [lia |]. unfold part_begin at 1. rewrite (proj2 (Z.eqb_neq _ _)) by done.
    apply (nth_last_is_start P 0 (j + 1) 0); [lia | by apply (ok_first Hok)]. }
  rewrite (proj2 (Z.eqb_neq (pc + oc) 0)) in E by done. simpl in E. bool_to_prop.
  enough (P (pb j) = true) by (rewrite (ok_single Hok) in *; done || lia).
  unfold part_begin. rewrite (proj2 (Z.eqb_neq _ _)) by done.
  apply (nth_last_is_start P 0 (j + 1) 0); [lia | by apply (ok_first Hok)].
Qed.

(** *** The six columns *)

Definition row_bounds (b : WindowBounds) (i : Z) : Z :=
  match b with
  | PARTITION_BEGIN => pb i
  | PARTITION_END => pe i
  | PEER_BEGIN => peer_b i
  | PEER_END => peer_e i
  | VALID_BEGIN => vb i
  | VALID_END => ve i
  | FRAME_BEGIN | FRAME_END => 0
  end.

(** What a state remembers of the row before [next_pos]. *)
Definition remembers (st : WindowBoundariesState) (b : WindowBounds) (v : Z) : Prop :=
  required_count (required st) b = true -> pc + oc <> 0 -> 0 < next_pos st ->
  v = row_bounds b (next_pos st - 1).

Record state_ok (st : WindowBoundariesState) : Prop := {
  so_pc : partition_count st = pc;
  so_oc : order_count st = oc;
  so_size : input_size st = N;
  so_closed : closed_bounds (required st) pc oc = true;
  so_valid : required_count (required st) VALID_BEGIN = true -> pc + oc <> 0;
  so_unused : required_count (required st) VALID_END = false -> valid_end st = 0;
  so_pos : 0 <= next_pos st <= N;
  so_pb : remembers st PARTITION_BEGIN (partition_start st);
  so_pe : remembers st PARTITION_END (partition_end st);
  so_peer : remembers st PEER_BEGIN (peer_start st);
  so_vb : remembers st VALID_BEGIN (valid_start st);
  so_ve : remembers st VALID_END (valid_end st)
}.

Lemma state_carried st b v row :
  state_ok st -> remembers st b v -> required_count (required st) b = true -> pc + oc <> 0 ->
  carried (negb (next_pos st =? row)) (row_bounds b) row v.
Proof.
  intros Hst Hr Hb Ha. unfold carried. destruct (Z.eqb_spec (next_pos st) row) as [<- |]; [| by left].
  right. pose proof (so_pos _ Hst). destruct (decide (next_pos st = 0)) as [-> |].
  - left. split; [done | by apply (ok_first Hok)].
  - right. split; [lia |]. apply Hr; [done | done | lia].
Qed.

Lemma column_step_spec (Q : Prop) (f : Z -> Z) row count need b old bounds compute v bounds' :
  column_step need b old bounds compute = (v, bounds') ->
  (need = true -> (Q -> fst compute = f (row + count - 1)) /\
                  snd compute = f <$> zrange row (row + count)) ->
  (need = true -> bounds' b = f <$> zrange row (row + count)) /\
  (need = true -> Q -> v = f (row + count - 1)) /\
  (need = false -> v = old /\ bounds' b = bounds b) /\
  (forall b', b' <> b -> bounds' b' = bounds b').
Proof.
  unfold column_step. intros Heq Hc. destruct need; cycle 1.
  { injection Heq as <- <-. done. }
  specialize (Hc eq_refl). destruct compute as [s c]. injection Heq as <- <-.
  unfold set_column. simpl in *. destruct Hc as [? ->].
  split_and!; try done; intros; by case_decide.
Qed.

Lemma closed_bounds_facts s :
  closed_bounds s pc oc = true ->
  let need := required_count s in
  (need PARTITION_END = true -> pc + oc <> 0 -> need PARTITION_BEGIN = true) /\
  (need PEER_END = true -> need PARTITION_END = true /\ (oc <> 0 -> need PEER_BEGIN = true)) /\
  (need VALID_BEGIN = true -> need PARTITION_BEGIN = true /\ need PARTITION_END = true) /\
  (need VALID_END = true -> need VALID_BEGIN = true /\ need PARTITION_END = true).
Proof.
  intros H0. cbv zeta. unfold closed_bounds in H0. set (need := required_count s) in *.
  rewrite !andb_true_iff in H0.
  destruct H0 as [[[[H1 H2] H3] H4] _].
  destruct (Z.eqb_spec (pc + oc) 0), (Z.eqb_spec oc 0), (need PARTITION_BEGIN), (need PARTITION_END),
    (need PEER_BEGIN), (need PEER_END), (need VALID_BEGIN), (need VALID_END); simpl in *;
    split_and!; intros; split_and?; intros; done || lia.
Qed.

Lemma Columns_rows st bounds row count :
  state_ok st -> 0 <= row -> 0 < count -> row + count <= N ->
  let r := Columns st bounds row range count partition_mask order_mask in
  state_ok (snd r) /\ next_pos (snd r) = row + count /\
  (forall b, required_count (required st) b = true -> b <> FRAME_BEGIN -> b <> FRAME_END ->
    fst r b = row_bounds b <$> zrange row (row + count)) /\
  (forall b, required_count (required st) b = false \/ b = FRAME_BEGIN \/ b = FRAME_END ->
    fst r b = bounds b).
Proof.
  intros Hst Hrow Hc Hn. destruct (closed_bounds_facts _ (so_closed _ Hst)) as (C1 & C2 & C3 & C4).
  pose proof (so_pc _ Hst) as Hpc. pose proof (so_oc _ Hst) as Hoc. pose proof (so_size _ Hst) as HN.
  pose proof (ok_counts Hok) as Hcnt.
  pose proof (fun b v => state_carried st b v row Hst) as Hcar.
  unfold Columns. set (need := required_count (required st)) in *.
  set (jump := negb (next_pos st =? row)) in *.
  destruct (column_step _ PARTITION_BEGIN _ _ _) as [pstart b1] eqn:E1.
  eapply (column_step_spec (pc + oc <> 0) pb row count) in E1 as (A1 & B1 & N1 & F1); cycle 1.
  { intros Hb. edestruct (PartitionBegin_rows st row count jump) as [R1 R2]; try done; try lia.
    - intros Ha. by apply (Hcar PARTITION_BEGIN), Ha; [apply (so_pb _ Hst) |].
    - split; [| done]. intros. by apply R1. }
  destruct (column_step _ PARTITION_END _ _ _) as [pend b2] eqn:E2.
  eapply (column_step_spec (pc + oc <> 0) pe row count) in E2 as (A2 & B2 & N2 & F2); cycle 1.
  { intros Hb. edestruct (PartitionEnd_rows st b1 row count jump) as [R1 R2]; try done; try lia.
    - intros Ha. by apply A1, C1.
    - intros Ha. by apply (Hcar PARTITION_END), Ha; [apply (so_pe _ Hst) |].
    - split; [| done]. intros. by apply R1. }
  destruct (column_step _ PEER_BEGIN _ _ _) as [peer b3] eqn:E3.
  eapply (column_step_spec (pc + oc <> 0) peer_b row count) in E3 as (A3 & B3 & N3 & F3); cycle 1.
  { intros Hb. edestruct (PeerBegin_rows st row count jump) as [R1 R2]; try done; try lia.
    - intros Ha. by apply (Hcar PEER_BEGIN), Ha; [apply (so_peer _ Hst) |].
    - split; [| done]. intros. by apply R1. }
  destruct (column_step _ PEER_END _ _ _) as [dummy b4] eqn:E4.
  eapply (column_step_spec False peer_e row count) in E4 as (A4 & _ & N4 & F4); cycle 1.
  { intros Hb. split; [done |]. destruct (C2 Hb) as [Hb1 Hb2]. apply PeerEnd_rows; try done; try lia.
    - rewrite F3 by done. by apply A2.
    - intros. by apply A3, Hb2. }
  destruct (column_step _ VALID_BEGIN _ _ _) as [vstart b5] eqn:E5.
  eapply (column_step_spec (pc + oc <> 0) vb row count) in E5 as (A5 & B5 & N5 & F5); cycle 1.
  { intros Hb. destruct (C3 Hb). edestruct (ValidBegin_rows st b4 row count jump) as [R1 R2]; try lia.
    - rewrite F4, F3, F2 by done. by apply A1.
    - rewrite F4, F3 by done. by apply A2.
    - apply (Hcar VALID_BEGIN); [apply (so_vb _ Hst) | done | by apply (so_valid _ Hst)].
    - split; [| done]. intros. by apply R1. }
  destruct (column_step _ VALID_END _ _ _) as [vend b6] eqn:E6.
  eapply (column_step_spec (pc + oc <> 0) ve row count) in E6 as (A6 & B6 & N6 & F6); cycle 1.
  { intros Hb. destruct (C4 Hb) as [Hb5 ?].
    edestruct (ValidEnd_rows st b5 row count jump) as [R1 R2]; try lia.
    - by apply A5.
    - rewrite F5, F4, F3 by done. by apply A2.
    - apply (Hcar VALID_END); [apply (so_ve _ Hst) | done | by apply (so_valid _ Hst)].
    - split; [| done]. intros. by apply R1. }
  cbn [fst snd]. split_and!; [| done | |].
  - constructor; cbn; try (apply Hst || lia).
    + intros Hb. destruct (N6 Hb) as [-> _]. by apply (so_unused _ Hst).
    + intros Hb Ha Hp. by apply B1.
    + intros Hb Ha Hp. by apply B2.
    + intros Hb Ha Hp. by apply B3.
    + intros Hb Ha Hp. by apply B5.
    + intros Hb Ha Hp. by apply B6.
  - intros b Hb ??. destruct b; try done; cbn [row_bounds].
    + rewrite F6, F5, F4, F3, F2 by done. by apply A1.
    + rewrite F6, F5, F4, F3 by done. by apply A2.
    + rewrite F6, F5, F4 by done. by apply A3.
    + rewrite F6, F5 by done. by apply A4.
    + rewrite F6 by done. by apply A5.
    + by apply A6.
  - intros b Hb.
    destruct b; destruct Hb as [Hb | Hb];
      try (destruct Hb; done); repeat first
      [ rewrite F6 by done | rewrite F5 by done | rewrite F4 by done | rewrite F3 by done
      | rewrite F2 by done | rewrite F1 by done
      | rewrite (proj2 (N6 Hb)) | rewrite (proj2 (N5 Hb)) | rewrite (proj2 (N4 Hb))
      | rewrite (proj2 (N3 Hb)) | rewrite (proj2 (N2 Hb)) | rewrite (proj2 (N1 Hb)) ]; done.
Qed.
End columns.

(** ** Properties *)

(** The bounds of a row are nested: its partition contains its peer group,
    which contains the row, and the non-NULL range lies in the partition. *)
Theorem row_bounds_nested {T} `{RangeType T} partition_mask order_mask (range : WindowCursor T) pc oc N i :
  masks_ok partition_mask order_mask pc oc N -> 0 <= i < N ->
  let b := row_bounds partition_mask order_mask range pc oc N in
  0 <= b PARTITION_BEGIN i <= b PEER_BEGIN i /\ b PEER_BEGIN i <= i < b PEER_END i /\
  b PEER_END i <= b PARTITION_END i <= N /\
  b PARTITION_BEGIN i <= b VALID_BEGIN i <= b VALID_END i /\ b VALID_END i <= b PARTITION_END i.
Proof.
  intros Hok Hi. cbn [row_bounds].
  pose proof (peer_b_bounds _ _ _ _ _ Hok i Hi). pose proof (peer_e_bounds _ _ _ _ _ Hok i Hi).
  pose proof (peer_e_gt _ _ _ _ _ Hok i Hi). pose proof (pb_range partition_mask pc oc i ltac:(lia)).
  pose proof (pe_range partition_mask pc oc N i Hi).
  pose proof (vb_range partition_mask order_mask range pc oc N i Hi).
  pose proof (ve_range partition_mask order_mask range pc oc N i Hi). lia.
Qed.

(** ** Witnesses *)

Definition two_partitions : ValidityMask := mkMask (Some [5]) 4.
Definition four_orders : ValidityMask := mkMask (Some [15]) 4.
Definition small_cells : WindowCursor Z := mkCursor (znth 0 [1; 4; 2; 3]) (fun _ => false).

#[local] Instance plain_range : RangeType Z := Build_RangeType Z Z.ltb true i64.

Lemma two_partitions_ok : masks_ok two_partitions four_orders 1 1 4.
Proof.
  constructor; [lia | lia | done | done |].
  intros i Hi. assert (i = 0 \/ i = 1 \/ i = 2 \/ i = 3) as [-> | [-> | [-> | ->]]] by lia; done.
Qed.

Lemma row_bounds_nested_witness :
  let b := row_bounds two_partitions four_orders small_cells 1 1 4 in
  b PARTITION_BEGIN 3 = 2 /\ 0 <= b PARTITION_BEGIN 3 <= b PEER_BEGIN 3.
Proof.
  split; [reflexivity |].
  apply (row_bounds_nested two_partitions four_orders small_cells 1 1 4 3 two_partitions_ok); lia.
Defined.
