(* ===== verification/RangeSearch.v ===== *)
(** Theorems on the search for RANGE frame bounds ([FindTypedRangeBound] of
    src/src/function/window/window_boundaries_state.cpp, modelled in Boundaries):
    the binary searches find the partition point, and the hints taken from the
    previous row do not change what is found. *)
From S2P Require Import Prelude Validity MaskSearch Boundaries.

(** ** Binary search *)

Definition monotone_on (right : Z -> bool) (a b : Z) : Prop :=
  forall i j, a <= i -> i < j -> j < b -> right j = true -> right i = true.

Lemma zcount_prefix right a m b :
  monotone_on right a b -> a <= m < b -> right m = true -> zcount right a (m + 1) = m + 1 - a.
Proof.
  intros Hm Hr Hright. apply zcount_all; [lia |]. intros i Hi.
  destruct (decide (i = m)) as [-> |]; [done |]. apply (Hm i m); lia || done.
Qed.

Lemma zcount_suffix right a m b :
  monotone_on right a b -> a <= m < b -> right m = false -> zcount right m b = 0.
Proof.
  intros Hm Hr Hright. apply zcount_none. intros i Hi.
  destruct (right i) eqn:E; [| done]. destruct (decide (i = m)) as [-> |]; [congruence |].
  rewrite (Hm m i ltac:(lia) ltac:(lia) ltac:(lia) E) in Hright. done.
Qed.

Lemma monotone_sub right a b a' b' :
  monotone_on right a b -> a <= a' -> b' <= b -> monotone_on right a' b'.
Proof. intros Hm ?? i j ????. apply (Hm i j); lia || done. Qed.

(** The search counts the rows that are sent to the right. *)
Lemma bsearch_count right first len fuel :
  monotone_on right first (first + len) -> 0 <= len <= Z.of_nat fuel ->
  bsearch right first len fuel = first + zcount right first (first + len).
Proof.
  revert first len. induction fuel as [| fuel IH]; intros first len Hm Hl; cbn [bsearch].
  { rewrite zcount_nil by lia. lia. }
  case_if; [| rewrite zcount_nil by lia; lia].
  rewrite Z.shiftr_div_pow2 by lia. change (2 ^ 1) with 2. set (half := len / 2).
  assert (0 <= half < len) by (unfold half; zdm).
  destruct (right (first + half)) eqn:E.
  - rewrite IH; [| eapply monotone_sub; [done | lia..] | lia].
    rewrite (zcount_split right first (first + half + 1) (first + len)) by lia.
    erewrite (zcount_prefix right first (first + half)); [| done | lia | done].
    replace (first + half + 1 + (len - half - 1)) with (first + len) by lia. lia.
  - rewrite IH; [| eapply monotone_sub; [done | lia..] | lia].
    rewrite (zcount_split right first (first + half) (first + len)) by lia.
    erewrite (zcount_suffix right first (first + half)); [| done | lia | done]. lia.
Qed.

(** ** The searches with hints *)

Section hints.
Context {T : Type} (lt : T -> T -> bool) `{!StrictWeakOrder lt} (cell : Z -> T).

Definition sorted_on (a b : Z) : Prop :=
  forall i j, a <= i -> i < j -> j < b -> lt (cell j) (cell i) = false.

(** [x < y <= z] and [x <= y < z]. *)
Lemma swo_lt_le x y z : lt x y = true -> lt z y = false -> lt x z = true.
Proof. intros H1 H2. destruct (swo_cotrans x z y H1); congruence. Qed.

Lemma swo_le_lt x y z : lt y x = false -> lt y z = true -> lt x z = true.
Proof. intros H1 H2. destruct (swo_cotrans y x z H2); congruence. Qed.

Lemma lower_monotone a b val : sorted_on a b -> monotone_on (fun i => lt (cell i) val) a b.
Proof. intros Hs i j ??? Hj. eapply swo_le_lt; [| exact Hj]. by apply Hs. Qed.

Lemma upper_monotone a b val : sorted_on a b -> monotone_on (fun i => negb (lt val (cell i))) a b.
Proof.
  intros Hs i j ??? Hj. apply negb_true_iff in Hj. apply negb_true_iff.
  destruct (lt val (cell i)) eqn:E; [| done].
  rewrite (swo_lt_le val (cell i) (cell j)) in Hj; [done | done | by apply Hs].
Qed.

(** Where the bound is: the number of rows before it. *)
Definition bound_of (from : bool) (a b : Z) (val : T) : Z :=
  a + zcount (fun i => if from then lt (cell i) val else negb (lt val (cell i))) a b.

Lemma lower_bound_of a b val : sorted_on a b -> a <= b -> lower_bound lt cell a b val = bound_of true a b val.
Proof.
  intros Hs Hab. unfold lower_bound, bound_of. rewrite bsearch_count; [f_equal; f_equal; lia | | lia].
  apply lower_monotone. by replace (a + (b - a)) with b by lia.
Qed.

Lemma upper_bound_of a b val :
  sorted_on a b -> a <= b -> upper_bound lt cell a b val = bound_of false a b val.
Proof.
  intros Hs Hab. unfold upper_bound, bound_of. rewrite bsearch_count; [f_equal; f_equal; lia | | lia].
  apply upper_monotone. by replace (a + (b - a)) with b by lia.
Qed.

Lemma sorted_sub a b a' b' : sorted_on a b -> a <= a' -> b' <= b -> sorted_on a' b'.
Proof. intros Hs ?? i j ???. apply (Hs i j); lia. Qed.

(** A hint is usable when it is at a change of value. *)
Definition hint_ok (a b p : Z) : Prop :=
  a < p -> p < b -> lt (cell (p - 1)) (cell p) = true.

Lemma search_bound_from a b val prev :
  sorted_on a b -> a < b -> hint_ok a b (fb_start prev) ->
  (fb_end prev <= a \/ b <= fb_end prev) ->
  search_bound lt true cell a b val prev = bound_of true a b val.
Proof.
  intros Hs Hab Hok Hend. unfold search_bound.
  case_if; [| by apply lower_bound_of; [| lia]].
  assert (reuse_end lt true cell a b val prev = inr b) as ->.
  { unfold reuse_end. destruct (_ && _) eqn:E; [bool_to_prop; lia | done]. }
  unfold reuse_start. destruct (_ && _) eqn:E; bool_to_prop; [| by apply lower_bound_of; [| lia]].
  destruct (lt val (cell (fb_start prev))) eqn:E1; simpl; [by apply lower_bound_of; [| lia] |].
  set (s := fb_start prev) in *.
  assert (zcount (fun i => lt (cell i) val) a s = s - a) as Hc.
  { apply zcount_all; [lia |]. intros i Hi.
    assert (lt (cell i) (cell s) = true).
    { apply (swo_le_lt (cell i) (cell (s - 1)) (cell s)); [| apply Hok; lia].
      destruct (decide (i = s - 1)) as [-> |]; [| apply (Hs i (s - 1)); lia].
      destruct (lt (cell (s - 1)) (cell (s - 1))) eqn:E4; [| done].
      by rewrite (swo_asym _ _ E4) in E4. }
    by apply (swo_lt_le _ (cell s)). }
  destruct (lt (cell s) val) eqn:E2; simpl.
  - rewrite lower_bound_of; [| eapply sorted_sub; [done | lia..] | lia].
    replace (a + (s - a)) with s by lia. unfold bound_of.
    rewrite (zcount_split _ a s b), Hc by lia. lia.
  - unfold bound_of. rewrite (zcount_split _ a s b), Hc by lia.
    rewrite (zcount_suffix _ a s b); [lia | by apply lower_monotone | lia | done].
Qed.

Lemma search_bound_to a b val prev :
  sorted_on a b -> a < b -> hint_ok a b (fb_end prev) ->
  search_bound lt false cell a b val prev = bound_of false a b val.
Proof.
  intros Hs Hab Hok. unfold search_bound.
  case_if; [| by apply upper_bound_of; [| lia]].
  assert (reuse_start lt false cell a b val prev = inr a) as ->.
  { unfold reuse_start. by destruct (_ && _). }
  unfold reuse_end. destruct (_ && _) eqn:E; bool_to_prop; [| by apply upper_bound_of; [| lia]].
  destruct (lt (cell (fb_end prev - 1)) val) eqn:E1; simpl; [by apply upper_bound_of; [| lia] |].
  set (e := fb_end prev) in *.
  assert (forall p, a <= p < b -> lt val (cell p) = true ->
    bound_of false a b val = bound_of false a (p + 1) val) as Hsuf.
  { intros p Hp Hlt. unfold bound_of. rewrite (zcount_split _ a (p + 1) b) by lia.
    assert (zcount (fun i => negb (lt val (cell i))) p b = 0) as Hz.
    { apply (zcount_suffix _ a); [by apply upper_monotone | lia | by rewrite Hlt]. }
    rewrite (zcount_split _ p (p + 1) b) in Hz by lia.
    pose proof (zcount_nonneg (fun i => negb (lt val (cell i))) p (p + 1)).
    pose proof (zcount_nonneg (fun i => negb (lt val (cell i))) (p + 1) b). lia. }
  destruct (lt val (cell (e - 1))) eqn:E2; simpl.
  - replace (b - (b - e - 1)) with (e + 1) by lia.
    rewrite upper_bound_of; [| eapply sorted_sub; [done | lia..] | lia].
    symmetry. apply Hsuf; [lia |]. apply (swo_lt_le _ (cell (e - 1))); [done |]. apply Hs; lia.
  - rewrite (Hsuf e); [| lia |]; cycle 1.
    { apply (swo_le_lt val (cell (e - 1))); [done |]. apply Hok; lia. }
    unfold bound_of. rewrite zcount_snoc by lia.
    pose proof (zcount_prefix (fun i => negb (lt val (cell i))) a (e - 1) e) as Hp.
    replace (e - 1 + 1) with e in Hp by lia. rewrite Hp; [| | lia | by rewrite E2].
    + assert (lt val (cell e) = true) as ->; [| simpl; lia].
      apply (swo_le_lt val (cell (e - 1))); [done | apply Hok; lia].
    + eapply monotone_sub; [by apply upper_monotone | lia..].
Qed.

Lemma search_bound_ok (from : bool) a b val prev :
  sorted_on a b -> a < b -> hint_ok a b (if from then fb_start prev else fb_end prev) ->
  (from = true -> fb_end prev <= a \/ b <= fb_end prev) ->
  search_bound lt from cell a b val prev = bound_of from a b val.
Proof.
  intros. destruct from; [apply search_bound_from; auto | by apply search_bound_to].
Qed.
End hints.
