(* ===== verification/Frames.v ===== *)
(** Window frames (FrameBegin, FrameEnd and Bounds of
    src/src/function/window/window_boundaries_state.cpp, modelled in Boundaries):
    what the frame of a row is, and that a chunk of frames does not depend on the
    chunks before it or on the hints carried from row to row. *)
From S2P Require Import Prelude Validity MaskSearch Boundaries RangeSearch.

#[export] Instance RangeOfZ : RangeType Z := {
  range_lt := Z.ltb;
  range_supported := true;
  as_int64 := i64
}.

(** What the searches need of the column type. *)
Class RangeTypeLaws (T : Type) `{RangeType T} : Prop := {
  range_order :: StrictWeakOrder range_lt;
  as_int64_range : forall x, - 2 ^ 63 <= as_int64 x < 2 ^ 63
}.

#[export] Instance RangeOfZ_laws : RangeTypeLaws Z.
Proof. split; [exact Zltb_order | apply i64_range]. Qed.

(** ** The frame of a row *)

Section frame_spec.
Context {T : Type} `{RangeType T} (partition_mask order_mask : ValidityMask) (range : WindowCursor T).
Context (pc oc N : Z) (sense : OrderType).
Abbreviation P := (RowIsValid partition_mask).
Abbreviation O := (RowIsValid order_mask).
Abbreviation pb := (part_begin P pc oc).
Abbreviation pe := (part_end P N pc oc).
Abbreviation peer_b := (peer_first O pc oc).
Abbreviation peer_e := (peer_last P O N pc oc).
Abbreviation vb := (valid_first P O (CellIsNull range) N pc oc).
Abbreviation ve := (valid_last P O (CellIsNull range) N pc oc).

(** The comparison that sorts the ordering values, if there is one. *)
Definition sense_lt : option (T -> T -> bool) :=
  match sense with
  | ASCENDING => if range_supported then Some range_lt else None
  | DESCENDING => if range_supported then Some (fun a b => range_lt b a) else None
  | _ => None
  end.

(** A RANGE offset: the rows of [[a, b)] before (or up to) [val]; a preceding
    [val] may not be after the last of them, a following one not before the
    first. *)
Definition range_bound (from preceding : bool) (a b : Z) (val : T) : res Z :=
  match sense_lt with
  | None => Throw InternalException
  | Some lt =>
      if (if preceding then lt (Cell range (b - 1)) val else lt val (Cell range a))
      then Throw OutOfRangeException
      else Ok (bound_of lt (Cell range) from a b val)
  end.

(** The frame start of row [i] before clamping; [e] is the boundary expression
    of the chunk that starts at [row]. *)
Definition frame_start (boundary : WindowBoundary) (e : WindowInputExpression T) (row i : Z) : res Z :=
  let off := as_int64 (GetCell e (i - row)) in
  match boundary with
  | UNBOUNDED_PRECEDING => Ok (pb i)
  | CURRENT_ROW_ROWS => Ok i
  | CURRENT_ROW_RANGE | CURRENT_ROW_GROUPS => Ok (peer_b i)
  | EXPR_PRECEDING_ROWS => Ok (rows_offset (TrySubtract i off) (pb i))
  | EXPR_FOLLOWING_ROWS => Ok (rows_offset (TryAdd i off) (pb i))
  | EXPR_PRECEDING_RANGE =>
      if InputIsNull e (i - row) then Ok (peer_b i)
      else range_bound true true (vb i) (i + 1) (GetCell e (i - row))
  | EXPR_FOLLOWING_RANGE =>
      if InputIsNull e (i - row) then Ok (peer_b i)
      else range_bound true false i (ve i) (GetCell e (i - row))
  | EXPR_PRECEDING_GROUPS =>
      groups_offset e (i - row) (peer_b i) (nth_last O (pb i) (peer_b i))
  | EXPR_FOLLOWING_GROUPS =>
      groups_offset e (i - row) (peer_b i) (nth_start O (peer_b i + 1) (pe i))
  | UNBOUNDED_FOLLOWING | INVALID => Throw InternalException
  end.

Definition frame_end (boundary : WindowBoundary) (e : WindowInputExpression T) (row i : Z) : res Z :=
  let off := as_int64 (GetCell e (i - row)) in
  match boundary with
  | UNBOUNDED_FOLLOWING => Ok (pe i)
  | CURRENT_ROW_ROWS => Ok (i + 1)
  | CURRENT_ROW_RANGE | CURRENT_ROW_GROUPS => Ok (peer_e i)
  | EXPR_PRECEDING_ROWS => Ok (rows_offset (TrySubtract (i + 1) off) (pe i))
  | EXPR_FOLLOWING_ROWS => Ok (rows_offset (TryAdd (i + 1) off) (pe i))
  | EXPR_PRECEDING_RANGE =>
      if InputIsNull e (i - row) then Ok (peer_e i)
      else range_bound false true (vb i) (i + 1) (GetCell e (i - row))
  | EXPR_FOLLOWING_RANGE =>
      if InputIsNull e (i - row) then Ok (peer_e i)
      else range_bound false false i (ve i) (GetCell e (i - row))
  | EXPR_PRECEDING_GROUPS =>
      groups_offset e (i - row) (peer_e i) (nth_last O (pb i) (peer_e i))
  | EXPR_FOLLOWING_GROUPS =>
      groups_offset e (i - row) (peer_e i) (nth_start O (peer_e i + 1) (pe i))
  | UNBOUNDED_PRECEDING | INVALID => Throw InternalException
  end.

(** Clamped to the partition. *)
Definition clamp_row (i v : Z) : Z := Z.min (Z.max v (pb i)) (pe i).

Definition frame_begin_row boundary e row i : res Z :=
  v ← frame_start boundary e row i; Ok (clamp_row i v).
Definition frame_end_row boundary e row i : res Z :=
  v ← frame_end boundary e row i; Ok (clamp_row i v).
End frame_spec.

(** ** Loops that can throw *)

Lemma row_loop_res_inv {S} (body : S -> Z -> Z -> res (S * Z)) (I : Z -> S -> Prop) (f : Z -> res Z)
    n row s c0 :
  I row s ->
  (forall s ri, row <= ri < row + Z.of_nat n -> I ri s ->
    match f ri with
    | Throw e => body s (c0 + (ri - row)) ri = Throw e
    | Ok v => exists s', body s (c0 + (ri - row)) ri = Ok (s', v) /\ I (ri + 1) s'
    end) ->
  row_loop_res body s c0 row n = mapM f (zrange row (row + Z.of_nat n)).
Proof.
  revert row s c0. induction n as [| n IH]; intros row s c0 Hs Hb.
  { rewrite zrange_nil by lia. done. }
  pose proof (Hb s row ltac:(lia) Hs) as H1. rewrite Z.sub_diag, Z.add_0_r in H1.
  rewrite zrange_cons by lia. cbn [row_loop_res mapM mbind res_bind].
  destruct (f row) as [v | e]; cycle 1.
  { by rewrite H1. }
  destruct H1 as (s' & -> & Hs'). cbn [mbind res_bind].
  rewrite (IH (row + 1) s' (c0 + 1)); [| done |].
  - replace (row + Z.of_nat (Datatypes.S n)) with (row + 1 + Z.of_nat n) by lia. done.
  - intros s2 ri Hri Hs2. replace (c0 + 1 + (ri - (row + 1))) with (c0 + (ri - row)) by lia.
    apply Hb; [lia | done].
Qed.

Lemma mapM_after {A} (f : A -> res Z) (g : A -> Z -> Z) (l : list A) :
  mapM (fun i => v ← f i; Ok (g i v)) l = (vs ← mapM f l; Ok (zip_with g l vs)).
Proof.
  induction l as [| i l IH]; [done |]. cbn [mapM mbind res_bind].
  destruct (f i) as [v |]; [| done]. cbn [mbind res_bind]. rewrite IH. by destruct (mapM f l).
Qed.

Lemma mapM_length_ok {A} (f : A -> res Z) (l : list A) vs : mapM f l = Ok vs -> length vs = length l.
Proof.
  revert vs. induction l as [| i l IH]; intros vs; cbn [mapM mbind res_bind]; [by intros [= <-] |].
  destruct (f i); [| done]. destruct (mapM f l); [| done]. intros [= <-]. simpl. f_equal. by apply IH.
Qed.

Lemma mapM_Ok_fmap {A} (f : A -> res Z) (g : A -> Z) (l : list A) :
  (forall i, i ∈ l -> f i = Ok (g i)) -> mapM f l = Ok (g <$> l).
Proof.
  intros Hf. induction l as [| x l IH]; [done |]. cbn [mapM fmap list_fmap].
  rewrite Hf by left. cbn [mbind res_bind]. rewrite IH; [done |]. intros i Hi. apply Hf. by right.
Qed.

Lemma mapM_pure {A} (g : A -> Z) (l : list A) : mapM (fun i => Ok (g i)) l = Ok (g <$> l).
Proof. induction l as [| i l IH]; [done |]. cbn [mapM mbind res_bind]. by rewrite IH. Qed.

Lemma ClampFrame_rows (f g : Z -> Z) row count vs :
  0 <= count -> length vs = Z.to_nat count ->
  ClampFrame vs (f <$> zrange row (row + count)) (g <$> zrange row (row + count)) =
  zip_with (fun i v => Z.min (Z.max v (f i)) (g i)) (zrange row (row + count)) vs.
Proof.
  intros Hc Hl. apply list_eq. intros k. unfold ClampFrame. rewrite list_lookup_imap, lookup_zip_with.
  destruct (vs !! k) as [v |] eqn:E; simpl; cycle 1.
  { by destruct (zrange _ _ !! k). }
  apply lookup_lt_Some in E. rewrite !znth_rows by lia.
  pose proof (lookup_zrange row (row + count) (Z.of_nat k) ltac:(lia)) as Hz.
  rewrite Nat2Z.id in Hz. by rewrite Hz.
Qed.

(** ** Frames of a chunk *)

Section frames.
Context {T : Type} `{RangeTypeLaws T} (partition_mask order_mask : ValidityMask) (range : WindowCursor T).
Context (pc oc N : Z).
Abbreviation P := (RowIsValid partition_mask).
Abbreviation O := (RowIsValid order_mask).
Abbreviation pb := (part_begin P pc oc).
Abbreviation pe := (part_end P N pc oc).
Abbreviation peer_b := (peer_first O pc oc).
Abbreviation peer_e := (peer_last P O N pc oc).
Abbreviation vb := (valid_first P O (CellIsNull range) N pc oc).
Abbreviation ve := (valid_last P O (CellIsNull range) N pc oc).
Abbreviation row_bounds' := (row_bounds partition_mask order_mask range pc oc N).
Hypothesis Hok : masks_ok partition_mask order_mask pc oc N.

(** A row with an offset has an ordering value, and the values of its partition
    are sorted. *)
Definition range_ready (sense : OrderType) (e : WindowInputExpression T) (row i : Z) : Prop :=
  InputIsNull e (i - row) = false ->
  vb i <= i < ve i /\ pc + oc <> 0 /\
  forall lt, sense_lt sense = Some lt -> sorted_on lt (Cell range) (vb i) (ve i).

Lemma sense_lt_order sense lt : sense_lt sense = Some lt -> StrictWeakOrder lt.
Proof.
  unfold sense_lt. destruct sense; try done; destruct range_supported; try done; intros [= <-].
  - apply range_order.
  - apply flip_order, range_order.
Qed.

Lemma FindOrdered_eq sense from a b boundary e ci prev :
  (forall lt, sense_lt sense = Some lt -> search_bound lt from (Cell range) a b (GetCell e ci) prev =
    bound_of lt (Cell range) from a b (GetCell e ci)) ->
  FindOrderedRangeBound from range range sense a b boundary e ci prev =
  range_bound range sense from (bool_decide (boundary = EXPR_PRECEDING_RANGE)) a b (GetCell e ci).
Proof.
  unfold FindOrderedRangeBound, range_bound, sense_lt, FindTypedRangeBound.
  destruct sense; try done; destruct range_supported; try done; intros Hs; by rewrite (Hs _ eq_refl).
Qed.

(** A bound found by counting is at a change of value. *)
Lemma count_at right a b :
  monotone_on right a b -> a <= b -> let p := a + zcount right a b in
  (a < p -> right (p - 1) = true) /\ (p < b -> right p = false).
Proof.
  intros Hm Hab p. pose proof (zcount_le right a b). pose proof (zcount_nonneg right a b). split; intros Hp.
  - destruct (right (p - 1)) eqn:E; [done |].
    pose proof (zcount_suffix right a (p - 1) b Hm ltac:(lia) E) as Hz.
    pose proof (zcount_split right a (p - 1) b ltac:(lia)). pose proof (zcount_le right a (p - 1)). lia.
  - destruct (right p) eqn:E; [| done].
    pose proof (zcount_prefix right a p b Hm ltac:(lia) E) as Hz.
    pose proof (zcount_split right a (p + 1) b ltac:(lia)). pose proof (zcount_nonneg right (p + 1) b). lia.
Qed.

Lemma bound_change lt from a b val :
  StrictWeakOrder lt -> sorted_on lt (Cell range) a b -> a < b ->
  let p := bound_of lt (Cell range) from a b val in
  a <= p <= b /\ (a < p -> p < b -> lt (Cell range (p - 1)) (Cell range p) = true).
Proof.
  intros Hlt Hs Hab p. unfold bound_of in p.
  set (right := fun i => if from then lt (Cell range i) val else negb (lt val (Cell range i))) in *.
  assert (monotone_on right a b) as Hm.
  { unfold right. destruct from; [by apply lower_monotone | by apply upper_monotone]. }
  pose proof (zcount_le right a b). pose proof (zcount_nonneg right a b). split; [lia |].
  destruct (count_at right a b Hm ltac:(lia)) as [Hl Hr]. intros Ha Hb. fold p in Hl, Hr.
  specialize (Hl Ha). specialize (Hr Hb). unfold right in Hl, Hr. destruct from.
  - by apply (swo_lt_le lt _ val).
  - apply negb_true_iff in Hl. apply negb_false_iff in Hr. by apply (swo_le_lt lt _ val).
Qed.

(** The bound of a preceding value does not pass the row when the value is
    before the row's value. *)
Lemma bound_preceding lt (from : bool) a b val :
  StrictWeakOrder lt -> sorted_on lt (Cell range) a b -> a < b ->
  (if from then lt (Cell range (b - 1)) val = false else lt val (Cell range (b - 1)) = true) ->
  bound_of lt (Cell range) from a b val < b.
Proof.
  intros Hlt Hs Hab Hv. unfold bound_of.
  set (right := fun i => if from then lt (Cell range i) val else negb (lt val (Cell range i))) in *.
  assert (monotone_on right a b) as Hm.
  { unfold right. destruct from; [by apply lower_monotone | by apply upper_monotone]. }
  assert (right (b - 1) = false) as Hr by (unfold right; destruct from; [done | by rewrite Hv]).
  pose proof (zcount_suffix right a (b - 1) b Hm ltac:(lia) Hr).
  pose proof (zcount_split right a (b - 1) b ltac:(lia)). pose proof (zcount_le right a (b - 1)). lia.
Qed.

(** *** One row of a RANGE loop *)

Definition rng_a (preceding : bool) (i : Z) : Z := if preceding then vb i else i.
Definition rng_b (preceding : bool) (i : Z) : Z := if preceding then i + 1 else ve i.

(** The hint [h] is usable by the rows from [ri] on of the partition that starts
    at [pp]. *)
Definition hint_for (sense : OrderType) (e : WindowInputExpression T) (preceding : bool)
    (row last ri pp h : Z) : Prop :=
  forall i lt, ri <= i < last -> InputIsNull e (i - row) = false -> pb i = pp ->
    sense_lt sense = Some lt -> hint_ok lt (Cell range) (rng_a preceding i) (rng_b preceding i) h.

(** No peer of the row follows it, or the value is strictly before the row's. *)
Definition no_tie (sense : OrderType) (i : Z) (val : T) : Prop :=
  forall lt, sense_lt sense = Some lt -> lt val (Cell range i) = true \/
    (i + 1 < ve i -> lt (Cell range i) (Cell range (i + 1)) = true).

Lemma range_step sense (from preceding : bool) e row last ri boundary prev :
  bool_decide (boundary = EXPR_PRECEDING_RANGE) = preceding ->
  (forall i, row <= i < last -> range_ready sense e row i) ->
  row <= ri < last -> 0 <= row -> InputIsNull e (ri - row) = false ->
  (from = false -> preceding = true -> no_tie sense ri (GetCell e (ri - row))) ->
  hint_for sense e preceding row last ri (pb ri) (if from then fb_start prev else fb_end prev) ->
  (from = true -> fb_end prev = ve ri) ->
  match range_bound range sense from preceding (rng_a preceding ri) (rng_b preceding ri)
          (GetCell e (ri - row)) with
  | Throw x => FindOrderedRangeBound from range range sense (rng_a preceding ri) (rng_b preceding ri)
                 boundary e (ri - row) prev = Throw x
  | Ok w => FindOrderedRangeBound from range range sense (rng_a preceding ri) (rng_b preceding ri)
              boundary e (ri - row) prev = Ok w /\
            hint_for sense e preceding row last (ri + 1) (pb ri) w
  end.
Proof.
  intros Hb Hready Hri Hrow Hnull Htie Hhint Hend.
  destruct (Hready ri Hri Hnull) as (Hin & _ & Hs).
  set (a := rng_a preceding ri). set (b := rng_b preceding ri). set (val := GetCell e (ri - row)) in *.
  assert (vb ri <= a /\ a < b /\ b <= ve ri) as (Ha & Hab & Hbv).
  { unfold a, b, rng_a, rng_b. destruct preceding; lia. }
  rewrite FindOrdered_eq, Hb; cycle 1.
  { intros lt Hlt. pose proof (sense_lt_order _ _ Hlt). apply search_bound_ok; [done | | done | |].
    - eapply sorted_sub; [by apply Hs | done..].
    - apply (Hhint ri lt); done || lia.
    - intros Hf. right. rewrite Hend by done. lia. }
  fold val. unfold range_bound. destruct (sense_lt sense) as [lt |] eqn:Hlt; [| done].
  destruct (if preceding then _ else _) eqn:Hcheck; [done |]. split; [done |].
  pose proof (sense_lt_order _ _ Hlt) as Hswo. specialize (Hs lt eq_refl).
  assert (sorted_on lt (Cell range) a b) as Hsab by (by eapply sorted_sub).
  destruct (bound_change lt from a b val Hswo Hsab Hab) as [Hw Hch].
  set (w := bound_of lt (Cell range) from a b val) in *.
  intros i lt' Hi Hnull' Hpb Hlt' ??. replace lt' with lt in * by congruence.
  pose proof (vb_pb partition_mask order_mask range pc oc N i ri Hpb) as Evb.
  pose proof (ve_pb partition_mask order_mask range pc oc N i ri Hpb) as Eve.
  destruct (Hready i ltac:(lia) Hnull') as (Hin' & _ & _).
  unfold rng_a, rng_b in *. destruct preceding; cbn in *; [| apply Hch; lia].
  destruct (decide (w < b)) as [Hwb | Hwb]; [apply Hch; unfold a in *; lia |].
  destruct from.
  { destruct Hwb. exact (bound_preceding lt true a b val Hswo Hsab Hab Hcheck). }
  destruct (Htie eq_refl eq_refl lt Hlt) as [Hst | Hst].
  - destruct Hwb. apply (bound_preceding lt false a b val Hswo Hsab Hab).
    unfold b. by replace (ri + 1 - 1) with ri by lia.
  - unfold b in *. replace w with (ri + 1) by lia. replace (ri + 1 - 1) with ri by lia. apply Hst. lia.
Qed.

(** *** The loops *)

(** The result of FrameBegin or FrameEnd: the column [X] holds [m]'s values and
    the other columns are unchanged, or an exception is thrown. *)
Definition stores (r : res DataChunk) (bounds : DataChunk) (X : WindowBounds) (m : res (list Z)) : Prop :=
  match m with
  | Throw x => r = Throw x
  | Ok vs => exists c, r = Ok c /\ c X = vs /\ forall b, b <> X -> c b = bounds b
  end.

(** The column that is stored. *)
Lemma stores_column r bounds X m : stores r bounds X m -> (c ← r; Ok (c X)) = m.
Proof. unfold stores. destruct m as [vs | x]; [intros (c & -> & <- & _); done | by intros ->]. Qed.

Abbreviation clamp := (clamp_row partition_mask pc oc N).

Lemma stores_loop bounds X (r : res (list Z)) (f : Z -> res Z) row count :
  0 <= count -> bounds PARTITION_BEGIN = pb <$> zrange row (row + count) ->
  bounds PARTITION_END = pe <$> zrange row (row + count) ->
  r = mapM f (zrange row (row + count)) ->
  stores (values ← r; Ok (set_column bounds X
            (ClampFrame values (bounds PARTITION_BEGIN) (bounds PARTITION_END))))
    bounds X (mapM (fun i => v ← f i; Ok (clamp i v)) (zrange row (row + count))).
Proof.
  intros Hc Hpb Hpe ->. rewrite mapM_after.
  destruct (mapM f (zrange row (row + count))) as [vs |] eqn:E; [| done]. cbn [mbind res_bind stores].
  eexists. split; [done |]. apply mapM_length_ok in E. rewrite length_zrange in E. unfold set_column. split.
  - rewrite decide_True by done. rewrite Hpb, Hpe, ClampFrame_rows by lia. done.
  - intros b Hb. by rewrite decide_False.
Qed.

Lemma zip_with_fmap_r {A} (g : Z -> A -> Z) (h : Z -> A) (l : list Z) :
  zip_with g l (h <$> l) = (fun i => g i (h i)) <$> l.
Proof. induction l; simpl; by f_equal. Qed.

(** A frame bound that refers to another column. *)
Lemma stores_reference bounds X (f : Z -> Z) row count c :
  0 <= row -> row + count <= N -> (forall i, 0 <= i < N -> pb i <= f i <= pe i) ->
  c X = f <$> zrange row (row + count) -> (forall b, b <> X -> c b = bounds b) ->
  stores (Ok c) bounds X (mapM (fun i => v ← Ok (f i); Ok (clamp i v)) (zrange row (row + count))).
Proof.
  intros Hr Hn Hf HX Hb. cbn [mbind res_bind]. rewrite mapM_pure. exists c. split_and!; [done | | done].
  rewrite HX. apply list_fmap_ext. intros k i Hi. apply list_elem_of_lookup_2, elem_of_zrange in Hi.
  unfold clamp_row. specialize (Hf i ltac:(lia)). lia.
Qed.

Lemma clamp_reference (f : Z -> Z) bounds row count :
  0 <= row -> 0 <= count -> row + count <= N -> (forall i, 0 <= i < N -> pb i <= f i <= pe i) ->
  bounds PARTITION_BEGIN = pb <$> zrange row (row + count) ->
  bounds PARTITION_END = pe <$> zrange row (row + count) ->
  ClampFrame (f <$> zrange row (row + count)) (bounds PARTITION_BEGIN) (bounds PARTITION_END) =
  f <$> zrange row (row + count).
Proof.
  intros Hr Hc Hn Hf -> ->. rewrite ClampFrame_rows; [| done | rewrite length_fmap, length_zrange; lia].
  rewrite zip_with_fmap_r. apply list_fmap_ext. intros k i Hi.
  apply list_elem_of_lookup_2, elem_of_zrange in Hi. specialize (Hf i ltac:(lia)). lia.
Qed.

Lemma pure_loop (f : Z -> Z -> Z) (g : Z -> Z) row count :
  0 <= count -> (forall i, row <= i < row + count -> f (i - row) i = g i) ->
  row_loop_res (fun (_ : unit) ci ri => Ok (tt, f ci ri)) tt 0 row (rows count) =
  mapM (fun i => Ok (g i)) (zrange row (row + count)).
Proof.
  intros Hc Hf. unfold rows. rewrite (row_loop_res_inv _ (fun _ _ => True) (fun i => Ok (g i))); [| done |].
  - by rewrite Z2Nat.id.
  - intros [] ri Hri _. rewrite Z.add_0_l. rewrite Hf by lia. by exists tt.
Qed.

Lemma groups_loop (f g : Z -> res Z) row count :
  0 <= count -> (forall i, row <= i < row + count -> f i = g i) ->
  forall h, (forall ci ri, ci = ri - row -> row <= ri < row + count -> h ci ri = f ri) ->
  row_loop_res (fun (_ : unit) ci ri => w ← h ci ri; Ok (tt, w)) tt 0 row (rows count) =
  mapM g (zrange row (row + count)).
Proof.
  intros Hc Hf h Hh. unfold rows. rewrite (row_loop_res_inv _ (fun _ _ => True) g); [| done |].
  - by rewrite Z2Nat.id.
  - intros [] ri Hri _. rewrite Z.add_0_l. rewrite Hh, Hf by lia. destruct (g ri); [by exists tt | done].
Qed.

Lemma groups_offset_ext (e : WindowInputExpression T) ci cur f g :
  (forall n, 1 <= n < 2 ^ 63 -> f n = g n) -> groups_offset e ci cur f = groups_offset e ci cur g.
Proof.
  intros Hf. unfold groups_offset. destruct (InputIsNull e ci); [done |].
  pose proof (as_int64_range (GetCell e ci)). case_if; [done |]. case_if; [done |]. rewrite Hf; [done | lia].
Qed.

(** The RANGE loops: [next] is the hint of a row given the previous hint and
    partition, [upd] what is kept of it. *)
Lemma range_loop sense (from preceding : bool) e row count boundary
    (body : FrameBounds * Z -> Z -> Z -> res (FrameBounds * Z * Z))
    (next : FrameBounds -> Z -> Z -> FrameBounds) (upd : FrameBounds -> Z -> FrameBounds)
    (cur fresh : Z -> Z) prev0 :
  let hint prev := if from then fb_start prev else fb_end prev in
  bool_decide (boundary = EXPR_PRECEDING_RANGE) = preceding -> 0 <= row -> 0 <= count ->
  (forall i, row <= i < row + count -> range_ready sense e row i) ->
  (forall i, row <= i < row + count -> InputIsNull e (i - row) = false ->
    from = false -> preceding = true -> no_tie sense i (GetCell e (i - row))) ->
  (forall i, row <= i < row + count -> hint_for sense e preceding row (row + count) i (pb i) (fresh i)) ->
  hint_for sense e preceding row (row + count) row (pb row) (hint prev0) ->
  (forall prev pp ri, row <= ri < row + count ->
    hint (next prev pp ri) = (if negb (pb ri =? pp) then fresh ri else hint prev) /\
    (from = true -> fb_end (next prev pp ri) = ve ri) /\
    forall w, hint (upd (next prev pp ri) w) = w) ->
  (forall prev pp ci ri, ci = ri - row -> row <= ri < row + count ->
    body (prev, pp) ci ri =
      if InputIsNull e ci then Ok ((prev, pp), cur ri) else
      w ← FindOrderedRangeBound from range range sense (rng_a preceding ri) (rng_b preceding ri)
            boundary e ci (next prev pp ri);
      Ok ((upd (next prev pp ri) w, pb ri), w)) ->
  row_loop_res body (prev0, pb row) 0 row (rows count) =
  mapM (fun i => if InputIsNull e (i - row) then Ok (cur i)
                 else range_bound range sense from preceding (rng_a preceding i) (rng_b preceding i)
                        (GetCell e (i - row))) (zrange row (row + count)).
Proof.
  intros hint Hb Hrow Hc Hready Htie Hfresh H0' Hnext Hbody. unfold rows.
  rewrite (row_loop_res_inv _
    (fun ri s => hint_for sense e preceding row (row + count) ri (snd s) (hint (fst s)))
    (fun i => if InputIsNull e (i - row) then Ok (cur i)
              else range_bound range sense from preceding (rng_a preceding i) (rng_b preceding i)
                     (GetCell e (i - row)))); [by rewrite Z2Nat.id | done |].
  rewrite Z2Nat.id by done. intros [prev pp] ri Hri Hs. rewrite Z.add_0_l, Hbody by done. simpl in Hs.
  destruct (InputIsNull e (ri - row)) eqn:Hnull.
  { eexists. split; [done |]. simpl. intros i lt Hi. apply Hs. lia. }
  destruct (Hnext prev pp ri Hri) as (Hn1 & Hn2 & Hn3).
  pose proof (range_step sense from preceding e row (row + count) ri boundary (next prev pp ri)
    Hb Hready Hri Hrow Hnull (Htie ri Hri Hnull)) as Hstep.
  fold (hint (next prev pp ri)) in Hstep. rewrite Hn1 in Hstep.
  assert (hint_for sense e preceding row (row + count) ri (pb ri)
    (if negb (pb ri =? pp) then fresh ri else hint prev)) as Hh.
  { destruct (Z.eqb_spec (pb ri) pp) as [-> |]; simpl; [done | by apply Hfresh]. }
  specialize (Hstep Hh Hn2). destruct (range_bound _ _ _ _ _ _ _) as [w | x].
  - destruct Hstep as [-> Hw]. eexists. split; [done |]. simpl. by rewrite Hn3.
  - by rewrite Hstep.
Qed.

Lemma hint_fresh_start sense e preceding row last i :
  (forall i, row <= i < last -> range_ready sense e row i) ->
  row <= i -> hint_for sense e preceding row last i (pb i) (vb i).
Proof.
  intros Hready Hi j lt Hj Hnull Hpb _ Ha _. exfalso.
  destruct (Hready j ltac:(lia) Hnull) as ((? & ?) & _).
  rewrite <- (vb_pb partition_mask order_mask range pc oc N j i Hpb) in Ha.
  unfold rng_a in Ha. destruct preceding; lia.
Qed.

(** An end hint that is past the rows of the partition, or not in use. *)
Lemma hint_fresh_end sense e preceding row last i h :
  (forall i, row <= i < last -> range_ready sense e row i) -> row <= i ->
  h <= 0 \/ (pc + oc <> 0 -> forall j, i <= j < last -> pb j = pb i -> ve j <= h) -> 0 <= row -> last <= N ->
  hint_for sense e preceding row last i (pb i) h.
Proof.
  intros Hready Hi Hh Hrow Hlast j lt Hj Hnull Hpb _ Ha Hb. exfalso.
  destruct (Hready j ltac:(lia) Hnull) as (Hin & Hall & _).
  pose proof (vb_range partition_mask order_mask range pc oc N j ltac:(lia)).
  pose proof (pb_range partition_mask pc oc j ltac:(lia)).
  assert (0 <= rng_a preceding j /\ rng_b preceding j <= ve j)
    by (unfold rng_a, rng_b; destruct preceding; lia).
  destruct Hh as [| Hh]; [lia |]. specialize (Hh Hall j ltac:(lia) Hpb). lia.
Qed.

(** *** FrameBegin and FrameEnd *)

Definition is_range (b : WindowBoundary) : bool :=
  match b with EXPR_PRECEDING_RANGE | EXPR_FOLLOWING_RANGE => true | _ => false end.

Definition holds (bounds : DataChunk) (row count : Z) (b : WindowBounds) : Prop :=
  bounds b = row_bounds' b <$> zrange row (row + count).

(** The reference cases. *)
Lemma stores_shared bounds X Y (f : Z -> Z) row count :
  X <> Y -> 0 <= row -> 0 <= count -> row + count <= N ->
  (forall i, 0 <= i < N -> pb i <= f i <= pe i) ->
  bounds PARTITION_BEGIN = pb <$> zrange row (row + count) ->
  bounds PARTITION_END = pe <$> zrange row (row + count) ->
  bounds Y = f <$> zrange row (row + count) ->
  let values := ClampFrame (bounds Y) (bounds PARTITION_BEGIN) (bounds PARTITION_END) in
  stores (Ok (set_column (set_column bounds Y values) X values)) bounds X
    (mapM (fun i => v ← Ok (f i); Ok (clamp i v)) (zrange row (row + count))).
Proof.
  intros HXY Hr Hc Hn Hf Hpb Hpe HY values. unfold values.
  rewrite HY, clamp_reference by done. apply stores_reference; try done.
  - unfold set_column. by rewrite decide_True.
  - intros b Hb. unfold set_column. rewrite decide_False by done. by case_decide; subst.
Qed.

Lemma stores_copy bounds X Y (f : Z -> Z) row count :
  0 <= row -> row + count <= N -> (forall i, 0 <= i < N -> pb i <= f i <= pe i) ->
  bounds Y = f <$> zrange row (row + count) ->
  stores (Ok (set_column bounds X (bounds Y))) bounds X
    (mapM (fun i => v ← Ok (f i); Ok (clamp i v)) (zrange row (row + count))).
Proof.
  intros Hr Hn Hf HY. apply stores_reference; try done.
  - unfold set_column. by rewrite decide_True.
  - intros b Hb. unfold set_column. by rewrite decide_False.
Qed.

Lemma pb_nested i : 0 <= i < N -> pb i <= pb i <= pe i.
Proof. intros Hi. pose proof (pe_range partition_mask pc oc N i Hi). lia. Qed.

Lemma pe_nested i : 0 <= i < N -> pb i <= pe i <= pe i.
Proof. intros Hi. pose proof (pe_range partition_mask pc oc N i Hi). lia. Qed.

Lemma peer_b_nested i : 0 <= i < N -> pb i <= peer_b i <= pe i.
Proof.
  intros Hi. pose proof (peer_b_bounds _ _ _ _ _ Hok i Hi). pose proof (pe_gt partition_mask pc oc N i Hi). lia.
Qed.

Lemma peer_e_nested i : 0 <= i < N -> pb i <= peer_e i <= pe i.
Proof.
  intros Hi. pose proof (peer_b_bounds _ _ _ _ _ Hok i Hi).
  pose proof (peer_e_bounds _ _ _ _ _ Hok i Hi). lia.
Qed.

(** Simplify the reads of the columns at row [i]. *)
Ltac at_row i :=
  repeat match goal with Hb : ?b ?c = _ <$> zrange _ _ |- context [znth 0 (?b ?c)] => rewrite Hb end;
  rewrite ?znth_rows by lia; rewrite ?Z.add_0_r;
  try match goal with |- context [?r + (i - ?r)] => replace (r + (i - r)) with i by lia end.

Lemma FrameBegin_rows st bounds row count e :
  0 <= row -> 0 < count -> row + count <= N ->
  holds bounds row count PARTITION_BEGIN -> holds bounds row count PARTITION_END ->
  (start_bounds (start_boundary st) <> [] -> holds bounds row count PEER_BEGIN) ->
  (is_range (start_boundary st) = true ->
    holds bounds row count VALID_BEGIN /\ holds bounds row count VALID_END /\
    forall i, row <= i < row + count -> range_ready (range_sense st) e row i) ->
  stores (FrameBegin st bounds row count e order_mask range) bounds FRAME_BEGIN
    (mapM (frame_begin_row partition_mask order_mask range pc oc N (range_sense st)
             (start_boundary st) e row) (zrange row (row + count))).
Proof.
  intros Hrow Hc Hn Hpb Hpe Hpeer Hrange. pose proof (ok_size _ _ _ _ _ Hok).
  unfold holds in *. cbn [row_bounds] in *. unfold FrameBegin, frame_begin_row, frame_start.
  destruct (start_boundary st) eqn:EB; cbn [start_bounds is_range] in *;
    try specialize (Hpeer ltac:(done)); try destruct (Hrange eq_refl) as (Hvb & Hve & Hready);
    try (rewrite zrange_cons by lia; done);
    try (apply stores_loop; [lia | done | done |]).
  - apply stores_copy; auto using pb_nested.
  - apply stores_shared; auto using peer_b_nested; done || lia.
  - apply (pure_loop (fun _ ri => ri)); [lia | done].
  - apply (pure_loop (fun ci ri => _)); [lia |]. intros i Hi. at_row i. by rewrite i64_small by lia.
  - apply (pure_loop (fun ci ri => _)); [lia |]. intros i Hi. at_row i. by rewrite i64_small by lia.
  - at_row row. apply (range_loop (range_sense st) true true e row count EXPR_PRECEDING_RANGE _
      (fun prev pp ri => mkFrame (if negb (pb ri =? pp) then vb ri else fb_start prev) (ve ri))
      (fun prev w => mkFrame w (fb_end prev)) peer_b vb); try done; try lia.
    + intros. by apply hint_fresh_start; [| lia].
    + by apply hint_fresh_start.
    + intros prev pp ci ri -> Hri. by at_row ri.
  - at_row row. apply (range_loop (range_sense st) true false e row count EXPR_FOLLOWING_RANGE _
      (fun prev pp ri => mkFrame (if negb (pb ri =? pp) then vb ri else fb_start prev) (ve ri))
      (fun prev w => mkFrame w (fb_end prev)) peer_b vb); try done; try lia.
    + intros. by apply hint_fresh_start; [| lia].
    + by apply hint_fresh_start.
    + intros prev pp ci ri -> Hri. by at_row ri.
  - apply stores_shared; auto using peer_b_nested; done || lia.
  - apply (groups_loop (fun i => groups_offset e (i - row) (peer_b i)
      (fun n => fst (FindPrevStart order_mask (pb i) (peer_b i) n)))); [lia | |].
    + intros i Hi. apply groups_offset_ext. intros n Hg.
      pose proof (peer_b_bounds _ _ _ _ _ Hok i ltac:(lia)).
      pose proof (pb_range partition_mask pc oc i ltac:(lia)). by rewrite FindPrevStart_nth by lia.
    + intros ci i -> Hi. by at_row i.
  - apply (groups_loop (fun i => groups_offset e (i - row) (peer_b i)
      (fun n => fst (FindNextStart order_mask (peer_b i + 1) (pe i) n)))); [lia | |].
    + intros i Hi. apply groups_offset_ext. intros n Hg.
      pose proof (peer_b_nested i ltac:(lia)). pose proof (pe_range partition_mask pc oc N i ltac:(lia)).
      pose proof (pb_range partition_mask pc oc i ltac:(lia)). apply FindNextStart_nth; lia.
    + intros ci i -> Hi. by at_row i.
Qed.

(** The end hints: column [VALID_END] and the member [valid_end].  When
    [VALID_END] is not required the member is 0 and nothing has written the
    column; the hints are harmless if the column holds 0. *)
Definition end_hints (st : WindowBoundariesState) (bounds : DataChunk) (row count : Z) : Prop :=
  (znth 0 (bounds VALID_END) 0 <= 0 /\ valid_end st <= 0) \/
  (holds bounds row count VALID_END /\ valid_end st = ve (row + count - 1)).

Lemma end_hints_usable st bounds sense e preceding row count :
  0 <= row -> 0 < count -> row + count <= N ->
  (forall i, row <= i < row + count -> range_ready sense e row i) ->
  end_hints st bounds row count ->
  hint_for sense e preceding row (row + count) row (pb row) (znth 0 (bounds VALID_END) 0) /\
  forall i, row <= i < row + count ->
    hint_for sense e preceding row (row + count) i (pb i) (valid_end st).
Proof.
  intros Hrow Hc Hn Hready Hh. split; intros; apply hint_fresh_end; try done; try lia.
  - destruct Hh as [[? _] | [Hve _]]; [by left |]. right. intros _ j Hj Hpb.
    unfold holds in Hve. cbn [row_bounds] in Hve. at_row row.
    apply Z.eq_le_incl, (ve_pb partition_mask order_mask range pc oc N j row Hpb).
  - destruct Hh as [[_ ?] | [_ ->]]; [by left |]. right. intros Ha j Hj Hpb.
    apply (ve_mono partition_mask order_mask range pc oc N Hok); lia.
Qed.

Lemma FrameEnd_rows st bounds row count e :
  0 <= row -> 0 < count -> row + count <= N ->
  holds bounds row count PARTITION_BEGIN -> holds bounds row count PARTITION_END ->
  (end_bounds (end_boundary st) <> [] -> holds bounds row count PEER_END) ->
  (is_range (end_boundary st) = true -> holds bounds row count VALID_BEGIN /\
    end_hints st bounds row count /\
    forall i, row <= i < row + count -> range_ready (range_sense st) e row i) ->
  (end_boundary st = EXPR_FOLLOWING_RANGE -> holds bounds row count VALID_END) ->
  (end_boundary st = EXPR_PRECEDING_RANGE -> forall i, row <= i < row + count ->
    InputIsNull e (i - row) = false -> no_tie (range_sense st) i (GetCell e (i - row))) ->
  stores (FrameEnd st bounds row count e order_mask range) bounds FRAME_END
    (mapM (frame_end_row partition_mask order_mask range pc oc N (range_sense st)
             (end_boundary st) e row) (zrange row (row + count))).
Proof.
  intros Hrow Hc Hn Hpb Hpe Hpeer Hrange Hvend Htie. pose proof (ok_size _ _ _ _ _ Hok).
  unfold FrameEnd, frame_end_row, frame_end.
  destruct (end_boundary st) eqn:EB; cbn [end_bounds is_range] in *;
    try specialize (Hpeer ltac:(done)); try specialize (Hvend eq_refl); try specialize (Htie eq_refl);
    try destruct (Hrange eq_refl) as (Hvb & Hhint & Hready);
    unfold holds in *; cbn [row_bounds] in *;
    try (rewrite zrange_cons by lia; done);
    try (apply stores_loop; [lia | done | done |]).
  - apply stores_copy; auto using pe_nested.
  - apply stores_shared; auto using peer_e_nested; done || lia.
  - apply (pure_loop (fun _ ri => ri + 1)); [lia | done].
  - apply (pure_loop (fun ci ri => _)); [lia |]. intros i Hi. at_row i. by rewrite i64_small by lia.
  - apply (pure_loop (fun ci ri => _)); [lia |]. intros i Hi. at_row i. by rewrite i64_small by lia.
  - destruct (end_hints_usable st bounds (range_sense st) e true row count Hrow Hc Hn Hready Hhint).
    at_row row. apply (range_loop (range_sense st) false true e row count EXPR_PRECEDING_RANGE _
      (fun prev pp ri => mkFrame (vb ri) (if negb (pb ri =? pp) then valid_end st else fb_end prev))
      (fun prev w => mkFrame (fb_start prev) w) peer_e (fun _ => valid_end st)); try done; try lia.
    + intros. by apply Htie.
    + intros prev pp ci ri -> Hri. by at_row ri.
  - at_row row. apply (range_loop (range_sense st) false false e row count EXPR_FOLLOWING_RANGE _
      (fun prev pp ri => mkFrame (vb ri) (if negb (pb ri =? pp) then ve ri else fb_end prev))
      (fun prev w => mkFrame (fb_start prev) w) peer_e ve); try done; try lia.
    + intros i Hi. apply hint_fresh_end; try done; try lia. right. intros _ j Hj Hpbj.
      rewrite (ve_pb partition_mask order_mask range pc oc N j i Hpbj). lia.
    + apply hint_fresh_end; try done; try lia. right. intros _ j Hj Hpbj. cbn [fb_end].
      apply Z.eq_le_incl, (ve_pb partition_mask order_mask range pc oc N j row Hpbj).
    + intros prev pp ci ri -> Hri. by at_row ri.
  - apply stores_shared; auto using peer_e_nested; done || lia.
  - apply (groups_loop (fun i => groups_offset e (i - row) (peer_e i)
      (fun n => fst (FindPrevStart order_mask (pb i) (peer_e i) n)))); [lia | |].
    + intros i Hi. apply groups_offset_ext. intros n Hg.
      pose proof (peer_e_nested i ltac:(lia)). pose proof (pe_range partition_mask pc oc N i ltac:(lia)).
      pose proof (pb_range partition_mask pc oc i ltac:(lia)). by rewrite FindPrevStart_nth by lia.
    + intros ci i -> Hi. by at_row i.
  - apply (groups_loop (fun i => groups_offset e (i - row) (peer_e i)
      (fun n => fst (FindNextStart order_mask (peer_e i + 1) (pe i) n)))); [lia | |].
    + intros i Hi. apply groups_offset_ext. intros n Hg.
      pose proof (peer_e_nested i ltac:(lia)). pose proof (pe_range partition_mask pc oc N i ltac:(lia)).
      pose proof (pb_range partition_mask pc oc i ltac:(lia)). apply FindNextStart_nth; lia.
    + intros ci i -> Hi. by at_row i.
Qed.
End frames.

(** ** The set of bounds *)

Section sets.
Implicit Types (s bs : list WindowBounds) (b : WindowBounds).

Lemma required_insert s bs b :
  required_count (insert_bounds s bs) b = required_count bs b || required_count s b.
Proof.
  unfold required_count, insert_bounds. apply eq_bool_prop_intro.
  rewrite !orb_True, !bool_decide_spec. apply elem_of_app.
Qed.

Lemma required_when (c : bool) bs b : required_count (when c bs) b = c && required_count bs b.
Proof. by destruct c. Qed.

Lemma required_cons b' bs b : required_count (b' :: bs) b = bool_decide (b = b') || required_count bs b.
Proof.
  unfold required_count. apply eq_bool_prop_intro. rewrite !orb_True, !bool_decide_spec. apply elem_of_cons.
Qed.

Lemma required_nil b : required_count [] b = false.
Proof. unfold required_count. by rewrite bool_decide_false by apply not_elem_of_nil. Qed.
End sets.

Ltac required_simpl :=
  repeat first [rewrite required_insert | rewrite required_when | rewrite required_cons | rewrite required_nil];
  repeat match goal with
  | |- context [bool_decide (?a = ?b)] =>
      (rewrite (bool_decide_true (a = b)) by reflexivity) || (rewrite (bool_decide_false (a = b)) by discriminate)
  end;
  rewrite ?andb_false_r, ?orb_false_r, ?andb_true_r, ?orb_true_r, ?orb_true_l, ?orb_false_l.

(** The ends of the valid range are needed together with its start, except by a
    frame that starts at a following RANGE offset. *)
Lemma valid_end_needs (w : BoundWindowExpression) fs :
  function_bounds w = Ok fs ->
  (required_count fs VALID_END = true -> required_count fs VALID_BEGIN = true) /\
  (required_count (start_bounds (wexpr_start w)) VALID_END = true ->
    required_count (start_bounds (wexpr_start w)) VALID_BEGIN = true \/ HasFollowingRange w = true) /\
  (required_count (end_bounds (wexpr_end w)) VALID_END = true ->
    required_count (end_bounds (wexpr_end w)) VALID_BEGIN = true).
Proof.
  intros Hf. split_and!.
  - unfold function_bounds in Hf. by destruct (expr_type w), (arg_orders w =? 0); try done; injection Hf as <-.
  - unfold HasFollowingRange. by destruct (wexpr_start w); auto.
  - by destruct (wexpr_end w).
Qed.

(** The set of a function whose frame is needed holds what the frame reads. *)
Definition frame_columns (w : BoundWindowExpression) : list WindowBounds :=
  [PARTITION_BEGIN; PARTITION_END] ++ start_bounds (wexpr_start w) ++ end_bounds (wexpr_end w).

Lemma GetWindowBounds_closed_set w s :
  GetWindowBounds w = Ok s ->
  closed_bounds s (partitions w) (Z.of_nat (length (orders w))) = true /\
  (required_count s FRAME_BEGIN || required_count s FRAME_END = true ->
    forall b, b ∈ frame_columns w -> required_count s b = true).
Proof.
  unfold GetWindowBounds. destruct (function_bounds w) as [fs | x] eqn:Hf; [| done].
  cbn [mbind res_bind]. destruct (valid_end_needs w fs Hf) as (V1 & V2 & V3).
  set (all0 := partitions w + _ =? 0). set (oc0 := Z.of_nat _ =? 0).
  set (base := if required_count fs FRAME_BEGIN || required_count fs FRAME_END then _ else fs).
  assert (required_count base VALID_END = true ->
    required_count base VALID_BEGIN = true \/ HasFollowingRange w = true) as HV.
  { unfold base. destruct (_ || _); [| by auto]. required_simpl.
    destruct (required_count (end_bounds _) VALID_END); [by rewrite V3; auto |].
    destruct (required_count (start_bounds _) VALID_END).
    { destruct (V2 eq_refl) as [-> | ->]; rewrite ?orb_true_r; auto. }
    rewrite ?orb_false_l. intros ->%V1. rewrite !orb_true_r. by left. }
  assert (required_count base FRAME_BEGIN || required_count base FRAME_END = true ->
    forall b, b ∈ frame_columns w -> required_count base b = true) as HF.
  { unfold base. destruct (required_count fs FRAME_BEGIN || required_count fs FRAME_END) eqn:E; cycle 1.
    { by rewrite E. }
    intros _ b Hb. unfold required_count, insert_bounds. apply bool_decide_eq_true.
    unfold frame_columns in Hb. rewrite !elem_of_app in *. tauto. }
  clearbody base. intros [= <-]. split.
  - unfold closed_bounds. fold all0 oc0.
    assert (HF' : required_count base FRAME_BEGIN || required_count base FRAME_END = true ->
      required_count base PARTITION_BEGIN = true /\ required_count base PARTITION_END = true).
    { intros Hb. split; apply (HF Hb); set_solver. }
    clear -HF' HV. required_simpl.
    revert HF' HV. clearbody all0 oc0.
    generalize (required_count base FRAME_BEGIN), (required_count base FRAME_END),
      (required_count base PARTITION_BEGIN), (required_count base PARTITION_END),
      (required_count base VALID_END), (required_count base VALID_BEGIN), (HasFollowingRange w),
      (required_count base PEER_END), (required_count base PEER_BEGIN).
    intros fb fe pb pe ve vb hf qe qb HF' HV.
    assert (implb (fb || fe) (pb && pe) = true /\ implb ve (vb || hf) = true) as [H1 H2].
    { split.
      - destruct (fb || fe); [| done]. destruct (HF' eq_refl) as [-> ->]. done.
      - destruct ve; [| done]. destruct (HV eq_refl) as [-> | ->]; [done | by rewrite orb_true_r]. }
    clear HF' HV. revert H1 H2.
    by destruct fb, fe, pb, pe, ve, vb, hf, qe, qb, all0, oc0.
  - intros Hs b Hb. revert Hs. required_simpl. intros Hs. rewrite (HF Hs b Hb). by rewrite !orb_true_r.
Qed.

(** Membership in a list of constructors. *)
Ltac in_list := apply (bool_decide_unpack _); vm_compute; exact I.

Lemma start_bounds_columns b : FRAME_BEGIN ∉ start_bounds b /\ FRAME_END ∉ start_bounds b.
Proof. destruct b; split; in_list. Qed.

Lemma end_bounds_columns b : FRAME_BEGIN ∉ end_bounds b /\ FRAME_END ∉ end_bounds b.
Proof. destruct b; split; in_list. Qed.

Lemma frame_columns_columns w : FRAME_BEGIN ∉ frame_columns w /\ FRAME_END ∉ frame_columns w.
Proof.
  unfold frame_columns. rewrite !elem_of_app.
  pose proof (start_bounds_columns (wexpr_start w)). pose proof (end_bounds_columns (wexpr_end w)).
  assert (FRAME_BEGIN ∉ [PARTITION_BEGIN; PARTITION_END]) by in_list.
  assert (FRAME_END ∉ [PARTITION_BEGIN; PARTITION_END]) by in_list. tauto.
Qed.

Lemma frame_columns_partition w : PARTITION_BEGIN ∈ frame_columns w /\ PARTITION_END ∈ frame_columns w.
Proof. unfold frame_columns. rewrite !elem_of_app. split; left; in_list. Qed.

Lemma frame_columns_start w b : b ∈ start_bounds (wexpr_start w) -> b ∈ frame_columns w.
Proof. unfold frame_columns. rewrite !elem_of_app. auto. Qed.

Lemma frame_columns_end w b : b ∈ end_bounds (wexpr_end w) -> b ∈ frame_columns w.
Proof. unfold frame_columns. rewrite !elem_of_app. auto. Qed.

(** What the boundaries ask for. *)
Lemma start_peer b : start_bounds b <> [] -> PEER_BEGIN ∈ start_bounds b.
Proof. destruct b; try done; intros _; in_list. Qed.

Lemma end_peer b : end_bounds b <> [] -> PEER_END ∈ end_bounds b.
Proof. destruct b; try done; intros _; in_list. Qed.

Lemma start_valid b : is_range b = true -> VALID_END ∈ start_bounds b.
Proof. destruct b; try done; intros _; in_list. Qed.

Lemma end_valid b : is_range b = true -> VALID_BEGIN ∈ end_bounds b.
Proof. destruct b; try done; intros _; in_list. Qed.

(** ** Whole chunks *)

Section chunks.
Context {T : Type} `{RangeTypeLaws T} (partition_mask order_mask : ValidityMask) (range : WindowCursor T).
Context (w : BoundWindowExpression) (N : Z).
Abbreviation pc := (partitions w).
Abbreviation oc := (Z.of_nat (length (orders w))).
Abbreviation sense := (match orders w with [] => ORDER_INVALID | o :: _ => o end).
Abbreviation row_bounds' := (row_bounds partition_mask order_mask range pc oc N).

(** The states a thread can be in: fresh, or after any chunk of the rows. *)
Inductive reachable : WindowBoundariesState -> Prop :=
  | reach_new st : WindowBoundariesState_new w N = Ok st -> reachable st
  | reach_chunk st bounds row count e1 e2 bounds' st' :
      reachable st -> 0 <= row -> 0 < count -> row + count <= N ->
      Bounds st bounds row range count e1 e2 partition_mask order_mask = Ok (bounds', st') ->
      reachable st'.

(** What the code relies on: masks as ComputeMasks builds them, and an ORDER BY
    or PARTITION BY when the non-NULL range is needed. *)
Record window_ok : Prop := {
  wo_masks : masks_ok partition_mask order_mask pc oc N;
  wo_valid : forall s, GetWindowBounds w = Ok s -> required_count s VALID_BEGIN = true -> pc + oc <> 0
}.
Hypothesis Hok : window_ok.

Record state_for (st : WindowBoundariesState) : Prop := {
  sf_ok : state_ok partition_mask order_mask range pc oc N st;
  sf_required : GetWindowBounds w = Ok (required st);
  sf_start : start_boundary st = wexpr_start w;
  sf_end : end_boundary st = wexpr_end w;
  sf_sense : range_sense st = sense
}.

Lemma Columns_config st bounds row count :
  let st' := snd (Columns st bounds row range count partition_mask order_mask) in
  required st' = required st /\ start_boundary st' = start_boundary st /\
  end_boundary st' = end_boundary st /\ range_sense st' = range_sense st.
Proof.
  unfold Columns. repeat (destruct (column_step _ _ _ _ _)). done.
Qed.

Lemma Columns_state_for st bounds row count :
  state_for st -> 0 <= row -> 0 < count -> row + count <= N ->
  state_for (snd (Columns st bounds row range count partition_mask order_mask)).
Proof.
  intros Hst Hrow Hc Hn.
  destruct (Columns_rows partition_mask order_mask range pc oc N (wo_masks Hok) st bounds row count
    (sf_ok _ Hst) Hrow Hc Hn) as (? & _).
  destruct (Columns_config st bounds row count) as (E1 & E2 & E3 & E4).
  constructor; rewrite ?E1, ?E2, ?E3, ?E4; [done | apply Hst..].
Qed.

Lemma reachable_state_for st : reachable st -> 0 <= N -> state_for st.
Proof.
  intros Hr HN. induction Hr as [st Hnew | st bounds row count e1 e2 bounds' st' Hr IH Hrow Hc Hn Hb].
  - unfold WindowBoundariesState_new in Hnew. destruct (GetWindowBounds w) as [s |] eqn:E; [| done].
    injection Hnew as <-. destruct (GetWindowBounds_closed_set w s E) as [Hcl _].
    constructor; try done. constructor; try done. intros Hv. by apply (wo_valid Hok s).
  - pose proof (Columns_state_for st bounds row count IH Hrow Hc Hn) as Hst'.
    unfold Bounds in Hb. destruct (Columns _ _ _ _ _ _ _) as [c st2]. simpl in Hst'.
    destruct (if required_count _ FRAME_BEGIN then _ else _) as [c1 |]; [| done].
    cbn [mbind res_bind] in Hb.
    destruct (if required_count _ FRAME_END then _ else _) as [c2 |]; [| done]. by injection Hb as _ <-.
Qed.

Abbreviation rows_of row count := (zrange row (row + count)).

(** The boundary expressions of a chunk. *)
Record inputs_ok (row count : Z) (e1 e2 : WindowInputExpression T) : Prop := {
  io_start : is_range (wexpr_start w) = true ->
    forall i, row <= i < row + count -> range_ready partition_mask order_mask range pc oc N sense e1 row i;
  io_end : is_range (wexpr_end w) = true ->
    forall i, row <= i < row + count -> range_ready partition_mask order_mask range pc oc N sense e2 row i;
  io_tie : wexpr_end w = EXPR_PRECEDING_RANGE -> forall i, row <= i < row + count ->
    InputIsNull e2 (i - row) = false ->
    no_tie partition_mask order_mask range pc oc N sense i (GetCell e2 (i - row))
}.

(** The frames of a chunk, row by row. *)
Definition frame_begins row count e1 : res (list Z) :=
  mapM (frame_begin_row partition_mask order_mask range pc oc N sense (wexpr_start w) e1 row)
    (rows_of row count).
Definition frame_ends row count e2 : res (list Z) :=
  mapM (frame_end_row partition_mask order_mask range pc oc N sense (wexpr_end w) e2 row)
    (rows_of row count).

(** The columns the frames read. *)
Lemma frame_holds st c row count :
  state_for st ->
  (forall b, required_count (required st) b = true -> b <> FRAME_BEGIN -> b <> FRAME_END ->
    c b = row_bounds' b <$> rows_of row count) ->
  required_count (required st) FRAME_BEGIN || required_count (required st) FRAME_END = true ->
  (forall b, b ∈ VALID_BEGIN :: frame_columns w -> (b = VALID_BEGIN -> is_range (wexpr_start w) = true \/
      is_range (wexpr_end w) = true) ->
    holds partition_mask order_mask range pc oc N c row count b).
Proof.
  intros Hst Hcols Hneed b Hb Hv.
  destruct (GetWindowBounds_closed_set w _ (sf_required _ Hst)) as [_ Hfr]. specialize (Hfr Hneed).
  destruct (closed_bounds_facts _ _ _ (so_closed _ _ _ _ _ _ _ (sf_ok _ Hst))) as (_ & _ & _ & C4).
  apply elem_of_cons in Hb as [-> | Hb].
  - apply Hcols; [| done..]. destruct (Hv eq_refl) as [Hr | Hr].
    + apply C4, Hfr, frame_columns_start, start_valid, Hr.
    + apply Hfr, frame_columns_end, end_valid, Hr.
  - destruct (frame_columns_columns w). apply Hcols; [by apply Hfr | by intros -> | by intros ->].
Qed.

Lemma end_hints_ok st st2 bounds c row count :
  state_for st -> state_for st2 -> required st2 = required st -> next_pos st2 = row + count ->
  0 <= row -> 0 < count ->
  (forall b, required_count (required st) b = true -> b <> FRAME_BEGIN -> b <> FRAME_END ->
    c b = row_bounds' b <$> rows_of row count) ->
  (required_count (required st) VALID_END = false -> c VALID_END = bounds VALID_END) ->
  (required_count (required st) VALID_END = true \/ znth 0 (bounds VALID_END) 0 = 0) ->
  end_hints partition_mask order_mask range pc oc N st2 c row count.
Proof.
  intros Hst Hst2 Hreq Hpos Hrow Hc Hcols Hother Hbuf. unfold end_hints.
  destruct (closed_bounds_facts _ _ _ (so_closed _ _ _ _ _ _ _ (sf_ok _ Hst))) as (_ & _ & _ & C4).
  destruct (required_count (required st) VALID_END) eqn:E.
  - right. split; [by apply Hcols |]. destruct (C4 eq_refl) as [Hvb _].
    pose proof (so_ve _ _ _ _ _ _ _ (sf_ok _ Hst2)) as Hve. unfold remembers in Hve.
    rewrite Hreq, Hpos in Hve. apply Hve; [done | | lia].
    by apply (wo_valid Hok _ (sf_required _ Hst)).
  - left. destruct Hbuf as [| Hb]; [done |]. rewrite (Hother eq_refl), Hb. split; [done |].
    rewrite (so_unused _ _ _ _ _ _ _ (sf_ok _ Hst2)); [done |]. by rewrite Hreq.
Qed.

(** The frame steps, given the columns. *)
Lemma FrameBegin_chunk st st2 (c : DataChunk) row count e1 e2 :
  state_for st -> state_for st2 -> 0 <= row -> 0 < count -> row + count <= N -> inputs_ok row count e1 e2 ->
  (forall b, required_count (required st) b = true -> b <> FRAME_BEGIN -> b <> FRAME_END ->
    c b = row_bounds' b <$> rows_of row count) ->
  let need := required_count (required st) FRAME_BEGIN in
  stores (if need then FrameBegin st2 c row count e1 order_mask range else Ok c) c FRAME_BEGIN
    (if need then frame_begins row count e1 else Ok (c FRAME_BEGIN)).
Proof.
  intros Hst Hst' Hrow Hc Hn Hin Hcols need. destruct need eqn:E; [| by exists c]. unfold need in E.
  pose proof (frame_holds st c row count Hst Hcols ltac:(by rewrite E)) as Hh.
  unfold frame_begins. rewrite <- (sf_start _ Hst'), <- (sf_sense _ Hst').
  apply (FrameBegin_rows partition_mask order_mask range pc oc N (wo_masks Hok)); try done.
  - apply Hh; [right; apply frame_columns_partition | done].
  - apply Hh; [right; apply frame_columns_partition | done].
  - intros Hne. apply Hh; [| done]. rewrite (sf_start _ Hst') in Hne.
    right. by apply frame_columns_start, start_peer.
  - intros Hr. rewrite (sf_start _ Hst') in Hr. split_and!.
    + apply Hh; [left | by left].
    + apply Hh; [right | done]. by apply frame_columns_start, start_valid.
    + rewrite (sf_sense _ Hst'). by apply (io_start _ _ _ _ Hin).
Qed.

Lemma FrameEnd_chunk st st2 (c : DataChunk) row count e1 e2 :
  state_for st -> state_for st2 -> 0 <= row -> 0 < count -> row + count <= N -> inputs_ok row count e1 e2 ->
  (forall b, required_count (required st) b = true -> b <> FRAME_BEGIN -> b <> FRAME_END ->
    c b = row_bounds' b <$> rows_of row count) ->
  end_hints partition_mask order_mask range pc oc N st2 c row count ->
  let need := required_count (required st) FRAME_END in
  stores (if need then FrameEnd st2 c row count e2 order_mask range else Ok c) c FRAME_END
    (if need then frame_ends row count e2 else Ok (c FRAME_END)).
Proof.
  intros Hst Hst' Hrow Hc Hn Hin Hcols Hhints need. destruct need eqn:E; [| by exists c]. unfold need in E.
  pose proof (frame_holds st c row count Hst Hcols ltac:(by rewrite E, orb_true_r)) as Hh.
  unfold frame_ends. rewrite <- (sf_end _ Hst'), <- (sf_sense _ Hst').
  apply (FrameEnd_rows partition_mask order_mask range pc oc N (wo_masks Hok)); try done.
  - apply Hh; [right; apply frame_columns_partition | done].
  - apply Hh; [right; apply frame_columns_partition | done].
  - intros Hne. apply Hh; [| done]. rewrite (sf_end _ Hst') in Hne.
    right. by apply frame_columns_end, end_peer.
  - intros Hr. rewrite (sf_end _ Hst') in Hr. split_and!; [| done |].
    + apply Hh; [left | by right].
    + rewrite (sf_sense _ Hst'). by apply (io_end _ _ _ _ Hin).
  - intros Hr. rewrite (sf_end _ Hst') in Hr. apply Hh; [right | done].
    apply frame_columns_end. rewrite Hr. in_list.
  - rewrite (sf_end _ Hst'), (sf_sense _ Hst'). apply (io_tie _ _ _ _ Hin).
Qed.

Lemma Bounds_rows st bounds row count e1 e2 :
  state_for st -> 0 <= row -> 0 < count -> row + count <= N -> inputs_ok row count e1 e2 ->
  (required_count (required st) VALID_END = true \/ znth 0 (bounds VALID_END) 0 = 0) ->
  let need := required_count (required st) in
  let r := Bounds st bounds row range count e1 e2 partition_mask order_mask in
  match (if need FRAME_BEGIN then frame_begins row count e1 else Ok []),
        (if need FRAME_END then frame_ends row count e2 else Ok []) with
  | Throw x, _ => r = Throw x
  | Ok _, Throw x => r = Throw x
  | Ok fb, Ok fe => exists c st', r = Ok (c, st') /\
      (forall b, need b = true -> b <> FRAME_BEGIN -> b <> FRAME_END ->
        c b = row_bounds' b <$> rows_of row count) /\
      (need FRAME_BEGIN = true -> c FRAME_BEGIN = fb) /\
      (need FRAME_END = true -> c FRAME_END = fe)
  end.
Proof.
  intros Hst Hrow Hc Hn Hin Hbuf need r.
  destruct (Columns_rows partition_mask order_mask range pc oc N (wo_masks Hok) st bounds row count
    (sf_ok _ Hst) Hrow Hc Hn) as (_ & Hpos & Hcols & Hother).
  pose proof (Columns_state_for st bounds row count Hst Hrow Hc Hn) as Hst'.
  destruct (Columns_config st bounds row count) as (Ereq & _).
  fold need in Hcols, Hother |- *.
  destruct (Columns _ _ _ _ _ _ _) as [c st2] eqn:EC. cbn [fst snd] in *.
  assert (r = (b1 ← (if need FRAME_BEGIN then FrameBegin st2 c row count e1 order_mask range else Ok c);
               b2 ← (if need FRAME_END then FrameEnd st2 b1 row count e2 order_mask range else Ok b1);
               Ok (b2, st2))) as -> by (unfold r, Bounds; by rewrite EC).
  clear EC.
  pose proof (FrameBegin_chunk st st2 c row count e1 e2 Hst Hst' Hrow Hc Hn Hin Hcols) as Hs1.
  cbv zeta in Hs1. fold need in Hs1.
  pose proof (end_hints_ok st st2 bounds c row count Hst Hst' Ereq Hpos Hrow Hc Hcols
    (fun H => Hother VALID_END (or_introl H)) Hbuf) as Hh.
  destruct (if need FRAME_BEGIN then frame_begins row count e1 else _) as [fb | x] eqn:Efb; cycle 1.
  { destruct (need FRAME_BEGIN) eqn:E; [| done]. rewrite Efb. simpl in Hs1. by rewrite Hs1. }
  destruct Hs1 as (c1 & -> & Hfb & Hc1). cbn [mbind res_bind].
  assert (forall b, need b = true -> b <> FRAME_BEGIN -> b <> FRAME_END ->
    c1 b = row_bounds' b <$> rows_of row count) as Hcols1.
  { intros b Hb ??. rewrite Hc1 by done. by apply Hcols. }
  pose proof (FrameEnd_chunk st st2 c1 row count e1 e2 Hst Hst' Hrow Hc Hn Hin Hcols1) as Hs2.
  cbv zeta in Hs2. fold need in Hs2.
  assert (end_hints partition_mask order_mask range pc oc N st2 c1 row count) as Hh1.
  { unfold end_hints, holds in *. by rewrite !(Hc1 VALID_END). }
  specialize (Hs2 Hh1).
  assert (exists fb', (if need FRAME_BEGIN then frame_begins row count e1 else Ok []) = Ok fb' /\
    (need FRAME_BEGIN = true -> fb' = fb)) as (fb' & -> & Hfb').
  { destruct (need FRAME_BEGIN); [by exists fb | by exists []]. }
  destruct (need FRAME_END) eqn:E; cycle 1.
  { destruct Hs2 as (c2 & [= <-] & _). cbn [mbind res_bind].
    exists c1, st2. split_and!; [done | done | | done]. intros Hb. by rewrite Hfb'. }
  destruct (frame_ends row count e2) as [fe | x]; simpl in Hs2; [| by rewrite Hs2].
  destruct Hs2 as (c2 & -> & Hfe & Hc2). cbn [mbind res_bind]. exists c2, st2. split_and!; try done.
  - intros b Hb ??. rewrite Hc2 by done. by apply Hcols1.
  - intros Hb. by rewrite Hc2, Hfb'.
Qed.
End chunks.

(** ** Properties *)

(** C1. What a chunk of window bounds holds does not depend on the chunks the
    thread evaluated before, nor on their order, nor on the hints carried between
    rows: from every reachable state, for every chunk of the rows, the columns are
    the partition, peer and non-NULL bounds of each row and the frames are the
    frame specification of each row; an invalid frame value throws.

    Two kinds of chunks are excluded, and wrong (two findings).  A frame that ends at a
    RANGE value PRECEDING must end strictly before the row, or at a row without later peers
    ([no_tie] of [inputs_ok]): otherwise the frame splits the peers
    ([range_zero_preceding_ties]).  If VALID_END is not required, the buffer
    must hold 0 in the first row of that column: a frame that ends at a RANGE value
    PRECEDING reads it as a hint ([stale_valid_end_changes_frame]). *)
Theorem Bounds_correct {T} `{RangeTypeLaws T} partition_mask order_mask (range : WindowCursor T) w N
    st bounds row count e1 e2 :
  window_ok partition_mask order_mask w N ->
  reachable partition_mask order_mask range w N st ->
  0 <= row -> 0 < count -> row + count <= N ->
  inputs_ok partition_mask order_mask range w N row count e1 e2 ->
  (required_count (required st) VALID_END = true \/ znth 0 (bounds VALID_END) 0 = 0) ->
  let need := required_count (required st) in
  let r := Bounds st bounds row range count e1 e2 partition_mask order_mask in
  match (if need FRAME_BEGIN then frame_begins partition_mask order_mask range w N row count e1 else Ok []),
        (if need FRAME_END then frame_ends partition_mask order_mask range w N row count e2 else Ok []) with
  | Throw x, _ => r = Throw x
  | Ok _, Throw x => r = Throw x
  | Ok fb, Ok fe => exists c st', r = Ok (c, st') /\
      (forall b, need b = true -> b <> FRAME_BEGIN -> b <> FRAME_END ->
        c b = row_bounds partition_mask order_mask range (partitions w) (Z.of_nat (length (orders w))) N b <$>
              zrange row (row + count)) /\
      (need FRAME_BEGIN = true -> c FRAME_BEGIN = fb) /\
      (need FRAME_END = true -> c FRAME_END = fe)
  end.
Proof.
  intros Hok Hr. intros. apply Bounds_rows; try done. apply reachable_state_for; done || lia.
Qed.

(** The set of bounds computed for a function is closed under what each column
    is computed from, and holds everything its frame reads. *)
Theorem GetWindowBounds_closed w s :
  GetWindowBounds w = Ok s ->
  closed_bounds s (partitions w) (Z.of_nat (length (orders w))) = true /\
  (required_count s FRAME_BEGIN || required_count s FRAME_END = true ->
    forall b, b ∈ frame_columns w -> required_count s b = true).
Proof. apply GetWindowBounds_closed_set. Qed.

(** C33. [FindOrderedRangeBound] on sorted values and with hints at a change of
    value: it throws for a preceding value past the current row or a following one
    before it, and otherwise returns the partition point of the whole range. *)
Theorem FindOrderedRangeBound_correct {T} `{RangeTypeLaws T} (range : WindowCursor T) sense (from : bool) lt
    a b boundary e ci prev :
  sense_lt sense = Some lt -> sorted_on lt (Cell range) a b -> a < b ->
  hint_ok lt (Cell range) a b (if from then fb_start prev else fb_end prev) ->
  (from = true -> fb_end prev <= a \/ b <= fb_end prev) ->
  FindOrderedRangeBound from range range sense a b boundary e ci prev =
    let val := GetCell e ci in
    if (if bool_decide (boundary = EXPR_PRECEDING_RANGE)
        then lt (Cell range (b - 1)) val else lt val (Cell range a))
    then Throw OutOfRangeException
    else Ok (bound_of lt (Cell range) from a b val).
Proof.
  intros Hlt Hs Hab Hh Hend. rewrite FindOrdered_eq.
  - unfold range_bound. by rewrite Hlt.
  - intros lt' Hlt'. replace lt' with lt in * by congruence. pose proof (sense_lt_order _ _ Hlt).
    by apply search_bound_ok.
Qed.

(** C36. FrameBegin and FrameEnd of a ROWS frame compute, for every row of a chunk, the row
    at the signed 64-bit offset, clamped to the partition, without any error of the
    machine arithmetic but one: a start whose sum or difference does not fit 64 bits
    is the beginning of the partition instead of its end. *)
Theorem rows_frame_exact {T} `{RangeTypeLaws T} partition_mask order_mask (range : WindowCursor T) pc oc N st
    (bounds : DataChunk) row count e :
  masks_ok partition_mask order_mask pc oc N -> 0 <= row -> 0 < count -> row + count <= N ->
  let rows := zrange row (row + count) in
  let pb i := part_begin (RowIsValid partition_mask) pc oc i in
  let pe i := part_end (RowIsValid partition_mask) N pc oc i in
  bounds PARTITION_BEGIN = pb <$> rows -> bounds PARTITION_END = pe <$> rows ->
  let off i := as_int64 (GetCell e (i - row)) in
  let clamp i v := Z.min (Z.max v (pb i)) (pe i) in
  let start i v := if v <? 2 ^ 63 then clamp i v else pb i in
  let begins := c ← FrameBegin st bounds row count e order_mask range; Ok (c FRAME_BEGIN) in
  let ends := c ← FrameEnd st bounds row count e order_mask range; Ok (c FRAME_END) in
  (start_boundary st = EXPR_PRECEDING_ROWS -> begins = Ok ((fun i => start i (i - off i)) <$> rows)) /\
  (start_boundary st = EXPR_FOLLOWING_ROWS -> begins = Ok ((fun i => start i (i + off i)) <$> rows)) /\
  (end_boundary st = EXPR_PRECEDING_ROWS -> ends = Ok ((fun i => clamp i (i + 1 - off i)) <$> rows)) /\
  (end_boundary st = EXPR_FOLLOWING_ROWS -> ends = Ok ((fun i => clamp i (i + 1 + off i)) <$> rows)).
Proof.
  intros Hok Hrow Hc Hn rows pb pe Hpb Hpe off clamp start begins ends.
  pose proof (ok_size _ _ _ _ _ Hok) as HN.
  assert (forall (f : Z -> res Z) g, (forall i, row <= i < row + count -> f i = Ok (g i)) -> mapM f rows = Ok (g <$> rows)) as Hmap.
  { intros f g Hf. apply mapM_Ok_fmap. intros i Hi%elem_of_zrange. by apply Hf. }
  assert (forall b, start_boundary st = b -> is_range b = false -> start_bounds b = [] ->
    begins = mapM (frame_begin_row partition_mask order_mask range pc oc N (range_sense st) b e row) rows) as Hbegin.
  { intros b <- Hb Hs. pose proof (FrameBegin_rows partition_mask order_mask range pc oc N Hok st bounds row count e
      Hrow Hc Hn Hpb Hpe ltac:(by rewrite Hs) ltac:(by rewrite Hb)) as Hst.
    by apply stores_column in Hst. }
  assert (forall b, end_boundary st = b -> is_range b = false -> end_bounds b = [] ->
    ends = mapM (frame_end_row partition_mask order_mask range pc oc N (range_sense st) b e row) rows) as Hend.
  { intros b <- Hb Hs. pose proof (FrameEnd_rows partition_mask order_mask range pc oc N Hok st bounds row count e
      Hrow Hc Hn Hpb Hpe ltac:(by rewrite Hs) ltac:(by rewrite Hb) ltac:(by destruct (end_boundary st))
      ltac:(by destruct (end_boundary st))) as Hst.
    by apply stores_column in Hst. }
  split_and!; intros Hb; first [rewrite (Hbegin _ Hb) by done | rewrite (Hend _ Hb) by done]; apply Hmap; intros i Hi;
    pose proof (as_int64_range (GetCell e (i - row))); pose proof (pb_range partition_mask pc oc i ltac:(lia)) as Hpb';
    pose proof (pe_range partition_mask pc oc N i ltac:(lia)) as Hpe';
    unfold start, clamp, frame_begin_row, frame_end_row, frame_start, frame_end, TrySubtract, TryAdd, in_int64,
      rows_offset, clamp_row, off; fold (pb i) (pe i) in Hpb', Hpe' |- *; cbn [mbind res_bind]; f_equal;
    repeat case_match; bool_to_prop; simplify_eq; lia.
Qed.

Section examples.
Definition all_valid_order (entries : list Z) (n : Z) : ValidityMask := mkMask (Some entries) n.
Definition no_input : WindowInputExpression Z := mkInput true (fun _ => 0) (fun _ => true).
Definition constant_input (z : Z) : WindowInputExpression Z := mkInput true (fun _ => z) (fun _ => false).
Definition cells (l : list Z) : WindowCursor Z := mkCursor (znth 0 l) (fun _ => false).
Definition fresh_bounds : DataChunk := fun _ => [].
Definition range_expr (s e : WindowBoundary) : BoundWindowExpression :=
  mkExpr WINDOW_AGGREGATE 1 [ASCENDING] 0 s e NO_OTHER.
Definition column_of (r : res (DataChunk * WindowBoundariesState)) (b : WindowBounds) : option (list Z) :=
  match r with Ok (c, _) => Some (c b) | Throw _ => None end.
Definition run_bounds (w : BoundWindowExpression) (N row count : Z) (bounds : DataChunk)
    (range : WindowCursor Z) (e1 e2 : WindowInputExpression Z) (P O : ValidityMask) (b : WindowBounds)
    : option (list Z) :=
  match WindowBoundariesState_new w N with
  | Ok st => column_of (Bounds st bounds row range count e1 e2 P O) b
  | Throw _ => None
  end.
End examples.

(** A ROWS frame that starts an INT64_MAX FOLLOWING overflows at row 1 and
    starts at the beginning of the partition, while at row 0 it starts at the end. *)
Theorem rows_following_overflow :
  run_bounds (range_expr EXPR_FOLLOWING_ROWS UNBOUNDED_FOLLOWING) 3 0 3 fresh_bounds (cells [1; 2; 3])
    (constant_input (2 ^ 63 - 1)) no_input (all_valid_order [1] 3) (all_valid_order [7] 3) FRAME_BEGIN
  = Some [3; 0; 0].
Proof. vm_compute. reflexivity. Qed.

(** A RANGE frame that ends 0 PRECEDING splits a peer group, and where it does
    depends on the chunks: the second of two peers ends before itself when both are
    in one chunk, and after itself when its chunk starts with it. *)
Theorem range_zero_preceding_ties :
  let w := range_expr UNBOUNDED_PRECEDING EXPR_PRECEDING_RANGE in
  let run row count := run_bounds w 3 row count fresh_bounds (cells [5; 5; 6])
    no_input (mkInput false (fun i => znth 0 [5; 5; 6] (row + i)) (fun _ => false))
    (all_valid_order [1] 3) (all_valid_order [5] 3) FRAME_END in
  run 0 3 = Some [1; 1; 3] /\ run 1 2 = Some [2; 3].
Proof. vm_compute. split; reflexivity. Qed.

(** A frame that ends at a preceding RANGE value reads the column of the ends
    of the non-NULL ranges, which is not computed for it: what the buffer was left
    with changes the frame. *)
Theorem stale_valid_end_changes_frame :
  let w := range_expr UNBOUNDED_PRECEDING EXPR_PRECEDING_RANGE in
  let run stale := run_bounds w 4 3 1 (fun b => if decide (b = VALID_END) then [stale] else [])
    (cells [5; 5; 5; 9]) no_input (mkInput false (fun i => 5) (fun _ => false))
    (all_valid_order [1] 4) (all_valid_order [9] 4) FRAME_END in
  run 0 = Some [3] /\ run 2 = Some [2].
Proof. vm_compute. split; reflexivity. Qed.

(** ** Witnesses *)

Section witness.
Definition w_expr : BoundWindowExpression := range_expr EXPR_PRECEDING_RANGE EXPR_FOLLOWING_RANGE.
Definition w_partitions : ValidityMask := all_valid_order [5] 4.
Definition w_orders : ValidityMask := all_valid_order [15] 4.
Definition w_cells : WindowCursor Z := cells [1; 4; 2; 3].
Definition w_start : WindowInputExpression Z := mkInput false (znth 0 [1; 2]) (fun _ => false).
Definition w_end : WindowInputExpression Z := mkInput false (znth 0 [3; 4]) (fun _ => false).
Definition w_columns : DataChunk := fun b =>
  match b with PARTITION_BEGIN => [2; 2] | PARTITION_END => [4; 4] | _ => [] end.
End witness.

Lemma w_masks_ok : masks_ok w_partitions w_orders 1 1 4.
Proof.
  constructor; [lia | lia | done | done |].
  intros i Hi. assert (i = 0 \/ i = 1 \/ i = 2 \/ i = 3) as [-> | [-> | [-> | ->]]] by lia; done.
Qed.

Lemma w_window_ok : window_ok w_partitions w_orders w_expr 4.
Proof. constructor; [exact w_masks_ok | done]. Qed.

Lemma w_sorted a b : 2 <= a -> b <= 4 -> sorted_on Z.ltb (Cell w_cells) a b.
Proof.
  intros Ha Hb i j Hi Hij Hj. assert (i = 2) as -> by lia. assert (j = 3) as -> by lia. done.
Qed.

Lemma w_inputs_ok : inputs_ok w_partitions w_orders w_cells w_expr 4 2 2 w_start w_end.
Proof.
  constructor; [| | done]; intros _ i Hi _; assert (i = 2 \/ i = 3) as [-> | ->] by lia;
    (split; [by vm_compute | split; [done |]]); intros lt [= <-]; by apply w_sorted.
Qed.

Lemma Bounds_correct_witness :
  exists st c st', WindowBoundariesState_new w_expr 4 = Ok st /\
    Bounds st fresh_bounds 2 w_cells 2 w_start w_end w_partitions w_orders = Ok (c, st') /\
    c FRAME_BEGIN = [2; 2] /\ c FRAME_END = [4; 4].
Proof.
  destruct (WindowBoundariesState_new w_expr 4) as [st | x] eqn:E; [| discriminate].
  pose proof (Bounds_correct w_partitions w_orders w_cells w_expr 4 st fresh_bounds 2 2 w_start w_end
    w_window_ok (reach_new w_partitions w_orders w_cells w_expr 4 st E)
    ltac:(lia) ltac:(lia) ltac:(lia) w_inputs_ok (or_intror eq_refl)) as H.
  injection E as <-. destruct H as (c & st' & Hr & _ & Hb & He).
  eexists. exists c, st'. split; [reflexivity |]. split; [exact Hr |].
  split; [exact (Hb eq_refl) | exact (He eq_refl)].
Defined.

Lemma GetWindowBounds_closed_witness :
  exists s, GetWindowBounds w_expr = Ok s /\ closed_bounds s 1 1 = true.
Proof.
  destruct (GetWindowBounds w_expr) as [s | x] eqn:E; [| discriminate].
  exists s. split; [reflexivity |]. exact (proj1 (GetWindowBounds_closed w_expr s E)).
Defined.

Lemma FindOrderedRangeBound_correct_witness :
  FindOrderedRangeBound true w_cells w_cells ASCENDING 2 4 EXPR_FOLLOWING_RANGE w_end 0 (mkFrame 3 4) = Ok 3.
Proof.
  rewrite (FindOrderedRangeBound_correct w_cells ASCENDING true Z.ltb 2 4 EXPR_FOLLOWING_RANGE w_end 0
    (mkFrame 3 4)).
  - reflexivity.
  - reflexivity.
  - apply w_sorted; lia.
  - lia.
  - intros _ _. reflexivity.
  - right. simpl. lia.
Defined.

Lemma rows_frame_exact_witness :
  exists st c, WindowBoundariesState_new (range_expr EXPR_PRECEDING_ROWS EXPR_FOLLOWING_ROWS) 4 = Ok st /\
    FrameBegin st w_columns 2 2 (constant_input 1) w_orders w_cells = Ok c /\
    c FRAME_BEGIN = [2; 2] /\
    (c ← FrameEnd st w_columns 2 2 (constant_input 1) w_orders w_cells; Ok (c FRAME_END)) = Ok [4; 4].
Proof.
  destruct (WindowBoundariesState_new (range_expr EXPR_PRECEDING_ROWS EXPR_FOLLOWING_ROWS) 4) as [st | x] eqn:E; [| discriminate].
  injection E as <-.
  match goal with |- exists st _, Ok ?s = Ok st /\ _ =>
    pose proof (rows_frame_exact w_partitions w_orders w_cells 1 1 4 s w_columns 2 2 (constant_input 1)
      w_masks_ok ltac:(lia) ltac:(lia) ltac:(lia) eq_refl eq_refl) as H; exists s end.
  destruct H as (Hb & _ & _ & He). specialize (Hb eq_refl). specialize (He eq_refl).
  match type of Hb with mbind _ ?r = _ => destruct r as [c | x]; [| discriminate] end.
  exists c. injection Hb as Hb. split_and!; [done | done | exact Hb | exact He].
Defined.
