(* ===== verification/WindowMasks.v ===== *)
(** * The boundary masks of a hash group

    The MASK stage of execution/operator/aggregate/physical_window.cpp: a scan over the
    chunks of a sorted hash group that compares every row with the one before it
    (WindowDeltaScanner of include/duckdb/function/window/window_collection.hpp) and sets
    the bits of the first row of every partition and of every peer group.  With Merge
    Pruning the chunks are smaller than a vector and threads share the words of the
    masks ([ComputeMasksForSmallRuns]); with the early out the starts of the partitions of
    each chunk are kept for the rank function ([partition_begins]).

    A collection is the list of its chunks, a chunk the list of its rows, a row the list of
    its sort columns.  IS DISTINCT FROM of two values is a parameter.  A result of [None] is an
    access outside of an array or the size of an empty chunk minus one. *)

From S2P Require Import Prelude Validity.

(** ** Comparing rows *)

Section compare.
Context {V : Type} (distinct_from : V -> V -> bool).
Abbreviation Row := (list V).

(** A column of the [i]-th rows differs. *)
Definition column_differs (prev curr : list Row) (c i : nat) : bool :=
  match p ← prev !! i; p !! c, q ← curr !! i; q !! c with
  | Some a, Some b => distinct_from b a
  | _, _ => false
  end.

(** The loop of [DistinctSelectStruct<DistinctFrom>] over the columns: what differs in a
    column is appended to the true selection, and the rest goes to the next column; what
    is left after the last one is the false selection. *)
Fixpoint DistinctSelectStruct (prev curr : list Row) (columns : list nat) (slice_sel true_opt false_opt : list nat)
    : list nat * list nat :=
  match columns with
  | [] => (true_opt, false_opt)
  | c :: columns =>
      let true_opt := true_opt ++ List.filter (column_differs prev curr c) slice_sel in
      let slice_sel := List.filter (fun i => negb (column_differs prev curr c i)) slice_sel in
      match columns with
      | [] => (true_opt, false_opt ++ slice_sel)
      | _ => DistinctSelectStruct prev curr columns slice_sel true_opt false_opt
      end
  end.

(** [DistinctFrom] of the prefix of the columns [begin, end). *)
Definition DistinctFrom (begin end_ : nat) (prev curr : list Row) (count : nat) : list nat * list nat :=
  DistinctSelectStruct prev curr (seq begin (end_ - begin)) (seq 0 count) [] [].

(** ** The scanner *)

Abbreviation Chunk := (list Row).
Abbreviation Collection := (list Chunk).

Record Scanner := {
  (* ColumnDataScanState *)
  chunk_index : nat;
  scan_current : Z;
  scan_next : Z;
  (* WindowCollectionChunkScanner *)
  curr_idx : nat
}.

Definition Scanner_new : Scanner := {| chunk_index := 0; scan_current := 0; scan_next := 0; curr_idx := 0 |}.

Definition NextScanIndex (collection : Collection) (s : Scanner) : option nat * Scanner :=
  match collection !! chunk_index s with
  | None => (None, {| chunk_index := chunk_index s; scan_current := scan_next s; scan_next := scan_next s;
                      curr_idx := curr_idx s |})
  | Some chunk =>
      (Some (chunk_index s),
       {| chunk_index := S (chunk_index s); scan_current := scan_next s;
          scan_next := scan_next s + Z.of_nat (length chunk); curr_idx := curr_idx s |})
  end.

Definition PrevScanIndex (collection : Collection) (s : Scanner) : Scanner :=
  match chunk_index s with
  | S (S i) =>
      {| chunk_index := S i; scan_next := scan_current s;
         scan_current := scan_current s - Z.of_nat (length (default [] (collection !! i))); curr_idx := curr_idx s |}
  | _ => s
  end.

Definition set_curr_idx (i : nat) (s : Scanner) : Scanner :=
  {| chunk_index := chunk_index s; scan_current := scan_current s; scan_next := scan_next s; curr_idx := i |}.

(** [WindowCollectionChunkScanner::Seek] *)
Definition ScannerSeek (collection : Collection) (begin_idx : nat) (s : Scanner) : Scanner :=
  let s := Nat.iter (curr_idx s - begin_idx)
             (fun s => set_curr_idx (pred (curr_idx s)) (PrevScanIndex collection s)) s in
  Nat.iter (begin_idx - curr_idx s)
    (fun s => set_curr_idx (S (curr_idx s)) (snd (NextScanIndex collection s))) s.

Definition ScannerAt (collection : Collection) (begin_idx : nat) : Scanner :=
  ScannerSeek collection begin_idx Scanner_new.

(** [Scan]: the chunk, if there is one. *)
Definition Scan (collection : Collection) (s : Scanner) : option Chunk * Scanner :=
  let '(i, s) := NextScanIndex collection s in
  (i ← i; collection !! i, set_curr_idx (S (curr_idx s)) s).

Definition Scanned (s : Scanner) : Z := scan_next s.

(** ** The delta scanner *)

(** The arguments of one call of the operation. *)
Record DeltaCall := {
  call_row : Z;
  call_prev : list Row;
  call_curr : list Row;
  call_distinct : list nat;
  call_matching : list nat;
  call_block : nat
}.

Definition delta_call (key_count : nat) (row_idx : Z) (prev curr : list Row) (count block_curr : nat) : DeltaCall :=
  let '(distinct, matching) := DistinctFrom 0 key_count prev curr count in
  {| call_row := row_idx; call_prev := prev; call_curr := curr; call_distinct := distinct;
     call_matching := match distinct with [] => seq 0 count | _ => matching end;
     call_block := block_curr |}.

(** The loop; the results of the operation do not change what it does. *)
Fixpoint delta_loop (fuel : nat) (collection : Collection) (key_count block_end : nat) (block_curr : nat)
    (boundary_compare : bool) (row_idx : Z) (s : Scanner) (scanned : Chunk) : option (list DeltaCall) :=
  match fuel with
  | O => None
  | S fuel =>
      if (block_end <=? block_curr)%nat then Some []
      else if boundary_compare then
        delayed ← last scanned;
        let block_curr := S block_curr in
        let row_idx := Scanned s in
        if (block_end <=? block_curr)%nat then Some []
        else
          match Scan collection s with
          | (None, _) => Some []
          | (Some scanned, s) =>
              calls ← delta_loop fuel collection key_count block_end block_curr false (row_idx + 1) s scanned;
              Some (delta_call key_count row_idx [delayed] scanned 1 block_curr :: calls)
          end
      else
        match scanned with
        | [] => None
        | _ :: next =>
            let count := length next in
            if (count =? 0)%nat
            then delta_loop fuel collection key_count block_end block_curr true row_idx s scanned
            else
              calls ← delta_loop fuel collection key_count block_end block_curr true (row_idx + Z.of_nat count) s scanned;
              Some (delta_call key_count row_idx scanned next count block_curr :: calls)
        end
  end.

Definition WindowDeltaScanner (collection : Collection) (block_begin block_end key_count : nat)
    : option (list DeltaCall) :=
  if (length (mjoin collection) =? 0)%nat then Some []
  else
    let block_curr := if (block_begin =? 0)%nat then 0%nat else pred block_begin in
    match Scan collection (ScannerAt collection block_curr) with
    | (None, _) => Some []
    | (Some scanned, s) =>
        delta_loop (S (3 * (block_end - block_curr))) collection key_count block_end block_curr
          (0 <? block_begin)%nat 1 s scanned
    end.
End compare.
Arguments DeltaCall : clear implicits.

(** ** Masks *)

Record GroupMasks := {
  partition_mask : ValidityMask;
  order_masks : list (nat * ValidityMask);
  partition_begins : list (list Z)
}.

(** What ComputeMasks reads of the group and of the operator. *)
Record MaskInput (V : Type) := {
  rows : list (list (list V));
  (* count *)
  row_count : Z;
  (* partitions.size() + orders.size() of the functions *)
  order_keys : list nat;
  (* partitions.size() *)
  key_count : nat;
  (* sort is set *)
  is_sorted : bool;
  (* SET_BEGINS *)
  set_begins : bool;
  (* block_sums, with Merge Pruning *)
  block_sums : list Z
}.
Arguments rows {V} _.
Arguments row_count {V} _.
Arguments order_keys {V} _.
Arguments key_count {V} _.
Arguments is_sorted {V} _.
Arguments set_begins {V} _.
Arguments block_sums {V} _.

(** The constructor of [WindowHashGroup]: the running sums of the sizes of the chunks. *)
Fixpoint running_sums (block_sum : Z) (block_counts : list Z) : list Z :=
  match block_counts with
  | [] => []
  | c :: block_counts => (block_sum + c) :: running_sums (block_sum + c) block_counts
  end.

Definition WindowHashGroup_blocks (early_out shrink_runs : bool) {V} (rows : list (list (list V)))
    : list (list Z) * list Z :=
  (if early_out then replicate (length rows) [] else [],
   if shrink_runs then running_sums 0 ((fun chunk => Z.of_nat (length chunk)) <$> rows) else []).

Section compute.
Context {V : Type} (distinct_from : V -> V -> bool) (input : MaskInput V).

Definition find_order (k : nat) (masks : list (nat * ValidityMask)) : option ValidityMask :=
  '(_, e) ← list_find (fun e => fst e = k) masks; Some (snd e).

Fixpoint allocate_orders (keys : list nat) (masks : list (nat * ValidityMask)) : list (nat * ValidityMask) :=
  match keys with
  | [] => masks
  | k :: keys =>
      if bool_decide (k ∈ (fst <$> masks)) then allocate_orders keys masks
      else allocate_orders keys (masks ++ [(k, Initialize (row_count input))])
  end.

Definition AllocateMasks (g : GroupMasks) : GroupMasks :=
  if IsMaskSet (partition_mask g) then g
  else {| partition_mask := Initialize (row_count input);
          order_masks := allocate_orders (order_keys input) (order_masks g);
          partition_begins := partition_begins g |}.

(** An operation on all order masks. *)
Definition for_orders (f : nat -> ValidityMask -> option ValidityMask) (g : GroupMasks) : option GroupMasks :=
  masks ← mapM (fun e : nat * ValidityMask => m ← f (fst e) (snd e); Some (fst e, m)) (order_masks g);
  Some {| partition_mask := partition_mask g; order_masks := masks; partition_begins := partition_begins g |}.

Definition on_partition (f : ValidityMask -> option ValidityMask) (g : GroupMasks) : option GroupMasks :=
  m ← f (partition_mask g);
  Some {| partition_mask := m; order_masks := order_masks g; partition_begins := partition_begins g |}.

Definition push_begin (block : nat) (row : Z) (g : GroupMasks) : option GroupMasks :=
  if set_begins input then
    begins ← partition_begins g !! block;
    Some {| partition_mask := partition_mask g; order_masks := order_masks g;
            partition_begins := <[block := begins ++ [row]]> (partition_begins g) |}
  else Some g.

(** The partition boundary of one distinct row. *)
Definition partition_boundary (call : DeltaCall V) (g : GroupMasks) (i : nat) : option GroupMasks :=
  let curr_index := call_row call + Z.of_nat i in
  g ← on_partition (fun m => SetValidUnsafe m curr_index) g;
  g ← push_begin (call_block call) curr_index g;
  for_orders (fun _ m => SetValidUnsafe m curr_index) g.

(** The rows of a chunk at the first [n] indices of a selection. *)
Definition slice_rows (sel : list nat) (n : nat) (chunk : list (list V)) : option (list (list V)) :=
  mapM (fun i => chunk !! i) (take n sel).

(** The peers within the partitions of one order mask. *)
Definition peer_boundaries (call : DeltaCall V) (nmatch order : nat) (m : ValidityMask) : option ValidityMask :=
  if (key_count input =? order)%nat then Some m
  else
    prev ← (if (length (call_distinct call) =? 0)%nat then Some (call_prev call)
            else slice_rows (call_matching call) nmatch (call_prev call));
    curr ← (if (length (call_distinct call) =? 0)%nat then Some (call_curr call)
            else slice_rows (call_matching call) nmatch (call_curr call));
    let distinct := fst (DistinctFrom distinct_from (key_count input) order prev curr nmatch) in
    ofold (fun m i => matching ← call_matching call !! i;
                      SetValidUnsafe m (call_row call + Z.of_nat matching)) m distinct.

(** One call of the operation. *)
Definition process_delta (g : GroupMasks) (call : DeltaCall V) : option GroupMasks :=
  g ← ofold (partition_boundary call) g (call_distinct call);
  let count := (length (call_prev call) `min` length (call_curr call))%nat in
  let nmatch := (count - length (call_distinct call))%nat in
  if (nmatch =? 0)%nat then Some g else for_orders (peer_boundaries call nmatch) g.

(** The first part of ComputeMasks: the entries of the task are cleared and the first
    row is set.  [None] of the second result: there is nothing to scan. *)
Definition first_row (block_begin : nat) (m : ValidityMask) : option ValidityMask :=
  if (block_begin =? 0)%nat then SetValidUnsafe m 0 else Some m.

Definition clear_masks (clear : ValidityMask -> option ValidityMask) (block_begin : nat) (g : GroupMasks)
    : option GroupMasks :=
  let init m := m ← clear m; first_row block_begin m in
  g ← on_partition init g;
  for_orders (fun _ => init) g.

Definition block_calls (block_begin block_end : nat) : option (list (DeltaCall V)) :=
  if is_sorted input then WindowDeltaScanner distinct_from (rows input) block_begin block_end (key_count input)
  else Some [].

(** The rows that a task covers as entries of the masks. *)
Definition task_entries (block_begin block_end : nat) : Z * Z :=
  (EntryCount (Z.of_nat block_begin * STANDARD_VECTOR_SIZE),
   EntryCount (Z.min (Z.of_nat block_end * STANDARD_VECTOR_SIZE) (row_count input))).

Definition begin_masks (block_begin block_end : nat) (g : GroupMasks) : option (GroupMasks * list (DeltaCall V)) :=
  let '(begin_entry, end_entry) := task_entries block_begin block_end in
  if end_entry <=? begin_entry then
    (* no columns to sort by: [sort_col_count] is zero *)
    if is_sorted input then None else Some (g, [])
  else
    g ← clear_masks (fun m => SetRangeInvalid m (row_count input) begin_entry end_entry) block_begin g;
    calls ← block_calls block_begin block_end;
    Some (g, calls).

Definition ComputeMasks (block_begin block_end : nat) (g : GroupMasks) : option GroupMasks :=
  '(g, calls) ← begin_masks block_begin block_end (AllocateMasks g);
  ofold process_delta g calls.

(** The part of ComputeMasksForSmallRuns behind the allocation, under [block_mutex]. *)
Definition small_masks (block_begin block_end : nat) (g : GroupMasks) : option GroupMasks :=
  begin_count ← (if (block_begin =? 0)%nat then Some 0 else block_sums input !! pred block_begin);
  end_count ← block_sums input !! pred block_end;
  let '(begin_entry, begin_idx) := GetEntryIndex begin_count in
  let '(end_entry, end_idx) := GetEntryIndex end_count in
  g ← clear_masks (fun m => SetEntryRangeInvalid m (row_count input) begin_entry begin_idx end_entry end_idx)
        block_begin g;
  calls ← block_calls block_begin block_end;
  ofold process_delta g calls.

Definition ComputeMasksForSmallRuns (block_begin block_end : nat) (g : GroupMasks) : option GroupMasks :=
  small_masks block_begin block_end (AllocateMasks g).
End compute.
