(* ===== verification/WindowMasksInvariant.v ===== *)
(** * The boundary masks: proofs

    What one call of the delta scanner sets, that the calls of a task cover its rows, and
    what the masks hold afterwards.  The state of the masks is seen through a view: the
    bit of every row in the partition mask and in each order mask, and the starts kept
    for each block. *)

From S2P Require Import Prelude Validity WindowMasks.

(** ** Selections *)

Section compare.
Context {V : Type} (distinct_from : V -> V -> bool).
Abbreviation Row := (list V).
Implicit Types (prev curr : list Row).

(** Some column of a list differs. *)
Definition rows_differ prev curr (columns : list nat) (i : nat) : bool :=
  existsb (fun c => column_differs distinct_from prev curr c i) columns.

Lemma filter_filter {A} (f g : A -> bool) l :
  List.filter f (List.filter g l) = List.filter (fun x => g x && f x) l.
Proof.
  induction l as [| x l IH]; [done |]. cbn. destruct (g x); cbn; [| done]. destruct (f x); by rewrite IH.
Qed.

Lemma filter_or_perm {A} (f g : A -> bool) l :
  List.filter f l ++ List.filter g (List.filter (fun x => negb (f x)) l) ≡ₚ List.filter (fun x => f x || g x) l.
Proof.
  induction l as [| x l IH]; [done |]. cbn. destruct (f x); cbn; [by rewrite IH |].
  destruct (g x); [| done]. by rewrite <- IH, Permutation_middle.
Qed.

Lemma DistinctSelectStruct_true prev curr columns slice t f :
  fst (DistinctSelectStruct distinct_from prev curr columns slice t f) ≡ₚ
    t ++ List.filter (rows_differ prev curr columns) slice.
Proof.
  revert slice t f. induction columns as [| c columns IH]; intros slice t f.
  { cbn. rewrite (List.filter_ext_in _ (fun _ => false)) by done.
    assert (forall l : list nat, List.filter (fun _ => false) l = []) as -> by (by intros l; induction l).
    by rewrite app_nil_r. }
  assert (fst (DistinctSelectStruct distinct_from prev curr (c :: columns) slice t f) ≡ₚ
    (t ++ List.filter (column_differs distinct_from prev curr c) slice) ++
    List.filter (rows_differ prev curr columns) (List.filter (fun i => negb (column_differs distinct_from prev curr c i)) slice))
    as ->.
  { destruct columns as [| c' columns]; [| apply IH]. cbn [DistinctSelectStruct fst].
    rewrite (List.filter_ext_in (rows_differ prev curr []) (fun _ => false)) by done.
    assert (forall l : list nat, List.filter (fun _ => false) l = []) as -> by (by intros l; induction l).
    by rewrite app_nil_r. }
  by rewrite <- app_assoc, filter_or_perm.
Qed.

Lemma DistinctSelectStruct_false prev curr columns slice t f :
  columns <> [] ->
  snd (DistinctSelectStruct distinct_from prev curr columns slice t f) =
    f ++ List.filter (fun i => negb (rows_differ prev curr columns i)) slice.
Proof.
  intros Hne. revert slice t. induction columns as [| c columns IH]; intros slice t; [done |].
  destruct columns as [| c' columns].
  - cbn. f_equal. apply List.filter_ext. intros i. by rewrite orb_false_r.
  - change (snd (DistinctSelectStruct distinct_from prev curr (c' :: columns)
      (List.filter (fun i => negb (column_differs distinct_from prev curr c i)) slice)
      (t ++ List.filter (column_differs distinct_from prev curr c) slice) f) =
      f ++ List.filter (fun i => negb (rows_differ prev curr (c :: c' :: columns) i)) slice).
    rewrite IH by done. f_equal. rewrite filter_filter. apply List.filter_ext. intros i.
    unfold rows_differ. cbn [existsb]. by rewrite <- negb_orb.
Qed.

(** With a single column the true selection is in order. *)
Lemma DistinctFrom_single c prev curr count :
  fst (DistinctFrom distinct_from c (S c) prev curr count) =
    List.filter (rows_differ prev curr [c]) (seq 0 count).
Proof.
  unfold DistinctFrom. replace (S c - c)%nat with 1%nat by lia. cbn. apply List.filter_ext. intros i.
  unfold rows_differ. cbn. by rewrite orb_false_r.
Qed.

Lemma DistinctFrom_true b e prev curr count :
  fst (DistinctFrom distinct_from b e prev curr count) ≡ₚ List.filter (rows_differ prev curr (seq b (e - b))) (seq 0 count).
Proof. apply DistinctSelectStruct_true. Qed.

(** ** Calls *)

Context (collection : list (list Row)) (key : nat).
Abbreviation all := (mjoin collection).

(** Row [i] differs from the row before it in the columns [b, e). *)
Definition row_changes (b e : nat) (i : Z) : bool :=
  rows_differ all (tail all) (seq b (e - b)) (Z.to_nat (i - 1)).

Definition block_start (i : nat) : Z := Z.of_nat (length (mjoin (take i collection))).

Definition call_length (c : DeltaCall V) : nat := (length (call_prev c) `min` length (call_curr c))%nat.

Record call_ok (c : DeltaCall V) : Prop := {
  call_first : 1 <= call_row c;
  call_last : call_row c + Z.of_nat (call_length c) <= Z.of_nat (length all);
  call_rows_prev j : (j < call_length c)%nat -> call_prev c !! j = all !! (Z.to_nat (call_row c - 1) + j)%nat;
  call_rows_curr j : (j < call_length c)%nat -> call_curr c !! j = all !! (Z.to_nat (call_row c) + j)%nat;
  call_true : call_distinct c = fst (DistinctFrom distinct_from 0 key (call_prev c) (call_curr c) (call_length c));
  call_false : call_matching c =
    List.filter (fun j => negb (rows_differ (call_prev c) (call_curr c) (seq 0 key) j)) (seq 0 (call_length c))
}.

Lemma call_differs c columns j :
  call_ok c -> (j < call_length c)%nat ->
  rows_differ (call_prev c) (call_curr c) columns j =
    rows_differ all (tail all) columns (Z.to_nat (call_row c + Z.of_nat j - 1)).
Proof.
  intros [H1 _ Hp Hc _ _] Hj. unfold rows_differ.
  assert (forall col, column_differs distinct_from (call_prev c) (call_curr c) col j =
    column_differs distinct_from all (tail all) col (Z.to_nat (call_row c + Z.of_nat j - 1))) as E.
  { intros col. unfold column_differs. rewrite Hp, Hc, lookup_tail by done.
    replace (Z.to_nat (call_row c - 1) + j)%nat with (Z.to_nat (call_row c + Z.of_nat j - 1)) by lia.
    replace (Z.to_nat (call_row c) + j)%nat with (S (Z.to_nat (call_row c + Z.of_nat j - 1))) by lia. reflexivity. }
  induction columns as [| col columns IH]; [done |]. cbn [existsb]. by rewrite E, IH.
Qed.

Lemma filter_none {A} (f : A -> bool) l : List.filter f l = [] -> List.filter (fun x => negb (f x)) l = l.
Proof.
  induction l as [| x l IH]; [done |]. cbn. destruct (f x); [done |]. cbn. intros H. f_equal. by apply IH.
Qed.

Lemma delta_call_matching row_idx prev curr count block :
  let c := delta_call distinct_from key row_idx prev curr count block in
  call_distinct c = fst (DistinctFrom distinct_from 0 key prev curr count) /\
  call_matching c = List.filter (fun j => negb (rows_differ prev curr (seq 0 key) j)) (seq 0 count).
Proof.
  cbn zeta. unfold delta_call.
  destruct (DistinctFrom distinct_from 0 key prev curr count) as [d m] eqn:E. cbn [call_distinct call_matching fst].
  split; [done |]. pose proof (DistinctFrom_true 0 key prev curr count) as Ht. rewrite E in Ht. cbn [fst] in Ht.
  replace (key - 0)%nat with key in Ht by lia. destruct d as [| x d].
  - symmetry. apply filter_none. by apply Permutation_nil.
  - apply (f_equal snd) in E. cbn [snd] in E. rewrite <- E. unfold DistinctFrom. rewrite DistinctSelectStruct_false.
    + by rewrite Nat.sub_0_r.
    + intros Hk. unfold rows_differ in Ht. replace key with 0%nat in Ht by (destruct key; done). cbn in Ht.
      assert (forall l : list nat, List.filter (fun _ => false) l = []) as Hnil by (by intros l; induction l).
      rewrite Hnil in Ht. by apply Permutation_nil_r in Ht.
Qed.

(** The calls cover the rows [a, b), each within its block. *)
Fixpoint calls_cover (a : Z) (calls : list (DeltaCall V)) (b : Z) : Prop :=
  match calls with
  | [] => a = b
  | c :: calls =>
      call_ok c /\ call_row c = a /\
      block_start (call_block c) <= a /\ a + Z.of_nat (call_length c) <= block_start (S (call_block c)) /\
      (call_block c < length collection)%nat /\
      calls_cover (a + Z.of_nat (call_length c)) calls b
  end.

(** *** The scanner *)

Lemma block_start_S i chunk :
  collection !! i = Some chunk -> block_start (S i) = block_start i + Z.of_nat (length chunk).
Proof.
  intros Hi. unfold block_start. rewrite (take_S_r _ _ _ Hi), mjoin_app, length_app. cbn [mjoin list_join].
  rewrite app_nil_r. lia.
Qed.

Lemma block_start_nonneg i : 0 <= block_start i.
Proof. unfold block_start. lia. Qed.

Lemma block_start_all i : block_start i <= Z.of_nat (length all).
Proof. unfold block_start. rewrite <- (take_drop i collection) at 2. rewrite mjoin_app, length_app. lia. Qed.

Lemma block_start_mono i j : (i <= j)%nat -> block_start i <= block_start j.
Proof.
  intros H. unfold block_start. replace (take i collection) with (take i (take j collection)) by (rewrite take_take; f_equal; lia).
  rewrite <- (take_drop i (take j collection)) at 2. rewrite mjoin_app, length_app. lia.
Qed.

(** The row of a chunk at its place. *)
Lemma chunk_rows_all i chunk j :
  collection !! i = Some chunk -> (j < length chunk)%nat -> chunk !! j = all !! (Z.to_nat (block_start i) + j)%nat.
Proof.
  intros Hi Hj. unfold block_start. rewrite Nat2Z.id. rewrite <- (take_drop i collection) at 2.
  rewrite (drop_S _ _ _ Hi), mjoin_app, mjoin_cons, lookup_app_r by lia.
  rewrite lookup_app_l by lia. f_equal. lia.
Qed.

(** The scanner has read the first [i] chunks. *)
Definition scanned_to (i : nat) (s : Scanner) : Prop := chunk_index s = i /\ scan_next s = block_start i /\ curr_idx s = i.

Lemma Scan_ok i s chunk :
  scanned_to i s -> collection !! i = Some chunk ->
  exists s', Scan collection s = (Some chunk, s') /\ scanned_to (S i) s'.
Proof.
  intros (H1 & H2 & H3) Hi. unfold Scan, NextScanIndex. rewrite H1, Hi. cbn. rewrite Hi. eexists. split; [done |].
  split_and!; cbn; [done | | by rewrite H3]. by rewrite H2, (block_start_S _ _ Hi).
Qed.

Lemma ScannerAt_ok i : (i <= length collection)%nat -> scanned_to i (ScannerAt collection i).
Proof.
  intros Hi. unfold ScannerAt, ScannerSeek. cbn [curr_idx Scanner_new]. rewrite Nat.sub_0_l. cbn [Nat.iter nat_rect curr_idx Scanner_new].
  rewrite Nat.sub_0_r. induction i as [| i IH]; [done |].
  destruct IH as (H1 & H2 & H3); [lia |]. destruct (lookup_lt_is_Some_2 collection i) as [chunk Hc]; [lia |].
  cbn [Nat.iter nat_rect]. change (nat_rect (fun _ => Scanner) Scanner_new _ i) with
    (Nat.iter i (fun s => set_curr_idx (S (curr_idx s)) (snd (NextScanIndex collection s))) Scanner_new).
  set (s := Nat.iter i _ _) in *. unfold NextScanIndex. rewrite H1, Hc. cbn.
  split_and!; cbn; [done | | by rewrite H3]. by rewrite H2, (block_start_S _ _ Hc).
Qed.

(** *** The loop *)

Context (Hne : Forall (fun chunk => chunk <> []) collection).

Lemma block_nonempty i chunk : collection !! i = Some chunk -> exists r chunk', chunk = r :: chunk'.
Proof. intros Hi. pose proof (Forall_lookup_1 _ _ _ _ Hne Hi). destruct chunk; [done | by eauto]. Qed.

Lemma boundary_call_ok i chunk chunk' d :
  collection !! i = Some chunk -> collection !! S i = Some chunk' -> last chunk = Some d ->
  let c := delta_call distinct_from key (block_start (S i)) [d] chunk' 1 (S i) in
  call_length c = 1%nat /\ call_ok c.
Proof.
  intros Hi Hi' Hd c.
  assert (call_length c = 1%nat) as Hl.
  { unfold c, call_length, delta_call. destruct (DistinctFrom _ _ _ _ _ _). cbn.
    destruct (block_nonempty _ _ Hi') as (r & ch & ->). done. }
  split; [done |]. pose proof (delta_call_matching (block_start (S i)) [d] chunk' 1 (S i)) as [H1 H2]. fold c in H1, H2.
  assert (call_row c = block_start (S i) /\ call_prev c = [d] /\ call_curr c = chunk') as (Er & Ep & Ec)
    by (unfold c, delta_call; by destruct (DistinctFrom _ _ _ _ _ _)).
  destruct (block_nonempty _ _ Hi) as (r & ch & E). destruct (block_nonempty _ _ Hi') as (r' & ch' & E').
  pose proof (block_start_S _ _ Hi) as Hs. pose proof (block_start_S _ _ Hi') as Hs'. pose proof (block_start_nonneg i).
  pose proof (block_start_all (S (S i))).
  rewrite E, length_cons in Hs. rewrite E', length_cons in Hs'.
  split; rewrite ?Er, ?Ep, ?Ec, ?Hl; [lia | lia | | | done | done].
  - intros j Hj. assert (j = 0%nat) as -> by lia. cbn [lookup list_lookup]. rewrite last_lookup in Hd.
    rewrite <- Hd, (chunk_rows_all i chunk) by (done || (rewrite E; cbn; lia)). f_equal. rewrite E, length_cons. lia.
  - intros j Hj. assert (j = 0%nat) as -> by lia. rewrite (chunk_rows_all (S i) chunk') by (done || (rewrite E'; cbn; lia)). done.
Qed.

Lemma inner_call_ok i r chunk :
  collection !! i = Some (r :: chunk) ->
  let c := delta_call distinct_from key (block_start i + 1) (r :: chunk) chunk (length chunk) i in
  call_length c = length chunk /\ call_ok c.
Proof.
  intros Hi c.
  assert (call_length c = length chunk) as Hl.
  { unfold c, call_length, delta_call. destruct (DistinctFrom _ _ _ _ _ _). cbn [call_prev call_curr length]. lia. }
  split; [done |]. pose proof (delta_call_matching (block_start i + 1) (r :: chunk) chunk (length chunk) i) as [H1 H2].
  fold c in H1, H2.
  assert (call_row c = block_start i + 1 /\ call_prev c = r :: chunk /\ call_curr c = chunk) as (Er & Ep & Ec)
    by (unfold c, delta_call; by destruct (DistinctFrom _ _ _ _ _ _)).
  pose proof (block_start_S _ _ Hi) as Hs. pose proof (block_start_nonneg i). pose proof (block_start_all (S i)).
  rewrite length_cons in Hs.
  split; rewrite ?Er, ?Ep, ?Ec, ?Hl; [lia | lia | | | done | done].
  - intros j Hj. rewrite (chunk_rows_all i (r :: chunk)) by (done || (cbn; lia)). f_equal. lia.
  - intros j Hj.
    replace (Z.to_nat (block_start i + 1) + j)%nat with (Z.to_nat (block_start i) + S j)%nat by lia.
    by rewrite <- (chunk_rows_all i (r :: chunk) (S j) Hi) by (cbn; lia).
Qed.

Lemma delta_loop_ok fuel block_end block_curr (boundary : bool) row_idx s scanned :
  (2 * (block_end - block_curr) + (if boundary then 0 else 1) < fuel)%nat ->
  (block_end <= length collection)%nat -> (block_curr < block_end)%nat ->
  scanned_to (S block_curr) s -> collection !! block_curr = Some scanned ->
  (boundary = false -> row_idx = block_start block_curr + 1) ->
  exists calls, delta_loop distinct_from fuel collection key block_end block_curr boundary row_idx s scanned = Some calls /\
    calls_cover (if boundary then block_start (S block_curr) else block_start block_curr + 1) calls (block_start block_end) /\
    Forall (fun c => (block_curr <= call_block c < block_end)%nat /\ (boundary = true -> (block_curr < call_block c)%nat)) calls.
Proof.
  revert block_curr boundary row_idx s scanned.
  induction fuel as [| fuel IH]; intros block_curr boundary row_idx s scanned Hf Hend Hlt Hs Hc Hrow; [lia |].
  cbn [delta_loop]. rewrite (proj2 (Nat.leb_gt _ _)) by lia. destruct (block_nonempty _ _ Hc) as (r & chunk & ->).
  destruct boundary.
  - destruct (last (r :: chunk)) as [d |] eqn:Hlast; [| by apply last_None in Hlast]. cbn [mbind option_bind].
    destruct (Nat.leb_spec block_end (S block_curr)) as [Hle | Hgt].
    { exists []. split_and!; [done | | done]. cbn. f_equal. lia. }
    destruct (lookup_lt_is_Some_2 collection (S block_curr)) as [chunk' Hc']; [lia |].
    destruct (Scan_ok _ _ _ Hs Hc') as (s' & -> & Hs'). unfold Scanned. destruct Hs as (_ & -> & _).
    destruct (IH (S block_curr) false (block_start (S block_curr) + 1) s' chunk') as (calls & -> & Hcov & Hall);
      [lia | done | lia | done | done | done |].
    cbn [mbind option_bind]. eexists. split; [done |].
    destruct (boundary_call_ok _ _ _ _ Hc Hc' Hlast) as [Hl Hok].
    set (c := delta_call _ _ _ _ _ _ _) in *.
    assert (call_row c = block_start (S block_curr) /\ call_block c = S block_curr) as [Er Eb]
      by (unfold c, delta_call; by destruct (DistinctFrom _ _ _ _ _ _)).
    split.
    + cbn [calls_cover]. rewrite Eb, Hl. destruct (block_nonempty _ _ Hc') as (r' & ch' & ->).
      rewrite (block_start_S _ _ Hc'), length_cons. split_and!; [done | done | lia | lia | lia | exact Hcov].
    + constructor; [rewrite Eb; lia |]. eapply Forall_impl; [exact Hall |]. intros c' [? _]. lia.
  - specialize (Hrow eq_refl). subst row_idx. destruct (Nat.eqb_spec (length chunk) 0) as [H0 | H0].
    + destruct (IH block_curr true (block_start block_curr + 1) s (r :: chunk)) as (calls & E & Hcov & Hall);
        [lia | done | done | done | done | done |].
      exists calls. split_and!; [done | | eapply Forall_impl; [exact Hall |]; intros c' [? _]; split; [lia | done]].
      rewrite (block_start_S _ _ Hc), length_cons, H0 in Hcov. exact Hcov.
    + destruct (IH block_curr true (block_start block_curr + 1 + Z.of_nat (length chunk)) s (r :: chunk))
        as (calls & -> & Hcov & Hall); [lia | done | done | done | done | done |].
      cbn [mbind option_bind]. eexists. split; [done |].
      destruct (inner_call_ok _ _ _ Hc) as [Hl Hok]. set (c := delta_call _ _ _ _ _ _ _) in *.
      assert (call_row c = block_start block_curr + 1 /\ call_block c = block_curr) as [Er Eb]
        by (unfold c, delta_call; by destruct (DistinctFrom _ _ _ _ _ _)).
      rewrite (block_start_S _ _ Hc), length_cons in Hcov.
      split.
      * cbn [calls_cover]. rewrite Eb, Hl, (block_start_S _ _ Hc), length_cons.
        split_and!; [done | done | lia | lia | lia |].
        replace (block_start block_curr + 1 + Z.of_nat (length chunk)) with
          (block_start block_curr + Z.of_nat (S (length chunk))) by lia. exact Hcov.
      * constructor; [rewrite Eb; split; [lia | done] |]. eapply Forall_impl; [exact Hall |]. intros c' [? _]. split; [lia | done].
Qed.

Lemma WindowDeltaScanner_ok block_begin block_end :
  (block_begin < block_end <= length collection)%nat ->
  exists calls, WindowDeltaScanner distinct_from collection block_begin block_end key = Some calls /\
    calls_cover (Z.max 1 (block_start block_begin)) calls (block_start block_end) /\
    Forall (fun c => (block_begin <= call_block c < block_end)%nat) calls.
Proof.
  intros Hb. destruct (lookup_lt_is_Some_2 collection block_begin) as [chunk Hc]; [lia |].
  destruct (block_nonempty _ _ Hc) as (r & ch & E).
  unfold WindowDeltaScanner. rewrite (proj2 (Nat.eqb_neq _ _)); cycle 1.
  { pose proof (block_start_all (S block_begin)). rewrite (block_start_S _ _ Hc), E, length_cons in H.
    pose proof (block_start_nonneg block_begin). lia. }
  destruct block_begin as [| b]; cbn [Nat.eqb pred].
  - destruct (Scan_ok 0 (ScannerAt collection 0) chunk) as (s & -> & Hs); [apply ScannerAt_ok; lia | done |].
    destruct (delta_loop_ok (S (3 * (block_end - 0))) block_end 0 false 1 s chunk) as (calls & E1 & H1 & H2);
      [lia | lia | lia | done | done | done |].
    exists calls. split_and!; [exact E1 | exact H1 |]. eapply Forall_impl; [exact H2 |]. by intros c [? _].
  - destruct (lookup_lt_is_Some_2 collection b) as [chunk0 Hc0]; [lia |].
    destruct (Scan_ok b (ScannerAt collection b) chunk0) as (s & -> & Hs); [apply ScannerAt_ok; lia | done |].
    destruct (delta_loop_ok (S (3 * (block_end - b))) block_end b true 1 s chunk0) as (calls & E1 & H1 & H2);
      [lia | lia | lia | done | done | done |].
    exists calls. split_and!; [exact E1 | |].
    + rewrite Z.max_r; [exact H1 |]. destruct (block_nonempty _ _ Hc0) as (r0 & ch0 & E0).
      rewrite (block_start_S _ _ Hc0), E0, length_cons. pose proof (block_start_nonneg b). lia.
    + eapply Forall_impl; [exact H2 |]. intros c [? Hlt]. specialize (Hlt eq_refl). lia.
Qed.
End compare.

(** ** Views of the masks *)

Section masks.
Context {V : Type} (distinct_from : V -> V -> bool) (input : MaskInput V).

Abbreviation n := (row_count input).
Abbreviation key := (key_count input).
Abbreviation changes := (row_changes distinct_from (rows input)).
Abbreviation call_ok := (call_ok distinct_from (rows input) key).
Abbreviation process_delta := (process_delta distinct_from input).
Implicit Types (m : ValidityMask) (g : GroupMasks) (c : DeltaCall V) (i j : Z).

Context (Hcount : n = Z.of_nat (length (mjoin (rows input)))).
Context (Hkeys : Forall (fun k => key <= k)%nat (order_keys input)).

Definition mask_ok m : Prop := wf_mask m n /\ IsMaskSet m = true.

Lemma n_nonneg : 0 <= n.
Proof. rewrite Hcount. lia. Qed.

Lemma SetValidUnsafe_ok m i :
  mask_ok m -> 0 <= i < n ->
  exists m', SetValidUnsafe m i = Some m' /\ mask_ok m' /\
    forall j, 0 <= j < n -> RowIsValid m' j = RowIsValid m j || (j =? i).
Proof.
  intros [Hw Hs] Hi. destruct (SetRow_spec m i true n Hw Hi) as (m' & E & Hw' & Hb).
  unfold SetRow, SetValid in E. destruct (AllValid m) eqn:Ha; [destruct m as [[d |] cap]; done |].
  exists m'. split_and!; [done | split; [done |] |].
  - unfold SetValidUnsafe, update_entry in E. destruct (GetEntryIndex i) as [e b].
    destruct (validity_mask m) as [d |]; [| done]. cbn [mbind option_bind] in E.
    destruct (zload d e); [| done]. cbn [mbind option_bind] in E. destruct (zstore d e _); [| done]. by injection E as <-.
  - intros j Hj. rewrite Hb by done. destruct (Z.eqb_spec j i); case_decide; try lia; by rewrite ?orb_true_r, ?orb_false_r.
Qed.

(** A loop that sets the rows of a list of indices. *)
Lemma set_rows_ok (idx : nat -> option Z) (f : ValidityMask -> nat -> option ValidityMask) l m :
  (forall m k, f m k = idx k ≫= SetValidUnsafe m) ->
  mask_ok m -> (forall k, k ∈ l -> exists r, idx k = Some r /\ 0 <= r < n) ->
  exists m', ofold f m l = Some m' /\ mask_ok m' /\
    forall j, 0 <= j < n -> RowIsValid m' j = RowIsValid m j || existsb (fun k => bool_decide (idx k = Some j)) l.
Proof.
  intros Hf. revert m. induction l as [| k l IH]; intros m Hm Hl.
  { exists m. split_and!; [done | done |]. intros j _. cbn. by rewrite orb_false_r. }
  destruct (Hl k) as (r & Er & Hr); [by left |].
  destruct (SetValidUnsafe_ok m r Hm Hr) as (m1 & E1 & Hm1 & Hb1).
  destruct (IH m1 Hm1) as (m2 & E2 & Hm2 & Hb2); [intros k' Hk'; apply Hl; by right |].
  exists m2. rewrite ofold_cons, Hf, Er. cbn [mbind option_bind]. rewrite E1. cbn [mbind option_bind].
  split_and!; [done | done |]. intros j Hj. rewrite Hb2, Hb1 by done. cbn [existsb]. rewrite Er, <- orb_assoc. do 2 f_equal.
  destruct (Z.eqb_spec j r); [rewrite bool_decide_eq_true_2; congruence | rewrite bool_decide_eq_false_2; congruence].
Qed.

Record View := { view_partition : Z -> bool; view_order : nat -> Z -> bool; view_begins : nat -> list Z }.
Implicit Types (v : View).

Definition order_list : list nat := fst <$> allocate_orders input (order_keys input) [].

Definition bits m (b : Z -> bool) : Prop := mask_ok m /\ forall j, 0 <= j < n -> RowIsValid m j = b j.

Record view_of g v : Prop := {
  view_of_partition : bits (partition_mask g) (view_partition v);
  view_of_keys : fst <$> order_masks g = order_list;
  view_of_orders : Forall (fun e => bits (snd e) (view_order v (fst e))) (order_masks g);
  view_of_begins : set_begins input = true ->
    length (partition_begins g) = length (rows input) /\
    forall b l, partition_begins g !! b = Some l -> l = view_begins v b
}.

Lemma bits_ext m b b' : (forall j, 0 <= j < n -> b j = b' j) -> bits m b -> bits m b'.
Proof. intros H [Hm Hb]. split; [done |]. intros j Hj. by rewrite <- H, Hb. Qed.

Lemma view_of_ext g v v' :
  (forall j, 0 <= j < n -> view_partition v j = view_partition v' j) ->
  (forall k j, k ∈ order_list -> 0 <= j < n -> view_order v k j = view_order v' k j) ->
  (forall b, (b < length (rows input))%nat -> view_begins v b = view_begins v' b) ->
  view_of g v -> view_of g v'.
Proof.
  intros H1 H2 H3 [Hp Hk Ho Hb]. split; [by eapply bits_ext | done | |].
  - rewrite Forall_forall in Ho |- *. intros e He. eapply bits_ext; [| by apply Ho]. intros j Hj. apply H2; [| done].
    rewrite <- Hk. by apply list_elem_of_fmap_2.
  - intros Hs. destruct (Hb Hs) as [Hl Hv]. split; [done |]. intros b l E. rewrite <- H3; [by apply Hv |].
    rewrite <- Hl. by eapply lookup_lt_Some.
Qed.

Lemma on_partition_ok f g v b' :
  view_of g v ->
  (forall m, bits m (view_partition v) -> exists m', f m = Some m' /\ bits m' b') ->
  exists g', on_partition f g = Some g' /\
    view_of g' {| view_partition := b'; view_order := view_order v; view_begins := view_begins v |}.
Proof.
  intros [Hp Hk Ho Hb] Hf. destruct (Hf _ Hp) as (m' & E & Hm'). unfold on_partition. rewrite E. cbn.
  eexists. split; [done |]. by split.
Qed.

Lemma for_orders_ok f g v b' :
  view_of g v ->
  (forall k m, k ∈ order_list -> bits m (view_order v k) -> exists m', f k m = Some m' /\ bits m' (b' k)) ->
  exists g', for_orders f g = Some g' /\
    view_of g' {| view_partition := view_partition v; view_order := b'; view_begins := view_begins v |}.
Proof.
  intros [Hp Hk Ho Hb] Hf. unfold for_orders.
  assert (exists masks, mapM (fun e : nat * ValidityMask => m ← f (fst e) (snd e); Some (fst e, m)) (order_masks g) = Some masks /\
    fst <$> masks = fst <$> order_masks g /\ Forall (fun e => bits (snd e) (b' (fst e))) masks) as (masks & E & E1 & E2).
  { assert (Forall (fun e => fst e ∈ order_list) (order_masks g)) as Hin.
    { apply Forall_forall. intros e He. rewrite <- Hk. by apply list_elem_of_fmap_2. }
    clear Hk Hp Hb. induction Ho as [| e es He Ho IH]; [by exists [] |].
    apply Forall_cons in Hin as [Hin1 Hin]. destruct (IH Hin) as (ms & E & E1 & E2).
    destruct (Hf _ _ Hin1 He) as (m' & Em & Hm'). exists ((fst e, m') :: ms). cbn [mapM]. rewrite Em. cbn [mbind option_bind].
    cbn [mapM] in E. rewrite E. cbn. split_and!; [done | by rewrite E1 | by constructor]. }
  rewrite E. cbn [mbind option_bind]. eexists. split; [done |]. split; [done | by rewrite <- Hk | done | done].
Qed.

Lemma push_begin_ok b r g v :
  view_of g v -> (b < length (rows input))%nat ->
  exists g', push_begin input b r g = Some g' /\
    view_of g' {| view_partition := view_partition v; view_order := view_order v;
                  view_begins b' := if decide (b' = b) then view_begins v b ++ [r] else view_begins v b' |}.
Proof.
  intros [Hp Hk Ho Hb] Hlt. unfold push_begin. destruct (set_begins input) eqn:Es; cycle 1.
  { exists g. split; [done |]. split; [done | done | done |]. by rewrite Es. }
  destruct (Hb eq_refl) as [Hl Hv]. destruct (lookup_lt_is_Some_2 (partition_begins g) b) as [l El]; [by rewrite Hl |].
  rewrite El. cbn. eexists. split; [done |]. split; [done | done | done |]. intros _. cbn. rewrite length_insert. split; [done |].
  intros b' l' E. apply list_lookup_insert_Some in E as [(<- & <- & _) | [Hne E]].
  - by rewrite decide_True, (Hv _ _ El).
  - rewrite decide_False by done. by apply Hv.
Qed.

(** A list of rows that are set in all masks. *)
Lemma partition_boundaries_ok c l g v :
  view_of g v -> (call_block c < length (rows input))%nat ->
  (forall k, k ∈ l -> 0 <= call_row c + Z.of_nat k < n) ->
  exists g', ofold (partition_boundary input c) g l = Some g' /\
    let set b j := b || existsb (fun k => j =? call_row c + Z.of_nat k) l in
    view_of g' {| view_partition j := set (view_partition v j) j; view_order k j := set (view_order v k j) j;
                  view_begins b := if decide (b = call_block c)
                    then view_begins v b ++ ((fun k => call_row c + Z.of_nat k) <$> l) else view_begins v b |}.
Proof.
  intros Hv Hb. revert g v Hv. induction l as [| k l IH]; intros g v Hv Hl.
  { exists g. split; [done |]. cbn. eapply view_of_ext; [| | | exact Hv]; intros; cbn; rewrite ?orb_false_r; try done.
    case_decide; [by rewrite app_nil_r | done]. }
  assert (0 <= call_row c + Z.of_nat k < n) as Hk by (apply Hl; by left).
  rewrite ofold_cons. unfold partition_boundary at 2. cbn zeta.
  set (r := call_row c + Z.of_nat k) in *.
  assert (forall (b : Z -> bool) m, bits m b -> exists m', SetValidUnsafe m r = Some m' /\ bits m' (fun j => b j || (j =? r))) as Hset.
  { intros b m [Hm Hbits]. destruct (SetValidUnsafe_ok m r Hm Hk) as (m' & E & Hm' & Hb').
    exists m'. split; [done |]. split; [done |]. intros j Hj. by rewrite Hb', Hbits. }
  destruct (on_partition_ok (fun m => SetValidUnsafe m r) g v _ Hv (Hset _)) as (g1 & -> & Hv1). cbn [mbind option_bind].
  destruct (push_begin_ok (call_block c) r g1 _ Hv1 Hb) as (g2 & -> & Hv2). cbn [mbind option_bind].
  destruct (for_orders_ok (fun _ m => SetValidUnsafe m r) g2 _ (fun k j => view_order v k j || (j =? r)) Hv2) as (g3 & -> & Hv3).
  { intros k' m _. apply Hset. }
  cbn [mbind option_bind]. destruct (IH g3 _ Hv3) as (g' & E & Hv'); [intros k' Hk'; apply Hl; by right |].
  exists g'. split; [done |]. eapply view_of_ext; [| | | exact Hv']; cbn [view_partition view_order view_begins existsb].
  - intros j _. by rewrite orb_assoc.
  - intros k' j _ _. by rewrite orb_assoc.
  - intros b _. case_decide; [| done]. subst b. by rewrite <- app_assoc.
Qed.

(** ** One call *)

Definition in_call c j : bool := (call_row c <=? j) && (j <? call_row c + Z.of_nat (call_length c)).

Lemma existsb_rows c (l : list nat) (P : nat -> bool) j :
  (forall k, k ∈ l <-> (k < call_length c)%nat /\ P k = true) ->
  existsb (fun k => j =? call_row c + Z.of_nat k) l = in_call c j && P (Z.to_nat (j - call_row c)).
Proof.
  intros Hl. apply eq_true_iff_eq. rewrite andb_true_iff. unfold in_call. rewrite andb_true_iff, Z.leb_le, Z.ltb_lt.
  rewrite existsb_exists. setoid_rewrite <- list_elem_of_In. setoid_rewrite Hl. split.
  - intros (k & [Hk HP] & ->%Z.eqb_eq). replace (Z.to_nat _) with k by lia. lia || (split; [lia | done]).
  - intros [Hj HP]. exists (Z.to_nat (j - call_row c)). split; [split; [lia | done] |]. apply Z.eqb_eq. lia.
Qed.

Lemma distinct_rows c k :
  call_ok c -> k ∈ call_distinct c <->
  (k < call_length c)%nat /\ rows_differ distinct_from (call_prev c) (call_curr c) (seq 0 key) k = true.
Proof.
  intros Hc. rewrite (call_true _ _ _ _ Hc), (DistinctFrom_true distinct_from 0 key). rewrite Nat.sub_0_r. apply elem_of_filter_seq.
Qed.

Lemma call_changes c b e j :
  call_ok c -> in_call c j = true ->
  rows_differ distinct_from (call_prev c) (call_curr c) (seq b (e - b)) (Z.to_nat (j - call_row c)) = changes b e j.
Proof.
  intros Hc [H1%Z.leb_le H2%Z.ltb_lt]%andb_true_iff. rewrite (call_differs _ _ _ _ _ _ Hc) by lia. unfold row_changes. do 2 f_equal. lia.
Qed.

Lemma distinct_set c j :
  call_ok c -> existsb (fun k => j =? call_row c + Z.of_nat k) (call_distinct c) = in_call c j && changes 0 key j.
Proof.
  intros Hc. rewrite (existsb_rows c _ (rows_differ distinct_from (call_prev c) (call_curr c) (seq 0 key)))
    by (intros; by apply distinct_rows).
  destruct (in_call c j) eqn:E; [| done]. cbn. pose proof (call_changes c 0 key j Hc E) as H. by rewrite Nat.sub_0_r in H.
Qed.

Lemma matching_length c :
  call_ok c -> length (call_matching c) = (call_length c - length (call_distinct c))%nat.
Proof.
  intros Hc. rewrite (call_false _ _ _ _ Hc), (call_true _ _ _ _ Hc), (DistinctFrom_true distinct_from 0 key), Nat.sub_0_r.
  pose proof (filter_length_negb (rows_differ distinct_from (call_prev c) (call_curr c) (seq 0 key)) (seq 0 (call_length c))).
  rewrite length_seq in H. lia.
Qed.

Lemma slice_rows_ok sel len (chunk : list (list V)) :
  (forall k, k ∈ sel -> (k < length chunk)%nat) -> (length sel <= len)%nat ->
  exists chunk', slice_rows sel len chunk = Some chunk' /\
    forall k p, sel !! k = Some p -> chunk' !! k = chunk !! p.
Proof.
  intros Hs Hl. unfold slice_rows. rewrite take_ge by done. clear Hl. induction sel as [| p sel IH]; [by exists [] |].
  destruct IH as (chunk' & E & H); [intros k Hk; apply Hs; by right |].
  destruct (lookup_lt_is_Some_2 chunk p) as [r Er]; [apply Hs; by left |].
  exists (r :: chunk'). cbn [mapM]. rewrite Er. cbn [mbind option_bind]. cbn [mapM] in E. rewrite E. split; [done |].
  intros [| k] q Hq; [injection Hq as <-; done |]. by apply H.
Qed.

Lemma peer_boundaries_ok c k m (b : Z -> bool) :
  call_ok c -> (key <= k)%nat -> bits m b ->
  exists m', peer_boundaries distinct_from input c (call_length c - length (call_distinct c)) k m = Some m' /\
    bits m' (fun j => b j || (in_call c j && negb (changes 0 key j) && changes key k j)).
Proof.
  intros Hc Hk [Hm Hb]. unfold peer_boundaries. destruct (Nat.eqb_spec key k) as [<- | Hne].
  { exists m. split; [done |]. split; [done |]. intros j Hj. unfold row_changes. rewrite (Nat.sub_diag key). cbn.
    by rewrite andb_false_r, orb_false_r, Hb. }
  set (nmatch := (call_length c - length (call_distinct c))%nat).
  pose proof (matching_length c Hc) as Hml. fold nmatch in Hml.
  assert (forall p, p ∈ call_matching c <-> (p < call_length c)%nat /\
    rows_differ distinct_from (call_prev c) (call_curr c) (seq 0 key) p = false) as Hin.
  { intros p. rewrite (call_false _ _ _ _ Hc), elem_of_filter_seq, negb_true_iff. done. }
  assert (forall chunk : list (list V), (call_length c <= length chunk)%nat -> exists chunk',
    (if (length (call_distinct c) =? 0)%nat then Some chunk else slice_rows (call_matching c) nmatch chunk) = Some chunk' /\
    forall q p, call_matching c !! q = Some p -> chunk' !! q = chunk !! p) as Hslice.
  { intros chunk Hlen. destruct (Nat.eqb_spec (length (call_distinct c)) 0) as [H0 | H0].
    - exists chunk. split; [done |]. intros q p Hq. rewrite (call_false _ _ _ _ Hc), filter_none in Hq; cycle 1.
      { pose proof (DistinctFrom_true distinct_from 0 key (call_prev c) (call_curr c) (call_length c)) as Ht.
        rewrite Nat.sub_0_r, <- (call_true _ _ _ _ Hc) in Ht. apply length_zero_iff_nil in H0. rewrite H0 in Ht.
        by apply Permutation_nil. }
      apply lookup_seq in Hq as [-> _]. done.
    - apply slice_rows_ok; [| lia]. intros p [Hp _]%Hin. lia. }
  destruct (Hslice (call_prev c)) as (prev & -> & Hprev); [unfold call_length; lia |].
  destruct (Hslice (call_curr c)) as (curr & -> & Hcurr); [unfold call_length; lia |]. cbn [mbind option_bind].
  assert (forall q, q ∈ fst (DistinctFrom distinct_from key k prev curr nmatch) <-> exists p, call_matching c !! q = Some p /\
    rows_differ distinct_from (call_prev c) (call_curr c) (seq key (k - key)) p = true) as Hd.
  { intros q. rewrite (DistinctFrom_true distinct_from key k), elem_of_filter_seq.
    assert (forall p, call_matching c !! q = Some p ->
      rows_differ distinct_from prev curr (seq key (k - key)) q =
      rows_differ distinct_from (call_prev c) (call_curr c) (seq key (k - key)) p) as E.
    { intros p Hp. unfold rows_differ. induction (seq key (k - key)) as [| col cols IH]; [done |]. cbn [existsb].
      rewrite IH. f_equal. unfold column_differs. by rewrite (Hprev _ _ Hp), (Hcurr _ _ Hp). }
    split.
    - intros [Hq HP]. destruct (lookup_lt_is_Some_2 (call_matching c) q) as [p Hp]; [lia |]. exists p. by rewrite <- (E p Hp).
    - intros (p & Hp & HP). rewrite (E p Hp). split; [| done]. rewrite <- Hml. by eapply lookup_lt_Some. }
  destruct (set_rows_ok (fun q => p ← call_matching c !! q; Some (call_row c + Z.of_nat p))
    (fun m q => matching ← call_matching c !! q; SetValidUnsafe m (call_row c + Z.of_nat matching))
    (fst (DistinctFrom distinct_from key k prev curr nmatch)) m) as (m' & E & Hm' & Hb'); [| done | |].
  { intros m1 q. by destruct (call_matching c !! q). }
  { intros q (p & Hp & _)%Hd. rewrite Hp. cbn. eexists. split; [done |].
    pose proof (call_first _ _ _ _ Hc). pose proof (call_last _ _ _ _ Hc). rewrite <- Hcount in *.
    assert (p ∈ call_matching c) as [Hp2 _]%Hin by (by eapply list_elem_of_lookup_2). lia. }
  exists m'. split; [exact E |]. split; [done |]. intros j Hj. rewrite Hb', Hb by done. f_equal.
  apply eq_true_iff_eq. rewrite existsb_exists, !andb_true_iff, negb_true_iff. setoid_rewrite <- list_elem_of_In. split.
  - intros (q & (p & Hp & HP)%Hd & E2%bool_decide_eq_true). rewrite Hp in E2. cbn in E2. injection E2 as E2.
    assert (p ∈ call_matching c) as [Hp2 Hp3]%Hin by (by eapply list_elem_of_lookup_2).
    assert (in_call c j = true) as Hic by (unfold in_call; rewrite andb_true_iff, Z.leb_le, Z.ltb_lt; lia).
    pose proof (call_changes c 0 key j Hc Hic) as H1. pose proof (call_changes c key k j Hc Hic) as H2.
    rewrite Nat.sub_0_r in H1. replace (Z.to_nat (j - call_row c)) with p in * by lia. rewrite <- H1, <- H2. done.
  - intros [[Hic Hn] HP]. pose proof (call_changes c 0 key j Hc Hic) as H1. pose proof (call_changes c key k j Hc Hic) as H2.
    rewrite Nat.sub_0_r in H1. unfold in_call in Hic. rewrite andb_true_iff, Z.leb_le, Z.ltb_lt in Hic.
    assert (Z.to_nat (j - call_row c) ∈ call_matching c) as [q Hq]%list_elem_of_lookup by (apply Hin; split; [lia | congruence]).
    exists q. split; [apply Hd; exists (Z.to_nat (j - call_row c)); split; [done | congruence] |].
    apply bool_decide_eq_true. rewrite Hq. cbn. f_equal. lia.
Qed.

Lemma order_list_keys k : k ∈ order_list -> k ∈ order_keys input.
Proof.
  unfold order_list.
  assert (forall keys masks, k ∈ fst <$> allocate_orders input keys masks -> k ∈ fst <$> masks \/ k ∈ keys) as H.
  { induction keys as [| k' keys IH]; intros masks Hk; [by left |]. cbn [allocate_orders] in Hk.
    case_bool_decide; apply IH in Hk as [Hk | Hk]; [by left | by right; right | | by right; right].
    rewrite fmap_app in Hk. apply elem_of_app in Hk as [Hk | Hk]; [by left |].
    apply list_elem_of_singleton in Hk as ->. right. by left. }
  intros Hk. by destruct (H _ _ Hk) as [Hn | ?]; [apply not_elem_of_nil in Hn |].
Qed.

Lemma order_list_complete k : k ∈ order_keys input -> k ∈ order_list.
Proof.
  unfold order_list.
  assert (forall keys masks, k ∈ fst <$> masks \/ k ∈ keys -> k ∈ fst <$> allocate_orders input keys masks) as H.
  { induction keys as [| k' keys IH]; intros masks Hk; [by destruct Hk as [| Hk%not_elem_of_nil] |].
    cbn [allocate_orders]. case_bool_decide as Hin; apply IH.
    - destruct Hk as [Hk | Hk]; [by left |]. apply elem_of_cons in Hk as [-> | Hk]; [by left | by right].
    - rewrite fmap_app. destruct Hk as [Hk | Hk]; [left; apply elem_of_app; by left |].
      apply elem_of_cons in Hk as [-> | Hk]; [left; apply elem_of_app; right; by left | by right]. }
  intros Hk. apply H. by right.
Qed.

Lemma order_list_le k : k ∈ order_list -> (key <= k)%nat.
Proof. intros Hk%order_list_keys. rewrite Forall_forall in Hkeys. by apply Hkeys. Qed.

Lemma changes_split k j : (key <= k)%nat -> changes 0 k j = changes 0 key j || changes key k j.
Proof.
  intros Hk. unfold row_changes, rows_differ. rewrite !Nat.sub_0_r. rewrite <- existsb_app. f_equal.
  replace (seq 0 k) with (seq 0 (key + (k - key))) by (f_equal; lia). by rewrite seq_app.
Qed.

Definition call_begins c : list Z := (fun k => call_row c + Z.of_nat k) <$> call_distinct c.

Lemma process_delta_ok c g v :
  call_ok c -> (call_block c < length (rows input))%nat -> view_of g v ->
  exists g', process_delta g c = Some g' /\
    view_of g' {| view_partition j := view_partition v j || (in_call c j && changes 0 key j);
                  view_order k j := view_order v k j || (in_call c j && changes 0 k j);
                  view_begins b := if decide (b = call_block c) then view_begins v b ++ call_begins c else view_begins v b |}.
Proof.
  intros Hc Hb Hv. unfold WindowMasks.process_delta.
  destruct (partition_boundaries_ok c (call_distinct c) g v Hv Hb) as (g1 & -> & Hv1).
  { intros k [Hk _]%(distinct_rows c k Hc). pose proof (call_first _ _ _ _ Hc). pose proof (call_last _ _ _ _ Hc).
    rewrite <- Hcount in *. lia. }
  cbn [mbind option_bind]. fold (call_length c).
  cbn zeta in Hv1. destruct (Nat.eqb_spec (call_length c - length (call_distinct c)) 0) as [H0 | H0].
  - exists g1. split; [done |]. eapply view_of_ext; [| | | exact Hv1]; cbn [view_partition view_order view_begins]; [| | done].
    + intros j _. by rewrite (distinct_set c j Hc).
    + intros k j Hk%order_list_le Hj. rewrite (distinct_set c j Hc). f_equal.
      destruct (in_call c j) eqn:Hic; [| done]. cbn. rewrite (changes_split k) by done.
      (* every row of the call starts a partition *)
      assert (changes 0 key j = true) as ->; [| done].
      pose proof (call_changes c 0 key j Hc Hic) as Hch. rewrite Nat.sub_0_r in Hch. rewrite <- Hch.
      pose proof (matching_length c Hc) as Hm. rewrite H0, (call_false _ _ _ _ Hc) in Hm. apply length_zero_iff_nil in Hm.
      apply andb_true_iff in Hic as [H1%Z.leb_le H2%Z.ltb_lt].
      destruct (rows_differ _ _ _ _ _) eqn:Ed; [done |]. exfalso.
      assert (Z.to_nat (j - call_row c) ∈ @nil nat) as []%not_elem_of_nil.
      rewrite <- Hm. apply elem_of_filter_seq. rewrite Ed. split; [lia | done].
  - destruct (for_orders_ok (peer_boundaries distinct_from input c (call_length c - length (call_distinct c))) g1 _
      (fun k j => (view_order v k j || existsb (fun k => j =? call_row c + Z.of_nat k) (call_distinct c)) ||
                  (in_call c j && negb (changes 0 key j) && changes key k j)) Hv1) as (g2 & -> & Hv2).
    { intros k m Hk%order_list_le Hm. by apply peer_boundaries_ok. }
    exists g2. split; [done |]. eapply view_of_ext; [| | | exact Hv2]; cbn [view_partition view_order view_begins]; [| | done].
    + intros j _. by rewrite (distinct_set c j Hc).
    + intros k j Hk%order_list_le Hj. rewrite (distinct_set c j Hc), (changes_split k), <- orb_assoc by done. f_equal.
      destruct (in_call c j), (changes 0 key j), (changes key k j); done.
Qed.

(** ** A task *)

Definition begins_of (b : nat) (calls : list (DeltaCall V)) : list Z :=
  mjoin ((fun c => if decide (call_block c = b) then call_begins c else []) <$> calls).

Abbreviation cover := (calls_cover distinct_from (rows input) key).

Lemma cover_le a calls b : cover a calls b -> a <= b.
Proof.
  revert a. induction calls as [| c calls IH]; intros a; cbn; [lia |]. intros (_ & _ & _ & _ & _ & H%IH). lia.
Qed.

Lemma process_calls_ok calls a b g v :
  cover a calls b -> view_of g v ->
  exists g', ofold process_delta g calls = Some g' /\
    view_of g' {| view_partition j := view_partition v j || ((a <=? j) && (j <? b) && changes 0 key j);
                  view_order k j := view_order v k j || ((a <=? j) && (j <? b) && changes 0 k j);
                  view_begins bl := view_begins v bl ++ begins_of bl calls |}.
Proof.
  revert a g v. induction calls as [| c calls IH]; intros a g v Hcov Hv.
  { cbn in Hcov. subst b. exists g. split; [done |].
    assert (forall j, (a <=? j) && (j <? a) = false) as H by (intros j; destruct (Z.leb_spec a j), (Z.ltb_spec j a); cbn; lia || done).
    eapply view_of_ext; [| | | exact Hv]; intros; cbn; rewrite ?H, ?orb_false_r, ?app_nil_r; done. }
  pose proof Hcov as (Hc & Ha & H1 & H2 & H3 & Hrest).
  destruct (process_delta_ok c g v Hc H3 Hv) as (g1 & E1 & Hv1). rewrite ofold_cons, E1. cbn [mbind option_bind].
  destruct (IH _ g1 _ Hrest Hv1) as (g2 & E2 & Hv2). exists g2. split; [exact E2 |].
  pose proof (cover_le _ _ _ Hrest) as Hle.
  assert (forall j x, in_call c j && x || (a + Z.of_nat (call_length c) <=? j) && (j <? b) && x =
    (a <=? j) && (j <? b) && x) as Hj.
  { intros j x. unfold in_call. rewrite Ha.
    destruct (Z.leb_spec a j), (Z.ltb_spec j (a + Z.of_nat (call_length c))),
      (Z.leb_spec (a + Z.of_nat (call_length c)) j), (Z.ltb_spec j b), x; cbn; lia || done. }
  eapply view_of_ext; [| | | exact Hv2]; cbn [view_partition view_order view_begins].
  - intros j _. by rewrite <- orb_assoc, Hj.
  - intros k j _ _. by rewrite <- orb_assoc, Hj.
  - intros bl _. unfold begins_of. rewrite fmap_cons, mjoin_cons. repeat case_decide; try congruence; by rewrite ?app_nil_l, ?app_assoc.
Qed.

(** The starts that a call keeps are those among its rows; in order if there is at most
    one partition column. *)
Lemma call_begins_rows c :
  call_ok c ->
  let begins := List.filter (changes 0 key) (zrange (call_row c) (call_row c + Z.of_nat (call_length c))) in
  call_begins c ≡ₚ begins /\ ((key <= 1)%nat -> call_begins c = begins).
Proof.
  intros Hc. cbn zeta. unfold call_begins, zrange. rewrite filter_fmap.
  replace (Z.to_nat (call_row c + Z.of_nat (call_length c) - call_row c)) with (call_length c) by lia.
  rewrite (List.filter_ext_in (fun x => changes 0 key (call_row c + Z.of_nat x))
    (rows_differ distinct_from (call_prev c) (call_curr c) (seq 0 key))); cycle 1.
  { intros k Hk%in_seq. symmetry. rewrite <- (Nat.sub_0_r key) at 1.
    replace k with (Z.to_nat (call_row c + Z.of_nat k - call_row c)) at 1 by lia. apply call_changes; [done |].
    unfold in_call. rewrite andb_true_iff, Z.leb_le, Z.ltb_lt. lia. }
  rewrite (call_true _ _ _ _ Hc). split.
  - rewrite (DistinctFrom_true distinct_from 0 key), Nat.sub_0_r. done.
  - intros Hk. f_equal. destruct (key_count input) as [| [| k]] eqn:Ek; [| | lia].
    + cbn. unfold rows_differ. cbn. by induction (seq 0 _).
    + apply (DistinctFrom_single distinct_from 0).
Qed.

Definition in_block (b : nat) j : bool := (block_start (rows input) b <=? j) && (j <? block_start (rows input) (S b)).

Lemma begins_of_rows bl calls a b :
  cover a calls b ->
  let begins := List.filter (fun j => in_block bl j && changes 0 key j) (zrange a b) in
  begins_of bl calls ≡ₚ begins /\ ((key <= 1)%nat -> begins_of bl calls = begins).
Proof.
  cbn zeta. revert a. induction calls as [| c calls IH]; intros a.
  { cbn. intros ->. by rewrite zrange_nil by lia. }
  intros (Hc & Ha & H1 & H2 & H3 & Hrest). destruct (IH _ Hrest) as [IH1 IH2]. pose proof (cover_le _ _ _ Hrest) as Hle.
  rewrite (zrange_split a (a + Z.of_nat (call_length c)) b), List.filter_app by lia.
  unfold begins_of. rewrite fmap_cons, mjoin_cons. fold (begins_of bl calls).
  destruct (call_begins_rows c Hc) as [P1 P2]. rewrite Ha in P1, P2.
  assert (List.filter (fun j => in_block bl j && changes 0 key j) (zrange a (a + Z.of_nat (call_length c))) =
    if decide (call_block c = bl) then List.filter (changes 0 key) (zrange a (a + Z.of_nat (call_length c))) else []) as ->.
  { case_decide as E.
    - apply List.filter_ext_in. intros j Hj%list_elem_of_In%elem_of_zrange. unfold in_block. subst bl.
      by rewrite (proj2 (Z.leb_le _ _)), (proj2 (Z.ltb_lt _ _)) by lia.
    - apply filter_zrange_none. intros j Hj. unfold in_block.
      destruct (Nat.lt_ge_cases (call_block c) bl) as [Hlt | Hge].
      + pose proof (block_start_mono (rows input) (S (call_block c)) bl Hlt).
        by rewrite (proj2 (Z.leb_gt (block_start (rows input) bl) j)) by lia.
      + pose proof (block_start_mono (rows input) (S bl) (call_block c) ltac:(lia)).
        by rewrite (proj2 (Z.ltb_ge j _)), andb_false_r by lia. }
  split.
  - case_decide; by rewrite ?P1, IH1.
  - intros Hk. rewrite IH2 by done. case_decide; by rewrite ?P2.
Qed.

(** ** Allocation *)

Definition begins_ok g (b : nat -> list Z) : Prop :=
  set_begins input = true ->
    length (partition_begins g) = length (rows input) /\
    forall bl l, partition_begins g !! bl = Some l -> l = b bl.

Definition unallocated g (b : nat -> list Z) : Prop :=
  IsMaskSet (partition_mask g) = false /\ order_masks g = [] /\ begins_ok g b.

Lemma Initialize_bits : bits (Initialize n) (fun _ => true).
Proof.
  split; [split; [apply Initialize_wf, n_nonneg | done] |]. intros j Hj. unfold Initialize. rewrite RowIsValid_data.
  by apply ValidityData_new_bit.
Qed.

Lemma AllocateMasks_new g b :
  unallocated g b ->
  view_of (AllocateMasks input g) {| view_partition _ := true; view_order _ _ := true; view_begins := b |}.
Proof.
  intros (Hm & Ho & Hb). unfold AllocateMasks. rewrite Hm, Ho.
  split; [apply Initialize_bits | done | | exact Hb]. cbn [order_masks].
  assert (forall keys masks, Forall (fun e : nat * ValidityMask => bits (snd e) (fun _ => true)) masks ->
    Forall (fun e : nat * ValidityMask => bits (snd e) (fun _ => true)) (allocate_orders input keys masks)) as H.
  { induction keys as [| k keys IH]; intros masks Hms; [done |]. cbn [allocate_orders].
    case_bool_decide; apply IH; [done |]. apply Forall_app. split; [done |]. constructor; [apply Initialize_bits | done]. }
  by apply H.
Qed.

Lemma AllocateMasks_again g v : view_of g v -> AllocateMasks input g = g.
Proof. intros [[[_ Hs] _] _ _ _]. unfold AllocateMasks. by rewrite Hs. Qed.

(** ** Clearing the rows of a task *)

Definition in_rows (a b : Z) j : bool := (a <=? j) && (j <? b).

Definition cleared (a b : Z) (x : Z -> bool) j : bool := if in_rows a b j then j =? 0 else x j.

Definition clears (clear : ValidityMask -> option ValidityMask) (a b : Z) : Prop :=
  forall m, mask_ok m -> exists m', clear m = Some m' /\ mask_ok m' /\
    forall j, 0 <= j < n -> RowIsValid m' j = if in_rows a b j then false else RowIsValid m j.

Lemma clear_masks_ok clear block_begin a b g v :
  clears clear a b -> 0 < n -> 0 <= a < b -> (block_begin = 0%nat <-> a = 0) -> view_of g v ->
  exists g', clear_masks clear block_begin g = Some g' /\
    view_of g' {| view_partition := cleared a b (view_partition v);
                  view_order k := cleared a b (view_order v k); view_begins := view_begins v |}.
Proof.
  intros Hclear Hn Hab Hbegin Hv. unfold clear_masks.
  assert (forall m x, bits m x -> exists m', (m ← clear m; first_row block_begin m) = Some m' /\ bits m' (cleared a b x)) as Hinit.
  { intros m x [Hm Hx]. destruct (Hclear m Hm) as (m1 & E & Hm1 & Hb1). rewrite E. cbn [mbind option_bind].
    unfold first_row. destruct (Nat.eqb_spec block_begin 0) as [H0 | H0].
    - destruct (SetValidUnsafe_ok m1 0 Hm1 ltac:(lia)) as (m2 & E2 & Hm2 & Hb2). exists m2. split; [done |]. split; [done |].
      intros j Hj. rewrite Hb2, Hb1, Hx by done. unfold cleared. destruct (in_rows a b j) eqn:Er; [done |].
      destruct (Z.eqb_spec j 0) as [-> |]; [| by rewrite orb_false_r]. apply Hbegin in H0. subst a. unfold in_rows in Er.
      rewrite (proj2 (Z.ltb_lt 0 b)) in Er by lia. done.
    - exists m1. split; [done |]. split; [done |]. intros j Hj. rewrite Hb1, Hx by done. unfold cleared.
      destruct (in_rows a b j) eqn:Er; [| done]. symmetry. apply Z.eqb_neq. intros ->.
      apply andb_true_iff in Er as [Er%Z.leb_le _]. apply H0, Hbegin. lia. }
  destruct (on_partition_ok (fun m => m ← clear m; first_row block_begin m) g v _ Hv (fun m => Hinit m _)) as (g1 & -> & Hv1).
  cbn [mbind option_bind].
  destruct (for_orders_ok (fun _ m => m ← clear m; first_row block_begin m) g1 _ (fun k => cleared a b (view_order v k)) Hv1)
    as (g2 & -> & Hv2); [intros k m _; apply Hinit |].
  exists g2. by split.
Qed.

Lemma with_data_set m f m' : with_data m f = Some m' -> IsMaskSet m' = true.
Proof.
  unfold with_data. destruct (validity_mask m); [| done]. cbn [mbind option_bind]. destruct (f _); [| done]. by intros [= <-].
Qed.

Abbreviation start := (block_start (rows input)).

Lemma start_0 : start 0 = 0.
Proof. done. Qed.

Lemma start_last : start (length (rows input)) = n.
Proof. unfold block_start. by rewrite take_ge by done. Qed.

Context (Hne : Forall (fun chunk => chunk <> []) (rows input)).

Lemma start_lt b b' : (b < b' <= length (rows input))%nat -> start b < start b'.
Proof.
  intros Hb. destruct (lookup_lt_is_Some_2 (rows input) b) as [chunk Hc]; [lia |].
  pose proof (block_start_S _ _ _ Hc). destruct (block_nonempty _ Hne _ _ Hc) as (r & ch & ->). rewrite length_cons in H.
  pose proof (block_start_mono (rows input) (S b) b' ltac:(lia)). lia.
Qed.

Lemma start_zero_iff b : (b <= length (rows input))%nat -> b = 0%nat <-> start b = 0.
Proof. intros Hb. split; [by intros -> |]. intros H. destruct b; [done |]. pose proof (start_lt 0 (S b) ltac:(lia)). rewrite start_0 in *. lia. Qed.

(** *** Full chunks *)

Definition full_chunks : Prop :=
  forall b, (b <= length (rows input))%nat -> start b = Z.min (Z.of_nat b * STANDARD_VECTOR_SIZE) n.

Lemma full_range block_begin block_end :
  full_chunks -> (block_begin < block_end <= length (rows input))%nat ->
  let '(begin_entry, end_entry) := task_entries input block_begin block_end in
  0 <= begin_entry < end_entry /\ end_entry <= EntryCount n /\
  forall j, 0 <= j < n -> (begin_entry <= j / 64 < end_entry <-> start block_begin <= j < start block_end).
Proof.
  intros Hf Hb. pose proof (start_lt block_begin block_end Hb) as Hlt. pose proof (block_start_nonneg (rows input) block_begin).
  pose proof (Hf block_begin ltac:(lia)) as E1. pose proof (Hf block_end ltac:(lia)) as E2.
  unfold task_entries, STANDARD_VECTOR_SIZE, EntryCount, BITS_PER_VALUE in *.
  assert ((Z.of_nat block_begin * 2048 + (64 - 1)) / 64 = Z.of_nat block_begin * 32) as -> by zdm.
  split_and!; [zdm | zdm | zdm |]. intros j Hj. zdm.
Qed.

Lemma full_clears block_begin block_end :
  full_chunks -> (block_begin < block_end <= length (rows input))%nat ->
  clears (fun m => SetRangeInvalid m n (fst (task_entries input block_begin block_end))
                     (snd (task_entries input block_begin block_end))) (start block_begin) (start block_end).
Proof.
  intros Hf Hb m [Hw Hs]. pose proof (full_range _ _ Hf Hb) as Hr. destruct (task_entries input block_begin block_end) as [be ee].
  destruct Hr as (H1 & H2 & H3). cbn [fst snd].
  destruct (SetRangeInvalid_rows m n be ee Hw n_nonneg H1 H2) as (m' & E & Hw' & Hb').
  exists m'. split_and!; [done | split; [done |] |].
  - unfold SetRangeInvalid in E. destruct (n =? 0); [injection E as <- | by apply with_data_set in E].
    by destruct m as [[d |] cap].
  - intros j Hj. rewrite Hb' by done. unfold in_rows. case_decide as Hd.
    + apply H3 in Hd; [| done]. by rewrite (proj2 (Z.leb_le _ _)), (proj2 (Z.ltb_lt _ _)) by lia.
    + destruct ((start block_begin <=? j) && (j <? start block_end)) eqn:Er; [| done].
      apply andb_true_iff in Er as [?%Z.leb_le ?%Z.ltb_lt]. destruct Hd. by apply H3.
Qed.

(** *** Chunks of any size *)

Lemma running_sums_lookup (l : list (list (list V))) (x : Z) (i : nat) :
  (i < length l)%nat ->
  running_sums x ((fun chunk => Z.of_nat (length chunk)) <$> l) !! i = Some (x + block_start l (S i)).
Proof.
  revert x i. induction l as [| chunk l IH]; intros x i Hi; [cbn in Hi; lia |].
  rewrite fmap_cons. cbn [running_sums]. destruct i as [| i].
  - cbn. f_equal. unfold block_start. cbn. rewrite app_nil_r. done.
  - cbn [lookup list_lookup]. rewrite length_cons in Hi. rewrite IH by lia. f_equal. unfold block_start.
    cbn [take]. rewrite mjoin_cons, length_app. lia.
Qed.

Lemma small_clears block_begin block_end :
  (block_begin < block_end <= length (rows input))%nat -> (block_end < length (rows input))%nat \/ n mod 64 <> 0 ->
  let '(be, bi) := GetEntryIndex (start block_begin) in
  let '(ee, ei) := GetEntryIndex (start block_end) in
  clears (fun m => SetEntryRangeInvalid m n be bi ee ei) (start block_begin) (start block_end).
Proof.
  intros Hb Hlast. unfold GetEntryIndex, BITS_PER_VALUE. intros m [Hw Hs].
  pose proof (start_lt block_begin block_end Hb) as Hlt. pose proof (block_start_nonneg (rows input) block_begin).
  pose proof (block_start_all (rows input) block_end) as Hall. rewrite <- Hcount in Hall.
  assert (start block_end < n \/ n mod 64 <> 0) as Hn.
  { destruct Hlast as [Hl | Hl]; [left | by right]. rewrite <- start_last. apply start_lt. lia. }
  destruct (SetEntryRangeInvalid_rows m n n (start block_begin / 64) (start block_begin mod 64)
    (start block_end / 64) (start block_end mod 64) Hw) as (m' & E & Hw' & Hb'); [lia | lia | | | | | |].
  1-5: unfold EntryCount, BITS_PER_VALUE; zdm.
  exists m'. split_and!; [done | split; [done |] |].
  - unfold SetEntryRangeInvalid in E. rewrite (proj2 (Z.eqb_neq n 0)) in E by lia. by apply with_data_set in E.
  - intros j Hj. rewrite Hb' by done. unfold in_rows. case_decide as Hd.
    + rewrite (proj2 (Z.leb_le _ _)), (proj2 (Z.ltb_lt _ _)) by zdm. done.
    + destruct ((start block_begin <=? j) && (j <? start block_end)) eqn:Er; [| done].
      apply andb_true_iff in Er as [?%Z.leb_le ?%Z.ltb_lt]. destruct Hd. zdm.
Qed.

(** ** The result of a task *)

Definition part_start j : bool := (j =? 0) || (is_sorted input && changes 0 key j).
Definition order_start (k : nat) j : bool := (j =? 0) || (is_sorted input && changes 0 k j).

(** The starts kept for a block, without the first row of the group. *)
Definition block_begins (b : nat) : list Z := List.filter part_start (zrange (Z.max 1 (start b)) (start (S b))).

(** The calls that a task has still to process, from row [a]. *)
Definition pending (a : Z) (calls : list (DeltaCall V)) (b : Z) : Prop :=
  if is_sorted input then cover (Z.max 1 a) calls b else calls = [].

(** A task whose masks are cleared and whose calls from row [r] are left. *)
Definition progress_view (a b r : Z) v : View :=
  {| view_partition j := if in_rows a b j then (j =? 0) || ((j <? r) && part_start j) else view_partition v j;
     view_order k j := if in_rows a b j then (j =? 0) || ((j <? r) && order_start k j) else view_order v k j;
     view_begins := view_begins v |}.

Lemma n_positive b : (b < length (rows input))%nat -> 0 < n.
Proof.
  intros Hb. rewrite <- start_last. pose proof (start_lt b (length (rows input)) ltac:(lia)).
  pose proof (block_start_nonneg (rows input) b). lia.
Qed.

Lemma cleared_progress a b v :
  0 <= a ->
  forall g, view_of g {| view_partition := cleared a b (view_partition v);
               view_order k := cleared a b (view_order v k); view_begins := view_begins v |} ->
  view_of g (progress_view a b a v).
Proof.
  intros Ha g Hg. eapply view_of_ext; [| | | exact Hg]; cbn [view_partition view_order view_begins progress_view]; [| | done].
  - intros j Hj. unfold cleared. destruct (in_rows a b j) eqn:Er; [| done].
    apply andb_true_iff in Er as [?%Z.leb_le _]. by rewrite (proj2 (Z.ltb_ge j a)), orb_false_r by lia.
  - intros k j _ Hj. unfold cleared. destruct (in_rows a b j) eqn:Er; [| done].
    apply andb_true_iff in Er as [?%Z.leb_le _]. by rewrite (proj2 (Z.ltb_ge j a)), orb_false_r by lia.
Qed.

Lemma block_calls_ok block_begin block_end :
  (block_begin < block_end <= length (rows input))%nat ->
  exists calls, block_calls distinct_from input block_begin block_end = Some calls /\
    pending (start block_begin) calls (start block_end) /\
    Forall (fun c => (block_begin <= call_block c < block_end)%nat) calls.
Proof.
  intros Hb. unfold block_calls, pending. destruct (is_sorted input); [by apply WindowDeltaScanner_ok | by exists []].
Qed.

Lemma begin_masks_ok block_begin block_end g v :
  full_chunks -> (block_begin < block_end <= length (rows input))%nat -> view_of g v ->
  exists g' calls, begin_masks distinct_from input block_begin block_end g = Some (g', calls) /\
    view_of g' (progress_view (start block_begin) (start block_end) (start block_begin) v) /\
    pending (start block_begin) calls (start block_end) /\
    Forall (fun c => (block_begin <= call_block c < block_end)%nat) calls.
Proof.
  intros Hf Hb Hv. unfold begin_masks. pose proof (full_range _ _ Hf Hb) as Hr. pose proof (full_clears _ _ Hf Hb) as Hclear.
  destruct (task_entries input block_begin block_end) as [be ee]. destruct Hr as (Hr & _ & _). cbn [fst snd] in Hclear.
  rewrite (proj2 (Z.leb_gt _ _)) by lia.
  pose proof (block_start_nonneg (rows input) block_begin). pose proof (start_lt block_begin block_end Hb).
  destruct (clear_masks_ok _ block_begin _ _ g v Hclear) as (g' & -> & Hv'); [apply (n_positive block_begin); lia | lia | apply start_zero_iff; lia | done |].
  cbn [mbind option_bind]. destruct (block_calls_ok _ _ Hb) as (calls & -> & Hp & Hall). cbn [mbind option_bind].
  exists g', calls. split_and!; [done | by apply cleared_progress | done | done].
Qed.

(** One call moves the progress of its task. *)
Lemma pending_step a b r c calls g v :
  0 <= a -> a <= r -> pending r (c :: calls) b -> view_of g (progress_view a b r v) ->
  exists g', process_delta g c = Some g' /\
    let r' := call_row c + Z.of_nat (call_length c) in
    r <= r' <= b /\ 1 <= r' /\ pending r' calls b /\
    view_of g' (progress_view a b r' {| view_partition := view_partition v; view_order := view_order v;
      view_begins bl := if decide (bl = call_block c) then view_begins v bl ++ call_begins c else view_begins v bl |}).
Proof.
  unfold pending. destruct (is_sorted input) eqn:Es; [| done]. intros Ha Har Hcov Hv.
  pose proof Hcov as (Hc & Er & H1 & H2 & H3 & Hrest). pose proof (cover_le _ _ _ Hrest) as Hle.
  destruct (process_delta_ok c g _ Hc H3 Hv) as (g' & E & Hv'). exists g'. split; [done |].
  cbn zeta. split_and!; [lia | lia | lia | rewrite Z.max_r by lia; by rewrite <- Er in Hrest |].
  assert (forall j x y, 0 <= j -> (if in_rows a b j then (j =? 0) || ((j <? r) && ((j =? 0) || x)) else y) || (in_call c j && x) =
    if in_rows a b j then (j =? 0) || ((j <? call_row c + Z.of_nat (call_length c)) && ((j =? 0) || x)) else y) as Hx.
  { intros j x y Hj. unfold in_rows, in_call.
    destruct (Z.leb_spec a j), (Z.ltb_spec j b), (Z.ltb_spec j r), (Z.eqb_spec j 0), (Z.leb_spec (call_row c) j),
      (Z.ltb_spec j (call_row c + Z.of_nat (call_length c))); try lia; destruct x, y; cbn; try done; lia. }
  eapply view_of_ext; [| | | exact Hv']; cbn [view_partition view_order view_begins progress_view]; [| | done].
  - intros j [Hj _]. unfold part_start. rewrite Es. cbn [andb]. by apply Hx.
  - intros k j _ [Hj _]. unfold order_start. rewrite Es. cbn [andb]. by apply Hx.
Qed.

(** What is kept and what is still to come for a block makes its starts; they are in order
    if there is at most one partition column. *)
Definition begins_inv v (calls : list (DeltaCall V)) (b : nat) : Prop :=
  view_begins v b ++ begins_of b calls ≡ₚ block_begins b /\
  ((key <= 1)%nat -> view_begins v b ++ begins_of b calls = block_begins b).

Lemma filter_zrange_inside (f P : Z -> bool) a a' b' b :
  a <= a' <= b' -> b' <= b -> (forall j, a <= j < b -> f j = in_rows a' b' j) ->
  List.filter (fun j => f j && P j) (zrange a b) = List.filter P (zrange a' b').
Proof.
  intros H1 H2 Hf. rewrite (zrange_split a a' b), (zrange_split a' b' b), !List.filter_app by lia.
  rewrite (filter_zrange_none _ a a'), (filter_zrange_none _ b' b), app_nil_r; cycle 1.
  { intros j Hj. rewrite Hf by lia. unfold in_rows. by rewrite (proj2 (Z.ltb_ge j b')), andb_false_r by lia. }
  { intros j Hj. rewrite Hf by lia. unfold in_rows. by rewrite (proj2 (Z.leb_gt a' j)) by lia. }
  cbn. apply List.filter_ext_in. intros j Hj%list_elem_of_In%elem_of_zrange. rewrite Hf by lia. unfold in_rows.
  by rewrite (proj2 (Z.leb_le _ _)), (proj2 (Z.ltb_lt _ _)) by lia.
Qed.

Lemma block_calls_begins block_begin block_end calls v bl :
  (block_begin <= bl < block_end)%nat -> (block_end <= length (rows input))%nat ->
  pending (start block_begin) calls (start block_end) -> view_begins v bl = [] -> begins_inv v calls bl.
Proof.
  intros Hbl Hend Hp Hv. unfold begins_inv. rewrite Hv. cbn [app]. unfold pending in Hp. unfold block_begins, part_start.
  pose proof (start_lt bl (S bl) ltac:(lia)). pose proof (block_start_nonneg (rows input) bl).
  destruct (is_sorted input); cycle 1.
  { subst calls. cbn. rewrite filter_zrange_none; [by split |]. intros j Hj. by rewrite orb_false_r; apply Z.eqb_neq; lia. }
  destruct (begins_of_rows bl calls _ _ Hp) as [H1 H2].
  pose proof (block_start_mono (rows input) block_begin bl ltac:(lia)). pose proof (block_start_mono (rows input) (S bl) block_end ltac:(lia)).
  rewrite (filter_zrange_inside (in_block bl) (changes 0 key) _ (Z.max 1 (start bl)) (start (S bl))) in H1, H2; [| lia | lia | | lia | lia |].
  2-3: intros j Hj; unfold in_block, in_rows; f_equal; destruct (Z.leb_spec (start bl) j), (Z.leb_spec (Z.max 1 (start bl)) j); lia || done.
  rewrite (List.filter_ext_in (fun j => (j =? 0) || (true && changes 0 key j)) (changes 0 key)); [by split |].
  intros j Hj%list_elem_of_In%elem_of_zrange. by rewrite (proj2 (Z.eqb_neq j 0)) by lia.
Qed.

Lemma begins_inv_step v c calls b :
  begins_inv v (c :: calls) b ->
  begins_inv {| view_partition := view_partition v; view_order := view_order v;
    view_begins bl := if decide (bl = call_block c) then view_begins v bl ++ call_begins c else view_begins v bl |} calls b.
Proof.
  unfold begins_inv, begins_of. rewrite fmap_cons, mjoin_cons. cbn [view_begins].
  repeat case_decide; try congruence; [by rewrite <- app_assoc | by rewrite app_nil_l].
Qed.

(** All the calls of a task. *)
Lemma pending_all a b r calls g v :
  0 <= a -> a <= r -> pending r calls b -> view_of g (progress_view a b r v) ->
  exists g', ofold process_delta g calls = Some g' /\
    view_of g' {| view_partition j := if in_rows a b j then part_start j else view_partition v j;
                  view_order k j := if in_rows a b j then order_start k j else view_order v k j;
                  view_begins bl := view_begins v bl ++ begins_of bl calls |}.
Proof.
  revert r g v. induction calls as [| c calls IH]; intros r g v Ha Har Hp Hv.
  - exists g. split; [done |]. unfold pending in Hp.
    assert (forall j x, in_rows a b j = true -> (j =? 0) || ((j <? r) && ((j =? 0) || (is_sorted input && x))) =
      (j =? 0) || (is_sorted input && x)) as Hx.
    { intros j x [Hj1%Z.leb_le Hj2%Z.ltb_lt]%andb_true_iff. destruct (is_sorted input).
      - cbn in Hp. destruct (Z.eqb_spec j 0); [done |]. by rewrite (proj2 (Z.ltb_lt j r)) by lia.
      - cbn. by rewrite orb_false_r; destruct (Z.eqb_spec j 0), (j <? r). }
    eapply view_of_ext; [| | | exact Hv]; cbn [view_partition view_order view_begins progress_view].
    + intros j _. unfold part_start. destruct (in_rows a b j) eqn:Er; [by apply Hx | done].
    + intros k j _ _. unfold order_start. destruct (in_rows a b j) eqn:Er; [by apply Hx | done].
    + intros bl _. by rewrite app_nil_r.
  - destruct (pending_step a b r c calls g v Ha Har Hp Hv) as (g1 & E & Hr & _ & Hp1 & Hv1).
    rewrite ofold_cons, E. cbn [mbind option_bind]. cbn zeta in *.
    destruct (IH (call_row c + Z.of_nat (call_length c)) g1 _ Ha ltac:(lia) Hp1 Hv1) as (g2 & E2 & Hv2). exists g2. split; [done |].
    eapply view_of_ext; [| | | exact Hv2]; cbn [view_partition view_order view_begins]; [done | done |].
    intros bl _. unfold begins_of. rewrite fmap_cons, mjoin_cons. repeat case_decide; try congruence; [by rewrite <- app_assoc | done].
Qed.

(** A task of ComputeMasksForSmallRuns. *)
Lemma small_masks_ok block_begin block_end g v :
  block_sums input = running_sums 0 ((fun chunk => Z.of_nat (length chunk)) <$> rows input) ->
  (block_begin < block_end <= length (rows input))%nat -> (block_end < length (rows input))%nat \/ n mod 64 <> 0 ->
  view_of g v ->
  exists g' calls, small_masks distinct_from input block_begin block_end g = Some g' /\
    pending (start block_begin) calls (start block_end) /\
    Forall (fun c => (block_begin <= call_block c < block_end)%nat) calls /\
    view_of g' {| view_partition j := if in_rows (start block_begin) (start block_end) j then part_start j else view_partition v j;
                  view_order k j := if in_rows (start block_begin) (start block_end) j then order_start k j else view_order v k j;
                  view_begins bl := view_begins v bl ++ begins_of bl calls |}.
Proof.
  intros Hsums Hb Hlast Hv. unfold small_masks. rewrite Hsums.
  assert ((if (block_begin =? 0)%nat then Some 0
    else running_sums 0 ((fun chunk => Z.of_nat (length chunk)) <$> rows input) !! pred block_begin) = Some (start block_begin)) as ->.
  { destruct block_begin as [| b]; [done |]. cbn [Nat.eqb pred]. rewrite running_sums_lookup by lia. done. }
  cbn [mbind option_bind]. rewrite (running_sums_lookup _ 0 (pred block_end)) by lia. cbn [mbind option_bind].
  replace (S (pred block_end)) with block_end by lia. rewrite Z.add_0_l.
  pose proof (small_clears _ _ Hb Hlast) as Hclear.
  destruct (GetEntryIndex (start block_begin)) as [be bi]. destruct (GetEntryIndex (start block_end)) as [ee ei].
  pose proof (block_start_nonneg (rows input) block_begin). pose proof (start_lt block_begin block_end Hb).
  destruct (clear_masks_ok _ block_begin _ _ g v Hclear) as (g1 & -> & Hv1);
    [apply (n_positive block_begin); lia | lia | apply start_zero_iff; lia | done |].
  cbn [mbind option_bind]. destruct (block_calls_ok _ _ Hb) as (calls & -> & Hp & Hall). cbn [mbind option_bind].
  apply cleared_progress in Hv1; [| done].
  destruct (pending_all (start block_begin) (start block_end) (start block_begin) calls g1 v ltac:(lia) ltac:(lia) Hp Hv1) as (g2 & E & Hv2). exists g2, calls. by split_and!.
Qed.
(** A task of ComputeMasks. *)
Lemma full_masks_ok block_begin block_end g v :
  full_chunks -> (block_begin < block_end <= length (rows input))%nat -> view_of g v ->
  exists g' calls, ('(g, calls) ← begin_masks distinct_from input block_begin block_end g; ofold process_delta g calls) = Some g' /\
    pending (start block_begin) calls (start block_end) /\
    Forall (fun c => (block_begin <= call_block c < block_end)%nat) calls /\
    view_of g' {| view_partition j := if in_rows (start block_begin) (start block_end) j then part_start j else view_partition v j;
                  view_order k j := if in_rows (start block_begin) (start block_end) j then order_start k j else view_order v k j;
                  view_begins bl := view_begins v bl ++ begins_of bl calls |}.
Proof.
  intros Hf Hb Hv. destruct (begin_masks_ok _ _ g v Hf Hb Hv) as (g1 & calls & -> & Hv1 & Hp & Hall). cbn [mbind option_bind].
  pose proof (block_start_nonneg (rows input) block_begin).
  destruct (pending_all (start block_begin) (start block_end) (start block_begin) calls g1 v ltac:(lia) ltac:(lia) Hp Hv1)
    as (g2 & E & Hv2). exists g2, calls. by split_and!.
Qed.

(** ** All tasks *)

(** The masks and the starts of a group are those of its rows. *)
Definition masks_complete (g : GroupMasks) : Prop :=
  exists v, view_of g v /\
    (forall j, 0 <= j < n -> view_partition v j = part_start j) /\
    (forall k j, k ∈ order_list -> 0 <= j < n -> view_order v k j = order_start k j) /\
    (forall b, (b < length (rows input))%nat -> begins_inv v [] b).

Lemma row_block j : 0 <= j < n -> exists b, (b < length (rows input))%nat /\ start b <= j < start (S b).
Proof.
  rewrite <- start_last. generalize (length (rows input)). intros k. induction k as [| k IH]; intros Hj.
  - rewrite start_0 in Hj. lia.
  - destruct (Z.lt_ge_cases j (start k)) as [Hlt | Hge].
    + destruct IH as (b & Hb & ?); [lia |]. exists b. lia.
    + exists k. lia.
Qed.

(** The masks of the blocks of [done] are set, and nothing is kept for the other blocks. *)
Definition masks_done (g : GroupMasks) (done : list nat) : Prop :=
  exists v, view_of g v /\
    (forall b, b ∈ done -> begins_inv v [] b /\ forall j, start b <= j < start (S b) ->
      view_partition v j = part_start j /\ forall k, k ∈ order_list -> view_order v k j = order_start k j) /\
    (forall b, b ∉ done -> view_begins v b = []).

Lemma masks_done_perm g done done' : done ≡ₚ done' -> masks_done g done -> masks_done g done'.
Proof.
  intros Hp (v & Hv & H1 & H2). exists v. split_and!; [done | |].
  - intros b. rewrite <- Hp. apply H1.
  - intros b. rewrite <- Hp. apply H2.
Qed.

Lemma masks_done_all g : masks_done g (seq 0 (length (rows input))) -> masks_complete g.
Proof.
  intros (v & Hv & H1 & _). exists v. split_and!; [done | | |].
  - intros j Hj. destruct (row_block j Hj) as (b & Hb & Hbj). apply (H1 b); [apply elem_of_seq; lia | done].
  - intros k j Hk Hj. destruct (row_block j Hj) as (b & Hb & Hbj). apply (H1 b); [apply elem_of_seq; lia | done | done].
  - intros b Hb. apply H1, elem_of_seq. lia.
Qed.

Lemma begins_inv_all v calls b :
  begins_inv v calls b ->
  forall v', view_begins v' b = view_begins v b ++ begins_of b calls -> begins_inv v' [] b.
Proof. unfold begins_inv. intros [H1 H2] v' ->. cbn. by rewrite app_nil_r. Qed.

Lemma begins_of_outside b calls x y :
  Forall (fun c => (x <= call_block c < y)%nat) calls -> ~ (x <= b < y)%nat -> begins_of b calls = [].
Proof.
  intros Hall Hb. induction Hall as [| c calls Hc Hall IH]; [done |]. unfold begins_of. rewrite fmap_cons, mjoin_cons.
  fold (begins_of b calls). rewrite IH, decide_False by (intros <-; lia). done.
Qed.

Lemma masks_done_task block_begin block_end calls g' v done :
  (block_begin < block_end <= length (rows input))%nat ->
  (forall b, b ∈ done -> ~ (block_begin <= b < block_end)%nat /\ (b < length (rows input))%nat) ->
  pending (start block_begin) calls (start block_end) ->
  Forall (fun c => (block_begin <= call_block c < block_end)%nat) calls ->
  (forall b, b ∈ done -> begins_inv v [] b /\ forall j, start b <= j < start (S b) ->
      view_partition v j = part_start j /\ forall k, k ∈ order_list -> view_order v k j = order_start k j) ->
  (forall b, b ∉ done -> view_begins v b = []) ->
  view_of g' {| view_partition j := if in_rows (start block_begin) (start block_end) j then part_start j else view_partition v j;
                view_order k j := if in_rows (start block_begin) (start block_end) j then order_start k j else view_order v k j;
                view_begins bl := view_begins v bl ++ begins_of bl calls |} ->
  masks_done g' (done ++ seq block_begin (block_end - block_begin)).
Proof.
  intros Hb Hdone Hp Hall H1 H2 Hv. eexists. split; [exact Hv |]. cbn [view_partition view_order view_begins]. split.
  - intros b [Hin | [Hge Hlt]%elem_of_seq]%elem_of_app.
    + destruct (Hdone b Hin) as [Hout Hlen]. destruct (H1 b Hin) as [Hi Hrows]. split.
      * eapply begins_inv_all; [exact Hi |]. cbn. by rewrite (begins_of_outside b calls _ _ Hall Hout), app_nil_r.
      * intros j Hj. assert (in_rows (start block_begin) (start block_end) j = false) as ->; [| by apply Hrows].
        unfold in_rows. destruct (Nat.lt_ge_cases b block_begin) as [Hlt | Hge].
        -- pose proof (block_start_mono (rows input) (S b) block_begin Hlt). by rewrite (proj2 (Z.leb_gt (start block_begin) j)) by lia.
        -- pose proof (block_start_mono (rows input) block_end b ltac:(lia)).
           by rewrite (proj2 (Z.ltb_ge j (start block_end))), andb_false_r by lia.
    + assert (b ∉ done) as Hn by (intros [Hout _]%Hdone; apply Hout; lia). split.
      * eapply (begins_inv_all v calls); [| done]. apply (block_calls_begins block_begin block_end); [lia | lia | done | by apply H2].
      * intros j Hj. pose proof (block_start_mono (rows input) block_begin b Hge).
        pose proof (block_start_mono (rows input) (S b) block_end ltac:(lia)).
        assert (in_rows (start block_begin) (start block_end) j = true) as ->; [| done].
        unfold in_rows. by rewrite (proj2 (Z.leb_le _ _)), (proj2 (Z.ltb_lt _ _)) by lia.
  - intros b Hn. rewrite not_elem_of_app in Hn. destruct Hn as [Hn1 Hn2]. rewrite H2 by done.
    apply (begins_of_outside b calls block_begin block_end Hall). intros Hin. apply Hn2, elem_of_seq. lia.
Qed.

Lemma masks_done_allocated g :
  unallocated g (fun _ => []) -> masks_done (AllocateMasks input g) [].
Proof.
  intros H%AllocateMasks_new. eexists. split; [exact H |]. split; [| done]. by intros b Hb%not_elem_of_nil.
Qed.

(** The tasks of the two versions. *)
Definition mask_task (small : bool) (g : GroupMasks) (t : nat * nat) : option GroupMasks :=
  if small then ComputeMasksForSmallRuns distinct_from input (fst t) (snd t) g
  else ComputeMasks distinct_from input (fst t) (snd t) g.

Definition chunks_ok (small : bool) : Prop :=
  if small then
    block_sums input = running_sums 0 ((fun chunk => Z.of_nat (length chunk)) <$> rows input) /\ n mod 64 <> 0
  else full_chunks.

Lemma mask_task_ok small g done block_begin block_end :
  chunks_ok small -> (block_begin < block_end <= length (rows input))%nat ->
  (forall b, b ∈ done -> ~ (block_begin <= b < block_end)%nat /\ (b < length (rows input))%nat) ->
  masks_done (AllocateMasks input g) done ->
  exists g', mask_task small g (block_begin, block_end) = Some g' /\ masks_done g' (done ++ seq block_begin (block_end - block_begin)).
Proof.
  intros Hchunks Hb Hd (v & Hv & H1 & H2). destruct small.
  - destruct Hchunks as [Hs Hn].
    destruct (small_masks_ok block_begin block_end _ v Hs Hb (or_intror Hn) Hv) as (g' & calls & E & Hp & Hall & Hv').
    exists g'. split; [exact E |]. by eapply masks_done_task.
  - destruct (full_masks_ok block_begin block_end _ v Hchunks Hb Hv) as (g' & calls & E & Hp & Hall & Hv').
    exists g'. split; [exact E |]. by eapply masks_done_task.
Qed.

Abbreviation task_blocks := (fun t : nat * nat => seq (fst t) (snd t - fst t)).

Lemma mask_tasks_ok small tasks g done :
  chunks_ok small -> Forall (fun t => fst t < snd t <= length (rows input))%nat tasks ->
  NoDup (done ++ mjoin (task_blocks <$> tasks)) -> (forall b, b ∈ done -> (b < length (rows input))%nat) ->
  masks_done (AllocateMasks input g) done ->
  exists g', ofold (mask_task small) g tasks = Some g' /\
    masks_done (AllocateMasks input g') (done ++ mjoin (task_blocks <$> tasks)) /\
    (AllocateMasks input g = g \/ tasks <> [] -> AllocateMasks input g' = g').
Proof.
  intros Hchunks Ht. revert g done. induction Ht as [| [x y] tasks Hxy Ht IH]; intros g done Hnd Hlt Hg.
  { exists g. cbn [fmap list_fmap mjoin list_join]. rewrite app_nil_r. split_and!; [done | done | by intros [|]]. }
  rewrite fmap_cons, mjoin_cons, app_assoc in Hnd |- *. cbn [fst snd] in *.
  assert (forall b, b ∈ done -> ~ (x <= b < y)%nat) as Hout.
  { intros b Hb Hin. apply NoDup_app in Hnd as [Hnd _]. apply NoDup_app in Hnd as (_ & Hnd & _).
    apply (Hnd b Hb), elem_of_seq. lia. }
  destruct (mask_task_ok small g done x y Hchunks Hxy) as (g1 & E & Hg1); [by split; auto | done |].
  assert (AllocateMasks input g1 = g1) as Ha by (destruct Hg1 as (v & Hv & _); by apply AllocateMasks_again in Hv).
  rewrite ofold_cons, E. cbn [mbind option_bind]. destruct (IH g1 _ Hnd) as (g' & E' & Hg' & Hset); [| by rewrite Ha |].
  - intros b [Hb | Hb%elem_of_seq]%elem_of_app; [by apply Hlt | lia].
  - exists g'. split_and!; [done | done |]. intros _. apply Hset. by left.
Qed.
End masks.

Section masks_theorems.
Context {V : Type} (distinct_from : V -> V -> bool) (input : MaskInput V).

(** C17. The mask tasks, in any order and for any ranges of chunks that make up the group:
    each succeeds, and after the last one the partition mask and every order mask are set
    exactly at row 0 and at the rows whose columns differ from those of the row before, and
    the starts that are kept for each chunk are its partition starts but row 0 (in order, with at most
    one partition column).  The chunks of ComputeMasks are full; those of
    ComputeMasksForSmallRuns have any size, but the number of rows of the group
    is not a multiple of 64 ([chunks_ok]): with a multiple of 64 the last task accesses a mask
    behind its end (finding validity_mask.hpp:292). *)
Theorem ComputeMasks_correct (small : bool) (tasks : list (nat * nat)) (g : GroupMasks) :
  row_count input = Z.of_nat (length (mjoin (rows input))) ->
  Forall (fun k => key_count input <= k)%nat (order_keys input) ->
  Forall (fun chunk => chunk <> []) (rows input) -> (0 < length (rows input))%nat ->
  chunks_ok input small -> unallocated input g (fun _ => []) ->
  Forall (fun t => fst t < snd t)%nat tasks ->
  mjoin ((fun t => seq (fst t) (snd t - fst t)) <$> tasks) ≡ₚ seq 0 (length (rows input)) ->
  exists g', ofold (mask_task distinct_from input small) g tasks = Some g' /\ masks_complete distinct_from input g'.
Proof.
  intros Hcount Hkeys Hne Hlen Hchunks Hg Ht Hp.
  assert (Forall (fun t => fst t < snd t <= length (rows input))%nat tasks) as Ht'.
  { rewrite Forall_forall in Ht |- *. intros t Hin. split; [by apply Ht |]. specialize (Ht t Hin).
    assert (pred (snd t) ∈ seq 0 (length (rows input))) as Hx%elem_of_seq; [| lia]. rewrite <- Hp.
    apply list_elem_of_join. eexists. split; [| by apply list_elem_of_fmap_2]. apply elem_of_seq. lia. }
  destruct (mask_tasks_ok distinct_from input Hcount Hkeys Hne small tasks g [] Hchunks Ht') as (g' & E & Hd & Hset).
  { cbn [app]. rewrite Hp. apply NoDup_seq. }
  { by intros b Hb%not_elem_of_nil. }
  { by apply masks_done_allocated. }
  exists g'. split; [done |]. rewrite Hset in Hd; cycle 1.
  { right. intros ->. apply Permutation_nil in Hp. apply (f_equal length) in Hp. rewrite length_seq in Hp. cbn in Hp. lia. }
  by apply (masks_done_all distinct_from input), (masks_done_perm distinct_from input _ _ _ Hp).
Qed.
End masks_theorems.

(** Eleven rows in five chunks, partitioned by the first column and ordered by the second. *)
Definition mask_example : MaskInput Z :=
  let rows := [[[1; 1]; [1; 1]; [1; 2]]; [[2; 1]]; [[2; 1]; [2; 2]; [3; 3]; [3; 4]]; [[3; 4]; [3; 4]]; [[4; 4]]] in
  let '(begins, sums) := WindowHashGroup_blocks true true rows in
  {| rows := rows; row_count := 11; order_keys := [2; 1]%nat; key_count := 1; is_sorted := true; set_begins := true;
     block_sums := sums |}.

Definition masks_example : GroupMasks :=
  {| partition_mask := ValidityMask_empty 0; order_masks := []; partition_begins := replicate 5 [] |}.

Lemma ComputeMasks_correct_witness :
  exists g', ofold (mask_task (fun a b => negb (a =? b)) mask_example true) masks_example [(2, 5); (0, 2)]%nat = Some g' /\
    masks_complete (fun a b => negb (a =? b)) mask_example g'.
Proof.
  apply (ComputeMasks_correct (fun a b => negb (a =? b)) mask_example true [(2, 5); (0, 2)]%nat masks_example).
  - reflexivity.
  - repeat constructor.
  - repeat constructor; discriminate.
  - vm_compute. lia.
  - split; [reflexivity | vm_compute; lia].
  - split; [reflexivity |]. split; [reflexivity |]. intros _. split; [reflexivity |].
    intros b l Hl. apply lookup_replicate_1 in Hl as [-> _]. reflexivity.
  - repeat constructor.
  - apply (bool_decide_unpack _). vm_compute. exact I.
Defined.

Example masks_example_begins :
  (g ← ofold (mask_task (fun a b => negb (a =? b)) mask_example true) masks_example [(2, 5); (0, 2)]%nat;
   Some (partition_begins g)) = Some [[]; [3]; [6]; []; [10]].
Proof. vm_compute. reflexivity. Qed.
