(* ===== verification/WindowSource.v ===== *)
(** * The source of the window operator

    execution/operator/aggregate/physical_window.cpp: threads take tasks of the hash groups.
    A group goes through four stages (the masks, the sink of the functions, their
    finalization, and the output of its chunks), each with one task per range of
    chunks; a stage begins when all tasks of the one before are complete.  A thread
    that finds no task blocks until a stage changes.

    A step of a thread is what it does up to the next lock or atomic access.  The window
    functions are a record of operations on a global state of the group and a local
    state of the task's range.  A result of [None] of a step is a failed assertion or an access
    outside of an array; an operation of a function that fails stops the source as an
    exception does. *)

From S2P Require Import Prelude Validity WindowMasks.

(** ** Stages and tasks *)

Inductive WindowGroupStage : Set := MASK | SINK | FINALIZE | GETDATA | DONE.

#[export] Instance WindowGroupStage_eq_dec : EqDecision WindowGroupStage.
Proof. solve_decision. Defined.

(** [WindowGroupStage(i)] *)
Definition stage_of (i : nat) : WindowGroupStage :=
  match i with 0 => MASK | 1 => SINK | 2 => FINALIZE | 3 => GETDATA | _ => DONE end%nat.

Definition stage_index (stage : WindowGroupStage) : nat :=
  match stage with MASK => 0 | SINK => 1 | FINALIZE => 2 | GETDATA => 3 | DONE => 4 end%nat.

Record WindowSourceTask := {
  task_stage : WindowGroupStage;
  group_idx : nat;
  thread_idx : nat;
  max_idx : nat;
  begin_idx : nat;
  end_idx : nat
}.

Definition set_begin_idx (i : nat) (t : WindowSourceTask) : WindowSourceTask :=
  {| task_stage := task_stage t; group_idx := group_idx t; thread_idx := thread_idx t; max_idx := max_idx t;
     begin_idx := i; end_idx := end_idx t |}.

(** ** The functions *)

(** The operations of the executors of all window functions of the operator. *)
Record WindowExecutors (V G L Res : Type) := {
  GetGlobalState : Z -> GroupMasks -> G;
  GetLocalState : G -> L;
  executor_Sink : list (list V) -> Z -> G -> L -> option (G * L);
  executor_Finalize : G -> L -> option (G * L);
  (* the position, the chunk, and the starts kept for it; the results and the selection *)
  executor_Evaluate : Z -> list (list V) -> list Z -> G -> L -> option (list Res * option (list nat) * L)
}.
Arguments GetGlobalState {V G L Res} _.
Arguments GetLocalState {V G L Res} _.
Arguments executor_Sink {V G L Res} _.
Arguments executor_Finalize {V G L Res} _.
Arguments executor_Evaluate {V G L Res} _.

(** The settings of the operator. *)
Record WindowSourceConfig := { use_filter : bool; early_out : bool; shrink_runs : bool }.

(** ** Hash groups *)

Record WindowHashGroup (V G L : Type) := {
  group_input : MaskInput V;
  stage : WindowGroupStage;
  per_thread : nat;
  group_threads : nat;
  next_task : nat;
  masked : nat;
  sunk : Z;
  finalized : nat;
  group_completed : nat;
  batch_base : nat;
  group_masks : GroupMasks;
  gestates : option G;
  (* one per thread, [None] where it is empty *)
  thread_states : list (option L)
}.
Arguments group_input {V G L} _.
Arguments stage {V G L} _.
Arguments per_thread {V G L} _.
Arguments group_threads {V G L} _.
Arguments next_task {V G L} _.
Arguments masked {V G L} _.
Arguments sunk {V G L} _.
Arguments finalized {V G L} _.
Arguments group_completed {V G L} _.
Arguments batch_base {V G L} _.
Arguments group_masks {V G L} _.
Arguments gestates {V G L} _.
Arguments thread_states {V G L} _.

Section group.
Context {V G L : Type}.
Abbreviation Group := (WindowHashGroup V G L).

Definition set_stage (x : WindowGroupStage) (g : Group) : Group :=
  {| group_input := group_input g; stage := x; per_thread := per_thread g; group_threads := group_threads g;
     next_task := next_task g; masked := masked g; sunk := sunk g; finalized := finalized g;
     group_completed := group_completed g; batch_base := batch_base g; group_masks := group_masks g;
     gestates := gestates g; thread_states := thread_states g |}.

Definition set_next_task (x : nat) (g : Group) : Group :=
  {| group_input := group_input g; stage := stage g; per_thread := per_thread g; group_threads := group_threads g;
     next_task := x; masked := masked g; sunk := sunk g; finalized := finalized g;
     group_completed := group_completed g; batch_base := batch_base g; group_masks := group_masks g;
     gestates := gestates g; thread_states := thread_states g |}.

(** [masked], [sunk], [finalized] and [completed] *)
Definition add_counts (m : nat) (s : Z) (f c : nat) (g : Group) : Group :=
  {| group_input := group_input g; stage := stage g; per_thread := per_thread g; group_threads := group_threads g;
     next_task := next_task g; masked := masked g + m; sunk := sunk g + s; finalized := finalized g + f;
     group_completed := group_completed g + c; batch_base := batch_base g; group_masks := group_masks g;
     gestates := gestates g; thread_states := thread_states g |}.

Definition set_group_masks (x : GroupMasks) (g : Group) : Group :=
  {| group_input := group_input g; stage := stage g; per_thread := per_thread g; group_threads := group_threads g;
     next_task := next_task g; masked := masked g; sunk := sunk g; finalized := finalized g;
     group_completed := group_completed g; batch_base := batch_base g; group_masks := x;
     gestates := gestates g; thread_states := thread_states g |}.

Definition set_states (x : option G) (y : list (option L)) (g : Group) : Group :=
  {| group_input := group_input g; stage := stage g; per_thread := per_thread g; group_threads := group_threads g;
     next_task := next_task g; masked := masked g; sunk := sunk g; finalized := finalized g;
     group_completed := group_completed g; batch_base := batch_base g; group_masks := group_masks g;
     gestates := x; thread_states := y |}.

(** [count] and [blocks], the number of chunks *)
Definition count (g : Group) : Z := row_count (group_input g).
Definition blocks (g : Group) : nat := length (rows (group_input g)).

Definition GetThreadCount (g : Group) : nat := group_threads g.

Definition GetTaskCount (g : Group) : nat := GetThreadCount g * (stage_index DONE - stage_index MASK).

Definition WindowHashGroup_new (config : WindowSourceConfig) (collection : list (list (list V))) (keys : list nat)
    (partitions : nat) (sort : bool) (batch : nat) : Group :=
  let '(begins, sums) := WindowHashGroup_blocks (early_out config) (shrink_runs config) collection in
  {| group_input := {| rows := collection; row_count := Z.of_nat (length (mjoin collection)); order_keys := keys;
                       key_count := partitions; is_sorted := sort; set_begins := early_out config; block_sums := sums |};
     stage := MASK; per_thread := 0; group_threads := 0; next_task := 0; masked := 0; sunk := 0; finalized := 0;
     group_completed := 0; batch_base := batch;
     group_masks := {| partition_mask := ValidityMask_empty 0; order_masks := []; partition_begins := begins |};
     gestates := None; thread_states := [] |}.

(** Returns the number of tasks. *)
Definition InitTasks (per_thread_p : nat) (g : Group) : option (nat * Group) :=
  if (per_thread_p =? 0)%nat then None
  else
    let threads := ((blocks g + per_thread_p - 1) / per_thread_p)%nat in
    let g := {| group_input := group_input g; stage := stage g; per_thread := per_thread_p; group_threads := threads;
                next_task := next_task g; masked := masked g; sunk := sunk g; finalized := finalized g;
                group_completed := group_completed g; batch_base := batch_base g; group_masks := group_masks g;
                gestates := gestates g; thread_states := replicate threads None |} in
    Some (GetTaskCount g, g).

Definition TryPrepareNextStage (g : Group) : bool * Group :=
  match stage g with
  | MASK => if (masked g =? blocks g)%nat then (true, set_stage SINK g) else (false, g)
  | SINK => if sunk g =? count g then (true, set_stage FINALIZE g) else (false, g)
  | FINALIZE => if (finalized g =? blocks g)%nat then (true, set_stage GETDATA g) else (false, g)
  | GETDATA | DONE => (true, g)
  end.

(** The next task of a group and the group afterwards. *)
Definition group_TryNextTask (hash_bin : nat) (g : Group) : option (WindowSourceTask * Group) :=
  if (GetTaskCount g <=? next_task g)%nat then None
  else if decide (stage_of (next_task g / group_threads g) = stage g) then
    let thread := (next_task g mod group_threads g)%nat in
    let begin := (thread * per_thread g)%nat in
    Some ({| task_stage := stage g; group_idx := hash_bin; thread_idx := thread; max_idx := blocks g;
             begin_idx := begin; end_idx := (begin + per_thread g) `min` blocks g |},
          set_next_task (S (next_task g)) g)
  else None.
End group.

(** ** The global state *)

Record WindowGlobalSourceState (V G L : Type) := {
  window_hash_groups : list (option (WindowHashGroup V G L));
  partition_blocks : list (nat * nat);
  active_groups : list nat;
  next_group : nat;
  total_tasks : nat;
  tasks_started : nat;
  tasks_finished : nat;
  tasks_completed : nat;
  stopped : bool
}.
Arguments window_hash_groups {V G L} _.
Arguments partition_blocks {V G L} _.
Arguments active_groups {V G L} _.
Arguments next_group {V G L} _.
Arguments total_tasks {V G L} _.
Arguments tasks_started {V G L} _.
Arguments tasks_finished {V G L} _.
Arguments tasks_completed {V G L} _.
Arguments stopped {V G L} _.

Section source.
Context {V G L Res : Type} (distinct_from : V -> V -> bool) (executors : WindowExecutors V G L Res).
Context (config : WindowSourceConfig).
Abbreviation Group := (WindowHashGroup V G L).
Abbreviation Global := (WindowGlobalSourceState V G L).
Abbreviation Task := WindowSourceTask.

Definition set_group (i : nat) (g : option Group) (s : Global) : Global :=
  {| window_hash_groups := <[i := g]> (window_hash_groups s); partition_blocks := partition_blocks s;
     active_groups := active_groups s; next_group := next_group s; total_tasks := total_tasks s;
     tasks_started := tasks_started s; tasks_finished := tasks_finished s; tasks_completed := tasks_completed s;
     stopped := stopped s |}.

Definition set_active (active : list nat) (next : nat) (s : Global) : Global :=
  {| window_hash_groups := window_hash_groups s; partition_blocks := partition_blocks s;
     active_groups := active; next_group := next; total_tasks := total_tasks s;
     tasks_started := tasks_started s; tasks_finished := tasks_finished s; tasks_completed := tasks_completed s;
     stopped := stopped s |}.

(** [started], [finished] and [completed] *)
Definition add_tasks (st fi co : nat) (s : Global) : Global :=
  {| window_hash_groups := window_hash_groups s; partition_blocks := partition_blocks s;
     active_groups := active_groups s; next_group := next_group s; total_tasks := total_tasks s;
     tasks_started := tasks_started s + st; tasks_finished := tasks_finished s + fi;
     tasks_completed := tasks_completed s + co; stopped := stopped s |}.

Definition stop (s : Global) : Global :=
  {| window_hash_groups := window_hash_groups s; partition_blocks := partition_blocks s;
     active_groups := active_groups s; next_group := next_group s; total_tasks := total_tasks s;
     tasks_started := tasks_started s; tasks_finished := tasks_finished s; tasks_completed := tasks_completed s;
     stopped := true |}.

Definition HasMoreTasks (s : Global) : bool := negb (stopped s) && (tasks_started s <? total_tasks s)%nat.
Definition HasUnfinishedTasks (s : Global) : bool := negb (stopped s) && (tasks_finished s <? total_tasks s)%nat.

Definition get_group (i : nat) (s : Global) : option Group := window_hash_groups s !! i ≫= fun g => g.

(** *** Set-up *)

(** [std::greater] of two pairs. *)
Definition block_order (p q : nat * nat) : Prop := (fst q < fst p)%nat \/ (fst p = fst q /\ (snd q <= snd p)%nat).

#[local] Instance block_order_dec : RelDecision block_order.
Proof. intros p q. unfold block_order. apply _. Defined.

Definition group_blocks (groups : list (option Group)) : list (nat * nat) :=
  omap (fun p => g ← snd p; Some (blocks g, fst p)) (zip (seq 0 (length groups)) groups).

Definition blocks_per_thread (threads max_block : nat) : nat :=
  let aligned_scale := Z.to_nat (Z.max (BITS_PER_VALUE / STANDARD_VECTOR_SIZE) 1) in
  let aligned_count := ((max_block + aligned_scale - 1) / aligned_scale)%nat in
  (aligned_scale * ((aligned_count + threads - 1) / threads))%nat.

Definition init_group (per_thread : nat) (s : Global) (b : nat * nat) : option Global :=
  g ← get_group (snd b) s;
  '(tasks, g) ← InitTasks per_thread g;
  let s := set_group (snd b) (Some g) s in
  Some {| window_hash_groups := window_hash_groups s; partition_blocks := partition_blocks s;
          active_groups := active_groups s; next_group := next_group s; total_tasks := total_tasks s + tasks;
          tasks_started := tasks_started s; tasks_finished := tasks_finished s; tasks_completed := tasks_completed s;
          stopped := stopped s |}.

Definition CreateTaskList (threads : nat) (s : Global) : option Global :=
  if (length (window_hash_groups s) =? 0)%nat then Some s
  else
    let partition_blocks := merge_sort block_order (group_blocks (window_hash_groups s)) in
    let s := {| window_hash_groups := window_hash_groups s; partition_blocks := partition_blocks;
                active_groups := active_groups s; next_group := next_group s; total_tasks := total_tasks s;
                tasks_started := tasks_started s; tasks_finished := tasks_finished s;
                tasks_completed := tasks_completed s; stopped := stopped s |} in
    max_block ← head partition_blocks;
    let per_thread := blocks_per_thread threads (fst max_block) in
    if (per_thread =? 0)%nat then None else ofold (init_group per_thread) s partition_blocks.

(** The groups of the sorted collections; [keys] are the columns of the functions'
    PARTITION BY and ORDER BY, [partitions] of the operator's PARTITION BY. *)
Fixpoint make_groups (keys : list nat) (partitions : nat) (sort : bool) (total_blocks : nat)
    (hash_groups : list (option (list (list (list V))))) : list (option Group) :=
  match hash_groups with
  | [] => []
  | None :: hash_groups => None :: make_groups keys partitions sort total_blocks hash_groups
  | Some collection :: hash_groups =>
      Some (WindowHashGroup_new config collection keys partitions sort total_blocks) ::
      make_groups keys partitions sort (total_blocks + length collection) hash_groups
  end.

Definition WindowGlobalSourceState_new (threads : nat) (keys : list nat) (partitions : nat) (sort : bool)
    (hash_groups : list (option (list (list (list V))))) : option Global :=
  CreateTaskList threads
    {| window_hash_groups := make_groups keys partitions sort 0 hash_groups; partition_blocks := [];
       active_groups := []; next_group := 0; total_tasks := 0; tasks_started := 0; tasks_finished := 0;
       tasks_completed := 0; stopped := false |}.

(** *** Assigning tasks *)

Definition FinishTask (task : option Task) (s : Global) : option Global :=
  match task with
  | None => Some s
  | Some task =>
      g ← get_group (group_idx task) s;
      let g := add_counts 0 0 0 1 g in
      let s :=
        if (GetTaskCount g <=? group_completed g)%nat then
          set_active (List.filter (fun i => negb (i =? group_idx task)%nat) (active_groups s)) (next_group s)
            (set_group (group_idx task) None s)
        else set_group (group_idx task) (Some g) s in
      Some (add_tasks 0 0 1 s)
  end.

(** A task of one group; the flag tells whether blocked threads are woken up. *)
Definition try_group (i : nat) (s : Global) : option (option Task * bool * Global) :=
  g ← get_group i s;
  let '(prepared, g) := TryPrepareNextStage g in
  match group_TryNextTask i g with
  | Some (task, g) => Some (Some task, prepared, add_tasks 1 0 0 (set_group i (Some g) s))
  | None => Some (None, prepared, set_group i (Some g) s)
  end.

(** The active groups in order. *)
Fixpoint next_active (active : list nat) (unblock : bool) (s : Global) : option (option Task * bool * Global) :=
  match active with
  | [] => Some (None, unblock, s)
  | i :: active =>
      '(task, prepared, s) ← try_group i s;
      match task with
      | Some task => Some (Some task, unblock || prepared, s)
      | None => next_active active (unblock || prepared) s
      end
  end.

(** Groups that are not active yet. *)
Fixpoint next_inactive (fuel : nat) (unblock : bool) (s : Global) : option (option Task * bool * Global) :=
  match fuel with
  | O => Some (None, unblock, s)
  | S fuel =>
      match partition_blocks s !! next_group s with
      | None => Some (None, unblock, s)
      | Some b =>
          let s := set_active (active_groups s ++ [snd b]) (S (next_group s)) s in
          '(task, prepared, s) ← try_group (snd b) s;
          match task with
          | Some task => Some (Some task, unblock || prepared, s)
          | None => next_inactive fuel (unblock || prepared) s
          end
      end
  end.

Definition TryNextTask (task : option Task) (s : Global) : option (option Task * bool * Global) :=
  s ← FinishTask task s;
  if negb (HasMoreTasks s) then Some (None, false, s)
  else
    '(task, unblock, s) ← next_active (active_groups s) false s;
    match task with
    | Some task => Some (Some task, unblock, s)
    | None => next_inactive (length (partition_blocks s) - next_group s) unblock s
    end.

(** ** Threads *)

(** Where a thread is in [PhysicalWindow::GetData]. *)
Inductive WindowPc :=
  | src_loop
  | src_assign
  | src_execute
  | mask_alloc
  | mask_small
  | mask_begin
  | mask_calls (calls : list (DeltaCall V))
  | sink_states
  | sink_loop
  | sink_count (size : Z)
  | finalize_run
  | finalize_count
  | getdata
  | src_count
  | src_wait
  | src_blocked
  | src_failed
  | src_done.

Record WindowThread := { window_pc : WindowPc; task : option Task; scanner : option Scanner }.

(** A chunk of the result with its batch index. *)
Abbreviation Output := (nat * list (list V * Res))%type.

Definition TaskFinished (t : option Task) : bool :=
  match t with None => true | Some t => (begin_idx t =? end_idx t)%nat end.

(** The group of the task that a thread executes. *)
Definition with_group (t : Task) (s : Global) (f : Group -> option Group) : option Global :=
  g ← get_group (group_idx t) s;
  g ← f g;
  Some (set_group (group_idx t) (Some g) s).

(** [ReleaseLocalStates] and the lock of [TryAssignTask]. *)
Definition TryAssignTask (s : Global) (t : option Task) : option (option Task * bool * Global) :=
  if negb (TaskFinished t) then None
  else
    s ← match t with
        | Some t' =>
            if decide (task_stage t' = GETDATA) then
              with_group t' s (fun g =>
                if (thread_idx t' <? length (thread_states g))%nat
                then Some (set_states (gestates g) (<[thread_idx t' := None]> (thread_states g)) g) else None)
            else Some s
        | None => Some s
        end;
    TryNextTask t s.

(** [GetGlobalStates] and the local states of the task. *)
Definition sink_init (t : Task) (g : Group) : option Group :=
  let gstate := default (GetGlobalState executors (count g) (group_masks g)) (gestates g) in
  local ← thread_states g !! thread_idx t;
  let local := default (GetLocalState executors gstate) local in
  Some (set_states (Some gstate) (<[thread_idx t := Some local]> (thread_states g)) g).

(** The rows that a selection keeps. *)
Definition slice_result (result : list (list V * Res)) (sel : option (list nat)) : option (list (list V * Res)) :=
  match sel with
  | Some sel => if use_filter config then mapM (fun i => result !! i) sel else Some result
  | None => Some result
  end.

(** A thread steps: the global state, the thread, whether blocked threads are woken up, and
    the result. *)
Definition window_step (s : Global) (th : WindowThread) : option (Global * WindowThread * bool * option Output) :=
  let goto pc := {| window_pc := pc; task := task th; scanner := scanner th |} in
  let quiet s th := Some (s, th, false, None) in
  let fails := Some (stop s, goto src_failed, false, None) in
  match window_pc th with
  | src_loop =>
      quiet s (goto (if HasUnfinishedTasks s
                     then (if TaskFinished (task th) then src_assign else src_execute) else src_done))
  | src_assign =>
      '(task, unblock, s) ← TryAssignTask s (task th);
      Some (s, {| window_pc := match task with Some _ => src_execute | None => src_wait end; task := task;
                  scanner := None |}, unblock, None)
  | src_wait =>
      if HasMoreTasks s then quiet s (goto src_blocked) else Some (s, goto src_done, true, None)
  | src_execute =>
      t ← task th;
      pc ← match task_stage t with
           | MASK => Some mask_alloc
           | SINK => Some sink_states
           | FINALIZE => Some finalize_run
           | GETDATA => if TaskFinished (Some t) then None else Some getdata
           | DONE => None
           end;
      quiet s (goto pc)
  | mask_alloc =>
      t ← task th;
      s ← with_group t s (fun g => Some (set_group_masks (AllocateMasks (group_input g) (group_masks g)) g));
      quiet s (goto (if shrink_runs config then mask_small else mask_begin))
  | mask_small =>
      t ← task th;
      s ← with_group t s (fun g =>
        masks ← small_masks distinct_from (group_input g) (begin_idx t) (end_idx t) (group_masks g);
        Some (set_group_masks masks g));
      quiet s (goto (mask_calls []))
  | mask_begin =>
      t ← task th;
      g ← get_group (group_idx t) s;
      '(masks, calls) ← begin_masks distinct_from (group_input g) (begin_idx t) (end_idx t) (group_masks g);
      quiet (set_group (group_idx t) (Some (set_group_masks masks g)) s) (goto (mask_calls calls))
  | mask_calls (call :: calls) =>
      t ← task th;
      s ← with_group t s (fun g =>
        masks ← process_delta distinct_from (group_input g) (group_masks g) call;
        Some (set_group_masks masks g));
      quiet s (goto (mask_calls calls))
  | mask_calls [] =>
      t ← task th;
      s ← with_group t s (fun g => Some (add_counts (end_idx t - begin_idx t) 0 0 0 g));
      quiet s {| window_pc := src_count; task := Some (set_begin_idx (end_idx t) t); scanner := scanner th |}
  | sink_states =>
      t ← task th;
      g ← get_group (group_idx t) s;
      g' ← sink_init t g;
      quiet (set_group (group_idx t) (Some g') s)
        {| window_pc := sink_loop; task := task th; scanner := Some (ScannerAt (rows (group_input g)) (begin_idx t)) |}
  | sink_loop =>
      t ← task th;
      if (end_idx t <=? begin_idx t)%nat
      then quiet s {| window_pc := src_count; task := task th; scanner := None |}
      else
        g ← get_group (group_idx t) s;
        scan ← scanner th;
        let '(chunk, scan') := Scan (rows (group_input g)) scan in
        chunk ← chunk;
        gstate ← gestates g;
        local ← thread_states g !! thread_idx t;
        local ← local;
        match executor_Sink executors chunk (Scanned scan) gstate local with
        | None => fails
        | Some (gstate, local) =>
            quiet (set_group (group_idx t)
                     (Some (set_states (Some gstate) (<[thread_idx t := Some local]> (thread_states g)) g)) s)
              {| window_pc := sink_count (Z.of_nat (length chunk)); task := task th; scanner := Some scan' |}
        end
  | sink_count size =>
      t ← task th;
      s ← with_group t s (fun g => Some (add_counts 0 size 0 0 g));
      quiet s {| window_pc := sink_loop; task := Some (set_begin_idx (S (begin_idx t)) t); scanner := scanner th |}
  | finalize_run =>
      t ← task th;
      g ← get_group (group_idx t) s;
      gstate ← gestates g;
      local ← thread_states g !! thread_idx t;
      local ← local;
      match executor_Finalize executors gstate local with
      | None => fails
      | Some (gstate, local) =>
          quiet (set_group (group_idx t)
                   (Some (set_states (Some gstate) (<[thread_idx t := Some local]> (thread_states g)) g)) s)
            (goto finalize_count)
      end
  | finalize_count =>
      t ← task th;
      s ← with_group t s (fun g => Some (add_counts 0 0 (end_idx t - begin_idx t) 0 g));
      quiet s {| window_pc := src_count; task := Some (set_begin_idx (end_idx t) t); scanner := scanner th |}
  | getdata =>
      t ← task th;
      g ← get_group (group_idx t) s;
      if negb (bool_decide (stage g = GETDATA)) then None
      else
        begins ← (if early_out config then partition_begins (group_masks g) !! begin_idx t else Some []);
        if negb (bool_decide (Sorted Z.le begins)) then None
        else
          let scan :=
            match scanner th with
            | None => ScannerAt (rows (group_input g)) (begin_idx t)
            | Some scan => ScannerSeek (rows (group_input g)) (begin_idx t) scan
            end in
          let position := Scanned scan in
          let '(chunk, scan) := Scan (rows (group_input g)) scan in
          let chunk := default [] chunk in
          gstate ← gestates g;
          local ← thread_states g !! thread_idx t;
          local ← local;
          match executor_Evaluate executors position chunk begins gstate local with
          | None => fails
          | Some (results, sel, local) =>
              result ← slice_result (zip chunk results) sel;
              Some (set_group (group_idx t)
                      (Some (set_states (Some gstate) (<[thread_idx t := Some local]> (thread_states g)) g)) s,
                    {| window_pc := src_count; task := Some (set_begin_idx (S (begin_idx t)) t); scanner := Some scan |},
                    false, Some ((batch_base g + begin_idx t)%nat, result))
          end
  | src_count =>
      quiet (if TaskFinished (task th) then add_tasks 0 1 0 s else s) (goto src_loop)
  | src_blocked | src_failed | src_done => quiet s th
  end.

(** ** The system *)

Record WindowSystem := {
  source_global : Global;
  source_threads : list WindowThread;
  source_output : list Output
}.

(** [UnblockTasks]: a blocked task is scheduled again. *)
Definition unblock_thread (th : WindowThread) : WindowThread :=
  match window_pc th with
  | src_blocked => {| window_pc := src_loop; task := task th; scanner := scanner th |}
  | _ => th
  end.

Definition window_system_step (s : WindowSystem) (i : nat) : option WindowSystem :=
  th ← source_threads s !! i;
  '(g, th, unblock, output) ← window_step (source_global s) th;
  let threads := <[i := th]> (source_threads s) in
  Some {| source_global := g;
          source_threads := if unblock : bool then unblock_thread <$> threads else threads;
          source_output := source_output s ++ option_list output |}.

Definition WindowSystem_new (g : Global) (threads : nat) : WindowSystem :=
  {| source_global := g; source_threads := replicate threads {| window_pc := src_loop; task := None; scanner := None |};
     source_output := [] |}.

Definition run_window (g : Global) (threads : nat) (schedule : list nat) : option WindowSystem :=
  ofold window_system_step (WindowSystem_new g threads) schedule.
End source.
Arguments WindowPc : clear implicits.
Arguments WindowThread : clear implicits.
Arguments WindowSystem : clear implicits.
