(* ===== verification/WindowSourceInvariant.v ===== *)
(** * The source of the window operator: safety

    The invariant of the threads that take the tasks of the hash groups.  The ghost table
    gives the status of every task (not assigned, held by a thread, complete); the
    counters of a group are sums over its tasks, so a stage changes exactly when every
    task of the stage before is done.  The functions are used through the class
    [ExecutorLaws]. *)

From stdpp Require Import functions.
From S2P Require Import Prelude Validity WindowMasks WindowMasksInvariant WindowSource.

(** ** The interface of the functions *)

(** What the source needs to know of a hash group. *)
Record input_ok {V} (config : WindowSourceConfig) (suitable : MaskInput V -> Prop) (input : MaskInput V) : Prop := {
  input_count : row_count input = Z.of_nat (length (mjoin (rows input)));
  input_keys : Forall (fun k => key_count input <= k)%nat (order_keys input);
  input_chunks : Forall (fun chunk => chunk <> []) (rows input);
  input_begins : set_begins input = early_out config;
  input_early : early_out config = true -> (key_count input <= 1)%nat;
  input_small : shrink_runs config = true ->
    block_sums input = running_sums 0 ((fun chunk => Z.of_nat (length chunk)) <$> rows input) /\ row_count input mod 64 <> 0;
  input_full : shrink_runs config = false -> full_chunks input;
  input_suitable : suitable input
}.

(** The functions give for every chunk the expected result, once the masks are complete,
    every chunk was sunk exactly once, and the tasks were finalized. *)
Class ExecutorLaws {V G L Res} (distinct_from : V -> V -> bool) (executors : WindowExecutors V G L Res)
    (config : WindowSourceConfig) (suitable : MaskInput V -> Prop) (expected : MaskInput V -> nat -> list (list V * Res)) := {
  (* the chunks that were sunk, and the number of tasks that were finalized *)
  global_ok : MaskInput V -> list nat -> nat -> G -> Prop;
  local_ok : MaskInput V -> L -> Prop;
  global_new input masks :
    input_ok config suitable input -> masks_complete distinct_from input masks ->
    global_ok input [] 0 (GetGlobalState executors (row_count input) masks);
  local_new input sunk k g : input_ok config suitable input -> global_ok input sunk k g -> local_ok input (GetLocalState executors g);
  sink_law input sunk g l b chunk :
    input_ok config suitable input -> global_ok input sunk 0 g -> local_ok input l -> rows input !! b = Some chunk -> b ∉ sunk ->
    exists g' l', executor_Sink executors chunk (block_start (rows input) b) g l = Some (g', l') /\
      global_ok input (sunk ++ [b]) 0 g' /\ local_ok input l';
  finalize_law input sunk k g l :
    input_ok config suitable input -> global_ok input sunk k g -> sunk ≡ₚ seq 0 (length (rows input)) -> local_ok input l ->
    exists g' l', executor_Finalize executors g l = Some (g', l') /\ global_ok input sunk (S k) g' /\ local_ok input l';
  evaluate_law input sunk k g l b chunk begins :
    input_ok config suitable input -> global_ok input sunk k g -> sunk ≡ₚ seq 0 (length (rows input)) -> (0 < k)%nat -> local_ok input l ->
    rows input !! b = Some chunk -> (early_out config = true -> begins = block_begins distinct_from input b) ->
    exists results sel l', executor_Evaluate executors (block_start (rows input) b) chunk begins g l = Some (results, sel, l') /\
      local_ok input l' /\ slice_result config (zip chunk results) sel = Some (expected input b);
  global_perm input sunk sunk' k g : sunk ≡ₚ sunk' -> global_ok input sunk k g -> global_ok input sunk' k g
}.

(** ** Tasks *)

Section source.
Context {V G L Res : Type} (distinct_from : V -> V -> bool) (executors : WindowExecutors V G L Res).
Context (config : WindowSourceConfig) (suitable : MaskInput V -> Prop) (expected : MaskInput V -> nat -> list (list V * Res)).
Context `{!ExecutorLaws distinct_from executors config suitable expected}.
Abbreviation Group := (WindowHashGroup V G L).
Abbreviation Global := (WindowGlobalSourceState V G L).
Abbreviation Thread := (WindowThread V).
Abbreviation pending := (pending distinct_from).
Abbreviation part_start := (part_start distinct_from).
Abbreviation order_start := (order_start distinct_from).
Abbreviation begins_inv := (begins_inv distinct_from).
Implicit Types (g : Group) (s : Global) (th : Thread) (t : WindowSourceTask) (i j k id : nat) (m : GroupMasks) (v : View).

(** What does not change of a group. *)
Record Shape := {
  shape_input : MaskInput V;
  shape_per_thread : nat;
  shape_batch : nat
}.
Implicit Types (sh : Shape).

Definition sblocks sh : nat := length (rows (shape_input sh)).
Definition sthreads sh : nat := ((sblocks sh + shape_per_thread sh - 1) / shape_per_thread sh)%nat.
Abbreviation sstart sh := (block_start (rows (shape_input sh))).

Record shape_ok sh : Prop := {
  shape_input_ok : input_ok config suitable (shape_input sh);
  shape_per_thread_pos : (0 < shape_per_thread sh)%nat
}.

(** The chunks of the [k]-th task of a stage. *)
Definition range_begin sh k : nat := (k * shape_per_thread sh)%nat.
Definition range_end sh k : nat := (range_begin sh k + shape_per_thread sh) `min` sblocks sh.
Definition range_width sh k : nat := (range_end sh k - range_begin sh k)%nat.

Lemma range_nonempty sh k : shape_ok sh -> (k < sthreads sh)%nat -> (range_begin sh k < range_end sh k <= sblocks sh)%nat.
Proof.
  intros [_ Hp] Hk. unfold range_end, range_begin, sthreads in *.
  assert (k * shape_per_thread sh < sblocks sh)%nat; [| lia].
  pose proof (Nat.div_mod_eq (sblocks sh + shape_per_thread sh - 1) (shape_per_thread sh)).
  pose proof (Nat.mod_upper_bound (sblocks sh + shape_per_thread sh - 1) (shape_per_thread sh) ltac:(lia)). nia.
Qed.

Lemma range_last sh k : shape_ok sh -> (sthreads sh <= k)%nat -> (sblocks sh <= range_begin sh k)%nat.
Proof.
  intros [_ Hp] Hk. unfold range_begin, sthreads in *.
  pose proof (Nat.div_mod_eq (sblocks sh + shape_per_thread sh - 1) (shape_per_thread sh)).
  pose proof (Nat.mod_upper_bound (sblocks sh + shape_per_thread sh - 1) (shape_per_thread sh) ltac:(lia)). nia.
Qed.

(** The ranges are those of all chunks, in order. *)
Lemma ranges_prefix sh k :
  shape_ok sh -> (k <= sthreads sh)%nat ->
  mjoin ((fun k => seq (range_begin sh k) (range_width sh k)) <$> seq 0 k) = seq 0 (range_begin sh k `min` sblocks sh).
Proof.
  intros Hok. induction k as [| k IH]; intros Hk; [done |].
  rewrite seq_S, fmap_app, mjoin_app, IH by lia. cbn. rewrite app_nil_r.
  pose proof (range_nonempty sh k Hok ltac:(lia)) as Hr. unfold range_width in *.
  replace (range_begin sh k `min` sblocks sh)%nat with (range_begin sh k) by lia.
  rewrite <- seq_app. f_equal. unfold range_end, range_begin in *. lia.
Qed.

Lemma ranges_all sh :
  shape_ok sh ->
  mjoin ((fun k => seq (range_begin sh k) (range_width sh k)) <$> seq 0 (sthreads sh)) = seq 0 (sblocks sh).
Proof. intros Hok. rewrite ranges_prefix by done. f_equal. pose proof (range_last sh (sthreads sh) Hok). lia. Qed.

(** ** The status of a task *)

Inductive Status :=
  | fresh
  | held (j : nat) (th : Thread)
  | complete.

Definition task_id sh t : nat := (stage_index (task_stage t) * sthreads sh + thread_idx t)%nat.

(** The chunks of the task that are counted. *)
Definition done_blocks sh k (st : Status) : nat :=
  match st with
  | fresh => 0
  | complete => range_width sh k
  | held _ th => match task th with Some t => begin_idx t - range_begin sh k | None => 0 end
  end.

Definition is_fresh (st : Status) : bool := match st with fresh => true | _ => false end.
Definition is_complete (st : Status) : bool := match st with complete => true | _ => false end.

(** Where the task is with the masks. *)
Inductive Phase := phase_fresh (allocated : bool) | phase_calls (calls : list (DeltaCall V)) | phase_done.

Definition pc_phase (pc : WindowPc V) : Phase :=
  match pc with
  | src_execute | mask_alloc => phase_fresh false
  | mask_small | mask_begin => phase_fresh true
  | mask_calls calls => phase_calls calls
  | _ => phase_done
  end.

Definition mask_phase (st : Status) : Phase :=
  match st with fresh => phase_fresh false | held _ th => pc_phase (window_pc th) | complete => phase_done end.

(** The chunks that were given to the functions. *)
Definition sunk_blocks sh k (st : Status) : nat :=
  done_blocks sh k st + match st with
                        | held _ th => match window_pc th with sink_count _ => 1 | _ => 0 end
                        | _ => 0
                        end.

(** The local states of the task are set up. *)
Definition sink_inited (st : Status) : bool :=
  match st with
  | fresh => false
  | held _ th => match window_pc th with src_execute | sink_states => false | _ => true end
  | complete => true
  end.

Definition is_finalized (st : Status) : bool :=
  match st with
  | fresh => false
  | held _ th => match window_pc th with src_execute | finalize_run => false | _ => true end
  | complete => true
  end.

(** ** Threads *)

Definition scanner_ok sh i (sc : option Scanner) : Prop :=
  match sc with None => True | Some sc => scanned_to (rows (shape_input sh)) i sc end.

(** A thread with a task. *)
Record thread_ok sh th t : Prop := {
  thread_idx_ok : (thread_idx t < sthreads sh)%nat;
  thread_begin : (range_begin sh (thread_idx t) <= begin_idx t <= end_idx t)%nat;
  thread_end : end_idx t = range_end sh (thread_idx t);
  thread_scanner : task_stage t = GETDATA -> scanner_ok sh (begin_idx t) (scanner th);
  thread_pc :
    let b0 := range_begin sh (thread_idx t) in
    match window_pc th with
    | src_loop => task_stage t = GETDATA \/ begin_idx t = end_idx t
    | src_assign | src_done => begin_idx t = end_idx t
    | src_execute => (begin_idx t < end_idx t)%nat /\ (task_stage t = GETDATA \/ begin_idx t = b0)
    | mask_alloc => task_stage t = MASK /\ begin_idx t = b0
    | mask_small => task_stage t = MASK /\ begin_idx t = b0 /\ shrink_runs config = true
    | mask_begin => task_stage t = MASK /\ begin_idx t = b0 /\ shrink_runs config = false
    | mask_calls _ => task_stage t = MASK /\ begin_idx t = b0
    | sink_states => task_stage t = SINK /\ begin_idx t = b0
    | sink_loop => task_stage t = SINK /\ exists sc, scanner th = Some sc /\ scanned_to (rows (shape_input sh)) (begin_idx t) sc
    | sink_count size => task_stage t = SINK /\ (begin_idx t < end_idx t)%nat /\
        (exists chunk, rows (shape_input sh) !! begin_idx t = Some chunk /\ size = Z.of_nat (length chunk)) /\
        exists sc, scanner th = Some sc /\ scanned_to (rows (shape_input sh)) (S (begin_idx t)) sc
    | finalize_run | finalize_count => task_stage t = FINALIZE /\ begin_idx t = b0
    | getdata => task_stage t = GETDATA /\ (begin_idx t < end_idx t)%nat
    | src_count => (task_stage t = GETDATA /\ (b0 < begin_idx t)%nat) \/ begin_idx t = end_idx t
    | src_wait | src_blocked | src_failed => False
    end;
  thread_stage : task_stage t <> DONE
}.

(** ** The invariant of a group *)

Implicit Types (row : nat -> Status) (st : Status).

Abbreviation T sh := (sthreads sh).

Record counters_ok sh g row : Prop := {
  group_shape : group_input g = shape_input sh /\ per_thread g = shape_per_thread sh /\
    group_threads g = T sh /\ batch_base g = shape_batch sh;
  group_fresh id : (id < 4 * T sh)%nat -> is_fresh (row id) = (next_task g <=? id)%nat;
  group_next : (next_task g <= 4 * T sh)%nat;
  group_stage : exists σ, (σ <= 3)%nat /\ stage g = stage_of σ /\ (σ * T sh <= next_task g <= S σ * T sh)%nat /\
    forall σ' k, (σ' < σ)%nat -> (k < T sh)%nat -> done_blocks sh k (row (σ' * T sh + k)%nat) = range_width sh k;
  group_masked : Z.of_nat (masked g) = zsum (fun k => Z.of_nat (done_blocks sh k (row k))) (seq 0 (T sh));
  group_sunk : sunk g = zsum (fun k => sstart sh (range_begin sh k + done_blocks sh k (row (T sh + k)%nat)) -
    sstart sh (range_begin sh k)) (seq 0 (T sh));
  group_finalized : Z.of_nat (finalized g) = zsum (fun k => Z.of_nat (done_blocks sh k (row (2 * T sh + k)%nat))) (seq 0 (T sh));
  group_complete : Z.of_nat (group_completed g) =
    zsum (fun id => if is_complete (row id) then 1 else 0) (seq 0 (4 * T sh))
}.

Definition task_rows sh v k (p : Z -> bool -> bool) : Prop :=
  forall j : Z, sstart sh (range_begin sh k) <= j < sstart sh (range_end sh k) ->
    view_partition v j = p j (part_start (shape_input sh) j) /\
    forall κ, κ ∈ order_list (shape_input sh) -> view_order v κ j = p j (order_start (shape_input sh) κ j).

Definition in_range sh k (b : nat) : Prop := (range_begin sh k <= b < range_end sh k)%nat.

(** The masks of the rows of one task. *)
Definition task_masks sh v k (ph : Phase) : Prop :=
  match ph with
  | phase_fresh _ => forall b, in_range sh k b -> view_begins v b = []
  | phase_calls calls => exists r, sstart sh (range_begin sh k) <= r <= sstart sh (range_end sh k) /\
      pending (shape_input sh) r calls (sstart sh (range_end sh k)) /\
      Forall (fun c => in_range sh k (call_block c)) calls /\
      (forall b, in_range sh k b -> begins_inv (shape_input sh) v calls b) /\
      task_rows sh v k (fun (j : Z) x => (j =? 0) || ((j <? r) && x))
  | phase_done => (forall b, in_range sh k b -> begins_inv (shape_input sh) v [] b) /\ task_rows sh v k (fun (_ : Z) x => x)
  end.

Definition masks_ok sh m row : Prop :=
  exists v,
    (view_of (shape_input sh) m v \/
     (unallocated (shape_input sh) m (view_begins v) /\
      forall k, (k < T sh)%nat -> mask_phase (row k) = phase_fresh false)) /\
    forall k, (k < T sh)%nat -> task_masks sh v k (mask_phase (row k)).

Definition sunk_list sh row : list nat :=
  mjoin ((fun k => seq (range_begin sh k) (sunk_blocks sh k (row (T sh + k)%nat))) <$> seq 0 (T sh)).

Record states_ok sh (gstate : option G) (locals : list (option L)) row : Prop := {
  locals_length : length locals = T sh;
  locals_ok k l : locals !! k = Some (Some l) -> local_ok (shape_input sh) l;
  locals_present k : (k < T sh)%nat -> sink_inited (row (T sh + k)%nat) = true ->
    is_complete (row (3 * T sh + k)%nat) = false -> exists l, locals !! k = Some (Some l);
  globals_ok :
    match gstate with
    | None => forall k, (k < T sh)%nat -> sink_inited (row (T sh + k)%nat) = false
    | Some x => exists sunk n, global_ok (shape_input sh) sunk n x /\ sunk ≡ₚ sunk_list sh row /\
        Z.of_nat n = zsum (fun k => if is_finalized (row (2 * T sh + k)%nat) then 1 else 0) (seq 0 (T sh))
    end
}.

Definition held_ok i sh row : Prop :=
  forall id j th, (id < 4 * T sh)%nat -> row id = held j th ->
    exists t, task th = Some t /\ group_idx t = i /\ task_id sh t = id /\ thread_ok sh th t.

Record group_ok i sh g row : Prop := {
  group_counters : counters_ok sh g row;
  group_masks_ok : masks_ok sh (group_masks g) row;
  group_states : states_ok sh (gestates g) (thread_states g) row;
  group_held : held_ok i sh row
}.

(** *** A change of one task *)

Lemma id_inj n (σ σ' k k' : nat) : (k < n)%nat -> (k' < n)%nat -> (σ' * n + k' = σ * n + k)%nat -> σ' = σ /\ k' = k.
Proof.
  intros Hk Hk' E. assert (σ' = σ) as ->; [| lia].
  apply (f_equal (fun x => x / n)%nat) in E. by rewrite !Nat.div_add_l, !Nat.div_small, !Nat.add_0_r in E by lia.
Qed.

Lemma id_lt n (σ k : nat) : (k < n)%nat -> (σ <= 3)%nat -> (σ * n + k < 4 * n)%nat.
Proof. intros. nia. Qed.

(** A projection that the new status does not change. *)
Lemma project_update {A} (f : Status -> A) row id st :
  f st = f (row id) -> forall id', f ((<[id := st]> row) id') = f (row id').
Proof.
  intros E id'. destruct (decide (id' = id)) as [-> | Hne]; [by rewrite fn_lookup_insert | by rewrite fn_lookup_insert_ne].
Qed.

(** The task of a stage and another one. *)
Lemma update_other sh row st (σ σ' k k' : nat) :
  (k < T sh)%nat -> (k' < T sh)%nat -> σ' <> σ \/ k' <> k ->
  (<[(σ * T sh + k)%nat := st]> row) (σ' * T sh + k')%nat = row (σ' * T sh + k')%nat.
Proof. intros Hk Hk' Hne. apply fn_lookup_insert_ne. intros E. apply id_inj in E as [-> ->]; [| done..]. by destruct Hne. Qed.

(** The sum of a stage over its tasks. *)
Lemma stage_sum_update sh row st (σ σ' k : nat) (f : nat -> Status -> Z) :
  (k < T sh)%nat ->
  zsum (fun k' => f k' ((<[(σ * T sh + k)%nat := st]> row) (σ' * T sh + k')%nat)) (seq 0 (T sh)) =
  zsum (fun k' => f k' (row (σ' * T sh + k')%nat)) (seq 0 (T sh)) +
    if decide (σ' = σ) then f k st - f k (row (σ * T sh + k)%nat) else 0.
Proof.
  intros Hk. case_decide as E.
  - subst σ'. erewrite (zsum_seq_update (fun k' => f k' (row (σ * T sh + k')%nat))) with (k := k); [| done |].
    + cbn beta. rewrite fn_lookup_insert. lia.
    + intros k' Hk' Hne. cbn beta. rewrite update_other; auto.
  - rewrite Z.add_0_r. apply zsum_ext. intros k' Hk'%elem_of_seq. rewrite update_other; [done | lia | lia | by left].
Qed.

Lemma counters_add sh g row st (σ k : nat) (m f c : nat) (x : Z) :
  let id := (σ * T sh + k)%nat in
  counters_ok sh g row -> (σ <= 3)%nat -> (k < T sh)%nat ->
  is_fresh st = is_fresh (row id) ->
  (done_blocks sh k (row id) <= done_blocks sh k st <= range_width sh k)%nat ->
  Z.of_nat m = (if decide (0 = σ)%nat then Z.of_nat (done_blocks sh k st) - Z.of_nat (done_blocks sh k (row id)) else 0) ->
  x = (if decide (1 = σ)%nat then sstart sh (range_begin sh k + done_blocks sh k st) - sstart sh (range_begin sh k + done_blocks sh k (row id)) else 0) ->
  Z.of_nat f = (if decide (2 = σ)%nat then Z.of_nat (done_blocks sh k st) - Z.of_nat (done_blocks sh k (row id)) else 0) ->
  Z.of_nat c = (if is_complete st then 1 else 0) - (if is_complete (row id) then 1 else 0) ->
  counters_ok sh (add_counts m x f c g) (<[id := st]> row).
Proof.
  intros id [H1 H2 H3 (σ0 & Hs1 & Hs2 & Hs3 & Hs4) H5 H6 H7 H8] Hσ Hk Hfresh Hdone Hm Hx Hf Hc.
  split; cbn [group_input per_thread group_threads batch_base next_task stage masked sunk finalized group_completed add_counts]; try done.
  - intros id' Hid. rewrite (project_update is_fresh) by done. by apply H2.
  - exists σ0. split_and!; [done | done | lia | lia |]. intros σ' k' Hσ' Hk'. specialize (Hs4 σ' k' Hσ' Hk').
    destruct (decide (σ' = σ /\ k' = k)) as [[-> ->] | Hne].
    + rewrite fn_lookup_insert. unfold id in Hdone. lia.
    + unfold id. rewrite update_other; [done | done | done | lia].
  - rewrite Nat2Z.inj_add, H5, Hm.
    pose proof (stage_sum_update sh row st σ 0 k (fun k st => Z.of_nat (done_blocks sh k st)) Hk) as E. cbn [Nat.mul Nat.add] in E.
    unfold id. rewrite E. done.
  - rewrite H6, Hx.
    pose proof (stage_sum_update sh row st σ 1 k (fun k st => sstart sh (range_begin sh k + done_blocks sh k st) - sstart sh (range_begin sh k)) Hk) as E.
    rewrite Nat.mul_1_l in E. unfold id. rewrite E. case_decide; lia.
  - rewrite Nat2Z.inj_add, H7, Hf.
    pose proof (stage_sum_update sh row st σ 2 k (fun k st => Z.of_nat (done_blocks sh k st)) Hk) as E.
    unfold id. rewrite E. done.
  - rewrite Nat2Z.inj_add, H8, Hc.
    rewrite (zsum_seq_update (fun id => if is_complete (row id) then 1 else 0)
      (fun id' => if is_complete ((<[id := st]> row) id') then 1 else 0) (4 * T sh) id); [| by apply id_lt |].
    + cbn beta. rewrite fn_lookup_insert. lia.
    + intros id' _ Hne. cbn beta. by rewrite fn_lookup_insert_ne.
Qed.

Lemma counters_same sh g row id st :
  counters_ok sh g row -> is_fresh st = is_fresh (row id) -> is_complete st = is_complete (row id) ->
  (forall k, done_blocks sh k st = done_blocks sh k (row id)) -> counters_ok sh g (<[id := st]> row).
Proof.
  intros [H1 H2 H3 (σ & Hs1 & Hs2 & Hs3 & Hs4) H5 H6 H7 H8] Hf Hc Hd.
  assert (forall id' k, done_blocks sh k ((<[id := st]> row) id') = done_blocks sh k (row id')) as Hd'
    by (intros; by apply (project_update (done_blocks sh k))).
  split; try done.
  - intros id' Hid. rewrite (project_update is_fresh) by done. by apply H2.
  - exists σ. split_and!; [done | done | lia | lia |]. intros σ' k Hσ Hk. rewrite Hd'. by apply Hs4.
  - rewrite H5. apply zsum_ext. intros k _. by rewrite Hd'.
  - rewrite H6. apply zsum_ext. intros k _. by rewrite Hd'.
  - rewrite H7. apply zsum_ext. intros k _. by rewrite Hd'.
  - rewrite H8. apply zsum_ext. intros id' _. by rewrite (project_update is_complete).
Qed.

Lemma masks_same sh m row (σ k : nat) st :
  (k < T sh)%nat -> (σ = 0%nat -> mask_phase st = mask_phase (row k)) ->
  masks_ok sh m row -> masks_ok sh m (<[(σ * T sh + k)%nat := st]> row).
Proof.
  intros Hk Hst (v & Hv & Hrows).
  assert (forall k', (k' < T sh)%nat -> mask_phase ((<[(σ * T sh + k)%nat := st]> row) k') = mask_phase (row k')) as H.
  { intros k' Hk'. destruct (decide (σ = 0%nat /\ k' = k)) as [[-> ->] | Hne].
    - rewrite fn_lookup_insert. by apply Hst.
    - pose proof (update_other sh row st σ 0 k k' Hk Hk' ltac:(lia)) as E. cbn [Nat.mul Nat.add] in E. by rewrite E. }
  exists v. split.
  - destruct Hv as [Hv | [Hv Hf]]; [by left | right]. split; [done |]. intros k' Hk'. rewrite H; auto.
  - intros k' Hk'. rewrite H; auto.
Qed.

Lemma states_same sh x l row (σ k : nat) st :
  let id := (σ * T sh + k)%nat in
  (k < T sh)%nat ->
  (σ = 1%nat -> sunk_blocks sh k st = sunk_blocks sh k (row id) /\ sink_inited st = sink_inited (row id)) ->
  (σ = 2%nat -> is_finalized st = is_finalized (row id)) ->
  (σ = 3%nat -> is_complete st = false -> is_complete (row id) = false) ->
  states_ok sh x l row -> states_ok sh x l (<[id := st]> row).
Proof.
  intros id Hk H1 H2 H4 [Ha Hb Hc Hd].
  assert (forall σ' k', (k' < T sh)%nat -> (<[id := st]> row) (σ' * T sh + k')%nat =
    if decide (σ' = σ /\ k' = k) then st else row (σ' * T sh + k')%nat) as Hrow.
  { intros σ' k' Hk'. case_decide as E; [destruct E as [-> ->]; apply fn_lookup_insert |]. apply update_other; [done | done | lia]. }
  assert (forall k', (k' < T sh)%nat -> sunk_blocks sh k' ((<[id := st]> row) (T sh + k')%nat) = sunk_blocks sh k' (row (T sh + k')%nat) /\
    sink_inited ((<[id := st]> row) (T sh + k')%nat) = sink_inited (row (T sh + k')%nat)) as Hsink.
  { intros k' Hk'. pose proof (Hrow 1%nat k' Hk') as E. rewrite Nat.mul_1_l in E. rewrite E.
    case_decide as E'; [| done]. destruct E' as [<- ->]. destruct (H1 eq_refl) as [E1 E2]. unfold id in *. rewrite Nat.mul_1_l in *. done. }
  split; [done | done | |].
  - intros k' Hk'. rewrite (proj2 (Hsink k' Hk')), Hrow by done. case_decide as E; [destruct E as [<- ->] | by apply Hc].
    intros Hi Hcomp. apply Hc; [done | done |]. by apply H4.
  - destruct x as [x |]; [| intros k' Hk'; rewrite (proj2 (Hsink k' Hk')); by apply Hd].
    destruct Hd as (sunk & n & Hg & Hp & Hn). exists sunk, n. split_and!; [done | |].
    + rewrite Hp. unfold sunk_list. f_equiv. apply reflexive_eq, list_fmap_ext. intros ? k' Hk'%lookup_seq. cbn beta.
      by rewrite (proj1 (Hsink k' ltac:(lia))).
    + rewrite Hn. apply zsum_ext. intros k' Hk'%elem_of_seq. rewrite Hrow by lia. case_decide as E'; [| done].
      destruct E' as [<- ->]. unfold id in *. by rewrite H2.
Qed.

Lemma held_update i sh row id st :
  held_ok i sh row ->
  (forall j th, st = held j th -> exists t, task th = Some t /\ group_idx t = i /\ task_id sh t = id /\ thread_ok sh th t) ->
  held_ok i sh (<[id := st]> row).
Proof.
  intros H Hst id' j' th' Hid E. destruct (decide (id' = id)) as [-> | Hne].
  - rewrite fn_lookup_insert in E. by eapply Hst.
  - rewrite fn_lookup_insert_ne in E by done. by eapply H.
Qed.

(** *** What the stages tell *)

Lemma stage_index_inj x y : stage_index x = stage_index y -> x = y.
Proof. by destruct x, y. Qed.

Lemma stage_of_index (σ : nat) : (σ <= 4)%nat -> stage_index (stage_of σ) = σ.
Proof. intros H. do 5 (destruct σ as [| σ]; [done |]). lia. Qed.

Lemma task_id_split sh t (σ k : nat) :
  (thread_idx t < T sh)%nat -> (k < T sh)%nat -> task_id sh t = (σ * T sh + k)%nat ->
  stage_index (task_stage t) = σ /\ thread_idx t = k.
Proof. unfold task_id. intros H1 H2 E. by apply id_inj in E. Qed.

(** The thread that holds a task. *)
Lemma held_thread i sh row (σ k j : nat) th :
  held_ok i sh row -> (σ <= 3)%nat -> (k < T sh)%nat -> row (σ * T sh + k)%nat = held j th ->
  exists t, task th = Some t /\ group_idx t = i /\ stage_index (task_stage t) = σ /\ thread_idx t = k /\ thread_ok sh th t.
Proof.
  intros H Hσ Hk E. destruct (H _ j th (id_lt _ _ _ Hk Hσ) E) as (t & E1 & E2 & E3 & Hok). exists t.
  destruct (task_id_split sh t σ k (thread_idx_ok _ _ _ Hok) Hk E3) as [E4 E5]. by split_and!.
Qed.

Lemma done_le i sh row (σ k : nat) :
  held_ok i sh row -> (σ <= 3)%nat -> (k < T sh)%nat -> (done_blocks sh k (row (σ * T sh + k)%nat) <= range_width sh k)%nat.
Proof.
  intros H Hσ Hk. unfold range_width. destruct (row (σ * T sh + k)%nat) as [| j th |] eqn:E; cbn [done_blocks]; [lia | | unfold range_width; lia].
  destruct (held_thread _ _ _ _ _ _ _ H Hσ Hk E) as (t & -> & _ & _ & Ek & [_ Hb He _ _ _]). rewrite Ek in *. lia.
Qed.

Section group_facts.
Context (i : nat) (sh : Shape) (g : Group) (row : nat -> Status).
Context (Hsh : shape_ok sh) (Hc : counters_ok sh g row) (Hheld : held_ok i sh row).

Lemma width_pos k : (k < T sh)%nat -> (0 < range_width sh k)%nat.
Proof. intros Hk. pose proof (range_nonempty sh k Hsh Hk). unfold range_width. lia. Qed.

(** A task that was assigned: its stage is reached, and the stages before are done. *)
Lemma past_stages (σ k : nat) :
  (σ <= 3)%nat -> (k < T sh)%nat -> is_fresh (row (σ * T sh + k)%nat) = false ->
  (σ <= stage_index (stage g) <= 3)%nat /\
  forall σ' k', (σ' < σ)%nat -> (k' < T sh)%nat -> done_blocks sh k' (row (σ' * T sh + k')%nat) = range_width sh k'.
Proof.
  intros Hσ Hk Hf. destruct (group_stage _ _ _ Hc) as (σ0 & H1 & H2 & H3 & H4). rewrite H2, stage_of_index by lia.
  rewrite (group_fresh _ _ _ Hc) in Hf by (by apply id_lt). apply Nat.leb_gt in Hf.
  assert (σ <= σ0)%nat by nia. split; [done |]. intros σ' k' Hσ' Hk'. apply H4; [lia | done].
Qed.

(** A task that is not done: no later stage began. *)
Lemma later_fresh (σ k σ' k' : nat) :
  (σ <= 3)%nat -> (k < T sh)%nat -> (done_blocks sh k (row (σ * T sh + k)%nat) < range_width sh k)%nat ->
  (σ < σ' <= 3)%nat -> (k' < T sh)%nat -> row (σ' * T sh + k')%nat = fresh.
Proof.
  intros Hσ Hk Hd Hσ' Hk'. destruct (row (σ' * T sh + k')%nat) eqn:E; [done | |].
  all: destruct (past_stages σ' k') as [_ H]; [lia | done | by rewrite E | rewrite (H σ k) in Hd by (done || lia); lia].
Qed.

Lemma mask_done k :
  (k < T sh)%nat -> done_blocks sh k (row k) = range_width sh k -> mask_phase (row k) = phase_done.
Proof.
  intros Hk Hd. pose proof (width_pos k Hk) as Hw. destruct (row k) as [| j th |] eqn:E; [cbn in Hd; lia | | done].
  destruct (held_thread i sh row 0 k j th Hheld ltac:(lia) Hk E) as (t & Et & _ & Es & Ek & [_ Hb He _ Hpc _]).
  cbn [done_blocks] in Hd. rewrite Et in Hd. rewrite Ek in *. assert (task_stage t = MASK) as Est by (by apply stage_index_inj).
  unfold range_width in *. rewrite Est in Hpc.
  cbn [mask_phase]. destruct (window_pc th); cbn [pc_phase]; try done; cbn zeta in Hpc; try lia;
    destruct Hpc as [? Hpc]; try (destruct Hpc as [? | ?]; [done |]); lia.
Qed.

Lemma sink_done k :
  (k < T sh)%nat -> done_blocks sh k (row (T sh + k)%nat) = range_width sh k ->
  sunk_blocks sh k (row (T sh + k)%nat) = range_width sh k /\ sink_inited (row (T sh + k)%nat) = true.
Proof.
  intros Hk Hd. pose proof (width_pos k Hk) as Hw.
  unfold sunk_blocks. rewrite Hd. destruct (row (T sh + k)%nat) as [| j th |] eqn:E; [cbn in Hd; lia | | split; [lia | done]].
  destruct (held_thread i sh row 1 k j th Hheld ltac:(lia) Hk) as (t & Et & _ & Es & Ek & [_ Hb He _ Hpc _]); [by rewrite Nat.mul_1_l |].
  cbn [done_blocks] in Hd. rewrite Et in Hd. rewrite Ek in *. assert (task_stage t = SINK) as Est by (by apply stage_index_inj).
  unfold range_width in *. rewrite Est in Hpc.
  cbn [sink_inited]. destruct (window_pc th); cbn zeta in Hpc; split; try done; try lia;
    destruct Hpc as [? Hpc]; try (destruct Hpc as [? | ?]; [done |]); try lia.
Qed.

Lemma sunk_all :
  (forall k, (k < T sh)%nat -> done_blocks sh k (row (T sh + k)%nat) = range_width sh k) ->
  sunk_list sh row = seq 0 (sblocks sh).
Proof.
  intros H. rewrite <- (ranges_all sh Hsh). unfold sunk_list. f_equal. apply list_fmap_ext. intros ? k Hk%lookup_seq. cbn beta.
  by rewrite (proj1 (sink_done k ltac:(lia) (H k ltac:(lia)))).
Qed.

Lemma block_range b : (b < sblocks sh)%nat -> exists k, (k < T sh)%nat /\ in_range sh k b.
Proof.
  intros Hb. assert (b ∈ seq 0 (sblocks sh)) as H by (apply elem_of_seq; lia). rewrite <- (ranges_all sh Hsh) in H.
  apply list_elem_of_join in H as (l & Hbl & Hl). apply list_elem_of_fmap in Hl as (k & -> & Hk%elem_of_seq).
  apply elem_of_seq in Hbl. exists k. split; [lia |]. unfold in_range, range_width in *. lia.
Qed.

Lemma masks_ok_complete m :
  (0 < T sh)%nat -> (forall k, (k < T sh)%nat -> done_blocks sh k (row k) = range_width sh k) -> masks_ok sh m row ->
  masks_complete distinct_from (shape_input sh) m.
Proof.
  intros HT Hd (v & Hv & Hk). pose proof (shape_input_ok _ Hsh) as Hin.
  assert (forall k, (k < T sh)%nat -> task_masks sh v k phase_done) as Hrows.
  { intros k Hlt. rewrite <- (mask_done k Hlt (Hd k Hlt)). by apply Hk. }
  exists v. destruct Hv as [Hv | [_ Hf]]; cycle 1.
  { specialize (Hf 0%nat HT). rewrite (mask_done 0 HT (Hd _ HT)) in Hf. done. }
  assert (forall j : Z, 0 <= j < row_count (shape_input sh) -> exists k, (k < T sh)%nat /\
    sstart sh (range_begin sh k) <= j < sstart sh (range_end sh k)) as Hj.
  { intros j Hj. destruct (row_block (shape_input sh) (input_count _ _ _ Hin) j Hj) as (b & Hb & Hbj).
    destruct (block_range b Hb) as (k & Hlt & Hr). exists k. split; [done |]. unfold in_range in Hr.
    pose proof (block_start_mono (rows (shape_input sh)) (range_begin sh k) b ltac:(lia)).
    pose proof (block_start_mono (rows (shape_input sh)) (S b) (range_end sh k) ltac:(lia)). lia. }
  split_and!; [done | | |].
  - intros j (k & Hlt & Hjk)%Hj. by apply (Hrows k Hlt).
  - intros κ j Hκ (k & Hlt & Hjk)%Hj. by apply (Hrows k Hlt).
  - intros b (k & Hlt & Hr)%block_range. by apply (Hrows k Hlt).
Qed.
End group_facts.

Lemma start_strict sh b b' :
  shape_ok sh -> (b <= b' <= sblocks sh)%nat -> sstart sh b = sstart sh b' -> b = b'.
Proof.
  intros Hsh Hb E. destruct (decide (b = b')) as [-> | Hne]; [done |].
  pose proof (start_lt (shape_input sh) (input_chunks _ _ _ (shape_input_ok _ Hsh)) b b' ltac:(unfold sblocks in *; lia)). lia.
Qed.

(** *** Stages *)

Lemma ranges_telescope sh (x : nat -> Z) (n : nat) :
  shape_ok sh -> (n <= T sh)%nat ->
  zsum (fun k => x (range_begin sh k + range_width sh k)%nat - x (range_begin sh k)) (seq 0 n) =
    x (range_begin sh n `min` sblocks sh)%nat - x 0%nat.
Proof.
  intros Hsh. induction n as [| n IH]; intros Hn.
  { change (range_begin sh 0) with 0%nat. change (zsum _ (seq 0 0)) with 0. rewrite Nat.min_0_l. lia. }
  rewrite seq_S, zsum_app, IH, zsum_cons by lia. change (zsum _ []) with 0. cbn [Nat.add].
  pose proof (range_nonempty sh n Hsh ltac:(lia)) as Hr. unfold range_width.
  replace (range_begin sh n `min` sblocks sh)%nat with (range_begin sh n) by lia.
  replace (range_begin sh n + (range_end sh n - range_begin sh n))%nat with (range_begin sh (S n) `min` sblocks sh)%nat
    by (unfold range_end, range_begin in *; lia). lia.
Qed.

(** A counter of a stage: it is that of all chunks exactly when every task is done. *)
Lemma stage_done_iff i sh row (σ : nat) (x : nat -> Z) :
  shape_ok sh -> held_ok i sh row -> (σ <= 3)%nat ->
  (forall b b', (b <= b' <= sblocks sh)%nat -> x b <= x b' /\ (x b = x b' -> b = b')) ->
  zsum (fun k => x (range_begin sh k + done_blocks sh k (row (σ * T sh + k)%nat))%nat - x (range_begin sh k)) (seq 0 (T sh)) =
    x (sblocks sh) - x 0%nat <->
  forall k, (k < T sh)%nat -> done_blocks sh k (row (σ * T sh + k)%nat) = range_width sh k.
Proof.
  intros Hsh Hheld Hσ Hx. pose proof (ranges_telescope sh x (T sh) Hsh ltac:(lia)) as Htel.
  pose proof (range_last sh (T sh) Hsh ltac:(lia)) as Hl.
  replace (range_begin sh (T sh) `min` sblocks sh)%nat with (sblocks sh) in Htel by lia. rewrite <- Htel. split; cycle 1.
  { intros H. apply zsum_ext. intros k Hk%elem_of_seq. by rewrite H by lia. }
  intros Hsum k Hk. pose proof (range_nonempty sh k Hsh Hk) as Hr.
  assert (forall k, k ∈ seq 0 (T sh) ->
    x (range_begin sh k + done_blocks sh k (row (σ * T sh + k)%nat))%nat - x (range_begin sh k) <=
    x (range_begin sh k + range_width sh k)%nat - x (range_begin sh k)) as Hle.
  { intros k' Hk'%elem_of_seq. pose proof (done_le _ _ _ σ k' Hheld Hσ ltac:(lia)).
    pose proof (range_nonempty sh k' Hsh ltac:(lia)) as Hr'. unfold range_width in *.
    destruct (Hx (range_begin sh k' + done_blocks sh k' (row (σ * T sh + k')%nat))%nat (range_begin sh k' + (range_end sh k' - range_begin sh k'))%nat); lia. }
  pose proof (zsum_le_eq _ _ _ Hle ltac:(lia) k ltac:(apply elem_of_seq; lia)) as E. cbn beta in E.
  pose proof (done_le _ _ _ σ k Hheld Hσ Hk) as Hd. unfold range_width in *.
  destruct (Hx (range_begin sh k + done_blocks sh k (row (σ * T sh + k)%nat))%nat (range_begin sh k + (range_end sh k - range_begin sh k))%nat) as [_ H]; [lia |].
  lia.
Qed.

Lemma stage_of_inj (σ σ' : nat) : (σ <= 4)%nat -> (σ' <= 4)%nat -> stage_of σ = stage_of σ' -> σ = σ'.
Proof. intros H H' E. apply (f_equal stage_index) in E. by rewrite !stage_of_index in E. Qed.

Lemma counters_advance i sh g row (σ : nat) :
  shape_ok sh -> counters_ok sh g row -> held_ok i sh row -> (σ <= 2)%nat -> stage g = stage_of σ ->
  (forall k, (k < T sh)%nat -> done_blocks sh k (row (σ * T sh + k)%nat) = range_width sh k) ->
  counters_ok sh (set_stage (stage_of (S σ)) g) row /\ next_task g = (S σ * T sh)%nat.
Proof.
  intros Hsh [H1 H2 H3 (σ0 & Hs1 & Hs2 & Hs3 & Hs4) H5 H6 H7 H8] Hheld Hσ Hst Hd.
  rewrite Hst in Hs2. apply stage_of_inj in Hs2; [| lia | lia]. subst σ0.
  assert (S σ * T sh <= next_task g)%nat as Hle.
  { destruct (Nat.eq_dec (T sh) 0) as [H0 | H0]; [lia |]. specialize (Hd (pred (T sh)) ltac:(lia)).
    pose proof (width_pos sh Hsh (pred (T sh)) ltac:(lia)) as Hw.
    specialize (H2 (σ * T sh + pred (T sh))%nat ltac:(apply id_lt; lia)).
    destruct (row (σ * T sh + pred (T sh))%nat); [cbn in Hd; lia | |]; cbn in H2; symmetry in H2; apply Nat.leb_gt in H2; lia. }
  split; [| lia]. split; try done. exists (S σ). split_and!; [lia | done | exact Hle | cbn in *; lia |].
  intros σ' k Hσ' Hk. destruct (decide (σ' = σ)) as [-> | Hne]; [by apply Hd | apply Hs4; [lia | done]].
Qed.

Lemma TryPrepareNextStage_ok i sh g row :
  shape_ok sh -> group_ok i sh g row ->
  exists b g', TryPrepareNextStage g = (b, g') /\ group_ok i sh g' row /\ next_task g' = next_task g /\
    (stage g = GETDATA -> b = true) /\
    (b = true -> stage g = GETDATA \/
       next_task g' = (stage_index (stage g') * T sh)%nat /\ (stage_index (stage g') <= 3)%nat) /\
    (b = false -> exists k, (k < T sh)%nat /\ (stage_index (stage g) <= 2)%nat /\ stage g' = stage g /\
       (done_blocks sh k (row (stage_index (stage g) * T sh + k)%nat) < range_width sh k)%nat).
Proof.
  intros Hsh [Hc Hm Hst Hh]. pose proof (shape_input_ok _ Hsh) as Hin.
  assert (blocks g = sblocks sh) as Eb by (unfold blocks, sblocks; by rewrite (proj1 (group_shape _ _ _ Hc))).
  assert (count g = sstart sh (sblocks sh) - sstart sh 0) as Ec.
  { unfold count. rewrite (proj1 (group_shape _ _ _ Hc)), start_0. unfold sblocks. rewrite (start_last _ (input_count _ _ _ Hin)). lia. }
  assert (forall b b', (b <= b' <= sblocks sh)%nat -> Z.of_nat b <= Z.of_nat b' /\ (Z.of_nat b = Z.of_nat b' -> b = b')) as Hx1 by lia.
  assert (forall b b', (b <= b' <= sblocks sh)%nat -> sstart sh b <= sstart sh b' /\ (sstart sh b = sstart sh b' -> b = b')) as Hx2.
  { intros b b' Hb. split; [apply block_start_mono; lia | by apply start_strict]. }
  assert (forall σ : nat, (σ <= 3)%nat -> zsum (fun k => Z.of_nat (done_blocks sh k (row (σ * T sh + k)%nat))) (seq 0 (T sh)) = Z.of_nat (sblocks sh) <->
    forall k, (k < T sh)%nat -> done_blocks sh k (row (σ * T sh + k)%nat) = range_width sh k) as Hz.
  { intros σ Hσ. rewrite <- (stage_done_iff i sh row σ Z.of_nat Hsh Hh Hσ Hx1).
    erewrite (zsum_ext (fun k => Z.of_nat (range_begin sh k + done_blocks sh k (row (σ * T sh + k)%nat))%nat - _)); [| intros k _; by rewrite Nat2Z.inj_add, Z.add_simpl_l].
    rewrite Z.sub_0_r. done. }
  (* a stage that does not end has a task that is not done *)
  assert (forall σ : nat, (σ <= 2)%nat ->
    (exists k, (k < T sh)%nat /\ (done_blocks sh k (row (σ * T sh + k)%nat) < range_width sh k)%nat) \/
    (forall k, (k < T sh)%nat -> done_blocks sh k (row (σ * T sh + k)%nat) = range_width sh k)) as Hcase.
  { intros σ Hσ. destruct (decide (Exists (fun k => done_blocks sh k (row (σ * T sh + k)%nat) < range_width sh k)%nat (seq 0 (T sh)))) as [He | He].
    - left. apply Exists_exists in He as (k & Hk%elem_of_seq & Hd). exists k. split; [lia | done].
    - right. intros k Hk. pose proof (done_le _ _ _ σ k Hh ltac:(lia) Hk). destruct (decide (done_blocks sh k (row (σ * T sh + k)%nat) < range_width sh k)%nat); [| lia].
      exfalso. apply He, Exists_exists. exists k. split; [apply elem_of_seq; lia | done]. }
  (* one stage *)
  assert (forall (σ : nat) (b : bool), (σ <= 2)%nat -> stage g = stage_of σ ->
    (b = true <-> forall k, (k < T sh)%nat -> done_blocks sh k (row (σ * T sh + k)%nat) = range_width sh k) ->
    let g' := if b then set_stage (stage_of (S σ)) g else g in
    group_ok i sh g' row /\ next_task g' = next_task g /\ (stage g = GETDATA -> b = true) /\
    (b = true -> stage g = GETDATA \/
       next_task g' = (stage_index (stage g') * T sh)%nat /\ (stage_index (stage g') <= 3)%nat) /\
    (b = false -> exists k, (k < T sh)%nat /\ (stage_index (stage g) <= 2)%nat /\ stage g' = stage g /\
       (done_blocks sh k (row (stage_index (stage g) * T sh + k)%nat) < range_width sh k)%nat)) as Hone.
  { intros σ b Hσ Es Hb. cbn zeta. destruct b.
    - destruct (counters_advance i sh g row σ Hsh Hc Hh Hσ Es) as [Hc' Hn]; [by apply Hb |].
      split_and!; [by split | done | done | | done]. intros _. right. cbn [set_stage stage next_task]. rewrite stage_of_index by lia. lia.
    - split_and!; [by split | done | intros E; rewrite E in Es; apply (stage_of_inj 3 σ) in Es; lia | done |].
      intros _. rewrite !Es, !(stage_of_index σ) by lia. destruct (Hcase σ Hσ) as [(k & Hk & Hd) | Hd]; [by exists k | by apply Hb in Hd]. }
  destruct (group_stage _ _ _ Hc) as (σ & Hσ & Es & _). destruct (decide (σ = 3%nat)) as [-> | Hne].
  { unfold TryPrepareNextStage. rewrite Es. exists true, g. split_and!; try done. intros _. by left. }
  assert (exists b, TryPrepareNextStage g = (b, if b : bool then set_stage (stage_of (S σ)) g else g) /\
    (b = true <-> forall k, (k < T sh)%nat -> done_blocks sh k (row (σ * T sh + k)%nat) = range_width sh k)) as (b & E & Hb).
  { unfold TryPrepareNextStage. rewrite Es, Eb, Ec. destruct σ as [| [| [| σ]]]; [| | | lia]; cbn [stage_of].
    - pose proof (group_masked _ _ _ Hc) as E. specialize (Hz 0%nat ltac:(lia)). cbn [Nat.mul Nat.add] in Hz, E |- *. rewrite <- E in Hz.
      destruct (Nat.eqb_spec (masked g) (sblocks sh)) as [Ez | Ez]; [exists true | exists false]; (split; [reflexivity |]); rewrite <- Hz.
      + split; [intros _; by rewrite Ez | done].
      + split; [done | by intros ?%Nat2Z.inj].
    - pose proof (stage_done_iff i sh row 1 (fun b => sstart sh b) Hsh Hh ltac:(lia) Hx2) as Hs. rewrite Nat.mul_1_l in *.
      rewrite <- (group_sunk _ _ _ Hc) in Hs.
      destruct (Z.eqb_spec (sunk g) (sstart sh (sblocks sh) - sstart sh 0)) as [Ez | Ez]; [exists true | exists false]; (split; [reflexivity |]);
        by rewrite <- Hs.
    - pose proof (group_finalized _ _ _ Hc) as E. specialize (Hz 2%nat ltac:(lia)). rewrite <- E in Hz.
      destruct (Nat.eqb_spec (finalized g) (sblocks sh)) as [Ez | Ez]; [exists true | exists false]; (split; [reflexivity |]); rewrite <- Hz.
      + split; [intros _; by rewrite Ez | done].
      + split; [done | by intros ?%Nat2Z.inj]. }
  exists b, (if b then set_stage (stage_of (S σ)) g else g). split; [exact E |]. apply Hone; [lia | done | done].
Qed.

(** *** Assigning a task *)

(** A thread that gets a task. *)
Definition assigned t : Thread := {| window_pc := src_execute; task := Some t; scanner := None |}.

Lemma group_TryNextTask_ok i sh g row :
  shape_ok sh -> group_ok i sh g row ->
  match group_TryNextTask i g with
  | Some (t, g') => exists σ k : nat,
      (σ <= 3)%nat /\ (k < T sh)%nat /\ next_task g = (σ * T sh + k)%nat /\ row (σ * T sh + k)%nat = fresh /\
      task_id sh t = (σ * T sh + k)%nat /\ group_idx t = i /\ task_stage t = stage g /\ begin_idx t = range_begin sh k /\
      next_task g' = S (next_task g) /\ stage g' = stage g /\
      forall j, group_ok i sh g' (<[(σ * T sh + k)%nat := held j (assigned t)]> row)
  | None => next_task g = (4 * T sh)%nat \/
      (next_task g < 4 * T sh)%nat /\ next_task g = (S (stage_index (stage g)) * T sh)%nat /\ (stage_index (stage g) <= 2)%nat
  end.
Proof.
  intros Hsh [Hc Hm Hst Hh]. destruct (group_shape _ _ _ Hc) as (Ei & Ep & Et & _).
  destruct (group_stage _ _ _ Hc) as (σ & Hσ & Es & Hn & Hd). pose proof (group_next _ _ _ Hc) as Hn4.
  assert (blocks g = sblocks sh) as Eb by (unfold blocks, sblocks; by rewrite Ei).
  unfold group_TryNextTask, GetTaskCount, GetThreadCount. cbn [stage_index Nat.sub]. rewrite Et, Ep, Eb.
  destruct (Nat.leb_spec (T sh * 4) (next_task g)) as [Hge | Hlt]; [left; lia |].
  assert (0 < T sh)%nat as HT by lia.
  pose proof (Nat.div_mod_eq (next_task g) (T sh)) as Ediv. pose proof (Nat.mod_upper_bound (next_task g) (T sh) ltac:(lia)) as Hmod.
  assert (next_task g / T sh <= 3)%nat as Hq by nia.
  destruct (decide _) as [Ed | Ed]; cycle 1.
  { right. rewrite Es in Ed |- *. rewrite stage_of_index by lia.
    assert (next_task g / T sh <> σ)%nat by (intros Eq; apply Ed; by rewrite Eq). split_and!; [lia | nia | nia]. }
  rewrite Es in Ed. apply stage_of_inj in Ed; [| lia | lia]. rewrite Ed in *.
  exists σ, (next_task g mod T sh)%nat. set (k := (next_task g mod T sh)%nat) in *.
  assert (next_task g = σ * T sh + k)%nat as En by lia.
  assert (row (σ * T sh + k)%nat = fresh) as Ef.
  { pose proof (group_fresh _ _ _ Hc (next_task g) ltac:(lia)) as Hf. rewrite Nat.leb_refl, En in Hf.
    by destruct (row (σ * T sh + k)%nat). }
  match goal with |- context [task_id sh ?x] => set (t := x) end.
  assert (task_id sh t = σ * T sh + k)%nat as Eid by (unfold task_id, t; cbn; by rewrite Es, stage_of_index by lia).
  pose proof (range_nonempty sh k Hsh Hmod) as Hr.
  assert (forall j k', done_blocks sh k' (held j (assigned t)) = (range_begin sh k - range_begin sh k')%nat) as Hdone by done.
  split_and!; try done. intros j.
  assert (done_blocks sh k (held j (assigned t)) = done_blocks sh k (row (σ * T sh + k)%nat)) as Hdk by (rewrite Ef, Hdone; cbn; lia).
  split.
  - destruct Hc as [H1 H2 H3 _ H5 H6 H7 H8].
    assert (forall σ' k', (k' < T sh)%nat -> done_blocks sh k' ((<[(σ * T sh + k)%nat := held j (assigned t)]> row) (σ' * T sh + k')%nat) =
      done_blocks sh k' (row (σ' * T sh + k')%nat)) as Hsame.
    { intros σ' k' Hk'. destruct (decide (σ' = σ /\ k' = k)) as [[-> ->] | Hne]; [by rewrite fn_lookup_insert |].
      rewrite update_other; [done | done | done | lia]. }
    assert (forall σ' (x : nat -> nat -> Z), zsum (fun k' => x k' (done_blocks sh k' ((<[(σ * T sh + k)%nat := held j (assigned t)]> row) (σ' * T sh + k')%nat))) (seq 0 (T sh)) =
      zsum (fun k' => x k' (done_blocks sh k' (row (σ' * T sh + k')%nat))) (seq 0 (T sh))) as Hsum.
    { intros σ' x. apply zsum_ext. intros k' Hk'%elem_of_seq. by rewrite Hsame by lia. }
    split; cbn [group_input per_thread group_threads batch_base next_task stage masked sunk finalized group_completed set_next_task]; try done.
    + intros id Hid. destruct (decide (id = (σ * T sh + k)%nat)) as [-> | Hne].
      * rewrite fn_lookup_insert. symmetry. apply Nat.leb_gt. lia.
      * rewrite fn_lookup_insert_ne by done. rewrite H2 by done. destruct (Nat.leb_spec (next_task g) id), (Nat.leb_spec (S (next_task g)) id); lia || done.
    + lia.
    + exists σ. split_and!; [done | done | lia | lia |]. intros σ' k' Hσ' Hk'. rewrite Hsame by done. by apply Hd.
    + rewrite H5. symmetry. apply (Hsum 0%nat (fun _ x => Z.of_nat x)).
    + rewrite H6. symmetry. pose proof (Hsum 1%nat (fun k x => sstart sh (range_begin sh k + x) - sstart sh (range_begin sh k))) as E.
      rewrite Nat.mul_1_l in E. exact E.
    + rewrite H7. symmetry. apply (Hsum 2%nat (fun _ x => Z.of_nat x)).
    + rewrite H8. apply zsum_ext. intros id _. rewrite (project_update is_complete); [done | by rewrite Ef].
  - apply masks_same; [done | | exact Hm]. intros ->. cbn [Nat.mul Nat.add] in Ef. by rewrite Ef.
  - apply states_same; [done | | | | exact Hst]; rewrite ?Ef; [| done | done].
    intros _. split; [| done]. unfold sunk_blocks. rewrite Hdone. cbn. lia.
  - apply held_update; [exact Hh |]. intros j' th' [= <- <-]. exists t. split_and!; [done | done | done |].
    split; [done | | done | done | | ].
    + cbn. unfold range_begin. split; [done |]. pose proof Hr as Hr'. unfold range_end, range_begin in Hr'. lia.
    + cbn zeta. cbn [window_pc assigned]. unfold t. cbn [begin_idx end_idx task_stage thread_idx]. pose proof Hr as Hr'.
      unfold range_end, range_begin in *. split; [lia | by right].
    + cbn. rewrite Es. intros E. apply (stage_of_inj σ 4) in E; lia.
Qed.

(** *** Finishing a task *)

Definition release t g : Group :=
  if decide (task_stage t = GETDATA) then set_states (gestates g) (<[thread_idx t := None]> (thread_states g)) g else g.

Lemma states_release sh x l row (k : nat) :
  (k < T sh)%nat -> states_ok sh x l row -> states_ok sh x (<[k := None]> l) (<[(3 * T sh + k)%nat := complete]> row).
Proof.
  intros Hk [H1 H2 H3 H4].
  assert (forall σ' k', (k' < T sh)%nat -> σ' <> 3%nat -> (<[(3 * T sh + k)%nat := complete]> row) (σ' * T sh + k')%nat = row (σ' * T sh + k')%nat) as Ho
    by (intros; apply update_other; [done | done | lia]).
  assert (forall k', (k' < T sh)%nat -> (<[(3 * T sh + k)%nat := complete]> row) (T sh + k')%nat = row (T sh + k')%nat) as Ho1
    by (intros k' Hk'; pose proof (Ho 1%nat k' Hk' ltac:(lia)) as E; by rewrite Nat.mul_1_l in E).
  split; [by rewrite length_insert | | |].
  - intros k' l' [(_ & [=] & _) | [_ E]]%list_lookup_insert_Some. by eapply H2.
  - intros k' Hk' Hi Hcomp. rewrite Ho1 in Hi by done. destruct (decide (k' = k)) as [-> | Hne].
    { by rewrite fn_lookup_insert in Hcomp. }
    rewrite update_other in Hcomp by (done || (by right)). destruct (H3 k' Hk' Hi Hcomp) as [l' E]. exists l'.
    by rewrite list_lookup_insert_ne.
  - destruct x as [x |]; [| intros k' Hk'; rewrite Ho1 by done; by apply H4].
    destruct H4 as (sunk & n & Hg & Hp & Hn). exists sunk, n. split_and!; [done | |].
    + rewrite Hp. unfold sunk_list. f_equiv. apply reflexive_eq, list_fmap_ext. intros ? k' Hk'%lookup_seq. cbn beta. by rewrite Ho1 by lia.
    + rewrite Hn. apply zsum_ext. intros k' Hk'%elem_of_seq. by rewrite Ho by lia.
Qed.

Lemma finish_group_ok i sh g row (σ k j : nat) th t :
  shape_ok sh -> group_ok i sh g row -> (σ <= 3)%nat -> (k < T sh)%nat ->
  row (σ * T sh + k)%nat = held j th -> task th = Some t -> window_pc th = src_assign ->
  group_ok i sh (add_counts 0 0 0 1 (release t g)) (<[(σ * T sh + k)%nat := complete]> row).
Proof.
  intros Hsh [Hc Hm Hst Hh] Hσ Hk Hrow Et Hpc.
  destruct (held_thread _ _ _ _ _ _ _ Hh Hσ Hk Hrow) as (t' & Et' & _ & Es & Ek & [_ Hb He _ Hpc' _]).
  rewrite Et in Et'. injection Et' as <-. rewrite Ek in *. rewrite Hpc in Hpc'. cbn zeta in Hpc'.
  assert (done_blocks sh k (row (σ * T sh + k)%nat) = range_width sh k) as Hd
    by (rewrite Hrow; cbn [done_blocks]; rewrite Et; unfold range_width; lia).
  assert (counters_ok sh (release t g) row) as Hc' by (unfold release; case_decide; [by destruct Hc; split | done]).
  split.
  - apply counters_add; rewrite ?Hd, ?Hrow; cbn [is_fresh is_complete done_blocks]; try done; try lia; case_decide; lia.
  - assert (group_masks (add_counts 0 0 0 1 (release t g)) = group_masks g) as -> by (unfold release; by case_decide).
    apply masks_same; [done | | exact Hm]. intros ->. cbn [Nat.mul Nat.add] in Hrow. rewrite Hrow. cbn. by rewrite Hpc.
  - assert (gestates (add_counts 0 0 0 1 (release t g)) = gestates g) as -> by (unfold release; by case_decide).
    assert (states_ok sh (gestates g) (thread_states (release t g)) (<[(σ * T sh + k)%nat := complete]> row)) as H; [| exact H].
    assert (sunk_blocks sh k complete = sunk_blocks sh k (row (σ * T sh + k)%nat) /\ sink_inited complete = sink_inited (row (σ * T sh + k)%nat) /\
      is_finalized complete = is_finalized (row (σ * T sh + k)%nat)) as (E1 & E2 & E3).
    { unfold sunk_blocks. rewrite Hd. rewrite Hrow. cbn. rewrite Hpc. split_and!; [lia | done | done]. }
    unfold release. case_decide as Eg.
    + cbn [thread_states set_states]. rewrite Eg in Es. cbn in Es. subst σ. rewrite Ek. by apply states_release.
    + apply states_same; done.
  - apply held_update; [exact Hh |]. done.
Qed.

(** ** The steps of a thread with a task *)

(** The task is counted as finished. *)
Definition counted (st : Status) : Z :=
  match st with
  | fresh => 0
  | complete => 1
  | held _ th => match window_pc th with
                 | src_loop | src_assign | src_done => if TaskFinished (task th) then 1 else 0
                 | _ => 0
                 end
  end.

(** The steps that are left of a task. *)
Definition remaining th : nat := match task th with Some t => end_idx t - begin_idx t | None => 0 end.

Definition work sh (st : Status) : nat :=
  match st with
  | fresh => 6 * sblocks sh + 20
  | complete => 0
  | held _ th =>
      let r := remaining th in
      match window_pc th with
      | src_assign | src_done => 1
      | src_loop => 4 * r + 2
      | src_count => 4 * r + 3
      | getdata => 4 * r
      | mask_calls calls => 4 + length calls
      | mask_small => 5
      | mask_begin => 3 * sblocks sh + 7
      | mask_alloc => 3 * sblocks sh + 8
      | sink_count _ => 2 * r + 3
      | sink_loop => 2 * r + 4
      | sink_states => 2 * r + 5
      | finalize_count => 4
      | finalize_run => 5
      | src_execute =>
          match task th with
          | Some t => if decide (task_stage t = GETDATA) then 4 * r + 1 else 3 * sblocks sh + 2 * r + 9
          | None => 0
          end
      | _ => 0
      end
  end%nat.

Definition block_output sh (b : nat) : nat * list (list V * Res) := ((shape_batch sh + b)%nat, expected (shape_input sh) b).

Definition row_outputs sh row : list (nat * list (list V * Res)) :=
  mjoin ((fun k => block_output sh <$> seq (range_begin sh k) (done_blocks sh k (row (3 * T sh + k)%nat))) <$> seq 0 (T sh)).

Abbreviation window_step := (window_step distinct_from executors config).

(** What a step of a thread with a task does. *)
Definition task_step_ok i sh row (id j : nat) th s : Prop :=
  exists g' th' n out, window_step s th = Some (add_tasks 0 n 0 (set_group i (Some g') s), th', false, out) /\
    group_ok i sh g' (<[id := held j th']> row) /\
    Z.of_nat n = counted (held j th') - counted (held j th) /\
    row_outputs sh (<[id := held j th']> row) ≡ₚ row_outputs sh row ++ option_list out /\
    (work sh (held j th') < work sh (held j th))%nat /\ (exists t', task th' = Some t').

Lemma set_group_same i g s : get_group i s = Some g -> add_tasks 0 0 0 (set_group i (Some g) s) = s.
Proof.
  unfold get_group. intros H. apply bind_Some in H as (g' & H & ->). destruct s. unfold add_tasks, set_group. cbn in *.
  by rewrite list_insert_id, !Nat.add_0_r.
Qed.

Lemma row_outputs_same sh row (σ k : nat) st :
  (k < T sh)%nat -> (σ = 3%nat -> done_blocks sh k st = done_blocks sh k (row (σ * T sh + k)%nat)) ->
  row_outputs sh (<[(σ * T sh + k)%nat := st]> row) = row_outputs sh row.
Proof.
  intros Hk H. unfold row_outputs. f_equal. apply list_fmap_ext. intros ? k' Hk'%lookup_seq. cbn beta.
  destruct (decide (σ = 3%nat /\ k' = k)) as [[-> ->] | Hne]; [by rewrite fn_lookup_insert, H |].
  rewrite update_other; [done | done | lia | lia].
Qed.

(** *** The masks of the tasks *)

Lemma delta_loop_length fuel collection key block_end block_curr boundary row_idx sc scanned calls :
  delta_loop distinct_from fuel collection key block_end block_curr boundary row_idx sc scanned = Some calls ->
  (length calls <= fuel)%nat.
Proof.
  revert block_curr boundary row_idx sc scanned calls.
  induction fuel as [| fuel IH]; intros block_curr boundary row_idx sc scanned calls E; [done |]. cbn [delta_loop] in E.
  destruct (block_end <=? block_curr)%nat; [injection E as <-; cbn; lia |]. destruct boundary.
  - apply bind_Some in E as (d & _ & E). destruct (block_end <=? S block_curr)%nat; [injection E as <-; cbn; lia |].
    destruct (Scan collection sc) as [[chunk |] sc']; [| injection E as <-; cbn; lia].
    apply bind_Some in E as (l & El%IH & [= <-]). cbn. lia.
  - destruct scanned as [| r next]; [done |]. destruct (length next =? 0)%nat.
    + apply IH in E. lia.
    + apply bind_Some in E as (l & El%IH & [= <-]). cbn. lia.
Qed.

Lemma begin_masks_calls (input : MaskInput V) (block_begin block_end : nat) m m' calls :
  begin_masks distinct_from input block_begin block_end m = Some (m', calls) -> (length calls <= S (3 * block_end))%nat.
Proof.
  unfold begin_masks. destruct (task_entries input block_begin block_end) as [b e].
  destruct (e <=? b); [destruct (is_sorted input); [done |]; intros [= <- <-]; cbn; lia |]. intros (m1 & _ & E)%bind_Some. apply bind_Some in E as (l & El & [= <- <-]).
  unfold block_calls in El. destruct (is_sorted input); [| injection El as <-; cbn; lia].
  unfold WindowDeltaScanner in El. destruct (length _ =? 0)%nat; [injection El as <-; cbn; lia |].
  destruct (Scan _ _) as [[chunk |] sc]; [| injection El as <-; cbn; lia].
  apply delta_loop_length in El. lia.
Qed.

Lemma ranges_disjoint sh (k k' : nat) : (k < k')%nat -> (range_end sh k <= range_begin sh k')%nat.
Proof. intros H. unfold range_end, range_begin. nia. Qed.

Lemma task_masks_ext sh v v' (k : nat) ph :
  (forall b, in_range sh k b -> view_begins v' b = view_begins v b) ->
  (match ph with phase_fresh _ => True | _ =>
     forall j : Z, sstart sh (range_begin sh k) <= j < sstart sh (range_end sh k) ->
       view_partition v' j = view_partition v j /\
       forall κ, κ ∈ order_list (shape_input sh) -> view_order v' κ j = view_order v κ j end) ->
  task_masks sh v k ph -> task_masks sh v' k ph.
Proof.
  intros Hb Hr. destruct ph as [al | calls |]; cbn [task_masks].
  - intros H b Hin. rewrite Hb by done. by apply H.
  - intros (r & H1 & H2 & H3 & H4 & H5). exists r. split_and!; [lia | lia | done | done | |].
    + intros b Hin. specialize (H4 b Hin). unfold WindowMasksInvariant.begins_inv in *. by rewrite Hb.
    + intros j Hj. destruct (Hr j Hj) as [-> E]. destruct (H5 j Hj) as [H6 H7]. split; [done |]. intros κ Hκ. rewrite E by done. by apply H7.
  - intros [H4 H5]. split.
    + intros b Hin. specialize (H4 b Hin). unfold WindowMasksInvariant.begins_inv in *. by rewrite Hb.
    + intros j Hj. destruct (Hr j Hj) as [-> E]. destruct (H5 j Hj) as [H6 H7]. split; [done |]. intros κ Hκ. rewrite E by done. by apply H7.
Qed.

Lemma masks_update sh m' row (k : nat) st v v' :
  (k < T sh)%nat -> view_of (shape_input sh) m' v' ->
  (forall k', (k' < T sh)%nat -> task_masks sh v k' (mask_phase (row k'))) ->
  task_masks sh v' k (mask_phase st) ->
  (forall k', (k' < T sh)%nat -> k' <> k -> task_masks sh v k' (mask_phase (row k')) -> task_masks sh v' k' (mask_phase (row k'))) ->
  masks_ok sh m' (<[(0 * T sh + k)%nat := st]> row).
Proof.
  intros Hk Hv' Hrows Hst Hother. exists v'. split; [by left |]. intros k' Hk'. destruct (decide (k' = k)) as [-> | Hne].
  - cbn [Nat.mul Nat.add]. by rewrite fn_lookup_insert.
  - pose proof (update_other sh row st 0 0 k k' Hk Hk' ltac:(lia)) as E. cbn [Nat.mul Nat.add] in *. rewrite E. by apply Hother, Hrows.
Qed.

(** A change of the rows and the blocks of one task. *)
Lemma other_masks sh v v' (k : nat) :
  shape_ok sh -> (k < T sh)%nat ->
  (forall j : Z, in_rows (sstart sh (range_begin sh k)) (sstart sh (range_end sh k)) j = false ->
    view_partition v' j = view_partition v j /\
    forall κ, κ ∈ order_list (shape_input sh) -> view_order v' κ j = view_order v κ j) ->
  (forall b, ~ in_range sh k b -> view_begins v' b = view_begins v b) ->
  forall k' ph, (k' < T sh)%nat -> k' <> k -> task_masks sh v k' ph -> task_masks sh v' k' ph.
Proof.
  intros Hsh Hk Hr Hb k' ph Hk' Hne.
  assert (range_end sh k <= range_begin sh k' \/ range_end sh k' <= range_begin sh k)%nat as Hd
    by (destruct (Nat.lt_trichotomy k k') as [? | [? | ?]]; [left | lia | right]; by apply ranges_disjoint).
  apply task_masks_ext.
  - intros b Hin. apply Hb. unfold in_range in *. lia.
  - assert (forall j : Z, sstart sh (range_begin sh k') <= j < sstart sh (range_end sh k') ->
      view_partition v' j = view_partition v j /\ forall κ, κ ∈ order_list (shape_input sh) -> view_order v' κ j = view_order v κ j) as H.
    { intros j Hj. apply Hr. unfold in_rows. destruct Hd as [Hd | Hd].
      - pose proof (block_start_mono (rows (shape_input sh)) _ _ Hd). by rewrite (proj2 (Z.ltb_ge j (sstart sh (range_end sh k)))), andb_false_r by lia.
      - pose proof (block_start_mono (rows (shape_input sh)) _ _ Hd). by rewrite (proj2 (Z.leb_gt (sstart sh (range_begin sh k)) j)) by lia. }
    by destruct ph.
Qed.

Section held.
Context (i : nat) (sh : Shape) (g : Group) (row : nat -> Status) (σ k j : nat) (th : Thread) (t : WindowSourceTask).
Context (Hsh : shape_ok sh) (Hg : group_ok i sh g row) (Hσ : (σ <= 3)%nat) (Hk : (k < T sh)%nat).
Context (Hrow : row (σ * T sh + k)%nat = held j th) (Ht : task th = Some t) (s : Global) (Hs : get_group i s = Some g).

Abbreviation id := (σ * T sh + k)%nat.

Lemma held_facts : group_idx t = i /\ stage_index (task_stage t) = σ /\ thread_idx t = k /\ thread_ok sh th t.
Proof.
  destruct (held_thread _ _ _ _ _ _ _ (group_held _ _ _ _ Hg) Hσ Hk Hrow) as (t' & E & H). rewrite Ht in E. by injection E as <-.
Qed.

Lemma held_move th' t' :
  task th' = Some t' -> group_idx t' = group_idx t -> task_stage t' = task_stage t -> thread_idx t' = thread_idx t ->
  thread_ok sh th' t' -> held_ok i sh (<[id := held j th']> row).
Proof.
  intros E1 E2 E3 E4 Hok. destruct held_facts as (F1 & F2 & F3 & _). apply held_update; [apply Hg |].
  intros j' th'' [= <- <-]. exists t'. split_and!; [done | congruence | | done].
  unfold task_id. by rewrite E3, E4, F2, F3.
Qed.

(** A step that leaves the group and the task. *)
Lemma quiet_ok th' :
  task th' = Some t ->
  (σ = 0%nat -> pc_phase (window_pc th') = pc_phase (window_pc th)) ->
  (σ = 1%nat -> sunk_blocks sh k (held j th') = sunk_blocks sh k (held j th) /\ sink_inited (held j th') = sink_inited (held j th)) ->
  (σ = 2%nat -> is_finalized (held j th') = is_finalized (held j th)) ->
  thread_ok sh th' t -> group_ok i sh g (<[id := held j th']> row).
Proof.
  intros E' H1 H2 H3 Hok. destruct Hg as [Hc Hm Hst Hh]. split.
  - apply counters_same; [done | by rewrite Hrow | by rewrite Hrow |]. intros k'. rewrite Hrow. cbn. by rewrite E', Ht.
  - apply masks_same; [done | | done]. intros E. specialize (H1 E). pose proof Hrow as Hr. rewrite E in Hr. cbn [Nat.mul Nat.add] in Hr. by rewrite Hr.
  - apply states_same; try done; by rewrite Hrow.
  - by eapply held_move.
Qed.

Lemma set_group_id : set_group i (Some g) s = s.
Proof.
  pose proof (set_group_same i g s Hs) as E. unfold add_tasks in E. rewrite !Nat.add_0_r in E. rewrite <- E at 2. by destruct s.
Qed.

Lemma quiet_step_ok th' n :
  task th' = Some t ->
  window_step s th = Some (add_tasks 0 n 0 s, th', false, None) ->
  (σ = 0%nat -> pc_phase (window_pc th') = pc_phase (window_pc th)) ->
  (σ = 1%nat -> sunk_blocks sh k (held j th') = sunk_blocks sh k (held j th) /\ sink_inited (held j th') = sink_inited (held j th)) ->
  (σ = 2%nat -> is_finalized (held j th') = is_finalized (held j th)) ->
  Z.of_nat n = counted (held j th') - counted (held j th) -> (work sh (held j th') < work sh (held j th))%nat ->
  thread_ok sh th' t -> task_step_ok i sh row id j th s.
Proof.
  intros E' E H1 H2 H3 H4 H5 Hok. exists g, th', n, None. rewrite set_group_id. split_and!; [done | by apply quiet_ok | lia | | done | by exists t].
  rewrite row_outputs_same; [by rewrite app_nil_r | done |]. intros _. rewrite Hrow. cbn. by rewrite E', Ht.
Qed.

Lemma add_tasks_0 (s' : Global) : add_tasks 0 0 0 s' = s'.
Proof. destruct s'. unfold add_tasks. cbn. by rewrite !Nat.add_0_r. Qed.

Abbreviation goto pc := {| window_pc := pc; task := task th; scanner := scanner th |}.

Lemma src_execute_ok : window_pc th = src_execute -> task_step_ok i sh row id j th s.
Proof.
  intros Hpc. destruct held_facts as (F1 & F2 & F3 & Hok). pose proof Hok as [H1 H2 H3 H4 Hp H6]. rewrite Hpc in Hp. cbn zeta in Hp.
  rewrite F3 in *. pose proof (range_nonempty sh k Hsh Hk) as Hr.
  assert (remaining th = (end_idx t - begin_idx t)%nat) as Erem by (unfold remaining; by rewrite Ht).
  assert (forall pc, remaining {| window_pc := pc; task := task th; scanner := scanner th |} = remaining th) as Erem' by done.
  destruct (task_stage t) eqn:Es; cbn in F2.
  - apply (quiet_step_ok (goto mask_alloc) 0); [done |..]; try (intros; lia); rewrite ?add_tasks_0; cbn [work window_pc counted]; rewrite ?Erem', ?Hpc, ?Ht, ?Es.
    + unfold WindowSource.window_step. rewrite Hpc, Ht. cbn [mbind option_bind]. by rewrite Es.
    + done.
    + done.
    + rewrite decide_False by done. lia.
    + split; rewrite ?F3, ?Es; [done | done | done | done | | done]. cbn [window_pc]. split; [done |]. by destruct Hp as [_ [[=] | ?]].
  - apply (quiet_step_ok (goto sink_states) 0); [done |..]; try (intros; lia); rewrite ?add_tasks_0; cbn [work window_pc counted]; rewrite ?Erem', ?Hpc, ?Ht, ?Es.
    + unfold WindowSource.window_step. rewrite Hpc, Ht. cbn [mbind option_bind]. by rewrite Es.
    + intros _. unfold sunk_blocks. cbn. rewrite ?Hpc, ?Ht. by split.
    + done.
    + rewrite decide_False by done. lia.
    + split; rewrite ?F3, ?Es; [done | done | done | done | | done]. cbn [window_pc]. split; [done |]. by destruct Hp as [_ [[=] | ?]].
  - apply (quiet_step_ok (goto finalize_run) 0); [done |..]; try (intros; lia); rewrite ?add_tasks_0; cbn [work window_pc counted]; rewrite ?Erem', ?Hpc, ?Ht, ?Es.
    + unfold WindowSource.window_step. rewrite Hpc, Ht. cbn [mbind option_bind]. by rewrite Es.
    + intros _. cbn. by rewrite ?Hpc.
    + done.
    + rewrite decide_False by done. lia.
    + split; rewrite ?F3, ?Es; [done | done | done | done | | done]. cbn [window_pc]. split; [done |]. by destruct Hp as [_ [[=] | ?]].
  - apply (quiet_step_ok (goto getdata) 0); [done |..]; try (intros; lia); rewrite ?add_tasks_0; cbn [work window_pc counted]; rewrite ?Erem', ?Hpc, ?Ht, ?Es.
    + unfold WindowSource.window_step. rewrite Hpc, Ht. cbn [mbind option_bind]. rewrite Es. cbn [TaskFinished].
      by rewrite (proj2 (Nat.eqb_neq _ _)) by lia.
    + done.
    + rewrite decide_True by done. lia.
    + split; rewrite ?F3, ?Es; [done | done | done | done | | done]. cbn [window_pc]. split; [done | lia].
  - done.
Qed.

(** *** The steps of the MASK stage *)

Lemma shape_input_eq : group_input g = shape_input sh.
Proof. apply (group_shape _ _ _ (group_counters _ _ _ _ Hg)). Qed.

Lemma with_group_eq f : with_group t s f = g' ← f g; Some (set_group i (Some g') s).
Proof. unfold with_group. destruct held_facts as (-> & _). by rewrite Hs. Qed.

(** A change of the masks by a thread that has not counted its task yet. *)
Lemma mask_step pc m' :
  let th' := {| window_pc := pc; task := task th; scanner := scanner th |} in
  σ = 0%nat ->
  window_step s th = Some (set_group i (Some (set_group_masks m' g)) s, th', false, None) ->
  masks_ok sh m' (<[id := held j th']> row) ->
  counted (held j th') = counted (held j th) -> (work sh (held j th') < work sh (held j th))%nat ->
  thread_ok sh th' t -> task_step_ok i sh row id j th s.
Proof.
  intros th' E0 E Hm' H4 H5 Hok. exists (set_group_masks m' g), th', 0%nat, None. rewrite add_tasks_0.
  split_and!; [done | | lia | | done | by exists t].
  - destruct Hg as [Hc Hm Hst Hh]. split; [| done | | by eapply held_move].
    + assert (counters_ok sh g (<[id := held j th']> row)) as H; [| by destruct H; split].
      apply counters_same; [done | by rewrite Hrow | by rewrite Hrow |]. intros k'. by rewrite Hrow.
    + apply states_same; try done; lia.
  - rewrite row_outputs_same; [by rewrite app_nil_r | done | lia].
Qed.

Lemma mask_alloc_ok : window_pc th = mask_alloc -> task_step_ok i sh row id j th s.
Proof.
  intros Hpc. destruct held_facts as (F1 & F2 & F3 & Hok). pose proof Hok as [H1 H2 H3 H4 Hp H6]. rewrite Hpc in Hp. cbn zeta in Hp.
  rewrite F3 in *. destruct Hp as [Es Eb]. rewrite Es in F2. cbn in F2.
  assert (row k = held j th) as Hrow' by (rewrite <- F2 in Hrow; exact Hrow).
  apply (mask_step (if shrink_runs config then mask_small else mask_begin) (AllocateMasks (group_input g) (group_masks g))); [done | | | | |].
  - unfold WindowSource.window_step. rewrite Hpc, Ht. cbn [mbind option_bind]. by rewrite with_group_eq.
  - rewrite shape_input_eq. rewrite <- F2. pose proof (group_masks_ok _ _ _ _ Hg) as (v & Hv & Hrows).
    assert (exists v', view_of (shape_input sh) (AllocateMasks (shape_input sh) (group_masks g)) v' /\
      forall k', (k' < T sh)%nat -> task_masks sh v' k' (mask_phase (row k'))) as (v' & Hv' & Hrows').
    { destruct Hv as [Hv | [Hv Hf]].
      - exists v. rewrite (AllocateMasks_again _ _ _ Hv). by split.
      - eexists. split; [apply (AllocateMasks_new _ (input_count _ _ _ (shape_input_ok _ Hsh)) _ _ Hv) |].
        intros k' Hk'. specialize (Hrows k' Hk'). rewrite Hf in * by done. exact Hrows. }
    apply (masks_update sh _ _ _ _ v' v'); [done | done | done | | by auto].
    pose proof (Hrows' k Hk) as Hk'. rewrite Hrow' in Hk'. cbn [mask_phase] in Hk'. rewrite Hpc in Hk'.
    cbn [mask_phase window_pc]. by destruct (shrink_runs config).
  - cbn. rewrite Hpc. by destruct (shrink_runs config).
  - cbn. rewrite Hpc. destruct (shrink_runs config); lia.
  - split; rewrite ?F3; [done | done | done | done | | done]. cbn [window_pc]. by destruct (shrink_runs config).
Qed.

Lemma mask_view :
  mask_phase (row k) <> phase_fresh false ->
  exists v, view_of (shape_input sh) (group_masks g) v /\ forall k', (k' < T sh)%nat -> task_masks sh v k' (mask_phase (row k')).
Proof.
  intros Hne. destruct (group_masks_ok _ _ _ _ Hg) as (v & [Hv | [_ Hf]] & Hrows); [by exists v |].
  by rewrite Hf in Hne.
Qed.
Lemma row_0 : σ = 0%nat -> row k = held j th.
Proof. intros E. by rewrite E in Hrow. Qed.

(** The rows of the task in the current view. *)
Lemma progress_same v r :
  task_rows sh v k (fun (j : Z) x => (j =? 0) || ((j <? r) && x)) -> view_of (shape_input sh) (group_masks g) v ->
  view_of (shape_input sh) (group_masks g)
    (progress_view distinct_from (shape_input sh) (sstart sh (range_begin sh k)) (sstart sh (range_end sh k)) r v).
Proof.
  intros Hr Hv. eapply view_of_ext; [| | | exact Hv]; cbn [view_partition view_order view_begins progress_view]; [| | done].
  - intros jz _. destruct (in_rows _ _ jz) eqn:E; [| done]. apply andb_true_iff in E as [E1%Z.leb_le E2%Z.ltb_lt]. by apply Hr.
  - intros κ jz Hκ _. destruct (in_rows _ _ jz) eqn:E; [| done]. apply andb_true_iff in E as [E1%Z.leb_le E2%Z.ltb_lt]. by apply Hr.
Qed.

Lemma task_range : (range_begin sh k < range_end sh k <= length (rows (shape_input sh)))%nat.
Proof. apply (range_nonempty sh k Hsh Hk). Qed.

Lemma mask_small_ok : window_pc th = mask_small -> task_step_ok i sh row id j th s.
Proof.
  intros Hpc. destruct held_facts as (F1 & F2 & F3 & Hok). pose proof Hok as [H1 H2 H3 H4 Hp H6]. rewrite Hpc in Hp. cbn zeta in Hp.
  rewrite F3 in *. destruct Hp as (Es & Eb & Hsmall). rewrite Es in F2. cbn in F2. symmetry in F2. pose proof (row_0 F2) as Hrow'.
  pose proof (shape_input_ok _ Hsh) as Hin. destruct (input_small _ _ _ Hin Hsmall) as [Hsums Hmod]. pose proof task_range as Hr.
  destruct mask_view as (v & Hv & Hrows); [by rewrite Hrow'; cbn; rewrite Hpc |].
  pose proof (Hrows k Hk) as Hkb. rewrite Hrow' in Hkb. cbn [mask_phase] in Hkb. rewrite Hpc in Hkb. cbn [pc_phase task_masks] in Hkb.
  destruct (small_masks_ok distinct_from (shape_input sh) (input_count _ _ _ Hin) (input_keys _ _ _ Hin) (input_chunks _ _ _ Hin)
    (range_begin sh k) (range_end sh k) (group_masks g) v Hsums Hr (or_intror Hmod) Hv) as (m' & calls & E & Hp & Hall & Hv').
  apply (mask_step (mask_calls []) m'); [done | | | by cbn; rewrite Hpc | cbn; rewrite Hpc; cbn; lia |].
  - unfold WindowSource.window_step. rewrite Hpc, Ht. cbn [mbind option_bind]. rewrite with_group_eq, shape_input_eq, Eb, H3, E. done.
  - rewrite F2. eapply masks_update; [done | exact Hv' | exact Hrows | |].
    + cbn [mask_phase window_pc pc_phase task_masks]. exists (sstart sh (range_end sh k)).
      pose proof (start_lt (shape_input sh) (input_chunks _ _ _ Hin) _ _ Hr) as Hlt. pose proof (block_start_nonneg (rows (shape_input sh)) (range_begin sh k)).
      split_and!; [lia | lia | | done | |].
      * unfold WindowMasksInvariant.pending. destruct (is_sorted (shape_input sh)); [cbn; lia | done].
      * intros b Hb. eapply begins_inv_all; [| reflexivity].
        apply (block_calls_begins distinct_from (shape_input sh) (input_keys _ _ _ Hin) (input_chunks _ _ _ Hin) (range_begin sh k) (range_end sh k)); [done | apply Hr | done | by apply Hkb].
      * intros jz Hj. cbn [view_partition view_order].
        assert (in_rows (sstart sh (range_begin sh k)) (sstart sh (range_end sh k)) jz = true) as ->
          by (unfold in_rows; by rewrite (proj2 (Z.leb_le _ _)), (proj2 (Z.ltb_lt _ _)) by lia).
        rewrite (proj2 (Z.ltb_lt _ _)) by lia. unfold WindowMasksInvariant.part_start, WindowMasksInvariant.order_start. cbn [andb].
        split; [| intros κ _]; by destruct (jz =? 0).
    + intros k' Hk' Hne. apply other_masks with (k := k); [done | done | | | done | done]; cbn [view_partition view_order view_begins].
      * intros jz ->. done.
      * intros b Hb. rewrite (begins_of_outside (shape_input sh) b calls _ _ Hall Hb). by rewrite app_nil_r.
  - split; rewrite ?F3; [done | done | done | done | | done]. cbn [window_pc]. done.
Qed.

Lemma mask_begin_ok : window_pc th = mask_begin -> task_step_ok i sh row id j th s.
Proof.
  intros Hpc. destruct held_facts as (F1 & F2 & F3 & Hok). pose proof Hok as [H1 H2 H3 H4 Hp H6]. rewrite Hpc in Hp. cbn zeta in Hp.
  rewrite F3 in *. destruct Hp as (Es & Eb & Hsmall). rewrite Es in F2. cbn in F2. symmetry in F2. pose proof (row_0 F2) as Hrow'.
  pose proof (shape_input_ok _ Hsh) as Hin. pose proof (input_full _ _ _ Hin Hsmall) as Hfull. pose proof task_range as Hr.
  destruct mask_view as (v & Hv & Hrows); [by rewrite Hrow'; cbn; rewrite Hpc |].
  pose proof (Hrows k Hk) as Hkb. rewrite Hrow' in Hkb. cbn [mask_phase] in Hkb. rewrite Hpc in Hkb. cbn [pc_phase task_masks] in Hkb.
  destruct (begin_masks_ok distinct_from (shape_input sh) (input_count _ _ _ Hin) (input_chunks _ _ _ Hin)
    (range_begin sh k) (range_end sh k) (group_masks g) v Hfull Hr Hv) as (m' & calls & E & Hv' & Hp & Hall).
  pose proof (start_lt (shape_input sh) (input_chunks _ _ _ Hin) _ _ Hr) as Hlt. pose proof (block_start_nonneg (rows (shape_input sh)) (range_begin sh k)).
  apply (mask_step (mask_calls calls) m'); [done | | | by cbn; rewrite Hpc | |].
  - unfold WindowSource.window_step. rewrite Hpc, Ht. cbn [mbind option_bind]. rewrite F1, Hs. cbn [mbind option_bind].
    rewrite shape_input_eq, Eb, H3, E. done.
  - rewrite F2. eapply masks_update; [done | exact Hv' | exact Hrows | |].
    + cbn [mask_phase window_pc pc_phase task_masks]. exists (sstart sh (range_begin sh k)).
      split_and!; [lia | lia | done | done | |].
      * intros b Hb. apply (block_calls_begins distinct_from (shape_input sh) (input_keys _ _ _ Hin) (input_chunks _ _ _ Hin) (range_begin sh k) (range_end sh k)); [done | apply Hr | done | by apply Hkb].
      * intros jz Hj. cbn [view_partition view_order progress_view].
        assert (in_rows (sstart sh (range_begin sh k)) (sstart sh (range_end sh k)) jz = true) as ->
          by (unfold in_rows; by rewrite (proj2 (Z.leb_le _ _)), (proj2 (Z.ltb_lt _ _)) by lia). done.
    + intros k' Hk' Hne. apply other_masks with (k := k); [done | done | | | done | done]; cbn [view_partition view_order view_begins progress_view].
      * intros jz ->. done.
      * done.
  - cbn. rewrite Hpc. pose proof (begin_masks_calls _ _ _ _ _ _ E) as Hlen.
    unfold sblocks in *. lia.
  - split; rewrite ?F3; [done | done | done | done | | done]. cbn [window_pc]. done.
Qed.

Lemma mask_calls_ok call calls : window_pc th = mask_calls (call :: calls) -> task_step_ok i sh row id j th s.
Proof.
  intros Hpc. destruct held_facts as (F1 & F2 & F3 & Hok). pose proof Hok as [H1 H2 H3 H4 Hp H6]. rewrite Hpc in Hp. cbn zeta in Hp.
  rewrite F3 in *. destruct Hp as (Es & Eb). rewrite Es in F2. cbn in F2. symmetry in F2. pose proof (row_0 F2) as Hrow'.
  pose proof (shape_input_ok _ Hsh) as Hin. pose proof task_range as Hr.
  destruct mask_view as (v & Hv & Hrows); [by rewrite Hrow'; cbn; rewrite Hpc |].
  pose proof (Hrows k Hk) as Hkb. rewrite Hrow' in Hkb. cbn [mask_phase] in Hkb. rewrite Hpc in Hkb. cbn [pc_phase task_masks] in Hkb.
  destruct Hkb as (r & Hr1 & Hpend & Hall & Hbeg & Hrs). apply Forall_cons in Hall as [Hc Hall].
  pose proof (block_start_nonneg (rows (shape_input sh)) (range_begin sh k)).
  destruct (pending_step distinct_from (shape_input sh) (input_count _ _ _ Hin) (input_keys _ _ _ Hin)
    (sstart sh (range_begin sh k)) (sstart sh (range_end sh k)) r call calls (group_masks g) v ltac:(lia) ltac:(lia) Hpend (progress_same v r Hrs Hv))
    as (m' & E & Hr2 & _ & Hp' & Hv'). cbn zeta in *.
  apply (mask_step (mask_calls calls) m'); [done | | | by cbn; rewrite Hpc | cbn; rewrite Hpc; cbn; lia |].
  - unfold WindowSource.window_step. rewrite Hpc, Ht. cbn [mbind option_bind]. rewrite with_group_eq, shape_input_eq, E. done.
  - rewrite F2. eapply masks_update; [done | exact Hv' | exact Hrows | |].
    + cbn [mask_phase window_pc pc_phase task_masks]. exists (call_row call + Z.of_nat (call_length call)).
      split_and!; [lia | lia | done | done | |].
      * intros b Hb. by apply begins_inv_step, Hbeg.
      * intros jz Hj. cbn [view_partition view_order progress_view].
        assert (in_rows (sstart sh (range_begin sh k)) (sstart sh (range_end sh k)) jz = true) as ->
          by (unfold in_rows; by rewrite (proj2 (Z.leb_le _ _)), (proj2 (Z.ltb_lt _ _)) by lia). done.
    + intros k' Hk' Hne. apply other_masks with (k := k); [done | done | | | done | done]; cbn [view_partition view_order view_begins progress_view].
      * intros jz ->. done.
      * intros b Hb. rewrite decide_False; [done |]. by intros ->.
  - split; rewrite ?F3; [done | done | done | done | | done]. cbn [window_pc]. done.
Qed.

Lemma in_rows_true a b (jz : Z) : a <= jz < b -> in_rows a b jz = true.
Proof. intros H. unfold in_rows. by rewrite (proj2 (Z.leb_le _ _)), (proj2 (Z.ltb_lt _ _)) by lia. Qed.

(** The calls of the task are processed. *)
Lemma no_calls v : task_masks sh v k (phase_calls []) -> task_masks sh v k phase_done.
Proof.
  intros (r & Hr & Hpend & _ & Hb & Hrs). split; [done |].
  pose proof (block_start_nonneg (rows (shape_input sh)) (range_begin sh k)) as H0.
  assert (forall (jz : Z) x, sstart sh (range_begin sh k) <= jz < sstart sh (range_end sh k) ->
    (jz =? 0) || ((jz <? r) && ((jz =? 0) || (is_sorted (shape_input sh) && x))) = (jz =? 0) || (is_sorted (shape_input sh) && x)) as Hx.
  { intros jz x Hj. unfold WindowMasksInvariant.pending in Hpend. destruct (is_sorted (shape_input sh)).
    - cbn in Hpend. destruct (Z.eqb_spec jz 0); [done |]. by rewrite (proj2 (Z.ltb_lt jz r)) by lia.
    - cbn. rewrite orb_false_r. by destruct (jz =? 0), (jz <? r). }
  intros jz Hj. destruct (Hrs jz Hj) as [-> Ho]. split; [by apply Hx |]. intros κ Hκ. rewrite Ho by done. by apply Hx.
Qed.

Lemma mask_count_ok : window_pc th = mask_calls [] -> task_step_ok i sh row id j th s.
Proof.
  intros Hpc. destruct held_facts as (F1 & F2 & F3 & Hok). pose proof Hok as [H1 H2 H3 H4 Hp H6]. rewrite Hpc in Hp. cbn zeta in Hp.
  rewrite F3 in *. destruct Hp as (Es & Eb). rewrite Es in F2. cbn in F2. symmetry in F2. pose proof (row_0 F2) as Hrow'.
  pose proof task_range as Hr.
  set (th' := {| window_pc := (src_count : WindowPc V); task := Some (set_begin_idx (end_idx t) t); scanner := scanner th |}).
  assert (done_blocks sh k (held j th) = 0%nat) as Ed by (cbn; rewrite Ht; lia).
  assert (done_blocks sh k (held j th') = range_width sh k) as Ed' by (cbn; unfold range_width; lia).
  exists (add_counts (end_idx t - begin_idx t) 0 0 0 g), th', 0%nat, None. rewrite add_tasks_0.
  split_and!.
  - unfold WindowSource.window_step. rewrite Hpc, Ht. cbn [mbind option_bind]. by rewrite with_group_eq.
  - destruct Hg as [Hc Hm Hst Hh]. split.
    + apply counters_add; rewrite ?Hrow, ?Ed, ?Ed'; try done; unfold range_width; repeat case_decide; cbn [is_complete]; lia.
    + destruct mask_view as (v & Hv & Hrows); [by rewrite Hrow'; cbn; rewrite Hpc |]. rewrite F2.
      eapply masks_update; [done | exact Hv | exact Hrows | | done].
      specialize (Hrows k Hk). rewrite Hrow' in Hrows. cbn [mask_phase] in Hrows. rewrite Hpc in Hrows. by apply no_calls.
    + apply states_same; try done; lia.
    + eapply held_move; try done. split; cbn [thread_idx begin_idx end_idx task_stage set_begin_idx window_pc]; rewrite ?F3; try done; [lia | by rewrite Es | by right].
  - cbn. rewrite Hpc. done.
  - rewrite row_outputs_same; [by rewrite app_nil_r | done | lia].
  - cbn. rewrite Hpc. rewrite Nat.sub_diag. lia.
  - by eexists.
Qed.

(** *** The steps of the SINK stage *)

Lemma not_fresh : is_fresh (row id) = false.
Proof. by rewrite Hrow. Qed.

Lemma group_past : (σ <= stage_index (stage g) <= 3)%nat /\
  forall σ' k', (σ' < σ)%nat -> (k' < T sh)%nat -> done_blocks sh k' (row (σ' * T sh + k')%nat) = range_width sh k'.
Proof. apply (past_stages sh g row (group_counters _ _ _ _ Hg) σ k Hσ Hk not_fresh). Qed.

Lemma masks_finished : (1 <= σ)%nat -> masks_complete distinct_from (shape_input sh) (group_masks g).
Proof.
  intros H. apply (masks_ok_complete i sh row Hsh (group_held _ _ _ _ Hg)); [lia | | apply Hg].
  intros k' Hk'. by apply (proj2 group_past 0%nat k').
Qed.

(** A change of the states of the functions by the thread. *)
Lemma state_step th' t' x l :
  task th' = Some t' -> group_idx t' = group_idx t -> task_stage t' = task_stage t -> thread_idx t' = thread_idx t ->
  begin_idx t' = begin_idx t ->
  thread_ok sh th' t' -> (1 <= σ)%nat ->
  window_step s th = Some (set_group i (Some (set_states x l g)) s, th', false, None) ->
  states_ok sh x l (<[id := held j th']> row) ->
  counted (held j th') = counted (held j th) -> (work sh (held j th') < work sh (held j th))%nat ->
  task_step_ok i sh row id j th s.
Proof.
  intros E1 E2 E3 E4 E5 Hok H1 E Hst H4 H5. exists (set_states x l g), th', 0%nat, None. rewrite add_tasks_0.
  assert (forall k', done_blocks sh k' (held j th') = done_blocks sh k' (row id)) as Hd by (intros k'; rewrite Hrow; cbn; by rewrite E1, Ht, E5).
  split_and!; [done | | lia | | done | by exists t'].
  - destruct Hg as [Hc Hm _ Hh]. split; [| | done | by eapply held_move].
    + assert (counters_ok sh g (<[id := held j th']> row)) as H; [| by destruct H; split].
      apply counters_same; [done | by rewrite Hrow | by rewrite Hrow | done].
    + apply masks_same; [done | lia | done].
  - rewrite row_outputs_same; [by rewrite app_nil_r | done | done].
Qed.

Lemma sink_list_update st :
  σ = 1%nat -> forall k', (k' < T sh)%nat ->
  (<[id := st]> row) (T sh + k')%nat = if decide (k' = k) then st else row (T sh + k')%nat.
Proof.
  intros E k' Hk'. rewrite E. case_decide as Ek.
  - subst k'. rewrite Nat.mul_1_l. apply fn_lookup_insert.
  - pose proof (update_other sh row st 1 1 k k' Hk Hk' ltac:(by right)) as H. by rewrite Nat.mul_1_l in *.
Qed.

Lemma finalize_list_update st (σ' k' : nat) :
  σ' <> σ -> (k' < T sh)%nat -> (<[id := st]> row) (σ' * T sh + k')%nat = row (σ' * T sh + k')%nat.
Proof. intros. apply update_other; [done | done | by left]. Qed.

(** No task is finalized while one of the stages before is not done. *)
Lemma not_finalized :
  (σ <= 1)%nat -> (done_blocks sh k (row id) < range_width sh k)%nat ->
  zsum (fun k => if is_finalized (row (2 * T sh + k)%nat) then 1 else 0) (seq 0 (T sh)) = 0.
Proof.
  intros H Hd. transitivity (zsum (fun _ : nat => 0) (seq 0 (T sh))).
  - apply zsum_ext. intros k' Hk'%elem_of_seq.
    by rewrite (later_fresh sh g row (group_counters _ _ _ _ Hg) σ k 2 k' Hσ Hk Hd ltac:(lia) ltac:(lia)).
  - by induction (seq 0 (T sh)).
Qed.

Lemma mjoin_nil {A B} (f : A -> list B) l : (forall x, x ∈ l -> f x = []) -> mjoin (f <$> l) = [].
Proof.
  induction l as [| x l IH]; intros H; [done |]. rewrite fmap_cons, mjoin_cons, H by (by left). apply IH. intros y Hy. apply H. by right.
Qed.

Lemma sink_states_ok : window_pc th = sink_states -> task_step_ok i sh row id j th s.
Proof.
  intros Hpc. destruct held_facts as (F1 & F2 & F3 & Hok). pose proof Hok as [H1 H2 H3 H4 Hp H6]. rewrite Hpc in Hp. cbn zeta in Hp.
  rewrite F3 in *. destruct Hp as (Es & Eb). rewrite Es in F2. cbn in F2. symmetry in F2.
  pose proof task_range as Hr. pose proof (shape_input_ok _ Hsh) as Hin.
  destruct (group_states _ _ _ _ Hg) as [L1 L2 L3 L4].
  set (x := default (GetGlobalState executors (count g) (group_masks g)) (gestates g)).
  set (th' := {| window_pc := (sink_loop : WindowPc V); task := task th; scanner := Some (ScannerAt (rows (group_input g)) (begin_idx t)) |}).
  assert (row (T sh + k)%nat = held j th) as Hrow1 by (rewrite <- Hrow, F2; f_equal; lia).
  (* nothing was sunk if there is no global state yet *)
  assert (exists sunk n, global_ok (shape_input sh) sunk n x /\ sunk ≡ₚ sunk_list sh row /\
    Z.of_nat n = zsum (fun k => if is_finalized (row (2 * T sh + k)%nat) then 1 else 0) (seq 0 (T sh))) as (sunk & nf & Hx & Hsunk & Hnf).
  { unfold x. destruct (gestates g) as [x' |]; cbn [default]; [done |].
    exists [], 0%nat. split_and!.
    - unfold count. rewrite shape_input_eq. apply global_new; [done |]. apply masks_finished. lia.
    - assert (sunk_list sh row = []) as ->; [| done]. apply mjoin_nil. intros k' Hk'%elem_of_seq. specialize (L4 k' ltac:(lia)).
      assert (sunk_blocks sh k' (row (T sh + k')%nat) = 0%nat) as ->; [| done].
      unfold sunk_blocks. destruct (row (T sh + k')%nat) as [| j' th2 |] eqn:E; [done | | done].
      destruct (held_thread i sh row 1 k' j' th2 (group_held _ _ _ _ Hg) ltac:(lia) ltac:(lia)) as (t2 & Et2 & _ & Es2 & Ek2 & Hok2); [by rewrite Nat.mul_1_l |].
      destruct Hok2 as [_ _ _ _ Hp2 _]. rewrite Ek2 in Hp2. cbn [done_blocks]. rewrite Et2. cbn [sink_inited] in L4.
      assert (task_stage t2 = SINK) as Est2 by (by apply stage_index_inj). rewrite Est2 in Hp2.
      destruct (window_pc th2); try done; cbn zeta in Hp2.
      + destruct Hp2 as [_ [[=] | ->]]. lia.
      + destruct Hp2 as [_ ->]. lia.
    - rewrite not_finalized; [done | lia |]. rewrite Hrow. cbn. rewrite Ht. unfold range_width. lia. }
  assert (exists l, default (GetLocalState executors x) (default None (thread_states g !! k)) = l /\ local_ok (shape_input sh) l /\
    thread_states g !! k = Some (default None (thread_states g !! k))) as (l & El & Hl & Elk).
  { destruct (lookup_lt_is_Some_2 (thread_states g) k) as [ol Hol]; [by rewrite L1 |]. rewrite Hol. cbn [default].
    exists (default (GetLocalState executors x) ol). split_and!; [done | | done]. destruct ol as [l |]; cbn.
    - by eapply L2.
    - by eapply local_new. }
  apply (state_step th' t (Some x) (<[k := Some l]> (thread_states g))); try done.
  - split; rewrite ?F3; [done | done | done | by rewrite Es | | done]. cbn [window_pc th']. split; [done |]. eexists. split; [done |]. rewrite shape_input_eq. apply ScannerAt_ok.
    rewrite Eb. lia.
  - lia.
  - unfold WindowSource.window_step. rewrite Hpc, Ht. cbn [mbind option_bind]. rewrite F1, Hs. cbn [mbind option_bind].
    unfold sink_init. rewrite F3, Elk. cbn [mbind option_bind]. fold x. rewrite El. by rewrite <- Ht.
  - split.
    + by rewrite length_insert.
    + intros k' l' [(<- & [= <-] & _) | [_ E]]%list_lookup_insert_Some; [done | by eapply L2].
    + intros k' Hk' Hi Hcomp. destruct (decide (k' = k)) as [-> | Hne]; [exists l; apply list_lookup_insert_eq; by rewrite L1 |].
      rewrite list_lookup_insert_ne by done. rewrite finalize_list_update in Hcomp by (done || lia).
      rewrite sink_list_update, decide_False in Hi by done. by apply L3.
    + exists sunk, nf. split_and!; [done | |].
      * rewrite Hsunk. unfold sunk_list. f_equiv. apply reflexive_eq, list_fmap_ext. intros ? k' Hk'%lookup_seq. cbn beta.
        rewrite sink_list_update by (done || lia). case_decide as Ek; [| done]. f_equal. rewrite Ek, Hrow1.
        unfold sunk_blocks. cbn. by rewrite Hpc.
      * rewrite Hnf. apply zsum_ext. intros k' Hk'%elem_of_seq. by rewrite finalize_list_update by lia.
  - cbn. by rewrite Hpc.
  - cbn. rewrite Hpc. unfold remaining. cbn. rewrite Ht. lia.
Qed.

(** The scan of the next chunk. *)
Lemma scan_chunk b sc :
  (b < sblocks sh)%nat -> scanned_to (rows (shape_input sh)) b sc ->
  exists chunk sc', rows (shape_input sh) !! b = Some chunk /\ Scanned sc = sstart sh b /\
    Scan (rows (group_input g)) sc = (Some chunk, sc') /\ scanned_to (rows (shape_input sh)) (S b) sc'.
Proof.
  intros Hb Hsc. destruct (lookup_lt_is_Some_2 (rows (shape_input sh)) b) as [chunk Hc]; [done |].
  rewrite shape_input_eq. destruct (Scan_ok _ b sc chunk Hsc Hc) as (sc' & E & Hsc'). exists chunk, sc'. split_and!; try done.
  unfold Scanned. by destruct Hsc as (_ & -> & _).
Qed.

(** The states are there once the task of the SINK stage has set them up. *)
Lemma states_there :
  sink_inited (row (T sh + k)%nat) = true -> is_complete (row (3 * T sh + k)%nat) = false ->
  exists x l sunk n, gestates g = Some x /\ thread_states g !! k = Some (Some l) /\ local_ok (shape_input sh) l /\
    global_ok (shape_input sh) sunk n x /\ sunk ≡ₚ sunk_list sh row /\
    Z.of_nat n = zsum (fun k => if is_finalized (row (2 * T sh + k)%nat) then 1 else 0) (seq 0 (T sh)).
Proof.
  intros Hi Hcomp. destruct (group_states _ _ _ _ Hg) as [L1 L2 L3 L4]. destruct (L3 k Hk Hi Hcomp) as [l El].
  destruct (gestates g) as [x |]; [| by rewrite L4 in Hi].
  destruct L4 as (sunk & n & H1 & H2 & H3). exists x, l, sunk, n. split_and!; try done. by eapply L2.
Qed.

Lemma sunk_le (k' : nat) : (k' < T sh)%nat -> (sunk_blocks sh k' (row (T sh + k')%nat) <= range_width sh k')%nat.
Proof.
  intros Hk'. pose proof (done_le _ _ _ 1 k' (group_held _ _ _ _ Hg) ltac:(lia) Hk') as Hd. rewrite Nat.mul_1_l in Hd.
  unfold sunk_blocks. destruct (row (T sh + k')%nat) as [| j' th2 |] eqn:E; [cbn in *; lia | | cbn in *; lia].
  destruct (held_thread i sh row 1 k' j' th2 (group_held _ _ _ _ Hg) ltac:(lia) Hk') as (t2 & Et2 & _ & Es2 & Ek2 & Hok2); [by rewrite Nat.mul_1_l |].
  destruct Hok2 as [_ Hb2 He2 _ Hp2 _]. rewrite Ek2 in *. cbn [done_blocks] in *. rewrite Et2 in *.
  unfold range_width in *. destruct (window_pc th2); try lia.
Qed.

Lemma sink_loop_end_ok : window_pc th = sink_loop -> begin_idx t = end_idx t -> task_step_ok i sh row id j th s.
Proof.
  intros Hpc Heq. destruct held_facts as (F1 & F2 & F3 & Hok). pose proof Hok as [H1 H2 H3 H4 Hp H6]. rewrite Hpc in Hp. cbn zeta in Hp.
  rewrite F3 in *. destruct Hp as (Es & _). rewrite Es in F2. cbn in F2. symmetry in F2.
  apply (quiet_step_ok {| window_pc := src_count; task := task th; scanner := None |} 0); [done | | | | | | |]; try (intros; lia).
  - rewrite add_tasks_0. unfold WindowSource.window_step. rewrite Hpc, Ht. cbn [mbind option_bind]. by rewrite (proj2 (Nat.leb_le _ _)) by lia.
  - intros _. unfold sunk_blocks. cbn. rewrite Hpc. done.
  - cbn. rewrite Hpc. done.
  - cbn. rewrite Hpc. unfold remaining. cbn. rewrite Ht. lia.
  - split; rewrite ?F3; [done | done | done | by rewrite Es | | done]. cbn [window_pc]. by right.
Qed.

Lemma row_1 : σ = 1%nat -> row (T sh + k)%nat = held j th.
Proof. intros E. rewrite <- Hrow, E. f_equal. lia. Qed.

Lemma done_now : done_blocks sh k (row id) = (begin_idx t - range_begin sh k)%nat.
Proof. rewrite Hrow. cbn. by rewrite Ht. Qed.

Lemma not_released : (σ <= 2)%nat -> (begin_idx t < end_idx t)%nat -> row (3 * T sh + k)%nat = fresh.
Proof.
  intros H Hlt. destruct held_facts as (F1 & F2 & F3 & Hok). pose proof Hok as [H1 H2 H3 H4 Hp H6]. rewrite F3 in *.
  apply (later_fresh sh g row (group_counters _ _ _ _ Hg) σ k 3 k); [done | done | | lia | done].
  rewrite done_now. unfold range_width. lia.
Qed.

Lemma sink_loop_ok : window_pc th = sink_loop -> (begin_idx t < end_idx t)%nat -> task_step_ok i sh row id j th s.
Proof.
  intros Hpc Hlt. destruct held_facts as (F1 & F2 & F3 & Hok). pose proof Hok as [H1 H2 H3 H4 Hp H6]. rewrite Hpc in Hp. cbn zeta in Hp.
  rewrite F3 in *. destruct Hp as (Es & sc & Esc & Hsc). rewrite Es in F2. cbn in F2. symmetry in F2.
  pose proof task_range as Hr. pose proof (shape_input_ok _ Hsh) as Hin. pose proof (row_1 F2) as Hrow1.
  set (b := begin_idx t) in *.
  destruct (scan_chunk b sc) as (chunk & sc' & Hc & Hpos & Escan & Hsc'); [unfold sblocks; lia | done |].
  destruct states_there as (x & l & sunk & n & Ex & El & Hl & Hx & Hsunk & Hn).
  { rewrite Hrow1. cbn. by rewrite Hpc. }
  { by rewrite not_released by (lia || done). }
  rewrite not_finalized in Hn; [| lia | rewrite done_now; unfold range_width; fold b; lia].
  assert (n = 0%nat) as -> by lia. clear Hn.
  assert (sunk_blocks sh k (held j th) = (b - range_begin sh k)%nat) as Eold.
  { unfold sunk_blocks. cbn. rewrite Hpc, Ht. fold b. lia. }
  destruct (sink_law (expected := expected) (shape_input sh) sunk x l b chunk Hin Hx Hl Hc) as (x' & l' & E & Hx' & Hl').
  { rewrite Hsunk. intros (bs & Hbs & (k' & -> & Hk'%elem_of_seq)%list_elem_of_fmap)%list_elem_of_join. apply elem_of_seq in Hbs.
    pose proof (sunk_le k' ltac:(lia)) as Hle. unfold range_width in Hle. destruct (Nat.lt_trichotomy k k') as [Hkk | [-> | Hkk]].
    - pose proof (ranges_disjoint sh k k' Hkk). lia.
    - rewrite Hrow1, Eold in Hbs. lia.
    - pose proof (ranges_disjoint sh k' k Hkk). lia. }
  apply (state_step {| window_pc := sink_count (Z.of_nat (length chunk)); task := task th; scanner := Some sc' |} t (Some x')
    (<[k := Some l']> (thread_states g))); try done.
  - split; rewrite ?F3; [done | done | done | by rewrite Es | | done]. cbn [window_pc]. split_and!; [done | done | by eexists | by eexists].
  - lia.
  - unfold WindowSource.window_step. rewrite Hpc, Ht. cbn [mbind option_bind]. fold b. rewrite (proj2 (Nat.leb_gt _ _)) by lia.
    rewrite F1, Hs. cbn [mbind option_bind]. rewrite Esc. cbn [mbind option_bind]. rewrite Escan. cbn [mbind option_bind].
    rewrite Ex. cbn [mbind option_bind]. rewrite F3, El. cbn [mbind option_bind].
    rewrite Hpos, E. by rewrite <- Ht.
  - pose proof (group_states _ _ _ _ Hg) as [L1 L2 L3 L4]. split.
    + by rewrite length_insert.
    + intros k' l2 [(<- & [= <-] & _) | [_ E2]]%list_lookup_insert_Some; [done | by eapply L2].
    + intros k' Hk' Hi Hcomp. destruct (decide (k' = k)) as [-> | Hne]; [exists l'; apply list_lookup_insert_eq; by rewrite L1 |].
      rewrite list_lookup_insert_ne by done. rewrite finalize_list_update in Hcomp by (done || lia).
      rewrite sink_list_update, decide_False in Hi by done. by apply L3.
    + exists (sunk ++ [b]), 0%nat. split_and!; [done | |].
      * rewrite Hsunk. unfold sunk_list. symmetry. apply mjoin_seq_update with (k := k); [done | |].
        -- intros k' Hk' Hne. by rewrite sink_list_update, decide_False by done.
        -- rewrite sink_list_update, decide_True by done. rewrite Hrow1, Eold.
           unfold sunk_blocks. cbn [done_blocks window_pc task]. rewrite Ht. fold b.
           replace (b - range_begin sh k + 1)%nat with (S (b - range_begin sh k)) by lia. rewrite seq_S.
           by replace (range_begin sh k + (b - range_begin sh k))%nat with b by lia.
      * change (Z.of_nat 0) with 0. rewrite <- not_finalized at 1; [| lia | rewrite done_now; unfold range_width; fold b; lia].
        apply zsum_ext. intros k' Hk'%elem_of_seq. by rewrite finalize_list_update by lia.
  - cbn. by rewrite Hpc.
  - cbn. rewrite Hpc. unfold remaining. cbn. rewrite Ht. fold b. lia.
Qed.

Lemma sink_count_ok size : window_pc th = sink_count size -> task_step_ok i sh row id j th s.
Proof.
  intros Hpc. destruct held_facts as (F1 & F2 & F3 & Hok). pose proof Hok as [H1 H2 H3 H4 Hp H6]. rewrite Hpc in Hp. cbn zeta in Hp.
  rewrite F3 in *. destruct Hp as (Es & Hlt & (chunk & Hc & ->) & sc & Esc & Hsc). rewrite Es in F2. cbn in F2. symmetry in F2.
  set (th' := {| window_pc := (sink_loop : WindowPc V); task := Some (set_begin_idx (S (begin_idx t)) t); scanner := scanner th |}).
  assert (done_blocks sh k (held j th') = S (done_blocks sh k (held j th))) as Ed by (cbn; rewrite Ht; lia).
  pose proof done_now as Edn.
  exists (add_counts 0 (Z.of_nat (length chunk)) 0 0 g), th', 0%nat, None. rewrite add_tasks_0.
  split_and!.
  - unfold WindowSource.window_step. rewrite Hpc, Ht. cbn [mbind option_bind]. by rewrite with_group_eq.
  - destruct Hg as [Hc' Hm Hst Hh]. split.
    + apply counters_add; try done.
      * by rewrite Hrow.
      * rewrite Ed, <- Hrow, Edn. unfold range_width. lia.
      * by rewrite decide_False by lia.
      * rewrite decide_True by done. rewrite Ed, <- Hrow, Edn.
        replace (range_begin sh k + S (begin_idx t - range_begin sh k))%nat with (S (begin_idx t)) by lia.
        replace (range_begin sh k + (begin_idx t - range_begin sh k))%nat with (begin_idx t) by lia.
        rewrite (block_start_S _ _ _ Hc). lia.
      * by rewrite decide_False by lia.
      * by rewrite Hrow.
    + apply masks_same; [done | lia | done].
    + apply states_same; try done; [| lia | lia]. intros _. rewrite Hrow. unfold sunk_blocks. rewrite Ed. cbn [window_pc th' sink_inited]. rewrite Hpc. split; [lia | done].
    + eapply held_move; try done. split; cbn [thread_idx begin_idx end_idx task_stage set_begin_idx window_pc th' scanner]; rewrite ?F3;
        [done | lia | done | by rewrite Es | | done]. split; [done |]. by exists sc.
  - cbn. rewrite Hpc. done.
  - rewrite row_outputs_same; [by rewrite app_nil_r | done | lia].
  - cbn. rewrite Hpc. unfold remaining. rewrite Ht. lia.
  - by eexists.
Qed.

(** *** The steps of the FINALIZE stage *)

Lemma sink_finished : (2 <= σ)%nat ->
  sink_inited (row (T sh + k)%nat) = true /\ sunk_list sh row = seq 0 (sblocks sh).
Proof.
  intros H. assert (forall k', (k' < T sh)%nat -> done_blocks sh k' (row (T sh + k')%nat) = range_width sh k') as Hd.
  { intros k' Hk'. pose proof (proj2 group_past 1%nat k' ltac:(lia) Hk') as E. by rewrite Nat.mul_1_l in E. }
  split.
  - by apply (sink_done i sh row Hsh (group_held _ _ _ _ Hg)), Hd.
  - by apply (sunk_all i sh row Hsh (group_held _ _ _ _ Hg)).
Qed.

Lemma finalize_run_ok : window_pc th = finalize_run -> task_step_ok i sh row id j th s.
Proof.
  intros Hpc. destruct held_facts as (F1 & F2 & F3 & Hok). pose proof Hok as [H1 H2 H3 H4 Hp H6]. rewrite Hpc in Hp. cbn zeta in Hp.
  rewrite F3 in *. destruct Hp as (Es & Eb). rewrite Es in F2. cbn in F2. symmetry in F2. pose proof task_range as Hr.
  pose proof (shape_input_ok _ Hsh) as Hin. destruct sink_finished as [Hinit Hlist]; [lia |].
  destruct states_there as (x & l & sunk & n & Ex & El & Hl & Hx & Hsunk & Hn); [done | by rewrite not_released by lia |].
  rewrite Hlist in Hsunk.
  destruct (finalize_law (expected := expected) (shape_input sh) sunk n x l Hin Hx Hsunk Hl) as (x' & l' & E & Hx' & Hl').
  set (th' := {| window_pc := (finalize_count : WindowPc V); task := task th; scanner := scanner th |}).
  assert (forall σ' k', σ' <> 2%nat -> (k' < T sh)%nat -> (<[id := held j th']> row) (σ' * T sh + k')%nat = row (σ' * T sh + k')%nat) as Hother
    by (intros; apply finalize_list_update; [lia | done]).
  assert (forall k', (k' < T sh)%nat -> (<[id := held j th']> row) (T sh + k')%nat = row (T sh + k')%nat) as Hother1
    by (intros k' Hk'; pose proof (Hother 1%nat k' ltac:(lia) Hk') as E1; by rewrite Nat.mul_1_l in E1).
  apply (state_step th' t (Some x') (<[k := Some l']> (thread_states g))); try done.
  - split; rewrite ?F3; [done | done | done | done | | done]. cbn [window_pc th']. by split.
  - lia.
  - unfold WindowSource.window_step. rewrite Hpc, Ht. cbn [mbind option_bind]. rewrite F1, Hs. cbn [mbind option_bind].
    rewrite Ex. cbn [mbind option_bind]. rewrite F3, El. cbn [mbind option_bind]. rewrite E. by unfold th'; rewrite Ht.
  - pose proof (group_states _ _ _ _ Hg) as [L1 L2 L3 L4]. split.
    + by rewrite length_insert.
    + intros k' l2 [(<- & [= <-] & _) | [_ E2]]%list_lookup_insert_Some; [done | by eapply L2].
    + intros k' Hk' Hi Hcomp. destruct (decide (k' = k)) as [-> | Hne]; [exists l'; apply list_lookup_insert_eq; by rewrite L1 |].
      rewrite list_lookup_insert_ne by done. rewrite Hother in Hcomp by (done || lia).
      rewrite Hother1 in Hi by done. by apply L3.
    + exists sunk, (S n). split_and!; [done | |].
      * rewrite Hsunk, <- Hlist. unfold sunk_list. apply reflexive_eq. f_equal. apply list_fmap_ext. intros ? k' Hk'%lookup_seq. cbn beta.
        by rewrite Hother1 by lia.
      * pose proof (stage_sum_update sh row (held j th') σ 2 k (fun _ st => if is_finalized st then 1 else 0) Hk) as E2.
        rewrite E2, decide_True, Hrow by done. cbn [is_finalized th' window_pc]. rewrite Hpc. lia.
  - cbn. by rewrite Hpc.
  - cbn. rewrite Hpc. lia.
Qed.

Lemma finalize_count_ok : window_pc th = finalize_count -> task_step_ok i sh row id j th s.
Proof.
  intros Hpc. destruct held_facts as (F1 & F2 & F3 & Hok). pose proof Hok as [H1 H2 H3 H4 Hp H6]. rewrite Hpc in Hp. cbn zeta in Hp.
  rewrite F3 in *. destruct Hp as (Es & Eb). rewrite Es in F2. cbn in F2. symmetry in F2. pose proof task_range as Hr.
  set (th' := {| window_pc := (src_count : WindowPc V); task := Some (set_begin_idx (end_idx t) t); scanner := scanner th |}).
  assert (done_blocks sh k (held j th) = 0%nat) as Ed by (cbn; rewrite Ht; lia).
  assert (done_blocks sh k (held j th') = range_width sh k) as Ed' by (cbn; unfold range_width; lia).
  exists (add_counts 0 0 (end_idx t - begin_idx t) 0 g), th', 0%nat, None. rewrite add_tasks_0.
  split_and!.
  - unfold WindowSource.window_step. rewrite Hpc, Ht. cbn [mbind option_bind]. by rewrite with_group_eq.
  - destruct Hg as [Hc Hm Hst Hh]. split.
    + apply counters_add; rewrite ?Hrow, ?Ed, ?Ed'; try done; unfold range_width; repeat case_decide; cbn [is_complete]; lia.
    + apply masks_same; [done | lia | done].
    + apply states_same; try done; try lia. intros _. rewrite Hrow. cbn. by rewrite Hpc.
    + eapply held_move; try done. split; cbn [thread_idx begin_idx end_idx task_stage set_begin_idx window_pc]; rewrite ?F3; try done; [lia | by rewrite Es | by right].
  - cbn. rewrite Hpc. done.
  - rewrite row_outputs_same; [by rewrite app_nil_r | done | lia].
  - cbn. rewrite Hpc. unfold remaining. cbn. lia.
  - by eexists.
Qed.

(** *** The steps of the GETDATA stage *)

Lemma block_begins_sorted (input : MaskInput V) b : Sorted Z.le (block_begins distinct_from input b).
Proof.
  unfold block_begins. apply StronglySorted_Sorted.
  apply (StronglySorted_sublist _ _ (zrange (Z.max 1 (block_start (rows input) b)) (block_start (rows input) (S b)))).
  - induction (zrange _ _) as [| x l IH]; [constructor |]. cbn [List.filter]. destruct (part_start input x); by constructor.
  - unfold zrange. generalize (Z.to_nat (block_start (rows input) (S b) - Z.max 1 (block_start (rows input) b))). intros len.
    generalize 0%nat. induction len as [| len IH]; intros a; cbn [seq fmap list_fmap]; [constructor |].
    constructor; [apply IH |]. apply Forall_fmap, Forall_forall. intros x Hx%elem_of_seq. cbn. lia.
Qed.

(** The starts that were kept for a chunk. *)
Lemma begins_ready b :
  (1 <= σ)%nat -> (b < sblocks sh)%nat ->
  exists begins, (if early_out config then partition_begins (group_masks g) !! b else Some []) = Some begins /\
    Sorted Z.le begins /\ (early_out config = true -> begins = block_begins distinct_from (shape_input sh) b).
Proof.
  intros H Hb. pose proof (shape_input_ok _ Hsh) as Hin. destruct (early_out config) eqn:Ee; [| by exists []].
  destruct (masks_finished H) as (v & Hv & _ & _ & Hbegins). destruct (view_of_begins _ _ _ Hv) as [Hlen Hl].
  { by rewrite (input_begins _ _ _ Hin). }
  destruct (lookup_lt_is_Some_2 (partition_begins (group_masks g)) b) as [l El]; [by rewrite Hlen |].
  assert (l = block_begins distinct_from (shape_input sh) b) as ->.
  { rewrite (Hl _ _ El). destruct (Hbegins b Hb) as [_ E]. specialize (E (input_early _ _ _ Hin Ee)). cbn in E. by rewrite app_nil_r in E. }
  exists (block_begins distinct_from (shape_input sh) b). split_and!; [done | apply block_begins_sorted | done].
Qed.

(** The scanner of the thread is at the next chunk. *)
Lemma scanner_ready b :
  (b < sblocks sh)%nat -> scanner_ok sh b (scanner th) ->
  scanned_to (rows (shape_input sh)) b (match scanner th with
                                        | None => ScannerAt (rows (group_input g)) b
                                        | Some sc => ScannerSeek (rows (group_input g)) b sc
                                        end).
Proof.
  intros Hb Hsc. rewrite shape_input_eq. destruct (scanner th) as [sc |]; cbn in Hsc; [| apply ScannerAt_ok; unfold sblocks in *; lia].
  unfold ScannerSeek. destruct Hsc as (E1 & E2 & E3). rewrite E3, Nat.sub_diag. cbn [Nat.iter nat_rect].
  rewrite E3, Nat.sub_diag. by split_and!.
Qed.

Lemma counters_still st :
  σ = 3%nat -> counters_ok sh g row -> is_fresh st = is_fresh (row id) -> is_complete st = is_complete (row id) ->
  (done_blocks sh k (row id) <= done_blocks sh k st <= range_width sh k)%nat -> counters_ok sh g (<[id := st]> row).
Proof.
  intros E Hc Hf Hcomp Hd.
  assert (counters_ok sh (add_counts 0 0 0 0 g) (<[id := st]> row)) as [A1 A2 A3 A4 A5 A6 A7 A8].
  { apply counters_add; try done; try (rewrite decide_False by lia; done). rewrite Hcomp. lia. }
  cbn [group_input per_thread group_threads batch_base next_task stage masked sunk finalized group_completed add_counts] in *. rewrite ?Nat.add_0_r, ?Z.add_0_r in *. by split.
Qed.

Lemma getdata_ok : window_pc th = getdata -> task_step_ok i sh row id j th s.
Proof.
  intros Hpc. destruct held_facts as (F1 & F2 & F3 & Hok). pose proof Hok as [H1 H2 H3 H4 Hp H6]. rewrite Hpc in Hp. cbn zeta in Hp.
  rewrite F3 in *. destruct Hp as (Es & Hlt). specialize (H4 Es). rewrite Es in F2. cbn in F2. symmetry in F2. pose proof task_range as Hr.
  pose proof (shape_input_ok _ Hsh) as Hin. set (b := begin_idx t) in *.
  assert (b < sblocks sh)%nat as Hb by (unfold sblocks; lia).
  assert (stage g = GETDATA) as Hstage by (apply stage_index_inj; cbn; pose proof (proj1 group_past); lia).
  destruct (begins_ready b ltac:(lia) Hb) as (begins & Ebeg & Hsorted & Hbeg).
  destruct sink_finished as [Hinit Hlist]; [lia |].
  assert (row (3 * T sh + k)%nat = held j th) as Hrow3 by (by rewrite F2 in Hrow).
  destruct states_there as (x & l & sunk & n & Ex & El & Hl & Hx & Hsunk & Hn); [done | by rewrite Hrow3 |].
  rewrite Hlist in Hsunk.
  destruct (scan_chunk b _ Hb (scanner_ready b Hb H4)) as (chunk & sc' & Hc & Hpos & Escan & Hsc').
  assert (0 < n)%nat as Hn0.
  { assert (0 < Z.of_nat n); [| lia]. rewrite Hn.
    assert ((if is_finalized (row (2 * T sh + k)%nat) then 1 else 0) = 1) as E1.
    { assert (done_blocks sh k (row (2 * T sh + k)%nat) = range_width sh k) as Hd by (apply (proj2 group_past); [lia | done]).
      destruct (row (2 * T sh + k)%nat) as [| j2 th2 |] eqn:E2; [cbn in Hd; unfold range_width in Hd; lia | | done].
      destruct (held_thread i sh row 2 k j2 th2 (group_held _ _ _ _ Hg) ltac:(lia) Hk E2) as (t2 & Et2 & _ & Es2 & Ek2 & [_ Hb2 He2 _ Hp2 _]).
      cbn [done_blocks] in Hd. rewrite Et2 in Hd. rewrite Ek2 in *. assert (task_stage t2 = FINALIZE) as Est2 by (by apply stage_index_inj).
      rewrite Est2 in Hp2. unfold range_width in Hd. cbn [is_finalized]. destruct (window_pc th2); try done; cbn zeta in Hp2; lia. }
    pose proof (zsum_member (fun k => if is_finalized (row (2 * T sh + k)%nat) then 1 else 0) (seq 0 (T sh)) k) as Hm.
    cbn beta in Hm. rewrite E1 in Hm. pose proof (Hm ltac:(intros y _; destruct (is_finalized (row (2 * T sh + y)%nat)); lia) ltac:(apply elem_of_seq; lia)). lia. }
  destruct (evaluate_law (expected := expected) (shape_input sh) sunk n x l b chunk begins Hin Hx Hsunk Hn0 Hl Hc Hbeg)
    as (results & sel & l' & E & Hl' & Eres).
  set (th' := {| window_pc := (src_count : WindowPc V); task := Some (set_begin_idx (S b) t); scanner := Some sc' |}).
  assert (done_blocks sh k (held j th') = S (done_blocks sh k (held j th))) as Ed by (cbn; rewrite Ht; lia).
  pose proof done_now as Edn.
  exists (set_states (Some x) (<[k := Some l']> (thread_states g)) g), th', 0%nat, (Some (block_output sh b)). rewrite add_tasks_0.
  split_and!.
  - unfold WindowSource.window_step. rewrite Hpc, Ht. cbn [mbind option_bind]. rewrite F1, Hs. cbn [mbind option_bind].
    rewrite bool_decide_eq_true_2 by done. cbn [negb]. fold b. rewrite Ebeg. cbn [mbind option_bind].
    rewrite bool_decide_eq_true_2 by done. cbn [negb]. rewrite Escan, Hpos. cbn [mbind option_bind]. change (default [] (Some chunk)) with chunk.
    rewrite Ex. cbn [mbind option_bind]. rewrite F3, El. cbn [mbind option_bind]. rewrite E, Eres. cbn [mbind option_bind].
    unfold block_output. by rewrite (proj2 (proj2 (proj2 (group_shape _ _ _ (group_counters _ _ _ _ Hg))))).
  - destruct Hg as [Hc' Hm Hst Hh]. split.
    + assert (counters_ok sh g (<[id := held j th']> row)) as H; [| by destruct H; split].
      apply counters_still; [done | done | by rewrite Hrow | by rewrite Hrow |].
      rewrite Ed, <- Hrow, Edn. unfold range_width. fold b. lia.
    + apply masks_same; [done | lia | done].
    + assert (states_ok sh (Some x) (<[k := Some l']> (thread_states g)) row) as Hst'.
      { destruct Hst as [L1 L2 L3 L4]. split.
        - by rewrite length_insert.
        - intros k' l2 [(<- & [= <-] & _) | [_ E2]]%list_lookup_insert_Some; [done | by eapply L2].
        - intros k' Hk' Hi Hcomp. destruct (decide (k' = k)) as [-> | Hne]; [exists l'; apply list_lookup_insert_eq; by rewrite L1 |].
          rewrite list_lookup_insert_ne by done. by apply L3.
        - by rewrite Ex in L4. }
      apply states_same; try done; try lia. by rewrite Hrow.
    + eapply held_move; try done. split; cbn [thread_idx begin_idx end_idx task_stage set_begin_idx window_pc th' scanner]; rewrite ?F3;
        [done | lia | done | done | | done]. left. split; [done | lia].
  - cbn. rewrite Hpc. done.
  - unfold row_outputs. cbn [option_list]. apply mjoin_seq_update with (k := k); [done | |].
    + intros k' Hk' Hne. rewrite update_other; [done | done | done | by right].
    + assert ((<[id := held j th']> row) (3 * T sh + k)%nat = held j th') as -> by (rewrite F2; apply fn_lookup_insert).
      rewrite Hrow3, Ed, <- Hrow, Edn, seq_S, fmap_app. fold b. cbn [fmap list_fmap].
      by replace (range_begin sh k + (b - range_begin sh k))%nat with b by lia.
  - cbn. rewrite Hpc. unfold remaining. cbn. rewrite Ht. fold b. lia.
  - by eexists.
Qed.

(** *** The end of a task *)

Lemma src_count_ok : window_pc th = src_count -> task_step_ok i sh row id j th s.
Proof.
  intros Hpc. destruct held_facts as (F1 & F2 & F3 & Hok). pose proof Hok as [H1 H2 H3 H4 Hp H6]. rewrite Hpc in Hp. cbn zeta in Hp.
  rewrite F3 in *.
  apply (quiet_step_ok (goto src_loop) (if TaskFinished (task th) then 1 else 0)); [done | | | | | | |].
  - unfold WindowSource.window_step. rewrite Hpc. destruct (TaskFinished (task th)); [done |]. by rewrite add_tasks_0.
  - by rewrite Hpc.
  - intros _. unfold sunk_blocks. cbn. by rewrite Hpc.
  - intros _. cbn. by rewrite Hpc.
  - cbn [counted window_pc task]. rewrite Hpc. by destruct (TaskFinished (task th)).
  - cbn. rewrite Hpc. unfold remaining. cbn. rewrite Ht. lia.
  - split; rewrite ?F3; [done | done | done | done | | done]. cbn [window_pc]. destruct Hp as [[? _] | ?]; [by left | by right].
Qed.

Lemma src_loop_assign_ok :
  window_pc th = src_loop -> begin_idx t = end_idx t -> task_step_ok i sh row id j th s.
Proof.
  intros Hpc Heq. destruct held_facts as (F1 & F2 & F3 & Hok). pose proof Hok as [H1 H2 H3 H4 Hp H6]. rewrite F3 in *.
  apply (quiet_step_ok (goto (if HasUnfinishedTasks s then src_assign else src_done)) 0); [done | | | | | | |].
  - rewrite add_tasks_0. unfold WindowSource.window_step. rewrite Hpc. destruct (HasUnfinishedTasks s); [| done].
    rewrite Ht. cbn [TaskFinished]. by rewrite (proj2 (Nat.eqb_eq _ _)) by done.
  - rewrite Hpc. by destruct (HasUnfinishedTasks s).
  - intros _. unfold sunk_blocks. cbn. rewrite Hpc. by destruct (HasUnfinishedTasks s).
  - intros _. cbn. rewrite Hpc. by destruct (HasUnfinishedTasks s).
  - cbn [counted window_pc task]. rewrite Hpc. destruct (HasUnfinishedTasks s); lia.
  - cbn. rewrite Hpc. destruct (HasUnfinishedTasks s); lia.
  - split; rewrite ?F3; [done | done | done | done | | done]. cbn [window_pc]. by destruct (HasUnfinishedTasks s).
Qed.

Lemma src_loop_execute_ok :
  window_pc th = src_loop -> (begin_idx t < end_idx t)%nat -> HasUnfinishedTasks s = true -> task_step_ok i sh row id j th s.
Proof.
  intros Hpc Hlt Hu. destruct held_facts as (F1 & F2 & F3 & Hok). pose proof Hok as [H1 H2 H3 H4 Hp H6]. rewrite Hpc in Hp. cbn zeta in Hp. rewrite F3 in *.
  assert (task_stage t = GETDATA) as Es by (by destruct Hp; [| lia]). rewrite Es in F2. cbn in F2.
  apply (quiet_step_ok (goto src_execute) 0); [done | | | | | | |]; try (intros; lia).
  - rewrite add_tasks_0. unfold WindowSource.window_step. rewrite Hpc, Hu, Ht. cbn [TaskFinished].
    by rewrite (proj2 (Nat.eqb_neq _ _)) by lia.
  - cbn [counted window_pc task]. rewrite Hpc, Ht. cbn [TaskFinished]. by rewrite (proj2 (Nat.eqb_neq _ _)) by lia.
  - cbn [work window_pc task]. rewrite Hpc, Ht, Es, decide_True by done. unfold remaining. cbn [task]. rewrite ?Ht. lia.
  - split; rewrite ?F3; [done | done | done | done | | done]. cbn [window_pc]. split; [done | by left].
Qed.

(** Every step of a thread inside a task. *)
Lemma task_step :
  window_pc th <> src_assign -> window_pc th <> src_done ->
  (window_pc th = src_loop -> (begin_idx t < end_idx t)%nat -> HasUnfinishedTasks s = true) ->
  task_step_ok i sh row id j th s.
Proof.
  intros Hna Hnd Hu. destruct held_facts as (F1 & F2 & F3 & Hok). pose proof (thread_pc _ _ _ Hok) as Hp. pose proof (thread_begin _ _ _ Hok) as Hb.
  destruct (window_pc th) as [| | | | | | [| call calls] | | | size | | | | | | | |] eqn:Hpc; cbn zeta in Hp; try done.
  - destruct (decide (begin_idx t = end_idx t)); [by apply src_loop_assign_ok |].
    apply src_loop_execute_ok; [done | lia |]. apply Hu; [done | lia].
  - by apply src_execute_ok.
  - by apply mask_alloc_ok.
  - by apply mask_small_ok.
  - by apply mask_begin_ok.
  - by apply mask_count_ok.
  - by eapply mask_calls_ok.
  - by apply sink_states_ok.
  - destruct (decide (begin_idx t = end_idx t)); [by apply sink_loop_end_ok | apply sink_loop_ok; [done | lia]].
  - by eapply sink_count_ok.
  - by apply finalize_run_ok.
  - by apply finalize_count_ok.
  - by apply getdata_ok.
  - by apply src_count_ok.
Qed.
End held.
End source.
