(* ===== verification/WindowSchedules.v ===== *)
(** * The source of the window operator: schedules

    The invariant of the whole source: the groups and the counters against the ghost
    table of the tasks, the threads, and the result.  Every schedule of the threads keeps it, and
    under fair schedules every thread ends. *)

From stdpp Require Import functions.
From S2P Require Import Prelude Validity WindowMasks WindowMasksInvariant WindowSource WindowSourceInvariant.

Section source.
Context {V G L Res : Type} (distinct_from : V -> V -> bool) (executors : WindowExecutors V G L Res).
Context (config : WindowSourceConfig) (suitable : MaskInput V -> Prop) (expected : MaskInput V -> nat -> list (list V * Res)).
Context `{!ExecutorLaws distinct_from executors config suitable expected}.
Abbreviation Group := (WindowHashGroup V G L).
Abbreviation Global := (WindowGlobalSourceState V G L).
Abbreviation Thread := (WindowThread V).
Abbreviation Status := (@Status V).
Abbreviation Shape := (@Shape V).
Abbreviation shape_ok := (shape_ok config suitable).
Abbreviation group_ok := (group_ok distinct_from executors config suitable expected).
Abbreviation T sh := (sthreads sh).
Abbreviation held := (@held V).
Abbreviation fresh := (@fresh V).
Abbreviation complete := (@complete V).
Implicit Types (g : Group) (s : Global) (th : Thread) (t : WindowSourceTask) (i j id : nat) (sh : Shape) (st : Status).

(** ** The table of the tasks *)

Context (shapes : list (option Shape)).

Definition shape_at i : option Shape := shapes !! i ≫= fun x => x.
Definition group_tasks i : nat := match shape_at i with Some sh => 4 * T sh | None => 0 end.

Abbreviation Table := (nat -> nat -> Status).
Implicit Types (tbl : Table).

Definition set_status tbl i id st : Table := <[i := <[id := st]> (tbl i)]> tbl.

(** All tasks. *)
Definition all_tasks : list (nat * nat) :=
  mjoin ((fun i => (fun id => (i, id)) <$> seq 0 (group_tasks i)) <$> seq 0 (length shapes)).

Definition task_sum (f : nat -> Status -> Z) tbl : Z := zsum (fun p => f (fst p) (tbl (fst p) (snd p))) all_tasks.

Definition all_outputs tbl : list (nat * list (list V * Res)) :=
  mjoin ((fun i => match shape_at i with Some sh => row_outputs expected sh (tbl i) | None => [] end) <$> seq 0 (length shapes)).

Lemma shape_at_lt i sh : shape_at i = Some sh -> (i < length shapes)%nat.
Proof. unfold shape_at. intros (x & E & _)%bind_Some. by eapply lookup_lt_Some. Qed.

Lemma elem_of_all_tasks i id : (i, id) ∈ all_tasks <-> (id < group_tasks i)%nat.
Proof.
  unfold all_tasks. rewrite list_elem_of_join. split.
  - intros (l & Hin & (i' & -> & _)%list_elem_of_fmap). apply list_elem_of_fmap in Hin as (id' & [= -> ->] & Hid%elem_of_seq). lia.
  - intros H. exists ((fun id => (i, id)) <$> seq 0 (group_tasks i)). split.
    { apply (list_elem_of_fmap_2 (fun id => (i, id))), elem_of_seq. lia. }
    apply (list_elem_of_fmap_2 (fun i => (fun id => (i, id)) <$> seq 0 (group_tasks i))). apply elem_of_seq. split; [lia |].
    unfold group_tasks in H. destruct (shape_at i) eqn:E; [| lia]. apply shape_at_lt in E. lia.
Qed.

Lemma all_tasks_NoDup : NoDup all_tasks.
Proof.
  unfold all_tasks. assert (forall n a, NoDup (mjoin ((fun i => (fun id => (i, id)) <$> seq 0 (group_tasks i)) <$> seq a n))) as H; [| apply H].
  induction n as [| n IH]; intros a; [constructor |].
  cbn [seq]. rewrite fmap_cons, mjoin_cons. apply NoDup_app. split_and!; [| | apply IH].
  - apply NoDup_fmap_2; [by intros ?? [=] | apply NoDup_seq].
  - intros [i id] H1 H2. apply list_elem_of_fmap in H1 as (id' & [= -> ->] & _).
    apply list_elem_of_join in H2 as (l & Hin & (i' & -> & Hi')%list_elem_of_fmap).
    apply list_elem_of_fmap in Hin as (id'' & [= -> ->] & _). apply elem_of_seq in Hi'. lia.
Qed.

Lemma zsum_update {A} (f f' : A -> Z) l x :
  NoDup l -> x ∈ l -> (forall y, y ∈ l -> y <> x -> f' y = f y) -> zsum f' l = zsum f l - f x + f' x.
Proof.
  intros Hnd Hx Hf. apply list_elem_of_split in Hx as (l1 & l2 & ->).
  apply NoDup_app in Hnd as (_ & H1 & [H2 _]%NoDup_cons). rewrite !zsum_app, !zsum_cons.
  rewrite (zsum_ext f' f l1), (zsum_ext f' f l2); [lia | |].
  - intros y Hy. apply Hf; [apply elem_of_app; right; by right |]. by intros ->.
  - intros y Hy. apply Hf; [apply elem_of_app; by left |]. intros ->. apply (H1 x Hy). by left.
Qed.

Lemma set_status_same tbl i id st : set_status tbl i id st i id = st.
Proof. unfold set_status. by rewrite !fn_lookup_insert. Qed.

Lemma set_status_other tbl i id st i' id' : (i', id') <> (i, id) -> set_status tbl i id st i' id' = tbl i' id'.
Proof.
  intros H. unfold set_status. destruct (decide (i = i')) as [-> | Hne].
  - rewrite fn_lookup_insert, fn_lookup_insert_ne; [done |]. by intros ->.
  - by rewrite fn_lookup_insert_ne.
Qed.

Lemma set_status_row tbl i id st : set_status tbl i id st i = <[id := st]> (tbl i).
Proof. apply fn_lookup_insert. Qed.

Lemma set_status_other_row tbl i id st i' : i' <> i -> set_status tbl i id st i' = tbl i'.
Proof. intros H. by apply fn_lookup_insert_ne. Qed.

Lemma task_sum_update f tbl i id st :
  (id < group_tasks i)%nat -> task_sum f (set_status tbl i id st) = task_sum f tbl + f i st - f i (tbl i id).
Proof.
  intros H. unfold task_sum. rewrite (zsum_update (fun p => f (fst p) (tbl (fst p) (snd p))) _ _ (i, id));
    [| apply all_tasks_NoDup | by apply elem_of_all_tasks |].
  - cbn [fst snd]. rewrite set_status_same. lia.
  - intros [i' id'] _ Hne. cbn [fst snd]. by rewrite set_status_other.
Qed.

Lemma all_outputs_update tbl i id sh st x :
  shape_at i = Some sh -> row_outputs expected sh (<[id := st]> (tbl i)) ≡ₚ row_outputs expected sh (tbl i) ++ x ->
  all_outputs (set_status tbl i id st) ≡ₚ all_outputs tbl ++ x.
Proof.
  intros Hi Hx. unfold all_outputs. apply mjoin_seq_update with (k := i); [by eapply shape_at_lt | |].
  - intros i' _ Hne. by rewrite set_status_other_row.
  - by rewrite Hi, set_status_row.
Qed.

(** ** The invariant of the global state *)

Definition started_count st : Z := if is_fresh st then 0 else 1.

Record global_inv s tbl : Prop := {
  inv_length : length (window_hash_groups s) = length shapes;
  inv_group i sh : shape_at i = Some sh ->
    match get_group i s with
    | Some g => group_ok i sh g (tbl i)
    | None => forall id, (id < 4 * T sh)%nat -> tbl i id = complete
    end;
  inv_none i : shape_at i = None -> get_group i s = None;
  inv_blocks : NoDup (snd <$> partition_blocks s) /\ forall i, i ∈ snd <$> partition_blocks s <-> is_Some (shape_at i);
  inv_active i : i ∈ active_groups s <-> is_Some (get_group i s) /\ i ∈ snd <$> take (next_group s) (partition_blocks s);
  inv_next : (next_group s <= length (partition_blocks s))%nat;
  inv_pending i : i ∈ snd <$> drop (next_group s) (partition_blocks s) ->
    is_Some (get_group i s) /\ forall id, (id < group_tasks i)%nat -> tbl i id = fresh;
  inv_total : Z.of_nat (total_tasks s) = task_sum (fun _ _ => 1) tbl;
  inv_started : Z.of_nat (tasks_started s) = task_sum (fun _ => started_count) tbl;
  inv_finished : Z.of_nat (tasks_finished s) = task_sum (fun _ => counted) tbl;
  inv_stopped : stopped s = false
}.

Context (Hshapes : forall i sh, shape_at i = Some sh -> shape_ok sh).

Lemma get_group_set i (og : option Group) i' s :
  (i < length (window_hash_groups s))%nat ->
  get_group i' (set_group i og s) = if decide (i' = i) then og else get_group i' s.
Proof.
  intros Hlt. unfold get_group. cbn. case_decide as E.
  - subst i'. by rewrite list_lookup_insert_eq.
  - by rewrite list_lookup_insert_ne.
Qed.

Lemma taken_not_pending s tbl i :
  global_inv s tbl -> i ∈ snd <$> take (next_group s) (partition_blocks s) -> i ∉ snd <$> drop (next_group s) (partition_blocks s).
Proof.
  intros H Ht Hd. destruct (inv_blocks _ _ H) as [Hnd _].
  rewrite <- (take_drop (next_group s) (partition_blocks s)), fmap_app in Hnd. apply NoDup_app in Hnd as (_ & Hnd & _). by eapply Hnd.
Qed.

(** A new state of one group and one task. *)
Lemma global_inv_update s tbl i sh g g' id st (a b : nat) :
  global_inv s tbl -> shape_at i = Some sh -> get_group i s = Some g -> (id < 4 * T sh)%nat ->
  i ∉ snd <$> drop (next_group s) (partition_blocks s) ->
  group_ok i sh g' (<[id := st]> (tbl i)) ->
  Z.of_nat a = started_count st - started_count (tbl i id) -> Z.of_nat b = counted st - counted (tbl i id) ->
  global_inv (add_tasks a b 0 (set_group i (Some g') s)) (set_status tbl i id st).
Proof.
  intros [I1 I2 I3 I4 I5 I6 I7 I8 I9 I10 I11] Hi Hg Hid Hnp Hg' Ha Hb.
  assert (i < length (window_hash_groups s))%nat as Hlt by (rewrite I1; by eapply shape_at_lt).
  assert (id < group_tasks i)%nat as Hid' by (unfold group_tasks; by rewrite Hi).
  assert (forall i', get_group i' (add_tasks a b 0 (set_group i (Some g') s)) = if decide (i' = i) then Some g' else get_group i' s) as Hgg
    by (intros i'; by apply (get_group_set i (Some g'))).
  split; cbn [window_hash_groups partition_blocks active_groups next_group total_tasks tasks_started tasks_finished stopped add_tasks set_group]; try done.
  - by rewrite length_insert.
  - intros i' sh' Hi'. rewrite Hgg. case_decide as E.
    + subst i'. rewrite Hi in Hi'. injection Hi' as <-. by rewrite set_status_row.
    + rewrite set_status_other_row by done. by apply I2.
  - intros i' Hi'. rewrite Hgg. case_decide as E; [subst i'; by rewrite Hi in Hi' | by apply I3].
  - intros i'. rewrite Hgg, I5. case_decide as E; [| done]. subst i'. rewrite Hg. by split; intros [_ ?]; (split; [by eexists |]).
  - intros i' Hi'. rewrite Hgg. case_decide as E; [by subst i' |]. rewrite set_status_other_row by done. by apply I7.
  - rewrite Nat2Z.inj_add, I9, task_sum_update by done. lia.
  - rewrite Nat2Z.inj_add, I10, task_sum_update by done. lia.
Qed.

(** A new state of one group only. *)
Lemma global_inv_group s tbl i sh g g' :
  global_inv s tbl -> shape_at i = Some sh -> get_group i s = Some g -> group_ok i sh g' (tbl i) ->
  global_inv (set_group i (Some g') s) tbl.
Proof.
  intros [I1 I2 I3 I4 I5 I6 I7 I8 I9 I10 I11] Hi Hg Hg'.
  assert (i < length (window_hash_groups s))%nat as Hlt by (rewrite I1; by eapply shape_at_lt).
  assert (forall i', get_group i' (set_group i (Some g') s) = if decide (i' = i) then Some g' else get_group i' s) as Hgg
    by (intros i'; by apply get_group_set).
  split; cbn [window_hash_groups partition_blocks active_groups next_group total_tasks tasks_started tasks_finished stopped set_group]; try done.
  - by rewrite length_insert.
  - intros i' sh' Hi'. rewrite Hgg. case_decide as E; [subst i'; by rewrite Hi in Hi'; injection Hi' as <- | by apply I2].
  - intros i' Hi'. rewrite Hgg. case_decide as E; [subst i'; by rewrite Hi in Hi' | by apply I3].
  - intros i'. rewrite Hgg, I5. case_decide as E; [| done]. subst i'. rewrite Hg. by split; intros [_ ?]; (split; [by eexists |]).
  - intros i' Hi'. rewrite Hgg. case_decide as E; [| by apply I7]. subst i'. split; [done | by apply I7].
Qed.

(** ** Assigning tasks *)

Definition same_order s s' : Prop :=
  partition_blocks s' = partition_blocks s /\ active_groups s' = active_groups s /\ next_group s' = next_group s.

(** The task was not assigned before; any thread may hold it now. *)
Definition assigns s' tbl t : Prop :=
  exists sh, shape_at (group_idx t) = Some sh /\ (task_id sh t < 4 * T sh)%nat /\
    tbl (group_idx t) (task_id sh t) = fresh /\
    (exists σ k, (k < T sh)%nat /\ task_id sh t = (σ * T sh + k)%nat /\ begin_idx t = range_begin sh k) /\
    forall j, global_inv s' (set_status tbl (group_idx t) (task_id sh t) (held j (assigned t))).

(** A group without a task for now. *)
Definition stuck tbl i : Prop :=
  forall sh, shape_at i = Some sh ->
    (forall id, (id < 4 * T sh)%nat -> tbl i id <> fresh) \/ exists id j th, (id < 4 * T sh)%nat /\ tbl i id = held j th.

(** The last task of all is one of the GETDATA stage. *)
Lemma all_started s tbl i id :
  global_inv s tbl -> tasks_started s = total_tasks s -> (id < group_tasks i)%nat -> tbl i id <> fresh.
Proof.
  intros H E Hid Hf.
  assert (task_sum (fun _ => started_count) tbl = task_sum (fun _ _ => 1) tbl) as Hsum by (rewrite <- (inv_started _ _ H), <- (inv_total _ _ H); lia).
  unfold task_sum in Hsum.
  pose proof (zsum_le_eq (fun p => started_count (tbl (fst p) (snd p))) (fun _ => 1) all_tasks) as Hle.
  specialize (Hle ltac:(intros p _; unfold started_count; destruct (is_fresh _); lia) ltac:(lia) (i, id) ltac:(by apply elem_of_all_tasks)).
  cbn in Hle. by rewrite Hf in Hle.
Qed.

Lemma is_fresh_true st : is_fresh st = true -> st = fresh.
Proof. by destruct st. Qed.

Lemma try_group_ok s tbl i :
  global_inv s tbl -> i ∉ snd <$> drop (next_group s) (partition_blocks s) -> is_Some (get_group i s) ->
  exists task prepared s', try_group i s = Some (task, prepared, s') /\ same_order s s' /\
    match task with
    | Some t => assigns s' tbl t /\ (tasks_started s' = total_tasks s' -> prepared = true)
    | None => global_inv s' tbl /\ stuck tbl i
    end.
Proof.
  intros H Hnp [g Hg]. destruct (shape_at i) as [sh |] eqn:Hi; [| by rewrite (inv_none _ _ H i Hi) in Hg].
  pose proof (Hshapes i sh Hi) as Hsh. pose proof (inv_group _ _ H i sh Hi) as Hok. rewrite Hg in Hok.
  unfold try_group. rewrite Hg. cbn [mbind option_bind].
  destruct (TryPrepareNextStage_ok distinct_from executors config suitable expected i sh g (tbl i) Hsh Hok)
    as (b & g1 & E0 & Hok1 & Hn1 & _ & Hb1 & Hb2).
  rewrite E0. pose proof (group_TryNextTask_ok distinct_from executors config suitable expected i sh g1 (tbl i) Hsh Hok1) as Hnext.
  destruct (group_TryNextTask i g1) as [[t g2] |].
  - destruct Hnext as (σ & k & Hσ & Hk & En & Ef & Eid & Eg & Es & Ebegin & En2 & Es2 & Hok2).
    assert (σ * T sh + k < 4 * T sh)%nat as Hid by (by apply id_lt).
    assert (forall j, global_inv (add_tasks 1 0 0 (set_group i (Some g2) s)) (set_status tbl i (σ * T sh + k)%nat (held j (assigned t)))) as Hinv.
    { intros j. apply (global_inv_update s tbl i sh g g2 (σ * T sh + k)%nat (held j (assigned t)) 1 0); try done; rewrite Ef; [done |].
      cbn. specialize (Hok2 j). destruct (group_held _ _ _ _ _ _ _ _ _ Hok2 (σ * T sh + k)%nat j (assigned t) Hid) as (t' & [= <-] & _ & _ & Hth);
        [apply fn_lookup_insert |]. done. }
    exists (Some t), b, (add_tasks 1 0 0 (set_group i (Some g2) s)). split_and!; [done | by split_and! | |].
    + exists sh. rewrite Eg, Eid. split_and!; [done | done | done | by exists σ, k | done].
    + intros Hall. pose proof (all_started _ _ i (4 * T sh - 1)%nat (Hinv 0%nat) Hall ltac:(unfold group_tasks; rewrite Hi; lia)) as Hf.
      rewrite set_status_row in Hf. specialize (Hok2 0%nat). pose proof (group_counters _ _ _ _ _ _ _ _ _ Hok2) as Hc.
      pose proof (group_fresh _ _ _ Hc (4 * T sh - 1)%nat ltac:(lia)) as E.
      destruct (group_stage _ _ _ Hc) as (σ0 & H0 & Es0 & Hn0 & _). pose proof (group_next _ _ _ Hc).
      destruct (Nat.leb_spec (next_task g2) (4 * T sh - 1)); [by destruct Hf; apply is_fresh_true |].
      assert (σ0 = 3%nat) as -> by nia. destruct b; [done |]. destruct (Hb2 eq_refl) as (k' & _ & Hle & E1 & _).
      rewrite <- E1, <- Es2, Es0 in Hle. cbn in Hle. lia.
  - exists None, b, (set_group i (Some g1) s). split_and!; [done | by split_and! | by eapply global_inv_group |].
    intros sh' Hi'. rewrite Hi in Hi'. injection Hi' as <-. pose proof (group_counters _ _ _ _ _ _ _ _ _ Hok1) as Hc.
    destruct Hnext as [Hn | (Hn & En & Hstage)].
    + left. intros id Hid Hf. pose proof (group_fresh _ _ _ Hc id Hid) as E. rewrite Hf, (proj2 (Nat.leb_gt _ _)) in E by lia. done.
    + right. destruct b.
      * destruct (Hb1 eq_refl) as [Eg | [En1 _]].
        -- unfold TryPrepareNextStage in E0. rewrite Eg in E0. injection E0 as <-. rewrite Eg in Hstage. cbn in Hstage. lia.
        -- rewrite En1 in En. cbn in En. lia.
      * destruct (Hb2 eq_refl) as (k & Hk & Hle & E1 & Hd). set (σ := stage_index (stage g)) in *.
        assert (σ * T sh + k < 4 * T sh)%nat as Hid by (apply id_lt; lia).
        destruct (tbl i (σ * T sh + k)%nat) as [| j th |] eqn:E.
        -- pose proof (group_fresh _ _ _ Hc _ Hid) as Ef. rewrite E in Ef. symmetry in Ef. cbn in Ef. apply Nat.leb_le in Ef.
           rewrite E1 in En. fold σ in En. nia.
        -- by exists (σ * T sh + k)%nat, j, th.
        -- cbn in Hd. lia.
Qed.

Lemma next_active_ok l unblock s tbl :
  global_inv s tbl -> (forall i, i ∈ l -> i ∈ active_groups s) ->
  exists task u s', next_active l unblock s = Some (task, u, s') /\ same_order s s' /\
    match task with
    | Some t => assigns s' tbl t /\ (tasks_started s' = total_tasks s' -> u = true)
    | None => global_inv s' tbl /\ forall i, i ∈ l -> stuck tbl i
    end.
Proof.
  revert unblock s. induction l as [| i l IH]; intros unblock s H Hl.
  { exists None, unblock, s. split_and!; [done | by split_and! | done |]. by intros i Hi%not_elem_of_nil. }
  assert (i ∈ active_groups s) as Hi by (apply Hl; by left). apply (inv_active _ _ H) in Hi as [Hsome Htake].
  destruct (try_group_ok s tbl i H (taken_not_pending s tbl i H Htake) Hsome) as (task & prepared & s1 & E & Ho & Htask).
  cbn [next_active]. rewrite E. cbn [mbind option_bind]. destruct task as [t |].
  - destruct Htask as [Ha Hu]. exists (Some t), (unblock || prepared), s1. split_and!; [done | done | done |].
    intros Hall. rewrite (Hu Hall). apply orb_true_r.
  - destruct Htask as [H1 Hstuck]. destruct (IH (unblock || prepared) s1 H1) as (task & u & s2 & E2 & Ho2 & Htask2).
    { intros i' Hi'. destruct Ho as (_ & -> & _). apply Hl. by right. }
    exists task, u, s2. split_and!; [done | |].
    + destruct Ho as (A1 & A2 & A3), Ho2 as (B1 & B2 & B3). split_and!; congruence.
    + destruct task as [t |]; [done |]. destruct Htask2 as [H2 Hrest]. split; [done |].
      intros i' [-> | Hi']%elem_of_cons; [done | by apply Hrest].
Qed.

(** A group becomes active. *)
Lemma activate_ok s tbl b :
  global_inv s tbl -> partition_blocks s !! next_group s = Some b ->
  global_inv (set_active (active_groups s ++ [snd b]) (S (next_group s)) s) tbl /\ is_Some (get_group (snd b) s).
Proof.
  intros [I1 I2 I3 I4 I5 I6 I7 I8 I9 I10 I11] Hb.
  assert (snd b ∈ snd <$> drop (next_group s) (partition_blocks s)) as Hin.
  { rewrite (drop_S _ _ _ Hb). by left. }
  pose proof (I7 _ Hin) as [Hsome _]. split; [| done].
  split; cbn [window_hash_groups partition_blocks active_groups next_group total_tasks tasks_started tasks_finished stopped set_active]; try done.
  - intros i. change (get_group i (set_active _ _ s)) with (get_group i s).
    rewrite elem_of_app, I5, (take_S_r _ _ _ Hb), fmap_app, elem_of_app, list_elem_of_singleton. cbn [fmap list_fmap].
    rewrite list_elem_of_singleton. split; [intros [[? ?] | ->] | intros [? [? | ->]]];
      [by split; [| left] | by split; [| right] | by left | by right].
  - apply lookup_lt_Some in Hb. lia.
  - intros i Hi. change (get_group i (set_active _ _ s)) with (get_group i s). apply I7. rewrite (drop_S _ _ _ Hb). by right.
Qed.

Lemma next_inactive_ok fuel unblock s tbl :
  global_inv s tbl -> fuel = (length (partition_blocks s) - next_group s)%nat ->
  exists task u s', next_inactive fuel unblock s = Some (task, u, s') /\
    match task with
    | Some t => assigns s' tbl t /\ (tasks_started s' = total_tasks s' -> u = true)
    | None => global_inv s' tbl /\ forall i, i ∈ snd <$> drop (next_group s) (partition_blocks s) -> stuck tbl i
    end.
Proof.
  revert unblock s. induction fuel as [| fuel IH]; intros unblock s H Hf.
  { exists None, unblock, s. split_and!; [done | done |]. rewrite drop_ge by lia. by intros i Hi%not_elem_of_nil. }
  cbn [next_inactive]. destruct (lookup_lt_is_Some_2 (partition_blocks s) (next_group s)) as [b Hb]; [lia |]. rewrite Hb.
  destruct (activate_ok s tbl b H Hb) as [H1 Hsome]. set (s1 := set_active _ _ s) in *.
  assert (snd b ∉ snd <$> drop (next_group s1) (partition_blocks s1)) as Hnp.
  { apply (taken_not_pending s1 tbl _ H1). cbn. rewrite (take_S_r _ _ _ Hb), fmap_app. apply elem_of_app. right. by left. }
  destruct (try_group_ok s1 tbl (snd b) H1 Hnp Hsome) as (task & prepared & s2 & E & Ho & Htask).
  rewrite E. cbn [mbind option_bind]. destruct task as [t |].
  - destruct Htask as [Ha Hu]. exists (Some t), (unblock || prepared), s2. split_and!; [done | done |].
    intros Hall. rewrite (Hu Hall). apply orb_true_r.
  - destruct Htask as [H2 Hstuck]. destruct Ho as (O1 & O2 & O3). cbn in O1, O3.
    destruct (IH (unblock || prepared) s2 H2) as (task & u & s3 & E3 & Htask3); [rewrite O1, O3; lia |].
    exists task, u, s3. split; [done |]. destruct task as [t |]; [done |]. destruct Htask3 as [H3 Hrest]. split; [done |].
    rewrite (drop_S _ _ _ Hb), fmap_cons. intros i [-> | Hi]%elem_of_cons; [done |]. apply Hrest. by rewrite O1, O3.
Qed.

(** What is not assigned keeps some thread busy. *)
Lemma stuck_held s tbl :
  global_inv s tbl -> (tasks_started s < total_tasks s)%nat -> (forall i, is_Some (shape_at i) -> stuck tbl i) ->
  exists i id j th, (id < group_tasks i)%nat /\ tbl i id = held j th.
Proof.
  intros H Hlt Hstuck.
  destruct (decide (Exists (fun p => is_fresh (tbl (fst p) (snd p)) = true) all_tasks)) as [He | He].
  - apply Exists_exists in He as ([i id] & Hin%elem_of_all_tasks & Hf%is_fresh_true). cbn in Hf.
    pose proof Hin as Hin'. unfold group_tasks in Hin. destruct (shape_at i) as [sh |] eqn:Hi; [| lia].
    destruct (Hstuck i ltac:(by rewrite Hi) sh Hi) as [Hall | (id' & j & th & Hid & E)]; [by destruct (Hall id Hin) |].
    exists i, id', j, th. unfold group_tasks. by rewrite Hi.
  - exfalso. pose proof (inv_started _ _ H) as E1. pose proof (inv_total _ _ H) as E2.
    assert (task_sum (fun _ => started_count) tbl = task_sum (fun _ _ => 1) tbl); [| lia]. apply zsum_ext. intros p Hp. unfold started_count.
    destruct (is_fresh (tbl (fst p) (snd p))) eqn:E; [| done]. destruct He. apply Exists_exists. by exists p.
Qed.

(** *** Finishing a task *)

Lemma same_list_filter (l : list nat) i i' :
  i ∈ List.filter (fun x => negb (x =? i')%nat) l <-> i ∈ l /\ i <> i'.
Proof.
  rewrite !list_elem_of_In, List.filter_In, negb_true_iff, Nat.eqb_neq. done.
Qed.

(** The removal of a finished group. *)
Lemma remove_group_ok s tbl i sh g :
  global_inv s tbl -> shape_at i = Some sh -> get_group i s = Some g ->
  i ∉ snd <$> drop (next_group s) (partition_blocks s) ->
  (forall id, (id < 4 * T sh)%nat -> tbl i id = complete) ->
  global_inv (set_active (List.filter (fun x => negb (x =? i)%nat) (active_groups s)) (next_group s) (set_group i None s)) tbl.
Proof.
  intros [I1 I2 I3 I4 I5 I6 I7 I8 I9 I10 I11] Hi Hg Hnp Hall.
  assert (i < length (window_hash_groups s))%nat as Hlt by (rewrite I1; by eapply shape_at_lt).
  assert (forall i' l n, get_group i' (set_active l n (set_group i None s)) = if decide (i' = i) then None else get_group i' s) as Hgg
    by (intros i' l n; by apply get_group_set).
  split; cbn [window_hash_groups partition_blocks active_groups next_group total_tasks tasks_started tasks_finished stopped set_active set_group]; try done.
  - by rewrite length_insert.
  - intros i' sh' Hi'. rewrite Hgg. case_decide as E; [subst i'; rewrite Hi in Hi'; by injection Hi' as <- | by apply I2].
  - intros i' Hi'. rewrite Hgg. case_decide as E; [done | by apply I3].
  - intros i'. rewrite Hgg, same_list_filter, I5. case_decide as E; [| tauto]. subst i'. split; [by intros [_ ?] |]. by intros [[? [=]] _].
  - intros i' Hi'. rewrite Hgg. case_decide as E; [by subst i' | by apply I7].
Qed.

Lemma set_group_twice i (x y : option Group) s : set_group i x (set_group i y s) = set_group i x s.
Proof. unfold set_group. cbn. by rewrite list_insert_insert_eq. Qed.

(** The statistic of completed tasks. *)
Lemma global_inv_completed s tbl c : global_inv s tbl -> global_inv (add_tasks 0 0 c s) tbl.
Proof.
  intros [I1 I2 I3 I4 I5 I6 I7 I8 I9 I10 I11].
  split; cbn [window_hash_groups partition_blocks active_groups next_group total_tasks tasks_started tasks_finished stopped add_tasks]; try done;
    by rewrite Nat.add_0_r.
Qed.

Lemma global_inv_completed' s tbl c : global_inv (add_tasks 0 0 0 s) tbl -> global_inv (add_tasks 0 0 c s) tbl.
Proof.
  intros H%(global_inv_completed _ _ c). unfold add_tasks in *. cbn in *. by rewrite !Nat.add_0_r in *.
Qed.

(** What the table says of the thread that holds a task. *)
Lemma held_info s tbl i sh id j th :
  global_inv s tbl -> shape_at i = Some sh -> (id < 4 * T sh)%nat -> tbl i id = held j th ->
  exists g t σ k, get_group i s = Some g /\ group_ok i sh g (tbl i) /\ task th = Some t /\ group_idx t = i /\ task_id sh t = id /\
    WindowSourceInvariant.thread_ok config sh th t /\ (σ <= 3)%nat /\ (k < T sh)%nat /\ id = (σ * T sh + k)%nat /\
    i ∉ snd <$> drop (next_group s) (partition_blocks s).
Proof.
  intros H Hi Hid Hrow. pose proof (inv_group _ _ H i sh Hi) as Hg.
  destruct (get_group i s) as [g |]; [| by rewrite Hg in Hrow].
  destruct (group_held _ _ _ _ _ _ _ _ _ Hg id j th Hid Hrow) as (t & Et & Eg & Eid & Hok).
  exists g, t, (stage_index (task_stage t)), (thread_idx t). pose proof (thread_stage _ _ _ _ Hok).
  split_and!; try done.
  - by destruct (task_stage t); cbn; try lia.
  - apply Hok.
  - intros Hp. apply (inv_pending _ _ H) in Hp as [_ Hf]. unfold group_tasks in Hf. rewrite Hi in Hf. by rewrite Hf in Hrow.
Qed.

(** The first part of TryAssignTask. *)
Definition release_group t s : option Global :=
  if decide (task_stage t = GETDATA) then
    with_group t s (fun g =>
      if (thread_idx t <? length (thread_states g))%nat
      then Some (set_states (gestates g) (<[thread_idx t := None]> (thread_states g)) g) else None)
  else Some s.

Lemma all_outputs_same tbl i sh id st :
  shape_at i = Some sh -> row_outputs expected sh (<[id := st]> (tbl i)) = row_outputs expected sh (tbl i) ->
  all_outputs (set_status tbl i id st) = all_outputs tbl.
Proof.
  intros Hi Hx. unfold all_outputs. f_equal. apply list_fmap_ext. intros ? i' _. destruct (decide (i' = i)) as [-> | Hne].
  - by rewrite Hi, set_status_row.
  - by rewrite set_status_other_row.
Qed.

Lemma FinishTask_ok s tbl i sh id j th t :
  global_inv s tbl -> shape_at i = Some sh -> (id < 4 * T sh)%nat -> tbl i id = held j th -> task th = Some t ->
  window_pc th = src_assign ->
  exists s', (s ← release_group t s; FinishTask (Some t) s) = Some s' /\ global_inv s' (set_status tbl i id complete) /\
    TaskFinished (Some t) = true /\ all_outputs (set_status tbl i id complete) = all_outputs tbl.
Proof.
  intros H Hi Hid Hrow Et Hpc. pose proof (Hshapes i sh Hi) as Hsh.
  destruct (held_info _ _ _ _ _ _ _ H Hi Hid Hrow) as (g & t' & σ & k & Hg & Hok & Et' & Eg & Eid & Hth & Hσ & Hk & -> & Hnp).
  rewrite Et in Et'. injection Et' as <-.
  pose proof (finish_group_ok distinct_from executors config suitable expected i sh g (tbl i) σ k j th t Hsh Hok Hσ Hk Hrow Et Hpc) as Hok'.
  assert (TaskFinished (Some t) = true) as Hfin.
  { pose proof (thread_pc _ _ _ _ Hth) as Hp. rewrite Hpc in Hp. cbn. by apply Nat.eqb_eq. }
  pose proof (thread_idx_ok _ _ _ _ Hth) as Hth'.
  set (g2 := add_counts 0 0 0 1 (release t g)) in *.
  assert (i < length (window_hash_groups s))%nat as Hlt by (rewrite (inv_length _ _ H); by eapply shape_at_lt).
  assert (release_group t s = Some (set_group i (Some (release t g)) s)) as ->.
  { unfold release_group, release. case_decide as Egd; [| by rewrite (set_group_id i g s Hg)].
    unfold with_group. rewrite Eg, Hg. cbn [mbind option_bind].
    rewrite (locals_length _ _ _ _ _ _ _ _ _ (group_states _ _ _ _ _ _ _ _ _ Hok)), (proj2 (Nat.ltb_lt _ _)); [done |]. apply Hth. }
  cbn [mbind option_bind FinishTask]. rewrite Eg, get_group_set, decide_True by done. cbn [mbind option_bind]. fold g2.
  assert (global_inv (add_tasks 0 0 0 (set_group i (Some g2) s)) (set_status tbl i (σ * T sh + k)%nat complete)) as H2.
  { apply (global_inv_update s tbl i sh g g2 (σ * T sh + k)%nat complete 0 0); try done; rewrite Hrow; [done |].
    cbn [counted]. rewrite Hpc, Et, Hfin. done. }
  assert (all_outputs (set_status tbl i (σ * T sh + k)%nat complete) = all_outputs tbl) as Hout.
  { apply (all_outputs_same tbl i sh (σ * T sh + k)%nat complete Hi). apply row_outputs_same; [done |]. intros _. rewrite Hrow. cbn [done_blocks].
    rewrite Et. destruct Hth as [_ _ He _ Hp _]. rewrite Hpc in Hp. cbn zeta in Hp.
    assert (thread_idx t = k) as Ek by (eapply task_id_split; [exact Hth' | done | exact Eid]).
    unfold range_width. rewrite <- Ek, <- He. lia. }
  eexists. split_and!; [reflexivity | | done | done].
  pose proof (group_counters _ _ _ _ _ _ _ _ _ Hok') as Hc.
  destruct (Nat.leb_spec (GetTaskCount g2) (group_completed g2)) as [Hle | Hgt].
  - rewrite set_group_twice.
    assert (forall id, (id < 4 * T sh)%nat -> set_status tbl i (σ * T sh + k)%nat complete i id = complete) as Hall.
    { rewrite set_status_row. unfold GetTaskCount, GetThreadCount in Hle. rewrite (proj1 (proj2 (proj2 (group_shape _ _ _ Hc)))) in Hle.
      cbn [stage_index Nat.sub] in Hle. pose proof (group_complete _ _ _ Hc) as Hsum.
      intros id' Hid'. set (row := <[(σ * T sh + k)%nat := complete]> (tbl i)) in *.
      pose proof (zsum_le_eq (fun id => if is_complete (row id) then 1 else 0) (fun _ => 1) (seq 0 (4 * T sh))) as He.
      assert (zsum (fun _ : nat => 1) (seq 0 (4 * T sh)) = Z.of_nat (4 * T sh)) as Hones.
      { assert (forall n a, zsum (fun _ : nat => 1) (seq a n) = Z.of_nat n) as Hz; [| apply Hz].
        induction n as [| n IH]; intros a; [done |]. cbn [seq]. rewrite zsum_cons, IH. lia. }
      specialize (He ltac:(intros x _; cbn beta; destruct (is_complete (row x)); lia) ltac:(lia) id' ltac:(apply elem_of_seq; lia)). cbn in He.
      by destruct (row id'). }
    assert (get_group i (add_tasks 0 0 0 (set_group i (Some g2) s)) = Some g2) as Hg2
      by (change (get_group i (set_group i (Some g2) s) = Some g2); by rewrite get_group_set, decide_True).
    pose proof (remove_group_ok _ _ i sh g2 H2 Hi Hg2 Hnp Hall) as H3. apply (global_inv_completed _ _ 1) in H3.
    revert H3. unfold add_tasks, set_active, set_group. cbn. by rewrite list_insert_insert_eq, !Nat.add_0_r.
  - rewrite set_group_twice. by apply global_inv_completed'.
Qed.

(** ** Assignment *)

Lemma HasMoreTasks_spec s tbl :
  global_inv s tbl -> HasMoreTasks s = (tasks_started s <? total_tasks s)%nat /\ HasUnfinishedTasks s = (tasks_finished s <? total_tasks s)%nat /\
    (tasks_finished s <= tasks_started s <= total_tasks s)%nat.
Proof.
  intros H. unfold HasMoreTasks, HasUnfinishedTasks. rewrite (inv_stopped _ _ H). split_and!; [done | done | |].
  - apply Nat2Z.inj_le. rewrite (inv_started _ _ H), (inv_finished _ _ H). apply zsum_le. intros p _. unfold started_count, counted.
    destruct (tbl _ _) as [| j th |]; cbn; try lia. destruct (window_pc th), (TaskFinished (task th)); lia.
  - apply Nat2Z.inj_le. rewrite (inv_started _ _ H), (inv_total _ _ H). apply zsum_le. intros p _. unfold started_count.
    destruct (is_fresh _); lia.
Qed.

(** TryNextTask behind the end of the old task. *)
Lemma next_task_ok s tbl :
  global_inv s tbl ->
  exists task u s', (if negb (HasMoreTasks s) then Some (None, false, s)
    else
      '(task, unblock, s) ← next_active (active_groups s) false s;
      match task with
      | Some task => Some (Some task, unblock, s)
      | None => next_inactive (length (partition_blocks s) - next_group s) unblock s
      end) = Some (task, u, s') /\ (HasMoreTasks s' = true -> HasMoreTasks s = true) /\
    match task with
    | Some t => assigns s' tbl t /\ (HasMoreTasks s' = false -> u = true)
    | None => global_inv s' tbl /\ HasMoreTasks s' = HasMoreTasks s /\
        (HasMoreTasks s = true -> exists i id j th, (id < group_tasks i)%nat /\ tbl i id = held j th)
    end.
Proof.
  intros H. destruct (HasMoreTasks s) eqn:Em; cbn [negb]; cycle 1.
  { exists None, false, s. by rewrite Em. }
  pose proof (HasMoreTasks_spec s tbl H) as (Em' & _ & _). rewrite Em in Em'. symmetry in Em'. apply Nat.ltb_lt in Em'.
  assert (forall s' t (u : bool), assigns s' tbl t -> (tasks_started s' = total_tasks s' -> u = true) ->
    assigns s' tbl t /\ (HasMoreTasks s' = false -> u = true)) as Hlast.
  { intros s' t u Ha Hu. split; [done |]. intros Hm. apply Hu. destruct Ha as (sh & _ & _ & _ & _ & Hinv).
    pose proof (HasMoreTasks_spec s' _ (Hinv 0%nat)) as (Em2 & _ & Hle). rewrite Hm in Em2. symmetry in Em2. apply Nat.ltb_ge in Em2. lia. }
  destruct (next_active_ok (active_groups s) false s tbl H ltac:(done)) as (task & u & s1 & E & (O1 & O2 & O3) & Htask).
  rewrite E. cbn [mbind option_bind]. destruct task as [t |].
  { destruct Htask as [Ha Hu]. exists (Some t), u, s1. split; [done |]. split; [done |]. by apply Hlast. }
  destruct Htask as [H1 Hstuck].
  destruct (next_inactive_ok (length (partition_blocks s1) - next_group s1) u s1 tbl H1 eq_refl) as (task & u2 & s2 & E2 & Htask2).
  exists task, u2, s2. split; [done |]. split; [done |]. destruct task as [t |]; [destruct Htask2; by apply Hlast |].
  destruct Htask2 as [H2 Hrest].
  assert (HasMoreTasks s2 = true) as Em2.
  { destruct (HasMoreTasks_spec s2 tbl H2) as (-> & _ & _). apply Nat.ltb_lt.
    pose proof (inv_started _ _ H). pose proof (inv_started _ _ H2). pose proof (inv_total _ _ H). pose proof (inv_total _ _ H2). lia. }
  split_and!; [done | done |]. intros _. apply (stuck_held s tbl H Em'). intros i Hi.
  apply (inv_blocks _ _ H) in Hi. rewrite <- (take_drop (next_group s) (partition_blocks s)), fmap_app in Hi.
  apply elem_of_app in Hi as [Hi | Hi]; [| apply Hrest; by rewrite O1, O3].
  destruct (get_group i s) as [g |] eqn:Eg.
  - apply Hstuck, (inv_active _ _ H). by rewrite Eg.
  - intros sh Hsh. left. intros id Hid. pose proof (inv_group _ _ H i sh Hsh) as Hc. rewrite Eg in Hc. by rewrite Hc.
Qed.

Lemma assigned_outputs s tbl t : assigns s tbl t -> forall sh j, shape_at (group_idx t) = Some sh ->
  all_outputs (set_status tbl (group_idx t) (task_id sh t) (held j (assigned t))) = all_outputs tbl.
Proof.
  intros (sh & Hi & Hid & Ef & (σ & k & Hk & Eid & Eb) & _) sh' j Hi'. rewrite Hi in Hi'. injection Hi' as <-.
  apply (all_outputs_same tbl _ sh _ _ Hi). rewrite Eid in *. apply row_outputs_same; [done |]. intros _. rewrite Ef. cbn. lia.
Qed.

(** ** Threads *)

Record threads_ok (more : bool) (threads : list Thread) tbl : Prop := {
  threads_held i id j th : (id < group_tasks i)%nat -> tbl i id = held j th -> threads !! j = Some th;
  threads_task j th t : threads !! j = Some th -> task th = Some t ->
    exists sh, shape_at (group_idx t) = Some sh /\ (task_id sh t < 4 * T sh)%nat /\ tbl (group_idx t) (task_id sh t) = held j th;
  threads_idle j th : threads !! j = Some th -> task th = None ->
    match window_pc th with src_loop | src_assign | src_wait | src_blocked | src_done => True | _ => False end;
  threads_busy j th t : threads !! j = Some th -> task th = Some t -> window_pc th <> src_blocked;
  threads_done j th : threads !! j = Some th -> window_pc th = src_done -> more = false
}.

Definition blocked_ok (more : bool) (threads : list Thread) : Prop :=
  forall j th, threads !! j = Some th -> window_pc th = src_blocked -> more = true.

(** A thread that has a task, or that will look for one. *)
Definition looking th : bool :=
  match task th with
  | Some _ => true
  | None => match window_pc th with src_loop | src_assign => true | _ => false end
  end.

Definition someone (more : bool) (threads : list Thread) : Prop :=
  more = true -> exists j th, threads !! j = Some th /\ looking th = true.

(** The tasks of the other threads. *)
Lemma threads_replace (more more' : bool) threads tbl tbl' j th th' :
  threads_ok more threads tbl -> threads !! j = Some th ->
  (forall i id j' th0, (id < group_tasks i)%nat -> tbl' i id = held j' th0 ->
    (j' <> j /\ tbl i id = held j' th0) \/ (j' = j /\ th0 = th')) ->
  (forall t', task th' = Some t' -> window_pc th' <> src_blocked /\
    exists sh, shape_at (group_idx t') = Some sh /\ (task_id sh t' < 4 * T sh)%nat /\ tbl' (group_idx t') (task_id sh t') = held j th') ->
  (forall i id j' th0, (id < group_tasks i)%nat -> j' <> j -> tbl i id = held j' th0 -> tbl' i id = held j' th0) ->
  (task th' = None -> match window_pc th' with src_loop | src_assign | src_wait | src_blocked | src_done => True | _ => False end) ->
  (window_pc th' = src_done -> more' = false) -> (more' = true -> more = true) ->
  threads_ok more' (<[j := th']> threads) tbl'.
Proof.
  intros [K1 K2 K3 K4 K5] Hj H1 H2 H3 H4 H5 H6. assert (j < length threads)%nat as Hlt by (by eapply lookup_lt_Some).
  split.
  - intros i id j' th0 Hid E. destruct (H1 _ _ _ _ Hid E) as [[Hne E'] | [-> ->]].
    + rewrite list_lookup_insert_ne by done. by eapply K1.
    + by apply list_lookup_insert_eq.
  - intros j' th0 t E Et. destruct (decide (j' = j)) as [-> | Hne].
    + rewrite list_lookup_insert_eq in E by done. injection E as <-. by apply H2.
    + rewrite list_lookup_insert_ne in E by done. destruct (K2 _ _ _ E Et) as (sh & Hi & Hid & E'). exists sh. split_and!; [done | done |].
      apply H3; [unfold group_tasks; by rewrite Hi | done | done].
  - intros j' th0 E Et. destruct (decide (j' = j)) as [-> | Hne].
    + rewrite list_lookup_insert_eq in E by done. injection E as <-. by apply H4.
    + rewrite list_lookup_insert_ne in E by done. by eapply K3.
  - intros j' th0 t E Et. destruct (decide (j' = j)) as [-> | Hne].
    + rewrite list_lookup_insert_eq in E by done. injection E as <-. by eapply H2.
    + rewrite list_lookup_insert_ne in E by done. by eapply K4.
  - intros j' th0 E Ed. destruct (decide (j' = j)) as [-> | Hne].
    + rewrite list_lookup_insert_eq in E by done. injection E as <-. by apply H5.
    + rewrite list_lookup_insert_ne in E by done. specialize (K5 _ _ E Ed). destruct more'; [| done]. by rewrite H6 in K5.
Qed.

Lemma unblock_task th : task (unblock_thread th) = task th.
Proof. unfold unblock_thread. by destruct (window_pc th). Qed.

Lemma unblock_busy th : window_pc th <> src_blocked -> unblock_thread th = th.
Proof. unfold unblock_thread. by destruct (window_pc th). Qed.

Lemma unblock_not_blocked th : window_pc (unblock_thread th) <> src_blocked.
Proof. unfold unblock_thread. by destruct (window_pc th) eqn:E; cbn; rewrite ?E. Qed.

Lemma unblock_looking th : looking th = true -> looking (unblock_thread th) = true.
Proof. unfold looking. rewrite unblock_task. destruct (task th); [done |]. unfold unblock_thread. by destruct (window_pc th) eqn:E; cbn; rewrite ?E. Qed.

Lemma held_task s tbl i id j th :
  global_inv s tbl -> (id < group_tasks i)%nat -> tbl i id = held j th -> exists t, task th = Some t.
Proof.
  intros H Hid E. unfold group_tasks in Hid. destruct (shape_at i) as [sh |] eqn:Hi; [| lia].
  destruct (held_info s tbl i sh id j th H Hi Hid E) as (g & t & σ & k & _ & _ & Et & _). by exists t.
Qed.

Lemma threads_unblock s more threads tbl : global_inv s tbl -> threads_ok more threads tbl -> threads_ok more (unblock_thread <$> threads) tbl.
Proof.
  intros Hinv [K1 K2 K3 K4 K5].
  assert (forall j th t, threads !! j = Some th -> task th = Some t -> unblock_thread th = th) as Hbusy
    by (intros j th t E Et; by eapply unblock_busy, K4).
  split.
  - intros i id j th Hid E. rewrite list_lookup_fmap, (K1 _ _ _ _ Hid E). cbn. f_equal.
    destruct (held_task s tbl i id j th Hinv Hid E) as [t Et]. eapply Hbusy; [by eapply K1 | done].
  - intros j th t E Et. rewrite list_lookup_fmap in E. destruct (threads !! j) as [th0 |] eqn:E0; [| done]. injection E as <-.
    rewrite unblock_task in Et. rewrite (Hbusy _ _ _ E0 Et). by eapply K2.
  - intros j th E Et. rewrite list_lookup_fmap in E. destruct (threads !! j) as [th0 |] eqn:E0; [| done]. injection E as <-.
    rewrite unblock_task in Et. specialize (K3 _ _ E0 Et). unfold unblock_thread. by destruct (window_pc th0) eqn:Ep; cbn; rewrite ?Ep.
  - intros j th t E Et. rewrite list_lookup_fmap in E. destruct (threads !! j) as [th0 |] eqn:E0; [| done]. injection E as <-.
    apply unblock_not_blocked.
  - intros j th E Ed. rewrite list_lookup_fmap in E. destruct (threads !! j) as [th0 |] eqn:E0; [| done]. injection E as <-.
    apply (K5 _ _ E0). unfold unblock_thread in Ed. by destruct (window_pc th0) eqn:Ep; cbn in Ed; rewrite ?Ep in Ed.
Qed.

(** ** The system *)

Abbreviation System := (WindowSystem V G L Res).
Abbreviation window_step := (window_step distinct_from executors config).
Abbreviation system_step := (window_system_step distinct_from executors config).
Implicit Types (sys : System).

Record system_inv sys tbl : Prop := {
  sys_global : global_inv (source_global sys) tbl;
  sys_threads : threads_ok (HasMoreTasks (source_global sys)) (source_threads sys) tbl;
  sys_blocked : blocked_ok (HasMoreTasks (source_global sys)) (source_threads sys);
  sys_someone : someone (HasMoreTasks (source_global sys)) (source_threads sys);
  sys_output : source_output sys ≡ₚ all_outputs tbl
}.

Definition table_work tbl : Z :=
  task_sum (fun i st => match shape_at i with Some sh => Z.of_nat (work sh st) | None => 0 end) tbl.

(** A step of a thread that changes no task. *)
Definition quiet s tbl th th' : Prop :=
  match task th with
  | Some _ => window_pc th = src_done /\ th' = th
  | None => task th' = None /\
      match window_pc th with
      | src_loop => window_pc th' = if HasUnfinishedTasks s then src_assign else src_done
      | src_assign => window_pc th' = src_wait /\
          (HasMoreTasks s = true -> exists i id j th, (id < group_tasks i)%nat /\ tbl i id = held j th)
      | src_wait => window_pc th' = if HasMoreTasks s then src_blocked else src_done
      | pc => window_pc th' = pc
      end
  end.

(** What happens to the threads. *)
Definition threads_after (j : nat) th' (u : bool) sys sys' : Prop :=
  source_threads sys' = (if u then unblock_thread <$> <[j := th']> (source_threads sys) else <[j := th']> (source_threads sys)).

Lemma system_update sys tbl j th s' th' u out tbl' :
  system_inv sys tbl -> source_threads sys !! j = Some th ->
  window_step (source_global sys) th = Some (s', th', u, out) ->
  global_inv s' tbl' -> threads_ok (HasMoreTasks s') (<[j := th']> (source_threads sys)) tbl' ->
  someone (HasMoreTasks s') (<[j := th']> (source_threads sys)) ->
  (HasMoreTasks (source_global sys) = true -> HasMoreTasks s' = false -> u = true) ->
  (window_pc th' = src_blocked -> HasMoreTasks s' = true) ->
  all_outputs tbl' ≡ₚ all_outputs tbl ++ option_list out ->
  exists sys', system_step sys j = Some sys' /\ system_inv sys' tbl' /\ threads_after j th' u sys sys' /\ source_global sys' = s'.
Proof.
  intros [S1 S2 S3 S4 S5] Hj E Hinv Hth Hsome Hu Hb Hout. unfold window_system_step. rewrite Hj. cbn [mbind option_bind]. rewrite E.
  cbn [mbind option_bind]. eexists. split; [reflexivity |]. split; [| done].
  split; cbn [source_global source_threads source_output]; [done | | | |].
  - destruct u; [by eapply threads_unblock | done].
  - intros j' th0 E0 Ep. destruct u.
    + rewrite list_lookup_fmap in E0. destruct (_ !! j') as [th1 |] in E0; [| done]. injection E0 as <-. by apply unblock_not_blocked in Ep.
    + destruct (decide (j' = j)) as [-> | Hne].
      * rewrite list_lookup_insert_eq in E0 by (by eapply lookup_lt_Some). injection E0 as <-. by apply Hb.
      * rewrite list_lookup_insert_ne in E0 by done. specialize (S3 _ _ E0 Ep). destruct (HasMoreTasks s'); [done |]. by specialize (Hu S3 eq_refl).
  - intros Hm. destruct (Hsome Hm) as (j' & th0 & E0 & Hl). destruct u; [| by exists j', th0].
    exists j', (unblock_thread th0). rewrite list_lookup_fmap, E0. split; [done | by apply unblock_looking].
  - by rewrite S5.
Qed.

(** The thread leaves the source only when nothing is left for it. *)
Lemma step_done s th s' th' u out :
  window_step s th = Some (s', th', u, out) -> window_pc th' = src_done ->
  match window_pc th with
  | src_loop => HasUnfinishedTasks s = false
  | src_wait => HasMoreTasks s = false
  | src_done => True
  | _ => False
  end.
Proof.
  unfold WindowSource.window_step. intros E Hd. destruct (window_pc th) as [| | | | | | [| call calls] | | | size | | | | | | | |] eqn:Hpc;
    try (repeat match goal with
         | H : (_ ≫= _) = Some _ |- _ => apply bind_Some in H as (? & ? & H)
         | H : (match ?x with _ => _ end) = Some _ |- _ => destruct x
         | H : Some _ = Some _ |- _ => injection H as <- <- <- <-
         end; cbn in Hd; repeat match type of Hd with context [match ?x with _ => _ end] => destruct x end; congruence).
  done.
Qed.

Lemma someone_move (more : bool) threads j th' :
  (j < length threads)%nat -> looking th' = true -> someone more (<[j := th']> threads).
Proof. intros Hj Hl _. exists j, th'. split; [by apply list_lookup_insert_eq | done]. Qed.

Lemma HasMore_same s s' : tasks_started s' = tasks_started s -> total_tasks s' = total_tasks s -> stopped s' = stopped s ->
  HasMoreTasks s' = HasMoreTasks s.
Proof. unfold HasMoreTasks. by intros -> -> ->. Qed.

Lemma counted_le st : counted st <= 1.
Proof. unfold counted. destruct st as [| j th |]; [lia | | lia]. destruct (window_pc th), (TaskFinished (task th)); lia. Qed.

(** A step inside a task. *)
Lemma busy_step sys tbl j th t :
  system_inv sys tbl -> source_threads sys !! j = Some th -> task th = Some t ->
  window_pc th <> src_assign -> window_pc th <> src_done ->
  exists sys' tbl' th' u, system_step sys j = Some sys' /\ system_inv sys' tbl' /\ threads_after j th' u sys sys' /\
    table_work tbl' < table_work tbl.
Proof.
  intros H Hj Et Hna Hnd. pose proof H as [S1 S2 S3 S4 S5]. set (s := source_global sys) in *.
  destruct (threads_task _ _ _ S2 j th t Hj Et) as (sh & Hi & Hid & Erow).
  destruct (held_info _ _ _ _ _ _ _ S1 Hi Hid Erow) as (g & t' & σ & k & Hg & Hok & Et' & _ & _ & Hth & Hσ & Hk & Eid & Hnp).
  rewrite Et in Et'. injection Et' as <-. rewrite Eid in *. set (i := group_idx t) in *.
  assert (σ * T sh + k < group_tasks i)%nat as Hid' by (unfold group_tasks; by rewrite Hi).
  pose proof (HasMoreTasks_spec s tbl S1) as (Hmore & Hunf & Hle).
  destruct (task_step distinct_from executors config suitable expected i sh g (tbl i) σ k j th t (Hshapes i sh Hi) Hok Hσ Hk Erow Et s Hg Hna Hnd)
    as (g' & th' & n & out & E & Hok' & Hn & Hout & Hwork & t' & Et').
  { intros Hpc Hlt. rewrite Hunf. apply Nat.ltb_lt. apply Nat2Z.inj_lt. rewrite (inv_finished _ _ S1), (inv_total _ _ S1).
    destruct (Z.lt_ge_cases (task_sum (fun _ => counted) tbl) (task_sum (fun _ _ => 1) tbl)) as [? | Hge]; [done | exfalso].
    pose proof (zsum_le_eq (fun p => counted (tbl (fst p) (snd p))) (fun _ => 1) all_tasks) as Heq.
    specialize (Heq ltac:(intros p _; apply counted_le) Hge
      (i, (σ * T sh + k)%nat) ltac:(by apply elem_of_all_tasks)). cbn [fst snd] in Heq. rewrite Erow in Heq. cbn [counted] in Heq.
    rewrite Hpc, Et in Heq. cbn [TaskFinished] in Heq. rewrite (proj2 (Nat.eqb_neq _ _)) in Heq by lia. done. }
  set (tbl' := set_status tbl i (σ * T sh + k)%nat (held j th')).
  assert (global_inv (add_tasks 0 n 0 (set_group i (Some g') s)) tbl') as Hinv'.
  { apply (global_inv_update s tbl i sh g g' (σ * T sh + k)%nat (held j th') 0 n); try done; by rewrite Erow. }
  assert (HasMoreTasks (add_tasks 0 n 0 (set_group i (Some g') s)) = HasMoreTasks s) as Em
    by (apply HasMore_same; cbn; [lia | done | done]).
  destruct (group_held _ _ _ _ _ _ _ _ _ Hok' (σ * T sh + k)%nat j th' Hid ltac:(apply fn_lookup_insert)) as (t'' & Et'' & Eg'' & Eid'' & Hth').
  assert (window_pc th' <> src_blocked) as Hnb by (intros Ep; pose proof (thread_pc _ _ _ _ Hth') as Hp; by rewrite Ep in Hp).
  destruct (system_update sys tbl j th _ th' false out tbl' H Hj E Hinv') as (sys' & Esys & Hsys & Hafter & _).
  - rewrite Em. apply (threads_replace (HasMoreTasks s) _ _ tbl _ j th th' S2 Hj).
    + intros i' id' j' th0 Hid0 E0. unfold tbl' in E0. destruct (decide ((i', id') = (i, (σ * T sh + k)%nat))) as [[= -> ->] | Hne].
      * rewrite set_status_same in E0. injection E0 as <- <-. by right.
      * rewrite set_status_other in E0 by done. left. split; [| done]. intros ->.
        pose proof (threads_held _ _ _ S2 _ _ _ _ Hid0 E0) as Ej. rewrite Hj in Ej. injection Ej as <-.
        unfold group_tasks in Hid0. destruct (shape_at i') as [sh' |] eqn:Hi'; [| lia].
        destruct (held_info _ _ _ _ _ _ _ S1 Hi' Hid0 E0) as (_ & t2 & _ & _ & _ & _ & Et2 & Eg2 & Eid2 & _).
        rewrite Et in Et2. injection Et2 as <-. subst i'. fold i in Hi'. rewrite Hi in Hi'. injection Hi' as <-. apply Hne. by rewrite <- Eid2, Eid.
    + intros t2 Et2. rewrite Et'' in Et2. injection Et2 as <-. split; [done |]. exists sh. rewrite Eg'', Eid''. split_and!; [done | done |].
      apply set_status_same.
    + intros i' id' j' th0 Hid0 Hne E0. unfold tbl'. rewrite set_status_other; [done |]. intros [= -> ->]. rewrite Erow in E0. by injection E0 as <-.
    + by rewrite Et'.
    + intros Ed. pose proof (step_done _ _ _ _ _ _ E Ed) as Hd. rewrite Hmore. apply Nat.ltb_ge.
      pose proof (thread_pc _ _ _ _ Hth) as Hp. destruct (window_pc th); try done. rewrite Hunf in Hd. apply Nat.ltb_ge in Hd. lia.
    + done.
  - rewrite Em. apply someone_move; [by eapply lookup_lt_Some |]. unfold looking. by rewrite Et'.
  - fold s. rewrite Em. by intros ->.
  - done.
  - by eapply all_outputs_update.
  - exists sys', tbl', th', false. split_and!; [done | done | done |]. unfold table_work, tbl'. rewrite task_sum_update, Hi, Erow by done. lia.
Qed.

(** *** The step that assigns a task *)

Lemma HasMore_started s s' tbl tbl' :
  global_inv s tbl -> global_inv s' tbl' ->
  task_sum (fun _ => started_count) tbl' = task_sum (fun _ => started_count) tbl -> HasMoreTasks s' = HasMoreTasks s.
Proof.
  intros H H' E. destruct (HasMoreTasks_spec s tbl H) as (-> & _ & _). destruct (HasMoreTasks_spec s' tbl' H') as (-> & _ & _).
  assert (tasks_started s' = tasks_started s) as -> by (apply Nat2Z.inj; by rewrite (inv_started _ _ H), (inv_started _ _ H'), E).
  assert (total_tasks s' = total_tasks s) as -> by (apply Nat2Z.inj; by rewrite (inv_total _ _ H), (inv_total _ _ H')). done.
Qed.

Lemma table_work_update tbl i sh id st :
  shape_at i = Some sh -> (id < 4 * T sh)%nat ->
  table_work (set_status tbl i id st) = table_work tbl + Z.of_nat (work sh st) - Z.of_nat (work sh (tbl i id)).
Proof.
  intros Hi Hid. unfold table_work. rewrite task_sum_update by (unfold group_tasks; by rewrite Hi). by rewrite Hi.
Qed.

(** After the end of the old task: its thread holds nothing. *)
Record released s tbl s1 tbl1 (j : nat) th : Prop := {
  rel_global : global_inv s1 tbl1;
  rel_other i id j' th0 : (id < group_tasks i)%nat -> tbl1 i id = held j' th0 -> j' <> j /\ tbl i id = held j' th0;
  rel_same i id j' th0 : (id < group_tasks i)%nat -> j' <> j -> tbl i id = held j' th0 -> tbl1 i id = held j' th0;
  rel_more : HasMoreTasks s1 = HasMoreTasks s;
  rel_outputs : all_outputs tbl1 = all_outputs tbl;
  rel_work : match task th with Some _ => table_work tbl1 < table_work tbl | None => s1 = s /\ tbl1 = tbl end
}.

Lemma TryAssignTask_unfold s ot :
  TryAssignTask s ot = if negb (TaskFinished ot) then None else
    s ← match ot with Some t => (s ← release_group t s; FinishTask (Some t) s) | None => Some s end;
    if negb (HasMoreTasks s) then Some (None, false, s)
    else
      '(task, unblock, s) ← next_active (active_groups s) false s;
      match task with
      | Some task => Some (Some task, unblock, s)
      | None => next_inactive (length (partition_blocks s) - next_group s) unblock s
      end.
Proof.
  unfold TryAssignTask, TryNextTask, release_group. destruct (negb (TaskFinished ot)); [done |]. destruct ot as [t |]; [| done].
  case_decide; [| done]. by destruct (with_group t s _).
Qed.

Lemma release_ok sys tbl j th :
  system_inv sys tbl -> source_threads sys !! j = Some th -> window_pc th = src_assign ->
  exists s1 tbl1, TaskFinished (task th) = true /\
    match task th with Some t => (s ← release_group t (source_global sys); FinishTask (Some t) s) | None => Some (source_global sys) end = Some s1 /\
    released (source_global sys) tbl s1 tbl1 j th.
Proof.
  intros [S1 S2 S3 S4 S5] Hj Hpc. set (s := source_global sys) in *.
  assert (forall i id th0, (id < group_tasks i)%nat -> tbl i id = held j th0 -> th0 = th /\ exists t, task th = Some t /\ group_idx t = i /\
    forall sh, shape_at i = Some sh -> task_id sh t = id) as Hown.
  { intros i id th0 Hid E. pose proof (threads_held _ _ _ S2 _ _ _ _ Hid E) as Ej. rewrite Hj in Ej. injection Ej as <-. split; [done |].
    pose proof Hid as Hid'. unfold group_tasks in Hid'. destruct (shape_at i) as [sh |] eqn:Hi; [| lia].
    destruct (held_info _ _ _ _ _ _ _ S1 Hi Hid' E) as (_ & t & _ & _ & _ & _ & Et & Eg & Eid & _). exists t. split_and!; [done | done |].
    by intros ? [= <-]. }
  destruct (task th) as [t |] eqn:Et.
  - destruct (threads_task _ _ _ S2 j th t Hj Et) as (sh & Hi & Hid & Erow).
    destruct (FinishTask_ok s tbl (group_idx t) sh (task_id sh t) j th t S1 Hi Hid Erow Et Hpc) as (s1 & E & Hinv & Hfin & Hout).
    exists s1, (set_status tbl (group_idx t) (task_id sh t) complete). split_and!; [done | done |].
    assert (task_id sh t < group_tasks (group_idx t))%nat as Hid' by (unfold group_tasks; by rewrite Hi).
    split; [done | | | | done |].
    + intros i' id' j' th0 Hid0 E0. destruct (decide ((i', id') = (group_idx t, task_id sh t))) as [[= -> ->] | Hne].
      { by rewrite set_status_same in E0. }
      rewrite set_status_other in E0 by done. split; [| done]. intros ->.
      destruct (Hown _ _ _ Hid0 E0) as (_ & t2 & [= <-] & <- & Eid2). by rewrite (Eid2 sh Hi) in Hne.
    + intros i' id' j' th0 Hid0 Hne E0. rewrite set_status_other; [done |]. intros [= -> ->]. rewrite Erow in E0. by injection E0 as <-.
    + apply (HasMore_started s s1 tbl _ S1 Hinv). rewrite task_sum_update, Erow by done. cbn. lia.
    + rewrite Et, (table_work_update _ _ sh) by done. rewrite Erow. cbn [work]. rewrite Hpc. lia.
  - exists s, tbl. split_and!; [done | done |]. split; [done | | done | done | done | by rewrite Et].
    intros i id j' th0 Hid E. split; [| done]. intros ->. destruct (Hown _ _ _ Hid E) as (_ & t & [=] & _).
Qed.

Lemma assign_step sys tbl j th :
  system_inv sys tbl -> source_threads sys !! j = Some th -> window_pc th = src_assign ->
  exists sys' tbl' th' u, system_step sys j = Some sys' /\ system_inv sys' tbl' /\ threads_after j th' u sys sys' /\
    (table_work tbl' < table_work tbl \/
     tbl' = tbl /\ quiet (source_global sys) tbl th th' /\ HasMoreTasks (source_global sys') = HasMoreTasks (source_global sys)).
Proof.
  intros H Hj Hpc. destruct (release_ok sys tbl j th H Hj Hpc) as (s1 & tbl1 & Hfin & E1 & R). pose proof H as [S1 S2 S3 S4 S5].
  set (s := source_global sys) in *. destruct R as [R1 R2 R3 R4 R5 R6].
  destruct (next_task_ok s1 tbl1 R1) as (ot & u & s' & E & Hmono & Hot).
  set (th' := {| window_pc := match ot with Some _ => src_execute | None => (src_wait : WindowPc V) end; task := ot; scanner := None |}).
  assert (window_step s th = Some (s', th', u, None)) as Estep.
  { unfold WindowSource.window_step. rewrite Hpc, TryAssignTask_unfold, Hfin. cbn [negb]. rewrite E1. cbn [mbind option_bind].
    rewrite E. done. }
  assert (j < length (source_threads sys))%nat as Hlt by (by eapply lookup_lt_Some).
  destruct ot as [t |].
  - destruct Hot as [Ha Hu]. pose proof (assigned_outputs s' tbl1 t Ha) as Hout.
    destruct Ha as (sh & Hi & Hid & Ef & (σ & k & Hk & Eid & Eb) & Hinv). specialize (Hinv j). specialize (Hout sh j Hi).
    assert (th' = assigned t) as Eth by done. rewrite <- Eth in *.
    set (tbl' := set_status tbl1 (group_idx t) (task_id sh t) (held j th')) in *.
    assert (task_id sh t < group_tasks (group_idx t))%nat as Hid' by (unfold group_tasks; by rewrite Hi).
    destruct (held_info s' tbl' (group_idx t) sh (task_id sh t) j th' Hinv Hi Hid ltac:(apply set_status_same))
      as (_ & t2 & _ & _ & _ & _ & Et2 & _ & _ & Hth & _). injection Et2 as <-.
    destruct (system_update sys tbl j th s' th' u None tbl' H Hj Estep Hinv) as (sys' & Esys & Hsys & Hafter & Es').
    + apply (threads_replace (HasMoreTasks s) _ _ tbl _ j th th' S2 Hj); [| | | done | done | by rewrite <- R4].
      * intros i' id' j' th0 Hid0 E0. unfold tbl' in E0. destruct (decide ((i', id') = (group_idx t, task_id sh t))) as [[= -> ->] | Hne].
        { rewrite set_status_same in E0. injection E0 as <- <-. by right. }
        rewrite set_status_other in E0 by done. left. by apply R2.
      * intros t' [= <-]. split; [done |]. exists sh. split_and!; [done | done | apply set_status_same].
      * intros i' id' j' th0 Hid0 Hne E0. pose proof (R3 _ _ _ _ Hid0 Hne E0) as E0'. unfold tbl'. rewrite set_status_other; [done |].
        intros [= -> ->]. by rewrite Ef in E0'.
    + by apply someone_move.
    + intros _. by apply Hu.
    + done.
    + by rewrite Hout, R5, app_nil_r.
    + exists sys', tbl', th', u. split_and!; [done | done | done |]. left.
      unfold tbl'. rewrite (table_work_update _ _ sh), Ef by done.
      assert (table_work tbl1 <= table_work tbl) by (destruct (task th); [lia | by destruct R6 as [_ ->]]).
      pose proof (thread_end _ _ _ _ Hth) as He. pose proof (thread_begin _ _ _ _ Hth) as Hbe.
      assert (end_idx t <= sblocks sh)%nat by (rewrite He; unfold range_end; lia).
      unfold th'. cbn [work window_pc task remaining]. case_decide; lia.
  - destruct Hot as (Hinv & Em & Hheld).
    destruct (system_update sys tbl j th s' th' u None tbl1 H Hj Estep Hinv) as (sys' & Esys & Hsys & Hafter & Es').
    + apply (threads_replace (HasMoreTasks s) _ _ tbl _ j th th' S2 Hj); [| done | done | done | done | by rewrite <- R4].
      intros i' id' j' th0 Hid0 E0. left. by apply R2.
    + intros Hm. rewrite Em in Hm. destruct (Hheld Hm) as (i & id & j' & th0 & Hid & E0). destruct (R2 _ _ _ _ Hid E0) as [Hne E0'].
      exists j', th0. rewrite list_lookup_insert_ne by done. split; [by eapply threads_held |].
      destruct (held_task s1 tbl1 i id j' th0 R1 Hid E0) as [t0 Et0]. unfold looking. by rewrite Et0.
    + fold s. rewrite Em, R4. by intros ->.
    + done.
    + by rewrite R5, app_nil_r.
    + exists sys', tbl1, th', u. split_and!; [done | done | done |]. unfold quiet. destruct (task th) as [t |]; [by left | right].
      destruct R6 as [-> ->]. split_and!; [done | done | by rewrite Hpc | by rewrite Es'].
Qed.

(** *** Steps of threads without a task *)

Lemma done_or_not th : window_pc th = src_done \/ window_pc th <> src_done.
Proof. destruct (window_pc th); (by left) || (by right). Qed.

Lemma assign_or_not th : window_pc th = src_assign \/ window_pc th <> src_assign.
Proof. destruct (window_pc th); (by left) || (by right). Qed.

Lemma same_table_step sys tbl j th th' u :
  system_inv sys tbl -> source_threads sys !! j = Some th ->
  window_step (source_global sys) th = Some (source_global sys, th', u, None) ->
  th' = th \/ task th = None /\ task th' = None ->
  match window_pc th' with src_loop | src_assign | src_wait | src_blocked | src_done => True | _ => False end ->
  (window_pc th' = src_done -> HasMoreTasks (source_global sys) = false) ->
  (window_pc th' = src_blocked -> HasMoreTasks (source_global sys) = true) ->
  (looking th = true -> HasMoreTasks (source_global sys) = true -> looking th' = true) ->
  exists sys', system_step sys j = Some sys' /\ system_inv sys' tbl /\ threads_after j th' u sys sys' /\
    source_global sys' = source_global sys.
Proof.
  intros H Hj E Hth Hpc Hd Hb Hl. pose proof H as [S1 S2 S3 S4 S5]. set (s := source_global sys) in *.
  assert (j < length (source_threads sys))%nat as Hlt by (by eapply lookup_lt_Some).
  apply (system_update sys tbl j th s th' u None tbl H Hj E S1).
  - destruct Hth as [-> | [Et Et']]; [by rewrite list_insert_id |].
    apply (threads_replace (HasMoreTasks s) _ _ tbl _ j th th' S2 Hj); [| by rewrite Et' | done | done | done | done].
    intros i id j' th0 Hid E0. left. split; [| done]. intros ->. pose proof (threads_held _ _ _ S2 _ _ _ _ Hid E0) as Ej. rewrite Hj in Ej.
    injection Ej as <-. destruct (held_task s tbl i id j th S1 Hid E0) as [t Ht]. by rewrite Et in Ht.
  - intros Hm. destruct (S4 Hm) as (j' & th0 & E0 & Hl0). destruct (decide (j' = j)) as [-> | Hne].
    + rewrite Hj in E0. injection E0 as <-. exists j, th'. split; [by apply list_lookup_insert_eq | by apply Hl].
    + exists j', th0. by rewrite list_lookup_insert_ne.
  - fold s. by intros ->.
  - done.
  - by rewrite app_nil_r.
Qed.

Lemma source_idle_step sys tbl j th :
  system_inv sys tbl -> source_threads sys !! j = Some th -> window_pc th <> src_assign -> task th = None \/ window_pc th = src_done ->
  exists sys' th' u, system_step sys j = Some sys' /\ system_inv sys' tbl /\ threads_after j th' u sys sys' /\
    quiet (source_global sys) tbl th th' /\ source_global sys' = source_global sys.
Proof.
  intros H Hj Hna Hidle. pose proof H as [S1 S2 S3 S4 S5]. set (s := source_global sys) in *.
  destruct (HasMoreTasks_spec s tbl S1) as (Hmore & Hunf & Hle).
  destruct (done_or_not th) as [Hd | Hnd].
  { destruct (same_table_step sys tbl j th th false H Hj) as (sys' & E & Hinv & Ha & Es).
    - unfold WindowSource.window_step. by rewrite Hd.
    - by left.
    - by rewrite Hd.
    - intros _. by eapply threads_done.
    - by rewrite Hd.
    - done.
    - exists sys', th, false. split_and!; try done. unfold quiet. destruct (task th) eqn:Et; [by split |]. by rewrite Hd. }
  destruct Hidle as [Et |]; [| done]. pose proof (threads_idle _ _ _ S2 j th Hj Et) as Hp.
  destruct (window_pc th) eqn:Hpc; try done.
  - set (th' := {| window_pc := if HasUnfinishedTasks s then (src_assign : WindowPc V) else src_done; task := task th; scanner := scanner th |}).
    destruct (same_table_step sys tbl j th th' false H Hj) as (sys' & E & Hinv & Ha & Es).
    + unfold WindowSource.window_step. rewrite Hpc. fold s. unfold th'. by destruct (HasUnfinishedTasks s); rewrite ?Et.
    + by right.
    + cbn. by destruct (HasUnfinishedTasks s).
    + cbn. fold s. rewrite Hmore, Hunf. destruct (Nat.ltb_spec (tasks_finished s) (total_tasks s)); [done |]. intros _. apply Nat.ltb_ge. lia.
    + cbn. by destruct (HasUnfinishedTasks s).
    + intros _ Hm. fold s in Hm. rewrite Hmore in Hm. apply Nat.ltb_lt in Hm. unfold looking, th'. cbn. rewrite Et, Hunf.
      by rewrite (proj2 (Nat.ltb_lt _ _)) by lia.
    + exists sys', th', false. split_and!; try done. unfold quiet. by rewrite Et, Hpc.
  - set (th' := {| window_pc := if HasMoreTasks s then (src_blocked : WindowPc V) else src_done; task := task th; scanner := scanner th |}).
    destruct (same_table_step sys tbl j th th' (negb (HasMoreTasks s)) H Hj) as (sys' & E & Hinv & Ha & Es).
    + unfold WindowSource.window_step. rewrite Hpc. fold s. unfold th'. by destruct (HasMoreTasks s).
    + by right.
    + cbn. by destruct (HasMoreTasks s).
    + cbn. fold s. by destruct (HasMoreTasks s).
    + cbn. fold s. by destruct (HasMoreTasks s).
    + intros Hl. unfold looking in Hl. by rewrite Et, Hpc in Hl.
    + exists sys', th', (negb (HasMoreTasks s)). split_and!; try done. unfold quiet. by rewrite Et, Hpc.
  - destruct (same_table_step sys tbl j th th false H Hj) as (sys' & E & Hinv & Ha & Es).
    + unfold WindowSource.window_step. by rewrite Hpc.
    + by left.
    + by rewrite Hpc.
    + by rewrite Hpc.
    + intros _. by eapply S3.
    + done.
    + exists sys', th, false. split_and!; try done. unfold quiet. by rewrite Et, Hpc.
Qed.

(** Every step of every thread. *)
Lemma window_system_step_ok sys tbl j :
  system_inv sys tbl -> (j < length (source_threads sys))%nat ->
  exists sys' tbl' th th' u, system_step sys j = Some sys' /\ source_threads sys !! j = Some th /\ system_inv sys' tbl' /\
    threads_after j th' u sys sys' /\
    (table_work tbl' < table_work tbl \/
     tbl' = tbl /\ quiet (source_global sys) tbl th th' /\ HasMoreTasks (source_global sys') = HasMoreTasks (source_global sys) /\
     HasUnfinishedTasks (source_global sys') = HasUnfinishedTasks (source_global sys)).
Proof.
  intros H Hj. destruct (lookup_lt_is_Some_2 _ _ Hj) as [th Eth].
  assert (forall sys' s' tbl', global_inv (source_global sys') tbl -> s' = source_global sys' -> tbl' = tbl ->
    HasUnfinishedTasks s' = HasUnfinishedTasks (source_global sys)) as Hunf.
  { intros sys' s' tbl' H' -> ->. destruct (HasMoreTasks_spec _ _ H') as (_ & -> & _).
    destruct (HasMoreTasks_spec _ _ (sys_global _ _ H)) as (_ & -> & _).
    assert (tasks_finished (source_global sys') = tasks_finished (source_global sys)) as ->
      by (apply Nat2Z.inj; by rewrite (inv_finished _ _ H'), (inv_finished _ _ (sys_global _ _ H))).
    assert (total_tasks (source_global sys') = total_tasks (source_global sys)) as ->
      by (apply Nat2Z.inj; by rewrite (inv_total _ _ H'), (inv_total _ _ (sys_global _ _ H))). done. }
  destruct (assign_or_not th) as [Hpc | Hna].
  { destruct (assign_step sys tbl j th H Eth Hpc) as (sys' & tbl' & th' & u & E & Hinv & Ha & Hw).
    exists sys', tbl', th, th', u. split_and!; try done. destruct Hw as [? | (-> & ? & ?)]; [by left | right].
    split_and!; try done. eapply Hunf; [apply Hinv | done | done]. }
  destruct (task th) as [t |] eqn:Et.
  - destruct (done_or_not th) as [Hd | Hnd].
    + destruct (source_idle_step sys tbl j th H Eth Hna (or_intror Hd)) as (sys' & th' & u & E & Hinv & Ha & Hq & Es).
      exists sys', tbl, th, th', u. split_and!; try done. right. by rewrite Es.
    + destruct (busy_step sys tbl j th t H Eth Et Hna Hnd) as (sys' & tbl' & th' & u & E & Hinv & Ha & Hw).
      exists sys', tbl', th, th', u. split_and!; try done. by left.
  - destruct (source_idle_step sys tbl j th H Eth Hna (or_introl Et)) as (sys' & th' & u & E & Hinv & Ha & Hq & Es).
    exists sys', tbl, th, th', u. split_and!; try done. right. by rewrite Es.
Qed.

Lemma threads_after_length j th' u sys sys' : threads_after j th' u sys sys' -> length (source_threads sys') = length (source_threads sys).
Proof. unfold threads_after. intros ->. destruct u; by rewrite ?length_fmap, length_insert. Qed.

(** Every schedule. *)
Lemma schedule_ok sys tbl schedule :
  system_inv sys tbl -> Forall (fun j => (j < length (source_threads sys))%nat) schedule ->
  exists sys' tbl', ofold system_step sys schedule = Some sys' /\ system_inv sys' tbl' /\
    length (source_threads sys') = length (source_threads sys).
Proof.
  revert sys tbl. induction schedule as [| j schedule IH]; intros sys tbl H Hs; [by exists sys, tbl |].
  apply Forall_cons in Hs as [Hj Hs].
  destruct (window_system_step_ok sys tbl j H Hj) as (sys1 & tbl1 & th & th' & u & E & _ & H1 & Ha & _).
  pose proof (threads_after_length _ _ _ _ _ Ha) as Hl.
  destruct (IH sys1 tbl1 H1) as (sys2 & tbl2 & E2 & H2 & Hl2); [by rewrite Hl |].
  exists sys2, tbl2. rewrite ofold_cons, E. cbn [mbind option_bind]. split_and!; [done | done | congruence].
Qed.

(** ** The result *)

(** The results of all chunks. *)
Definition complete_outputs : list (nat * list (list V * Res)) :=
  mjoin ((fun i => match shape_at i with Some sh => block_output expected sh <$> seq 0 (sblocks sh) | None => [] end) <$> seq 0 (length shapes)).

Definition all_done (threads : list Thread) : Prop := Forall (fun th => window_pc th = src_done) threads.

Lemma fmap_mjoin {A B C} (f : B -> C) (h : A -> list B) l : mjoin ((fun x => f <$> h x) <$> l) = f <$> mjoin (h <$> l).
Proof. induction l as [| x l IH]; [done |]. by rewrite !fmap_cons, !mjoin_cons, IH, fmap_app. Qed.

Lemma row_outputs_all sh row :
  shape_ok sh -> (forall k, (k < T sh)%nat -> done_blocks sh k (row (3 * T sh + k)%nat) = range_width sh k) ->
  row_outputs expected sh row = block_output expected sh <$> seq 0 (sblocks sh).
Proof.
  intros Hsh H. rewrite <- (ranges_all config suitable sh Hsh), <- fmap_mjoin. unfold row_outputs. f_equal. apply list_fmap_ext.
  intros ? k Hk%lookup_seq. cbn beta. by rewrite H by lia.
Qed.

Lemma mjoin_sub {A B} (f f' : A -> list B) l :
  (forall x, x ∈ l -> exists r, f x ++ r ≡ₚ f' x) -> exists r, mjoin (f <$> l) ++ r ≡ₚ mjoin (f' <$> l).
Proof.
  induction l as [| x l IH]; intros H; [by exists [] |]. destruct (H x) as [r Hr]; [by left |].
  destruct IH as [r' Hr']; [intros y Hy; apply H; by right |]. exists (r ++ r').
  rewrite !fmap_cons, !mjoin_cons, <- Hr, <- Hr', <- !app_assoc. f_equiv. rewrite !app_assoc. f_equiv. apply Permutation_app_comm.
Qed.

(** The result so far is part of the whole. *)
Lemma outputs_sub s tbl : global_inv s tbl -> exists rest, all_outputs tbl ++ rest ≡ₚ complete_outputs.
Proof.
  intros H. apply mjoin_sub. intros i _. destruct (shape_at i) as [sh |] eqn:Hi; [| by exists []].
  pose proof (Hshapes i sh Hi) as Hsh. rewrite <- (ranges_all config suitable sh Hsh), <- fmap_mjoin. unfold row_outputs. apply mjoin_sub.
  intros k Hk%elem_of_seq.
  assert (done_blocks sh k (tbl i (3 * T sh + k)%nat) <= range_width sh k)%nat as Hle.
  { pose proof (inv_group _ _ H i sh Hi) as Hg. destruct (get_group i s) as [g |].
    - apply (done_le config i); [apply (group_held _ _ _ _ _ _ _ _ _ Hg) | lia | lia].
    - rewrite Hg by lia. done. }
  exists (block_output expected sh <$> seq (range_begin sh k + done_blocks sh k (tbl i (3 * T sh + k)%nat)) (range_width sh k - done_blocks sh k (tbl i (3 * T sh + k)%nat))).
  by rewrite <- fmap_app, <- seq_app, Nat.add_sub_assoc, Nat.add_comm, Nat.add_sub by done.
Qed.

(** A thread that is done has finished its task. *)
Lemma done_thread_task sys tbl i sh id j th :
  system_inv sys tbl -> shape_at i = Some sh -> (id < 4 * T sh)%nat -> tbl i id = held j th -> window_pc th = src_done ->
  exists t, task th = Some t /\ begin_idx t = end_idx t /\ end_idx t = range_end sh (thread_idx t) /\ task_id sh t = id /\ (thread_idx t < T sh)%nat.
Proof.
  intros H Hi Hid E Hd. destruct (held_info _ _ _ _ _ _ _ (sys_global _ _ H) Hi Hid E) as (g & t & σ & k & _ & _ & Et & _ & Eid & Hth & _).
  exists t. pose proof (thread_pc _ _ _ _ Hth) as Hp. rewrite Hd in Hp. split_and!; [done | done | apply Hth | done | apply Hth].
Qed.

Lemma final_outputs sys tbl :
  system_inv sys tbl -> (0 < length (source_threads sys))%nat -> all_done (source_threads sys) -> all_outputs tbl = complete_outputs.
Proof.
  intros H Hn Hd. unfold all_done in Hd. rewrite Forall_lookup in Hd. destruct (lookup_lt_is_Some_2 _ _ Hn) as [th0 E0].
  pose proof (threads_done _ _ _ (sys_threads _ _ H) 0 th0 E0 (Hd _ _ E0)) as Hm.
  destruct (HasMoreTasks_spec _ _ (sys_global _ _ H)) as (Hmore & _ & Hle). rewrite Hm in Hmore. symmetry in Hmore. apply Nat.ltb_ge in Hmore.
  unfold all_outputs, complete_outputs. f_equal. apply list_fmap_ext. intros ? i _. destruct (shape_at i) as [sh |] eqn:Hi; [| done].
  apply row_outputs_all; [by eapply Hshapes |]. intros k Hk.
  assert (3 * T sh + k < 4 * T sh)%nat as Hid by lia.
  pose proof (all_started _ _ i (3 * T sh + k)%nat (sys_global _ _ H) ltac:(lia) ltac:(unfold group_tasks; by rewrite Hi)) as Hf.
  destruct (tbl i (3 * T sh + k)%nat) as [| j th |] eqn:E; [done | | done].
  assert (3 * T sh + k < group_tasks i)%nat as Hid' by (unfold group_tasks; by rewrite Hi).
  pose proof (threads_held _ _ _ (sys_threads _ _ H) _ _ _ _ Hid' E) as Ej.
  destruct (done_thread_task sys tbl i sh _ j th H Hi Hid E (Hd _ _ Ej)) as (t & Et & Eb & Ee & Eid & Hlt).
  destruct (task_id_split sh t 3 k Hlt Hk Eid) as [_ Ek]. cbn. rewrite Et, Eb, Ee, Ek. done.
Qed.

(** ** Fair schedules *)

Definition after_step th' th1 : Prop := th1 = th' \/ th1 = unblock_thread th'.

Lemma threads_after_other j th' u sys sys' j' th0 :
  threads_after j th' u sys sys' -> j' <> j -> source_threads sys !! j' = Some th0 ->
  exists th1, source_threads sys' !! j' = Some th1 /\ after_step th0 th1.
Proof.
  unfold threads_after, after_step. intros -> Hne E. destruct u.
  - exists (unblock_thread th0). rewrite list_lookup_fmap, list_lookup_insert_ne, E by done. split; [done | by right].
  - exists th0. rewrite list_lookup_insert_ne by done. split; [done | by left].
Qed.

Lemma threads_after_self j th' u sys sys' :
  threads_after j th' u sys sys' -> (j < length (source_threads sys))%nat ->
  exists th1, source_threads sys' !! j = Some th1 /\ after_step th' th1.
Proof.
  unfold threads_after, after_step. intros -> Hlt. destruct u.
  - exists (unblock_thread th'). rewrite list_lookup_fmap, list_lookup_insert_eq by done. split; [done | by right].
  - exists th'. rewrite list_lookup_insert_eq by done. split; [done | by left].
Qed.

(** What the thread [j] is like before and after it steps, while no task changes. *)
Record moves (more unfinished : bool) tbl (P P' : Thread -> Prop) : Prop := {
  moves_unblock th : P th -> P (unblock_thread th);
  moves_unblock' th : P' th -> P' (unblock_thread th);
  moves_step s th th' : HasMoreTasks s = more -> HasUnfinishedTasks s = unfinished -> quiet s tbl th th' -> P th \/ P' th -> P' th'
}.

Lemma round_ok sys tbl r :
  system_inv sys tbl -> Forall (fun j => (j < length (source_threads sys))%nat) r ->
  exists sys' tbl', ofold system_step sys r = Some sys' /\ system_inv sys' tbl' /\
    length (source_threads sys') = length (source_threads sys) /\
    (table_work tbl' < table_work tbl \/
     tbl' = tbl /\ HasMoreTasks (source_global sys') = HasMoreTasks (source_global sys) /\
     HasUnfinishedTasks (source_global sys') = HasUnfinishedTasks (source_global sys) /\
     forall j th P P', moves (HasMoreTasks (source_global sys)) (HasUnfinishedTasks (source_global sys)) tbl P P' ->
       source_threads sys !! j = Some th -> P th \/ P' th ->
       exists th', source_threads sys' !! j = Some th' /\ (P th' \/ P' th') /\ (j ∈ r \/ P' th -> P' th')).
Proof.
  revert sys tbl. induction r as [| j0 r IH]; intros sys tbl H Hr.
  { exists sys, tbl. split_and!; try done. right. split_and!; try done. intros j th P P' _ E HP. exists th. split_and!; [done | done |].
    by intros [Hj%not_elem_of_nil | ?]. }
  apply Forall_cons in Hr as [Hj0 Hr].
  destruct (window_system_step_ok sys tbl j0 H Hj0) as (sys1 & tbl1 & th0 & th0' & u & E & E0 & H1 & Ha & Hw).
  pose proof (threads_after_length _ _ _ _ _ Ha) as Hl.
  destruct (IH sys1 tbl1 H1) as (sys2 & tbl2 & E2 & H2 & Hl2 & Hw2); [by rewrite Hl |].
  exists sys2, tbl2. rewrite ofold_cons, E. cbn [mbind option_bind]. split_and!; [done | done | congruence |].
  destruct Hw as [Hw | (-> & Hq & Em & Eu)].
  { left. destruct Hw2 as [Hw2 | (-> & _)]; lia. }
  destruct Hw2 as [Hw2 | (-> & Em2 & Eu2 & Hall)]; [by left | right]. split_and!; [done | congruence | congruence |].
  intros j th P P' [M1 M2 M3] Ej HP.
  assert (moves (HasMoreTasks (source_global sys1)) (HasUnfinishedTasks (source_global sys1)) tbl P P') as HM by (split; [done | done | by rewrite Em, Eu]).
  destruct (decide (j = j0)) as [-> | Hne].
  - rewrite E0 in Ej. injection Ej as <-. assert (P' th0') as HP' by (apply (M3 (source_global sys) th0 th0' eq_refl eq_refl Hq HP)).
    destruct (threads_after_self _ _ _ _ _ Ha Hj0) as (th1 & E1 & Hafter).
    assert (P' th1) as HP1 by (destruct Hafter as [-> | ->]; auto).
    destruct (Hall j0 th1 P P' HM E1 (or_intror HP1)) as (th2 & Eth2 & H3 & H4). exists th2. split_and!; [done | done | intros _; apply H4; by right].
  - destruct (threads_after_other _ _ _ _ _ _ _ Ha Hne Ej) as (th1 & E1 & Hafter).
    assert (P th1 \/ P' th1) as HP1 by (destruct Hafter as [-> | ->]; [done |]; destruct HP; [left | right]; auto).
    destruct (Hall j th1 P P' HM E1 HP1) as (th2 & Eth2 & H3 & H4). exists th2. split_and!; [done | done |].
    intros [[-> | Hj]%elem_of_cons | HP0]; [done | apply H4; by left |]. apply H4. right. destruct Hafter as [-> | ->]; auto.
Qed.

(** Every thread steps in a fair round. *)
Definition fair (n : nat) (r : list nat) : Prop :=
  Forall (fun j => (j < n)%nat) r /\ forall j, (j < n)%nat -> j ∈ r.

(** A thread with a task moves on. *)
Lemma busy_round sys tbl r j th t :
  system_inv sys tbl -> fair (length (source_threads sys)) r ->
  source_threads sys !! j = Some th -> task th = Some t -> window_pc th <> src_done ->
  exists sys' tbl', ofold system_step sys r = Some sys' /\ system_inv sys' tbl' /\
    length (source_threads sys') = length (source_threads sys) /\ table_work tbl' < table_work tbl.
Proof.
  intros H [Hr1 Hr2] Ej Et Hnd. destruct (round_ok sys tbl r H Hr1) as (sys' & tbl' & E & H' & Hl & Hw). exists sys', tbl'.
  split_and!; [done | done | done |]. destruct Hw as [? | (-> & _ & _ & Hall)]; [done | exfalso].
  destruct (Hall j th (fun th => is_Some (task th) /\ window_pc th <> src_done) (fun _ => False)) as (th' & _ & _ & Hf).
  - split; [| done |].
    + intros th0 [Hs Hp]. rewrite unblock_task. split; [done |]. unfold unblock_thread. destruct (window_pc th0) eqn:Ep; cbn; rewrite ?Ep; done.
    + intros s th1 th2 _ _ Hq [[[t0 Et0] Hp] | []]. unfold quiet in Hq. rewrite Et0 in Hq. by destruct Hq.
  - done.
  - left. by rewrite Et.
  - apply Hf. left. apply Hr2. by eapply lookup_lt_Some.
Qed.

(** The rank of a thread without a task, when nothing is left. *)
Definition leaving (n : nat) th : Prop :=
  match window_pc th with
  | src_done => True
  | src_loop | src_wait => task th = None /\ (1 <= n)%nat
  | src_assign => task th = None /\ (2 <= n)%nat
  | _ => False
  end.

Lemma leaving_moves tbl n : moves false false tbl (leaving (S n)) (leaving n).
Proof.
  split.
  - intros th Hl. rewrite unblock_busy; [done |]. intros E. unfold leaving in Hl. by rewrite E in Hl.
  - intros th Hl. rewrite unblock_busy; [done |]. intros E. unfold leaving in Hl. by rewrite E in Hl.
  - intros s th th' Em Eu Hq Hl. assert (leaving (S n) th) as Hs.
    { destruct Hl as [Hl | Hl]; [done |]. unfold leaving in *. destruct (window_pc th); try done; destruct Hl; split; done || lia. }
    clear Hl. unfold leaving, quiet in *. rewrite Em, Eu in Hq. destruct (task th) eqn:Et.
    + destruct Hq as [Ed ->]. by rewrite Ed.
    + destruct Hq as [Et' Hq]. destruct (window_pc th); try done; rewrite Et'.
      * by rewrite Hq.
      * destruct Hq as [-> _]. split; [done | lia].
      * by rewrite Hq.
      * by rewrite Hq.
Qed.

Lemma leaving_round sys tbl r n :
  system_inv sys tbl -> fair (length (source_threads sys)) r ->
  HasMoreTasks (source_global sys) = false -> HasUnfinishedTasks (source_global sys) = false ->
  Forall (leaving (S n)) (source_threads sys) ->
  exists sys' tbl', ofold system_step sys r = Some sys' /\ system_inv sys' tbl' /\
    length (source_threads sys') = length (source_threads sys) /\
    (table_work tbl' < table_work tbl \/
     tbl' = tbl /\ HasMoreTasks (source_global sys') = false /\ HasUnfinishedTasks (source_global sys') = false /\
       Forall (leaving n) (source_threads sys')).
Proof.
  intros H [Hr1 Hr2] Em Eu Hl. rewrite Forall_lookup in Hl.
  destruct (round_ok sys tbl r H Hr1) as (sys' & tbl' & E & H' & Hlen & Hw). exists sys', tbl'.
  split_and!; [done | done | done |]. destruct Hw as [? | (-> & Em' & Eu' & Hall)]; [by left | right].
  split_and!; [done | congruence | congruence |]. apply Forall_lookup. intros j th' Ej'.
  destruct (lookup_lt_is_Some_2 (source_threads sys) j) as [th Ej]; [rewrite <- Hlen; by eapply lookup_lt_Some |].
  destruct (Hall j th (leaving (S n)) (leaving n)) as (th1 & E1 & _ & Hf).
  - rewrite Em, Eu. apply leaving_moves.
  - done.
  - left. by eapply Hl.
  - rewrite Ej' in E1. injection E1 as <-. apply Hf. left. apply Hr2. by eapply lookup_lt_Some.
Qed.

(** Nothing is left: no thread works on a task and all tasks are assigned. *)
Lemma nothing_left sys tbl :
  system_inv sys tbl -> HasMoreTasks (source_global sys) = false ->
  (forall j th t, source_threads sys !! j = Some th -> task th = Some t -> window_pc th = src_done) ->
  HasUnfinishedTasks (source_global sys) = false /\ Forall (leaving 2) (source_threads sys).
Proof.
  intros H Em Hd. pose proof H as [S1 S2 S3 S4 S5]. destruct (HasMoreTasks_spec _ _ S1) as (Hmore & Hunf & Hle). split.
  - rewrite Hunf. apply Nat.ltb_ge. rewrite Em in Hmore. symmetry in Hmore. apply Nat.ltb_ge in Hmore.
    apply Nat2Z.inj_le. rewrite (inv_total _ _ S1), (inv_finished _ _ S1). apply zsum_le. intros [i id] Hin%elem_of_all_tasks. cbn [fst snd].
    pose proof (all_started _ _ i id S1 ltac:(lia) Hin) as Hf. destruct (tbl i id) as [| j th |] eqn:E; [done | | done].
    pose proof (threads_held _ _ _ S2 _ _ _ _ Hin E) as Ej. destruct (held_task _ _ _ _ _ _ S1 Hin E) as [t Et].
    pose proof (Hd _ _ _ Ej Et) as Hp. pose proof Hin as Hid. unfold group_tasks in Hid. destruct (shape_at i) as [sh |] eqn:Hi; [| lia].
    destruct (done_thread_task sys tbl i sh id j th H Hi Hid E Hp) as (t' & Et' & Eb & _). cbn [counted]. rewrite Hp, Et'. cbn [TaskFinished].
    by rewrite (proj2 (Nat.eqb_eq _ _)).
  - apply Forall_lookup. intros j th Ej. unfold leaving. destruct (task th) as [t |] eqn:Et.
    + by rewrite (Hd _ _ _ Ej Et).
    + pose proof (threads_idle _ _ _ S2 _ _ Ej Et) as Hp. destruct (window_pc th) eqn:Ep; try done.
      * split; [done | lia].
      * split; [done | lia].
      * by rewrite (S3 _ _ Ej Ep) in Em.
Qed.

(** Without a task that is held, a thread that looks for one gets one. *)
Lemma looking_rounds sys tbl r1 r2 :
  system_inv sys tbl -> fair (length (source_threads sys)) r1 -> fair (length (source_threads sys)) r2 ->
  HasMoreTasks (source_global sys) = true -> (forall j th t, source_threads sys !! j = Some th -> task th <> Some t) ->
  exists sys' tbl', ofold system_step sys (r1 ++ r2) = Some sys' /\ system_inv sys' tbl' /\
    length (source_threads sys') = length (source_threads sys) /\ table_work tbl' < table_work tbl.
Proof.
  intros H [Hr1 Hr1'] [Hr2 Hr2'] Em Hnone. pose proof H as [S1 S2 S3 S4 S5].
  destruct (HasMoreTasks_spec _ _ S1) as (Hmore & Hunf & Hle).
  assert (HasUnfinishedTasks (source_global sys) = true) as Eu.
  { rewrite Hunf. rewrite Em in Hmore. symmetry in Hmore. apply Nat.ltb_lt in Hmore. apply Nat.ltb_lt. lia. }
  assert (~ exists i id j th, (id < group_tasks i)%nat /\ tbl i id = held j th) as Hfree.
  { intros (i & id & j & th & Hid & E). destruct (held_task _ _ _ _ _ _ S1 Hid E) as [t Et].
    by destruct (Hnone j th t (threads_held _ _ _ S2 _ _ _ _ Hid E)). }
  destruct (S4 Em) as (j & th & Ej & Hlook).
  assert (task th = None) as Et by (destruct (task th) as [t |] eqn:Et; [by destruct (Hnone _ _ t Ej) | done]).
  unfold looking in Hlook. rewrite Et in Hlook.
  set (P := fun th : Thread => task th = None /\ window_pc th = src_loop). set (P' := fun th : Thread => task th = None /\ window_pc th = src_assign).
  assert (forall th, P th -> P (unblock_thread th)) as Hu1 by (intros th0 [? E]; rewrite unblock_busy by (by rewrite E); done).
  assert (forall th, P' th -> P' (unblock_thread th)) as Hu2 by (intros th0 [? E]; rewrite unblock_busy by (by rewrite E); done).
  destruct (round_ok sys tbl r1 H Hr1) as (sys1 & tbl1 & E1 & H1 & Hl1 & Hw1).
  destruct (round_ok sys1 tbl1 r2 H1) as (sys2 & tbl2 & E2 & H2 & Hl2 & Hw2); [by rewrite Hl1 |].
  exists sys2, tbl2. rewrite ofold_app, E1. cbn [mbind option_bind]. split_and!; [done | done | congruence |].
  destruct Hw1 as [Hw1 | (-> & Em1 & Eu1 & Hall1)].
  { destruct Hw2 as [? | (-> & _)]; lia. }
  destruct Hw2 as [? | (-> & _ & _ & Hall2)]; [done | exfalso].
  destruct (Hall1 j th P P') as (th1 & Ej1 & _ & Hf1).
  - split; [done | done |]. intros s th0 th0' Ems Eus Hq HP. unfold quiet in Hq. rewrite Ems, Eus, Em, Eu in Hq.
    destruct HP as [[Et0 Ep0] | [Et0 Ep0]]; rewrite Et0, Ep0 in Hq; [by destruct Hq | destruct Hq as (_ & _ & Hq); by destruct Hfree; apply Hq].
  - done.
  - destruct (window_pc th) eqn:Ep; try done; [by left | by right].
  - destruct (Hall2 j th1 P' (fun _ => False)) as (th2 & _ & _ & Hf2).
    + split; [done | done |]. intros s th0 th0' Ems Eus Hq [[Et0 Ep0] | []]. unfold quiet in Hq. rewrite Ems, Em1, Em, Et0, Ep0 in Hq.
      destruct Hq as (_ & _ & Hq). by apply Hfree, Hq.
    + done.
    + left. apply Hf1. left. apply Hr1'. by eapply lookup_lt_Some.
    + apply Hf2. left. apply Hr2'. by eapply lookup_lt_Some.
Qed.

Lemma two_rounds sys tbl r1 r2 :
  system_inv sys tbl -> fair (length (source_threads sys)) r1 -> fair (length (source_threads sys)) r2 ->
  exists sys' tbl', ofold system_step sys (r1 ++ r2) = Some sys' /\ system_inv sys' tbl' /\
    length (source_threads sys') = length (source_threads sys) /\
    (table_work tbl' < table_work tbl \/ all_done (source_threads sys')).
Proof.
  intros H Hr1 Hr2. set (n := length (source_threads sys)) in *.
  assert (forall sys1 tbl1, ofold system_step sys r1 = Some sys1 -> system_inv sys1 tbl1 -> length (source_threads sys1) = n ->
    table_work tbl1 < table_work tbl -> exists sys' tbl', ofold system_step sys (r1 ++ r2) = Some sys' /\ system_inv sys' tbl' /\
    length (source_threads sys') = n /\ (table_work tbl' < table_work tbl \/ all_done (source_threads sys'))) as Hnext.
  { intros sys1 tbl1 E1 H1 Hl1 Hw1. destruct (round_ok sys1 tbl1 r2 H1) as (sys2 & tbl2 & E2 & H2 & Hl2 & Hw2); [rewrite Hl1; apply Hr2 |].
    exists sys2, tbl2. rewrite ofold_app, E1. cbn [mbind option_bind]. split_and!; [done | done | congruence | left].
    destruct Hw2 as [? | (-> & _)]; lia. }
  assert ((exists j th t, source_threads sys !! j = Some th /\ task th = Some t /\ window_pc th <> src_done) \/
    (forall j th t, source_threads sys !! j = Some th -> task th = Some t -> window_pc th = src_done)) as [(j & th & t & Ej & Et & Hp) | Hfree].
  { clear. generalize (source_threads sys). intros l. induction l as [| th l IH]; [right; by intros [|] |].
    destruct IH as [(j & th0 & t & E) | IH]; [left; by exists (S j), th0, t |].
    destruct (task th) as [t |] eqn:Et.
    - destruct (done_or_not th) as [Hd | Hd].
      + right. intros [| j] th0 t0 E Et0; [by injection E as <- | by eapply (IH j)].
      + left. by exists 0%nat, th, t.
    - right. intros [| j] th0 t0 E Et0; [injection E as <-; by rewrite Et in Et0 | by eapply (IH j)]. }
  { destruct (busy_round sys tbl r1 j th t H Hr1 Ej Et Hp) as (sys1 & tbl1 & E1 & H1 & Hl1 & Hw1). by eapply Hnext. }
  destruct (HasMoreTasks (source_global sys)) eqn:Em.
  - destruct (looking_rounds sys tbl r1 r2 H Hr1 Hr2 Em) as (sys' & tbl' & E & H' & Hl & Hw).
    { intros j th t Ej Et. pose proof (threads_done _ _ _ (sys_threads _ _ H) _ _ Ej (Hfree _ _ _ Ej Et)) as Hm. by rewrite Em in Hm. }
    exists sys', tbl'. split_and!; [done | done | done | by left].
  - destruct (nothing_left sys tbl H Em Hfree) as [Eu Hleave].
    destruct (leaving_round sys tbl r1 1 H Hr1 Em Eu Hleave) as (sys1 & tbl1 & E1 & H1 & Hl1 & [Hw1 | (-> & Em1 & Eu1 & Hleave1)]); [by eapply Hnext |].
    destruct (leaving_round sys1 tbl r2 0 H1) as (sys2 & tbl2 & E2 & H2 & Hl2 & Hw2); [by rewrite Hl1 | done | done | done |].
    exists sys2, tbl2. rewrite ofold_app, E1. cbn [mbind option_bind]. split_and!; [done | done | by rewrite Hl2 |].
    destruct Hw2 as [? | (_ & _ & _ & Hleave2)]; [by left | right].
    eapply Forall_impl; [exact Hleave2 |]. intros th Hl0. unfold leaving in Hl0. destruct (window_pc th); try done; lia.
Qed.

Lemma table_work_nonneg tbl : 0 <= table_work tbl.
Proof. unfold table_work, task_sum. apply zsum_nonneg. intros p _. destruct (shape_at (fst p)); lia. Qed.

(** Threads that are done stay so. *)
Lemma done_schedule sys tbl r :
  system_inv sys tbl -> all_done (source_threads sys) -> Forall (fun j => (j < length (source_threads sys))%nat) r ->
  exists sys', ofold system_step sys r = Some sys' /\ system_inv sys' tbl /\ all_done (source_threads sys') /\
    length (source_threads sys') = length (source_threads sys).
Proof.
  revert sys. induction r as [| j r IH]; intros sys H Hd Hr; [by exists sys |]. apply Forall_cons in Hr as [Hj Hr].
  destruct (lookup_lt_is_Some_2 _ _ Hj) as [th Ej]. pose proof Hd as Hd'. unfold all_done in Hd'. rewrite Forall_lookup in Hd'.
  pose proof (Hd' _ _ Ej) as Hp.
  destruct (source_idle_step sys tbl j th H Ej ltac:(by rewrite Hp) (or_intror Hp)) as (sys1 & th' & u & E & H1 & Ha & Hq & _).
  assert (window_pc th' = src_done) as Hp'.
  { unfold quiet in Hq. destruct (task th); [by destruct Hq as [_ ->] |]. rewrite Hp in Hq. by destruct Hq. }
  pose proof (threads_after_length _ _ _ _ _ Ha) as Hl.
  destruct (IH sys1 H1) as (sys2 & E2 & H2 & Hd2 & Hl2).
  - unfold threads_after in Ha. rewrite Ha. assert (all_done (<[j := th']> (source_threads sys))) as Hins by (by apply Forall_insert).
    destruct u; [| done]. apply Forall_fmap. eapply Forall_impl; [exact Hins |]. intros th0 E0. cbn.
    by rewrite unblock_busy by (by rewrite E0).
  - by rewrite Hl.
  - exists sys2. rewrite ofold_cons, E. cbn [mbind option_bind]. split_and!; [done | done | done | congruence].
Qed.

Lemma fair_rounds_ok N sys tbl rounds :
  system_inv sys tbl -> table_work tbl <= Z.of_nat N ->
  Forall (fair (length (source_threads sys))) rounds -> (2 * (N + 1) <= length rounds)%nat ->
  exists sys' tbl', ofold system_step sys (mjoin rounds) = Some sys' /\ system_inv sys' tbl' /\ all_done (source_threads sys') /\
    length (source_threads sys') = length (source_threads sys).
Proof.
  revert sys tbl rounds. induction N as [| N IH]; intros sys tbl rounds H Hw Hr Hlen.
  all: destruct rounds as [| r1 [| r2 rounds]]; [cbn in Hlen; lia | cbn in Hlen; lia |].
  all: apply Forall_cons in Hr as [Hr1 Hr]; apply Forall_cons in Hr as [Hr2 Hr].
  all: destruct (two_rounds sys tbl r1 r2 H Hr1 Hr2) as (sys1 & tbl1 & E1 & H1 & Hl1 & Hcase).
  all: rewrite !mjoin_cons, app_assoc, ofold_app, E1; cbn [mbind option_bind].
  all: assert (Forall (fun j => (j < length (source_threads sys1))%nat) (mjoin rounds)) as Hmj
    by (rewrite Hl1; apply Forall_forall; intros j (l & Hj & Hin)%list_elem_of_join; rewrite Forall_forall in Hr;
        destruct (Hr l Hin) as [Hf _]; rewrite Forall_forall in Hf; by apply Hf).
  all: assert (all_done (source_threads sys1) -> exists sys' tbl', ofold system_step sys1 (mjoin rounds) = Some sys' /\ system_inv sys' tbl' /\
    all_done (source_threads sys') /\ length (source_threads sys') = length (source_threads sys)) as Hdone
    by (intros Hd; destruct (done_schedule sys1 tbl1 (mjoin rounds) H1 Hd Hmj) as (sys2 & E2 & H2 & Hd2 & Hl2); exists sys2, tbl1;
        split_and!; [done | done | done | congruence]).
  - destruct Hcase as [Hlt | Hd]; [pose proof (table_work_nonneg tbl1); lia | by apply Hdone].
  - destruct Hcase as [Hlt | Hd]; [| by apply Hdone].
    destruct (IH sys1 tbl1 rounds H1) as (sys2 & tbl2 & E2 & H2 & Hd2 & Hl2); [lia | by rewrite Hl1 | cbn in Hlen; lia |].
    exists sys2, tbl2. split_and!; [done | done | done | congruence].
Qed.
End source.
