(* ===== verification/WindowSourceResult.v ===== *)
(** * The source of the window operator: results

    The state that the constructor sets up, and the two theorems about the whole source:
    what every schedule produces, and that fair schedules end. *)

From stdpp Require Import functions.
From S2P Require Import Prelude Validity WindowMasks WindowMasksInvariant WindowSource WindowSourceInvariant WindowSchedules.

(** ** Sums *)

Lemma zsum_mjoin {A B} (f : B -> Z) (h : A -> list B) l : zsum f (mjoin (h <$> l)) = zsum (fun x => zsum f (h x)) l.
Proof. induction l as [| x l IH]; [done |]. by rewrite fmap_cons, mjoin_cons, zsum_app, zsum_cons, IH. Qed.

Lemma zsum_one {A} (l : list A) : zsum (fun _ => 1) l = Z.of_nat (length l).
Proof. induction l as [| x l IH]; [done |]. rewrite zsum_cons, IH, length_cons. lia. Qed.

Lemma zsum_omap {A B} (f : B -> Z) (h : A -> option B) l :
  zsum f (omap h l) = zsum (fun x => match h x with Some y => f y | None => 0 end) l.
Proof. induction l as [| x l IH]; [done |]. cbn [omap list_omap]. rewrite zsum_cons. destruct (h x); [by rewrite zsum_cons, IH | by rewrite IH]. Qed.

(** ** Set-up *)

Section setup.
Context {V G L Res : Type} (distinct_from : V -> V -> bool) (executors : WindowExecutors V G L Res).
Context (config : WindowSourceConfig) (suitable : MaskInput V -> Prop) (expected : MaskInput V -> nat -> list (list V * Res)).
Context `{!ExecutorLaws distinct_from executors config suitable expected}.
Abbreviation Group := (WindowHashGroup V G L).
Abbreviation Global := (WindowGlobalSourceState V G L).
Abbreviation Collection := (list (list (list V))).
Abbreviation fresh_table := (fun _ _ : nat => @fresh V).

(** A group before its tasks are set up. *)
Record new_group (g : Group) : Prop := {
  new_input : input_ok config suitable (group_input g);
  new_stage : stage g = MASK;
  new_counts : next_task g = 0%nat /\ masked g = 0%nat /\ sunk g = 0 /\ finalized g = 0%nat /\ group_completed g = 0%nat;
  new_masks : unallocated (group_input g) (group_masks g) (fun _ => []);
  new_states : gestates g = None
}.

Definition group_shape_of (pt : nat) (g : Group) : Shape :=
  {| shape_input := group_input g; shape_per_thread := pt; shape_batch := batch_base g |}.

Lemma InitTasks_ok pt g i :
  new_group g -> (0 < pt)%nat ->
  exists g', InitTasks pt g = Some ((4 * sthreads (group_shape_of pt g))%nat, g') /\
    group_ok distinct_from executors config suitable expected i (group_shape_of pt g) g' (fun _ => fresh).
Proof.
  intros [N1 N2 (N3 & N4 & N5 & N6 & N7) N8 N9] Hpt. unfold InitTasks. rewrite (proj2 (Nat.eqb_neq pt 0)) by lia.
  set (sh := group_shape_of pt g).
  assert ((blocks g + pt - 1) / pt = sthreads sh)%nat as Et by done. rewrite Et.
  eexists. split.
  { unfold GetTaskCount, GetThreadCount. cbn [group_threads stage_index Nat.sub]. by rewrite Nat.mul_comm. }
  assert (forall (f : nat -> Z) n, (forall k, f k = 0) -> zsum f (seq 0 n) = 0) as H0.
  { intros f n Hf. rewrite (zsum_ext f (fun _ => 0)) by done. by induction (seq 0 n). }
  split.
  - split; cbn [group_input per_thread group_threads batch_base next_task stage masked sunk finalized group_completed].
    + by split_and!.
    + intros id _. by rewrite N3.
    + rewrite N3. lia.
    + exists 0%nat. rewrite N2, N3. split_and!; [lia | done | lia | lia |]. intros σ' k Hσ. lia.
    + rewrite N4. symmetry. by apply H0.
    + rewrite N5. symmetry. apply H0. intros k. cbn. rewrite Nat.add_0_r. lia.
    + rewrite N6. symmetry. by apply H0.
    + rewrite N7. symmetry. by apply H0.
  - exists {| view_partition _ := true; view_order _ _ := true; view_begins _ := [] |}. split; [right; by split |]. by intros k _.
  - cbn [gestates thread_states]. rewrite N9. split.
    + apply length_replicate.
    + intros k l E. by apply lookup_replicate_1 in E as [[=] _].
    + by intros k _ E.
    + done.
  - by intros id j th _ E.
Qed.

(** The groups after [init_group] for a list of groups. *)
Definition inited pt g : Group := match InitTasks pt g with Some (_, g') => g' | None => g end.

Lemma init_groups_ok pt l (s : Global) :
  (0 < pt)%nat -> NoDup (snd <$> l) -> (forall i, i ∈ snd <$> l -> exists g, get_group i s = Some g /\ new_group g) ->
  exists s', ofold (init_group pt) s l = Some s' /\
    length (window_hash_groups s') = length (window_hash_groups s) /\
    (forall i, get_group i s' = if decide (i ∈ snd <$> l) then inited pt <$> get_group i s else get_group i s) /\
    Z.of_nat (total_tasks s') = Z.of_nat (total_tasks s) +
      zsum (fun b => match get_group (snd b) s with Some g => Z.of_nat (4 * sthreads (group_shape_of pt g)) | None => 0 end) l /\
    partition_blocks s' = partition_blocks s /\ active_groups s' = active_groups s /\ next_group s' = next_group s /\
    tasks_started s' = tasks_started s /\ tasks_finished s' = tasks_finished s /\ stopped s' = stopped s.
Proof.
  intros Hpt. revert s. induction l as [| b l IH]; intros s Hnd Hg.
  { exists s. cbn [fmap list_fmap]. split_and!; try done. change (zsum _ []) with 0. lia. }
  rewrite fmap_cons in Hnd, Hg. apply NoDup_cons in Hnd as [Hb Hnd].
  destruct (Hg (snd b)) as (g & Eg & Hnew); [by left |].
  destruct (InitTasks_ok pt g (snd b) Hnew Hpt) as (g' & E & _).
  destruct (init_group pt s b) as [s1 |] eqn:Es1; unfold init_group in Es1; rewrite Eg in Es1; cbn [mbind option_bind] in Es1;
    rewrite E in Es1; [| done]. injection Es1 as Es1. rewrite ofold_cons.
  assert (init_group pt s b = Some s1) as -> by (unfold init_group; rewrite Eg; cbn [mbind option_bind]; rewrite E; by rewrite <- Es1).
  cbn [mbind option_bind].
  assert (snd b < length (window_hash_groups s))%nat as Hlt.
  { unfold get_group in Eg. apply bind_Some in Eg as (x & Ex & _). by eapply lookup_lt_Some. }
  assert (forall i, get_group i s1 = if decide (i = snd b) then Some g' else get_group i s) as Hs1.
  { intros i. rewrite <- Es1. unfold get_group. cbn. case_decide as Ei; [subst i; by rewrite list_lookup_insert_eq | by rewrite list_lookup_insert_ne]. }
  destruct (IH s1 Hnd) as (s' & E' & H1 & H2 & H3 & H4).
  { intros i Hi. rewrite Hs1, decide_False by (by intros ->). apply Hg. by right. }
  exists s'. split; [exact E' |]. split; [rewrite H1, <- Es1; cbn; by rewrite length_insert |]. split; [| split; [| by rewrite <- Es1 in H4]].
  - intros i. rewrite H2, Hs1, fmap_cons. destruct (decide (i = snd b)) as [-> | Hne].
    + rewrite decide_False by done. rewrite decide_True by (by left). rewrite Eg. cbn. unfold inited. by rewrite E.
    + destruct (decide (i ∈ snd <$> l)) as [Hi | Hi].
      * rewrite decide_True by (by right). done.
      * rewrite decide_False; [done |]. by intros [-> | ?]%elem_of_cons.
  - rewrite H3, zsum_cons, Eg. assert (total_tasks s1 = total_tasks s + 4 * sthreads (group_shape_of pt g))%nat as -> by (by rewrite <- Es1).
    rewrite Nat2Z.inj_add.
    rewrite (zsum_ext _ (fun b => match get_group (snd b) s with Some g => Z.of_nat (4 * sthreads (group_shape_of pt g)) | None => 0 end) l); [lia |].
    intros b' Hb'. rewrite Hs1, decide_False; [done |]. intros Eb. apply Hb. rewrite <- Eb. by apply list_elem_of_fmap_2.
Qed.

Lemma group_blocks_spec (groups : list (option Group)) a :
  let l := omap (fun p => g ← snd p; Some (blocks g, fst p)) (zip (seq a (length groups)) groups) in
  NoDup (snd <$> l) /\
  (forall b, b ∈ l <-> exists k g, groups !! k = Some (Some g) /\ b = (blocks g, a + k)%nat).
Proof.
  revert a. induction groups as [| og groups IH]; intros a.
  { cbn. split; [constructor |]. intros b. split; [by intros ?%not_elem_of_nil |]. by intros (k & g & ? & _). }
  cbn [length seq zip zip_with omap list_omap fst snd]. cbn zeta in IH. destruct (IH (S a)) as [Hnd Hin].
  assert (forall b, (exists k g, groups !! k = Some (Some g) /\ b = (blocks g, S a + k)%nat) <->
    exists k g, (og :: groups) !! S k = Some (Some g) /\ b = (blocks g, a + S k)%nat) as Hshift.
  { intros b. split; intros (k & g & E1 & E2); exists k, g; (split; [exact E1 |]); rewrite E2; f_equal; lia. }
  destruct og as [g |]; cbn [mbind option_bind].
  - split.
    + rewrite fmap_cons. apply NoDup_cons. split; [| exact Hnd]. intros (b & E & Hb)%list_elem_of_fmap.
      apply Hin in Hb as (k & g' & _ & ->). cbn in E. lia.
    + intros b. rewrite elem_of_cons, Hin. split.
      * intros [-> | (k & g' & E1 & E2)]; [exists 0%nat, g; split; [done | f_equal; cbn; lia] | exists (S k), g'; split; [done | rewrite E2; f_equal; lia]].
      * intros ([| k] & g' & E1 & ->); [left; injection E1 as <-; f_equal; lia | right; exists k, g'; split; [done | f_equal; lia]].
  - split; [exact Hnd |]. intros b. rewrite Hin. split.
    + intros (k & g' & E1 & E2). exists (S k), g'. split; [done | rewrite E2; f_equal; lia].
    + intros ([| k] & g' & E1 & ->); [done |]. exists k, g'. split; [done | f_equal; lia].
Qed.

Lemma blocks_per_thread_pos threads max_block :
  (0 < threads)%nat -> (0 < max_block)%nat -> (0 < blocks_per_thread threads max_block)%nat.
Proof.
  intros Ht Hm. unfold blocks_per_thread. change (Z.to_nat (Z.max (BITS_PER_VALUE / STANDARD_VECTOR_SIZE) 1)) with 1%nat.
  rewrite Nat.mul_1_l, Nat.div_1_r. replace (max_block + 1 - 1)%nat with max_block by lia.
  assert (1 <= (max_block + threads - 1) / threads)%nat; [| lia]. apply Nat.div_le_lower_bound; lia.
Qed.

Definition shapes_of pt (groups : list (option Group)) : list (option (@Shape V)) := (fun og : option Group => group_shape_of pt <$> og) <$> groups.

Lemma shapes_of_at pt groups i : shape_at (shapes_of pt groups) i = group_shape_of pt <$> (groups !! i ≫= fun og => og).
Proof. unfold shape_at, shapes_of. rewrite list_lookup_fmap. by destruct (groups !! i) as [[g |] |]. Qed.

Lemma CreateTaskList_ok threads groups :
  (0 < threads)%nat ->
  (forall i g, groups !! i = Some (Some g) -> new_group g /\ (0 < blocks g)%nat) ->
  (exists i g, groups !! i = Some (Some g)) ->
  exists s pt, CreateTaskList threads
      {| window_hash_groups := groups; partition_blocks := []; active_groups := []; next_group := 0; total_tasks := 0;
         tasks_started := 0; tasks_finished := 0; tasks_completed := 0; stopped := false |} = Some s /\
    (0 < pt)%nat /\ global_inv distinct_from executors config suitable expected (shapes_of pt groups) s fresh_table.
Proof.
  intros Ht Hgroups (i0 & g0 & E0). set (s0 := {| window_hash_groups := groups |}). unfold CreateTaskList.
  rewrite (proj2 (Nat.eqb_neq _ _)) by (apply lookup_lt_Some in E0; cbn; lia).
  set (pb := merge_sort block_order (group_blocks (window_hash_groups s0))).
  destruct (group_blocks_spec groups 0) as [Hnd Hin]. fold (group_blocks groups) in Hnd, Hin.
  assert (pb ≡ₚ group_blocks groups) as Hperm by apply merge_sort_Permutation.
  assert (forall b, b ∈ pb <-> exists k g, groups !! k = Some (Some g) /\ b = (blocks g, k)) as Hpb by (intros b; by rewrite Hperm, Hin).
  assert (NoDup (snd <$> pb)) as Hndpb by (by rewrite Hperm).
  assert (forall i, i ∈ snd <$> pb <-> exists g, groups !! i = Some (Some g)) as Hidx.
  { intros i. split.
    - intros (b & -> & (k & g & E & ->)%Hpb)%list_elem_of_fmap. by exists g.
    - intros [g E]. apply list_elem_of_fmap. exists (blocks g, i). split; [done |]. apply Hpb. by exists i, g. }
  cbn zeta. set (s1 := {| window_hash_groups := window_hash_groups s0; partition_blocks := pb |}).
  assert (exists b, head pb = Some b /\ b ∈ pb) as (b & Ehead & Hbin).
  { assert ((blocks g0, i0) ∈ pb) as H0 by (apply Hpb; by exists i0, g0). clear -H0. destruct pb as [| b pb]; [by apply not_elem_of_nil in H0 |].
    exists b. split; [done | by left]. }
  rewrite Ehead. cbn [mbind option_bind]. set (pt := blocks_per_thread threads (fst b)).
  assert (0 < pt)%nat as Hpt.
  { apply blocks_per_thread_pos; [done |]. destruct (proj1 (Hpb b) Hbin) as (k & g & E & ->). cbn. by eapply Hgroups. }
  rewrite (proj2 (Nat.eqb_neq pt 0)) by lia. clearbody pt pb.
  assert (forall i, get_group i s1 = groups !! i ≫= fun og => og) as Hget by done.
  destruct (init_groups_ok pt pb s1 Hpt Hndpb) as (s & E & H1 & H2 & H3 & H4 & H5 & H6 & H7 & H8 & H9).
  { intros i [g Ei]%Hidx. exists g. rewrite Hget, Ei. split; [done |]. by eapply Hgroups. }
  exists s, pt. split; [exact E |]. split; [done |].
  cbn [partition_blocks active_groups next_group tasks_started tasks_finished stopped total_tasks s1 s0] in *.
  split.
  - rewrite H1. unfold shapes_of. by rewrite length_fmap.
  - intros i sh. rewrite shapes_of_at. destruct (groups !! i) as [[g |] |] eqn:Ei; cbn; try done. intros [= <-].
    rewrite H2, decide_True by (apply Hidx; by exists g). rewrite Hget, Ei. cbn.
    destruct (InitTasks_ok pt g i (proj1 (Hgroups _ _ Ei)) Hpt) as (g' & Eg & Hok). unfold inited. by rewrite Eg.
  - intros i. rewrite shapes_of_at, H2, Hget. destruct (groups !! i) as [[g |] |] eqn:Ei; cbn; try done; by case_decide.
  - rewrite H4. split; [done |]. intros i. rewrite Hidx, shapes_of_at. destruct (groups !! i) as [[g |] |]; cbn.
    + split; [by eexists | by exists g].
    + split; [by intros [? ?] | by intros [? ?]].
    + split; [by intros [? ?] | by intros [? ?]].
  - intros i. rewrite H5, H6. cbn. split; [by intros ?%not_elem_of_nil | by intros [_ ?%not_elem_of_nil]].
  - rewrite H6. lia.
  - intros i. rewrite H6, H4. cbn [drop]. intros [g Ei]%Hidx. split; [| done].
    rewrite H2, decide_True by (apply Hidx; by exists g). by rewrite Hget, Ei.
  - rewrite H3. unfold task_sum, all_tasks. rewrite zsum_mjoin. cbn [Z.of_nat]. rewrite Z.add_0_l, (zsum_perm _ _ _ Hperm).
    unfold group_blocks. rewrite zsum_omap.
    transitivity (zsum (fun p : nat * option Group => Z.of_nat (group_tasks (shapes_of pt groups) (fst p))) (zip (seq 0 (length groups)) groups)).
    + apply zsum_ext. intros [i og] Hp. apply list_elem_of_lookup in Hp as [k Hk]. rewrite lookup_zip_with in Hk.
      apply bind_Some in Hk as (i' & Hi' & Hk). apply bind_Some in Hk as (og' & Hog & [= -> ->]). apply lookup_seq in Hi' as [Ei _]. cbn in Ei. subst.
      cbn [fst snd]. unfold group_tasks. rewrite shapes_of_at, Hog. cbn. destruct og as [g |]; cbn; [| done]. specialize (Hget k). rewrite Hog in Hget. cbn in Hget. by rewrite Hget.
    + rewrite <- (zsum_fmap fst (fun i => Z.of_nat (group_tasks (shapes_of pt groups) i))). rewrite fst_zip by (by rewrite length_seq).
      assert (length (shapes_of pt groups) = length groups) as -> by apply length_fmap. apply zsum_ext. intros i _. by rewrite zsum_fmap, zsum_one, length_seq.
  - rewrite H7. symmetry. unfold task_sum. cbn. by induction (all_tasks _).
  - rewrite H8. symmetry. unfold task_sum. cbn. by induction (all_tasks _).
  - done.
Qed.

(** The start of the threads. *)
Lemma WindowSystem_new_ok shapes s n :
  (0 < n)%nat -> (forall i sh, shape_at shapes i = Some sh -> shape_ok config suitable sh) ->
  global_inv distinct_from executors config suitable expected shapes s fresh_table ->
  system_inv distinct_from executors config suitable expected shapes (WindowSystem_new s n) fresh_table.
Proof.
  intros Hn Hsh H.
  assert (forall j th, replicate n {| window_pc := (src_loop : WindowPc V); task := None; scanner := None |} !! j = Some th ->
    window_pc th = src_loop /\ task th = None) as Hth by (intros j th [-> _]%lookup_replicate_1; done).
  split; cbn [source_global source_threads source_output WindowSystem_new]; [done | | | |].
  - split.
    + by intros i id j th _ E.
    + intros j th t E Et. destruct (Hth _ _ E) as [_ Et']. by rewrite Et' in Et.
    + intros j th E _. by destruct (Hth _ _ E) as [-> _].
    + intros j th t E _. by destruct (Hth _ _ E) as [-> _].
    + intros j th E Ed. destruct (Hth _ _ E) as [E' _]. by rewrite E' in Ed.
  - intros j th E Ed. destruct (Hth _ _ E) as [E' _]. by rewrite E' in Ed.
  - intros _. eexists 0%nat, _. split; [by apply lookup_replicate_2 | done].
  - unfold all_outputs. rewrite mjoin_nil; [done |]. intros i _. destruct (shape_at shapes i) as [sh |]; [| done].
    unfold row_outputs. by apply mjoin_nil.
Qed.

(** ** The groups of the operator *)

Context (keys : list nat) (partitions : nat) (sort : bool).

(** What the tasks read of a collection. *)
Definition hash_input (collection : Collection) : MaskInput V :=
  group_input (@WindowHashGroup_new V unit unit config collection keys partitions sort 0).

(** The collections of the sorted hash groups: at least one, each with rows. *)
Definition hash_groups_ok (hash_groups : list (option Collection)) : Prop :=
  (forall i collection, hash_groups !! i = Some (Some collection) -> collection <> [] /\ input_ok config suitable (hash_input collection)) /\
  exists i collection, hash_groups !! i = Some (Some collection).

(** The results of all chunks, with consecutive batch indices. *)
Fixpoint window_results (batch : nat) (hash_groups : list (option Collection)) : list (nat * list (list V * Res)) :=
  match hash_groups with
  | [] => []
  | None :: hash_groups => window_results batch hash_groups
  | Some collection :: hash_groups =>
      ((fun b => ((batch + b)%nat, expected (hash_input collection) b)) <$> seq 0 (length collection)) ++
      window_results (batch + length collection) hash_groups
  end.

Lemma group_input_new collection batch :
  group_input (@WindowHashGroup_new V G L config collection keys partitions sort batch) = hash_input collection.
Proof.
  unfold hash_input, WindowHashGroup_new.
  by destruct (WindowHashGroup_blocks (early_out config) (shrink_runs config) collection).
Qed.

Lemma WindowHashGroup_new_ok collection batch :
  input_ok config suitable (hash_input collection) ->
  new_group (@WindowHashGroup_new V G L config collection keys partitions sort batch).
Proof.
  intros Hin. rewrite <- (group_input_new collection batch) in Hin. split; [done | done | done | | done].
  split; [done |]. split; [done |]. intros Hb. cbn in Hb |- *. rewrite Hb. split; [apply length_replicate |].
  intros b l E. by apply lookup_replicate_1 in E as [-> _].
Qed.

Lemma make_groups_lookup total (hash_groups : list (option Collection)) i g :
  make_groups config keys partitions sort total hash_groups !! i = Some (Some g) ->
  exists collection batch, hash_groups !! i = Some (Some collection) /\ g = @WindowHashGroup_new V G L config collection keys partitions sort batch.
Proof.
  revert total i. induction hash_groups as [| [collection |] hash_groups IH]; intros total i E; [done | |]; cbn in E.
  - destruct i as [| i]; [injection E as <-; by exists collection, total |]. by destruct (IH _ _ E) as (c & b & ? & ?); exists c, b.
  - destruct i as [| i]; [done |]. by destruct (IH _ _ E) as (c & b & ? & ?); exists c, b.
Qed.

Lemma make_groups_present total (hash_groups : list (option Collection)) i collection :
  hash_groups !! i = Some (Some collection) ->
  exists g, make_groups (G := G) (L := L) config keys partitions sort total hash_groups !! i = Some (Some g).
Proof.
  revert total i. induction hash_groups as [| [c |] hash_groups IH]; intros total i E; [done | |].
  - destruct i as [| i]; [by eexists |]. by apply IH.
  - destruct i as [| i]; [done |]. by apply IH.
Qed.

Lemma lookup_seq_fmap {A B} (f : option A -> list B) (l : list A) :
  mjoin ((fun i => f (l !! i)) <$> seq 0 (length l)) = mjoin ((fun x => f (Some x)) <$> l).
Proof.
  f_equal. apply list_eq. intros i. rewrite !list_lookup_fmap. destruct (decide (i < length l)%nat) as [Hlt | Hge].
  - rewrite lookup_seq_lt by done. destruct (lookup_lt_is_Some_2 l i Hlt) as [x E]. rewrite E. cbn. by rewrite E.
  - rewrite lookup_seq_ge, lookup_ge_None_2 by lia. done.
Qed.

Lemma complete_results pt total (hash_groups : list (option Collection)) :
  complete_outputs expected (shapes_of pt (make_groups (G := G) (L := L) config keys partitions sort total hash_groups)) = window_results total hash_groups.
Proof.
  unfold complete_outputs, shape_at.
  rewrite (lookup_seq_fmap (fun osh : option (option Shape) => match osh ≫= fun x => x with Some sh => block_output expected sh <$> seq 0 (sblocks sh) | None => [] end)).
  unfold shapes_of. rewrite <- list_fmap_compose. revert total.
  induction hash_groups as [| [collection |] hash_groups IH]; intros total; [done | |]; cbn [make_groups window_results];
    rewrite fmap_cons, mjoin_cons, IH; [| done].
  by f_equal.
Qed.

(** The state that the constructor sets up. *)
Lemma WindowGlobalSourceState_ok threads hash_groups :
  (0 < threads)%nat -> hash_groups_ok hash_groups ->
  exists s shapes, WindowGlobalSourceState_new config threads keys partitions sort hash_groups = Some s /\
    (forall i sh, shape_at shapes i = Some sh -> shape_ok config suitable sh) /\
    global_inv distinct_from executors config suitable expected shapes s fresh_table /\
    complete_outputs expected shapes = window_results 0 hash_groups.
Proof.
  intros Ht [Hall (i0 & c0 & E0)]. destruct (make_groups_present 0 hash_groups i0 c0 E0) as [g0 Eg0].
  assert (forall i g, make_groups config keys partitions sort 0 hash_groups !! i = Some (Some g) -> new_group g /\ (0 < blocks g)%nat) as Hgroups.
  { intros i g (collection & batch & Ec & ->)%make_groups_lookup. destruct (Hall _ _ Ec) as [Hne Hin].
    split; [by apply WindowHashGroup_new_ok |]. unfold blocks. rewrite group_input_new. cbn. destruct collection; [done | cbn; lia]. }
  destruct (CreateTaskList_ok threads _ Ht Hgroups (ex_intro _ i0 (ex_intro _ g0 Eg0))) as (s & pt & E & Hpt & Hinv).
  exists s, (shapes_of pt (make_groups config keys partitions sort 0 hash_groups)). split_and!; [exact E | | done | apply complete_results].
  intros i sh. rewrite shapes_of_at. destruct (_ !! i) as [[g |] |] eqn:Ei; cbn; try done. intros [= <-].
  split; [by apply (Hgroups _ _ Ei) | done].
Qed.

Lemma source_schedule_ok threads n hash_groups :
  (0 < threads)%nat -> (0 < n)%nat -> hash_groups_ok hash_groups ->
  exists s, WindowGlobalSourceState_new config threads keys partitions sort hash_groups = Some s /\
    forall schedule, Forall (fun j => j < n)%nat schedule ->
      exists sys, run_window distinct_from executors config s n schedule = Some sys /\
        (exists rest, source_output sys ++ rest ≡ₚ window_results 0 hash_groups) /\
        (all_done (source_threads sys) -> source_output sys ≡ₚ window_results 0 hash_groups).
Proof.
  intros Ht Hn Hok. destruct (WindowGlobalSourceState_ok threads hash_groups Ht Hok) as (s & shapes & E & Hsh & Hinv & <-).
  exists s. split; [done |]. intros schedule Hs. pose proof (WindowSystem_new_ok shapes s n Hn Hsh Hinv) as H0.
  destruct (schedule_ok distinct_from executors config suitable expected shapes Hsh (WindowSystem_new s n) fresh_table schedule H0)
    as (sys & tbl & Erun & H & Hl).
  { cbn. by rewrite length_replicate. }
  cbn in Hl. rewrite length_replicate in Hl. exists sys. split; [exact Erun |]. split.
  - destruct (outputs_sub distinct_from executors config suitable expected shapes Hsh _ _ (sys_global _ _ _ _ _ _ _ _ H)) as [rest Hrest].
    exists rest. by rewrite (sys_output _ _ _ _ _ _ _ _ H).
  - intros Hd. rewrite (sys_output _ _ _ _ _ _ _ _ H). apply reflexive_eq.
    apply (final_outputs distinct_from executors config suitable expected shapes Hsh _ _ H); [by rewrite Hl | done].
Qed.

Lemma source_rounds_ok threads n hash_groups :
  (0 < threads)%nat -> (0 < n)%nat -> hash_groups_ok hash_groups ->
  exists s bound, WindowGlobalSourceState_new config threads keys partitions sort hash_groups = Some s /\
    forall rounds, Forall (fair n) rounds -> (bound <= length rounds)%nat ->
      exists sys, run_window distinct_from executors config s n (mjoin rounds) = Some sys /\
        all_done (source_threads sys) /\ source_output sys ≡ₚ window_results 0 hash_groups.
Proof.
  intros Ht Hn Hok. destruct (WindowGlobalSourceState_ok threads hash_groups Ht Hok) as (s & shapes & E & Hsh & Hinv & <-).
  pose proof (WindowSystem_new_ok shapes s n Hn Hsh Hinv) as H0. set (N := Z.to_nat (table_work shapes fresh_table)).
  exists s, (2 * (N + 1))%nat. split; [done |]. intros rounds Hr Hb.
  destruct (fair_rounds_ok distinct_from executors config suitable expected shapes Hsh N (WindowSystem_new s n) fresh_table rounds H0)
    as (sys & tbl & Erun & H & Hd & Hl).
  - unfold N. pose proof (table_work_nonneg shapes fresh_table). lia.
  - cbn. by rewrite length_replicate.
  - done.
  - cbn in Hl. rewrite length_replicate in Hl. exists sys. split_and!; [exact Erun | done |].
    rewrite (sys_output _ _ _ _ _ _ _ _ H). apply reflexive_eq.
    apply (final_outputs distinct_from executors config suitable expected shapes Hsh _ _ H); [by rewrite Hl | done].
Qed.
End setup.

(** ** Properties *)

Section source_theorems.
Context {V G L Res : Type} (distinct_from : V -> V -> bool) (executors : WindowExecutors V G L Res).
Context (config : WindowSourceConfig) (suitable : MaskInput V -> Prop) (expected : MaskInput V -> nat -> list (list V * Res)).
Context `{!ExecutorLaws distinct_from executors config suitable expected}.

(** C11. In every schedule of the threads no assertion of the source fails and no function is
    called out of its stage: the run succeeds, the chunks that are put out are different
    chunks of the groups, each with the result that the functions promise for it, and when all
    threads are done no chunk is missing.

    The hash groups satisfy [input_ok]: no chunk is empty, without shrink_runs all chunks but
    the last one are full, with shrink_runs the number of rows is not a multiple of 64 (finding
    validity_mask.hpp:292), with early out there is at most one PARTITION BY column
    (finding physical_window.cpp:641); and what the functions need of them. *)
Theorem WindowSource_correct keys partitions sort threads n (hash_groups : list (option (list (list (list V))))) :
  (0 < threads)%nat -> (0 < n)%nat -> hash_groups_ok config suitable keys partitions sort hash_groups ->
  exists s, WindowGlobalSourceState_new config threads keys partitions sort hash_groups = Some s /\
    forall schedule, Forall (fun j => j < n)%nat schedule ->
      exists sys, run_window distinct_from executors config s n schedule = Some sys /\
        (exists rest, source_output sys ++ rest ≡ₚ window_results config expected keys partitions sort 0 hash_groups) /\
        (all_done (source_threads sys) ->
          source_output sys ≡ₚ window_results config expected keys partitions sort 0 hash_groups).
Proof. by apply source_schedule_ok. Qed.

(** C12. Threads that block wait for a stage that another thread will complete: any schedule
    that gives each thread a turn in each of a bounded number of rounds, in any order, ends
    with all threads done and the results of all chunks put out, for hash groups that satisfy
    the conditions of [WindowSource_correct]. *)
Theorem WindowSource_terminates keys partitions sort threads n (hash_groups : list (option (list (list (list V))))) :
  (0 < threads)%nat -> (0 < n)%nat -> hash_groups_ok config suitable keys partitions sort hash_groups ->
  exists s bound, WindowGlobalSourceState_new config threads keys partitions sort hash_groups = Some s /\
    forall rounds, Forall (fair n) rounds -> (bound <= length rounds)%nat ->
      exists sys, run_window distinct_from executors config s n (mjoin rounds) = Some sys /\
        all_done (source_threads sys) /\
        source_output sys ≡ₚ window_results config expected keys partitions sort 0 hash_groups.
Proof. by apply source_rounds_ok. Qed.
End source_theorems.
