(* ===== verification/Rank.v ===== *)
(** Ranking functions (src/src/function/window/window_rank_function.cpp).

    RANK, DENSE_RANK, PERCENT_RANK and CUME_DIST from the bounds of a chunk.  RANK
    has two optional modes: with a comparator it collects the rows whose rank
    satisfies the pushed-down predicate, and with [early_out] it skips the rest of
    a partition after the first row that does not.  The token tree of secondary
    orders is an argument ([Rank], [PeerEnd]). *)
From S2P Require Import Prelude Validity MaskSearch Boundaries.

(** ** State *)

Record WindowPeerLocalState : Set := mkPeer {
  dense_rank : Z;
  rank_equal : Z;
  rank : Z
}.

(** [use_framing] and the token tree of [WindowPeerGlobalState]: [token_tree] is
    absent when there are no argument orders or they are a prefix of the window's
    orders. *)
Record WindowTokenTree : Type := mkTree {
  Rank : Z -> Z -> Z -> Z;
  PeerEnd_tree : Z -> Z -> Z -> Z
}.

Record WindowPeerGlobalState : Type := mkGlobal {
  use_framing : bool;
  token_tree : option WindowTokenTree
}.

Definition WindowPeerGlobalState_new (arg_orders shared_orders : Z) (enable_optimizer : bool)
    (tree : WindowTokenTree) : WindowPeerGlobalState :=
  if arg_orders =? 0 then mkGlobal false None
  else mkGlobal true
    (if negb enable_optimizer || negb (shared_orders =? arg_orders) then Some tree else None).

Definition NextRank (s : WindowPeerLocalState) (partition_begin peer_begin row_idx : Z)
    : WindowPeerLocalState :=
  let s :=
    if partition_begin =? row_idx then mkPeer 1 0 1
    else if peer_begin =? row_idx then
      mkPeer (u64 (dense_rank s + 1)) 0 (u64 (rank s + rank_equal s))
    else s in
  mkPeer (dense_rank s) (u64 (rank_equal s + 1)) (rank s).

(** "Reset to previous row" *)
Definition reset_rank (s : WindowPeerLocalState) (partition_begin0 peer_begin0 row_idx : Z)
    : WindowPeerLocalState :=
  mkPeer (dense_rank s) (u64 (row_idx - peer_begin0)) (u64 (u64 (peer_begin0 - partition_begin0) + 1)).

(** ** RANK

    [Comparator] is [std::false_type] or [std::less_equal<int64_t>]. *)
Inductive Comparator : Set := FalseType | LessEqual.

Definition matches (c : Comparator) (predicate_value rnk : Z) : bool :=
  match c with FalseType => true | LessEqual => rnk <=? predicate_value end.

(** The result column, [sel] and [match_count]. *)
Record RankResult : Type := mkResult { rdata : list Z; sel : list Z; match_count : Z }.

(** [lpeer.sel.set_index(match_count++, i)] *)
Definition select (c : Comparator) (r : RankResult) (i : Z) : option RankResult :=
  match c with
  | FalseType => Some r
  | LessEqual => sel' ← zstore (sel r) (match_count r) i; Some (mkResult (rdata r) sel' (match_count r + 1))
  end.

Definition store (r : RankResult) (i rnk : Z) : option RankResult :=
  rdata' ← zstore (rdata r) i rnk; Some (mkResult rdata' (sel r) (match_count r)).

(** The loops over the frames: [rank_of i row_idx] is the rank of a row; with
    [early_out] the first row that does not match ends the loop. *)
Fixpoint frame_rank_loop (c : Comparator) (early_out : bool) (predicate_value : Z)
    (rank_of : Z -> Z -> Z) (n : nat) (i row_idx : Z) (r : RankResult) : option RankResult :=
  match n with
  | O => Some r
  | S n =>
      let rnk := rank_of i row_idx in
      r ← store r i rnk;
      if matches c predicate_value rnk then
        r ← select c r i;
        frame_rank_loop c early_out predicate_value rank_of n (i + 1) (row_idx + 1) r
      else if early_out then Some r
      else frame_rank_loop c early_out predicate_value rank_of n (i + 1) (row_idx + 1) r
  end.

(** The loop over the partitions up to the next row that does not match with
    [early_out]: that row's position is the last component. *)
Fixpoint rank_rows (c : Comparator) (early_out : bool) (predicate_value : Z) (bounds : DataChunk)
    (n : nat) (i row_idx : Z) (s : WindowPeerLocalState) (r : RankResult)
    : option (WindowPeerLocalState * RankResult * option (Z * Z)) :=
  match n with
  | O => Some (s, r, None)
  | S n =>
      let s := NextRank s (znth 0 (bounds PARTITION_BEGIN) i) (znth 0 (bounds PEER_BEGIN) i) row_idx in
      let rnk := i64 (rank s) in
      r ← store r i rnk;
      if matches c predicate_value rnk then
        r ← select c r i;
        rank_rows c early_out predicate_value bounds n (i + 1) (row_idx + 1) s r
      else if early_out then Some (s, r, Some (i, row_idx))
      else rank_rows c early_out predicate_value bounds n (i + 1) (row_idx + 1) s r
  end.

(** [next] is what is left of [partition_begins]; a row that does not match takes
    its first element and continues there: [diff = partition_end - row_idx - 1],
    [i += diff], [row_idx = partition_end - 1] and the increments of the loop. *)
Fixpoint rank_loop (c : Comparator) (early_out : bool) (predicate_value : Z) (bounds : DataChunk)
    (count : Z) (next : list Z) (i row_idx : Z) (s : WindowPeerLocalState) (r : RankResult)
    : option (WindowPeerLocalState * RankResult) :=
  '(s, r, stop) ← rank_rows c early_out predicate_value bounds (Z.to_nat (count - i)) i row_idx s r;
  match stop with
  | None => Some (s, r)
  | Some (i, row_idx) =>
      match next with
      | [] => Some (s, r)
      | partition_end :: next =>
          let diff := u64 (partition_end - row_idx - 1) in
          rank_loop c early_out predicate_value bounds count next
            (u64 (u64 (i + diff) + 1)) (u64 (u64 (partition_end - 1) + 1)) s r
      end
  end.

(** [while (next != cend && *next <= row_idx) ++next] *)
Fixpoint skip_begins (row_idx : Z) (next : list Z) : list Z :=
  match next with
  | b :: next' => if b <=? row_idx then skip_begins row_idx next' else next
  | [] => []
  end.

Definition RankEvaluate (c : Comparator) (early_out : bool) (g : WindowPeerGlobalState)
    (s : WindowPeerLocalState) (predicate_value : Z) (partition_begins : list Z) (bounds : DataChunk)
    (result : list Z) (count row_idx : Z) : option (WindowPeerLocalState * RankResult) :=
  let r := mkResult result (replicate (Z.to_nat count) 0) 0 in
  if use_framing g then
    let frame_begin := znth 0 (bounds FRAME_BEGIN) in
    let frame_end := znth 0 (bounds FRAME_END) in
    let rank_of :=
      match token_tree g with
      | Some tree => fun i row_idx => i64 (Rank tree (frame_begin i) (frame_end i) row_idx)
      | None => fun i _ =>
          let frame_peer_begin := Z.max (frame_begin i) (znth 0 (bounds PEER_BEGIN) i) in
          i64 (u64 (u64 (frame_peer_begin - frame_begin i) + 1))
      end in
    r ← frame_rank_loop c early_out predicate_value rank_of (Z.to_nat count) 0 row_idx r;
    Some (s, r)
  else
    let s := reset_rank s (znth 0 (bounds PARTITION_BEGIN) 0) (znth 0 (bounds PEER_BEGIN) 0) row_idx in
    let next := if early_out then skip_begins row_idx partition_begins else [] in
    rank_loop c early_out predicate_value bounds count next 0 row_idx s r.

(** ** DENSE_RANK *)

Definition count_bits (entry from to : Z) : Z := zcount (EntryRowIsValid entry) from to.

(** The number of bits of [order_mask] in [[order_begin, order_end)]; the tail is
    a mask at [order_mask.GetData() + begin_idx], undefined without a bitmap
    unless [begin_idx] is 0. *)
Definition tail_mask (order_mask : ValidityMask) (begin_idx end_idx : Z) : option ValidityMask :=
  match validity_mask order_mask with
  | Some data => Some (mkMask (Some (drop (Z.to_nat begin_idx) data)) (end_idx - begin_idx))
  | None => if begin_idx =? 0 then Some (mkMask None (end_idx - begin_idx)) else None
  end.

Definition previous_dense_rank (order_mask : ValidityMask) (order_begin order_end : Z) : option Z :=
  let '(begin_idx, begin_offset) := GetEntryIndex order_begin in
  let '(end_idx, end_offset) := GetEntryIndex order_end in
  if begin_idx =? end_idx then
    Some (count_bits (GetValidityEntry order_mask begin_idx) begin_offset end_offset)
  else
    let '(ragged, order_begin, begin_idx) :=
      if begin_offset =? 0 then (0, order_begin, begin_idx)
      else (count_bits (GetValidityEntry order_mask begin_idx) begin_offset BITS_PER_VALUE,
            order_begin + (BITS_PER_VALUE - begin_offset), begin_idx + 1) in
    tail ← tail_mask order_mask begin_idx end_idx;
    Some (ragged + CountValid tail (order_end - order_begin)).

(** The loop shared by DENSE_RANK and PERCENT_RANK: [value] is what is stored. *)
Fixpoint next_rank_loop {A} (value : WindowPeerLocalState -> Z -> A) (bounds : DataChunk) (n : nat)
    (i row_idx : Z) (s : WindowPeerLocalState) : WindowPeerLocalState * list A :=
  match n with
  | O => (s, [])
  | S n =>
      let s := NextRank s (znth 0 (bounds PARTITION_BEGIN) i) (znth 0 (bounds PEER_BEGIN) i) row_idx in
      let '(s', vs) := next_rank_loop value bounds n (i + 1) (row_idx + 1) s in
      (s', value s i :: vs)
  end.

(** [NumericCast<int64_t>] of an unsigned value *)
Definition NumericCast_int64 (z : Z) : res Z := if z <? 2 ^ 63 then Ok z else Throw InternalException.

Definition DenseRankEvaluate (order_mask : ValidityMask) (s : WindowPeerLocalState) (bounds : DataChunk)
    (count row_idx : Z) : option (res (list Z)) :=
  let partition_begin0 := znth 0 (bounds PARTITION_BEGIN) 0 in
  let s := reset_rank s partition_begin0 (znth 0 (bounds PEER_BEGIN) 0) row_idx in
  d ← previous_dense_rank order_mask partition_begin0 row_idx;
  let s := mkPeer d (rank_equal s) (rank s) in
  let '(_, vs) := next_rank_loop (fun s _ => dense_rank s) bounds (Z.to_nat count) 0 row_idx s in
  Some (mapM NumericCast_int64 vs).

(** ** PERCENT_RANK and CUME_DIST *)

Definition PercentRank (begin_ end_ rank : Z) : res double :=
  d ← NumericCast_int64 (u64 (end_ - begin_ - 1));
  let denom := double_of_int d in
  Ok (if double_positive denom
      then double_div (double_sub (double_of_int rank) (double_of_int 1)) denom
      else S754_zero false).

Definition CumeDist (begin_ end_ peer_end : Z) : res double :=
  d ← NumericCast_int64 (u64 (end_ - begin_));
  let denom := double_of_int d in
  let num := double_of_int (u64 (peer_end - begin_)) in
  Ok (if double_positive denom then double_div num denom else S754_zero false).

Definition PercentRankEvaluate (g : WindowPeerGlobalState) (s : WindowPeerLocalState) (bounds : DataChunk)
    (count row_idx : Z) : res (list double) :=
  let frame_begin := znth 0 (bounds FRAME_BEGIN) in
  let frame_end := znth 0 (bounds FRAME_END) in
  if use_framing g then
    match token_tree g with
    | Some tree =>
        mapM (fun i => PercentRank (frame_begin i) (frame_end i)
                         (Rank tree (frame_begin i) (frame_end i) (row_idx + i))) (zrange 0 count)
    | None =>
        mapM (fun i =>
          let frame_peer_begin := Z.max (frame_begin i) (znth 0 (bounds PEER_BEGIN) i) in
          PercentRank (frame_begin i) (frame_end i) (u64 (u64 (frame_peer_begin - frame_begin i) + 1)))
          (zrange 0 count)
    end
  else
    let s := reset_rank s (znth 0 (bounds PARTITION_BEGIN) 0) (znth 0 (bounds PEER_BEGIN) 0) row_idx in
    let '(_, vs) := next_rank_loop (fun s i =>
      PercentRank (znth 0 (bounds PARTITION_BEGIN) i) (znth 0 (bounds PARTITION_END) i) (rank s))
      bounds (Z.to_nat count) 0 row_idx s in
    mapM id vs.

Definition CumeDistEvaluate (g : WindowPeerGlobalState) (bounds : DataChunk) (count row_idx : Z)
    : res (list double) :=
  let frame_begin := znth 0 (bounds FRAME_BEGIN) in
  let frame_end := znth 0 (bounds FRAME_END) in
  let peer_end := znth 0 (bounds PEER_END) in
  if use_framing g then
    match token_tree g with
    | Some tree =>
        mapM (fun i => CumeDist (frame_begin i) (frame_end i)
                         (PeerEnd_tree tree (frame_begin i) (frame_end i) (row_idx + i))) (zrange 0 count)
    | None =>
        mapM (fun i => CumeDist (frame_begin i) (frame_end i) (Z.min (peer_end i) (frame_end i)))
          (zrange 0 count)
    end
  else
    mapM (fun i => CumeDist (znth 0 (bounds PARTITION_BEGIN) i) (znth 0 (bounds PARTITION_END) i) (peer_end i))
      (zrange 0 count).

(** ** The rank of a row *)

(** The state after a row, and a state from which [NextRank] gives it. *)
Section next_rank.
Context (pb peer_b : Z -> Z) (N : Z).
Hypothesis Hsmall : 0 <= N < 2 ^ 63.
Hypothesis Hnest : forall i, 0 <= i < N -> 0 <= pb i <= peer_b i /\ peer_b i <= i.
Hypothesis Hstep : forall i, 0 <= i -> i + 1 < N ->
  pb (i + 1) = i + 1 \/
  (pb (i + 1) = pb i /\ (peer_b (i + 1) = i + 1 \/ peer_b (i + 1) = peer_b i)).

Definition row_rank (i : Z) : Z := peer_b i - pb i + 1.

Definition after_row (i : Z) (s : WindowPeerLocalState) : Prop :=
  rank s = row_rank i /\ rank_equal s = i + 1 - peer_b i.

Definition before_row (i : Z) (s : WindowPeerLocalState) : Prop :=
  pb i <> i ->
  (peer_b i = i -> rank s + rank_equal s = row_rank i /\ 0 <= rank s /\ 0 <= rank_equal s) /\
  (peer_b i <> i -> rank s = row_rank i /\ rank_equal s = i - peer_b i).

Lemma NextRank_after i s :
  0 <= i < N -> before_row i s -> after_row i (NextRank s (pb i) (peer_b i) i).
Proof.
  intros Hi Hs. pose proof (Hnest i Hi). unfold NextRank, after_row, before_row, row_rank in *.
  destruct (Z.eqb_spec (pb i) i) as [E |]; cbn [rank rank_equal].
  { rewrite u64_small by lia. split; lia. }
  destruct (Hs ltac:(done)) as [H1 H2]. destruct (Z.eqb_spec (peer_b i) i) as [E |]; cbn [rank rank_equal].
  - destruct (H1 E) as (? & ? & ?). rewrite !u64_small by lia. split; lia.
  - destruct (H2 ltac:(done)) as [-> ->]. rewrite u64_small by lia. split; lia.
Qed.

Lemma after_before i s : 0 <= i -> i + 1 < N -> after_row i s -> before_row (i + 1) s.
Proof.
  intros Hi Hn [H1 H2] Hne. pose proof (Hnest i ltac:(lia)). unfold row_rank in *.
  destruct (Hstep i Hi Hn) as [? | [Hpb Hpeer]]; [done |]. rewrite Hpb.
  destruct Hpeer as [-> | ->]; split; intros; lia.
Qed.

Lemma reset_before i s : 0 <= i < N -> before_row i (reset_rank s (pb i) (peer_b i) i).
Proof.
  intros Hi Hne. pose proof (Hnest i Hi). unfold reset_rank, row_rank. cbn [rank rank_equal].
  rewrite (u64_small (i - _)), (u64_small (peer_b i - pb i)), u64_small by lia. lia.
Qed.

Lemma before_start i s : pb i = i -> before_row i s.
Proof. by intros ?. Qed.

Lemma row_rank_range i : 0 <= i < N -> 1 <= row_rank i < 2 ^ 63.
Proof. intros Hi. pose proof (Hnest i Hi). unfold row_rank. lia. Qed.

(** *** The rows of a chunk *)

Context (bounds : DataChunk) (row0 count : Z).
Hypothesis Hrows : 0 <= row0 /\ 0 <= count /\ row0 + count <= N.
Hypothesis Hpb : bounds PARTITION_BEGIN = pb <$> zrange row0 (row0 + count).
Hypothesis Hpeer : bounds PEER_BEGIN = peer_b <$> zrange row0 (row0 + count).

Lemma column_pb i : 0 <= i < count -> znth 0 (bounds PARTITION_BEGIN) i = pb (row0 + i).
Proof. intros. by rewrite Hpb, znth_rows. Qed.

Lemma column_peer i : 0 <= i < count -> znth 0 (bounds PEER_BEGIN) i = peer_b (row0 + i).
Proof. intros. by rewrite Hpeer, znth_rows. Qed.

Lemma next_rank_loop_rows {A} (value : WindowPeerLocalState -> Z -> A) (f : Z -> A)
    (J : Z -> WindowPeerLocalState -> Prop) n i s :
  Z.of_nat n = count - i -> 0 <= i ->
  (forall i s, 0 <= i < count -> J i s ->
    let s' := NextRank s (pb (row0 + i)) (peer_b (row0 + i)) (row0 + i) in
    value s' i = f i /\ J (i + 1) s') ->
  J i s -> snd (next_rank_loop value bounds n i (row0 + i) s) = f <$> zrange i count.
Proof.
  intros Hn Hi HJ. revert i s Hn Hi. induction n as [| n IH]; intros i s Hn Hi Hs; cbn [next_rank_loop].
  { rewrite zrange_nil by lia. done. }
  rewrite column_pb, column_peer by lia. destruct (HJ i s ltac:(lia) Hs) as [Hv Hs'].
  specialize (IH (i + 1) _ ltac:(lia) ltac:(lia) Hs'). replace (row0 + (i + 1)) with (row0 + i + 1) in IH by lia.
  destruct (next_rank_loop _ _ n (i + 1) _ _) as [s2 vs]. simpl in *. rewrite zrange_cons by lia.
  by rewrite Hv, IH.
Qed.

(** What has been written when the rows up to [i] are done and the rows of [l]
    were selected; [done j] says whether row [j] was evaluated. *)
Record written (c : Comparator) (evaluated : Z -> Prop) (l : list Z) (r : RankResult) : Prop := {
  wr_len : count <= Z.of_nat (length (rdata r));
  wr_data : forall j, 0 <= j -> evaluated j -> znth 0 (rdata r) j = row_rank (row0 + j);
  wr_count : match_count r = if c then 0 else Z.of_nat (length l);
  wr_sel : c = LessEqual -> take (length l) (sel r) = l;
  wr_sel_len : Z.of_nat (length (sel r)) = count
}.

Lemma store_written c ev l r i :
  0 <= i < count -> written c ev l r ->
  exists r', store r i (row_rank (row0 + i)) = Some r' /\
    written c (fun j => ev j \/ j = i) l r'.
Proof.
  intros Hi Hw. pose proof (wr_len _ _ _ _ Hw). unfold store. rewrite zstore_Some by lia. simpl.
  eexists. split; [done |]. constructor; cbn [rdata sel match_count].
  - rewrite length_insert. lia.
  - intros j Hj Hev. rewrite znth_insert by lia. case_decide; [by subst |].
    destruct Hev; [by apply (wr_data _ _ _ _ Hw) | by subst].
  - apply Hw.
  - apply Hw.
  - apply Hw.
Qed.

Lemma select_written c ev l r i :
  Z.of_nat (length l) < count -> written c ev l r ->
  exists r', select c r i = Some r' /\ written c ev (l ++ [i]) r'.
Proof.
  intros Hl Hw. unfold select. destruct c.
  { exists r. split; [done |]. constructor; try apply Hw; done. }
  pose proof (wr_count _ _ _ _ Hw) as Hc. pose proof (wr_sel_len _ _ _ _ Hw) as Hsl. simpl in Hc.
  rewrite Hc, zstore_Some by lia. simpl. eexists. split; [done |].
  constructor; cbn [rdata sel match_count]; try apply Hw.
  - rewrite length_app. simpl. lia.
  - intros _. rewrite Nat2Z.id, length_app. simpl. rewrite Nat.add_1_r.
    rewrite take_S_r with (x := i).
    + rewrite take_insert_ge by lia. by rewrite (wr_sel _ _ _ _ Hw).
    + rewrite list_lookup_insert_eq by lia. done.
  - by rewrite length_insert.
Qed.

Context (c : Comparator) (early_out : bool) (k : Z).
Definition row_matches (i : Z) : bool := matches c k (row_rank (row0 + i)).

(** The rows before [i] that are evaluated in any case. *)
Definition evaluated (i j : Z) : Prop := 0 <= j < i /\ (early_out = false \/ row_matches j = true).

Definition done_rows (i : Z) (r : RankResult) : Prop :=
  written c (evaluated i) (starts row_matches 0 i) r.

Lemma written_weaken ev ev' l r :
  (forall j, 0 <= j -> ev' j -> ev j) -> written c ev l r -> written c ev' l r.
Proof.
  intros Hev Hw. constructor; try apply Hw. intros j Hj Hj'. apply (wr_data _ _ _ _ Hw); auto.
Qed.

Lemma starts_next i :
  0 <= i -> starts row_matches 0 (i + 1) = starts row_matches 0 i ++ (if row_matches i then [i] else []).
Proof. intros. rewrite starts_snoc by lia. by replace (i + 1 - 1) with i by lia. Qed.

Lemma starts_length i : 0 <= i -> Z.of_nat (length (starts row_matches 0 i)) <= i.
Proof. intros. rewrite length_starts. pose proof (zcount_le row_matches 0 i). lia. Qed.

(** The step shared by the loops: the rank of row [i] is stored, and the row is
    selected when it matches. *)
Lemma row_step i r :
  0 <= i < count -> done_rows i r ->
  exists r', store r i (row_rank (row0 + i)) = Some r' /\
    (row_matches i = true -> exists r2, select c r' i = Some r2 /\ done_rows (i + 1) r2) /\
    (row_matches i = false -> done_rows (i + 1) r').
Proof.
  intros Hi Hw. destruct (store_written c _ _ r i Hi Hw) as (r' & Hst & Hw').
  exists r'. split; [done |]. unfold done_rows. rewrite starts_next by lia. split; intros Hm; rewrite Hm.
  - destruct (select_written c _ (starts row_matches 0 i) r' i ltac:(pose proof (starts_length i); lia) Hw') as (r2 & Hsel & Hw2).
    exists r2. split; [done |]. eapply written_weaken; [| done].
    intros j Hj (Hji & Hev). destruct (decide (j = i)); [by right | left]. split; [lia | done].
  - rewrite app_nil_r. eapply written_weaken; [| done].
    intros j Hj (Hji & Hev). destruct (decide (j = i)); [by right | left]. split; [lia | done].
Qed.

Lemma rank_rows_spec n i s r :
  Z.of_nat n = count - i -> 0 <= i -> (i < count -> before_row (row0 + i) s) -> done_rows i r ->
  exists s' r' stop, rank_rows c early_out k bounds n i (row0 + i) s r = Some (s', r', stop) /\
    match stop with
    | None => done_rows count r'
    | Some (j, row) =>
        early_out = true /\ i <= j < count /\ row = row0 + j /\ row_matches j = false /\
        (forall x, i <= x < j -> row_matches x = true) /\ done_rows (j + 1) r'
    end.
Proof.
  intros Hn Hi Hs Hw. revert i s r Hn Hi Hs Hw. induction n as [| n IH]; intros i s r Hn Hi Hs Hw.
  { cbn [rank_rows]. exists s, r, None. split; [done |]. by replace count with i by lia. }
  cbn [rank_rows]. rewrite column_pb, column_peer by lia.
  pose proof (NextRank_after (row0 + i) s ltac:(lia) (Hs ltac:(lia))) as Hafter.
  set (s1 := NextRank s _ _ _) in *. destruct Hafter as [Hr1 Hr2].
  pose proof (row_rank_range (row0 + i) ltac:(lia)). rewrite Hr1, i64_small by lia.
  destruct (row_step i r ltac:(lia) Hw) as (r1 & -> & Hmatch & Hmiss). cbn [mbind option_bind].
  fold (row_matches i).
  assert (i + 1 < count -> before_row (row0 + (i + 1)) s1) as Hs1.
  { intros. replace (row0 + (i + 1)) with (row0 + i + 1) by lia. apply after_before; [lia | lia | done]. }
  replace (row0 + i + 1) with (row0 + (i + 1)) by lia.
  destruct (row_matches i) eqn:Hm.
  - destruct (Hmatch eq_refl) as (r2 & -> & Hw2). cbn [mbind option_bind].
    destruct (IH (i + 1) s1 r2 ltac:(lia) ltac:(lia) Hs1 Hw2) as (s' & r' & stop & -> & Hstop).
    exists s', r', stop. split; [done |]. destruct stop as [[j row] |]; [| done].
    destruct Hstop as (He & Hj & Hrow & Hmj & Hall & Hd). split_and!; try done; try lia.
    intros x Hx. destruct (decide (x = i)) as [-> |]; [done | apply Hall; lia].
  - destruct early_out eqn:He.
    + exists s1, r1, (Some (i, row0 + i)). split; [done |]. split_and!; try done; try lia. by apply Hmiss.
    + destruct (IH (i + 1) s1 r1 ltac:(lia) ltac:(lia) Hs1 (Hmiss eq_refl)) as (s' & r' & stop & -> & Hstop).
      exists s', r', stop. split; [done |]. destruct stop as [[j row] |]; [| done].
      destruct Hstop as (? & _). done.
Qed.

Lemma done_rows_skip i j r :
  0 <= i <= j -> j <= count -> early_out = true -> (forall x, i <= x < j -> row_matches x = false) ->
  done_rows i r -> done_rows j r.
Proof.
  intros Hi Hj He Hmiss Hw. unfold done_rows. rewrite (starts_split row_matches 0 i j) by lia.
  assert (starts row_matches i j = []) as ->.
  { pose proof (length_starts row_matches i j) as Hl. rewrite zcount_none in Hl by done.
    by destruct (starts row_matches i j). }
  rewrite app_nil_r. eapply written_weaken; [| exact Hw]. intros x Hx (Hxj & [? | Hm]); [congruence |].
  split; [| by right]. destruct (decide (x < i)); [lia |]. rewrite Hmiss in Hm; [done | lia].
Qed.

Lemma rank_loop_all next i s r :
  early_out = false -> 0 <= i <= count -> (i < count -> before_row (row0 + i) s) -> done_rows i r ->
  exists s' r', rank_loop c early_out k bounds count next i (row0 + i) s r = Some (s', r') /\
    done_rows count r'.
Proof.
  intros He Hi Hs Hw.
  destruct (rank_rows_spec (Z.to_nat (count - i)) i s r) as (s' & r' & stop & Hr & Hstop); try done; try lia.
  exists s', r'. destruct next; cbn [rank_loop]; rewrite Hr; cbn [mbind option_bind];
    (destruct stop as [[j row] |]; [destruct Hstop; congruence | done]).
Qed.

(** *** Skipping partitions *)

Context (P : Z -> bool).
Hypothesis HPstart : forall i, 0 <= i < N -> P i = true -> pb i = i.
Hypothesis HPsame : forall i, 0 < i < N -> P i = false -> pb i = pb (i - 1).
Hypothesis Hmono : forall i j, 0 <= i <= j -> j < N -> pb j = pb i -> peer_b i <= peer_b j.

Lemma same_partition i j :
  0 <= i <= j -> j < N -> (forall x, i < x <= j -> P x = false) -> pb j = pb i.
Proof.
  intros Hij Hj HP. replace j with (i + Z.of_nat (Z.to_nat (j - i))) by lia.
  assert (forall n : nat, Z.of_nat n <= j - i -> pb (i + Z.of_nat n) = pb i) as Hn; [| apply Hn; lia].
  induction n as [| n IH]; intros Hle; [f_equal; lia |].
  rewrite HPsame; [| lia | apply HP; lia]. rewrite <- IH by lia. f_equal. lia.
Qed.

(** After a row that does not match, no row of its partition matches. *)
Lemma miss_rest j x :
  0 <= j <= x -> x < count -> (forall y, row0 + j < y <= row0 + x -> P y = false) ->
  row_matches j = false -> row_matches x = false.
Proof.
  intros Hj Hx HP Hm. unfold row_matches, matches in *. destruct c; [done |].
  apply Z.leb_gt in Hm. apply Z.leb_gt.
  pose proof (same_partition (row0 + j) (row0 + x) ltac:(lia) ltac:(lia) HP) as E.
  pose proof (Hmono (row0 + j) (row0 + x) ltac:(lia) ltac:(lia) E). unfold row_rank in *. lia.
Qed.

Lemma starts_cons_inv V l r b t :
  starts V l r = b :: t ->
  l <= b < r /\ V b = true /\ (forall x, l <= x < b -> V x = false) /\ t = starts V (b + 1) r.
Proof.
  intros E. assert (b ∈ starts V l r) as Hb by (rewrite E; left). apply elem_of_starts in Hb as [Hb HV].
  assert (b = nth_start V l r 1) as Hn by (unfold nth_start; by rewrite E).
  assert (forall x, l <= x < b -> V x = false) as Hx.
  { intros x Hx. apply (nth_start_before V l r x); lia. }
  split_and!; try done; try lia.
  rewrite (starts_split V l b r), (starts_cons V b r), HV in E by lia.
  assert (starts V l b = []) as E0.
  { pose proof (length_starts V l b) as Hl. rewrite zcount_none in Hl by done. by destruct (starts V l b). }
  rewrite E0 in E. by injection E.
Qed.

Lemma starts_empty V l r : (forall x, l <= x < r -> V x = false) -> starts V l r = [].
Proof.
  intros Hx. pose proof (length_starts V l r) as Hl. rewrite zcount_none in Hl by done.
  by destruct (starts V l r).
Qed.

Lemma starts_empty_inv V l r x : starts V l r = [] -> l <= x < r -> V x = false.
Proof.
  intros E Hx. destruct (V x) eqn:HV; [| done].
  assert (x ∈ starts V l r) as Hin by (by apply elem_of_starts). rewrite E in Hin. by apply not_elem_of_nil in Hin.
Qed.

(** The partitions whose rows all match come after those with a row that does
    not. *)
Definition misses_first : Prop :=
  forall b, row0 < b < row0 + count -> P b = true ->
    (exists j, b - row0 <= j < count /\ row_matches j = false) -> row_matches (b - 1 - row0) = false.

Lemma rank_loop_early next i s r :
  early_out = true -> misses_first -> 0 <= i <= count ->
  next = starts P (row0 + i + 1) (row0 + count) ->
  (i < count -> before_row (row0 + i) s) -> done_rows i r ->
  exists s' r', rank_loop c early_out k bounds count next i (row0 + i) s r = Some (s', r') /\
    done_rows count r'.
Proof.
  intros He Hfirst. revert i s r. induction next as [| b next IH]; intros i s r Hi Hnext Hs Hw;
    destruct (rank_rows_spec (Z.to_nat (count - i)) i s r) as (s1 & r1 & stop & Hr & Hstop); try done; try lia;
    cbn [rank_loop]; rewrite Hr; cbn [mbind option_bind];
    (destruct stop as [[j row] |]; [| by exists s1, r1]);
    destruct Hstop as (_ & Hj & -> & Hmj & Hall & Hd);
    assert (forall x, row0 + i < x <= row0 + j -> P x = false) as Hno by
      (intros x Hx; destruct (P x) eqn:EP; [| done];
       specialize (Hfirst x ltac:(lia) EP ltac:(exists j; split; [lia | done]));
       rewrite Hall in Hfirst; [done | lia]).
  - exists s1, r1. split; [done |]. apply (done_rows_skip (j + 1)); try done; try lia.
    intros x Hx. apply (miss_rest j); try done; try lia. intros y Hy.
    apply (starts_empty_inv P (row0 + i + 1) (row0 + count)); [done | lia].
  - symmetry in Hnext. rewrite (starts_split P _ (row0 + j + 1)) in Hnext by lia.
    rewrite (starts_empty P (row0 + i + 1)) in Hnext by (intros; apply Hno; lia).
    apply starts_cons_inv in Hnext as (Hb & HPb & Hbetween & ->).
    rewrite (u64_small (b - _ - 1)) by lia. rewrite (u64_small (j + _)), (u64_small (_ + 1)) by lia.
    rewrite (u64_small (b - 1)), (u64_small (b - 1 + 1)) by lia.
    replace (j + (b - (row0 + j) - 1) + 1) with (b - row0) by lia.
    replace (b - 1 + 1) with (row0 + (b - row0)) by lia.
    apply IH; [lia | f_equal; lia | | apply (done_rows_skip (j + 1)); try done; try lia].
    + intros _. apply before_start. replace (row0 + (b - row0)) with b by lia. apply HPstart; [lia | done].
    + intros x Hx. apply (miss_rest j); try done; try lia. intros y Hy. apply Hbetween. lia.
Qed.
End next_rank.

(** ** DENSE_RANK: the bits of the order mask *)

Lemma count_bits_rows mask e from to :
  0 <= e -> 0 <= from <= to -> to <= 64 ->
  count_bits (GetValidityEntry mask e) from to = zcount (RowIsValid mask) (e * 64 + from) (e * 64 + to).
Proof.
  intros He Hf Ht. unfold count_bits.
  replace (e * 64 + from) with (from + e * 64) by lia. replace (e * 64 + to) with (to + e * 64) by lia.
  rewrite zcount_shift. apply zcount_ext. intros i Hi.
  pose proof (block_rows mask (e * 64) i ltac:(lia)) as Hb. rewrite Z.mod_mul, Z.div_mul in Hb by lia.
  rewrite Z.add_0_l in Hb. rewrite Hb by lia. f_equal. lia.
Qed.

Lemma wf_entries_drop data n : wf_entries data -> wf_entries (drop n data).
Proof. apply Forall_drop. Qed.

Lemma data_bit_drop data b i : 0 <= b -> 0 <= i -> data_bit (drop (Z.to_nat b) data) i = data_bit data (b * 64 + i).
Proof.
  intros Hb Hi. unfold data_bit. replace ((b * 64 + i) / 64) with (b + i / 64) by zdm.
  replace ((b * 64 + i) mod 64) with (i mod 64) by zdm. f_equal. unfold znth. f_equal.
  rewrite lookup_drop. f_equal. assert (0 <= i / 64) by zdm. lia.
Qed.

Lemma tail_count data cap b e n :
  wf_entries data -> 0 <= b -> 0 <= n -> b * 64 + n <= Z.of_nat (length data) * 64 ->
  CountValid (mkMask (Some (drop (Z.to_nat b) data)) e) n =
  zcount (RowIsValid (mkMask (Some data) cap)) (b * 64) (b * 64 + n).
Proof.
  intros Hd Hb Hn Hl. rewrite CountValid_count; [| | done].
  - replace (b * 64) with (0 + b * 64) at 1 by lia. replace (b * 64 + n) with (n + b * 64) by lia.
    rewrite zcount_shift. apply zcount_ext. intros i Hi. rewrite !RowIsValid_data, data_bit_drop by lia.
    f_equal. lia.
  - split; [| by apply wf_entries_drop]. rewrite length_drop.
    assert (EntryCount n <= Z.of_nat (length data) - b); [| lia].
    unfold EntryCount, BITS_PER_VALUE. zdm.
Qed.

Lemma previous_dense_rank_count data cap n a b :
  wf_mask (mkMask (Some data) cap) n -> 0 <= a <= b -> b <= n ->
  previous_dense_rank (mkMask (Some data) cap) a b = Some (zcount (RowIsValid (mkMask (Some data) cap)) a b).
Proof.
  intros [Hl Hd] Ha Hb. unfold previous_dense_rank, GetEntryIndex, BITS_PER_VALUE. set (m := mkMask (Some data) cap).
  simpl in Hl. assert (n <= Z.of_nat (length data) * 64) as Hln by (unfold EntryCount, BITS_PER_VALUE in Hl; zdm).
  destruct (Z.eqb_spec (a / 64) (b / 64)) as [E | E].
  - rewrite count_bits_rows by zdm. f_equal. f_equal; zdm.
  - destruct (Z.eqb_spec (a mod 64) 0) as [E0 | E0]; cbn [tail_mask validity_mask m mbind option_bind].
    + rewrite (tail_count data cap) by (done || zdm). f_equal. fold m.
      replace (a / 64 * 64) with a by zdm. replace (a + (b - a)) with b by lia. lia.
    + rewrite (tail_count data cap) by (done || zdm). fold m. rewrite count_bits_rows by zdm. f_equal.
      replace (a / 64 * 64 + a mod 64) with a by zdm.
      replace (a / 64 * 64 + 64) with ((a / 64 + 1) * 64) by zdm.
      replace ((a / 64 + 1) * 64 + (b - (a + (64 - a mod 64)))) with b by zdm.
      symmetry. apply zcount_split. zdm.
Qed.

(** ** Chunks of the window *)

Section rank_chunks.
Context (partition_mask order_mask : ValidityMask) (pc oc N : Z).
Abbreviation P := (RowIsValid partition_mask).
Abbreviation O := (RowIsValid order_mask).
Abbreviation pb := (part_begin P pc oc).
Abbreviation pe := (part_end P N pc oc).
Abbreviation peer_b := (peer_first O pc oc).
Hypothesis Hok : masks_ok partition_mask order_mask pc oc N.

(** The bounds of the chunk of [count] rows at [row], as Bounds computes them. *)
Record rank_bounds (bounds : DataChunk) (row count : Z) : Prop := {
  rb_rows : 0 <= row /\ 0 < count /\ row + count <= N;
  rb_pb : bounds PARTITION_BEGIN = pb <$> zrange row (row + count);
  rb_peer : bounds PEER_BEGIN = peer_b <$> zrange row (row + count)
}.

Lemma nest i : 0 <= i < N -> 0 <= pb i <= peer_b i /\ peer_b i <= i.
Proof.
  intros Hi. pose proof (pb_range partition_mask pc oc i ltac:(lia)).
  pose proof (peer_b_bounds _ _ _ _ _ Hok i Hi). lia.
Qed.

Lemma step i :
  0 <= i -> i + 1 < N ->
  pb (i + 1) = i + 1 \/
  (pb (i + 1) = pb i /\ (peer_b (i + 1) = i + 1 \/ peer_b (i + 1) = peer_b i)).
Proof. apply (bounds_step partition_mask order_mask pc oc N). Qed.

Lemma start_written c k result row count :
  0 <= count -> count <= Z.of_nat (length result) ->
  done_rows pb peer_b row count c false k 0 (mkResult result (replicate (Z.to_nat count) 0) 0) /\
  done_rows pb peer_b row count c true k 0 (mkResult result (replicate (Z.to_nat count) 0) 0).
Proof.
  intros Hc Hl. split; constructor; cbn [rdata sel match_count]; try done;
    rewrite ?starts_nil, ?length_replicate by lia; try done; try lia;
    try (intros j Hj (? & _); lia); by destruct c.
Qed.

Lemma RankEvaluate_rows c early k g s begins bounds result row count :
  use_framing g = false -> rank_bounds bounds row count -> count <= Z.of_nat (length result) ->
  (early = true -> pc + oc <> 0 /\ begins = starts P row (row + count) /\
                   misses_first pb peer_b row count c k P) ->
  exists s' r, RankEvaluate c early g s k begins bounds result count row = Some (s', r) /\
    done_rows pb peer_b row count c early k count r.
Proof.
  intros Hg [Hrows Hpb Hpeer] Hl Hearly. pose proof (ok_size _ _ _ _ _ Hok) as HN.
  destruct (start_written c k result row count ltac:(lia) Hl) as [Hw0 Hw1].
  unfold RankEvaluate. rewrite Hg, Hpb, Hpeer, !znth_rows, Z.add_0_r by lia.
  set (s0 := reset_rank s _ _ _).
  assert (before_row pb peer_b (row + 0) s0) as Hs0.
  { rewrite Z.add_0_r. apply (reset_before pb peer_b N HN nest). lia. }
  rewrite Z.add_0_r in Hs0. destruct early.
  - destruct (Hearly eq_refl) as (Ha & -> & Hfirst).
    pose proof (rank_loop_early pb peer_b N HN nest step bounds row count ltac:(lia) Hpb Hpeer c true k P) as HL.
    specialize (HL ltac:(intros; apply pb_start; done || lia) ltac:(intros; apply pb_same; done || lia)
      ltac:(intros; apply (peer_b_mono partition_mask order_mask pc oc N Hok); done || lia)
      (skip_begins row (starts P row (row + count))) 0 s0 (mkResult result (replicate (Z.to_nat count) 0) 0)).
    rewrite Z.add_0_r in HL. apply HL; try done; try lia.
    rewrite starts_cons by lia.
    assert (forall l, (forall x, x ∈ l -> row < x) -> skip_begins row l = l) as Hskip.
    { intros [| x l] Hx; [done |]. simpl. by rewrite (proj2 (Z.leb_gt _ _)) by (apply Hx; left). }
    destruct (P row); simpl; rewrite ?Z.leb_refl; apply Hskip; intros x Hx%elem_of_starts; lia.
  - pose proof (rank_loop_all pb peer_b N HN nest step bounds row count ltac:(lia) Hpb Hpeer c false k
      [] 0 s0 (mkResult result (replicate (Z.to_nat count) 0) 0)) as HL.
    rewrite Z.add_0_r in HL. apply HL; try done; lia.
Qed.

(** *** DENSE_RANK *)

Definition row_dense (i : Z) : Z := zcount O (pb i) (i + 1).

Definition dense_before (row i : Z) (s : WindowPeerLocalState) : Prop :=
  row + i < N -> pb (row + i) <> row + i -> dense_rank s = zcount O (pb (row + i)) (row + i).

Lemma dense_step row i s :
  pc + oc <> 0 -> 0 <= row -> 0 <= i -> row + i < N -> dense_before row i s ->
  let s' := NextRank s (pb (row + i)) (peer_b (row + i)) (row + i) in
  dense_rank s' = row_dense (row + i) /\ dense_before row (i + 1) s'.
Proof.
  intros Ha Hrow Hi Hn Hs s'. set (r := row + i) in *.
  pose proof (ok_size _ _ _ _ _ Hok) as HN. pose proof (nest r ltac:(lia)) as Hnest.
  assert (dense_rank s' = row_dense r) as Hd.
  { unfold s', NextRank, row_dense. rewrite zcount_snoc by lia.
    destruct (Z.eqb_spec (pb r) r) as [E | E]; cbn [dense_rank].
    - rewrite E, zcount_nil by lia. destruct (P r) eqn:HP.
      { by rewrite (ok_order _ _ _ _ _ Hok r ltac:(lia) HP). }
      exfalso. destruct (decide (r = 0)) as [E0 |]; [by rewrite E0, (ok_first _ _ _ _ _ Hok) in HP |].
      rewrite (pb_same partition_mask) in E by (done || lia).
      pose proof (pb_range partition_mask pc oc (r - 1) ltac:(lia)). lia.
    - specialize (Hs Hn E). fold r in Hs. pose proof (zcount_le O (pb r) r). pose proof (zcount_nonneg O (pb r) r).
      destruct (O r) eqn:HO.
      + rewrite (proj2 (Z.eqb_eq (peer_b r) r)) by (apply peer_b_start; done || lia). cbn [dense_rank Z.b2z].
        rewrite u64_small by lia. lia.
      + assert (peer_b r <> r) as Hne.
        { intros Hp. rewrite (peer_b_same order_mask) in Hp by (done || lia).
          pose proof (peer_b_range order_mask pc oc (r - 1) ltac:(lia)). lia. }
        rewrite (proj2 (Z.eqb_neq _ _)) by done. cbn [dense_rank Z.b2z]. lia. }
  split; [done |]. intros Hn' Hne. replace (row + (i + 1)) with (r + 1) in * by lia.
  rewrite Hd. unfold row_dense. f_equal.
  destruct (step r ltac:(lia) ltac:(lia)) as [? | [-> _]]; done.
Qed.

Lemma DenseRankEvaluate_rows data cap s bounds row count :
  order_mask = mkMask (Some data) cap -> wf_mask order_mask N -> pc + oc <> 0 ->
  rank_bounds bounds row count ->
  DenseRankEvaluate order_mask s bounds count row = Some (Ok (row_dense <$> zrange row (row + count))).
Proof.
  intros Hm Hwf Ha [Hrows Hpb Hpeer]. unfold DenseRankEvaluate. pose proof (ok_size _ _ _ _ _ Hok) as HN.
  rewrite Hpb, Hpeer, !znth_rows, Z.add_0_r by lia. pose proof (nest row ltac:(lia)).
  assert (previous_dense_rank order_mask (pb row) row = Some (zcount O (pb row) row)) as ->.
  { rewrite Hm. apply (previous_dense_rank_count data cap N); [by rewrite <- Hm | lia | lia]. }
  cbn [mbind option_bind]. set (s0 := mkPeer _ _ _).
  pose proof (next_rank_loop_rows pb peer_b bounds row count Hpb Hpeer
    (fun s _ => dense_rank s) (fun i => row_dense (row + i)) (dense_before row) (Z.to_nat count) 0 s0) as HL.
  rewrite Z.add_0_r in HL.
  destruct (next_rank_loop _ bounds (Z.to_nat count) 0 row s0) as [s' vs]. simpl in HL. rewrite HL; clear HL.
  - f_equal. assert (forall l, Forall (fun i => 0 <= i < count) l ->
      mapM NumericCast_int64 ((fun i => row_dense (row + i)) <$> l) = Ok ((fun i => row_dense (row + i)) <$> l)) as Hc.
    { induction l as [| i l IH]; intros Hl; [done |]. apply Forall_cons in Hl as [Hi Hl].
      pose proof (zcount_le O (pb (row + i)) (row + i + 1)). pose proof (nest (row + i) ltac:(lia)).
      assert (NumericCast_int64 (row_dense (row + i)) = Ok (row_dense (row + i))) as Hcast.
      { unfold NumericCast_int64. rewrite (proj2 (Z.ltb_lt _ _)) by (unfold row_dense; lia). done. }
      cbn [fmap list_fmap mapM mbind res_bind]. by rewrite Hcast, IH. }
    rewrite Hc.
    + f_equal. apply list_eq. intros j. rewrite !list_lookup_fmap. unfold zrange.
      rewrite !list_lookup_fmap. replace (row + count - row) with (count - 0) by lia.
      destruct (seq 0 (Z.to_nat (count - 0)) !! j); [| done]. simpl. do 2 f_equal.
    + apply Forall_forall. intros i Hi%elem_of_zrange. lia.
  - lia.
  - lia.
  - intros i s1 Hi Hs1. apply dense_step; try done; lia.
  - intros _ _. rewrite !Z.add_0_r. done.
Qed.
End rank_chunks.

(** ** PERCENT_RANK *)

Lemma mapM_fmap {A B C} (f : B -> res C) (g : A -> B) (l : list A) :
  mapM f (g <$> l) = mapM (fun x => f (g x)) l.
Proof.
  induction l as [| x l IH]; [done |]. rewrite fmap_cons. cbn [mapM mbind res_bind].
  destruct (f (g x)); [| done]. cbn [mbind res_bind]. by rewrite IH.
Qed.

Lemma zrange_offset row count : zrange row (row + count) = (fun i => row + i) <$> zrange 0 count.
Proof.
  unfold zrange. rewrite <- list_fmap_compose. replace (row + count - row) with (count - 0) by lia.
  apply list_fmap_ext. intros. simpl. lia.
Qed.

Lemma mapM_rows {A} (f : Z -> res A) row count :
  mapM (fun i => f (row + i)) (zrange 0 count) = mapM f (zrange row (row + count)).
Proof. by rewrite zrange_offset, mapM_fmap. Qed.

Lemma mapM_id_fmap {A} (f : Z -> res A) l : mapM id (f <$> l) = mapM f l.
Proof. exact (mapM_fmap id f l). Qed.

(** ** Properties *)

(** C32. RANK over partitions is, for every row, one more than the number of rows
    of the partition before its peer group; with the pushed-down predicate the
    selection holds exactly the rows whose rank satisfies it, in order.  The
    variant that skips to the next partition selects the same rows when no
    partition that matches completely is followed by one that does not. *)
Theorem RankEvaluate_correct partition_mask order_mask pc oc N c early k g s begins bounds result row count :
  masks_ok partition_mask order_mask pc oc N -> use_framing g = false ->
  rank_bounds partition_mask order_mask pc oc N bounds row count -> count <= Z.of_nat (length result) ->
  let pb := part_begin (RowIsValid partition_mask) pc oc in
  let peer_b := peer_first (RowIsValid order_mask) pc oc in
  let row_matches i := matches c k (peer_b (row + i) - pb (row + i) + 1) in
  (early = true -> pc + oc <> 0 /\ begins = starts (RowIsValid partition_mask) row (row + count) /\
     forall b, row < b < row + count -> RowIsValid partition_mask b = true ->
       (exists j, b - row <= j < count /\ row_matches j = false) -> row_matches (b - 1 - row) = false) ->
  exists s' r, RankEvaluate c early g s k begins bounds result count row = Some (s', r) /\
    (forall i, 0 <= i < count -> early = false \/ row_matches i = true ->
      znth 0 (rdata r) i = peer_b (row + i) - pb (row + i) + 1) /\
    (c = LessEqual -> match_count r = zcount row_matches 0 count /\
      take (Z.to_nat (match_count r)) (sel r) = starts row_matches 0 count).
Proof.
  intros Hok Hg Hb Hl pb peer_b row_matches Hearly.
  destruct (RankEvaluate_rows partition_mask order_mask pc oc N Hok c early k g s begins bounds result row count
    Hg Hb Hl Hearly) as (s' & r & Hr & Hd).
  exists s', r. split; [done |]. split.
  - intros i Hi Hev. apply (wr_data _ _ _ _ _ _ _ _ Hd); [lia | split; [lia | done]].
  - intros ->. pose proof (wr_count _ _ _ _ _ _ _ _ Hd) as Hc. cbn in Hc. split; [done |].
    rewrite Hc, Nat2Z.id. by apply (wr_sel _ _ _ _ _ _ _ _ Hd).
Qed.

(** When a partition of two matching rows is followed by one with rows that do
    not match, the variant that skips goes back to the start of the second
    partition and selects its matching rows twice. *)
Theorem early_out_selects_twice :
  let bounds b := match b with
    | PARTITION_BEGIN => [0; 0; 2; 2; 2; 2; 2; 2]
    | PEER_BEGIN => [0; 1; 2; 3; 4; 5; 6; 7]
    | _ => [] end in
  let run early := RankEvaluate LessEqual early (mkGlobal false None) (mkPeer 1 0 1) 3 [0; 2] bounds
    (replicate 8 0) 8 0 in
  (snd <$> run false) = Some (mkResult [1; 2; 1; 2; 3; 4; 5; 6] [0; 1; 2; 3; 4; 0; 0; 0] 5) /\
  (snd <$> run true) = Some (mkResult [1; 2; 1; 2; 3; 4; 0; 0] [0; 1; 2; 3; 4; 2; 3; 4] 8).
Proof. split; vm_compute; reflexivity. Qed.

(** DENSE_RANK is, for every row, the number of peer groups of its partition
    up to and including its own, whatever chunk the row is evaluated in. *)
Theorem DenseRankEvaluate_correct partition_mask order_mask data cap pc oc N s bounds row count :
  masks_ok partition_mask order_mask pc oc N ->
  order_mask = mkMask (Some data) cap -> wf_mask order_mask N -> pc + oc <> 0 ->
  rank_bounds partition_mask order_mask pc oc N bounds row count ->
  DenseRankEvaluate order_mask s bounds count row =
    Some (Ok ((fun i => zcount (RowIsValid order_mask) (part_begin (RowIsValid partition_mask) pc oc i) (i + 1))
      <$> zrange row (row + count))).
Proof. intros Hok. by apply DenseRankEvaluate_rows. Qed.

(** PERCENT_RANK divides the rank less one by the size of the partition less
    one, with the rank of the row. *)
Theorem PercentRankEvaluate_correct partition_mask order_mask pc oc N g s bounds row count :
  masks_ok partition_mask order_mask pc oc N -> use_framing g = false ->
  rank_bounds partition_mask order_mask pc oc N bounds row count ->
  bounds PARTITION_END = part_end (RowIsValid partition_mask) N pc oc <$> zrange row (row + count) ->
  PercentRankEvaluate g s bounds count row =
    mapM (fun i =>
      let pb := part_begin (RowIsValid partition_mask) pc oc i in
      PercentRank pb (part_end (RowIsValid partition_mask) N pc oc i)
        (peer_first (RowIsValid order_mask) pc oc i - pb + 1)) (zrange row (row + count)).
Proof.
  intros Hok Hg [Hrows Hpb Hpeer] Hpe. pose proof (ok_size _ _ _ _ _ Hok) as HN.
  unfold PercentRankEvaluate. rewrite Hg, !Hpb, Hpeer, !znth_rows, Z.add_0_r by lia. cbn iota.
  set (pb := part_begin (RowIsValid partition_mask) pc oc) in *.
  set (peer_b := peer_first (RowIsValid order_mask) pc oc) in *.
  set (f i := PercentRank (pb i) (part_end (RowIsValid partition_mask) N pc oc i) (peer_b i - pb i + 1)).
  pose proof (nest partition_mask order_mask pc oc N Hok) as Hnest.
  pose proof (step partition_mask order_mask pc oc N) as Hstep.
  set (s0 := reset_rank s _ _ _).
  pose proof (next_rank_loop_rows pb peer_b bounds row count Hpb Hpeer
    (fun s i => PercentRank (znth 0 (bounds PARTITION_BEGIN) i) (znth 0 (bounds PARTITION_END) i) (rank s))
    (fun i => f (row + i)) (fun i s => row + i < N -> before_row pb peer_b (row + i) s)
    (Z.to_nat count) 0 s0) as HL.
  rewrite Z.add_0_r in HL.
  destruct (next_rank_loop _ bounds (Z.to_nat count) 0 row s0) as [s' vs] eqn:EL. rewrite Hpb in EL.
  rewrite EL. cbn [snd] in HL. rewrite HL.
  - rewrite mapM_id_fmap. apply mapM_rows.
  - lia.
  - lia.
  - intros i s1 Hi Hs1. rewrite Hpb, Hpe, !znth_rows by lia.
    pose proof (NextRank_after pb peer_b N HN Hnest (row + i) s1 ltac:(lia) (Hs1 ltac:(lia))) as Ha.
    split; [by unfold f; rewrite (proj1 Ha) |]. intros Hn. replace (row + (i + 1)) with (row + i + 1) in * by lia.
    apply (after_before pb peer_b N Hnest Hstep); [lia | lia | done].
  - intros _. rewrite Z.add_0_r. apply (reset_before pb peer_b N HN Hnest). lia.
Qed.

(** PERCENT_RANK over an empty frame (an ORDER BY argument and a frame without
    rows) throws an internal error instead of giving a value. *)
Theorem PercentRank_empty_frame b rank : PercentRank b b rank = Throw InternalException.
Proof. unfold PercentRank. rewrite Z.sub_diag. reflexivity. Qed.

(** ** Witnesses *)

Section witness.
Definition rank_partitions : ValidityMask := mkMask (Some [5]) 4.
Definition rank_orders : ValidityMask := mkMask (Some [7]) 4.
Definition rank_columns : DataChunk := fun b =>
  match b with
  | PARTITION_BEGIN => [0; 0; 2; 2]
  | PARTITION_END => [2; 2; 4; 4]
  | PEER_BEGIN => [0; 1; 2; 2]
  | _ => []
  end.
End witness.

Lemma rank_masks_ok : masks_ok rank_partitions rank_orders 1 1 4.
Proof.
  constructor; [lia | lia | done | done |].
  intros i Hi. assert (i = 0 \/ i = 1 \/ i = 2 \/ i = 3) as [-> | [-> | [-> | ->]]] by lia; done.
Qed.

Lemma rank_bounds_ok : rank_bounds rank_partitions rank_orders 1 1 4 rank_columns 0 4.
Proof. constructor; [lia | reflexivity | reflexivity]. Qed.

Lemma RankEvaluate_correct_witness :
  exists s' r, RankEvaluate LessEqual true (mkGlobal false None) (mkPeer 1 0 1) 1 [0; 2] rank_columns
    [0; 0; 0; 0] 4 0 = Some (s', r) /\
  match_count r = 3 /\ take 3 (sel r) = [0; 2; 3].
Proof.
  destruct (RankEvaluate_correct rank_partitions rank_orders 1 1 4 LessEqual true 1 (mkGlobal false None)
    (mkPeer 1 0 1) [0; 2] rank_columns [0; 0; 0; 0] 0 4 rank_masks_ok eq_refl rank_bounds_ok ltac:(simpl; lia))
    as (s' & r & Hr & _ & Hsel).
  - intros _. split; [lia |]. split; [reflexivity |].
    intros b Hb HP (j & Hj & Hm). exfalso.
    assert (b = 1 \/ b = 2 \/ b = 3) as [-> | [-> | ->]] by lia; [discriminate | | discriminate].
    assert (j = 2 \/ j = 3) as [-> | ->] by lia; discriminate.
  - exists s', r. destruct (Hsel eq_refl) as [Hc Ht]. rewrite Hc in Ht. split; [exact Hr |].
    split; [exact Hc | exact Ht].
Defined.

Lemma DenseRankEvaluate_correct_witness :
  DenseRankEvaluate rank_orders (mkPeer 1 0 1) rank_columns 4 0 = Some (Ok [1; 2; 1; 1]).
Proof.
  rewrite (DenseRankEvaluate_correct rank_partitions rank_orders [7] 4 1 1 4 (mkPeer 1 0 1) rank_columns 0 4
    rank_masks_ok eq_refl).
  - reflexivity.
  - split; [by vm_compute | by repeat constructor].
  - lia.
  - exact rank_bounds_ok.
Defined.

Lemma PercentRankEvaluate_correct_witness :
  PercentRankEvaluate (mkGlobal false None) (mkPeer 1 0 1) rank_columns 4 0 =
  Ok [S754_zero false; double_of_int 1; S754_zero false; S754_zero false].
Proof.
  rewrite (PercentRankEvaluate_correct rank_partitions rank_orders 1 1 4 (mkGlobal false None) (mkPeer 1 0 1)
    rank_columns 0 4 rank_masks_ok eq_refl rank_bounds_ok eq_refl).
  vm_compute. reflexivity.
Defined.
