(* ===== verification/RankExecutor.v ===== *)
(** * RANK as a function of the window operator

    function/window/window_executor.cpp and window_rank_function.cpp: the states of the
    executor, which of its variants WindowExecutorFactory of physical_window.cpp chooses,
    and Evaluate, which computes the bounds of a chunk and then its ranks.  Expressions
    without argument orders and without an offset in a RANGE frame: their Sink and Finalize
    keep no rows.  The executor is an instance of [ExecutorLaws], so the theorems about
    the source of the window operator say what an operator with RANK puts out. *)

From S2P Require Import Prelude Validity MaskSearch Boundaries Frames Rank WindowMasks WindowMasksInvariant WindowSource WindowSourceInvariant WindowSchedules WindowSourceResult.

(** ** States *)

Record WindowExecutorGlobalState := {
  payload_count : Z;
  global_partition_mask : ValidityMask;
  global_order_mask : ValidityMask;
  global_peers : WindowPeerGlobalState
}.

(** The masks are references to those of the global state. *)
Record WindowExecutorBoundsLocalState := {
  local_partition_mask : ValidityMask;
  local_order_mask : ValidityMask;
  local_bounds : DataChunk;
  boundaries : WindowBoundariesState;
  local_peers : WindowPeerLocalState
}.

Section rank.
Context {V T : Type} `{RangeType T} (w : BoundWindowExpression) (config : WindowSourceConfig) (predicate_value : Z).

(** What the token tree of argument orders depends on, and the tree, which plain RANK never
    builds; the ordering column and the boundary expressions, which plain RANK never reads;
    the cells of the result vector before it is written. *)
Context (shared_orders : Z) (enable_optimizer : bool) (tree : WindowTokenTree) (range : WindowCursor T).
Context (boundary_start boundary_end : list (list V) -> WindowInputExpression T) (buffer : list Z).

(** ** Operations *)

(** The template arguments of [WindowRankExecutor]. *)
Definition WindowExecutorFactory : Comparator * bool :=
  if early_out config then (LessEqual, true)
  else if use_filter config then (LessEqual, false)
  else (FalseType, false).

Definition rank_GetGlobalState (count : Z) (masks : GroupMasks) : WindowExecutorGlobalState :=
  {| payload_count := count;
     global_partition_mask := partition_mask masks;
     global_order_mask := default (ValidityMask_empty STANDARD_VECTOR_SIZE)
       (find_order (Z.to_nat (partitions w) + length (orders w)) (order_masks masks));
     global_peers := WindowPeerGlobalState_new (arg_orders w) shared_orders enable_optimizer tree |}.

Definition rank_GetLocalState (gstate : WindowExecutorGlobalState) : res WindowExecutorBoundsLocalState :=
  state ← WindowBoundariesState_new w (payload_count gstate);
  Ok {| local_partition_mask := global_partition_mask gstate; local_order_mask := global_order_mask gstate;
        local_bounds := fun _ => []; boundaries := state; local_peers := mkPeer 1 0 1 |}.

Definition UpdateBounds (row_idx : Z) (eval_chunk : list (list V)) (l : WindowExecutorBoundsLocalState)
    : res WindowExecutorBoundsLocalState :=
  '(bounds, state) ← Bounds (boundaries l) (local_bounds l) row_idx range (Z.of_nat (length eval_chunk))
    (boundary_start eval_chunk) (boundary_end eval_chunk) (local_partition_mask l) (local_order_mask l);
  Ok {| local_partition_mask := local_partition_mask l; local_order_mask := local_order_mask l;
        local_bounds := bounds; boundaries := state; local_peers := local_peers l |}.

(** [None]: an exception or an access outside of an array. *)
Definition rank_Evaluate (row_idx : Z) (eval_chunk : list (list V)) (begins : list Z)
    (gstate : WindowExecutorGlobalState) (l : res WindowExecutorBoundsLocalState)
    : option (list Z * option (list nat) * res WindowExecutorBoundsLocalState) :=
  match (l ← l; UpdateBounds row_idx eval_chunk l) with
  | Throw _ => None
  | Ok l =>
      let '(comparator, skip) := WindowExecutorFactory in
      '(peers, r) ← RankEvaluate comparator skip (global_peers gstate) (local_peers l) predicate_value begins
        (local_bounds l) buffer (Z.of_nat (length eval_chunk)) row_idx;
      let sel := match comparator with
        | FalseType => None
        | LessEqual => Some (Z.to_nat <$> take (Z.to_nat (match_count r)) (sel r))
        end in
      Some (rdata r, sel,
        Ok {| local_partition_mask := local_partition_mask l; local_order_mask := local_order_mask l;
              local_bounds := local_bounds l; boundaries := boundaries l; local_peers := peers |})
  end.

Definition RankExecutors : WindowExecutors V WindowExecutorGlobalState (res WindowExecutorBoundsLocalState) Z :=
  {| GetGlobalState := rank_GetGlobalState;
     GetLocalState := rank_GetLocalState;
     executor_Sink _ _ gstate l := match l with Ok _ => Some (gstate, l) | Throw _ => None end;
     executor_Finalize gstate l := match l with Ok _ => Some (gstate, l) | Throw _ => None end;
     executor_Evaluate := rank_Evaluate |}.
End rank.

(** ** Lists *)

Lemma find_order_of k v masks :
  k ∈ fst <$> masks -> Forall (fun e => v (fst e) (snd e)) masks -> exists m, find_order k masks = Some m /\ v k m.
Proof.
  intros Hk Hv. unfold find_order. destruct (list_find (fun e : nat * ValidityMask => fst e = k) masks) as [[i e] |] eqn:E.
  - exists (snd e). split; [done |]. apply list_find_Some in E as (El & Ek & _). rewrite Forall_lookup in Hv. rewrite <- Ek. by apply (Hv i).
  - apply list_find_None in E. apply list_elem_of_fmap in Hk as (e & -> & He). rewrite Forall_forall in E. by destruct (E e He).
Qed.

Lemma nth_last_ext P Q r : (forall j, 0 <= j < r -> P j = Q j) -> nth_last P 0 r 1 = nth_last Q 0 r 1.
Proof. intros HPQ. unfold nth_last, starts. erewrite (List.filter_ext_in P Q); [done |]. intros j. rewrite <- list_elem_of_In, elem_of_zrange. apply HPQ. Qed.

(** The rows that a selection takes. *)
Lemma mapM_app_some {A B} (f : A -> option B) l1 l2 r1 r2 : mapM f l1 = Some r1 -> mapM f l2 = Some r2 -> mapM f (l1 ++ l2) = Some (r1 ++ r2).
Proof. rewrite !mapM_Some. apply Forall2_app. Qed.

Lemma select_rows {A R} (chunk : list A) (f : Z -> R) (p : R -> bool) (g : nat -> option (A * R)) :
  (forall i x, chunk !! i = Some x -> p (f (Z.of_nat i)) = true -> g i = Some (x, f (Z.of_nat i))) ->
  mapM g (Z.to_nat <$> starts (fun i => p (f i)) 0 (Z.of_nat (length chunk))) =
    Some (List.filter (fun row => p (snd row)) (zip chunk (f <$> zrange 0 (Z.of_nat (length chunk))))).
Proof.
  induction chunk as [| x chunk IH] using rev_ind; intros Hg; [by rewrite starts_nil |].
  rewrite length_app. cbn [length]. replace (Z.of_nat (length chunk + 1)) with (Z.of_nat (length chunk) + 1) by lia.
  rewrite starts_snoc, zrange_snoc, !fmap_app by lia. rewrite Z.add_simpl_r.
  rewrite zip_with_app by (rewrite length_fmap, length_zrange; lia). rewrite List.filter_app.
  apply mapM_app_some.
  - apply IH. intros i y Ei. apply Hg. by apply lookup_app_l_Some.
  - cbn [zip_with fmap list_fmap List.filter snd]. destruct (p (f (Z.of_nat (length chunk)))) eqn:Ep; [| done].
    cbn [fmap list_fmap mapM]. rewrite Nat2Z.id, (Hg _ x); [done | | done]. by apply list_lookup_middle.
Qed.

Lemma zip_prefix {A R} (chunk : list A) (f : Z -> R) (d : R) (r : list R) :
  (length chunk <= length r)%nat -> (forall i, 0 <= i < Z.of_nat (length chunk) -> znth d r i = f i) ->
  zip chunk r = zip chunk (f <$> zrange 0 (Z.of_nat (length chunk))).
Proof.
  intros Hl Hf. apply list_eq. intros i. rewrite !lookup_zip_with. destruct (chunk !! i) as [x |] eqn:E; [| done]. cbn.
  apply lookup_lt_Some in E. destruct (lookup_lt_is_Some_2 r i) as [y Ey]; [lia |]. rewrite Ey. cbn.
  rewrite list_lookup_fmap, <- (Nat2Z.id i), lookup_zrange by lia. cbn. rewrite <- Hf by lia. rewrite Z.add_0_l.
  rewrite (znth_lookup d r (Z.of_nat i) y); [done | by rewrite Nat2Z.id].
Qed.

(** ** What RANK is *)

Section laws.
Context {V T : Type} `{RangeType T} (distinct_from : V -> V -> bool) (w : BoundWindowExpression).
Context (config : WindowSourceConfig) (predicate_value shared_orders : Z) (enable_optimizer : bool) (tree : WindowTokenTree).
Context (range : WindowCursor T) (boundary_start boundary_end : list (list V) -> WindowInputExpression T) (buffer : list Z).
Abbreviation executors := (RankExecutors w config predicate_value shared_orders enable_optimizer tree range boundary_start boundary_end buffer).
Abbreviation pc := (partitions w).
Abbreviation oc := (Z.of_nat (length (orders w))).
Abbreviation key := (Z.to_nat (partitions w) + length (orders w))%nat.
Abbreviation part_start := (part_start distinct_from).
Abbreviation order_start := (order_start distinct_from).
Implicit Types (input : MaskInput V) (l : WindowExecutorBoundsLocalState).

(** The rows of the partition before the peers of row [i], and one. *)
Definition rank_of input (i : Z) : Z :=
  peer_first (order_start input key) pc oc i - part_begin (part_start input) pc oc i + 1.

Abbreviation chunk_rows input b := (zrange (block_start (WindowMasks.rows input) b) (block_start (WindowMasks.rows input) (S b))).

(** The rows of a chunk with their ranks, and with the predicate pushed down those whose ranks satisfy it. *)
Definition rank_output input (b : nat) : list (list V * Z) :=
  let result := zip (default [] (WindowMasks.rows input !! b)) (rank_of input <$> chunk_rows input b) in
  if use_filter config then List.filter (fun row => snd row <=? predicate_value) result else result.

(** RANK without argument orders. *)
Definition plain_rank : Prop := expr_type w = WINDOW_RANK /\ arg_orders w = 0 /\ 0 <= partitions w.

(** A group of the operator; with early out, no partition of a chunk whose rows all match comes before
    one with a row that does not. *)
Record rank_input input : Prop := {
  rank_partitions_key : key_count input = Z.to_nat (partitions w);
  rank_order_key : key ∈ order_keys input;
  rank_size : row_count input < 2 ^ 63;
  rank_buffer : Forall (fun chunk => length chunk <= length buffer)%nat (WindowMasks.rows input);
  rank_early : early_out config = true -> use_filter config = true /\ pc + oc <> 0 /\
    forall b chunk, WindowMasks.rows input !! b = Some chunk ->
      misses_first (part_begin (part_start input) pc oc) (peer_first (order_start input key) pc oc)
        (block_start (WindowMasks.rows input) b) (Z.of_nat (length chunk)) LessEqual predicate_value (part_start input)
}.

(** ** Masks *)

Record masks_of input (pm om : ValidityMask) : Prop := {
  masks_of_partition : forall j, 0 <= j < row_count input -> RowIsValid pm j = part_start input j;
  masks_of_order : forall j, 0 <= j < row_count input -> RowIsValid om j = order_start input key j
}.

Lemma masks_complete_of input masks :
  rank_input input -> masks_complete distinct_from input masks ->
  let g := rank_GetGlobalState w shared_orders enable_optimizer tree (row_count input) masks in
  masks_of input (global_partition_mask g) (global_order_mask g).
Proof.
  intros Hin (v & [[_ Hp] Hk Ho _] & Vp & Vo & _). cbn. split.
  - intros j Hj. by rewrite Hp, Vp.
  - pose proof (order_list_complete input key (rank_order_key _ Hin)) as Hkey.
    destruct (find_order_of key (fun k m => bits input m (view_order v k)) (order_masks masks)) as (m & -> & Hm); [by rewrite Hk | done |].
    cbn. intros j Hj. rewrite (proj2 Hm) by done. by apply Vo.
Qed.

Lemma part_begin_of input pm om i :
  masks_of input pm om -> 0 <= i < row_count input -> part_begin (RowIsValid pm) pc oc i = part_begin (part_start input) pc oc i.
Proof. intros Hm Hi. unfold part_begin. case_if; [done |]. apply nth_last_ext. intros. apply Hm. lia. Qed.

Lemma peer_first_of input pm om i :
  masks_of input pm om -> 0 <= i < row_count input -> peer_first (RowIsValid om) pc oc i = peer_first (order_start input key) pc oc i.
Proof. intros Hm Hi. unfold peer_first. case_if; [done |]. apply nth_last_ext. intros. apply Hm. lia. Qed.

Lemma starts_mono input k j : (key_count input <= k)%nat -> part_start input j = true -> order_start input k j = true.
Proof.
  unfold WindowMasksInvariant.part_start, WindowMasksInvariant.order_start. intros Hk.
  rewrite (changes_split distinct_from input k j Hk). intros [-> | [-> ->]%andb_true_iff]%orb_true_iff; [done |]. cbn. by rewrite orb_true_r.
Qed.

(** The masks of a group are what the bounds rely on. *)
Lemma masks_of_ok input pm om :
  plain_rank -> input_ok config rank_input input -> 0 < row_count input -> masks_of input pm om ->
  Boundaries.masks_ok pm om pc oc (row_count input).
Proof.
  intros (_ & _ & Hpc) Hin Hpos Hm. pose proof (input_suitable _ _ _ Hin) as Hr. split.
  - lia.
  - pose proof (rank_size _ Hr). lia.
  - intros _. by rewrite (masks_of_partition _ _ _ Hm) by lia.
  - intros Hz i Hi. rewrite (masks_of_partition _ _ _ Hm) by lia. unfold WindowMasksInvariant.part_start.
    rewrite (proj2 (Z.eqb_neq i 0)) by lia. rewrite (rank_partitions_key _ Hr), Hz. cbn. unfold row_changes, rows_differ. cbn. by rewrite andb_false_r.
  - intros i Hi. rewrite (masks_of_partition _ _ _ Hm), (masks_of_order _ _ _ Hm) by done. apply starts_mono.
    rewrite (rank_partitions_key _ Hr). lia.
Qed.

(** ** The laws *)

(** What holds of a local state between the chunks. *)
Definition rank_local_ok input (l : res WindowExecutorBoundsLocalState) : Prop :=
  exists l', l = Ok l' /\ masks_of input (local_partition_mask l') (local_order_mask l') /\
    state_ok (local_partition_mask l') (local_order_mask l') range pc oc (row_count input) (boundaries l') /\
    (forall b, required_count (required (boundaries l')) b = bool_decide (b = PARTITION_BEGIN \/ b = PEER_BEGIN)).

Definition rank_global_ok input (sunk : list nat) (finalized : nat) (g : WindowExecutorGlobalState) : Prop :=
  payload_count g = row_count input /\ global_peers g = mkGlobal false None /\
  masks_of input (global_partition_mask g) (global_order_mask g).

Lemma plain_rank_bounds s b :
  plain_rank -> GetWindowBounds w = Ok s -> required_count s b = bool_decide (b = PARTITION_BEGIN \/ b = PEER_BEGIN).
Proof.
  intros (E1 & E2 & _). unfold GetWindowBounds, function_bounds. rewrite E1, E2. intros [= <-].
  by destruct b; vm_compute.
Qed.

Lemma row_count_pos input b chunk : input_ok config rank_input input -> WindowMasks.rows input !! b = Some chunk -> 
  0 <= block_start (WindowMasks.rows input) b /\ 0 < Z.of_nat (length chunk) /\
  block_start (WindowMasks.rows input) b + Z.of_nat (length chunk) <= row_count input.
Proof.
  intros Hin Hc. pose proof (block_start_S _ _ _ Hc) as Hs. pose proof (block_start_nonneg (WindowMasks.rows input) b).
  assert (block_start (WindowMasks.rows input) (S b) <= row_count input) as Hle.
  { rewrite <- (start_last input (input_count _ _ _ Hin)). apply block_start_mono. apply lookup_lt_Some in Hc. lia. }
  pose proof (input_chunks _ _ _ Hin) as Hne. rewrite Forall_lookup in Hne. specialize (Hne _ _ Hc).
  destruct chunk; [done |]. cbn [length] in *. lia.
Qed.

Lemma rank_local_new input sunk k g :
  plain_rank -> input_ok config rank_input input ->
  rank_global_ok input sunk k g -> rank_local_ok input (rank_GetLocalState w g).
Proof.
  intros Hw Hin (Hn & _ & Hm). unfold rank_GetLocalState, WindowBoundariesState_new. rewrite Hn.
  destruct (GetWindowBounds w) as [s | x] eqn:E; cycle 1.
  { exfalso. destruct Hw as (E1 & E2 & _). unfold GetWindowBounds, function_bounds in E. by rewrite E1, E2 in E. }
  cbn [mbind res_bind]. eexists. split; [done |]. cbn [local_partition_mask local_order_mask boundaries required]. split; [done |].
  pose proof (plain_rank_bounds s) as Hs. assert (0 <= row_count input) as HN by (rewrite (input_count _ _ _ Hin); lia).
  split; [| intros b; by apply Hs].
  destruct (GetWindowBounds_closed_set w s E) as [Hcl _]. split; cbn; try done.
  intros Hv. by rewrite Hs in Hv.
Qed.

(** [UpdateBounds] gives the bounds that RANK reads. *)
Lemma UpdateBounds_ok input b chunk l :
  plain_rank -> input_ok config rank_input input -> WindowMasks.rows input !! b = Some chunk -> rank_local_ok input (Ok l) ->
  let row := WindowMasksInvariant.block_start (WindowMasks.rows input) b in
  exists l', UpdateBounds range boundary_start boundary_end row chunk l = Ok l' /\ rank_local_ok input (Ok l') /\
    local_peers l' = local_peers l /\ local_partition_mask l' = local_partition_mask l /\ local_order_mask l' = local_order_mask l /\
    rank_bounds (local_partition_mask l) (local_order_mask l) pc oc (row_count input) (local_bounds l') row (Z.of_nat (length chunk)).
Proof.
  intros Hw Hin Hc (l0 & [= <-] & Hm & Hst & Hreq). destruct (row_count_pos _ _ _ Hin Hc) as (H0 & H1 & H2).
  cbn zeta. set (row := block_start _ _) in *. unfold UpdateBounds, Bounds.
  assert (Boundaries.masks_ok (local_partition_mask l) (local_order_mask l) pc oc (row_count input)) as Hok by (apply masks_of_ok; done || lia).
  destruct (Columns_rows _ _ range pc oc (row_count input) Hok (boundaries l) (local_bounds l) row _ Hst H0 H1 H2) as (Hst' & _ & Hcols & _).
  destruct (Columns_config (local_partition_mask l) (local_order_mask l) range (boundaries l) (local_bounds l) row (Z.of_nat (length chunk))) as (Ereq & _).
  destruct (Columns _ _ _ _ _ _ _) as [c st]. cbn [fst snd] in *. rewrite !Hreq. cbn.
  eexists. split; [done |]. split_and!; try done.
  - eexists. split; [done |]. split_and!; [done | done |]. intros b'. cbn. by rewrite Ereq.
  - cbn. split; [done | |]; rewrite Hcols; try done; by rewrite Hreq.
Qed.


Lemma misses_first_ext pb pb' peer peer' row count P Q :
  (forall i, row <= i < row + count -> pb i = pb' i /\ peer i = peer' i /\ P i = Q i) ->
  misses_first pb peer row count LessEqual predicate_value P -> misses_first pb' peer' row count LessEqual predicate_value Q.
Proof.
  intros Hext H1 b Hb HQ (j & Hj & Hm). unfold misses_first, row_matches, row_rank in *.
  replace (row + (b - 1 - row)) with (b - 1) in * by lia.
  destruct (Hext (b - 1) ltac:(lia)) as (<- & <- & _). destruct (Hext (row + j) ltac:(lia)) as (E1 & E2 & _).
  replace (b - 1) with (row + (b - 1 - row)) by lia. apply H1; [done | | exists j; split; [done |]].
  - by rewrite (proj2 (proj2 (Hext b ltac:(lia)))).
  - by rewrite E1, E2.
Qed.

Lemma RankEvaluate_begins c early s k begins begins' bounds result count row :
  skip_begins row begins = skip_begins row begins' ->
  RankEvaluate c early (mkGlobal false None) s k begins bounds result count row =
  RankEvaluate c early (mkGlobal false None) s k begins' bounds result count row.
Proof. intros E. unfold RankEvaluate. cbn [use_framing]. by rewrite E. Qed.

(** The starts that are kept for a chunk are those that RANK needs. *)
Lemma block_begins_starts input pm om b chunk :
  input_ok config rank_input input -> masks_of input pm om -> WindowMasks.rows input !! b = Some chunk ->
  let row := WindowMasksInvariant.block_start (WindowMasks.rows input) b in
  skip_begins row (block_begins distinct_from input b) = skip_begins row (starts (RowIsValid pm) row (row + Z.of_nat (length chunk))).
Proof.
  intros Hin Hm Hc. destruct (row_count_pos _ _ _ Hin Hc) as (H0 & H1 & H2). cbn zeta.
  unfold block_begins. rewrite (block_start_S _ _ _ Hc). set (row := block_start _ _) in *.
  assert (starts (RowIsValid pm) row (row + Z.of_nat (length chunk)) = starts (part_start input) row (row + Z.of_nat (length chunk))) as ->.
  { unfold starts. apply List.filter_ext_in. intros j Hj. apply list_elem_of_In, elem_of_zrange in Hj. apply Hm. lia. }
  destruct (decide (row = 0)) as [-> | Hne].
  - rewrite starts_cons by lia. by cbn.
  - by rewrite Z.max_r by lia.
Qed.

(** What RANK gives for a chunk, before the result is sliced. *)
Lemma rank_chunk input b chunk begins l :
  plain_rank -> input_ok config rank_input input -> WindowMasks.rows input !! b = Some chunk -> rank_local_ok input (Ok l) ->
  (early_out config = true -> begins = block_begins distinct_from input b) ->
  let row := WindowMasksInvariant.block_start (WindowMasks.rows input) b in
  let count := Z.of_nat (length chunk) in
  let '(c, early) := WindowExecutorFactory config in
  exists l' peers r, UpdateBounds range boundary_start boundary_end row chunk l = Ok l' /\ rank_local_ok input (Ok l') /\
    RankEvaluate c early (mkGlobal false None) (local_peers l') predicate_value begins (local_bounds l') buffer count row = Some (peers, r) /\
    done_rows (part_begin (part_start input) pc oc) (peer_first (order_start input key) pc oc) row count c early predicate_value count r.
Proof.
  intros Hw Hin Hc Hl Hbeg row count. destruct (WindowExecutorFactory config) as [c early] eqn:Ef.
  destruct (row_count_pos _ _ _ Hin Hc) as (H0 & H1 & H2). fold row in H0, H2. fold count in H1, H2.
  destruct (UpdateBounds_ok input b chunk l Hw Hin Hc Hl) as (l' & E & Hl' & Ep & Epm & Eom & Hb). fold row count in E, Hb.
  destruct Hl as (? & [= <-] & Hm & _). exists l'.
  assert (Boundaries.masks_ok (local_partition_mask l) (local_order_mask l) pc oc (row_count input)) as Hok by (apply masks_of_ok; done || lia).
  assert (early = true -> early_out config = true /\ c = LessEqual) as Hearly.
  { unfold WindowExecutorFactory in Ef. destruct (early_out config); [by injection Ef as <- _ |]. by destruct (use_filter config); injection Ef as _ <-. }
  pose proof (input_suitable _ _ _ Hin) as Hr.
  set (begins' := if early then starts (RowIsValid (local_partition_mask l)) row (row + count) else begins).
  assert (count <= Z.of_nat (length buffer)) as Hbuf.
  { pose proof (rank_buffer _ Hr) as Hb'. rewrite Forall_lookup in Hb'. specialize (Hb' _ _ Hc). lia. }
  assert (forall i, row <= i < row + count ->
    part_begin (part_start input) pc oc i = part_begin (RowIsValid (local_partition_mask l)) pc oc i /\
    peer_first (order_start input key) pc oc i = peer_first (RowIsValid (local_order_mask l)) pc oc i /\
    part_start input i = RowIsValid (local_partition_mask l) i) as Hext.
  { intros i Hi. split_and!; symmetry; [eapply part_begin_of | eapply peer_first_of | apply Hm]; done || lia. }
  destruct (RankEvaluate_rows _ _ _ _ _ Hok c early predicate_value (mkGlobal false None) (local_peers l') begins' (local_bounds l') buffer row count
    eq_refl Hb Hbuf) as (peers & r & E1 & E2).
  { intros He. destruct (Hearly He) as [He' ->]. destruct (rank_early _ Hr He') as (_ & Ha & Hfirst). split_and!; [done | unfold begins'; by rewrite He |].
    specialize (Hfirst b chunk Hc). by apply (misses_first_ext _ _ _ _ _ _ _ _ Hext). }
  exists peers, r. split_and!; [done | done | |].
  - rewrite <- E1. unfold begins'. destruct early eqn:He; [| done]. apply RankEvaluate_begins.
    rewrite (Hbeg (proj1 (Hearly eq_refl))). by eapply block_begins_starts.
  - assert (forall j, 0 <= j < count -> row_matches (part_begin (part_start input) pc oc) (peer_first (order_start input key) pc oc) row c predicate_value j =
      row_matches (part_begin (RowIsValid (local_partition_mask l)) pc oc) (peer_first (RowIsValid (local_order_mask l)) pc oc) row c predicate_value j) as Hmatch.
    { intros j Hj. unfold row_matches, row_rank. destruct (Hext (row + j) ltac:(lia)) as (-> & -> & _). done. }
    unfold done_rows in *. assert (starts (row_matches (part_begin (part_start input) pc oc) (peer_first (order_start input key) pc oc) row c predicate_value) 0 count =
      starts (row_matches (part_begin (RowIsValid (local_partition_mask l)) pc oc) (peer_first (RowIsValid (local_order_mask l)) pc oc) row c predicate_value) 0 count) as ->.
    { unfold starts. apply List.filter_ext_in. intros j Hj. apply list_elem_of_In, elem_of_zrange in Hj. by apply Hmatch. }
    destruct E2 as [W1 W2 W3 W4 W5]. split; [done | | done | done | done].
    intros j Hj Hev. destruct Hev as [Hj2 Hev]. unfold row_rank. destruct (Hext (row + j) ltac:(lia)) as (-> & -> & _). apply W2; [done |].
    split; [done |]. destruct Hev as [-> | Hev]; [by left | right]. by rewrite <- Hmatch.
Qed.

Lemma rank_result input b chunk c early r :
  input_ok config rank_input input -> WindowMasks.rows input !! b = Some chunk -> WindowExecutorFactory config = (c, early) ->
  done_rows (part_begin (part_start input) pc oc) (peer_first (order_start input key) pc oc)
    (WindowMasksInvariant.block_start (WindowMasks.rows input) b) (Z.of_nat (length chunk)) c early predicate_value (Z.of_nat (length chunk)) r ->
  slice_result config (zip chunk (rdata r))
    (match c with FalseType => None | LessEqual => Some (Z.to_nat <$> take (Z.to_nat (match_count r)) (sel r)) end) =
  Some (rank_output input b).
Proof.
  intros Hin Hc Ef [W1 W2 W3 W4 W5]. unfold rank_output. rewrite Hc, (block_start_S _ _ _ Hc). cbn [default].
  set (row := block_start _ _) in *. set (count := Z.of_nat (length chunk)) in *.
  rewrite zrange_offset, <- list_fmap_compose. change (rank_of input ∘ (fun i => row + i)) with (fun i => rank_of input (row + i)).
  set (f := fun i => rank_of input (row + i)) in *.
  assert (forall j, 0 <= j < count -> early = false \/ c = LessEqual /\ f j <=? predicate_value = true -> znth 0 (rdata r) j = f j) as Hdata.
  { intros j Hj Hev. rewrite W2; [done | lia |]. split; [done |]. destruct Hev as [-> | [-> Hf]]; [by left | by right]. }
  pose proof (input_suitable _ _ _ Hin) as Hr. unfold WindowExecutorFactory in Ef. destruct c.
  - destruct (early_out config); [done |]. destruct (use_filter config); [done |]. injection Ef as <-.
    unfold slice_result. f_equal. apply (zip_prefix _ _ 0); [unfold count in *; lia |]. intros i Hi. apply Hdata; [done | by left].
  - assert (use_filter config = true) as Hu.
    { destruct (early_out config) eqn:Ee; [by apply (rank_early _ Hr Ee) |]. by destruct (use_filter config). }
    rewrite Hu. unfold slice_result. rewrite Hu, W3, Nat2Z.id, W4 by done.
    apply (select_rows chunk f (fun x => x <=? predicate_value)). intros i x Ex Hp. pose proof (lookup_lt_Some _ _ _ Ex).
    rewrite lookup_zip_with, Ex. cbn. destruct (lookup_lt_is_Some_2 (rdata r) i) as [y Ey]; [unfold count in *; lia |].
    rewrite Ey. cbn. rewrite <- Hdata by (by right || (unfold count; lia)). by rewrite (znth_lookup 0 (rdata r) (Z.of_nat i) y) by (by rewrite Nat2Z.id).
Qed.

Lemma rank_Evaluate_ok input b chunk begins g sunk k (l : res WindowExecutorBoundsLocalState) :
  plain_rank -> input_ok config rank_input input -> rank_global_ok input sunk k g -> rank_local_ok input l ->
  WindowMasks.rows input !! b = Some chunk -> (early_out config = true -> begins = block_begins distinct_from input b) ->
  exists results sel (l' : res WindowExecutorBoundsLocalState),
    rank_Evaluate config predicate_value range boundary_start boundary_end buffer (WindowMasksInvariant.block_start (WindowMasks.rows input) b)
      chunk begins g l = Some (results, sel, l') /\
    rank_local_ok input l' /\ slice_result config (zip chunk results) sel = Some (rank_output input b).
Proof.
  intros Hw Hin (_ & Hg & _) Hl Hc Hbeg. destruct Hl as (l0 & -> & Hrest).
  assert (rank_local_ok input (Ok l0)) as Hl by (by exists l0). clear Hrest.
  pose proof (rank_chunk input b chunk begins l0 Hw Hin Hc Hl Hbeg) as Hchunk. unfold rank_Evaluate. cbn [mbind res_bind].
  destruct (WindowExecutorFactory config) as [c early] eqn:Ef. destruct Hchunk as (l' & peers & r & -> & Hl' & E & Hd).
  rewrite Hg, E. cbn [mbind option_bind]. do 3 eexists. split; [done |]. split.
  - destruct Hl' as (? & [= <-] & Hm & Hst & Hreq). eexists. split; [done |]. by split_and!.
  - by eapply rank_result.
Qed.

#[export] Instance RankExecutors_laws : plain_rank -> ExecutorLaws distinct_from executors config rank_input rank_output.
Proof.
  intros Hw. refine {| global_ok := rank_global_ok; local_ok := rank_local_ok |}.
  - intros input masks Hin Hm. split; [done |]. split; [| by apply masks_complete_of; [apply (input_suitable _ _ _ Hin) |]].
    cbn. unfold WindowPeerGlobalState_new. by rewrite (proj1 (proj2 Hw)).
  - intros input sunk k g Hin Hg. by eapply rank_local_new.
  - intros input sunk g l b chunk Hin Hg Hl _ _. pose proof Hl as (l' & -> & _). by exists g, (Ok l').
  - intros input sunk k g l Hin Hg _ Hl. pose proof Hl as (l' & -> & _). by exists g, (Ok l').
  - intros input sunk k g l b chunk begins Hin Hg _ _ Hl Hc Hbeg. by apply (rank_Evaluate_ok _ _ _ _ _ sunk k).
  - intros input sunk sunk' k g _ Hg. done.
Defined.
End laws.

(** ** Checking the condition of early out *)

Definition misses_first_check (pb peer_b : Z -> Z) (row0 count k : Z) (P : Z -> bool) : bool :=
  let matching := row_matches pb peer_b row0 LessEqual k in
  forallb (fun b => negb (P b) || forallb matching (zrange (b - row0) count) || negb (matching (b - 1 - row0)))
    (zrange (row0 + 1) (row0 + count)).

Lemma misses_first_checked pb peer_b row0 count k P :
  misses_first_check pb peer_b row0 count k P = true -> misses_first pb peer_b row0 count LessEqual k P.
Proof.
  unfold misses_first_check. intros Hc b Hb HP (j & Hj & Hm). rewrite forallb_forall in Hc.
  assert (b ∈ zrange (row0 + 1) (row0 + count)) as Hbin by (apply elem_of_zrange; lia).
  assert (j ∈ zrange (b - row0) count) as Hjin by (apply elem_of_zrange; lia).
  rewrite list_elem_of_In in Hbin, Hjin. specialize (Hc b Hbin). rewrite HP in Hc. cbn [negb orb] in Hc.
  apply orb_true_iff in Hc as [Hc | Hc]; [| by apply negb_true_iff in Hc].
  rewrite forallb_forall in Hc. specialize (Hc j Hjin). by rewrite Hm in Hc.
Qed.

(** ** Properties *)

(** C10. RANK in the window operator, with the masks, the stages, the bounds and the early
    evaluation of a pushed-down predicate: in every schedule the chunks that are put out hold
    their rows with one plus the number of rows of the partition before their peers, or just those
    whose rank satisfies the predicate, and fair schedules put out all chunks.

    The hash groups are inputs that the code handles ([hash_groups_ok] with [input_ok] and
    [rank_input]): no chunk is empty; without shrink_runs all chunks but the last one are full; with
    shrink_runs the number of rows of a group is not a multiple of 64 (else a mask is
    accessed behind its end, finding validity_mask.hpp:292); with early out there is at most
    one PARTITION BY column (else GetData fails, [early_out_two_partitions]), the
    predicate is applied, and in each chunk the partitions with a miss come before those that
    match completely (else rows are selected twice, [early_out_selects_twice] of Rank). *)
Theorem RankSource_correct {V T} `{RangeType T} (distinct_from : V -> V -> bool) w config predicate_value
    shared_orders enable_optimizer tree (range : WindowCursor T) boundary_start boundary_end buffer
    keys hash_partitions sort threads n (hash_groups : list (option (list (list (list V))))) :
  let executors := RankExecutors w config predicate_value shared_orders enable_optimizer tree range boundary_start boundary_end buffer in
  let results := window_results config (rank_output distinct_from w config predicate_value) keys hash_partitions sort 0 hash_groups in
  plain_rank w -> (0 < threads)%nat -> (0 < n)%nat ->
  hash_groups_ok config (rank_input distinct_from w config predicate_value buffer) keys hash_partitions sort hash_groups ->
  exists s bound, WindowGlobalSourceState_new config threads keys hash_partitions sort hash_groups = Some s /\
    (forall schedule, Forall (fun j => j < n)%nat schedule ->
      exists sys, run_window distinct_from executors config s n schedule = Some sys /\
        exists rest, source_output sys ++ rest ≡ₚ results) /\
    (forall rounds, Forall (fair n) rounds -> (bound <= length rounds)%nat ->
      exists sys, run_window distinct_from executors config s n (mjoin rounds) = Some sys /\
        all_done (source_threads sys) /\ source_output sys ≡ₚ results).
Proof.
  intros executors results Hw Ht Hn Hok.
  pose proof (RankExecutors_laws distinct_from w config predicate_value shared_orders enable_optimizer tree range
    boundary_start boundary_end buffer Hw) as Hlaws.
  destruct (source_rounds_ok distinct_from executors config _ _ keys hash_partitions sort threads n hash_groups Ht Hn Hok)
    as (s & bound & E & Hrounds).
  destruct (source_schedule_ok distinct_from executors config _ _ keys hash_partitions sort threads n hash_groups Ht Hn Hok)
    as (s' & E' & Hschedule).
  rewrite E in E'. injection E' as <-. exists s, bound. split; [done |]. split; [| done].
  intros schedule Hs. destruct (Hschedule _ Hs) as (sys & Erun & Hsub & _). by exists sys.
Qed.

(** ** An example

    Two groups of eleven and of four rows, partitioned by the first column and ordered by the second,
    with the predicate RANK <= 1. *)

Definition rank_expr : BoundWindowExpression :=
  mkExpr WINDOW_RANK 1 [ASCENDING] 0 UNBOUNDED_PRECEDING CURRENT_ROW_RANGE NO_OTHER.
Definition rank_config : WindowSourceConfig := {| use_filter := true; early_out := true; shrink_runs := true |}.
Definition rank_groups : list (option (list (list (list Z)))) :=
  [Some [[[1; 1]; [1; 1]; [1; 2]]; [[2; 1]]];
   None;
   Some [[[1; 1]; [1; 1]; [1; 2]]; [[2; 1]]; [[2; 1]; [2; 2]; [3; 3]; [3; 4]]; [[3; 4]; [3; 4]]; [[4; 4]]]].
Definition differ (a b : Z) : bool := negb (a =? b).
Definition no_tree : WindowTokenTree := mkTree (fun _ _ _ => 0) (fun _ _ _ => 0).
Definition rank_buffer_example : list Z := replicate 4 0.
Definition no_boundary (chunk : list (list Z)) : WindowInputExpression Z := mkInput true (fun _ => 0) (fun _ => true).
Definition no_range : WindowCursor Z := mkCursor (fun _ => 0) (fun _ => true).
Abbreviation rank_executors := (RankExecutors rank_expr rank_config 1 0 true no_tree no_range no_boundary no_boundary rank_buffer_example).
Abbreviation rank_results := (window_results rank_config (rank_output differ rank_expr rank_config 1) [2; 1]%nat 1 true 0 rank_groups).

Lemma rank_group_ok (collection : list (list (list Z))) :
  Forall (fun chunk => chunk <> [] /\ length chunk <= 4)%nat collection -> Z.of_nat (length (mjoin collection)) mod 64 <> 0 ->
  Z.of_nat (length (mjoin collection)) < 2 ^ 63 ->
  forallb (fun e => let input := hash_input rank_config [2; 1]%nat 1 true collection in
    misses_first_check (part_begin (part_start differ input) 1 1) (peer_first (order_start differ input 2) 1 1)
      (block_start collection (fst e)) (Z.of_nat (length (snd e))) 1 (part_start differ input))
    (zip (seq 0 (length collection)) collection) = true ->
  input_ok rank_config (rank_input differ rank_expr rank_config 1 rank_buffer_example) (hash_input rank_config [2; 1]%nat 1 true collection).
Proof.
  intros Hchunks Hmod Hsize Hcheck. unfold hash_input, WindowHashGroup_new in *.
  destruct (WindowHashGroup_blocks _ _ collection) as [begins sums] eqn:E. cbn [group_input WindowMasks.rows] in *.
  split; cbn [row_count key_count order_keys WindowMasks.rows set_begins block_sums]; try done.
  - by repeat constructor.
  - apply (Forall_impl _ _ _ Hchunks). by intros c [? _].
  - intros _. split; [| done]. unfold WindowHashGroup_blocks in E. injection E as _ <-. done.
  - split; cbn [row_count key_count order_keys WindowMasks.rows]; try done.
    + by left.
    + apply (Forall_impl _ _ _ Hchunks). by intros c [_ ?].
    + intros _. split_and!; [done | done |]. intros b chunk Hc. apply misses_first_checked. rewrite forallb_forall in Hcheck.
      apply (Hcheck (b, chunk)), list_elem_of_In, list_elem_of_lookup. exists b. rewrite lookup_zip_with, lookup_seq_lt by (by eapply lookup_lt_Some).
      cbn. by rewrite Hc.
Qed.

Lemma rank_groups_ok :
  hash_groups_ok rank_config (rank_input differ rank_expr rank_config 1 rank_buffer_example) [2; 1]%nat 1 true rank_groups.
Proof.
  split; [| by exists 0%nat, [[[1; 1]; [1; 1]; [1; 2]]; [[2; 1]]]].
  intros [| [| [| i]]] collection E; try discriminate; injection E as <-; (split; [done |]);
    (apply rank_group_ok; [repeat constructor; (discriminate || vm_compute; lia) | vm_compute; discriminate | done | vm_compute; reflexivity]).
Qed.

Lemma plain_rank_example : plain_rank rank_expr.
Proof. by repeat split. Qed.

Lemma RankSource_correct_witness :
  exists s bound, WindowGlobalSourceState_new rank_config 3 [2; 1]%nat 1 true rank_groups = Some s /\
    (forall schedule, Forall (fun j => j < 3)%nat schedule ->
      exists sys, run_window differ rank_executors rank_config s 3 schedule = Some sys /\
        exists rest, source_output sys ++ rest ≡ₚ rank_results) /\
    (forall rounds, Forall (fair 3) rounds -> (bound <= length rounds)%nat ->
      exists sys, run_window differ rank_executors rank_config s 3 (mjoin rounds) = Some sys /\
        all_done (source_threads sys) /\ source_output sys ≡ₚ rank_results).
Proof.
  apply (RankSource_correct differ rank_expr rank_config 1 0 true no_tree no_range no_boundary no_boundary rank_buffer_example
    [2; 1]%nat 1%nat true 3 3 rank_groups); [apply plain_rank_example | lia | lia | apply rank_groups_ok].
Defined.

Lemma WindowSource_correct_witness :
  exists s, WindowGlobalSourceState_new rank_config 3 [2; 1]%nat 1 true rank_groups = Some s /\
    forall schedule, Forall (fun j => j < 3)%nat schedule ->
      exists sys, run_window differ rank_executors rank_config s 3 schedule = Some sys /\
        (exists rest, source_output sys ++ rest ≡ₚ rank_results) /\
        (all_done (source_threads sys) -> source_output sys ≡ₚ rank_results).
Proof.
  pose proof (RankExecutors_laws differ rank_expr rank_config 1 0 true no_tree no_range no_boundary no_boundary
    rank_buffer_example plain_rank_example) as Hlaws.
  apply (WindowSource_correct differ rank_executors rank_config _ _ [2; 1]%nat 1%nat true 3 3 rank_groups); [lia | lia | apply rank_groups_ok].
Defined.

Lemma WindowSource_terminates_witness :
  exists s bound, WindowGlobalSourceState_new rank_config 3 [2; 1]%nat 1 true rank_groups = Some s /\
    forall rounds, Forall (fair 3) rounds -> (bound <= length rounds)%nat ->
      exists sys, run_window differ rank_executors rank_config s 3 (mjoin rounds) = Some sys /\
        all_done (source_threads sys) /\ source_output sys ≡ₚ rank_results.
Proof.
  pose proof (RankExecutors_laws differ rank_expr rank_config 1 0 true no_tree no_range no_boundary no_boundary
    rank_buffer_example plain_rank_example) as Hlaws.
  apply (WindowSource_terminates differ rank_executors rank_config _ _ [2; 1]%nat 1%nat true 3 3 rank_groups); [lia | lia | apply rank_groups_ok].
Defined.

(** The results, and what a run of three threads puts out. *)
Example rank_results_rows :
  rank_results =
    [(0%nat, [([1; 1], 1); ([1; 1], 1)]); (1%nat, [([2; 1], 1)]);
     (2%nat, [([1; 1], 1); ([1; 1], 1)]); (3%nat, [([2; 1], 1)]);
     (4%nat, [([2; 1], 1); ([3; 3], 1)]); (5%nat, []); (6%nat, [([4; 4], 1)])].
Proof. vm_compute. reflexivity. Qed.

Example rank_run :
  (g ← WindowGlobalSourceState_new rank_config 3 [2; 1]%nat 1 true rank_groups;
   sys ← run_window differ rank_executors rank_config g 3 (mjoin (replicate 60 [0; 2; 1; 0]%nat));
   Some (length (source_output sys))) = Some 7%nat.
Proof. vm_compute. reflexivity. Qed.

(** With early out and two PARTITION BY columns the starts that are kept for a chunk are
    listed column by column: a chunk whose second column changes before its first fails the
    assertion of GetData that they are sorted.  With one column the same rows are put out. *)
Theorem early_out_two_partitions :
  let groups := [Some [[[1; 1]; [1; 2]; [2; 2]]]] in
  let turns := replicate 60 0%nat in
  let run keys hash_partitions partitions_ :=
    let w := mkExpr WINDOW_RANK partitions_ [] 0 UNBOUNDED_PRECEDING CURRENT_ROW_RANGE NO_OTHER in
    g ← WindowGlobalSourceState_new rank_config 1 keys hash_partitions true groups;
    sys ← run_window differ (RankExecutors w rank_config 1 0 true no_tree no_range no_boundary no_boundary rank_buffer_example)
      rank_config g 1 turns;
    Some (source_output sys) in
  run [2]%nat 2%nat 2 = None /\ run [1]%nat 1%nat 1 = Some [(0%nat, [([1; 1], 1); ([1; 2], 1); ([2; 2], 1)])].
Proof. split; vm_compute; reflexivity. Qed.
