(* ===== verification/RowNumber.v ===== *)
(** ROW_NUMBER and NTILE (src/src/function/window/window_rownumber_function.cpp).

    NTILE divides a partition into buckets of nearly equal size; the theorem gives
    the bucket of every row and shows that their sizes differ by at most one. *)
From S2P Require Import Prelude Validity MaskSearch Boundaries Rank.

(** [use_framing] and the token tree are those of the ranking functions. *)
Definition WindowRowNumberGlobalState : Type := WindowPeerGlobalState.

Definition WindowRowNumberGlobalState_new (arg_orders shared_orders : Z) (enable_optimizer : bool)
    (tree : WindowTokenTree) : WindowRowNumberGlobalState :=
  WindowPeerGlobalState_new arg_orders shared_orders enable_optimizer tree.

Definition RowNumberEvaluate (g : WindowRowNumberGlobalState) (bounds : DataChunk) (count row_idx : Z) : list Z :=
  if use_framing g then
    let frame_begin := znth 0 (bounds FRAME_BEGIN) in
    let frame_end := znth 0 (bounds FRAME_END) in
    match token_tree g with
    | Some tree => (fun i => i64 (Rank tree (frame_begin i) (frame_end i) (row_idx + i))) <$> zrange 0 count
    | None => (fun i => i64 (u64 (u64 (row_idx + i - frame_begin i) + 1))) <$> zrange 0 count
    end
  else
    let partition_begin := znth 0 (bounds PARTITION_BEGIN) in
    (fun i => i64 (u64 (u64 (row_idx + i - partition_begin i) + 1))) <$> zrange 0 count.

(** ** NTILE *)

(** The arithmetic of one row: [None] is a division by zero.  All quantities are
    [int64_t]; the division of C++ truncates. *)
Definition ntile (n_param n_total adjusted_row_idx : Z) : option Z :=
  let n_param := if n_total <? n_param then n_total else n_param in
  if n_param =? 0 then None else
  let n_size := Z.quot n_total n_param in
  let n_large := i64 (n_total - i64 (n_param * n_size)) in
  let i_small := i64 (n_large * i64 (n_size + 1)) in
  if adjusted_row_idx <? i_small then
    let d := i64 (n_size + 1) in
    if d =? 0 then None else Some (i64 (1 + Z.quot adjusted_row_idx d))
  else
    if n_size =? 0 then None
    else Some (i64 (i64 (1 + n_large) + Z.quot (i64 (adjusted_row_idx - i_small)) n_size)).

(** One row: [Ok None] is SQL NULL. *)
Definition ntile_row (g : WindowRowNumberGlobalState) (begin_ end_ : Z)
    (ntile_col : WindowInputExpression Z) (i row_idx : Z) : option (res (option Z)) :=
  if InputIsNull ntile_col i then Some (Ok None) else
  let n_param := GetCell ntile_col i in
  if n_param <? 1 then Some (Throw InvalidInputException) else
  match NumericCast_int64 (u64 (end_ - begin_)) with
  | Throw e => Some (Throw e)
  | Ok n_total =>
      let partition_idx :=
        match token_tree g with
        | Some tree => u64 (Rank tree begin_ end_ row_idx - 1)
        | None => u64 (row_idx - begin_)
        end in
      (* the division by [n_param] comes before the cast of the row index *)
      if (if n_total <? n_param then n_total else n_param) =? 0 then None else
      match NumericCast_int64 partition_idx with
      | Throw e => Some (Throw e)
      | Ok adjusted_row_idx => t ← ntile n_param n_total adjusted_row_idx; Some (Ok (Some t))
      end
  end.

Fixpoint ntile_loop (g : WindowRowNumberGlobalState) (begin_ end_ : Z -> Z)
    (ntile_col : WindowInputExpression Z) (n : nat) (i row_idx : Z) : option (res (list (option Z))) :=
  match n with
  | O => Some (Ok [])
  | S n =>
      r ← ntile_row g (begin_ i) (end_ i) ntile_col i row_idx;
      match r with
      | Throw e => Some (Throw e)
      | Ok v =>
          rest ← ntile_loop g begin_ end_ ntile_col n (i + 1) (row_idx + 1);
          Some (vs ← rest; Ok (v :: vs))
      end
  end.

Definition NtileEvaluate (g : WindowRowNumberGlobalState) (bounds : DataChunk)
    (ntile_col : WindowInputExpression Z) (count row_idx : Z) : option (res (list (option Z))) :=
  let begin_ := znth 0 (bounds (if use_framing g then FRAME_BEGIN else PARTITION_BEGIN)) in
  let end_ := znth 0 (bounds (if use_framing g then FRAME_END else PARTITION_END)) in
  ntile_loop g begin_ end_ ntile_col (Z.to_nat count) 0 row_idx.

(** ** What NTILE means

    The first row of bucket [t] of [total] rows in [buckets] buckets: the first
    [total mod buckets] buckets have one row more. *)
Definition bucket_start (total buckets t : Z) : Z :=
  (t - 1) * (total / buckets) + Z.min (t - 1) (total mod buckets).

Lemma ntile_bucket n_param n_total idx :
  1 <= n_param < 2 ^ 63 -> 0 <= idx < n_total -> n_total < 2 ^ 63 ->
  let buckets := Z.min n_param n_total in
  exists t, ntile n_param n_total idx = Some t /\ 1 <= t <= buckets /\
    bucket_start n_total buckets t <= idx < bucket_start n_total buckets (t + 1).
Proof.
  intros Hp Hi Ht buckets. unfold ntile.
  assert ((if n_total <? n_param then n_total else n_param) = buckets) as ->.
  { unfold buckets. case_if; lia. }
  assert (1 <= buckets <= n_total) as Hb by (unfold buckets; lia). clearbody buckets. clear Hp.
  rewrite (proj2 (Z.eqb_neq _ _)) by lia. rewrite Z.quot_div_nonneg by lia. unfold bucket_start.
  pose proof (Z.div_mod n_total buckets ltac:(lia)) as Hdm.
  pose proof (Z.mod_pos_bound n_total buckets ltac:(lia)) as Hm.
  set (q := n_total / buckets) in *. set (m := n_total mod buckets) in *.
  assert (1 <= q) as Hq by nia.
  assert (q <= n_total) as Hq2 by nia.
  rewrite (i64_small (buckets * q)) by nia.
  replace (n_total - buckets * q) with m by lia. rewrite (i64_small m) by lia.
  assert (q + 1 < 2 ^ 63 \/ m = 0) as Hov by (destruct (decide (q = n_total)); [right; nia | left; lia]).
  assert (i64 (m * i64 (q + 1)) = m * (q + 1)) as ->.
  { destruct Hov as [Hov | ->]; [| done]. rewrite (i64_small (q + 1)) by lia. apply i64_small. nia. }
  destruct (Z.ltb_spec idx (m * (q + 1))) as [Hlt | Hge].
  - assert (0 < m) by nia. rewrite (i64_small (q + 1)) by lia. rewrite (proj2 (Z.eqb_neq _ _)) by lia.
    rewrite Z.quot_div_nonneg by lia.
    pose proof (Z.div_mod idx (q + 1) ltac:(lia)). pose proof (Z.mod_pos_bound idx (q + 1) ltac:(lia)).
    set (d := idx / (q + 1)) in *. assert (0 <= d < m) by nia.
    rewrite i64_small by nia. exists (1 + d). split; [done |].
    rewrite !Z.min_l by lia. nia.
  - rewrite (proj2 (Z.eqb_neq _ _)) by lia.
    rewrite (i64_small (idx - _)), (i64_small (1 + m)) by nia. rewrite Z.quot_div_nonneg by nia.
    pose proof (Z.div_mod (idx - m * (q + 1)) q ltac:(lia)).
    pose proof (Z.mod_pos_bound (idx - m * (q + 1)) q ltac:(lia)).
    set (d := (idx - m * (q + 1)) / q) in *. assert (0 <= d) by nia. assert (m + d < buckets) by nia.
    rewrite i64_small by lia. exists (1 + m + d). split; [done |].
    rewrite !Z.min_r by lia. nia.
Qed.

(** ** Properties *)

(** ROW_NUMBER over partitions numbers the rows of each partition from 1. *)
Theorem RowNumberEvaluate_correct partition_mask order_mask pc oc N g bounds row count :
  masks_ok partition_mask order_mask pc oc N -> use_framing g = false ->
  rank_bounds partition_mask order_mask pc oc N bounds row count ->
  RowNumberEvaluate g bounds count row =
    (fun i => i - part_begin (RowIsValid partition_mask) pc oc i + 1) <$> zrange row (row + count).
Proof.
  intros Hok Hg [Hrows Hpb Hpeer]. unfold RowNumberEvaluate. rewrite Hg, Hpb.
  pose proof (ok_size _ _ _ _ _ Hok). rewrite zrange_offset, <- !list_fmap_compose.
  apply list_fmap_ext. intros k i Hi. apply list_elem_of_lookup_2, elem_of_zrange in Hi.
  rewrite list_fmap_compose, <- zrange_offset, znth_rows by lia. simpl.
  pose proof (pb_range partition_mask pc oc (row + i) ltac:(lia)).
  rewrite (u64_small (row + i - _)), u64_small, i64_small; lia.
Qed.

(** NTILE(n) puts a row of a partition (or frame) of [n_total] rows in bucket
    [t], where bucket [t] starts at row [(t-1) * q + min (t-1) r] for the quotient
    [q] and the remainder [r] of [n_total] by the number of buckets; so the sizes
    of the buckets are [q] or [q + 1], the larger ones first. *)
Theorem ntile_correct g begin_ end_ ntile_col i row_idx :
  0 <= begin_ <= row_idx -> row_idx < end_ -> end_ < 2 ^ 63 -> token_tree g = None ->
  InputIsNull ntile_col i = false -> 1 <= GetCell ntile_col i < 2 ^ 63 ->
  let total := end_ - begin_ in
  let buckets := Z.min (GetCell ntile_col i) total in
  exists t, ntile_row g begin_ end_ ntile_col i row_idx = Some (Ok (Some t)) /\ 1 <= t <= buckets /\
    bucket_start total buckets t <= row_idx - begin_ < bucket_start total buckets (t + 1) /\
    bucket_start total buckets (t + 1) - bucket_start total buckets t =
      total / buckets + (if t <=? total mod buckets then 1 else 0).
Proof.
  intros Hb He Hs Htree Hnull Hcell total buckets. unfold ntile_row. rewrite Hnull, Htree.
  rewrite (proj2 (Z.ltb_ge _ _)) by lia. rewrite !u64_small by lia. unfold NumericCast_int64.
  rewrite (proj2 (Z.ltb_lt (end_ - begin_) _)) by lia. fold total.
  assert ((if total <? GetCell ntile_col i then total else GetCell ntile_col i) = buckets) as Hbk.
  { unfold buckets, total. case_if; lia. }
  rewrite Hbk, (proj2 (Z.eqb_neq _ _)) by (unfold buckets, total; lia).
  rewrite (proj2 (Z.ltb_lt _ _)) by lia.
  destruct (ntile_bucket (GetCell ntile_col i) total (row_idx - begin_)) as (t & -> & Ht & Hrange);
    [lia | unfold total; lia | unfold total; lia |]. fold buckets in Ht, Hrange.
  exists t. split; [done |]. split; [done |]. split; [done |]. unfold bucket_start.
  destruct (Z.leb_spec t (total mod buckets)); lia.
Qed.

(** NTILE over an empty frame (an ORDER BY argument and a frame without rows)
    divides by zero. *)
Theorem ntile_empty_frame g b ntile_col i row_idx :
  InputIsNull ntile_col i = false -> 1 <= GetCell ntile_col i ->
  ntile_row g b b ntile_col i row_idx = None.
Proof.
  intros Hnull Hcell. unfold ntile_row. rewrite Hnull, (proj2 (Z.ltb_ge _ _)), Z.sub_diag by lia.
  change (NumericCast_int64 (u64 0)) with (Ok 0). cbv beta iota zeta.
  assert ((if 0 <? GetCell ntile_col i then 0 else GetCell ntile_col i) = 0) as ->; [| done].
  destruct (Z.ltb_spec 0 (GetCell ntile_col i)); lia.
Qed.

(** ** Witnesses *)

Lemma RowNumberEvaluate_correct_witness :
  RowNumberEvaluate (mkGlobal false None) rank_columns 4 0 = [1; 2; 1; 2].
Proof.
  rewrite (RowNumberEvaluate_correct rank_partitions rank_orders 1 1 4 (mkGlobal false None) rank_columns 0 4
    rank_masks_ok eq_refl rank_bounds_ok). reflexivity.
Defined.

Definition three_tiles : WindowInputExpression Z := mkInput true (fun _ => 3) (fun _ => false).

Lemma ntile_correct_witness :
  exists t, ntile_row (mkGlobal false None) 10 18 three_tiles 0 13 = Some (Ok (Some t)) /\ 1 <= t <= 3 /\
    bucket_start 8 3 t <= 3 < bucket_start 8 3 (t + 1).
Proof.
  destruct (ntile_correct (mkGlobal false None) 10 18 three_tiles 0 13 ltac:(lia) ltac:(lia) ltac:(lia) eq_refl
    eq_refl ltac:(simpl; lia)) as (t & H1 & H2 & H3 & _).
  exists t. split; [exact H1 |]. split; [exact H2 | exact H3].
Defined.

Lemma ntile_empty_frame_witness : ntile_row (mkGlobal true None) 4 4 three_tiles 0 3 = None.
Proof. apply (ntile_empty_frame (mkGlobal true None) 4 three_tiles 0 3 eq_refl). simpl. lia. Defined.
