(* ===== verification/Aggregates.v ===== *)
(** * Aggregates over frames

    The interface of aggregate functions, and what the aggregators of
    function/window/ share: the arrays of states of window_aggregate_states.cpp, the
    FILTER mask of window_aggregator.cpp and the sub-frames that an EXCLUDE clause leaves
    (include/duckdb/function/window/window_aggregator.hpp).

    An aggregate function is a record of its operations on one state; the vectorised
    calls of the code apply them to the elements of their vectors in order.  Its laws
    say which rows a state stands for, in their order, and what they are finalized
    to.  A function that is not order dependent may forget the order. *)

From S2P Require Import Prelude Validity Boundaries.

(** ** Aggregate functions *)

Record AggregateFunction (R St Res : Type) := {
  initialize : St;
  update : R -> St -> St;
  (* the source and the target *)
  combine : St -> St -> St;
  finalize : St -> Res;
  (* order_dependent == NOT_ORDER_DEPENDENT *)
  order_insensitive : bool
}.
Arguments initialize {R St Res} _.
Arguments update {R St Res} _ _ _.
Arguments combine {R St Res} _ _ _.
Arguments finalize {R St Res} _ _.
Arguments order_insensitive {R St Res} _.

Class AggregateLaws {R St Res} (aggr : AggregateFunction R St Res) (spec : list R -> Res) := {
  represents : St -> list R -> Prop;
  represents_initialize : represents (initialize aggr) [];
  represents_update st rows r : represents st rows -> represents (update aggr r st) (rows ++ [r]);
  represents_combine src tgt rows rows' :
    represents src rows -> represents tgt rows' -> represents (combine aggr src tgt) (rows' ++ rows);
  represents_finalize st rows : represents st rows -> finalize aggr st = spec rows;
  represents_perm st rows rows' :
    order_insensitive aggr = true -> rows ≡ₚ rows' -> represents st rows -> represents st rows'
}.

(** ** Arrays of states *)

Section states.
Context {R St Res : Type} (aggr : AggregateFunction R St Res).

Definition States_Initialize (count : nat) : list St := replicate count (initialize aggr).

Definition States_Combine (states target : list St) : list St :=
  zip_with (combine aggr) states target.

Definition States_Finalize (states : list St) : list Res := finalize aggr <$> states.
End states.

(** ** The FILTER mask *)

Definition filter_mask_new (filter : bool) (group_count : Z) : ValidityArray :=
  if filter then ArrayInitialize group_count false else ArrayInitializeEmpty (mkArray None 0) group_count.

(** [WindowAggregator::Sink] of a chunk at [input_idx]. *)
Definition filter_sink (filter_mask : ValidityArray) (chunk : Z * option (list Z)) : option ValidityArray :=
  match snd chunk with
  | None => Some filter_mask
  | Some filter_sel => ofold (fun mask f => ArraySetValid mask (fst chunk + f)) filter_mask filter_sel
  end.

(** ** Sub-frames *)

Definition FrameBounds : Type := Z * Z.

Definition sub_frames (exclude_mode : WindowExcludeMode) (frame_begin frame_end peer_begin peer_end cur_row : Z)
    : list FrameBounds :=
  match exclude_mode with
  | NO_OTHER => [(frame_begin, frame_end)]
  | _ =>
      let left_end := if decide (exclude_mode = CURRENT_ROW) then cur_row else peer_begin in
      let left := (frame_begin, Z.max (Z.min left_end frame_end) frame_begin) in
      let middle :=
        if decide (exclude_mode = TIES) then
          [(Z.min (Z.max cur_row frame_begin) frame_end, Z.max (Z.min (cur_row + 1) frame_end) frame_begin)]
        else [] in
      let right_begin := if decide (exclude_mode = CURRENT_ROW) then cur_row + 1 else peer_end in
      let right := (Z.min (Z.max right_begin frame_begin) frame_end, frame_end) in
      left :: middle ++ [right]
  end.

Definition InitSubFrames (exclude_mode : WindowExcludeMode) : list FrameBounds :=
  replicate (match exclude_mode with NO_OTHER => 1 | TIES => 3 | CURRENT_ROW | GROUP => 2 end)%nat (0, 0).

(** The rows of a frame that the EXCLUDE clause of SQL keeps. *)
Definition not_excluded (exclude_mode : WindowExcludeMode) (peer_begin peer_end cur_row i : Z) : bool :=
  match exclude_mode with
  | NO_OTHER => true
  | CURRENT_ROW => negb (i =? cur_row)
  | GROUP => negb ((peer_begin <=? i) && (i <? peer_end))
  | TIES => negb ((peer_begin <=? i) && (i <? peer_end)) || (i =? cur_row)
  end.

Definition frame_rows (exclude_mode : WindowExcludeMode) (frame_begin frame_end peer_begin peer_end cur_row : Z)
    : list Z :=
  List.filter (not_excluded exclude_mode peer_begin peer_end cur_row) (zrange frame_begin frame_end).

(** ** Theorems *)

Definition frames_ordered (frames : list FrameBounds) : Prop :=
  Forall (fun p => fst p <= snd p) frames /\
  StronglySorted (fun p q => snd p <= fst q) frames.

Lemma sub_frames_rows exclude_mode frame_begin frame_end peer_begin peer_end cur_row :
  frame_begin <= frame_end -> peer_begin <= cur_row < peer_end ->
  mjoin ((fun p => zrange (fst p) (snd p)) <$> sub_frames exclude_mode frame_begin frame_end peer_begin peer_end cur_row) =
    frame_rows exclude_mode frame_begin frame_end peer_begin peer_end cur_row.
Proof.
  intros Hf Hp.
  unfold frame_rows. destruct exclude_mode; cbn [sub_frames not_excluded];
    repeat case_decide; try congruence; cbn; rewrite ?app_nil_r.
  - symmetry. by apply filter_zrange_all.
  - symmetry. apply filter_zrange_split; try lia;
      intros i Hi; [apply negb_true_iff, Z.eqb_neq | apply negb_false_iff, Z.eqb_eq]; lia.
  - symmetry. apply filter_zrange_split; try lia;
      intros i Hi; [apply negb_true_iff, andb_false_iff; rewrite Z.leb_gt, Z.ltb_ge
                   | apply negb_false_iff, andb_true_iff; rewrite Z.leb_le, Z.ltb_lt]; lia.
  - set (c := Z.min (Z.max cur_row frame_begin) frame_end).
    set (d := Z.max (Z.min (cur_row + 1) frame_end) frame_begin).
    rewrite (zrange_split frame_begin c frame_end), List.filter_app by lia.
    rewrite (zrange_split c d frame_end), List.filter_app by lia.
    rewrite (filter_zrange_prefix _ frame_begin (Z.max (Z.min peer_begin frame_end) frame_begin) c).
    rewrite (filter_zrange_all _ c d).
    rewrite (filter_zrange_suffix _ d (Z.min (Z.max peer_end frame_begin) frame_end) frame_end).
    done.
    all: try lia.
    all: intros i Hi; destruct (Z.leb_spec peer_begin i), (Z.ltb_spec i peer_end), (Z.eqb_spec i cur_row); cbn; lia || done.
Qed.

(** The sub-frames of a row are in order and do not overlap, there are as many as
    were allocated, and together they are the rows of the frame that the EXCLUDE
    clause keeps. *)
Theorem sub_frames_correct exclude_mode frame_begin frame_end peer_begin peer_end cur_row :
  frame_begin <= frame_end -> peer_begin <= cur_row < peer_end ->
  let frames := sub_frames exclude_mode frame_begin frame_end peer_begin peer_end cur_row in
  length frames = length (InitSubFrames exclude_mode) /\ frames_ordered frames /\
  mjoin ((fun p => zrange (fst p) (snd p)) <$> frames) =
    frame_rows exclude_mode frame_begin frame_end peer_begin peer_end cur_row.
Proof.
  intros Hf Hp. cbn zeta. split; [by destruct exclude_mode |]. split.
  { unfold frames_ordered. destruct exclude_mode; cbn [sub_frames app].
    all: repeat case_decide; try congruence; cbn [app].
    all: split; repeat (constructor; cbn; try lia). }
  by apply sub_frames_rows.
Qed.

(** The rows that a chunk lets pass. *)
Definition sunk_rows (chunk : Z * option (list Z)) : list Z :=
  match snd chunk with
  | None => []
  | Some filter_sel => (fun f => fst chunk + f) <$> filter_sel
  end.

Lemma filter_sink_rows (mask : list bool) c chunk :
  Forall (fun i => 0 <= i < Z.of_nat (length mask)) (sunk_rows chunk) ->
  exists mask', filter_sink (mkArray (Some mask) c) chunk = Some (mkArray (Some mask') c) /\
    length mask' = length mask /\
    forall i, 0 <= i -> znth false mask' i = znth false mask i || bool_decide (i ∈ sunk_rows chunk).
Proof.
  destruct chunk as [input_idx [sel |]]; unfold sunk_rows, filter_sink; cbn [fst snd]; cycle 1.
  { intros _. exists mask. split_and!; [done | done |]. intros i _. by rewrite bool_decide_eq_false_2, orb_false_r by set_solver. }
  revert mask. induction sel as [| f sel IH]; intros mask Hsel.
  { exists mask. split_and!; [done | done |]. intros i _. by rewrite bool_decide_eq_false_2, orb_false_r by set_solver. }
  apply Forall_cons in Hsel as [Hf Hsel]. rewrite ofold_cons.
  assert (ArraySetValid (mkArray (Some mask) c) (input_idx + f) =
    Some (mkArray (Some (<[Z.to_nat (input_idx + f) := true]> mask)) c)) as ->
    by (unfold ArraySetValid; cbn; by rewrite zstore_Some).
  cbn [mbind option_bind].
  destruct (IH (<[Z.to_nat (input_idx + f) := true]> mask)) as (mask' & E & Hl & Hv).
  { by rewrite length_insert. }
  exists mask'. split_and!; [done | by rewrite Hl, length_insert |]. intros i Hi. rewrite Hv, znth_insert by lia.
  rewrite fmap_cons. case_decide as Ei.
  - subst i. rewrite (bool_decide_eq_true_2 (input_idx + f ∈ _ :: _)) by (by left). by rewrite orb_true_r.
  - f_equal. apply bool_decide_ext. rewrite elem_of_cons. split; [by right | intros [? |]; [by destruct Ei | done]].
Qed.

(** After the chunks of all threads the FILTER mask holds exactly the rows that
    passed, whatever the order of the chunks. *)
Theorem filter_mask_rows n chunks :
  0 <= n ->
  Forall (fun chunk => Forall (fun i => 0 <= i < n) (sunk_rows chunk)) chunks ->
  exists mask, ofold filter_sink (filter_mask_new true n) chunks = Some mask /\
    ArrayAllValid mask = false /\
    forall i, 0 <= i -> ArrayRowIsValid mask i = bool_decide (i ∈ mjoin (sunk_rows <$> chunks)).
Proof.
  intros Hn Hc.
  unfold filter_mask_new, ArrayInitialize.
  assert (exists mask, ofold filter_sink (mkArray (Some (replicate (Z.to_nat n) false)) n) chunks =
      Some (mkArray (Some mask) n) /\
    forall i, 0 <= i -> znth false mask i = znth false (replicate (Z.to_nat n) false) i ||
      bool_decide (i ∈ mjoin (sunk_rows <$> chunks))) as (mask & E & Hm).
  { assert (Z.of_nat (length (replicate (Z.to_nat n) false)) = n) as Hl by (rewrite length_replicate; lia).
    revert Hl. generalize (replicate (Z.to_nat n) false) as mask.
    induction Hc as [| chunk chunks Hc _ IH]; intros mask Hl.
    { exists mask. split; [done |]. intros i _. by rewrite bool_decide_eq_false_2, orb_false_r by set_solver. }
    destruct (filter_sink_rows mask n chunk) as (mask1 & E1 & Hl1 & Hv1); [by rewrite Hl |].
    destruct (IH mask1) as (mask2 & E2 & Hv2); [by rewrite Hl1 |].
    exists mask2. rewrite ofold_cons, E1. split; [done |]. intros i Hi.
    rewrite Hv2, Hv1, fmap_cons, mjoin_cons, <- orb_assoc by done. f_equal.
    rewrite (bool_decide_ext (i ∈ sunk_rows chunk ++ _) (i ∈ sunk_rows chunk \/ i ∈ mjoin (sunk_rows <$> chunks)))
      by apply elem_of_app. by rewrite bool_decide_or. }
  exists (mkArray (Some mask) n). split_and!; [done | done |]. intros i Hi. cbn.
  unfold ArrayRowIsValidUnsafe. rewrite Hm by done. unfold znth at 1. destruct (replicate _ _ !! _) eqn:E0; [| done].
  by apply lookup_replicate in E0 as [-> _].
Qed.

(** ** Examples *)

Lemma sub_frames_correct_witness :
  let frames := sub_frames TIES 2 9 3 7 5 in
  length frames = length (InitSubFrames TIES) /\ frames_ordered frames /\
  mjoin ((fun p => zrange (fst p) (snd p)) <$> frames) = frame_rows TIES 2 9 3 7 5 /\
  frame_rows TIES 2 9 3 7 5 = [2; 5; 7; 8].
Proof.
  destruct (sub_frames_correct TIES 2 9 3 7 5) as (H1 & H2 & H3); [lia | lia |].
  split; [exact H1 |]. split; [exact H2 |]. split; [exact H3 | reflexivity].
Defined.

Lemma filter_mask_rows_witness :
  exists mask, ofold filter_sink (filter_mask_new true 10) [(4, Some [0; 2; 3]); (8, None); (0, Some [1])] = Some mask /\
    ArrayAllValid mask = false /\
    forall i, 0 <= i -> ArrayRowIsValid mask i =
      bool_decide (i ∈ mjoin (sunk_rows <$> [(4, Some [0; 2; 3]); (8, None); (0, Some [1])])).
Proof.
  apply (filter_mask_rows 10); [lia |]. apply (bool_decide_unpack _). vm_compute. exact I.
Defined.
