(* ===== verification/WindowValue.v ===== *)
(** * Value functions

    FIRST_VALUE, LAST_VALUE, NTH_VALUE, LEAD and LAG
    (function/window/window_value_function.cpp).  A row's result is a cell of the
    materialized argument column, or the default, or NULL.

    With an ORDER BY in the argument the row is looked up in the index tree, whose laws
    are the class [IndexTreeLaws]; MergeSortTree and its clients implement it.  Without
    one, FIRST_VALUE, LAST_VALUE and NTH_VALUE search the mask of the rows that are not
    ignored, frame part by frame part, and LEAD and LAG search it from the row; if
    nothing is ignored and the offset is constant they copy whole runs of rows. *)

From S2P Require Import Prelude Validity MaskSearch Boundaries Rank Aggregates.

(** ** The materialized column

    The chunks of the column of a [WindowCollection], in row order; [None] in a cell is
    NULL.  [CursorSeek] gives the chunk of a row and the row's offset in it. *)

Definition cell (V : Type) : Type := option V.
Definition ValueCursor (V : Type) : Type := list (list (cell V)).

Fixpoint CursorSeek {V} (cursor : ValueCursor V) (row_idx : Z) : option (list (cell V) * Z) :=
  match cursor with
  | [] => None
  | chunk :: cursor =>
      if row_idx <? Z.of_nat (length chunk) then Some (chunk, row_idx)
      else CursorSeek cursor (row_idx - Z.of_nat (length chunk))
  end.

Definition CopyCell {V} (cursor : ValueCursor V) (row_idx : Z) : option (cell V) :=
  '(source, index) ← CursorSeek cursor row_idx; zload source index.

(** [WindowInputExpression::CopyCell] of [width] cells to [target_offset]. *)
Definition InputCopyCell {V} (e : WindowInputExpression V) (target_offset width : Z) : list (cell V) :=
  (fun i => if InputIsNull e i then None else Some (GetCell e i)) <$> zrange target_offset (target_offset + width).

(** ** States *)

(** [SelectNth]: [{nth index, 0}] or [{nth offset, overflow}]. *)
Record WindowIndexTree : Type := mkIndexTree { SelectNth : list FrameBounds -> Z -> option (Z * Z) }.

Record WindowValueGlobalState : Type := mkValueGlobal {
  ignore_nulls : ValidityMask;
  value_tree : option WindowIndexTree
}.

Definition WindowValueGlobalState_new (arg_orders : Z) (tree : WindowIndexTree) : WindowValueGlobalState :=
  {| ignore_nulls := mkMask None STANDARD_VECTOR_SIZE;
     value_tree := if arg_orders =? 0 then None else Some tree |}.

(** [validity] is the mask of the argument column in the collection. *)
Definition WindowValueGlobalState_Finalize (has_child IgnoreNulls : bool) (validity : ValidityMask)
    (g : WindowValueGlobalState) : WindowValueGlobalState :=
  if has_child && IgnoreNulls then mkValueGlobal validity (value_tree g) else g.

(** The rows of a chunk that [WindowValueLocalState::Sink] passes to the index tree:
    [sel] is the selection of the argument vector and [None] stands for all rows. *)
Definition value_sink_filter (IgnoreNulls : bool) (validity : ValidityMask) (sel : Z -> Z) (coll_count : Z)
    : option (list Z) :=
  if IgnoreNulls && negb (AllValid validity) then
    Some (List.filter (fun i => RowIsValidUnsafe validity (sel i)) (zrange 0 coll_count))
  else None.

(** ** FIRST_VALUE, LAST_VALUE and NTH_VALUE *)

(** [WindowAggregator::EvaluateSubFrames]: the operation writes the cell of each row. *)
Definition EvaluateSubFrames {A} (bounds : DataChunk) (exclude_mode : WindowExcludeMode) (count row_idx : Z)
    (operation : list FrameBounds -> Z -> option A) : option (list A) :=
  mapM (fun i =>
    operation (sub_frames exclude_mode (znth 0 (bounds FRAME_BEGIN) i) (znth 0 (bounds FRAME_END) i)
      (znth 0 (bounds PEER_BEGIN) i) (znth 0 (bounds PEER_END) i) (row_idx + i)) i) (zrange 0 count).

Definition frames_width (frames : list FrameBounds) : Z :=
  foldl (fun frame_width frame => u64 (frame_width + u64 (snd frame - fst frame))) 0 frames.

Section value.
Context {V : Type} (gvstate : WindowValueGlobalState) (cursor : ValueCursor V).

(** The search through the frame parts, from the left and from the right; [n] is what is
    left to find. *)
Fixpoint search_next (frames : list FrameBounds) (n : Z) : option (cell V) :=
  match frames with
  | [] => Some None
  | frame :: frames =>
      if snd frame <=? fst frame then search_next frames n
      else
        let '(nth_index, n) := FindNextStart (ignore_nulls gvstate) (fst frame) (snd frame) n in
        if n =? 0 then CopyCell cursor nth_index else search_next frames n
  end.

(** FIRST_VALUE searches every part with [n = 1] of its own. *)
Fixpoint search_first (frames : list FrameBounds) : option (cell V) :=
  match frames with
  | [] => Some None
  | frame :: frames =>
      if snd frame <=? fst frame then search_first frames
      else
        let '(first_idx, n) := FindNextStart (ignore_nulls gvstate) (fst frame) (snd frame) 1 in
        if n =? 0 then CopyCell cursor first_idx else search_first frames
  end.

(** [frames] in the order of the search, from the last to the first. *)
Fixpoint search_last (frames : list FrameBounds) : option (cell V) :=
  match frames with
  | [] => Some None
  | frame :: frames =>
      if snd frame <=? fst frame then search_last frames
      else
        let '(last_idx, n) := FindPrevStart (ignore_nulls gvstate) (fst frame) (snd frame) 1 in
        if n =? 0 then CopyCell cursor last_idx else search_last frames
  end.

Definition FirstValue_row (frames : list FrameBounds) : option (cell V) :=
  match value_tree gvstate with
  | Some tree =>
      let frame_width := frames_width frames in
      if negb (frame_width =? 0) then
        first_idx ← SelectNth tree frames 0;
        if negb (snd first_idx =? 0) then None else CopyCell cursor (fst first_idx)
      else Some None
  | None => search_first frames
  end.

Definition LastValue_row (frames : list FrameBounds) : option (cell V) :=
  match value_tree gvstate with
  | Some tree =>
      let frame_width := frames_width frames in
      if negb (frame_width =? 0) then
        let n := frame_width - 1 in
        last_idx ← SelectNth tree frames n;
        (* "Frame larger than data. Since we want last, we back off by the overflow" *)
        last_idx ← (if negb (snd last_idx =? 0) && (snd last_idx <=? n)
                    then SelectNth tree frames (n - snd last_idx) else Some last_idx);
        if negb (snd last_idx =? 0) then Some None else CopyCell cursor (fst last_idx)
      else Some None
  | None => search_last (reverse frames)
  end.

(** One row of NTH_VALUE: [nth_param] is its second argument, [None] if it is NULL. *)
Definition NthValue_row (nth_param : option Z) (frames : list FrameBounds) : option (cell V) :=
  match nth_param with
  | None => Some None
  | Some n_param =>
      if n_param <? 1 then Some None
      else
        let n := n_param in
        match value_tree gvstate with
        | Some tree =>
            let frame_width := frames_width frames in
            if n <? frame_width then
              nth_index ← SelectNth tree frames (n - 1);
              if negb (snd nth_index =? 0) then Some None else CopyCell cursor (fst nth_index)
            else Some None
        | None => search_next frames n
        end
  end.

Definition FirstValueEvaluate (exclude_mode : WindowExcludeMode) (bounds : DataChunk) (count row_idx : Z)
    : option (list (cell V)) :=
  EvaluateSubFrames bounds exclude_mode count row_idx (fun frames _ => FirstValue_row frames).

Definition LastValueEvaluate (exclude_mode : WindowExcludeMode) (bounds : DataChunk) (count row_idx : Z)
    : option (list (cell V)) :=
  EvaluateSubFrames bounds exclude_mode count row_idx (fun frames _ => LastValue_row frames).

Definition NthValueEvaluate (exclude_mode : WindowExcludeMode) (nth_col : WindowInputExpression Z)
    (bounds : DataChunk) (count row_idx : Z) : option (list (cell V)) :=
  EvaluateSubFrames bounds exclude_mode count row_idx
    (fun frames i => NthValue_row (if InputIsNull nth_col i then None else Some (GetCell nth_col i)) frames).
End value.

(** ** LEAD and LAG *)

Record WindowLeadLagGlobalState : Type := mkLeadLagGlobal {
  leadlag_values : WindowValueGlobalState;
  leadlag_framing : bool;
  row_tree : option WindowTokenTree
}.

Definition WindowLeadLagGlobalState_new (arg_orders shared_orders : Z) (enable_optimizer : bool)
    (index_tree : WindowIndexTree) (tokens : WindowTokenTree) : WindowLeadLagGlobalState :=
  let g := WindowValueGlobalState_new arg_orders index_tree in
  match value_tree g with
  | None => mkLeadLagGlobal g false None
  | Some _ =>
      if negb enable_optimizer || negb (shared_orders =? arg_orders) then mkLeadLagGlobal g true (Some tokens)
      else mkLeadLagGlobal (mkValueGlobal (ignore_nulls g) None) true None
  end.

(** An optional argument: the expression, and whether it is foldable. *)
Definition LeadLagArgument (T : Type) : Type := option (WindowInputExpression T * bool).

Section leadlag.
Context {V : Type} (expression_type : ExpressionType) (glstate : WindowLeadLagGlobalState) (cursor : ValueCursor V).
Context (offset_expr : LeadLagArgument Z) (default_expr : LeadLagArgument V).

(** The offset of a row: [None] if it is NULL. *)
Definition leadlag_offset (i : Z) : option Z :=
  match offset_expr with
  | None => Some 1
  | Some (e, _) => if InputIsNull e i then None else Some (GetCell e i)
  end.

(** [AddOperatorOverflowCheck] and [SubtractOperatorOverflowCheck] *)
Definition leadlag_move (val_idx offset : Z) : res Z :=
  match (if decide (expression_type = WINDOW_LEAD) then TryAdd val_idx offset else TrySubtract val_idx offset) with
  | Some val_idx => Ok val_idx
  | None => Throw OutOfRangeException
  end.

(** The default, or NULL, [width] times from [i]. *)
Definition leadlag_defaults (i width : Z) : list (cell V) :=
  match default_expr with
  | Some (e, _) => InputCopyCell e i width
  | None => replicate (Z.to_nat width) None
  end.

(** *** With a tree of row numbers *)

Definition leadlag_tree_row (trees : WindowTokenTree * WindowIndexTree) (frame_begin frame_end i row_idx : Z)
    : option (res (list (cell V))) :=
  match leadlag_offset i with
  | None => Some (Ok [None])
  | Some offset =>
      let own_row := u64 (Rank (fst trees) frame_begin frame_end row_idx - 1) in
      match (val_idx ← NumericCast_int64 own_row;
             val_idx ← leadlag_move val_idx offset;
             frame_width ← NumericCast_int64 (u64 (frame_end - frame_begin));
             Ok (val_idx, frame_width)) with
      | Throw e => Some (Throw e)
      | Ok (val_idx, frame_width) =>
          if (0 <=? val_idx) && (val_idx <? frame_width) then
            nth_index ← SelectNth (snd trees) [(frame_begin, frame_end)] val_idx;
            if negb (snd nth_index =? 0) then Some (Ok [None])
            else v ← CopyCell cursor (fst nth_index); Some (Ok [v])
          else Some (Ok (leadlag_defaults i 1))
      end
  end.

(** *** Without *)

(** The position of the row's value, and how many rows are missing. *)
Definition leadlag_search (partition_begin partition_end row_idx offset : Z) : res (Z * Z) :=
  val_idx ← leadlag_move row_idx offset;
  Ok (if val_idx <? row_idx then
        FindPrevStart (ignore_nulls (leadlag_values glstate)) partition_begin row_idx (u64 (row_idx - u64 val_idx))
      else if row_idx <? val_idx then
        FindNextStart (ignore_nulls (leadlag_values glstate)) (row_idx + 1) partition_end (u64 (u64 val_idx - row_idx))
      else (val_idx, 0)).

(** The rows one by one: the last branch of the loop. *)
Definition leadlag_row (partition_begin partition_end : Z -> Z) (i row_idx : Z) : option (res (list (cell V))) :=
  match leadlag_offset i with
  | None => Some (Ok [None])
  | Some offset =>
      match leadlag_search (partition_begin i) (partition_end i) row_idx offset with
      | Throw e => Some (Throw e)
      | Ok (val_idx, delta) =>
          if delta =? 0 then v ← CopyCell cursor val_idx; Some (Ok [v])
          else Some (Ok (leadlag_defaults i 1))
      end
  end.

(** [while (width)]: the copied cells, block by block. *)
Fixpoint copy_blocks (fuel : nat) (index width : Z) : option (list (cell V)) :=
  if width =? 0 then Some []
  else match fuel with
  | O => None
  | S fuel =>
      '(source, source_offset) ← CursorSeek cursor index;
      let copied := Z.min (Z.of_nat (length source) - source_offset) width in
      rest ← copy_blocks fuel (index + copied) (width - copied);
      Some (take (Z.to_nat copied) (drop (Z.to_nat source_offset) source) ++ rest)
  end.

(** One pass through the loop of the rows when [can_shift] holds. *)
Definition leadlag_shift (partition_begin partition_end : Z -> Z) (row_end i row_idx : Z) : option (res (list (cell V))) :=
  match leadlag_offset i with
  | None => Some (Ok [None])
  | Some offset =>
      match leadlag_search (partition_begin i) (partition_end i) row_idx offset with
      | Throw e => Some (Throw e)
      | Ok (val_idx, delta) =>
          let target_limit := u64 (Z.min (partition_end i) row_end - row_idx) in
          if delta =? 0 then
            let source_limit := u64 (partition_end i - val_idx) in
            let width := Z.min source_limit target_limit in
            copied ← copy_blocks (Z.to_nat width) val_idx width;
            Some (Ok copied)
          else Some (Ok (leadlag_defaults i (Z.min delta target_limit)))
      end
  end.

Definition can_shift : bool :=
  AllValid (ignore_nulls (leadlag_values glstate)) && negb (leadlag_framing glstate)
  && match offset_expr with Some (_, foldable) => foldable | None => true end
  && match default_expr with Some (_, foldable) => foldable | None => true end.

(** [for (idx_t i = 0; i < count;)]: a pass writes the cells from [i] and moves [i] and
    [row_idx] by their number. *)
Fixpoint leadlag_loop (pass : Z -> Z -> option (res (list (cell V)))) (fuel : nat) (count i row_idx : Z)
    : option (res (list (cell V))) :=
  if count <=? i then Some (Ok [])
  else match fuel with
  | O => None
  | S fuel =>
      written ← pass i row_idx;
      match written with
      | Throw e => Some (Throw e)
      | Ok written =>
          rest ← leadlag_loop pass fuel count (i + Z.of_nat (length written)) (row_idx + Z.of_nat (length written));
          Some (rest ← rest; Ok (written ++ rest))
      end
  end.

Definition LeadLagEvaluate (bounds : DataChunk) (count row_idx : Z) : option (res (list (cell V))) :=
  let column b := znth 0 (bounds b) in
  match row_tree glstate, value_tree (leadlag_values glstate) with
  | Some tokens, Some tree =>
      leadlag_loop (fun i row_idx =>
        leadlag_tree_row (tokens, tree) (column FRAME_BEGIN i) (column FRAME_END i) i row_idx)
        (Z.to_nat count) count 0 row_idx
  | _, _ =>
      let partition_begin := column (if leadlag_framing glstate then FRAME_BEGIN else PARTITION_BEGIN) in
      let partition_end := column (if leadlag_framing glstate then FRAME_END else PARTITION_END) in
      leadlag_loop
        (if can_shift then leadlag_shift partition_begin partition_end (row_idx + count)
         else leadlag_row partition_begin partition_end)
        (Z.to_nat count) count 0 row_idx
  end.
End leadlag.

(** ** What the functions are *)

(** The cell of a row, NULL if there is no row. *)
Definition cell_at {V} (cells : list (cell V)) (row : option Z) : cell V :=
  r ← row; v ← cells !! Z.to_nat r; v.

(** The rows of the parts of a frame that satisfy [valid], in order. *)
Definition rows_of (valid : Z -> bool) (frames : list FrameBounds) : list Z :=
  mjoin ((fun p => starts valid (fst p) (snd p)) <$> frames).

Definition in_frames (frames : list FrameBounds) (i : Z) : bool :=
  existsb (fun p => (fst p <=? i) && (i <? snd p)) frames.

(** The rows of an index tree's [order] that are in the frame, in that order. *)
Definition selected (frames : list FrameBounds) (order : list Z) : list Z := List.filter (in_frames frames) order.

(** What the value functions rely on: the rows of the tree are [order], and a position
    that exists is found. *)
Class IndexTreeLaws (tree : WindowIndexTree) (order : list Z) : Prop := {
  order_NoDup : NoDup order;
  SelectNth_found frames n r :
    frames_ordered frames -> 0 <= n -> selected frames order !! Z.to_nat n = Some r ->
    SelectNth tree frames n = Some (r, 0)
}.

(** A position beyond the last one gives the number of rows that are missing. *)
Class IndexTreeOverflow (tree : WindowIndexTree) (order : list Z) : Prop :=
  SelectNth_overflow frames n :
    frames_ordered frames -> Z.of_nat (length (selected frames order)) <= n < 2 ^ 63 ->
    exists p, SelectNth tree frames n = Some (p, n + 1 - Z.of_nat (length (selected frames order))).

(** ** The column *)

Section column.
Context {V : Type}.
Implicit Types cursor : ValueCursor V.

Lemma CursorSeek_row cursor r :
  0 <= r < Z.of_nat (length (mjoin cursor)) ->
  exists chunk off before after, CursorSeek cursor r = Some (chunk, off) /\ 0 <= off < Z.of_nat (length chunk) /\
    mjoin cursor = before ++ chunk ++ after /\ r = Z.of_nat (length before) + off.
Proof.
  revert r. induction cursor as [| chunk cursor IH]; intros r Hr; [cbn in Hr; lia |].
  cbn [CursorSeek]. destruct (Z.ltb_spec r (Z.of_nat (length chunk))).
  { exists chunk, r, [], (mjoin cursor). rewrite mjoin_cons. split_and!; try done; cbn; lia. }
  rewrite mjoin_cons, length_app in Hr.
  destruct (IH (r - Z.of_nat (length chunk)) ltac:(lia)) as (c & off & before & after & -> & ? & E & ?).
  exists c, off, (chunk ++ before), after. rewrite mjoin_cons, E, <- app_assoc, length_app.
  split_and!; try done; lia.
Qed.

Lemma CopyCell_row cursor r :
  0 <= r < Z.of_nat (length (mjoin cursor)) -> CopyCell cursor r = Some (cell_at (mjoin cursor) (Some r)).
Proof.
  intros Hr. destruct (CursorSeek_row cursor r Hr) as (chunk & off & before & after & E & Ho & Ec & ->).
  unfold CopyCell. rewrite E. cbn [mbind option_bind]. destruct (lookup_lt_is_Some_2 chunk (Z.to_nat off)) as [v Ev]; [lia |].
  unfold zload. rewrite decide_True by lia. rewrite Ev. unfold cell_at. cbn [mbind option_bind].
  rewrite Ec, lookup_app_r by lia. replace (Z.to_nat _ - length before)%nat with (Z.to_nat off) by lia.
  rewrite lookup_app_l by lia. by rewrite Ev.
Qed.

Lemma copy_blocks_rows cursor fuel index width :
  0 <= index -> 0 <= width <= Z.of_nat fuel -> index + width <= Z.of_nat (length (mjoin cursor)) ->
  copy_blocks cursor fuel index width = Some ((fun r => cell_at (mjoin cursor) (Some r)) <$> zrange index (index + width)).
Proof.
  revert index width. induction fuel as [| fuel IH]; intros index width Hi Hw Hl; cbn [copy_blocks];
    destruct (Z.eqb_spec width 0) as [-> |]; try (by rewrite zrange_nil by lia); [lia |].
  destruct (CursorSeek_row cursor index ltac:(lia)) as (chunk & off & before & after & -> & Ho & Ec & E).
  cbn [mbind option_bind]. set (copied := Z.min _ _). assert (1 <= copied <= width) as Hc by lia.
  rewrite IH by lia. cbn [mbind option_bind]. f_equal.
  rewrite (zrange_split index (index + copied) (index + width)), fmap_app by lia.
  replace (index + copied + (width - copied)) with (index + width) by lia. f_equal.
  apply list_eq. intros k. rewrite list_lookup_fmap. destruct (decide (Z.of_nat k < copied)) as [Hk | Hk].
  - rewrite lookup_take_lt, lookup_drop by lia. rewrite <- (Nat2Z.id k) at 2. rewrite lookup_zrange by lia.
    cbn [fmap option_fmap option_map]. unfold cell_at. cbn [mbind option_bind].
    rewrite Ec, lookup_app_r by lia. rewrite lookup_app_l by lia.
    replace (Z.to_nat (index + Z.of_nat k) - length before)%nat with (Z.to_nat off + k)%nat by lia.
    destruct (lookup_lt_is_Some_2 chunk (Z.to_nat off + k)) as [v ->]; [lia |]. done.
  - rewrite lookup_take_ge by lia. rewrite lookup_ge_None_2; [done |]. rewrite length_zrange. lia.
Qed.
End column.

(** ** The search through the frame parts *)

Lemma rows_of_cons valid p frames : rows_of valid (p :: frames) = starts valid (fst p) (snd p) ++ rows_of valid frames.
Proof. done. Qed.

Lemma rows_of_app valid frames frames' : rows_of valid (frames ++ frames') = rows_of valid frames ++ rows_of valid frames'.
Proof. unfold rows_of. by rewrite fmap_app, mjoin_app. Qed.

Lemma rows_of_filter valid frames :
  rows_of valid frames = List.filter valid (mjoin ((fun p => zrange (fst p) (snd p)) <$> frames)).
Proof.
  induction frames as [| p frames IH]; [done |]. rewrite rows_of_cons, fmap_cons, mjoin_cons, List.filter_app, IH. done.
Qed.

(** The parts lie in the column. *)
Definition frames_within (n : Z) (frames : list FrameBounds) : Prop :=
  Forall (fun p => 0 <= fst p <= snd p /\ snd p <= n) frames.

Section search.
Context {V : Type} (gvstate : WindowValueGlobalState) (cursor : ValueCursor V).
#[local] Notation valid := (RowIsValid (ignore_nulls gvstate)).
#[local] Notation cells := (mjoin cursor).
#[local] Notation size := (Z.of_nat (length cells)).
Context (Hsize : size < 2 ^ 63).

Lemma search_next_rows frames n :
  frames_within size frames -> 1 <= n < 2 ^ 63 ->
  search_next gvstate cursor frames n = Some (cell_at cells (rows_of valid frames !! Z.to_nat (n - 1))).
Proof.
  intros Hf. revert n. induction Hf as [| [l r] frames [Hp Hr] _ IH]; intros n Hn; [done |].
  cbn [fst snd] in *. cbn [search_next fst snd]. rewrite rows_of_cons. cbn [fst snd].
  destruct (Z.leb_spec r l). { rewrite starts_nil by lia. cbn [app]. by apply IH. }
  destruct (FindNextStart_nth (ignore_nulls gvstate) l r n) as [E1 E2]; [lia.. |]. specialize (E2 ltac:(lia)).
  destruct (FindNextStart _ l r n) as [p n']. cbn [fst snd] in E1, E2. subst p n'. unfold left_over.
  pose proof (length_starts valid l r) as Hl. pose proof (zcount_nonneg valid l r).
  destruct (decide (n <= zcount valid l r)).
  - rewrite (proj2 (Z.eqb_eq _ 0)) by lia. unfold nth_start.
    destruct (lookup_lt_is_Some_2 (starts valid l r) (Z.to_nat (n - 1))) as [s Es]; [lia |].
    rewrite lookup_app_l by lia. rewrite Es. cbn [default]. apply CopyCell_row.
    apply list_elem_of_lookup_2, elem_of_starts in Es. cbn. lia.
  - rewrite (proj2 (Z.eqb_neq _ 0)), IH by lia. rewrite lookup_app_r by lia. do 3 f_equal. lia.
Qed.

Lemma search_first_rows frames :
  frames_within size frames ->
  search_first gvstate cursor frames = Some (cell_at cells (head (rows_of valid frames))).
Proof.
  intros Hf. rewrite head_lookup. change 0%nat with (Z.to_nat (1 - 1)). rewrite <- (search_next_rows frames 1) by (done || lia).
  induction Hf as [| [l r] frames [Hp Hr] _ IH]; [done |]. cbn [fst snd] in *. cbn [search_first search_next fst snd].
  destruct (Z.leb_spec r l); [done |].
  destruct (FindNextStart_nth (ignore_nulls gvstate) l r 1) as [_ E2]; [lia.. |]. specialize (E2 ltac:(lia)).
  destruct (FindNextStart _ l r 1) as [p n']. cbn [snd] in E2.
  destruct (Z.eqb_spec n' 0); [done |]. unfold left_over in E2. pose proof (zcount_nonneg valid l r).
  assert (n' = 1) as -> by lia. done.
Qed.

Lemma search_last_rows frames :
  frames_within size frames ->
  search_last gvstate cursor (reverse frames) = Some (cell_at cells (last (rows_of valid frames))).
Proof.
  intros Hf. unfold frames_within in Hf. rewrite <- (reverse_involutive frames) in Hf |- * at 2. rewrite Forall_reverse in Hf.
  induction Hf as [| [l r] frames' [Hp Hr] _ IH]; [done |]. cbn [fst snd] in *. cbn [search_last fst snd].
  rewrite reverse_cons, rows_of_app. unfold rows_of at 2. cbn [fmap list_fmap fst snd]. rewrite mjoin_cons, app_nil_r.
  destruct (Z.leb_spec r l). { rewrite starts_nil, app_nil_r by lia. done. }
  rewrite (FindPrevStart_nth (ignore_nulls gvstate) l r 1) by lia. unfold left_over, nth_last.
  pose proof (length_starts valid l r) as Hl. pose proof (zcount_nonneg valid l r).
  rewrite last_app. destruct (decide (1 <= zcount valid l r)).
  - rewrite (proj2 (Z.eqb_eq _ 0)) by lia.
    destruct (starts valid l r) as [| s rest _] eqn:E using rev_ind; [cbn in Hl; lia |].
    rewrite rev_app_distr, last_snoc. cbn. apply CopyCell_row. cbn.
    assert (s ∈ starts valid l r) as Hs by (rewrite E; set_solver). apply elem_of_starts in Hs. lia.
  - rewrite (proj2 (Z.eqb_neq _ 0)) by lia. destruct (starts valid l r); [by apply IH | cbn in Hl; lia].
Qed.
End search.

(** ** Rows of a frame

    The bounds of a row that the functions read; the peers only with EXCLUDE. *)
Definition row_frame_ok (exclude_mode : WindowExcludeMode) (size : Z) (bounds : DataChunk) (row_idx i : Z) : Prop :=
  0 <= znth 0 (bounds FRAME_BEGIN) i <= znth 0 (bounds FRAME_END) i /\ znth 0 (bounds FRAME_END) i <= size /\
  (exclude_mode <> NO_OTHER -> znth 0 (bounds PEER_BEGIN) i <= row_idx + i < znth 0 (bounds PEER_END) i).

Definition row_frames (exclude_mode : WindowExcludeMode) (bounds : DataChunk) (row_idx i : Z) : list FrameBounds :=
  sub_frames exclude_mode (znth 0 (bounds FRAME_BEGIN) i) (znth 0 (bounds FRAME_END) i)
    (znth 0 (bounds PEER_BEGIN) i) (znth 0 (bounds PEER_END) i) (row_idx + i).

(** The rows of the frame that EXCLUDE keeps. *)
Definition kept_rows (exclude_mode : WindowExcludeMode) (bounds : DataChunk) (row_idx i : Z) : list Z :=
  frame_rows exclude_mode (znth 0 (bounds FRAME_BEGIN) i) (znth 0 (bounds FRAME_END) i)
    (znth 0 (bounds PEER_BEGIN) i) (znth 0 (bounds PEER_END) i) (row_idx + i).

Lemma row_frames_ok exclude_mode size bounds row_idx i :
  row_frame_ok exclude_mode size bounds row_idx i ->
  let frames := row_frames exclude_mode bounds row_idx i in
  frames_within size frames /\ frames_ordered frames /\
  mjoin ((fun p => zrange (fst p) (snd p)) <$> frames) = kept_rows exclude_mode bounds row_idx i.
Proof.
  intros (Hb & He & Hp). cbn zeta. unfold row_frames, kept_rows.
  destruct (decide (exclude_mode = NO_OTHER)) as [-> | Hm].
  - cbn [sub_frames]. split; [by repeat constructor; cbn; lia |].
    destruct (sub_frames_correct NO_OTHER (znth 0 (bounds FRAME_BEGIN) i) (znth 0 (bounds FRAME_END) i) 0 1 0)
      as (_ & Ho & E); [lia.. |]. done.
  - specialize (Hp Hm). destruct (sub_frames_correct exclude_mode (znth 0 (bounds FRAME_BEGIN) i)
      (znth 0 (bounds FRAME_END) i) (znth 0 (bounds PEER_BEGIN) i) (znth 0 (bounds PEER_END) i) (row_idx + i))
      as (_ & Ho & E); [lia.. |]. split; [| done].
    unfold frames_within. destruct exclude_mode; [done | ..]; cbn [sub_frames app];
      repeat case_decide; try congruence; cbn [app]; repeat constructor; cbn; lia.
Qed.

Lemma in_frames_rows frames i :
  in_frames frames i = true <-> i ∈ mjoin ((fun p => zrange (fst p) (snd p)) <$> frames).
Proof.
  unfold in_frames. rewrite existsb_exists. setoid_rewrite andb_true_iff. setoid_rewrite Z.leb_le. setoid_rewrite Z.ltb_lt.
  rewrite list_elem_of_join. split.
  - intros (p & Hp & Hi). exists (zrange (fst p) (snd p)). rewrite elem_of_zrange. split; [lia |].
    apply list_elem_of_fmap. exists p. by rewrite list_elem_of_In.
  - intros (l & Hi & Hl). apply list_elem_of_fmap in Hl as (p & -> & Hp). apply elem_of_zrange in Hi.
    exists p. by rewrite <- list_elem_of_In.
Qed.

Lemma NoDup_mjoin_zrange frames :
  frames_ordered frames -> NoDup (mjoin ((fun p => zrange (fst p) (snd p)) <$> frames)).
Proof.
  intros [Hf Hs]. induction Hs as [| p frames Hs IH Hp]; [constructor |].
  apply Forall_cons in Hf as [_ Hf]. rewrite fmap_cons, mjoin_cons. apply NoDup_app. split_and!.
  - apply NoDup_zrange.
  - intros x Hx Hj. apply elem_of_zrange in Hx. apply in_frames_rows in Hj. unfold in_frames in Hj.
    apply existsb_exists in Hj as (q & Hq & Hj). bool_to_prop. rewrite <- list_elem_of_In in Hq.
    rewrite Forall_forall in Hp. specialize (Hp q Hq). lia.
  - by apply IH.
Qed.

Lemma frames_width_rows size frames :
  size < 2 ^ 63 -> frames_within size frames -> frames_ordered frames ->
  frames_width frames = Z.of_nat (length (mjoin ((fun p => zrange (fst p) (snd p)) <$> frames))).
Proof.
  intros Hn Hw [_ Hs]. unfold frames_width.
  assert (forall acc l, 0 <= acc <= l -> Forall (fun p => l <= fst p) frames ->
    foldl (fun w p => u64 (w + u64 (snd p - fst p))) acc frames =
      acc + Z.of_nat (length (mjoin ((fun p => zrange (fst p) (snd p)) <$> frames)))) as H.
  { induction Hs as [| [l r] frames Hs IH Hp]; intros acc b Ha Hb; [cbn; lia |].
    apply Forall_cons in Hw as [[Hl Hr] Hw]. apply Forall_cons in Hb as [Hb _]. cbn [fst snd] in *.
    rewrite fmap_cons, mjoin_cons, length_app, length_zrange. cbn [foldl fst snd].
    rewrite (u64_small (r - l)), (u64_small (acc + _)) by lia. rewrite (IH Hw _ r); [lia | lia | done]. }
  rewrite (H 0 0); [lia | lia |]. eapply Forall_impl; [exact Hw |]. cbn. lia.
Qed.

Lemma EvaluateSubFrames_rows {A} bounds exclude_mode count row_idx (operation : list FrameBounds -> Z -> option A) f :
  (forall i, 0 <= i < count -> operation (row_frames exclude_mode bounds row_idx i) i = Some (f i)) ->
  EvaluateSubFrames bounds exclude_mode count row_idx operation = Some (f <$> zrange 0 count).
Proof.
  intros Hf. unfold EvaluateSubFrames. apply mapM_Some. apply Forall2_fmap_r, Forall_Forall2_diag, Forall_forall.
  intros i Hi. apply Hf. by apply elem_of_zrange in Hi.
Qed.

(** ** The tree *)

Section tree.
Context {V : Type} (gvstate : WindowValueGlobalState) (cursor : ValueCursor V) (tree : WindowIndexTree) (order : list Z).
Context `{!IndexTreeLaws tree order} (Ht : value_tree gvstate = Some tree).
Context (Hsize : Z.of_nat (length (mjoin cursor)) < 2 ^ 63).
Context (frames : list FrameBounds) (Hw : frames_within (Z.of_nat (length (mjoin cursor))) frames) (Ho : frames_ordered frames).
#[local] Notation cells := (mjoin cursor).
#[local] Notation rows := (selected frames order).

Lemma selected_in r : r ∈ rows <-> r ∈ order /\ r ∈ mjoin ((fun p => zrange (fst p) (snd p)) <$> frames).
Proof. unfold selected. by rewrite list_elem_of_In, List.filter_In, <- list_elem_of_In, in_frames_rows. Qed.

Lemma selected_NoDup : NoDup rows.
Proof. unfold selected. apply NoDup_ListNoDup, List.NoDup_filter, NoDup_ListNoDup. apply order_NoDup. Qed.

Lemma selected_within r : r ∈ rows -> 0 <= r < Z.of_nat (length cells).
Proof.
  intros [_ Hr]%selected_in. apply list_elem_of_join in Hr as (l & Hr & Hl).
  apply list_elem_of_fmap in Hl as (p & -> & Hp). apply elem_of_zrange in Hr.
  unfold frames_within in Hw. rewrite Forall_forall in Hw. specialize (Hw p Hp). lia.
Qed.

Lemma selected_le : Z.of_nat (length rows) <= frames_width frames < 2 ^ 63.
Proof.
  rewrite (frames_width_rows _ _ Hsize Hw Ho). split.
  - apply inj_le, submseteq_length, NoDup_submseteq; [apply selected_NoDup |]. by intros r [_ Hr]%selected_in.
  - apply Z.le_lt_trans with (Z.of_nat (length (zrange 0 (Z.of_nat (length cells)))));
      [| by rewrite length_zrange, Z.sub_0_r, Nat2Z.id].
    apply inj_le, submseteq_length, NoDup_submseteq; [by apply NoDup_mjoin_zrange |].
    intros r Hr. apply list_elem_of_join in Hr as (l & Hr & Hl).
    apply list_elem_of_fmap in Hl as (p & -> & Hp). apply elem_of_zrange in Hr. apply elem_of_zrange.
    unfold frames_within in Hw. rewrite Forall_forall in Hw. specialize (Hw p Hp). lia.
Qed.

Lemma selected_cell n :
  0 <= n < Z.of_nat (length rows) ->
  exists r, SelectNth tree frames n = Some (r, 0) /\ CopyCell cursor r = Some (cell_at cells (rows !! Z.to_nat n)).
Proof.
  intros Hn. destruct (lookup_lt_is_Some_2 rows (Z.to_nat n)) as [r Er]; [lia |]. exists r. split.
  - apply SelectNth_found; [done | lia | done].
  - rewrite Er. apply CopyCell_row, selected_within. by eapply list_elem_of_lookup_2.
Qed.

Lemma FirstValue_tree : rows <> [] \/ frames_width frames = 0 ->
  FirstValue_row gvstate cursor frames = Some (cell_at cells (head rows)).
Proof.
  intros Hr. pose proof selected_le as Hl. unfold FirstValue_row. rewrite Ht.
  destruct rows as [| r rest] eqn:E.
  - destruct Hr as [Hr | ->]; [done |]. done.
  - rewrite (proj2 (Z.eqb_neq _ 0)) by (cbn in Hl; lia). cbn [negb].
    destruct (selected_cell 0) as (r' & -> & Hc); [rewrite E; cbn; lia |]. cbn [mbind option_bind fst snd].
    cbn. rewrite Hc, E. done.
Qed.

Context (Hov : Z.of_nat (length rows) = frames_width frames \/ IndexTreeOverflow tree order).

Lemma SelectNth_tree n : 0 <= n < frames_width frames ->
  exists p, SelectNth tree frames n = Some (p, Z.max 0 (n + 1 - Z.of_nat (length rows))) /\
    (n < Z.of_nat (length rows) -> CopyCell cursor p = Some (cell_at cells (rows !! Z.to_nat n))).
Proof.
  intros Hn. pose proof selected_le as Hl. destruct (decide (n < Z.of_nat (length rows))) as [Hr | Hr].
  - destruct (selected_cell n) as (r & E & Hc); [lia |]. exists r. rewrite Z.max_l by lia. done.
  - destruct Hov as [Hov' | Hov']; [lia |]. destruct (SelectNth_overflow frames n Ho) as (p & E); [lia |].
    exists p. rewrite Z.max_r by lia. split; [done | lia].
Qed.

Lemma LastValue_tree : LastValue_row gvstate cursor frames = Some (cell_at cells (last rows)).
Proof.
  pose proof selected_le as Hl. unfold LastValue_row. rewrite Ht. rewrite last_lookup.
  destruct (Z.eqb_spec (frames_width frames) 0) as [E | E]; cbn [negb].
  { by destruct rows; [| cbn in Hl; lia]. }
  destruct (SelectNth_tree (frames_width frames - 1)) as (p & -> & Hc); [lia |]. cbn [mbind option_bind fst snd].
  destruct (decide (Z.of_nat (length rows) = frames_width frames)) as [El | El].
  - rewrite Z.max_l by lia. cbn. rewrite Hc by lia. do 3 f_equal. lia.
  - rewrite Z.max_r, (proj2 (Z.eqb_neq _ 0)) by lia. cbn [negb andb]. case_if; cbn [mbind option_bind fst snd].
    + destruct (SelectNth_tree (frames_width frames - 1 - (frames_width frames - 1 + 1 - Z.of_nat (length rows))))
        as (q & -> & Hq); [lia |]. cbn [mbind option_bind fst snd].
      rewrite Z.max_l by lia. cbn. rewrite Hq by lia. do 3 f_equal. lia.
    + rewrite (proj2 (Z.eqb_neq _ 0)) by lia. cbn [negb]. assert (rows = []) as ->; [| done].
      apply length_zero_iff_nil. lia.
Qed.

Lemma NthValue_tree n : n < 2 ^ 63 ->
  NthValue_row gvstate cursor (Some n) frames =
    Some (if (n <? 1) || (frames_width frames <=? n) then None else cell_at cells (rows !! Z.to_nat (n - 1))).
Proof.
  intros Hn. unfold NthValue_row. rewrite Ht. destruct (Z.ltb_spec n 1); [done |]. cbn [orb].
  destruct (Z.ltb_spec n (frames_width frames)), (Z.leb_spec (frames_width frames) n); try lia; [| done].
  destruct (SelectNth_tree (n - 1)) as (p & -> & Hc); [lia |]. cbn [mbind option_bind fst snd].
  destruct (decide (n - 1 < Z.of_nat (length rows))).
  - rewrite Z.max_l by lia. cbn. by apply Hc.
  - rewrite Z.max_r, (proj2 (Z.eqb_neq _ 0)) by lia. cbn [negb]. rewrite lookup_ge_None_2 by lia. done.
Qed.
End tree.

Section values.
Context {V : Type} (gvstate : WindowValueGlobalState) (cursor : ValueCursor V).
Context (exclude_mode : WindowExcludeMode) (bounds : DataChunk) (count row_idx : Z).
Context (Hsize : Z.of_nat (length (mjoin cursor)) < 2 ^ 63).
Context (Hok : forall i, 0 <= i < count ->
  row_frame_ok exclude_mode (Z.of_nat (length (mjoin cursor))) bounds row_idx i).

(** The second argument of NTH_VALUE. *)
Definition nth_param (nth_col : WindowInputExpression Z) (i : Z) : option Z :=
  if InputIsNull nth_col i then None else Some (GetCell nth_col i).

Definition nth_row (n : option Z) (rows : list Z) : option Z :=
  n ← n; if n <? 1 then None else rows !! Z.to_nat (n - 1).

(** C30. Without argument orders FIRST_VALUE, LAST_VALUE and NTH_VALUE are the cells of the
    first, the last and the n-th row of the frame that EXCLUDE keeps and that is not
    ignored, and NULL if there is no such row or [n] is NULL or below 1. *)
Theorem ValueEvaluate_rows nth_col :
  value_tree gvstate = None ->
  (forall i, GetCell nth_col i < 2 ^ 63) ->
  let rows i := List.filter (RowIsValid (ignore_nulls gvstate)) (kept_rows exclude_mode bounds row_idx i) in
  let cells := mjoin cursor in
  FirstValueEvaluate gvstate cursor exclude_mode bounds count row_idx =
    Some ((fun i => cell_at cells (head (rows i))) <$> zrange 0 count) /\
  LastValueEvaluate gvstate cursor exclude_mode bounds count row_idx =
    Some ((fun i => cell_at cells (last (rows i))) <$> zrange 0 count) /\
  NthValueEvaluate gvstate cursor exclude_mode nth_col bounds count row_idx =
    Some ((fun i => cell_at cells (nth_row (nth_param nth_col i) (rows i))) <$> zrange 0 count).
Proof.
  intros Ht Hn. cbn zeta. split_and!; apply EvaluateSubFrames_rows; intros i Hi;
    destruct (row_frames_ok _ _ _ _ _ (Hok i Hi)) as (Hw & Ho & E).
  - unfold FirstValue_row. rewrite Ht, search_first_rows, rows_of_filter, E by done. done.
  - unfold LastValue_row. rewrite Ht, search_last_rows, rows_of_filter, E by done. done.
  - unfold NthValue_row, nth_param. destruct (InputIsNull nth_col i); [done |]. cbn [nth_row mbind option_bind].
    case_if; [done |]. specialize (Hn i). rewrite Ht, search_next_rows, rows_of_filter, E by (done || lia). done.
Qed.
(** With argument orders FIRST_VALUE and LAST_VALUE are the cells of the first and the
    last row of the frame in the order of the arguments, if every row of the frame is in
    the tree; NTH_VALUE is the n-th one for all [n] but the number of rows, where it is
    NULL like for the positions beyond it. *)
Theorem ValueEvaluate_tree nth_col tree order `{!IndexTreeLaws tree order} :
  value_tree gvstate = Some tree ->
  (forall i, GetCell nth_col i < 2 ^ 63) ->
  (forall i r, 0 <= i < count -> r ∈ kept_rows exclude_mode bounds row_idx i -> r ∈ order) ->
  let rows i := List.filter (fun r => bool_decide (r ∈ kept_rows exclude_mode bounds row_idx i)) order in
  let cells := mjoin cursor in
  (forall i, 0 <= i < count -> length (rows i) = length (kept_rows exclude_mode bounds row_idx i)) /\
  FirstValueEvaluate gvstate cursor exclude_mode bounds count row_idx =
    Some ((fun i => cell_at cells (head (rows i))) <$> zrange 0 count) /\
  LastValueEvaluate gvstate cursor exclude_mode bounds count row_idx =
    Some ((fun i => cell_at cells (last (rows i))) <$> zrange 0 count) /\
  NthValueEvaluate gvstate cursor exclude_mode nth_col bounds count row_idx =
    Some ((fun i => cell_at cells (n ← nth_param nth_col i;
      if n =? Z.of_nat (length (rows i)) then None else nth_row (Some n) (rows i))) <$> zrange 0 count).
Proof.
  intros Ht Hn Hin. cbn zeta.
  assert (forall i, 0 <= i < count -> let frames := row_frames exclude_mode bounds row_idx i in
    frames_within (Z.of_nat (length (mjoin cursor))) frames /\ frames_ordered frames /\
    List.filter (fun r => bool_decide (r ∈ kept_rows exclude_mode bounds row_idx i)) order = selected frames order /\
    frames_width frames = Z.of_nat (length (kept_rows exclude_mode bounds row_idx i)) /\
    length (selected frames order) = length (kept_rows exclude_mode bounds row_idx i)) as Hrow.
  { intros i Hi. cbn zeta. destruct (row_frames_ok _ _ _ _ _ (Hok i Hi)) as (Hw & Ho & E). split_and!; try done.
    - apply List.filter_ext. intros r. rewrite <- E. apply eq_true_iff_eq. by rewrite bool_decide_eq_true, in_frames_rows.
    - rewrite <- E. by eapply frames_width_rows.
    - apply Permutation_length, NoDup_Permutation.
      + by eapply selected_NoDup.
      + rewrite <- E. by apply NoDup_mjoin_zrange.
      + intros r. rewrite selected_in, E. split; [by intros [_ ?] |]. eauto. }
  split; [intros i Hi; destruct (Hrow i Hi) as (_ & _ & -> & _ & ->); done |].
  split_and!; apply EvaluateSubFrames_rows; intros i Hi; destruct (Hrow i Hi) as (Hw & Ho & -> & Ew & El).
  - apply (FirstValue_tree _ _ tree); try done. destruct (selected _ order) eqn:Es; [right | by left]. cbn in El. lia.
  - apply (LastValue_tree _ _ tree); try done. left. lia.
  - unfold nth_param. destruct (InputIsNull nth_col i); [done |]. cbn [mbind option_bind nth_row].
    rewrite (NthValue_tree _ _ tree order); try done; [| left; lia]. f_equal.
    destruct (Z.ltb_spec (GetCell nth_col i) 1); cbn [orb].
    { by destruct (_ =? _). }
    destruct (Z.eqb_spec (GetCell nth_col i) (Z.of_nat (length (selected (row_frames exclude_mode bounds row_idx i) order)))).
    { destruct (Z.leb_spec (frames_width (row_frames exclude_mode bounds row_idx i)) (GetCell nth_col i)); [done | lia]. }
    destruct (Z.leb_spec (frames_width (row_frames exclude_mode bounds row_idx i)) (GetCell nth_col i)); [| done].
    rewrite lookup_ge_None_2 by lia. done.
Qed.
End values.

(** ** LEAD and LAG *)

(** The row that is [k] rows away that are not ignored. *)
Definition leadlag_target (valid : Z -> bool) (partition_begin partition_end row_idx k : Z) : option Z :=
  if k =? 0 then Some row_idx
  else if 0 <? k then starts valid (row_idx + 1) partition_end !! Z.to_nat (k - 1)
  else rev (starts valid partition_begin row_idx) !! Z.to_nat (- k - 1).

Section leadlag_rows.
Context {V : Type} (expression_type : ExpressionType) (glstate : WindowLeadLagGlobalState) (cursor : ValueCursor V).
Context (offset_expr : LeadLagArgument Z) (default_expr : LeadLagArgument V).
#[local] Notation mask := (ignore_nulls (leadlag_values glstate)).
#[local] Notation valid := (RowIsValid mask).
#[local] Notation cells := (mjoin cursor).
#[local] Notation size := (Z.of_nat (length cells)).
Context (Hsize : size < 2 ^ 63).

(** [int64_t] offsets. *)
Context (Hoffset : forall i o, leadlag_offset offset_expr i = Some o -> - 2 ^ 63 <= o < 2 ^ 63).

(** How far the value of a row is away. *)
Definition leadlag_distance (offset : Z) : Z := if decide (expression_type = WINDOW_LEAD) then offset else - offset.

Definition leadlag_default (i : Z) : cell V :=
  '(e, _) ← default_expr; if InputIsNull e i then None else Some (GetCell e i).

(** The value of row [i] of the chunk: NULL if the offset is NULL, the cell of the row at
    the offset or the default. *)
Definition leadlag_cell (partition_begin partition_end i row_idx : Z) : cell V :=
  match leadlag_offset offset_expr i with
  | None => None
  | Some offset =>
      match leadlag_target valid partition_begin partition_end row_idx (leadlag_distance offset) with
      | Some row => cell_at cells (Some row)
      | None => leadlag_default i
      end
  end.

(** A position that is not an [int64_t] is an error. *)
Definition leadlag_value (partition_begin partition_end i row_idx : Z) : res (cell V) :=
  match leadlag_offset offset_expr i with
  | Some offset =>
      if bool_decide (- 2 ^ 63 <= row_idx + leadlag_distance offset < 2 ^ 63)
      then Ok (leadlag_cell partition_begin partition_end i row_idx) else Throw OutOfRangeException
  | None => Ok None
  end.

Lemma leadlag_value_Ok partition_begin partition_end i row_idx v :
  leadlag_value partition_begin partition_end i row_idx = Ok v -> v = leadlag_cell partition_begin partition_end i row_idx.
Proof.
  unfold leadlag_value. destruct (leadlag_offset offset_expr i) as [offset |] eqn:E.
  - case_bool_decide; by intros [= <-].
  - intros [= <-]. unfold leadlag_cell. by rewrite E.
Qed.

Lemma leadlag_move_distance row_idx offset :
  leadlag_move expression_type row_idx offset =
    if bool_decide (- 2 ^ 63 <= row_idx + leadlag_distance offset < 2 ^ 63) then Ok (row_idx + leadlag_distance offset)
    else Throw OutOfRangeException.
Proof.
  clear Hoffset Hsize cursor. unfold leadlag_move, leadlag_distance, TryAdd, TrySubtract, in_int64.
  case_decide; [| change (row_idx + - offset) with (row_idx - offset)].
  all: case_bool_decide; case_if; try done; try (exfalso; lia).
  all: exfalso; match goal with E : _ = false |- _ => apply andb_false_iff in E; rewrite Z.leb_gt, Z.ltb_ge in E; lia end.
Qed.

Lemma leadlag_defaults_cells i width :
  leadlag_defaults default_expr i width = leadlag_default <$> zrange i (i + width).
Proof.
  clear Hoffset Hsize cursor. unfold leadlag_defaults, leadlag_default. destruct default_expr as [[e f] |]; [done |]. cbn [mbind option_bind].
  apply list_eq. intros k. rewrite list_lookup_fmap. destruct (zrange i (i + width) !! k) eqn:E.
  - apply lookup_lt_Some in E. rewrite length_zrange in E. cbn. apply lookup_replicate_2. lia.
  - apply lookup_ge_None_1 in E. rewrite length_zrange in E. cbn. apply lookup_replicate_None. lia.
Qed.

Lemma leadlag_search_target partition_begin partition_end row_idx offset :
  0 <= partition_begin <= row_idx -> row_idx < partition_end <= size -> - 2 ^ 63 <= offset < 2 ^ 63 ->
  - 2 ^ 63 <= row_idx + leadlag_distance offset < 2 ^ 63 ->
  exists p delta, leadlag_search expression_type glstate partition_begin partition_end row_idx offset = Ok (p, delta) /\
    match leadlag_target valid partition_begin partition_end row_idx (leadlag_distance offset) with
    | Some row => delta = 0 /\ p = row
    | None => 0 < delta /\ (0 < leadlag_distance offset \/ delta = - leadlag_distance offset - zcount valid partition_begin row_idx)
    end.
Proof.
  intros Hb He Ho Hk. unfold leadlag_search. rewrite leadlag_move_distance, bool_decide_eq_true_2 by done.
  cbn [mbind res_bind]. set (k := leadlag_distance offset) in *. unfold leadlag_target.
  assert (- 2 ^ 63 <= k <= 2 ^ 63) as Hk2 by (unfold k, leadlag_distance; case_decide; lia).
  destruct (Z.ltb_spec (row_idx + k) row_idx).
  - rewrite (proj2 (Z.eqb_neq k 0)), (proj2 (Z.ltb_ge 0 k)) by lia.
    assert (u64 (row_idx - u64 (row_idx + k)) = - k) as ->.
    { unfold u64. rewrite Zminus_mod_idemp_r. replace (row_idx - (row_idx + k)) with (- k) by lia. apply Z.mod_small. lia. }
    rewrite FindPrevStart_nth by lia. do 2 eexists. split; [done |]. unfold nth_last, left_over.
    pose proof (length_starts valid partition_begin row_idx). pose proof (zcount_nonneg valid partition_begin row_idx).
    destruct (rev (starts valid partition_begin row_idx) !! Z.to_nat (- k - 1)) eqn:E.
    + apply lookup_lt_Some in E. rewrite length_rev in E. cbn. lia.
    + apply lookup_ge_None_1 in E. rewrite length_rev in E. lia.
  - destruct (Z.ltb_spec row_idx (row_idx + k)); cycle 1.
    { rewrite (proj2 (Z.eqb_eq k 0)) by lia. do 2 eexists. split; [done |]. lia. }
    rewrite (proj2 (Z.eqb_neq k 0)), (proj2 (Z.ltb_lt 0 k)) by lia.
    rewrite (u64_small (row_idx + k)), u64_small by lia. replace (row_idx + k - row_idx) with k by lia.
    destruct (FindNextStart_nth mask (row_idx + 1) partition_end k) as [E1 E2]; [lia.. |]. specialize (E2 ltac:(lia)).
    destruct (FindNextStart _ _ _ _) as [p delta]. do 2 eexists. split; [done |]. cbn [fst snd] in *. subst p delta.
    unfold nth_start, left_over.
    pose proof (length_starts valid (row_idx + 1) partition_end). pose proof (zcount_nonneg valid (row_idx + 1) partition_end).
    destruct (starts valid (row_idx + 1) partition_end !! Z.to_nat (k - 1)) eqn:E.
    + apply lookup_lt_Some in E. cbn. lia.
    + apply lookup_ge_None_1 in E. lia.
Qed.

Lemma leadlag_target_within partition_begin partition_end row_idx k row :
  partition_begin <= row_idx < partition_end ->
  leadlag_target valid partition_begin partition_end row_idx k = Some row -> partition_begin <= row < partition_end.
Proof.
  intros Hr. unfold leadlag_target. case_if; [intros [= <-]; done |]. case_if.
  - intros E%list_elem_of_lookup_2. apply elem_of_starts in E. lia.
  - intros E%list_elem_of_lookup_2. rewrite list_elem_of_In, <- in_rev, <- list_elem_of_In in E.
    apply elem_of_starts in E. lia.
Qed.

Lemma leadlag_row_value partition_begin partition_end i row_idx :
  0 <= partition_begin i <= row_idx -> row_idx < partition_end i <= size ->
  leadlag_row expression_type glstate cursor offset_expr default_expr partition_begin partition_end i row_idx =
    Some (v ← leadlag_value (partition_begin i) (partition_end i) i row_idx; Ok [v]).
Proof.
  intros Hb He. unfold leadlag_row, leadlag_value, leadlag_cell.
  destruct (leadlag_offset offset_expr i) as [offset |] eqn:Eo; [| done]. specialize (Hoffset i offset Eo).
  case_bool_decide as Hk; cycle 1.
  { unfold leadlag_search. by rewrite leadlag_move_distance, bool_decide_eq_false_2. }
  destruct (leadlag_search_target (partition_begin i) (partition_end i) row_idx offset) as (p & delta & -> & H); [done.. |].
  destruct (leadlag_target _ _ _ _ _) as [row |] eqn:Et.
  - destruct H as [-> ->]. cbn [Z.eqb].
    apply leadlag_target_within in Et; [| lia]. rewrite CopyCell_row by lia. done.
  - rewrite (proj2 (Z.eqb_neq delta 0)) by lia. rewrite leadlag_defaults_cells. cbn [mbind res_bind].
    rewrite zrange_cons, zrange_nil by lia. done.
Qed.
End leadlag_rows.

(** ** The loops of LEAD and LAG *)

Lemma leadlag_loop_each {V} (pass : Z -> Z -> option (res (list (cell V)))) g count row_idx fuel i :
  (forall i, 0 <= i < count -> pass i (row_idx + i) = Some (v ← g i; Ok [v])) ->
  0 <= i -> count - i <= Z.of_nat fuel ->
  leadlag_loop pass fuel count i (row_idx + i) = Some (mapM g (zrange i count)).
Proof.
  intros Hp. revert i. induction fuel as [| fuel IH]; intros i Hi Hf; cbn [leadlag_loop];
    destruct (Z.leb_spec count i); try (by rewrite zrange_nil by done); [lia |].
  rewrite Hp by lia. rewrite zrange_cons by done. cbn [mbind option_bind mapM]. destruct (g i) as [v | e]; [| done].
  cbn [mbind res_bind length]. replace (row_idx + i + Z.of_nat 1) with (row_idx + (i + 1)) by lia.
  rewrite IH by lia. done.
Qed.

Lemma leadlag_loop_runs {V} (pass : Z -> Z -> option (res (list (cell V)))) f count row_idx fuel i :
  (forall i, 0 <= i < count -> exists w, 1 <= w <= count - i /\ pass i (row_idx + i) = Some (Ok (f <$> zrange i (i + w)))) ->
  0 <= i <= count -> count - i <= Z.of_nat fuel ->
  leadlag_loop pass fuel count i (row_idx + i) = Some (Ok (f <$> zrange i count)).
Proof.
  intros Hp. revert i. induction fuel as [| fuel IH]; intros i Hi Hf; cbn [leadlag_loop];
    destruct (Z.leb_spec count i); try (by rewrite zrange_nil by done); [lia |].
  destruct (Hp i ltac:(lia)) as (w & Hw & ->). cbn [mbind option_bind].
  rewrite length_fmap, length_zrange, Z2Nat.id by lia.
  replace (i + (i + w - i)) with (i + w) by lia. replace (row_idx + i + (i + w - i)) with (row_idx + (i + w)) by lia.
  rewrite IH by lia. cbn. by rewrite <- fmap_app, <- zrange_split by lia.
Qed.

Lemma mapM_res_Ok {A B} (g : A -> res B) f l : (forall x, x ∈ l -> g x = Ok (f x)) -> mapM g l = Ok (f <$> l).
Proof.
  induction l as [| x l IH]; intros Hg; [done |]. cbn [mapM]. rewrite (Hg x) by (by left). cbn.
  rewrite IH; [done |]. intros y Hy. apply Hg. by right.
Qed.

Lemma mapM_res_inv {A B} (g : A -> res B) l vs x : mapM g l = Ok vs -> x ∈ l -> exists v, g x = Ok v.
Proof.
  revert vs. induction l as [| y l IH]; intros vs Hm Hx; [by apply not_elem_of_nil in Hx |]. cbn [mapM] in Hm.
  destruct (g y) as [v |] eqn:E; [| done]. cbn in Hm. destruct (mapM g l) as [vs' |] eqn:E'; [| done].
  apply elem_of_cons in Hx as [-> | Hx]; [by exists v |]. by eapply IH.
Qed.

(** A target without ignored rows. *)
Lemma leadlag_target_all valid partition_begin partition_end row_idx k :
  (forall i, valid i = true) -> partition_begin <= row_idx < partition_end ->
  leadlag_target valid partition_begin partition_end row_idx k =
    if bool_decide (partition_begin <= row_idx + k < partition_end) then Some (row_idx + k) else None.
Proof.
  intros Hv Hr. unfold leadlag_target. rewrite !starts_all by done.
  destruct (Z.eqb_spec k 0) as [-> |]. { rewrite bool_decide_eq_true_2 by lia. f_equal. lia. }
  destruct (Z.ltb_spec 0 k); case_bool_decide.
  - rewrite lookup_zrange by lia. f_equal. lia.
  - apply lookup_ge_None_2. rewrite length_zrange. lia.
  - rewrite lookup_rev_zrange by lia. f_equal. lia.
  - apply lookup_ge_None_2. rewrite length_rev, length_zrange. lia.
Qed.

Section leadlag_evaluate.
Context {V : Type} (expression_type : ExpressionType) (glstate : WindowLeadLagGlobalState) (cursor : ValueCursor V).
Context (offset_expr : LeadLagArgument Z) (default_expr : LeadLagArgument V).
Context (partition_begin partition_end : Z -> Z) (count row_idx : Z).
#[local] Notation mask := (ignore_nulls (leadlag_values glstate)).
#[local] Notation size := (Z.of_nat (length (mjoin cursor))).
#[local] Notation value_of i :=
  (leadlag_value expression_type glstate cursor offset_expr default_expr (partition_begin i) (partition_end i) i (row_idx + i)).
#[local] Notation cell_of i :=
  (leadlag_cell expression_type glstate cursor offset_expr default_expr (partition_begin i) (partition_end i) i (row_idx + i)).
Context (Hsize : size < 2 ^ 63).
Context (Hoffset : forall i o, leadlag_offset offset_expr i = Some o -> - 2 ^ 63 <= o < 2 ^ 63).
Context (Hrows : forall i, 0 <= i < count ->
  0 <= partition_begin i <= row_idx + i /\ row_idx + i < partition_end i <= size).

(** A run of rows of one partition with one offset and nothing ignored. *)
Lemma leadlag_shift_run i :
  AllValid mask = true -> 0 <= i < count ->
  (forall j, i <= j < count -> leadlag_offset offset_expr j = leadlag_offset offset_expr i) ->
  (forall j, i <= j < count -> row_idx + j < partition_end i ->
    partition_begin j = partition_begin i /\ partition_end j = partition_end i) ->
  (exists v, value_of i = Ok v) ->
  exists w, 1 <= w <= count - i /\
    leadlag_shift expression_type glstate cursor offset_expr default_expr partition_begin partition_end
      (row_idx + count) i (row_idx + i) = Some (Ok ((fun j => cell_of j) <$> zrange i (i + w))).
Proof.
  intros Hv Hi Hc Hs [v Ev]. destruct (Hrows i Hi) as [Hb He]. unfold leadlag_shift.
  destruct (leadlag_offset offset_expr i) as [offset |] eqn:Eo; cycle 1.
  { exists 1. split; [lia |]. rewrite zrange_cons, zrange_nil by lia. cbn. unfold leadlag_cell. by rewrite Eo. }
  unfold leadlag_value in Ev. rewrite Eo in Ev. case_bool_decide as Hk; [| done]. clear v Ev.
  pose proof (Hoffset i offset Eo) as Ho.
  destruct (leadlag_search_target expression_type glstate cursor Hsize (partition_begin i) (partition_end i) (row_idx + i) offset)
    as (p & delta & -> & Ht); [done.. |].
  set (k := leadlag_distance expression_type offset) in *.
  pose proof (fun i => RowIsValid_AllValid mask i Hv) as Hv'.
  rewrite leadlag_target_all in Ht by (done || lia). rewrite (zcount_all _ (partition_begin i) (row_idx + i)) in Ht by (done || lia).
  rewrite (u64_small (Z.min _ _ - _)) by lia. set (limit := Z.min (partition_end i) (row_idx + count) - (row_idx + i)).
  assert (forall j, i <= j < i + limit -> cell_of j =
    if bool_decide (partition_begin i <= row_idx + j + k < partition_end i) then cell_at (mjoin cursor) (Some (row_idx + j + k))
    else leadlag_default default_expr j) as Hcell.
  { intros j Hj. unfold leadlag_cell. destruct (Hs j) as [-> ->]; [lia.. |]. rewrite Hc, leadlag_target_all by (done || lia).
    fold k. by destruct (bool_decide (partition_begin i <= row_idx + j + k < partition_end i)). }
  case_bool_decide as Hin.
  - destruct Ht as [-> ->]. cbn [Z.eqb]. rewrite (u64_small (partition_end i - _)) by lia.
    set (w := Z.min _ limit). exists w. split; [lia |]. rewrite copy_blocks_rows by lia. cbn [mbind option_bind]. do 2 f_equal.
    apply list_eq. intros n. rewrite !list_lookup_fmap. destruct (decide (Z.of_nat n < w)) as [Hn | Hn].
    + rewrite <- (Nat2Z.id n), !lookup_zrange by lia. cbn [fmap option_fmap option_map]. f_equal.
      rewrite Hcell, bool_decide_eq_true_2 by lia. do 2 f_equal. lia.
    + rewrite !lookup_ge_None_2; [done | rewrite length_zrange; lia..].
  - destruct Ht as [Hd Hdk]. rewrite (proj2 (Z.eqb_neq delta 0)) by lia. exists (Z.min delta limit). split; [lia |].
    rewrite leadlag_defaults_cells. do 2 f_equal. apply list_fmap_ext. intros n j Ej.
    apply list_elem_of_lookup_2, elem_of_zrange in Ej. rewrite Hcell, bool_decide_eq_false_2 by lia. done.
Qed.

(** The evaluation of a chunk without a tree of row numbers. *)
Lemma leadlag_each :
  leadlag_loop (leadlag_row expression_type glstate cursor offset_expr default_expr partition_begin partition_end)
    (Z.to_nat count) count 0 row_idx = Some (mapM (fun i => value_of i) (zrange 0 count)).
Proof.
  pose proof (leadlag_loop_each (leadlag_row expression_type glstate cursor offset_expr default_expr partition_begin
    partition_end) (fun i => value_of i) count row_idx (Z.to_nat count) 0) as H.
  rewrite Z.add_0_r in H. apply H; [| lia..]. clear H. intros i Hi. destruct (Hrows i Hi). by apply leadlag_row_value.
Qed.

Lemma leadlag_shifts vs :
  AllValid mask = true -> 0 <= count ->
  (forall i, leadlag_offset offset_expr i = leadlag_offset offset_expr 0) ->
  (forall i j, 0 <= i <= j -> j < count -> row_idx + j < partition_end i ->
    partition_begin j = partition_begin i /\ partition_end j = partition_end i) ->
  mapM (fun i => value_of i) (zrange 0 count) = Ok vs ->
  leadlag_loop (leadlag_shift expression_type glstate cursor offset_expr default_expr partition_begin partition_end (row_idx + count))
    (Z.to_nat count) count 0 row_idx = Some (Ok vs).
Proof.
  intros Hv Hcount Hc Hs Hm.
  assert (forall i, 0 <= i < count -> exists v, value_of i = Ok v) as Hok.
  { intros i Hi. eapply (mapM_res_inv _ _ _ i Hm). by apply elem_of_zrange. }
  assert (vs = (fun i => cell_of i) <$> zrange 0 count) as ->.
  { enough (Ok vs = Ok ((fun i => cell_of i) <$> zrange 0 count)) by congruence.
    rewrite <- Hm. apply mapM_res_Ok. intros i Hi. apply elem_of_zrange, Hok in Hi as [v E].
    rewrite E. f_equal. by apply leadlag_value_Ok in E. }
  pose proof (leadlag_loop_runs (leadlag_shift expression_type glstate cursor offset_expr default_expr partition_begin
    partition_end (row_idx + count)) (fun i => cell_of i) count row_idx (Z.to_nat count) 0) as H.
  rewrite Z.add_0_r in H. apply H; [| lia..]. clear H. intros i Hi. apply leadlag_shift_run; try done.
  - intros j Hj. by rewrite Hc, (Hc i).
  - intros j Hj. apply Hs; lia.
  - by apply Hok.
Qed.
End leadlag_evaluate.

(** A foldable argument is evaluated to a constant vector. *)
Definition foldable_ok {T} (e : LeadLagArgument T) : Prop :=
  match e with Some (e, true) => scalar e = true | _ => True end.

(** The offsets are [int64_t]. *)
Definition offsets_ok (e : LeadLagArgument Z) : Prop :=
  forall i o, leadlag_offset e i = Some o -> - 2 ^ 63 <= o < 2 ^ 63.

(** The partition (or frame) of every row of the chunk contains the row. *)
Definition leadlag_bounds_ok (size : Z) (partition_begin partition_end : Z -> Z) (count row_idx : Z) : Prop :=
  forall i, 0 <= i < count -> 0 <= partition_begin i <= row_idx + i /\ row_idx + i < partition_end i <= size.

(** The rows up to the end of a row's partition have the same partition. *)
Definition leadlag_partitions_ok (partition_begin partition_end : Z -> Z) (count row_idx : Z) : Prop :=
  forall i j, 0 <= i <= j -> j < count -> row_idx + j < partition_end i ->
    partition_begin j = partition_begin i /\ partition_end j = partition_end i.

Section leadlag_theorems.
Context {V : Type} (expression_type : ExpressionType) (glstate : WindowLeadLagGlobalState) (cursor : ValueCursor V).
Context (offset_expr : LeadLagArgument Z) (default_expr : LeadLagArgument V) (bounds : DataChunk) (count row_idx : Z).

(** C31. Without argument orders of their own LEAD and LAG give every row the cell of the
    row that is the offset away among the rows of its partition that are not ignored, the
    default if there is none, NULL if the offset is NULL and an error if the position is
    no [int64_t].  Shifting whole runs of rows gives the same cells, if no row has an
    error. *)
Theorem LeadLagEvaluate_rows :
  row_tree glstate = None -> 0 <= count ->
  Z.of_nat (length (mjoin cursor)) < 2 ^ 63 ->
  offsets_ok offset_expr -> foldable_ok offset_expr ->
  let partition_begin := znth 0 (bounds (if leadlag_framing glstate then FRAME_BEGIN else PARTITION_BEGIN)) in
  let partition_end := znth 0 (bounds (if leadlag_framing glstate then FRAME_END else PARTITION_END)) in
  leadlag_bounds_ok (Z.of_nat (length (mjoin cursor))) partition_begin partition_end count row_idx ->
  (leadlag_framing glstate = false -> leadlag_partitions_ok partition_begin partition_end count row_idx) ->
  let values := mapM (fun i => leadlag_value expression_type glstate cursor offset_expr default_expr
    (partition_begin i) (partition_end i) i (row_idx + i)) (zrange 0 count) in
  let shift := can_shift glstate offset_expr default_expr in
  let result := LeadLagEvaluate expression_type glstate cursor offset_expr default_expr bounds count row_idx in
  (shift = false -> result = Some values) /\
  (shift = true -> forall vs, values = Ok vs -> result = Some (Ok vs)).
Proof.
  intros Hr Hcount Hsize Ho Hf pb pe Hb Hp values shift result. unfold result, LeadLagEvaluate. rewrite Hr.
  fold shift. fold pb pe. split; intros Hshift; rewrite Hshift.
  - by apply leadlag_each.
  - unfold shift, can_shift in Hshift. rewrite !andb_true_iff, negb_true_iff in Hshift. destruct Hshift as (((Hv & Hfr) & Hc) & _).
    intros vs Hvs. apply leadlag_shifts; try done; [| by apply Hp].
    intros i. unfold leadlag_offset, foldable_ok in *. destruct offset_expr as [[e []] |]; [| done | done].
    unfold InputIsNull, GetCell. by rewrite Hf.
Qed.
End leadlag_theorems.

(** ** LEAD and LAG with argument orders *)

(** The rows before a row. *)
Fixpoint before (row : Z) (order : list Z) : list Z :=
  match order with [] => [] | r :: order => if r =? row then [] else r :: before row order end.

(** The row numbers that LEAD and LAG rely on: those of the rows of a frame in the order. *)
Class RowTreeLaws (tokens : WindowTokenTree) (order : list Z) : Prop :=
  Rank_before frame_begin frame_end row :
    0 <= frame_begin <= frame_end -> (forall r, frame_begin <= r < frame_end -> r ∈ order) -> row ∈ order ->
    Rank tokens frame_begin frame_end row = 1 + Z.of_nat (length (selected [(frame_begin, frame_end)] (before row order))).

Lemma before_split row order : row ∈ order -> exists after, order = before row order ++ row :: after.
Proof.
  induction order as [| r order IH]; [by intros ?%not_elem_of_nil |]. intros Hr. cbn [before].
  destruct (Z.eqb_spec r row) as [-> | Hne]; [by exists order |].
  apply elem_of_cons in Hr as [<- | Hr]; [done |]. destruct (IH Hr) as [after E]. exists after. cbn. by rewrite <- E.
Qed.

Lemma selected_app frames l l' : selected frames (l ++ l') = selected frames l ++ selected frames l'.
Proof. apply List.filter_app. Qed.

Section leadlag_tree.
Context {V : Type} (expression_type : ExpressionType) (glstate : WindowLeadLagGlobalState) (cursor : ValueCursor V).
Context (offset_expr : LeadLagArgument Z) (default_expr : LeadLagArgument V) (bounds : DataChunk) (count row_idx : Z).
Context (tokens : WindowTokenTree) (tree : WindowIndexTree) (order : list Z).
Context `{!IndexTreeLaws tree order, !RowTreeLaws tokens order}.

(** The rows of the frame in the order, the position of the row itself, and the value. *)
Definition ordered_value (frame_begin frame_end i row : Z) : res (cell V) :=
  match leadlag_offset offset_expr i with
  | None => Ok None
  | Some offset =>
      let rows := selected [(frame_begin, frame_end)] order in
      let own_row := Z.of_nat (length (selected [(frame_begin, frame_end)] (before row order))) in
      let val_idx := own_row + leadlag_distance expression_type offset in
      if bool_decide (- 2 ^ 63 <= val_idx < 2 ^ 63) then
        Ok (if bool_decide (0 <= val_idx < Z.of_nat (length rows)) then cell_at (mjoin cursor) (rows !! Z.to_nat val_idx)
            else leadlag_default default_expr i)
      else Throw OutOfRangeException
  end.

Lemma leadlag_tree_value frame_begin frame_end i row :
  Z.of_nat (length (mjoin cursor)) < 2 ^ 63 -> offsets_ok offset_expr ->
  0 <= frame_begin <= frame_end -> frame_end <= Z.of_nat (length (mjoin cursor)) ->
  (forall r, frame_begin <= r < frame_end -> r ∈ order) -> row ∈ order ->
  leadlag_tree_row expression_type cursor offset_expr default_expr (tokens, tree) frame_begin frame_end i row =
    Some (v ← ordered_value frame_begin frame_end i row; Ok [v]).
Proof.
  intros Hsize Ho Hb He Hin Hr. unfold leadlag_tree_row, ordered_value.
  destruct (leadlag_offset offset_expr i) as [offset |] eqn:Eo; [| done]. specialize (Ho i offset Eo).
  cbn [fst snd]. rewrite (Rank_before frame_begin frame_end row) by done.
  assert (frames_within (Z.of_nat (length (mjoin cursor))) [(frame_begin, frame_end)]) as Hw by (repeat constructor; cbn; lia).
  assert (frames_ordered [(frame_begin, frame_end)]) as Hord by (split; repeat constructor; cbn; lia).
  pose proof (selected_le cursor tree order Hsize _ Hw Hord) as Hl.
  assert (Z.of_nat (length (selected [(frame_begin, frame_end)] order)) = frame_end - frame_begin) as Hlen.
  { rewrite <- (Z2Nat.id (frame_end - frame_begin)) by lia. f_equal. rewrite <- length_zrange.
    apply Permutation_length, NoDup_Permutation; [by eapply selected_NoDup | apply NoDup_zrange |].
    intros r. rewrite selected_in. cbn. rewrite app_nil_r, elem_of_zrange. naive_solver. }
  destruct (before_split row order Hr) as [after Ea].
  assert (length (selected [(frame_begin, frame_end)] (before row order)) <= length (selected [(frame_begin, frame_end)] order))%nat as Hown.
  { rewrite Ea at 2. rewrite selected_app, length_app. lia. }
  set (own_row := Z.of_nat (length (selected _ (before row order)))) in *.
  replace (1 + own_row - 1) with own_row by lia. rewrite (u64_small own_row), (u64_small (frame_end - frame_begin)) by lia.
  unfold NumericCast_int64. rewrite (proj2 (Z.ltb_lt own_row _)), (proj2 (Z.ltb_lt (frame_end - frame_begin) _)) by lia. cbn [mbind res_bind].
  rewrite (leadlag_move_distance expression_type own_row offset). case_bool_decide as Hk; [| done]. cbn [mbind res_bind].
  cbn [mbind res_bind]. rewrite Hlen. set (val_idx := own_row + _) in *.
  destruct (decide (0 <= val_idx < frame_end - frame_begin)) as [Hv | Hv].
  - rewrite bool_decide_eq_true_2, (proj2 (Z.leb_le 0 val_idx)), (proj2 (Z.ltb_lt val_idx _)) by lia. cbn [andb].
    destruct (selected_cell cursor tree order _ Hw Hord val_idx) as (r & -> & Hc); [lia |]. cbn [mbind option_bind fst snd Z.eqb negb].
    by rewrite Hc.
  - rewrite bool_decide_eq_false_2 by done. rewrite leadlag_defaults_cells, (zrange_cons i), zrange_nil by lia.
    destruct (Z.leb_spec 0 val_idx), (Z.ltb_spec val_idx (frame_end - frame_begin)); cbn [andb]; done || lia.
Qed.

(** With argument orders LEAD and LAG give every row the cell of the row of its frame
    that is the offset away in the order of the arguments. *)
Theorem LeadLagEvaluate_tree :
  row_tree glstate = Some tokens -> value_tree (leadlag_values glstate) = Some tree -> 0 <= count ->
  Z.of_nat (length (mjoin cursor)) < 2 ^ 63 -> offsets_ok offset_expr ->
  let frame_begin := znth 0 (bounds FRAME_BEGIN) in
  let frame_end := znth 0 (bounds FRAME_END) in
  (forall i, 0 <= i < count -> row_frame_ok NO_OTHER (Z.of_nat (length (mjoin cursor))) bounds row_idx i /\
    row_idx + i ∈ order /\ forall r, frame_begin i <= r < frame_end i -> r ∈ order) ->
  LeadLagEvaluate expression_type glstate cursor offset_expr default_expr bounds count row_idx =
    Some (mapM (fun i => ordered_value (frame_begin i) (frame_end i) i (row_idx + i)) (zrange 0 count)).
Proof.
  intros Hr Ht Hcount Hsize Ho fb fe Hok. unfold LeadLagEvaluate. rewrite Hr, Ht. fold fb fe.
  pose proof (leadlag_loop_each (fun i row => leadlag_tree_row expression_type cursor offset_expr default_expr (tokens, tree)
    (fb i) (fe i) i row) (fun i => ordered_value (fb i) (fe i) i (row_idx + i)) count row_idx (Z.to_nat count) 0) as H.
  rewrite Z.add_0_r in H. apply H; [| lia..]. clear H. intros i Hi. destruct (Hok i Hi) as ((Hf & Hfe & _) & Hrow & Hin).
  by apply leadlag_tree_value.
Qed.
End leadlag_tree.

(** ** A tree and row numbers by list

    The two interfaces with the obvious implementations, which satisfy their laws. *)

Definition list_tree (order : list Z) : WindowIndexTree := mkIndexTree (fun frames n =>
  let rows := selected frames order in
  Some (match rows !! Z.to_nat n with Some r => (r, 0) | None => (0, n + 1 - Z.of_nat (length rows)) end)).

Definition list_tokens (order : list Z) : WindowTokenTree := mkTree
  (fun frame_begin frame_end row => 1 + Z.of_nat (length (selected [(frame_begin, frame_end)] (before row order))))
  (fun _ frame_end _ => frame_end).

#[export] Instance list_tree_laws order : NoDup order -> IndexTreeLaws (list_tree order) order.
Proof. intros Hn. split; [done |]. intros frames n r _ _ E. cbn. by rewrite E. Qed.

#[export] Instance list_tree_overflow order : IndexTreeOverflow (list_tree order) order.
Proof. intros frames n _ Hn. exists 0. cbn. rewrite lookup_ge_None_2; [done | lia]. Qed.

#[export] Instance list_tokens_laws order : RowTreeLaws (list_tokens order) order.
Proof. intros frame_begin frame_end row _ _ _. done. Qed.

(** ** Examples and witnesses

    Two chunks of a column; the peers of rows 1 and 2 are both. *)
Definition small_column : ValueCursor Z := [[Some 10; None; Some 30]; [Some 40; Some 50]].

Definition small_frames : DataChunk := fun b =>
  match b with
  | FRAME_BEGIN => [0; 0; 1; 1; 0]
  | FRAME_END => [2; 3; 5; 2; 5]
  | PEER_BEGIN => [0; 1; 1; 3; 4]
  | PEER_END => [1; 3; 3; 4; 5]
  | PARTITION_BEGIN => [0; 0; 0; 3; 3]
  | PARTITION_END => [3; 3; 3; 5; 5]
  | _ => []
  end.

(** A comparison of closed numbers. *)
Ltac small_bound := vm_compute; first [reflexivity | discriminate | by intros ?].

(** NULLs are ignored. *)
Definition small_values (tree : option WindowIndexTree) : WindowValueGlobalState :=
  WindowValueGlobalState_Finalize true true (mkMask (Some [29]) 5) (mkValueGlobal (mkMask None STANDARD_VECTOR_SIZE) tree).

Definition small_nth : WindowInputExpression Z := mkInput false (znth 0 [1; 2; 1; 0; 3]) (fun i => i =? 0).

Lemma small_frames_ok mode i : 0 <= i < 5 -> row_frame_ok mode (Z.of_nat (length (mjoin small_column))) small_frames 0 i.
Proof.
  intros Hi. assert (i = 0 \/ i = 1 \/ i = 2 \/ i = 3 \/ i = 4) as H by lia.
  destruct H as [-> | [-> | [-> | [-> | ->]]]]; unfold row_frame_ok; split_and!; intros; split_and?; small_bound.
Qed.

Lemma small_nth_range i : GetCell small_nth i < 2 ^ 63.
Proof. unfold GetCell, small_nth. cbn [scalar input_data]. apply (znth_Forall (fun z => z < 2 ^ 63)); [| lia]. apply (bool_decide_unpack _). vm_compute. exact I. Qed.

Lemma ValueEvaluate_rows_witness :
  let rows i := List.filter (RowIsValid (ignore_nulls (small_values None))) (kept_rows TIES small_frames 0 i) in
  let cells := mjoin small_column in
  (FirstValueEvaluate (small_values None) small_column TIES small_frames 5 0 =
     Some ((fun i => cell_at cells (head (rows i))) <$> zrange 0 5) /\
   LastValueEvaluate (small_values None) small_column TIES small_frames 5 0 =
     Some ((fun i => cell_at cells (last (rows i))) <$> zrange 0 5) /\
   NthValueEvaluate (small_values None) small_column TIES small_nth small_frames 5 0 =
     Some ((fun i => cell_at cells (nth_row (nth_param small_nth i) (rows i))) <$> zrange 0 5)) /\
  NthValueEvaluate (small_values None) small_column TIES small_nth small_frames 5 0 =
    Some [None; None; Some 30; None; Some 40].
Proof.
  split; [| vm_compute; reflexivity].
  apply (ValueEvaluate_rows (small_values None) small_column TIES small_frames 5 0);
    [vm_compute; reflexivity | apply small_frames_ok | reflexivity | apply small_nth_range].
Defined.

(** The rows in the order of an argument. *)
Definition small_order : list Z := [2; 0; 1; 4; 3].

Lemma small_order_all i : 0 <= i < 5 -> i ∈ small_order.
Proof.
  intros Hi. assert (i = 0 \/ i = 1 \/ i = 2 \/ i = 3 \/ i = 4) as H by lia.
  destruct H as [-> | [-> | [-> | [-> | ->]]]]; apply (bool_decide_unpack _); vm_compute; exact I.
Qed.

#[export] Instance small_order_laws : IndexTreeLaws (list_tree small_order) small_order.
Proof. apply list_tree_laws. apply (bool_decide_unpack _). vm_compute. exact I. Qed.

Lemma ValueEvaluate_tree_witness :
  let rows i := List.filter (fun r => bool_decide (r ∈ kept_rows GROUP small_frames 0 i)) small_order in
  let cells := mjoin small_column in
  let g := mkValueGlobal (mkMask None STANDARD_VECTOR_SIZE) (Some (list_tree small_order)) in
  ((forall i, 0 <= i < 5 -> length (rows i) = length (kept_rows GROUP small_frames 0 i)) /\
   FirstValueEvaluate g small_column GROUP small_frames 5 0 =
     Some ((fun i => cell_at cells (head (rows i))) <$> zrange 0 5) /\
   LastValueEvaluate g small_column GROUP small_frames 5 0 =
     Some ((fun i => cell_at cells (last (rows i))) <$> zrange 0 5) /\
   NthValueEvaluate g small_column GROUP small_nth small_frames 5 0 =
     Some ((fun i => cell_at cells (n ← nth_param small_nth i;
       if n =? Z.of_nat (length (rows i)) then None else nth_row (Some n) (rows i))) <$> zrange 0 5)) /\
  FirstValueEvaluate g small_column GROUP small_frames 5 0 = Some [None; Some 10; Some 50; None; Some 30].
Proof.
  split; [| vm_compute; reflexivity].
  apply (ValueEvaluate_tree _ small_column GROUP small_frames 5 0) with (tree := list_tree small_order);
    [vm_compute; reflexivity | apply small_frames_ok | apply small_order_laws | reflexivity | apply small_nth_range |].
  intros i r Hi Hr. apply small_order_all. unfold kept_rows, frame_rows in Hr.
  rewrite list_elem_of_In, List.filter_In, <- list_elem_of_In, elem_of_zrange in Hr.
  destruct (small_frames_ok NO_OTHER i Hi) as (H1 & H2 & _).
  change (Z.of_nat (length (mjoin small_column))) with 5 in H2. lia.
Defined.

(** An offset of 2 and a default of -1, both foldable. *)
Definition small_offset : LeadLagArgument Z := Some (mkInput true (fun _ => 2) (fun _ => false), true).
Definition small_default : LeadLagArgument Z := Some (mkInput true (fun _ => -1) (fun _ => false), true).

Definition small_leadlag : WindowLeadLagGlobalState :=
  WindowLeadLagGlobalState_new 0 0 true (list_tree []) (list_tokens []).

Lemma small_partitions_ok :
  leadlag_bounds_ok 5 (znth 0 (small_frames PARTITION_BEGIN)) (znth 0 (small_frames PARTITION_END)) 5 0 /\
  leadlag_partitions_ok (znth 0 (small_frames PARTITION_BEGIN)) (znth 0 (small_frames PARTITION_END)) 5 0.
Proof.
  split; [intros i Hi | intros i j Hi Hj]; assert (i = 0 \/ i = 1 \/ i = 2 \/ i = 3 \/ i = 4) as H by lia.
  - destruct H as [-> | [-> | [-> | [-> | ->]]]]; split_and!; small_bound.
  - assert (j = 0 \/ j = 1 \/ j = 2 \/ j = 3 \/ j = 4) as H' by lia.
    destruct H as [-> | [-> | [-> | [-> | ->]]]], H' as [-> | [-> | [-> | [-> | ->]]]]; try lia; intros Hlt; first [discriminate Hlt | split; small_bound].
Qed.

Lemma LeadLagEvaluate_rows_witness :
  let values := mapM (fun i => leadlag_value WINDOW_LAG small_leadlag small_column small_offset small_default
    (znth 0 (small_frames PARTITION_BEGIN) i) (znth 0 (small_frames PARTITION_END) i) i (0 + i)) (zrange 0 5) in
  let shift := can_shift small_leadlag small_offset small_default in
  let result := LeadLagEvaluate WINDOW_LAG small_leadlag small_column small_offset small_default small_frames 5 0 in
  ((shift = false -> result = Some values) /\ (shift = true -> forall vs, values = Ok vs -> result = Some (Ok vs))) /\
  shift = true /\ result = Some (Ok [Some (-1); Some (-1); Some 10; Some (-1); Some (-1)]).
Proof.
  cbn zeta. split; [| split; vm_compute; reflexivity].
  apply (LeadLagEvaluate_rows WINDOW_LAG small_leadlag small_column small_offset small_default small_frames 5 0).
  - reflexivity.
  - lia.
  - vm_compute. reflexivity.
  - intros i o E. vm_compute in E. injection E as <-. lia.
  - reflexivity.
  - apply small_partitions_ok.
  - intros _. apply small_partitions_ok.
Defined.

(** Shifting hides an error: the position of the second row overflows, but the first row's
    pass has already filled it. *)
Example leadlag_shift_overflow :
  let offset : LeadLagArgument Z := Some (mkInput true (fun _ => 2 ^ 63 - 1) (fun _ => false), true) in
  LeadLagEvaluate WINDOW_LEAD small_leadlag small_column offset None small_frames 2 0 = Some (Ok [None; None]) /\
  leadlag_value WINDOW_LEAD small_leadlag small_column offset None 0 3 1 1 = Throw OutOfRangeException.
Proof. split; vm_compute; reflexivity. Qed.

(** With a shared order LEAD searches the frame; if the frame ends before the row, the
    number of rows after it wraps, and the result is the row where the frame ends. *)
Example leadlag_frame_before_row :
  let g := WindowLeadLagGlobalState_new 1 1 true (list_tree []) (list_tokens []) in
  let bounds : DataChunk := fun b => match b with FRAME_BEGIN => [0] | FRAME_END => [2] | _ => [] end in
  LeadLagEvaluate WINDOW_LEAD g small_column None None bounds 1 4 = Some (Ok [Some 30]).
Proof. vm_compute. reflexivity. Qed.

(** With IGNORE NULLS and argument orders LEAD counts the NULL row in its own row number,
    but not in the tree of the values: the next value 30 is not found. *)
Example leadlag_tree_ignore_nulls :
  let g := mkLeadLagGlobal (small_values (Some (list_tree [0; 2; 3; 4]))) true (Some (list_tokens [1; 0; 2; 3; 4])) in
  let bounds : DataChunk := fun b => match b with FRAME_BEGIN => [0] | FRAME_END => [3] | _ => [] end in
  LeadLagEvaluate WINDOW_LEAD g small_column None None bounds 1 0 = Some (Ok [None]).
Proof. vm_compute. reflexivity. Qed.

(** NTH_VALUE with argument orders does not find the last row of the frame. *)
Example NthValue_tree_last_row :
  let g := mkValueGlobal (mkMask None STANDARD_VECTOR_SIZE) (Some (list_tree small_order)) in
  NthValue_row g small_column (Some 3) [(0, 3)] = Some None /\
  NthValue_row (mkValueGlobal (mkMask None STANDARD_VECTOR_SIZE) None) small_column (Some 3) [(0, 3)] = Some (Some 30).
Proof. split; vm_compute; reflexivity. Qed.

Lemma LeadLagEvaluate_tree_witness :
  let g := WindowLeadLagGlobalState_new 1 0 true (list_tree small_order) (list_tokens small_order) in
  let result := LeadLagEvaluate WINDOW_LEAD g small_column None small_default small_frames 3 0 in
  result = Some (mapM (fun i => ordered_value WINDOW_LEAD small_column None small_default small_order
    (znth 0 (small_frames FRAME_BEGIN) i) (znth 0 (small_frames FRAME_END) i) i (0 + i)) (zrange 0 3)) /\
  result = Some (Ok [None; Some (-1); None]).
Proof.
  cbn zeta. split; [| vm_compute; reflexivity].
  apply (LeadLagEvaluate_tree WINDOW_LEAD _ small_column None small_default small_frames 3 0 (list_tokens small_order) (list_tree small_order)).
  - apply small_order_laws.
  - apply list_tokens_laws.
  - reflexivity.
  - reflexivity.
  - lia.
  - vm_compute. reflexivity.
  - intros i o E. vm_compute in E. injection E as <-. lia.
  - intros i Hi. destruct (small_frames_ok NO_OTHER i ltac:(lia)) as (H1 & H2 & H3). split; [done |].
    split; [by apply small_order_all; lia |]. intros r Hr. apply small_order_all. change (Z.of_nat (length (mjoin small_column))) with 5 in H2. lia.
Defined.
