(* ===== verification/MergeSortTree.v ===== *)
(** * Merge sort trees

    MergeSortTree of include/duckdb/execution/merge_sort_tree.hpp: the levels of sorted
    runs with the cascading pointers into the level below, their construction by
    concurrent threads with a tournament tree, and the two searches.

    A level is an array of the values of the leaves; level [l] consists of sorted runs of
    [FANOUT ^ l] values.  Sizes are far from 2^64, so the products of the code are exact;
    the cast of an offset to [OffsetType] and the largest value of [ElementType] are
    written out.  An access outside of an array is [None]. *)

From S2P Require Import Prelude Validity MaskSearch Boundaries Aggregates.

(** ** Template parameters

    [E] and [O] are unsigned integers of the given widths and [CMP] is [std::less]. *)
Class MergeSortTraits : Set := {
  FANOUT : Z;
  CASCADING : Z;
  element_bits : Z;
  offset_bits : Z
}.

Definition MergeSortTree32 : MergeSortTraits := {| FANOUT := 32; CASCADING := 32; element_bits := 32; offset_bits := 32 |}.
Definition MergeSortTree64 : MergeSortTraits := {| FANOUT := 32; CASCADING := 32; element_bits := 64; offset_bits := 64 |}.

(** ** Data *)

(** [RunElement]: a value and the child run it comes from. *)
Definition RunElement : Set := Z * Z.

#[export] Instance RunElement_dec : EqDecision RunElement.
Proof. solve_decision. Defined.

(** The losers of the games. *)
Abbreviation Games := (list RunElement).

(** The elements and the cascading pointers of a level. *)
Abbreviation Level := (list Z * list Z)%type.

Abbreviation Tree := (list Level).

Definition LowestLevel (tree : Tree) : list Z := default [] (fst <$> head tree).

Section tree.
Context {traits : MergeSortTraits}.

Definition SENTINEL : RunElement := (2 ^ element_bits - 1, idx_max).

Definition CompareElements (lhs rhs : RunElement) : bool :=
  if fst lhs <? fst rhs then true
  else if fst rhs <? fst lhs then false
  else snd lhs <? snd rhs.

(** ** Allocate *)

Definition allocate_cascades (num_runs run_length : Z) : list Z :=
  if (0 <? CASCADING) && (CASCADING <? run_length)
  then replicate (Z.to_nat (FANOUT * num_runs * (run_length / CASCADING + 2))) 0 else [].

(** [for (idx_t child_run_length = 1; child_run_length < count;)] *)
Fixpoint allocate_levels (fuel : nat) (count child_run_length : Z) : option Tree :=
  if count <=? child_run_length then Some []
  else match fuel with
  | O => None
  | S fuel =>
      let run_length := child_run_length * FANOUT in
      let num_runs := (count + run_length - 1) / run_length in
      levels ← allocate_levels fuel count run_length;
      Some ((replicate (Z.to_nat count) 0, allocate_cascades num_runs run_length) :: levels)
  end.

(** The tree with the state of the parallel construction. *)
Record MergeSortTree : Set := mkMergeSortTree {
  tree : Tree;
  build_level : nat;
  build_complete : Z;
  build_run : Z;
  build_run_length : Z;
  build_num_runs : Z
}.

Definition Allocate (count : Z) : option MergeSortTree :=
  levels ← allocate_levels (Z.to_nat count) count 1;
  Some {| tree := (replicate (Z.to_nat count) 0, []) :: levels;
          build_level := 1; build_complete := 0; build_run := 0;
          build_run_length := FANOUT;
          build_num_runs := (count + FANOUT - 1) / FANOUT |}.

(** The caller of [Allocate] writes the elements of the lowest level. *)
Definition with_leaves (leaves : list Z) (m : MergeSortTree) : MergeSortTree :=
  mkMergeSortTree (((fun level : Level => (leaves, snd level)) <$> take 1 (tree m)) ++ drop 1 (tree m)) (build_level m)
    (build_complete m) (build_run m) (build_run_length m) (build_num_runs m).

(** ** The tournament

    [losers] are the games; [winners] is the local array of [StartGames], which starts
    uninitialized. *)

(** One game: its loser and its winner. *)
Definition play (e0 e1 : RunElement) : RunElement * RunElement :=
  if CompareElements e0 e1 then (e1, e0) else (e0, e1).

Definition store_game (games : Games * Games) (i : Z) (loser winner : RunElement) : option (Games * Games) :=
  losers ← zstore (fst games) i loser;
  winners ← zstore (snd games) i winner;
  Some (losers, winners).

Definition first_game (base_offset : Z) (elements : list RunElement) (games : Games * Games) (i : Z)
    : option (Games * Games) :=
  e0 ← zload elements (i * 2 + 0);
  e1 ← zload elements (i * 2 + 1);
  let '(loser, winner) := play e0 e1 in
  store_game games (base_offset + i) loser winner.

Definition upper_game (games : Games * Games) (i : Z) : option (Games * Games) :=
  e0 ← zload (snd games) (i * 2 + 1);
  e1 ← zload (snd games) (i * 2 + 2);
  let '(loser, winner) := play e0 e1 in
  store_game games i loser winner.

Definition StartGames (losers winners elements : list RunElement) (sentinel : RunElement)
    : option (Games * RunElement) :=
  let elem_nodes := Z.of_nat (length elements) in
  let game_nodes := Z.of_nat (length losers) in
  let base_offset := game_nodes / 2 in
  let base_count := elem_nodes / 2 in
  games ← ofold (first_game base_offset elements) (losers, winners) (zrange 0 base_count);
  (* "Fill in any byes" *)
  games ← (if elem_nodes mod 2 =? 1
           then bye ← last elements; store_game games (base_offset + base_count) sentinel bye
           else Some games);
  (* "Pad to a power of 2" *)
  games ← ofold (fun games i => store_game games (base_offset + i) sentinel sentinel) games
    (zrange ((elem_nodes + 1) / 2) ((game_nodes + 1) / 2));
  games ← ofold upper_game games (reverse (zrange 0 base_offset));
  winner ← zload (snd games) 0;
  Some (fst games, winner).

(** [do ... while (idx)] *)
Fixpoint replay (fuel : nat) (losers : Games) (idx : Z) (smallest : RunElement) : option (Games * RunElement) :=
  match fuel with
  | O => None
  | S fuel =>
      let idx := (idx - 1) / 2 in
      loser ← zload losers idx;
      '(losers, smallest) ← (if CompareElements loser smallest
                             then losers ← zstore losers idx smallest; Some (losers, loser)
                             else Some (losers, smallest));
      if idx =? 0 then Some (losers, smallest) else replay fuel losers idx smallest
  end.

Definition ReplayGames (losers : Games) (slot_idx : Z) (insert_val : RunElement) : option (Games * RunElement) :=
  replay (S (length losers)) losers (slot_idx + Z.of_nat (length losers)) insert_val.

(** ** Building a run *)

(** The lengths of the child runs and of the runs of a level. *)
Fixpoint run_lengths (level_idx : nat) : Z * Z :=
  match level_idx with
  | O | 1%nat => (1, FANOUT)
  | S level_idx => let '(_, run_length) := run_lengths level_idx in (run_length, run_length * FANOUT)
  end.

Definition OffsetType (i : Z) : Z := i mod 2 ^ offset_bits.

Record RunState : Set := mkRun {
  bounds : list (Z * Z);
  games : Games;
  run_elements : list Z;
  run_cascades : list Z;
  element_idx : Z;
  cascade_idx : Z
}.

(** [cascades[cascade_idx++] = bounds[i].first] for all children *)
Definition push_cascades (s : RunState) : option RunState :=
  '(cascades, cascade_idx) ← ofold (fun '(cascades, cascade_idx) (b : Z * Z) =>
    cascades ← zstore cascades cascade_idx (fst b); Some (cascades, cascade_idx + 1))
    (run_cascades s, cascade_idx s) (bounds s);
  Some (mkRun (bounds s) (games s) (run_elements s) cascades (element_idx s) cascade_idx).

Definition has_cascades (s : RunState) : bool := negb (bool_decide (run_cascades s = [])).

(** The next element of a child run, if any. *)
Definition next_player (child_level : list Z) (b : Z * Z) (child_run : Z) : option RunElement :=
  if fst b <? snd b then v ← zload child_level (fst b); Some (v, child_run) else Some SENTINEL.

(** The body of [while (winner != SENTINEL)]. *)
Definition merge_winner (child_level : list Z) (winner : RunElement) (s : RunState) : option (RunElement * RunState) :=
  s ← (if has_cascades s && (element_idx s mod CASCADING =? 0) then push_cascades s else Some s);
  elements ← zstore (run_elements s) (element_idx s) (fst winner);
  let child_run := snd winner in
  b ← zload (bounds s) child_run;
  let b := (OffsetType (fst b + 1), snd b) in
  bounds ← zstore (bounds s) child_run b;
  player ← next_player child_level b child_run;
  '(games, winner) ← ReplayGames (games s) child_run player;
  Some (winner, mkRun bounds games elements (run_cascades s) (element_idx s + 1) (cascade_idx s)).

Fixpoint merge_children (fuel : nat) (child_level : list Z) (winner : RunElement) (s : RunState) : option RunState :=
  if decide (winner = SENTINEL) then Some s
  else match fuel with
  | O => None
  | S fuel => '(winner, s) ← merge_winner child_level winner s; merge_children fuel child_level winner s
  end.

(** [garbage] is what the arrays [games] and [winners] hold before. *)
Definition BuildRun (garbage : RunElement) (level_idx : nat) (run_idx : Z) (t : Tree) : option Tree :=
  level ← t !! level_idx;
  child_level ← t !! (level_idx - 1)%nat;
  let count := Z.of_nat (length (fst level)) in
  let '(child_run_length, run_length) := run_lengths level_idx in
  let child_base := run_idx * run_length in
  let bounds := (fun child_run =>
    let child_idx := child_base + child_run * child_run_length in
    (OffsetType (Z.min child_idx count), OffsetType (Z.min (child_idx + child_run_length) count))) <$> zrange 0 FANOUT in
  players ← mapM (fun child_run =>
    b ← zload bounds child_run;
    if negb (fst b =? snd b)
    then v ← zload (fst child_level) (child_base + child_run * child_run_length); Some (v, child_run)
    else Some SENTINEL) (zrange 0 FANOUT);
  let no_games := replicate (Z.to_nat (FANOUT - 1)) garbage in
  '(games, winner) ← StartGames no_games no_games players SENTINEL;
  let s := mkRun bounds games (fst level) (snd level) child_base
    (FANOUT * run_idx * (run_length / CASCADING + 2)) in
  s ← merge_children (length (fst level)) (fst child_level) winner s;
  (* "Add terminal cascade pointers to the end" *)
  s ← (if has_cascades s then s ← push_cascades s; push_cascades s else Some s);
  Some (<[level_idx := (run_elements s, run_cascades s)]> t).

(** ** Building in parallel *)

(** The new state and the run to build, if any. *)
Definition TryNextRun (m : MergeSortTree) : MergeSortTree * option (nat * Z) :=
  let '(m, go) :=
    if build_num_runs m <=? build_complete m then
      let level := S (build_level m) in
      if (length (tree m) <=? level)%nat then
        (mkMergeSortTree (tree m) level (build_complete m) (build_run m) (build_run_length m) (build_num_runs m), false)
      else
        let count := Z.of_nat (length (LowestLevel (tree m))) in
        let run_length := build_run_length m * FANOUT in
        (mkMergeSortTree (tree m) level 0 0 run_length ((count + run_length - 1) / run_length), true)
    else (m, true) in
  if negb go then (m, None)
  else if build_num_runs m <=? build_run m then (m, None)
  else
    (mkMergeSortTree (tree m) (build_level m) (build_complete m) (build_run m + 1) (build_run_length m) (build_num_runs m),
     Some (build_level m, build_run m)).

(** A thread in [Build]: at the loop's test of [build_level], at the lock of
    [TryNextRun], in [BuildRun], and at its last statement [++build_complete].  The runs
    that are built at the same time read the level below and write different elements
    of their level, so each is one step. *)
Inductive TreeBuilder : Set :=
  | AtLoop
  | AtTryNextRun
  | AtBuildRun (level_idx : nat) (run_idx : Z)
  | AtComplete (level_idx : nat) (run_idx : Z)
  | BuildDone.

Definition BuildSystem : Set := MergeSortTree * list TreeBuilder.

Definition build_thread_step (garbage : RunElement) (m : MergeSortTree) (th : TreeBuilder)
    : option (MergeSortTree * TreeBuilder) :=
  match th with
  | AtLoop => Some (m, if (build_level m <? length (tree m))%nat then AtTryNextRun else BuildDone)
  | AtTryNextRun =>
      let '(m, run) := TryNextRun m in
      Some (m, match run with Some (level_idx, run_idx) => AtBuildRun level_idx run_idx | None => AtLoop end)
  | AtBuildRun level_idx run_idx =>
      t ← BuildRun garbage level_idx run_idx (tree m);
      Some (mkMergeSortTree t (build_level m) (build_complete m) (build_run m) (build_run_length m) (build_num_runs m),
        AtComplete level_idx run_idx)
  | AtComplete _ _ =>
      Some (mkMergeSortTree (tree m) (build_level m) (build_complete m + 1) (build_run m) (build_run_length m)
        (build_num_runs m), AtLoop)
  | BuildDone => Some (m, BuildDone)
  end.

(** Thread [k] makes a step. *)
Definition build_system_step (garbage : RunElement) (s : BuildSystem) (k : nat) : option BuildSystem :=
  match snd s !! k with
  | None => Some s
  | Some th => '(m, th) ← build_thread_step garbage (fst s) th; Some (m, <[k := th]> (snd s))
  end.

Definition Build (garbage : RunElement) (m : MergeSortTree) (threads : nat) (schedule : list nat) : option BuildSystem :=
  ofold (build_system_step garbage) (m, replicate threads AtLoop) schedule.

(** ** Searching

    [std::lower_bound] in a part of a level. *)
Definition level_lower_bound (level : list Z) (first last needle : Z) : option Z :=
  if bool_decide (0 <= first <= last /\ last <= Z.of_nat (length level))
  then Some (lower_bound Z.ltb (znth 0 level) first last needle) else None.

(** [LowestCascadingLevel]: the level and its width. *)
Fixpoint lowest_cascading (fuel : nat) (level : nat) (level_width : Z) : nat :=
  match fuel with
  | O => level
  | S fuel => if level_width <=? CASCADING then lowest_cascading fuel (S level) (level_width * FANOUT) else level
  end.

Definition LowestCascadingLevel : nat := lowest_cascading (S (Z.to_nat CASCADING)) 0 1.

(** The part of the level below that the pointers at [cascade_idx] leave for a needle. *)
Definition cascade_search (level_data level_cascades : list Z) (cascade_idx needle : Z) : option Z :=
  lower_begin ← zload level_cascades cascade_idx;
  lower_end ← zload level_cascades (cascade_idx + FANOUT);
  level_lower_bound level_data lower_begin lower_end needle.

(** The matches of all frames in the child that the cascade indices point to, and their
    number. *)
Definition cascade_matches (level_data level_cascades : list Z) (frames : list FrameBounds) (cascades : list (Z * Z))
    : option (list (Z * Z) * Z) :=
  matches ← mapM (fun '(frame, cascade_idx) =>
    first ← cascade_search level_data level_cascades (fst cascade_idx) (fst frame);
    second ← cascade_search level_data level_cascades (snd cascade_idx) (snd frame);
    Some (first, second)) (zip frames cascades);
  Some (matches, foldl (fun matched m => u64 (matched + u64 (snd m - fst m))) 0 matches).

(** [while (true)]: the children from [result] on. *)
Fixpoint select_cascaded_child (fuel : nat) (level_data level_cascades : list Z) (frames : list FrameBounds)
    (cascades : list (Z * Z)) (result n : Z) : option (list (Z * Z) * Z * Z) :=
  match fuel with
  | O => None
  | S fuel =>
      '(matches, matched) ← cascade_matches level_data level_cascades frames cascades;
      if n <? matched then
        let next : list (Z * Z) := (fun m : Z * Z =>
          ((fst m / CASCADING + 2 * result) * FANOUT, (snd m / CASCADING + 2 * result) * FANOUT)) <$> matches in
        Some (next, result, n)
      else
        select_cascaded_child fuel level_data level_cascades frames
          ((fun c : Z * Z => (fst c + 1, snd c + 1)) <$> cascades) (result + 1) (n - matched)
  end.

(** [for (; level_no >= min_cascaded; --level_no)]: [steps] levels from [level_no] down. *)
Fixpoint select_cascaded (steps : nat) (t : Tree) (level_no : nat) (frames : list FrameBounds)
    (cascades : list (Z * Z)) (result n : Z) : option (Z * Z) :=
  match steps with
  | O => Some (result, n)
  | S steps =>
      level ← t !! level_no;
      parent ← t !! S level_no;
      '(cascades, result, n) ← select_cascaded_child (S (length (snd parent))) (fst level) (snd parent) frames cascades result n;
      select_cascaded steps t (level_no - 1) frames cascades (result * FANOUT) n
  end.

(** [while (range_end < level.end())] *)
Fixpoint select_child (fuel : nat) (level : list Z) (level_width : Z) (frames : list FrameBounds)
    (range_begin range_end result n : Z) : option (Z * Z) :=
  if range_end <? Z.of_nat (length level) then
    match fuel with
    | O => None
    | S fuel =>
        matched ← ofold (fun matched (frame : FrameBounds) =>
          lower_match ← level_lower_bound level range_begin range_end (fst frame);
          upper_match ← level_lower_bound level lower_match range_end (snd frame);
          Some (u64 (matched + u64 (upper_match - lower_match)))) 0 frames;
        if n <? matched then Some (result, n)
        else select_child fuel level level_width frames range_end (range_end + level_width) (result + 1) (n - matched)
    end
  else Some (result, n).

(** [for (; level_no > 0; --level_no)] *)
Fixpoint select_uncascaded (t : Tree) (level_no : nat) (level_width : Z) (frames : list FrameBounds) (result n : Z)
    : option (Z * Z) :=
  match level_no with
  | O => Some (result, n)
  | S below =>
      level ← t !! level_no;
      '(result, n) ← select_child (length (fst level)) (fst level) level_width frames (result * level_width)
        (result * level_width + level_width) result n;
      select_uncascaded t below (level_width / FANOUT) frames (result * FANOUT) n
  end.

(** The last level: [limit] is its end. *)
Fixpoint select_leaf (fuel : nat) (level_data : list Z) (frames : list FrameBounds) (limit result n : Z) : option (Z * Z) :=
  if result <? limit then
    match fuel with
    | O => None
    | S fuel =>
        v ← zload level_data result;
        let n := foldl (fun n (frame : FrameBounds) => u64 (n - Z.b2z ((fst frame <=? v) && (v <? snd frame)))) n frames in
        if n =? 0 then Some (result, n)
        else select_leaf fuel level_data frames limit (result + 1) n
    end
  else Some (result, n).

Definition SelectNthElement (t : Tree) (frames : list FrameBounds) (n : Z) : option (Z * Z) :=
  (* "Handle special case of a one-element tree" *)
  if (length t <? 2)%nat then Some (0, 0)
  else
    let level_no := (length t - 2)%nat in
    let min_cascaded := LowestCascadingLevel in
    '(level_no, result, n) ← (if (min_cascaded <? level_no)%nat then
        level ← t !! S level_no;
        cascades ← mapM (fun frame : FrameBounds =>
          lower_idx ← level_lower_bound (fst level) 0 (Z.of_nat (length (fst level))) (fst frame);
          upper_idx ← level_lower_bound (fst level) 0 (Z.of_nat (length (fst level))) (snd frame);
          Some (lower_idx / CASCADING * FANOUT, upper_idx / CASCADING * FANOUT)) frames;
        '(result, n) ← select_cascaded (S level_no - min_cascaded) t level_no frames cascades 0 n;
        Some ((min_cascaded - 1)%nat, result, n)
      else Some (level_no, 0, n));
    '(result, n) ← select_uncascaded t level_no (FANOUT ^ Z.of_nat level_no) frames result n;
    level ← head t;
    let level_data := fst level in
    select_leaf (Z.to_nat FANOUT) level_data frames (Z.min (result + FANOUT) (Z.of_nat (length level_data))) result (n + 1).

(** ** Aggregating the leaves below a needle

    The calls of [aggregate]: level, begin of the run and lower bound of the needle in it. *)
Definition AggregateCall : Set := nat * Z * Z.

(** [do ... while (run_idx.first != run_idx.second)]: the run, the last child run, the
    level and its width. *)
Fixpoint entry_point (fuel : nat) (first second : Z) (level : nat) (level_width : Z) : option (Z * Z * nat * Z) :=
  match fuel with
  | O => None
  | S fuel =>
      let prev_second := second in
      let first := first / FANOUT in
      let second := second / FANOUT in
      let level_width := level_width * FANOUT in
      let level := S level in
      if first =? second then Some (second, prev_second, level, level_width)
      else entry_point fuel first second level level_width
  end.

(** The completely contained runs on the left and on the right; [search] gives the lower
    bound in the run that begins at its first argument, and its second is the cascade
    index. *)
Fixpoint aggregate_left (fuel : nat) (search : Z -> Z -> option Z) (level : nat) (level_width lower curr idx : Z)
    (calls : list AggregateCall) : option (Z * Z * list AggregateCall) :=
  if level_width <=? curr - lower then
    match fuel with
    | O => None
    | S fuel =>
        let run_begin := curr - level_width in
        run_pos ← search run_begin idx;
        aggregate_left fuel search level level_width lower run_begin (idx - 1) (calls ++ [(level, run_begin, run_pos)])
    end
  else Some (curr, idx, calls).

Fixpoint aggregate_right (fuel : nat) (search : Z -> Z -> option Z) (level : nat) (level_width upper curr idx : Z)
    (calls : list AggregateCall) : option (Z * Z * list AggregateCall) :=
  if level_width <=? upper - curr then
    match fuel with
    | O => None
    | S fuel =>
        let run_begin := curr in
        run_pos ← search run_begin idx;
        aggregate_right fuel search level level_width upper (curr + level_width) (idx + 1) (calls ++ [(level, run_begin, run_pos)])
    end
  else Some (curr, idx, calls).

(** The layers with cascading pointers: [steps] levels below [level]. *)
Fixpoint aggregate_cascaded (steps : nat) (t : Tree) (level : nat) (level_width lower upper needle : Z)
    (curr cascading_idx : Z * Z) (calls : list AggregateCall) : option (Z * Z * list AggregateCall) :=
  match steps, level with
  | S steps, S level =>
      let level_width := level_width / FANOUT in
      data ← t !! level;
      parent ← t !! S level;
      let search idx := cascade_search (fst data) (snd parent) idx needle in
      let entry bound idx := ((idx / CASCADING + 2 * (bound / level_width)) * FANOUT) in
      '(first, idx_first, calls) ← aggregate_left (length (fst data)) (fun _ => search) level level_width lower (fst curr)
        (u64 (fst cascading_idx + (FANOUT - 1))) calls;
      idx_first ← (if negb (first =? lower) then idx ← search idx_first; Some (entry lower idx) else Some idx_first);
      '(second, idx_second, calls) ← aggregate_right (length (fst data)) (fun _ => search) level level_width upper (snd curr)
        (snd cascading_idx) calls;
      idx_second ← (if negb (second =? upper) then idx ← search idx_second; Some (entry upper idx) else Some idx_second);
      aggregate_cascaded steps t level level_width lower upper needle (first, second) (idx_first, idx_second) calls
  | _, _ => Some (curr, calls)
  end.

(** [while (--level)]: the levels below [level] but the last. *)
Fixpoint aggregate_uncascaded (t : Tree) (level : nat) (level_width lower upper needle : Z) (curr : Z * Z)
    (calls : list AggregateCall) : option (Z * Z * list AggregateCall) :=
  match level with
  | S (S below as level) =>
      let level_width := level_width / FANOUT in
      data ← t !! level;
      let search run_begin (_ : Z) := level_lower_bound (fst data) run_begin (run_begin + level_width) needle in
      '(first, _, calls) ← aggregate_left (length (fst data)) search level level_width lower (fst curr) 0 calls;
      '(second, _, calls) ← aggregate_right (length (fst data)) search level level_width upper (snd curr) 0 calls;
      aggregate_uncascaded t level level_width lower upper needle (first, second) calls
  | _ => Some (curr, calls)
  end.

(** The last layer: the leaves of [[first, last)]. *)
Definition aggregate_leaves (level_data : list Z) (needle first last : Z) : option (list AggregateCall) :=
  mapM (fun run_begin => v ← zload level_data run_begin; Some (0%nat, run_begin, run_begin + Z.b2z (v <? needle)))
    (zrange first last).

Definition AggregateLowerBound (t : Tree) (lower upper needle : Z) : option (list AggregateCall) :=
  if upper <=? lower then Some []
  else
    let size := Z.of_nat (length (LowestLevel t)) in
    _ ← (if size <? upper then None else Some tt);
    '(run, prev_second, level, level_width, curr) ←
      (if lower =? upper - 1 then Some (lower, 0, 0%nat, 1, lower)
       else
         '(run, prev_second, level, level_width) ← entry_point (length t) lower (upper - 1) 0 1;
         Some (run, prev_second, level, level_width, prev_second * level_width / FANOUT));
    '(curr, calls, level, level_width) ←
      (if (LowestCascadingLevel <? level)%nat then
         data ← t !! level;
         let entry_first := run * level_width in
         let entry_second := Z.min (entry_first + level_width) size in
         entry_idx ← level_lower_bound (fst data) entry_first entry_second needle;
         let idx := (entry_idx / CASCADING + 2 * (entry_first / level_width)) * FANOUT in
         let correction := prev_second - run * FANOUT in
         let steps := (S level - LowestCascadingLevel)%nat in
         '(curr, calls) ← aggregate_cascaded steps t level level_width lower upper needle (curr, curr)
           (u64 (idx - (FANOUT - correction)), idx + correction) [];
         Some (curr, calls, (level - steps)%nat, level_width / FANOUT ^ Z.of_nat steps)
       else Some ((curr, curr), [], level, level_width));
    '(curr, calls) ← aggregate_uncascaded t level level_width lower upper needle curr calls;
    left ← aggregate_leaves (LowestLevel t) needle lower (fst curr);
    right ← aggregate_leaves (LowestLevel t) needle (snd curr) upper;
    Some (calls ++ left ++ right).
End tree.
