(* ===== verification/MergeSortGames.v ===== *)
(** * The tournament of the merge

    A tree of [FANOUT - 1] games over the [FANOUT] children, one of which is the next
    player of each child run: every game keeps its loser, so that after the winner's
    child has moved on only the games on the path of that child are played again.  The
    winner is always the smallest player.

    Games are numbered from 1 here: game [m] is element [m - 1] of the array, its parts
    are the games [2 m] and [2 m + 1], and slot [i] is number [FANOUT + i]. *)

From S2P Require Import Prelude Validity MaskSearch Boundaries Aggregates MergeSortTree.

(** ** The order of the players *)

Definition rle (a b : RunElement) : Prop := fst a < fst b \/ (fst a = fst b /\ snd a <= snd b).

Definition rmin (a b : RunElement) : RunElement := snd (play a b).
Definition rmax (a b : RunElement) : RunElement := fst (play a b).

Ltac run_order :=
  intros;
  repeat match goal with a : RunElement |- _ => destruct a as [? ?] end;
  repeat match goal with a : Z * Z |- _ => destruct a as [? ?] end;
  unfold rle, rmin, rmax, play, CompareElements in *; cbn [fst snd] in *;
  repeat match goal with |- context [?x <? ?y] => destruct (Z.ltb_spec x y) end;
  cbn [fst snd]; try (f_equal; lia); try lia.

Lemma rle_refl a : rle a a.
Proof. run_order. Qed.

Lemma rle_trans a b c : rle a b -> rle b c -> rle a c.
Proof. run_order. Qed.

Lemma rle_antisym a b : rle a b -> rle b a -> a = b.
Proof. run_order. Qed.

Lemma rmin_l a b : rle (rmin a b) a.
Proof. run_order. Qed.

Lemma rmin_r a b : rle (rmin a b) b.
Proof. run_order. Qed.

Lemma rmin_cases a b : rmin a b = a \/ rmin a b = b.
Proof. unfold rmin, play. case_if; auto. Qed.

Lemma rmin_comm a b : rmin a b = rmin b a.
Proof. run_order. Qed.

Lemma rmax_comm a b : rmax a b = rmax b a.
Proof. run_order. Qed.

(** The loser of a game whose winner is known. *)
Lemma rmax_of_le a b : rle a b -> rmax a b = b.
Proof. run_order. Qed.

Lemma play_again a b :
  (if CompareElements a b then (b, a) else (a, b)) = (rmax a b, rmin a b).
Proof. unfold rmin, rmax, play. by destruct (CompareElements a b). Qed.

(** ** The winners *)

Lemma pow2_pos (h : nat) : 0 < 2 ^ Z.of_nat h.
Proof. apply Z.pow_pos_nonneg; lia. Qed.

Lemma pow2_succ (h : nat) : 2 ^ Z.of_nat (S h) = 2 * 2 ^ Z.of_nat h.
Proof. by rewrite Nat2Z.inj_succ, Z.pow_succ_r by lia. Qed.

Section games.
Context {traits : MergeSortTraits} (k : nat) (HF : FANOUT = 2 ^ Z.of_nat (S k)).
Implicit Types (cur : Z -> RunElement) (losers : Games) (h : nat) (m slot : Z).

(** The winner of game [m], [h] levels above the slots. *)
Fixpoint winner_of cur h m : RunElement :=
  match h with
  | O => cur (m - FANOUT)
  | S h => rmin (winner_of cur h (2 * m)) (winner_of cur h (2 * m + 1))
  end.

Definition loser_of cur h m : RunElement := rmax (winner_of cur h (2 * m)) (winner_of cur h (2 * m + 1)).

(** The game of a slot at a height. *)
Definition game_at h slot : Z := (FANOUT + slot) / 2 ^ Z.of_nat h.

Lemma FANOUT_pos : 2 <= FANOUT.
Proof. rewrite HF, Nat2Z.inj_succ, Z.pow_succ_r by lia. pose proof (Z.pow_pos_nonneg 2 (Z.of_nat k)). lia. Qed.

Lemma game_at_0 slot : game_at 0 slot = FANOUT + slot.
Proof. unfold game_at. by rewrite Z.div_1_r. Qed.

Lemma game_at_S h slot : game_at (S h) slot = game_at h slot / 2.
Proof. unfold game_at. pose proof (pow2_pos h). rewrite pow2_succ, Z.mul_comm, Z.div_div; lia. Qed.

Lemma game_at_root slot : 0 <= slot < FANOUT -> game_at (S k) slot = 1.
Proof. intros Hs. unfold game_at. rewrite <- HF. symmetry. apply Z.div_unique with slot; lia. Qed.

(** The heights partition the games. *)
Definition at_height h m : Prop := 2 ^ Z.of_nat (S k - h) <= m < 2 * 2 ^ Z.of_nat (S k - h).

Lemma game_at_height h slot : (h <= S k)%nat -> 0 <= slot < FANOUT -> at_height h (game_at h slot).
Proof.
  intros Hh Hs. unfold at_height, game_at. rewrite HF in Hs |- *.
  assert (2 ^ Z.of_nat (S k) = 2 ^ Z.of_nat (S k - h) * 2 ^ Z.of_nat h) as E.
  { rewrite <- Z.pow_add_r by lia. f_equal. lia. }
  rewrite E in Hs |- *. pose proof (pow2_pos h). split.
  - apply Z.div_le_lower_bound; lia.
  - apply Z.div_lt_upper_bound; lia.
Qed.

Lemma at_height_child h m : (h <= k)%nat -> at_height (S h) m -> at_height h (2 * m) /\ at_height h (2 * m + 1).
Proof.
  intros Hh. unfold at_height. replace (S k - h)%nat with (S (S k - S h)) by lia. rewrite !pow2_succ. lia.
Qed.

Lemma at_height_inj h h' m : (h <= S k)%nat -> (h' <= S k)%nat -> at_height h m -> at_height h' m -> h = h'.
Proof.
  intros Hh Hh' H1 H2. unfold at_height in *.
  destruct (Nat.lt_trichotomy h h') as [Hlt | [? | Hlt]]; [| done |]; exfalso.
  - assert (2 ^ Z.of_nat (S (S k - h')) <= 2 ^ Z.of_nat (S k - h)) by (apply Z.pow_le_mono_r; lia).
    rewrite pow2_succ in *. lia.
  - assert (2 ^ Z.of_nat (S (S k - h)) <= 2 ^ Z.of_nat (S k - h')) by (apply Z.pow_le_mono_r; lia).
    rewrite pow2_succ in *. lia.
Qed.

(** The winner of a game is the player of one of its slots and not larger than the others. *)
Lemma winner_of_slot cur h m :
  (h <= S k)%nat -> at_height h m ->
  exists slot, 0 <= slot < FANOUT /\ game_at h slot = m /\ winner_of cur h m = cur slot.
Proof.
  revert m. induction h as [| h IH]; intros m Hh Hm.
  - exists (m - FANOUT). unfold at_height in Hm. rewrite Nat.sub_0_r, <- HF in Hm. rewrite game_at_0. split_and!; [lia.. | done].
  - destruct (at_height_child h m) as [H1 H2]; [lia | done |]. cbn [winner_of].
    destruct (rmin_cases (winner_of cur h (2 * m)) (winner_of cur h (2 * m + 1))) as [-> | ->].
    + destruct (IH _ ltac:(lia) H1) as (slot & Hs & E & ->). exists slot. rewrite game_at_S, E. split_and!; [lia.. | | done].
      rewrite Z.mul_comm, Z.div_mul; lia.
    + destruct (IH _ ltac:(lia) H2) as (slot & Hs & E & ->). exists slot. rewrite game_at_S, E. split_and!; [lia.. | | done].
      symmetry. apply Z.div_unique with 1; lia.
Qed.

Lemma winner_of_le cur h slot :
  (h <= S k)%nat -> 0 <= slot < FANOUT -> rle (winner_of cur h (game_at h slot)) (cur slot).
Proof.
  intros Hh Hs. induction h as [| h IH].
  - rewrite game_at_0. cbn [winner_of]. replace (FANOUT + slot - FANOUT) with slot by lia. apply rle_refl.
  - cbn [winner_of]. eapply rle_trans; [| apply IH; lia]. rewrite game_at_S.
    pose proof (Z.div_mod (game_at h slot) 2 ltac:(lia)). pose proof (Z.mod_pos_bound (game_at h slot) 2 ltac:(lia)).
    assert (game_at h slot = 2 * (game_at h slot / 2) \/ game_at h slot = 2 * (game_at h slot / 2) + 1) as [E | E] by lia.
    + rewrite <- E. apply rmin_l.
    + rewrite <- E. apply rmin_r.
Qed.

(** The overall winner is the smallest player; its slot wins all of its games. *)
Lemma winner_of_root cur slot :
  0 <= slot < FANOUT -> rle (winner_of cur (S k) 1) (cur slot).
Proof. intros Hs. rewrite <- (game_at_root slot Hs). by apply winner_of_le. Qed.

Lemma at_height_root : at_height (S k) 1.
Proof. unfold at_height. rewrite Nat.sub_diag. cbn. lia. Qed.

Lemma winner_of_root_slot cur : exists slot, 0 <= slot < FANOUT /\ winner_of cur (S k) 1 = cur slot.
Proof. destruct (winner_of_slot cur (S k) 1) as (slot & ? & _ & ?); [lia | apply at_height_root |]. by exists slot. Qed.

Lemma winner_of_path cur h slot :
  (h <= S k)%nat -> 0 <= slot < FANOUT -> winner_of cur (S k) 1 = cur slot -> winner_of cur h (game_at h slot) = cur slot.
Proof.
  intros Hh Hs Hw. apply rle_antisym; [by apply winner_of_le |].
  destruct (winner_of_slot cur h (game_at h slot)) as (slot' & Hs' & _ & ->); [done | by apply game_at_height |].
  rewrite <- Hw. by apply winner_of_root.
Qed.

(** A winner depends on the slots of its game only. *)
Lemma winner_of_ext cur cur' h m :
  (h <= S k)%nat -> at_height h m ->
  (forall slot, 0 <= slot < FANOUT -> game_at h slot = m -> cur slot = cur' slot) ->
  winner_of cur h m = winner_of cur' h m.
Proof.
  revert m. induction h as [| h IH]; intros m Hh Hm He.
  - unfold at_height in Hm. rewrite Nat.sub_0_r, <- HF in Hm. cbn [winner_of]. apply He; [lia |]. rewrite game_at_0. lia.
  - destruct (at_height_child h m) as [H1 H2]; [lia | done |]. cbn [winner_of]. f_equal; apply IH; try done; try lia.
    + intros slot Hs E. apply He; [done |]. rewrite game_at_S, E. rewrite Z.mul_comm, Z.div_mul; lia.
    + intros slot Hs E. apply He; [done |]. rewrite game_at_S, E. symmetry. apply Z.div_unique with 1; lia.
Qed.

Lemma at_height_exists m : 1 <= m < FANOUT -> exists h, (h <= k)%nat /\ at_height (S h) m.
Proof.
  intros Hm. destruct (Z.log2_spec m) as [H1 H2]; [lia |].
  assert (0 <= Z.log2 m) by apply Z.log2_nonneg.
  assert (Z.log2 m < Z.of_nat (S k)) as Hl.
  { destruct (Z.lt_ge_cases (Z.log2 m) (Z.of_nat (S k))) as [| Hge]; [done |].
    assert (2 ^ Z.of_nat (S k) <= 2 ^ Z.log2 m) by (apply Z.pow_le_mono_r; lia). lia. }
  exists (k - Z.to_nat (Z.log2 m))%nat. split; [lia |]. unfold at_height.
  replace (Z.of_nat (S k - S (k - Z.to_nat (Z.log2 m)))) with (Z.log2 m) by lia.
  rewrite <- Z.pow_succ_r by lia. lia.
Qed.

Lemma at_height_range h m : (h <= k)%nat -> at_height (S h) m -> 1 <= m < FANOUT.
Proof.
  intros Hh [H1 H2]. pose proof (pow2_pos (S k - S h)). split; [lia |]. rewrite HF.
  assert (2 ^ Z.of_nat (S (S k - S h)) <= 2 ^ Z.of_nat (S k)) as Hle by (apply Z.pow_le_mono_r; lia).
  rewrite (pow2_succ (S k - S h)) in Hle. lia.
Qed.

(** ** The array of the losers *)

Definition games_ok cur losers : Prop :=
  Z.of_nat (length losers) = FANOUT - 1 /\
  forall h m, (h <= k)%nat -> at_height (S h) m -> losers !! Z.to_nat (m - 1) = Some (loser_of cur h m).

(** Storing at the index of a game. *)
Lemma lookup_game (l : list RunElement) m m' x :
  1 <= m <= Z.of_nat (length l) -> 1 <= m' ->
  <[Z.to_nat (m - 1) := x]> l !! Z.to_nat (m' - 1) = if decide (m' = m) then Some x else l !! Z.to_nat (m' - 1).
Proof.
  intros Hm Hm'. case_decide as E; [subst; apply list_lookup_insert_eq; lia | apply list_lookup_insert_ne; lia].
Qed.

Lemma store_game_Some (games : Games * Games) m loser winner :
  1 <= m <= Z.of_nat (length (fst games)) -> length (snd games) = length (fst games) ->
  store_game games (m - 1) loser winner =
    Some (<[Z.to_nat (m - 1) := loser]> (fst games), <[Z.to_nat (m - 1) := winner]> (snd games)).
Proof. intros Hm Hl. unfold store_game. rewrite !zstore_Some by lia. done. Qed.

(** The games from [m] on have been played. *)
Definition played cur (games : Games * Games) m : Prop :=
  Z.of_nat (length (fst games)) = FANOUT - 1 /\ length (snd games) = length (fst games) /\
  forall h m', (h <= k)%nat -> at_height (S h) m' -> m <= m' ->
    fst games !! Z.to_nat (m' - 1) = Some (loser_of cur h m') /\
    snd games !! Z.to_nat (m' - 1) = Some (winner_of cur (S h) m').

Lemma played_upper cur games m :
  1 <= m < 2 ^ Z.of_nat k -> played cur games (m + 1) ->
  exists games', upper_game games (m - 1) = Some games' /\ played cur games' m.
Proof.
  intros Hm (Hl & Hl2 & Hp). pose proof FANOUT_pos as HF2. pose proof HF as HF'. rewrite pow2_succ in HF'.
  destruct (at_height_exists m) as (h & Hh & Hmh); [lia |].
  destruct h as [| h]; [unfold at_height in Hmh; rewrite Nat.sub_succ, Nat.sub_0_r in Hmh; lia |].
  destruct (at_height_child (S h) m) as [Hc1 Hc2]; [lia | done |].
  destruct (Hp h (2 * m) ltac:(lia) Hc1 ltac:(lia)) as [_ E1]. destruct (Hp h (2 * m + 1) ltac:(lia) Hc2 ltac:(lia)) as [_ E2].
  unfold upper_game, zload. rewrite !decide_True by lia.
  replace ((m - 1) * 2 + 1) with (2 * m - 1) by lia. rewrite E1. cbn [mbind option_bind].
  replace ((m - 1) * 2 + 2) with (2 * m + 1 - 1) by lia. rewrite E2. cbn [mbind option_bind].
  destruct (play _ _) as [loser winner] eqn:Epl. rewrite store_game_Some by lia. eexists. split; [done |].
  split_and!; cbn [fst snd]; rewrite ?length_insert; [done.. |].
  intros h' m' Hh' Hm' Hle. pose proof (at_height_range h' m' Hh' Hm').
  rewrite !lookup_game by lia. case_decide as Em; [| apply Hp; (done || lia)]. subst m'.
  assert (h' = S h) as -> by (enough (S h' = S (S h)) by lia; apply (at_height_inj _ _ m); done || lia).
  change (winner_of cur (S (S h)) m) with (rmin (winner_of cur (S h) (2 * m)) (winner_of cur (S h) (2 * m + 1))).
  unfold loser_of, rmax, rmin. by rewrite Epl.
Qed.

(** The first round: the games of the slots. *)
Lemma played_first cur elements games m :
  Z.of_nat (length elements) = FANOUT -> (forall i, 0 <= i < FANOUT -> elements !! Z.to_nat i = Some (cur i)) ->
  2 ^ Z.of_nat k <= m < FANOUT ->
  Z.of_nat (length (fst games)) = FANOUT - 1 -> length (snd games) = length (fst games) ->
  (forall m', 2 ^ Z.of_nat k <= m' < m ->
    fst games !! Z.to_nat (m' - 1) = Some (loser_of cur 0 m') /\ snd games !! Z.to_nat (m' - 1) = Some (winner_of cur 1 m')) ->
  exists games', first_game (2 ^ Z.of_nat k - 1) elements games (m - 2 ^ Z.of_nat k) = Some games' /\
    Z.of_nat (length (fst games')) = FANOUT - 1 /\ length (snd games') = length (fst games') /\
    (forall m', 2 ^ Z.of_nat k <= m' < m + 1 ->
      fst games' !! Z.to_nat (m' - 1) = Some (loser_of cur 0 m') /\ snd games' !! Z.to_nat (m' - 1) = Some (winner_of cur 1 m')).
Proof.
  intros He Hcur Hm Hl Hl2 Hp. pose proof HF as HF'. rewrite pow2_succ in HF'. pose proof (pow2_pos k).
  unfold first_game, zload. rewrite !decide_True, !Hcur by lia. cbn [mbind option_bind].
  destruct (play _ _) as [loser winner] eqn:Epl.
  replace (2 ^ Z.of_nat k - 1 + (m - 2 ^ Z.of_nat k)) with (m - 1) by lia. rewrite store_game_Some by lia.
  eexists. split; [done |]. cbn [fst snd]. rewrite !length_insert. split_and!; [done.. |].
  intros m' Hm'. rewrite !lookup_game by lia. case_decide as Em; [| apply Hp; lia]. subst m'.
  unfold loser_of. cbn [winner_of]. unfold rmax, rmin.
  replace (2 * m - FANOUT) with ((m - 2 ^ Z.of_nat k) * 2 + 0) by lia.
  replace (2 * m + 1 - FANOUT) with ((m - 2 ^ Z.of_nat k) * 2 + 1) by lia. by rewrite Epl.
Qed.

Lemma StartGames_ok cur elements losers winners sentinel :
  Z.of_nat (length elements) = FANOUT -> (forall i, 0 <= i < FANOUT -> elements !! Z.to_nat i = Some (cur i)) ->
  Z.of_nat (length losers) = FANOUT - 1 -> length winners = length losers ->
  exists losers', StartGames losers winners elements sentinel = Some (losers', winner_of cur (S k) 1) /\ games_ok cur losers'.
Proof.
  intros He Hcur Hl Hl2. pose proof HF as HF'. rewrite pow2_succ in HF'. pose proof (pow2_pos k).
  unfold StartGames. rewrite He, Hl.
  replace ((FANOUT - 1) / 2) with (2 ^ Z.of_nat k - 1) by zdm. replace (FANOUT / 2) with (2 ^ Z.of_nat k) by zdm.
  replace ((FANOUT + 1) / 2) with (2 ^ Z.of_nat k) by zdm. replace ((FANOUT - 1 + 1) / 2) with (2 ^ Z.of_nat k) by zdm.
  rewrite (zrange_nil (2 ^ Z.of_nat k)) by lia. replace (FANOUT mod 2) with 0 by zdm. cbn [Z.eqb].
  destruct (ofold_zrange_inv (first_game (2 ^ Z.of_nat k - 1) elements) (fun i games =>
    Z.of_nat (length (fst games)) = FANOUT - 1 /\ length (snd games) = length (fst games) /\
    (forall m', 2 ^ Z.of_nat k <= m' < 2 ^ Z.of_nat k + i ->
      fst games !! Z.to_nat (m' - 1) = Some (loser_of cur 0 m') /\ snd games !! Z.to_nat (m' - 1) = Some (winner_of cur 1 m')))
    0 (2 ^ Z.of_nat k) (losers, winners)) as (games & -> & Hg1 & Hg2 & Hg).
  { lia. }
  { cbn [fst snd]. split_and!; [done.. | lia]. }
  { intros i games Hi (H1 & H2 & H3). destruct (played_first cur elements games (2 ^ Z.of_nat k + i)) as (games' & E & H4); try done; [lia |].
    replace (2 ^ Z.of_nat k + i - 2 ^ Z.of_nat k) with i in E by lia. exists games'. split; [done |].
    by rewrite Z.add_assoc. }
  cbn [mbind option_bind ofold foldl].
  assert (played cur games (2 ^ Z.of_nat k)) as Hp.
  { split_and!; [done.. |]. intros h m Hh Hm Hle. pose proof (at_height_range h m Hh Hm).
    rewrite (at_height_inj (S h) 1 m); [| lia.. | done | unfold at_height; rewrite Nat.sub_succ, Nat.sub_0_r; lia].
    assert (h = 0)%nat as -> by (enough (S h = 1)%nat by lia; apply (at_height_inj _ _ m); [lia.. | done | unfold at_height; rewrite Nat.sub_succ, Nat.sub_0_r; lia]).
    apply Hg. lia. }
  destruct (ofold_down_inv upper_game (fun i games => played cur games (i + 1)) 0 (2 ^ Z.of_nat k - 1) games)
    as (games' & -> & Hl' & Hl2' & Hp'); [lia | by rewrite Z.sub_add | |].
  { intros i games' Hi Hp'. destruct (played_upper cur games' (i + 1)) as (g & E & ?); [lia | done |].
    rewrite Z.add_simpl_r in E. by exists g. }
  cbn [mbind option_bind]. unfold zload. rewrite decide_True by lia. change (Z.to_nat 0) with (Z.to_nat (1 - 1)).
  destruct (Hp' k 1) as [_ ->]; [lia | apply at_height_root | lia |]. cbn [mbind option_bind].
  eexists. split; [done |]. split; [done |]. intros h m Hh Hm. pose proof (at_height_range h m Hh Hm).
  by apply Hp'; try lia.
Qed.

(** ** Replaying the games of a slot *)

(** The next player of a slot. *)
Definition moved cur slot (v : RunElement) : Z -> RunElement := fun i => if i =? slot then v else cur i.

(** The other part of a game on the path of a slot. *)
Lemma sibling_unchanged cur slot v h m :
  (h <= k)%nat -> 0 <= slot < FANOUT -> at_height h m -> m <> game_at h slot ->
  winner_of (moved cur slot v) h m = winner_of cur h m.
Proof.
  intros Hh Hs Hm Hne. apply winner_of_ext; [lia | done |]. intros i Hi E. unfold moved.
  destruct (Z.eqb_spec i slot) as [-> |]; [by destruct Hne | done].
Qed.

(** Replaying the game above [h]: the old loser is the winner of the other part. *)
Lemma replay_game cur slot v h :
  (h <= k)%nat -> 0 <= slot < FANOUT -> winner_of cur (S k) 1 = cur slot ->
  let m := game_at (S h) slot in
  let smallest := winner_of (moved cur slot v) h (game_at h slot) in
  rmax (loser_of cur h m) smallest = loser_of (moved cur slot v) h m /\
  rmin (loser_of cur h m) smallest = winner_of (moved cur slot v) (S h) m.
Proof.
  intros Hh Hs Hw m smallest. pose proof (game_at_height (S h) slot ltac:(lia) Hs) as Hm. fold m in Hm.
  destruct (at_height_child h m) as [H1 H2]; [lia | done |].
  assert (m = game_at h slot / 2) as Em by apply game_at_S.
  pose proof (Z.div_mod (game_at h slot) 2 ltac:(lia)). pose proof (Z.mod_pos_bound (game_at h slot) 2 ltac:(lia)).
  assert (forall m', at_height h m' -> rle (cur slot) (winner_of cur h m')) as Hle.
  { intros m' Hm'. destruct (winner_of_slot cur h m') as (i & Hi & _ & ->); [lia | done |]. rewrite <- Hw. by apply winner_of_root. }
  pose proof (winner_of_path cur h slot ltac:(lia) Hs Hw) as Hpath. unfold loser_of. cbn [winner_of].
  assert (game_at h slot = 2 * m \/ game_at h slot = 2 * m + 1) as [E | E] by lia.
  - unfold smallest. rewrite E in Hpath |- *. rewrite (sibling_unchanged cur slot v h (2 * m + 1)) by (done || lia).
    rewrite Hpath, (rmax_of_le (cur slot)) by (by apply Hle). split; [apply rmax_comm | apply rmin_comm].
  - unfold smallest. rewrite E in Hpath |- *. rewrite (sibling_unchanged cur slot v h (2 * m)) by (done || lia).
    rewrite Hpath, (rmax_comm _ (cur slot)), (rmax_of_le (cur slot)) by (by apply Hle). done.
Qed.

(** The games on the path of the slot from height [h] on still have their old losers. *)
Definition replayed cur slot v h losers : Prop :=
  Z.of_nat (length losers) = FANOUT - 1 /\
  forall h' m, (h' <= k)%nat -> at_height (S h') m ->
    losers !! Z.to_nat (m - 1) =
      Some (if decide ((h <= h')%nat /\ m = game_at (S h') slot) then loser_of cur h' m
            else loser_of (moved cur slot v) h' m).

Lemma replay_ok cur slot v fuel h losers :
  0 <= slot < FANOUT -> winner_of cur (S k) 1 = cur slot -> (h <= k)%nat -> (k - h < fuel)%nat ->
  replayed cur slot v h losers ->
  exists losers', replay fuel losers (game_at h slot - 1) (winner_of (moved cur slot v) h (game_at h slot)) =
    Some (losers', winner_of (moved cur slot v) (S k) 1) /\ games_ok (moved cur slot v) losers'.
Proof.
  intros Hs Hw. revert h losers. induction fuel as [| fuel IH]; intros h losers Hh Hf (Hl & Hlos); [lia |].
  pose proof (game_at_height (S h) slot ltac:(lia) Hs) as Hm. pose proof (at_height_range h _ Hh Hm) as Hr.
  pose proof (game_at_S h slot) as Em. cbn [replay].
  replace ((game_at h slot - 1 - 1) / 2) with (game_at (S h) slot - 1) by (rewrite Em; zdm).
  unfold zload. rewrite decide_True, (Hlos h _ Hh Hm), decide_True by (done || lia). cbn [mbind option_bind].
  destruct (replay_game cur slot v h Hh Hs Hw) as [E1 E2]. cbn zeta in E1, E2.
  set (m := game_at (S h) slot) in *. set (smallest := winner_of _ h _) in *. set (loser := loser_of cur h m) in *.
  assert (exists losers', (if CompareElements loser smallest
      then losers ← zstore losers (m - 1) smallest; Some (losers, loser) else Some (losers, smallest)) =
    Some (losers', winner_of (moved cur slot v) (S h) m) /\ replayed cur slot v (S h) losers') as (losers' & -> & Hrep).
  { exists (<[Z.to_nat (m - 1) := loser_of (moved cur slot v) h m]> losers). split.
    - pose proof (eq_trans (play_again loser smallest) (f_equal2 pair E1 E2)) as Hpl.
      pose proof (f_equal fst Hpl) as H1. pose proof (f_equal snd Hpl) as H2. clear Hpl E1 E2.
      destruct (CompareElements loser smallest); cbn [fst snd] in H1, H2; rewrite <- H1, <- H2.
      + rewrite zstore_Some by lia. done.
      + rewrite list_insert_id; [done |]. unfold loser. rewrite (Hlos h m Hh Hm), decide_True; done.
    - split; [by rewrite length_insert |]. intros h' m' Hh' Hm'. pose proof (at_height_range h' m' Hh' Hm').
      rewrite lookup_game by lia. case_decide as E.
      + subst m'. assert (h' = h) as -> by (enough (S h' = S h) by lia; apply (at_height_inj _ _ m); done || lia).
        rewrite decide_False; [done | lia].
      + rewrite (Hlos h' m') by done. f_equal. apply decide_ext. split; intros [H1 H2]; split; try done; [| lia].
        destruct (decide (h' = h)) as [-> |]; [by destruct E | lia]. }
  cbn [mbind option_bind]. destruct (decide (h = k)) as [-> | Hne].
  - unfold m. rewrite game_at_root by done. cbn [Z.sub Z.eqb Z.pos_sub]. exists losers'. split; [done |].
    destruct Hrep as [Hl' Hrep]. split; [done |]. intros h' m' Hh' Hm'. rewrite (Hrep h' m') by done. rewrite decide_False by lia. done.
  - assert (m <> 1) as Hm1.
    { intros E. destruct Hm as [Hm1 _]. rewrite E in Hm1.
      assert (2 ^ 1 <= 2 ^ Z.of_nat (S k - S h)) by (apply Z.pow_le_mono_r; lia). lia. }
    rewrite (proj2 (Z.eqb_neq _ 0)) by lia. apply IH; [lia | lia | done].
Qed.

Lemma ReplayGames_ok cur slot v losers :
  0 <= slot < FANOUT -> winner_of cur (S k) 1 = cur slot -> games_ok cur losers ->
  exists losers', ReplayGames losers slot v = Some (losers', winner_of (moved cur slot v) (S k) 1) /\
    games_ok (moved cur slot v) losers'.
Proof.
  intros Hs Hw [Hl Hlos]. unfold ReplayGames. rewrite Hl.
  replace (slot + (FANOUT - 1)) with (game_at 0 slot - 1) by (rewrite game_at_0; lia).
  assert (v = winner_of (moved cur slot v) 0 (game_at 0 slot)) as Ev.
  { cbn [winner_of]. rewrite game_at_0. unfold moved. replace (FANOUT + slot - FANOUT) with slot by lia. by rewrite Z.eqb_refl. }
  pose proof (replay_ok cur slot v (S (length losers)) 0 losers) as H. rewrite <- Ev in H. apply H; [done.. | lia | |]; clear H.
  - pose proof (Z.pow_gt_lin_r 2 (Z.of_nat (S k)) ltac:(lia) ltac:(lia)). rewrite <- HF in *. lia.
  - split; [done |]. intros h m Hh Hm. rewrite (Hlos h m Hh Hm). case_decide as E; [done |].
    unfold loser_of. destruct (at_height_child h m) as [H1 H2]; [lia | done |].
    assert (m <> game_at (S h) slot) as Hne by (intros ->; apply E; split; [lia | done]). rewrite game_at_S in Hne.
    rewrite !sibling_unchanged; try done; try lia; intros Eg; apply Hne; rewrite <- Eg; zdm.
Qed.
End games.
