(* ===== verification/MergeSortRuns.v ===== *)
(** * The runs of a merge sort tree

    What a complete level is: its runs are sorted and have the leaves of their part, and
    the cascading pointers of a run say, for every [CASCADING]-th element, how many of
    the elements before it come from each child run.  [BuildRun] makes a run from its
    child runs. *)

From S2P Require Import Prelude Validity MaskSearch Boundaries RangeSearch Aggregates MergeSortTree MergeSortGames.

(** The template parameters are powers of two, and the numbers of child runs are less than
    the largest [idx_t]; offsets have at most 64 bits. *)
Class MergeSortTraitsOk {traits : MergeSortTraits} (k c : nat) : Prop := {
  FANOUT_eq : FANOUT = 2 ^ Z.of_nat (S k);
  CASCADING_eq : CASCADING = 2 ^ Z.of_nat c;
  FANOUT_max : FANOUT <= idx_max;
  offset_max : offset_bits <= 64;
  element_range : 1 <= element_bits <= 64
}.

#[export] Instance MergeSortTree32_ok : @MergeSortTraitsOk MergeSortTree32 4 5.
Proof. by split. Qed.

#[export] Instance MergeSortTree64_ok : @MergeSortTraitsOk MergeSortTree64 4 5.
Proof. by split. Qed.

(** How many elements of a part are below a needle. *)
Definition count_lt (l : list Z) (needle a b : Z) : Z := zcount (fun i => znth 0 l i <? needle) a b.

(** ** Numbers *)

Lemma zsum_zero {A} (l : list A) : zsum (fun _ => 0) l = 0.
Proof. induction l as [| x l IH]; [done |]. by rewrite zsum_cons, IH. Qed.

Section numbers.
Context {traits : MergeSortTraits} {k c : nat} `{!MergeSortTraitsOk k c} (size : nat).
Abbreviation n := (Z.of_nat size).
Implicit Types (l : nat) (r p e x : Z) (els cas : list Z).

Definition width l : Z := FANOUT ^ Z.of_nat l.

(** Run [r] of level [l] is [[run_begin l r, run_begin l (r + 1))]. *)
Definition run_begin l r : Z := Z.min (r * width l) n.

(** The number of elements of a run, and the first cascading pointer for element [j * CASCADING]. *)
Definition run_size l r : Z := run_begin l (r + 1) - run_begin l r.

Definition cascade_row l r (j : Z) : Z := FANOUT * (r * (width l / CASCADING + 2) + j).

Definition rows (len : Z) : Z := (len + CASCADING - 1) / CASCADING.

Lemma FANOUT_ge : 2 <= FANOUT.
Proof. rewrite FANOUT_eq, pow2_succ. pose proof (pow2_pos k). lia. Qed.

Lemma CASCADING_pos : 1 <= CASCADING.
Proof. rewrite CASCADING_eq. pose proof (pow2_pos c). lia. Qed.

Lemma run_width_pos l : 1 <= width l.
Proof. unfold width. pose proof FANOUT_ge. pose proof (Z.pow_pos_nonneg FANOUT (Z.of_nat l)). lia. Qed.

Lemma width_S l : width (S l) = width l * FANOUT.
Proof. unfold width. rewrite Nat2Z.inj_succ, Z.pow_succ_r by lia. lia. Qed.

Lemma run_lengths_width l : run_lengths (S l) = (width l, width (S l)).
Proof.
  induction l as [| l IH]; [rewrite width_S; unfold width; cbn [Z.of_nat]; rewrite Z.pow_0_r, Z.mul_1_l; done |].
  change (run_lengths (S (S l))) with (let '(_, run_length) := run_lengths (S l) in (run_length, run_length * FANOUT)).
  by rewrite IH, (width_S (S l)).
Qed.

(** Cascading pointers are only kept for runs that are multiples of [CASCADING]. *)
Lemma width_divide l : CASCADING < width l -> (CASCADING | width l).
Proof.
  unfold width. rewrite FANOUT_eq, CASCADING_eq, <- Z.pow_mul_r by lia. intros Hlt.
  apply Z.pow_lt_mono_r_iff in Hlt; [| lia..].
  exists (2 ^ (Z.of_nat (S k) * Z.of_nat l - Z.of_nat c)). rewrite <- Z.pow_add_r by lia. f_equal. lia.
Qed.

Lemma run_begin_range l r : 0 <= r -> 0 <= run_begin l r <= n.
Proof. intros Hr. pose proof (run_width_pos l). unfold run_begin. nia. Qed.

Lemma run_begin_mono l r r' : 0 <= r <= r' -> run_begin l r <= run_begin l r'.
Proof. intros Hr. pose proof (run_width_pos l). unfold run_begin. nia. Qed.

Lemma run_begin_child l r : run_begin (S l) r = run_begin l (r * FANOUT).
Proof. unfold run_begin. rewrite width_S. f_equal. lia. Qed.

Lemma run_begin_small l r : r * width l <= n -> run_begin l r = r * width l.
Proof. unfold run_begin. lia. Qed.

Lemma run_size_range l r : 0 <= r -> 0 <= run_size l r <= width l.
Proof. intros Hr. pose proof (run_width_pos l). unfold run_size, run_begin. lia. Qed.

Lemma count_lt_le els x a b : 0 <= count_lt els x a b <= Z.max 0 (b - a).
Proof. split; [apply zcount_nonneg | apply zcount_le]. Qed.

Lemma count_lt_split els x a m b : a <= m <= b -> count_lt els x a b = count_lt els x a m + count_lt els x m b.
Proof. apply zcount_split. Qed.

End numbers.

(** ** Runs and pointers *)

Section runs.
Context {traits : MergeSortTraits} {k c : nat} `{!MergeSortTraitsOk k c} (leaves : list Z).
Context (Hn : Z.of_nat (length leaves) < 2 ^ offset_bits).
Context (Hleaves : Forall (fun v => v < 2 ^ element_bits) leaves).
Abbreviation n := (Z.of_nat (length leaves)).
Abbreviation run_begin := (run_begin (length leaves)).
Abbreviation run_size := (run_size (length leaves)).
Implicit Types (l : nat) (r p e x : Z) (els cas : list Z).

Definition run_ok l els r : Prop :=
  sorted_on Z.ltb (znth 0 els) (run_begin l r) (run_begin l (r + 1)) /\
  forall x, count_lt els x (run_begin l r) (run_begin l (r + 1)) = count_lt leaves x (run_begin l r) (run_begin l (r + 1)).

(** The pointers at [row] divide the first [len] elements of run [r] of level [S l]. *)
Definition row_ok l els child row r (len : Z) cas : Prop :=
  let v i := znth 0 cas (row + i) in
  (forall i, 0 <= i < FANOUT -> run_begin l (r * FANOUT + i) <= v i <= run_begin l (r * FANOUT + i + 1)) /\
  zsum (fun i => v i - run_begin l (r * FANOUT + i)) (zrange 0 FANOUT) = len /\
  forall x, count_lt els x (run_begin (S l) r) (run_begin (S l) r + len) =
    zsum (fun i => count_lt child x (run_begin l (r * FANOUT + i)) (v i)) (zrange 0 FANOUT).

Definition cascades_ok l els child r cas : Prop :=
  forall j, 0 <= j < rows (run_size (S l) r) + 2 ->
    row_ok l els child (cascade_row (S l) r j) r (Z.min (j * CASCADING) (run_size (S l) r)) cas.

(** The elements of a run are values of leaves. *)
Lemma run_ok_max l els r p :
  0 <= r -> run_ok l els r -> run_begin l r <= p < run_begin l (r + 1) -> znth 0 els p < 2 ^ element_bits.
Proof.
  intros Hr [_ Hc] Hp. specialize (Hc (2 ^ element_bits)).
  assert (count_lt leaves (2 ^ element_bits) (run_begin l r) (run_begin l (r + 1)) = run_begin l (r + 1) - run_begin l r) as E.
  { apply zcount_all; [lia |]. intros i Hi. apply Z.ltb_lt.
    pose proof (run_begin_range (length leaves) l r Hr). pose proof (run_begin_range (length leaves) l (r + 1) ltac:(lia)).
    rewrite Forall_forall in Hleaves. apply Hleaves. unfold znth.
    destruct (lookup_lt_is_Some_2 leaves (Z.to_nat i)) as [v Ev]; [lia |]. rewrite Ev. by eapply list_elem_of_lookup_2. }
  rewrite E in Hc. unfold count_lt in Hc. destruct (Z.ltb_spec (znth 0 els p) (2 ^ element_bits)) as [| Hge]; [done |].
  rewrite (zcount_split _ _ p _), (zcount_cons _ p) in Hc by lia.
  rewrite (proj2 (Z.ltb_ge _ _) Hge) in Hc. cbn [Z.b2z] in Hc.
  pose proof (zcount_le (fun i => znth 0 els i <? 2 ^ element_bits) (run_begin l r) p).
  pose proof (zcount_le (fun i => znth 0 els i <? 2 ^ element_bits) (p + 1) (run_begin l (r + 1))). lia.
Qed.
End runs.

(** ** Writing pointers *)

Section push.
Context {traits : MergeSortTraits} (Hfan : 0 <= FANOUT).

Lemma push_cascades_row (lo hi : Z -> Z) gs els cas e q :
  0 <= q -> q + FANOUT <= Z.of_nat (length cas) ->
  exists cas', push_cascades (mkRun ((fun i => (lo i, hi i)) <$> zrange 0 FANOUT) gs els cas e q) =
      Some (mkRun ((fun i => (lo i, hi i)) <$> zrange 0 FANOUT) gs els cas' e (q + FANOUT)) /\
    length cas' = length cas /\
    forall j, 0 <= j -> znth 0 cas' j = if decide (q <= j < q + FANOUT) then lo (j - q) else znth 0 cas j.
Proof.
  intros Hq Hl. unfold push_cascades. cbn [bounds games run_elements run_cascades element_idx cascade_idx].
  rewrite ofold_fmap.
  destruct (ofold_zrange_inv (fun s i => (fun '(cascades, cascade_idx) (b : Z * Z) =>
      cascades ← zstore cascades cascade_idx (fst b); Some (cascades, cascade_idx + 1)) s (lo i, hi i))
    (fun i s => snd s = q + i /\ length (fst s) = length cas /\
      forall j, 0 <= j -> znth 0 (fst s) j = if decide (q <= j < q + i) then lo (j - q) else znth 0 cas j)
    0 FANOUT (cas, q)) as ([cas' q'] & E & Hq' & Hl' & Hj).
  - lia.
  - cbn [fst snd]. split_and!; [lia | done |]. intros j Hj. rewrite decide_False by lia. done.
  - intros i [cs qi] Hi (Hqi & Hli & Hji). cbn [fst snd] in *. subst qi. rewrite zstore_Some by lia. cbn [mbind option_bind].
    eexists. split; [done |]. cbn [fst snd]. rewrite length_insert. split_and!; [lia | done |].
    intros j Hj. rewrite znth_insert, Hji by lia. repeat case_decide; try lia; try done. f_equal. lia.
  - cbn [fst snd] in *. rewrite E. cbn [mbind option_bind]. exists cas'. subst q'. done.
Qed.
End push.

(** ** Merging the child runs *)

Section merge.
Context {traits : MergeSortTraits} {k c : nat} `{!MergeSortTraitsOk k c} (leaves : list Z).
Context (Hn : Z.of_nat (length leaves) < 2 ^ offset_bits).
Context (Hleaves : Forall (fun v => v < 2 ^ element_bits) leaves).
Abbreviation n := (Z.of_nat (length leaves)).
Abbreviation run_begin := (run_begin (length leaves)).
Abbreviation run_size := (run_size (length leaves)).
Abbreviation run_ok := (run_ok leaves).

(** The run [r] of level [S l] from the level [child]. *)
Context (l : nat) (r : Z) (child : list Z) (els0 cas0 : list Z).
Context (Hr : 0 <= r) (Hrun : r * width (S l) < Z.of_nat (length leaves)) (Hchild : length child = length leaves) (Hels0 : length els0 = length leaves).
Context (Hruns : forall r', 0 <= r' -> run_ok l child r').
Context (Hcas0 : cas0 = [] \/ (CASCADING < width (S l) /\
  cascade_row (S l) r (rows (run_size (S l) r) + 2) <= Z.of_nat (length cas0))).

Abbreviation first := (run_begin (S l) r).
#[local] Notation start i := (run_begin l (r * FANOUT + i)).
#[local] Notation stop i := (run_begin l (r * FANOUT + i + 1)).

Lemma start_range i : 0 <= i <= FANOUT -> first <= start i <= run_begin (S l) (r + 1).
Proof.
  intros Hi. rewrite !run_begin_child. split; apply run_begin_mono; pose proof FANOUT_ge; nia.
Qed.

Lemma start_mono i : 0 <= i -> start i <= stop i.
Proof. intros Hi. apply run_begin_mono. pose proof FANOUT_ge. nia. Qed.

Lemma sum_of_sizes : zsum (fun i => stop i - start i) (zrange 0 FANOUT) = run_size (S l) r.
Proof.
  pose proof FANOUT_ge. rewrite (zsum_ext _ (fun i => run_begin l (r * FANOUT + (i + 1)) - run_begin l (r * FANOUT + i)))
    by (intros i _; by rewrite Z.add_assoc).
  rewrite (zsum_telescope (fun i => run_begin l (r * FANOUT + i))) by lia. unfold run_size. rewrite !run_begin_child.
  f_equal; f_equal; lia.
Qed.

(** The next player of child [i] from position [p]. *)
Definition player (lo : Z -> Z) (i : Z) : RunElement :=
  if lo i <? stop i then (znth 0 child (lo i), i) else SENTINEL.

(** The state after [e - first] elements. *)
Record merge_inv (lo : Z -> Z) (winner : RunElement) (s : RunState) : Prop := {
  mi_cur : exists cur, (forall i, 0 <= i < FANOUT -> cur i = player lo i) /\ games_ok k cur (games s) /\
    winner = winner_of cur (S k) 1;
  mi_bounds : bounds s = (fun i => (lo i, stop i)) <$> zrange 0 FANOUT;
  mi_lo : forall i, 0 <= i < FANOUT -> start i <= lo i <= stop i;
  mi_sum : zsum (fun i => lo i - start i) (zrange 0 FANOUT) = element_idx s - first;
  mi_length : length (run_elements s) = length leaves;
  mi_outside : forall p, 0 <= p -> ~ (first <= p < element_idx s) -> znth 0 (run_elements s) p = znth 0 els0 p;
  mi_sorted : sorted_on Z.ltb (znth 0 (run_elements s)) first (element_idx s);
  mi_heads : forall p i, first <= p < element_idx s -> 0 <= i < FANOUT -> lo i < stop i ->
    znth 0 (run_elements s) p <= znth 0 child (lo i);
  mi_count : forall x, count_lt (run_elements s) x first (element_idx s) =
    zsum (fun i => count_lt child x (start i) (lo i)) (zrange 0 FANOUT);
  mi_cas_length : length (run_cascades s) = length cas0;
  mi_cas_outside : forall p, 0 <= p -> ~ (cascade_row (S l) r 0 <= p < cascade_row (S l) r (rows (run_size (S l) r) + 2)) ->
    znth 0 (run_cascades s) p = znth 0 cas0 p;
  mi_cas : cas0 <> [] ->
    cascade_idx s = cascade_row (S l) r (rows (element_idx s - first)) /\
    forall j, 0 <= j < rows (element_idx s - first) ->
      row_ok leaves l (run_elements s) child (cascade_row (S l) r j) r (j * CASCADING) (run_cascades s)
}.
(** *** Rows of pointers *)

Lemma rows_div len : rows len = len / CASCADING + (if len mod CASCADING =? 0 then 0 else 1).
Proof.
  unfold rows. pose proof CASCADING_pos as Hp. pose proof (Z_div_mod_eq_full len CASCADING) as E.
  assert (0 < CASCADING) as Hp' by lia. pose proof (Z.mod_pos_bound len CASCADING Hp') as Hm. symmetry.
  destruct (Z.eqb_spec (len mod CASCADING) 0).
  - apply Z.div_unique with (CASCADING - 1); lia.
  - apply Z.div_unique with (len mod CASCADING - 1); lia.
Qed.

Lemma rows_lt len j : 0 <= j -> (j < rows len <-> j * CASCADING < len).
Proof.
  intros Hj. unfold rows. pose proof CASCADING_pos. split; intros Hlt.
  - destruct (Z.lt_ge_cases (j * CASCADING) len) as [| Hge]; [done |].
    assert ((len + CASCADING - 1) / CASCADING < j + 1) by (apply Z.div_lt_upper_bound; lia). lia.
  - assert (j + 1 <= (len + CASCADING - 1) / CASCADING) by (apply Z.div_le_lower_bound; lia). lia.
Qed.

Lemma rows_S len : 0 <= len -> rows (len + 1) = rows len + (if len mod CASCADING =? 0 then 1 else 0).
Proof.
  intros Hl. rewrite (rows_div len). unfold rows. pose proof CASCADING_pos.
  replace (len + 1 + CASCADING - 1) with (len + 1 * CASCADING) by lia. rewrite Z.div_add by lia. case_if; lia.
Qed.

Lemma rows_exact len : 0 <= len -> len mod CASCADING = 0 -> rows len * CASCADING = len.
Proof.
  intros Hl Hm. rewrite rows_div, (proj2 (Z.eqb_eq _ 0) Hm). pose proof CASCADING_pos.
  pose proof (Z_div_mod_eq_full len CASCADING). lia.
Qed.

Lemma rows_mono len len' : len <= len' -> rows len <= rows len'.
Proof. intros ?. unfold rows. pose proof CASCADING_pos. apply Z.div_le_mono; lia. Qed.

Lemma rows_nonneg len : 0 <= len -> 0 <= rows len.
Proof. intros ?. unfold rows. pose proof CASCADING_pos. apply Z.div_pos; lia. Qed.

Lemma row_ok_ext els els' cas cas' row len :
  0 <= row ->
  (forall p, first <= p < first + len -> znth 0 els' p = znth 0 els p) ->
  (forall p, row <= p < row + FANOUT -> znth 0 cas' p = znth 0 cas p) ->
  row_ok leaves l els child row r len cas -> row_ok leaves l els' child row r len cas'.
Proof.
  intros Hrow He Hc (H1 & H2 & H3). unfold row_ok. split_and!.
  - intros i Hi. rewrite Hc by lia. by apply H1.
  - rewrite <- H2. apply zsum_ext. intros i Hi%elem_of_zrange. by rewrite Hc by lia.
  - intros x. transitivity (count_lt els x first (first + len)); [by apply zcount_ext; intros p Hp; rewrite He |].
    rewrite H3. apply zsum_ext. intros i Hi%elem_of_zrange. by rewrite Hc by lia.
Qed.

(** *** The winner *)

Lemma head_max lo i : 0 <= i < FANOUT -> start i <= lo i < stop i -> znth 0 child (lo i) < 2 ^ element_bits.
Proof.
  intros Hi Hlo. pose proof FANOUT_ge. apply (run_ok_max leaves Hleaves l child (r * FANOUT + i)); [nia | apply Hruns; nia | done].
Qed.

Lemma winner_slot lo winner s :
  merge_inv lo winner s -> winner <> SENTINEL ->
  exists i, 0 <= i < FANOUT /\ lo i < stop i /\ winner = (znth 0 child (lo i), i) /\
    forall j, 0 <= j < FANOUT -> lo j < stop j -> znth 0 child (lo i) <= znth 0 child (lo j).
Proof.
  intros Hi Hw. destruct (mi_cur _ _ _ Hi) as (cur & Hcur & _ & ->).
  destruct (winner_of_root_slot k FANOUT_eq cur) as (i & Hir & E). exists i. rewrite E in Hw |- *. rewrite Hcur in Hw |- * by done.
  unfold player in Hw |- *. destruct (Z.ltb_spec (lo i) (stop i)) as [Hlt |]; [| done]. split_and!; [lia.. | done |].
  intros j Hj Hlj. pose proof (winner_of_root k FANOUT_eq cur j Hj) as Hle. rewrite E, !Hcur in Hle by done. unfold player in Hle.
  rewrite (proj2 (Z.ltb_lt _ _) Hlt), (proj2 (Z.ltb_lt _ _) Hlj) in Hle. unfold rle in Hle. cbn [fst snd] in Hle. lia.
Qed.

Lemma winner_end lo s :
  merge_inv lo SENTINEL s -> forall i, 0 <= i < FANOUT -> lo i = stop i.
Proof.
  intros Hi i Hir. destruct (mi_cur _ _ _ Hi) as (cur & Hcur & _ & E).
  pose proof (winner_of_root k FANOUT_eq cur i Hir) as Hle. rewrite <- E, Hcur in Hle by done. unfold player in Hle.
  pose proof (mi_lo _ _ _ Hi i Hir). destruct (Z.ltb_spec (lo i) (stop i)) as [Hlt |]; [| lia]. exfalso.
  pose proof (head_max lo i Hir ltac:(lia)). pose proof FANOUT_max.
  unfold rle, SENTINEL in Hle. cbn [fst snd] in Hle. lia.
Qed.

Lemma element_idx_range lo winner s :
  merge_inv lo winner s -> first <= element_idx s <= run_begin (S l) (r + 1).
Proof.
  intros Hi. pose proof (mi_sum _ _ _ Hi) as Hs.
  assert (0 <= zsum (fun i => lo i - start i) (zrange 0 FANOUT)).
  { apply zsum_nonneg. intros i Hir%elem_of_zrange. pose proof (mi_lo _ _ _ Hi i Hir). lia. }
  assert (zsum (fun i => lo i - start i) (zrange 0 FANOUT) <= run_size (S l) r).
  { rewrite <- sum_of_sizes. apply zsum_le. intros i Hir%elem_of_zrange. pose proof (mi_lo _ _ _ Hi i Hir). lia. }
  unfold MergeSortRuns.run_size in *. lia.
Qed.

Lemma element_idx_lt lo winner s :
  merge_inv lo winner s -> winner <> SENTINEL -> element_idx s < run_begin (S l) (r + 1).
Proof.
  intros Hi Hw. destruct (winner_slot lo winner s Hi Hw) as (i & Hir & Hlt & _).
  pose proof (element_idx_range _ _ _ Hi). pose proof (mi_sum _ _ _ Hi) as Hs.
  destruct (decide (element_idx s = run_begin (S l) (r + 1))) as [E |]; [| lia]. exfalso.
  assert (lo i - start i = stop i - start i); [| lia].
  apply (zsum_le_eq (fun i => lo i - start i) (fun i => stop i - start i) (zrange 0 FANOUT)); [| | by apply elem_of_zrange].
  - intros j Hj%elem_of_zrange. pose proof (mi_lo _ _ _ Hi j Hj). lia.
  - rewrite Hs, sum_of_sizes, E. unfold MergeSortRuns.run_size. lia.
Qed.

(** *** The pointers at a fraction boundary *)

Lemma first_exact : first = r * width (S l).
Proof. apply run_begin_small. lia. Qed.

Lemma row_index j : 0 <= j -> cascade_row (S l) r (j + 1) = cascade_row (S l) r j + FANOUT.
Proof. intros Hj. unfold cascade_row. lia. Qed.

Lemma row_index_mono j j' : 0 <= j <= j' -> 0 <= cascade_row (S l) r 0 <= cascade_row (S l) r j /\ cascade_row (S l) r j <= cascade_row (S l) r j'.
Proof.
  intros Hj. unfold cascade_row. pose proof FANOUT_ge. pose proof CASCADING_pos. pose proof (run_width_pos (S l)).
  assert (0 <= width (S l) / CASCADING) by (apply Z.div_pos; lia). nia.
Qed.

Lemma row_ok_current lo winner s :
  merge_inv lo winner s -> forall row cas',
  (forall i, 0 <= i < FANOUT -> znth 0 cas' (row + i) = lo i) ->
  row_ok leaves l (run_elements s) child row r (element_idx s - first) cas'.
Proof.
  intros Hi row cas' Hc. unfold row_ok. split_and!.
  - intros i Hir. rewrite Hc by done. by apply (mi_lo _ _ _ Hi).
  - rewrite <- (mi_sum _ _ _ Hi). apply zsum_ext. intros i Hir%elem_of_zrange. by rewrite Hc.
  - intros x. replace (first + (element_idx s - first)) with (element_idx s) by lia. rewrite (mi_count _ _ _ Hi).
    apply zsum_ext. intros i Hir%elem_of_zrange. by rewrite Hc.
Qed.

Lemma push_step lo winner s :
  merge_inv lo winner s -> element_idx s < run_begin (S l) (r + 1) ->
  exists cas' q',
    (if has_cascades s && (element_idx s mod CASCADING =? 0) then push_cascades s else Some s) =
      Some (mkRun (bounds s) (games s) (run_elements s) cas' (element_idx s) q') /\
    length cas' = length cas0 /\
    (forall p, 0 <= p -> ~ (cascade_row (S l) r 0 <= p < cascade_row (S l) r (rows (run_size (S l) r) + 2)) ->
      znth 0 cas' p = znth 0 cas0 p) /\
    (cas0 <> [] -> q' = cascade_row (S l) r (rows (element_idx s - first + 1)) /\
      forall j, 0 <= j < rows (element_idx s - first + 1) ->
        row_ok leaves l (run_elements s) child (cascade_row (S l) r j) r (j * CASCADING) cas').
Proof.
  intros Hi Hlt. pose proof (element_idx_range _ _ _ Hi) as Her. pose proof FANOUT_ge. pose proof (mi_cas _ _ _ Hi) as Hcas.
  pose proof (mi_cas_length _ _ _ Hi) as Hcl.
  assert (has_cascades s = negb (bool_decide (cas0 = []))) as ->.
  { unfold has_cascades. f_equal. apply bool_decide_ext. rewrite <- !length_zero_iff_nil. lia. }
  case_bool_decide as Hc0; cbn [negb andb].
  { exists (run_cascades s), (cascade_idx s). split; [by destruct s |]. split; [done |]. split; [apply (mi_cas_outside _ _ _ Hi) | done]. }
  destruct (Hcas Hc0) as [Hq Hrows]. destruct Hcas0 as [-> | [Hw Hcl0]]; [done |].
  pose proof (width_divide (S l) Hw) as Hdiv. rewrite rows_S by lia.
  assert ((element_idx s - first) mod CASCADING = element_idx s mod CASCADING) as Em.
  { destruct Hdiv as [d Hd]. rewrite first_exact, Hd. replace (element_idx s - r * (d * CASCADING)) with (element_idx s + (- (r * d)) * CASCADING) by ring.
    apply Z_mod_plus_full. }
  rewrite <- Em. pose proof (rows_nonneg (element_idx s - first)) as Hrn. specialize (Hrn ltac:(lia)).
  assert (rows (element_idx s - first) + 1 <= rows (run_size (S l) r) + 1) as Hrle.
  { pose proof (rows_mono (element_idx s - first) (run_size (S l) r)). unfold MergeSortRuns.run_size in *. lia. }
  destruct (Z.eqb_spec ((element_idx s - first) mod CASCADING) 0) as [E0 | E0]; cycle 1.
  { exists (run_cascades s), (cascade_idx s). rewrite Z.add_0_r. split; [by destruct s |]. split; [done |].
    split; [apply (mi_cas_outside _ _ _ Hi) | done]. }
  set (j0 := rows (element_idx s - first)) in *. set (j1 := rows (run_size (S l) r)) in *.
  pose proof (row_index_mono j0 j0 ltac:(lia)) as [Hrow0 _].
  pose proof (row_index_mono (j0 + 1) (j1 + 2) ltac:(lia)) as [_ Hrow1].
  pose proof (row_index j0 ltac:(lia)) as Hrow2.
  assert (0 <= FANOUT) as Hfan by lia.
  destruct (push_cascades_row Hfan lo (fun i => stop i) (games s) (run_elements s) (run_cascades s) (element_idx s) (cascade_idx s))
    as (cas' & E & Hl' & Hc'); [lia.. |].
  exists cas', (cascade_idx s + FANOUT). split.
  { rewrite (mi_bounds _ _ _ Hi), <- E. f_equal. rewrite <- (mi_bounds _ _ _ Hi). by destruct s. }
  split; [lia |]. split.
  { intros p Hp Hout. rewrite Hc', decide_False by lia. by apply (mi_cas_outside _ _ _ Hi). }
  intros _. split; [lia |]. intros j Hj. destruct (decide (j < j0)) as [Hjlt | Hjge].
  - pose proof (row_index_mono j j ltac:(lia)) as [? _].
    pose proof (row_index_mono (j + 1) j0 ltac:(lia)) as [_ ?]. pose proof (row_index j ltac:(lia)).
    eapply (row_ok_ext (run_elements s) _ (run_cascades s)); [lia | done | | by apply Hrows; lia].
    intros p Hp. rewrite Hc', decide_False by lia. done.
  - replace j with j0 by lia. unfold j0 at 2. rewrite rows_exact by lia. rewrite <- Hq.
    eapply row_ok_current; [done |]. intros i Hir. rewrite Hc', decide_True by lia. f_equal. lia.
Qed.

(** *** One element *)

Lemma child_sorted i p q : 0 <= i < FANOUT -> start i <= p -> p <= q -> q < stop i -> znth 0 child p <= znth 0 child q.
Proof.
  intros Hi Hp Hpq Hq. destruct (decide (p = q)) as [-> |]; [lia |]. pose proof FANOUT_ge.
  destruct (Hruns (r * FANOUT + i)) as [Hs _]; [nia |]. specialize (Hs p q Hp ltac:(lia) Hq). by apply Z.ltb_ge in Hs.
Qed.

Lemma stop_le i : 0 <= i < FANOUT -> 0 <= start i /\ stop i <= n.
Proof.
  intros Hi. pose proof FANOUT_ge. pose proof (run_begin_range (length leaves) l (r * FANOUT + i)) as H1.
  pose proof (run_begin_range (length leaves) l (r * FANOUT + i + 1)) as H2. specialize (H1 ltac:(nia)). specialize (H2 ltac:(nia)). lia.
Qed.

(** Child [i] moves on. *)
Definition advance (lo : Z -> Z) (i : Z) : Z -> Z := fun j => if j =? i then lo i + 1 else lo j.

Lemma advance_here lo i : advance lo i i = lo i + 1.
Proof. unfold advance. by rewrite Z.eqb_refl. Qed.

Lemma advance_other lo i j : j <> i -> advance lo i j = lo j.
Proof. intros Hj. unfold advance. by rewrite (proj2 (Z.eqb_neq j i)). Qed.

Lemma next_player_ok lo i :
  0 <= i < FANOUT -> start i <= lo i < stop i -> next_player child (lo i + 1, stop i) i = Some (player (advance lo i) i).
Proof.
  intros Hi Hlo. pose proof (stop_le i Hi). unfold next_player, player. cbn [fst snd]. rewrite advance_here.
  case_if; [| done]. rewrite (zload_Some 0) by lia. done.
Qed.

Section step.
Context (lo : Z -> Z) (winner : RunElement) (s : RunState) (Hinv : merge_inv lo winner s).
Context (i : Z) (Hi : 0 <= i < FANOUT) (Hlt : lo i < stop i) (Hw : winner = (znth 0 child (lo i), i)).
Context (Hmin : forall j, 0 <= j < FANOUT -> lo j < stop j -> znth 0 child (lo i) <= znth 0 child (lo j)).
Context (He : element_idx s < run_begin (S l) (r + 1)).
Abbreviation v := (znth 0 child (lo i)).
Abbreviation els' := (<[Z.to_nat (element_idx s) := v]> (run_elements s)).

Lemma step_range : 0 <= element_idx s < Z.of_nat (length (run_elements s)) /\ start i <= lo i.
Proof.
  pose proof (element_idx_range _ _ _ Hinv). pose proof (mi_length _ _ _ Hinv) as ->.
  pose proof (run_begin_range (length leaves) (S l) r Hr). pose proof (run_begin_range (length leaves) (S l) (r + 1)) as H1.
  specialize (H1 ltac:(lia)). pose proof (mi_lo _ _ _ Hinv i Hi). lia.
Qed.

Lemma step_element p : 0 <= p -> znth 0 els' p = if decide (element_idx s = p) then v else znth 0 (run_elements s) p.
Proof. intros Hp. destruct step_range as [He' _]. by apply znth_insert. Qed.

Lemma first_nonneg : 0 <= first.
Proof. by apply run_begin_range. Qed.

Lemma step_sum :
  zsum (fun j => advance lo i j - start j) (zrange 0 FANOUT) = element_idx s + 1 - first.
Proof.
  rewrite (zsum_zrange_update (fun j => lo j - start j) _ 0 FANOUT i) by (done || intros j _ Hj; by rewrite advance_other).
  rewrite (mi_sum _ _ _ Hinv), advance_here. lia.
Qed.

Lemma step_sorted : sorted_on Z.ltb (znth 0 els') first (element_idx s + 1).
Proof.
  pose proof first_nonneg. intros p q Hp Hpq Hq. rewrite !step_element by lia. rewrite (decide_False (P := element_idx s = p)) by lia.
  case_decide as E.
  - apply Z.ltb_ge, (mi_heads _ _ _ Hinv); lia.
  - apply (mi_sorted _ _ _ Hinv); lia.
Qed.

Lemma step_heads p j :
  first <= p < element_idx s + 1 -> 0 <= j < FANOUT -> advance lo i j < stop j ->
  znth 0 els' p <= znth 0 child (advance lo i j).
Proof.
  pose proof first_nonneg. pose proof step_range as [_ Hs]. intros Hp Hj Hlj. rewrite step_element by lia.
  assert (v <= znth 0 child (advance lo i j)) as Hv.
  { destruct (decide (j = i)) as [-> | Hne].
    - rewrite advance_here in *. apply (child_sorted i); lia.
    - rewrite advance_other in * by done. by apply Hmin. }
  case_decide as E; [done |]. etransitivity; [| exact Hv]. apply (mi_heads _ _ _ Hinv); lia.
Qed.

Lemma step_count x :
  count_lt els' x first (element_idx s + 1) = zsum (fun j => count_lt child x (start j) (advance lo i j)) (zrange 0 FANOUT).
Proof.
  pose proof first_nonneg. pose proof step_range as [Hs1 Hs2]. pose proof (element_idx_range _ _ _ Hinv).
  rewrite (zsum_zrange_update (fun j => count_lt child x (start j) (lo j)) _ 0 FANOUT i)
    by (done || intros j _ Hj; by rewrite advance_other).
  rewrite <- (mi_count _ _ _ Hinv), advance_here. unfold count_lt. rewrite !zcount_snoc by lia.
  rewrite step_element, decide_True by (done || lia).
  rewrite (zcount_ext (fun p => znth 0 els' p <? x) (fun p => znth 0 (run_elements s) p <? x)); [lia |].
  intros p Hp. rewrite step_element, decide_False by lia. done.
Qed.

Lemma merge_step_slot :
  exists winner' s', merge_winner child winner s = Some (winner', s') /\ merge_inv (advance lo i) winner' s' /\
    element_idx s' = element_idx s + 1.
Proof.
  pose proof step_range as [Hs1 Hs2]. pose proof first_nonneg as Hf. pose proof (stop_le i Hi) as Hstop.
  pose proof (element_idx_range _ _ _ Hinv) as Her.
  destruct (push_step lo winner s Hinv He) as (cas' & q' & Epush & Hcl & Hco & Hcr).
  destruct (mi_cur _ _ _ Hinv) as (cur & Hcur & Hgames & Ewin).
  destruct (ReplayGames_ok k FANOUT_eq cur i (player (advance lo i) i) (games s)) as (games' & Ereplay & Hgames'); [done | | done |].
  { rewrite <- Ewin, Hcur, Hw by done. unfold player. by rewrite (proj2 (Z.ltb_lt _ _) Hlt). }
  unfold merge_winner. rewrite Epush. cbn [mbind option_bind bounds games run_elements run_cascades element_idx cascade_idx].
  rewrite Hw. cbn [fst snd]. rewrite zstore_Some by done. cbn [mbind option_bind].
  rewrite (mi_bounds _ _ _ Hinv), zload_tabulate by done. cbn [mbind option_bind fst snd].
  assert (OffsetType (lo i + 1) = lo i + 1) as -> by (apply Z.mod_small; lia).
  rewrite zstore_tabulate by done. cbn [mbind option_bind]. rewrite next_player_ok by (done || lia). cbn [mbind option_bind].
  rewrite Ereplay. cbn [mbind option_bind]. do 2 eexists. split; [reflexivity |]. split; [| done].
  split; cbn [bounds games run_elements run_cascades element_idx cascade_idx].
  - exists (moved cur i (player (advance lo i) i)). split; [| done]. intros j Hj. unfold moved.
    destruct (Z.eqb_spec j i) as [-> |]; [done |]. rewrite Hcur by done. unfold player. by rewrite advance_other.
  - apply list_fmap_ext. intros m j _. unfold advance. by destruct (Z.eqb_spec j i) as [-> |].
  - intros j Hj. destruct (decide (j = i)) as [-> | Hne]; [rewrite advance_here; lia |].
    rewrite advance_other by done. by apply (mi_lo _ _ _ Hinv).
  - apply step_sum.
  - rewrite length_insert. apply (mi_length _ _ _ Hinv).
  - intros p Hp Hout. rewrite step_element, decide_False by lia. apply (mi_outside _ _ _ Hinv); lia.
  - apply step_sorted.
  - apply step_heads.
  - apply step_count.
  - done.
  - done.
  - intros Hc0. destruct (Hcr Hc0) as [-> Hrows]. replace (element_idx s + 1 - first) with (element_idx s - first + 1) by lia.
    split; [done |]. intros j Hj. pose proof (row_index_mono j j ltac:(lia)) as [? _].
    eapply (row_ok_ext (run_elements s) _ cas'); [lia | | done | by apply Hrows].
    destruct Hj as [Hj0 Hj']. apply rows_lt in Hj'; [| lia]. intros p Hp. rewrite step_element, decide_False by lia. done.
Qed.
End step.

Lemma merge_step lo winner s :
  merge_inv lo winner s -> winner <> SENTINEL ->
  exists lo' winner' s', merge_winner child winner s = Some (winner', s') /\ merge_inv lo' winner' s' /\
    element_idx s' = element_idx s + 1.
Proof.
  intros Hinv Hw. destruct (winner_slot lo winner s Hinv Hw) as (i & Hi & Hlt & E & Hmin).
  destruct (merge_step_slot lo winner s Hinv i Hi Hlt E Hmin) as (winner' & s' & Es & Hinv' & He).
  { by eapply element_idx_lt. }
  by exists (advance lo i), winner', s'.
Qed.

(** All elements. *)
Lemma merge_run_ok fuel lo winner s :
  merge_inv lo winner s -> run_begin (S l) (r + 1) - element_idx s <= Z.of_nat fuel ->
  exists lo' s', merge_children fuel child winner s = Some s' /\ merge_inv lo' SENTINEL s'.
Proof.
  revert lo winner s. induction fuel as [| fuel IH]; intros lo winner s Hinv Hf; cbn [merge_children];
    (case_decide as Hw; [subst; by exists lo, s |]).
  - pose proof (element_idx_lt _ _ _ Hinv Hw). lia.
  - destruct (merge_step lo winner s Hinv Hw) as (lo' & winner' & s' & -> & Hinv' & He). cbn [mbind option_bind].
    apply (IH lo'); [done | lia].
Qed.

(** *** The whole run *)

Lemma merge_inv_end lo s : merge_inv lo SENTINEL s -> element_idx s = run_begin (S l) (r + 1).
Proof.
  intros Hinv. pose proof (mi_sum _ _ _ Hinv) as Hs. pose proof sum_of_sizes as H2.
  rewrite (zsum_ext _ (fun i => stop i - start i)) in Hs.
  - unfold MergeSortRuns.run_size in H2. lia.
  - intros i Hi%elem_of_zrange. by rewrite (winner_end _ _ Hinv).
Qed.

Lemma merged_run_ok lo s : merge_inv lo SENTINEL s -> run_ok (S l) (run_elements s) r.
Proof.
  intros Hinv. pose proof (merge_inv_end _ _ Hinv) as He. pose proof FANOUT_ge. split.
  - rewrite <- He. apply (mi_sorted _ _ _ Hinv).
  - intros x. rewrite <- He at 1. rewrite (mi_count _ _ _ Hinv).
    rewrite (zsum_ext _ (fun i => count_lt leaves x first (run_begin l (r * FANOUT + (i + 1))) -
      count_lt leaves x first (run_begin l (r * FANOUT + i)))).
    + rewrite (zsum_telescope (fun i => count_lt leaves x first (run_begin l (r * FANOUT + i)))) by lia.
      rewrite Z.add_0_r, <- run_begin_child. unfold count_lt at 2. rewrite zcount_nil by lia.
      replace (run_begin (S l) (r + 1)) with (run_begin l (r * FANOUT + FANOUT)) by (rewrite run_begin_child; f_equal; lia). lia.
    + intros i Hi%elem_of_zrange. rewrite (winner_end _ _ Hinv) by done. pose proof (start_mono i ltac:(lia)).
      pose proof (start_range i) as Hsr. specialize (Hsr ltac:(lia)).
      destruct (Hruns (r * FANOUT + i)) as [_ ->]; [nia |]. rewrite Z.add_assoc.
      rewrite (count_lt_split leaves x first (start i) (stop i)) by lia. lia.
Qed.

Lemma merge_start garbage :
  exists players gs winner, 
    mapM (fun child_run =>
      b ← zload ((fun i => (start i, stop i)) <$> zrange 0 FANOUT) child_run;
      if negb (fst b =? snd b)
      then v ← zload child (r * width (S l) + child_run * width l); Some (v, child_run)
      else Some SENTINEL) (zrange 0 FANOUT) = Some players /\
    StartGames (replicate (Z.to_nat (FANOUT - 1)) garbage) (replicate (Z.to_nat (FANOUT - 1)) garbage) players SENTINEL =
      Some (gs, winner) /\
    merge_inv (fun i => start i) winner
      (mkRun ((fun i => (start i, stop i)) <$> zrange 0 FANOUT) gs els0 cas0 (r * width (S l))
        (FANOUT * r * (width (S l) / CASCADING + 2))).
Proof.
  pose proof FANOUT_ge.
  exists (player (fun i => start i) <$> zrange 0 FANOUT).
  destruct (StartGames_ok k FANOUT_eq (player (fun i => start i)) (player (fun i => start i) <$> zrange 0 FANOUT)
    (replicate (Z.to_nat (FANOUT - 1)) garbage) (replicate (Z.to_nat (FANOUT - 1)) garbage) SENTINEL)
    as (gs & E & Hg).
  { rewrite length_fmap, length_zrange. lia. }
  { intros i Hi. pose proof (zload_tabulate (player (fun i => start i)) FANOUT i Hi) as Hz. unfold zload in Hz.
    by rewrite decide_True in Hz by lia. }
  { rewrite length_replicate. lia. }
  { done. }
  exists gs, (winner_of (player (fun i => start i)) (S k) 1). split; [| split; [exact E |]].
  - apply mapM_Some, Forall2_fmap_r, Forall_Forall2_diag, Forall_forall. intros i Hi%elem_of_zrange.
    unfold compose. rewrite zload_tabulate by done. cbn [mbind option_bind fst snd]. unfold player.
    pose proof (start_mono i ltac:(lia)). pose proof (stop_le i Hi).
    destruct (Z.ltb_spec (start i) (stop i)) as [Hlt | Hge].
    + rewrite (proj2 (Z.eqb_neq _ _)) by lia. cbn [negb].
      assert (r * width (S l) + i * width l = start i) as Ei.
      { rewrite width_S. replace (r * (width l * FANOUT) + i * width l) with ((r * FANOUT + i) * width l) by ring.
        pose proof (run_width_pos l). revert Hlt. unfold MergeSortRuns.run_begin. nia. }
      rewrite Ei, (zload_Some 0) by lia. done.
    + rewrite (proj2 (Z.eqb_eq _ _)) by lia. done.
  - assert (zsum (fun i => start i - start i) (zrange 0 FANOUT) = 0) as Hz.
    { rewrite (zsum_ext _ (fun _ => 0)) by (intros; lia). apply zsum_zero. }
    split; cbn [bounds games run_elements run_cascades element_idx cascade_idx].
    + by exists (player (fun i => start i)).
    + done.
    + intros i Hi. pose proof (start_mono i ltac:(lia)). lia.
    + rewrite Hz, first_exact. lia.
    + done.
    + done.
    + intros p q Hp Hpq Hq. rewrite first_exact in Hp. lia.
    + intros p i Hp. rewrite first_exact in Hp. lia.
    + intros x. unfold count_lt. rewrite zcount_nil by (rewrite first_exact; lia).
      rewrite (zsum_ext _ (fun _ => 0)) by (intros; by rewrite zcount_nil by lia).
      by rewrite zsum_zero.
    + done.
    + done.
    + intros _. rewrite first_exact, Z.sub_diag. assert (rows 0 = 0) as ->.
      { unfold rows. pose proof CASCADING_pos. apply Z.div_small. lia. }
      split; [unfold cascade_row; ring | lia].
Qed.

(** The terminal pointers. *)
Lemma terminal_rows lo s :
  merge_inv lo SENTINEL s ->
  exists s', (if has_cascades s then s ← push_cascades s; push_cascades s else Some s) = Some s' /\
    run_elements s' = run_elements s /\ length (run_cascades s') = length cas0 /\
    (forall p, 0 <= p -> ~ (cascade_row (S l) r 0 <= p < cascade_row (S l) r (rows (run_size (S l) r) + 2)) ->
      znth 0 (run_cascades s') p = znth 0 cas0 p) /\
    (cas0 <> [] -> cascades_ok leaves l (run_elements s) child r (run_cascades s')).
Proof.
  intros Hinv. pose proof (mi_cas_length _ _ _ Hinv) as Hcl. pose proof FANOUT_ge.
  assert (has_cascades s = negb (bool_decide (cas0 = []))) as ->.
  { unfold has_cascades. f_equal. apply bool_decide_ext. rewrite <- !length_zero_iff_nil. lia. }
  case_bool_decide as Hc0; cbn [negb].
  { exists s. split_and!; [done.. | apply (mi_cas_outside _ _ _ Hinv) | done]. }
  destruct Hcas0 as [-> | [Hw Hcl0]]; [done |].
  destruct (mi_cas _ _ _ Hinv Hc0) as [Hq Hrows]. pose proof (merge_inv_end _ _ Hinv) as He.
  pose proof (row_ok_current _ _ _ Hinv) as Hcur. rewrite He in Hq, Hrows, Hcur.
  change (run_begin (S l) (r + 1) - first) with (run_size (S l) r) in Hq, Hrows, Hcur.
  pose proof (run_size_range (length leaves) (S l) r Hr) as Hsz. set (size := run_size (S l) r) in *.
  pose proof (rows_nonneg size ltac:(lia)) as Hrn. set (j1 := rows size) in *.
  pose proof (row_index_mono j1 j1 ltac:(lia)) as [Hrow0 _]. pose proof (row_index j1 ltac:(lia)) as Hrow1.
  pose proof (row_index (j1 + 1) ltac:(lia)) as Hrow2. replace (j1 + 1 + 1) with (j1 + 2) in Hrow2 by lia.
  pose proof (row_index_mono 0 j1 ltac:(lia)) as [_ Hrow3].
  destruct s as [b g e cs ei ci]. pose proof (mi_bounds _ _ _ Hinv) as Hb. cbn [bounds games run_elements run_cascades element_idx cascade_idx] in *.
  subst b. assert (0 <= FANOUT) as Hfan by lia.
  destruct (push_cascades_row Hfan lo (fun i => stop i) g e cs ei ci) as (cas1 & -> & Hl1 & Hc1); [lia.. |]. cbn [mbind option_bind].
  destruct (push_cascades_row Hfan lo (fun i => stop i) g e cas1 ei (ci + FANOUT)) as (cas2 & -> & Hl2 & Hc2); [lia.. |].
  eexists. split; [done |]. cbn [run_elements run_cascades]. split_and!; [done | lia | |].
  { intros p Hp Hout. rewrite Hc2, Hc1, !decide_False by lia. by apply (mi_cas_outside _ _ _ Hinv). }
  intros _ j Hj. fold size in Hj |- *. fold j1 in Hj. destruct (decide (j < j1)) as [Hlt | Hge].
  - pose proof (proj1 (rows_lt size j ltac:(lia)) Hlt). rewrite Z.min_l by lia.
    pose proof (row_index_mono j j ltac:(lia)) as [? _]. pose proof (row_index_mono (j + 1) j1 ltac:(lia)) as [_ ?].
    pose proof (row_index j ltac:(lia)).
    eapply (row_ok_ext e _ cs); [lia | done | | by apply Hrows; lia].
    intros p Hp. rewrite Hc2, Hc1, !decide_False by lia. done.
  - assert (size <= j * CASCADING) as Hsj.
    { destruct (Z.lt_ge_cases (j * CASCADING) size) as [Hl |]; [| lia]. apply rows_lt in Hl; lia. }
    rewrite Z.min_r by lia. assert (j = j1 \/ j = j1 + 1) as [-> | ->] by lia.
    + apply Hcur. intros i Hi. rewrite Hc2, Hc1 by lia. rewrite decide_False, decide_True by lia. f_equal. lia.
    + apply Hcur. intros i Hi. rewrite Hc2, decide_True by lia. f_equal. lia.
Qed.

(** [BuildRun] makes the run and leaves the rest of the tree. *)
Lemma BuildRun_run garbage (t : Tree) cc :
  t !! l = Some (child, cc) -> t !! S l = Some (els0, cas0) ->
  exists els' cas', BuildRun garbage (S l) r t = Some (<[S l := (els', cas')]> t) /\
    length els' = length leaves /\ length cas' = length cas0 /\
    (forall p, 0 <= p -> ~ (first <= p < run_begin (S l) (r + 1)) -> znth 0 els' p = znth 0 els0 p) /\
    (forall p, 0 <= p -> ~ (cascade_row (S l) r 0 <= p < cascade_row (S l) r (rows (run_size (S l) r) + 2)) ->
      znth 0 cas' p = znth 0 cas0 p) /\
    run_ok (S l) els' r /\ (cas0 <> [] -> cascades_ok leaves l els' child r cas').
Proof.
  intros Ht1 Ht2. destruct (merge_start garbage) as (players & gs & winner & Ep & Eg & Hinv).
  destruct (merge_run_ok (length leaves) _ _ _ Hinv) as (lo & s & Es & Hend).
  { cbn [element_idx]. pose proof (run_begin_range (length leaves) (S l) (r + 1)). pose proof (run_width_pos (S l)). nia. }
  destruct (terminal_rows lo s Hend) as (s' & Et & Ee & Hcl & Hco & Hcok).
  exists (run_elements s'), (run_cascades s'). split; [| split_and!].
  - unfold BuildRun. rewrite Ht2. cbn [mbind option_bind]. replace (S l - 1)%nat with l by lia. rewrite Ht1.
    cbn [mbind option_bind fst snd]. rewrite run_lengths_width, Hels0.
    assert ((fun child_run : Z =>
        (OffsetType (Z.min (r * width (S l) + child_run * width l) n),
         OffsetType (Z.min (r * width (S l) + child_run * width l + width l) n))) <$> zrange 0 FANOUT =
      (fun i => (start i, stop i)) <$> zrange 0 FANOUT) as ->.
    { apply list_fmap_ext. intros m i Hm%list_elem_of_lookup_2%elem_of_zrange. pose proof (stop_le i Hm). pose proof (start_mono i ltac:(lia)).
      unfold OffsetType. unfold MergeSortRuns.run_begin in *. rewrite width_S.
      replace (r * (width l * FANOUT) + i * width l) with ((r * FANOUT + i) * width l) by ring.
      replace ((r * FANOUT + i) * width l + width l) with ((r * FANOUT + i + 1) * width l) by ring.
      f_equal; apply Z.mod_small; lia. }
    rewrite Ep. cbn [mbind option_bind]. rewrite Eg. cbn [mbind option_bind]. rewrite Es. cbn [mbind option_bind].
    rewrite Et. done.
  - by rewrite Ee, (mi_length _ _ _ Hend).
  - done.
  - rewrite Ee, <- (merge_inv_end _ _ Hend). apply (mi_outside _ _ _ Hend).
  - done.
  - rewrite Ee. by eapply merged_run_ok.
  - by rewrite Ee.
Qed.
End merge.
