(* ===== verification/MergeSortBuild.v ===== *)
(** * Building a merge sort tree

    The shape of a tree, what a complete run and a complete level are, and that [BuildRun]
    completes its run and its cascading pointers and leaves the other runs as they are. *)

From S2P Require Import Prelude Validity MaskSearch Boundaries RangeSearch Aggregates MergeSortTree MergeSortGames MergeSortRuns.

Definition level_elements (t : Tree) (l : nat) : list Z := default [] (fst <$> t !! l).
Definition level_cascades (t : Tree) (l : nat) : list Z := default [] (snd <$> t !! l).

Lemma LowestLevel_level t : LowestLevel t = level_elements t 0.
Proof. by destruct t. Qed.

(** ** Rows of pointers *)

Section cascade_rows.
Context {traits : MergeSortTraits} {k c : nat} `{!MergeSortTraitsOk k c}.
Implicit Types (l : nat) (r j : Z).

Lemma cascade_row_index l r j : cascade_row l r (j + 1) = cascade_row l r j + FANOUT.
Proof. unfold cascade_row. ring. Qed.

Lemma cascade_row_mono l r j j' : j <= j' -> cascade_row l r j <= cascade_row l r j'.
Proof. intros Hj. pose proof FANOUT_ge as Hf. unfold cascade_row. apply Z.mul_le_mono_nonneg_l; [lia |]. apply Zplus_le_compat_l. done. Qed.

Lemma cascade_row_le l r r' : 0 <= r <= r' -> cascade_row l r 0 <= cascade_row l r' 0.
Proof.
  intros Hr. pose proof FANOUT_ge. pose proof CASCADING_pos. pose proof (run_width_pos l).
  assert (0 <= width l / CASCADING) by (apply Z.div_pos; lia). unfold cascade_row.
  apply Z.mul_le_mono_nonneg_l; [lia |]. rewrite !Z.add_0_r. apply Z.mul_le_mono_nonneg_r; lia.
Qed.
End cascade_rows.

Section build.
Context {traits : MergeSortTraits} {k c : nat} `{!MergeSortTraitsOk k c} (leaves : list Z).
Context (Hn : Z.of_nat (length leaves) < 2 ^ offset_bits).
Context (Hleaves : Forall (fun v => v < 2 ^ element_bits) leaves).
Abbreviation n := (Z.of_nat (length leaves)).
Abbreviation run_begin := (run_begin (length leaves)).
Abbreviation run_size := (run_size (length leaves)).
Abbreviation run_ok := (run_ok leaves).
Implicit Types (t : Tree) (l : nat) (r : Z).

(** The number of runs of a level. *)
Definition num_runs l : Z := (n + width l - 1) / width l.

(** The top level has one run. *)
Definition is_top (top : nat) : Prop := n <= width top /\ forall l, (l < top)%nat -> width l < n.

(** The levels as [Allocate] makes them, with the leaves in the lowest one. *)
Definition shape (top : nat) t : Prop :=
  length t = S top /\ level_elements t 0 = leaves /\
  forall l, (l <= top)%nat -> length (level_elements t l) = length leaves /\
    Z.of_nat (length (level_cascades t l)) =
      if (0 <? l)%nat && (CASCADING <? width l) then FANOUT * num_runs l * (width l / CASCADING + 2) else 0.

(** A run is complete, with its pointers into the level below. *)
Definition run_built t l r : Prop :=
  run_ok l (level_elements t l) r /\
  forall l', l = S l' -> level_cascades t l <> [] ->
    cascades_ok leaves l' (level_elements t l) (level_elements t l') r (level_cascades t l).

Definition level_done t l : Prop := forall r, 0 <= r -> r * width l < n -> run_built t l r.

Definition tree_complete (top : nat) t : Prop := shape top t /\ forall l, (l <= top)%nat -> level_done t l.

(** ** Levels *)

Lemma num_runs_lt l r : 0 <= r -> (r < num_runs l <-> r * width l < n).
Proof.
  intros Hr. unfold num_runs. pose proof (run_width_pos l). split; intros Hlt.
  - destruct (Z.lt_ge_cases (r * width l) n) as [| Hge]; [done |].
    assert ((n + width l - 1) / width l < r + 1) by (apply Z.div_lt_upper_bound; nia). lia.
  - assert (r + 1 <= (n + width l - 1) / width l) by (apply Z.div_le_lower_bound; nia). lia.
Qed.

Lemma num_runs_nonneg l : 0 <= num_runs l.
Proof. unfold num_runs. pose proof (run_width_pos l). apply Z.div_pos; lia. Qed.

Lemma width_0 : width 0 = 1.
Proof. done. Qed.

Lemma width_lin l : Z.of_nat l < width l.
Proof. unfold width. apply Z.pow_gt_lin_r; pose proof FANOUT_ge; lia. Qed.

Lemma top_exists : exists top, is_top top /\ (top <= length leaves)%nat.
Proof.
  assert (forall m, (exists top, (top <= m)%nat /\ is_top top) \/ forall l, (l <= m)%nat -> width l < n) as H.
  { induction m as [| m [IH | IH]].
    - destruct (Z.lt_ge_cases (width 0) n) as [Hlt | Hge]; [right | left].
      + intros l Hl. by replace l with 0%nat by lia.
      + exists 0%nat. split; [lia |]. split; [lia |]. intros l Hl. lia.
    - left. destruct IH as (top & ? & ?). exists top. split; [lia | done].
    - destruct (Z.lt_ge_cases (width (S m)) n) as [Hlt | Hge]; [right | left].
      + intros l Hl. destruct (decide (l = S m)) as [-> |]; [done |]. apply IH. lia.
      + exists (S m). split; [lia |]. split; [lia |]. intros l Hl. apply IH. lia. }
  destruct (H (length leaves)) as [(top & ? & ?) | Hall]; [by exists top |]. exfalso.
  pose proof (Hall (length leaves) ltac:(lia)). pose proof (width_lin (length leaves)). lia.
Qed.

(** Runs beyond the last one are empty. *)
Lemma run_ok_beyond l els r : n <= r * width l -> run_ok l els r.
Proof.
  intros Hr. pose proof (run_width_pos l). unfold MergeSortRuns.run_ok.
  assert (run_begin l r = n /\ run_begin l (r + 1) = n) as [-> ->] by (unfold MergeSortRuns.run_begin; lia).
  split; [intros p q; lia |]. intros x. unfold count_lt. by rewrite !zcount_nil by lia.
Qed.

Lemma level_done_runs t l : level_done t l -> forall r, 0 <= r -> run_ok l (level_elements t l) r.
Proof.
  intros Hd r Hr. destruct (Z.lt_ge_cases (r * width l) n) as [Hlt | Hge]; [by apply Hd | by apply run_ok_beyond].
Qed.

Lemma level_0_done top t : shape top t -> level_done t 0.
Proof.
  intros (_ & E & _) r Hr Hlt. split; [| done]. rewrite E. split; [| done].
  intros p q Hp Hpq Hq. unfold MergeSortRuns.run_begin in *. rewrite width_0 in *. lia.
Qed.

Lemma level_lookup top t l :
  shape top t -> (l <= top)%nat -> t !! l = Some (level_elements t l, level_cascades t l).
Proof.
  intros (Hl & _) Hlt. unfold level_elements, level_cascades.
  destruct (lookup_lt_is_Some_2 t l) as [[els cas] ->]; [lia |]. done.
Qed.

Lemma level_insert t l l' els cas :
  (l < length t)%nat ->
  level_elements (<[l := (els, cas)]> t) l' = (if decide (l' = l) then els else level_elements t l') /\
  level_cascades (<[l := (els, cas)]> t) l' = (if decide (l' = l) then cas else level_cascades t l').
Proof.
  intros Hl. unfold level_elements, level_cascades. case_decide as E.
  - subst. by rewrite !list_lookup_insert_eq.
  - by rewrite !list_lookup_insert_ne.
Qed.

(** The rows of pointers of different runs are apart. *)
Lemma cascade_rows_apart l r :
  0 <= r -> r * width l < n -> CASCADING < width l ->
  0 <= cascade_row l r 0 /\ cascade_row l r (rows (run_size l r) + 2) <= cascade_row l (r + 1) 0.
Proof.
  intros Hr Hlt Hw. pose proof FANOUT_ge. pose proof CASCADING_pos. pose proof (run_width_pos l).
  pose proof (run_size_range (length leaves) l r Hr) as Hs.
  assert (0 <= width l / CASCADING) by (apply Z.div_pos; lia).
  assert (rows (run_size l r) <= width l / CASCADING) as Hrows.
  { destruct (width_divide l Hw) as [d Hd]. transitivity (rows (width l)); [unfold rows; apply Z.div_le_mono; lia |].
    unfold rows. rewrite Hd. rewrite Z.div_mul by lia.
    assert ((d * CASCADING + CASCADING - 1) / CASCADING < d + 1); [apply Z.div_lt_upper_bound; lia | lia]. }
  unfold cascade_row. split; [apply Z.mul_nonneg_nonneg; [lia |]; rewrite Z.add_0_r; apply Z.mul_nonneg_nonneg; lia |].
  apply Z.mul_le_mono_nonneg_l; lia.
Qed.

Lemma cascade_rows_fit l r :
  0 <= r -> r * width l < n -> CASCADING < width l ->
  cascade_row l (r + 1) 0 <= FANOUT * num_runs l * (width l / CASCADING + 2).
Proof.
  intros Hr Hlt Hw. apply num_runs_lt in Hlt; [| done]. pose proof FANOUT_ge. pose proof CASCADING_pos. pose proof (run_width_pos l).
  assert (0 <= width l / CASCADING) by (apply Z.div_pos; lia). unfold cascade_row. rewrite <- Z.mul_assoc.
  apply Z.mul_le_mono_nonneg_l; [lia |]. rewrite Z.add_0_r. apply Z.mul_le_mono_nonneg_r; lia.
Qed.

(** ** A run is built *)

Lemma run_ok_ext l els els' r :
  (forall p, run_begin l r <= p < run_begin l (r + 1) -> znth 0 els' p = znth 0 els p) -> run_ok l els r -> run_ok l els' r.
Proof.
  intros He [Hs Hc]. split.
  - intros p q Hp Hpq Hq. rewrite !He by lia. by apply Hs.
  - intros x. rewrite <- Hc. apply zcount_ext. intros p Hp. by rewrite He.
Qed.

Lemma cascades_ok_ext l els els' child r cas cas' :
  length child = length leaves -> 0 <= r -> r * width (S l) < n -> CASCADING < width (S l) ->
  (forall p, run_begin (S l) r <= p < run_begin (S l) (r + 1) -> znth 0 els' p = znth 0 els p) ->
  (forall p, cascade_row (S l) r 0 <= p < cascade_row (S l) (r + 1) 0 -> znth 0 cas' p = znth 0 cas p) ->
  cascades_ok leaves l els child r cas -> cascades_ok leaves l els' child r cas'.
Proof.
  intros Hchild Hr Hlt Hw He Hc Hok j Hj. destruct (cascade_rows_apart (S l) r Hr Hlt Hw) as [H0 H1].
  pose proof (cascade_row_mono (S l) r 0 j ltac:(lia)). pose proof (cascade_row_index (S l) r j).
  pose proof (cascade_row_mono (S l) r (j + 1) (rows (run_size (S l) r) + 2)) as H3. specialize (H3 ltac:(lia)).
  apply (MergeSortRuns.row_ok_ext leaves l r child child [] Hchild Hchild els els' cas cas'); [lia | | | by apply Hok].
  - intros p Hp. apply He. pose proof (run_size_range (length leaves) (S l) r Hr). unfold MergeSortRuns.run_size in *. lia.
  - intros p Hp. apply Hc. lia.
Qed.

Lemma run_built_ext t t' l r :
  (l < length t)%nat -> 0 <= r -> r * width l < n ->
  (forall l', l = S l' -> level_elements t' l' = level_elements t l' /\ length (level_elements t l') = length leaves) ->
  (level_cascades t' l <> [] -> CASCADING < width l /\ level_cascades t l <> []) ->
  (forall p, run_begin l r <= p < run_begin l (r + 1) -> znth 0 (level_elements t' l) p = znth 0 (level_elements t l) p) ->
  (forall p, CASCADING < width l -> cascade_row l r 0 <= p < cascade_row l (r + 1) 0 ->
    znth 0 (level_cascades t' l) p = znth 0 (level_cascades t l) p) ->
  run_built t l r -> run_built t' l r.
Proof.
  intros Hl Hr Hlt Hchild Hcas He Hc [Hok Hcok]. split; [by eapply run_ok_ext |].
  intros l' -> Hne. destruct (Hchild l' eq_refl) as [-> Hlc]. destruct (Hcas Hne) as [Hw Hne0].
  eapply cascades_ok_ext; [done.. | | by apply Hcok]. intros p Hp. by apply Hc.
Qed.

Lemma level_cascades_nil top t l :
  shape top t -> (0 < l <= top)%nat -> level_cascades t l <> [] -> CASCADING < width l.
Proof.
  intros (_ & _ & Hs) Hl Hne. destruct (Hs l ltac:(lia)) as [_ Hc]. destruct (Z.ltb_spec CASCADING (width l)); [done |].
  rewrite andb_false_r in Hc. destruct (level_cascades t l); [done | cbn in Hc; lia].
Qed.

(** A built run keeps the shape, and all runs that are built. *)
Lemma BuildRun_tree garbage top t l r :
  shape top t -> (S l <= top)%nat -> level_done t l -> 0 <= r -> r * width (S l) < n ->
  exists t', BuildRun garbage (S l) r t = Some t' /\ shape top t' /\ run_built t' (S l) r /\
    forall l' r', (l' <= S l)%nat -> 0 <= r' -> r' * width l' < n -> run_built t l' r' -> run_built t' l' r'.
Proof.
  intros Hsh Hl Hd Hr Hlt. destruct (proj2 (proj2 Hsh) l ltac:(lia)) as [Hchild _].
  destruct (proj2 (proj2 Hsh) (S l) Hl) as [Hels Hcas].
  destruct (BuildRun_run leaves Hn Hleaves l r (level_elements t l) (level_elements t (S l)) (level_cascades t (S l))
    Hr Hlt Hchild Hels (level_done_runs t l Hd)) with (garbage := garbage) (t := t) (cc := level_cascades t l)
    as (els' & cas' & E & Hel & Hcl & Heo & Hco & Hok & Hcok).
  { destruct (Z.ltb_spec CASCADING (width (S l))) as [Hw | Hw]; cbn [andb Nat.ltb Nat.leb] in Hcas.
    - right. split; [done |]. rewrite Hcas. destruct (cascade_rows_apart (S l) r Hr Hlt Hw) as [_ H1].
      pose proof (cascade_rows_fit (S l) r Hr Hlt Hw). lia.
    - left. destruct (level_cascades t (S l)); [done | cbn in Hcas; lia]. }
  { apply (level_lookup top); [done | lia]. }
  { by apply (level_lookup top). }
  assert (S l < length t)%nat as Hlen by (destruct Hsh; lia).
  pose proof (fun l' => level_insert t (S l) l' els' cas' Hlen) as Hins.
  assert (shape top (<[S l := (els', cas')]> t)) as Hsh'.
  { destruct Hsh as (H1 & H2 & H3). split_and!.
    - by rewrite length_insert.
    - rewrite (proj1 (Hins 0%nat)), decide_False by lia. done.
    - intros l' Hl'. destruct (Hins l') as [-> ->]. case_decide as El; [subst l' | by apply H3].
      rewrite Hel, Hcl. by split. }
  assert (forall p, run_begin (S l) r <= p -> 0 <= p) as Hp0.
  { intros p Hp. pose proof (run_begin_range (length leaves) (S l) r Hr). lia. }
  assert (level_cascades t (S l) <> [] <-> cas' <> []) as Hne.
  { destruct (level_cascades t (S l)), cas'; cbn in Hcl; split; intros ?; try done; lia. }
  eexists. split; [exact E |]. split; [exact Hsh' |].
  assert (run_built (<[S l := (els', cas')]> t) (S l) r) as Hnew.
  { split; rewrite (proj1 (Hins (S l))), decide_True by done; [done |].
    intros l' [= <-]. rewrite (proj2 (Hins (S l))), decide_True by done. intros Hc.
    rewrite (proj1 (Hins l)), decide_False by lia. by apply Hcok, Hne. }
  split; [done |]. intros l' r' Hl' Hr' Hlt' Hb.
  destruct (decide (l' = S l)) as [-> | Hnl].
  - destruct (decide (r' = r)) as [-> | Hnr]; [done |].
    apply (run_built_ext t); [done.. | | | | | done].
    + intros l'' [= <-]. rewrite (proj1 (Hins l)), decide_False by lia. done.
    + rewrite (proj2 (Hins (S l))), decide_True by done. intros Hc. apply Hne in Hc.
      split; [| done]. eapply (level_cascades_nil top t); [done | lia | done].
    + intros p Hp. rewrite (proj1 (Hins (S l))), decide_True by done. apply Heo.
      * pose proof (run_begin_range (length leaves) (S l) r' Hr'). lia.
      * destruct (Z.lt_total r r') as [Hrr | [? | Hrr]]; [| lia |].
        { pose proof (run_begin_mono (length leaves) (S l) (r + 1) r' ltac:(lia)). lia. }
        { pose proof (run_begin_mono (length leaves) (S l) (r' + 1) r ltac:(lia)). lia. }
    + intros p Hw Hp. rewrite (proj2 (Hins (S l))), decide_True by done.
      destruct (cascade_rows_apart (S l) r Hr Hlt Hw) as [_ H1].
      pose proof (proj1 (cascade_rows_apart (S l) r' Hr' Hlt' Hw)).
      apply Hco; [lia |].
      destruct (Z.lt_total r r') as [Hrr | [? | Hrr]]; [| lia |].
      { pose proof (cascade_row_le (S l) (r + 1) r' ltac:(lia)). lia. }
      { pose proof (cascade_row_le (S l) (r' + 1) r ltac:(lia)). lia. }
  - assert (level_elements (<[S l := (els', cas')]> t) l' = level_elements t l' /\
      level_cascades (<[S l := (els', cas')]> t) l' = level_cascades t l') as [E1 E2].
    { destruct (Hins l') as [-> ->]. by rewrite !decide_False. }
    unfold run_built. rewrite E1, E2. destruct Hb as [Hb1 Hb2]. split; [done |].
    intros l'' -> Hc. rewrite (proj1 (Hins l'')), decide_False by lia. by apply Hb2.
Qed.
End build.
