(* ===== verification/SegmentTree.v ===== *)
(** * The segment tree

    function/window/window_segment_tree.cpp: an aggregate over every frame from a tree
    whose nodes hold the aggregates of 16 nodes of the level below.  Threads build the
    tree together, one node at a time, with an atomic counter of the started and one
    of the completed nodes of a level; then every chunk of rows is evaluated with
    buffers of pending updates and combines.

    Pointers to states are the constructors of [StatePtr]; a buffer is the list of
    its entries.  A result of [None] is a failed assertion, an access outside of an
    array, or a flush of entries of the other kind. *)

From S2P Require Import Prelude Validity Boundaries Aggregates.

Definition TREE_FANOUT : Z := 16.

(** ** Levels *)

(** The loop of the constructor of [WindowSegmentTreeGlobalState]: the start of
    every level, and at the end the number of nodes. *)
Fixpoint levels_loop (fuel : nat) (group_count : Z) (levels_flat_start : list Z) (levels_flat_offset : Z)
    (level_current : nat) : list Z * Z :=
  let level_size :=
    match level_current with
    | O => group_count
    | S l => levels_flat_offset - znth 0 levels_flat_start (Z.of_nat l)
    end in
  match fuel with
  | O => (levels_flat_start, levels_flat_offset)
  | S fuel =>
      if level_size <=? 1 then (levels_flat_start, levels_flat_offset)
      else
        let levels_flat_offset := levels_flat_offset + (level_size + TREE_FANOUT - 1) / TREE_FANOUT in
        levels_loop fuel group_count (levels_flat_start ++ [levels_flat_offset]) levels_flat_offset (S level_current)
  end.

Definition levels_flat (group_count : Z) : list Z * Z :=
  let '(levels_flat_start, levels_flat_offset) := levels_loop (Z.to_nat group_count) group_count [0] 0 0 in
  (levels_flat_start, if levels_flat_offset =? 0 then levels_flat_offset + 1 else levels_flat_offset).

(** ** The collection *)

Record WindowCollection (R : Type) := {
  collection_rows : list R;
  (* the rows [begin, end) of the chunk that [Seek] reads for a row *)
  chunk_range : Z -> Z * Z;
  column_count : nat
}.
Arguments collection_rows {R} _.
Arguments chunk_range {R} _ _.
Arguments column_count {R} _.

Record WindowCursor := { current_row_index : Z; next_row_index : Z }.

Definition WindowCursor_new : WindowCursor := {| current_row_index := 0; next_row_index := 0 |}.

Definition RowIsVisible (c : WindowCursor) (row_idx : Z) : bool :=
  (row_idx <? next_row_index c) && (current_row_index c <=? row_idx).

Definition RowOffset (c : WindowCursor) (row_idx : Z) : option Z :=
  if RowIsVisible c row_idx then Some (row_idx - current_row_index c) else None.

Section cursor.
Context {R : Type} (collection : WindowCollection R).

Definition Seek (c : WindowCursor) (row_idx : Z) : WindowCursor :=
  if RowIsVisible c row_idx then c
  else
    let '(current, next) := chunk_range collection row_idx in
    {| current_row_index := current; next_row_index := next |}.

(** A row of the visible chunk. *)
Definition chunk_row (c : WindowCursor) (offset : Z) : option R :=
  if (0 <=? offset) && (offset <? next_row_index c - current_row_index c) then
    zload (collection_rows collection) (current_row_index c + offset)
  else None.
End cursor.

(** ** States, buffers and parts *)

(** A result state of a part or a node of the tree. *)
Inductive StatePtr : Set :=
  | result_state (rid : nat)
  | tree_state (i : Z).

#[export] Instance StatePtr_eq_dec : EqDecision StatePtr.
Proof. solve_decision. Defined.

(** What is pending for a state: the row at an offset of the visible chunk, or the
    state to combine with. *)
Inductive Pending : Set :=
  | leaf (offset : Z)
  | node (source : StatePtr).

Inductive FramePart : Set := FULL | LEFT | RIGHT.

#[export] Instance FramePart_eq_dec : EqDecision FramePart.
Proof. solve_decision. Defined.

Section tree.
Context {R St Res : Type} (aggr : AggregateFunction R St Res) (collection : WindowCollection R).
Context (filter_mask : ValidityArray) (levels_flat_start : list Z).

Record Memory := { result_states : list St; levels_flat_native : list St }.

Definition load_state (m : Memory) (p : StatePtr) : option St :=
  match p with
  | result_state rid => result_states m !! rid
  | tree_state i => zload (levels_flat_native m) i
  end.

Definition store_state (m : Memory) (p : StatePtr) (st : St) : option Memory :=
  match p with
  | result_state rid =>
      states ← zstore (result_states m) (Z.of_nat rid) st;
      Some {| result_states := states; levels_flat_native := levels_flat_native m |}
  | tree_state i =>
      states ← zstore (levels_flat_native m) i st;
      Some {| result_states := result_states m; levels_flat_native := states |}
  end.

Record WindowSegmentTreePart := {
  memory : Memory;
  cursor : WindowCursor;
  (* the first flush_count entries of statep, with filter_sel or statel *)
  flush_buffer : list (StatePtr * Pending);
  right_stack : list (Z * Z)
}.

Definition set_memory (m : Memory) (s : WindowSegmentTreePart) : WindowSegmentTreePart :=
  {| memory := m; cursor := cursor s; flush_buffer := flush_buffer s; right_stack := right_stack s |}.
Definition set_cursor (c : WindowCursor) (s : WindowSegmentTreePart) : WindowSegmentTreePart :=
  {| memory := memory s; cursor := c; flush_buffer := flush_buffer s; right_stack := right_stack s |}.
Definition set_buffer (b : list (StatePtr * Pending)) (s : WindowSegmentTreePart) : WindowSegmentTreePart :=
  {| memory := memory s; cursor := cursor s; flush_buffer := b; right_stack := right_stack s |}.
Definition set_right_stack (r : list (Z * Z)) (s : WindowSegmentTreePart) : WindowSegmentTreePart :=
  {| memory := memory s; cursor := cursor s; flush_buffer := flush_buffer s; right_stack := r |}.

Definition WindowSegmentTreePart_new (tree : list St) : WindowSegmentTreePart :=
  {| memory := {| result_states := []; levels_flat_native := tree |};
     cursor := WindowCursor_new; flush_buffer := []; right_stack := [] |}.

Definition flush_entry (combining : bool) (c : WindowCursor) (m : Memory) (e : StatePtr * Pending)
    : option Memory :=
  match snd e with
  | node source =>
      if combining then
        src ← load_state m source; tgt ← load_state m (fst e);
        store_state m (fst e) (combine aggr src tgt)
      else None
  | leaf offset =>
      if combining then None
      else
        r ← chunk_row collection c offset; st ← load_state m (fst e);
        store_state m (fst e) (update aggr r st)
  end.

Definition FlushStates (combining : bool) (s : WindowSegmentTreePart) : option WindowSegmentTreePart :=
  m ← ofold (flush_entry combining (cursor s)) (memory s) (flush_buffer s);
  Some (set_buffer [] (set_memory m s)).

(** One more entry; a full buffer is flushed. *)
Definition push (combining : bool) (p : StatePtr) (e : Pending) (s : WindowSegmentTreePart)
    : option WindowSegmentTreePart :=
  let s := set_buffer (flush_buffer s ++ [(p, e)]) s in
  if STANDARD_VECTOR_SIZE <=? Z.of_nat (length (flush_buffer s)) then FlushStates combining s else Some s.

Definition ExtractFrame (begin end_ : Z) (state_ptr : StatePtr) (s : WindowSegmentTreePart)
    : option WindowSegmentTreePart :=
  if ArrayAllValid filter_mask then
    offset ← RowOffset (cursor s) begin;
    ofold (fun s i => push false state_ptr (leaf (offset + i)) s) s (zrange 0 (end_ - begin))
  else
    ofold (fun s i =>
      if ArrayRowIsValid filter_mask i then
        offset ← RowOffset (cursor s) i; push false state_ptr (leaf offset) s
      else Some s) s (zrange begin end_).

(** The loop over the chunks of the leaves [begin, end_). *)
Fixpoint extract_leaves (fuel : nat) (begin end_ : Z) (state_ptr : StatePtr) (s : WindowSegmentTreePart)
    : option WindowSegmentTreePart :=
  if begin <? end_ then
    match fuel with
    | O => None
    | S fuel =>
        s ← (if RowIsVisible (cursor s) begin then Some s
             else s ← FlushStates false s; Some (set_cursor (Seek collection (cursor s) begin) s));
        let next := Z.min end_ (next_row_index (cursor s)) in
        s ← ExtractFrame begin next state_ptr s;
        extract_leaves fuel next end_ state_ptr s
    end
  else Some s.

Definition WindowSegmentValue (l_idx : nat) (begin end_ : Z) (state_ptr : StatePtr) (s : WindowSegmentTreePart)
    : option WindowSegmentTreePart :=
  if end_ <? begin then None
  else if (begin =? end_) || (column_count collection =? 0)%nat then Some s
  else
    match l_idx with
    | O => extract_leaves (Z.to_nat (end_ - begin)) begin end_ state_ptr s
    | S l =>
        start ← levels_flat_start !! l;
        ofold (fun s i => push true state_ptr (node (tree_state (begin + start + i))) s) s
          (zrange 0 (end_ - begin))
    end.

(** ** Evaluation *)

Context (exclude_mode : WindowExcludeMode).

Definition Part_Initialize (count : nat) (s : WindowSegmentTreePart) : WindowSegmentTreePart :=
  set_memory {| result_states := replicate count (initialize aggr) ++ drop count (result_states (memory s));
                levels_flat_native := levels_flat_native (memory s) |} s.

Definition begin_on_curr_row (frame_part : FramePart) : bool :=
  bool_decide (frame_part = RIGHT) && bool_decide (exclude_mode = CURRENT_ROW).
Definition end_on_curr_row (frame_part : FramePart) : bool :=
  bool_decide (frame_part = LEFT) && bool_decide (exclude_mode = CURRENT_ROW).

(** The arguments of a part for one row: begins, ends and bounds. *)
Record FrameArgs := { arg_begin : Z; arg_end : Z; arg_bound : Z }.

Definition FrameBegins (a : FrameArgs) (frame_part : FramePart) : Z :=
  if decide (frame_part = RIGHT) then arg_bound a else arg_begin a.
Definition FrameEnds (a : FrameArgs) (frame_part : FramePart) : Z :=
  if decide (frame_part = LEFT) then arg_bound a else arg_end a.

(** The clamped range of a row. *)
Definition range_begin (frame_part : FramePart) (a : FrameArgs) (cur_row : Z) : Z :=
  Z.max (if begin_on_curr_row frame_part then cur_row + 1 else arg_begin a) (FrameBegins a frame_part).
Definition range_end (frame_part : FramePart) (a : FrameArgs) (cur_row : Z) : Z :=
  Z.min (if end_on_curr_row frame_part then cur_row else arg_end a) (FrameEnds a frame_part).

Record Prev := { prev_state : option StatePtr; prev_begin : Z; prev_end : Z }.

(** The state of the previous row with the same range. *)
Definition shared_state (prev : Prev) (l_idx : nat) (begin end_ : Z) : option StatePtr :=
  if (l_idx =? 1)%nat && (begin =? prev_begin prev) && (end_ =? prev_end prev) then prev_state prev else None.

Definition next_prev (prev : Prev) (l_idx : nat) (begin end_ : Z) (state_ptr : StatePtr) : Prev :=
  if order_insensitive aggr && (l_idx =? 1)%nat
  then {| prev_state := Some state_ptr; prev_begin := begin; prev_end := end_ |} else prev.

(** Level 0 is skipped. *)
Definition level_value (l_idx : nat) (begin end_ : Z) (state_ptr : StatePtr) (s : WindowSegmentTreePart)
    : option WindowSegmentTreePart :=
  if (l_idx =? 0)%nat then Some s else WindowSegmentValue l_idx begin end_ state_ptr s.

Definition first_parent (begin : Z) : Z :=
  if begin =? begin / TREE_FANOUT * TREE_FANOUT then begin / TREE_FANOUT else begin / TREE_FANOUT + 1.

(** The sides of a range that its parents do not cover. *)
Definition side_values (l_idx : nat) (begin end_ : Z) (state_ptr : StatePtr) (right_max : nat)
    (s : WindowSegmentTreePart) : option (nat * WindowSegmentTreePart) :=
  let group_begin := begin / TREE_FANOUT * TREE_FANOUT in
  let group_end := end_ / TREE_FANOUT * TREE_FANOUT in
  s ← (if begin =? group_begin then Some s else level_value l_idx begin (group_begin + TREE_FANOUT) state_ptr s);
  if (end_ =? group_end) || (l_idx =? 0)%nat then Some (right_max, s)
  else if order_insensitive aggr then
    s ← level_value l_idx group_end end_ state_ptr s; Some (right_max, s)
  else
    r ← zstore (right_stack s) (Z.of_nat l_idx) (group_end, end_);
    Some (l_idx, set_right_stack r s).

(** The loop over the levels. *)
Fixpoint climb (fuel l_idx : nat) (begin end_ : Z) (state_ptr : StatePtr) (prev : Prev) (right_max : nat)
    (s : WindowSegmentTreePart) : option (Prev * nat * WindowSegmentTreePart) :=
  match fuel with
  | O => Some (prev, right_max, s)
  | S fuel =>
      match shared_state prev l_idx begin end_ with
      | Some source =>
          s ← push true state_ptr (node source) s; Some (prev, right_max, s)
      | None =>
          let prev := next_prev prev l_idx begin end_ state_ptr in
          if begin / TREE_FANOUT =? end_ / TREE_FANOUT then
            s ← level_value l_idx begin end_ state_ptr s; Some (prev, right_max, s)
          else
            '(right_max, s) ← side_values l_idx begin end_ state_ptr right_max s;
            climb fuel (S l_idx) (first_parent begin) (end_ / TREE_FANOUT) state_ptr prev right_max s
      end
  end.

(** The right sides from the top of the tree to its bottom. *)
Fixpoint flush_right (l_idx : nat) (state_ptr : StatePtr) (s : WindowSegmentTreePart)
    : option WindowSegmentTreePart :=
  match l_idx with
  | O => Some s
  | S l =>
      '(group_end, end_) ← right_stack s !! l_idx;
      s ← (if end_ =? 0 then Some s
           else
             s ← WindowSegmentValue l_idx group_end end_ state_ptr s;
             r ← zstore (right_stack s) (Z.of_nat l_idx) (0, 0);
             Some (set_right_stack r s));
      flush_right l state_ptr s
  end.

Definition max_level : nat := S (length levels_flat_start).

(** One row of [EvaluateUpperLevels]. *)
Definition upper_row (frame_part : FramePart) (row_idx : Z) (args : list FrameArgs)
    (ps : Prev * WindowSegmentTreePart) (rid : nat) : option (Prev * WindowSegmentTreePart) :=
  a ← args !! rid;
  let begin := range_begin frame_part a (row_idx + Z.of_nat rid) in
  let end_ := range_end frame_part a (row_idx + Z.of_nat rid) in
  if end_ <=? begin then Some ps
  else
    '(prev, right_max, s) ← climb max_level 0 begin end_ (result_state rid) (fst ps) 0 (snd ps);
    s ← flush_right right_max (result_state rid) s;
    Some (prev, s).

Definition EvaluateUpperLevels (frame_part : FramePart) (row_idx : Z) (args : list FrameArgs)
    (s : WindowSegmentTreePart) : option WindowSegmentTreePart :=
  let r := take max_level (right_stack s) in
  let s := set_right_stack (r ++ replicate (max_level - length r) (0, 0)) s in
  '(_, s) ← ofold (upper_row frame_part row_idx args)
              ({| prev_state := None; prev_begin := 1; prev_end := 0 |}, s) (seq 0 (length args));
  FlushStates true s.

(** One row of [EvaluateLeaves]. *)
Definition leaves_row (frame_part leaf_part : FramePart) (row_idx : Z) (args : list FrameArgs)
    (s : WindowSegmentTreePart) (rid : nat) : option WindowSegmentTreePart :=
  a ← args !! rid;
  let state_ptr := result_state rid in
  let cur_row := row_idx + Z.of_nat rid in
  let compute_left := bool_decide (leaf_part <> RIGHT) in
  let compute_right := bool_decide (leaf_part <> LEFT) in
  let add_curr_row :=
    compute_left && bool_decide (frame_part = RIGHT) && bool_decide (exclude_mode = TIES) in
  let begin := range_begin frame_part a cur_row in
  let end_ := range_end frame_part a cur_row in
  s ← (if add_curr_row && (FrameBegins a frame_part <=? cur_row) && (cur_row <? FrameEnds a frame_part)
       then WindowSegmentValue 0 cur_row (cur_row + 1) state_ptr s else Some s);
  if end_ <=? begin then Some s
  else
    let parent_begin := begin / TREE_FANOUT in
    let parent_end := end_ / TREE_FANOUT in
    if parent_begin =? parent_end then
      if compute_left then WindowSegmentValue 0 begin end_ state_ptr s else Some s
    else
      let group_begin := parent_begin * TREE_FANOUT in
      s ← (if negb (begin =? group_begin) && compute_left
           then WindowSegmentValue 0 begin (group_begin + TREE_FANOUT) state_ptr s else Some s);
      let group_end := parent_end * TREE_FANOUT in
      if negb (end_ =? group_end) && compute_right
      then WindowSegmentValue 0 group_end end_ state_ptr s else Some s.

Definition EvaluateLeaves (frame_part leaf_part : FramePart) (row_idx : Z) (args : list FrameArgs)
    (s : WindowSegmentTreePart) : option WindowSegmentTreePart :=
  s ← ofold (leaves_row frame_part leaf_part row_idx args) s (seq 0 (length args));
  FlushStates false s.

Definition Part_Evaluate (frame_part : FramePart) (row_idx : Z) (args : list FrameArgs)
    (s : WindowSegmentTreePart) : option WindowSegmentTreePart :=
  let s := Part_Initialize (length args) s in
  if order_insensitive aggr then
    s ← EvaluateUpperLevels frame_part row_idx args s;
    EvaluateLeaves frame_part FULL row_idx args s
  else
    s ← EvaluateLeaves frame_part LEFT row_idx args s;
    s ← EvaluateUpperLevels frame_part row_idx args s;
    EvaluateLeaves frame_part RIGHT row_idx args s.

(** The columns of bounds that a chunk is evaluated with. *)
Record FrameRow := { window_begin : Z; window_end : Z; peer_begin : Z; peer_end : Z }.

Record LocalState := {
  part : option WindowSegmentTreePart;
  right_part : option WindowSegmentTreePart
}.

(** [WindowSegmentTreeLocalState::Evaluate] and [WindowSegmentTreePart::Finalize]. *)
Definition Evaluate (tree : list St) (bounds : list FrameRow) (row_idx : Z) (l : LocalState)
    : option (list Res * LocalState) :=
  let count := length bounds in
  let p := default (WindowSegmentTreePart_new tree) (part l) in
  '(p, other) ←
    (if decide (exclude_mode = NO_OTHER) then
       p ← Part_Evaluate FULL row_idx
             ((fun b => {| arg_begin := window_begin b; arg_end := window_end b; arg_bound := 0 |}) <$> bounds) p;
       Some (p, right_part l)
     else
       let exclude_current := bool_decide (exclude_mode = CURRENT_ROW) in
       p ← Part_Evaluate LEFT row_idx
             ((fun b => {| arg_begin := window_begin b;
                           arg_end := if exclude_current then peer_end b else peer_begin b;
                           arg_bound := window_end b |}) <$> bounds) p;
       other ← Part_Evaluate RIGHT row_idx
             ((fun b => {| arg_begin := if exclude_current then peer_begin b else peer_end b;
                           arg_end := window_end b;
                           arg_bound := window_begin b |}) <$> bounds)
             (default (WindowSegmentTreePart_new tree) (right_part l));
       let states := zip_with (combine aggr) (take count (result_states (memory other)))
                       (take count (result_states (memory p))) in
       Some (set_memory {| result_states := states ++ drop count (result_states (memory p));
                           levels_flat_native := levels_flat_native (memory p) |} p, Some other));
  Some (finalize aggr <$> take count (result_states (memory p)), {| part := Some p; right_part := other |}).
End tree.
Arguments WindowSegmentTreePart : clear implicits.
Arguments LocalState : clear implicits.
Arguments Memory : clear implicits.

(** ** Building *)

(** Where a thread is in [WindowSegmentTreeLocalState::Finalize]. *)
Inductive BuildPc : Set :=
  | build_load
  | build_claim (level_current : nat)
  | build_wait (level_current : nat)
  | build_compute (level_current : nat) (build_idx : Z)
  | build_complete (level_current : nat) (build_idx : Z)
  | build_advance (level_current : nat)
  | build_done.

#[export] Instance BuildPc_eq_dec : EqDecision BuildPc.
Proof. solve_decision. Defined.

Section build.
Context {R St Res : Type} (aggr : AggregateFunction R St Res) (collection : WindowCollection R).
Context (filter_mask : ValidityArray) (group_count : Z).

Abbreviation levels_flat_start := (fst (levels_flat group_count)).
Abbreviation Part := (WindowSegmentTreePart St).

Record GlobalState := {
  tree_states : list St;
  build_level : nat;
  build_started : list Z;
  build_completed : list Z
}.

Record BuildThread := { build_pc : BuildPc; gtstate : Part }.

Record BuildSystem := { build_global : GlobalState; build_threads : list BuildThread }.

Definition leaf_count : Z := Z.of_nat (length (collection_rows collection)).

Definition level_size (level_current : nat) : Z :=
  match level_current with
  | O => leaf_count
  | S l => znth 0 levels_flat_start (Z.of_nat level_current) - znth 0 levels_flat_start (Z.of_nat l)
  end.

Definition build_count (level_current : nat) : Z :=
  (level_size level_current + TREE_FANOUT - 1) / TREE_FANOUT.

Definition GlobalState_new : GlobalState :=
  {| tree_states := States_Initialize aggr (Z.to_nat (snd (levels_flat group_count)));
     build_level := 0;
     build_started := replicate (length levels_flat_start) 0;
     build_completed := replicate (length levels_flat_start) 0 |}.

(** The node of an index in the level that is built, from its children. *)
Definition compute_node (level_current : nat) (build_idx : Z) (s : Part) : option Part :=
  let pos := build_idx * TREE_FANOUT in
  start ← levels_flat_start !! level_current;
  s ← WindowSegmentValue aggr collection filter_mask levels_flat_start level_current pos
        (Z.min (level_size level_current) (pos + TREE_FANOUT)) (tree_state (start + build_idx)) s;
  FlushStates aggr collection (0 <? level_current)%nat s.

(** A step up to the next atomic access. *)
Definition build_step (g : GlobalState) (t : BuildThread) : option (GlobalState * BuildThread) :=
  let goto pc := {| build_pc := pc; gtstate := gtstate t |} in
  match build_pc t with
  | build_load =>
      let level_current := build_level g in
      if (length levels_flat_start <=? level_current)%nat then Some (g, goto build_done)
      else if level_size level_current <=? 1 then Some (g, goto build_done)
      else Some (g, goto (build_claim level_current))
  | build_claim level_current =>
      build_idx ← build_started g !! level_current;
      Some ({| tree_states := tree_states g; build_level := build_level g;
               build_started := <[level_current := build_idx + 1]> (build_started g);
               build_completed := build_completed g |},
            goto (if build_count level_current <=? build_idx then build_wait level_current
                  else build_compute level_current build_idx))
  | build_wait level_current =>
      Some (g, goto (if (level_current =? build_level g)%nat then build_wait level_current else build_load))
  | build_compute level_current build_idx =>
      s ← compute_node level_current build_idx
            (set_memory {| result_states := result_states (memory (gtstate t));
                           levels_flat_native := tree_states g |} (gtstate t));
      Some ({| tree_states := levels_flat_native (memory s); build_level := build_level g;
               build_started := build_started g; build_completed := build_completed g |},
            {| build_pc := build_complete level_current build_idx; gtstate := s |})
  | build_complete level_current build_idx =>
      completed ← build_completed g !! level_current;
      Some ({| tree_states := tree_states g; build_level := build_level g; build_started := build_started g;
               build_completed := <[level_current := completed + 1]> (build_completed g) |},
            goto (if completed + 1 =? build_count level_current then build_advance level_current else build_load))
  | build_advance level_current =>
      Some ({| tree_states := tree_states g; build_level := S (build_level g);
               build_started := build_started g; build_completed := build_completed g |}, goto build_load)
  | build_done => Some (g, t)
  end.

Definition system_step (s : BuildSystem) (t : nat) : option BuildSystem :=
  thread ← build_threads s !! t;
  '(g, thread) ← build_step (build_global s) thread;
  Some {| build_global := g; build_threads := <[t := thread]> (build_threads s) |}.

Definition BuildSystem_new (threads : nat) : BuildSystem :=
  {| build_global := GlobalState_new;
     build_threads := replicate threads
       {| build_pc := build_load; gtstate := WindowSegmentTreePart_new [] |} |}.

Definition run_build (threads : nat) (schedule : list nat) : option BuildSystem :=
  ofold system_step (BuildSystem_new threads) schedule.
End build.
Arguments GlobalState : clear implicits.
Arguments BuildThread : clear implicits.
Arguments BuildSystem : clear implicits.
