(* ===== verification/SegmentTreeInvariant.v ===== *)
(** * The segment tree: invariants

    The nodes of a level are the aggregates of 16 nodes of the level below.  What is
    pending in the buffer of a part is seen as done already ([part_ok]), so the
    theorems on the evaluation speak of the rows that a state stands for, and a flush
    changes nothing. *)

From stdpp Require Import functions.
From S2P Require Import Prelude Validity Boundaries Aggregates SegmentTree.

(** ** Levels *)

Section levels.
Context (n : Z) (Hn : 0 <= n).

(** The number of nodes of a level, and of the levels below it without the leaves. *)
Fixpoint lsize (l : nat) : Z :=
  match l with O => n | S l => (lsize l + TREE_FANOUT - 1) / TREE_FANOUT end.

Fixpoint lstart (l : nat) : Z :=
  match l with O => 0 | S l => lstart l + lsize (S l) end.

Lemma lsize_nonneg l : 0 <= lsize l.
Proof. induction l; cbn [lsize]; [done |]. unfold TREE_FANOUT. zdm. Qed.

Lemma lstart_nonneg l : 0 <= lstart l.
Proof. induction l; [done |]. cbn [lstart]. pose proof (lsize_nonneg (S l)). lia. Qed.

Lemma lstart_mono l l' : (l <= l')%nat -> lstart l <= lstart l'.
Proof.
  induction 1 as [| l' _ IH]; [done |]. cbn [lstart]. pose proof (lsize_nonneg (S l')). lia.
Qed.

(** The levels that are built. *)
Record level_count (m : nat) : Prop := {
  levels_starts : fst (levels_flat n) = lstart <$> seq 0 (S m);
  levels_total : lstart m <= snd (levels_flat n);
  levels_inner l : (l < m)%nat -> 1 < lsize l;
  levels_top : lsize m <= 1
}.

Lemma levels_loop_spec fuel l :
  lsize l <= Z.of_nat fuel -> (forall j, (j < l)%nat -> 1 < lsize j) ->
  exists m, levels_loop fuel n (lstart <$> seq 0 (S l)) (lstart l) l = (lstart <$> seq 0 (S m), lstart m) /\
    (forall j, (j < m)%nat -> 1 < lsize j) /\ lsize m <= 1.
Proof.
  revert l. induction fuel as [| fuel IH]; intros l Hf Hj.
  { exists l. cbn [levels_loop]. split_and!; [by destruct l | done | lia]. }
  cbn [levels_loop].
  assert (match l with O => n | S l' => lstart l - znth 0 (lstart <$> seq 0 (S l)) (Z.of_nat l') end = lsize l) as ->.
  { destruct l as [| l]; [done |]. erewrite znth_lookup; cycle 1.
    { rewrite list_lookup_fmap, lookup_seq_lt by lia. done. }
    cbn [lstart]. rewrite Nat2Z.id. cbn [Nat.add]. lia. }
  destruct (Z.leb_spec (lsize l) 1); [by exists l |].
  replace (lstart l + (lsize l + TREE_FANOUT - 1) / TREE_FANOUT) with (lstart (S l)) by done.
  assert ((lstart <$> seq 0 (S l)) ++ [lstart (S l)] = lstart <$> seq 0 (S (S l))) as ->.
  { rewrite (seq_S (S l)), fmap_app. done. }
  apply IH.
  - cbn [lsize]. unfold TREE_FANOUT. zdm.
  - intros j Hl. destruct (decide (j = l)) as [-> |]; [done | apply Hj; lia].
Qed.

Lemma levels_flat_spec : exists m, level_count m.
Proof.
  destruct (levels_loop_spec (Z.to_nat n) 0) as (m & E & Hm & Ht); [cbn; lia | lia |].
  change (levels_loop (Z.to_nat n) n [0] 0 0 = (lstart <$> seq 0 (S m), lstart m)) in E.
  pose proof (lstart_nonneg m) as Hs.
  exists m. split; [| | done | done]; unfold levels_flat; rewrite E; cbn [fst snd]; [done |].
  destruct (Z.eqb_spec (lstart m) 0); lia.
Qed.

Lemma level_count_unique m m' : level_count m -> level_count m' -> m = m'.
Proof.
  intros [H1 _ _ _] [H2 _ _ _]. rewrite H1 in H2. apply (f_equal length) in H2.
  rewrite !length_fmap, !length_seq in H2. lia.
Qed.

(** The index of a node in the array, and the node of an index. *)
Lemma node_index_inj l l' i i' :
  0 <= i < lsize (S l) -> 0 <= i' < lsize (S l') -> lstart l + i = lstart l' + i' -> l = l' /\ i = i'.
Proof.
  intros Hi Hi' E. assert (l = l') as ->; [| by split; [| lia]].
  destruct (Nat.lt_trichotomy l l') as [Hl | [| Hl]]; [| done |].
  - pose proof (lstart_mono (S l) l' Hl) as Hs. cbn [lstart] in Hs. lia.
  - pose proof (lstart_mono (S l') l Hl) as Hs. cbn [lstart] in Hs. lia.
Qed.
End levels.

(** ** The rows of nodes and frames *)

Section invariant.
Context {R St Res : Type} (aggr : AggregateFunction R St Res) (spec : list R -> Res).
Context `{!AggregateLaws aggr spec}.
Context (collection : WindowCollection R) (filter_mask : ValidityArray).
Context (exclude_mode : WindowExcludeMode).

Abbreviation n := (leaf_count collection).
Abbreviation lsize := (lsize n).
Abbreviation lstart := (lstart n).
Abbreviation starts := (fst (levels_flat n)).
Abbreviation Part := (WindowSegmentTreePart St).
Abbreviation Memory := (Memory St).
Implicit Types (s : Part) (m : Memory) (p : StatePtr) (rows : list R) (l : nat).

(** The arguments are columns, and the chunks of the collection cover it. *)
Context (Hcolumns : column_count collection <> 0%nat).
Context (Hchunks : forall i, 0 <= i < n ->
  0 <= fst (chunk_range collection i) <= i /\ i < snd (chunk_range collection i) <= n).

Lemma leaf_count_nonneg : 0 <= n.
Proof. clear. unfold leaf_count. lia. Qed.

(** The rows at some positions that pass the filter. *)
Definition filtered_rows (positions : list Z) : list R :=
  omap (fun i => if ArrayRowIsValid filter_mask i then zload (collection_rows collection) i else None) positions.

Abbreviation frows a b := (filtered_rows (zrange a b)).

Lemma frows_split a b c : a <= b <= c -> frows a c = frows a b ++ frows b c.
Proof. intros H. rewrite (zrange_split a b c H). unfold filtered_rows. apply omap_app. Qed.

Lemma frows_nil a b : b <= a -> frows a b = [].
Proof. intros H. by rewrite zrange_nil. Qed.

(** The rows under the nodes [b, e) of a level. *)
Definition level_rows (l : nat) (b e : Z) : list R :=
  frows (Z.min n (b * TREE_FANOUT ^ Z.of_nat l)) (Z.min n (e * TREE_FANOUT ^ Z.of_nat l)).

Lemma level_rows_split l a b c : a <= b <= c -> level_rows l a c = level_rows l a b ++ level_rows l b c.
Proof.
  intros H. pose proof (Z.pow_pos_nonneg TREE_FANOUT (Z.of_nat l) eq_refl ltac:(lia)).
  apply frows_split. nia.
Qed.

Lemma level_rows_nil l a : level_rows l a a = [].
Proof. apply frows_nil. lia. Qed.

Lemma level_rows_up l b e : level_rows (S l) b e = level_rows l (b * TREE_FANOUT) (e * TREE_FANOUT).
Proof.
  unfold level_rows. rewrite Nat2Z.inj_succ, Z.pow_succ_r by lia.
  by rewrite !(Z.mul_assoc _ TREE_FANOUT).
Qed.

Lemma level_rows_0 b e : b <= n -> e <= n -> level_rows 0 b e = frows b e.
Proof. intros. unfold level_rows. rewrite !Z.mul_1_r. f_equal. f_equal; lia. Qed.

(** ** States and buffers *)

(** The states of a memory stand for the rows [c]. *)
Definition holds (m : Memory) (c : StatePtr -> option (list R)) : Prop :=
  forall p rows, c p = Some rows -> exists st, load_state m p = Some st /\ represents (aggr := aggr) st rows.

Implicit Types (c : StatePtr -> option (list R)).

Lemma load_store m p st st' :
  load_state m p = Some st -> exists m', store_state m p st' = Some m' /\
    forall q, load_state m' q = if decide (q = p) then Some st' else load_state m q.
Proof.
  destruct p as [rid | i]; cbn [load_state store_state]; intros Hp.
  - pose proof (lookup_lt_Some _ _ _ Hp). rewrite zstore_Some by lia. cbn [mbind option_bind]. rewrite Nat2Z.id.
    eexists. split; [done |]. intros [rid' | i']; cbn [load_state result_states levels_flat_native].
    + case_decide as E; [injection E as ->; by rewrite list_lookup_insert_eq |].
      rewrite list_lookup_insert_ne by congruence. done.
    + by rewrite decide_False.
  - unfold zload in Hp. case_decide; [| done]. pose proof (lookup_lt_Some _ _ _ Hp).
    rewrite zstore_Some by lia. cbn [mbind option_bind].
    eexists. split; [done |]. intros [rid' | i']; cbn [load_state result_states levels_flat_native].
    + by rewrite decide_False.
    + unfold zload. destruct (decide (tree_state i' = tree_state i)) as [E | E]; [injection E as -> |].
      * rewrite decide_True by done. by rewrite list_lookup_insert_eq by lia.
      * case_decide; [| done]. rewrite list_lookup_insert_ne; [done |]. intros ?. destruct E. f_equal. lia.
Qed.

Lemma holds_store m c p st st' rows :
  holds m c -> load_state m p = Some st -> represents (aggr := aggr) st' rows ->
  exists m', store_state m p st' = Some m' /\ holds m' (<[p := Some rows]> c).
Proof.
  intros Hc Hp Hr. destruct (load_store m p st st' Hp) as (m' & E & Hm). exists m'. split; [done |].
  intros q rows' Hq. rewrite Hm. case_decide as Eq.
  - subst q. rewrite fn_lookup_insert in Hq. injection Hq as <-. by exists st'.
  - rewrite fn_lookup_insert_ne in Hq by done. by apply Hc.
Qed.

Lemma holds_perm m c p rows rows' :
  order_insensitive aggr = true -> rows ≡ₚ rows' -> holds m (<[p := Some rows]> c) -> holds m (<[p := Some rows']> c).
Proof.
  intros Ho Hr Hc q rows2 Hq. destruct (decide (q = p)) as [-> | Hne].
  - rewrite fn_lookup_insert in Hq. injection Hq as <-.
    destruct (Hc p rows) as (st & Hl & Hrep); [apply fn_lookup_insert |].
    exists st. split; [done | by eapply represents_perm].
  - rewrite fn_lookup_insert_ne in Hq by done. apply Hc. by rewrite fn_lookup_insert_ne.
Qed.

Lemma holds_ext m c c' : (forall p, c p = c' p) -> holds m c -> holds m c'.
Proof. intros Hc H p rows Hp. apply H. by rewrite Hc. Qed.

Definition cursor_ok (cur : WindowCursor) : Prop :=
  0 <= current_row_index cur <= next_row_index cur /\ next_row_index cur <= n.

(** With everything that is pending done, the states stand for the rows [c]. *)
Record part_ok (combining : bool) s c : Prop := {
  part_cursor : cursor_ok (cursor s);
  part_memory : exists m, ofold (flush_entry aggr collection combining (cursor s)) (memory s) (flush_buffer s) = Some m /\
    holds m c
}.

(** A part between two calls. *)
Record part_flushed s c : Prop := {
  flushed_cursor : cursor_ok (cursor s);
  flushed_buffer : flush_buffer s = [];
  flushed_memory : holds (memory s) c
}.

Lemma flushed_ok combining s c : part_flushed s c -> part_ok combining s c.
Proof. intros [? Hb ?]. split; [done |]. rewrite Hb. by exists (memory s). Qed.

Lemma FlushStates_ok combining s c :
  part_ok combining s c -> exists s', FlushStates aggr collection combining s = Some s' /\ part_flushed s' c /\
    cursor s' = cursor s /\ right_stack s' = right_stack s.
Proof.
  intros [Hc (m & E & Hm)]. unfold FlushStates. rewrite E. cbn [mbind option_bind]. eexists. split; [done |].
  by split_and!.
Qed.

Lemma part_ok_perm combining s c p rows rows' :
  order_insensitive aggr = true -> rows ≡ₚ rows' ->
  part_ok combining s (<[p := Some rows]> c) -> part_ok combining s (<[p := Some rows']> c).
Proof. intros Ho Hr [Hc (m & E & Hm)]. split; [done |]. exists m. split; [done | by eapply holds_perm]. Qed.

Lemma part_ok_ext combining s c c' : (forall p, c p = c' p) -> part_ok combining s c -> part_ok combining s c'.
Proof. intros Hc [H1 (m & E & Hm)]. split; [done |]. exists m. split; [done | by eapply holds_ext]. Qed.

(** What only moves the buffer and the memory. *)
Definition same_place s s' : Prop := cursor s' = cursor s /\ right_stack s' = right_stack s.

Lemma push_ok combining p e s c c' :
  part_ok combining s c ->
  (forall m, holds m c -> exists m', flush_entry aggr collection combining (cursor s) m (p, e) = Some m' /\ holds m' c') ->
  exists s', push aggr collection combining p e s = Some s' /\ part_ok combining s' c' /\ same_place s s'.
Proof.
  intros [Hc (m & E & Hm)] He. destruct (He m Hm) as (m' & E' & Hm').
  assert (part_ok combining (set_buffer (flush_buffer s ++ [(p, e)]) s) c') as Hs.
  { split; [done |]. exists m'. split; [| done]. cbn [flush_buffer memory cursor set_buffer].
    rewrite ofold_app, E. cbn [mbind option_bind]. rewrite ofold_cons, E'. done. }
  unfold push. case_if.
  - destruct (FlushStates_ok _ _ _ Hs) as (s' & E1 & Hs' & H1 & H2). exists s'. split; [done |].
    split; [by apply flushed_ok | done].
  - by eexists.
Qed.

(** The state [p] gets more rows, while the others keep those of [c]. *)
Abbreviation with_rows c p rows := (<[p := Some rows]> c).

Lemma insert_twice c p (x y : option (list R)) q : (<[p := y]> (<[p := x]> c)) q = (<[p := y]> c) q.
Proof.
  destruct (decide (q = p)) as [-> | Hq]; [by rewrite !fn_lookup_insert |].
  by rewrite !fn_lookup_insert_ne by done.
Qed.

Lemma push_node_ok p q s c rows rows' :
  part_ok true s (with_rows c p rows) -> q <> p -> c q = Some rows' ->
  exists s', push aggr collection true p (node q) s = Some s' /\ part_ok true s' (with_rows c p (rows ++ rows')) /\
    same_place s s'.
Proof.
  intros Hs Hpq Hq. eapply push_ok; [exact Hs |]. intros m Hm. unfold flush_entry. cbn [fst snd].
  destruct (Hm q rows') as (src & -> & Hsrc); [by rewrite fn_lookup_insert_ne |].
  destruct (Hm p rows) as (tgt & Etgt & Htgt); [by rewrite fn_lookup_insert |].
  rewrite Etgt. cbn [mbind option_bind].
  destruct (holds_store m _ p tgt (combine aggr src tgt) (rows ++ rows') Hm Etgt) as (m' & E & Hm');
    [by apply represents_combine |].
  exists m'. split; [done |]. eapply holds_ext; [| exact Hm']. intros x. apply insert_twice.
Qed.

Lemma push_leaf_ok p offset r s c rows :
  part_ok false s (with_rows c p rows) -> chunk_row collection (cursor s) offset = Some r ->
  exists s', push aggr collection false p (leaf offset) s = Some s' /\ part_ok false s' (with_rows c p (rows ++ [r])) /\
    same_place s s'.
Proof.
  intros Hs Hr. eapply push_ok; [exact Hs |]. intros m Hm. unfold flush_entry. cbn [fst snd]. rewrite Hr.
  destruct (Hm p rows) as (tgt & Etgt & Htgt); [by rewrite fn_lookup_insert |].
  cbn [mbind option_bind]. rewrite Etgt. cbn [mbind option_bind].
  destruct (holds_store m _ p tgt (update aggr r tgt) (rows ++ [r]) Hm Etgt) as (m' & E & Hm');
    [by apply represents_update |].
  exists m'. split; [done |]. eapply holds_ext; [| exact Hm']. intros x. apply insert_twice.
Qed.

(** ** The rows of a range *)

Lemma chunk_row_visible cur i :
  cursor_ok cur -> RowIsVisible cur i = true ->
  chunk_row collection cur (i - current_row_index cur) = zload (collection_rows collection) i.
Proof.
  intros [H1 H2] Hv. unfold RowIsVisible in Hv. bool_to_prop. unfold chunk_row.
  rewrite (proj2 (Z.leb_le _ _)), (proj2 (Z.ltb_lt _ _)) by lia. cbn. f_equal. lia.
Qed.

Lemma frows_snoc a b :
  a <= b -> frows a (b + 1) = frows a b ++
    option_list (if ArrayRowIsValid filter_mask b then zload (collection_rows collection) b else None).
Proof.
  intros H. rewrite zrange_snoc by done. unfold filtered_rows. rewrite omap_app. cbn.
  by destruct (if ArrayRowIsValid filter_mask b then _ else _).
Qed.

Lemma zload_rows i : 0 <= i < n -> exists r, zload (collection_rows collection) i = Some r.
Proof.
  intros H. unfold zload. rewrite decide_True by lia. apply lookup_lt_is_Some_2.
  unfold leaf_count in H. lia.
Qed.

Lemma ExtractFrame_ok p b e s c rows :
  part_ok false s (with_rows c p rows) -> b < e ->
  current_row_index (cursor s) <= b -> e <= next_row_index (cursor s) ->
  exists s', ExtractFrame aggr collection filter_mask b e p s = Some s' /\
    part_ok false s' (with_rows c p (rows ++ frows b e)) /\ same_place s s'.
Proof.
  intros Hs Hbe Hb He. pose proof (part_cursor _ _ _ Hs) as Hcur.
  assert (forall i, b <= i < e -> RowIsVisible (cursor s) i = true) as Hvis.
  { intros i Hi. unfold RowIsVisible. by rewrite (proj2 (Z.leb_le _ _)), (proj2 (Z.ltb_lt _ _)) by lia. }
  assert (forall i, b <= i < e -> 0 <= i < n) as Hin by (destruct Hcur; lia).
  assert (forall i s1, b <= i < e ->
    part_ok false s1 (with_rows c p (rows ++ frows b i)) /\ same_place s s1 ->
    ArrayRowIsValid filter_mask i = true ->
    exists s', push aggr collection false p (leaf (i - current_row_index (cursor s))) s1 = Some s' /\
      part_ok false s' (with_rows c p (rows ++ frows b (i + 1))) /\ same_place s s') as Hpush.
  { intros i s1 Hi [Hs1 [Ecur Est]] Hv. destruct (zload_rows i (Hin i Hi)) as [r Hr].
    destruct (push_leaf_ok p (i - current_row_index (cursor s)) r s1 c _ Hs1) as (s2 & E2 & Hs2 & Ecur2 & Est2).
    { rewrite Ecur, chunk_row_visible by auto. done. }
    exists s2. split; [done |]. rewrite frows_snoc, Hv, Hr by lia. cbn [option_list].
    rewrite app_assoc. split; [done | split; congruence]. }
  unfold ExtractFrame. destruct (ArrayAllValid filter_mask) eqn:Eall.
  - unfold RowOffset. rewrite Hvis by lia. cbn [mbind option_bind].
    destruct (ofold_zrange_inv (fun s0 i => push aggr collection false p (leaf (b - current_row_index (cursor s) + i)) s0)
      (fun i s1 => part_ok false s1 (with_rows c p (rows ++ frows b (b + i))) /\ same_place s s1) 0 (e - b) s)
      as (s' & E & Hs'); [lia | | |].
    + rewrite Z.add_0_r, frows_nil, app_nil_r by lia. done.
    + intros i s1 Hi H1. replace (b - current_row_index (cursor s) + i) with (b + i - current_row_index (cursor s)) by lia.
      rewrite Z.add_assoc. apply Hpush; [lia | done |].
      unfold ArrayAllValid, ArrayRowIsValid in *. by destruct (array_mask filter_mask).
    + exists s'. replace (b + (e - b)) with e in Hs' by lia. done.
  - apply (ofold_zrange_inv _ (fun i s1 => part_ok false s1 (with_rows c p (rows ++ frows b i)) /\ same_place s s1));
      [lia | by rewrite frows_nil, app_nil_r by lia |].
    intros i s1 Hi H1. destruct (ArrayRowIsValid filter_mask i) eqn:Ev.
    + pose proof H1 as [_ [Ecur _]]. unfold RowOffset. rewrite Ecur, Hvis by done. cbn [mbind option_bind].
      by apply Hpush.
    + exists s1. split; [done |]. rewrite frows_snoc, Ev by lia. cbn [option_list]. by rewrite app_nil_r.
Qed.

Lemma extract_leaves_ok fuel p b e s c rows :
  part_ok false s (with_rows c p rows) -> 0 <= b -> e <= n -> e - b <= Z.of_nat fuel ->
  exists s', extract_leaves aggr collection filter_mask fuel b e p s = Some s' /\
    part_ok false s' (with_rows c p (rows ++ frows b e)) /\ right_stack s' = right_stack s.
Proof.
  revert b s rows. induction fuel as [| fuel IH]; intros b s rows Hs Hb He Hf; cbn [extract_leaves].
  { destruct (Z.ltb_spec b e); [lia |]. exists s. rewrite frows_nil, app_nil_r by done. done. }
  destruct (Z.ltb_spec b e); cycle 1.
  { exists s. rewrite frows_nil, app_nil_r by done. done. }
  assert (exists s1, (if RowIsVisible (cursor s) b then Some s
             else s ← FlushStates aggr collection false s; Some (set_cursor (Seek collection (cursor s) b) s)) = Some s1 /\
    part_ok false s1 (with_rows c p rows) /\ RowIsVisible (cursor s1) b = true /\
    right_stack s1 = right_stack s) as (s1 & -> & Hs1 & Hv & Est).
  { destruct (RowIsVisible (cursor s) b) eqn:Ev; [by exists s |].
    destruct (FlushStates_ok _ _ _ Hs) as (s1 & -> & [Hc1 Hb1 Hm1] & Ecur & Est). cbn [mbind option_bind].
    eexists. split; [done |]. unfold Seek. rewrite Ecur, Ev.
    destruct (Hchunks b) as [[? ?] [? ?]]; [lia |]. destruct (chunk_range collection b) as [cur next]. cbn [fst snd] in *.
    split_and!; [apply flushed_ok; split; [split; cbn; lia | done | done] | | done].
    unfold RowIsVisible. cbn. by rewrite (proj2 (Z.leb_le _ _)), (proj2 (Z.ltb_lt _ _)) by lia. }
  cbn [mbind option_bind]. unfold RowIsVisible in Hv. bool_to_prop.
  destruct (ExtractFrame_ok p b (Z.min e (next_row_index (cursor s1))) s1 c rows Hs1) as (s2 & -> & Hs2 & _ & Est2);
    [lia | lia | lia |]. cbn [mbind option_bind].
  destruct (IH (Z.min e (next_row_index (cursor s1))) s2 _ Hs2) as (s3 & E3 & Hs3 & Est3); [lia | lia | lia |].
  exists s3. rewrite E3. split; [done |]. split; [| congruence].
  rewrite (frows_split b (Z.min e (next_row_index (cursor s1))) e), app_assoc by lia. done.
Qed.

(** ** The nodes of a level *)

Context (levels : nat) (Hlevels : level_count n levels).

(** The nodes of the levels up to [l] are complete. *)
Definition tree_ok (l : nat) c : Prop :=
  forall k i, (k < l)%nat -> 0 <= i < lsize (S k) ->
    c (tree_state (lstart k + i)) = Some (level_rows (S k) i (i + 1)).

Lemma starts_lookup l : (l <= levels)%nat -> starts !! l = Some (lstart l).
Proof.
  intros Hl. rewrite (levels_starts _ _ Hlevels), list_lookup_fmap, lookup_seq_lt by lia. done.
Qed.

Lemma WindowSegmentValue_ok l p b e s c rows :
  part_ok (0 <? l)%nat s (with_rows c p rows) -> tree_ok l c -> (l <= levels)%nat ->
  0 <= b <= e -> e <= lsize l ->
  (forall k i, (S k = l)%nat -> b <= i < e -> p <> tree_state (lstart k + i)) ->
  exists s', WindowSegmentValue aggr collection filter_mask starts l b e p s = Some s' /\
    part_ok (0 <? l)%nat s' (with_rows c p (rows ++ level_rows l b e)) /\ right_stack s' = right_stack s.
Proof.
  intros Hs Hc Hl Hbe He Hp. unfold WindowSegmentValue. destruct (Z.ltb_spec e b); [lia |].
  rewrite (proj2 (Nat.eqb_neq _ _) Hcolumns), orb_false_r.
  destruct (Z.eqb_spec b e) as [-> |].
  { exists s. rewrite level_rows_nil, app_nil_r. done. }
  destruct l as [| l].
  - cbn in He. rewrite level_rows_0 by lia.
    destruct (extract_leaves_ok (Z.to_nat (e - b)) p b e s c rows) as (s' & E & H1 & H2); [done | lia | lia | lia |].
    by exists s'.
  - rewrite starts_lookup by lia. cbn [mbind option_bind].
    destruct (ofold_zrange_inv (fun s0 i => push aggr collection true p (node (tree_state (b + lstart l + i))) s0)
      (fun i s1 => part_ok true s1 (with_rows c p (rows ++ level_rows (S l) b (b + i))) /\ right_stack s1 = right_stack s)
      0 (e - b) s) as (s' & E & Hs'); [lia | | |].
    + rewrite Z.add_0_r, level_rows_nil, app_nil_r by lia. done.
    + intros i s1 Hi [Hs1 Est].
      destruct (push_node_ok p (tree_state (b + lstart l + i)) s1 c _ (level_rows (S l) (b + i) (b + i + 1)) Hs1)
        as (s2 & E2 & Hs2 & _ & Est2).
      * intros <-. apply (Hp l (b + i)); [done | lia | f_equal; lia].
      * replace (b + lstart l + i) with (lstart l + (b + i)) by lia. apply Hc; lia.
      * exists s2. split; [done |]. rewrite <- app_assoc, <- level_rows_split in Hs2 by lia.
        rewrite Z.add_assoc. split; [done | congruence].
    + exists s'. replace (b + (e - b)) with e in Hs' by lia. split; [exact E | done].
Qed.

(** ** Climbing the tree *)

(** The rows of a range: its ragged left side, the nodes above, its ragged right side. *)
Definition left_side (l : nat) (b e : Z) : list R :=
  if b / TREE_FANOUT =? e / TREE_FANOUT then level_rows l b e
  else if b =? b / TREE_FANOUT * TREE_FANOUT then []
  else level_rows l b (b / TREE_FANOUT * TREE_FANOUT + TREE_FANOUT).

Definition upper_side (l : nat) (b e : Z) : list R :=
  if b / TREE_FANOUT =? e / TREE_FANOUT then [] else level_rows (S l) (first_parent b) (e / TREE_FANOUT).

Definition right_side (l : nat) (b e : Z) : list R :=
  if b / TREE_FANOUT =? e / TREE_FANOUT then []
  else if e =? e / TREE_FANOUT * TREE_FANOUT then []
  else level_rows l (e / TREE_FANOUT * TREE_FANOUT) e.

Lemma parents_ordered b e : 0 <= b <= e -> b / TREE_FANOUT <> e / TREE_FANOUT ->
  0 <= first_parent b <= e / TREE_FANOUT /\ TREE_FANOUT <= e.
Proof.
  unfold first_parent, TREE_FANOUT. intros H1 H2. destruct (Z.eqb_spec b (b / 16 * 16)); zdm.
Qed.

Lemma level_rows_sides l b e : 0 <= b <= e -> level_rows l b e = left_side l b e ++ upper_side l b e ++ right_side l b e.
Proof.
  intros Hbe. unfold left_side, upper_side, right_side.
  destruct (Z.eqb_spec (b / TREE_FANOUT) (e / TREE_FANOUT)) as [E | E]; [by rewrite !app_nil_r |].
  destruct (parents_ordered b e Hbe E) as [Hp _]. revert Hp. unfold first_parent. rewrite level_rows_up.
  destruct (Z.eqb_spec b (b / TREE_FANOUT * TREE_FANOUT)) as [Eb | Eb],
    (Z.eqb_spec e (e / TREE_FANOUT * TREE_FANOUT)) as [Ee | Ee]; intros Hp; unfold TREE_FANOUT in *;
    rewrite ?app_nil_l, ?app_nil_r, ?Z.mul_add_distr_r, ?Z.mul_1_l.
  - by rewrite <- Eb, <- Ee.
  - rewrite <- Eb, <- level_rows_split; [done | zdm].
  - rewrite <- Ee, <- level_rows_split; [done | zdm].
  - rewrite <- level_rows_split, <- level_rows_split; [done | zdm ..].
Qed.

(** The cached right sides of the levels from [k] down to 1. *)
Fixpoint rights (stack : list (Z * Z)) (k : nat) : list R :=
  match k with
  | O => []
  | S k' =>
      match stack !! k with
      | Some (b, e) => if e =? 0 then [] else level_rows k b e
      | None => []
      end ++ rights stack k'
  end.

Record stack_ok (stack : list (Z * Z)) : Prop := {
  stack_length : length stack = S (S levels);
  stack_entry l b e : stack !! l = Some (b, e) -> (b = 0 /\ e = 0) \/ (0 <= b < e /\ e <= lsize l /\ (1 <= l <= levels)%nat)
}.

Definition zero_above (stack : list (Z * Z)) (k : nat) : Prop :=
  forall l x, (k < l)%nat -> stack !! l = Some x -> x = (0, 0).

Lemma rights_zero stack k k' : zero_above stack k -> (k <= k')%nat -> rights stack k' = rights stack k.
Proof.
  intros Hz. induction 1 as [| k' Hk IH]; [done |]. cbn [rights]. rewrite IH.
  destruct (stack !! S k') as [x |] eqn:E; [| done]. by rewrite (Hz (S k') x ltac:(lia) E).
Qed.

Lemma rights_insert stack k l x : (k < l)%nat -> rights (<[l := x]> stack) k = rights stack k.
Proof.
  induction k as [| k IH]; intros Hl; [done |]. cbn [rights]. rewrite IH by lia.
  by rewrite list_lookup_insert_ne by lia.
Qed.

Lemma stack_insert stack l b e :
  stack_ok stack -> 0 <= b < e -> e <= lsize l -> (1 <= l <= levels)%nat -> stack_ok (<[l := (b, e)]> stack).
Proof.
  intros [Hs He] H1 H2 H3. split; [by rewrite length_insert |]. intros l' b' e' H.
  destruct (decide (l = l')) as [<- |].
  - rewrite list_lookup_insert_eq in H by lia. injection H as <- <-. by right.
  - rewrite list_lookup_insert_ne in H by done. by apply He.
Qed.

(** The result of the loop: its state, and what is left for the right sides. *)
Definition climbed c p rows (rm : nat) (stack : list (Z * Z)) (x : list R) (rm' : nat) s' : Prop :=
  exists y, part_ok true s' (with_rows c p (rows ++ y)) /\
    stack_ok (right_stack s') /\ zero_above (right_stack s') rm' /\ (rm' <= levels)%nat /\
    y ++ rights (right_stack s') rm' ≡ₚ x ++ rights stack rm /\
    (order_insensitive aggr = false -> y ++ rights (right_stack s') rm' = x ++ rights stack rm) /\
    (order_insensitive aggr = true -> rm' = rm).

Abbreviation side_values := (side_values aggr collection filter_mask starts).
Abbreviation climb := (climb aggr collection filter_mask starts).

Lemma level_below l e : (l <= levels)%nat -> TREE_FANOUT <= e -> e <= lsize l -> (l < levels)%nat.
Proof.
  intros Hl H1 H2. destruct (decide (l = levels)) as [-> |]; [| lia].
  pose proof (levels_top _ _ Hlevels). unfold TREE_FANOUT in *. lia.
Qed.

Lemma parent_size l e : e <= lsize l -> e / TREE_FANOUT <= lsize (S l).
Proof. cbn [lsize]. unfold TREE_FANOUT. intros. zdm. Qed.

(** The step of the loop when it goes on, for a level [l >= 1]. *)
Lemma side_values_ok l rid b e c rows rm s :
  part_ok true s (with_rows c (result_state rid) rows) -> tree_ok levels c ->
  (1 <= l <= levels)%nat -> 0 <= b <= e -> e <= lsize l -> b / TREE_FANOUT <> e / TREE_FANOUT ->
  stack_ok (right_stack s) -> zero_above (right_stack s) rm -> (rm < l)%nat ->
  exists s1 rm1 y,
    side_values l b e (result_state rid) rm s = Some (rm1, s1) /\
    part_ok true s1 (with_rows c (result_state rid) (rows ++ left_side l b e ++ y)) /\
    stack_ok (right_stack s1) /\ zero_above (right_stack s1) rm1 /\ (rm1 < S l)%nat /\
    y ++ rights (right_stack s1) rm1 = right_side l b e ++ rights (right_stack s) rm /\
    (order_insensitive aggr = false -> y = []) /\ (order_insensitive aggr = true -> rm1 = rm).
Proof.
  intros Hs Ht Hl Hbe He Hne Hst Hz Hrm. destruct (parents_ordered b e Hbe Hne) as [Hp Hf].
  unfold SegmentTree.side_values, level_value. rewrite (proj2 (Nat.eqb_neq l 0)), orb_false_r by lia.
  assert (exists s1, (if b =? b / TREE_FANOUT * TREE_FANOUT then Some s
      else WindowSegmentValue aggr collection filter_mask starts l b (b / TREE_FANOUT * TREE_FANOUT + TREE_FANOUT)
             (result_state rid) s) = Some s1 /\
    part_ok true s1 (with_rows c (result_state rid) (rows ++ left_side l b e)) /\ right_stack s1 = right_stack s)
    as (s1 & -> & Hs1 & Est).
  { unfold left_side. rewrite (proj2 (Z.eqb_neq _ _) Hne).
    destruct (Z.eqb_spec b (b / TREE_FANOUT * TREE_FANOUT)) as [Eb | Eb]; [exists s; by rewrite app_nil_r |].
    destruct (WindowSegmentValue_ok l (result_state rid) b (b / TREE_FANOUT * TREE_FANOUT + TREE_FANOUT) s c rows)
      as (s1 & E1 & H1 & H2).
    - by destruct l; [lia |].
    - intros k i Hk. apply Ht. lia.
    - lia.
    - unfold TREE_FANOUT in *. zdm.
    - unfold TREE_FANOUT in *. zdm.
    - done.
    - exists s1. split_and!; [done | by destruct l; [lia |] | done]. }
  cbn [mbind option_bind]. unfold right_side. rewrite (proj2 (Z.eqb_neq _ _) Hne).
  destruct (Z.eqb_spec e (e / TREE_FANOUT * TREE_FANOUT)) as [Ee | Ee].
  { exists s1, rm, []. rewrite !app_nil_r, !app_nil_l, Est. split_and!; try done; lia. }
  destruct (order_insensitive aggr).
  - destruct (WindowSegmentValue_ok l (result_state rid) (e / TREE_FANOUT * TREE_FANOUT) e s1 c (rows ++ left_side l b e))
      as (s2 & E2 & H1 & H2).
    + by destruct l; [lia |].
    + intros k i Hk. apply Ht. lia.
    + lia.
    + unfold TREE_FANOUT in *. zdm.
    + done.
    + done.
    + rewrite E2. cbn [mbind option_bind]. exists s2, rm, (level_rows l (e / TREE_FANOUT * TREE_FANOUT) e).
      rewrite app_assoc, H2, Est. split_and!; try done; [by destruct l; [lia |] | lia].
  - rewrite zstore_Some by (rewrite Est, (stack_length _ Hst); lia). cbn [mbind option_bind].
    rewrite Nat2Z.id, Est. eexists _, l, []. split; [done |]. cbn [right_stack set_right_stack].
    rewrite app_nil_l, !app_nil_r. split_and!.
    + destruct Hs1 as [Hs1 Hm]. by split.
    + apply stack_insert; [done | | done | lia]. unfold TREE_FANOUT in *. zdm.
    + intros k x Hk E. rewrite list_lookup_insert_ne in E by lia. eapply Hz; [| done]. lia.
    + lia.
    + destruct l as [| l]; [lia |]. cbn [rights].
      rewrite list_lookup_insert_eq by (rewrite (stack_length _ Hst); lia).
      rewrite (proj2 (Z.eqb_neq e 0)) by (unfold TREE_FANOUT in *; lia). f_equal.
      rewrite rights_insert by lia. apply rights_zero; [done | lia].
    + done.
    + done.
Qed.

Lemma climb_ok fuel l rid b e c rows rm prev s :
  part_ok true s (with_rows c (result_state rid) rows) -> tree_ok levels c ->
  (1 <= l <= levels)%nat -> 0 <= b <= e -> e <= lsize l -> shared_state prev l b e = None ->
  stack_ok (right_stack s) -> zero_above (right_stack s) rm -> (rm < l)%nat -> (levels < l + fuel)%nat ->
  exists rm' s', climb fuel l b e (result_state rid) prev rm s =
      Some (next_prev aggr prev l b e (result_state rid), rm', s') /\
    climbed c (result_state rid) rows rm (right_stack s) (level_rows l b e) rm' s'.
Proof.
  revert l b e rows rm prev s. induction fuel as [| fuel IH];
    intros l b e rows rm prev s Hs Ht Hl Hbe He Hno Hst Hz Hrm Hfuel; [lia |].
  cbn [SegmentTree.climb]. rewrite Hno.
  destruct (Z.eqb_spec (b / TREE_FANOUT) (e / TREE_FANOUT)) as [Eq | Hne].
  - unfold level_value. rewrite (proj2 (Nat.eqb_neq l 0)) by lia.
    destruct (WindowSegmentValue_ok l (result_state rid) b e s c rows) as (s1 & -> & H1 & H2).
    + by destruct l; [lia |].
    + intros k i Hk. apply Ht. lia.
    + lia.
    + done.
    + done.
    + done.
    + cbn [mbind option_bind]. exists rm, s1. split; [done |]. exists (level_rows l b e). rewrite H2.
      split_and!; try done; [by destruct l; [lia |] | lia].
  - destruct (side_values_ok l rid b e c rows rm s) as (s1 & rm1 & y & -> & Hs1 & Hst1 & Hz1 & Hrm1 & Hy & Hy1 & Hy2);
      try done.
    cbn [mbind option_bind]. destruct (parents_ordered b e Hbe Hne) as [Hp Hf].
    assert (l < levels)%nat as Hll by (eapply level_below; [lia | exact Hf | done]).
    destruct (IH (S l) (first_parent b) (e / TREE_FANOUT) (rows ++ left_side l b e ++ y) rm1
      (next_prev aggr prev l b e (result_state rid)) s1) as (rm' & s' & E' & y' & Hs' & Hst' & Hz' & Hrm' & Hx & Hx1 & Hx2);
      [done | done | lia | done | by apply parent_size | | done | done | done | lia |].
    { unfold shared_state. by rewrite (proj2 (Nat.eqb_neq (S l) 1)) by lia. }
    exists rm', s'. rewrite E'. split.
    { unfold next_prev at 1. by rewrite (proj2 (Nat.eqb_neq (S l) 1)), andb_false_r by lia. }
    assert (upper_side l b e = level_rows (S l) (first_parent b) (e / TREE_FANOUT)) as Hu.
    { unfold upper_side. by rewrite (proj2 (Z.eqb_neq _ _) Hne). }
    exists (left_side l b e ++ y ++ y'). split; [by rewrite <- !app_assoc in Hs' |].
    split_and!; [done | done | done | | |].
    + rewrite level_rows_sides, Hu by done. rewrite <- !app_assoc, Hx, <- Hy. apply Permutation_app_head.
      rewrite !app_assoc. apply Permutation_app_tail, Permutation_app_comm.
    + intros Ho. rewrite level_rows_sides, Hu by done. rewrite <- !app_assoc, (Hx1 Ho).
      rewrite (Hy1 Ho) in Hy |- *. rewrite app_nil_l in Hy |- *. by rewrite Hy.
    + intros Ho. by rewrite (Hx2 Ho), (Hy2 Ho).
Qed.

(** ** The right sides *)

Abbreviation flush_right := (flush_right aggr collection filter_mask starts).

Definition all_zero (stack : list (Z * Z)) : Prop := forall l x, stack !! l = Some x -> x = (0, 0).

Lemma flush_right_ok k rid c rows s :
  part_ok true s (with_rows c (result_state rid) rows) -> tree_ok levels c -> (k <= levels)%nat ->
  stack_ok (right_stack s) ->
  exists s', flush_right k (result_state rid) s = Some s' /\
    part_ok true s' (with_rows c (result_state rid) (rows ++ rights (right_stack s) k)) /\
    stack_ok (right_stack s') /\
    forall l, right_stack s' !! l = if decide (1 <= l <= k)%nat then Some (0, 0) else right_stack s !! l.
Proof.
  revert rows s. induction k as [| k IH]; intros rows s Hs Ht Hk Hst; cbn [SegmentTree.flush_right rights].
  { exists s. rewrite app_nil_r. split_and!; [done | done | done |]. intros l. by rewrite decide_False by lia. }
  destruct (lookup_lt_is_Some_2 (right_stack s) (S k)) as [[b e] Ex]; [rewrite (stack_length _ Hst); lia |].
  rewrite Ex. cbn [mbind option_bind].
  assert (exists s1, (if e =? 0 then Some s
      else s ← WindowSegmentValue aggr collection filter_mask starts (S k) b e (result_state rid) s;
           r ← zstore (right_stack s) (Z.of_nat (S k)) (0, 0); Some (set_right_stack r s)) = Some s1 /\
    part_ok true s1 (with_rows c (result_state rid) (rows ++ if e =? 0 then [] else level_rows (S k) b e)) /\
    right_stack s1 = <[S k := (0, 0)]> (right_stack s)) as (s1 & -> & Hs1 & Est).
  { destruct (Z.eqb_spec e 0) as [-> | He].
    - exists s. rewrite app_nil_r. split_and!; [done | done |]. symmetry. apply list_insert_id.
      destruct (stack_entry _ Hst _ _ _ Ex) as [[-> _] | [? _]]; [done | lia].
    - destruct (stack_entry _ Hst _ _ _ Ex) as [[-> ->] | (H1 & H2 & H3)]; [done |].
      destruct (WindowSegmentValue_ok (S k) (result_state rid) b e s c rows) as (s1 & -> & Hs1 & Est).
      + done.
      + intros j i Hj. apply Ht. lia.
      + lia.
      + lia.
      + done.
      + done.
      + cbn [mbind option_bind]. rewrite Est, zstore_Some by (rewrite (stack_length _ Hst); lia).
        cbn [mbind option_bind]. rewrite Nat2Z.id. eexists. split; [done |]. split; [| done].
        destruct Hs1 as [Hc Hm]. by split. }
  cbn [mbind option_bind].
  assert (stack_ok (right_stack s1)) as Hst1.
  { rewrite Est. destruct Hst as [Hlen He]. split; [by rewrite length_insert |]. intros l b' e' H.
    destruct (decide (S k = l)) as [<- |].
    - rewrite list_lookup_insert_eq in H by lia. injection H as <- <-. by left.
    - rewrite list_lookup_insert_ne in H by done. by apply He. }
  destruct (IH _ s1 Hs1 Ht) as (s2 & -> & Hs2 & Hst2 & Hz); [lia | done |].
  exists s2. rewrite Est, rights_insert, <- app_assoc in Hs2 by lia.
  split_and!; [done | done | done |]. intros l. rewrite Hz, Est.
  destruct (decide (l = S k)) as [-> |].
  - rewrite decide_False, decide_True by lia. apply list_lookup_insert_eq. rewrite (stack_length _ Hst). lia.
  - rewrite list_lookup_insert_ne by done. destruct (decide (1 <= l <= k)%nat), (decide (1 <= l <= S k)%nat); done || lia.
Qed.

(** ** One row *)

Abbreviation upper_row := (upper_row aggr collection filter_mask starts exclude_mode).
Abbreviation leaves_row := (leaves_row aggr collection filter_mask starts exclude_mode).

Lemma max_level_levels : max_level starts = S (S levels).
Proof. unfold max_level. by rewrite (levels_starts _ _ Hlevels), length_fmap, length_seq. Qed.

(** From level 0 of a range. *)
Lemma climb_row b e rid c rows prev s :
  part_ok true s (with_rows c (result_state rid) rows) -> tree_ok levels c ->
  0 <= b <= e -> e <= n -> stack_ok (right_stack s) -> all_zero (right_stack s) ->
  (b / TREE_FANOUT <> e / TREE_FANOUT -> shared_state prev 1 (first_parent b) (e / TREE_FANOUT) = None) ->
  exists rm' s', climb (max_level starts) 0 b e (result_state rid) prev 0 s =
      Some (if b / TREE_FANOUT =? e / TREE_FANOUT then prev
            else next_prev aggr prev 1 (first_parent b) (e / TREE_FANOUT) (result_state rid), rm', s') /\
    climbed c (result_state rid) rows 0 (right_stack s) (upper_side 0 b e) rm' s'.
Proof.
  intros Hs Ht Hbe He Hst Hz Hno. rewrite max_level_levels. cbn [SegmentTree.climb].
  assert (shared_state prev 0 b e = None) as -> by done.
  unfold upper_side. destruct (Z.eqb_spec (b / TREE_FANOUT) (e / TREE_FANOUT)) as [Eq | Hne].
  - cbn [level_value Nat.eqb mbind option_bind]. exists 0%nat, s. unfold next_prev. rewrite andb_false_r. split; [done |].
    exists []. rewrite app_nil_r. split_and!; try done; [by intros l x _; apply Hz | lia].
  - assert (side_values 0 b e (result_state rid) 0 s = Some (0%nat, s)) as ->.
    { unfold SegmentTree.side_values, level_value. cbn [Nat.eqb]. rewrite orb_true_r.
      by destruct (b =? b / TREE_FANOUT * TREE_FANOUT). }
    cbn [mbind option_bind]. destruct (parents_ordered b e Hbe Hne) as [Hp Hf].
    assert (0 < levels)%nat as Hl by (apply (level_below 0 e); [lia | done | done]).
    assert (next_prev aggr prev 0 b e (result_state rid) = prev) as ->
      by (unfold next_prev; by rewrite andb_false_r).
    refine (climb_ok (S levels) 1 rid (first_parent b) (e / TREE_FANOUT) c rows 0 prev s Hs Ht _ Hp _ (Hno Hne) Hst _ _ _);
      [lia | by apply (parent_size 0) | | lia | lia].
    by intros l x _; apply Hz.
Qed.

(** The rows of the results of a chunk and of the nodes of the tree. *)
Definition state_rows (t : Z -> option (list R)) (count : nat) (f : nat -> list R) (p : StatePtr) : option (list R) :=
  match p with
  | result_state rid => if (rid <? count)%nat then Some (f rid) else None
  | tree_state i => t i
  end.

Definition added (f g : nat -> list R) (k : nat) (rid : nat) : list R :=
  if (rid <? k)%nat then f rid ++ g rid else f rid.

Lemma state_rows_set t count f rid p :
  (rid < count)%nat -> state_rows t count f p = (with_rows (state_rows t count f) (result_state rid) (f rid)) p.
Proof.
  intros Hr. destruct (decide (p = result_state rid)) as [-> |]; [| by rewrite fn_lookup_insert_ne].
  rewrite fn_lookup_insert. unfold state_rows. by rewrite (proj2 (Nat.ltb_lt _ _)).
Qed.

Lemma added_step t count f g k p :
  (k < count)%nat ->
  (with_rows (state_rows t count (added f g k)) (result_state k) (f k ++ g k)) p = state_rows t count (added f g (S k)) p.
Proof.
  intros Hk. destruct (decide (p = result_state k)) as [-> | Hp].
  - rewrite fn_lookup_insert. unfold state_rows, added. rewrite (proj2 (Nat.ltb_lt k count)) by done.
    by rewrite (proj2 (Nat.ltb_lt k (S k))) by lia.
  - rewrite fn_lookup_insert_ne by done. destruct p as [rid | i]; [| done]. unfold state_rows, added.
    destruct (Nat.ltb_spec rid count), (Nat.ltb_spec rid k), (Nat.ltb_spec rid (S k)); try done; [lia |].
    destruct Hp. f_equal. lia.
Qed.

Lemma added_before t count f g k combining s :
  (k < count)%nat -> part_ok combining s (state_rows t count (added f g k)) ->
  part_ok combining s (with_rows (state_rows t count (added f g k)) (result_state k) (f k)).
Proof.
  intros Hk Hs. eapply part_ok_ext; [| exact Hs]. intros p. rewrite (state_rows_set _ _ _ k p Hk).
  f_equal. f_equal. unfold added. by rewrite (proj2 (Nat.ltb_ge k k)) by lia.
Qed.

(** The nodes of the levels are complete. *)
Context (t : Z -> option (list R)).
Context (Ht : forall k i, (k < levels)%nat -> 0 <= i < lsize (S k) -> t (lstart k + i) = Some (level_rows (S k) i (i + 1))).

Lemma state_rows_tree count f : tree_ok levels (state_rows t count f).
Proof. intros k i Hk Hi. by apply Ht. Qed.

(** The frame of a row is inside of the partition. *)
Definition frame_ok (frame_part : FramePart) (a : FrameArgs) : Prop :=
  0 <= FrameBegins a frame_part /\ FrameEnds a frame_part <= n.

Definition upper_rows (frame_part : FramePart) (a : FrameArgs) (cur_row : Z) : list R :=
  let b := range_begin exclude_mode frame_part a cur_row in
  let e := range_end exclude_mode frame_part a cur_row in
  if e <=? b then [] else upper_side 0 b e.

Definition prev_ok (k : nat) (f : nat -> list R) (prev : Prev) : Prop :=
  match prev_state prev with
  | None => True
  | Some q => order_insensitive aggr = true /\
      exists j, (j < k)%nat /\ q = result_state j /\ f j = level_rows 1 (prev_begin prev) (prev_end prev)
  end.

Lemma prev_ok_more k f f' prev : (forall j, (j < k)%nat -> f j = f' j) -> prev_ok k f prev -> prev_ok (S k) f' prev.
Proof.
  unfold prev_ok. intros Hf H. destruct (prev_state prev); [| done]. destruct H as (Ho & j & Hj & E & Ef).
  split; [done |]. exists j. split_and!; [lia | done |]. by rewrite <- Hf.
Qed.

Lemma upper_row_ok frame_part row_idx args count f prev s k :
  length args = count -> (k < count)%nat -> (forall a, args !! k = Some a -> frame_ok frame_part a) ->
  let g rid := match args !! rid with Some a => upper_rows frame_part a (row_idx + Z.of_nat rid) | None => [] end in
  (order_insensitive aggr = true -> f k = []) ->
  part_ok true s (state_rows t count (added f g k)) ->
  stack_ok (right_stack s) -> all_zero (right_stack s) -> prev_ok k (added f g k) prev ->
  exists prev' s', upper_row frame_part row_idx args (prev, s) k = Some (prev', s') /\
    part_ok true s' (state_rows t count (added f g (S k))) /\
    stack_ok (right_stack s') /\ all_zero (right_stack s') /\ prev_ok (S k) (added f g (S k)) prev'.
Proof.
  intros Hcount Hk Hframe g Hf Hs Hst Hz Hprev. unfold SegmentTree.upper_row.
  destruct (lookup_lt_is_Some_2 args k) as [a Ha]; [lia |]. rewrite Ha. cbn [mbind option_bind].
  destruct (Hframe a Ha) as [Hb He].
  assert (g k = upper_rows frame_part a (row_idx + Z.of_nat k)) as Hg by (unfold g; by rewrite Ha).
  unfold upper_rows in Hg. cbv zeta in Hg.
  set (b := range_begin exclude_mode frame_part a (row_idx + Z.of_nat k)) in *.
  set (e := range_end exclude_mode frame_part a (row_idx + Z.of_nat k)) in *.
  assert (0 <= b /\ e <= n) as [Hb0 Hen] by (unfold b, e, range_begin, range_end; lia).
  assert (forall j, (j < k)%nat -> added f g k j = added f g (S k) j) as Hadd.
  { intros j Hj. unfold added. by rewrite !(proj2 (Nat.ltb_lt _ _)) by lia. }
  apply (added_before _ _ _ _ _ _ _ Hk) in Hs.
  assert (forall s' rows, rows = f k ++ g k ->
    part_ok true s' (with_rows (state_rows t count (added f g k)) (result_state k) rows) ->
    part_ok true s' (state_rows t count (added f g (S k)))) as Hdone.
  { intros s' rows -> Hs'. eapply part_ok_ext; [| exact Hs']. intros p. by apply added_step. }
  destruct (Z.leb_spec e b) as [Hbe | Hbe].
  { exists prev, s. split_and!; [done | | done | done | by eapply prev_ok_more].
    eapply Hdone; [| exact Hs]. by rewrite Hg, app_nil_r. }
  cbn [fst snd].
  assert (b / TREE_FANOUT <> e / TREE_FANOUT ->
    shared_state prev 1 (first_parent b) (e / TREE_FANOUT) = None \/
    exists q, shared_state prev 1 (first_parent b) (e / TREE_FANOUT) = Some q) as Hcase.
  { intros _. destruct (shared_state _ _ _ _); [right; by eexists | by left]. }
  destruct (decide (b / TREE_FANOUT <> e / TREE_FANOUT /\ is_Some (shared_state prev 1 (first_parent b) (e / TREE_FANOUT))))
    as [[Hne [q Eshare]] | Hnot].
  - (* the state of the previous row *)
    assert (exists s', climb (max_level starts) 0 b e (result_state k) prev 0 s = Some (prev, 0%nat, s') /\
      part_ok true s' (with_rows (state_rows t count (added f g k)) (result_state k) (f k ++ g k)) /\
      right_stack s' = right_stack s) as (s' & -> & Hs' & Est).
    { rewrite max_level_levels. cbn [SegmentTree.climb].
      assert (shared_state prev 0 b e = None) as -> by done.
      rewrite (proj2 (Z.eqb_neq _ _) Hne).
      assert (side_values 0 b e (result_state k) 0 s = Some (0%nat, s)) as ->.
      { unfold SegmentTree.side_values, level_value. cbn [Nat.eqb]. rewrite orb_true_r.
        by destruct (b =? b / TREE_FANOUT * TREE_FANOUT). }
      assert (next_prev aggr prev 0 b e (result_state k) = prev) as ->
        by (unfold next_prev; by rewrite andb_false_r).
      cbn [mbind option_bind]. rewrite Eshare. unfold shared_state in Eshare.
      destruct ((1 =? 1)%nat && _ && _) eqn:Em; [| done]. bool_to_prop.
      unfold prev_ok in Hprev. rewrite Eshare in Hprev. destruct Hprev as (Ho & j & Hj & -> & Ej).
      destruct (push_node_ok (result_state k) (result_state j) s (state_rows t count (added f g k)) (f k)
        (added f g k j) Hs) as (s' & -> & Hs' & _ & Est).
      - intros [= ->]. lia.
      - unfold state_rows. by rewrite (proj2 (Nat.ltb_lt j count)) by lia.
      - cbn [mbind option_bind]. exists s'. split_and!; [done | | done].
        rewrite Ej in Hs'. rewrite Hg. unfold upper_side.
        rewrite (proj2 (Z.eqb_neq _ _) Hne). congruence. }

    cbn [mbind option_bind SegmentTree.flush_right]. exists prev, s'. rewrite Est.
    split_and!; [done | by eapply Hdone | done | done | by eapply prev_ok_more].
  - destruct (climb_row b e k (state_rows t count (added f g k)) (f k) prev s) as (rm & s1 & -> & y & Hs1 & Hst1 & Hz1 & Hrm & Hy & Hy1 & Hy2);
      [done | apply state_rows_tree | lia | done | done | done | |].
    { intros Hne. destruct (shared_state prev 1 (first_parent b) (e / TREE_FANOUT)) eqn:Es; [| done].
      destruct Hnot. split; [done | by eexists]. }
    cbn [mbind option_bind].
    destruct (flush_right_ok rm k _ _ s1 Hs1 (state_rows_tree _ _) Hrm Hst1) as (s2 & -> & Hs2 & Hst2 & Hz2).
    cbn [mbind option_bind]. eexists _, s2. split; [done |]. cbn [rights] in Hy, Hy1. rewrite app_nil_r in Hy, Hy1.
    assert (part_ok true s2 (state_rows t count (added f g (S k)))) as Hs2'.
    { rewrite <- app_assoc in Hs2. destruct (order_insensitive aggr) eqn:Ho.
      - eapply Hdone; [by rewrite Hg |]. eapply part_ok_perm; [done | | exact Hs2]. by rewrite Hy.
      - eapply Hdone; [| exact Hs2]. by rewrite Hg, (Hy1 eq_refl). }
    split_and!; [done | done | |].
    + intros l x Hx. rewrite Hz2 in Hx. case_decide as Hl; [by injection Hx as <- |].
      destruct (decide (rm < l)%nat); [by eapply Hz1 |]. assert (l = 0%nat) as -> by lia.
      destruct x as [b' e']. destruct (stack_entry _ Hst1 _ _ _ Hx) as [[-> ->] | (_ & _ & ?)]; [done | lia].
    + destruct (Z.eqb_spec (b / TREE_FANOUT) (e / TREE_FANOUT)) as [Eq | Hne]; [by eapply prev_ok_more |].
      unfold next_prev. rewrite Nat.eqb_refl, andb_true_r.
      destruct (order_insensitive aggr) eqn:Ho; [| by eapply prev_ok_more].
      unfold prev_ok. cbn [prev_state prev_begin prev_end]. split; [done |]. exists k.
      split_and!; [lia | done |]. unfold added. rewrite (proj2 (Nat.ltb_lt k (S k))), (Hf eq_refl), Hg by lia.
      unfold upper_side. by rewrite (proj2 (Z.eqb_neq _ _) Hne).
Qed.

(** ** Parts *)

Abbreviation EvaluateUpperLevels := (EvaluateUpperLevels aggr collection filter_mask starts exclude_mode).
Abbreviation EvaluateLeaves := (EvaluateLeaves aggr collection filter_mask starts exclude_mode).
Abbreviation Part_Evaluate := (Part_Evaluate aggr collection filter_mask starts exclude_mode).

(** What a pass adds to each row of a chunk. *)
Definition chunk_rows (h : FrameArgs -> Z -> list R) (row_idx : Z) (args : list FrameArgs) (rid : nat) : list R :=
  match args !! rid with Some a => h a (row_idx + Z.of_nat rid) | None => [] end.

Lemma added_all t0 count f g p :
  state_rows t0 count (added f g count) p = state_rows t0 count (fun rid => f rid ++ g rid) p.
Proof.
  destruct p as [rid | i]; [| done]. unfold state_rows, added. by destruct (rid <? count)%nat.
Qed.

Lemma added_none t0 count f g p : state_rows t0 count f p = state_rows t0 count (added f g 0) p.
Proof. by destruct p. Qed.

Definition stack_clear s : Prop := all_zero (right_stack s).

Lemma EvaluateUpperLevels_ok frame_part row_idx args f s :
  Forall (frame_ok frame_part) args -> (order_insensitive aggr = true -> forall rid, f rid = []) ->
  part_flushed s (state_rows t (length args) f) -> stack_clear s ->
  exists s', EvaluateUpperLevels frame_part row_idx args s = Some s' /\
    part_flushed s' (state_rows t (length args)
      (fun rid => f rid ++ chunk_rows (upper_rows frame_part) row_idx args rid)) /\ stack_clear s'.
Proof.
  intros Hframe Hf Hs Hz. unfold SegmentTree.EvaluateUpperLevels. rewrite max_level_levels.
  set (r := take (S (S levels)) (right_stack s)).
  set (s0 := set_right_stack (r ++ replicate (S (S levels) - length r) (0, 0)) s).
  set (g := chunk_rows (upper_rows frame_part) row_idx args).
  assert (all_zero (right_stack s0)) as Hz0.
  { intros l x [Hx | [_ Hx]]%lookup_app_Some.
    - apply lookup_take_Some in Hx as [Hx _]. by eapply Hz.
    - by apply lookup_replicate in Hx as [-> _]. }
  assert (stack_ok (right_stack s0)) as Hst0.
  { split.
    - cbn [right_stack set_right_stack s0]. rewrite length_app, length_replicate.
      pose proof (length_take (right_stack s) (S (S levels))). unfold r. lia.
    - intros l b e Hx. left. by specialize (Hz0 _ _ Hx) as [= -> ->]. }
  destruct (ofold_seq_inv (upper_row frame_part row_idx args)
    (fun k ps => part_ok true (snd ps) (state_rows t (length args) (added f g k)) /\
       stack_ok (right_stack (snd ps)) /\ all_zero (right_stack (snd ps)) /\ prev_ok k (added f g k) (fst ps))
    (length args) ({| prev_state := None; prev_begin := 1; prev_end := 0 |}, s0)) as ([prev s1] & E & H1).
  - split_and!; [| done | done | done]. apply flushed_ok. cbn [snd]. destruct Hs as [Hc Hb Hm].
    split; [done | done |]. eapply holds_ext; [| exact Hm]. intros p. apply added_none.
  - intros k [prev s1] Hk (Hs1 & Hst1 & Hz1 & Hp1).
    destruct (upper_row_ok frame_part row_idx args (length args) f prev s1 k) as (prev' & s2 & E & H2); try done.
    + intros a Ha. by eapply Forall_lookup_1.
    + intros Ho. by apply Hf.
    + by exists (prev', s2).
  - rewrite E. cbn [mbind option_bind]. destruct H1 as (H1 & _ & Hz1 & _). cbn [snd] in H1, Hz1.
    destruct (FlushStates_ok _ _ _ H1) as (s2 & E2 & [Hc Hb Hm] & _ & Est).
    exists s2. split; [done |]. split; [split; [done | done |] |].
    + eapply holds_ext; [| exact Hm]. intros p. apply added_all.
    + unfold stack_clear. by rewrite Est.
Qed.

(** The leaves that a pass adds to a row. *)
Definition leaf_rows (frame_part leaf_part : FramePart) (a : FrameArgs) (cur_row : Z) : list R :=
  let b := range_begin exclude_mode frame_part a cur_row in
  let e := range_end exclude_mode frame_part a cur_row in
  (if bool_decide (leaf_part <> RIGHT) && bool_decide (frame_part = RIGHT) && bool_decide (exclude_mode = TIES) &&
      (FrameBegins a frame_part <=? cur_row) && (cur_row <? FrameEnds a frame_part)
   then level_rows 0 cur_row (cur_row + 1) else []) ++
  (if e <=? b then []
   else (if bool_decide (leaf_part <> RIGHT) then left_side 0 b e else []) ++
        (if bool_decide (leaf_part <> LEFT) then right_side 0 b e else [])).

Lemma leaf_value_ok p b e s c rows (cond : bool) :
  part_ok false s (with_rows c p rows) -> tree_ok levels c -> (cond = true -> 0 <= b <= e /\ e <= n) ->
  exists s', (if cond then WindowSegmentValue aggr collection filter_mask starts 0 b e p s else Some s) = Some s' /\
    part_ok false s' (with_rows c p (rows ++ if cond then level_rows 0 b e else [])) /\ right_stack s' = right_stack s.
Proof.
  intros Hs Hc Hcond. destruct cond; [| exists s; by rewrite app_nil_r]. destruct (Hcond eq_refl) as [Hb He].
  apply (WindowSegmentValue_ok 0); [done | intros k i Hk; lia | lia | done | done | intros k i Hk; lia].
Qed.

Lemma leaves_row_ok frame_part leaf_part row_idx args count f s k :
  length args = count -> (k < count)%nat -> (forall a, args !! k = Some a -> frame_ok frame_part a) ->
  let g := chunk_rows (leaf_rows frame_part leaf_part) row_idx args in
  part_ok false s (state_rows t count (added f g k)) ->
  exists s', leaves_row frame_part leaf_part row_idx args s k = Some s' /\
    part_ok false s' (state_rows t count (added f g (S k))) /\ right_stack s' = right_stack s.
Proof.
  intros Hcount Hk Hframe g Hs. unfold SegmentTree.leaves_row.
  destruct (lookup_lt_is_Some_2 args k) as [a Ha]; [lia |]. rewrite Ha. cbn [mbind option_bind].
  destruct (Hframe a Ha) as [Hb He].
  assert (g k = leaf_rows frame_part leaf_part a (row_idx + Z.of_nat k)) as Hg by (unfold g, chunk_rows; by rewrite Ha).
  unfold leaf_rows in Hg. cbv zeta in Hg.
  set (b := range_begin exclude_mode frame_part a (row_idx + Z.of_nat k)) in *.
  set (e := range_end exclude_mode frame_part a (row_idx + Z.of_nat k)) in *.
  assert (0 <= b /\ e <= n) as [Hb0 Hen] by (unfold b, e, range_begin, range_end; lia).
  apply (added_before _ _ _ _ _ _ _ Hk) in Hs.
  assert (forall s' rows, rows = f k ++ g k ->
    part_ok false s' (with_rows (state_rows t count (added f g k)) (result_state k) rows) ->
    part_ok false s' (state_rows t count (added f g (S k)))) as Hdone.
  { intros s' rows -> Hs'. eapply part_ok_ext; [| exact Hs']. intros p. by apply added_step. }
  pose proof (state_rows_tree count (added f g k)) as Htree.
  match goal with |- context [if ?cond then WindowSegmentValue _ _ _ _ 0 ?x ?y _ _ else Some s] =>
    destruct (leaf_value_ok (result_state k) x y s _ _ cond Hs Htree) as (s1 & -> & Hs1 & Est1) end.
  { intros Hc. bool_to_prop. lia. }
  cbn [mbind option_bind]. revert Hs1 Hg. set (x := if (_ : bool) then level_rows 0 _ _ else []). intros Hs1 Hg.
  destruct (Z.leb_spec e b) as [Hbe | Hbe].
  { exists s1. split_and!; [done | | done]. eapply Hdone; [| exact Hs1]. by rewrite Hg, app_nil_r. }
  unfold left_side, right_side in Hg.
  destruct (Z.eqb_spec (b / TREE_FANOUT) (e / TREE_FANOUT)) as [Eq | Hne].
  - destruct (leaf_value_ok (result_state k) b e s1 _ _ (bool_decide (leaf_part <> RIGHT)) Hs1 Htree) as (s2 & -> & Hs2 & Est2);
      [lia |].
    exists s2. split_and!; [done | | congruence]. eapply Hdone; [| exact Hs2]. rewrite Hg, <- app_assoc.
    repeat case_match; by rewrite ?app_nil_r.
  - destruct (parents_ordered b e ltac:(lia) Hne) as [Hp Hf]. unfold TREE_FANOUT in *.
    match goal with |- context [if ?cond then WindowSegmentValue _ _ _ _ 0 ?x ?y _ _ else Some s1] =>
      destruct (leaf_value_ok (result_state k) x y s1 _ _ cond Hs1 Htree) as (s2 & -> & Hs2 & Est2) end; [zdm |].
    cbn [mbind option_bind].
    match goal with |- context [if ?cond then WindowSegmentValue _ _ _ _ 0 ?x ?y _ _ else Some s2] =>
      destruct (leaf_value_ok (result_state k) x y s2 _ _ cond Hs2 Htree) as (s3 & -> & Hs3 & Est3) end; [zdm |].
    exists s3. split_and!; [done | | congruence]. eapply Hdone; [| exact Hs3]. rewrite Hg, <- !app_assoc.
    do 2 f_equal. destruct (b =? _), (e =? _), (bool_decide (leaf_part <> RIGHT)), (bool_decide (leaf_part <> LEFT));
      cbn [negb andb]; by rewrite ?app_nil_r, ?app_nil_l.
Qed.

Lemma EvaluateLeaves_ok frame_part leaf_part row_idx args f s :
  Forall (frame_ok frame_part) args ->
  part_flushed s (state_rows t (length args) f) -> stack_clear s ->
  exists s', EvaluateLeaves frame_part leaf_part row_idx args s = Some s' /\
    part_flushed s' (state_rows t (length args)
      (fun rid => f rid ++ chunk_rows (leaf_rows frame_part leaf_part) row_idx args rid)) /\ stack_clear s'.
Proof.
  intros Hframe Hs Hz. unfold SegmentTree.EvaluateLeaves.
  set (g := chunk_rows (leaf_rows frame_part leaf_part) row_idx args).
  destruct (ofold_seq_inv (leaves_row frame_part leaf_part row_idx args)
    (fun k s => part_ok false s (state_rows t (length args) (added f g k)) /\ stack_clear s) (length args) s)
    as (s1 & -> & Hs1 & Hz1).
  - split; [| done]. eapply part_ok_ext; [| by apply flushed_ok]. intros p. apply added_none.
  - intros k s1 Hk [Hs1 Hz1].
    destruct (leaves_row_ok frame_part leaf_part row_idx args (length args) f s1 k) as (s2 & E & Hs2 & Est); try done.
    + intros a Ha. by eapply Forall_lookup_1.
    + exists s2. split; [done |]. split; [done |]. unfold stack_clear. by rewrite Est.
  - cbn [mbind option_bind]. destruct (FlushStates_ok _ _ _ Hs1) as (s2 & -> & [Hc Hb Hm] & _ & Est).
    exists s2. split; [done |]. split; [split; [done | done |] | unfold stack_clear; by rewrite Est].
    eapply holds_ext; [| exact Hm]. intros p. apply added_all.
Qed.

(** The rows of a frame part. *)
Definition part_rows (frame_part : FramePart) (a : FrameArgs) (cur_row : Z) : list R :=
  (if bool_decide (frame_part = RIGHT) && bool_decide (exclude_mode = TIES) &&
      (FrameBegins a frame_part <=? cur_row) && (cur_row <? FrameEnds a frame_part)
   then level_rows 0 cur_row (cur_row + 1) else []) ++
  frows (range_begin exclude_mode frame_part a cur_row) (range_end exclude_mode frame_part a cur_row).

Lemma part_rows_passes frame_part a cur_row :
  frame_ok frame_part a ->
  (upper_rows frame_part a cur_row ++ leaf_rows frame_part FULL a cur_row ≡ₚ part_rows frame_part a cur_row) /\
  leaf_rows frame_part LEFT a cur_row ++ upper_rows frame_part a cur_row ++ leaf_rows frame_part RIGHT a cur_row =
    part_rows frame_part a cur_row.
Proof.
  intros [Hb He]. unfold upper_rows, leaf_rows, part_rows.
  set (b := range_begin exclude_mode frame_part a cur_row).
  set (e := range_end exclude_mode frame_part a cur_row).
  assert (0 <= b /\ e <= n) as [Hb0 Hen] by (unfold b, e, range_begin, range_end; lia).
  rewrite (bool_decide_eq_true_2 (FULL <> RIGHT)), (bool_decide_eq_true_2 (FULL <> LEFT)),
    (bool_decide_eq_true_2 (LEFT <> RIGHT)), (bool_decide_eq_false_2 (LEFT <> LEFT)),
    (bool_decide_eq_false_2 (RIGHT <> RIGHT)), (bool_decide_eq_true_2 (RIGHT <> LEFT)) by naive_solver.
  cbn [andb]. set (x := if (_ : bool) then level_rows 0 _ _ else []).
  destruct (Z.leb_spec e b) as [Hbe | Hbe].
  { rewrite frows_nil by done. rewrite !app_nil_r. done. }
  rewrite <- level_rows_0, (level_rows_sides 0 b e) by lia. rewrite !app_nil_r, app_nil_l. split.
  - rewrite Permutation_app_comm, <- !app_assoc. apply Permutation_app_head, Permutation_app_head, Permutation_app_comm.
  - by rewrite <- !app_assoc.
Qed.

(** A part between two chunks. *)
Definition part_inv s : Prop := part_flushed s (state_rows t 0 (fun _ => [])) /\ stack_clear s.

Lemma Part_Evaluate_ok frame_part row_idx args s :
  Forall (frame_ok frame_part) args -> part_inv s ->
  exists s', Part_Evaluate frame_part row_idx args s = Some s' /\
    part_flushed s' (state_rows t (length args) (chunk_rows (part_rows frame_part) row_idx args)) /\ stack_clear s'.
Proof.
  intros Hframe [Hs Hz]. unfold SegmentTree.Part_Evaluate.
  assert (part_flushed (Part_Initialize aggr (length args) s) (state_rows t (length args) (fun _ => []))) as H0.
  { destruct Hs as [Hc Hb Hm]. split; [done | done |]. intros [rid | i] rows; cbn [state_rows]; intros E.
    - destruct (Nat.ltb_spec rid (length args)); [| done]. injection E as <-. exists (initialize aggr).
      split; [| apply represents_initialize]. cbn. by rewrite lookup_app_l, lookup_replicate_2 by (rewrite ?length_replicate; done).
    - destruct (Hm (tree_state i) rows) as (st & E1 & Hst); [done |]. by exists st. }
  assert (stack_clear (Part_Initialize aggr (length args) s)) as Hz0 by done.
  assert (forall s' f, (forall rid a, args !! rid = Some a -> f rid = part_rows frame_part a (row_idx + Z.of_nat rid)) ->
    part_flushed s' (state_rows t (length args) f) ->
    part_flushed s' (state_rows t (length args) (chunk_rows (part_rows frame_part) row_idx args))) as Hdone.
  { intros s' f Hf [Hc Hb Hm]. split; [done | done |]. eapply holds_ext; [| exact Hm]. intros [rid | i]; [| done].
    unfold state_rows. destruct (Nat.ltb_spec rid (length args)) as [Hl |]; [| done].
    destruct (lookup_lt_is_Some_2 args rid Hl) as [a Ha]. unfold chunk_rows. by rewrite Ha, (Hf rid a Ha). }
  destruct (order_insensitive aggr) eqn:Ho.
  - destruct (EvaluateUpperLevels_ok frame_part row_idx args (fun _ => []) _ Hframe (fun _ _ => eq_refl) H0 Hz0)
      as (s1 & -> & Hs1 & Hz1). cbn [mbind option_bind].
    destruct (EvaluateLeaves_ok frame_part FULL row_idx args _ s1 Hframe Hs1 Hz1) as (s2 & -> & [Hc Hb Hm] & Hz2).
    exists s2. split; [done |]. split; [| done]. split; [done | done |].
    intros p rows E. destruct p as [rid | i]; [| by apply Hm]. unfold state_rows in E.
    destruct (Nat.ltb_spec rid (length args)) as [Hl |]; [| done]. injection E as <-.
    destruct (lookup_lt_is_Some_2 args rid Hl) as [a Ha].
    destruct (Hm (result_state rid) ([] ++ upper_rows frame_part a (row_idx + Z.of_nat rid) ++
      leaf_rows frame_part FULL a (row_idx + Z.of_nat rid))) as (st & E1 & Hst).
    { unfold state_rows, chunk_rows. by rewrite (proj2 (Nat.ltb_lt _ _) Hl), Ha. }
    exists st. split; [done |]. eapply represents_perm; [done | | exact Hst]. unfold chunk_rows. rewrite Ha.
    apply part_rows_passes. by eapply Forall_lookup_1.
  - destruct (EvaluateLeaves_ok frame_part LEFT row_idx args (fun _ => []) _ Hframe H0 Hz0) as (s1 & -> & Hs1 & Hz1).
    cbn [mbind option_bind].
    edestruct (EvaluateUpperLevels_ok frame_part row_idx args) as (s2 & E2 & Hs2 & Hz2);
      [done | intros Ho1; congruence | exact Hs1 | done |]. rewrite E2. cbn [mbind option_bind].
    destruct (EvaluateLeaves_ok frame_part RIGHT row_idx args _ s2 Hframe Hs2 Hz2) as (s3 & -> & Hs3 & Hz3).
    exists s3. split; [done |]. split; [| done]. eapply Hdone; [| exact Hs3]. intros rid a Ha. cbn.
    unfold chunk_rows. rewrite Ha, <- app_assoc. apply part_rows_passes. by eapply Forall_lookup_1.
Qed.

(** ** Chunks *)

(** The bounds of a row in a partition of the collection. *)
Definition row_bounds_ok (row_idx : Z) (rid : nat) (b : FrameRow) : Prop :=
  0 <= window_begin b /\ window_end b <= n /\ peer_begin b <= row_idx + Z.of_nat rid < peer_end b.

(** The result of a row: the aggregate of the rows of its frame. *)
Definition frame_result (row_idx : Z) (rid : nat) (b : FrameRow) : Res :=
  spec (filtered_rows
    (frame_rows exclude_mode (window_begin b) (window_end b) (peer_begin b) (peer_end b) (row_idx + Z.of_nat rid))).

(** The parts of a thread between two chunks. *)
Definition local_ok (l : LocalState St) : Prop :=
  (forall s, part l = Some s -> part_inv s) /\ (forall s, right_part l = Some s -> part_inv s).

Lemma zrange_clamp_end a b : zrange a (Z.max b a) = zrange a b.
Proof. destruct (decide (a <= b)); [f_equal; lia |]. rewrite !zrange_nil by lia. done. Qed.

Lemma zrange_clamp_begin a b : zrange (Z.min a b) b = zrange a b.
Proof. destruct (decide (a <= b)); [f_equal; lia |]. rewrite !zrange_nil by lia. done. Qed.

Lemma filtered_rows_app xs ys : filtered_rows (xs ++ ys) = filtered_rows xs ++ filtered_rows ys.
Proof. apply omap_app. Qed.

(** The two parts of a frame with an EXCLUDE clause. *)
Lemma exclude_parts b cur_row :
  exclude_mode <> NO_OTHER ->
  0 <= window_begin b -> window_end b <= n -> peer_begin b <= cur_row < peer_end b ->
  let exclude_current := bool_decide (exclude_mode = CURRENT_ROW) in
  part_rows LEFT {| arg_begin := window_begin b;
                    arg_end := if exclude_current then peer_end b else peer_begin b;
                    arg_bound := window_end b |} cur_row ++
  part_rows RIGHT {| arg_begin := if exclude_current then peer_begin b else peer_end b;
                     arg_end := window_end b;
                     arg_bound := window_begin b |} cur_row =
  filtered_rows (frame_rows exclude_mode (window_begin b) (window_end b) (peer_begin b) (peer_end b) cur_row).
Proof.
  intros He Hb Hn Hp. cbn zeta.
  set (cond := bool_decide (exclude_mode = TIES) && (window_begin b <=? cur_row) && (cur_row <? window_end b)).
  assert (part_rows LEFT {| arg_begin := window_begin b;
      arg_end := if bool_decide (exclude_mode = CURRENT_ROW) then peer_end b else peer_begin b;
      arg_bound := window_end b |} cur_row =
    frows (window_begin b) (Z.min (if decide (exclude_mode = CURRENT_ROW) then cur_row else peer_begin b) (window_end b))) as ->.
  { unfold part_rows, range_begin, range_end, begin_on_curr_row, end_on_curr_row, FrameBegins, FrameEnds.
    cbn. rewrite Z.max_id. destruct (decide (exclude_mode = CURRENT_ROW)) as [Ec | Ec];
      [by rewrite (bool_decide_eq_true_2 _ Ec) | by rewrite (bool_decide_eq_false_2 _ Ec)]. }
  assert (part_rows RIGHT {| arg_begin := if bool_decide (exclude_mode = CURRENT_ROW) then peer_begin b else peer_end b;
      arg_end := window_end b; arg_bound := window_begin b |} cur_row =
    filtered_rows ((if cond then [cur_row] else []) ++
      zrange (Z.max (if decide (exclude_mode = CURRENT_ROW) then cur_row + 1 else peer_end b) (window_begin b)) (window_end b))) as ->.
  { rewrite filtered_rows_app. unfold part_rows, range_begin, range_end, begin_on_curr_row, end_on_curr_row, FrameBegins, FrameEnds.
    cbn [arg_begin arg_end arg_bound]. rewrite Z.min_id.
    change (bool_decide (RIGHT = RIGHT)) with true. change (bool_decide (RIGHT = LEFT)) with false.
    destruct (decide (RIGHT = RIGHT)) as [_ | ?]; [| done]. destruct (decide (RIGHT = LEFT)) as [? | _]; [done |].
    unfold cond. cbn. f_equal.
    - destruct (bool_decide (exclude_mode = TIES) && _ && _) eqn:Ec; [| done]. bool_to_prop. rewrite level_rows_0 by lia.
      rewrite zrange_cons, zrange_nil by lia. done.
    - destruct (decide (exclude_mode = CURRENT_ROW)) as [Ec | Ec];
        [by rewrite (bool_decide_eq_true_2 _ Ec) | by rewrite (bool_decide_eq_false_2 _ Ec)]. }
  rewrite <- filtered_rows_app. f_equal.
  destruct (decide (window_begin b <= window_end b)) as [Hle | Hgt]; cycle 1.
  { assert (cond = false) as -> by (unfold cond; destruct (bool_decide _), (Z.leb_spec (window_begin b) cur_row),
      (Z.ltb_spec cur_row (window_end b)); cbn; lia || done).
    unfold frame_rows. rewrite !zrange_nil by lia. done. }
  rewrite <- sub_frames_rows by done. unfold sub_frames, cond.
  destruct exclude_mode; [done | | |]; repeat case_decide; try congruence; cbn [app fmap list_fmap fst snd];
    rewrite !mjoin_cons; cbn [mjoin list_join]; rewrite ?app_nil_r.
  - change (bool_decide (CURRENT_ROW = TIES)) with false. by rewrite zrange_clamp_end, zrange_clamp_begin.
  - change (bool_decide (GROUP = TIES)) with false. by rewrite zrange_clamp_end, zrange_clamp_begin.
  - change (bool_decide (TIES = TIES)) with true. rewrite zrange_clamp_end, zrange_clamp_begin. f_equal. f_equal.
    destruct (Z.leb_spec (window_begin b) cur_row), (Z.ltb_spec cur_row (window_end b)); cbn.
    + rewrite (zrange_cons _ (Z.max _ _)) by lia. rewrite zrange_nil by lia. f_equal. lia.
    + by rewrite zrange_nil by lia.
    + by rewrite zrange_nil by lia.
    + by rewrite zrange_nil by lia.
Qed.

Lemma take_states s count f :
  part_flushed s (state_rows t count f) ->
  length (take count (result_states (memory s))) = count /\
  forall rid, (rid < count)%nat ->
    exists st, take count (result_states (memory s)) !! rid = Some st /\ represents (aggr := aggr) st (f rid).
Proof.
  intros [_ _ Hm].
  assert (forall rid, (rid < count)%nat ->
    exists st, result_states (memory s) !! rid = Some st /\ represents (aggr := aggr) st (f rid)) as H.
  { intros rid Hr. apply (Hm (result_state rid)). unfold state_rows. by rewrite (proj2 (Nat.ltb_lt _ _)). }
  split.
  - rewrite length_take. destruct count as [| count]; [done |].
    destruct (H count) as (st & E & _); [lia |]. apply lookup_lt_Some in E. lia.
  - intros rid Hr. rewrite lookup_take_lt by done. by apply H.
Qed.

Lemma part_flushed_tree s count f : part_flushed s (state_rows t count f) -> part_flushed s (state_rows t 0 (fun _ => [])).
Proof.
  intros [Hc Hb Hm]. split; [done | done |]. intros [rid | i] rows E; [done |]. by apply Hm.
Qed.

Context (tree : list St).
Context (Htree : forall i rows, t i = Some rows -> exists st, zload tree i = Some st /\ represents (aggr := aggr) st rows).

Lemma new_part_inv : part_inv (WindowSegmentTreePart_new tree).
Proof.
  split.
  - split; [| done |].
    + split; cbn; [lia |]. unfold leaf_count. lia.
    + intros [rid | i] rows E; [done |]. by apply Htree.
  - by intros l x.
Qed.

Lemma Evaluate_ok bounds row_idx local :
  (forall rid b, bounds !! rid = Some b -> row_bounds_ok row_idx rid b) -> local_ok local ->
  exists local', Evaluate aggr collection filter_mask starts exclude_mode tree bounds row_idx local =
      Some (imap (frame_result row_idx) bounds, local') /\ local_ok local'.
Proof.
  intros Hb [Hl1 Hl2]. unfold Evaluate.
  assert (part_inv (default (WindowSegmentTreePart_new tree) (part local))) as Hp.
  { destruct (part local); [by apply Hl1 | apply new_part_inv]. }
  assert (part_inv (default (WindowSegmentTreePart_new tree) (right_part local))) as Hr.
  { destruct (right_part local); [by apply Hl2 | apply new_part_inv]. }
  assert (forall states (g : nat -> list R), length states = length bounds ->
    (forall rid, (rid < length bounds)%nat -> exists st, states !! rid = Some st /\ represents (aggr := aggr) st (g rid)) ->
    (forall rid b, bounds !! rid = Some b -> g rid = filtered_rows (frame_rows exclude_mode (window_begin b)
      (window_end b) (peer_begin b) (peer_end b) (row_idx + Z.of_nat rid))) ->
    finalize aggr <$> states = imap (frame_result row_idx) bounds) as Hdone.
  { intros states g Hlen Hst Hg. apply list_eq. intros rid. rewrite list_lookup_fmap, list_lookup_imap.
    destruct (bounds !! rid) as [b |] eqn:Erow.
    - destruct (Hst rid) as (st & -> & Hrep); [by eapply lookup_lt_Some |]. cbn. f_equal.
      rewrite (represents_finalize _ _ Hrep). unfold frame_result. f_equal. by apply Hg.
    - apply lookup_ge_None in Erow. rewrite (proj2 (lookup_ge_None states rid)) by lia. done. }
  destruct (decide (exclude_mode = NO_OTHER)) as [Ex | Ex].
  - set (args := (fun b => _) <$> bounds).
    destruct (Part_Evaluate_ok FULL row_idx args (default (WindowSegmentTreePart_new tree) (part local)))
      as (p' & -> & Hp' & Hz'); [| done |].
    { apply Forall_fmap, Forall_lookup. intros rid b Erow. destruct (Hb rid b Erow) as (? & ? & ?). done. }
    cbn [mbind option_bind]. eexists. split.
    + assert (length args = length bounds) as Hlen by apply length_fmap. rewrite Hlen in Hp'.
      destruct (take_states _ _ _ Hp') as [H1 H2]. f_equal. f_equal. eapply Hdone; [done | exact H2 |].
      intros rid b Erow. unfold chunk_rows, args. rewrite list_lookup_fmap, Erow. cbn.
      unfold part_rows, range_begin, range_end, begin_on_curr_row, end_on_curr_row, FrameBegins, FrameEnds.
      cbn. rewrite Z.max_id, Z.min_id, Ex. unfold frame_rows. by rewrite filter_zrange_all.
    + split; cbn; [| done]. intros s [= <-]. split; [by eapply part_flushed_tree | done].
  - match goal with |- context [SegmentTree.Part_Evaluate _ _ _ _ _ LEFT _ ?a _] => set (largs := a) end.
    match goal with |- context [SegmentTree.Part_Evaluate _ _ _ _ _ RIGHT _ ?a _] => set (rargs := a) end.
    destruct (Part_Evaluate_ok LEFT row_idx largs (default (WindowSegmentTreePart_new tree) (part local)))
      as (p' & -> & Hp' & Hz'); [| done |].
    { apply Forall_fmap, Forall_lookup. intros rid b Erow. destruct (Hb rid b Erow) as (? & ? & ?). done. }
    cbn [mbind option_bind].
    destruct (Part_Evaluate_ok RIGHT row_idx rargs (default (WindowSegmentTreePart_new tree) (right_part local)))
      as (r' & -> & Hr' & Hzr); [| done |].
    { apply Forall_fmap, Forall_lookup. intros rid b Erow. destruct (Hb rid b Erow) as (? & ? & ?). done. }
    cbn [mbind option_bind memory set_memory result_states levels_flat_native].
    assert (length largs = length bounds) as Hlen by apply length_fmap. rewrite Hlen in Hp'.
    assert (length rargs = length bounds) as Hlen2 by apply length_fmap. rewrite Hlen2 in Hr'.
    destruct (take_states _ _ _ Hp') as [H1 H2]. destruct (take_states _ _ _ Hr') as [H3 H4].
    eexists. split.
    + f_equal. f_equal. rewrite take_app_length' by (rewrite length_zip_with; lia).
      eapply Hdone with (g := fun rid => chunk_rows (part_rows LEFT) row_idx largs rid ++ chunk_rows (part_rows RIGHT) row_idx rargs rid).
      * rewrite length_zip_with. lia.
      * intros rid Hrid. destruct (H2 rid Hrid) as (st & E1 & Hst1). destruct (H4 rid Hrid) as (st2 & E2 & Hst2).
        exists (combine aggr st2 st). rewrite lookup_zip_with, E2. cbn. rewrite E1. split; [done |].
        by apply represents_combine.
      * intros rid b Erow. unfold chunk_rows, largs, rargs. rewrite !list_lookup_fmap, Erow. cbn.
        destruct (Hb rid b Erow) as (? & ? & ?). by apply exclude_parts.
    + split; cbn.
      * intros s [= <-]. split; [| done]. destruct Hp' as [Hc Hbuf Hm]. split; [done | done |].
        intros [rid | i] rows E; [done |]. by apply (Hm (tree_state i)).
      * intros s [= <-]. split; [by eapply part_flushed_tree | done].
Qed.
End invariant.
