(* ===== verification/SegmentTreeBuild.v ===== *)
(** * Building the segment tree

    The invariant of the threads that build the tree: the levels below the one that
    is built are complete, every started node of that level belongs to one thread or
    is complete, and the thread that completes the last one moves on.  The theorems:
    no interleaving fails, a thread that is done has seen a complete tree, and no
    thread waits forever.  Then the chunks that are evaluated with the tree. *)

From stdpp Require Import functions.
From S2P Require Import Prelude Validity Boundaries Aggregates SegmentTree SegmentTreeInvariant.

Section build.
Context {R St Res : Type} (aggr : AggregateFunction R St Res) (spec : list R -> Res).
Context `{!AggregateLaws aggr spec}.
Context (collection : WindowCollection R) (filter_mask : ValidityArray).
Context (Hcolumns : column_count collection <> 0%nat).
Context (Hchunks : forall i, 0 <= i < leaf_count collection ->
  0 <= fst (chunk_range collection i) <= i /\ i < snd (chunk_range collection i) <= leaf_count collection).

Abbreviation n := (leaf_count collection).
Abbreviation lsize := (lsize n).
Abbreviation lstart := (lstart n).
Abbreviation starts := (fst (levels_flat n)).
Abbreviation Part := (WindowSegmentTreePart St).
Abbreviation level_rows := (level_rows collection filter_mask).
Abbreviation build_count := (build_count collection n).
Abbreviation level_size := (level_size collection n).
Abbreviation build_step := (build_step aggr collection filter_mask n).
Abbreviation System := (BuildSystem St).
Abbreviation Thread := (BuildThread St).
Implicit Types (s : System) (g : GlobalState St) (th : Thread) (t : Z -> option (list R)) (k l : nat) (i : Z).

Context (levels : nat) (Hlevels : level_count n levels).

Lemma lookup_starts l : (l <= levels)%nat -> starts !! l = Some (lstart l).
Proof. intros Hl. rewrite (levels_starts _ _ Hlevels), list_lookup_fmap, lookup_seq_lt by lia. done. Qed.

Lemma level_size_lsize l : (l <= levels)%nat -> level_size l = lsize l.
Proof.
  intros Hl. destruct l as [| l]; [done |]. unfold SegmentTree.level_size.
  rewrite (znth_lookup _ _ _ (lstart (S l))), (znth_lookup _ _ _ (lstart l))
    by (rewrite Nat2Z.id; apply lookup_starts; lia).
  cbn [SegmentTreeInvariant.lstart]. lia.
Qed.

Lemma build_count_lsize l : (l <= levels)%nat -> build_count l = lsize (S l).
Proof. intros Hl. unfold SegmentTree.build_count. by rewrite level_size_lsize. Qed.

Lemma build_count_pos l : (l < levels)%nat -> 1 <= build_count l.
Proof.
  intros Hl. rewrite build_count_lsize by lia. pose proof (levels_inner _ _ Hlevels l Hl).
  cbn [SegmentTreeInvariant.lsize]. unfold TREE_FANOUT. zdm.
Qed.

Lemma lsize_covers l : n <= lsize l * TREE_FANOUT ^ Z.of_nat l.
Proof.
  induction l as [| l IH]; [cbn; lia |]. rewrite Nat2Z.inj_succ, Z.pow_succ_r by lia.
  pose proof (Z.pow_pos_nonneg TREE_FANOUT (Z.of_nat l) eq_refl ltac:(lia)).
  assert (lsize l <= lsize (S l) * TREE_FANOUT) as Hs by (cbn [SegmentTreeInvariant.lsize]; unfold TREE_FANOUT; zdm).
  rewrite Z.mul_assoc. etransitivity; [exact IH |]. apply Z.mul_le_mono_nonneg_r; lia.
Qed.

(** The rows under a node are those of its children. *)
Lemma level_rows_children l i :
  0 <= i < lsize (S l) ->
  level_rows l (i * TREE_FANOUT) (Z.min (lsize l) (i * TREE_FANOUT + TREE_FANOUT)) = level_rows (S l) i (i + 1).
Proof.
  intros Hi. rewrite (level_rows_up _ _ Hcolumns). unfold SegmentTreeInvariant.level_rows.
  replace ((i + 1) * TREE_FANOUT) with (i * TREE_FANOUT + TREE_FANOUT) by lia.
  pose proof (lsize_covers l) as Hc.
  pose proof (Z.pow_pos_nonneg TREE_FANOUT (Z.of_nat l) eq_refl ltac:(lia)) as Hpow.
  assert (Z.min n (Z.min (lsize l) (i * TREE_FANOUT + TREE_FANOUT) * TREE_FANOUT ^ Z.of_nat l) =
    Z.min n ((i * TREE_FANOUT + TREE_FANOUT) * TREE_FANOUT ^ Z.of_nat l)) as ->; [| done].
  destruct (Z.min_spec (lsize l) (i * TREE_FANOUT + TREE_FANOUT)) as [[Hm ->] | [_ ->]]; [| done]. nia.

Qed.

(** ** The invariant *)

Definition working (pc : BuildPc) : Z :=
  match pc with build_compute _ _ | build_complete _ _ => 1 | _ => 0 end.

Definition advancing (pc : BuildPc) : Z :=
  match pc with build_advance _ => 1 | _ => 0 end.

Definition started g l : Z := default 0 (build_started g !! l).
Definition completed g l : Z := default 0 (build_completed g !! l).

(** A thread computes node [i] of the level that is built. *)
Definition computing s i : Prop :=
  exists j th, build_threads s !! j = Some th /\ build_pc th = build_compute (build_level (build_global s)) i.

Definition pc_ok g (pc : BuildPc) : Prop :=
  match pc with
  | build_load => True
  | build_claim l => (l <= build_level g)%nat /\ (l < levels)%nat
  | build_wait l => (l <= build_level g)%nat /\ (l < levels)%nat /\ build_count l <= started g l
  | build_compute l i | build_complete l i =>
      l = build_level g /\ (l < levels)%nat /\ 0 <= i < Z.min (started g l) (build_count l)
  | build_advance l => l = build_level g /\ (l < levels)%nat
  | build_done => build_level g = levels
  end.

Definition thread_ok g th : Prop :=
  pc_ok g (build_pc th) /\ cursor_ok collection (cursor (gtstate th)) /\ flush_buffer (gtstate th) = [].

(** The rows that the nodes stand for. *)
Definition node_rows s t : Prop :=
  (forall i rows, t i = Some rows ->
     exists st, zload (tree_states (build_global s)) i = Some st /\ represents (aggr := aggr) st rows) /\
  forall k i, (k < levels)%nat -> 0 <= i < lsize (S k) ->
    ((k < build_level (build_global s))%nat \/
     (k = build_level (build_global s) /\ i < started (build_global s) k /\ ~ computing s i) ->
     t (lstart k + i) = Some (level_rows (S k) i (i + 1))) /\
    ((build_level (build_global s) < k)%nat \/
     (k = build_level (build_global s) /\ (started (build_global s) k <= i \/ computing s i)) ->
     t (lstart k + i) = Some []).

Record counters_ok g (ths : list Thread) : Prop := {
  level_le : (build_level g <= levels)%nat;
  started_length : length (build_started g) = S levels;
  completed_length : length (build_completed g) = S levels;
  started_later l : (build_level g < l)%nat -> started g l = 0 /\ completed g l = 0;
  started_below l : (l < build_level g)%nat -> build_count l <= started g l;
  started_nonneg l : 0 <= completed g l /\ 0 <= started g l;
  working_sum : (build_level g < levels)%nat ->
    zsum (fun th => working (build_pc th)) ths =
      Z.min (started g (build_level g)) (build_count (build_level g)) - completed g (build_level g);
  advancing_sum : (build_level g < levels)%nat ->
    zsum (fun th => advancing (build_pc th)) ths =
      if completed g (build_level g) =? build_count (build_level g) then 1 else 0;
  top_sums : build_level g = levels -> zsum (fun th => advancing (build_pc th)) ths = 0
}.

Definition distinct (ths : list Thread) : Prop :=
  forall j1 j2 th1 th2 l i, ths !! j1 = Some th1 -> ths !! j2 = Some th2 ->
    build_pc th1 = build_compute l i -> build_pc th2 = build_compute l i -> j1 = j2.

Record build_ok s : Prop := {
  build_counters : counters_ok (build_global s) (build_threads s);
  build_thread j th : build_threads s !! j = Some th -> thread_ok (build_global s) th;
  build_distinct : distinct (build_threads s);
  build_nodes : exists t, node_rows s t
}.

(** ** One node *)

Abbreviation compute_node := (compute_node aggr collection filter_mask n).

Lemma compute_node_ok l i (p : Part) t :
  (l < levels)%nat -> 0 <= i < lsize (S l) ->
  cursor_ok collection (cursor p) -> flush_buffer p = [] ->
  (forall j rows, t j = Some rows -> exists st, zload (levels_flat_native (memory p)) j = Some st /\
     represents (aggr := aggr) st rows) ->
  (forall k j, (k < l)%nat -> 0 <= j < lsize (S k) -> t (lstart k + j) = Some (level_rows (S k) j (j + 1))) ->
  t (lstart l + i) = Some [] ->
  exists p', compute_node l i p = Some p' /\ cursor_ok collection (cursor p') /\ flush_buffer p' = [] /\
    forall j rows, (<[lstart l + i := Some (level_rows (S l) i (i + 1))]> t) j = Some rows ->
      exists st, zload (levels_flat_native (memory p')) j = Some st /\ represents (aggr := aggr) st rows.
Proof.
  intros Hl Hi Hc Hb Hm Ht H0. unfold SegmentTree.compute_node. rewrite lookup_starts by lia.
  cbn [mbind option_bind].
  set (c := fun q => match q with result_state _ => None | tree_state j => t j end).
  assert (part_ok aggr spec collection (0 <? l)%nat p (<[tree_state (lstart l + i) := Some []]> c)) as Hp.
  { apply flushed_ok. split; [done | done |]. intros q rows E.
    assert (c q = Some rows) as E'.
    { destruct (decide (q = tree_state (lstart l + i))) as [-> |]; [| by rewrite fn_lookup_insert_ne in E].
      rewrite fn_lookup_insert in E. cbn. by rewrite H0. }
    destruct q as [rid | j]; [done |]. by apply Hm. }
  destruct (WindowSegmentValue_ok aggr spec collection filter_mask Hcolumns Hchunks levels Hlevels l
    (tree_state (lstart l + i)) (i * TREE_FANOUT) (Z.min (level_size l) (i * TREE_FANOUT + TREE_FANOUT)) p c [] Hp)
    as (p1 & -> & Hp1 & _).
  - intros k j Hk Hj. by apply Ht.
  - lia.
  - rewrite level_size_lsize by lia. cbn [SegmentTreeInvariant.lsize] in Hi. unfold TREE_FANOUT in *. zdm.
  - rewrite level_size_lsize by lia. lia.
  - intros k j Hk Hj [= E]. rewrite level_size_lsize in Hj by lia. subst l.
    destruct (node_index_inj n (leaf_count_nonneg collection) (S k) k i j) as [? _]; [done | unfold TREE_FANOUT in *; lia | done | lia].
  - cbn [mbind option_bind]. destruct (FlushStates_ok _ _ _ _ _ _ Hp1) as (p2 & -> & [Hc2 Hb2 Hm2] & _ & _).
    rewrite level_size_lsize, level_rows_children, app_nil_l in Hm2 by lia.
    exists p2. split_and!; [done | done | done |]. intros j rows E.
    apply (Hm2 (tree_state j)). destruct (decide (j = lstart l + i)) as [-> | Hne].
    + rewrite fn_lookup_insert. by rewrite fn_lookup_insert in E.
    + rewrite fn_lookup_insert_ne by congruence. by rewrite fn_lookup_insert_ne in E by done.
Qed.

(** ** Steps *)

Abbreviation system_step := (system_step aggr collection filter_mask n).
Abbreviation set_thread g s j th :=
  {| build_global := g; build_threads := <[j := th]> (build_threads s) |}.

(** Another thread computes node [i]. *)
Definition others_computing s (j : nat) (l : nat) i : Prop :=
  exists j' th, j' <> j /\ build_threads s !! j' = Some th /\ build_pc th = build_compute l i.

Lemma computing_insert g s j th th' i :
  build_threads s !! j = Some th ->
  computing (set_thread g s j th') i <->
  build_pc th' = build_compute (build_level g) i \/ others_computing s j (build_level g) i.
Proof.
  intros Hj. pose proof (lookup_lt_Some _ _ _ Hj) as Hlt. unfold computing, others_computing. cbn. split.
  - intros (j' & th2 & E & Hpc). destruct (decide (j' = j)) as [-> | Hne].
    + rewrite list_lookup_insert_eq in E by done. injection E as <-. by left.
    + rewrite list_lookup_insert_ne in E by done. right. by exists j', th2.
  - intros [Hpc | (j' & th2 & Hne & E & Hpc)].
    + exists j, th'. by rewrite list_lookup_insert_eq by done.
    + exists j', th2. by rewrite list_lookup_insert_ne by done.
Qed.

Lemma computing_others s j th i :
  build_threads s !! j = Some th ->
  computing s i <->
  build_pc th = build_compute (build_level (build_global s)) i \/ others_computing s j (build_level (build_global s)) i.
Proof.
  intros Hj. rewrite <- (computing_insert (build_global s) s j th th i Hj). destruct s as [g ths]. cbn in *.
  by rewrite list_insert_id.
Qed.

Definition is_compute (pc : BuildPc) : bool := match pc with build_compute _ _ => true | _ => false end.

Lemma computing_same g s j th th' i :
  build_threads s !! j = Some th -> build_level g = build_level (build_global s) ->
  is_compute (build_pc th) = false -> is_compute (build_pc th') = false ->
  computing (set_thread g s j th') i <-> computing s i.
Proof.
  intros Hj Hl H1 H2. rewrite (computing_insert _ _ _ _ _ _ Hj), (computing_others _ _ _ _ Hj), Hl.
  split; (intros [E | ?]; [rewrite E in *; done | by right]).
Qed.

Lemma distinct_insert (ths : list Thread) j th' :
  distinct ths ->
  (forall l i j' th2, build_pc th' = build_compute l i -> ths !! j' = Some th2 -> build_pc th2 = build_compute l i -> j' = j) ->
  distinct (<[j := th']> ths).
Proof.
  intros Hd Hn j1 j2 th1 th2 l i E1 E2 H1 H2.
  apply list_lookup_insert_Some in E1 as [(<- & <- & _) | [? E1]]; apply list_lookup_insert_Some in E2 as [(<- & <- & _) | [? E2]].
  - done.
  - symmetry. by eapply Hn.
  - by eapply Hn.
  - by eapply Hd.
Qed.

Lemma working_nonneg (ths : list Thread) : 0 <= zsum (fun th => working (build_pc th)) ths.
Proof. apply zsum_nonneg. intros th _. by destruct (build_pc th). Qed.

(** The thread sums after a step. *)
Lemma sum_insert (f : BuildPc -> Z) (ths : list Thread) j th th' :
  ths !! j = Some th ->
  zsum (fun th => f (build_pc th)) (<[j := th']> ths) =
  zsum (fun th => f (build_pc th)) ths - f (build_pc th) + f (build_pc th').
Proof. intros Hj. by rewrite (zsum_insert _ _ _ _ _ Hj). Qed.

Lemma started_insert (xs : list Z) l l' x :
  (l < length xs)%nat -> default 0 (<[l := x]> xs !! l') = if decide (l' = l) then x else default 0 (xs !! l').
Proof.
  intros Hl. case_decide as E; [subst; by rewrite list_lookup_insert_eq |]. by rewrite list_lookup_insert_ne.
Qed.

(** Steps of a thread that leave the shared state as it is. *)
Lemma step_local s j th pc :
  build_ok s -> build_threads s !! j = Some th ->
  is_compute (build_pc th) = false -> is_compute pc = false ->
  working (build_pc th) = working pc -> advancing (build_pc th) = advancing pc ->
  pc_ok (build_global s) pc ->
  build_ok (set_thread (build_global s) s j {| build_pc := pc; gtstate := gtstate th |}).
Proof.
  intros [Hc Hth Hd [t Hn]] Hj H1 H2 Hw Ha Hpc. destruct (Hth j th Hj) as (_ & Hcur & Hbuf). split; cbn [build_global build_threads].
  - destruct Hc as [? ? ? ? ? ? Hws Has Hts]. split; try done.
    + intros Hl. rewrite (sum_insert working _ _ _ _ Hj), Hws by done. cbn [build_pc]. lia.
    + intros Hl. rewrite (sum_insert advancing _ _ _ _ Hj), Has by done. cbn [build_pc]. case_match; lia.
    + intros Hl. rewrite (sum_insert advancing _ _ _ _ Hj), Hts by done. cbn [build_pc]. lia.
  - intros j' th' E. apply list_lookup_insert_Some in E as [(<- & <- & _) | [_ E]]; [done | by apply (Hth j')].
  - apply distinct_insert; [done |]. intros l i j' th2 E. cbn in E. by rewrite E in H2.
  - exists t. destruct Hn as [Hn1 Hn2]. split; [done |]. intros k i Hk Hi. cbn [build_global].
    rewrite (computing_same _ _ _ _ {| build_pc := pc; gtstate := gtstate th |} i Hj) by done. by apply Hn2.
Qed.

Lemma build_pc_ok_mono g g' pc :
  build_level g' = build_level g -> (forall l, started g l <= started g' l) -> pc_ok g pc -> pc_ok g' pc.
Proof.
  intros Hl Hs. destruct pc as [| l | l | l i | l i | l |]; cbn [pc_ok]; rewrite ?Hl; try done.
  - intros (? & ? & ?). specialize (Hs l). split_and!; [done | done | lia].
  - intros (? & ? & ?). specialize (Hs l). split_and!; [done | done | lia | lia].
  - intros (? & ? & ?). specialize (Hs l). split_and!; [done | done | lia | lia].
Qed.

Lemma others_ok g' s j th' :
  (forall j' th, build_threads s !! j' = Some th -> thread_ok (build_global s) th) ->
  thread_ok g' th' ->
  (forall j' th, j' <> j -> build_threads s !! j' = Some th -> pc_ok (build_global s) (build_pc th) -> pc_ok g' (build_pc th)) ->
  forall j' th, (<[j := th']> (build_threads s)) !! j' = Some th -> thread_ok g' th.
Proof.
  intros Hth H1 H2 j' th E. apply list_lookup_insert_Some in E as [(<- & <- & _) | [Hne E]]; [done |].
  destruct (Hth j' th E) as (Hpc & Hcur & Hb). split; [| done]. by eapply H2.
Qed.

Lemma claim_ok s j th l :
  build_ok s -> build_threads s !! j = Some th -> build_pc th = build_claim l ->
  exists g' th', build_step (build_global s) th = Some (g', th') /\ build_ok (set_thread g' s j th').
Proof.
  intros [Hc Hth Hd [t Hn]] Hj Hpc. destruct (Hth j th Hj) as (Hpcok & Hcur & Hbuf). rewrite Hpc in Hpcok.
  destruct Hpcok as [HlL Hl]. unfold SegmentTree.build_step. rewrite Hpc.
  destruct Hc as [Hle Hsl Hcl Hlater Hbelow Hnn Hws Has Hts].
  destruct (lookup_lt_is_Some_2 (build_started (build_global s)) l) as [x Hx]; [rewrite Hsl; lia |].
  rewrite Hx. cbn [mbind option_bind].
  assert (started (build_global s) l = x) as Ex by (unfold started; by rewrite Hx).
  set (g' := {| tree_states := tree_states (build_global s); build_level := build_level (build_global s);
                build_started := <[l := x + 1]> (build_started (build_global s));
                build_completed := build_completed (build_global s) |}).
  assert (forall l', started g' l' = if decide (l' = l) then x + 1 else started (build_global s) l') as Hst.
  { intros l'. unfold started. cbn [build_started g']. apply started_insert. rewrite Hsl. lia. }
  eexists _, _. split; [done |]. split; cbn [build_global build_threads].
  - split; try done.
    + cbn. by rewrite length_insert.
    + intros l' Hl'. rewrite Hst. cbn in Hl'. rewrite decide_False by lia. by apply Hlater.
    + intros l' Hl'. rewrite Hst. specialize (Hbelow l' Hl'). case_decide; [subst l'; lia | done].
    + intros l'. rewrite Hst. pose proof (Hnn l'). pose proof (Hnn l). change (completed g' l') with (completed (build_global s) l').
      case_decide; lia.
    + intros HL. change (build_level g') with (build_level (build_global s)) in *.
      rewrite (sum_insert working _ _ _ _ Hj), (Hws HL), Hpc, Hst. cbn [working build_pc].
      change (completed g' (build_level (build_global s))) with (completed (build_global s) (build_level (build_global s))).
      destruct (decide (build_level (build_global s) = l)) as [E | Hne].
      * rewrite E in *. destruct (Z.leb_spec (build_count l) x); cbn [working]; lia.
      * specialize (Hbelow l ltac:(lia)). rewrite (proj2 (Z.leb_le _ _)) by lia. cbn [working]. lia.
    + intros HL. change (build_level g') with (build_level (build_global s)) in *.
      rewrite (sum_insert advancing _ _ _ _ Hj), (Has HL), Hpc. cbn [advancing build_pc].
      change (completed g' (build_level (build_global s))) with (completed (build_global s) (build_level (build_global s))).
      destruct (build_count l <=? x); cbn [advancing]; case_match; lia.
    + intros HL. change (build_level g') with (build_level (build_global s)) in *.
      rewrite (sum_insert advancing _ _ _ _ Hj), (Hts HL), Hpc. cbn [advancing build_pc].
      destruct (build_count l <=? x); cbn [advancing]; lia.
  - apply others_ok; [done | |].
    + split; [| done]. cbn [build_pc]. destruct (Z.leb_spec (build_count l) x) as [Hx2 | Hx2]; cbn [pc_ok].
      * rewrite Hst, decide_True by done. split_and!; [done | done | lia].
      * rewrite Hst, decide_True by done. pose proof (Hnn l) as [_ Hx0]. cbn [build_level g'].
        assert (l = build_level (build_global s)) as El.
        { destruct (decide (l = build_level (build_global s))); [done |]. specialize (Hbelow l ltac:(lia)). lia. }
        split_and!; [done | done | lia | lia].
    + intros j' th2 _ _. apply build_pc_ok_mono; [done |]. intros l'. rewrite Hst. case_decide; [subst; lia | lia].
  - apply distinct_insert; [done |]. intros l' i j' th2 E E2 Hpc2. exfalso. cbn [build_pc] in E.
    destruct (Z.leb_spec (build_count l) x); [done |]. injection E as <- <-.
    destruct (Hth j' th2 E2) as (Hpc3 & _). rewrite Hpc2 in Hpc3. cbn [pc_ok] in Hpc3. lia.
  - exists t. destruct Hn as [Hn1 Hn2]. split; [done |]. intros k i Hk Hi. cbn [build_global].
    destruct (Hn2 k i Hk Hi) as [Hdone Hempty].
    change (build_level g') with (build_level (build_global s)). rewrite Hst.
    assert (computing (set_thread g' s j
        {| build_pc := if build_count l <=? x then build_wait l else build_compute l x; gtstate := gtstate th |}) i <->
      (x < build_count l /\ l = build_level (build_global s) /\ i = x) \/ computing s i) as Hcomp.
    { rewrite (computing_insert _ _ _ _ _ _ Hj), (computing_others _ _ _ _ Hj). cbn [build_pc build_level g']. rewrite Hpc.
      destruct (Z.leb_spec (build_count l) x); split.
      - intros [? | ?]; [done | right; by right].
      - intros [(? & _) | [? | ?]]; [lia | done | by right].
      - intros [[= -> ->] | ?]; [by left | right; by right].
      - intros [(_ & -> & ->) | [? | ?]]; [by left | done | by right]. }
    rewrite Hcomp. rewrite <- build_count_lsize in Hi by lia. split.
    + intros [Hk2 | (Ek & Hi2 & Hnc)]; apply Hdone; [by left | right]. split; [done |].
      destruct (decide (k = l)) as [-> |]; [| split; [done | tauto]].
      split; [| tauto]. rewrite Ex. destruct (decide (i = x)) as [-> |]; [| lia]. exfalso. apply Hnc. left. lia.
    + intros [Hk2 | (Ek & Hi2)]; apply Hempty; [by left | right]. split; [done |].
      destruct Hi2 as [Hi2 | [(Hx2 & El & ->) | Hcs]]; [left; case_decide; [subst; lia | done] | | by right].
      left. rewrite Ek, <- El, Ex. lia.
Qed.

Lemma compute_ok s j th l i :
  build_ok s -> build_threads s !! j = Some th -> build_pc th = build_compute l i ->
  exists g' th', build_step (build_global s) th = Some (g', th') /\ build_ok (set_thread g' s j th').
Proof.
  intros [Hc Hth Hd [t [Hn1 Hn2]]] Hj Hpc. destruct (Hth j th Hj) as (Hpcok & Hcur & Hbuf). rewrite Hpc in Hpcok.
  destruct Hpcok as (-> & Hl & Hi). unfold SegmentTree.build_step. rewrite Hpc.
  set (L := build_level (build_global s)) in *.
  rewrite build_count_lsize in Hi by lia.
  assert (computing s i) as Hcomp by (exists j, th; by rewrite Hpc).
  destruct (compute_node_ok L i (set_memory {| result_states := result_states (memory (gtstate th));
      levels_flat_native := tree_states (build_global s) |} (gtstate th)) t) as (p' & -> & Hcur' & Hbuf' & Hm');
    [done | lia | done | done | exact Hn1 | | |].
  { intros k i' Hk Hi'. apply Hn2; [lia | done | by left]. }
  { apply Hn2; [done | lia |]. right. split; [done | by right]. }
  cbn [mbind option_bind].
  eexists _, _. split; [done |]. set (g' := {| tree_states := _ |}).
  assert (forall i', others_computing s j L i' -> i' <> i) as Hother.
  { intros i' (j' & th2 & Hne & E2 & Hpc2) ->. apply Hne. by eapply (Hd j' j). }
  split; cbn [build_global build_threads].
  - destruct Hc as [? ? ? ? ? ? Hws Has Hts]. split; try done.
    + intros HL. rewrite (sum_insert working _ _ _ _ Hj), Hpc. cbn [build_pc working].
      change (build_level g') with L in *. specialize (Hws HL). fold L in Hws.
      change (started g' L) with (started (build_global s) L). change (completed g' L) with (completed (build_global s) L). lia.
    + intros HL. rewrite (sum_insert advancing _ _ _ _ Hj), Hpc. cbn [build_pc advancing]. specialize (Has HL).
      change (build_level g') with L in *. change (completed g' L) with (completed (build_global s) L). fold L in Has. case_match; lia.
    + intros HL. rewrite (sum_insert advancing _ _ _ _ Hj), Hpc. cbn [build_pc advancing]. specialize (Hts HL). lia.
  - apply others_ok; [done | |].
    + split_and!; [| done | done]. cbn [build_pc pc_ok]. rewrite build_count_lsize by lia.
      change (started g' L) with (started (build_global s) L). split_and!; [done | done | lia | lia].
    + intros j' th2 _ _. by apply build_pc_ok_mono.
  - by apply distinct_insert.
  - exists (<[lstart L + i := Some (level_rows (S L) i (i + 1))]> t). split; [exact Hm' |].
    intros k i' Hk Hi'. cbn [build_global]. change (build_level g') with L. change (started g' k) with (started (build_global s) k).
    assert (computing (set_thread g' s j {| build_pc := build_complete L i; gtstate := p' |}) i' <-> others_computing s j L i')
      as Hcs.
    { rewrite (computing_insert _ _ _ _ _ _ Hj). cbn [build_pc]. change (build_level g') with L.
      split; [by intros [|] | by right]. }
    rewrite Hcs. destruct (decide (k = L /\ i' = i)) as [[-> ->] | Hne].
    + rewrite fn_lookup_insert. split; [done |]. intros [? | (_ & [? | Ho])]; [lia | lia |]. by destruct (Hother i Ho).
    + assert (lstart k + i' <> lstart L + i) as Hidx.
      { intros E. destruct (node_index_inj n (leaf_count_nonneg collection) k L i' i); [done | lia | done |]. by apply Hne. }
      rewrite fn_lookup_insert_ne by done. destruct (Hn2 k i' Hk Hi') as [Hdone Hempty].
      assert (k = L -> (computing s i' <-> others_computing s j L i')) as Hcs2.
      { intros ->. rewrite (computing_others _ _ _ _ Hj), Hpc. fold L. split; [| by right].
        intros [[= ->] | ?]; [by destruct Hne | done]. }
      split.
      * intros [? | (Ek & ? & Hnc)]; apply Hdone; [by left | right]. by rewrite (Hcs2 Ek).
      * intros [? | (Ek & Ho)]; apply Hempty; [by left | right]. by rewrite (Hcs2 Ek).
Qed.

Lemma complete_ok s j th l i :
  build_ok s -> build_threads s !! j = Some th -> build_pc th = build_complete l i ->
  exists g' th', build_step (build_global s) th = Some (g', th') /\ build_ok (set_thread g' s j th').
Proof.
  intros [Hc Hth Hd [t [Hn1 Hn2]]] Hj Hpc. destruct (Hth j th Hj) as (Hpcok & Hcur & Hbuf). rewrite Hpc in Hpcok.
  destruct Hpcok as (-> & Hl & Hi). unfold SegmentTree.build_step. rewrite Hpc.
  set (L := build_level (build_global s)) in *.
  destruct Hc as [Hle Hsl Hcl Hlater Hbelow Hnn Hws Has Hts].
  destruct (lookup_lt_is_Some_2 (build_completed (build_global s)) L) as [x Hx]; [rewrite Hcl; lia |].
  rewrite Hx. cbn [mbind option_bind].
  assert (completed (build_global s) L = x) as Ex by (unfold completed; by rewrite Hx).
  specialize (Hws Hl). specialize (Has Hl). fold L in Hws, Has. rewrite Ex in Hws, Has.
  assert (x < build_count L) as Hxc.
  { pose proof (zsum_member (fun th => working (build_pc th)) (build_threads s) th) as Hm.
    rewrite Hws, Hpc in Hm. cbn [working] in Hm.
    assert (1 <= Z.min (started (build_global s) L) (build_count L) - x); [| lia].
    apply Hm; [intros th2 _; by destruct (build_pc th2) | by eapply list_elem_of_lookup_2]. }
  rewrite (proj2 (Z.eqb_neq _ _)) in Has by lia.
  set (g' := {| tree_states := _ |}).
  assert (forall l', completed g' l' = if decide (l' = L) then x + 1 else completed (build_global s) l') as Hco.
  { intros l'. unfold completed. cbn [build_completed g']. apply started_insert. rewrite Hcl. lia. }
  eexists _, _. split; [done |]. set (pc := if _ =? _ then _ else _). split; cbn [build_global build_threads].
  - split; try done.
    + cbn. by rewrite length_insert.
    + intros l' Hl'. rewrite Hco. cbn in Hl'. rewrite decide_False by (fold L in Hl'; lia). by apply Hlater.
    + intros l'. rewrite Hco. pose proof (Hnn l'). pose proof (Hnn L). change (started g' l') with (started (build_global s) l').
      case_decide; lia.
    + intros HL. rewrite (sum_insert working _ _ _ _ Hj), Hws, Hpc. cbn [build_pc working].
      change (build_level g') with L. rewrite Hco, decide_True by done. change (started g' L) with (started (build_global s) L).
      assert (working pc = 0) as -> by (unfold pc; by destruct (_ =? _)). lia.
    + intros HL. rewrite (sum_insert advancing _ _ _ _ Hj), Has, Hpc. cbn [build_pc advancing].
      change (build_level g') with L. rewrite Hco, decide_True by done. unfold pc.
      by destruct (x + 1 =? build_count L).
    + intros HL. change (build_level g') with L in HL. lia.
  - apply others_ok; [done | |].
    + split; [| done]. cbn [build_pc]. unfold pc. destruct (x + 1 =? build_count L); cbn; done.
    + intros j' th2 _ _. by apply build_pc_ok_mono.
  - apply distinct_insert; [done |]. intros l' i' j' th2 E. cbn [build_pc] in E. unfold pc in E.
    by destruct (x + 1 =? build_count L).
  - exists t. split; [done |]. intros k i' Hk Hi'. cbn [build_global].
    rewrite (computing_same g' s j th {| build_pc := pc; gtstate := gtstate th |} i' Hj); [by apply Hn2 | done | by rewrite Hpc |].
    cbn [build_pc]. unfold pc. by destruct (x + 1 =? build_count L).
Qed.

Lemma zsum_zero_member (f : Thread -> Z) ths th :
  (forall th, 0 <= f th) -> zsum f ths = 0 -> th ∈ ths -> f th = 0.
Proof.
  intros Hf H0 Hin. pose proof (zsum_member f ths th (fun x _ => Hf x) Hin). specialize (Hf th). lia.
Qed.

Lemma advance_ok s j th l :
  build_ok s -> build_threads s !! j = Some th -> build_pc th = build_advance l ->
  exists g' th', build_step (build_global s) th = Some (g', th') /\ build_ok (set_thread g' s j th').
Proof.
  intros [Hc Hth Hd [t [Hn1 Hn2]]] Hj Hpc. destruct (Hth j th Hj) as (Hpcok & Hcur & Hbuf). rewrite Hpc in Hpcok.
  destruct Hpcok as (-> & Hl). unfold SegmentTree.build_step. rewrite Hpc.
  set (L := build_level (build_global s)) in *.
  destruct Hc as [Hle Hsl Hcl Hlater Hbelow Hnn Hws Has Hts].
  specialize (Hws Hl). specialize (Has Hl). fold L in Hws, Has.
  set (ths' := <[j := {| build_pc := build_load; gtstate := gtstate th |}]> (build_threads s)).
  assert (completed (build_global s) L = build_count L) as Hall.
  { pose proof (zsum_member (fun th => advancing (build_pc th)) (build_threads s) th) as Hm.
    rewrite Has, Hpc in Hm. cbn [advancing] in Hm.
    destruct (Z.eqb_spec (completed (build_global s) L) (build_count L)); [done |]. exfalso.
    assert (1 <= 0); [| lia]. apply Hm; [intros th2 _; by destruct (build_pc th2) | by eapply list_elem_of_lookup_2]. }
  rewrite Hall, Z.eqb_refl in Has. rewrite Hall in Hws.
  pose proof (working_nonneg (build_threads s)) as Hw0.
  assert (build_count L <= started (build_global s) L) as Hstart by lia.
  assert (zsum (fun th => working (build_pc th)) ths' = 0) as Hw'.
  { unfold ths'. rewrite (sum_insert working _ _ _ _ Hj), Hpc. cbn [build_pc working]. lia. }
  assert (zsum (fun th => advancing (build_pc th)) ths' = 0) as Ha'.
  { unfold ths'. rewrite (sum_insert advancing _ _ _ _ Hj), Hpc, Has. cbn [build_pc advancing]. lia. }
  assert (forall th2, th2 ∈ ths' -> working (build_pc th2) = 0 /\ advancing (build_pc th2) = 0) as Hidle.
  { intros th2 Hin. split.
    - apply (zsum_zero_member (fun th => working (build_pc th)) ths'); [intros th3; by destruct (build_pc th3) | done | done].
    - apply (zsum_zero_member (fun th => advancing (build_pc th)) ths'); [intros th3; by destruct (build_pc th3) | done | done]. }
  eexists _, _. split; [done |]. set (g' := {| tree_states := _ |}). split; cbn [build_global build_threads].
  - change (build_level g') with (S L). split; try done.
    + intros l' Hl'. apply (Hlater l'). change (build_level g') with (S L) in Hl'. fold L. lia.
    + intros l' Hl'. change (build_level g') with (S L) in Hl'. change (started g' l') with (started (build_global s) l').
      destruct (decide (l' = L)) as [-> |]; [done |]. apply Hbelow. fold L. lia.
    + intros HL. change (build_level g') with (S L) in *. fold ths'. rewrite Hw'.
      change (started g' (S L)) with (started (build_global s) (S L)).
      change (completed g' (S L)) with (completed (build_global s) (S L)).
      destruct (Hlater (S L)) as [-> ->]; [fold L; lia |]. pose proof (build_count_pos (S L) HL). lia.
    + intros HL. change (build_level g') with (S L) in *. fold ths'. rewrite Ha'.
      change (completed g' (S L)) with (completed (build_global s) (S L)).
      destruct (Hlater (S L)) as [_ ->]; [fold L; lia |]. pose proof (build_count_pos (S L) HL).
      by rewrite (proj2 (Z.eqb_neq 0 _)) by lia.
  - apply others_ok; [done | |].
    + split; [done | done].
    + intros j' th2 Hne E2 Hpc2. assert (th2 ∈ ths') as Hin.
      { apply list_elem_of_lookup. exists j'. unfold ths'. by rewrite list_lookup_insert_ne. }
      destruct (Hidle th2 Hin) as [H1 H2]. destruct (build_pc th2); cbn in H1, H2, Hpc2 |- *; try done.
      * destruct Hpc2. split; [fold L in H; lia | done].
      * destruct Hpc2 as (? & ? & ?). split_and!; [fold L in H; lia | done | done].
      * fold L in Hpc2. lia.
  - by apply distinct_insert.
  - exists t. split; [done |]. intros k i Hk Hi. cbn [build_global]. change (build_level g') with (S L).
    assert (forall i', ~ computing s i') as Hnone.
    { intros i' (j' & th2 & E2 & Hpc2). destruct (decide (j' = j)) as [-> |]; [congruence |].
      destruct (Hidle th2) as [H1 _]; [| by rewrite Hpc2 in H1].
      apply list_elem_of_lookup. exists j'. unfold ths'. by rewrite list_lookup_insert_ne. }
    destruct (Hn2 k i Hk Hi) as [Hdone Hempty]. rewrite <- build_count_lsize in Hi by lia. split.
    + intros Hcase. apply Hdone. destruct (decide (k < L)%nat) as [| Hk2]; [by left | right].
      assert (k = L) as ->. { destruct Hcase as [? | (-> & ? & _)]; [lia |].
        change (started g' (S L)) with (started (build_global s) (S L)) in *.
        destruct (Hlater (S L)) as [E _]; [fold L; lia |]. lia. }
      split_and!; [done | lia | apply Hnone].
    + intros Hcase. apply Hempty. left. fold L. destruct Hcase as [? | (-> & _)]; lia.
Qed.

Lemma build_system_step_ok s j :
  build_ok s -> (j < length (build_threads s))%nat ->
  exists s', system_step s j = Some s' /\ build_ok s' /\ length (build_threads s') = length (build_threads s).
Proof.
  intros Hs Hj. destruct (lookup_lt_is_Some_2 _ _ Hj) as [th Eth]. unfold SegmentTree.system_step. rewrite Eth.
  cbn [mbind option_bind].
  assert (exists g' th', build_step (build_global s) th = Some (g', th') /\ build_ok (set_thread g' s j th'))
    as (g' & th' & -> & Hs'); cycle 1.
  { cbn [mbind option_bind]. eexists. split; [done |]. split; [done |]. cbn. by rewrite length_insert. }
  destruct (build_pc th) as [| l | l | l i | l i | l |] eqn:Hpc.
  - unfold SegmentTree.build_step. rewrite Hpc. destruct Hs as [Hc Hth Hd Hn] eqn:EHs.
    pose proof (level_le _ _ Hc) as Hle.
    rewrite (proj2 (Nat.leb_gt _ _)) by (rewrite (levels_starts _ _ Hlevels), length_fmap, length_seq; lia).
    rewrite level_size_lsize by done.
    destruct (Z.leb_spec (lsize (build_level (build_global s))) 1) as [H1 | H1]; (eexists _, _; split; [done |]);
      (apply (step_local s j th); [done | done | by rewrite Hpc | done | by rewrite Hpc | by rewrite Hpc |]); cbn [pc_ok].
    + destruct (decide (build_level (build_global s) = levels)); [done |].
      pose proof (levels_inner _ _ Hlevels (build_level (build_global s)) ltac:(lia)). lia.
    + split; [done |]. destruct (decide (build_level (build_global s) = levels)) as [E |]; [| lia].
      rewrite E in H1. pose proof (levels_top _ _ Hlevels). lia.
  - by eapply claim_ok.
  - unfold SegmentTree.build_step. rewrite Hpc. eexists _, _. split; [done |].
    destruct (build_thread _ Hs j th Eth) as (Hp & _). rewrite Hpc in Hp.
    apply (step_local s j th); [done | done | by rewrite Hpc | | rewrite Hpc | rewrite Hpc |]; by destruct (l =? _)%nat.
  - by eapply compute_ok.
  - by eapply complete_ok.
  - by eapply advance_ok.
  - unfold SegmentTree.build_step. rewrite Hpc. eexists _, _. split; [done |].
    destruct s as [g ths]. cbn in *. by rewrite list_insert_id.
Qed.

(** ** Whole schedules *)

Lemma znth_states_new i :
  0 <= i < lstart levels -> zload (tree_states (GlobalState_new aggr n)) i = Some (initialize aggr).
Proof.
  intros Hi. pose proof (levels_total _ _ Hlevels). unfold GlobalState_new, States_Initialize. cbn [tree_states].
  unfold zload. rewrite decide_True by lia. apply lookup_replicate_2. lia.
Qed.

Lemma node_below k i : (k < levels)%nat -> 0 <= i < lsize (S k) -> 0 <= lstart k + i < lstart levels.
Proof.
  intros Hk Hi. pose proof (lstart_nonneg n (leaf_count_nonneg collection) k).
  pose proof (lstart_mono n (leaf_count_nonneg collection) (S k) levels Hk) as Hs. cbn [SegmentTreeInvariant.lstart] in Hs. lia.
Qed.

Abbreviation BuildSystem_new := (BuildSystem_new aggr n).

Lemma new_counters l : started (GlobalState_new aggr n) l = 0 /\ completed (GlobalState_new aggr n) l = 0.
Proof.
  unfold started, completed. cbn. destruct (replicate _ 0 !! l) eqn:E; [| done]. by apply lookup_replicate in E as [-> _].
Qed.

Lemma BuildSystem_new_ok threads : build_ok (BuildSystem_new threads).
Proof.
  assert (forall (f : BuildPc -> Z), f build_load = 0 ->
    zsum (fun th : Thread => f (build_pc th)) (build_threads (BuildSystem_new threads)) = 0) as Hsum.
  { intros f Hf. unfold SegmentTree.BuildSystem_new. cbn [build_threads].
    rewrite (zsum_ext _ (fun _ => 0)); [by induction threads |]. by intros th [-> _]%elem_of_replicate. }
  split.
  - split; cbn [build_global SegmentTree.BuildSystem_new GlobalState_new build_level build_started build_completed].
    + lia.
    + rewrite length_replicate, (levels_starts _ _ Hlevels). by rewrite length_fmap, length_seq.
    + rewrite length_replicate, (levels_starts _ _ Hlevels). by rewrite length_fmap, length_seq.
    + intros l _. apply new_counters.
    + intros l Hl. lia.
    + intros l. destruct (new_counters l) as [E1 E2].
      change (0 <= completed (GlobalState_new aggr n) l /\ 0 <= started (GlobalState_new aggr n) l). lia.
    + intros Hl. rewrite (Hsum working) by done. destruct (new_counters 0) as [E1 E2].
      change (0 = Z.min (started (GlobalState_new aggr n) 0) (build_count 0) - completed (GlobalState_new aggr n) 0).
      pose proof (build_count_pos 0 Hl). lia.
    + intros Hl. rewrite (Hsum advancing) by done. destruct (new_counters 0) as [_ E2].
      change (0 = if completed (GlobalState_new aggr n) 0 =? build_count 0 then 1 else 0).
      pose proof (build_count_pos 0 Hl). by rewrite (proj2 (Z.eqb_neq _ _)) by lia.
    + intros _. by apply Hsum.
  - intros j th [-> _]%lookup_replicate. split; [done |]. split; [| done].
    split; cbn; [lia | apply leaf_count_nonneg].
  - intros j1 j2 th1 th2 l i [-> _]%lookup_replicate _ E. done.
  - exists (fun i => if decide (0 <= i < lstart levels) then Some [] else None). split.
    + intros i rows E. case_decide as Hi; [| done]. injection E as <-. exists (initialize aggr).
      split; [by apply znth_states_new | apply represents_initialize].
    + intros k i Hk Hi. rewrite decide_True by by apply node_below. split; [| done].
      intros [H | (_ & H & _)]; [cbn in H; lia |]. cbn [build_global SegmentTree.BuildSystem_new] in H.
      destruct (new_counters k) as [E _]. lia.
Qed.

Lemma run_from_ok s schedule :
  build_ok s -> Forall (fun j => (j < length (build_threads s))%nat) schedule ->
  exists s', ofold system_step s schedule = Some s' /\ build_ok s' /\
    length (build_threads s') = length (build_threads s).
Proof.
  intros Hs Hj. revert s Hs Hj. induction schedule as [| j schedule IH]; intros s Hs Hj; [by exists s |].
  apply Forall_cons in Hj as [Hj Hjs]. destruct (build_system_step_ok s j Hs Hj) as (s1 & E1 & Hs1 & Hl1).
  rewrite ofold_cons, E1. cbn [mbind option_bind]. rewrite <- Hl1 in Hjs.
  destruct (IH s1 Hs1 Hjs) as (s2 & E2 & Hs2 & Hl2). exists s2. split_and!; [done | done | congruence].
Qed.

(** A complete tree. *)
Definition tree_complete (tree : list St) : Prop :=
  exists t, (forall i rows, t i = Some rows -> exists st, zload tree i = Some st /\ represents (aggr := aggr) st rows) /\
    forall k i, (k < levels)%nat -> 0 <= i < lsize (S k) -> t (lstart k + i) = Some (level_rows (S k) i (i + 1)).

Lemma done_complete s j th :
  build_ok s -> build_threads s !! j = Some th -> build_pc th = build_done -> tree_complete (tree_states (build_global s)).
Proof.
  intros [_ Hth _ [t [Hn1 Hn2]]] Hj Hpc. destruct (Hth j th Hj) as (Hp & _). rewrite Hpc in Hp. cbn in Hp.
  exists t. split; [done |]. intros k i Hk Hi. apply Hn2; [done | done | left]. lia.
Qed.

(** ** Termination *)

Definition idle_pc g (pc : BuildPc) : bool :=
  match pc with build_wait l => (l =? build_level g)%nat | build_done => true | _ => false end.

Definition thread_weight g (pc : BuildPc) : Z :=
  let left l := 4 * (Z.of_nat levels - Z.of_nat l) in
  match pc with
  | build_load => left (build_level g) + 3
  | build_claim l => left l + 2
  | build_wait l => left l + 1
  | build_compute l _ => left l + 6
  | build_complete l _ => left l + 5
  | build_advance l => left l + 4
  | build_done => 0
  end.

Definition unclaimed g : Z := zsum (fun l => Z.max 0 (build_count l - started g l)) (seq 0 levels).

Definition build_weight s : Z :=
  8 * unclaimed (build_global s) + zsum (fun th => thread_weight (build_global s) (build_pc th)) (build_threads s).

Lemma pc_weight_nonneg g pc : (build_level g <= levels)%nat -> pc_ok g pc -> 0 <= thread_weight g pc.
Proof. intros Hl. destruct pc; cbn [pc_ok thread_weight]; lia. Qed.

Lemma build_weight_nonneg s : build_ok s -> 0 <= build_weight s.
Proof.
  intros [Hc Hth _ _]. unfold build_weight.
  assert (0 <= unclaimed (build_global s)) by (apply zsum_nonneg; intros; lia).
  assert (0 <= zsum (fun th => thread_weight (build_global s) (build_pc th)) (build_threads s)); [| lia].
  apply zsum_nonneg. intros th [j Hj]%list_elem_of_lookup. apply pc_weight_nonneg; [by destruct Hc | by apply (Hth j)].
Qed.

Lemma unclaimed_claim g g' l x :
  (l < levels)%nat -> started g l = x -> 0 <= x ->
  (forall l', started g' l' = if decide (l' = l) then x + 1 else started g l') ->
  unclaimed g' = unclaimed g - (if build_count l <=? x then 0 else 1).
Proof.
  intros Hl Hx H0 Hs. unfold unclaimed.
  rewrite (zsum_seq_update (fun l => Z.max 0 (build_count l - started g l)) _ levels l Hl); cycle 1.
  { intros k _ Hne. by rewrite Hs, decide_False. }
  rewrite Hs, decide_True by done. destruct (Z.leb_spec (build_count l) x); lia.
Qed.

Lemma build_step_weight g th g' th' :
  (build_level g <= levels)%nat -> length (build_started g) = S levels -> (forall l, 0 <= started g l) ->
  pc_ok g (build_pc th) -> build_step g th = Some (g', th') ->
  (build_level g <= build_level g')%nat /\
  8 * unclaimed g' + thread_weight g' (build_pc th') + (if idle_pc g (build_pc th) then 0 else 1) <=
  8 * unclaimed g + thread_weight g (build_pc th).
Proof.
  intros Hle Hlen Hnn Hpc E. unfold SegmentTree.build_step in E. destruct (build_pc th) as [| l | l | l i | l i | l |] eqn:Epc.
  - rewrite (proj2 (Nat.leb_gt _ _)) in E by (rewrite (levels_starts _ _ Hlevels), length_fmap, length_seq; lia).
    case_match; injection E as <- <-; cbn [build_pc thread_weight idle_pc]; lia.
  - destruct (build_started g !! l) as [x |] eqn:Ex; [| done]. cbn [mbind option_bind] in E. injection E as <- <-.
    cbn [build_level build_pc idle_pc]. destruct Hpc as [_ Hl].
    assert (started g l = x) as Hx by (unfold started; by rewrite Ex). split; [done |].
    erewrite (unclaimed_claim g _ l x); [| done | done | by rewrite <- Hx; apply Hnn |].
    + destruct (build_count l <=? x); cbn [thread_weight]; lia.
    + intros l'. unfold started. cbn [build_started]. apply started_insert. lia.
  - injection E as <- <-. cbn [build_pc idle_pc]. destruct Hpc as (? & ? & _).
    destruct (Nat.eqb_spec l (build_level g)); cbn [thread_weight]; lia.
  - destruct (compute_node _ _ _) as [s |]; [| done]. cbn [mbind option_bind] in E. injection E as <- <-.
    cbn [build_pc build_level idle_pc thread_weight]. unfold unclaimed, started. cbn [build_started]. lia.
  - destruct (build_completed g !! l) as [x |]; [| done]. cbn [mbind option_bind] in E. injection E as <- <-.
    destruct Hpc as (-> & _). cbn [build_pc build_level idle_pc]. unfold unclaimed, started. cbn [build_started].
    destruct (x + 1 =? _); cbn [thread_weight build_level]; lia.
  - injection E as <- <-. destruct Hpc as (-> & _). cbn [build_pc build_level idle_pc thread_weight].
    unfold unclaimed, started. cbn [build_started build_level]. lia.
  - injection E as <- <-. rewrite Epc. cbn [idle_pc thread_weight]. lia.
Qed.

(** A step of a thread that is not idle spends weight, and other steps do no harm. *)
Lemma system_step_weight s j th s' :
  build_ok s -> build_threads s !! j = Some th -> system_step s j = Some s' ->
  build_weight s' + (if idle_pc (build_global s) (build_pc th) then 0 else 1) <= build_weight s /\
  (build_level (build_global s) <= build_level (build_global s'))%nat /\
  forall j', j' <> j -> build_threads s' !! j' = build_threads s !! j'.
Proof.
  intros [[Hle Hsl _ _ _ Hnn _ _ _] Hth _ _] Hj E. unfold SegmentTree.system_step in E. rewrite Hj in E.
  cbn [mbind option_bind] in E.
  destruct (build_step (build_global s) th) as [[g' th'] |] eqn:Estep; [| done]. cbn [mbind option_bind] in E.
  injection E as <-. cbn [build_global build_threads].
  destruct (build_step_weight _ _ _ _ Hle Hsl (fun l => proj2 (Hnn l)) (proj1 (Hth j th Hj)) Estep) as [Hl Hw].
  split_and!; [| done | intros j' Hne; by rewrite list_lookup_insert_ne].
  unfold build_weight. cbn [build_global build_threads].
  assert (zsum (fun th => thread_weight g' (build_pc th)) (<[j := th']> (build_threads s)) <=
    zsum (fun th => thread_weight (build_global s) (build_pc th)) (build_threads s)
      - thread_weight (build_global s) (build_pc th) + thread_weight g' (build_pc th')); [| lia].
  rewrite (zsum_insert _ _ _ _ th' Hj).
  rewrite <- (take_drop_middle _ _ _ Hj), !zsum_app, !zsum_cons.
  assert (forall ths : list Thread, zsum (fun th => thread_weight g' (build_pc th)) ths <=
    zsum (fun th => thread_weight (build_global s) (build_pc th)) ths) as Hs.
  { intros ths. apply zsum_le. intros th2 _. destruct (build_pc th2); cbn [thread_weight]; lia. }
  pose proof (Hs (take j (build_threads s))). pose proof (Hs (drop (S j) (build_threads s))). lia.
Qed.

(** A thread that is not idle stays so until its next step. *)
Lemma idle_mono g g' pc :
  pc_ok g pc -> (build_level g <= build_level g')%nat -> idle_pc g pc = false -> idle_pc g' pc = false.
Proof.
  intros Hpc Hl. destruct pc; cbn [idle_pc pc_ok] in *; try done. rewrite !Nat.eqb_neq. lia.
Qed.

Lemma round_weight s schedule s' j th :
  build_ok s -> ofold system_step s schedule = Some s' -> Forall (fun j => (j < length (build_threads s))%nat) schedule ->
  build_weight s' <= build_weight s /\
  (build_threads s !! j = Some th -> idle_pc (build_global s) (build_pc th) = false -> j ∈ schedule ->
    build_weight s' < build_weight s).
Proof.
  revert s. induction schedule as [| j' schedule IH]; intros s Hs E Hj.
  { injection E as <-. split; [lia |]. by intros _ _ ?%not_elem_of_nil. }
  apply Forall_cons in Hj as [Hj' Hj]. destruct (lookup_lt_is_Some_2 _ _ Hj') as [th' Hth'].
  destruct (build_system_step_ok s j' Hs Hj') as (s1 & E1 & Hs1 & Hlen). rewrite ofold_cons, E1 in E. cbn [mbind option_bind] in E.
  destruct (system_step_weight s j' th' s1 Hs Hth' E1) as (Hw & Hl & Hother). rewrite <- Hlen in Hj.
  destruct (IH s1 Hs1 E Hj) as [Hle Hlt]. split; [case_match; lia |].
  intros Hth Hidle Hin. destruct (decide (j = j')) as [-> | Hne].
  - rewrite Hth' in Hth. injection Hth as ->. rewrite Hidle in Hw. lia.
  - apply elem_of_cons in Hin as [-> | Hin]; [done |].
    assert (build_weight s' < build_weight s1); [| case_match; lia].
    apply Hlt; [by rewrite Hother | | done]. apply (idle_mono (build_global s)); [| done | done].
    by destruct (build_thread _ Hs j th Hth).
Qed.

Definition all_done s : Prop := Forall (fun th => build_pc th = build_done) (build_threads s).

(** Not every thread waits. *)
Lemma some_thread_works s :
  build_ok s -> all_done s \/
  exists j th, build_threads s !! j = Some th /\ idle_pc (build_global s) (build_pc th) = false.
Proof.
  intros [Hc Hth _ _].
  destruct (decide (Forall (fun th => idle_pc (build_global s) (build_pc th) = true) (build_threads s))) as [Hidle | Hn]; cycle 1.
  { right. apply not_Forall_Exists in Hn; [| apply _]. apply Exists_exists in Hn as (th & [j Hj]%list_elem_of_lookup & Hi).
    exists j, th. split; [done |]. by apply not_true_is_false. }
  left. unfold all_done. rewrite Forall_lookup in Hidle |- *. intros j th Hj. pose proof (Hidle j th Hj) as Hi.
  destruct (build_pc th) as [| | l | | | |] eqn:Hpc; try done. exfalso.
  cbn [idle_pc] in Hi. apply Nat.eqb_eq in Hi as ->.
  destruct (Hth j th Hj) as (Hp & _). rewrite Hpc in Hp. destruct Hp as (_ & Hl & Hstart).
  destruct Hc as [_ _ _ _ _ Hnn Hws Has _]. specialize (Hws Hl). specialize (Has Hl). specialize (Hnn (build_level (build_global s))).
  assert (forall j2 th2, build_threads s !! j2 = Some th2 -> working (build_pc th2) = 0 /\ advancing (build_pc th2) = 0) as Hz.
  { intros j2 th2 Hj2. destruct (Hth j2 th2 Hj2) as (Hp2 & _).
    specialize (Hidle j2 th2 Hj2). by destruct (build_pc th2). }
  rewrite (zsum_ext _ (fun _ => 0)) in Hws by (intros th2 [j2 Hj2]%list_elem_of_lookup; by apply (Hz j2)).
  rewrite (zsum_ext _ (fun _ => 0)) in Has by (intros th2 [j2 Hj2]%list_elem_of_lookup; by apply (Hz j2)).
  assert (forall ths : list Thread, zsum (fun _ => 0) ths = 0) as H0 by (intros ths; by induction ths).
  rewrite H0 in Hws, Has. rewrite (proj2 (Z.eqb_eq _ _)) in Has by lia. done.
Qed.
Lemma all_done_stays s schedule :
  build_ok s -> all_done s -> Forall (fun j => (j < length (build_threads s))%nat) schedule ->
  ofold system_step s schedule = Some s.
Proof.
  intros Hs Hd Hj. induction Hj as [| j schedule Hj _ IH]; [done |].
  rewrite ofold_cons. destruct (lookup_lt_is_Some_2 _ _ Hj) as [th Hth].
  assert (system_step s j = Some s) as ->; [| done].
  unfold SegmentTree.system_step. rewrite Hth. cbn [mbind option_bind]. unfold SegmentTree.build_step.
  rewrite (Forall_lookup_1 _ _ _ _ Hd Hth). cbn [mbind option_bind].
  rewrite (list_insert_id _ _ _ Hth). by destruct s.
Qed.

Lemma rounds_done s rounds :
  build_ok s ->
  Forall (fun round => Forall (fun j => (j < length (build_threads s))%nat) round /\
    forall j, (j < length (build_threads s))%nat -> j ∈ round) rounds ->
  build_weight s <= Z.of_nat (length rounds) ->
  exists s', ofold system_step s (mjoin rounds) = Some s' /\ build_ok s' /\ all_done s' /\
    length (build_threads s') = length (build_threads s).
Proof.
  revert s. induction rounds as [| round rounds IH]; intros s Hs Hr Hw.
  - exists s. split_and!; [done | done | | done]. destruct (some_thread_works s Hs) as [| (j & th & Hj & Hi)]; [done |].
    pose proof (build_weight_nonneg s Hs). pose proof (lookup_lt_Some _ _ _ Hj) as Hlt.
    destruct (build_system_step_ok s j Hs Hlt) as (s1 & E1 & Hs1 & _).
    destruct (system_step_weight s j th s1 Hs Hj E1) as (Hw1 & _). rewrite Hi in Hw1.
    pose proof (build_weight_nonneg s1 Hs1). cbn in Hw. lia.
  - apply Forall_cons in Hr as [[Hj Hall] Hr]. destruct (some_thread_works s Hs) as [Hd | (j & th & Hth & Hi)].
    + exists s. rewrite mjoin_cons, ofold_app, (all_done_stays s round) by done. cbn [mbind option_bind].
      rewrite (all_done_stays s); [done | done | done |]. apply Forall_join. eapply Forall_impl; [exact Hr |]. by intros ? [? _].
    + destruct (run_from_ok s round Hs Hj) as (s1 & E1 & Hs1 & Hlen).
      destruct (round_weight s round s1 j th Hs E1 Hj) as [_ Hlt].
      assert (build_weight s1 < build_weight s) by (apply Hlt; [done | done | by eapply Hall, lookup_lt_Some]).
      rewrite mjoin_cons, ofold_app, E1. cbn [mbind option_bind].
      destruct (IH s1 Hs1) as (s2 & E2 & Hs2 & Hd2 & Hl2).
      * by rewrite Hlen.
      * rewrite length_cons in Hw. lia.
      * exists s2. split_and!; [done | done | done | congruence].
Qed.

Lemma new_weight threads :
  build_weight (BuildSystem_new threads) <= 8 * snd (levels_flat n) + 4 * Z.of_nat threads * Z.of_nat (length starts).
Proof.
  unfold build_weight.
  assert (zsum (fun th => thread_weight (build_global (BuildSystem_new threads)) (build_pc th))
    (build_threads (BuildSystem_new threads)) <= 4 * Z.of_nat threads * Z.of_nat (length starts)) as H1.
  { rewrite (levels_starts _ _ Hlevels), length_fmap, length_seq. unfold SegmentTree.BuildSystem_new. cbn [build_threads].
    induction threads as [| k IH]; [done |]. cbn [replicate]. rewrite zsum_cons. cbn [build_pc thread_weight] in *.
    unfold GlobalState_new in *. cbn [build_level build_global] in *. lia. }
  assert (unclaimed (build_global (BuildSystem_new threads)) <= lstart levels); [| pose proof (levels_total _ _ Hlevels); lia].
  unfold unclaimed.
  assert (forall m, (m <= levels)%nat -> zsum (fun l => Z.max 0 (build_count l - started (GlobalState_new aggr n) l)) (seq 0 m) <= lstart m)
    as Hm; [| by apply Hm].
  induction m as [| m IH]; intros Hle; [done |]. rewrite seq_S, zsum_app, zsum_cons. cbn [zsum foldr Nat.add SegmentTreeInvariant.lstart].
  destruct (new_counters m) as [-> _]. rewrite build_count_lsize by lia. pose proof (lsize_nonneg n (leaf_count_nonneg collection) (S m)).
  specialize (IH ltac:(lia)). change (foldr (fun a n0 => Z.max 0 (build_count a - started (GlobalState_new aggr n) a) + n0) 0 (seq 0 m))
    with (zsum (fun l => Z.max 0 (build_count l - started (GlobalState_new aggr n) l)) (seq 0 m)).
  lia.
Qed.
End build.

(** ** Theorems *)

Section theorems.
Context {R St Res : Type} (aggr : AggregateFunction R St Res) (spec : list R -> Res).
Context `{!AggregateLaws aggr spec}.
Context (collection : WindowCollection R) (filter_mask : ValidityArray) (exclude_mode : WindowExcludeMode).
Context (Hcolumns : column_count collection <> 0%nat).
Context (Hchunks : forall i, 0 <= i < leaf_count collection ->
  0 <= fst (chunk_range collection i) <= i /\ i < snd (chunk_range collection i) <= leaf_count collection).

Abbreviation n := (leaf_count collection).

(** The chunks that a thread evaluates, one after the other, with its local state. *)
Definition EvaluateChunks (tree : list St) (chunks : list (Z * list FrameRow)) : option (list (list Res)) :=
  fst <$> ofold
    (fun (r : list (list Res) * LocalState St) chunk =>
       '(result, local) ← Evaluate aggr collection filter_mask (fst (levels_flat n)) exclude_mode tree
                            (snd chunk) (fst chunk) (snd r);
       Some (fst r ++ [result], local))
    ([], {| part := None; right_part := None |}) chunks.

Lemma EvaluateChunks_ok levels (tree : list St) chunks :
  level_count n levels -> tree_complete aggr spec collection filter_mask levels tree ->
  Forall (fun chunk => forall rid b, snd chunk !! rid = Some b -> row_bounds_ok collection (fst chunk) rid b) chunks ->
  EvaluateChunks tree chunks =
    Some ((fun chunk => imap (frame_result spec collection filter_mask exclude_mode (fst chunk)) (snd chunk)) <$> chunks).
Proof.
  intros Hl (t & Htree & Ht) Hc. unfold EvaluateChunks.
  assert (forall local acc, local_ok aggr spec collection t local -> exists local',
    ofold (fun (r : list (list Res) * LocalState St) chunk =>
       '(result, local) ← Evaluate aggr collection filter_mask (fst (levels_flat n)) exclude_mode tree
                            (snd chunk) (fst chunk) (snd r);
       Some (fst r ++ [result], local)) (acc, local) chunks =
    Some (acc ++ ((fun chunk => imap (frame_result spec collection filter_mask exclude_mode (fst chunk)) (snd chunk)) <$> chunks), local'))
    as H.
  { induction Hc as [| chunk chunks Hb _ IH]; intros local acc Hlocal.
    { exists local. by rewrite app_nil_r. }
    rewrite ofold_cons. cbn [fst snd].
    destruct (Evaluate_ok aggr spec collection filter_mask exclude_mode Hcolumns Hchunks levels Hl t Ht tree Htree
      (snd chunk) (fst chunk) local Hb Hlocal) as (local1 & -> & Hlocal1).
    cbn [mbind option_bind]. destruct (IH local1 (acc ++ [imap (frame_result spec collection filter_mask exclude_mode (fst chunk)) (snd chunk)]) Hlocal1)
      as (local2 & ->). exists local2. by rewrite fmap_cons, <- app_assoc. }
  destruct (H {| part := None; right_part := None |} []) as (local' & ->); [by split | done].
Qed.

(** C23. However the threads that build the tree interleave, no step fails, and when one of
    them is done the tree is complete: every sequence of chunks that is evaluated with
    it gives for every row the aggregate of exactly the rows of its frame that the EXCLUDE
    clause keeps and the FILTER clause passes, in their order when the aggregate depends on it. *)
Theorem SegmentTree_correct threads schedule :
  Forall (fun j => (j < threads)%nat) schedule ->
  exists s, run_build aggr collection filter_mask n threads schedule = Some s /\
    forall j th chunks, build_threads s !! j = Some th -> build_pc th = build_done ->
    Forall (fun chunk => forall rid b, snd chunk !! rid = Some b -> row_bounds_ok collection (fst chunk) rid b) chunks ->
    EvaluateChunks (tree_states (build_global s)) chunks =
      Some ((fun chunk => imap (frame_result spec collection filter_mask exclude_mode (fst chunk)) (snd chunk)) <$> chunks).
Proof.
  intros Hj. destruct (levels_flat_spec n (leaf_count_nonneg collection)) as [levels Hl].
  destruct (run_from_ok aggr spec collection filter_mask Hcolumns Hchunks levels Hl (BuildSystem_new aggr n threads) schedule)
    as (s & E & Hs & _).
  - by apply BuildSystem_new_ok.
  - cbn. by rewrite length_replicate.
  - exists s. split; [done |]. intros j th chunks Eth Hpc. eapply EvaluateChunks_ok; [done |].
    by eapply done_complete.
Qed.

(** C24. The threads finish: when every thread takes a step in each of as many rounds as 8 times the
    nodes and 4 times the levels of every thread, they are all done, so no thread waits
    forever for the level of another. *)
Theorem SegmentTree_terminates threads rounds :
  Forall (fun round => Forall (fun j => (j < threads)%nat) round /\ forall j, (j < threads)%nat -> j ∈ round) rounds ->
  8 * snd (levels_flat n) + 4 * Z.of_nat threads * Z.of_nat (length (fst (levels_flat n))) <= Z.of_nat (length rounds) ->
  exists s, run_build aggr collection filter_mask n threads (mjoin rounds) = Some s /\
    length (build_threads s) = threads /\ Forall (fun th => build_pc th = build_done) (build_threads s).
Proof.
  intros Hr Hlen. destruct (levels_flat_spec n (leaf_count_nonneg collection)) as [levels Hl].
  destruct (rounds_done aggr spec collection filter_mask Hcolumns Hchunks levels Hl (BuildSystem_new aggr n threads) rounds)
    as (s & E & _ & Hd & Hls).
  - by apply BuildSystem_new_ok.
  - cbn. by rewrite length_replicate.
  - etransitivity; [apply new_weight; done | lia].
  - exists s. split_and!; [done | | done]. rewrite Hls. cbn. by rewrite length_replicate.
Qed.
End theorems.

(** ** Examples *)

(** An order dependent aggregate, and one that is not. *)
Definition list_aggregate : AggregateFunction Z (list Z) (list Z) :=
  {| initialize := []; update r st := st ++ [r]; combine src tgt := tgt ++ src; finalize st := st;
     order_insensitive := false |}.

Definition sum_aggregate : AggregateFunction Z Z Z :=
  {| initialize := 0; update r st := st + r; combine src tgt := tgt + src; finalize st := st;
     order_insensitive := true |}.

#[export] Instance list_aggregate_laws : AggregateLaws list_aggregate (fun rows => rows).
Proof. refine {| represents st rows := st = rows |}; cbn; by intros; subst. Defined.

#[export] Instance sum_aggregate_laws : AggregateLaws sum_aggregate (zsum (fun r => r)).
Proof.
  refine {| represents st rows := st = zsum (fun r => r) rows |}; cbn.
  - done.
  - intros st rows r ->. rewrite zsum_app. cbn. lia.
  - intros src tgt rows rows' -> ->. by rewrite zsum_app.
  - by intros st rows ->.
  - intros st rows rows' _ Hp ->. by apply zsum_perm.
Defined.

(** 40 rows in chunks of 7, without every fifth row. *)
Definition example_rows : WindowCollection Z :=
  {| collection_rows := zrange 0 40; chunk_range i := (i / 7 * 7, Z.min 40 (i / 7 * 7 + 7)); column_count := 1 |}.

Definition example_filter : ValidityArray :=
  mkArray (Some ((fun i => negb (i mod 5 =? 3)) <$> zrange 0 40)) 40.

Definition example_chunk (row_idx : Z) : Z * list FrameRow :=
  (row_idx, (fun i => {| window_begin := Z.max 0 (i - 25); window_end := Z.min 40 (i + 21);
                         peer_begin := i / 4 * 4; peer_end := i / 4 * 4 + 4 |}) <$> zrange row_idx (row_idx + 20)).

Definition example_rounds (k : nat) : list (list nat) := replicate k [1%nat; 0%nat; 1%nat].

Definition build_finished {St} (o : option (BuildSystem St)) : bool :=
  match o with
  | Some s => forallb (fun th => bool_decide (build_pc th = build_done)) (build_threads s)
  | None => false
  end.

Lemma example_column_count : column_count example_rows <> 0%nat.
Proof. done. Qed.

Lemma example_chunk_ranges i : 0 <= i < leaf_count example_rows ->
  0 <= fst (chunk_range example_rows i) <= i /\ i < snd (chunk_range example_rows i) <= leaf_count example_rows.
Proof. change (leaf_count example_rows) with 40. cbn. intros Hi. zdm. Qed.

Lemma example_chunk_ok row_idx :
  row_idx = 0 \/ row_idx = 20 ->
  forall rid b, snd (example_chunk row_idx) !! rid = Some b -> row_bounds_ok example_rows (fst (example_chunk row_idx)) rid b.
Proof.
  intros Hr rid b E. unfold example_chunk in *. cbn [fst snd] in *. rewrite list_lookup_fmap in E.
  unfold zrange in E. rewrite list_lookup_fmap in E.
  destruct (seq 0 _ !! rid) as [k |] eqn:Ek; [| done]. apply lookup_seq in Ek as [-> Hk]. injection E as <-.
  unfold row_bounds_ok. cbn [window_begin window_end peer_begin peer_end].
  change (leaf_count example_rows) with 40. zdm.
Qed.

Example example_builds :
  build_finished (run_build list_aggregate example_rows example_filter 40 2 (mjoin (example_rounds 10))) = true.
Proof. vm_compute. reflexivity. Qed.

Lemma SegmentTree_correct_witness :
  build_finished (run_build list_aggregate example_rows example_filter 40 2 (mjoin (example_rounds 10))) = true /\
  exists s, run_build list_aggregate example_rows example_filter 40 2 (mjoin (example_rounds 10)) = Some s /\
    forall j th, build_threads s !! j = Some th -> build_pc th = build_done ->
    EvaluateChunks list_aggregate example_rows example_filter TIES (tree_states (build_global s)) [example_chunk 20; example_chunk 0] =
      Some ((fun chunk => imap (frame_result (fun rows => rows) example_rows example_filter TIES (fst chunk)) (snd chunk)) <$>
        [example_chunk 20; example_chunk 0]).
Proof.
  split; [apply example_builds |].
  destruct (SegmentTree_correct list_aggregate (fun rows => rows) example_rows example_filter TIES example_column_count
    example_chunk_ranges 2 (mjoin (example_rounds 10))) as (s & E & Hs).
  - apply (bool_decide_unpack _). vm_compute. exact I.
  - exists s. split; [exact E |]. intros j th Eth Hpc. apply (Hs j th _ Eth Hpc).
    apply Forall_cons; split; [apply (example_chunk_ok 20); by right |].
    apply Forall_cons; split; [apply (example_chunk_ok 0); by left | apply Forall_nil_2].
Defined.

Lemma SegmentTree_terminates_witness :
  exists s, run_build sum_aggregate example_rows example_filter 40 2 (mjoin (example_rounds 60)) = Some s /\
    length (build_threads s) = 2%nat /\ Forall (fun th => build_pc th = build_done) (build_threads s).
Proof.
  apply (SegmentTree_terminates sum_aggregate (zsum (fun r => r)) example_rows example_filter example_column_count
    example_chunk_ranges 2 (example_rounds 60)).
  - apply Forall_replicate. split; [apply (bool_decide_unpack _); vm_compute; exact I |].
    intros [| [| j]] Hj; [set_solver | set_solver | lia].
  - apply (bool_decide_unpack _). vm_compute. exact I.
Defined.
