(* ===== verification/SortKey.v ===== *)
(** * Sort keys

    [SortKey] of include/duckdb/common/sorting/sort_key.hpp: the fixed and the
    variable size keys that the sort compares, with their construction from a
    byte string, their comparison on 64-bit parts and their decoding, and
    [BSwap] of include/duckdb/common/bswap.hpp.  A byte is a [Z] in [0, 256),
    a part of a key is a [uint64_t] of a little-endian machine, and the heap of
    the variable size keys is an array of bytes that their pointers index.

    The theorems show that comparing the parts is comparing the zero padded
    strings byte by byte, and that decoding a key gives the string back. *)

From S2P Require Import Prelude.

(** ** Bytes in memory *)

Definition is_byte (b : Z) : Prop := 0 <= b < 256.

#[export] Instance is_byte_dec b : Decision (is_byte b).
Proof. unfold is_byte. apply _. Defined.

(** The value of consecutive bytes, read as a little-endian integer. *)
Definition le_load (bs : list Z) : Z := foldr (fun b acc => b + 256 * acc) 0 bs.

(** The bytes of a little-endian integer. *)
Fixpoint le_store (n : nat) (x : Z) : list Z :=
  match n with
  | O => []
  | S n => x mod 256 :: le_store n (x / 256)
  end.

Definition zeros (n : nat) : list Z := replicate n 0.

Definition memcpy (dst : list Z) (ptr : Z) (src : list Z) : option (list Z) :=
  if (0 <=? ptr) && (ptr + Z.of_nat (length src) <=? Z.of_nat (length dst)) then
    Some (take (Z.to_nat ptr) dst ++ src ++ drop (Z.to_nat ptr + length src) dst)
  else None.

Definition read_bytes (mem : list Z) (ptr n : Z) : list Z :=
  take (Z.to_nat n) (drop (Z.to_nat ptr) mem).

(** The sign of the first difference, as unsigned bytes. *)
Fixpoint memcmp (l r : list Z) : Z :=
  match l, r with
  | x :: l, y :: r => if x =? y then memcmp l r else x - y
  | _, _ => 0
  end.

(** ** Byte swap *)

Definition BSwap (x : Z) : Z :=
  u64 (Z.lor (Z.lor (Z.lor (Z.lor (Z.lor (Z.lor (Z.lor
    (Z.shiftr (Z.land x 0xff00000000000000) 56)
    (Z.shiftr (Z.land x 0x00ff000000000000) 40))
    (Z.shiftr (Z.land x 0x0000ff0000000000) 24))
    (Z.shiftr (Z.land x 0x000000ff00000000) 8))
    (Z.shiftl (Z.land x 0x00000000ff000000) 8))
    (Z.shiftl (Z.land x 0x0000000000ff0000) 24))
    (Z.shiftl (Z.land x 0x000000000000ff00) 40))
    (Z.shiftl (Z.land x 0x00000000000000ff) 56)).

(** ** The key types *)

Inductive SortKeyType : Set :=
  | INVALID
  | NO_PAYLOAD_FIXED_8
  | NO_PAYLOAD_FIXED_16
  | NO_PAYLOAD_FIXED_24
  | NO_PAYLOAD_FIXED_32
  | NO_PAYLOAD_VARIABLE_32
  | PAYLOAD_FIXED_16
  | PAYLOAD_FIXED_24
  | PAYLOAD_FIXED_32
  | PAYLOAD_VARIABLE_32.

#[export] Instance SortKeyType_eq_dec : EqDecision SortKeyType.
Proof. solve_decision. Defined.

Record SortKeyTraits := {
  PARTS : nat;
  INLINE_LENGTH : Z;
  CONSTANT_SIZE : bool;
  HAS_PAYLOAD : bool
}.

Definition FixedSortKey (parts : nat) (inline_length : Z) (has_payload : bool) : SortKeyTraits :=
  {| PARTS := parts; INLINE_LENGTH := inline_length; CONSTANT_SIZE := true;
     HAS_PAYLOAD := has_payload |}.

Definition VariableSortKey (parts : nat) (inline_length : Z) (has_payload : bool) : SortKeyTraits :=
  {| PARTS := parts; INLINE_LENGTH := inline_length; CONSTANT_SIZE := false;
     HAS_PAYLOAD := has_payload |}.

(** The specialisations of [SortKey]; there is none for [INVALID]. *)
Definition traits (t : SortKeyType) : option SortKeyTraits :=
  match t with
  | INVALID => None
  | NO_PAYLOAD_FIXED_8 => Some (FixedSortKey 1 8 false)
  | NO_PAYLOAD_FIXED_16 => Some (FixedSortKey 2 16 false)
  | NO_PAYLOAD_FIXED_24 => Some (FixedSortKey 3 24 false)
  | NO_PAYLOAD_FIXED_32 => Some (FixedSortKey 4 32 false)
  | NO_PAYLOAD_VARIABLE_32 => Some (VariableSortKey 2 16 false)
  | PAYLOAD_FIXED_16 => Some (FixedSortKey 1 8 true)
  | PAYLOAD_FIXED_24 => Some (FixedSortKey 2 16 true)
  | PAYLOAD_FIXED_32 => Some (FixedSortKey 3 24 true)
  | PAYLOAD_VARIABLE_32 => Some (VariableSortKey 1 8 true)
  end.

Definition GetInlineLength (t : SortKeyType) : res Z :=
  match traits t with
  | Some k => Ok (INLINE_LENGTH k)
  | None => Throw NotImplementedException
  end.

Definition IsConstantSize (t : SortKeyType) : res bool :=
  match traits t with
  | Some k => Ok (CONSTANT_SIZE k)
  | None => Throw NotImplementedException
  end.

Definition HasPayload (t : SortKeyType) : res bool :=
  match traits t with
  | Some k => Ok (HAS_PAYLOAD k)
  | None => Throw NotImplementedException
  end.

(** A key: [parts] are [part0], [part1], ...; fixed size keys have no [size] and
    no [data], keys without payload no [payload] (0 here). *)
Record SortKey := {
  parts : list Z;
  size : Z;
  data : Z;
  payload : Z
}.

#[export] Instance SortKey_eq_dec : EqDecision SortKey.
Proof. solve_decision. Defined.

Definition GetPayload (k : SortKeyTraits) (key : SortKey) : res Z :=
  if HAS_PAYLOAD k then Ok (payload key) else Throw InternalException.

Definition SetPayload (k : SortKeyTraits) (p : Z) (key : SortKey) : res SortKey :=
  if HAS_PAYLOAD k then
    Ok {| parts := parts key; size := size key; data := data key; payload := p |}
  else Throw InternalException.

Definition GetData (k : SortKeyTraits) (key : SortKey) : res Z :=
  if CONSTANT_SIZE k then Throw InternalException else Ok (data key).

Definition GetSize (k : SortKeyTraits) (key : SortKey) : res Z :=
  if CONSTANT_SIZE k then Throw InternalException
  else Ok (Z.max (size key) (INLINE_LENGTH k)).

Definition GetHeapSize (k : SortKeyTraits) (key : SortKey) : res Z :=
  if CONSTANT_SIZE k then Throw InternalException else Ok (size key).

(** ** Construction *)

(** Reads [n] parts from memory, and writes them back. *)
Fixpoint load_parts (n : nat) (mem : list Z) : list Z :=
  match n with
  | O => []
  | S n => le_load (take 8 mem) :: load_parts n (drop 8 mem)
  end.

Definition store_parts (ps : list Z) : list Z := mjoin (le_store 8 <$> ps).

Definition ByteSwap (ps : list Z) : list Z := BSwap <$> ps.

(** A [string_t] of at most 12 bytes is inlined, with zeros after it; the prefix
    of a longer one is followed by its pointer. *)
Definition string_INLINE_LENGTH : Z := 12.

Definition IsInlined (s : list Z) : bool := Z.of_nat (length s) <=? string_INLINE_LENGTH.

Definition GetPrefix (s : list Z) : option (list Z) :=
  if IsInlined s then Some (s ++ zeros (12 - length s)) else None.

Definition FixedConstruct (k : SortKeyTraits) (s : list Z) (p : Z) : option SortKey :=
  let mem := zeros (8 * PARTS k) in
  mem ← (if INLINE_LENGTH k <? Z.of_nat (length s) then None
         else if INLINE_LENGTH k <=? string_INLINE_LENGTH then
           prefix ← GetPrefix s; memcpy mem 0 (take (Z.to_nat (INLINE_LENGTH k)) prefix)
         else if IsInlined s then prefix ← GetPrefix s; memcpy mem 0 prefix
         else memcpy mem 0 s);
  Some {| parts := ByteSwap (load_parts (PARTS k) mem); size := 0; data := 0; payload := p |}.

Definition FixedConstruct_int64 (k : SortKeyTraits) (key : SortKey) (val : Z) : SortKey :=
  {| parts := <[0%nat := u64 val]> (parts key); size := size key; data := data key;
     payload := payload key |}.

(** Gives the key, the heap and the heap pointer after it. *)
Definition VariableConstruct (k : SortKeyTraits) (s : list Z) (p : Z)
  (heap : list Z) (heap_ptr : Z) : option (SortKey * list Z * Z) :=
  let n := Z.of_nat (length s) in
  mem ← memcpy (zeros (8 * PARTS k)) 0 (take (Z.to_nat (Z.min n (INLINE_LENGTH k))) s);
  let ps := ByteSwap (load_parts (PARTS k) mem) in
  if INLINE_LENGTH k <? n then
    heap' ← memcpy heap heap_ptr s;
    Some ({| parts := ps; size := n; data := heap_ptr; payload := p |}, heap', heap_ptr + n)
  else Some ({| parts := ps; size := 0; data := 0; payload := p |}, heap, heap_ptr).

(** ** Decoding *)

Definition FixedDeconstruct (k : SortKeyTraits) (key : SortKey) : list Z :=
  take (Z.to_nat (INLINE_LENGTH k)) (store_parts (ByteSwap (parts key))).

Definition FixedDeconstruct_int64 (key : SortKey) : Z := i64 (znth 0 (parts key) 0).

Definition VariableDeconstruct (k : SortKeyTraits) (heap : list Z) (key : SortKey) : list Z :=
  if INLINE_LENGTH k <? size key then read_bytes heap (data key) (size key)
  else take (Z.to_nat (INLINE_LENGTH k)) (store_parts (ByteSwap (parts key))).

(** ** Comparison *)

Fixpoint SortKeyLessThan (REMAINING : nat) (lhs rhs : list Z) : bool :=
  match REMAINING with
  | O => false
  | 1%nat => hd 0 lhs <? hd 0 rhs
  | S n => (hd 0 lhs <? hd 0 rhs) ||
           ((hd 0 lhs =? hd 0 rhs) && SortKeyLessThan n (tl lhs) (tl rhs))
  end.

Definition FixedLess (k : SortKeyTraits) (lhs rhs : SortKey) : bool :=
  SortKeyLessThan (PARTS k) (parts lhs) (parts rhs).

Definition TernaryCompare (lhs rhs : Z) : Z := Z.b2z (rhs <? lhs) - Z.b2z (lhs <? rhs).

Definition VariableLessThan (k : SortKeyTraits) (lhs rhs : list Z) : res Z :=
  match PARTS k with
  | 1%nat => Ok (TernaryCompare (znth 0 lhs 0) (znth 0 rhs 0))
  | 2%nat => Ok (2 * TernaryCompare (znth 0 lhs 0) (znth 0 rhs 0) +
                 TernaryCompare (znth 0 lhs 1) (znth 0 rhs 1))
  | _ => Throw NotImplementedException
  end.

Definition VariableLess (k : SortKeyTraits) (heap : list Z) (lhs rhs : SortKey) : res bool :=
  comp_res ← VariableLessThan k (parts lhs) (parts rhs);
  if negb (comp_res =? 0) then Ok (comp_res <? 0)
  else if (size lhs <=? INLINE_LENGTH k) || (size rhs <=? INLINE_LENGTH k) then
    Ok (size lhs <? size rhs)
  else
    let n := Z.min (size lhs) (size rhs) in
    let comp_res := memcmp (read_bytes heap (data lhs) n) (read_bytes heap (data rhs) n) in
    Ok ((comp_res <? 0) || ((comp_res =? 0) && (size lhs <? size rhs))).

(** ** Byte strings as keys *)

(** The lexicographic order of byte strings. *)
Fixpoint lex_lt (l r : list Z) : bool :=
  match l, r with
  | _, [] => false
  | [], _ :: _ => true
  | x :: l, y :: r => (x <? y) || ((x =? y) && lex_lt l r)
  end.

(** Zeros up to the inline length. *)
Definition pad (n : Z) (s : list Z) : list Z := s ++ zeros (Z.to_nat n - length s).

(** The value of consecutive bytes, read as a big-endian integer. *)
Fixpoint be_load (bs : list Z) : Z :=
  match bs with
  | [] => 0
  | b :: bs => b * 256 ^ Z.of_nat (length bs) + be_load bs
  end.

Lemma be_load_bound bs : Forall is_byte bs -> 0 <= be_load bs < 256 ^ Z.of_nat (length bs).
Proof.
  induction 1 as [| b bs Hb _ IH]; cbn [be_load length]; [lia |].
  rewrite Nat2Z.inj_succ, Z.pow_succ_r by lia. unfold is_byte in Hb. nia.
Qed.

Lemma be_load_inj l r :
  Forall is_byte l -> Forall is_byte r -> length l = length r ->
  be_load l = be_load r -> l = r.
Proof.
  intros Hl. revert r. induction Hl as [| x l Hx Hl IH]; intros r Hr Hlen He.
  - by destruct r.
  - destruct r as [| y r]; [done |]. apply Forall_cons in Hr as [Hy Hr].
    injection Hlen as Hlen. cbn [be_load] in He. rewrite Hlen in He.
    pose proof (be_load_bound l Hl). pose proof (be_load_bound r Hr).
    rewrite Hlen in *. assert (x = y) as -> by nia. f_equal. apply IH; [done..| lia].
Qed.

Lemma be_load_lt l r :
  Forall is_byte l -> Forall is_byte r -> length l = length r ->
  (be_load l <? be_load r) = lex_lt l r.
Proof.
  intros Hl. revert r. induction Hl as [| x l Hx Hl IH]; intros r Hr Hlen.
  - by destruct r.
  - destruct r as [| y r]; [done |]. apply Forall_cons in Hr as [Hy Hr].
    injection Hlen as Hlen. cbn [be_load lex_lt]. rewrite <- IH, Hlen by done.
    pose proof (be_load_bound l Hl). pose proof (be_load_bound r Hr). rewrite Hlen in *.
    destruct (Z.ltb_spec x y), (Z.eqb_spec x y); cbn [orb andb].
    + lia.
    + apply Z.ltb_lt. nia.
    + subst. apply eq_iff_eq_true. rewrite !Z.ltb_lt. lia.
    + apply Z.ltb_ge. nia.
Qed.

Lemma lex_lt_app l1 l2 r1 r2 :
  length l1 = length r1 ->
  lex_lt (l1 ++ l2) (r1 ++ r2) = lex_lt l1 r1 || (bool_decide (l1 = r1) && lex_lt l2 r2).
Proof.
  revert r1. induction l1 as [| x l1 IH]; intros [| y r1] Hlen; try done.
  injection Hlen as Hlen. cbn [lex_lt app]. rewrite IH by done.
  destruct (Z.eqb_spec x y) as [-> | Hne]; cbn [andb].
  - rewrite Z.ltb_irrefl. cbn [orb]. f_equal. f_equal. apply bool_decide_ext.
    split; [by intros -> | by intros [=]].
  - rewrite bool_decide_eq_false_2 by (by intros [=]). cbn. by rewrite !orb_false_r.
Qed.

Lemma lex_lt_irrefl l : lex_lt l l = false.
Proof. induction l as [| x l IH]; [done |]. cbn. by rewrite Z.ltb_irrefl, IH, andb_false_r. Qed.

(** Comparing byte strings is comparing by the first difference, then by length. *)
Lemma lex_lt_memcmp l r :
  lex_lt l r =
  let n := Nat.min (length l) (length r) in
  let c := memcmp (take n l) (take n r) in
  (c <? 0) || ((c =? 0) && (Z.of_nat (length l) <? Z.of_nat (length r))).
Proof.
  revert r. induction l as [| x l IH]; intros [| y r]; try done.
  cbn [lex_lt length Nat.min take memcmp].
  destruct (Z.eqb_spec x y) as [-> | Hne].
  - rewrite Z.ltb_irrefl. cbn [orb andb]. rewrite IH. cbn zeta. f_equal. f_equal.
    apply eq_iff_eq_true. rewrite !Z.ltb_lt. lia.
  - cbn [andb]. destruct (Z.ltb_spec x y), (Z.ltb_spec (x - y) 0), (Z.eqb_spec (x - y) 0);
      cbn; lia || done.
Qed.

(** ** [BSwap] reverses the bytes *)

Lemma lor_shift a b k : 0 <= k -> 0 <= a < 2 ^ k -> Z.lor a (b * 2 ^ k) = a + b * 2 ^ k.
Proof.
  intros Hk Ha. assert (Z.land a (b * 2 ^ k) = 0) as E.
  { rewrite <- Z.shiftl_mul_pow2 by done. apply Z.bits_inj'. intros n Hn.
    rewrite Z.land_spec, Z.bits_0, Z.shiftl_spec by done.
    destruct (decide (n < k)).
    - rewrite (Z.testbit_neg_r b) by lia. apply andb_false_r.
    - replace a with (a mod 2 ^ k) by (by apply Z.mod_small).
      rewrite Z.mod_pow2_bits_high by lia. done. }
  rewrite Z.add_nocarry_lxor, Z.lxor_lor by done. done.
Qed.

Lemma land_byte x k : 0 <= k -> Z.land x (Z.shiftl 255 k) = ((x / 2 ^ k) mod 256) * 2 ^ k.
Proof.
  intros Hk. rewrite <- Z.shiftr_div_pow2, <- Z.shiftl_mul_pow2 by done.
  change 256 with (2 ^ 8). rewrite <- Z.land_ones by lia. change (Z.ones 8) with 255.
  apply Z.bits_inj'. intros n Hn. rewrite Z.land_spec, !Z.shiftl_spec by done.
  destruct (decide (n < k)).
  - rewrite !(Z.testbit_neg_r _ (n - k)) by lia. apply andb_false_r.
  - rewrite Z.land_spec, Z.shiftr_spec by lia. by replace (n - k + k) with n by lia.
Qed.

Lemma byte_at lo b hi k :
  0 <= k -> 0 <= lo < 2 ^ k -> is_byte b -> ((lo + (b + 256 * hi) * 2 ^ k) / 2 ^ k) mod 256 = b.
Proof.
  intros Hk Hlo Hb. rewrite Z.div_add by lia. rewrite Z.div_small by done.
  rewrite Z.add_0_l. rewrite (Z.mul_comm 256), Z.mod_add by lia. by apply Z.mod_small.
Qed.

Lemma le_load_bound bs : Forall is_byte bs -> 0 <= le_load bs < 2 ^ (8 * Z.of_nat (length bs)).
Proof.
  induction 1 as [| b bs Hb _ IH]; [done |]. cbn [le_load foldr length].
  fold (le_load bs). rewrite Nat2Z.inj_succ.
  replace (8 * Z.succ (Z.of_nat (length bs))) with (8 + 8 * Z.of_nat (length bs)) by lia.
  rewrite Z.pow_add_r by lia. unfold is_byte in Hb. lia.
Qed.

Lemma le_load_app l r : le_load (l ++ r) = le_load l + le_load r * 2 ^ (8 * Z.of_nat (length l)).
Proof.
  induction l as [| b l IH]; [cbn [app length]; cbn; lia |].
  cbn [le_load foldr length app]. fold (le_load (l ++ r)) (le_load l). rewrite IH, Nat2Z.inj_succ.
  replace (8 * Z.succ (Z.of_nat (length l))) with (8 + 8 * Z.of_nat (length l)) by lia.
  rewrite Z.pow_add_r by lia. lia.
Qed.

Lemma land_le_load bs k i b :
  k = 8 * Z.of_nat i -> Forall is_byte bs -> bs !! i = Some b ->
  Z.land (le_load bs) (Z.shiftl 255 k) = b * 2 ^ k.
Proof.
  intros -> Hbs Hi. rewrite land_byte by lia. f_equal.
  assert (is_byte b) as Hb by (by eapply Forall_lookup_1).
  apply list_elem_of_split_length in Hi as (l & r & -> & ->).
  apply Forall_app in Hbs as [Hl _]. rewrite le_load_app. cbn [le_load foldr].
  fold (le_load r). apply byte_at; [lia | by apply le_load_bound | done].
Qed.

Lemma shiftr_pow b i j r : 0 <= j -> 0 <= r -> i = r + j -> Z.shiftr (b * 2 ^ i) j = b * 2 ^ r.
Proof.
  intros Hj Hr ->. rewrite Z.shiftr_div_pow2, Z.pow_add_r, Z.mul_assoc by done.
  apply Z.div_mul. lia.
Qed.

Lemma shiftl_pow b i j r : 0 <= i -> 0 <= j -> r = i + j -> Z.shiftl (b * 2 ^ i) j = b * 2 ^ r.
Proof. intros Hi Hj ->. rewrite Z.shiftl_mul_pow2, Z.pow_add_r by done. lia. Qed.

Lemma BSwap_le_load bs :
  length bs = 8%nat -> Forall is_byte bs -> BSwap (le_load bs) = be_load bs.
Proof.
  intros Hlen Hb. unfold BSwap.
  destruct bs as [| b0 [| b1 [| b2 [| b3 [| b4 [| b5 [| b6 [| b7 [| ? ?]]]]]]]]]; try done.
  set (x := le_load _).
  assert (forall k i b, k = 8 * Z.of_nat i ->
    [b0; b1; b2; b3; b4; b5; b6; b7] !! i = Some b ->
    Z.land x (Z.shiftl 255 k) = b * 2 ^ k) as Hx by (intros; by eapply land_le_load).
  rewrite (Hx 56 7%nat b7 eq_refl eq_refl : Z.land x 0xff00000000000000 = _).
  rewrite (Hx 48 6%nat b6 eq_refl eq_refl : Z.land x 0x00ff000000000000 = _).
  rewrite (Hx 40 5%nat b5 eq_refl eq_refl : Z.land x 0x0000ff0000000000 = _).
  rewrite (Hx 32 4%nat b4 eq_refl eq_refl : Z.land x 0x000000ff00000000 = _).
  rewrite (Hx 24 3%nat b3 eq_refl eq_refl : Z.land x 0x00000000ff000000 = _).
  rewrite (Hx 16 2%nat b2 eq_refl eq_refl : Z.land x 0x0000000000ff0000 = _).
  rewrite (Hx 8 1%nat b1 eq_refl eq_refl : Z.land x 0x000000000000ff00 = _).
  rewrite (Hx 0 0%nat b0 eq_refl eq_refl : Z.land x 0x00000000000000ff = _).
  clear Hx. do 8 (apply Forall_cons in Hb as [? Hb]). clear Hlen Hb x. unfold is_byte in *.
  rewrite (shiftr_pow b7 56 56 0), (shiftr_pow b6 48 40 8), (shiftr_pow b5 40 24 16),
    (shiftr_pow b4 32 8 24), (shiftl_pow b3 24 8 32), (shiftl_pow b2 16 24 40),
    (shiftl_pow b1 8 40 48), (shiftl_pow b0 0 56 56) by lia.
  rewrite (lor_shift (b7 * _) b6), (lor_shift (_ + _) b5), (lor_shift (_ + _ + _) b4),
    (lor_shift (_ + _ + _ + _) b3), (lor_shift (_ + _ + _ + _ + _) b2),
    (lor_shift (_ + _ + _ + _ + _ + _) b1), (lor_shift (_ + _ + _ + _ + _ + _ + _) b0) by lia.
  rewrite u64_small by lia. cbn [be_load length]. lia.
Qed.

(** ** Parts of a padded string *)

Lemma zeros_bytes n : Forall is_byte (zeros n).
Proof. apply Forall_replicate. unfold is_byte. lia. Qed.

Lemma pad_bytes n s : Forall is_byte s -> Forall is_byte (pad n s).
Proof. intros. apply Forall_app. split; [done | apply zeros_bytes]. Qed.

Lemma length_pad n s :
  Z.of_nat (length s) <= n -> length (pad n s) = Z.to_nat n.
Proof. intros. unfold pad, zeros. rewrite length_app, length_replicate. lia. Qed.

Lemma pad_long n s : n <= Z.of_nat (length s) -> pad n s = s.
Proof.
  intros. unfold pad. replace (Z.to_nat n - length s)%nat with 0%nat by lia. apply app_nil_r.
Qed.

Lemma Forall_take_drop (P : Z -> Prop) n l : Forall P l -> Forall P (take n l) /\ Forall P (drop n l).
Proof. intros. split; [by apply Forall_take | by apply Forall_drop]. Qed.

(** The byte-swapped parts of [8 * n] bytes are the big-endian words. *)
Lemma ByteSwap_cons n mem :
  length mem = (8 * S n)%nat -> Forall is_byte mem ->
  ByteSwap (load_parts (S n) mem) =
  be_load (take 8 mem) :: ByteSwap (load_parts n (drop 8 mem)).
Proof.
  intros Hlen [Ht _]%(Forall_take_drop _ 8). cbn [load_parts]. unfold ByteSwap. rewrite fmap_cons.
  rewrite BSwap_le_load; [done | rewrite length_take; lia | done].
Qed.

Lemma SortKeyLessThan_S n x y ls rs :
  (1 <= n)%nat ->
  SortKeyLessThan (S n) (x :: ls) (y :: rs) =
  (x <? y) || ((x =? y) && SortKeyLessThan n ls rs).
Proof. intros. by destruct n; [lia |]. Qed.

Lemma be_load_eqb l r :
  Forall is_byte l -> Forall is_byte r -> length l = length r ->
  (be_load l =? be_load r) = bool_decide (l = r).
Proof.
  intros. destruct (Z.eqb_spec (be_load l) (be_load r)) as [E | E].
  - rewrite bool_decide_eq_true_2; [done |]. by apply be_load_inj.
  - rewrite bool_decide_eq_false_2; [done |]. by intros ->.
Qed.

Lemma SortKeyLessThan_lex n l r :
  length l = (8 * S n)%nat -> length r = (8 * S n)%nat ->
  Forall is_byte l -> Forall is_byte r ->
  SortKeyLessThan (S n) (ByteSwap (load_parts (S n) l)) (ByteSwap (load_parts (S n) r)) =
  lex_lt l r.
Proof.
  revert l r. induction n as [| n IH]; intros l r Hl Hr Bl Br;
    rewrite (ByteSwap_cons _ l), (ByteSwap_cons _ r) by done;
    pose proof (Forall_take_drop _ 8 l Bl) as [? ?];
    pose proof (Forall_take_drop _ 8 r Br) as [? ?].
  - cbn [SortKeyLessThan hd]. rewrite be_load_lt by (done || rewrite !length_take; lia).
    by rewrite !take_ge by lia.
  - rewrite SortKeyLessThan_S, IH, be_load_lt, be_load_eqb
      by (done || lia || rewrite ?length_drop, ?length_take; lia).
    rewrite <- lex_lt_app by (rewrite !length_take; lia). by rewrite !take_drop.
Qed.

(** ** Decoding the parts *)

Lemma be_load_rev bs : be_load (reverse bs) = le_load bs.
Proof.
  induction bs as [| b bs IH]; [done |]. rewrite reverse_cons.
  assert (forall l x, be_load (l ++ [x]) = 256 * be_load l + x) as Happ.
  { intros l x. induction l as [| y l IHl]; [cbn; lia |]. cbn [app be_load].
    rewrite length_app, IHl. cbn [length].
    replace (Z.of_nat (length l + 1)) with (1 + Z.of_nat (length l)) by lia.
    rewrite Z.pow_add_r by lia. lia. }
  rewrite Happ, IH. cbn [le_load foldr]. fold (le_load bs). lia.
Qed.

Lemma le_store_load bs : Forall is_byte bs -> le_store (length bs) (le_load bs) = bs.
Proof.
  induction 1 as [| b bs Hb Hbs IH]; [done |]. cbn [length le_store le_load foldr].
  fold (le_load bs). unfold is_byte in Hb. rewrite (Z.mul_comm 256). f_equal.
  - rewrite Z.mod_add by lia. by apply Z.mod_small.
  - rewrite Z.div_add, Z.div_small, Z.add_0_l by lia. done.
Qed.

Lemma BSwap_involutive bs :
  length bs = 8%nat -> Forall is_byte bs -> le_store 8 (BSwap (BSwap (le_load bs))) = bs.
Proof.
  intros Hlen Hb. rewrite BSwap_le_load by done.
  rewrite <- (reverse_involutive bs) at 1. rewrite be_load_rev, BSwap_le_load, be_load_rev.
  - rewrite <- Hlen. by apply le_store_load.
  - by rewrite length_reverse.
  - by apply Forall_reverse.
Qed.

Lemma store_load_parts n mem :
  length mem = (8 * n)%nat -> Forall is_byte mem ->
  store_parts (ByteSwap (ByteSwap (load_parts n mem))) = mem.
Proof.
  revert mem. induction n as [| n IH]; intros mem Hlen Hb; [by destruct mem |].
  pose proof (Forall_take_drop _ 8 mem Hb) as [? ?].
  cbn [load_parts]. unfold ByteSwap, store_parts in *. rewrite !fmap_cons. cbn [mjoin list_join].
  rewrite BSwap_involutive, IH; [apply take_drop | | done | | done];
    rewrite ?length_drop, ?length_take; lia.
Qed.

(** ** Fixed size keys *)

(** The layout of every key type: whole parts of 8 bytes. *)
Lemma traits_layout t k :
  traits t = Some k ->
  INLINE_LENGTH k = 8 * Z.of_nat (PARTS k) /\ (1 <= PARTS k)%nat /\
  (CONSTANT_SIZE k = false -> (PARTS k <= 2)%nat).
Proof. destruct t; intros [= <-]; cbn; lia. Qed.

Lemma memcpy_zeros n s :
  (length s <= n)%nat -> memcpy (zeros n) 0 s = Some (pad (Z.of_nat n) s).
Proof.
  intros Hs. unfold memcpy, zeros. rewrite length_replicate.
  change (0 <=? 0) with true. rewrite (proj2 (Z.leb_le _ _)) by lia. cbn [andb].
  change (Z.to_nat 0) with 0%nat. rewrite Nat.add_0_l, drop_replicate. cbn [take app].
  unfold pad, zeros. by rewrite Nat2Z.id.
Qed.

Lemma GetPrefix_pad s :
  IsInlined s = true -> GetPrefix s = Some (pad 12 s) /\ (length s <= 12)%nat.
Proof.
  intros H. unfold GetPrefix. rewrite H. split; [done |].
  apply Z.leb_le in H. unfold string_INLINE_LENGTH in H. lia.
Qed.

Lemma take_pad m n s : (length s <= m)%nat -> take m (pad (Z.of_nat (m + n)) s) = pad (Z.of_nat m) s.
Proof.
  intros. unfold pad, zeros. rewrite !Nat2Z.id, take_app, take_ge, take_replicate by lia.
  f_equal. f_equal. lia.
Qed.

Lemma pad_pad m n s : 0 <= m <= n -> pad n (pad m s) = pad n s.
Proof.
  intros. unfold pad, zeros. rewrite length_app, length_replicate, <- app_assoc.
  f_equal. rewrite <- replicate_add. f_equal. lia.
Qed.

(** A fixed size key holds the byte-swapped parts of the padded string. *)
Lemma FixedConstruct_parts t k s p :
  traits t = Some k -> Z.of_nat (length s) <= INLINE_LENGTH k ->
  FixedConstruct k s p =
  Some {| parts := ByteSwap (load_parts (PARTS k) (pad (INLINE_LENGTH k) s));
          size := 0; data := 0; payload := p |}.
Proof.
  intros Ht Hs. destruct (traits_layout t k Ht) as (HL & HP & _). unfold FixedConstruct.
  assert (Z.of_nat (8 * PARTS k) = INLINE_LENGTH k) as HI by lia.
  rewrite (proj2 (Z.ltb_ge (INLINE_LENGTH k) (Z.of_nat (length s)))) by done.
  destruct (Z.leb_spec (INLINE_LENGTH k) string_INLINE_LENGTH) as [H12 | H12];
    unfold string_INLINE_LENGTH in H12.
  - assert (IsInlined s = true) as [-> Hlen]%GetPrefix_pad
      by (apply Z.leb_le; unfold string_INLINE_LENGTH; lia).
    cbn [mbind option_bind]. replace 12 with (Z.of_nat (8 * PARTS k + (12 - 8 * PARTS k))) by lia.
    replace (Z.to_nat (INLINE_LENGTH k)) with (8 * PARTS k)%nat by lia.
    rewrite take_pad by lia. rewrite memcpy_zeros by (rewrite length_pad; lia).
    cbn [mbind option_bind]. rewrite pad_pad, HI by lia. done.
  - destruct (IsInlined s) eqn:E.
    + apply GetPrefix_pad in E as [-> Hlen]. cbn [mbind option_bind].
      rewrite memcpy_zeros by (rewrite length_pad; lia). cbn [mbind option_bind]. rewrite pad_pad, HI by lia. done.
    + rewrite memcpy_zeros by lia. cbn [mbind option_bind]. by rewrite HI.
Qed.

(** A fixed size key can be built from every string of at most its inline
    length, comparing two such keys on their 64-bit parts is the byte by byte
    comparison of the strings padded with zeros, and decoding the key gives the
    padded string back. *)
Theorem FixedSortKey_order t k a b pa pb :
  traits t = Some k -> CONSTANT_SIZE k = true ->
  Forall is_byte a -> Forall is_byte b ->
  Z.of_nat (length a) <= INLINE_LENGTH k -> Z.of_nat (length b) <= INLINE_LENGTH k ->
  exists ka kb, FixedConstruct k a pa = Some ka /\ FixedConstruct k b pb = Some kb /\
    FixedLess k ka kb = lex_lt (pad (INLINE_LENGTH k) a) (pad (INLINE_LENGTH k) b) /\
    FixedDeconstruct k ka = pad (INLINE_LENGTH k) a.
Proof.
  intros Ht _ Ba Bb Ha Hb. destruct (traits_layout t k Ht) as (HL & HP & _).
  rewrite !(FixedConstruct_parts t k) by done. do 2 eexists. split_and!; [done | done | |].
  - unfold FixedLess. cbn [parts]. destruct (PARTS k) as [| n] eqn:En; [lia |].
    apply SortKeyLessThan_lex;
      [rewrite length_pad; lia | rewrite length_pad; lia | by apply pad_bytes ..].
  - unfold FixedDeconstruct. cbn [parts].
    rewrite store_load_parts by (rewrite ?length_pad; lia || by apply pad_bytes).
    apply take_ge. rewrite length_pad; lia.
Qed.

(** A key built from an [int64_t] decodes to it. *)
Theorem FixedConstruct_int64_roundtrip k key val :
  parts key <> [] -> - 2 ^ 63 <= val < 2 ^ 63 ->
  FixedDeconstruct_int64 (FixedConstruct_int64 k key val) = val.
Proof.
  intros Hp Hv. unfold FixedDeconstruct_int64, FixedConstruct_int64. cbn [parts].
  destruct (parts key) as [| x ps]; [done |]. change (znth 0 _ 0) with (u64 val).
  unfold u64, i64. rewrite Zplus_mod_idemp_l. rewrite Z.mod_small by lia. lia.
Qed.

(** ** Variable size keys *)

(** The string [s] that a key stands for, the heap being [heap]. *)
Definition key_repr (k : SortKeyTraits) (heap : list Z) (s : list Z) (key : SortKey) : Prop :=
  parts key = ByteSwap (load_parts (PARTS k)
    (pad (INLINE_LENGTH k) (take (Z.to_nat (INLINE_LENGTH k)) s))) /\
  if INLINE_LENGTH k <? Z.of_nat (length s) then
    size key = Z.of_nat (length s) /\ 0 <= data key /\
    read_bytes heap (data key) (size key) = s
  else size key = 0.

Lemma memcpy_Some dst ptr src :
  0 <= ptr -> ptr + Z.of_nat (length src) <= Z.of_nat (length dst) ->
  exists dst', memcpy dst ptr src = Some dst' /\ length dst' = length dst /\
    read_bytes dst' ptr (Z.of_nat (length src)) = src /\
    forall q n, 0 <= q -> q + n <= ptr -> read_bytes dst' q n = read_bytes dst q n.
Proof.
  intros Hp Hl. unfold memcpy. rewrite !(proj2 (Z.leb_le _ _)) by lia. cbn [andb].
  eexists. split_and!; [done | | |].
  - rewrite !length_app, length_take, length_drop. lia.
  - unfold read_bytes. rewrite drop_app_length' by (rewrite length_take; lia).
    rewrite Nat2Z.id. by apply take_app_length.
  - intros q n Hq Hn. unfold read_bytes. apply list_eq. intros i.
    destruct (decide (i < Z.to_nat n)%nat).
    + rewrite !lookup_take_lt, !lookup_drop by done.
      rewrite lookup_app_l by (rewrite length_take; lia). by apply lookup_take_lt; lia.
    + rewrite !lookup_take_ge by lia. done.
Qed.

Lemma VariableConstruct_repr t k s p heap ptr :
  traits t = Some k -> 0 <= ptr -> ptr + Z.of_nat (length s) <= Z.of_nat (length heap) ->
  exists key heap' ptr', VariableConstruct k s p heap ptr = Some (key, heap', ptr') /\
    key_repr k heap' s key /\ ptr <= ptr' <= ptr + Z.of_nat (length s) /\
    length heap' = length heap /\ (size key = 0 \/ data key + size key <= ptr') /\
    forall q n, 0 <= q -> q + n <= ptr -> read_bytes heap' q n = read_bytes heap q n.
Proof.
  intros Ht Hp Hl. destruct (traits_layout t k Ht) as (HL & HP & _).
  unfold VariableConstruct, key_repr.
  replace (take (Z.to_nat (Z.min (Z.of_nat (length s)) (INLINE_LENGTH k))) s)
    with (take (Z.to_nat (INLINE_LENGTH k)) s) by
    (destruct (Z.min_spec (Z.of_nat (length s)) (INLINE_LENGTH k)) as [[? ->] | [? ->]];
     [rewrite !take_ge by lia; done | done]).
  rewrite memcpy_zeros by (rewrite length_take; lia). cbn [mbind option_bind].
  replace (Z.of_nat (8 * PARTS k)) with (INLINE_LENGTH k) by lia.
  destruct (Z.ltb_spec (INLINE_LENGTH k) (Z.of_nat (length s))).
  - destruct (memcpy_Some heap ptr s) as (heap' & -> & Hlen & Hr & Hq); [done.. |].
    cbn [mbind option_bind]. do 3 eexists. split_and!; [done | done | done | done | exact Hr |
      lia | lia | done | right; cbn; lia | exact Hq].
  - do 3 eexists. split_and!; [done | done | done | lia | lia | done | by left | done].
Qed.

(** Writing above a key leaves its string. *)
Lemma key_repr_mono k heap heap' ptr s key :
  key_repr k heap s key -> 0 <= INLINE_LENGTH k ->
  (size key = 0 \/ data key + size key <= ptr) ->
  (forall q n, 0 <= q -> q + n <= ptr -> read_bytes heap' q n = read_bytes heap q n) ->
  key_repr k heap' s key.
Proof.
  unfold key_repr. intros [Hp Hs] HI Hd Hq. split; [done |].
  destruct (Z.ltb_spec (INLINE_LENGTH k) (Z.of_nat (length s))); [| done].
  destruct Hs as (? & ? & ?). rewrite Hq by lia. done.
Qed.

Lemma znth_0 {A} (d x : A) l : znth d (x :: l) 0 = x.
Proof. done. Qed.

Lemma znth_1 {A} (d x y : A) l : znth d (x :: y :: l) 1 = y.
Proof. done. Qed.

Lemma TernaryCompare_spec x y :
  -1 <= TernaryCompare x y <= 1 /\
  (TernaryCompare x y <? 0) = (x <? y) /\ (TernaryCompare x y =? 0) = (x =? y).
Proof.
  unfold TernaryCompare.
  destruct (Z.ltb_spec x y), (Z.ltb_spec y x), (Z.eqb_spec x y); cbn; lia || done.
Qed.

(** The sign of the comparison of the inlined parts. *)
Lemma VariableLessThan_lex t k l r :
  traits t = Some k -> CONSTANT_SIZE k = false ->
  length l = (8 * PARTS k)%nat -> length r = (8 * PARTS k)%nat ->
  Forall is_byte l -> Forall is_byte r ->
  exists c, VariableLessThan k (ByteSwap (load_parts (PARTS k) l))
                               (ByteSwap (load_parts (PARTS k) r)) = Ok c /\
    (c <? 0) = lex_lt l r /\ (c =? 0) = bool_decide (l = r).
Proof.
  intros Ht Hc Hl Hr Bl Br. destruct (traits_layout t k Ht) as (_ & HP & HP2).
  specialize (HP2 Hc). unfold VariableLessThan.
  pose proof (Forall_take_drop _ 8 l Bl) as [? ?]. pose proof (Forall_take_drop _ 8 r Br) as [? ?].
  destruct (PARTS k) as [| [| [| n]]]; [lia | | | lia].
  - rewrite (ByteSwap_cons 0 l), (ByteSwap_cons 0 r), !znth_0, !take_ge by (done || lia).
    eexists. split; [done |].
    destruct (TernaryCompare_spec (be_load l) (be_load r)) as (_ & -> & ->).
    rewrite be_load_lt, be_load_eqb by (done || lia). done.
  - assert (length (drop 8 l) = 8%nat /\ length (drop 8 r) = 8%nat) as [? ?]
      by (rewrite !length_drop; lia).
    rewrite (ByteSwap_cons 1 l), (ByteSwap_cons 1 r), (ByteSwap_cons 0 (drop 8 l)),
      (ByteSwap_cons 0 (drop 8 r)), !znth_0, !znth_1, !(take_ge (drop 8 _)) by (done || lia).
    eexists. split; [done |].
    assert (length (take 8 l) = length (take 8 r)) by (rewrite !length_take; lia).
    destruct (TernaryCompare_spec (be_load (take 8 l)) (be_load (take 8 r))) as (B1 & L1 & E1).
    destruct (TernaryCompare_spec (be_load (drop 8 l)) (be_load (drop 8 r))) as (B2 & L2 & E2).
    rewrite be_load_lt in L1, L2 by (done || congruence).
    rewrite be_load_eqb in E1, E2 by (done || congruence).
    assert (lex_lt l r = lex_lt (take 8 l ++ drop 8 l) (take 8 r ++ drop 8 r)) as ->
      by (by rewrite !take_drop).
    assert (bool_decide (l = r) = bool_decide (take 8 l = take 8 r) &&
      bool_decide (drop 8 l = drop 8 r)) as ->.
    { rewrite <- bool_decide_and. apply bool_decide_ext. split; [by intros -> |].
      intros [E1' E2']. by rewrite <- (take_drop 8 l), E1', E2', take_drop. }
    rewrite lex_lt_app, <- L1, <- L2, <- E1, <- E2 by done.
    set (c1 := TernaryCompare (be_load (take 8 l)) _) in *. set (c2 := TernaryCompare _ _) in *.
    destruct (Z.ltb_spec (2 * c1 + c2) 0), (Z.eqb_spec (2 * c1 + c2) 0), (Z.ltb_spec c1 0),
      (Z.eqb_spec c1 0), (Z.ltb_spec c2 0), (Z.eqb_spec c2 0); cbn; lia || done.
Qed.

Lemma read_bytes_take heap ptr n m s :
  read_bytes heap ptr n = s -> 0 <= m <= n -> read_bytes heap ptr m = take (Z.to_nat m) s.
Proof. intros <- Hm. unfold read_bytes. rewrite take_take. f_equal. lia. Qed.

Lemma pad_split n s :
  0 <= n -> pad n s = pad n (take (Z.to_nat n) s) ++ drop (Z.to_nat n) s.
Proof.
  intros Hn. destruct (decide (n <= Z.of_nat (length s))).
  - rewrite (pad_long n s), (pad_long n (take _ s)) by (rewrite ?length_take; lia).
    by rewrite take_drop.
  - rewrite take_ge, drop_ge, app_nil_r by lia. done.
Qed.

(** The comparison of two keys whose strings are in the same heap. *)
Lemma VariableLess_repr t k heap a b ka kb :
  traits t = Some k -> CONSTANT_SIZE k = false -> Forall is_byte a -> Forall is_byte b ->
  key_repr k heap a ka -> key_repr k heap b kb ->
  VariableLess k heap ka kb = Ok (lex_lt (pad (INLINE_LENGTH k) a) (pad (INLINE_LENGTH k) b)).
Proof.
  intros Ht Hc Ba Bb [Pa Sa] [Pb Sb]. destruct (traits_layout t k Ht) as (HL & HP & _).
  set (n := INLINE_LENGTH k) in *. set (ia := pad n (take (Z.to_nat n) a)) in *.
  set (ib := pad n (take (Z.to_nat n) b)) in *.
  assert (forall s, Forall is_byte s -> length (pad n (take (Z.to_nat n) s)) = (8 * PARTS k)%nat /\
    Forall is_byte (pad n (take (Z.to_nat n) s))) as Hi.
  { intros s Bs. split; [rewrite length_pad; [lia | rewrite length_take; lia] |].
    by apply pad_bytes, Forall_take. }
  destruct (VariableLessThan_lex t k ia ib) as (c & Ec & Hlt & Heq);
    [done | done | by apply Hi .. |].
  unfold VariableLess. rewrite Pa, Pb, Ec. cbn [mbind res_bind]. fold n.
  rewrite (pad_split n a), (pad_split n b) by lia. fold ia ib.
  rewrite lex_lt_app, <- Hlt by (unfold ia, ib; by rewrite (proj1 (Hi a Ba)), (proj1 (Hi b Bb))). rewrite Heq, Hlt. case_bool_decide as Hab; cbn [negb].
  2:{ cbn [andb]. by rewrite orb_false_r. }
  rewrite <- Hab, lex_lt_irrefl. cbn [orb andb].
  destruct (Z.ltb_spec n (Z.of_nat (length a))), (Z.ltb_spec n (Z.of_nat (length b))).
  - destruct Sa as (Ea & _ & Ra), Sb as (Eb & _ & Rb). rewrite Ea, Eb in *.
    rewrite !(proj2 (Z.leb_gt _ _)) by lia. cbn [orb].
    rewrite (read_bytes_take _ _ _ _ _ Ra), (read_bytes_take _ _ _ _ _ Rb) by lia.
    replace (Z.to_nat (Z.min (Z.of_nat (length a)) (Z.of_nat (length b))))
      with (Nat.min (length a) (length b)) by lia.
    f_equal. transitivity (lex_lt a b); [symmetry; apply lex_lt_memcmp |].
    unfold ia, ib in Hab. rewrite !pad_long in Hab by (rewrite length_take; lia).
    transitivity (lex_lt (take (Z.to_nat n) a ++ drop (Z.to_nat n) a)
      (take (Z.to_nat n) b ++ drop (Z.to_nat n) b)); [by rewrite !take_drop |].
    rewrite lex_lt_app, Hab, lex_lt_irrefl, bool_decide_eq_true_2
      by (done || rewrite !length_take; lia). done.
  - destruct Sa as (Ea & _). rewrite Sb, Ea. rewrite (proj2 (Z.leb_le 0 n)), orb_true_r by lia.
    rewrite (proj2 (Z.ltb_ge _ _)) by lia. rewrite (drop_ge b) by lia.
    by destruct (drop _ a).
  - destruct Sb as (Eb & _). rewrite Sa, Eb. rewrite (proj2 (Z.leb_le 0 n)) by lia. cbn [orb].
    rewrite (proj2 (Z.ltb_lt _ _)) by lia. rewrite (drop_ge a) by lia.
    destruct (drop (Z.to_nat n) b) eqn:E; [| done].
    apply (f_equal length) in E. rewrite length_drop in E. cbn in E. lia.
  - rewrite Sa, Sb. rewrite (proj2 (Z.leb_le 0 n)) by lia. cbn [orb].
    rewrite !drop_ge by lia. done.
Qed.

(** Decoding a key. *)
Lemma VariableDeconstruct_repr t k heap s key :
  traits t = Some k -> Forall is_byte s -> key_repr k heap s key ->
  VariableDeconstruct k heap key = pad (INLINE_LENGTH k) s.
Proof.
  intros Ht Bs [Hp Hs]. destruct (traits_layout t k Ht) as (HL & HP & _).
  unfold VariableDeconstruct.
  destruct (Z.ltb_spec (INLINE_LENGTH k) (Z.of_nat (length s))).
  - destruct Hs as (Es & _ & Hr). rewrite (proj2 (Z.ltb_lt _ _)) by lia.
    by rewrite Hr, pad_long by lia.
  - rewrite Hs, (proj2 (Z.ltb_ge _ _)), Hp, (take_ge s) by lia.
    rewrite store_load_parts by (rewrite ?length_pad; lia || by apply pad_bytes).
    apply take_ge. rewrite length_pad; lia.
Qed.

(** Two variable size keys built one after the other in a heap with room
    for their strings compare as their strings do byte by byte, a string shorter
    than the inlined bytes being padded with zeros, and both keys decode to their
    (padded) strings. *)
Theorem VariableSortKey_order t k a b pa pb heap ptr :
  traits t = Some k -> CONSTANT_SIZE k = false ->
  Forall is_byte a -> Forall is_byte b -> 0 <= ptr ->
  ptr + Z.of_nat (length a) + Z.of_nat (length b) <= Z.of_nat (length heap) ->
  exists ka heap1 ptr1 kb heap2 ptr2,
    VariableConstruct k a pa heap ptr = Some (ka, heap1, ptr1) /\
    VariableConstruct k b pb heap1 ptr1 = Some (kb, heap2, ptr2) /\
    VariableLess k heap2 ka kb = Ok (lex_lt (pad (INLINE_LENGTH k) a) (pad (INLINE_LENGTH k) b)) /\
    VariableDeconstruct k heap2 ka = pad (INLINE_LENGTH k) a /\
    VariableDeconstruct k heap2 kb = pad (INLINE_LENGTH k) b.
Proof.
  intros Ht Hc Ba Bb Hp Hroom. destruct (traits_layout t k Ht) as (HL & HP & _).
  destruct (VariableConstruct_repr t k a pa heap ptr)
    as (ka & heap1 & ptr1 & Ea & Ra & Hp1 & Hl1 & Hd1 & _); [done | done | lia |].
  destruct (VariableConstruct_repr t k b pb heap1 ptr1)
    as (kb & heap2 & ptr2 & Eb & Rb & Hp2 & Hl2 & Hd2 & Hq); [done | lia | lia |].
  exists ka, heap1, ptr1, kb, heap2, ptr2.
  assert (key_repr k heap2 a ka) as Ra2 by (eapply key_repr_mono; [done | lia | done | done]).
  split_and!; [done | done | by eapply VariableLess_repr | |].
  - by eapply VariableDeconstruct_repr.
  - by eapply VariableDeconstruct_repr.
Qed.

(** [BSwap] reverses the eight bytes of a word, so it is its own inverse. *)
Theorem BSwap_reverses bs :
  length bs = 8%nat -> Forall is_byte bs ->
  le_store 8 (BSwap (le_load bs)) = reverse bs /\ BSwap (BSwap (le_load bs)) = le_load bs.
Proof.
  intros Hlen Hb.
  assert (BSwap (le_load bs) = le_load (reverse bs)) as E.
  { rewrite BSwap_le_load by done. by rewrite <- be_load_rev, reverse_involutive. }
  rewrite E. split.
  - rewrite <- Hlen, <- length_reverse. by apply le_store_load, Forall_reverse.
  - rewrite BSwap_le_load by (by rewrite ?length_reverse || by apply Forall_reverse).
    apply be_load_rev.
Qed.

(** ** Witnesses *)

Ltac bytes := apply (bool_decide_unpack _); vm_compute; exact I.

Lemma BSwap_reverses_witness :
  le_store 8 (BSwap (le_load [1; 2; 3; 4; 5; 6; 7; 255])) = [255; 7; 6; 5; 4; 3; 2; 1] /\
  BSwap (BSwap (le_load [1; 2; 3; 4; 5; 6; 7; 255])) = le_load [1; 2; 3; 4; 5; 6; 7; 255].
Proof. apply (BSwap_reverses [1; 2; 3; 4; 5; 6; 7; 255]); [reflexivity | bytes]. Defined.

Lemma FixedSortKey_order_witness :
  exists ka kb, FixedConstruct (FixedSortKey 2 16 true) [1; 2; 3; 4; 5; 6; 7; 8; 9] 0 = Some ka /\
    FixedConstruct (FixedSortKey 2 16 true) [1; 2; 3; 4; 5; 6; 7; 8; 10; 0; 0; 0; 0; 7] 0 = Some kb /\
    FixedLess (FixedSortKey 2 16 true) ka kb = true /\
    FixedDeconstruct (FixedSortKey 2 16 true) ka = [1; 2; 3; 4; 5; 6; 7; 8; 9; 0; 0; 0; 0; 0; 0; 0].
Proof.
  apply (FixedSortKey_order PAYLOAD_FIXED_24 (FixedSortKey 2 16 true)
    [1; 2; 3; 4; 5; 6; 7; 8; 9] [1; 2; 3; 4; 5; 6; 7; 8; 10; 0; 0; 0; 0; 7] 0 0);
    [reflexivity | reflexivity | bytes | bytes | cbn; lia | cbn; lia].
Defined.

Lemma FixedConstruct_int64_roundtrip_witness :
  FixedDeconstruct_int64 (FixedConstruct_int64 (FixedSortKey 1 8 false)
    {| parts := [0]; size := 0; data := 0; payload := 0 |} (-5)) = -5.
Proof. apply FixedConstruct_int64_roundtrip; [discriminate | lia]. Defined.

(** A string of 10 bytes and its prefix of 8, which is inlined. *)
Lemma VariableSortKey_order_witness :
  exists ka heap1 ptr1 kb heap2 ptr2,
    VariableConstruct (VariableSortKey 1 8 true) [1; 2; 3; 4; 5; 6; 7; 8] 0 (zeros 24) 3
      = Some (ka, heap1, ptr1) /\
    VariableConstruct (VariableSortKey 1 8 true) [1; 2; 3; 4; 5; 6; 7; 8; 0; 1] 0 heap1 ptr1
      = Some (kb, heap2, ptr2) /\
    VariableLess (VariableSortKey 1 8 true) heap2 ka kb = Ok true /\
    VariableDeconstruct (VariableSortKey 1 8 true) heap2 ka = [1; 2; 3; 4; 5; 6; 7; 8] /\
    VariableDeconstruct (VariableSortKey 1 8 true) heap2 kb = [1; 2; 3; 4; 5; 6; 7; 8; 0; 1].
Proof.
  apply (VariableSortKey_order PAYLOAD_VARIABLE_32 (VariableSortKey 1 8 true)
    [1; 2; 3; 4; 5; 6; 7; 8] [1; 2; 3; 4; 5; 6; 7; 8; 0; 1] 0 0 (zeros 24) 3);
    [reflexivity | reflexivity | bytes | bytes | lia | vm_compute; discriminate].
Defined.
