(* ===== verification/Radix.v ===== *)
(** * Order-preserving bytes of values

    [Radix] of include/duckdb/common/radix.hpp: the values of the types of constant size as
    bytes whose unsigned order is the order of the values, and back.  An integer is its
    value, a bool 0 or 1, a float or a double the bits of its IEEE 754 format, a
    hugeint and an interval their parts. *)

From S2P Require Import Prelude SortKey.

(** ** Byte swap of the other widths *)

Definition BSwap16 (x : Z) : Z :=
  (Z.lor (Z.shiftr (Z.land x 0xff00) 8) (Z.shiftl (Z.land x 0x00ff) 8)) mod 2 ^ 16.

Definition BSwap32 (x : Z) : Z :=
  (Z.lor (Z.lor (Z.lor
    (Z.shiftr (Z.land x 0xff000000) 24)
    (Z.shiftr (Z.land x 0x00ff0000) 8))
    (Z.shiftl (Z.land x 0x0000ff00) 8))
    (Z.shiftl (Z.land x 0x000000ff) 24)) mod 2 ^ 32.

(** Of an unsigned integer of [w] bytes. *)
Definition BSwapWidth (w : nat) (x : Z) : Z :=
  match w with
  | 1%nat => x
  | 2%nat => BSwap16 x
  | 4%nat => BSwap32 x
  | _ => BSwap x
  end.

(** ** Types and values *)

Inductive PhysicalType : Set :=
  | BOOL | UINT8 | INT8 | UINT16 | INT16 | UINT32 | INT32 | UINT64 | INT64
  | FLOAT | DOUBLE | INTERVAL | UINT128 | INT128
  | VARCHAR | STRUCT | LIST | ARRAY
  | OTHER_TYPE.

#[export] Instance PhysicalType_eq_dec : EqDecision PhysicalType.
Proof. solve_decision. Defined.

Inductive Scalar : Set :=
  | s_int (z : Z)
  | s_huge (upper lower : Z)
  | s_interval (months days micros : Z)
  | s_bytes (bytes : list Z).

(** [sizeof(string_t)] and [sizeof(list_entry_t)] are 16. *)
Definition GetTypeIdSize (t : PhysicalType) : nat :=
  match t with
  | BOOL | UINT8 | INT8 => 1
  | UINT16 | INT16 => 2
  | UINT32 | INT32 | FLOAT => 4
  | UINT64 | INT64 | DOUBLE => 8
  | INTERVAL | UINT128 | INT128 => 16
  | VARCHAR | LIST => 16
  | _ => 0
  end.

Definition TypeIsConstantSize (t : PhysicalType) : bool :=
  match t with
  | BOOL | UINT8 | INT8 | UINT16 | INT16 | UINT32 | INT32 | UINT64 | INT64
  | FLOAT | DOUBLE | INTERVAL | UINT128 | INT128 => true
  | _ => false
  end.

(** ** Encoding *)

Definition FlipSign (key_byte : Z) : Z := Z.lxor key_byte 128.

(** [dataptr[0] = FlipSign(dataptr[0])] *)
Definition flip_first (bytes : list Z) : list Z :=
  match bytes with
  | [] => []
  | b :: bytes => FlipSign b :: bytes
  end.

Definition float_is_nan (x : Z) : bool := (0x7f800000 <? Z.land x 0x7fffffff).

Definition EncodeFloat (x : Z) : Z :=
  if Z.land x 0x7fffffff =? 0 then Z.lor 0 (Z.shiftl 1 31)
  else if float_is_nan x then 2 ^ 32 - 1
  else if x =? 0x7f800000 then 2 ^ 32 - 2
  else if x =? 0xff800000 then 0
  else if Z.land x (Z.shiftl 1 31) =? 0 then Z.lor x (Z.shiftl 1 31)
  else 2 ^ 32 - 1 - x.

Definition DecodeFloat (input : Z) : Z :=
  if input =? 2 ^ 32 - 1 then 0x7fc00000
  else if input =? 2 ^ 32 - 2 then 0x7f800000
  else if input =? 0 then 0xff800000
  else if negb (Z.land input (Z.shiftl 1 31) =? 0) then Z.lxor input (Z.shiftl 1 31)
  else 2 ^ 32 - 1 - input.

Definition double_is_nan (x : Z) : bool := (0x7ff0000000000000 <? Z.land x 0x7fffffffffffffff).

Definition EncodeDouble (x : Z) : Z :=
  if Z.land x 0x7fffffffffffffff =? 0 then 0 + Z.shiftl 1 63
  else if double_is_nan x then 2 ^ 64 - 1
  else if x =? 0x7ff0000000000000 then 2 ^ 64 - 2
  else if x =? 0xfff0000000000000 then 0
  else if x <? Z.shiftl 1 63 then u64 (x + Z.shiftl 1 63)
  else 2 ^ 64 - 1 - x.

Definition DecodeDouble (input : Z) : Z :=
  if input =? 2 ^ 64 - 1 then 0x7ff8000000000000
  else if input =? 2 ^ 64 - 2 then 0x7ff0000000000000
  else if input =? 0 then 0xfff0000000000000
  else if negb (Z.land input (Z.shiftl 1 63) =? 0) then Z.lxor input (Z.shiftl 1 63)
  else 2 ^ 64 - 1 - input.

(** [Store<UNSIGNED>(BSwap(value), dataptr)] *)
Definition EncodeUnsigned (w : nat) (value : Z) : list Z := le_store w (BSwapWidth w value).

Definition EncodeSigned (w : nat) (value : Z) : list Z :=
  flip_first (EncodeUnsigned w (value mod 2 ^ (8 * Z.of_nat w))).

Definition EncodeData (t : PhysicalType) (value : Scalar) : list Z :=
  match t, value with
  | BOOL, s_int z => le_store 1 z
  | UINT8, s_int z => le_store 1 z
  | UINT16, s_int z => EncodeUnsigned 2 z
  | UINT32, s_int z => EncodeUnsigned 4 z
  | UINT64, s_int z => EncodeUnsigned 8 z
  | INT8, s_int z => EncodeSigned 1 z
  | INT16, s_int z => EncodeSigned 2 z
  | INT32, s_int z => EncodeSigned 4 z
  | INT64, s_int z => EncodeSigned 8 z
  | FLOAT, s_int x => EncodeUnsigned 4 (EncodeFloat x)
  | DOUBLE, s_int x => EncodeUnsigned 8 (EncodeDouble x)
  | INT128, s_huge upper lower => EncodeSigned 8 upper ++ EncodeUnsigned 8 lower
  | UINT128, s_huge upper lower => EncodeUnsigned 8 upper ++ EncodeUnsigned 8 lower
  | INTERVAL, s_interval months days micros => EncodeSigned 4 months ++ EncodeSigned 4 days ++ EncodeSigned 8 micros
  | _, _ => []
  end.

(** ** Decoding *)

Definition DecodeUnsigned (w : nat) (input : list Z) : Z := BSwapWidth w (le_load (take w input)).

(** The sign of an integer of [w] bytes. *)
Definition to_signed (w : nat) (z : Z) : Z :=
  if z <? 2 ^ (8 * Z.of_nat w - 1) then z else z - 2 ^ (8 * Z.of_nat w).

Definition DecodeSigned (w : nat) (input : list Z) : Z := to_signed w (DecodeUnsigned w (flip_first (take w input))).

Definition DecodeData (t : PhysicalType) (input : list Z) : Scalar :=
  match t with
  | BOOL => s_int (if le_load (take 1 input) =? 0 then 0 else 1)
  | UINT8 => s_int (le_load (take 1 input))
  | UINT16 => s_int (DecodeUnsigned 2 input)
  | UINT32 => s_int (DecodeUnsigned 4 input)
  | UINT64 => s_int (DecodeUnsigned 8 input)
  | INT8 => s_int (DecodeSigned 1 input)
  | INT16 => s_int (DecodeSigned 2 input)
  | INT32 => s_int (DecodeSigned 4 input)
  | INT64 => s_int (DecodeSigned 8 input)
  | FLOAT => s_int (DecodeFloat (DecodeUnsigned 4 input))
  | DOUBLE => s_int (DecodeDouble (DecodeUnsigned 8 input))
  | INT128 => s_huge (DecodeSigned 8 input) (DecodeUnsigned 8 (drop 8 input))
  | UINT128 => s_huge (DecodeUnsigned 8 input) (DecodeUnsigned 8 (drop 8 input))
  | INTERVAL => s_interval (DecodeSigned 4 input) (DecodeSigned 4 (drop 4 input)) (DecodeSigned 8 (drop 8 input))
  | _ => s_bytes []
  end.

(** ** The order of byte strings *)

Definition then_compare (c d : comparison) : comparison := match c with Eq => d | _ => c end.
Notation "c ▷ d" := (then_compare c d) (at level 55, right associativity).

Fixpoint byte_compare (l r : list Z) : comparison :=
  match l, r with
  | [], [] => Eq
  | [], _ :: _ => Lt
  | _ :: _, [] => Gt
  | x :: l, y :: r => Z.compare x y ▷ byte_compare l r
  end.

Lemma then_assoc c d e : (c ▷ d) ▷ e = c ▷ d ▷ e.
Proof. by destruct c. Qed.

Lemma then_eq c : c ▷ Eq = c.
Proof. by destruct c. Qed.

Lemma byte_compare_refl l : byte_compare l l = Eq.
Proof. induction l as [| x l IH]; [done |]. cbn. by rewrite Z.compare_refl. Qed.

Lemma byte_compare_eq l r : byte_compare l r = Eq <-> l = r.
Proof.
  split; [| intros ->; apply byte_compare_refl]. revert r. induction l as [| x l IH]; intros [| y r]; try done. cbn.
  destruct (Z.compare_spec x y) as [-> | |]; try done. cbn. intros H. f_equal. by apply IH.
Qed.

Lemma byte_compare_app l l' r r' :
  length l = length l' -> byte_compare (l ++ r) (l' ++ r') = byte_compare l l' ▷ byte_compare r r'.
Proof.
  revert l'. induction l as [| x l IH]; intros [| y l'] Hl; try done. injection Hl as Hl. cbn.
  by rewrite IH, then_assoc.
Qed.

Lemma byte_compare_lex l r : lex_lt l r = match byte_compare l r with Lt => true | _ => false end.
Proof.
  revert r. induction l as [| x l IH]; intros [| y r]; try done. cbn. rewrite IH.
  destruct (Z.compare_spec x y) as [-> | |]; cbn.
  - by rewrite Z.ltb_irrefl, Z.eqb_refl.
  - by rewrite (proj2 (Z.ltb_lt x y)).
  - by rewrite (proj2 (Z.ltb_ge x y)), (proj2 (Z.eqb_neq x y)) by lia.
Qed.

Lemma byte_compare_load l r :
  Forall is_byte l -> Forall is_byte r -> length l = length r -> byte_compare l r = Z.compare (be_load l) (be_load r).
Proof.
  intros Hl Hr Hlen. pose proof (be_load_lt l r Hl Hr Hlen) as H1. pose proof (be_load_inj l r Hl Hr Hlen) as H3.
  rewrite byte_compare_lex in H1.
  pose proof (byte_compare_eq l r) as [He _].
  destruct (byte_compare l r) eqn:E; symmetry.
  - rewrite He by done. apply Z.compare_refl.
  - by apply Z.compare_lt_iff, Z.ltb_lt.
  - apply Z.compare_gt_iff. apply Z.ltb_ge in H1. destruct (Z.eq_dec (be_load l) (be_load r)) as [Eq | Hne]; [| lia].
    apply H3 in Eq as ->. by rewrite byte_compare_refl in E.
Qed.

(** An encoding whose strings compare as the values do, whatever follows them. *)
Definition is_code {A} (P : A -> Prop) (enc : A -> list Z) (cmp : A -> A -> comparison) : Prop :=
  forall a b s t, P a -> P b -> byte_compare (enc a ++ s) (enc b ++ t) = cmp a b ▷ byte_compare s t.

Lemma code_ext {A} (P : A -> Prop) enc enc' cmp :
  (forall a, P a -> enc a = enc' a) -> is_code P enc cmp -> is_code P enc' cmp.
Proof. intros He H a b s t Ha Hb. rewrite <- !He by done. by apply H. Qed.

Lemma code_pair {A B} (P : A -> Prop) (Q : B -> Prop) f g c d :
  is_code P f c -> is_code Q g d ->
  is_code (fun x => P (fst x) /\ Q (snd x)) (fun x => f (fst x) ++ g (snd x)) (fun x y => c (fst x) (fst y) ▷ d (snd x) (snd y)).
Proof. intros Hf Hg [a b] [a' b'] s t [Ha Hb] [Ha' Hb']. cbn in *. by rewrite <- !app_assoc, Hf, Hg, then_assoc. Qed.

(** The order of the bytes turned around. *)
Definition flip_byte (b : Z) : Z := 255 - b.
Definition flip_bytes (l : list Z) : list Z := flip_byte <$> l.

Lemma flip_compare x y : Z.compare (flip_byte x) (flip_byte y) = CompOpp (Z.compare x y).
Proof. unfold flip_byte. destruct (Z.compare_spec x y) as [-> | |]; cbn; [apply Z.compare_refl | apply Z.compare_gt_iff; lia | apply Z.compare_lt_iff; lia]. Qed.

Lemma compare_differ l r c :
  (forall s t, byte_compare (l ++ s) (r ++ t) = c) -> c <> Eq ->
  forall s t, byte_compare (flip_bytes l ++ s) (flip_bytes r ++ t) = CompOpp c.
Proof.
  revert r. induction l as [| x l IH]; intros r Hc Hne s t.
  - pose proof (Hc r []) as H1. rewrite app_nil_r in H1. cbn [app] in H1. by rewrite byte_compare_refl in H1.
  - destruct r as [| y r].
    + pose proof (Hc [] (x :: l)) as H1. rewrite app_nil_r in H1. cbn [app] in H1. by rewrite byte_compare_refl in H1.
    + cbn. rewrite flip_compare. destruct (Z.compare x y) eqn:E; cbn.
      * apply IH; [| done]. intros s' t'. specialize (Hc s' t'). cbn in Hc. by rewrite E in Hc.
      * specialize (Hc [] []). cbn in Hc. rewrite E in Hc. by rewrite <- Hc.
      * specialize (Hc [] []). cbn in Hc. rewrite E in Hc. by rewrite <- Hc.
Qed.

Lemma code_flip {A} (P : A -> Prop) enc cmp :
  is_code P enc cmp -> is_code P (fun a => flip_bytes (enc a)) (fun a b => CompOpp (cmp a b)).
Proof.
  intros H a b s t Ha Hb. destruct (cmp a b) eqn:E; cbn.
  - pose proof (H a b [] [] Ha Hb) as H1. rewrite E in H1. cbn in H1. rewrite !app_nil_r in H1.
    apply byte_compare_eq in H1 as ->. rewrite byte_compare_app by done. by rewrite byte_compare_refl.
  - apply (compare_differ _ _ Lt); [| done]. intros s' t'. by rewrite H, E.
  - apply (compare_differ _ _ Gt); [| done]. intros s' t'. by rewrite H, E.
Qed.

(** ** Integers *)

Definition width_ok (w : nat) : Prop := (w = 1 \/ w = 2 \/ w = 4 \/ w = 8)%nat.
Abbreviation modulus w := (2 ^ (8 * Z.of_nat w)).

Lemma modulus_S w : modulus (S w) = 256 * modulus w.
Proof. replace (8 * Z.of_nat (S w)) with (8 + 8 * Z.of_nat w) by lia. rewrite Z.pow_add_r by lia. done. Qed.

Lemma length_le_store w v : length (le_store w v) = w.
Proof. revert v. induction w as [| w IH]; intros v; [done |]. cbn. by rewrite IH. Qed.

Lemma le_store_bytes w v : Forall is_byte (le_store w v).
Proof. revert v. induction w as [| w IH]; intros v; [done |]. constructor; [unfold is_byte; zdm | apply IH]. Qed.

Lemma le_load_store w v : 0 <= v < modulus w -> le_load (le_store w v) = v.
Proof.
  revert v. induction w as [| w IH]; intros v Hv; [cbn in *; lia |]. cbn [le_store le_load foldr]. fold (le_load (le_store w (v / 256))).
  rewrite modulus_S in Hv. rewrite IH by zdm. zdm.
Qed.

Lemma BSwapWidth_load w bs : width_ok w -> length bs = w -> Forall is_byte bs -> BSwapWidth w (le_load bs) = be_load bs.
Proof.
  intros [-> | [-> | [-> | ->]]] Hl Hb; [| | | by apply BSwap_le_load].
  - destruct bs as [| b [|]]; try done. cbn. lia.
  - cbn [BSwapWidth]. unfold BSwap16. destruct bs as [| b0 [| b1 [|]]]; try done. set (x := le_load _).
    assert (forall k i b, k = 8 * Z.of_nat i -> [b0; b1] !! i = Some b -> Z.land x (Z.shiftl 255 k) = b * 2 ^ k) as Hx
      by (intros; by eapply land_le_load).
    rewrite (Hx 8 1%nat b1 eq_refl eq_refl : Z.land x 0xff00 = _), (Hx 0 0%nat b0 eq_refl eq_refl : Z.land x 0x00ff = _).
    clear Hx. do 2 (apply Forall_cons in Hb as [? Hb]). clear Hl Hb x. unfold is_byte in *.
    rewrite (shiftr_pow b1 8 8 0), (shiftl_pow b0 0 8 8) by lia. rewrite (lor_shift (b1 * _) b0) by lia.
    rewrite Z.mod_small by lia. cbn [be_load length]. lia.
  - cbn [BSwapWidth]. unfold BSwap32. destruct bs as [| b0 [| b1 [| b2 [| b3 [|]]]]]; try done. set (x := le_load _).
    assert (forall k i b, k = 8 * Z.of_nat i -> [b0; b1; b2; b3] !! i = Some b -> Z.land x (Z.shiftl 255 k) = b * 2 ^ k) as Hx
      by (intros; by eapply land_le_load).
    rewrite (Hx 24 3%nat b3 eq_refl eq_refl : Z.land x 0xff000000 = _), (Hx 16 2%nat b2 eq_refl eq_refl : Z.land x 0x00ff0000 = _),
      (Hx 8 1%nat b1 eq_refl eq_refl : Z.land x 0x0000ff00 = _), (Hx 0 0%nat b0 eq_refl eq_refl : Z.land x 0x000000ff = _).
    clear Hx. do 4 (apply Forall_cons in Hb as [? Hb]). clear Hl Hb x. unfold is_byte in *.
    rewrite (shiftr_pow b3 24 24 0), (shiftr_pow b2 16 8 8), (shiftl_pow b1 8 8 16), (shiftl_pow b0 0 24 24) by lia.
    rewrite (lor_shift (b3 * _) b2), (lor_shift (_ + _) b1), (lor_shift (_ + _ + _) b0) by lia.
    rewrite Z.mod_small by lia. cbn [be_load length]. lia.
Qed.

(** The bytes of an unsigned integer, the most significant first. *)
Lemma EncodeUnsigned_reverse w v : width_ok w -> 0 <= v < modulus w -> EncodeUnsigned w v = reverse (le_store w v).
Proof.
  intros Hw Hv. unfold EncodeUnsigned. rewrite <- (le_load_store w v Hv) at 1.
  rewrite BSwapWidth_load by (done || apply length_le_store || apply le_store_bytes).
  rewrite <- (reverse_involutive (le_store w v)), be_load_rev at 1.
  rewrite <- (length_le_store w v) at 1. rewrite <- length_reverse. apply le_store_load, Forall_reverse, le_store_bytes.
Qed.

Lemma EncodeUnsigned_load w v : width_ok w -> 0 <= v < modulus w -> be_load (EncodeUnsigned w v) = v.
Proof. intros Hw Hv. rewrite EncodeUnsigned_reverse by done. rewrite be_load_rev. by apply le_load_store. Qed.

Lemma length_EncodeUnsigned w v : length (EncodeUnsigned w v) = w.
Proof. apply length_le_store. Qed.

Lemma EncodeUnsigned_bytes w v : Forall is_byte (EncodeUnsigned w v).
Proof. apply le_store_bytes. Qed.

Lemma DecodeUnsigned_load w bs s : width_ok w -> length bs = w -> Forall is_byte bs -> DecodeUnsigned w (bs ++ s) = be_load bs.
Proof. intros Hw Hl Hb. unfold DecodeUnsigned. rewrite take_app_length' by done. by apply BSwapWidth_load. Qed.

Lemma flip_sign_byte b : is_byte b -> FlipSign b = (b + 128) mod 256.
Proof.
  intros Hb. unfold FlipSign.
  assert (forallb (fun b => Z.lxor b 128 =? (b + 128) mod 256) (zrange 0 256) = true) as H by (vm_compute; reflexivity).
  rewrite forallb_forall in H. apply Z.eqb_eq, H. rewrite <- list_elem_of_In, elem_of_zrange. exact Hb.
Qed.

Lemma flip_first_length bs : length (flip_first bs) = length bs.
Proof. by destruct bs. Qed.

Lemma flip_first_bytes bs : Forall is_byte bs -> Forall is_byte (flip_first bs).
Proof. intros [| b bs' Hb Hbs]; constructor; [rewrite flip_sign_byte by done; unfold is_byte; zdm | done]. Qed.

Lemma flip_first_load bs :
  Forall is_byte bs -> (0 < length bs)%nat ->
  be_load (flip_first bs) = (be_load bs + 2 ^ (8 * Z.of_nat (length bs) - 1)) mod modulus (length bs).
Proof.
  intros [| b bs' Hb Hbs] Hl; [cbn in Hl; lia |]. cbn [flip_first be_load length]. rewrite flip_sign_byte by done.
  pose proof (be_load_bound bs' Hbs) as Hlt. replace (256 ^ Z.of_nat (length bs')) with (modulus (length bs')) in *
    by (rewrite Z.pow_mul_r by lia; done).
  rewrite modulus_S. replace (8 * Z.of_nat (S (length bs')) - 1) with (7 + 8 * Z.of_nat (length bs')) by lia.
  rewrite Z.pow_add_r by lia. change (2 ^ 7) with 128. set (m := modulus (length bs')) in *. set (x := be_load bs') in *.
  unfold is_byte in Hb. destruct (Z.lt_ge_cases b 128).
  - rewrite Z.mod_small by lia. rewrite Z.mod_small; nia.
  - replace (b + 128) with (b - 128 + 1 * 256) by lia. rewrite Z.mod_add, (Z.mod_small (b - 128)) by lia.
    replace (b * m + x + 128 * m) with ((b - 128) * m + x + 1 * (256 * m)) by lia. rewrite Z.mod_add by lia.
    rewrite Z.mod_small; nia.
Qed.

Definition signed_range (w : nat) (v : Z) : Prop := - 2 ^ (8 * Z.of_nat w - 1) <= v < 2 ^ (8 * Z.of_nat w - 1).

Lemma half_modulus w : (0 < w)%nat -> modulus w = 2 * 2 ^ (8 * Z.of_nat w - 1).
Proof. intros Hw. replace (8 * Z.of_nat w) with (1 + (8 * Z.of_nat w - 1)) at 1 by lia. by rewrite Z.pow_add_r by lia. Qed.

Lemma byte_width_pos w : width_ok w -> (0 < w)%nat.
Proof. unfold width_ok. lia. Qed.

Lemma EncodeSigned_load w v :
  width_ok w -> signed_range w v -> be_load (EncodeSigned w v) = v + 2 ^ (8 * Z.of_nat w - 1).
Proof.
  intros Hw Hv. pose proof (byte_width_pos w Hw) as Hpos. pose proof (half_modulus w Hpos) as Hm. unfold signed_range in Hv.
  unfold EncodeSigned. set (u := v mod modulus w). assert (0 <= u < modulus w) as Hu by (apply Z.mod_pos_bound; lia).
  rewrite flip_first_load by (apply EncodeUnsigned_bytes || (rewrite length_EncodeUnsigned; lia)).
  rewrite EncodeUnsigned_load, length_EncodeUnsigned by done. unfold u. rewrite Z.add_mod_idemp_l by lia.
  apply Z.mod_small. lia.
Qed.

Lemma length_EncodeSigned w v : length (EncodeSigned w v) = w.
Proof. unfold EncodeSigned. by rewrite flip_first_length, length_EncodeUnsigned. Qed.

Lemma EncodeSigned_bytes w v : Forall is_byte (EncodeSigned w v).
Proof. apply flip_first_bytes, EncodeUnsigned_bytes. Qed.

Lemma DecodeSigned_load w bs s :
  width_ok w -> length bs = w -> Forall is_byte bs -> DecodeSigned w (bs ++ s) = be_load bs - 2 ^ (8 * Z.of_nat w - 1).
Proof.
  intros Hw Hl Hb. pose proof (byte_width_pos w Hw) as Hpos. pose proof (half_modulus w Hpos) as Hm.
  unfold DecodeSigned. rewrite take_app_length' by done.
  rewrite <- (app_nil_r (flip_first bs)), DecodeUnsigned_load by (done || by rewrite ?flip_first_length || by apply flip_first_bytes).
  rewrite flip_first_load by (done || lia). rewrite Hl. pose proof (be_load_bound bs Hb) as Hlt. rewrite Hl in Hlt.
  replace (256 ^ Z.of_nat w) with (modulus w) in Hlt by (rewrite Z.pow_mul_r by lia; done).
  set (h := 2 ^ (8 * Z.of_nat w - 1)) in *. set (x := be_load bs) in *. unfold to_signed. fold h.
  destruct (Z.lt_ge_cases x h).
  - rewrite Z.mod_small by lia. rewrite (proj2 (Z.ltb_ge _ _)) by lia. lia.
  - replace (x + h) with (x - h + 1 * modulus w) by lia. rewrite Z.mod_add, Z.mod_small by lia.
    rewrite (proj2 (Z.ltb_lt _ _)) by lia. lia.
Qed.

(** Codes of constant length, by what their bytes are worth. *)
Lemma code_of_load {A} (P : A -> Prop) (enc : A -> list Z) (key : A -> Z) w :
  (forall a, P a -> length (enc a) = w /\ Forall is_byte (enc a) /\ be_load (enc a) = key a) ->
  is_code P enc (fun a b => Z.compare (key a) (key b)).
Proof.
  intros H a b s t Ha Hb. destruct (H a Ha) as (La & Ba & <-). destruct (H b Hb) as (Lb & Bb & <-).
  rewrite byte_compare_app by (by rewrite La). by rewrite byte_compare_load by (done || by rewrite La).
Qed.

Lemma unsigned_code w : width_ok w -> is_code (fun v => 0 <= v < modulus w) (EncodeUnsigned w) Z.compare.
Proof.
  intros Hw. apply (code_of_load _ _ id w). intros v Hv.
  split_and!; [apply length_EncodeUnsigned | apply EncodeUnsigned_bytes | by apply EncodeUnsigned_load].
Qed.

Lemma signed_code w : width_ok w -> is_code (signed_range w) (EncodeSigned w) Z.compare.
Proof.
  intros Hw a b s t Ha Hb.
  rewrite (code_of_load (signed_range w) (EncodeSigned w) (fun v => v + 2 ^ (8 * Z.of_nat w - 1)) w) by
    (done || (intros v Hv; split_and!; [apply length_EncodeSigned | apply EncodeSigned_bytes | by apply EncodeSigned_load])).
  f_equal. destruct (Z.compare_spec a b), (Z.compare_spec (a + 2 ^ (8 * Z.of_nat w - 1)) (b + 2 ^ (8 * Z.of_nat w - 1))); done || lia.
Qed.

(** ** Floating point numbers

    A float of magnitude [a] (the bits without the sign), with [m] bits of fraction, is
    [float_units m a] units of half the smallest subnormal number.  NaN is greater than
    infinity and equal to itself, and the zeros are equal. *)

Definition float_units (m a : Z) : Z :=
  let e := a / 2 ^ m in
  let f := a mod 2 ^ m in
  if e =? 0 then 2 * f else (2 ^ m + f) * 2 ^ e.

Lemma float_units_range m a :
  0 <= m -> 0 <= a -> 2 ^ m <= a -> 2 ^ m * 2 ^ (a / 2 ^ m) <= float_units m a < 2 * 2 ^ m * 2 ^ (a / 2 ^ m).
Proof.
  intros Hm Ha Hn. unfold float_units. pose proof (Z.mod_pos_bound a (2 ^ m) ltac:(lia)) as Hf.
  assert (1 <= a / 2 ^ m) as He by (apply Z.div_le_lower_bound; lia).
  rewrite (proj2 (Z.eqb_neq _ 0)) by lia. pose proof (Z.pow_pos_nonneg 2 (a / 2 ^ m)). nia.
Qed.

Lemma float_units_mono m a b : 0 <= m -> 0 <= a < b -> float_units m a < float_units m b.
Proof.
  intros Hm Hab. pose proof (Z.pow_pos_nonneg 2 m ltac:(lia) Hm) as Hp.
  pose proof (Z.div_mod a (2 ^ m) ltac:(lia)) as Da. pose proof (Z.div_mod b (2 ^ m) ltac:(lia)) as Db.
  pose proof (Z.mod_pos_bound a (2 ^ m) ltac:(lia)) as Fa. pose proof (Z.mod_pos_bound b (2 ^ m) ltac:(lia)) as Fb.
  assert (a / 2 ^ m <= b / 2 ^ m) as Hle by (apply Z.div_le_mono; lia).
  destruct (Z.eq_dec (a / 2 ^ m) (b / 2 ^ m)) as [E | E].
  - unfold float_units. rewrite <- E in *. destruct (a / 2 ^ m =? 0) eqn:E0; [lia |].
    pose proof (Z.pow_pos_nonneg 2 (a / 2 ^ m)). assert (0 <= a / 2 ^ m) by (apply Z.div_pos; lia). nia.
  - assert (0 <= a / 2 ^ m) as Hea by (apply Z.div_pos; lia). assert (1 <= b / 2 ^ m) as Heb by lia.
    assert (2 ^ m * 1 <= 2 ^ m * (b / 2 ^ m)) by (apply Z.mul_le_mono_nonneg_l; lia). assert (2 ^ m <= b) as Hb by lia. pose proof (float_units_range m b Hm ltac:(lia) Hb) as Rb.
    destruct (Z.eq_dec (a / 2 ^ m) 0) as [E0 | E0].
    + assert (float_units m a = 2 * (a mod 2 ^ m)) as -> by (unfold float_units; by rewrite E0).
      assert (2 ^ 1 <= 2 ^ (b / 2 ^ m)) as Hpow by (apply Z.pow_le_mono_r; lia). nia.
    + assert (2 ^ m * 1 <= 2 ^ m * (a / 2 ^ m)) by (apply Z.mul_le_mono_nonneg_l; lia). assert (2 ^ m <= a) as Ha by lia. pose proof (float_units_range m a Hm ltac:(lia) Ha) as Ra.
      assert (2 ^ (1 + a / 2 ^ m) <= 2 ^ (b / 2 ^ m)) as Hpow by (apply Z.pow_le_mono_r; lia).
      rewrite Z.pow_add_r in Hpow by lia. nia.
Qed.

Lemma float_units_pos m a : 0 <= m -> 0 < a -> 0 < float_units m a.
Proof. intros Hm Ha. pose proof (float_units_mono m 0 a Hm ltac:(lia)) as H. unfold float_units at 1 in H. rewrite Z.div_0_l, Z.mod_0_l in H by lia. done. Qed.

(** The class of a float (negative infinity, finite, infinity, NaN) and its value. *)
Definition float_value (n m infinity x : Z) : Z * Z :=
  let a := x mod 2 ^ (n - 1) in
  if infinity <? a then (3, 0)
  else if a =? infinity then (if x <? 2 ^ (n - 1) then (2, 0) else (0, 0))
  else (1, if x <? 2 ^ (n - 1) then float_units m a else - float_units m a).

Definition float_compare (n m infinity x y : Z) : comparison :=
  let '(c, v) := float_value n m infinity x in
  let '(d, w) := float_value n m infinity y in
  Z.compare c d ▷ Z.compare v w.

(** What EncodeFloat and EncodeDouble compute. *)
Definition float_key (n infinity x : Z) : Z :=
  let half := 2 ^ (n - 1) in
  let a := x mod half in
  if a =? 0 then half
  else if infinity <? a then 2 * half - 1
  else if x =? infinity then 2 * half - 2
  else if x =? half + infinity then 0
  else if x <? half then x + half
  else 2 * half - 1 - x.

Lemma half_double n : 0 < n -> 2 ^ n = 2 * 2 ^ (n - 1).
Proof. intros Hn. replace n with (1 + (n - 1)) at 1 by lia. by rewrite Z.pow_add_r by lia. Qed.

Lemma sign_split n x :
  0 < n -> 0 <= x < 2 ^ n ->
  (x < 2 ^ (n - 1) /\ x mod 2 ^ (n - 1) = x) \/ (2 ^ (n - 1) <= x /\ x mod 2 ^ (n - 1) = x - 2 ^ (n - 1)).
Proof.
  intros Hn Hx. rewrite (half_double n Hn) in Hx. destruct (Z.lt_ge_cases x (2 ^ (n - 1))).
  - left. split; [done | apply Z.mod_small; lia].
  - right. split; [done |]. replace x with (x - 2 ^ (n - 1) + 1 * 2 ^ (n - 1)) at 1 by lia. rewrite Z.mod_add by lia. apply Z.mod_small. lia.
Qed.

Inductive float_class (h m infinity : Z) : Z -> Z * Z -> Prop :=
  | class_nan : float_class h m infinity (2 * h - 1) (3, 0)
  | class_infinity : float_class h m infinity (2 * h - 2) (2, 0)
  | class_minus_infinity : float_class h m infinity 0 (0, 0)
  | class_positive a : 0 <= a < infinity -> float_class h m infinity (h + a) (1, float_units m a)
  | class_negative a : 0 < a < infinity -> float_class h m infinity (h - 1 - a) (1, - float_units m a).

Section floats.
Context (n m infinity : Z).
Hypothesis Hn : 0 < n.
Hypothesis Hm : 0 <= m.
Hypothesis Hi : 0 < infinity < 2 ^ (n - 1) - 1.
Abbreviation h := (2 ^ (n - 1)).

Lemma float_units_0 : float_units m 0 = 0.
Proof. unfold float_units. by rewrite Z.div_0_l, Z.mod_0_l by lia. Qed.

Lemma float_key_class x : 0 <= x < 2 ^ n -> float_class h m infinity (float_key n infinity x) (float_value n m infinity x).
Proof.
  intros Hx. pose proof float_units_0 as U0. unfold float_key, float_value. rewrite (half_double n Hn) in Hx.
  destruct (sign_split n x Hn) as [[Sx ->] | [Sx ->]]; [by rewrite half_double | |].
  - rewrite (proj2 (Z.ltb_lt x _) Sx), (proj2 (Z.eqb_neq x (h + infinity))) by lia.
    destruct (Z.eqb_spec x 0) as [-> | Hx0].
    { rewrite (proj2 (Z.ltb_ge infinity 0)), (proj2 (Z.eqb_neq 0 infinity)) by lia. rewrite <- (Z.add_0_r h) at 2. apply class_positive. lia. }
    destruct (Z.ltb_spec infinity x); [constructor |]. destruct (Z.eqb_spec x infinity); [constructor |].
    rewrite (Z.add_comm x). constructor. lia.
  - set (a := x - h) in *. rewrite (proj2 (Z.ltb_ge x _) Sx), (proj2 (Z.eqb_neq x infinity)) by lia.
    destruct (Z.eqb_spec a 0) as [E | Ha0].
    { rewrite E, U0, (proj2 (Z.ltb_ge infinity 0)), (proj2 (Z.eqb_neq 0 infinity)) by lia. rewrite <- (Z.add_0_r h) at 2. rewrite <- U0. apply class_positive. lia. }
    destruct (Z.ltb_spec infinity a); [constructor |]. destruct (Z.eqb_spec a infinity), (Z.eqb_spec x (h + infinity)); try lia; [constructor |].
    replace (2 * h - 1 - x) with (h - 1 - a) by lia. constructor. lia.
Qed.

Lemma class_compare k v k' v' :
  float_class h m infinity k v -> float_class h m infinity k' v' ->
  Z.compare k k' = Z.compare (fst v) (fst v') ▷ Z.compare (snd v) (snd v').
Proof.
  assert (forall a b, 0 <= a -> 0 <= b -> Z.compare (float_units m a) (float_units m b) = Z.compare a b) as Hmono.
  { intros a b Ha Hb. destruct (Z.compare_spec a b) as [-> | Hlt | Hlt]; [apply Z.compare_refl | |];
      pose proof (fun Hp => float_units_mono m _ _ Hm (conj Hp Hlt)) as H; [apply Z.compare_lt_iff | apply Z.compare_gt_iff]; by apply H. }
  pose proof (fun a => float_units_pos m a Hm) as Hpos. pose proof float_units_0 as U0.
  assert (forall a, 0 <= a -> 0 <= float_units m a) as Hnn.
  { intros a Ha. destruct (Z.eq_dec a 0) as [-> |]; [lia |]. specialize (Hpos a ltac:(lia)). lia. }
  intros [| | | a Ha | a Ha] [| | | b Hb | b Hb]; cbn [fst snd];
    repeat match goal with
    | |- context [Z.compare (Zpos ?c) (Zpos ?d)] => let r := eval vm_compute in (Z.compare (Zpos c) (Zpos d)) in change (Z.compare (Zpos c) (Zpos d)) with r
    | |- context [Z.compare 0 (Zpos ?d)] => change (Z.compare 0 (Zpos d)) with Lt
    | |- context [Z.compare (Zpos ?d) 0] => change (Z.compare (Zpos d) 0) with Gt
    | |- context [Z.compare 0 0] => change (Z.compare 0 0) with Eq
    end; cbn [then_compare];
    first [apply Z.compare_refl | exact (eq_refl Eq) | apply Z.compare_lt_iff; lia | apply Z.compare_gt_iff; lia | idtac].
  - rewrite Hmono by lia. destruct (Z.compare_spec a b), (Z.compare_spec (h + a) (h + b)); done || lia.
  - specialize (Hnn a ltac:(lia)). specialize (Hpos b ltac:(lia)).
    transitivity Gt; [| symmetry]; apply Z.compare_gt_iff; lia.
  - specialize (Hnn b ltac:(lia)). specialize (Hpos a ltac:(lia)).
    transitivity Lt; [| symmetry]; apply Z.compare_lt_iff; lia.
  - rewrite Z.compare_opp, Hmono by lia. destruct (Z.compare_spec b a), (Z.compare_spec (h - 1 - a) (h - 1 - b)); done || lia.
Qed.

Lemma float_key_compare x y :
  0 <= x < 2 ^ n -> 0 <= y < 2 ^ n -> Z.compare (float_key n infinity x) (float_key n infinity y) = float_compare n m infinity x y.
Proof.
  intros Hx Hy. rewrite (class_compare _ _ _ _ (float_key_class x Hx) (float_key_class y Hy)). unfold float_compare.
  by destruct (float_value n m infinity x), (float_value n m infinity y).
Qed.

Lemma float_key_range x : 0 <= x < 2 ^ n -> 0 <= float_key n infinity x < 2 ^ n.
Proof. intros Hx. rewrite (half_double n Hn). destruct (float_key_class x Hx); lia. Qed.

(** What is left of a float after decoding: one zero, one NaN. *)
Definition float_canonical (nan x : Z) : Z :=
  let a := x mod 2 ^ (n - 1) in
  if a =? 0 then 0 else if infinity <? a then nan else x.

(** What DecodeFloat and DecodeDouble compute. *)
Definition float_unkey (nan input : Z) : Z :=
  if input =? 2 * h - 1 then nan
  else if input =? 2 * h - 2 then infinity
  else if input =? 0 then h + infinity
  else if h <=? input then input - h
  else 2 * h - 1 - input.

Lemma float_unkey_key nan x : 0 <= x < 2 ^ n -> float_unkey nan (float_key n infinity x) = float_canonical nan x.
Proof.
  intros Hx. unfold float_key, float_canonical, float_unkey. cbv zeta. rewrite (half_double n Hn) in Hx.
  destruct (sign_split n x Hn) as [[Sx ->] | [Sx ->]]; [by rewrite half_double | |];
    repeat match goal with |- context [if ?b then _ else _] =>
      lazymatch b with context [if _ then _ else _] => fail | _ => destruct b eqn:?; bool_to_prop; try (exfalso; lia) end
    end; lia.
Qed.
End floats.

(** *** The bit operations of the encoders *)

Lemma land_low k a : 0 <= k -> 0 <= a < 2 ^ k -> Z.land a (2 ^ k) = 0.
Proof.
  intros Hk Ha. apply Z.bits_inj'. intros i Hi. rewrite Z.land_spec, Z.pow2_bits_eqb, Z.bits_0 by done.
  destruct (Z.eqb_spec k i) as [<- |]; [| apply andb_false_r]. rewrite andb_true_r.
  rewrite <- (Z.mod_small a (2 ^ k)) by done. by apply Z.mod_pow2_bits_high.
Qed.

Lemma lor_top k a : 0 <= k -> 0 <= a < 2 ^ k -> Z.lor a (2 ^ k) = a + 2 ^ k.
Proof. intros Hk Ha. by rewrite <- (Z.mul_1_l (2 ^ k)), lor_shift by done. Qed.

Lemma lxor_top k a : 0 <= k -> 0 <= a < 2 ^ k -> Z.lxor (a + 2 ^ k) (2 ^ k) = a.
Proof.
  intros Hk Ha. rewrite <- lor_top, <- Z.lxor_lor by (done || by apply land_low).
  by rewrite Z.lxor_assoc, Z.lxor_nilpotent, Z.lxor_0_r.
Qed.

Lemma land_top k x : 0 <= k -> 0 <= x < 2 * 2 ^ k -> (Z.land x (2 ^ k) =? 0) = (x <? 2 ^ k).
Proof.
  intros Hk Hx. destruct (Z.ltb_spec x (2 ^ k)).
  - by rewrite land_low by lia.
  - replace x with (x - 2 ^ k + 2 ^ k) by lia. rewrite <- lor_top, Z.land_lor_distr_l, land_low, Z.land_diag by lia.
    rewrite Z.lor_0_l. apply Z.eqb_neq. pose proof (Z.pow_pos_nonneg 2 k). lia.
Qed.

Lemma EncodeFloat_key x : 0 <= x < 2 ^ 32 -> EncodeFloat x = float_key 32 0x7f800000 x.
Proof.
  intros Hx. unfold EncodeFloat, float_key, float_is_nan. cbv zeta. change 0x7fffffff with (Z.ones 31).
  change (32 - 1) with 31. rewrite Z.land_ones by lia. change (Z.shiftl 1 31) with (2 ^ 31). rewrite land_top by lia.
  destruct (Z.ltb_spec x (2 ^ 31)); [| done]. by rewrite (lor_top 31 x) by lia.
Qed.

Lemma EncodeDouble_key x : 0 <= x < 2 ^ 64 -> EncodeDouble x = float_key 64 0x7ff0000000000000 x.
Proof.
  intros Hx. unfold EncodeDouble, float_key, double_is_nan. cbv zeta. change 0x7fffffffffffffff with (Z.ones 63).
  change (64 - 1) with 63. rewrite Z.land_ones by lia. change (Z.shiftl 1 63) with (2 ^ 63).
  destruct (Z.ltb_spec x (2 ^ 63)); [| done]. by rewrite u64_small by lia.
Qed.

Lemma DecodeFloat_unkey k : 0 <= k < 2 ^ 32 -> DecodeFloat k = float_unkey 32 0x7f800000 0x7fc00000 k.
Proof.
  intros Hk. unfold DecodeFloat, float_unkey. change (Z.shiftl 1 31) with (2 ^ 31). change (32 - 1) with 31.
  rewrite land_top, Z.leb_antisym by lia. change (2 * 2 ^ 31) with (2 ^ 32). change (2 ^ 31 + 0x7f800000) with 0xff800000.
  destruct (Z.ltb_spec k (2 ^ 31)); [done |]. cbn [negb]. rewrite <- (lxor_top 31 (k - 2 ^ 31)) by lia.
  by replace (k - 2 ^ 31 + 2 ^ 31) with k by lia.
Qed.

Lemma DecodeDouble_unkey k : 0 <= k < 2 ^ 64 -> DecodeDouble k = float_unkey 64 0x7ff0000000000000 0x7ff8000000000000 k.
Proof.
  intros Hk. unfold DecodeDouble, float_unkey. change (Z.shiftl 1 63) with (2 ^ 63). change (64 - 1) with 63.
  rewrite land_top, Z.leb_antisym by lia. change (2 * 2 ^ 63) with (2 ^ 64). change (2 ^ 63 + 0x7ff0000000000000) with 0xfff0000000000000.
  destruct (Z.ltb_spec k (2 ^ 63)); [done |]. cbn [negb]. rewrite <- (lxor_top 63 (k - 2 ^ 63)) by lia.
  by replace (k - 2 ^ 63 + 2 ^ 63) with k by lia.
Qed.

(** ** Values of the types of constant size *)

Definition float_bits (x : Z) : Prop := 0 <= x < 2 ^ 32.
Definition double_bits (x : Z) : Prop := 0 <= x < 2 ^ 64.
Definition FLOAT_INFINITY : Z := 0x7f800000.
Definition DOUBLE_INFINITY : Z := 0x7ff0000000000000.

Definition scalar_ok (t : PhysicalType) (v : Scalar) : Prop :=
  match t, v with
  | BOOL, s_int z => z = 0 \/ z = 1
  | UINT8, s_int z => 0 <= z < modulus 1
  | UINT16, s_int z => 0 <= z < modulus 2
  | UINT32, s_int z => 0 <= z < modulus 4
  | UINT64, s_int z => 0 <= z < modulus 8
  | INT8, s_int z => signed_range 1 z
  | INT16, s_int z => signed_range 2 z
  | INT32, s_int z => signed_range 4 z
  | INT64, s_int z => signed_range 8 z
  | FLOAT, s_int x => float_bits x
  | DOUBLE, s_int x => double_bits x
  | INT128, s_huge upper lower => signed_range 8 upper /\ 0 <= lower < modulus 8
  | UINT128, s_huge upper lower => 0 <= upper < modulus 8 /\ 0 <= lower < modulus 8
  | INTERVAL, s_interval months days micros => signed_range 4 months /\ signed_range 4 days /\ signed_range 8 micros
  | _, _ => False
  end.

(** The order of the values: of numbers by value, NaN above infinity; of intervals
    by months, then days, then microseconds. *)
Definition scalar_compare (t : PhysicalType) (v w : Scalar) : comparison :=
  match v, w with
  | s_int x, s_int y =>
      match t with
      | FLOAT => float_compare 32 23 FLOAT_INFINITY x y
      | DOUBLE => float_compare 64 52 DOUBLE_INFINITY x y
      | _ => Z.compare x y
      end
  | s_huge u l, s_huge u' l' => Z.compare u u' ▷ Z.compare l l'
  | s_interval m d u, s_interval m' d' u' => Z.compare m m' ▷ Z.compare d d' ▷ Z.compare u u'
  | s_bytes b, s_bytes b' => byte_compare b b'
  | _, _ => Eq
  end.

(** What is left of a value once encoded and decoded: -0.0 is 0.0 and there is one NaN. *)
Definition canonical (t : PhysicalType) (v : Scalar) : Scalar :=
  match t, v with
  | FLOAT, s_int x => s_int (float_canonical 32 FLOAT_INFINITY 0x7fc00000 x)
  | DOUBLE, s_int x => s_int (float_canonical 64 DOUBLE_INFINITY 0x7ff8000000000000 x)
  | _, _ => v
  end.

Lemma w1_ok : width_ok 1. Proof. by left. Qed.
Lemma w2_ok : width_ok 2. Proof. by right; left. Qed.
Lemma w4_ok : width_ok 4. Proof. by right; right; left. Qed.
Lemma w8_ok : width_ok 8. Proof. by right; right; right. Qed.
#[export] Hint Resolve w1_ok w2_ok w4_ok w8_ok length_EncodeUnsigned length_EncodeSigned EncodeUnsigned_bytes EncodeSigned_bytes : radix.

Lemma le_store_1 z : le_store 1 z = EncodeUnsigned 1 z.
Proof. done. Qed.

Lemma EncodeData_length t v : scalar_ok t v -> length (EncodeData t v) = GetTypeIdSize t.
Proof. destruct t, v; intros H; done. Qed.

Lemma EncodeData_bytes t v : Forall is_byte (EncodeData t v).
Proof.
  destruct t, v; cbn [EncodeData]; rewrite ?le_store_1; try apply Forall_nil_2; rewrite ?Forall_app; split_and?; auto with radix.
Qed.

Lemma FLOAT_infinity_ok : 0 < FLOAT_INFINITY < 2 ^ (32 - 1) - 1. Proof. done. Qed.
Lemma DOUBLE_infinity_ok : 0 < DOUBLE_INFINITY < 2 ^ (64 - 1) - 1. Proof. done. Qed.
#[export] Hint Resolve FLOAT_infinity_ok DOUBLE_infinity_ok : radix.

Lemma EncodeFloat_range x : float_bits x -> 0 <= EncodeFloat x < modulus 4.
Proof. intros Hx. rewrite EncodeFloat_key by done. apply (float_key_range 32 23); done || auto with radix. Qed.

Lemma EncodeDouble_range x : double_bits x -> 0 <= EncodeDouble x < modulus 8.
Proof. intros Hx. rewrite EncodeDouble_key by done. apply (float_key_range 64 52); done || auto with radix. Qed.

(** The bytes of two values compare as the values. *)
Lemma EncodeData_code t : is_code (scalar_ok t) (EncodeData t) (scalar_compare t).
Proof.
  intros v w s r Hv Hw. destruct t, v, w; try done; cbn [EncodeData scalar_compare scalar_ok] in *; rewrite ?le_store_1.
  all: try (apply unsigned_code; auto with radix; cbn; lia).
  all: try (apply signed_code; auto with radix; fail).
  - rewrite unsigned_code by (auto with radix || by apply EncodeFloat_range). f_equal. rewrite !EncodeFloat_key by done.
    apply (float_key_compare 32 23); done || auto with radix.
  - rewrite unsigned_code by (auto with radix || by apply EncodeDouble_range). f_equal. rewrite !EncodeDouble_key by done.
    apply (float_key_compare 64 52); done || auto with radix.
  - destruct Hv as (? & ? & ?), Hw as (? & ? & ?). rewrite <- !app_assoc, !signed_code by auto with radix. by rewrite !then_assoc.
  - destruct Hv, Hw. rewrite <- !app_assoc, !unsigned_code by auto with radix. by rewrite !then_assoc.
  - destruct Hv, Hw. rewrite <- !app_assoc, signed_code, unsigned_code by auto with radix. by rewrite !then_assoc.
Qed.

Lemma DecodeUnsigned_Encode w v s : width_ok w -> 0 <= v < modulus w -> DecodeUnsigned w (EncodeUnsigned w v ++ s) = v.
Proof. intros Hw Hv. rewrite DecodeUnsigned_load by auto with radix. by apply EncodeUnsigned_load. Qed.

Lemma DecodeSigned_Encode w v s : width_ok w -> signed_range w v -> DecodeSigned w (EncodeSigned w v ++ s) = v.
Proof. intros Hw Hv. rewrite DecodeSigned_load by auto with radix. rewrite EncodeSigned_load by done. lia. Qed.

(** Decoding reads the value back, whatever follows it. *)
Lemma DecodeData_Encode t v s : scalar_ok t v -> DecodeData t (EncodeData t v ++ s) = canonical t v.
Proof.
  intros Hv.
  assert (forall w v l, width_ok w -> drop w (EncodeUnsigned w v ++ l) = l) as Du by (intros; apply drop_app_length'; auto with radix).
  assert (forall w v l, width_ok w -> drop w (EncodeSigned w v ++ l) = l) as Ds by (intros; apply drop_app_length'; auto with radix).
  destruct t, v; try done; cbn [EncodeData DecodeData canonical scalar_ok] in *; rewrite ?le_store_1, <- ?app_assoc.
  - by destruct Hv as [-> | ->].
  - f_equal. apply (DecodeUnsigned_Encode 1 z s); auto with radix.
  - by rewrite DecodeSigned_Encode by auto with radix.
  - by rewrite DecodeUnsigned_Encode by auto with radix.
  - by rewrite DecodeSigned_Encode by auto with radix.
  - by rewrite DecodeUnsigned_Encode by auto with radix.
  - by rewrite DecodeSigned_Encode by auto with radix.
  - by rewrite DecodeUnsigned_Encode by auto with radix.
  - by rewrite DecodeSigned_Encode by auto with radix.
  - rewrite DecodeUnsigned_Encode by (auto with radix || by apply EncodeFloat_range).
    rewrite DecodeFloat_unkey by (by apply EncodeFloat_range). rewrite EncodeFloat_key by done. f_equal.
    apply (float_unkey_key 32); done || auto with radix.
  - rewrite DecodeUnsigned_Encode by (auto with radix || by apply EncodeDouble_range).
    rewrite DecodeDouble_unkey by (by apply EncodeDouble_range). rewrite EncodeDouble_key by done. f_equal.
    apply (float_unkey_key 64); done || auto with radix.
  - destruct Hv as (? & ? & ?).
    assert (forall l, drop 8 (EncodeSigned 4 months ++ EncodeSigned 4 days ++ l) = l) as D8
      by (intros; rewrite app_assoc; apply drop_app_length'; by rewrite length_app, !length_EncodeSigned).
    by rewrite D8, Ds, !DecodeSigned_Encode by auto with radix.
  - destruct Hv. by rewrite Du, !DecodeUnsigned_Encode by auto with radix.
  - destruct Hv. by rewrite Ds, DecodeSigned_Encode, DecodeUnsigned_Encode by auto with radix.
Qed.
