(* ===== verification/CreateSortKey.v ===== *)
(** * Sort keys of rows

    src/function/scalar/create_sort_key.cpp: [CreateSortKey] encodes the rows of a set of
    columns as byte strings (or 8-byte integers) whose order is the order of the rows.
    A [Vector] is what the code reads of it through [ToUnifiedFormat]; [Undefined] is an
    access outside of an allocation. *)

From S2P Require Import Prelude Validity SortKey Radix.

(** ** Errors *)

Inductive outcome (A : Type) : Type :=
  | Done (a : A)
  | Raise (e : exn)
  | Undefined.
Arguments Done {A} a.
Arguments Raise {A} e.
Arguments Undefined {A}.

#[export] Instance outcome_ret : MRet outcome := fun A a => Done a.
#[export] Instance outcome_bind : MBind outcome :=
  fun A B f m => match m with Done a => f a | Raise e => Raise e | Undefined => Undefined end.

(** An access to an array. *)
Definition access {A} (o : option A) : outcome A := match o with Some a => Done a | None => Undefined end.

(** [for (auto &a : l)] *)
Definition run {St A} (f : St -> A -> outcome St) : St -> list A -> outcome St :=
  fix go s l := match l with [] => Done s | a :: l => s' ← f s a; go s' l end.

(** ** Types, vectors and modifiers *)

Inductive LogicalType : Set :=
  | FIXED_TYPE (p : PhysicalType)
  | VARCHAR_TYPE
  | BLOB_TYPE
  | STRUCT_TYPE (children : list LogicalType)
  | LIST_TYPE (child : LogicalType)
  | ARRAY_TYPE (child : LogicalType) (size : Z).

Definition InternalType (t : LogicalType) : PhysicalType :=
  match t with
  | FIXED_TYPE p => if TypeIsConstantSize p then p else OTHER_TYPE
  | VARCHAR_TYPE | BLOB_TYPE => VARCHAR
  | STRUCT_TYPE _ => STRUCT
  | LIST_TYPE _ => LIST
  | ARRAY_TYPE _ _ => ARRAY
  end.

Record ListEntry : Set := mkListEntry { entry_offset : Z; entry_length : Z }.

Record UnifiedVectorFormat : Type := mkFormat {
  format_sel : SelectionVector;
  format_validity : ValidityMask;
  format_data : list Scalar;
  format_entries : list ListEntry
}.

Definition empty_format : UnifiedVectorFormat := mkFormat None (ValidityMask_empty 0) [] [].

Inductive Vector : Type :=
  mkVector (vector_type : LogicalType) (vector_format : UnifiedVectorFormat) (list_size : Z) (vector_children : list Vector).

Definition vector_type (v : Vector) : LogicalType := let 'mkVector t _ _ _ := v in t.
Definition vector_format (v : Vector) : UnifiedVectorFormat := let 'mkVector _ f _ _ := v in f.
Definition GetListSize (v : Vector) : Z := let 'mkVector _ _ n _ := v in n.
Definition vector_children (v : Vector) : list Vector := let 'mkVector _ _ _ c := v in c.

Record OrderModifiers : Set := mkModifiers { order_type : OrderType; null_type : OrderByNullType }.

#[export] Instance OrderType_eq_dec : EqDecision OrderType.
Proof. solve_decision. Defined.
#[export] Instance OrderByNullType_eq_dec : EqDecision OrderByNullType.
Proof. solve_decision. Defined.

(** ** SortKeyVectorData *)

Definition NULL_FIRST_BYTE : Z := 1.
Definition NULL_LAST_BYTE : Z := 2.
Definition STRING_DELIMITER : Z := 0.
Definition LIST_DELIMITER : Z := 0.
Definition BLOB_ESCAPE_CHARACTER : Z := 1.

(** The bytes of a NULL and of a valid value. *)
Definition null_bytes (m : OrderModifiers) : Z * Z :=
  if decide (null_type m = NULLS_LAST) then (NULL_LAST_BYTE, NULL_FIRST_BYTE) else (NULL_FIRST_BYTE, NULL_LAST_BYTE).

Definition child_modifiers (m : OrderModifiers) : OrderModifiers :=
  mkModifiers (order_type m) (if decide (order_type m = ASCENDING) then NULLS_LAST else NULLS_FIRST).

Inductive SortKeyVectorData : Type :=
  mkVectorData (vd_type : LogicalType) (vd_size : Z) (vd_format : UnifiedVectorFormat)
    (child_data : list SortKeyVectorData) (null_byte valid_byte : Z).

Definition vd_type (vd : SortKeyVectorData) : LogicalType := let 'mkVectorData t _ _ _ _ _ := vd in t.
Definition vd_size (vd : SortKeyVectorData) : Z := let 'mkVectorData _ n _ _ _ _ := vd in n.
Definition vd_format (vd : SortKeyVectorData) : UnifiedVectorFormat := let 'mkVectorData _ _ f _ _ _ := vd in f.
Definition child_data (vd : SortKeyVectorData) : list SortKeyVectorData := let 'mkVectorData _ _ _ c _ _ := vd in c.
Definition null_byte (vd : SortKeyVectorData) : Z := let 'mkVectorData _ _ _ _ b _ := vd in b.
Definition valid_byte (vd : SortKeyVectorData) : Z := let 'mkVectorData _ _ _ _ _ b := vd in b.

Fixpoint SortKeyVectorData_new (input : Vector) (size : Z) (modifiers : OrderModifiers) : SortKeyVectorData :=
  match input with
  | mkVector t format list_size children =>
      let child_size :=
        match t with
        | ARRAY_TYPE _ array_size => size * array_size
        | LIST_TYPE _ => if size =? 0 then 0 else list_size
        | _ => size
        end in
      let child_data := (fun child => SortKeyVectorData_new child child_size (child_modifiers modifiers)) <$> children in
      let '(null_byte, valid_byte) := null_bytes modifiers in
      mkVectorData t size (if size =? 0 then empty_format else format)
        (match InternalType t with STRUCT | ARRAY | LIST => child_data | _ => [] end)
        null_byte valid_byte
  end.

Definition GetPhysicalType (vd : SortKeyVectorData) : PhysicalType := InternalType (vd_type vd).

Definition row_index (vd : SortKeyVectorData) (r : Z) : Z := get_index (format_sel (vd_format vd)) r.
Definition row_valid (vd : SortKeyVectorData) (idx : Z) : bool := RowIsValid (format_validity (vd_format vd)) idx.

(** ** Operators

    The template parameter [OP]: [Encode] is the bytes it writes, [Decode] the value it reads
    and the number of bytes it has read. *)

Record SortKeyOperator : Type := mkOperator {
  GetEncodeLength : Scalar -> Z;
  Encode : Scalar -> list Z;
  Decode : list Z -> bool -> option (Scalar * Z)
}.

Definition scalar_bytes (v : Scalar) : list Z := match v with s_bytes bytes => bytes | _ => [] end.

Definition not_byte (b : Z) : Z := 255 - b.

Definition ConstantDecode (t : PhysicalType) (input : list Z) (flip_bytes : bool) : option (Scalar * Z) :=
  let w := GetTypeIdSize t in
  if decide (w <= length input)%nat then
    Some (DecodeData t (if flip_bytes then not_byte <$> take w input else input), Z.of_nat w)
  else None.

Definition SortKeyConstantOperator (t : PhysicalType) : SortKeyOperator :=
  mkOperator (fun _ => Z.of_nat (GetTypeIdSize t)) (EncodeData t) (ConstantDecode t).

Definition VarcharEncode (v : Scalar) : list Z := ((fun b => (b + 1) mod 256) <$> scalar_bytes v) ++ [STRING_DELIMITER].

(** [for (pos = 0; input[pos] != string_delimiter; pos++)] *)
Fixpoint find_delimiter (delimiter : Z) (input : list Z) : option nat :=
  match input with
  | [] => None
  | b :: input => if b =? delimiter then Some 0%nat else S <$> find_delimiter delimiter input
  end.

Definition VarcharDecode (input : list Z) (flip_bytes : bool) : option (Scalar * Z) :=
  let string_delimiter := if flip_bytes then not_byte STRING_DELIMITER else STRING_DELIMITER in
  str_len ← find_delimiter string_delimiter input;
  Some (s_bytes ((fun b => ((if flip_bytes then not_byte b else b) - 1) mod 256) <$> take str_len input), Z.of_nat str_len + 1).

Definition SortKeyVarcharOperator : SortKeyOperator :=
  mkOperator (fun v => Z.of_nat (length (scalar_bytes v)) + 1) VarcharEncode VarcharDecode.

Definition BlobEncodeLength (v : Scalar) : Z :=
  let input := scalar_bytes v in
  let escaped_characters := Z.of_nat (length (List.filter (fun b => b <=? 1) input)) in
  Z.of_nat (length input) + escaped_characters + 1.

Definition escape (b : Z) : list Z := if b <=? 1 then [BLOB_ESCAPE_CHARACTER; b] else [b].

Definition BlobEncode (v : Scalar) : list Z := concat (escape <$> scalar_bytes v) ++ [STRING_DELIMITER].

(** The length of the blob and the position of the delimiter, from [pos] on. *)
Fixpoint blob_scan (string_delimiter escape_character : Z) (input : list Z) : option (nat * nat) :=
  match input with
  | [] => None
  | b :: input =>
      if b =? string_delimiter then Some (0%nat, 0%nat)
      else if b =? escape_character then
        match input with
        | [] => None
        | _ :: input => '(blob_len, pos) ← blob_scan string_delimiter escape_character input; Some (S blob_len, S (S pos))
        end
      else '(blob_len, pos) ← blob_scan string_delimiter escape_character input; Some (S blob_len, S pos)
  end.

(** [str_data] of the [pos] bytes before the delimiter. *)
Fixpoint blob_data (escape_character : Z) (flip_bytes : bool) (input : list Z) : list Z :=
  match input with
  | [] => []
  | b :: input =>
      if b =? escape_character then
        match input with
        | [] => []
        | b :: input => (if flip_bytes then not_byte b else b) :: blob_data escape_character flip_bytes input
        end
      else (if flip_bytes then not_byte b else b) :: blob_data escape_character flip_bytes input
  end.

Definition BlobDecode (input : list Z) (flip_bytes : bool) : option (Scalar * Z) :=
  let string_delimiter := if flip_bytes then not_byte STRING_DELIMITER else STRING_DELIMITER in
  let escape_character := if flip_bytes then not_byte BLOB_ESCAPE_CHARACTER else BLOB_ESCAPE_CHARACTER in
  '(blob_len, pos) ← blob_scan string_delimiter escape_character input;
  let str_data := blob_data escape_character flip_bytes (take pos input) in
  if decide (length str_data <= blob_len)%nat then Some (s_bytes str_data, Z.of_nat pos + 1) else None.

Definition SortKeyBlobOperator : SortKeyOperator := mkOperator BlobEncodeLength BlobEncode BlobDecode.

(** The operator of the [switch] over a type that is not nested. *)
Definition type_operator (t : LogicalType) : option SortKeyOperator :=
  match t with
  | FIXED_TYPE p => if TypeIsConstantSize p then Some (SortKeyConstantOperator p) else None
  | VARCHAR_TYPE => Some SortKeyVarcharOperator
  | BLOB_TYPE => Some SortKeyBlobOperator
  | _ => None
  end.

(** ** Chunks *)

Record SortKeyChunk : Set := mkChunk { chunk_start : Z; chunk_end : Z; result_index : option Z }.

Definition has_result_index (chunk : SortKeyChunk) : bool := match result_index chunk with Some _ => true | None => false end.
Definition GetResultIndex (chunk : SortKeyChunk) (r : Z) : Z := default r (result_index chunk).
Definition rows_of_chunk (chunk : SortKeyChunk) : list Z := zrange (chunk_start chunk) (chunk_end chunk).

(** [OP::GetListEntry] of lists and of arrays. *)
Definition GetListEntry (vd : SortKeyVectorData) (idx : Z) : option ListEntry :=
  match vd_type vd with
  | ARRAY_TYPE _ array_size => Some (mkListEntry (array_size * idx) array_size)
  | _ => zload (format_entries (vd_format vd)) idx
  end.

Definition IsArray (vd : SortKeyVectorData) : bool := match vd_type vd with ARRAY_TYPE _ _ => true | _ => false end.

Definition entry_chunk (e : ListEntry) (result : Z) : SortKeyChunk :=
  mkChunk (entry_offset e) (entry_offset e + entry_length e) (Some result).

(** ** Lengths *)

Record SortKeyLengthInfo : Type := mkLengthInfo { constant_length : Z; variable_lengths : list Z }.

Definition SortKeyLengthInfo_new (size : Z) : SortKeyLengthInfo := mkLengthInfo 0 (replicate (Z.to_nat size) 0).

(** [variable_lengths[result_index] += n] *)
Definition add_length (lengths : list Z) (result_index n : Z) : outcome (list Z) :=
  access (old ← zload lengths result_index; zstore lengths result_index (old + n)).

Definition TemplatedGetSortKeyLength (op : SortKeyOperator) (vd : SortKeyVectorData) (chunk : SortKeyChunk) (result : list Z)
    : outcome (list Z) :=
  run (fun result r =>
    let idx := row_index vd r in
    let result_index := GetResultIndex chunk r in
    result ← add_length result result_index 1;
    if negb (row_valid vd idx) then Done result
    else value ← access (zload (format_data (vd_format vd)) idx); add_length result result_index (GetEncodeLength op value))
    result (rows_of_chunk chunk).

(** [GetSortKeyLengthStruct] and [GetSortKeyLengthList], by the function [recurse] for the children. *)
Definition GetSortKeyLengthStruct (recurse : SortKeyVectorData -> SortKeyChunk -> list Z -> outcome (list Z))
    (children : list SortKeyVectorData) (chunk : SortKeyChunk) (result : list Z) : outcome (list Z) :=
  result ← run (fun result r => add_length result (GetResultIndex chunk r) 1) result (rows_of_chunk chunk);
  run (fun result child => recurse child chunk result) result children.

Definition GetSortKeyLengthList (recurse : SortKeyChunk -> list Z -> outcome (list Z))
    (vd : SortKeyVectorData) (chunk : SortKeyChunk) (result : list Z) : outcome (list Z) :=
  run (fun result r =>
    let idx := row_index vd r in
    let result_index := GetResultIndex chunk r in
    result ← add_length result result_index 1;
    if negb (row_valid vd idx) && negb (IsArray vd) then Done result
    else
      list_entry ← access (GetListEntry vd idx);
      result ← add_length result result_index 1;
      if 0 <? entry_length list_entry then recurse (entry_chunk list_entry result_index) result else Done result)
    result (rows_of_chunk chunk).

Fixpoint GetSortKeyLengthRecursive (vd : SortKeyVectorData) (chunk : SortKeyChunk) (result : list Z) : outcome (list Z) :=
  match type_operator (vd_type vd) with
  | Some op => TemplatedGetSortKeyLength op vd chunk result
  | None =>
      match vd_type vd with
      | STRUCT_TYPE _ => GetSortKeyLengthStruct GetSortKeyLengthRecursive (child_data vd) chunk result
      | LIST_TYPE _ | ARRAY_TYPE _ _ =>
          match child_data vd with
          | child :: _ => GetSortKeyLengthList (GetSortKeyLengthRecursive child) vd chunk result
          | [] => Undefined
          end
      | _ => Raise NotImplementedException
      end
  end.

Definition GetSortKeyLength (vd : SortKeyVectorData) (result : SortKeyLengthInfo) : outcome SortKeyLengthInfo :=
  let physical_type := GetPhysicalType vd in
  if TypeIsConstantSize physical_type then
    Done (mkLengthInfo (constant_length result + 1 + Z.of_nat (GetTypeIdSize physical_type)) (variable_lengths result))
  else
    lengths ← GetSortKeyLengthRecursive vd (mkChunk 0 (vd_size vd) None) (variable_lengths result);
    Done (mkLengthInfo (constant_length result) lengths).

(** ** Construction *)

(** [result_data[r]] and [offsets[r]]. *)
Record SortKeyRow : Type := mkRow { row_data : list Z; row_offset : Z }.

Definition with_row (rows : list SortKeyRow) (result_index : Z) (f : SortKeyRow -> option SortKeyRow) : outcome (list SortKeyRow) :=
  access (row ← zload rows result_index; row' ← f row; zstore rows result_index row').

(** [result_ptr[offset++] = b] *)
Definition put_byte (row : SortKeyRow) (b : Z) : option SortKeyRow :=
  data ← zstore (row_data row) (row_offset row) b;
  Some (mkRow data (row_offset row + 1)).

(** [Encode(result_ptr + offset, ...)] *)
Fixpoint store_bytes (data : list Z) (offset : Z) (bytes : list Z) : option (list Z) :=
  match bytes with
  | [] => Some data
  | b :: bytes => data ← zstore data offset b; store_bytes data (offset + 1) bytes
  end.

(** [for (b = from; b < to; b++) result_ptr[b] = ~result_ptr[b]] *)
Definition flip_range (data : list Z) (from to : Z) : option (list Z) :=
  ofold (fun data b => x ← zload data b; zstore data b (not_byte x)) data (zrange from to).

Definition put_encoded (row : SortKeyRow) (bytes : list Z) (flip_bytes : bool) : option SortKeyRow :=
  let offset := row_offset row in
  let encode_len := Z.of_nat (length bytes) in
  data ← store_bytes (row_data row) offset bytes;
  data ← (if flip_bytes then flip_range data offset (offset + encode_len) else Some data);
  Some (mkRow data (offset + encode_len)).

Definition TemplatedConstructSortKeyInternal (op : SortKeyOperator) (ALL_VALID HAS_RESULT_INDEX_OR_SEL : bool)
    (vd : SortKeyVectorData) (chunk : SortKeyChunk) (flip_bytes : bool) (rows : list SortKeyRow) : outcome (list SortKeyRow) :=
  run (fun rows r =>
    let result_index := if HAS_RESULT_INDEX_OR_SEL then GetResultIndex chunk r else r in
    let idx := if HAS_RESULT_INDEX_OR_SEL then row_index vd r else r in
    if negb ALL_VALID && negb (row_valid vd idx) then
      with_row rows result_index (fun row => put_byte row (null_byte vd))
    else
      value ← access (zload (format_data (vd_format vd)) idx);
      with_row rows result_index (fun row =>
        row ← put_byte row (valid_byte vd);
        put_encoded row (Encode op value) flip_bytes))
    rows (rows_of_chunk chunk).

Definition TemplatedConstructSortKey (op : SortKeyOperator) (vd : SortKeyVectorData) (chunk : SortKeyChunk)
    (flip_bytes : bool) (rows : list SortKeyRow) : outcome (list SortKeyRow) :=
  if chunk_start chunk =? chunk_end chunk then Done rows
  else
    let sel_is_set := match format_sel (vd_format vd) with Some _ => true | None => false end in
    TemplatedConstructSortKeyInternal op (AllValid (format_validity (vd_format vd)))
      (negb (negb (has_result_index chunk) && negb sel_is_set)) vd chunk flip_bytes rows.

Definition ConstructSortKeyStruct
    (recurse : SortKeyVectorData -> SortKeyChunk -> list SortKeyRow -> outcome (list SortKeyRow))
    (vd : SortKeyVectorData) (children : list SortKeyVectorData) (chunk : SortKeyChunk) (rows : list SortKeyRow)
    : outcome (list SortKeyRow) :=
  let list_of_structs := has_result_index chunk in
  rows ← run (fun rows r =>
    let result_index := GetResultIndex chunk r in
    let idx := row_index vd r in
    rows ← with_row rows result_index (fun row => put_byte row (if negb (row_valid vd idx) then null_byte vd else valid_byte vd));
    if list_of_structs then
      run (fun rows child => recurse child (mkChunk r (r + 1) (Some result_index)) rows) rows children
    else Done rows) rows (rows_of_chunk chunk);
  if negb list_of_structs then run (fun rows child => recurse child chunk rows) rows children else Done rows.

Definition ConstructSortKeyList (recurse : SortKeyChunk -> list SortKeyRow -> outcome (list SortKeyRow))
    (vd : SortKeyVectorData) (chunk : SortKeyChunk) (flip_bytes : bool) (rows : list SortKeyRow) : outcome (list SortKeyRow) :=
  run (fun rows r =>
    let result_index := GetResultIndex chunk r in
    let idx := row_index vd r in
    let valid := row_valid vd idx in
    rows ← with_row rows result_index (fun row => put_byte row (if negb valid then null_byte vd else valid_byte vd));
    if negb valid && negb (IsArray vd) then Done rows
    else
      list_entry ← access (GetListEntry vd idx);
      rows ← (if 0 <? entry_length list_entry then recurse (entry_chunk list_entry result_index) rows else Done rows);
      with_row rows result_index (fun row => put_byte row (if flip_bytes then not_byte LIST_DELIMITER else LIST_DELIMITER)))
    rows (rows_of_chunk chunk).

Fixpoint ConstructSortKeyRecursive (flip_bytes : bool) (vd : SortKeyVectorData) (chunk : SortKeyChunk)
    (rows : list SortKeyRow) : outcome (list SortKeyRow) :=
  match type_operator (vd_type vd) with
  | Some op => TemplatedConstructSortKey op vd chunk flip_bytes rows
  | None =>
      match vd_type vd with
      | STRUCT_TYPE _ => ConstructSortKeyStruct (ConstructSortKeyRecursive flip_bytes) vd (child_data vd) chunk rows
      | LIST_TYPE _ | ARRAY_TYPE _ _ =>
          match child_data vd with
          | child :: _ => ConstructSortKeyList (ConstructSortKeyRecursive flip_bytes child) vd chunk flip_bytes rows
          | [] => Undefined
          end
      | _ => Raise NotImplementedException
      end
  end.

Definition flips (m : OrderModifiers) : bool := bool_decide (order_type m = DESCENDING).

Definition ConstructSortKey (vd : SortKeyVectorData) (modifiers : OrderModifiers) (rows : list SortKeyRow) : outcome (list SortKeyRow) :=
  ConstructSortKeyRecursive (flips modifiers) vd (mkChunk 0 (vd_size vd) None) rows.

(** ** Result vectors *)

(** The type of the result: [BLOB], [BIGINT] or another. *)
Inductive KeyType : Set := KEY_BLOB | KEY_BIGINT | KEY_OTHER.
Inductive SortKeys : Set := Blobs (keys : list (list Z)) | Bigints (keys : list Z).

(** The bytes of a string that [EmptyString] has allocated are not initialised: [junk]. *)
Definition PrepareSortData (junk : Z) (type : KeyType) (size : Z) (key_lengths : SortKeyLengthInfo) : outcome (list SortKeyRow) :=
  match type with
  | KEY_BLOB =>
      run (fun rows r =>
        variable_length ← access (zload (variable_lengths key_lengths) r);
        let blob_size := variable_length + constant_length key_lengths in
        Done (rows ++ [mkRow (replicate (Z.to_nat blob_size) junk) 0])) [] (zrange 0 size)
  | KEY_BIGINT => run (fun rows r => Done (rows ++ [mkRow (le_store 8 0) 0])) [] (zrange 0 size)
  | KEY_OTHER => Raise InternalException
  end.

Definition FinalizeSortData (type : KeyType) (size : Z) (rows : list SortKeyRow) : outcome SortKeys :=
  match type with
  | KEY_BLOB =>
      keys ← run (fun keys r =>
        row ← access (zload rows r);
        if 2 ^ 32 <=? row_offset row then Raise InternalException
        else Done (keys ++ [take (Z.to_nat (row_offset row)) (row_data row)])) [] (zrange 0 size);
      Done (Blobs keys)
  | KEY_BIGINT =>
      keys ← run (fun keys r =>
        row ← access (zload rows r);
        Done (keys ++ [i64 (BSwap (le_load (row_data row)))])) [] (zrange 0 size);
      Done (Bigints keys)
  | KEY_OTHER => Raise InternalException
  end.

Definition CreateSortKeyInternal (junk : Z) (sort_key_data : list SortKeyVectorData) (modifiers : list OrderModifiers)
    (type : KeyType) (row_count : Z) : outcome SortKeys :=
  key_lengths ← run (fun key_lengths vd => GetSortKeyLength vd key_lengths) (SortKeyLengthInfo_new row_count) sort_key_data;
  rows ← PrepareSortData junk type row_count key_lengths;
  rows ← run (fun rows '(vd, m) => ConstructSortKey vd m rows) rows (zip sort_key_data modifiers);
  FinalizeSortData type row_count rows.

(** [CreateSortKeyHelpers::CreateSortKey] of the columns of a chunk. *)
Definition CreateSortKey (junk : Z) (input : list Vector) (input_size : Z) (modifiers : list OrderModifiers) (type : KeyType)
    : outcome SortKeys :=
  CreateSortKeyInternal junk (zip_with (fun v m => SortKeyVectorData_new v input_size m) input modifiers) modifiers type input_size.

(** [CreateSortKeyWithValidity]: the keys and the validity of the result. *)
Definition CreateSortKeyWithValidity (junk : Z) (input : Vector) (count : Z) (modifiers : OrderModifiers) (type : KeyType)
    (validity : ValidityMask) : outcome (SortKeys * ValidityMask) :=
  keys ← CreateSortKey junk [input] count [modifiers] type;
  validity ← run (fun validity i =>
    let idx := get_index (format_sel (vector_format input)) i in
    if negb (RowIsValid (format_validity (vector_format input)) idx) then access (SetInvalid validity i) else Done validity)
    validity (zrange 0 count);
  Done (keys, validity).

(** The type of the keys that [CreateSortKeyBind] chooses. *)
Definition constant_key_size (types : list LogicalType) : bool * Z :=
  foldl (fun '(all_constant, constant_size) t =>
    let physical_type := InternalType t in
    if negb (TypeIsConstantSize physical_type) then (false, constant_size)
    else (all_constant, constant_size + (Z.of_nat (GetTypeIdSize physical_type) + 1))) (true, 0) types.

Definition bind_key_type (types : list LogicalType) : KeyType :=
  let '(all_constant, constant_size) := constant_key_size types in
  if all_constant && (constant_size <=? 8) then KEY_BIGINT else KEY_BLOB.

(** The check of [DecodeSortKeyBind]. *)
Definition decode_bind_ok (type : KeyType) (types : list LogicalType) : bool :=
  let '(all_constant, constant_size) := constant_key_size types in
  match type with
  | KEY_BIGINT => negb (negb all_constant || (8 <? constant_size))
  | KEY_BLOB => negb (all_constant && (constant_size <=? 8))
  | KEY_OTHER => false
  end.

Definition CreateSortKeyFunction (junk : Z) (args : list Vector) (args_size : Z) (modifiers : list OrderModifiers) : outcome SortKeys :=
  CreateSortKeyInternal junk (zip_with (fun v m => SortKeyVectorData_new v args_size m) args modifiers) modifiers
    (bind_key_type (vector_type <$> args)) args_size.
