(* ===== verification/SortKeyOperators.v ===== *)
(** * The operators of the sort keys

    The three encodings of create_sort_key.cpp (constants, strings, blobs) satisfy one
    interface, [OperatorLaws]: the layout, the order and the decoding of the keys are
    proved from it. *)

From S2P Require Import Prelude Validity SortKey Radix CreateSortKey.

(** ** What the operators promise

    [OperatorLaws op ok cmp canonical]: on the values that satisfy [ok], the length is the
    length of the encoding, the encodings compare as [cmp] whatever follows them, and
    decoding reads the canonical value back, of flipped bytes too. *)

Definition flip_if (flip_bytes : bool) (bytes : list Z) : list Z := if flip_bytes then not_byte <$> bytes else bytes.

Class OperatorLaws (op : SortKeyOperator) (ok : Scalar -> Prop) (cmp : Scalar -> Scalar -> comparison)
    (canonical_value : Scalar -> Scalar) : Prop := {
  encode_length v : ok v -> GetEncodeLength op v = Z.of_nat (length (Encode op v));
  encode_ne v : ok v -> Encode op v <> [];
  encode_bytes v : ok v -> Forall is_byte (Encode op v);
  encode_code : is_code ok (Encode op) cmp;
  decode_encode v flip_bytes s : ok v ->
    Decode op (flip_if flip_bytes (Encode op v) ++ s) flip_bytes = Some (canonical_value v, Z.of_nat (length (Encode op v)))
}.

Lemma not_byte_involutive b : not_byte (not_byte b) = b.
Proof. unfold not_byte. lia. Qed.

Lemma flip_if_length f bytes : length (flip_if f bytes) = length bytes.
Proof. destruct f; [apply length_fmap | done]. Qed.

Lemma not_bytes_involutive (l : list Z) : not_byte <$> (not_byte <$> l) = l.
Proof. rewrite <- list_fmap_compose. rewrite <- (list_fmap_id l) at 2. apply list_fmap_ext. intros i b _. apply not_byte_involutive. Qed.

(** The bytes of the key turned around, as [code_flip] has them. *)
Lemma flip_if_code {A} (P : A -> Prop) enc cmp (f : bool) :
  is_code P enc cmp -> is_code P (fun a => flip_if f (enc a)) (fun a b => if f then CompOpp (cmp a b) else cmp a b).
Proof. intros H. destruct f; [| done]. by apply code_flip. Qed.

(** *** Types of constant size *)

#[export] Instance constant_laws p :
  OperatorLaws (SortKeyConstantOperator p) (scalar_ok p) (scalar_compare p) (canonical p).
Proof.
  split.
  - intros v Hv. cbn. by rewrite EncodeData_length.
  - intros v Hv E%(f_equal length). cbn in E. rewrite EncodeData_length in E by done. by destruct p, v.
  - intros v _. apply EncodeData_bytes.
  - apply EncodeData_code.
  - intros v f s Hv. cbn. unfold ConstantDecode. rewrite EncodeData_length by done.
    rewrite decide_True by (rewrite length_app, flip_if_length, EncodeData_length by done; lia). do 2 f_equal. destruct f; cbn [flip_if].
    + rewrite take_app_length' by (rewrite length_fmap; by rewrite EncodeData_length). rewrite not_bytes_involutive.
      rewrite <- (app_nil_r (EncodeData p v)). by apply DecodeData_Encode.
    + by apply DecodeData_Encode.
Qed.

(** *** Strings *)

Definition string_byte (b : Z) : Prop := 0 <= b < 255.

Definition varchar_ok (v : Scalar) : Prop := exists bytes, v = s_bytes bytes /\ Forall string_byte bytes.
Definition blob_ok (v : Scalar) : Prop := exists bytes, v = s_bytes bytes /\ Forall is_byte bytes.
Definition bytes_compare (v w : Scalar) : comparison := byte_compare (scalar_bytes v) (scalar_bytes w).

Lemma varchar_map bytes : Forall string_byte bytes -> (fun b => (b + 1) mod 256) <$> bytes = (fun b => b + 1) <$> bytes.
Proof. induction 1 as [| b l Hb Hl IH]; [done |]. cbn. rewrite IH. unfold string_byte in Hb. by rewrite Z.mod_small by lia. Qed.

Lemma varchar_code l r s t :
  Forall string_byte l -> Forall string_byte r ->
  byte_compare (((fun b => b + 1) <$> l) ++ STRING_DELIMITER :: s) (((fun b => b + 1) <$> r) ++ STRING_DELIMITER :: t) =
    byte_compare l r ▷ byte_compare s t.
Proof.
  intros Hl. revert r. induction Hl as [| x l Hx Hl IH]; intros r Hr; destruct Hr as [| y r Hy Hr]; unfold string_byte in *; cbn -[Z.compare Z.add].
  - done.
  - unfold STRING_DELIMITER. by rewrite (proj2 (Z.compare_lt_iff 0 (y + 1))) by lia.
  - unfold STRING_DELIMITER. by rewrite (proj2 (Z.compare_gt_iff (x + 1) 0)) by lia.
  - rewrite then_assoc, <- (IH r Hr). f_equal. destruct (Z.compare_spec x y), (Z.compare_spec (x + 1) (y + 1)); done || lia.
Qed.

Lemma find_delimiter_app d l s : Forall (fun b => b <> d) l -> find_delimiter d (l ++ d :: s) = Some (length l).
Proof.
  induction 1 as [| b l Hb Hl IH]; cbn; [by rewrite Z.eqb_refl |]. rewrite (proj2 (Z.eqb_neq _ _)) by done. by rewrite IH.
Qed.

#[export] Instance varchar_laws : OperatorLaws SortKeyVarcharOperator varchar_ok bytes_compare id.
Proof.
  split.
  - intros v (bytes & -> & Hb). cbn. unfold VarcharEncode. rewrite length_app, length_fmap. cbn. lia.
  - intros v _. cbn. unfold VarcharEncode. by destruct (_ <$> _).
  - intros v (bytes & -> & Hb). cbn. unfold VarcharEncode. apply Forall_app_2; [| by repeat constructor].
    apply Forall_fmap, Forall_true. intros b. unfold compose, is_byte. zdm.
  - intros v w s t (l & -> & Hl) (r & -> & Hr). cbn [SortKeyVarcharOperator Encode]. unfold VarcharEncode, bytes_compare. cbn [scalar_bytes].
    rewrite !varchar_map, <- !app_assoc by done. by apply varchar_code.
  - intros v f s (bytes & -> & Hb). cbn [SortKeyVarcharOperator Encode Decode]. unfold VarcharEncode, VarcharDecode. cbn [scalar_bytes].
    rewrite varchar_map by done. rewrite length_app, length_fmap. cbn [length].
    set (enc := flip_if f ((fun b => b + 1) <$> bytes)). set (d := if f then _ else STRING_DELIMITER).
    assert (flip_if f (((fun b => b + 1) <$> bytes) ++ [STRING_DELIMITER]) ++ s = enc ++ d :: s) as ->.
    { unfold enc, d. destruct f; cbn [flip_if]; rewrite ?fmap_app, <- app_assoc; done. }
    assert (length enc = length bytes) as Hlen by (unfold enc; by rewrite flip_if_length, length_fmap).
    rewrite find_delimiter_app; cbn [mbind option_bind].
    + rewrite take_app_length', Hlen by done. do 2 f_equal; [| lia]. unfold id. f_equal. unfold enc. clear - Hb.
      induction Hb as [| b l Hb Hl IH]; [by destruct f |]. unfold string_byte in Hb. destruct f; cbn [flip_if fmap list_fmap] in *; rewrite IH; f_equal.
      * rewrite not_byte_involutive. rewrite Z.mod_small; lia.
      * rewrite Z.mod_small; lia.
    + unfold enc, d. clear - Hb. unfold STRING_DELIMITER. destruct f; cbn [flip_if]; rewrite ?Forall_fmap; apply (Forall_impl _ _ _ Hb);
        intros b; unfold string_byte, compose, not_byte; lia.
Qed.

(** *** Blobs *)

Lemma escape_eq b : escape b = if b <=? 1 then [1; b] else [b].
Proof. done. Qed.

Lemma escape_length b : length (escape b) = if b <=? 1 then 2%nat else 1%nat.
Proof. unfold escape. by destruct (b <=? 1). Qed.

Lemma escaped_length l :
  Z.of_nat (length (concat (escape <$> l))) = Z.of_nat (length l) + Z.of_nat (length (List.filter (fun b => b <=? 1) l)).
Proof.
  induction l as [| b l IH]; [done |]. cbn [fmap list_fmap concat]. rewrite length_app, escape_length. cbn [List.filter length].
  destruct (b <=? 1); cbn [length]; lia.
Qed.

Lemma blob_code l r s t :
  Forall is_byte l -> Forall is_byte r ->
  byte_compare (concat (escape <$> l) ++ STRING_DELIMITER :: s) (concat (escape <$> r) ++ STRING_DELIMITER :: t) =
    byte_compare l r ▷ byte_compare s t.
Proof.
  intros Hl. revert r. induction Hl as [| x l Hx Hl IH]; intros r Hr; destruct Hr as [| y r Hy Hr]; unfold is_byte in *; cbn [fmap list_fmap concat byte_compare].
  - done.
  - unfold STRING_DELIMITER. rewrite (escape_eq y). destruct (Z.leb_spec y 1); cbn -[Z.compare]; [done |].
    by rewrite (proj2 (Z.compare_lt_iff 0 y)) by lia.
  - unfold STRING_DELIMITER. rewrite (escape_eq x). destruct (Z.leb_spec x 1); cbn -[Z.compare]; [done |].
    by rewrite (proj2 (Z.compare_gt_iff x 0)) by lia.
  - rewrite <- !app_assoc, then_assoc, (escape_eq x), (escape_eq y).
    destruct (Z.leb_spec x 1), (Z.leb_spec y 1); cbn -[Z.compare]; rewrite <- ?(IH r Hr); try done.
    + rewrite (proj2 (Z.compare_lt_iff 1 y)), (proj2 (Z.compare_lt_iff x y)) by lia. done.
    + rewrite (proj2 (Z.compare_gt_iff x 1)), (proj2 (Z.compare_gt_iff x y)) by lia. done.
Qed.

Lemma blob_scan_app d e (f : bool) l s :
  d <> e -> (d = if f then 255 else 0) -> (e = if f then 254 else 1) -> Forall is_byte l ->
  blob_scan d e (flip_if f (concat (escape <$> l)) ++ d :: s) = Some (length l, length (concat (escape <$> l))).
Proof.
  intros Hde Hd He. induction 1 as [| b l Hb Hl IH]; [destruct f; cbn; by rewrite Z.eqb_refl |].
  cbn [fmap list_fmap concat]. unfold is_byte in Hb.
  assert (flip_if f (escape b ++ concat (escape <$> l)) ++ d :: s = flip_if f (escape b) ++ flip_if f (concat (escape <$> l)) ++ d :: s) as ->.
  { destruct f; cbn [flip_if]; by rewrite ?fmap_app, <- app_assoc. }
  rewrite length_app, escape_length, (escape_eq b). destruct (Z.leb_spec b 1); cbn [length].
  - assert (flip_if f [1; b] = [e; if f then not_byte b else b]) as -> by (by destruct f; rewrite He). cbn [app blob_scan].
    rewrite (proj2 (Z.eqb_neq e d)), Z.eqb_refl by done. by rewrite IH.
  - assert (flip_if f [b] = [if f then not_byte b else b]) as -> by (by destruct f). cbn [app blob_scan].
    rewrite (proj2 (Z.eqb_neq _ d)), (proj2 (Z.eqb_neq _ e)) by (destruct f; unfold not_byte; lia). by rewrite IH.
Qed.

Lemma blob_data_escape e (f : bool) l :
  (e = if f then 254 else 1) -> Forall is_byte l -> blob_data e f (flip_if f (concat (escape <$> l))) = l.
Proof.
  intros He. induction 1 as [| b l Hb Hl IH]; [by destruct f |]. cbn [fmap list_fmap concat]. unfold is_byte in Hb.
  assert (flip_if f (escape b ++ concat (escape <$> l)) = flip_if f (escape b) ++ flip_if f (concat (escape <$> l))) as ->.
  { destruct f; cbn [flip_if]; by rewrite ?fmap_app. }
  rewrite (escape_eq b). destruct (Z.leb_spec b 1).
  - assert (flip_if f [1; b] = [e; if f then not_byte b else b]) as -> by (by destruct f; rewrite He). cbn [app blob_data].
    rewrite Z.eqb_refl, IH. f_equal. destruct f; [apply not_byte_involutive | done].
  - assert (flip_if f [b] = [if f then not_byte b else b]) as -> by (by destruct f). cbn [app blob_data].
    rewrite (proj2 (Z.eqb_neq _ e)), IH by (destruct f; unfold not_byte; lia). f_equal. destruct f; [apply not_byte_involutive | done].
Qed.

#[export] Instance blob_laws : OperatorLaws SortKeyBlobOperator blob_ok bytes_compare id.
Proof.
  split.
  - intros v (bytes & -> & Hb). cbn. unfold BlobEncodeLength, BlobEncode. cbn [scalar_bytes]. rewrite length_app. cbn [length].
    pose proof (escaped_length bytes). lia.
  - intros v _. cbn. unfold BlobEncode. by destruct (concat _).
  - intros v (bytes & -> & Hb). cbn. unfold BlobEncode. apply Forall_app_2; [| by repeat constructor]. cbn [scalar_bytes].
    apply Forall_concat, Forall_fmap, (Forall_impl _ _ _ Hb). intros b Hx. unfold compose. rewrite escape_eq.
    destruct (b <=? 1); repeat (apply Forall_cons_2; [done |]); apply Forall_nil_2.
  - intros v w s t (l & -> & Hl) (r & -> & Hr). cbn [SortKeyBlobOperator Encode]. unfold BlobEncode, bytes_compare. cbn [scalar_bytes].
    rewrite <- !app_assoc. by apply blob_code.
  - intros v f s (bytes & -> & Hb). cbn [SortKeyBlobOperator Encode Decode]. unfold BlobEncode, BlobDecode. cbn [scalar_bytes].
    set (d := if f then not_byte STRING_DELIMITER else STRING_DELIMITER). set (e := if f then not_byte BLOB_ESCAPE_CHARACTER else BLOB_ESCAPE_CHARACTER).
    assert (flip_if f (concat (escape <$> bytes) ++ [STRING_DELIMITER]) ++ s = flip_if f (concat (escape <$> bytes)) ++ d :: s) as ->.
    { unfold d. destruct f; cbn [flip_if]; rewrite ?fmap_app, <- app_assoc; done. }
    rewrite (blob_scan_app d e f) by (done || by destruct f). cbn [mbind option_bind].
    rewrite take_app_length' by (by rewrite flip_if_length). rewrite blob_data_escape by (done || by destruct f).
    rewrite decide_True by done. do 3 f_equal. rewrite length_app. cbn. lia.
Qed.

(** *** The operator of a type *)

Definition type_ok (t : LogicalType) : Scalar -> Prop :=
  match t with FIXED_TYPE p => scalar_ok p | VARCHAR_TYPE => varchar_ok | BLOB_TYPE => blob_ok | _ => fun _ => False end.

Definition type_compare (t : LogicalType) : Scalar -> Scalar -> comparison :=
  match t with FIXED_TYPE p => scalar_compare p | _ => bytes_compare end.

Definition type_canonical (t : LogicalType) : Scalar -> Scalar :=
  match t with FIXED_TYPE p => canonical p | _ => id end.

Lemma type_operator_laws t op : type_operator t = Some op -> OperatorLaws op (type_ok t) (type_compare t) (type_canonical t).
Proof.
  destruct t; cbn; try done; [destruct (TypeIsConstantSize p); [| done] | |]; intros [= <-];
    [apply constant_laws | apply varchar_laws | apply blob_laws].
Qed.
