(* ===== verification/SortKeyLayout.v ===== *)
(** * The bytes of the sort keys

    The vectorised construction of create_sort_key.cpp writes, in each row, the bytes
    [encode_row] of the values of the row, and the lengths computed beforehand suffice:
    every loop is described by what it appends to each row. *)

From S2P Require Import Prelude Validity SortKey Radix CreateSortKey SortKeyOperators.

(** ** Loops that append to the rows

    A step that appends [w i] to each row [i], of the lengths or of the bytes. *)

Class AppendRow (R : Type) : Type := {
  row_app : R -> list Z -> R;
  row_room : R -> list Z -> Prop;
  row_app_nil r : row_app r [] = r;
  row_app_app r a b : row_room r (a ++ b) -> row_app (row_app r a) b = row_app r (a ++ b);
  row_room_l r a b : row_room r (a ++ b) -> row_room r a;
  row_room_r r a b : row_room r (a ++ b) -> row_room (row_app r a) b
}.

Section append.
Context {R : Type} `{AppendRow R}.
Implicit Types (rows : list R) (w : Z -> list Z).

Definition extend w rows : list R := imap (fun i row => row_app row (w (Z.of_nat i))) rows.
Definition fits w rows : Prop := forall i, w i <> [] -> exists row, zload rows i = Some row /\ row_room row (w i).
Definition appends (f : list R -> outcome (list R)) w : Prop := forall rows, fits w rows -> f rows = Done (extend w rows).

Lemma lookup_extend w rows (i : nat) : extend w rows !! i = (fun row => row_app row (w (Z.of_nat i))) <$> rows !! i.
Proof. apply list_lookup_imap. Qed.

Lemma length_extend w rows : length (extend w rows) = length rows.
Proof. apply length_imap. Qed.

Lemma zload_nat {A} (l : list A) (i : nat) : zload l (Z.of_nat i) = l !! i.
Proof. unfold zload. rewrite decide_True by lia. by rewrite Nat2Z.id. Qed.

Lemma extend_ext w w' rows : (forall i, w i = w' i) -> extend w rows = extend w' rows.
Proof. intros E. apply list_eq. intros i. rewrite !lookup_extend. by rewrite E. Qed.

Lemma fits_ext w w' rows : (forall i, w i = w' i) -> fits w rows -> fits w' rows.
Proof. intros E Hf i Hi. rewrite <- E in *. by apply Hf. Qed.

Lemma extend_app w w' rows :
  fits (fun i => w i ++ w' i) rows ->
  fits w rows /\ fits w' (extend w rows) /\ extend w' (extend w rows) = extend (fun i => w i ++ w' i) rows.
Proof.
  intros Hf. split_and!.
  - intros i Hi. destruct (Hf i) as (row & Hl & Hr); [by destruct (w i) |]. exists row. split; [done |]. by eapply row_room_l.
  - intros i Hi. destruct (Hf i) as (row & Hl & Hr); [by destruct (w i), (w' i) |].
    exists (row_app row (w i)). split; [| by apply row_room_r].
    unfold zload in *. case_decide; [| done]. rewrite lookup_extend, Hl. cbn. by rewrite Z2Nat.id by lia.
  - apply list_eq. intros i. rewrite !lookup_extend. destruct (rows !! i) as [row |] eqn:E; [| done]. cbn. f_equal.
    destruct (decide (w (Z.of_nat i) ++ w' (Z.of_nat i) = [])) as [E' | E'].
    + apply app_eq_nil in E' as [-> ->]. by rewrite !row_app_nil.
    + destruct (Hf _ E') as (row' & Hl & Hr). rewrite zload_nat, E in Hl. injection Hl as <-. by apply row_app_app.
Qed.

Lemma appends_ext f f' w w' : (forall i, w i = w' i) -> (forall rows, f rows = f' rows) -> appends f w -> appends f' w'.
Proof. intros E Ef Ha rows Hf. rewrite <- Ef, (extend_ext w' w) by done. apply Ha. by apply (fits_ext w'). Qed.

Lemma appends_done w : (forall i, w i = []) -> appends Done w.
Proof.
  intros E rows Hf. f_equal. apply list_eq. intros i. rewrite lookup_extend, E. destruct (rows !! i); [| done].
  cbn. by rewrite row_app_nil.
Qed.

Lemma appends_bind f g w w' : appends f w -> appends g w' -> appends (fun rows => f rows ≫= g) (fun i => w i ++ w' i).
Proof. intros Hf Hg rows (Hw & Hw' & <-)%extend_app. rewrite Hf by done. by apply Hg. Qed.

Lemma appends_bind_done f w : appends f w -> appends (fun rows => f rows ≫= fun rows => Done rows) w.
Proof. intros Hf. eapply appends_ext; [done | | exact Hf]. intros rows. by destruct (f rows). Qed.

Lemma appends_run {A} (f : list R -> A -> outcome (list R)) (w : A -> Z -> list Z) l :
  (forall a, a ∈ l -> appends (fun rows => f rows a) (w a)) ->
  appends (fun rows => run f rows l) (fun i => concat ((fun a => w a i) <$> l)).
Proof.
  induction l as [| a l IH]; intros Hl; [by apply appends_done |].
  apply (appends_bind (fun rows => f rows a) (fun rows => run f rows l)); [apply Hl; by left | apply IH; intros; apply Hl; by right].
Qed.

(** What the values [enc r] of the rows of a chunk append. *)
Definition chunk_write (chunk : SortKeyChunk) (enc : Z -> list Z) (i : Z) : list Z :=
  match result_index chunk with
  | Some k => if i =? k then concat (enc <$> rows_of_chunk chunk) else []
  | None => if (chunk_start chunk <=? i) && (i <? chunk_end chunk) then enc i else []
  end.

Lemma concat_one (enc : Z -> list Z) i l :
  NoDup l -> concat ((fun r => if i =? r then enc r else []) <$> l) = if decide (i ∈ l) then enc i else [].
Proof.
  induction 1 as [| r l Hr Hl IH]; [done |]. cbn. rewrite IH. destruct (Z.eqb_spec i r) as [-> | Hne].
  - rewrite (decide_False (P := r ∈ l)), decide_True by (done || by left). by rewrite app_nil_r.
  - rewrite (decide_ext (i ∈ r :: l) (i ∈ l)); [done |]. rewrite elem_of_cons. naive_solver.
Qed.

Lemma concat_if {A} (enc : A -> list Z) (c : bool) l : concat ((fun a => if c then enc a else []) <$> l) = if c then concat (enc <$> l) else [].
Proof. destruct c; [done |]. induction l; done. Qed.

Lemma chunk_write_rows chunk enc i :
  concat ((fun r => if i =? GetResultIndex chunk r then enc r else []) <$> rows_of_chunk chunk) = chunk_write chunk enc i.
Proof.
  unfold GetResultIndex, chunk_write. destruct (result_index chunk) as [k |]; cbn [default from_option]; [apply concat_if |].
  unfold rows_of_chunk. rewrite concat_one by apply NoDup_zrange. case_decide as Hi; rewrite elem_of_zrange in Hi.
  - by rewrite (proj2 (Z.leb_le _ _)), (proj2 (Z.ltb_lt _ _)) by lia.
  - destruct (Z.leb_spec (chunk_start chunk) i), (Z.ltb_spec i (chunk_end chunk)); done || lia.
Qed.

Lemma appends_chunk (f : list R -> Z -> outcome (list R)) chunk enc :
  (forall r, r ∈ rows_of_chunk chunk -> appends (fun rows => f rows r) (fun i => if i =? GetResultIndex chunk r then enc r else [])) ->
  appends (fun rows => run f rows (rows_of_chunk chunk)) (chunk_write chunk enc).
Proof.
  intros Hf. eapply appends_ext; [intros i; apply chunk_write_rows | done |].
  by apply (appends_run f (fun r i => if i =? GetResultIndex chunk r then enc r else [])).
Qed.
End append.

(** The lengths of the keys. *)
#[export, refine] Instance append_length : AppendRow Z :=
  {| row_app n bytes := n + Z.of_nat (length bytes); row_room _ _ := True |}.
Proof. all: intros; rewrite ?length_app; done || (cbn; lia). Defined.

(** The bytes of the keys. *)
Definition room (row : SortKeyRow) (bytes : list Z) : Prop :=
  0 <= row_offset row /\ row_offset row + Z.of_nat (length bytes) <= Z.of_nat (length (row_data row)).

Definition append_bytes (row : SortKeyRow) (bytes : list Z) : SortKeyRow :=
  let offset := Z.to_nat (row_offset row) in
  mkRow (take offset (row_data row) ++ bytes ++ drop (offset + length bytes) (row_data row)) (row_offset row + Z.of_nat (length bytes)).

Lemma append_bytes_nil row : append_bytes row [] = row.
Proof. destruct row as [data offset]. unfold append_bytes. cbn. by rewrite Nat.add_0_r, take_drop, Z.add_0_r. Qed.

Lemma append_bytes_app row a b : room row (a ++ b) -> append_bytes (append_bytes row a) b = append_bytes row (a ++ b).
Proof.
  destruct row as [data offset]. intros [H1 H2]. unfold append_bytes. cbn in *. rewrite length_app in *. f_equal; [| lia].
  rewrite (app_assoc (take _ _) a), take_app_length' by (rewrite length_app, length_take; lia).
  rewrite (drop_app_ge _ (drop _ _)), drop_drop by (rewrite length_app, length_take; lia).
  rewrite <- !app_assoc. do 4 f_equal. rewrite length_app, length_take. lia.
Qed.

Lemma room_l row a b : room row (a ++ b) -> room row a.
Proof. intros [H1 H2]. rewrite length_app in H2. split; lia. Qed.

Lemma room_r row a b : room row (a ++ b) -> room (append_bytes row a) b.
Proof.
  destruct row as [data offset]. intros [H1 H2]. rewrite length_app in H2. unfold append_bytes, room in *. cbn in *. split; [lia |].
  rewrite !length_app, length_take, length_drop. lia.
Qed.

#[export] Instance append_row : AppendRow SortKeyRow :=
  {| row_app := append_bytes; row_room := room; row_app_nil := append_bytes_nil; row_app_app := append_bytes_app;
     row_room_l := room_l; row_room_r := room_r |}.

(** *** The writes of the construction *)

Lemma zload_Some_lt {A} (l : list A) i x : zload l i = Some x -> 0 <= i < Z.of_nat (length l).
Proof. unfold zload. case_decide; [| done]. intros ?%lookup_lt_Some. lia. Qed.

Lemma zload_lookup {A} (l : list A) i : 0 <= i -> zload l i = l !! Z.to_nat i.
Proof. intros. unfold zload. by rewrite decide_True. Qed.

Lemma extend_one {R} `{AppendRow R} (rows : list R) i row bytes :
  zload rows i = Some row ->
  zstore rows i (row_app row bytes) = Some (extend (fun j => if j =? i then bytes else []) rows).
Proof.
  intros Hi. pose proof (zload_Some_lt _ _ _ Hi) as Hr. rewrite zload_lookup in Hi by lia.
  rewrite zstore_Some by done. f_equal. apply list_eq. intros j. rewrite lookup_extend.
  destruct (decide (j = Z.to_nat i)) as [-> | Hne].
  - rewrite list_lookup_insert_eq by lia. rewrite Hi. cbn. rewrite Z2Nat.id, Z.eqb_refl by lia. done.
  - rewrite list_lookup_insert_ne by done. rewrite (proj2 (Z.eqb_neq (Z.of_nat j) i)) by lia.
    destruct (rows !! j); cbn; [by rewrite row_app_nil | done].
Qed.

Lemma appends_with_row i bytes f :
  bytes <> [] -> (forall row, room row bytes -> f row = Some (append_bytes row bytes)) ->
  appends (fun rows => with_row rows i f) (fun j => if j =? i then bytes else []).
Proof.
  intros Hne Hf rows Hfit. destruct (Hfit i) as (row & Hi & Hr); [by rewrite Z.eqb_refl |]. rewrite Z.eqb_refl in Hr.
  unfold with_row. rewrite Hi. cbn. rewrite Hf by done. cbn.
  pose proof (extend_one rows i row bytes Hi) as E. cbn in E. by rewrite E.
Qed.

Lemma appends_add_length i n bytes :
  bytes <> [] -> n = Z.of_nat (length bytes) ->
  appends (fun lengths => add_length lengths i n) (fun j => if j =? i then bytes else []).
Proof.
  intros Hne -> rows Hfit. destruct (Hfit i) as (row & Hi & Hr); [by rewrite Z.eqb_refl |].
  unfold add_length. rewrite Hi. cbn.
  pose proof (extend_one rows i row bytes Hi) as E. cbn in E. by rewrite E.
Qed.

Lemma put_byte_append row b : room row [b] -> put_byte row b = Some (append_bytes row [b]).
Proof.
  destruct row as [data offset]. intros [H1 H2]. unfold put_byte, append_bytes. cbn in *. rewrite zstore_Some by lia. cbn. do 2 f_equal.
  rewrite insert_take_drop by lia. do 3 f_equal. lia.
Qed.

Lemma store_bytes_append data offset bytes :
  0 <= offset -> offset + Z.of_nat (length bytes) <= Z.of_nat (length data) ->
  store_bytes data offset bytes = Some (row_data (append_bytes (mkRow data offset) bytes)).
Proof.
  revert data offset. induction bytes as [| b bytes IH]; intros data offset H1 H2; unfold append_bytes; cbn [row_data row_offset length app].
  - by rewrite Nat.add_0_r, take_drop.
  - cbn [length] in H2. cbn [store_bytes]. rewrite zstore_Some by lia. cbn [mbind option_bind]. rewrite IH by (rewrite ?length_insert; lia).
    unfold append_bytes. cbn [row_data row_offset]. f_equal. replace (Z.to_nat (offset + 1)) with (S (Z.to_nat offset)) by lia.
    rewrite insert_take_drop by lia. set (l := take (Z.to_nat offset) data). set (k := drop _ data).
    assert (length (l ++ [b]) = S (Z.to_nat offset)) as Hl by (unfold l; rewrite length_app, length_take; cbn; lia).
    rewrite (cons_middle b l k), (app_assoc l [b] k), take_app_length' by done.
    rewrite drop_app_ge, Hl by lia. unfold k. rewrite drop_drop, <- app_assoc. cbn [app]. do 4 f_equal. lia.
Qed.

Lemma flip_range_app l bytes r :
  flip_range (l ++ bytes ++ r) (Z.of_nat (length l)) (Z.of_nat (length l) + Z.of_nat (length bytes)) = Some (l ++ (not_byte <$> bytes) ++ r).
Proof.
  unfold flip_range. revert l. induction bytes as [| b bytes IH]; intros l; cbn [length].
  - by rewrite zrange_nil by lia.
  - cbn [app]. rewrite zrange_cons, ofold_cons by lia. rewrite zload_nat, list_lookup_middle by done. cbn [mbind option_bind].
    rewrite zstore_Some by (rewrite length_app; cbn; lia). rewrite Nat2Z.id, insert_app_r_alt, Nat.sub_diag by lia. cbn [insert list_insert]. cbn [fmap list_fmap app].
    specialize (IH (l ++ [not_byte b])). rewrite length_app in IH. cbn [length] in IH.
    rewrite <- !app_assoc in IH. cbn [app] in IH. rewrite <- IH. cbn [mbind option_bind]. f_equal. f_equal; lia.
Qed.

Lemma put_encoded_append row bytes flip_bytes :
  room row bytes -> put_encoded row bytes flip_bytes = Some (append_bytes row (if flip_bytes then not_byte <$> bytes else bytes)).
Proof.
  destruct row as [data offset]. intros [H1 H2]. cbn in *. unfold put_encoded. cbn [row_data row_offset].
  rewrite store_bytes_append by done. cbn [mbind option_bind]. destruct flip_bytes; unfold append_bytes; cbn [row_data row_offset mbind option_bind].
  - pose proof (flip_range_app (take (Z.to_nat offset) data) bytes (drop (Z.to_nat offset + length bytes) data)) as E.
    rewrite length_take, Nat.min_l, Z2Nat.id in E by lia. rewrite E. cbn. by rewrite length_fmap.
  - done.
Qed.

(** ** Values

    A row of a column as a value; a NULL struct or array still has the fields of its row. *)

Inductive SortValue : Set :=
  | sv_null
  | sv_scalar (v : Scalar)
  | sv_struct (valid : bool) (fields : list SortValue)
  | sv_list (elements : list SortValue)
  | sv_array (valid : bool) (elements : list SortValue).

(** The value of row [r], when all the arrays it is in have it. *)
Fixpoint value_at (vd : SortKeyVectorData) (r : Z) : option SortValue :=
  let idx := row_index vd r in
  let valid := row_valid vd idx in
  match vd_type vd with
  | STRUCT_TYPE _ => sv_struct valid <$> mapM (fun child => value_at child r) (child_data vd)
  | LIST_TYPE _ | ARRAY_TYPE _ _ =>
      match child_data vd with
      | child :: _ =>
          if IsArray vd || valid then
            e ← GetListEntry vd idx;
            elements ← mapM (value_at child) (zrange (entry_offset e) (entry_offset e + entry_length e));
            Some (if IsArray vd then sv_array valid elements else sv_list elements)
          else Some sv_null
      | [] => None
      end
  | _ => if valid then sv_scalar <$> zload (format_data (vd_format vd)) idx else Some sv_null
  end.

(** ** The key of a value *)

Definition null_byte_of (m : OrderModifiers) (valid : bool) : Z := if valid then snd (null_bytes m) else fst (null_bytes m).
Definition list_delimiter (flip_bytes : bool) : Z := if flip_bytes then not_byte LIST_DELIMITER else LIST_DELIMITER.

Fixpoint encode_value (t : LogicalType) (m : OrderModifiers) (v : SortValue) : list Z :=
  match t, v with
  | STRUCT_TYPE ts, sv_struct valid fields =>
      null_byte_of m valid :: concat (zip_with (fun t v => encode_value t (child_modifiers m) v) ts fields)
  | LIST_TYPE t, sv_list elements =>
      null_byte_of m true :: concat (encode_value t (child_modifiers m) <$> elements) ++ [list_delimiter (flips m)]
  | ARRAY_TYPE t _, sv_array valid elements =>
      null_byte_of m valid :: concat (encode_value t (child_modifiers m) <$> elements) ++ [list_delimiter (flips m)]
  | _, sv_scalar v =>
      null_byte_of m true :: match type_operator t with Some op => flip_if (flips m) (Encode op v) | None => [] end
  | _, _ => [null_byte_of m false]
  end.

(** ** Vector data of a type *)

Inductive data_for : LogicalType -> OrderModifiers -> SortKeyVectorData -> Prop :=
  | data_scalar t m n f op :
      type_operator t = Some op ->
      data_for t m (mkVectorData t n f [] (null_byte_of m false) (null_byte_of m true))
  | data_struct ts m n f children :
      Forall2 (fun t => data_for t (child_modifiers m)) ts children ->
      data_for (STRUCT_TYPE ts) m (mkVectorData (STRUCT_TYPE ts) n f children (null_byte_of m false) (null_byte_of m true))
  | data_list t m n f child :
      data_for t (child_modifiers m) child ->
      data_for (LIST_TYPE t) m (mkVectorData (LIST_TYPE t) n f [child] (null_byte_of m false) (null_byte_of m true))
  | data_array t size m n f child :
      data_for t (child_modifiers m) child ->
      data_for (ARRAY_TYPE t size) m (mkVectorData (ARRAY_TYPE t size) n f [child] (null_byte_of m false) (null_byte_of m true)).

Section type_induction.
Variable P : LogicalType -> Prop.
Hypothesis Hfixed : forall p, P (FIXED_TYPE p).
Hypothesis Hvarchar : P VARCHAR_TYPE.
Hypothesis Hblob : P BLOB_TYPE.
Hypothesis Hstruct : forall ts, Forall P ts -> P (STRUCT_TYPE ts).
Hypothesis Hlist : forall t, P t -> P (LIST_TYPE t).
Hypothesis Harray : forall t n, P t -> P (ARRAY_TYPE t n).

Fixpoint type_induction (t : LogicalType) : P t :=
  match t with
  | FIXED_TYPE p => Hfixed p
  | VARCHAR_TYPE => Hvarchar
  | BLOB_TYPE => Hblob
  | STRUCT_TYPE ts =>
      Hstruct ts ((fix go ts : Forall P ts := match ts with [] => Forall_nil_2 P | t :: ts => Forall_cons_2 P t ts (type_induction t) (go ts) end) ts)
  | LIST_TYPE t => Hlist t (type_induction t)
  | ARRAY_TYPE t n => Harray t n (type_induction t)
  end.
End type_induction.

Lemma flips_child m : flips (child_modifiers m) = flips m.
Proof. done. Qed.

Lemma encode_value_head t m v : exists valid bytes, encode_value t m v = null_byte_of m valid :: bytes.
Proof. destruct t, v; eexists _, _; reflexivity. Qed.

Lemma encode_value_ne t m v : encode_value t m v <> [].
Proof. by destruct (encode_value_head t m v) as (? & ? & ->). Qed.

(** What a chunk of rows writes is, in each row, the key of at most one row of it: when the
    chunk has one row or no result index. *)
Definition one_row (chunk : SortKeyChunk) : Prop :=
  result_index chunk = None \/ exists r, rows_of_chunk chunk = [r].

Lemma one_row_write chunk : one_row chunk -> exists g : Z -> option Z,
  (forall i r, g i = Some r -> r ∈ rows_of_chunk chunk) /\
  forall enc i, chunk_write chunk enc i = match g i with Some r => enc r | None => [] end.
Proof.
  intros [E | (r & E)]; unfold chunk_write; [rewrite E | destruct (result_index chunk) as [k |]].
  - exists (fun i => if (chunk_start chunk <=? i) && (i <? chunk_end chunk) then Some i else None). split.
    + intros i r. case_if; [| done]. intros [= <-]. unfold rows_of_chunk. apply elem_of_zrange. lia.
    + intros. by destruct (_ && _).
  - exists (fun i => if i =? k then Some r else None). rewrite E. split.
    + intros i r'. case_if; [| done]. intros [= <-]. by left.
    + intros. destruct (_ =? _); [| done]. cbn. by rewrite app_nil_r.
  - exists (fun i => if (chunk_start chunk <=? i) && (i <? chunk_end chunk) then Some i else None). split.
    + intros i r'. case_if; [| done]. intros [= <-]. unfold rows_of_chunk. apply elem_of_zrange. lia.
    + intros. by destruct (_ && _).
Qed.

(** The children of a struct, one after the other, append the keys of the fields. *)
Lemma appends_children {R} `{AppendRow R} (recurse : SortKeyVectorData -> SortKeyChunk -> list R -> outcome (list R)) m chunk ts children fields :
  one_row chunk ->
  Forall2 (fun t child => forall values,
    (forall r, r ∈ rows_of_chunk chunk -> value_at child r = Some (values r)) ->
    appends (recurse child chunk) (chunk_write chunk (fun r => encode_value t m (values r)))) ts children ->
  (forall r, r ∈ rows_of_chunk chunk -> mapM (fun child => value_at child r) children = Some (fields r)) ->
  appends (fun rows => run (fun rows child => recurse child chunk rows) rows children)
    (chunk_write chunk (fun r => concat (zip_with (fun t v => encode_value t m v) ts (fields r)))).
Proof.
  intros Hone Hch. destruct (one_row_write chunk Hone) as (g & Hg & Hw). revert fields.
  induction Hch as [| t child ts children Hhd Htl IH]; intros fields Hf.
  - apply appends_done. intros i. rewrite Hw. by destruct (g i).
  - set (fields' r := match fields r with [] => [] | _ :: l => l end). set (hd r := match fields r with [] => sv_null | v :: _ => v end).
    assert (forall r, r ∈ rows_of_chunk chunk -> value_at child r = Some (hd r) /\ mapM (fun c => value_at c r) children = Some (fields' r) /\ fields r = hd r :: fields' r) as Hr.
    { intros r Hr. specialize (Hf r Hr). cbn in Hf. unfold hd, fields'.
      destruct (value_at child r); [| done]. cbn in Hf. destruct (mapM _ children); [| done]. cbn in Hf. by injection Hf as <-. }
    eapply appends_ext; [| done | apply (appends_bind (recurse child chunk) (fun rows => run (fun rows child => recurse child chunk rows) rows children));
      [apply (Hhd hd); intros r Hin; by apply Hr | apply (IH fields'); intros r Hin; by apply Hr]].
    intros i. cbn beta. rewrite !Hw. destruct (g i) as [r |] eqn:E; [| done]. apply Hg, Hr in E as (_ & _ & ->). done.
Qed.

Lemma chunk_single r k : rows_of_chunk (mkChunk r (r + 1) (Some k)) = [r].
Proof. unfold rows_of_chunk. cbn. by rewrite zrange_cons, zrange_nil by lia. Qed.

Lemma data_for_type t m vd : data_for t m vd -> vd_type vd = t.
Proof. by destruct 1. Qed.

Lemma data_for_bytes t m vd : data_for t m vd -> null_byte vd = null_byte_of m false /\ valid_byte vd = null_byte_of m true.
Proof. by destruct 1. Qed.

Lemma data_for_scalar t m vd op : data_for t m vd -> type_operator t = Some op ->
  forall r, value_at vd r = if row_valid vd (row_index vd r) then sv_scalar <$> zload (format_data (vd_format vd)) (row_index vd r) else Some sv_null.
Proof. destruct 1; try done. intros _ r. by destruct t. Qed.

Lemma encode_scalar t m op v :
  type_operator t = Some op -> encode_value t m (sv_scalar v) = null_byte_of m true :: flip_if (flips m) (Encode op v).
Proof. intros Hop. destruct t; try done; cbn [encode_value]; by rewrite Hop. Qed.

Lemma encode_null t m op : type_operator t = Some op -> encode_value t m sv_null = [null_byte_of m false].
Proof. intros Hop. by destruct t. Qed.

(** *** Constant and variable-size values *)

Lemma construct_scalar t m vd op chunk values :
  data_for t m vd -> type_operator t = Some op ->
  (forall r, r ∈ rows_of_chunk chunk -> value_at vd r = Some (values r)) ->
  appends (TemplatedConstructSortKey op vd chunk (flips m)) (chunk_write chunk (fun r => encode_value t m (values r))).
Proof.
  intros Hd Hop Hv. destruct (data_for_bytes _ _ _ Hd) as [Hnull Hvalid]. pose proof (data_for_scalar _ _ _ _ Hd Hop) as Hat.
  unfold TemplatedConstructSortKey. destruct (Z.eqb_spec (chunk_start chunk) (chunk_end chunk)) as [E | _].
  { apply appends_done. intros i. unfold chunk_write, rows_of_chunk. rewrite E, zrange_nil by lia.
    destruct (result_index chunk); [by destruct (_ =? _) |]. destruct (Z.leb_spec (chunk_end chunk) i), (Z.ltb_spec i (chunk_end chunk)); done || lia. }
  set (has := negb _). unfold TemplatedConstructSortKeyInternal.
  assert (forall r, (if has then GetResultIndex chunk r else r) = GetResultIndex chunk r /\ (if has then row_index vd r else r) = row_index vd r) as Hhas.
  { intros r. unfold has, has_result_index, GetResultIndex, row_index. by destruct (result_index chunk), (format_sel _). }
  assert (forall idx, negb (AllValid (format_validity (vd_format vd))) && negb (row_valid vd idx) = negb (row_valid vd idx)) as Hall.
  { intros idx. unfold row_valid, RowIsValid. by destruct (AllValid _). }
  apply appends_chunk. intros r Hr. destruct (Hhas r) as [-> ->]. rewrite Hall, Hnull, Hvalid. specialize (Hv r Hr). rewrite Hat in Hv.
  destruct (row_valid vd (row_index vd r)); cbn [negb].
  - destruct (zload _ _) as [s |]; [| done]. injection Hv as <-. rewrite (encode_scalar t m op) by done. cbn [access mbind outcome_bind].
    apply appends_with_row; [done |]. intros row Hroom.
    rewrite put_byte_append by (by apply (room_l row [_] (flip_if (flips m) (Encode op s)))). cbn [mbind option_bind].
    rewrite put_encoded_append; [f_equal; by apply (append_bytes_app row [_]) |].
    pose proof (room_r row [_] _ Hroom) as H2. unfold flip_if in H2. destruct (flips m); [| done].
    destruct H2 as [H2 H3]. rewrite length_fmap in H3. by split.
  - injection Hv as <-. rewrite (encode_null t m op) by done. apply appends_with_row; [done |]. intros row Hroom. by apply put_byte_append.
Qed.

(** *** Nested values *)

Lemma mapM_values {A B} (d : B) (f : A -> option B) l es :
  mapM f l = Some es -> (forall r, r ∈ l -> f r = Some (default d (f r))) /\ es = (fun r => default d (f r)) <$> l.
Proof.
  revert es. induction l as [| r l IH]; intros es Hm; [injection Hm as <-; split; [intros r Hr; by apply not_elem_of_nil in Hr | done] |].
  cbn in Hm. destruct (f r) as [b |] eqn:E; [| done]. cbn in Hm. destruct (mapM f l) as [es' |]; [| done]. injection Hm as <-.
  destruct (IH es' eq_refl) as [H1 ->]. split; [| cbn; by rewrite E].
  intros r' [-> | Hr]%elem_of_cons; [by rewrite E | by apply H1].
Qed.

Lemma entry_write {R} `{AppendRow R} (ok : SortValue -> Prop) (recurse : SortKeyChunk -> list R -> outcome (list R)) child t m e k es :
  (forall values, (forall r, r ∈ rows_of_chunk (entry_chunk e k) -> value_at child r = Some (values r) /\ ok (values r)) ->
    appends (recurse (entry_chunk e k)) (chunk_write (entry_chunk e k) (fun r => encode_value t m (values r)))) ->
  mapM (value_at child) (zrange (entry_offset e) (entry_offset e + entry_length e)) = Some es -> Forall ok es ->
  appends (fun rows => if 0 <? entry_length e then recurse (entry_chunk e k) rows else Done rows)
    (fun i => if i =? k then concat (encode_value t m <$> es) else []).
Proof.
  intros IH Hm Hok. destruct (mapM_values sv_null _ _ _ Hm) as [H1 ->]. destruct (Z.ltb_spec 0 (entry_length e)).
  - eapply appends_ext; [| done | apply IH; intros r Hr; split; [by apply H1 |]].
    + intros i. unfold chunk_write. cbn. by rewrite <- list_fmap_compose.
    + rewrite Forall_fmap, Forall_forall in Hok. by apply Hok.
  - apply appends_done. intros i. rewrite zrange_nil by lia. by destruct (i =? k).
Qed.

Lemma if_at_app (c : bool) (a b : list Z) : (if c then a else []) ++ (if c then b else []) = if c then a ++ b else [].
Proof. by destruct c. Qed.

(** The value of a row of a list or an array. *)
Lemma value_at_list vd t child r v :
  child_data vd = [child] -> vd_type vd = LIST_TYPE t \/ (exists n, vd_type vd = ARRAY_TYPE t n) -> value_at vd r = Some v ->
  let valid := row_valid vd (row_index vd r) in
  (v = sv_null /\ IsArray vd = false /\ valid = false) \/
  exists e es, IsArray vd || valid = true /\ GetListEntry vd (row_index vd r) = Some e /\
    mapM (value_at child) (zrange (entry_offset e) (entry_offset e + entry_length e)) = Some es /\
    v = if IsArray vd then sv_array valid es else sv_list es.
Proof.
  destruct vd as [t' n f children nb vb]. cbn [child_data vd_type value_at]. intros -> Ht Hv. cbv zeta in *.
  assert ((if IsArray (mkVectorData t' n f [child] nb vb) || row_valid (mkVectorData t' n f [child] nb vb) (row_index (mkVectorData t' n f [child] nb vb) r) then
            e ← GetListEntry (mkVectorData t' n f [child] nb vb) (row_index (mkVectorData t' n f [child] nb vb) r);
            elements ← mapM (value_at child) (zrange (entry_offset e) (entry_offset e + entry_length e));
            Some (if IsArray (mkVectorData t' n f [child] nb vb) then sv_array (row_valid (mkVectorData t' n f [child] nb vb) (row_index (mkVectorData t' n f [child] nb vb) r)) elements else sv_list elements)
          else Some sv_null) = Some v) as Hv' by (by destruct Ht as [-> | (? & ->)]).
  clear Hv. revert Hv'. set (vd := mkVectorData _ _ _ _ _ _). destruct (IsArray vd || _) eqn:Ev; [| intros [= <-]; left; by apply orb_false_elim in Ev as [-> ->]].
  intros Hv. right. destruct (GetListEntry _ _) as [e |]; [| done]. cbn in Hv. destruct (mapM _ _) as [es |] eqn:E; [| done].
  injection Hv as <-. by exists e, es.
Qed.

Lemma construct_list (recurse : SortKeyChunk -> list SortKeyRow -> outcome (list SortKeyRow)) vd t' t m child chunk values :
  data_for t' m vd -> child_data vd = [child] -> t' = LIST_TYPE t \/ (exists n, t' = ARRAY_TYPE t n) ->
  (forall chunk values, (forall r, r ∈ rows_of_chunk chunk -> value_at child r = Some (values r)) ->
    appends (recurse chunk) (chunk_write chunk (fun r => encode_value t (child_modifiers m) (values r)))) ->
  (forall r, r ∈ rows_of_chunk chunk -> value_at vd r = Some (values r)) ->
  appends (ConstructSortKeyList recurse vd chunk (flips m)) (chunk_write chunk (fun r => encode_value t' m (values r))).
Proof.
  intros Hd Hc Ht IH Hv. destruct (data_for_bytes _ _ _ Hd) as [Hnull Hvalid]. pose proof (data_for_type _ _ _ Hd) as Hty.
  apply appends_chunk. intros r Hr. cbv beta zeta. rewrite Hnull, Hvalid.
  destruct (value_at_list vd t child r (values r) Hc) as [(-> & -> & ->) | (e & es & Hav & -> & Hm & ->)]; [by rewrite Hty | by apply Hv | |].
  - cbn [negb andb]. assert (encode_value t' m sv_null = [null_byte_of m false]) as -> by (by destruct Ht as [-> | (? & ->)]).
    apply appends_bind_done, appends_with_row; [| intros row; apply put_byte_append]; done.
  - set (valid := row_valid _ _) in *.
    assert (encode_value t' m (if IsArray vd then sv_array valid es else sv_list es) =
      [if negb valid then null_byte_of m false else null_byte_of m true] ++ concat (encode_value t (child_modifiers m) <$> es) ++ [list_delimiter (flips m)]) as ->.
    { unfold IsArray in *. rewrite Hty in *. destruct Ht as [-> | (? & ->)]; [| by destruct valid]. cbn [orb] in Hav. by rewrite Hav. }
    assert (negb valid && negb (IsArray vd) = false) as -> by (destruct valid, (IsArray vd); done).
    cbn [access mbind outcome_bind].
    eapply appends_ext; [| done | apply (appends_bind (fun rows => with_row rows _ _) (fun rows => (if 0 <? entry_length e then recurse (entry_chunk e (GetResultIndex chunk r)) rows else Done rows) ≫= fun rows => with_row rows _ _));
      [apply appends_with_row; [| intros row; apply put_byte_append]; done |
       apply (appends_bind (fun rows => if 0 <? entry_length e then recurse (entry_chunk e (GetResultIndex chunk r)) rows else Done rows) (fun rows => with_row rows _ _));
       [apply (entry_write (fun _ => True) recurse child t (child_modifiers m)); [intros values' Hv'; apply IH; intros r' Hr'; by apply Hv' | done | by apply Forall_true] | apply appends_with_row; [| intros row; apply put_byte_append]; done]]].
    intros i. cbn beta. by rewrite !if_at_app.
Qed.

Lemma construct_struct (recurse : SortKeyVectorData -> SortKeyChunk -> list SortKeyRow -> outcome (list SortKeyRow)) vd ts m chunk values :
  data_for (STRUCT_TYPE ts) m vd ->
  Forall2 (fun t child => forall chunk values, (forall r, r ∈ rows_of_chunk chunk -> value_at child r = Some (values r)) ->
    appends (recurse child chunk) (chunk_write chunk (fun r => encode_value t (child_modifiers m) (values r)))) ts (child_data vd) ->
  (forall r, r ∈ rows_of_chunk chunk -> value_at vd r = Some (values r)) ->
  appends (ConstructSortKeyStruct recurse vd (child_data vd) chunk) (chunk_write chunk (fun r => encode_value (STRUCT_TYPE ts) m (values r))).
Proof.
  intros Hd IH Hv. destruct (data_for_bytes _ _ _ Hd) as [Hnull Hvalid]. pose proof (data_for_type _ _ _ Hd) as Hty.
  set (fields r := match values r with sv_struct _ fields => fields | _ => [] end).
  assert (forall r, r ∈ rows_of_chunk chunk -> mapM (fun c => value_at c r) (child_data vd) = Some (fields r) /\
    encode_value (STRUCT_TYPE ts) m (values r) = [if negb (row_valid vd (row_index vd r)) then null_byte_of m false else null_byte_of m true] ++
      concat (zip_with (fun t v => encode_value t (child_modifiers m) v) ts (fields r))) as Hval.
  { intros r Hr. specialize (Hv r Hr). destruct vd as [t' n f children nb vb]. cbn [vd_type] in Hty. subst t'. cbn [value_at vd_type child_data] in *.
    unfold fields. destruct (mapM _ _) as [fs |]; [| done]. cbn in Hv. injection Hv as <-. split; [done |]. by destruct (row_valid _ _). }
  unfold ConstructSortKeyStruct. rewrite Hnull, Hvalid. unfold has_result_index. destruct (result_index chunk) as [k |] eqn:Ek; cbn [negb].
  - apply appends_bind_done, appends_chunk. intros r Hr. cbv beta zeta. destruct (Hval r Hr) as [Hf ->].
    assert (GetResultIndex chunk r = k) as Hk by (unfold GetResultIndex; by rewrite Ek). rewrite Hk.
    eapply appends_ext; [| done | apply (appends_bind (fun rows => with_row rows _ _) (fun rows => run (fun rows child => recurse child (mkChunk r (r + 1) (Some k)) rows) rows (child_data vd)));
      [apply appends_with_row; [| intros row; apply put_byte_append]; done |
       apply (appends_children recurse (child_modifiers m) (mkChunk r (r + 1) (Some k)) ts (child_data vd) (fun _ => fields r))]].
    + intros i. cbn beta. unfold chunk_write. cbn [result_index]. rewrite chunk_single. cbn [fmap list_fmap concat]. by rewrite app_nil_r, if_at_app.
    + right. exists r. apply chunk_single.
    + eapply Forall2_impl; [apply IH |]. intros t child Ht values' Hr'. by apply Ht.
    + intros r'. rewrite chunk_single. intros ->%list_elem_of_singleton. done.
  - eapply appends_ext; [| done | apply (appends_bind (fun rows => run _ rows (rows_of_chunk chunk)) (fun rows => run (fun rows child => recurse child chunk rows) rows (child_data vd)));
      [apply (appends_chunk (fun rows r => with_row rows (GetResultIndex chunk r) (fun row => put_byte row _) ≫= Done) chunk
         (fun r => [if negb (row_valid vd (row_index vd r)) then null_byte_of m false else null_byte_of m true])) |
       apply (appends_children recurse (child_modifiers m) chunk ts (child_data vd) fields)]].
    + intros i. unfold chunk_write. rewrite Ek. destruct (_ && _) eqn:Ei; [| done]. bool_to_prop.
      destruct (Hval i) as [_ E]; [unfold rows_of_chunk; apply elem_of_zrange; lia |]. by rewrite E.
    + intros r Hr. apply appends_bind_done, appends_with_row; [| intros row; apply put_byte_append]; done.
    + by left.
    + eapply Forall2_impl; [apply IH |]. intros t child Ht values' Hr'. by apply Ht.
    + intros r Hr. by apply Hval.
Qed.

Lemma construct_appends t : forall m vd chunk values,
  data_for t m vd -> (forall r, r ∈ rows_of_chunk chunk -> value_at vd r = Some (values r)) ->
  appends (ConstructSortKeyRecursive (flips m) vd chunk) (chunk_write chunk (fun r => encode_value t m (values r))).
Proof.
  assert (forall t op m vd chunk values, type_operator t = Some op ->
    data_for t m vd -> (forall r, r ∈ rows_of_chunk chunk -> value_at vd r = Some (values r)) ->
    appends (ConstructSortKeyRecursive (flips m) vd chunk) (chunk_write chunk (fun r => encode_value t m (values r)))) as Hscalar.
  { intros t' op m vd chunk values Hop Hd Hv. eapply appends_ext; [done | | by apply (construct_scalar t' m vd op)].
    intros rows. destruct vd as [ty sz fmt cs nb vb]. cbn [ConstructSortKeyRecursive]. pose proof (data_for_type _ _ _ Hd) as ->. by rewrite Hop. }
  induction t as [p | | | ts IH | t IH | t n IH] using type_induction; intros m vd chunk values Hd Hv.
  - inversion Hd as [? ? ? ? op Hop| | |]; subst. by apply (Hscalar _ op).
  - by apply (Hscalar _ SortKeyVarcharOperator).
  - by apply (Hscalar _ SortKeyBlobOperator).
  - eapply appends_ext; [done | | apply (construct_struct (ConstructSortKeyRecursive (flips m)) vd ts m chunk values Hd); [| done]].
    + intros rows. destruct vd as [ty sz fmt cs nb vb]. pose proof (data_for_type _ _ _ Hd) as Hty. cbn [vd_type] in Hty. subst. done.
    + inversion Hd as [| ? ? ? ? children Hch | |]; subst; [done |]. cbn [child_data]. clear - IH Hch. induction Hch; [done |].
      apply Forall_cons in IH as [IH1 IH2]. constructor; [| by apply IHHch]. intros. by apply (IH1 (child_modifiers m)).
  - inversion Hd as [| | ? ? ? ? child Hch |]; subst; [done |].
    apply (construct_list (ConstructSortKeyRecursive (flips m) child) _ (LIST_TYPE t) t m child); try done; [by left |].
    intros. by apply (IH (child_modifiers m)).
  - inversion Hd as [| | | ? ? ? ? ? child Hch]; subst; [done |].
    apply (construct_list (ConstructSortKeyRecursive (flips m) child) _ (ARRAY_TYPE t n) t m child); try done; [by right; exists n |].
    intros. by apply (IH (child_modifiers m)).
Qed.

(** ** Values of a type

    The fields of a NULL struct and the elements of a NULL array are NULL. *)

Definition is_null (v : SortValue) : bool :=
  match v with sv_null | sv_struct false _ | sv_array false _ => true | _ => false end.

Inductive value_ok : LogicalType -> SortValue -> Prop :=
  | ok_null t op : type_operator t = Some op -> value_ok t sv_null
  | ok_scalar t op v : type_operator t = Some op -> type_ok t v -> value_ok t (sv_scalar v)
  | ok_struct ts valid fields :
      Forall2 value_ok ts fields -> (valid = false -> Forall (fun v => is_null v = true) fields) -> value_ok (STRUCT_TYPE ts) (sv_struct valid fields)
  | ok_null_list t : value_ok (LIST_TYPE t) sv_null
  | ok_list t elements : Forall (value_ok t) elements -> value_ok (LIST_TYPE t) (sv_list elements)
  | ok_array t n valid elements :
      Forall (value_ok t) elements -> Z.of_nat (length elements) = n ->
      (valid = false -> Forall (fun v => is_null v = true) elements) -> value_ok (ARRAY_TYPE t n) (sv_array valid elements).

(** ** The lengths *)

Lemma appends_lengths (f : list Z -> outcome (list Z)) w w' :
  (forall i, length (w i) = length (w' i)) -> appends f w -> appends f w'.
Proof.
  intros E Ha rows Hf. rewrite Ha.
  - f_equal. apply list_eq. intros i. rewrite !lookup_extend. destruct (rows !! i); [| done]. cbn. by rewrite E.
  - intros i Hi. destruct (Hf i) as (row & Hl & _); [| by exists row].
    intros Hn. specialize (E i). rewrite Hn in E. by destruct (w i).
Qed.

Lemma chunk_write_length chunk a b c i :
  (forall r, r ∈ rows_of_chunk chunk -> length (c r) = (length (a r) + length (b r))%nat) ->
  length (chunk_write chunk a i ++ chunk_write chunk b i) = length (chunk_write chunk c i).
Proof.
  intros Hc. rewrite length_app. unfold chunk_write. destruct (result_index chunk) as [k |].
  - destruct (i =? k); [| done]. induction (rows_of_chunk chunk) as [| r l IH]; [done |]. cbn [fmap list_fmap concat]. rewrite !length_app, Hc by (by left).
    rewrite <- IH by (intros; apply Hc; by right). lia.
  - destruct (_ && _) eqn:E; [| done]. bool_to_prop. rewrite Hc; [done |]. unfold rows_of_chunk. apply elem_of_zrange. lia.
Qed.

Section lengths.
Context (m : OrderModifiers).
Abbreviation writes t chunk values := (chunk_write chunk (fun r => encode_value t m (values r))).
Abbreviation at_rows vd chunk values := (forall r, r ∈ rows_of_chunk chunk -> value_at vd r = Some (values r)).

Lemma length_scalar t vd op chunk values :
  data_for t m vd -> type_operator t = Some op -> at_rows vd chunk values -> (forall r, r ∈ rows_of_chunk chunk -> value_ok t (values r)) ->
  appends (TemplatedGetSortKeyLength op vd chunk) (writes t chunk values).
Proof.
  intros Hd Hop Hv Hok. pose proof (data_for_scalar _ _ _ _ Hd Hop) as Hat. pose proof (type_operator_laws t op Hop) as Hlaws.
  apply appends_chunk. intros r Hr. cbv beta zeta. specialize (Hv r Hr). specialize (Hok r Hr). rewrite Hat in Hv. destruct (row_valid vd (row_index vd r)); cbn [negb].
  - destruct (zload _ _) as [s |]; [| done]. injection Hv as Hv. rewrite <- Hv in *. rewrite (encode_scalar t m op) by done. cbn [access mbind outcome_bind].
    assert (type_ok t s) as Hs by (inversion Hok; by subst).
    eapply appends_ext; [| done | apply (appends_bind (fun rows => add_length rows _ _) (fun rows => add_length rows _ _));
      [apply (appends_add_length _ _ [null_byte_of m true]); done |
       apply (appends_add_length _ _ (flip_if (flips m) (Encode op s)))]].
    + intros i. cbn beta. by rewrite if_at_app.
    + intros E%(f_equal length). rewrite flip_if_length in E. apply (encode_ne s Hs). by destruct (Encode op s).
    + rewrite flip_if_length. by apply encode_length.
  - injection Hv as <-. rewrite (encode_null t m op) by done. apply appends_bind_done. by apply appends_add_length.
Qed.
End lengths.

Lemma length_list (recurse : SortKeyChunk -> list Z -> outcome (list Z)) vd t' t m child chunk values :
  data_for t' m vd -> child_data vd = [child] -> t' = LIST_TYPE t \/ (exists n, t' = ARRAY_TYPE t n) ->
  (forall chunk values, (forall r, r ∈ rows_of_chunk chunk -> value_at child r = Some (values r)) ->
    (forall r, r ∈ rows_of_chunk chunk -> value_ok t (values r)) ->
    appends (recurse chunk) (chunk_write chunk (fun r => encode_value t (child_modifiers m) (values r)))) ->
  (forall r, r ∈ rows_of_chunk chunk -> value_at vd r = Some (values r)) ->
  (forall r, r ∈ rows_of_chunk chunk -> value_ok t' (values r)) ->
  appends (GetSortKeyLengthList recurse vd chunk) (chunk_write chunk (fun r => encode_value t' m (values r))).
Proof.
  intros Hd Hc Ht IH Hv Hok. pose proof (data_for_type _ _ _ Hd) as Hty.
  apply appends_chunk. intros r Hr. cbv beta zeta. specialize (Hok r Hr). revert Hok.
  destruct (value_at_list vd t child r (values r) Hc) as [(-> & -> & ->) | (e & es & Hav & -> & Hm & ->)]; [by rewrite Hty | by apply Hv | |].
  - intros _. cbn [negb andb]. assert (encode_value t' m sv_null = [null_byte_of m false]) as -> by (by destruct Ht as [-> | (? & ->)]).
    apply appends_bind_done. by apply appends_add_length.
  - set (valid := row_valid _ _) in *. intros Hok.
    assert (Forall (value_ok t) es) as Hes.
    { unfold IsArray in *. rewrite Hty in *. destruct Ht as [-> | (? & ->)]; by inversion Hok. }
    assert (encode_value t' m (if IsArray vd then sv_array valid es else sv_list es) =
      [null_byte_of m valid] ++ concat (encode_value t (child_modifiers m) <$> es) ++ [list_delimiter (flips m)]) as ->.
    { unfold IsArray in *. rewrite Hty in *. destruct Ht as [-> | (? & ->)]; [| done]. cbn [orb] in Hav. by rewrite Hav. }
    assert (negb valid && negb (IsArray vd) = false) as -> by (destruct valid, (IsArray vd); done).
    cbn [access mbind outcome_bind]. apply (appends_lengths _ (fun i => if i =? GetResultIndex chunk r then
      [null_byte_of m valid] ++ [list_delimiter (flips m)] ++ concat (encode_value t (child_modifiers m) <$> es) else [])).
    { intros i. destruct (_ =? _); [| done]. rewrite !length_app. lia. }
    eapply appends_ext; [| done | apply (appends_bind (fun rows => add_length rows _ _) (fun rows => add_length rows _ _ ≫=
        fun rows => if 0 <? entry_length e then recurse (entry_chunk e (GetResultIndex chunk r)) rows else Done rows));
      [by apply (appends_add_length _ _ [null_byte_of m valid]) |
       apply (appends_bind (fun rows => add_length rows _ _)); [by apply (appends_add_length _ _ [list_delimiter (flips m)]) |]]].
    + intros i. cbn beta. by rewrite !if_at_app.
    + apply (entry_write (value_ok t) recurse child t (child_modifiers m)); [| done | done]. intros values' Hv'. apply IH; intros r' Hr'; by apply Hv'.
Qed.

Lemma length_children (recurse : SortKeyVectorData -> SortKeyChunk -> list Z -> outcome (list Z)) m chunk ts children fields :
  Forall2 (fun t child => forall values,
    (forall r, r ∈ rows_of_chunk chunk -> value_at child r = Some (values r)) ->
    (forall r, r ∈ rows_of_chunk chunk -> value_ok t (values r)) ->
    appends (recurse child chunk) (chunk_write chunk (fun r => encode_value t m (values r)))) ts children ->
  (forall r, r ∈ rows_of_chunk chunk -> mapM (fun child => value_at child r) children = Some (fields r)) ->
  (forall r, r ∈ rows_of_chunk chunk -> Forall2 value_ok ts (fields r)) ->
  appends (fun rows => run (fun rows child => recurse child chunk rows) rows children)
    (chunk_write chunk (fun r => concat (zip_with (fun t v => encode_value t m v) ts (fields r)))).
Proof.
  intros Hch. revert fields. induction Hch as [| t child ts children Hhd Htl IH]; intros fields Hf Hok.
  - apply appends_done. intros i. unfold chunk_write. cbn. destruct (result_index chunk); [| by destruct (_ && _)].
    destruct (_ =? _); [| done]. clear. induction (rows_of_chunk chunk) as [| r l IHl]; [done |]. exact IHl.
  - set (fields' r := match fields r with [] => [] | _ :: l => l end). set (hd r := match fields r with [] => sv_null | v :: _ => v end).
    assert (forall r, r ∈ rows_of_chunk chunk -> value_at child r = Some (hd r) /\ mapM (fun c => value_at c r) children = Some (fields' r) /\ fields r = hd r :: fields' r) as Hr.
    { intros r Hr. specialize (Hf r Hr). cbn in Hf. unfold hd, fields'.
      destruct (value_at child r); [| done]. cbn in Hf. destruct (mapM _ children); [| done]. cbn in Hf. by injection Hf as <-. }
    assert (forall r, r ∈ rows_of_chunk chunk -> value_ok t (hd r) /\ Forall2 value_ok ts (fields' r)) as Hr'.
    { intros r Hin. specialize (Hok r Hin). destruct (Hr r Hin) as (_ & _ & E). rewrite E in Hok. by apply Forall2_cons in Hok. }
    eapply appends_lengths; [| apply (appends_bind (recurse child chunk) (fun rows => run (fun rows child => recurse child chunk rows) rows children));
      [apply (Hhd hd); intros r Hin; [by apply Hr | by apply Hr'] | apply (IH fields'); intros r Hin; [by apply Hr | by apply Hr']]].
    intros i. cbn beta. apply chunk_write_length. intros r Hin. destruct (Hr r Hin) as (_ & _ & ->). cbn [zip_with concat]. by rewrite length_app.
Qed.

Lemma length_struct (recurse : SortKeyVectorData -> SortKeyChunk -> list Z -> outcome (list Z)) vd ts m chunk values :
  data_for (STRUCT_TYPE ts) m vd ->
  Forall2 (fun t child => forall values,
    (forall r, r ∈ rows_of_chunk chunk -> value_at child r = Some (values r)) ->
    (forall r, r ∈ rows_of_chunk chunk -> value_ok t (values r)) ->
    appends (recurse child chunk) (chunk_write chunk (fun r => encode_value t (child_modifiers m) (values r)))) ts (child_data vd) ->
  (forall r, r ∈ rows_of_chunk chunk -> value_at vd r = Some (values r)) ->
  (forall r, r ∈ rows_of_chunk chunk -> value_ok (STRUCT_TYPE ts) (values r)) ->
  appends (GetSortKeyLengthStruct recurse (child_data vd) chunk) (chunk_write chunk (fun r => encode_value (STRUCT_TYPE ts) m (values r))).
Proof.
  intros Hd IH Hv Hok. pose proof (data_for_type _ _ _ Hd) as Hty.
  set (fields r := match values r with sv_struct _ fields => fields | _ => [] end).
  assert (forall r, r ∈ rows_of_chunk chunk -> mapM (fun c => value_at c r) (child_data vd) = Some (fields r) /\ Forall2 value_ok ts (fields r) /\
    length (encode_value (STRUCT_TYPE ts) m (values r)) = (1 + length (concat (zip_with (fun t v => encode_value t (child_modifiers m) v) ts (fields r))))%nat) as Hval.
  { intros r Hr. specialize (Hv r Hr). specialize (Hok r Hr). destruct vd as [t' n f children nb vb]. cbn [vd_type] in Hty. subst t'. cbn [value_at vd_type child_data] in *.
    unfold fields. destruct (mapM _ _) as [fs |]; [| done]. cbn in Hv. injection Hv as Hv. rewrite <- Hv in *. split_and!; [done | by inversion Hok | done]. }
  unfold GetSortKeyLengthStruct.
  eapply appends_lengths; [| apply (appends_bind (fun rows => run _ rows (rows_of_chunk chunk)) (fun rows => run (fun rows child => recurse child chunk rows) rows (child_data vd)));
    [apply (appends_chunk (fun rows r => add_length rows (GetResultIndex chunk r) 1) chunk (fun _ => [1]));
       intros r Hr; by apply (appends_add_length _ _ [1]) |
     apply (length_children recurse (child_modifiers m) chunk ts (child_data vd) fields IH); intros r Hr; by apply Hval]].
  intros i. cbn beta. apply chunk_write_length. intros r Hr. destruct (Hval r Hr) as (_ & _ & ->). done.
Qed.

Lemma length_appends t : forall m vd chunk values,
  data_for t m vd -> (forall r, r ∈ rows_of_chunk chunk -> value_at vd r = Some (values r)) ->
  (forall r, r ∈ rows_of_chunk chunk -> value_ok t (values r)) ->
  appends (GetSortKeyLengthRecursive vd chunk) (chunk_write chunk (fun r => encode_value t m (values r))).
Proof.
  assert (forall t op m vd chunk values, type_operator t = Some op ->
    data_for t m vd -> (forall r, r ∈ rows_of_chunk chunk -> value_at vd r = Some (values r)) ->
    (forall r, r ∈ rows_of_chunk chunk -> value_ok t (values r)) ->
    appends (GetSortKeyLengthRecursive vd chunk) (chunk_write chunk (fun r => encode_value t m (values r)))) as Hscalar.
  { intros t' op m vd chunk values Hop Hd Hv Hok. eapply appends_ext; [done | | by apply (length_scalar m t' vd op)].
    intros rows. destruct vd as [ty sz fmt cs nb vb]. cbn [GetSortKeyLengthRecursive]. pose proof (data_for_type _ _ _ Hd) as ->. by rewrite Hop. }
  induction t as [p | | | ts IH | t IH | t n IH] using type_induction; intros m vd chunk values Hd Hv Hok.
  - inversion Hd as [? ? ? ? op Hop| | |]; subst. by apply (Hscalar _ op).
  - by apply (Hscalar _ SortKeyVarcharOperator).
  - by apply (Hscalar _ SortKeyBlobOperator).
  - eapply appends_ext; [done | | apply (length_struct GetSortKeyLengthRecursive vd ts m chunk values Hd); [| done..]].
    + intros rows. destruct vd as [ty sz fmt cs nb vb]. pose proof (data_for_type _ _ _ Hd) as Hty. cbn [vd_type] in Hty. subst. done.
    + inversion Hd as [| ? ? ? ? children Hch | |]; subst; [done |]. cbn [child_data]. clear - IH Hch. induction Hch; [done |].
      apply Forall_cons in IH as [IH1 IH2]. constructor; [| by apply IHHch]. intros. by apply (IH1 (child_modifiers m)).
  - inversion Hd as [| | ? ? ? ? child Hch |]; subst; [done |].
    apply (length_list (GetSortKeyLengthRecursive child) _ (LIST_TYPE t) t m child); try done; [by left |].
    intros. by apply (IH (child_modifiers m)).
  - inversion Hd as [| | | ? ? ? ? ? child Hch]; subst; [done |].
    apply (length_list (GetSortKeyLengthRecursive child) _ (ARRAY_TYPE t n) t m child); try done; [by right; exists n |].
    intros. by apply (IH (child_modifiers m)).
Qed.

(** ** Vectors of a type *)

Inductive vector_for : LogicalType -> Vector -> Prop :=
  | vector_scalar t f n op : type_operator t = Some op -> vector_for t (mkVector t f n [])
  | vector_struct ts f n children : Forall2 vector_for ts children -> vector_for (STRUCT_TYPE ts) (mkVector (STRUCT_TYPE ts) f n children)
  | vector_list t f n child : vector_for t child -> vector_for (LIST_TYPE t) (mkVector (LIST_TYPE t) f n [child])
  | vector_array t size f n child : 0 <= size -> vector_for t child -> vector_for (ARRAY_TYPE t size) (mkVector (ARRAY_TYPE t size) f n [child]).

Lemma new_data_for t : forall v size m, vector_for t v -> data_for t m (SortKeyVectorData_new v size m).
Proof.
  assert (forall m, null_bytes m = (null_byte_of m false, null_byte_of m true)) as Hn by (intros m; unfold null_byte_of; by destruct (null_bytes m)).
  assert (forall t op v size m, type_operator t = Some op -> vector_for t v -> data_for t m (SortKeyVectorData_new v size m)) as Hscalar.
  { intros t' op v size m Hop Hv. inversion Hv as [? ? ? op' Hop' | | |]; subst; try done. cbn [SortKeyVectorData_new]. rewrite Hn.
    assert (match InternalType t' with STRUCT | ARRAY | LIST => [] | _ => [] end = ([] : list SortKeyVectorData)) as E by (by destruct (InternalType t')).
    cbn [fmap list_fmap]. rewrite E. by apply (data_scalar t' m _ _ op). }
  induction t as [p | | | ts IH | t IH | t n IH] using type_induction; intros v size m Hv.
  - inversion Hv as [? ? ? op Hop| | |]; subst. by apply (Hscalar _ op).
  - by apply (Hscalar _ SortKeyVarcharOperator).
  - by apply (Hscalar _ SortKeyBlobOperator).
  - inversion Hv as [| ? ? ? children Hch | |]; subst; [done |]. cbn [SortKeyVectorData_new InternalType]. rewrite Hn. apply data_struct.
    clear - IH Hch. induction Hch; [done |]. apply Forall_cons in IH as [IH1 IH2]. constructor; [by apply IH1 | by apply IHHch].
  - inversion Hv as [| | ? ? ? child Hch |]; subst; [done |]. cbn [SortKeyVectorData_new InternalType fmap list_fmap]. rewrite Hn. by apply data_list, IH.
  - inversion Hv as [| | | ? ? ? ? child Hsize Hch]; subst; [done |]. cbn [SortKeyVectorData_new InternalType fmap list_fmap]. rewrite Hn. by apply data_array, IH.
Qed.

Lemma new_size v size m : vd_size (SortKeyVectorData_new v size m) = size.
Proof. destruct v as [ty fmt ls cs]. cbn [SortKeyVectorData_new]. by destruct (null_bytes m). Qed.

(** ** The key of a row *)

Fixpoint encode_row (ts : list LogicalType) (ms : list OrderModifiers) (vs : list SortValue) : list Z :=
  match ts, ms, vs with
  | t :: ts, m :: ms, v :: vs => encode_value t m v ++ encode_row ts ms vs
  | _, _, _ => []
  end.

(** Columns of [n] rows, with the values of their rows. *)
Inductive columns_ok (n : Z) : list LogicalType -> list OrderModifiers -> list Vector -> list (Z -> SortValue) -> Prop :=
  | columns_nil : columns_ok n [] [] [] []
  | columns_cons t m v values ts ms vs columns :
      vector_for t v ->
      (forall r, 0 <= r < n -> value_at (SortKeyVectorData_new v n m) r = Some (values r) /\ value_ok t (values r)) ->
      columns_ok n ts ms vs columns -> columns_ok n (t :: ts) (m :: ms) (v :: vs) (values :: columns).

Definition row_of (columns : list (Z -> SortValue)) (r : Z) : list SortValue := (fun values => values r) <$> columns.

Abbreviation vector_data n vs ms := (zip_with (fun v m => SortKeyVectorData_new v n m) vs ms).

Lemma encode_constant_length t m v op :
  value_ok t v -> type_operator t = Some op -> TypeIsConstantSize (InternalType t) = true ->
  (length (encode_value t m v) <= 1 + GetTypeIdSize (InternalType t))%nat.
Proof.
  intros Hv Hop Hc. destruct Hv as [t op' _ | t op' v Hop' Hs | | | |]; try done.
  - rewrite (encode_null t m op) by done. cbn. lia.
  - rewrite (encode_scalar t m op) by done. cbn [length]. rewrite flip_if_length. destruct t as [p | | | | |]; try done. cbn in *.
    destruct (TypeIsConstantSize p); [| done]. injection Hop as <-. cbn. by rewrite EncodeData_length.
Qed.

(** ** All the columns *)

Lemma vector_for_type t v : vector_for t v -> vector_type v = t.
Proof. by destruct 1. Qed.

Lemma znth_extend (w : Z -> list Z) lengths r :
  0 <= r < Z.of_nat (length lengths) -> znth 0 (extend w lengths) r = znth 0 lengths r + Z.of_nat (length (w r)).
Proof.
  intros Hr. unfold znth. rewrite lookup_extend. destruct (lookup_lt_is_Some_2 lengths (Z.to_nat r)) as [x ->]; [lia |]. cbn.
  by rewrite Z2Nat.id by lia.
Qed.

Lemma top_chunk_write n enc i : chunk_write (mkChunk 0 n None) enc i = if (0 <=? i) && (i <? n) then enc i else [].
Proof. done. Qed.

Lemma length_column n t m v values info :
  0 <= n -> vector_for t v ->
  (forall r, 0 <= r < n -> value_at (SortKeyVectorData_new v n m) r = Some (values r) /\ value_ok t (values r)) ->
  length (variable_lengths info) = Z.to_nat n ->
  exists info', GetSortKeyLength (SortKeyVectorData_new v n m) info = Done info' /\ length (variable_lengths info') = Z.to_nat n /\
    forall r, 0 <= r < n -> znth 0 (variable_lengths info) r + constant_length info + Z.of_nat (length (encode_value t m (values r))) <=
      znth 0 (variable_lengths info') r + constant_length info'.
Proof.
  intros Hn Hv Hval Hlen. pose proof (new_data_for t v n m Hv) as Hd. unfold GetSortKeyLength, GetPhysicalType.
  rewrite (data_for_type _ _ _ Hd). destruct (TypeIsConstantSize (InternalType t)) eqn:Ec.
  - eexists. split; [done |]. cbn [variable_lengths constant_length]. split; [done |]. intros r Hr. destruct (Hval r Hr) as [_ Hok].
    assert (exists op, type_operator t = Some op) as [op Hop].
    { destruct t as [p | | | | |]; try done. cbn in *. destruct (TypeIsConstantSize p) eqn:E; [| by rewrite ?E in Ec]. eauto. }
    pose proof (encode_constant_length t m _ op Hok Hop Ec). lia.
  - rewrite new_size. assert (forall r, r ∈ rows_of_chunk (mkChunk 0 n None) <-> 0 <= r < n) as Hrows by (intros r; apply elem_of_zrange).
    rewrite (length_appends t m (SortKeyVectorData_new v n m) (mkChunk 0 n None) values Hd).
    + cbn [mbind outcome_bind]. eexists. split; [done |]. cbn [variable_lengths constant_length]. rewrite length_extend. split; [done |].
      intros r Hr. rewrite znth_extend, top_chunk_write by lia. rewrite (proj2 (Z.leb_le _ _)), (proj2 (Z.ltb_lt _ _)) by lia. cbn [andb]. lia.
    + intros r Hr. by apply Hval, Hrows.
    + intros r Hr. by apply Hval, Hrows.
    + intros i Hi. rewrite top_chunk_write in Hi. destruct (_ && _) eqn:E; [| done]. bool_to_prop.
      exists (znth 0 (variable_lengths info) i). split; [apply zload_Some; lia | done].
Qed.

Lemma length_columns n ts ms vs columns info :
  0 <= n -> columns_ok n ts ms vs columns -> length (variable_lengths info) = Z.to_nat n ->
  exists info', run (fun key_lengths vd => GetSortKeyLength vd key_lengths) info (vector_data n vs ms) = Done info' /\
    length (variable_lengths info') = Z.to_nat n /\
    forall r, 0 <= r < n -> znth 0 (variable_lengths info) r + constant_length info + Z.of_nat (length (encode_row ts ms (row_of columns r))) <=
      znth 0 (variable_lengths info') r + constant_length info'.
Proof.
  intros Hn Hc. revert info. induction Hc as [| t m v values ts ms vs columns Hv Hval Hc IH]; intros info Hlen.
  - exists info. split; [done |]. split; [done |]. intros. cbn. lia.
  - destruct (length_column n t m v values info Hn Hv Hval Hlen) as (info1 & E1 & L1 & H1).
    destruct (IH info1 L1) as (info2 & E2 & L2 & H2). exists info2. cbn [zip_with run]. rewrite E1. cbn [mbind outcome_bind].
    split; [done |]. split; [done |]. intros r Hr. specialize (H1 r Hr). specialize (H2 r Hr).
    cbn [encode_row row_of fmap list_fmap]. rewrite length_app. unfold row_of in H2. lia.
Qed.

Definition row_write n ts ms columns (i : Z) : list Z := if (0 <=? i) && (i <? n) then encode_row ts ms (row_of columns i) else [].

Lemma construct_columns n ts ms vs columns :
  columns_ok n ts ms vs columns ->
  appends (fun rows => run (fun rows '(vd, m) => ConstructSortKey vd m rows) rows (zip (vector_data n vs ms) ms)) (row_write n ts ms columns).
Proof.
  induction 1 as [| t m v values ts ms vs columns Hv Hval Hc IH].
  - apply appends_done. intros i. unfold row_write. by destruct (_ && _).
  - eapply appends_ext; [| done | apply (appends_bind (fun rows => ConstructSortKey (SortKeyVectorData_new v n m) m rows)
      (fun rows => run (fun rows '(vd, m) => ConstructSortKey vd m rows) rows (zip (vector_data n vs ms) ms)));
      [unfold ConstructSortKey; rewrite new_size; apply (construct_appends t m _ _ values (new_data_for t v n m Hv)) | apply IH]].
    + intros i. cbn beta. rewrite top_chunk_write. unfold row_write. by destruct (_ && _).
    + intros r Hr%elem_of_zrange. by apply Hval.
Qed.

Lemma run_snoc {A B} (f : list B -> A -> outcome (list B)) (g : A -> B) l : forall s,
  (forall s a, a ∈ l -> f s a = Done (s ++ [g a])) -> run f s l = Done (s ++ (g <$> l)).
Proof.
  induction l as [| a l IH]; intros s Hf; [cbn; by rewrite app_nil_r |]. cbn [run]. rewrite Hf by (by left). cbn [mbind outcome_bind].
  fold (run f). rewrite IH by (intros; apply Hf; by right). by rewrite <- app_assoc.
Qed.

Lemma zload_fmap_zrange {A} (f : Z -> A) n r : 0 <= r < n -> zload (f <$> zrange 0 n) r = Some (f r).
Proof.
  intros Hr. rewrite zload_lookup by lia. rewrite list_lookup_fmap. unfold zrange. rewrite list_lookup_fmap, lookup_seq_lt by lia. cbn. by replace (0 + _) with r by lia.
Qed.

(** The rows once constructed: a prefix of each buffer is the key. *)
Lemma constructed_rows n ts ms columns (buffer : Z -> list Z) :
  (forall r, 0 <= r < n -> (length (encode_row ts ms (row_of columns r)) <= length (buffer r))%nat) ->
  let rows := (fun r => mkRow (buffer r) 0) <$> zrange 0 n in
  let key r := encode_row ts ms (row_of columns r) in
  fits (row_write n ts ms columns) rows /\
  extend (row_write n ts ms columns) rows =
    (fun r => mkRow (key r ++ drop (length (key r)) (buffer r)) (Z.of_nat (length (key r)))) <$> zrange 0 n.
Proof.
  intros Hb rows key. split.
  - intros i Hi. unfold row_write in *. destruct (_ && _) eqn:E; [| done]. bool_to_prop. exists (mkRow (buffer i) 0).
    split; [apply (zload_fmap_zrange (fun r => mkRow (buffer r) 0)); lia |]. cbn. unfold room. cbn. specialize (Hb i). lia.
  - apply list_eq. intros i. rewrite lookup_extend. unfold rows. rewrite !list_lookup_fmap. destruct (zrange 0 n !! i) as [r |] eqn:E; [| done].
    assert (0 <= r < n /\ r = Z.of_nat i) as [Hr ->].
    { split; [apply elem_of_zrange; by eapply list_elem_of_lookup_2 |]. unfold zrange in E. rewrite list_lookup_fmap in E.
      destruct (seq _ _ !! i) eqn:E'; [| done]. apply lookup_seq in E'. cbn in E. injection E as <-. lia. }
    cbn. unfold row_write. rewrite (proj2 (Z.leb_le _ _)), (proj2 (Z.ltb_lt _ _)) by lia. cbn [andb].
    unfold append_bytes. cbn. done.
Qed.

Lemma create_blobs junk n ts ms vs columns :
  0 <= n -> columns_ok n ts ms vs columns ->
  (forall r, 0 <= r < n -> Z.of_nat (length (encode_row ts ms (row_of columns r))) < 2 ^ 32) ->
  CreateSortKeyInternal junk (vector_data n vs ms) ms KEY_BLOB n = Done (Blobs ((fun r => encode_row ts ms (row_of columns r)) <$> zrange 0 n)).
Proof.
  intros Hn Hc Hsize. unfold CreateSortKeyInternal.
  destruct (length_columns n ts ms vs columns (SortKeyLengthInfo_new n) Hn Hc) as (info & -> & Hlen & Hl); [apply length_replicate |].
  assert (forall r, 0 <= r < n -> zload (variable_lengths info) r = Some (znth 0 (variable_lengths info) r)) as Hz by (intros; apply zload_Some; lia).
  cbn [mbind outcome_bind PrepareSortData]. set (buffer r := replicate (Z.to_nat (znth 0 (variable_lengths info) r + constant_length info)) junk).
  rewrite (run_snoc _ (fun r => mkRow (buffer r) 0)) by (intros s r Hr%elem_of_zrange; rewrite Hz by done; done).
  cbn [mbind outcome_bind app].
  destruct (constructed_rows n ts ms columns buffer) as [Hfit Hrows].
  { intros r Hr. unfold buffer. rewrite length_replicate. specialize (Hl r Hr). cbn [SortKeyLengthInfo_new variable_lengths constant_length] in Hl.
    unfold znth at 1 in Hl. rewrite lookup_replicate_2 in Hl by lia. cbn in Hl. lia. }
  rewrite (construct_columns n ts ms vs columns Hc) by done. cbn [mbind outcome_bind FinalizeSortData]. rewrite Hrows.
  rewrite (run_snoc _ (fun r => encode_row ts ms (row_of columns r))); [done |].
  intros s r Hr%elem_of_zrange. rewrite zload_fmap_zrange by done. cbn [access mbind outcome_bind row_offset row_data].
  rewrite (proj2 (Z.leb_gt _ _)) by (by apply Hsize). rewrite Nat2Z.id, take_app_length. done.
Qed.

(** *** Integer keys *)

Lemma null_byte_of_cases m valid : null_byte_of m valid = 1 \/ null_byte_of m valid = 2.
Proof. unfold null_byte_of, null_bytes. case_decide; destruct valid; cbn; auto. Qed.

Lemma null_byte_of_byte m valid : is_byte (null_byte_of m valid).
Proof. destruct (null_byte_of_cases m valid) as [-> | ->]; done. Qed.

Lemma list_delimiter_byte f : is_byte (list_delimiter f).
Proof. by destruct f. Qed.

Lemma flip_if_bytes f bytes : Forall is_byte bytes -> Forall is_byte (flip_if f bytes).
Proof. intros Hb. destruct f; [| done]. apply Forall_fmap, (Forall_impl _ _ _ Hb). intros b. unfold compose, is_byte, not_byte. lia. Qed.

Lemma encode_value_bytes t : forall m v, value_ok t v -> Forall is_byte (encode_value t m v).
Proof.
  assert (forall t op m v, type_operator t = Some op -> value_ok t v -> Forall is_byte (encode_value t m v)) as Hscalar.
  { intros t' op m v Hop Hv. pose proof (type_operator_laws t' op Hop) as Hlaws. destruct Hv as [t' op' _ | t' op' v _ Hs | | | |]; try done.
    - rewrite (encode_null t' m op) by done. apply Forall_cons_2; [apply null_byte_of_byte | done].
    - rewrite (encode_scalar t' m op) by done. apply Forall_cons_2; [apply null_byte_of_byte | by apply flip_if_bytes, encode_bytes]. }
  assert (forall t m es, (forall m v, value_ok t v -> Forall is_byte (encode_value t m v)) -> Forall (value_ok t) es ->
    Forall is_byte (concat (encode_value t m <$> es) ++ [list_delimiter (flips m)])) as Helements.
  { intros t' m es IH Hes. apply Forall_app_2; [| apply Forall_cons_2; [apply list_delimiter_byte | done]].
    apply Forall_concat, Forall_fmap, (Forall_impl _ _ _ Hes). intros v. apply IH. }
  induction t as [p | | | ts IH | t IH | t n IH] using type_induction; intros m v Hv.
  - inversion Hv; subst; by apply (Hscalar _ op).
  - by apply (Hscalar _ SortKeyVarcharOperator).
  - by apply (Hscalar _ SortKeyBlobOperator).
  - inversion Hv as [| | ? valid fields Hf _ | | |]; subst; try done. cbn [encode_value]. apply Forall_cons_2; [apply null_byte_of_byte |].
    clear - IH Hf. induction Hf; [done |]. apply Forall_cons in IH as [IH1 IH2]. cbn [zip_with concat]. apply Forall_app_2; [by apply IH1 | by apply IHHf].
  - inversion Hv as [| | | | ? es Hes |]; subst; try done; cbn [encode_value]; (apply Forall_cons_2; [apply null_byte_of_byte |]); [done |].
    by apply (Helements t (child_modifiers m)).
  - inversion Hv as [| | | | | ? ? valid es Hes _ _]; subst; try done. cbn [encode_value]. apply Forall_cons_2; [apply null_byte_of_byte |].
    by apply (Helements t (child_modifiers m)).
Qed.

Lemma encode_row_bytes ts ms vs : Forall2 value_ok ts vs -> Forall is_byte (encode_row ts ms vs).
Proof.
  intros H. revert ms. induction H as [| t v ts vs Hv Hvs IH]; intros ms; [done |]. destruct ms as [| m ms]; [done |].
  cbn [encode_row]. apply Forall_app_2; [by apply encode_value_bytes | apply IH].
Qed.

Lemma columns_values n ts ms vs columns r : columns_ok n ts ms vs columns -> 0 <= r < n -> Forall2 value_ok ts (row_of columns r).
Proof. intros Hc Hr. induction Hc as [| t m v values ts ms vs columns Hv Hval Hc IH]; constructor; [by apply Hval | done]. Qed.

Lemma columns_types n ts ms vs columns : columns_ok n ts ms vs columns -> vector_type <$> vs = ts.
Proof. induction 1 as [| t m v values ts ms vs columns Hv Hval Hc IH]; [done |]. cbn. by rewrite IH, (vector_for_type _ _ Hv). Qed.

(** The key of 8 bytes: zeros follow the encoded row. *)
Definition pad8 (bytes : list Z) : list Z := bytes ++ replicate (8 - length bytes) 0.

Lemma constant_key_size_fold ts : forall b s,
  foldl (fun '(all_constant, constant_size) t =>
    let physical_type := InternalType t in
    if negb (TypeIsConstantSize physical_type) then (false, constant_size)
    else (all_constant, constant_size + (Z.of_nat (GetTypeIdSize physical_type) + 1))) (b, s) ts =
  (b && forallb (fun t => TypeIsConstantSize (InternalType t)) ts,
   s + zsum (fun t => if TypeIsConstantSize (InternalType t) then Z.of_nat (GetTypeIdSize (InternalType t)) + 1 else 0) ts).
Proof.
  induction ts as [| t ts IH]; intros b s; [cbn; by rewrite andb_true_r, Z.add_0_r |]. cbn [foldl forallb]. cbv zeta. rewrite zsum_cons.
  destruct (TypeIsConstantSize (InternalType t)); cbn [negb andb]; rewrite IH, ?andb_false_r; f_equal; lia.
Qed.

Lemma constant_row_length n ts ms vs columns r :
  columns_ok n ts ms vs columns -> 0 <= r < n -> bind_key_type ts = KEY_BIGINT ->
  (length (encode_row ts ms (row_of columns r)) <= 8)%nat.
Proof.
  intros Hc Hr Hb. unfold bind_key_type, constant_key_size in Hb. rewrite constant_key_size_fold in Hb. cbn [andb] in Hb.
  destruct (forallb _ ts) eqn:Ef; [| done]. destruct (Z.leb_spec (0 + zsum (fun t => if TypeIsConstantSize (InternalType t) then Z.of_nat (GetTypeIdSize (InternalType t)) + 1 else 0) ts) 8) as [Hs |]; [| done].
  clear Hb. enough (Z.of_nat (length (encode_row ts ms (row_of columns r))) <= zsum (fun t => if TypeIsConstantSize (InternalType t) then Z.of_nat (GetTypeIdSize (InternalType t)) + 1 else 0) ts) by lia.
  clear Hs. induction Hc as [| t m v values ts ms vs columns Hv Hval Hc IH]; [done |]. cbn [forallb] in Ef. apply andb_prop in Ef as [Et Ef].
  rewrite zsum_cons, Et. cbn [encode_row row_of fmap list_fmap]. rewrite length_app. specialize (IH Ef). unfold row_of in IH.
  assert (exists op, type_operator t = Some op) as [op Hop].
  { destruct t as [p | | | | |]; try done. cbn in *. destruct (TypeIsConstantSize p) eqn:E; [| by rewrite ?E in Et]. eauto. }
  pose proof (encode_constant_length t m (values r) op (proj2 (Hval r Hr)) Hop Et). lia.
Qed.

(** The first byte of a row is 1 or 2, so that the integer is not negative. *)
Lemma encode_row_head ts ms vs : encode_row ts ms vs = [] \/ exists b bytes, encode_row ts ms vs = b :: bytes /\ (b = 1 \/ b = 2).
Proof.
  destruct ts as [| t ts], ms as [| m ms], vs as [| v vs]; try (by left). right. cbn [encode_row].
  destruct (encode_value_head t m v) as (valid & bytes & ->). eexists _, _. split; [done | apply null_byte_of_cases].
Qed.

Lemma pad8_bytes bytes : (length bytes <= 8)%nat -> Forall is_byte bytes -> length (pad8 bytes) = 8%nat /\ Forall is_byte (pad8 bytes).
Proof.
  intros Hl Hb. split; [unfold pad8; rewrite length_app, length_replicate; lia |]. apply Forall_app_2; [done | by apply Forall_replicate].
Qed.

Lemma pad8_bound bytes :
  (length bytes <= 8)%nat -> Forall is_byte bytes -> (bytes = [] \/ exists b bytes', bytes = b :: bytes' /\ (b = 1 \/ b = 2)) ->
  0 <= be_load (pad8 bytes) < 2 ^ 63.
Proof.
  intros Hl Hb Hhd. destruct (pad8_bytes bytes Hl Hb) as [H8 Hp].
  destruct Hhd as [-> | (b & bytes' & -> & Hhd)]; [done |]. unfold pad8 in *. cbn [app be_load length] in *. apply Forall_cons in Hp as [_ Hp].
  set (tl := bytes' ++ _) in *. pose proof (be_load_bound _ Hp) as Hlt. assert (length tl = 7%nat) as H7 by lia. rewrite H7 in *. cbn in Hlt. destruct Hhd as [-> | ->]; cbn; lia.
Qed.

Lemma bigint_key bytes :
  (length bytes <= 8)%nat -> Forall is_byte bytes -> (bytes = [] \/ exists b bytes', bytes = b :: bytes' /\ (b = 1 \/ b = 2)) ->
  i64 (BSwap (le_load (pad8 bytes))) = be_load (pad8 bytes).
Proof.
  intros Hl Hb Hhd. destruct (pad8_bytes bytes Hl Hb) as [H8 Hp]. rewrite BSwap_le_load by done. apply i64_small.
  pose proof (pad8_bound bytes Hl Hb Hhd). lia.
Qed.

Lemma create_bigints junk n ts ms vs columns :
  0 <= n -> columns_ok n ts ms vs columns -> bind_key_type ts = KEY_BIGINT ->
  CreateSortKeyInternal junk (vector_data n vs ms) ms KEY_BIGINT n =
    Done (Bigints ((fun r => be_load (pad8 (encode_row ts ms (row_of columns r)))) <$> zrange 0 n)).
Proof.
  intros Hn Hc Hbind. unfold CreateSortKeyInternal.
  destruct (length_columns n ts ms vs columns (SortKeyLengthInfo_new n) Hn Hc) as (info & -> & _ & _); [apply length_replicate |].
  cbn [mbind outcome_bind PrepareSortData]. rewrite (run_snoc _ (fun r => mkRow (le_store 8 0) 0)) by done. cbn [mbind outcome_bind app].
  destruct (constructed_rows n ts ms columns (fun _ => le_store 8 0)) as [Hfit Hrows].
  { intros r Hr. rewrite length_le_store. by apply (constant_row_length n ts ms vs columns). }
  rewrite (construct_columns n ts ms vs columns Hc) by done. cbn [mbind outcome_bind FinalizeSortData]. rewrite Hrows.
  rewrite (run_snoc _ (fun r => be_load (pad8 (encode_row ts ms (row_of columns r))))); [done |].
  intros s r Hr%elem_of_zrange. rewrite zload_fmap_zrange by done. cbn [access mbind outcome_bind row_offset row_data].
  assert (forall k, drop k (le_store 8 0) = replicate (8 - k) 0) as ->.
  { intros k. change (le_store 8 0) with (replicate 8 0). apply drop_replicate. }
  fold (pad8 (encode_row ts ms (row_of columns r))). rewrite bigint_key; [done | | |].
  - by apply (constant_row_length n ts ms vs columns).
  - by eapply encode_row_bytes, columns_values.
  - apply encode_row_head.
Qed.

Definition row_key (ts : list LogicalType) (ms : list OrderModifiers) (columns : list (Z -> SortValue)) (r : Z) : list Z :=
  encode_row ts ms (row_of columns r).

(** The keys of the rows [0, n). *)
Definition keys_of (n : Z) (ts : list LogicalType) (ms : list OrderModifiers) (columns : list (Z -> SortValue)) : SortKeys :=
  match bind_key_type ts with
  | KEY_BIGINT => Bigints ((fun r => be_load (pad8 (row_key ts ms columns r))) <$> zrange 0 n)
  | _ => Blobs (row_key ts ms columns <$> zrange 0 n)
  end.

Lemma bind_key_type_cases ts : bind_key_type ts = KEY_BLOB \/ bind_key_type ts = KEY_BIGINT.
Proof. unfold bind_key_type. destruct (constant_key_size ts). destruct (_ && _); auto. Qed.

Lemma create_keys junk n ts ms vs columns :
  0 <= n -> columns_ok n ts ms vs columns ->
  (forall r, 0 <= r < n -> Z.of_nat (length (row_key ts ms columns r)) < 2 ^ 32) ->
  CreateSortKeyFunction junk vs n ms = Done (keys_of n ts ms columns).
Proof.
  intros Hn Hc Hsize. unfold CreateSortKeyFunction, keys_of. rewrite (columns_types n ts ms vs columns Hc).
  destruct (bind_key_type_cases ts) as [E | E]; rewrite E; [by apply create_blobs | by apply create_bigints].
Qed.

(** C14. [create_sort_key] computes, without writing outside of the keys that it has allocated,
    for each row the bytes of its values one after the other: a byte for NULL or valid, the
    encoded value turned around for a descending column, the fields of a struct, the elements
    of a list and a delimiter; as an integer when all the columns have a constant size and
    the key has at most 8 bytes. *)
Theorem CreateSortKeyFunction_keys junk n ts ms vs columns :
  0 <= n -> columns_ok n ts ms vs columns ->
  (forall r, 0 <= r < n -> Z.of_nat (length (row_key ts ms columns r)) < 2 ^ 32) ->
  CreateSortKeyFunction junk vs n ms = Done (keys_of n ts ms columns).
Proof. apply create_keys. Qed.

(** C37. The keys have the type that [CreateSortKeyBind] chose: one key for each row; integers
    from 0 to 2^63 - 1, or strings of bytes whose length fits 32 bits. *)
Theorem CreateSortKeyFunction_type junk n ts ms vs columns keys :
  0 <= n -> columns_ok n ts ms vs columns ->
  (forall r, 0 <= r < n -> Z.of_nat (length (row_key ts ms columns r)) < 2 ^ 32) ->
  CreateSortKeyFunction junk vs n ms = Done keys ->
  match bind_key_type (vector_type <$> vs), keys with
  | KEY_BIGINT, Bigints keys => Z.of_nat (length keys) = n /\ Forall (fun key => 0 <= key < 2 ^ 63) keys
  | KEY_BLOB, Blobs keys => Z.of_nat (length keys) = n /\ Forall (fun key => Forall is_byte key /\ Z.of_nat (length key) < 2 ^ 32) keys
  | _, _ => False
  end.
Proof.
  intros Hn Hc Hsize Hk. rewrite (create_keys junk n ts ms vs columns Hn Hc Hsize) in Hk. injection Hk as <-.
  rewrite (columns_types n ts ms vs columns Hc). unfold keys_of.
  destruct (bind_key_type_cases ts) as [E | E]; rewrite E; rewrite length_fmap, length_zrange; (split; [lia |]); apply Forall_fmap, Forall_forall;
    intros r Hr%elem_of_zrange; unfold compose.
  - split; [by eapply encode_row_bytes, columns_values | by apply Hsize].
  - apply pad8_bound; [by apply (constant_row_length n ts ms vs columns) | by eapply encode_row_bytes, columns_values | apply encode_row_head].
Qed.

(** ** An example: a list of structs and an array of blobs, with NULLs and a selection vector *)

Definition example_types : list LogicalType :=
  [LIST_TYPE (STRUCT_TYPE [FIXED_TYPE INT32; VARCHAR_TYPE]); ARRAY_TYPE BLOB_TYPE 2].

Definition example_modifiers : list OrderModifiers := [mkModifiers DESCENDING NULLS_LAST; mkModifiers ASCENDING NULLS_FIRST].

Definition example_vectors : list Vector :=
  [mkVector (LIST_TYPE (STRUCT_TYPE [FIXED_TYPE INT32; VARCHAR_TYPE]))
     (mkFormat None (mkMask (Some [5]) 64) [] [mkListEntry 0 2; mkListEntry 2 0; mkListEntry 2 1]) 3
     [mkVector (STRUCT_TYPE [FIXED_TYPE INT32; VARCHAR_TYPE]) (mkFormat None (mkMask (Some [3]) 64) [] []) 0
       [mkVector (FIXED_TYPE INT32) (mkFormat None (mkMask (Some [3]) 64) [s_int 1; s_int (-2); s_int 0] []) 0 [];
        mkVector VARCHAR_TYPE (mkFormat (Some [1; 0; 2]) (mkMask (Some [3]) 64) [s_bytes [65; 66]; s_bytes []; s_bytes []] []) 0 []]];
   mkVector (ARRAY_TYPE BLOB_TYPE 2) (mkFormat (Some [1; 0; 1]) (mkMask (Some [2]) 64) [] []) 0
     [mkVector BLOB_TYPE (mkFormat None (mkMask (Some [8]) 64) [s_bytes []; s_bytes []; s_bytes []; s_bytes [0; 1; 255]] []) 0 []]].

Definition example_columns : list (Z -> SortValue) :=
  [(fun r => if r =? 0 then sv_list [sv_struct true [sv_scalar (s_int 1); sv_scalar (s_bytes [])]; sv_struct true [sv_scalar (s_int (-2)); sv_scalar (s_bytes [65; 66])]]
             else if r =? 1 then sv_null else sv_list [sv_struct false [sv_null; sv_null]]);
   (fun r => if r =? 1 then sv_array false [sv_null; sv_null] else sv_array true [sv_null; sv_scalar (s_bytes [0; 1; 255])])].

Ltac values_ok :=
  repeat match goal with
  | |- value_ok (FIXED_TYPE ?p) sv_null => apply (ok_null _ (SortKeyConstantOperator p)); reflexivity
  | |- value_ok VARCHAR_TYPE sv_null => apply (ok_null _ SortKeyVarcharOperator); reflexivity
  | |- value_ok BLOB_TYPE sv_null => apply (ok_null _ SortKeyBlobOperator); reflexivity
  | |- value_ok (FIXED_TYPE ?p) (sv_scalar _) => apply (ok_scalar _ (SortKeyConstantOperator p)); [reflexivity | vm_compute; split; congruence]
  | |- value_ok VARCHAR_TYPE (sv_scalar _) => apply (ok_scalar _ SortKeyVarcharOperator); [reflexivity |]; eexists; split; [reflexivity | repeat apply Forall_cons_2; try apply Forall_nil_2; vm_compute; split; congruence]
  | |- value_ok BLOB_TYPE (sv_scalar _) => apply (ok_scalar _ SortKeyBlobOperator); [reflexivity |]; eexists; split; [reflexivity | repeat apply Forall_cons_2; try apply Forall_nil_2; vm_compute; split; congruence]
  | |- value_ok (LIST_TYPE _) sv_null => apply ok_null_list
  | |- value_ok (LIST_TYPE _) (sv_list _) => apply ok_list
  | |- value_ok (STRUCT_TYPE _) _ => apply ok_struct
  | |- value_ok (ARRAY_TYPE _ _) _ => apply ok_array
  | |- Forall _ [] => apply Forall_nil_2
  | |- Forall _ (_ :: _) => apply Forall_cons_2
  | |- Forall2 _ [] [] => apply Forall2_nil
  | |- Forall2 _ (_ :: _) (_ :: _) => apply Forall2_cons_2
  | |- _ = _ -> _ => intros ?; try discriminate
  | |- is_null _ = true => reflexivity
  | |- True => exact I
  | |- Z.of_nat _ = _ => reflexivity
  end.

Lemma example_vectors_for : Forall2 vector_for example_types example_vectors.
Proof.
  repeat constructor; try done.
  - by apply (vector_scalar _ _ _ (SortKeyConstantOperator INT32)).
  - by apply (vector_scalar _ _ _ SortKeyVarcharOperator).
  - by apply (vector_scalar _ _ _ SortKeyBlobOperator).
Qed.

Lemma example_columns_ok : columns_ok 3 example_types example_modifiers example_vectors example_columns.
Proof.
  pose proof example_vectors_for as Hv. apply Forall2_cons in Hv as [Hv1 [Hv2 _]%Forall2_cons].
  assert (forall P : Z -> Prop, P 0 -> P 1 -> P 2 -> forall r, 0 <= r < 3 -> P r) as Hrows.
  { intros P H0 H1 H2 r Hr. assert (r = 0 \/ r = 1 \/ r = 2) as [-> | [-> | ->]] by lia; done. }
  apply columns_cons; [exact Hv1 | | apply columns_cons; [exact Hv2 | | apply columns_nil]].
  - apply Hrows; (split; [vm_compute; reflexivity |]); cbn; values_ok.
  - apply Hrows; (split; [vm_compute; reflexivity |]); cbn; values_ok.
Qed.

Lemma example_sizes : forall r, 0 <= r < 3 -> Z.of_nat (length (row_key example_types example_modifiers example_columns r)) < 2 ^ 32.
Proof. intros r Hr. assert (r = 0 \/ r = 1 \/ r = 2) as [-> | [-> | ->]] by lia; vm_compute; reflexivity. Qed.

Lemma CreateSortKeyFunction_keys_witness :
  CreateSortKeyFunction 255 example_vectors 3 example_modifiers = Done (keys_of 3 example_types example_modifiers example_columns).
Proof. apply (CreateSortKeyFunction_keys 255 3 example_types example_modifiers example_vectors example_columns); [lia | apply example_columns_ok | apply example_sizes]. Defined.

Lemma CreateSortKeyFunction_type_witness :
  CreateSortKeyFunction 255 example_vectors 3 example_modifiers = Done (keys_of 3 example_types example_modifiers example_columns) /\
  match bind_key_type (vector_type <$> example_vectors), keys_of 3 example_types example_modifiers example_columns with
  | KEY_BIGINT, Bigints keys => Z.of_nat (length keys) = 3 /\ Forall (fun key => 0 <= key < 2 ^ 63) keys
  | KEY_BLOB, Blobs keys => Z.of_nat (length keys) = 3 /\ Forall (fun key => Forall is_byte key /\ Z.of_nat (length key) < 2 ^ 32) keys
  | _, _ => False
  end.
Proof.
  assert (CreateSortKeyFunction 255 example_vectors 3 example_modifiers = Done (keys_of 3 example_types example_modifiers example_columns)) as E by (vm_compute; reflexivity).
  split; [exact E |].
  apply (CreateSortKeyFunction_type 255 3 example_types example_modifiers example_vectors example_columns); [lia | apply example_columns_ok | apply example_sizes | exact E].
Defined.
