(* ===== verification/SortKeyOrder.v ===== *)
(** * The order of the sort keys

    The keys of create_sort_key.cpp compare, byte by byte (or as integers), as the rows
    do: column by column, ascending or descending, NULLs first or last, and inside of
    nested values with NULL after every value in ascending order. *)

From S2P Require Import Prelude Validity SortKey Radix CreateSortKey SortKeyOperators SortKeyLayout.

(** ** The order of values *)

(** Columns of a struct, one after the other. *)
Definition lex_fields {A} (cmp : A -> SortValue -> SortValue -> comparison) : list A -> list SortValue -> list SortValue -> comparison :=
  fix go ts vs ws :=
    match ts, vs, ws with
    | t :: ts, v :: vs, w :: ws => cmp t v w ▷ go ts vs ws
    | _, _, _ => Eq
    end.

(** Lists: a prefix comes before. *)
Definition list_compare (cmp : SortValue -> SortValue -> comparison) : list SortValue -> list SortValue -> comparison :=
  fix go vs ws :=
    match vs, ws with
    | [], [] => Eq
    | [], _ :: _ => Lt
    | _ :: _, [] => Gt
    | v :: vs, w :: ws => cmp v w ▷ go vs ws
    end.

(** The ascending order, with NULL greater than every value. *)
Fixpoint natural_compare (t : LogicalType) (v w : SortValue) : comparison :=
  if is_null v then (if is_null w then Eq else Gt)
  else if is_null w then Lt
  else
    match t, v, w with
    | STRUCT_TYPE ts, sv_struct _ vs, sv_struct _ ws => lex_fields natural_compare ts vs ws
    | LIST_TYPE t, sv_list vs, sv_list ws => list_compare (natural_compare t) vs ws
    | ARRAY_TYPE t _, sv_array _ vs, sv_array _ ws => list_compare (natural_compare t) vs ws
    | _, sv_scalar a, sv_scalar b => type_compare t a b
    | _, _, _ => Eq
    end.

Definition directed (m : OrderModifiers) (c : comparison) : comparison := if flips m then CompOpp c else c.

Definition null_compare (m : OrderModifiers) : comparison := if decide (null_type m = NULLS_LAST) then Gt else Lt.

(** The order of the modifiers of a column. *)
Definition compare_value (t : LogicalType) (m : OrderModifiers) (v w : SortValue) : comparison :=
  if is_null v then (if is_null w then Eq else null_compare m)
  else if is_null w then CompOpp (null_compare m)
  else directed m (natural_compare t v w).

Fixpoint row_compare (ts : list LogicalType) (ms : list OrderModifiers) (vs ws : list SortValue) : comparison :=
  match ts, ms, vs, ws with
  | t :: ts, m :: ms, v :: vs, w :: ws => compare_value t m v w ▷ row_compare ts ms vs ws
  | _, _, _, _ => Eq
  end.

Definition key_compare (keys : SortKeys) (r s : Z) : comparison :=
  match keys with
  | Blobs keys => byte_compare (znth [] keys r) (znth [] keys s)
  | Bigints keys => Z.compare (znth 0 keys r) (znth 0 keys s)
  end.

(** [ASC] or [DESC], as [OrderModifiers::Parse] gives them. *)
Definition parsed (m : OrderModifiers) : Prop := order_type m = ASCENDING \/ order_type m = DESCENDING.

(** ** Keys of values *)

Lemma directed_then m c d : directed m (c ▷ d) = directed m c ▷ directed m d.
Proof. unfold directed. destruct (flips m), c; done. Qed.

Lemma flips_parsed m : parsed m -> order_type m = if flips m then DESCENDING else ASCENDING.
Proof. unfold flips. intros [-> | ->]; done. Qed.

Lemma parsed_child m : parsed m -> parsed (child_modifiers m).
Proof. done. Qed.

(** In nested values, NULL is greater than the values in the order of the column. *)
Lemma compare_child t m v w : parsed m -> compare_value t (child_modifiers m) v w = directed m (natural_compare t v w).
Proof.
  intros Hm. unfold compare_value. assert (null_compare (child_modifiers m) = directed m Gt) as ->.
  { unfold null_compare, directed, child_modifiers. cbn [null_type]. rewrite (flips_parsed m Hm). by destruct (flips m). }
  unfold directed. rewrite flips_child.
  destruct (is_null v) eqn:Ev, (is_null w) eqn:Ew; destruct t; cbn [natural_compare]; rewrite ?Ev, ?Ew; by destruct (flips m).
Qed.

Lemma head_compare m a b s t :
  byte_compare (null_byte_of m a :: s) (null_byte_of m b :: t) =
    if a then (if b then byte_compare s t else CompOpp (null_compare m))
    else (if b then null_compare m else byte_compare s t).
Proof. unfold null_byte_of, null_bytes, null_compare. case_decide; destruct a, b; done. Qed.

Lemma scalar_code t m op :
  type_operator t = Some op -> is_code (value_ok t) (encode_value t m) (compare_value t m).
Proof.
  intros Hop v w s r Hv Hw. pose proof (type_operator_laws t op Hop) as Hlaws.
  assert (forall v, value_ok t v -> v = sv_null \/ exists a, v = sv_scalar a /\ type_ok t a) as Hcases.
  { intros v' Hv'. inversion Hv'; subst; eauto; done. }
  destruct (Hcases v Hv) as [-> | (a & -> & Ha)], (Hcases w Hw) as [-> | (b & -> & Hb)];
    rewrite ?(encode_null t m op Hop), ?(encode_scalar t m op _ Hop); cbn [app]; rewrite head_compare; unfold compare_value; cbn [is_null].
  - done.
  - unfold null_compare. by case_decide.
  - unfold null_compare. by case_decide.
  - rewrite (flip_if_code _ _ _ (flips m) (encode_code (OperatorLaws := Hlaws))) by done. f_equal. unfold directed.
    assert (natural_compare t (sv_scalar a) (sv_scalar b) = type_compare t a b) as -> by (by destruct t). done.
Qed.

Lemma fields_code ts m :
  Forall (fun t => is_code (value_ok t) (encode_value t m) (compare_value t m)) ts ->
  is_code (Forall2 value_ok ts) (fun fs => concat (zip_with (fun t v => encode_value t m v) ts fs)) (lex_fields (fun t => compare_value t m) ts).
Proof.
  induction 1 as [| t ts Ht Hts IH]; intros fs gs s r Hf Hg.
  - done.
  - destruct fs as [| f fs], gs as [| g gs]; first [by inversion Hf | by inversion Hg | idtac]. apply Forall2_cons in Hf as [Hf1 Hf], Hg as [Hg1 Hg].
    cbn [zip_with concat lex_fields]. rewrite <- !app_assoc, Ht, IH, then_assoc by done. done.
Qed.

Lemma lex_fields_null m ts fs gs :
  Forall (fun v => is_null v = true) fs -> Forall (fun v => is_null v = true) gs -> lex_fields (fun t => compare_value t m) ts fs gs = Eq.
Proof.
  intros Hf. revert ts gs. induction Hf as [| f fs Hf Hfs IH]; intros ts gs Hg; destruct ts, Hg as [| g gs Hg Hgs]; try done.
  cbn [lex_fields]. unfold compare_value at 1. rewrite Hf, Hg. by apply IH.
Qed.

Lemma lex_fields_child m ts fs gs : parsed m ->
  lex_fields (fun t => compare_value t (child_modifiers m)) ts fs gs = directed m (lex_fields natural_compare ts fs gs).
Proof.
  intros Hm. revert fs gs. induction ts as [| t ts IH]; intros fs gs; [unfold directed; by destruct (flips m) |].
  destruct fs, gs; try (unfold directed; by destruct (flips m)). cbn [lex_fields]. by rewrite directed_then, IH, compare_child.
Qed.

Lemma delimiter_head f t m v s r bytes :
  byte_compare (list_delimiter f :: s) ((encode_value t m v ++ bytes) ++ r) = (if f then Gt else Lt) /\
  byte_compare ((encode_value t m v ++ bytes) ++ r) (list_delimiter f :: s) = (if f then Lt else Gt).
Proof.
  destruct (encode_value_head t m v) as (valid & rest & ->). cbn [app byte_compare].
  destruct (null_byte_of_cases m valid) as [-> | ->]; by destruct f.
Qed.

Lemma elements_code t m :
  parsed m -> is_code (value_ok t) (encode_value t (child_modifiers m)) (compare_value t (child_modifiers m)) ->
  is_code (Forall (value_ok t)) (fun es => concat (encode_value t (child_modifiers m) <$> es) ++ [list_delimiter (flips m)])
    (fun vs ws => directed m (list_compare (natural_compare t) vs ws)).
Proof.
  intros Hm Ht vs ws s r Hv. revert ws. induction Hv as [| v vs Hv Hvs IH]; intros ws Hw; destruct Hw as [| w ws Hw Hws]; cbn [fmap list_fmap concat list_compare].
  - cbn. rewrite Z.compare_refl. unfold directed. by destruct (flips m).
  - cbn [app]. rewrite <- (app_assoc (encode_value _ _ _)). rewrite (proj1 (delimiter_head (flips m) t (child_modifiers m) w s r _)).
    unfold directed. by destruct (flips m).
  - cbn [app]. rewrite <- (app_assoc (encode_value _ _ _)). rewrite (proj2 (delimiter_head (flips m) t (child_modifiers m) v r s _)).
    unfold directed. by destruct (flips m).
  - rewrite <- !(app_assoc (encode_value _ _ _)), Ht, directed_then, compare_child by done. rewrite then_assoc. f_equal. by apply IH.
Qed.

Lemma list_compare_null t vs ws :
  length vs = length ws -> Forall (fun v => is_null v = true) vs -> Forall (fun v => is_null v = true) ws ->
  list_compare (natural_compare t) vs ws = Eq.
Proof.
  intros Hl Hv. revert ws Hl. induction Hv as [| v vs Hv Hvs IH]; intros [| w ws] Hl Hw; try done. apply Forall_cons in Hw as [Hw Hws].
  cbn [list_compare]. assert (natural_compare t v w = Eq) as -> by (destruct t; cbn [natural_compare]; by rewrite Hv, Hw). apply IH; [| done]. by injection Hl.
Qed.

(** A nested value: the byte of its validity and the code of its fields or elements. *)
Lemma nested_compare m a b s t c (cs : comparison) :
  (a = false -> b = false -> c = Eq) ->
  byte_compare s t = c ▷ cs ->
  byte_compare (null_byte_of m a :: s) (null_byte_of m b :: t) =
    (if a then (if b then c else CompOpp (null_compare m)) else (if b then null_compare m else Eq)) ▷ cs.
Proof.
  intros Hc Hs. rewrite head_compare. destruct a, b; [done | | | by rewrite Hs, Hc];
    unfold null_compare; by case_decide.
Qed.

Lemma value_code t : forall m, parsed m -> is_code (value_ok t) (encode_value t m) (compare_value t m).
Proof.
  induction t as [p | | | ts IH | t IH | t n IH] using type_induction; intros m Hm.
  - destruct (TypeIsConstantSize p) eqn:E; [apply (scalar_code _ _ (SortKeyConstantOperator p)); cbn; by rewrite E |].
    intros v w s r Hv. exfalso. inversion Hv as [? op Hop | ? op ? Hop | | | |]; subst; cbn in Hop; by rewrite E in Hop.
  - by apply (scalar_code _ _ SortKeyVarcharOperator).
  - by apply (scalar_code _ _ SortKeyBlobOperator).
  - intros v w s r Hv Hw. inversion Hv as [| | ? a fs Hf Hfn | | |]; subst; try done. inversion Hw as [| | ? b gs Hg Hgn | | |]; subst; try done.
    cbn [encode_value app]. rewrite (nested_compare m a b _ _ (directed m (lex_fields natural_compare ts fs gs)) (byte_compare s r)).
    + f_equal. unfold compare_value. destruct a, b; done.
    + intros Ha Hb. rewrite <- lex_fields_child by done. apply lex_fields_null; [by apply Hfn | by apply Hgn].
    + rewrite <- lex_fields_child by done. apply fields_code; [| done | done]. apply (Forall_impl _ _ _ IH). intros t Ht. by apply Ht.
  - intros v w s r Hv Hw. pose proof (elements_code t m Hm (IH _ (parsed_child m Hm))) as Hcode.
    inversion Hv as [| | | | ? vs Hvs |]; subst; try done; inversion Hw as [| | | | ? ws Hws |]; subst; try done; cbn [encode_value].
    + cbn [app]. rewrite head_compare. done.
    + cbn [app]. rewrite head_compare. unfold compare_value, null_compare. cbn. by case_decide.
    + cbn [app]. rewrite head_compare. unfold compare_value, null_compare. cbn. by case_decide.
    + rewrite <- !app_comm_cons. rewrite (nested_compare m true true _ _ (directed m (list_compare (natural_compare t) vs ws)) (byte_compare s r)); [done.. |].
      by apply Hcode.
  - intros v w s r Hv Hw. pose proof (elements_code t m Hm (IH _ (parsed_child m Hm))) as Hcode.
    inversion Hv as [| | | | | ? ? a vs Hvs Hvl Hvn]; subst; try done. inversion Hw as [| | | | | ? ? b ws Hws Hwl Hwn]; subst; try done.
    cbn [encode_value]. rewrite <- !app_comm_cons.
    rewrite (nested_compare m a b _ _ (directed m (list_compare (natural_compare t) vs ws)) (byte_compare s r)).
    + f_equal. unfold compare_value. destruct a, b; done.
    + intros Ha Hb. rewrite list_compare_null; [unfold directed; by destruct (flips m) | lia | by apply Hvn | by apply Hwn].
    + by apply Hcode.
Qed.

(** ** Keys of rows *)

Lemma row_code ts ms : length ts = length ms -> Forall parsed ms -> is_code (Forall2 value_ok ts) (encode_row ts ms) (row_compare ts ms).
Proof.
  revert ms. induction ts as [| t ts IH]; intros [| m ms] Hl Hm vs ws s r Hv Hw; try done.
  apply Forall_cons in Hm as [Hm Hms]. destruct vs as [| v vs], ws as [| w ws]; first [by inversion Hv | by inversion Hw | idtac].
  apply Forall2_cons in Hv as [Hv Hvs], Hw as [Hw Hws]. cbn [encode_row row_compare].
  rewrite <- !app_assoc, (value_code t m Hm), IH, then_assoc by (done || by injection Hl). done.
Qed.

Lemma columns_length n ts ms vs columns : columns_ok n ts ms vs columns -> length ts = length ms.
Proof. induction 1; cbn; congruence. Qed.

(** All the keys of a table of constant types are as long as the table is wide, or shorter. *)
Lemma byte_compare_pad l r k : Forall is_byte l -> Forall is_byte r ->
  (forall s t, byte_compare (l ++ s) (r ++ t) = byte_compare l r ▷ byte_compare s t) ->
  (length l <= k)%nat -> (length r <= k)%nat ->
  byte_compare (l ++ replicate (k - length l) 0) (r ++ replicate (k - length r) 0) = byte_compare l r.
Proof.
  intros Hl Hr Hc Hkl Hkr. rewrite Hc. destruct (byte_compare l r) eqn:E; [| done..]. apply byte_compare_eq in E as ->.
  cbn. apply byte_compare_refl.
Qed.

Lemma keys_compare n ts ms vs columns r s :
  columns_ok n ts ms vs columns -> Forall parsed ms -> 0 <= r < n -> 0 <= s < n ->
  key_compare (keys_of n ts ms columns) r s = row_compare ts ms (row_of columns r) (row_of columns s).
Proof.
  intros Hc Hm Hr Hs. pose proof (row_code ts ms (columns_length _ _ _ _ _ Hc) Hm) as Hcode.
  pose proof (columns_values n ts ms vs columns r Hc Hr) as Hvr. pose proof (columns_values n ts ms vs columns s Hc Hs) as Hvs.
  assert (byte_compare (row_key ts ms columns r) (row_key ts ms columns s) = row_compare ts ms (row_of columns r) (row_of columns s)) as E.
  { rewrite <- (app_nil_r (row_key ts ms columns r)), <- (app_nil_r (row_key ts ms columns s)). unfold row_key. rewrite Hcode by done. apply then_eq. }
  assert (forall A (d : A) f i, 0 <= i < n -> znth d (f <$> zrange 0 n) i = f i) as Hz.
  { intros A d f i Hi. unfold znth. pose proof (zload_fmap_zrange f n i Hi) as Hl. rewrite zload_lookup in Hl by lia. by rewrite Hl. }
  unfold key_compare, keys_of. destruct (bind_key_type_cases ts) as [Eb | Eb]; rewrite Eb.
  - rewrite !Hz by done. exact E.
  - rewrite !Hz by done.
    pose proof (constant_row_length n ts ms vs columns r Hc Hr Eb) as Lr. pose proof (constant_row_length n ts ms vs columns s Hc Hs Eb) as Ls.
    fold (row_key ts ms columns r) in Lr. fold (row_key ts ms columns s) in Ls.
    assert (Forall is_byte (row_key ts ms columns r)) as Br by (by apply encode_row_bytes).
    assert (Forall is_byte (row_key ts ms columns s)) as Bs by (by apply encode_row_bytes).
    rewrite <- byte_compare_load by (unfold pad8; (apply Forall_app_2; [done | by apply Forall_replicate]) || rewrite !length_app, !length_replicate; lia).
    unfold pad8. rewrite byte_compare_pad by (done || (intros a b; unfold row_key; by rewrite Hcode, <- E)). exact E.
Qed.

(** C13. The order of the keys is the order of the rows: for all the column types, the keys of
    two rows compare (byte strings by their bytes, integers by their value) as the rows do
    under ASC or DESC and NULLS FIRST or NULLS LAST of each column; in particular they are
    equal when no column distinguishes the rows. *)
Theorem CreateSortKey_order junk n ts ms vs columns keys r s :
  0 <= n -> columns_ok n ts ms vs columns -> Forall parsed ms ->
  (forall i, 0 <= i < n -> Z.of_nat (length (row_key ts ms columns i)) < 2 ^ 32) ->
  CreateSortKeyFunction junk vs n ms = Done keys -> 0 <= r < n -> 0 <= s < n ->
  key_compare keys r s = row_compare ts ms (row_of columns r) (row_of columns s).
Proof.
  intros Hn Hc Hm Hsize Hk Hr Hs. rewrite (create_keys junk n ts ms vs columns Hn Hc Hsize) in Hk. injection Hk as <-.
  by apply (keys_compare n ts ms vs columns).
Qed.

(** ** The keys of the sort operator *)

Definition is_less (c : comparison) : bool := match c with Lt => true | _ => false end.

(** Padding with zeros keeps the order of the keys of rows. *)
Lemma row_key_pad n ts ms vs columns r s L :
  columns_ok n ts ms vs columns -> Forall parsed ms -> 0 <= r < n -> 0 <= s < n ->
  lex_lt (pad L (row_key ts ms columns r)) (pad L (row_key ts ms columns s)) = is_less (row_compare ts ms (row_of columns r) (row_of columns s)).
Proof.
  intros Hc Hm Hr Hs. pose proof (row_code ts ms (columns_length _ _ _ _ _ Hc) Hm) as Hcode.
  pose proof (columns_values n ts ms vs columns r Hc Hr) as Hvr. pose proof (columns_values n ts ms vs columns s Hc Hs) as Hvs.
  rewrite byte_compare_lex. unfold pad, row_key. rewrite Hcode by done.
  destruct (row_compare ts ms (row_of columns r) (row_of columns s)) eqn:E; [| done..]. cbn [then_compare].
  assert (encode_row ts ms (row_of columns r) = encode_row ts ms (row_of columns s)) as ->; [| by rewrite byte_compare_refl].
  apply byte_compare_eq. rewrite <- (app_nil_r (encode_row ts ms (row_of columns r))), <- (app_nil_r (encode_row ts ms (row_of columns s))).
  by rewrite Hcode, E by done.
Qed.

(** C15. The sort keys that the sort operator builds from the keys of two rows (of fixed size, and
    of variable size in a heap with room for them) are in the order [<] of the code exactly
    when the first row is before the second one in the order of the modifiers. *)
Theorem sort_keys_order_rows t k n ts ms vs columns r s pa pb heap ptr :
  traits t = Some k -> columns_ok n ts ms vs columns -> Forall parsed ms -> 0 <= r < n -> 0 <= s < n ->
  let a := row_key ts ms columns r in
  let b := row_key ts ms columns s in
  if CONSTANT_SIZE k then
    Z.of_nat (length a) <= INLINE_LENGTH k -> Z.of_nat (length b) <= INLINE_LENGTH k ->
    exists ka kb, FixedConstruct k a pa = Some ka /\ FixedConstruct k b pb = Some kb /\
      FixedLess k ka kb = is_less (row_compare ts ms (row_of columns r) (row_of columns s))
  else
    0 <= ptr -> ptr + Z.of_nat (length a) + Z.of_nat (length b) <= Z.of_nat (length heap) ->
    exists ka heap1 ptr1 kb heap2 ptr2,
      VariableConstruct k a pa heap ptr = Some (ka, heap1, ptr1) /\ VariableConstruct k b pb heap1 ptr1 = Some (kb, heap2, ptr2) /\
      VariableLess k heap2 ka kb = Ok (is_less (row_compare ts ms (row_of columns r) (row_of columns s))).
Proof.
  intros Ht Hc Hm Hr Hs a b.
  assert (Forall is_byte a /\ Forall is_byte b) as [Ba Bb] by (split; by eapply encode_row_bytes, columns_values).
  rewrite <- (row_key_pad n ts ms vs columns r s (INLINE_LENGTH k)) by done. destruct (CONSTANT_SIZE k) eqn:Ek.
  - intros La Lb. destruct (FixedSortKey_order t k a b pa pb Ht Ek Ba Bb La Lb) as (ka & kb & E1 & E2 & E3 & _). by exists ka, kb.
  - intros Hp Hroom. destruct (VariableSortKey_order t k a b pa pb heap ptr Ht Ek Ba Bb Hp Hroom) as (ka & h1 & p1 & kb & h2 & p2 & E1 & E2 & E3 & _).
    by exists ka, h1, p1, kb, h2, p2.
Qed.

(** Integer keys, which are not negative, keep their order as unsigned parts. *)
Lemma int64_keys_order_rows k n ts ms vs columns r s ka kb :
  PARTS k = 1%nat -> bind_key_type ts = KEY_BIGINT -> columns_ok n ts ms vs columns -> Forall parsed ms -> 0 <= r < n -> 0 <= s < n ->
  length (parts ka) = 1%nat -> length (parts kb) = 1%nat ->
  FixedLess k (FixedConstruct_int64 k ka (be_load (pad8 (row_key ts ms columns r)))) (FixedConstruct_int64 k kb (be_load (pad8 (row_key ts ms columns s)))) =
    is_less (row_compare ts ms (row_of columns r) (row_of columns s)).
Proof.
  intros Hk Hb Hc Hm Hr Hs La Lb. pose proof (keys_compare n ts ms vs columns r s Hc Hm Hr Hs) as H. unfold keys_of in H. rewrite Hb in H. cbn [key_compare] in H.
  assert (forall f i, 0 <= i < n -> znth 0 (f <$> zrange 0 n) i = f i) as Hz.
  { intros f i Hi. unfold znth. pose proof (zload_fmap_zrange f n i Hi) as Hl. rewrite zload_lookup in Hl by lia. by rewrite Hl. }
  rewrite !Hz in H by done. rewrite <- H.
  assert (forall i, 0 <= i < n -> 0 <= be_load (pad8 (row_key ts ms columns i)) < 2 ^ 63) as Hbound.
  { intros i Hi. apply pad8_bound; [by apply (constant_row_length n ts ms vs columns) | by eapply encode_row_bytes, columns_values | apply encode_row_head]. }
  unfold FixedLess, FixedConstruct_int64. rewrite Hk. cbn [SortKeyLessThan parts].
  destruct (parts ka) as [| ? []], (parts kb) as [| ? []]; try done. cbn [insert list_insert hd].
  rewrite !u64_small by (pose proof (Hbound r Hr); pose proof (Hbound s Hs); lia). unfold is_less, Z.ltb. done.
Qed.

(** Rows 0 and 2 of the example: the list of NULL structs is first, as the order is descending. *)
Lemma CreateSortKey_order_witness :
  row_compare example_types example_modifiers (row_of example_columns 0) (row_of example_columns 2) = Gt /\
  key_compare (keys_of 3 example_types example_modifiers example_columns) 0 2 =
    row_compare example_types example_modifiers (row_of example_columns 0) (row_of example_columns 2).
Proof.
  split; [vm_compute; reflexivity |].
  apply (CreateSortKey_order 255 3 example_types example_modifiers example_vectors example_columns); [lia | apply example_columns_ok | | apply example_sizes | vm_compute; reflexivity | lia | lia].
  apply Forall_cons_2; [by right | apply Forall_cons_2; [by left | apply Forall_nil_2]].
Defined.

Lemma sort_keys_order_rows_witness :
  7 + Z.of_nat (length (row_key example_types example_modifiers example_columns 1)) +
      Z.of_nat (length (row_key example_types example_modifiers example_columns 2)) <= Z.of_nat (length (zeros 60)) /\
  exists ka heap1 ptr1 kb heap2 ptr2,
    VariableConstruct (VariableSortKey 1 8 true) (row_key example_types example_modifiers example_columns 1) 0 (zeros 60) 7 = Some (ka, heap1, ptr1) /\
    VariableConstruct (VariableSortKey 1 8 true) (row_key example_types example_modifiers example_columns 2) 0 heap1 ptr1 = Some (kb, heap2, ptr2) /\
    VariableLess (VariableSortKey 1 8 true) heap2 ka kb =
      Ok (is_less (row_compare example_types example_modifiers (row_of example_columns 1) (row_of example_columns 2))).
Proof.
  split; [vm_compute; congruence |].
  apply (sort_keys_order_rows PAYLOAD_VARIABLE_32 (VariableSortKey 1 8 true) 3 example_types example_modifiers example_vectors example_columns 1 2 0 0 (zeros 60) 7);
    [reflexivity | apply example_columns_ok | | lia | lia | lia | vm_compute; congruence].
  apply Forall_cons_2; [by right | apply Forall_cons_2; [by left | apply Forall_nil_2]].
Defined.
