(* ===== verification/SortKeyDecode.v ===== *)
(** * Decoding of sort keys

    [DecodeSortKey] of create_sort_key.cpp reads the rows back from their keys into result
    vectors.  A result vector grows without bound: the capacity that [ListVector::Reserve]
    makes room for is not modelled.  Decoding returns the rows that the keys were created
    from, up to the sign of zero and the NaNs. *)

From S2P Require Import Prelude Validity SortKey Radix CreateSortKey SortKeyOperators SortKeyLayout.

(** ** Result vectors *)

Inductive ResultVector : Type :=
  mkResult (r_type : LogicalType) (r_invalid : gset Z) (r_data : gmap Z Scalar) (r_entries : gmap Z ListEntry)
    (r_list_size : Z) (r_children : list ResultVector).

Definition r_type (r : ResultVector) : LogicalType := let 'mkResult t _ _ _ _ _ := r in t.
Definition r_invalid (r : ResultVector) : gset Z := let 'mkResult _ i _ _ _ _ := r in i.
Definition r_data (r : ResultVector) : gmap Z Scalar := let 'mkResult _ _ d _ _ _ := r in d.
Definition r_entries (r : ResultVector) : gmap Z ListEntry := let 'mkResult _ _ _ e _ _ := r in e.
Definition r_list_size (r : ResultVector) : Z := let 'mkResult _ _ _ _ n _ := r in n.
Definition r_children (r : ResultVector) : list ResultVector := let 'mkResult _ _ _ _ _ c := r in c.

(** [result_validity.SetInvalid(i)] and [result_data[i] = v] *)
Definition set_invalid (r : ResultVector) (i : Z) : ResultVector :=
  let 'mkResult t inv d e n c := r in mkResult t ({[ i ]} ∪ inv) d e n c.
Definition set_data (r : ResultVector) (i : Z) (v : Scalar) : ResultVector :=
  let 'mkResult t inv d e n c := r in mkResult t inv (<[i := v]> d) e n c.
(** [list_data[i]] and [ListVector::SetListSize] *)
Definition set_list (r : ResultVector) (i : Z) (entry : ListEntry) (size : Z) : ResultVector :=
  let 'mkResult t inv d e _ c := r in mkResult t inv d (<[i := entry]> e) size c.
Definition set_children (r : ResultVector) (c : list ResultVector) : ResultVector :=
  let 'mkResult t inv d e n _ := r in mkResult t inv d e n c.

(** A vector before decoding. *)
Fixpoint new_result (t : LogicalType) : ResultVector :=
  mkResult t ∅ ∅ ∅ 0
    (match t with
     | STRUCT_TYPE ts => new_result <$> ts
     | LIST_TYPE t | ARRAY_TYPE t _ => [new_result t]
     | _ => []
     end).

(** ** Decoding *)

Inductive DecodeSortKeyVectorData : Type :=
  mkDecode (decode_null_byte decode_valid_byte : Z) (decode_children : list DecodeSortKeyVectorData) (decode_flip : bool).

Definition decode_null_byte (vd : DecodeSortKeyVectorData) : Z := let 'mkDecode b _ _ _ := vd in b.
Definition decode_children (vd : DecodeSortKeyVectorData) : list DecodeSortKeyVectorData := let 'mkDecode _ _ c _ := vd in c.
Definition decode_flip (vd : DecodeSortKeyVectorData) : bool := let 'mkDecode _ _ _ f := vd in f.

Fixpoint DecodeSortKeyVectorData_new (t : LogicalType) (modifiers : OrderModifiers) : DecodeSortKeyVectorData :=
  let '(null_byte, valid_byte) := null_bytes modifiers in
  mkDecode null_byte valid_byte
    (match t with
     | STRUCT_TYPE ts => (fun t => DecodeSortKeyVectorData_new t (child_modifiers modifiers)) <$> ts
     | ARRAY_TYPE t _ | LIST_TYPE t => [DecodeSortKeyVectorData_new t (child_modifiers modifiers)]
     | _ => []
     end)
    (flips modifiers).

Record DecodeSortKeyData : Set := mkKey { key_data : list Z; key_position : Z }.

(** The bytes from the position on. *)
Definition remaining_bytes (d : DecodeSortKeyData) : list Z := drop (Z.to_nat (key_position d)) (key_data d).
Definition advance_key (d : DecodeSortKeyData) (n : Z) : DecodeSortKeyData := mkKey (key_data d) (key_position d + n).
Definition read_byte (d : DecodeSortKeyData) : outcome Z := access (zload (key_data d) (key_position d)).

Definition DecodeState : Type := list DecodeSortKeyData * ResultVector.

Definition TemplatedDecodeSortKey (op : SortKeyOperator) (vd : DecodeSortKeyVectorData) (result_offset count : Z) (s : DecodeState)
    : outcome DecodeState :=
  run (fun '(keys, result) i =>
    let result_idx := result_offset + i in
    d ← access (zload keys i);
    validity_byte ← read_byte d;
    let d := advance_key d 1 in
    if validity_byte =? decode_null_byte vd then
      keys ← access (zstore keys i d);
      Done (keys, set_invalid result result_idx)
    else
      '(value, increment) ← access (Decode op (remaining_bytes d) (decode_flip vd));
      keys ← access (zstore keys i (advance_key d increment));
      Done (keys, set_data result result_idx value)) s (zrange 0 count).

(** [while (...) { ... }], [f] being the condition and the body. *)
Definition while_loop {St} (f : St -> outcome (St * bool)) : nat -> St -> outcome St :=
  fix go fuel s :=
    match fuel with
    | 0%nat => Undefined
    | S fuel => '(s, continue) ← f s; if continue : bool then go fuel s else Done s
    end.

(** The loops of [DecodeSortKeyList] and [DecodeSortKeyArray]: element [found_elements] of the
    child is decoded at [child_start + found_elements] until the delimiter, or until there are
    more than [array_size] elements. *)
Definition decode_elements (recurse : DecodeState -> Z -> outcome DecodeState) (list_delimiter child_start : Z)
    (array_size : option Z) (s : DecodeSortKeyData * ResultVector * Z) : outcome (DecodeSortKeyData * ResultVector * Z * bool) :=
  let '(d, child, found_elements) := s in
  byte ← read_byte d;
  if byte =? list_delimiter then Done (d, child, found_elements, false)
  else
    let found_elements := found_elements + 1 in
    if (match array_size with Some size => size <? found_elements | None => false end)
    then Done (d, child, found_elements, false)
    else
      '(keys, child) ← recurse ([d], child) (child_start + found_elements - 1);
      d ← access (zload keys 0);
      Done (d, child, found_elements, true).

Definition decode_delimiter (vd : DecodeSortKeyVectorData) : Z := if decode_flip vd then not_byte LIST_DELIMITER else LIST_DELIMITER.

(** The children of a struct. *)
Definition decode_fields (recurse : DecodeSortKeyVectorData -> DecodeState -> outcome DecodeState)
    : list DecodeSortKeyVectorData -> list DecodeSortKeyData -> list ResultVector -> outcome (list DecodeSortKeyData * list ResultVector) :=
  fix go vds keys children :=
    match vds, children with
    | _, [] => Done (keys, [])
    | vd :: vds, child :: children =>
        '(keys, child) ← recurse vd (keys, child);
        '(keys, children) ← go vds keys children;
        Done (keys, child :: children)
    | [], _ :: _ => Undefined
    end.

Definition DecodeSortKeyStruct (recurse : DecodeSortKeyVectorData -> DecodeState -> outcome DecodeState)
    (vd : DecodeSortKeyVectorData) (children : list DecodeSortKeyVectorData) (result_offset count : Z) (s : DecodeState) : outcome DecodeState :=
  '(keys, result) ← run (fun '(keys, result) i =>
    d ← access (zload keys i);
    validity_byte ← read_byte d;
    keys ← access (zstore keys i (advance_key d 1));
    Done (keys, if validity_byte =? decode_null_byte vd then set_invalid result (result_offset + i) else result)) s (zrange 0 count);
  '(keys, children) ← decode_fields recurse children keys (r_children result);
  Done (keys, set_children result children).

Definition DecodeSortKeyList (recurse : DecodeState -> Z -> outcome DecodeState) (vd : DecodeSortKeyVectorData)
    (result_offset count : Z) (s : DecodeState) : outcome DecodeState :=
  run (fun '(keys, result) i =>
    let result_idx := result_offset + i in
    d ← access (zload keys i);
    validity_byte ← read_byte d;
    let d := advance_key d 1 in
    if validity_byte =? decode_null_byte vd then
      keys ← access (zstore keys i d);
      Done (keys, set_invalid result result_idx)
    else
      let start_list_size := r_list_size result in
      child ← access (r_children result !! 0%nat);
      '(d, child, new_list_size) ←
        while_loop (decode_elements recurse (decode_delimiter vd) 0 None) (S (length (key_data d))) (d, child, start_list_size);
      keys ← access (zstore keys i (advance_key d 1));
      Done (keys, set_list (set_children result [child]) result_idx (mkListEntry start_list_size (new_list_size - start_list_size)) new_list_size))
    s (zrange 0 count).

Definition DecodeSortKeyArray (recurse : DecodeState -> Z -> outcome DecodeState) (vd : DecodeSortKeyVectorData)
    (array_size result_offset count : Z) (s : DecodeState) : outcome DecodeState :=
  run (fun '(keys, result) i =>
    let result_idx := result_offset + i in
    d ← access (zload keys i);
    validity_byte ← read_byte d;
    let d := advance_key d 1 in
    let result := if validity_byte =? decode_null_byte vd then set_invalid result result_idx else result in
    child ← access (r_children result !! 0%nat);
    '(d, child, found_elements) ←
      while_loop (decode_elements recurse (decode_delimiter vd) (array_size * result_idx) (Some array_size)) (S (length (key_data d))) (d, child, 0);
    keys ← access (zstore keys i (advance_key d 1));
    if negb (found_elements =? array_size) then Raise InvalidInputException
    else Done (keys, set_children result [child])) s (zrange 0 count).

Fixpoint DecodeSortKeyRecursive (vd : DecodeSortKeyVectorData) (result_offset count : Z) (s : DecodeState) {struct vd}
    : outcome DecodeState :=
  match type_operator (r_type (snd s)) with
  | Some op => TemplatedDecodeSortKey op vd result_offset count s
  | None =>
      match vd with
      | mkDecode _ _ children _ =>
          match r_type (snd s) with
          | STRUCT_TYPE _ =>
              DecodeSortKeyStruct (fun child s => DecodeSortKeyRecursive child result_offset count s) vd children result_offset count s
          | LIST_TYPE _ =>
              match children with
              | child :: _ => DecodeSortKeyList (fun s i => DecodeSortKeyRecursive child i 1 s) vd result_offset count s
              | [] => Undefined
              end
          | ARRAY_TYPE _ array_size =>
              match children with
              | child :: _ => DecodeSortKeyArray (fun s i => DecodeSortKeyRecursive child i 1 s) vd array_size result_offset count s
              | [] => Undefined
              end
          | _ => Raise NotImplementedException
          end
      end
  end.

(** [CreateSortKeyHelpers::DecodeSortKey] of a column: the result and the final position. *)
Definition DecodeSortKey (sort_key : list Z) (result : ResultVector) (result_idx : Z) (modifiers : OrderModifiers)
    : outcome (ResultVector * Z) :=
  '(keys, result) ← DecodeSortKeyRecursive (DecodeSortKeyVectorData_new (r_type result) modifiers) result_idx 1
    ([mkKey sort_key 0], result);
  d ← access (zload keys 0);
  Done (result, key_position d).

(** The columns of a key, one after the other. *)
Definition decode_column (result_idx count : Z) (s : list DecodeSortKeyData * list ResultVector) (column : ResultVector * OrderModifiers)
    : outcome (list DecodeSortKeyData * list ResultVector) :=
  let '(keys, decoded) := s in
  let '(vec, m) := column in
  '(keys, vec) ← DecodeSortKeyRecursive (DecodeSortKeyVectorData_new (r_type vec) m) result_idx count (keys, vec);
  Done (keys, decoded ++ [vec]).

Definition decode_columns (result_idx count : Z) (modifiers : list OrderModifiers) (keys : list DecodeSortKeyData) (result : list ResultVector)
    : outcome (list DecodeSortKeyData * list ResultVector) :=
  run (decode_column result_idx count) (keys, []) (zip result modifiers).

(** [CreateSortKeyHelpers::DecodeSortKey] of the columns of a chunk. *)
Definition DecodeSortKeyChunk (sort_key : list Z) (result : list ResultVector) (result_idx : Z) (modifiers : list OrderModifiers)
    : outcome (list ResultVector) :=
  '(_, result) ← decode_columns result_idx 1 modifiers [mkKey sort_key 0] result;
  Done result.

(** The keys that [DecodeSortKeyFunction] decodes. *)
Definition load_keys (sort_keys : SortKeys) (sel : SelectionVector) (count : Z) : outcome (list DecodeSortKeyData) :=
  run (fun keys i =>
    match sort_keys with
    | Blobs sort_keys => key ← access (zload sort_keys (get_index sel i)); Done (keys ++ [mkKey key 0])
    | Bigints sort_keys =>
        key ← access (zload sort_keys (get_index sel i));
        let bswapped_int := BSwap (u64 key) in
        Done (keys ++ [mkKey (le_store 8 bswapped_int) 0])
    end) [] (zrange 0 count).

(** [DecodeSortKeyFunction] of a vector of keys and its selection vector. *)
Definition DecodeSortKeyFunction (sort_keys : SortKeys) (sel : SelectionVector) (count : Z) (modifiers : list OrderModifiers)
    (types : list LogicalType) : outcome (list ResultVector) :=
  keys ← load_keys sort_keys sel count;
  '(_, result) ← decode_columns 0 count modifiers keys (new_result <$> types);
  Done result.

(** ** Rows of result vectors *)

Fixpoint result_at (r : ResultVector) (i : Z) : option SortValue :=
  let valid := bool_decide (i ∉ r_invalid r) in
  match r_type r with
  | STRUCT_TYPE _ => sv_struct valid <$> mapM (fun c => result_at c i) (r_children r)
  | LIST_TYPE _ =>
      match r_children r with
      | child :: _ =>
          if valid then
            e ← r_entries r !! i;
            sv_list <$> mapM (result_at child) (zrange (entry_offset e) (entry_offset e + entry_length e))
          else Some sv_null
      | [] => None
      end
  | ARRAY_TYPE _ size =>
      match r_children r with
      | child :: _ => sv_array valid <$> mapM (result_at child) (zrange (size * i) (size * i + size))
      | [] => None
      end
  | _ => if valid then sv_scalar <$> (r_data r !! i) else Some sv_null
  end.

(** No value has been decoded at the row: neither at the rows of the children that are its. *)
Inductive fresh : Z -> ResultVector -> Prop :=
  | fresh_row k t inv d e n children :
      k ∉ inv ->
      (forall ts c, t = STRUCT_TYPE ts -> c ∈ children -> fresh k c) ->
      (forall t' size c j, t = ARRAY_TYPE t' size -> c ∈ children -> size * k <= j < size * k + size -> fresh j c) ->
      fresh k (mkResult t inv d e n children).

(** Vectors of a type; the lists are within the size of the child, and nothing has been decoded
    in the child beyond it. *)
Inductive result_for : LogicalType -> ResultVector -> Prop :=
  | result_scalar t inv d e n op : type_operator t = Some op -> result_for t (mkResult t inv d e n [])
  | result_struct ts inv d e n children : Forall2 result_for ts children -> result_for (STRUCT_TYPE ts) (mkResult (STRUCT_TYPE ts) inv d e n children)
  | result_list t inv d e n child :
      result_for t child -> (forall i entry, e !! i = Some entry -> entry_offset entry + entry_length entry <= n) ->
      (forall k, n <= k -> fresh k child) -> result_for (LIST_TYPE t) (mkResult (LIST_TYPE t) inv d e n [child])
  | result_array t size inv d e n child :
      result_for t child -> 0 <= size -> result_for (ARRAY_TYPE t size) (mkResult (ARRAY_TYPE t size) inv d e n [child]).

Lemma result_for_type t r : result_for t r -> r_type r = t.
Proof. by destruct 1. Qed.

(** The rows [P] of a vector are as they were. *)
Definition kept (P : Z -> Prop) (r r' : ResultVector) : Prop :=
  (forall j v, P j -> result_at r j = Some v -> result_at r' j = Some v) /\ (forall j, P j -> fresh j r -> fresh j r').

Lemma kept_refl P r : kept P r r.
Proof. split; auto. Qed.

Lemma kept_trans (P Q T : Z -> Prop) r r' r'' : (forall j, T j -> P j /\ Q j) -> kept P r r' -> kept Q r' r'' -> kept T r r''.
Proof. intros H [H1 H2] [H3 H4]. split; intros j; intros; destruct (H j); eauto. Qed.

Lemma kept_impl (P Q : Z -> Prop) r r' : (forall j, Q j -> P j) -> kept P r r' -> kept Q r r'.
Proof. intros H [H1 H2]. split; intros j; intros; eauto. Qed.

Lemma mapM_ext_some {A B} (f g : A -> option B) l v :
  (forall a b, a ∈ l -> f a = Some b -> g a = Some b) -> mapM f l = Some v -> mapM g l = Some v.
Proof.
  revert v. induction l as [| a l IH]; intros v Hfg Hm; [done |]. cbn in *. destruct (f a) as [b |] eqn:E; [| done]. cbn in Hm.
  destruct (mapM f l) as [k |]; [| done]. cbn in Hm. rewrite (Hfg a b) by (done || by left). cbn.
  rewrite (IH k) by (done || (intros; apply Hfg; [by right | done])). done.
Qed.


(** ** Keys *)

Lemma remaining_advance d a b : 0 <= key_position d -> remaining_bytes d = a ++ b -> remaining_bytes (advance_key d (Z.of_nat (length a))) = b.
Proof.
  intros Hp Hr. unfold remaining_bytes, advance_key in *. cbn. replace (Z.to_nat (key_position d + Z.of_nat (length a))) with (Z.to_nat (key_position d) + length a)%nat by lia.
  rewrite <- drop_drop, Hr. apply drop_app_length.
Qed.

Lemma remaining_advance1 d b bytes : 0 <= key_position d -> remaining_bytes d = b :: bytes -> remaining_bytes (advance_key d 1) = bytes.
Proof. intros Hp Hr. by apply (remaining_advance d [b]). Qed.

Lemma read_byte_remaining d b bytes : 0 <= key_position d -> remaining_bytes d = b :: bytes -> read_byte d = Done b.
Proof.
  intros Hp Hr. unfold read_byte. rewrite zload_lookup by done.
  assert (key_data d !! Z.to_nat (key_position d) = Some b) as ->; [| done].
  rewrite <- (Nat.add_0_r (Z.to_nat (key_position d))), <- lookup_drop. fold (remaining_bytes d). by rewrite Hr.
Qed.

Lemma remaining_length d : (length (remaining_bytes d) <= length (key_data d))%nat.
Proof. unfold remaining_bytes. rewrite length_drop. lia. Qed.

Lemma advance_add d a b : advance_key (advance_key d a) b = advance_key d (a + b).
Proof. unfold advance_key. cbn. f_equal. lia. Qed.

Lemma mapM_zrange (f : Z -> option SortValue) (es : list SortValue) : forall a,
  (forall k v, es !! k = Some v -> f (a + Z.of_nat k) = Some v) -> mapM f (zrange a (a + Z.of_nat (length es))) = Some es.
Proof.
  induction es as [| v es IH]; intros a Hf; [by rewrite zrange_nil by (cbn; lia) |].
  rewrite zrange_cons by (cbn; lia). cbn [mapM]. pose proof (Hf 0%nat v eq_refl) as H0. rewrite Z.add_0_r in H0. rewrite H0. cbn [mbind option_bind].
  replace (a + Z.of_nat (length (v :: es))) with (a + 1 + Z.of_nat (length es)) by (cbn; lia).
  rewrite IH; [done |]. intros k w Hk. replace (a + 1 + Z.of_nat k) with (a + Z.of_nat (S k)) by lia. by apply Hf.
Qed.

(** ** What a decoder does

    [decodes t f lo n encs vals]: from keys that go on with [encs 0], [encs 1], ..., [f] writes
    the values [vals] to the rows from [lo] on, and moves the keys behind the bytes. *)

Definition key_at (keys : list DecodeSortKeyData) (i : Z) (bytes : list Z) : Prop :=
  exists d rest, zload keys i = Some d /\ 0 <= key_position d /\ remaining_bytes d = bytes ++ rest.

Definition advanced (n : Z) (encs : Z -> list Z) (keys keys' : list DecodeSortKeyData) : Prop :=
  length keys' = length keys /\
  forall i d, zload keys i = Some d ->
    zload keys' i = Some (if decide (i < n) then advance_key d (Z.of_nat (length (encs i))) else d).

Definition decodes (t : LogicalType) (f : DecodeState -> outcome DecodeState) (lo n : Z) (encs : Z -> list Z) (vals : Z -> SortValue) : Prop :=
  forall keys r, result_for t r -> (forall i, 0 <= i < n -> fresh (lo + i) r) -> (forall i, 0 <= i < n -> key_at keys i (encs i)) ->
  exists keys' r', f (keys, r) = Done (keys', r') /\ result_for t r' /\ advanced n encs keys keys' /\
    (forall i, 0 <= i < n -> result_at r' (lo + i) = Some (vals i)) /\ kept (fun j => ~ (lo <= j < lo + n)) r r'.

(** One row of a loop. *)
Definition decodes_row (t : LogicalType) (body : DecodeState -> Z -> outcome DecodeState) (i row : Z) (enc : list Z) (val : SortValue) : Prop :=
  forall keys r d rest, result_for t r -> fresh row r -> zload keys i = Some d -> 0 <= key_position d -> remaining_bytes d = enc ++ rest ->
  exists r', body (keys, r) i = Done (<[Z.to_nat i := advance_key d (Z.of_nat (length enc))]> keys, r') /\ result_for t r' /\
    result_at r' row = Some val /\ kept (fun j => j <> row) r r'.

Lemma run_app {St A} (f : St -> A -> outcome St) s l k : run f s (l ++ k) = run f s l ≫= fun s => run f s k.
Proof. revert s. induction l as [| a l IH]; intros s; [done |]. cbn. destruct (f s a); [apply IH | done..]. Qed.

Lemma decode_loop t body lo n encs vals :
  0 <= n -> (forall i, 0 <= i < n -> decodes_row t body i (lo + i) (encs i) (vals i)) ->
  decodes t (fun s => run body s (zrange 0 n)) lo n encs vals.
Proof.
  intros Hn Hbody keys r Hr Hfresh Hkeys.
  enough (forall k : nat, Z.of_nat k <= n -> exists keys' r', run body (keys, r) (zrange 0 (Z.of_nat k)) = Done (keys', r') /\ result_for t r' /\
    advanced (Z.of_nat k) encs keys keys' /\ (forall i, 0 <= i < Z.of_nat k -> result_at r' (lo + i) = Some (vals i)) /\
    kept (fun j => ~ (lo <= j < lo + Z.of_nat k)) r r') as H.
  { specialize (H (Z.to_nat n)). rewrite Z2Nat.id in H by done. by apply H. }
  induction k as [| k IH]; intros Hk.
  - exists keys, r. rewrite zrange_nil by lia. split_and!; [done | done | | lia | apply kept_refl]. split; [done |]. intros i d Hd.
    pose proof (zload_Some_lt _ _ _ Hd). by rewrite decide_False by lia.
  - destruct IH as (keys1 & r1 & E1 & Hr1 & [Hl1 Ha1] & Hv1 & Hk1); [lia |]. destruct (Hkeys (Z.of_nat k)) as (d & rest & Hd & Hp & Hrem); [lia |].
    pose proof (Ha1 _ _ Hd) as Hd1. rewrite decide_False in Hd1 by lia.
    assert (fresh (lo + Z.of_nat k) r1) as Hf1 by (apply Hk1; [lia | apply Hfresh; lia]).
    destruct (Hbody (Z.of_nat k) ltac:(lia) keys1 r1 d rest Hr1 Hf1 Hd1 Hp Hrem) as (r2 & E2 & Hr2 & Hv2 & Hk2).
    eexists _, r2. rewrite Nat2Z.inj_succ, <- Z.add_1_r, zrange_snoc, run_app, E1 by lia. cbn [mbind outcome_bind run]. rewrite E2. cbn [mbind outcome_bind].
    pose proof (zload_Some_lt _ _ _ Hd1) as Hlt. split_and!; [done | done | | | ].
    + split; [by rewrite length_insert |]. intros i d' Hd'. pose proof (zload_Some_lt _ _ _ Hd') as Hlt'. specialize (Ha1 i d' Hd').
      rewrite zload_lookup in * by lia. destruct (decide (i = Z.of_nat k)) as [-> | Hne].
      * rewrite list_lookup_insert_eq by lia. rewrite decide_True by lia. by simplify_eq.
      * rewrite list_lookup_insert_ne by lia. rewrite Ha1. f_equal. destruct (decide (i < Z.of_nat k)), (decide (i < Z.of_nat k + 1)); done || lia.
    + intros i Hi. destruct (decide (i = Z.of_nat k)) as [-> | Hne]; [done |]. apply Hk2; [lia |]. apply Hv1. lia.
    + eapply kept_trans; [| exact Hk1 | exact Hk2]. cbn beta. intros. lia.
Qed.

(** What decoding gives back of a value. *)
Fixpoint canonical_value (t : LogicalType) (v : SortValue) : SortValue :=
  match t, v with
  | STRUCT_TYPE ts, sv_struct valid fields => sv_struct valid (zip_with canonical_value ts fields)
  | LIST_TYPE t, sv_list elements => sv_list (canonical_value t <$> elements)
  | ARRAY_TYPE t _, sv_array valid elements => sv_array valid (canonical_value t <$> elements)
  | _, sv_scalar v => sv_scalar (type_canonical t v)
  | _, v => v
  end.

(** *** Values that are not nested *)

Lemma result_at_scalar t op inv d e n i :
  type_operator t = Some op ->
  result_at (mkResult t inv d e n []) i = if bool_decide (i ∉ inv) then sv_scalar <$> (d !! i) else Some sv_null.
Proof. intros Hop. by destruct t. Qed.

Lemma fresh_not_invalid k r : fresh k r -> k ∉ r_invalid r.
Proof. by destruct 1. Qed.

Lemma kept_rows t op inv inv' d d' e e' n n' row :
  type_operator t = Some op -> (forall j, j <> row -> (j ∈ inv' <-> j ∈ inv) /\ d' !! j = d !! j) ->
  kept (fun j => j <> row) (mkResult t inv d e n []) (mkResult t inv' d' e' n' []).
Proof.
  intros Hop H. split; intros j.
  - intros v Hj. rewrite !(result_at_scalar t op) by done. destruct (H j Hj) as [H1 ->]. by rewrite (bool_decide_ext (j ∉ inv') (j ∉ inv)) by (by rewrite H1).
  - intros Hj Hf. inversion Hf; subst. constructor; [by rewrite (proj1 (H j Hj)) | |]; intros; by subst.
Qed.

Lemma scalar_row t op m lo i v :
  type_operator t = Some op -> value_ok t v ->
  decodes_row t (fun '(keys, result) i =>
    let result_idx := lo + i in
    d ← access (zload keys i);
    validity_byte ← read_byte d;
    let d := advance_key d 1 in
    if validity_byte =? null_byte_of m false then
      keys ← access (zstore keys i d);
      Done (keys, set_invalid result result_idx)
    else
      '(value, increment) ← access (Decode op (remaining_bytes d) (flips m));
      keys ← access (zstore keys i (advance_key d increment));
      Done (keys, set_data result result_idx value)) i (lo + i) (encode_value t m v) (canonical_value t v).
Proof.
  intros Hop Hok keys r d rest Hr Hf Hd Hp Hrem. pose proof (type_operator_laws t op Hop) as Hlaws.
  inversion Hr as [? inv dat e n ? _ | | |]; subst; try done. apply fresh_not_invalid in Hf. cbn [r_invalid] in Hf.
  pose proof (zload_Some_lt _ _ _ Hd) as Hlt. cbv beta zeta. rewrite Hd. cbn [access mbind outcome_bind].
  assert (v = sv_null \/ exists a, v = sv_scalar a /\ type_ok t a) as [-> | (a & -> & Ha)] by (inversion Hok; subst; eauto; done).
  - rewrite (encode_null t m op Hop) in *. rewrite (read_byte_remaining d (null_byte_of m false) rest) by done. cbn [mbind outcome_bind]. rewrite Z.eqb_refl.
    rewrite zstore_Some by done. cbn [access mbind outcome_bind length set_invalid]. eexists. split; [done |]. split; [by apply (result_scalar t _ _ _ _ op) |].
    split.
    + rewrite (result_at_scalar t op), bool_decide_false by (done || set_solver). by destruct t.
    + apply (kept_rows t op); [done |]. intros j Hj. split; [set_solver | done].
  - rewrite (encode_scalar t m op _ Hop) in *. rewrite (read_byte_remaining d (null_byte_of m true) (flip_if (flips m) (Encode op a) ++ rest)) by done.
    cbn [mbind outcome_bind]. assert (null_byte_of m true =? null_byte_of m false = false) as -> by (unfold null_byte_of, null_bytes; by case_decide).
    rewrite (remaining_advance1 d (null_byte_of m true) (flip_if (flips m) (Encode op a) ++ rest)) by done.
    rewrite decode_encode by done. cbn [access mbind outcome_bind]. rewrite zstore_Some by done. cbn [access mbind outcome_bind set_data].
    rewrite advance_add. cbn [length]. rewrite flip_if_length. eexists. split; [do 4 f_equal; lia |]. split; [by apply (result_scalar t _ _ _ _ op) |].
    split.
    + rewrite (result_at_scalar t op), bool_decide_true, lookup_insert_eq by done. by destruct t.
    + apply (kept_rows t op); [done |]. intros j Hj. by rewrite lookup_insert_ne by done.
Qed.

(** *** The elements of lists and arrays *)

Lemma while_loop_S {St} (f : St -> outcome (St * bool)) fuel s :
  while_loop f (S fuel) s = (f s ≫= fun p => let '(s, continue) := p in if continue : bool then while_loop f fuel s else Done s).
Proof. done. Qed.

Lemma delimiter_not_head f m valid : (null_byte_of m valid =? list_delimiter f) = false.
Proof. destruct (null_byte_of_cases m valid) as [-> | ->]; by destruct f. Qed.

Lemma elements_decoded t m (recurse : DecodeState -> Z -> outcome DecodeState) f base limit es : forall fuel d c found rest,
  (forall row v, value_ok t v -> decodes t (fun s => recurse s row) row 1 (fun _ => encode_value t m v) (fun _ => canonical_value t v)) ->
  Forall (value_ok t) es -> result_for t c ->
  (forall k, base + found <= k < base + found + Z.of_nat (length es) -> fresh k c) ->
  (match limit with Some size => found + Z.of_nat (length es) <= size | None => True end) ->
  0 <= key_position d -> remaining_bytes d = concat (encode_value t m <$> es) ++ list_delimiter f :: rest -> (length es < fuel)%nat ->
  exists c', while_loop (decode_elements recurse (list_delimiter f) base limit) fuel (d, c, found) =
      Done (advance_key d (Z.of_nat (length (concat (encode_value t m <$> es)))), c', found + Z.of_nat (length es)) /\
    result_for t c' /\
    mapM (result_at c') (zrange (base + found) (base + found + Z.of_nat (length es))) = Some (canonical_value t <$> es) /\
    kept (fun j => ~ (base + found <= j < base + found + Z.of_nat (length es))) c c'.
Proof.
  induction es as [| v es IH]; intros fuel d c found rest Hrec Hes Hc Hf Hlim Hp Hrem Hfuel; (destruct fuel as [| fuel]; [cbn in Hfuel; lia |]); rewrite while_loop_S.
  - exists c. cbn [decode_elements]. rewrite (read_byte_remaining d (list_delimiter f) rest) by done. cbn [mbind outcome_bind]. rewrite Z.eqb_refl.
    cbn [fmap list_fmap concat length mbind outcome_bind]. rewrite !Z.add_0_r, zrange_nil by lia. split_and!; [by destruct d; unfold advance_key; cbn; rewrite Z.add_0_r | done | done | apply kept_refl].
  - apply Forall_cons in Hes as [Hv Hes]. cbn [fmap list_fmap concat] in Hrem. rewrite <- app_assoc in Hrem.
    destruct (encode_value_head t m v) as (valid & bytes & Ehd). cbn [decode_elements].
    rewrite (read_byte_remaining d (null_byte_of m valid) (bytes ++ concat (encode_value t m <$> es) ++ list_delimiter f :: rest)) by (done || by rewrite Hrem, Ehd).
    cbn [mbind outcome_bind]. rewrite delimiter_not_head. cbn [length] in *.
    assert ((match limit with Some size => size <? found + 1 | None => false end) = false) as -> by (destruct limit; [apply Z.ltb_ge; lia | done]).
    replace (base + (found + 1) - 1) with (base + found) by lia.
    destruct (Hrec (base + found) v Hv [d] c Hc) as (keys' & c1 & E1 & Hc1 & [_ Ha1] & Hv1 & Hk1).
    { intros i Hi. apply Hf. lia. }
    { intros i Hi. replace i with 0 by lia. exists d, (concat (encode_value t m <$> es) ++ list_delimiter f :: rest). done. }
    rewrite E1. cbn [mbind outcome_bind]. rewrite (Ha1 0 d eq_refl). rewrite decide_True by lia. cbn [access mbind outcome_bind].
    destruct (IH fuel (advance_key d (Z.of_nat (length (encode_value t m v)))) c1 (found + 1) rest Hrec Hes Hc1) as (c2 & E2 & Hc2 & Hv2 & Hk2).
    { intros k Hk. apply Hk1; [lia | apply Hf; lia]. }
    { destruct limit; [lia | done]. }
    { unfold advance_key. cbn. lia. }
    { by apply remaining_advance. }
    { lia. }
    rewrite E2. exists c2. split_and!; [| done | | ].
    + rewrite advance_add. cbn [fmap list_fmap concat]. rewrite length_app. do 2 f_equal; [f_equal; f_equal; lia | lia].
    + rewrite zrange_cons by lia. cbn [mapM fmap list_fmap]. rewrite (proj1 Hk2 (base + found) (canonical_value t v)); [| lia | rewrite <- (Z.add_0_r (base + found)); apply Hv1; lia].
      cbn [mbind option_bind]. replace (base + found + Z.of_nat (S (length es))) with (base + (found + 1) + Z.of_nat (length es)) by lia.
      replace (base + found + 1) with (base + (found + 1)) by lia. rewrite Hv2. done.
    + eapply kept_trans; [| exact Hk1 | exact Hk2]. cbn beta. intros. lia.
Qed.

(** *** Lists *)

Lemma elements_length t m es : (length es <= length (concat (encode_value t m <$> es)))%nat.
Proof.
  induction es as [| v es IH]; [done |]. cbn [fmap list_fmap concat]. rewrite length_app. destruct (encode_value_head t m v) as (? & ? & ->). cbn [length].
  change (list_fmap _ _ ?f ?l) with (f <$> l). lia.
Qed.

(** The decoders of the elements of a child of type [t]. *)
Definition decodes_elements (t : LogicalType) (m : OrderModifiers) (recurse : DecodeState -> Z -> outcome DecodeState) : Prop :=
  forall row v, value_ok t v -> decodes t (fun s => recurse s row) row 1 (fun _ => encode_value t m v) (fun _ => canonical_value t v).

(** The loop over the elements of one row, after the byte of the validity of the row. *)
Lemma elements_loop t m recurse base found limit es d c rest b :
  decodes_elements t m recurse -> Forall (value_ok t) es -> result_for t c ->
  (forall k, base + found <= k < base + found + Z.of_nat (length es) -> fresh k c) ->
  (match limit with Some size => found + Z.of_nat (length es) <= size | None => True end) ->
  0 <= key_position d -> remaining_bytes d = (b :: concat (encode_value t m <$> es) ++ [list_delimiter (flips m)]) ++ rest ->
  exists c', while_loop (decode_elements recurse (list_delimiter (flips m)) base limit) (S (length (key_data d))) (advance_key d 1, c, found) =
      Done (advance_key (advance_key d 1) (Z.of_nat (length (concat (encode_value t m <$> es)))), c', found + Z.of_nat (length es)) /\
    result_for t c' /\
    mapM (result_at c') (zrange (base + found) (base + found + Z.of_nat (length es))) = Some (canonical_value t <$> es) /\
    kept (fun j => ~ (base + found <= j < base + found + Z.of_nat (length es))) c c'.
Proof.
  intros Hrec Hes Hc Hf Hlim Hp Hrem. rewrite <- app_comm_cons, <- app_assoc in Hrem.
  apply (elements_decoded t m recurse (flips m) base limit es _ _ _ _ rest); try done.
  - unfold advance_key. cbn. lia.
  - by apply (remaining_advance1 d b).
  - pose proof (remaining_length d) as Hl. rewrite Hrem in Hl. cbn [length] in Hl. rewrite length_app in Hl. pose proof (elements_length t m es). lia.
Qed.

Lemma list_row t m recurse vd lo i v :
  decode_null_byte vd = null_byte_of m false -> decode_flip vd = flips m ->
  decodes_elements t (child_modifiers m) recurse -> value_ok (LIST_TYPE t) v ->
  decodes_row (LIST_TYPE t) (fun '(keys, result) i =>
    let result_idx := lo + i in
    d ← access (zload keys i);
    validity_byte ← read_byte d;
    let d := advance_key d 1 in
    if validity_byte =? decode_null_byte vd then
      keys ← access (zstore keys i d);
      Done (keys, set_invalid result result_idx)
    else
      let start_list_size := r_list_size result in
      child ← access (r_children result !! 0%nat);
      '(d, child, new_list_size) ←
        while_loop (decode_elements recurse (decode_delimiter vd) 0 None) (S (length (key_data d))) (d, child, start_list_size);
      keys ← access (zstore keys i (advance_key d 1));
      Done (keys, set_list (set_children result [child]) result_idx (mkListEntry start_list_size (new_list_size - start_list_size)) new_list_size))
    i (lo + i) (encode_value (LIST_TYPE t) m v) (canonical_value (LIST_TYPE t) v).
Proof.
  intros Hnb Hfl Hrec Hok keys r d rest Hr Hf Hd Hp Hrem.
  inversion Hr as [| | ? inv dat ent n child Hchild Hent Hfc |]; subst; [done |]. apply fresh_not_invalid in Hf. cbn [r_invalid] in Hf.
  pose proof (zload_Some_lt _ _ _ Hd) as Hlt. cbv beta zeta. rewrite Hd. cbn [access mbind outcome_bind]. rewrite Hnb.
  assert (v = sv_null \/ exists es, v = sv_list es /\ Forall (value_ok t) es) as [-> | (es & -> & Hes)] by (inversion Hok; subst; eauto; done).
  - cbn [encode_value] in *. rewrite (read_byte_remaining d (null_byte_of m false) rest) by done. cbn [mbind outcome_bind]. rewrite Z.eqb_refl.
    rewrite zstore_Some by done. cbn [access mbind outcome_bind length set_invalid]. eexists. split; [done |]. split; [by constructor |]. split.
    + cbn [result_at r_type r_children r_invalid]. by rewrite bool_decide_false by set_solver.
    + split; intros j; [intros w |]; intros Hj.
      * cbn [result_at r_type r_children r_invalid r_entries]. by rewrite (bool_decide_ext (j ∉ {[lo + i]} ∪ inv) (j ∉ inv)) by set_solver.
      * intros Hfj. inversion Hfj; subst. constructor; [set_solver | done | done].
  - cbn [encode_value canonical_value] in *. rewrite (read_byte_remaining d (null_byte_of m true) ((concat (encode_value t (child_modifiers m) <$> es) ++ [list_delimiter (flips m)]) ++ rest)) by done.
    cbn [mbind outcome_bind]. assert (null_byte_of m true =? null_byte_of m false = false) as -> by (unfold null_byte_of, null_bytes; by case_decide).
    cbn [r_children r_list_size list_lookup access mbind outcome_bind lookup]. assert (decode_delimiter vd = list_delimiter (flips m)) as -> by (unfold decode_delimiter; by rewrite Hfl).
    destruct (elements_loop t (child_modifiers m) recurse 0 n None es d child rest (null_byte_of m true) Hrec Hes Hchild) as (c' & E & Hc' & Hv' & Hk'); [intros k Hk; apply Hfc; lia | done.. |].
    rewrite flips_child in E. cbn [key_data advance_key] in *. rewrite E. cbn [access mbind outcome_bind]. rewrite zstore_Some by done. cbn [access mbind outcome_bind set_children set_list].
    rewrite !advance_add. eexists. split; [do 4 f_equal; cbn [length]; rewrite length_app; cbn [length]; lia |].
    rewrite Z.add_0_l in Hv', Hk'. split_and!.
    + constructor; [done | |].
      * intros j entry. destruct (decide (j = lo + i)) as [-> | Hj]; [rewrite lookup_insert_eq; intros [= <-]; cbn; lia |].
        rewrite lookup_insert_ne by done. intros Hj'%Hent. lia.
      * intros k Hk. apply Hk'; [lia |]. apply Hfc. lia.
    + cbn [result_at r_type r_children r_invalid r_entries]. rewrite bool_decide_true, lookup_insert_eq by done. cbn [mbind option_bind entry_offset entry_length].
      replace (n + (n + Z.of_nat (length es) - n)) with (n + Z.of_nat (length es)) by lia. by rewrite Hv'.
    + split; intros j; [intros w |]; intros Hj.
      * cbn [result_at r_type r_children r_invalid r_entries]. destruct (bool_decide _); [| done]. rewrite lookup_insert_ne by done.
        destruct (ent !! j) as [e |] eqn:Ee; [| done]. cbn [mbind option_bind]. destruct (mapM (result_at child) _) as [k |] eqn:Em; [| done].
        intros Hw. rewrite (mapM_ext_some (result_at child) (result_at c') _ k); [done | | done].
        intros a x Ha%elem_of_zrange. apply Hk'. specialize (Hent _ _ Ee). lia.
      * intros Hfj. inversion Hfj; subst. by constructor.
Qed.

(** *** Arrays *)

Lemma array_disjoint size i j k : 0 <= size -> i <> j -> size * j <= k < size * j + size -> ~ (size * i <= k < size * i + size).
Proof. intros Hs Hne Hk Hk'. assert (i < j \/ j < i) as [H | H] by lia; nia. Qed.

Lemma array_row t size m recurse vd lo i v :
  decode_null_byte vd = null_byte_of m false -> decode_flip vd = flips m ->
  decodes_elements t (child_modifiers m) recurse -> value_ok (ARRAY_TYPE t size) v ->
  decodes_row (ARRAY_TYPE t size) (fun '(keys, result) i =>
    let result_idx := lo + i in
    d ← access (zload keys i);
    validity_byte ← read_byte d;
    let d := advance_key d 1 in
    let result := if validity_byte =? decode_null_byte vd then set_invalid result result_idx else result in
    child ← access (r_children result !! 0%nat);
    '(d, child, found_elements) ←
      while_loop (decode_elements recurse (decode_delimiter vd) (size * result_idx) (Some size)) (S (length (key_data d))) (d, child, 0);
    keys ← access (zstore keys i (advance_key d 1));
    if negb (found_elements =? size) then Raise InvalidInputException
    else Done (keys, set_children result [child]))
    i (lo + i) (encode_value (ARRAY_TYPE t size) m v) (canonical_value (ARRAY_TYPE t size) v).
Proof.
  intros Hnb Hfl Hrec Hok keys r d rest Hr Hf Hd Hp Hrem.
  inversion Hr as [| | | ? ? inv dat ent n child Hchild Hsize]; subst; [done |].
  inversion Hok as [| | | | | ? ? valid es Hes Hlen _]; subst; try done. cbn [encode_value canonical_value] in *.
  set (size := Z.of_nat (length es)) in *. inversion Hf as [? ? ? ? ? ? ? Hinv _ Hfc]; subst.
  pose proof (zload_Some_lt _ _ _ Hd) as Hlt. cbv beta zeta. rewrite Hd. cbn [access mbind outcome_bind]. rewrite Hnb.
  rewrite (read_byte_remaining d (null_byte_of m valid) ((concat (encode_value t (child_modifiers m) <$> es) ++ [list_delimiter (flips m)]) ++ rest)) by done.
  cbn [mbind outcome_bind].
  set (inv' := if valid then inv else {[lo + i]} ∪ inv).
  assert ((if null_byte_of m valid =? null_byte_of m false then set_invalid (mkResult (ARRAY_TYPE t size) inv dat ent n [child]) (lo + i) else mkResult (ARRAY_TYPE t size) inv dat ent n [child])
    = mkResult (ARRAY_TYPE t size) inv' dat ent n [child]) as ->.
  { unfold inv', null_byte_of, null_bytes. by case_decide; destruct valid. }
  cbn [r_children list_lookup access mbind outcome_bind lookup]. assert (decode_delimiter vd = list_delimiter (flips m)) as -> by (unfold decode_delimiter; by rewrite Hfl).
  destruct (elements_loop t (child_modifiers m) recurse (size * (lo + i)) 0 (Some size) es d child rest (null_byte_of m valid) Hrec Hes Hchild) as (c' & E & Hc' & Hv' & Hk'); [ | done.. |].
  { intros k Hk. apply (Hfc t size child); [done | by left | lia]. }
  rewrite flips_child in E. cbn [key_data advance_key] in *. rewrite E. cbn [access mbind outcome_bind]. rewrite zstore_Some by done. cbn [access mbind outcome_bind].
  fold size in Hv', Hk' |- *. rewrite Z.add_0_l, Z.eqb_refl. cbn [negb set_children]. rewrite !advance_add. eexists. split; [do 4 f_equal; cbn [length]; rewrite length_app; cbn [length]; lia |].
  rewrite Z.add_0_r in Hv', Hk'.
  assert (forall j, j <> lo + i -> (j ∈ inv' <-> j ∈ inv)) as Hinv' by (intros j Hj; unfold inv'; destruct valid; set_solver).
  split_and!; [by constructor | | split; intros j; [intros w |]; intros Hj].
  - cbn [result_at r_type r_children r_invalid]. rewrite Hv'. cbn. do 2 f_equal. unfold inv'. destruct valid; [by apply bool_decide_true | apply bool_decide_false; set_solver].
  - cbn [result_at r_type r_children r_invalid]. destruct (mapM (result_at child) _) as [k |] eqn:Em; [| done]. intros Hw.
    rewrite (mapM_ext_some (result_at child) (result_at c') _ k); [| | done].
    + rewrite (bool_decide_ext (j ∉ inv') (j ∉ inv)) by (by rewrite Hinv'). done.
    + intros a x Ha%elem_of_zrange. apply Hk'. by apply (array_disjoint size (lo + i) j); [lia | | lia].
  - intros Hfj. inversion Hfj as [? ? ? ? ? ? ? Hj1 Hj2 Hj3]; subst. constructor; [by rewrite Hinv' | done |].
    intros t' size' c k [= <- <-] ->%list_elem_of_singleton Hk. apply Hk'; [by apply (array_disjoint size (lo + i) j); [lia | | lia] |].
    apply (Hj3 t size child); [done | by left | done].
Qed.

(** *** Structs *)

Lemma key_at_advanced n encs keys keys' i a b :
  advanced n encs keys keys' -> i < n -> encs i = a -> key_at keys i (a ++ b) -> key_at keys' i b.
Proof.
  intros [_ Ha] Hi <- (d & rest & Hd & Hp & Hrem). specialize (Ha i d Hd). rewrite decide_True in Ha by done.
  eexists _, rest. split; [exact Ha |]. split; [unfold advance_key; cbn; lia |]. rewrite <- app_assoc in Hrem. by apply remaining_advance.
Qed.

Lemma key_at_l keys i a b : key_at keys i (a ++ b) -> key_at keys i a.
Proof. intros (d & rest & Hd & Hp & Hrem). exists d, (b ++ rest). by rewrite app_assoc. Qed.

Lemma advanced_app n a b keys k k' : advanced n a keys k -> advanced n b k k' -> advanced n (fun i => a i ++ b i) keys k'.
Proof.
  intros [L1 H1] [L2 H2]. split; [congruence |]. intros i d Hd. rewrite (H2 i _ (H1 i d Hd)). f_equal. case_decide; [| done].
  rewrite advance_add, length_app. f_equal. lia.
Qed.

Lemma advanced_nil n keys : advanced n (fun _ => []) keys keys.
Proof. split; [done |]. intros i d Hd. rewrite Hd. f_equal. case_decide; [| done]. unfold advance_key. destruct d. cbn. by rewrite Z.add_0_r. Qed.

Lemma advanced_ext n a b keys keys' : (forall i, 0 <= i < n -> a i = b i) -> advanced n a keys keys' -> advanced n b keys keys'.
Proof.
  intros E [H1 H2]. split; [done |]. intros i d Hd. rewrite (H2 i d Hd). f_equal. pose proof (zload_Some_lt _ _ _ Hd).
  case_decide; [| done]. by rewrite E by lia.
Qed.

(** The bytes of the validity of the structs. *)
Lemma validity_loop vd ts inv dat ent size children m lo n (valids : Z -> bool) keys :
  0 <= n -> decode_null_byte vd = null_byte_of m false ->
  (forall i, 0 <= i < n -> key_at keys i [null_byte_of m (valids i)]) ->
  exists keys' inv', run (fun '(keys, result) i =>
      d ← access (zload keys i);
      validity_byte ← read_byte d;
      keys ← access (zstore keys i (advance_key d 1));
      Done (keys, if validity_byte =? decode_null_byte vd then set_invalid result (lo + i) else result))
      (keys, mkResult (STRUCT_TYPE ts) inv dat ent size children) (zrange 0 n) = Done (keys', mkResult (STRUCT_TYPE ts) inv' dat ent size children) /\
    advanced n (fun i => [null_byte_of m (valids i)]) keys keys' /\
    (forall j, j ∈ inv' <-> j ∈ inv \/ exists i, 0 <= i < n /\ j = lo + i /\ valids i = false).
Proof.
  intros Hn Hnb Hkeys.
  enough (forall k : nat, Z.of_nat k <= n -> exists keys' inv', run (fun '(keys, result) i =>
      d ← access (zload keys i);
      validity_byte ← read_byte d;
      keys ← access (zstore keys i (advance_key d 1));
      Done (keys, if validity_byte =? decode_null_byte vd then set_invalid result (lo + i) else result))
      (keys, mkResult (STRUCT_TYPE ts) inv dat ent size children) (zrange 0 (Z.of_nat k)) = Done (keys', mkResult (STRUCT_TYPE ts) inv' dat ent size children) /\
    advanced (Z.of_nat k) (fun i => [null_byte_of m (valids i)]) keys keys' /\
    (forall j, j ∈ inv' <-> j ∈ inv \/ exists i, 0 <= i < Z.of_nat k /\ j = lo + i /\ valids i = false)) as H.
  { specialize (H (Z.to_nat n)). rewrite Z2Nat.id in H by done. by apply H. }
  induction k as [| k IH]; intros Hk.
  - exists keys, inv. rewrite zrange_nil by lia. split_and!; [done | | intros j; split; [by left | intros [| (i & Hi & _)]; [done | lia]]].
    split; [done |]. intros i d Hd. pose proof (zload_Some_lt _ _ _ Hd). by rewrite decide_False by lia.
  - destruct IH as (keys1 & inv1 & E1 & [L1 A1] & H1); [lia |]. destruct (Hkeys (Z.of_nat k)) as (d & rest & Hd & Hp & Hrem); [lia |].
    pose proof (A1 _ _ Hd) as Hd1. rewrite decide_False in Hd1 by lia. pose proof (zload_Some_lt _ _ _ Hd1) as Hlt.
    rewrite Nat2Z.inj_succ, <- Z.add_1_r, zrange_snoc, run_app, E1 by lia. cbn [mbind outcome_bind run]. rewrite Hd1. cbn [access mbind outcome_bind].
    rewrite (read_byte_remaining d (null_byte_of m (valids (Z.of_nat k))) rest) by done. cbn [mbind outcome_bind]. rewrite zstore_Some by done. cbn [access mbind outcome_bind].
    rewrite Hnb. exists (<[Z.to_nat (Z.of_nat k) := advance_key d 1]> keys1), (if valids (Z.of_nat k) then inv1 else {[lo + Z.of_nat k]} ∪ inv1). split_and!.
    + do 2 f_equal. unfold null_byte_of, null_bytes. by case_decide; destruct (valids (Z.of_nat k)).
    + split; [by rewrite length_insert |]. intros i d' Hd'. pose proof (zload_Some_lt _ _ _ Hd') as Hlt'. specialize (A1 i d' Hd').
      rewrite zload_lookup in * by lia. destruct (decide (i = Z.of_nat k)) as [-> | Hne].
      * rewrite list_lookup_insert_eq by lia. rewrite decide_True by lia. by simplify_eq.
      * rewrite list_lookup_insert_ne by lia. rewrite A1. f_equal. destruct (decide (i < Z.of_nat k)), (decide (i < Z.of_nat k + 1)); done || lia.
    + intros j. transitivity (j ∈ inv1 \/ (j = lo + Z.of_nat k /\ valids (Z.of_nat k) = false)); [destruct (valids (Z.of_nat k)); set_solver |].
      rewrite H1. split.
      * intros [[Hj | (i & Hi & Hj & Hv)] | [Hj Hv]]; [by left | right; exists i | right; exists (Z.of_nat k)]; (split; [lia |]); done.
      * intros [Hj | (i & Hi & Hj & Hv)]; [by do 2 left |]. destruct (decide (i = Z.of_nat k)) as [-> |]; [by right |]. left. right. exists i. split; [lia | done].
Qed.

Lemma fields_decoded m ts recurse vds lo n fields : forall keys children,
  Forall2 (fun t vd => forall vals, (forall i, 0 <= i < n -> value_ok t (vals i)) ->
    decodes t (recurse vd) lo n (fun i => encode_value t m (vals i)) (fun i => canonical_value t (vals i))) ts vds ->
  Forall2 result_for ts children -> (forall i, 0 <= i < n -> Forall (fresh (lo + i)) children) ->
  (forall i, 0 <= i < n -> Forall2 value_ok ts (fields i)) ->
  (forall i, 0 <= i < n -> key_at keys i (concat (zip_with (fun t v => encode_value t m v) ts (fields i)))) ->
  exists keys' children', decode_fields recurse vds keys children = Done (keys', children') /\ Forall2 result_for ts children' /\
    advanced n (fun i => concat (zip_with (fun t v => encode_value t m v) ts (fields i))) keys keys' /\
    (forall i, 0 <= i < n -> mapM (fun c => result_at c (lo + i)) children' = Some (zip_with canonical_value ts (fields i))) /\
    Forall2 (kept (fun j => ~ (lo <= j < lo + n))) children children'.
Proof.
  intros keys children Hrec. revert keys children fields. induction Hrec as [| t vd ts vds Hhd Htl IH]; intros keys children fields Hch Hf Hok Hkeys.
  - apply Forall2_nil_inv_l in Hch as ->. exists keys, []. split_and!; [done | done | apply advanced_nil | done | done].
  - apply Forall2_cons_inv_l in Hch as (c & children' & Hc & Hch & ->).
    set (hd i := match fields i with v :: _ => v | [] => sv_null end). set (tl i := match fields i with _ :: l => l | [] => [] end).
    assert (forall i, 0 <= i < n -> fields i = hd i :: tl i /\ value_ok t (hd i) /\ Forall2 value_ok ts (tl i)) as Hfields.
    { intros i Hi. specialize (Hok i Hi). unfold hd, tl. apply Forall2_cons_inv_l in Hok as (v & l & Hv & Hl & ->). done. }
    assert (forall i, 0 <= i < n -> concat (zip_with (fun t v => encode_value t m v) (t :: ts) (fields i)) =
      encode_value t m (hd i) ++ concat (zip_with (fun t v => encode_value t m v) ts (tl i))) as Henc.
    { intros i Hi. destruct (Hfields i Hi) as (-> & _). done. }
    destruct (Hhd hd) with (keys := keys) (r := c) as (keys1 & c1 & E1 & Hc1 & A1 & V1 & K1); [intros i Hi; by apply Hfields | done | | |].
    { intros i Hi. by apply (proj1 (Forall_cons _ _ _) (Hf i Hi)). }
    { intros i Hi. specialize (Hkeys i Hi). rewrite Henc in Hkeys by done. by eapply key_at_l. }
    destruct (IH keys1 children' tl) as (keys2 & children2 & E2 & Hc2 & A2 & V2 & K2); [done | | intros i Hi; by apply Hfields | |].
    { intros i Hi. by apply (proj1 (Forall_cons _ _ _) (Hf i Hi)). }
    { intros i Hi. specialize (Hkeys i Hi). rewrite Henc in Hkeys by done. eapply key_at_advanced; [exact A1 | lia | done | done]. }
    exists keys2, (c1 :: children2). cbn [decode_fields]. rewrite E1. cbn [mbind outcome_bind]. fold (decode_fields recurse). rewrite E2. cbn [mbind outcome_bind].
    split_and!; [done | by constructor | | | by constructor].
    + eapply advanced_ext; [| by apply (advanced_app n _ _ _ _ _ A1 A2)]. intros i Hi. by rewrite Henc.
    + intros i Hi. cbn [mapM]. rewrite V1, V2 by done. destruct (Hfields i Hi) as (-> & _). done.
Qed.

Lemma struct_decoded m ts recurse vd vds lo n vals :
  0 <= n -> decode_null_byte vd = null_byte_of m false ->
  Forall2 (fun t vd => forall vals, (forall i, 0 <= i < n -> value_ok t (vals i)) ->
    decodes t (recurse vd) lo n (fun i => encode_value t (child_modifiers m) (vals i)) (fun i => canonical_value t (vals i))) ts vds ->
  (forall i, 0 <= i < n -> value_ok (STRUCT_TYPE ts) (vals i)) ->
  decodes (STRUCT_TYPE ts) (DecodeSortKeyStruct recurse vd vds lo n) lo n
    (fun i => encode_value (STRUCT_TYPE ts) m (vals i)) (fun i => canonical_value (STRUCT_TYPE ts) (vals i)).
Proof.
  intros Hn Hnb Hrec Hok keys r Hr Hf Hkeys.
  inversion Hr as [| ? inv dat ent size children Hch | |]; subst; [done |].
  set (valids i := match vals i with sv_struct valid _ => valid | _ => true end). set (fields i := match vals i with sv_struct _ fs => fs | _ => [] end).
  assert (forall i, 0 <= i < n -> vals i = sv_struct (valids i) (fields i) /\ Forall2 value_ok ts (fields i)) as Hvals.
  { intros i Hi. specialize (Hok i Hi). unfold valids, fields. inversion Hok; subst; done. }
  assert (forall i, 0 <= i < n -> encode_value (STRUCT_TYPE ts) m (vals i) = [null_byte_of m (valids i)] ++
    concat (zip_with (fun t v => encode_value t (child_modifiers m) v) ts (fields i))) as Henc.
  { intros i Hi. destruct (Hvals i Hi) as (-> & _). done. }
  destruct (validity_loop vd ts inv dat ent size children m lo n valids keys Hn Hnb) as (keys1 & inv1 & E1 & A1 & H1).
  { intros i Hi. specialize (Hkeys i Hi). rewrite Henc in Hkeys by done. by eapply key_at_l. }
  destruct (fields_decoded (child_modifiers m) ts recurse vds lo n fields keys1 children Hrec Hch) as (keys2 & children2 & E2 & Hc2 & A2 & V2 & K2).
  { intros i Hi. specialize (Hf i Hi). inversion Hf as [? ? ? ? ? ? ? _ Hfc _]; subst. apply Forall_forall. intros c Hc. by apply (Hfc ts). }
  { intros i Hi. by apply Hvals. }
  { intros i Hi. specialize (Hkeys i Hi). rewrite Henc in Hkeys by done. eapply key_at_advanced; [exact A1 | lia | done | done]. }
  exists keys2, (mkResult (STRUCT_TYPE ts) inv1 dat ent size children2). unfold DecodeSortKeyStruct. rewrite E1. cbn [mbind outcome_bind r_children]. rewrite E2.
  cbn [mbind outcome_bind set_children]. split_and!; [done | by constructor | | | split; intros j; [intros w |]; intros Hj].
  - eapply advanced_ext; [| by apply (advanced_app n _ _ _ _ _ A1 A2)]. intros i Hi. by rewrite Henc.
  - intros i Hi. cbn [result_at r_type r_children r_invalid]. rewrite V2 by done. destruct (Hvals i Hi) as [-> _]. cbn. do 2 f_equal.
    specialize (Hf i Hi). apply fresh_not_invalid in Hf. cbn [r_invalid] in Hf.
    destruct (valids i) eqn:Ev; [apply bool_decide_true | apply bool_decide_false]; rewrite H1.
    + intros [Hj | (i' & Hi' & Hj & Hv)]; [done |]. assert (i' = i) as -> by lia. congruence.
    + intros Hn'. apply Hn'. right. by exists i.
  - cbn [result_at r_type r_children r_invalid]. destruct (mapM _ children) as [k |] eqn:Em; [| done]. intros Hw.
    assert (mapM (fun c => result_at c j) children2 = Some k) as ->.
    { clear - Em K2 Hj. revert k Em. induction K2 as [| c c' cs cs' Hc Hcs IH]; intros k Em; [done |]. cbn in *.
      destruct (result_at c j) as [x |] eqn:Ex; [| done]. cbn in Em. destruct (mapM _ cs) as [k' |]; [| done]. cbn in Em. rewrite (proj1 Hc j x) by done. cbn. by rewrite (IH k'). }
    rewrite (bool_decide_ext (j ∉ inv1) (j ∉ inv)); [done |]. rewrite H1. split; [naive_solver |]. intros Hni [? | (i & Hi & -> & _)]; [done | lia].
  - intros Hfj. inversion Hfj as [? ? ? ? ? ? ? Hj1 Hj2 Hj3]; subst. constructor; [| | done].
    + rewrite H1. intros [? | (i & Hi & -> & _)]; [done | lia].
    + intros ts' c [= <-] Hc. apply list_elem_of_lookup in Hc as [k Hk].
      destruct (Forall2_lookup_r _ _ _ _ _ K2 Hk) as (c0 & Hk0 & Hkept). apply Hkept; [done |]. apply (Hj2 ts); [done | by eapply list_elem_of_lookup_2].
Qed.

(** *** Every type *)

Lemma decodes_ext t f g lo n encs vals : (forall s, r_type (snd s) = t -> f s = g s) -> decodes t f lo n encs vals -> decodes t g lo n encs vals.
Proof. intros E Hf keys r Hr. rewrite <- E by (by apply result_for_type). by apply Hf. Qed.

Lemma decode_new_bytes t m : decode_null_byte (DecodeSortKeyVectorData_new t m) = null_byte_of m false /\ decode_flip (DecodeSortKeyVectorData_new t m) = flips m.
Proof. unfold null_byte_of. destruct t; cbn [DecodeSortKeyVectorData_new]; by destruct (null_bytes m). Qed.

Lemma decoded t : forall m lo n vals, 0 <= n -> (forall i, 0 <= i < n -> value_ok t (vals i)) ->
  decodes t (DecodeSortKeyRecursive (DecodeSortKeyVectorData_new t m) lo n) lo n (fun i => encode_value t m (vals i)) (fun i => canonical_value t (vals i)).
Proof.
  assert (forall t op m lo n vals, type_operator t = Some op -> 0 <= n -> (forall i, 0 <= i < n -> value_ok t (vals i)) ->
    decodes t (DecodeSortKeyRecursive (DecodeSortKeyVectorData_new t m) lo n) lo n (fun i => encode_value t m (vals i)) (fun i => canonical_value t (vals i))) as Hscalar.
  { intros t' op m lo n vals Hop Hn Hok. destruct (decode_new_bytes t' m) as [Hnb Hfl].
    eapply decodes_ext; [| apply decode_loop; [done | intros i Hi; by apply (scalar_row t' op m lo i), Hok]].
    intros s Hs. destruct (DecodeSortKeyVectorData_new t' m) as [nb vb cs fl] eqn:E. cbn [decode_null_byte decode_flip] in *. subst nb fl.
    cbn [DecodeSortKeyRecursive]. rewrite Hs, Hop. done. }
  induction t as [p | | | ts IH | t IH | t size IH] using type_induction; intros m lo n vals Hn Hok.
  - destruct (TypeIsConstantSize p) eqn:Ep; [apply (Hscalar _ (SortKeyConstantOperator p)); [cbn; by rewrite Ep | done | done] |].
    destruct (decide (n = 0)) as [-> |].
    { intros keys r Hr. inversion Hr as [? ? ? ? ? op Hop | | |]; subst. cbn in Hop. by rewrite Ep in Hop. }
    exfalso. specialize (Hok 0 ltac:(lia)). inversion Hok as [? op Hop | ? op ? Hop | | | |]; subst; cbn in Hop; by rewrite Ep in Hop.
  - by apply (Hscalar _ SortKeyVarcharOperator).
  - by apply (Hscalar _ SortKeyBlobOperator).
  - destruct (decode_new_bytes (STRUCT_TYPE ts) m) as [Hnb Hfl].
    eapply decodes_ext; [| apply (struct_decoded m ts (fun child s => DecodeSortKeyRecursive child lo n s) (DecodeSortKeyVectorData_new (STRUCT_TYPE ts) m)
      ((fun t => DecodeSortKeyVectorData_new t (child_modifiers m)) <$> ts) lo n vals Hn Hnb); [| done]].
    + intros s Hs. cbn [DecodeSortKeyVectorData_new]. destruct (null_bytes m). cbn [DecodeSortKeyRecursive]. by rewrite Hs.
    + clear - IH Hn. induction IH as [| t ts Ht Hts IH2]; constructor; [| done]. intros vals Hok. by apply Ht.
  - destruct (decode_new_bytes (LIST_TYPE t) m) as [Hnb Hfl].
    eapply decodes_ext; [| apply decode_loop; [done | intros i Hi; apply (list_row t m (fun s i => DecodeSortKeyRecursive (DecodeSortKeyVectorData_new t (child_modifiers m)) i 1 s)
      (DecodeSortKeyVectorData_new (LIST_TYPE t) m) lo i (vals i) Hnb Hfl); [| by apply Hok]]].
    + intros s Hs. cbn [DecodeSortKeyVectorData_new]. destruct (null_bytes m). cbn [DecodeSortKeyRecursive]. by rewrite Hs.
    + intros row v Hv. apply (IH (child_modifiers m) row 1 (fun _ => v)); [lia | done].
  - destruct (decode_new_bytes (ARRAY_TYPE t size) m) as [Hnb Hfl].
    eapply decodes_ext; [| apply decode_loop; [done | intros i Hi; apply (array_row t size m (fun s i => DecodeSortKeyRecursive (DecodeSortKeyVectorData_new t (child_modifiers m)) i 1 s)
      (DecodeSortKeyVectorData_new (ARRAY_TYPE t size) m) lo i (vals i) Hnb Hfl); [| by apply Hok]]].
    + intros s Hs. cbn [DecodeSortKeyVectorData_new]. destruct (null_bytes m). cbn [DecodeSortKeyRecursive]. by rewrite Hs.
    + intros row v Hv. apply (IH (child_modifiers m) row 1 (fun _ => v)); [lia | done].
Qed.

(** ** The rows of the keys *)

Lemma new_result_for t : forall v, vector_for t v -> result_for t (new_result t).
Proof.
  induction t as [p | | | ts IH | t IH | t size IH] using type_induction; intros v Hv; cbn [new_result].
  - inversion Hv as [? ? ? op Hop | | |]; subst. by apply (result_scalar _ _ _ _ _ op).
  - by apply (result_scalar _ _ _ _ _ SortKeyVarcharOperator).
  - by apply (result_scalar _ _ _ _ _ SortKeyBlobOperator).
  - inversion Hv as [| ? ? ? children Hch | |]; subst; [done |]. constructor. clear - IH Hch. induction Hch as [| t v ts vs Hv Hvs IH2]; [done |].
    apply Forall_cons in IH as [H1 H2]. constructor; [by apply (H1 v) | by apply IH2].
  - inversion Hv as [| | ? ? ? child Hch |]; subst; [done |]. constructor; [by apply (IH child) | done |].
    intros k _. clear. revert k. induction t as [p | | | ts IH | t IH | t size IH] using type_induction; intros k; cbn [new_result]; constructor; try done.
    + intros ts' c _ Hc. apply list_elem_of_fmap in Hc as (t & -> & Ht). rewrite Forall_forall in IH. by apply IH.
    + intros t' size' c j _ ->%list_elem_of_singleton _. apply IH.
  - inversion Hv as [| | | ? ? ? ? child Hsize Hch]; subst; [done |]. constructor; [by apply (IH child) | done].
Qed.

Lemma new_result_fresh t : forall k, fresh k (new_result t).
Proof.
  induction t as [p | | | ts IH | t IH | t size IH] using type_induction; intros k; cbn [new_result]; constructor; try done.
  - intros ts' c _ Hc. apply list_elem_of_fmap in Hc as (t & -> & Ht). rewrite Forall_forall in IH. by apply IH.
  - intros t' size' c j _ ->%list_elem_of_singleton _. apply IH.
Qed.

Definition canonical_row (ts : list LogicalType) (vs : list SortValue) : list SortValue := zip_with canonical_value ts vs.

Lemma columns_decoded n lo count ts ms vs columns (row : Z -> Z) : forall keys results acc,
  columns_ok n ts ms vs columns -> 0 <= count -> (forall i, 0 <= i < count -> 0 <= row i < n) ->
  Forall2 result_for ts results -> (forall i, 0 <= i < count -> Forall (fresh (lo + i)) results) ->
  (forall i, 0 <= i < count -> key_at keys i (encode_row ts ms (row_of columns (row i)))) ->
  exists keys' results', run (decode_column lo count) (keys, acc) (zip results ms) = Done (keys', acc ++ results') /\
    forall i, 0 <= i < count -> mapM (fun r => result_at r (lo + i)) results' = Some (canonical_row ts (row_of columns (row i))).
Proof.
  intros keys results acc Hc. revert keys results acc. induction Hc as [| t m v values ts ms vs columns Hv Hval Hc IH]; intros keys results acc Hcount Hrow Hr Hf Hkeys.
  - apply Forall2_nil_inv_l in Hr as ->. exists keys, []. split; [cbn; by rewrite app_nil_r | done].
  - apply Forall2_cons_inv_l in Hr as (r & results' & Hr & Hrs & ->).
    destruct (decoded t m lo count (fun i => values (row i)) Hcount) with (keys := keys) (r := r) as (keys1 & r1 & E1 & Hr1 & A1 & V1 & K1).
    { intros i Hi. by apply Hval, Hrow. }
    { done. }
    { intros i Hi. by apply (proj1 (Forall_cons _ _ _) (Hf i Hi)). }
    { intros i Hi. specialize (Hkeys i Hi). cbn [encode_row row_of fmap list_fmap] in Hkeys. by eapply key_at_l. }
    destruct (IH keys1 results' (acc ++ [r1]) Hcount Hrow Hrs) as (keys2 & results2 & E2 & V2).
    { intros i Hi. by apply (proj1 (Forall_cons _ _ _) (Hf i Hi)). }
    { intros i Hi. specialize (Hkeys i Hi). cbn [encode_row row_of fmap list_fmap] in Hkeys. eapply key_at_advanced; [exact A1 | lia | done | done]. }
    exists keys2, (r1 :: results2).
    change (run (decode_column lo count) (keys, acc) (zip (r :: results') (m :: ms))) with
      (decode_column lo count (keys, acc) (r, m) ≫= fun s => run (decode_column lo count) s (zip results' ms)).
    cbn [decode_column]. rewrite (result_for_type t r Hr), E1. cbn [mbind outcome_bind]. rewrite E2, <- app_assoc. split; [done |]. intros i Hi. cbn [mapM]. by rewrite V1, V2 by done.
Qed.

(** The bytes of an integer key. *)
Lemma bigint_bytes bytes :
  (length bytes <= 8)%nat -> Forall is_byte bytes ->
  le_store 8 (BSwap (u64 (be_load (pad8 bytes)))) = pad8 bytes.
Proof.
  intros Hl Hb. destruct (pad8_bytes bytes Hl Hb) as [H8 Hp].
  pose proof (be_load_bound _ Hp) as Hlt. rewrite H8 in Hlt. rewrite u64_small by (cbn in Hlt; lia).
  rewrite <- (reverse_involutive (pad8 bytes)) at 1. rewrite be_load_rev, BSwap_le_load by (rewrite ?length_reverse; done || by apply Forall_reverse).
  rewrite be_load_rev. rewrite <- H8 at 1. by apply le_store_load.
Qed.

(** Where the decoding of the keys begins. *)
Lemma keys_loaded n ts ms vs columns sel count :
  0 <= count -> columns_ok n ts ms vs columns -> (forall i, 0 <= i < count -> 0 <= get_index sel i < n) ->
  exists keys, load_keys (keys_of n ts ms columns) sel count = Done keys /\
    forall i, 0 <= i < count -> key_at keys i (encode_row ts ms (row_of columns (get_index sel i))).
Proof.
  intros Hcount Hc Hsel. unfold load_keys, keys_of. destruct (bind_key_type_cases ts) as [E | E]; rewrite E.
  - rewrite (run_snoc _ (fun i => mkKey (row_key ts ms columns (get_index sel i)) 0)).
    + eexists. split; [done |]. intros i Hi. cbn [app]. eexists _, []. rewrite (zload_fmap_zrange (fun i => mkKey (row_key ts ms columns (get_index sel i)) 0)) by done.
      split; [done |]. split; [done |]. unfold remaining_bytes. cbn. by rewrite app_nil_r.
    + intros s i Hi%elem_of_zrange. by rewrite zload_fmap_zrange by (by apply Hsel).
  - rewrite (run_snoc _ (fun i => mkKey (pad8 (row_key ts ms columns (get_index sel i))) 0)).
    + eexists. split; [done |]. intros i Hi. cbn [app]. eexists _, (replicate (8 - length (row_key ts ms columns (get_index sel i))) 0).
      rewrite (zload_fmap_zrange (fun i => mkKey (pad8 (row_key ts ms columns (get_index sel i))) 0)) by done. done.
    + intros s i Hi%elem_of_zrange. pose proof (Hsel i Hi) as Hrow.
      rewrite (zload_fmap_zrange (fun r => be_load (pad8 (row_key ts ms columns r)))) by done. cbn [access mbind outcome_bind].
      rewrite bigint_bytes; [done | by apply (constant_row_length n ts ms vs columns) | by eapply encode_row_bytes, columns_values].
Qed.

Lemma columns_results n ts ms vs columns : columns_ok n ts ms vs columns ->
  Forall2 result_for ts (new_result <$> ts) /\ forall k, Forall (fresh k) (new_result <$> ts).
Proof.
  induction 1 as [| t m v values ts ms vs columns Hv Hval Hc [IH1 IH2]]; [done |]. split; [constructor; [by apply (new_result_for t v) | done] |].
  intros k. constructor; [apply new_result_fresh | apply IH2].
Qed.

(** C16. Decoding the keys that [create_sort_key] has created, selected by any selection vector,
    gives the rows back, with -0.0 as 0.0 and one NaN: NULLs, strings, blobs, structs, lists
    and arrays included, whatever the modifiers of the columns are. *)
Theorem DecodeSortKey_roundtrip junk n ts ms vs columns keys sel count :
  0 <= n -> columns_ok n ts ms vs columns ->
  (forall i, 0 <= i < n -> Z.of_nat (length (row_key ts ms columns i)) < 2 ^ 32) ->
  CreateSortKeyFunction junk vs n ms = Done keys ->
  0 <= count -> (forall i, 0 <= i < count -> 0 <= get_index sel i < n) ->
  exists results, DecodeSortKeyFunction keys sel count ms ts = Done results /\
    forall i, 0 <= i < count -> mapM (fun r => result_at r i) results = Some (canonical_row ts (row_of columns (get_index sel i))).
Proof.
  intros Hn Hc Hsize Hk Hcount Hsel. rewrite (create_keys junk n ts ms vs columns Hn Hc Hsize) in Hk. injection Hk as <-.
  destruct (columns_results n ts ms vs columns Hc) as [Hr Hf]. destruct (keys_loaded n ts ms vs columns sel count Hcount Hc Hsel) as (ks & E & Hks).
  destruct (columns_decoded n 0 count ts ms vs columns (get_index sel) ks (new_result <$> ts) []) as (keys' & results & E2 & V); try done.
  exists results. unfold DecodeSortKeyFunction. rewrite E. cbn [mbind outcome_bind]. unfold decode_columns. by rewrite E2.
Qed.

(** The position after the key of one column is its length. *)
Lemma DecodeSortKey_position t m v bytes r i :
  value_ok t v -> result_for t r -> fresh i r -> exists r',
    DecodeSortKey (encode_value t m v ++ bytes) r i m = Done (r', Z.of_nat (length (encode_value t m v))) /\ result_at r' i = Some (canonical_value t v).
Proof.
  intros Hv Hr Hf. destruct (decoded t m i 1 (fun _ => v) ltac:(lia) ltac:(done) [mkKey (encode_value t m v ++ bytes) 0] r Hr) as (keys' & r' & E & Hr' & [_ A] & V & _).
  { intros k Hk. by replace (i + k) with i by lia. }
  { intros k Hk. replace k with 0 by lia. by eexists _, bytes. }
  exists r'. unfold DecodeSortKey. rewrite (result_for_type t r Hr), E. cbn [mbind outcome_bind]. rewrite (A 0 _ eq_refl). split; [done |].
  rewrite <- (Z.add_0_r i). apply V. lia.
Qed.

(** The type of keys that decoding accepts is the type that creation chooses. *)
Lemma decode_bind_iff type ts : decode_bind_ok type ts = true <-> type = bind_key_type ts.
Proof.
  unfold decode_bind_ok, bind_key_type. destruct (constant_key_size ts) as [c size].
  destruct c, (Z.leb_spec size 8), (Z.ltb_spec 8 size), type; cbn; split; intros; done || lia.
Qed.

Lemma DecodeSortKey_roundtrip_witness :
  exists results, DecodeSortKeyFunction (keys_of 3 example_types example_modifiers example_columns) (Some [2; 0; 0; 1]) 4 example_modifiers example_types = Done results /\
    forall i, 0 <= i < 4 -> mapM (fun r => result_at r i) results =
      Some (canonical_row example_types (row_of example_columns (get_index (Some [2; 0; 0; 1]) i))).
Proof.
  apply (DecodeSortKey_roundtrip 255 3 example_types example_modifiers example_vectors example_columns);
    [lia | apply example_columns_ok | apply example_sizes | vm_compute; reflexivity | lia |].
  intros i Hi. assert (i = 0 \/ i = 1 \/ i = 2 \/ i = 3) as [-> | [-> | [-> | ->]]] by lia; vm_compute; split; congruence.
Defined.
