(* ===== verification/RadixPartitioning.v ===== *)
(** * Radix partitioning of rows

    common/radix_partitioning.cpp and common/types/row/partitioned_tuple_data.cpp:
    rows are distributed by the upper bits of their hash.  One chunk is appended
    with a counting sort over the partitions ([BuildPartitionSel]); a thread whose
    data has too few partitions is repartitioned.

    The rows of a chunk are a list, a collection of rows is the list of its rows;
    [hash] is the value of the hash column.  A result of [None] is an assertion
    that fails, an exception or an access outside of an array.  The map from
    partitions to entries is the fixed size map up to 8 radix bits and an unordered
    map for more; [EntryMap] is what the two have in common, as the template over
    FIXED in the code, and the theorems about one chunk are proved from its laws.

    The vector of the partition indices lives in the append state and keeps its
    type: after a chunk with a constant hash a selection of another chunk is
    appended as if all its rows had the partition of the first one (Example
    [stale_constant_indices]). *)

From S2P Require Import Prelude Validity.

(** ** The partition of a hash *)

Definition MAX_RADIX_BITS : Z := 12.

Definition NumberOfPartitions (radix_bits : Z) : Z := shl64 1 radix_bits.

Definition Shift (radix_bits : Z) : Z := (8 - 2) * 8 - radix_bits.

Definition Mask (radix_bits : Z) : Z := shl64 (NumberOfPartitions radix_bits - 1) (Shift radix_bits).

Definition ApplyMask (radix_bits hash : Z) : option Z :=
  let partition := Z.shiftr (Z.land hash (Mask radix_bits)) (Shift radix_bits) in
  if partition <? NumberOfPartitions radix_bits then Some partition else None.

(** The cases of [RadixBitsSwitch]. *)
Definition RadixBitsSwitch {R} (operation : Z -> option R) (radix_bits : Z) : option R :=
  if (0 <=? radix_bits) && (radix_bits <=? MAX_RADIX_BITS) then operation radix_bits else None.

(** The [i]-th index of a selection vector; without one it is [i]. *)
Definition sel_index (append_sel : option (list Z)) (i : Z) : option Z :=
  match append_sel with
  | Some sel => zload sel i
  | None => Some i
  end.

(** A vector of hashes or of partition indices.  All types but the constant one are
    read through [ToUnifiedFormat]; of a constant vector the first value counts. *)
Inductive VectorType : Set :=
  | FLAT_VECTOR
  | FSST_VECTOR
  | CONSTANT_VECTOR
  | DICTIONARY_VECTOR
  | SEQUENCE_VECTOR.

#[export] Instance VectorType_eq_dec : EqDecision VectorType.
Proof. solve_decision. Defined.

Record IndexVector := {
  vector_type : VectorType;
  index_data : list Z
}.

(** Writes the first entries of the data of a vector. *)
Definition write_indices (type : VectorType) (indices : list Z) (v : IndexVector) : IndexVector :=
  {| vector_type := type; index_data := indices ++ drop (length indices) (index_data v) |}.

(** [v] holds the indices of the last chunk.  [UnaryExecutor] sets the type of its
    result; the loop over a selection only writes data. *)
Definition ComputePartitionIndices (radix_bits : Z) (hash_type : VectorType) (hashes : list Z)
    (append_sel : option (list Z)) (append_count : Z) (v : IndexVector) : option IndexVector :=
  RadixBitsSwitch (fun radix_bits =>
    match hash_type with
    | CONSTANT_VECTOR =>
        hash ← zload hashes 0;
        index ← ApplyMask radix_bits hash;
        Some (write_indices CONSTANT_VECTOR [index] v)
    | _ =>
        indices ← mapM (fun i => source_idx ← sel_index append_sel i;
                                 hash ← zload hashes source_idx;
                                 ApplyMask radix_bits hash) (zrange 0 append_count);
        Some (write_indices (match append_sel with None => FLAT_VECTOR | Some _ => vector_type v end)
                indices v)
    end) radix_bits.

(** ** The entries of the partitions *)

Record list_entry_t := {
  le_offset : Z;
  le_length : Z
}.

(** What [BuildPartitionSel] uses of a map from partitions to entries: [find],
    which is [None] for an access out of range, the assignment of a value, and the
    keys in the order of the iterator. *)
Class EntryMap (M : Type) := {
  entries_clear : M -> M;
  entries_find : M -> Z -> option (option list_entry_t);
  entries_set : M -> Z -> list_entry_t -> option M;
  entries_keys : M -> list Z
}.

(** [fixed_size_map_t<list_entry_t>] *)
Abbreviation fixed_size_map := (list (option list_entry_t)).

#[export] Instance fixed_size_map_entries : EntryMap fixed_size_map := {
  entries_clear m := replicate (length m) None;
  entries_find m p := zload m p;
  entries_set m p e := zstore m p (Some e);
  entries_keys m := filter (fun p => is_Some (mjoin (zload m p))) (zrange 0 (Z.of_nat (length m)))
}.

(** [perfect_map_t<list_entry_t>], an unordered map: the order of its iterator is
    not specified. *)
Class UnorderedIteration := {
  iteration : gmap Z list_entry_t -> list Z;
  iteration_keys : forall m, iteration m ≡ₚ (map_to_list m).*1
}.

#[export] Instance perfect_map_entries {unordered : UnorderedIteration} : EntryMap (gmap Z list_entry_t) := {
  entries_clear _ := ∅;
  entries_find m p := Some (m !! p);
  entries_set m p e := Some (<[p := e]> m);
  entries_keys m := iteration m
}.

Section build_sel.
Context {M : Type} `{!EntryMap M}.

(** The map and the selection vectors of an append state. *)
Record Selection := {
  entries : M;
  partition_sel : list Z;
  reverse_partition_sel : list Z
}.

(** The only key of the map, or [None]. *)
Definition GetPartitionIndexIfSinglePartition (m : M) : option Z :=
  match entries_keys m with
  | [p] => Some p
  | _ => None
  end.

Definition count_row (m : M) (partition_index : Z) : option M :=
  partition_entry ← entries_find m partition_index;
  entries_set m partition_index
    match partition_entry with
    | None => {| le_offset := 0; le_length := 1 |}
    | Some e => {| le_offset := le_offset e; le_length := le_length e + 1 |}
    end.

(** Offsets from the counts. *)
Definition compute_offset (st : M * Z) (partition_index : Z) : option (M * Z) :=
  let '(m, offset) := st in
  partition_entry ← mjoin (entries_find m partition_index);
  m ← entries_set m partition_index {| le_offset := offset; le_length := le_length partition_entry |};
  Some (m, offset + le_length partition_entry).

Definition compute_offsets (m : M) : option M :=
  fst <$> ofold compute_offset (m, 0) (entries_keys m).

(** One iteration of the loop that fills the selection vectors. *)
Definition place_row (append_sel : option (list Z)) (partition_indices : list Z)
    (s : Selection) (i : Z) : option Selection :=
  index ← sel_index append_sel i;
  partition_index ← zload partition_indices i;
  entry ← mjoin (entries_find (entries s) partition_index);
  reverse ← zstore (reverse_partition_sel s) index (le_offset entry);
  sel ← zstore (partition_sel s) (le_offset entry) index;
  entries ← entries_set (entries s) partition_index
              {| le_offset := le_offset entry + 1; le_length := le_length entry |};
  Some {| entries := entries; partition_sel := sel; reverse_partition_sel := reverse |}.

(** [BuildPartitionSel<FIXED>]; [s] holds what the last chunk left. *)
Definition TemplatedBuildPartitionSel (append_sel : option (list Z))
    (append_count max_partition_idx : Z) (partition_indices : IndexVector) (s : Selection)
    : option Selection :=
  let cleared := entries_clear (entries s) in
  m ← (if (max_partition_idx =? 0) || bool_decide (vector_type partition_indices = CONSTANT_VECTOR) then
         p ← zload (index_data partition_indices) 0;
         entries_set cleared p {| le_offset := 0; le_length := append_count |}
       else if bool_decide (vector_type partition_indices = FLAT_VECTOR) then
         ofold count_row cleared (take (Z.to_nat append_count) (index_data partition_indices))
       else None);
  if (length (entries_keys m) =? 1)%nat then
    reverse ← ofold (fun reverse i => index ← sel_index append_sel i; zstore reverse index i)
                (reverse_partition_sel s) (zrange 0 append_count);
    Some {| entries := m; partition_sel := partition_sel s; reverse_partition_sel := reverse |}
  else
    m ← compute_offsets m;
    ofold (place_row append_sel (index_data partition_indices))
      {| entries := m; partition_sel := partition_sel s;
         reverse_partition_sel := reverse_partition_sel s |}
      (zrange 0 append_count).

(** ** The buffers of the partitions *)

Definition select_rows {A} (input : list A) (append_sel : option (list Z)) (append_count : Z)
    : option (list A) :=
  mapM (fun i => index ← sel_index append_sel i; zload input index) (zrange 0 append_count).

Definition append_rows {A} (partitions : list (list A)) (p : Z) (rows : list A)
    : option (list (list A)) :=
  partition ← zload partitions p; zstore partitions p (partition ++ rows).

(** [BuildBufferSpace<FIXED>] and [Scatter]: a partition gets the rows of its part
    of the selection vector. *)
Definition scatter_partition {A} (input : list A) (s : Selection) (partitions : list (list A)) (p : Z)
    : option (list (list A)) :=
  entry ← mjoin (entries_find (entries s) p);
  let partition_offset := le_offset entry - le_length entry in
  rows ← mapM (fun j => index ← zload (partition_sel s) j; zload input index)
           (zrange partition_offset (partition_offset + le_length entry));
  append_rows partitions p rows.

(** The partitions after [AppendUnified], and the selection vectors. *)
Definition append_selected {A} (input : list A) (append_sel : option (list Z))
    (append_count max_partition_idx : Z) (partition_indices : IndexVector) (s : Selection)
    (partitions : list (list A)) : option (list (list A) * Selection) :=
  s ← TemplatedBuildPartitionSel append_sel append_count max_partition_idx partition_indices s;
  partitions ←
    (match GetPartitionIndexIfSinglePartition (entries s) with
     | Some p =>
         rows ← select_rows input append_sel append_count;
         append_rows partitions p rows
     | None => ofold (scatter_partition input s) partitions (entries_keys (entries s))
     end);
  Some (partitions, s).
End build_sel.
Arguments Selection : clear implicits.

(** ** Appending rows *)

Section partitioned.
Context {unordered : UnorderedIteration} {A : Type} (hash : A -> Z).

Record PartitionedTupleData := {
  radix_bits : Z;
  partitions : list (list A);
  count : Z
}.

Definition PartitionedTupleData_new (bits : Z) : option PartitionedTupleData :=
  if bits <=? MAX_RADIX_BITS then
    Some {| radix_bits := bits; partitions := replicate (Z.to_nat (NumberOfPartitions bits)) [];
            count := 0 |}
  else None.

Definition MaxPartitionIndex (d : PartitionedTupleData) : Z := NumberOfPartitions (radix_bits d) - 1.

Definition MAP_THRESHOLD : Z := 256.

Definition UseFixedSizeMap (d : PartitionedTupleData) : bool := MaxPartitionIndex d <? MAP_THRESHOLD.

(** [PartitionedTupleDataAppendState] *)
Record PartitionSel := {
  partition_indices : IndexVector;
  fixed_partition_entries : fixed_size_map;
  partition_entries : gmap Z list_entry_t;
  state_partition_sel : list Z;
  state_reverse_sel : list Z
}.

Definition AppendState_new (d : PartitionedTupleData) : PartitionSel :=
  {| partition_indices := {| vector_type := FLAT_VECTOR;
                             index_data := replicate (Z.to_nat STANDARD_VECTOR_SIZE) 0 |};
     fixed_partition_entries := replicate (Z.to_nat (NumberOfPartitions (radix_bits d))) None;
     partition_entries := ∅;
     state_partition_sel := replicate (Z.to_nat STANDARD_VECTOR_SIZE) 0;
     state_reverse_sel := replicate (Z.to_nat STANDARD_VECTOR_SIZE) 0 |}.

(** [GetMap<FIXED>] of the append state, with the selection vectors. *)
Definition fixed_selection (s : PartitionSel) : Selection fixed_size_map :=
  {| entries := fixed_partition_entries s; partition_sel := state_partition_sel s;
     reverse_partition_sel := state_reverse_sel s |}.

Definition perfect_selection (s : PartitionSel) : Selection (gmap Z list_entry_t) :=
  {| entries := partition_entries s; partition_sel := state_partition_sel s;
     reverse_partition_sel := state_reverse_sel s |}.

(** [hash_type] is the type of the vector with the hashes of [input]. *)
Definition AppendUnified (d : PartitionedTupleData) (s : PartitionSel) (hash_type : VectorType)
    (input : list A) (append_sel : option (list Z)) (append_count : Z)
    : option (PartitionedTupleData * PartitionSel) :=
  indices ← ComputePartitionIndices (radix_bits d) hash_type (hash <$> input) append_sel append_count
              (partition_indices s);
  '(partitions, s) ←
    (if UseFixedSizeMap d then
       '(partitions, sel) ← append_selected input append_sel append_count (MaxPartitionIndex d) indices
                              (fixed_selection s) (partitions d);
       Some (partitions,
         {| partition_indices := indices; fixed_partition_entries := entries sel;
            partition_entries := partition_entries s; state_partition_sel := partition_sel sel;
            state_reverse_sel := reverse_partition_sel sel |})
     else
       '(partitions, sel) ← append_selected input append_sel append_count (MaxPartitionIndex d) indices
                              (perfect_selection s) (partitions d);
       Some (partitions,
         {| partition_indices := indices; fixed_partition_entries := fixed_partition_entries s;
            partition_entries := entries sel; state_partition_sel := partition_sel sel;
            state_reverse_sel := reverse_partition_sel sel |}));
  Some ({| radix_bits := radix_bits d; partitions := partitions; count := count d + append_count |}, s).

(** ** Repartitioning *)

(** The chunks in which [TupleDataChunkIterator] visits the rows of a collection. *)
Class ChunkIterator (chunks : list A -> list (list A)) : Prop := {
  chunks_join : forall rows, mjoin (chunks rows) = rows;
  chunks_size : forall rows, Forall (fun chunk => Z.of_nat (length chunk) <= STANDARD_VECTOR_SIZE) (chunks rows);
  chunks_rows : forall rows, Forall (fun chunk => chunk <> []) (chunks rows)
}.

Context (chunks : list A -> list (list A)).

(** The partitions of the new data that can be finalized once partition
    [finished_partition_idx] of the old data is moved. *)
Definition RepartitionFinalizeStates (old_radix_bits new_radix_bits finished_partition_idx : Z)
    : option (list Z) :=
  if old_radix_bits <? new_radix_bits then
    let multiplier := NumberOfPartitions (new_radix_bits - old_radix_bits) in
    let from_idx := finished_partition_idx * multiplier in
    Some (zrange from_idx (from_idx + multiplier))
  else None.

Definition append_chunk (st : PartitionedTupleData * PartitionSel) (chunk : list A)
    : option (PartitionedTupleData * PartitionSel) :=
  AppendUnified (fst st) (snd st) FLAT_VECTOR chunk None (Z.of_nat (length chunk)).

(** Moves one partition; the third component collects what is finalized. *)
Definition move_partition (d : PartitionedTupleData)
    (st : PartitionedTupleData * PartitionSel * list Z) (partition_idx : Z)
    : option (PartitionedTupleData * PartitionSel * list Z) :=
  let '(new_data, s, finalized) := st in
  partition ← zload (partitions d) partition_idx;
  if (length partition =? 0)%nat then Some st
  else
    '(new_data, s) ← ofold append_chunk (new_data, s) (chunks partition);
    f ← RepartitionFinalizeStates (radix_bits d) (radix_bits new_data) partition_idx;
    Some (new_data, s, finalized ++ f).

(** [Combine] of data with the same partitions. *)
Definition CombinePartitions (d other : PartitionedTupleData) : option PartitionedTupleData :=
  if count other =? 0 then Some d
  else if (length (partitions d) =? 0)%nat then
    Some {| radix_bits := radix_bits d; partitions := partitions other; count := count d + count other |}
  else if (length (partitions d) =? length (partitions other))%nat then
    Some {| radix_bits := radix_bits d;
            partitions := zip_with app (partitions d) (partitions other);
            count := count d + count other |}
  else None.

(** The rows of [d] in [new_data]. *)
Definition Repartition (d new_data : PartitionedTupleData) : option PartitionedTupleData :=
  if (length (partitions d) =? length (partitions new_data))%nat then CombinePartitions new_data d
  else
    '(new_data, _, _) ← ofold (move_partition d) (new_data, AppendState_new new_data, [])
                          (zrange 0 (Z.of_nat (length (partitions d))));
    Some new_data.
End partitioned.

(** ** The partition of a hash: theorems *)

(** The upper bits of the 48 bits that the salt leaves. *)
Definition bin (radix_bits hash : Z) : Z := (hash / 2 ^ (48 - radix_bits)) mod 2 ^ radix_bits.

Definition bits_ok (radix_bits : Z) : Prop := 0 <= radix_bits <= MAX_RADIX_BITS.

Lemma bits_pow radix_bits : bits_ok radix_bits -> 1 <= 2 ^ radix_bits <= 4096.
Proof.
  unfold bits_ok, MAX_RADIX_BITS. intros. split.
  - pose proof (Z.pow_pos_nonneg 2 radix_bits). lia.
  - change 4096 with (2 ^ 12). apply Z.pow_le_mono_r; lia.
Qed.

Lemma NumberOfPartitions_pow radix_bits :
  bits_ok radix_bits -> NumberOfPartitions radix_bits = 2 ^ radix_bits.
Proof.
  intros H. pose proof (bits_pow _ H). unfold NumberOfPartitions, shl64, bits_ok in *.
  rewrite Z.shiftl_mul_pow2 by lia. rewrite u64_small; lia.
Qed.

Lemma bin_range radix_bits h : bits_ok radix_bits -> 0 <= bin radix_bits h < 2 ^ radix_bits.
Proof. intros H. pose proof (bits_pow _ H). apply Z.mod_pos_bound. lia. Qed.

Lemma ApplyMask_bin radix_bits h : bits_ok radix_bits -> ApplyMask radix_bits h = Some (bin radix_bits h).
Proof.
  intros H. pose proof (bits_pow _ H). pose proof (bin_range radix_bits h H) as Hb.
  unfold ApplyMask, Mask. rewrite NumberOfPartitions_pow by done.
  assert (Z.shiftr (Z.land h (shl64 (2 ^ radix_bits - 1) (Shift radix_bits))) (Shift radix_bits) =
    bin radix_bits h) as ->.
  { unfold bin, Shift, bits_ok, MAX_RADIX_BITS in *. change ((8 - 2) * 8) with 48.
    unfold shl64. rewrite Z.shiftl_mul_pow2 by lia.
    assert (2 ^ radix_bits * 2 ^ (48 - radix_bits) = 2 ^ 48) as E
      by (rewrite <- Z.pow_add_r by lia; f_equal; lia).
    rewrite u64_small by nia. rewrite <- Z.shiftl_mul_pow2, Z.shiftr_land by lia.
    rewrite Z.shiftr_shiftl_l, Z.sub_diag, Z.shiftl_0_r by lia.
    replace (2 ^ radix_bits - 1) with (Z.ones radix_bits) by (rewrite Z.ones_equiv; lia).
    rewrite Z.land_ones, Z.shiftr_div_pow2 by lia. done. }
  by rewrite (proj2 (Z.ltb_lt _ _)) by lia.
Qed.

(** A partition is split into consecutive partitions by more radix bits. *)
Lemma bin_refines old_bits new_bits h :
  bits_ok old_bits -> bits_ok new_bits -> old_bits <= new_bits ->
  bin new_bits h / 2 ^ (new_bits - old_bits) = bin old_bits h.
Proof.
  unfold bits_ok, MAX_RADIX_BITS, bin. intros Ho Hn Hle.
  rewrite <- !Z.shiftr_div_pow2, <- !Z.land_ones by lia.
  rewrite Z.shiftr_land, Z.shiftr_shiftr by lia.
  replace (48 - new_bits + (new_bits - old_bits)) with (48 - old_bits) by lia. f_equal.
  rewrite Z.shiftr_div_pow2, !Z.ones_equiv by lia.
  replace (2 ^ new_bits) with (2 ^ old_bits * 2 ^ (new_bits - old_bits))
    by (rewrite <- Z.pow_add_r by lia; f_equal; lia).
  pose proof (Z.pow_pos_nonneg 2 (new_bits - old_bits)).
  rewrite <- !Z.sub_1_r. replace (2 ^ old_bits * 2 ^ (new_bits - old_bits) - 1) with
    ((2 ^ (new_bits - old_bits) - 1) + (2 ^ old_bits - 1) * 2 ^ (new_bits - old_bits)) by nia.
  rewrite Z.div_add, Z.div_small by lia. lia.
Qed.

(** ** Counting *)

(** The second components of the pairs whose first one is [p]. *)
Definition picked {B} (p : Z) (l : list (Z * B)) : list B := snd <$> filter (fun x => fst x = p) l.

Lemma picked_app {B} p (l k : list (Z * B)) : picked p (l ++ k) = picked p l ++ picked p k.
Proof. unfold picked. by rewrite filter_app, fmap_app. Qed.

Lemma picked_one {B} p q (x : B) : picked p [(q, x)] = if decide (q = p) then [x] else [].
Proof. unfold picked. rewrite filter_cons. cbn [fst]. by case_decide. Qed.

Definition occurrences (p : Z) (l : list Z) : Z := Z.of_nat (length (filter (eq p) l)).

Lemma occurrences_snoc p l q : occurrences p (l ++ [q]) = occurrences p l + (if decide (p = q) then 1 else 0).
Proof.
  unfold occurrences. rewrite filter_app, length_app, filter_cons. case_decide; cbn; lia.
Qed.

Lemma occurrences_nonneg p l : 0 <= occurrences p l.
Proof. unfold occurrences. lia. Qed.

Lemma occurrences_picked {B} p (l : list (Z * B)) :
  Z.of_nat (length (picked p l)) = occurrences p (fst <$> l).
Proof.
  unfold picked, occurrences. rewrite length_fmap. f_equal.
  induction l as [| [q x] l IH]; [done |]. cbn [fmap list_fmap fst]. rewrite !filter_cons. cbn [fst].
  repeat case_decide; cbn [length]; congruence.
Qed.

Lemma occurrences_zero p l : occurrences p l = 0 <-> p ∉ l.
Proof.
  unfold occurrences. split.
  - intros H Hp. assert (p ∈ filter (eq p) l) as Hin by (by apply list_elem_of_filter).
    destruct (filter (eq p) l); [by apply not_elem_of_nil in Hin | cbn in H; lia].
  - intros H. rewrite filter_Forall_nil; [done |]. apply Forall_forall. intros x Hx <-. done.
Qed.

(** ** Maps of entries: laws *)

Class EntryMapLaws {M : Type} `{!EntryMap M} (n : nat) (ok : M -> Prop) : Prop := {
  clear_ok m : ok m -> ok (entries_clear m);
  clear_find m p : ok m -> 0 <= p < Z.of_nat n -> entries_find (entries_clear m) p = Some None;
  set_find m p e : ok m -> 0 <= p < Z.of_nat n ->
    exists m', entries_set m p e = Some m' /\ ok m' /\ forall q, 0 <= q < Z.of_nat n ->
      entries_find m' q = if decide (q = p) then Some (Some e) else entries_find m q;
  keys_NoDup m : ok m -> NoDup (entries_keys m);
  keys_find m p : ok m ->
    p ∈ entries_keys m <-> 0 <= p < Z.of_nat n /\ exists e, entries_find m p = Some (Some e)
}.

#[export] Instance fixed_size_map_laws n :
  EntryMapLaws n (fun m : fixed_size_map => length m = n).
Proof.
  split; cbn.
  - intros m Hm. by rewrite length_replicate.
  - intros m p Hm Hp. unfold zload. rewrite decide_True, lookup_replicate_2 by lia. done.
  - intros m p e Hm Hp. rewrite zstore_Some by lia. eexists. split; [done |].
    rewrite length_insert. split; [done |]. intros q Hq. unfold zload.
    rewrite !(decide_True (P := 0 <= q)) by lia. destruct (decide (q = p)) as [-> | Hne].
    + by rewrite list_lookup_insert_eq by lia.
    + by rewrite list_lookup_insert_ne by lia.
  - intros m Hm. apply NoDup_filter, NoDup_zrange.
  - intros m p Hm. rewrite list_elem_of_filter, elem_of_zrange, Hm. split.
    + intros ((e & He) & Hp). split; [lia |]. exists e. destruct (zload m p); cbn in *; congruence.
    + intros (Hp & e & He). rewrite He. cbn. split; [by eexists | lia].
Qed.

#[export] Instance perfect_map_laws {unordered : UnorderedIteration} n :
  EntryMapLaws n (fun m : gmap Z list_entry_t => map_Forall (fun p _ => 0 <= p < Z.of_nat n) m).
Proof.
  split; cbn.
  - intros m Hm. apply map_Forall_empty.
  - intros m p _ _. by rewrite lookup_empty.
  - intros m p e Hm Hp. eexists. split; [done |]. split; [by apply map_Forall_insert_2 |].
    intros q Hq. destruct (decide (q = p)) as [-> | Hne]; [by rewrite lookup_insert_eq |].
    by rewrite lookup_insert_ne by done.
  - intros m Hm. rewrite iteration_keys. apply NoDup_fst_map_to_list.
  - intros m p Hm. rewrite iteration_keys, list_elem_of_fmap. split.
    + intros ([p' e] & -> & He%elem_of_map_to_list). cbn. split; [by apply (Hm _ e) | exists e; by rewrite He].
    + intros (Hp & e & [= He]). exists (p, e). split; [done |]. by apply elem_of_map_to_list.
Qed.

Section represents.
Context {M : Type} `{!EntryMap M} (n : nat) (ok : M -> Prop) `{!EntryMapLaws n ok}.
Implicit Types (m : M) (f : Z -> option list_entry_t).

(** The entries of a map as a function. *)
Definition represents m f : Prop :=
  ok m /\ forall p, 0 <= p < Z.of_nat n -> entries_find m p = Some (f p).

Lemma represents_clear m : ok m -> represents (entries_clear m) (fun _ => None).
Proof. intros Hm. split; [by apply clear_ok | intros p Hp; by apply clear_find]. Qed.

Lemma represents_set m f p e :
  represents m f -> 0 <= p < Z.of_nat n ->
  exists m', entries_set m p e = Some m' /\
    represents m' (fun q => if decide (q = p) then Some e else f q).
Proof.
  intros [Hm Hf] Hp. destruct (set_find m p e Hm Hp) as (m' & E & Hm' & Hf').
  exists m'. split; [done |]. split; [done |]. intros q Hq. rewrite Hf' by done.
  case_decide; [done | by apply Hf].
Qed.

Lemma represents_keys m f p :
  represents m f -> p ∈ entries_keys m <-> 0 <= p < Z.of_nat n /\ is_Some (f p).
Proof.
  intros [Hm Hf]. rewrite (keys_find m p Hm). split; intros (Hp & e & E); (split; [done |]).
  - rewrite Hf in E by done. injection E as ->. by eexists.
  - exists e. by rewrite Hf, E by done.
Qed.

Lemma represents_ext m f g :
  (forall p, 0 <= p < Z.of_nat n -> f p = g p) -> represents m f -> represents m g.
Proof. intros Hfg [Hm Hf]. split; [done |]. intros p Hp. by rewrite Hf, Hfg. Qed.

Lemma represents_keys_perm m m' f g :
  represents m f -> represents m' g -> (forall p, 0 <= p < Z.of_nat n -> is_Some (f p) <-> is_Some (g p)) ->
  entries_keys m ≡ₚ entries_keys m'.
Proof.
  intros Hm Hm' Hfg. apply NoDup_Permutation; [apply keys_NoDup, Hm | apply keys_NoDup, Hm' |].
  intros p. rewrite (represents_keys m f p Hm), (represents_keys m' g p Hm'). naive_solver.
Qed.

(** Entries that count the partitions [ps]. *)
Definition counts (ps : list Z) (p : Z) : option list_entry_t :=
  if decide (occurrences p ps = 0) then None
  else Some {| le_offset := 0; le_length := occurrences p ps |}.

Lemma count_row_counts ps p m :
  0 <= p < Z.of_nat n -> represents m (counts ps) ->
  exists m', count_row m p = Some m' /\ represents m' (counts (ps ++ [p])).
Proof.
  intros Hp Hm. unfold count_row. rewrite (proj2 Hm p Hp). cbn [mbind option_bind].
  edestruct (represents_set m) as (m' & -> & Hm'); [done .. |]. exists m'. split; [done |].
  eapply represents_ext; [| exact Hm']. intros q Hq. cbn beta. unfold counts.
  rewrite occurrences_snoc. pose proof (occurrences_nonneg q ps).
  destruct (decide (q = p)) as [-> | Hne].
  - rewrite (decide_False (P := _ + 1 = 0)) by lia.
    destruct (decide (occurrences p ps = 0)) as [-> |]; done.
  - by rewrite Z.add_0_r.
Qed.

Lemma count_rows_counts m ps :
  represents m (fun _ => None) -> Forall (fun p => 0 <= p < Z.of_nat n) ps ->
  exists m', ofold count_row m ps = Some m' /\ represents m' (counts ps).
Proof.
  intros Hm. induction ps as [| p ps IH] using rev_ind; intros H; [by exists m |].
  apply Forall_app in H as [Hps [Hp _]%Forall_cons]. destruct (IH Hps) as (m1 & E & Hm1).
  destruct (count_row_counts ps p m1 Hp Hm1) as (m2 & E2 & Hm2). exists m2. split; [| done].
  rewrite ofold_app, E. cbn [mbind option_bind]. by rewrite ofold_cons, E2.
Qed.
End represents.

(** ** Offsets *)

(** The first position of partition [p] in the selection vector, when the
    partitions come in the order [ks]. *)
Fixpoint start (ps ks : list Z) (p : Z) : Z :=
  match ks with
  | [] => 0
  | k :: ks => if decide (k = p) then 0 else occurrences k ps + start ps ks p
  end.

Lemma start_nonneg ps ks p : 0 <= start ps ks p.
Proof.
  induction ks as [| k ks IH]; cbn; [done |]. pose proof (occurrences_nonneg k ps). case_decide; lia.
Qed.

Lemma start_apart ps ks p q :
  p ∈ ks -> q ∈ ks -> p <> q ->
  start ps ks p + occurrences p ps <= start ps ks q \/ start ps ks q + occurrences q ps <= start ps ks p.
Proof.
  induction ks as [| k ks IH]; [by intros ?%not_elem_of_nil |]. cbn [start].
  rewrite !elem_of_cons. intros Hp Hq Hne. pose proof (start_nonneg ps ks p). pose proof (start_nonneg ps ks q).
  destruct (decide (k = p)) as [Ep | Ep], (decide (k = q)) as [Eq | Eq];
    [congruence | subst k; left; lia | subst k; right; lia |].
  destruct Hp as [-> | Hp], Hq as [-> | Hq]; try done. destruct (IH Hp Hq Hne); lia.
Qed.

Lemma start_sum ps ks p :
  p ∈ ks -> start ps ks p + occurrences p ps <= zsum (fun k => occurrences k ps) ks.
Proof.
  induction ks as [| k ks IH]; [by intros ?%not_elem_of_nil |]. cbn [start].
  rewrite elem_of_cons, zsum_cons. intros Hp.
  pose proof (zsum_nonneg (fun k => occurrences k ps) ks (fun k _ => occurrences_nonneg k ps)).
  destruct (decide (k = p)) as [-> | Hne]; [lia |].
  destruct Hp as [-> | Hp]; [done |]. specialize (IH Hp). lia.
Qed.

Lemma occurrences_sum ps ks : NoDup ks -> zsum (fun k => occurrences k ps) ks <= Z.of_nat (length ps).
Proof.
  intros Hks. induction ps as [| p ps IH] using rev_ind.
  - clear Hks. induction ks as [| k ks IH]; [done |]. rewrite zsum_cons. by change (occurrences k []) with 0.
  - rewrite (zsum_ext _ (fun k => occurrences k ps + (if decide (k = p) then 1 else 0)))
      by (intros; apply occurrences_snoc).
    rewrite zsum_plus, length_app. cbn [length].
    assert (zsum (fun k => if decide (k = p) then 1 else 0) ks <= 1); [| lia].
    clear IH. induction Hks as [| k ks Hk Hks IH]; [done |]. rewrite zsum_cons.
    destruct (decide (k = p)) as [-> |]; [| lia].
    rewrite (zsum_ext _ (fun _ => 0)).
    + clear. induction ks as [| k ks IH]; [done |]. rewrite zsum_cons. lia.
    + intros k Hk'. rewrite decide_False; [done |]. by intros ->.
Qed.

Lemma start_bounds ps ks p :
  NoDup ks -> p ∈ ks ->
  0 <= start ps ks p /\ start ps ks p + occurrences p ps <= Z.of_nat (length ps).
Proof.
  intros Hks Hp. split; [apply start_nonneg |].
  pose proof (start_sum ps ks p Hp). pose proof (occurrences_sum ps ks Hks). lia.
Qed.

(** The entries when [i] rows were placed. *)
Definition placed (ps ks : list Z) (i : nat) (p : Z) : option list_entry_t :=
  if decide (occurrences p ps = 0) then None
  else Some {| le_offset := start ps ks p + occurrences p (take i ps); le_length := occurrences p ps |}.

Section offsets.
Context {M : Type} `{!EntryMap M} (n : nat) (ok : M -> Prop) `{!EntryMapLaws n ok}.

Lemma compute_offset_keys ps m f o ks :
  represents n ok m f -> NoDup ks ->
  (forall k, k ∈ ks -> 0 <= k < Z.of_nat n /\
     exists e, f k = Some e /\ le_length e = occurrences k ps) ->
  exists m' o', ofold compute_offset (m, o) ks = Some (m', o') /\
    represents n ok m' (fun p => if decide (p ∈ ks) then
      Some {| le_offset := o + start ps ks p; le_length := occurrences p ps |} else f p).
Proof.
  intros Hm Hks. revert m f o Hm. induction Hks as [| k ks Hk Hks IH]; intros m f o Hm Hf.
  - exists m, o. split; [done |]. eapply represents_ext; [| exact Hm]. intros p Hp. cbn beta.
    rewrite decide_False; [done | apply not_elem_of_nil].
  - destruct (Hf k) as (Hkn & e & Ek & El); [by left |]. rewrite ofold_cons. unfold compute_offset at 2.
    rewrite (proj2 Hm k Hkn), Ek. cbn [mjoin option_join mbind option_bind].
    destruct (represents_set n ok m f k {| le_offset := o; le_length := le_length e |} Hm Hkn)
      as (m1 & -> & Hm1).
    cbn [mbind option_bind].
    destruct (IH m1 _ (o + le_length e) Hm1) as (m' & o' & E & Hm').
    { intros k' Hk'. destruct (Hf k') as (? & e' & E' & ?); [by right |]. split; [done |].
      exists e'. rewrite decide_False; [done |]. by intros ->. }
    exists m', o'. split; [done |]. eapply represents_ext; [| exact Hm'].
    intros p Hp. cbn beta. cbn [start]. destruct (decide (k = p)) as [-> | Hne].
    + rewrite decide_False by done. rewrite !decide_True by (done || by left). by rewrite Z.add_0_r, El.
    + destruct (decide (p ∈ ks)).
      * rewrite decide_True by (by right). f_equal. f_equal. rewrite El. lia.
      * rewrite decide_False by done. rewrite decide_False; [done |].
        rewrite elem_of_cons. intros [->|]; done.
Qed.

Lemma compute_offsets_counts ps m :
  represents n ok m (counts ps) ->
  exists m', compute_offsets m = Some m' /\ represents n ok m' (placed ps (entries_keys m) 0).
Proof.
  intros Hm. unfold compute_offsets.
  destruct (compute_offset_keys ps m (counts ps) 0 (entries_keys m) Hm) as (m' & o' & -> & Hm').
  { apply (keys_NoDup _ (proj1 Hm)). }
  { intros k (Hk & e & He)%(represents_keys n ok m (counts ps) k Hm). split; [done |]. exists e.
    split; [done |]. unfold counts in He. case_decide; [done |]. by injection He as <-. }
  exists m'. split; [done |]. eapply represents_ext; [| exact Hm'].
  intros p Hp. cbn beta. pose proof (represents_keys n ok m (counts ps) p Hm) as Hk.
  unfold placed. change (occurrences p (take 0 ps)) with 0. unfold counts in *. case_decide as E.
  - rewrite decide_False; [done |]. rewrite Hk. by intros [_ [? ?]].
  - rewrite decide_True by (apply Hk; eauto). do 2 f_equal. lia.
Qed.
End offsets.

(** ** The selection vector of a chunk: theorems *)

Section place.
Context {M : Type} `{!EntryMap M} (n : nat) (ok : M -> Prop) `{!EntryMapLaws n ok}.
Context (append_sel : option (list Z)) (indices ps ks idxs : list Z) (psel0 rsel0 : list Z).
Context (Hind : take (length ps) indices = ps).
Context (Hps : Forall (fun p => 0 <= p < Z.of_nat n) ps) (Hlen : length ps = length idxs).
Context (Hks : NoDup ks) (Hkeys : forall p, occurrences p ps <> 0 -> p ∈ ks).
Context (Hsel : forall i, 0 <= i < Z.of_nat (length ps) -> sel_index append_sel i = Some (znth 0 idxs i)).
Context (Hidx : Forall (fun x => 0 <= x < Z.of_nat (length rsel0)) idxs).
Context (Hroom : (length ps <= length psel0)%nat).

Abbreviation st := (start ps ks).

(** The indices of partition [p] among the first [i] rows. *)
Definition picked_at (i p : Z) : list Z := picked p (take (Z.to_nat i) (zip ps idxs)).

Definition place_ok (i : Z) (s : Selection M) : Prop :=
  represents n ok (entries s) (placed ps ks (Z.to_nat i)) /\
  length (partition_sel s) = length psel0 /\
  length (reverse_partition_sel s) = length rsel0 /\
  forall p k, 0 <= p < Z.of_nat n -> 0 <= k < occurrences p (take (Z.to_nat i) ps) ->
    znth 0 (partition_sel s) (st p + k) = znth 0 (picked_at i p) k.

Lemma picked_at_length i p : Z.of_nat (length (picked_at i p)) = occurrences p (take (Z.to_nat i) ps).
Proof.
  unfold picked_at. rewrite occurrences_picked. f_equal.
  rewrite fmap_take. by rewrite fst_zip by lia.
Qed.

Lemma occurrences_take i p : occurrences p (take i ps) <= occurrences p ps.
Proof.
  rewrite <- (take_drop i ps) at 2. unfold occurrences. rewrite filter_app, length_app. lia.
Qed.

Lemma place_start m :
  represents n ok m (placed ps ks 0) ->
  place_ok 0 {| entries := m; partition_sel := psel0; reverse_partition_sel := rsel0 |}.
Proof.
  intros Hm. unfold place_ok. cbn [entries partition_sel reverse_partition_sel].
  split_and!; [done .. |]. change (occurrences _ (take (Z.to_nat 0) ps)) with 0. intros p k _ Hk.
  change (take (Z.to_nat 0) ps) with (@nil Z) in Hk. cbn in Hk. lia.
Qed.

(** A row is placed behind the rows of its partition that came before. *)
Lemma place_row_step i q x s :
  0 <= i < Z.of_nat (length ps) -> ps !! Z.to_nat i = Some q -> idxs !! Z.to_nat i = Some x ->
  place_ok i s ->
  exists entries', place_row append_sel indices s i =
    Some {| entries := entries';
            partition_sel := <[Z.to_nat (st q + occurrences q (take (Z.to_nat i) ps)) := x]> (partition_sel s);
            reverse_partition_sel :=
              <[Z.to_nat x := st q + occurrences q (take (Z.to_nat i) ps)]> (reverse_partition_sel s) |} /\
    represents n ok entries' (placed ps ks (Z.to_nat (i + 1))) /\
    0 <= st q + occurrences q (take (Z.to_nat i) ps) < Z.of_nat (length psel0).
Proof.
  intros Hi Hq Hx (Hm & Hp & Hr & _).
  assert (0 <= q < Z.of_nat n) as Hqn by (by apply (Forall_lookup_1 _ _ _ _ Hps Hq)).
  assert (0 <= x < Z.of_nat (length rsel0)) as Hxr by (by apply (Forall_lookup_1 _ _ _ _ Hidx Hx)).
  assert (take (Z.to_nat (i + 1)) ps = take (Z.to_nat i) ps ++ [q]) as Et.
  { replace (Z.to_nat (i + 1)) with (S (Z.to_nat i)) by lia. by apply take_S_r. }
  pose proof (occurrences_take (Z.to_nat (i + 1)) q) as Hocc.
  rewrite Et, occurrences_snoc, decide_True in Hocc by done.
  pose proof (occurrences_nonneg q (take (Z.to_nat i) ps)) as H0.
  destruct (start_bounds ps ks q Hks) as [Hst0 Hst]; [apply Hkeys; lia |].
  unfold place_row. rewrite Hsel by done. cbn [mbind option_bind].
  rewrite (znth_lookup _ _ _ _ Hx).
  assert (zload indices i = Some q) as ->.
  { unfold zload. rewrite decide_True by lia. rewrite <- Hind, lookup_take_Some in Hq. apply Hq. }
  cbn [mbind option_bind]. rewrite (proj2 Hm q Hqn). unfold placed at 1. rewrite decide_False by lia.
  cbn [mjoin option_join mbind option_bind le_offset le_length].
  rewrite !zstore_Some by lia. cbn [mbind option_bind].
  edestruct (represents_set n ok) as (m' & -> & Hm'); [exact Hm | exact Hqn |].
  cbn [mbind option_bind]. exists m'. split; [done |]. split; [| lia].
  eapply represents_ext; [| exact Hm']. intros p Hpn. cbn beta. unfold placed.
  rewrite Et, occurrences_snoc. destruct (decide (p = q)) as [-> | Hne].
  - rewrite decide_False by lia. do 2 f_equal. lia.
  - by rewrite Z.add_0_r.
Qed.

Lemma place_step i s :
  0 <= i < Z.of_nat (length ps) -> place_ok i s ->
  exists s', place_row append_sel indices s i = Some s' /\ place_ok (i + 1) s'.
Proof.
  intros Hi Hs.
  destruct (lookup_lt_is_Some_2 ps (Z.to_nat i)) as [q Hq]; [lia |].
  destruct (lookup_lt_is_Some_2 idxs (Z.to_nat i)) as [x Hx]; [lia |].
  destruct (place_row_step i q x s Hi Hq Hx Hs) as (m' & -> & Hm' & Hpos).
  destruct Hs as (Hm & Hp & Hr & Hl).
  assert (take (Z.to_nat (i + 1)) ps = take (Z.to_nat i) ps ++ [q]) as Et.
  { replace (Z.to_nat (i + 1)) with (S (Z.to_nat i)) by lia. by apply take_S_r. }
  assert (forall p, picked_at (i + 1) p = picked_at i p ++ (if decide (q = p) then [x] else [])) as Ep.
  { intros p. unfold picked_at. replace (Z.to_nat (i + 1)) with (S (Z.to_nat i)) by lia.
    rewrite (take_S_r _ _ (q, x)) by (apply lookup_zip_with_Some; eauto).
    by rewrite picked_app, picked_one. }
  eexists. split; [done |]. unfold place_ok. cbn [entries partition_sel reverse_partition_sel].
  rewrite !length_insert. split_and!; [done .. |].
  intros p k Hpn Hk. rewrite Et, occurrences_snoc in Hk.
  pose proof (start_nonneg ps ks p). pose proof (start_nonneg ps ks q).
  pose proof (occurrences_nonneg q (take (Z.to_nat i) ps)).
  rewrite znth_insert by lia. rewrite Ep. pose proof (picked_at_length i p) as Hpl.
  destruct (decide (p = q)) as [-> | Hne].
  - rewrite (decide_True (P := q = q)) by done.
    destruct (decide (k = occurrences q (take (Z.to_nat i) ps))) as [-> | Hk'].
    + rewrite decide_True by lia. unfold znth. rewrite lookup_app_r by lia.
      by replace (_ - _)%nat with 0%nat by lia.
    + rewrite decide_False by lia. rewrite Hl by lia. unfold znth. by rewrite lookup_app_l by lia.
  - rewrite (decide_False (P := q = p)), app_nil_r by congruence. rewrite decide_False; [apply Hl; lia |].
    pose proof (occurrences_take (Z.to_nat i) p). pose proof (occurrences_take (Z.to_nat (i + 1)) q) as Hq1.
    rewrite Et, occurrences_snoc, decide_True in Hq1 by done.
    destruct (start_apart ps ks p q); [apply Hkeys; lia .. | done | lia | lia].
Qed.

Lemma place_rows m :
  represents n ok m (placed ps ks 0) ->
  exists s, ofold (place_row append_sel indices)
      {| entries := m; partition_sel := psel0; reverse_partition_sel := rsel0 |}
      (zrange 0 (Z.of_nat (length ps))) = Some s /\
    place_ok (Z.of_nat (length ps)) s.
Proof.
  intros Hm. apply (ofold_zrange_inv _ place_ok); [lia | by apply place_start |].
  intros i s Hi Hs. by apply place_step.
Qed.
End place.

Section build.
Context {M : Type} `{!EntryMap M} (n : nat) (ok : M -> Prop) `{!EntryMapLaws n ok}.
Context (append_sel : option (list Z)) (v : IndexVector) (ps idxs : list Z) (s : Selection M).
Context (Htype : vector_type v = FLAT_VECTOR \/ vector_type v = CONSTANT_VECTOR).
Context (Hflat : vector_type v = FLAT_VECTOR -> take (length ps) (index_data v) = ps).
Context (Hconst : (n = 1)%nat \/ vector_type v = CONSTANT_VECTOR ->
  exists p, index_data v !! 0%nat = Some p /\ 0 <= p < Z.of_nat n /\ Forall (eq p) ps).
Context (Hps : Forall (fun p => 0 <= p < Z.of_nat n) ps) (Hlen : length ps = length idxs).
Context (Hsel : forall i, 0 <= i < Z.of_nat (length ps) -> sel_index append_sel i = Some (znth 0 idxs i)).
Context (Hidx : Forall (fun x => 0 <= x < Z.of_nat (length (reverse_partition_sel s))) idxs).
Context (Hroom : (length ps <= length (partition_sel s))%nat).
Context (Hs : ok (entries s)).

(** What the loops leave in the selection vectors. *)
Definition selected (s' : Selection M) : Prop :=
  match GetPartitionIndexIfSinglePartition (entries s') with
  | Some p => 0 <= p < Z.of_nat n /\ Forall (eq p) ps
  | None => exists ks, NoDup ks /\ (forall p, occurrences p ps <> 0 -> p ∈ ks) /\
      place_ok n ok ps ks idxs (partition_sel s) (reverse_partition_sel s) (Z.of_nat (length ps)) s'
  end.

(** The map after the counting loop, or after the shortcut for one partition. *)
Lemma counted_entries :
  exists m, (if (Z.of_nat n - 1 =? 0) || bool_decide (vector_type v = CONSTANT_VECTOR) then
      p ← zload (index_data v) 0;
      entries_set (entries_clear (entries s)) p {| le_offset := 0; le_length := Z.of_nat (length ps) |}
    else if bool_decide (vector_type v = FLAT_VECTOR) then
      ofold count_row (entries_clear (entries s)) (take (Z.to_nat (Z.of_nat (length ps))) (index_data v))
    else None) = Some m /\
    ok m /\ ((exists p, entries_keys m = [p] /\ 0 <= p < Z.of_nat n /\ Forall (eq p) ps) \/
      vector_type v = FLAT_VECTOR /\ represents n ok m (counts ps)).
Proof.
  pose proof (represents_clear n ok _ Hs) as Hc. rewrite Nat2Z.id.
  destruct ((Z.of_nat n - 1 =? 0) || bool_decide (vector_type v = CONSTANT_VECTOR)) eqn:E.
  - destruct Hconst as (p & Hp & Hpn & Hall).
    { apply orb_true_iff in E as [E | E]; [left; lia | right; by apply bool_decide_eq_true in E]. }
    assert (zload (index_data v) 0 = Some p) as -> by done. cbn [mbind option_bind].
    destruct (represents_set n ok _ _ p {| le_offset := 0; le_length := Z.of_nat (length ps) |} Hc Hpn)
      as (m & -> & Hm).
    exists m. split; [done |]. split; [apply Hm |]. left. exists p. split; [| done].
    apply Permutation_singleton_r, NoDup_Permutation; [apply (keys_NoDup _ (proj1 Hm)) | apply NoDup_singleton |].
    intros q. rewrite (represents_keys n ok m _ q Hm), list_elem_of_singleton. split.
    + intros (_ & He). by case_decide; [| destruct He].
    + intros ->. split; [done |]. rewrite decide_True by done. by eexists.
  - apply orb_false_iff in E as [_ E%bool_decide_eq_false]. assert (vector_type v = FLAT_VECTOR) as Ev
      by (by destruct Htype).
    rewrite bool_decide_true, Hflat by done. destruct (count_rows_counts n ok _ ps Hc Hps) as (m & -> & Hm).
    exists m. split; [done |]. split; [apply Hm | by right].
Qed.

Lemma reverse_single :
  exists r, ofold (fun reverse i => index ← sel_index append_sel i; zstore reverse index i)
      (reverse_partition_sel s) (zrange 0 (Z.of_nat (length ps))) = Some r /\
    length r = length (reverse_partition_sel s).
Proof.
  apply (ofold_zrange_inv _ (fun _ r => length r = length (reverse_partition_sel s))); [lia | done |].
  intros i r Hi Hr. rewrite Hsel by done. cbn [mbind option_bind].
  assert (0 <= znth 0 idxs i < Z.of_nat (length r)) as Hx.
  { destruct (lookup_lt_is_Some_2 idxs (Z.to_nat i)) as [x Hx]; [lia |].
    rewrite (znth_lookup _ _ _ _ Hx), Hr. by apply (Forall_lookup_1 _ _ _ _ Hidx Hx). }
  rewrite zstore_Some by done. eexists. split; [done |]. by rewrite length_insert.
Qed.

Lemma counts_keys m p : represents n ok m (counts ps) -> p ∈ entries_keys m <-> p ∈ ps.
Proof.
  intros Hm. rewrite (represents_keys n ok m _ p Hm). unfold counts. split.
  - intros (_ & e & He). case_decide as E; [done |]. rewrite occurrences_zero in E.
    by apply dec_stable.
  - intros Hp. rewrite Forall_forall in Hps. split; [by apply Hps |].
    rewrite decide_False by (rewrite occurrences_zero; tauto). by eexists.
Qed.

Lemma BuildPartitionSel_selected :
  exists s', TemplatedBuildPartitionSel append_sel (Z.of_nat (length ps)) (Z.of_nat n - 1) v s = Some s' /\
    ok (entries s') /\ length (partition_sel s') = length (partition_sel s) /\
    length (reverse_partition_sel s') = length (reverse_partition_sel s) /\ selected s'.
Proof.
  unfold TemplatedBuildPartitionSel. destruct counted_entries as (m & -> & Hok & Hm). cbn [mbind option_bind].
  destruct (Nat.eqb_spec (length (entries_keys m)) 1) as [E1 | E1].
  - destruct reverse_single as (r & -> & Hr). eexists. split; [done |].
    cbn [entries partition_sel reverse_partition_sel]. split_and!; [done .. |].
    unfold selected, GetPartitionIndexIfSinglePartition. cbn [entries].
    destruct (entries_keys m) as [| p [|]] eqn:Ek; [done | | done].
    destruct Hm as [(p' & [= <-] & H) | [_ Hm]]; [done |].
    pose proof (represents_keys n ok m _ p Hm) as Hp. rewrite Ek in Hp.
    split; [apply Hp, list_elem_of_singleton; done |]. apply Forall_forall.
    intros q Hq%(counts_keys m q Hm). rewrite Ek in Hq. by apply list_elem_of_singleton in Hq.
  - destruct Hm as [(p & Ek & _) | [Ev Hm]]; [by rewrite Ek in E1 |].
    destruct (compute_offsets_counts n ok ps m Hm) as (m' & -> & Hm'). cbn [mbind option_bind].
    assert (forall p, occurrences p ps <> 0 -> p ∈ entries_keys m) as Hkeys.
    { intros p Hp. apply (counts_keys m p Hm). rewrite occurrences_zero in Hp. by apply dec_stable. }
    destruct (place_rows n ok append_sel (index_data v) ps (entries_keys m) idxs (partition_sel s)
      (reverse_partition_sel s) ltac:(by apply Hflat) Hps Hlen (keys_NoDup _ Hok) Hkeys Hsel Hidx Hroom m' Hm')
      as (s' & E & Hs').
    exists s'. pose proof Hs' as (He & Hp & Hr & Hl).
    split_and!; [done | apply He | done | done |]. unfold selected.
    assert (entries_keys (entries s') ≡ₚ entries_keys m) as Hperm%Permutation_length.
    { eapply (represents_keys_perm n ok); [exact He | exact Hm |]. intros p Hpn. unfold placed, counts.
      case_decide; [done |]. split; intros _; by eexists. }
    unfold GetPartitionIndexIfSinglePartition.
    destruct (entries_keys (entries s')) as [| p [|]] eqn:Ek; [| by rewrite <- Hperm in E1 |].
    all: exists (entries_keys m); split_and!; [apply (keys_NoDup _ Hok) | done | done].
Qed.
End build.

(** ** Appending rows: theorems *)

Lemma mapM_bind_Forall2 {B C} (f : Z -> option B) (g : B -> option C) js r :
  mapM (fun i => x ← f i; g x) js = Some r ->
  exists xs, Forall2 (fun i x => f i = Some x) js xs /\ Forall2 (fun x y => g x = Some y) xs r.
Proof.
  intros H%mapM_Some. induction H as [| i y js r H _ (xs & H1 & H2)].
  - exists []. by split.
  - destruct (f i) as [x |] eqn:E; [| done]. exists (x :: xs). by split; constructor.
Qed.

Lemma mapM_load {B} (load : Z -> option B) (sel js : list Z) :
  Forall (fun j => 0 <= j < Z.of_nat (length sel)) js ->
  mapM (fun j => x ← zload sel j; load x) js = mapM load (znth 0 sel <$> js).
Proof.
  induction 1 as [| j js Hj _ IH]; [done |]. cbn [mapM fmap list_fmap].
  rewrite (zload_Some 0), IH by done. done.
Qed.

Lemma Forall2_zrange_znth {B} (d : B) (f : Z -> option B) n xs :
  Forall2 (fun i x => f i = Some x) (zrange 0 (Z.of_nat n)) xs ->
  length xs = n /\ forall i, 0 <= i < Z.of_nat n -> f i = Some (znth d xs i).
Proof.
  intros H. pose proof (Forall2_length _ _ _ H) as Hl. rewrite length_zrange in Hl.
  split; [lia |]. intros i Hi.
  destruct (lookup_lt_is_Some_2 xs (Z.to_nat i)) as [x Hx]; [lia |].
  destruct (Forall2_lookup_r _ _ _ _ _ H Hx) as (j & Hj & Hf).
  unfold zrange in Hj. rewrite list_lookup_fmap, lookup_seq_lt in Hj by lia. cbn in Hj.
  injection Hj as <-. rewrite (znth_lookup _ _ _ _ Hx), <- Hf. f_equal. lia.
Qed.

Section append.
Context {unordered : UnorderedIteration} {A : Type} (hash : A -> Z).
Implicit Types (rows input : list A) (d : PartitionedTupleData (A := A)).

Definition bin_rows (radix_bits p : Z) (rows : list A) : list A :=
  filter (fun r => bin radix_bits (hash r) = p) rows.

(** The partitions with the rows added to the partitions of their hashes. *)
Definition add_rows (radix_bits : Z) (partitions : list (list A)) (rows : list A) : list (list A) :=
  imap (fun p partition => partition ++ bin_rows radix_bits (Z.of_nat p) rows) partitions.

(** The sizes of the parts of an append state, and the keys of its maps. *)
Definition append_state_sizes (n : nat) (s : PartitionSel) : Prop :=
  length (fixed_partition_entries s) = n /\
  map_Forall (fun p _ => 0 <= p < Z.of_nat n) (partition_entries s) /\
  Z.of_nat (length (index_data (partition_indices s))) = STANDARD_VECTOR_SIZE /\
  Z.of_nat (length (state_partition_sel s)) = STANDARD_VECTOR_SIZE /\
  Z.of_nat (length (state_reverse_sel s)) = STANDARD_VECTOR_SIZE.

(** No chunk with a constant hash left its type. *)
Definition append_state_ok (n : nat) (s : PartitionSel) : Prop :=
  append_state_sizes n s /\ vector_type (partition_indices s) = FLAT_VECTOR.

Lemma AppendState_new_ok d :
  bits_ok (radix_bits d) -> append_state_ok (Z.to_nat (2 ^ radix_bits d)) (AppendState_new d).
Proof.
  intros Hb. unfold append_state_ok, append_state_sizes, AppendState_new.
  cbn [fixed_partition_entries partition_entries partition_indices index_data vector_type
       state_partition_sel state_reverse_sel].
  rewrite !length_replicate, NumberOfPartitions_pow by done.
  unfold STANDARD_VECTOR_SIZE. split_and!; [done | apply map_Forall_empty | lia | lia | lia | done].
Qed.

Lemma picked_rows radix_bits input idxs rows p :
  Forall2 (fun x r => zload input x = Some r) idxs rows ->
  mapM (zload input) (picked p (zip ((fun r => bin radix_bits (hash r)) <$> rows) idxs)) =
    Some (bin_rows radix_bits p rows).
Proof.
  induction 1 as [| x r idxs rows H _ IH]; [done |].
  cbn [fmap list_fmap zip zip_with]. unfold picked, bin_rows in *. rewrite !filter_cons. cbn [fst].
  case_decide; [| done]. cbn [fmap list_fmap snd mapM]. rewrite H. cbn [mbind option_bind].
  rewrite IH. done.
Qed.

Lemma bin_rows_nil radix_bits p rows :
  occurrences p ((fun r => bin radix_bits (hash r)) <$> rows) = 0 -> bin_rows radix_bits p rows = [].
Proof.
  intros H%occurrences_zero. apply filter_Forall_nil, Forall_forall. intros r Hr E.
  apply H, list_elem_of_fmap. eauto.
Qed.

(** All partitions receive their part of the selection vector. *)
Section scatter.
Context {M : Type} `{!EntryMap M} (n : nat) (ok : M -> Prop) `{!EntryMapLaws n ok}.
Context (bits : Z) (input : list A) (idxs ks : list Z) (rows : list A) (psel rsel : list Z) (s : Selection M).

Abbreviation ps := ((fun r => bin bits (hash r)) <$> rows).

Context (Hrows : Forall2 (fun x r => zload input x = Some r) idxs rows).
Context (Hks : NoDup ks) (Hkeys : forall p, occurrences p ps <> 0 -> p ∈ ks).
Context (Hplace : place_ok n ok ps ks idxs psel rsel (Z.of_nat (length ps)) s).
Context (Hroom : (length rows <= length psel)%nat).
Context (Hbins : Forall (fun p => 0 <= p < Z.of_nat n) ps).

(** The part of the selection vector selects the rows of the partition. *)
Lemma partition_part p :
  occurrences p ps <> 0 -> 0 <= p < Z.of_nat n ->
  mapM (fun j => index ← zload (partition_sel s) j; zload input index)
    (zrange (start ps ks p) (start ps ks p + occurrences p ps)) = Some (bin_rows bits p rows).
Proof.
  intros Hp Hpn. destruct Hplace as (Hm & Hl & _ & Hk).
  assert (length idxs = length rows) as Hidxs by (by eapply Forall2_length).
  assert (length ps = length rows) as Hps by (by rewrite length_fmap).
  destruct (start_bounds ps ks p Hks (Hkeys p Hp)) as [Hst0 Hst]. set (k := start ps ks p) in *.
  assert ((fun j => znth 0 (partition_sel s) j) <$> zrange k (k + occurrences p ps) =
    picked p (zip ps idxs)) as Hsel.
  { assert (length (picked p (zip ps idxs)) = Z.to_nat (occurrences p ps)) as Hpl.
    { pose proof (occurrences_picked p (zip ps idxs)) as Ho. rewrite fst_zip in Ho by lia. lia. }
    apply list_eq. intros j. destruct (decide (j < Z.to_nat (occurrences p ps))%nat); cycle 1.
    { rewrite !lookup_ge_None_2; [done | lia |]. rewrite length_fmap, length_zrange. lia. }
    unfold zrange. rewrite list_lookup_fmap, list_lookup_fmap, lookup_seq_lt by lia. cbn.
    specialize (Hk p (Z.of_nat j) Hpn). rewrite Nat2Z.id, take_ge in Hk by lia. fold k in Hk.
    rewrite Hk by lia. unfold picked_at. rewrite Nat2Z.id, take_ge by (rewrite length_zip_with; lia).
    destruct (lookup_lt_is_Some_2 (picked p (zip ps idxs)) j) as [x Hx]; [lia |].
    rewrite Hx. f_equal. apply znth_lookup. by rewrite Nat2Z.id. }
  rewrite <- (picked_rows bits input idxs rows p Hrows), <- Hsel.
  apply mapM_load, Forall_forall. intros j Hj%elem_of_zrange. lia.
Qed.

Lemma scatter_keys parts l :
  length parts = n -> NoDup l -> (forall p, p ∈ l -> p ∈ entries_keys (entries s)) ->
  exists parts', ofold (scatter_partition input s) parts l = Some parts' /\ length parts' = n /\
    forall p, (p < n)%nat -> parts' !! p =
      if decide (Z.of_nat p ∈ l) then add_rows bits parts rows !! p else parts !! p.
Proof.
  intros Hparts. induction l as [| p l IH] using rev_ind; intros Hl Hin.
  - exists parts. split_and!; [done .. |]. intros p Hp. rewrite decide_False; [done | apply not_elem_of_nil].
  - apply NoDup_app in Hl as (Hl & Hpl & _).
    destruct IH as (parts1 & E1 & L1 & H1); [done | intros; apply Hin, elem_of_app; by left |].
    rewrite ofold_app, E1. cbn [mbind option_bind]. rewrite ofold_cons.
    destruct Hplace as (Hm & _).
    destruct (proj1 (represents_keys n ok (entries s) _ p Hm)) as (Hpn & e & He).
    { apply Hin, elem_of_app. right. by apply list_elem_of_singleton. }
    unfold scatter_partition. rewrite (proj2 Hm p Hpn), He. cbn [mjoin option_join mbind option_bind].
    unfold placed in He. case_decide as Eocc; [done |]. injection He as <-. cbn [le_offset le_length].
    rewrite Nat2Z.id, take_ge by lia. rewrite Z.add_simpl_r, partition_part by done. cbn [mbind option_bind].
    assert (p ∉ l) as Hpl' by (intros Hp; apply (Hpl p Hp), list_elem_of_singleton; done).
    destruct (lookup_lt_is_Some_2 parts (Z.to_nat p)) as [part Hpart]; [lia |].
    assert (zload parts1 p = Some part) as E.
    { unfold zload. rewrite decide_True, H1, Z2Nat.id, decide_False by (done || lia). done. }
    unfold append_rows. rewrite E. cbn [mbind option_bind]. rewrite zstore_Some by lia.
    eexists. split; [done |]. rewrite length_insert. split; [done |]. intros q Hq.
    destruct (decide (q = Z.to_nat p)) as [-> | Hne].
    + rewrite list_lookup_insert_eq by lia. rewrite Z2Nat.id by lia.
      rewrite decide_True by (apply elem_of_app; right; by apply list_elem_of_singleton).
      unfold add_rows. rewrite list_lookup_imap, Hpart. cbn. by rewrite Z2Nat.id by lia.
    + rewrite list_lookup_insert_ne, H1 by done. apply decide_ext.
      rewrite elem_of_app, list_elem_of_singleton. split; [by left |]. intros [|]; [done | lia].
Qed.

Lemma scatter_partitions parts :
  length parts = n ->
  ofold (scatter_partition input s) parts (entries_keys (entries s)) = Some (add_rows bits parts rows).
Proof.
  intros Hparts. destruct Hplace as (Hm & _).
  destruct (scatter_keys parts (entries_keys (entries s)) Hparts (keys_NoDup _ (proj1 Hm)))
    as (parts' & -> & L & H'); [done |].
  f_equal. apply list_eq. intros p. destruct (decide (p < n)%nat); cycle 1.
  { rewrite !lookup_ge_None_2; [done | unfold add_rows; rewrite length_imap; lia | lia]. }
  rewrite H' by done. case_decide as Hp; [done |]. unfold add_rows. rewrite list_lookup_imap.
  destruct (parts !! p) as [part |]; [| done]. cbn. rewrite bin_rows_nil, app_nil_r; [done |].
  destruct (decide (occurrences (Z.of_nat p) ps = 0)) as [| Hocc]; [done |]. destruct Hp.
  apply (represents_keys n ok (entries s) _ _ Hm). split; [lia |]. unfold placed.
  rewrite decide_False by done. by eexists.
Qed.
End scatter.

Lemma length_add_rows radix_bits parts rows : length (add_rows radix_bits parts rows) = length parts.
Proof. unfold add_rows. apply length_imap. Qed.

(** The indices that select the rows. *)
Lemma select_rows_indices input append_sel append_count rows :
  0 <= append_count -> select_rows input append_sel append_count = Some rows ->
  exists idxs, length idxs = length rows /\ Z.of_nat (length rows) = append_count /\
    Forall2 (fun x r => zload input x = Some r) idxs rows /\
    (forall i, 0 <= i < append_count -> sel_index append_sel i = Some (znth 0 idxs i)) /\
    Forall (fun x => 0 <= x < Z.of_nat (length input)) idxs.
Proof.
  intros Hc H. unfold select_rows in H.
  destruct (mapM_bind_Forall2 _ _ _ _ H) as (idxs & H1 & H2). exists idxs.
  pose proof (Forall2_length _ _ _ H1) as L1. pose proof (Forall2_length _ _ _ H2) as L2.
  rewrite length_zrange in L1.
  replace append_count with (Z.of_nat (length idxs)) in H1 |- * by lia.
  destruct (Forall2_zrange_znth 0 _ _ _ H1) as [_ Hsel]. split_and!; [done | lia | done | done |].
  clear -H2. induction H2 as [| x r idxs rows Hx _ IH]; constructor; [| done].
  unfold zload in Hx. case_decide; [| done]. apply lookup_lt_Some in Hx. lia.
Qed.

Lemma ComputePartitionIndices_flat bits hash_type input append_sel append_count idxs rows v :
  bits_ok bits -> append_count = Z.of_nat (length rows) ->
  Forall2 (fun x r => zload input x = Some r) idxs rows ->
  (forall i, 0 <= i < append_count -> sel_index append_sel i = Some (znth 0 idxs i)) ->
  hash_type <> CONSTANT_VECTOR ->
  ComputePartitionIndices bits hash_type (hash <$> input) append_sel append_count v =
    Some (write_indices (match append_sel with None => FLAT_VECTOR | Some _ => vector_type v end)
            ((fun r => bin bits (hash r)) <$> rows) v).
Proof.
  intros Hb -> Hrows Hsel Ht. unfold ComputePartitionIndices, RadixBitsSwitch.
  pose proof Hb as [H0 H12].
  rewrite (proj2 (Z.leb_le _ _)), (proj2 (Z.leb_le _ _)) by done. cbn [andb].
  assert (mapM (fun i => source_idx ← sel_index append_sel i; hash ← zload (hash <$> input) source_idx;
    ApplyMask bits hash) (zrange 0 (Z.of_nat (length rows))) = Some ((fun r => bin bits (hash r)) <$> rows)) as E;
    [| by destruct hash_type; rewrite ?E].
  apply mapM_Some. apply Forall2_same_length_lookup_2.
  { rewrite length_zrange, length_fmap. lia. }
  intros i x y Hx Hy. unfold zrange in Hx. rewrite list_lookup_fmap in Hx. rewrite list_lookup_fmap in Hy.
  destruct (rows !! i) as [r |] eqn:Hr; [| done]. cbn in Hy. injection Hy as <-.
  pose proof (lookup_lt_Some _ _ _ Hr). rewrite lookup_seq_lt in Hx by lia. cbn in Hx. injection Hx as <-.
  destruct (Forall2_lookup_r _ _ _ _ _ Hrows Hr) as (j & Hj & Hl).
  rewrite Hsel by lia. cbn [mbind option_bind].
  rewrite (znth_lookup 0 idxs (0 + Z.of_nat i) j) by (by replace (Z.to_nat (0 + Z.of_nat i)) with i by lia).
  unfold zload in *. case_decide; [| done]. rewrite list_lookup_fmap, Hl. cbn. by apply ApplyMask_bin.
Qed.

(** The rows of a chunk whose vector of hashes is constant. *)
Definition constant_rows (input : list A) : Prop :=
  input <> [] /\ forall r r', r ∈ input -> r' ∈ input -> hash r = hash r'.

Lemma ComputePartitionIndices_constant bits input append_sel append_count v :
  bits_ok bits -> constant_rows input ->
  exists p, 0 <= p < 2 ^ bits /\ (forall r, r ∈ input -> bin bits (hash r) = p) /\
    ComputePartitionIndices bits CONSTANT_VECTOR (hash <$> input) append_sel append_count v =
      Some (write_indices CONSTANT_VECTOR [p] v).
Proof.
  intros Hb [Hne Hc]. destruct input as [| r0 input]; [done |]. exists (bin bits (hash r0)).
  split; [by apply bin_range |]. split; [intros r Hr; f_equal; apply Hc; [done | by left] |].
  unfold ComputePartitionIndices, RadixBitsSwitch. pose proof Hb as [H0 H12].
  rewrite (proj2 (Z.leb_le _ _)), (proj2 (Z.leb_le _ _)) by done. cbn [andb].
  change (zload (hash <$> r0 :: input) 0) with (Some (hash r0)). cbn [mbind option_bind].
  by rewrite ApplyMask_bin.
Qed.

(** The shortcut for a single partition. *)
Lemma append_rows_single radix_bits parts p rows :
  0 <= p < Z.of_nat (length parts) ->
  Forall (eq p) ((fun r => bin radix_bits (hash r)) <$> rows) ->
  append_rows parts p rows = Some (add_rows radix_bits parts rows).
Proof.
  intros Hp Hall. unfold append_rows.
  destruct (lookup_lt_is_Some_2 parts (Z.to_nat p)) as [part Hpart]; [lia |].
  assert (zload parts p = Some part) as -> by (unfold zload; by rewrite decide_True by lia).
  cbn [mbind option_bind]. rewrite zstore_Some by done. f_equal. apply list_eq. intros q.
  unfold add_rows. rewrite list_lookup_imap.
  assert (Forall (fun r => bin radix_bits (hash r) = p) rows) as Hr.
  { rewrite Forall_fmap in Hall. eapply Forall_impl; [exact Hall |]. intros r. by cbn. }
  destruct (decide (q = Z.to_nat p)) as [-> | Hne].
  - rewrite list_lookup_insert_eq, Hpart by lia. cbn. rewrite Z2Nat.id by lia. unfold bin_rows.
    do 2 f_equal. clear -Hr. induction Hr as [| r rows H _ IH]; [done |].
    rewrite filter_cons_True by done. by rewrite <- IH.
  - rewrite list_lookup_insert_ne by done. destruct (parts !! q) as [part' |]; [| done]. cbn.
    f_equal. unfold bin_rows. rewrite filter_Forall_nil, app_nil_r; [done |].
    eapply Forall_impl; [exact Hr |]. cbn. intros. lia.
Qed.

(** One chunk is appended in the same way with both maps. *)
Lemma append_selected_add_rows {M} `{!EntryMap M} n (ok : M -> Prop) `{!EntryMapLaws n ok}
    bits v (s : Selection M) parts input append_sel append_count idxs rows :
  Forall (fun p => 0 <= p < Z.of_nat n) ((fun r => bin bits (hash r)) <$> rows) ->
  vector_type v = FLAT_VECTOR \/ vector_type v = CONSTANT_VECTOR ->
  (vector_type v = FLAT_VECTOR ->
     take (length rows) (index_data v) = (fun r => bin bits (hash r)) <$> rows) ->
  ((n = 1)%nat \/ vector_type v = CONSTANT_VECTOR ->
     exists p, index_data v !! 0%nat = Some p /\ 0 <= p < Z.of_nat n /\
       Forall (eq p) ((fun r => bin bits (hash r)) <$> rows)) ->
  ok (entries s) -> length parts = n -> append_count = Z.of_nat (length rows) ->
  (length rows <= length (partition_sel s))%nat ->
  (length input <= length (reverse_partition_sel s))%nat ->
  length idxs = length rows ->
  Forall2 (fun x r => zload input x = Some r) idxs rows ->
  (forall i, 0 <= i < append_count -> sel_index append_sel i = Some (znth 0 idxs i)) ->
  Forall (fun x => 0 <= x < Z.of_nat (length input)) idxs ->
  select_rows input append_sel append_count = Some rows ->
  exists s', append_selected input append_sel append_count (Z.of_nat n - 1) v s parts =
      Some (add_rows bits parts rows, s') /\
    ok (entries s') /\ length (partition_sel s') = length (partition_sel s) /\
    length (reverse_partition_sel s') = length (reverse_partition_sel s).
Proof.
  intros Hbins Htype Hflat Hconst Hs Hparts -> Hroom Hin Hidxs Hrows Hsel Hrange Hselect.
  set (ps := (fun r => bin bits (hash r)) <$> rows) in *.
  assert (length ps = length rows) as Lp by (unfold ps; by rewrite length_fmap).
  unfold append_selected. rewrite <- Lp in *.
  destruct (BuildPartitionSel_selected n ok append_sel v ps idxs s) as (s' & -> & He & Hp & Hr & Hs');
    [done | done | done | done | done | done | | done | done |].
  { eapply Forall_impl; [exact Hrange |]. cbn. intros. lia. }
  cbn [mbind option_bind]. exists s'. split; [| done]. unfold selected in Hs'.
  destruct (GetPartitionIndexIfSinglePartition (entries s')) as [p |].
  - destruct Hs' as [Hpn Hall]. rewrite Hselect. cbn [mbind option_bind].
    by rewrite (append_rows_single bits) by (done || lia).
  - destruct Hs' as (ks & Hks & Hkeys & Hplace).
    by rewrite (scatter_partitions n ok bits input idxs ks rows (partition_sel s) (reverse_partition_sel s))
      by (done || lia).
Qed.

Lemma length_write_indices type indices v :
  (length indices <= length (index_data v))%nat ->
  length (index_data (write_indices type indices v)) = length (index_data v).
Proof. intros H1. cbn. rewrite length_app, length_drop. lia. Qed.

(** What [ComputePartitionIndices] must leave for the rows. *)
Definition indices_ok (n : nat) bits rows (v : IndexVector) : Prop :=
  (vector_type v = FLAT_VECTOR \/ vector_type v = CONSTANT_VECTOR) /\
  (vector_type v = FLAT_VECTOR ->
     take (length rows) (index_data v) = (fun r => bin bits (hash r)) <$> rows) /\
  ((n = 1)%nat \/ vector_type v = CONSTANT_VECTOR ->
     exists p, index_data v !! 0%nat = Some p /\ 0 <= p < Z.of_nat n /\
       Forall (eq p) ((fun r => bin bits (hash r)) <$> rows)).

Lemma ComputePartitionIndices_ok bits hash_type input append_sel append_count idxs rows v :
  bits_ok bits -> append_count = Z.of_nat (length rows) ->
  Forall2 (fun x r => zload input x = Some r) idxs rows ->
  (forall i, 0 <= i < append_count -> sel_index append_sel i = Some (znth 0 idxs i)) ->
  0 < bits \/ 0 < append_count ->
  append_count <= Z.of_nat (length (index_data v)) -> (1 <= length (index_data v))%nat ->
  (hash_type = CONSTANT_VECTOR -> constant_rows input) ->
  (hash_type <> CONSTANT_VECTOR -> append_sel = None \/ vector_type v = FLAT_VECTOR) ->
  exists v', ComputePartitionIndices bits hash_type (hash <$> input) append_sel append_count v = Some v' /\
    indices_ok (Z.to_nat (2 ^ bits)) bits rows v' /\
    length (index_data v') = length (index_data v) /\
    (hash_type <> CONSTANT_VECTOR -> vector_type v' = FLAT_VECTOR).
Proof.
  intros Hb -> Hrows Hsel Hne Hlen H1 Hc Hf. pose proof (bits_pow _ Hb) as Hpow.
  destruct (decide (hash_type = CONSTANT_VECTOR)) as [-> | Ht]; cycle 1.
  - rewrite (ComputePartitionIndices_flat bits hash_type input append_sel _ idxs rows) by done.
    eexists. split; [done |]. rewrite length_write_indices by (rewrite length_fmap; lia).
    assert ((match append_sel with None => FLAT_VECTOR | Some _ => vector_type v end) = FLAT_VECTOR) as ->.
    { destruct append_sel; [| done]. by destruct (Hf Ht). }
    split; [| done]. split; [by left |]. split; cbn [vector_type index_data write_indices].
    + intros _. rewrite take_app_le, take_ge by (rewrite length_fmap; lia). done.
    + intros [Hn | [=]]. exists 0. assert (bits = 0) as ->.
      { destruct (decide (bits = 0)); [done |]. destruct Hb.
        assert (2 ^ 1 <= 2 ^ bits) by (apply Z.pow_le_mono_r; lia). lia. }
      assert (forall r, bin 0 (hash r) = 0) as Hz by (intros r; pose proof (bin_range 0 (hash r)); unfold bits_ok in *; lia).
      destruct rows as [| r rows]; [cbn in Hne; lia |]. cbn. rewrite Hz. split_and!; [done | lia | lia |].
      constructor; [done |]. apply Forall_fmap, Forall_forall. intros r' _. cbn. by rewrite Hz.
  - destruct (ComputePartitionIndices_constant bits input append_sel (Z.of_nat (length rows)) v)
      as (p & Hp & Hall & ->); [done | by apply Hc |].
    eexists. split; [done |]. rewrite length_write_indices by (cbn; lia).
    split; [| done]. split; [by right |]. split; [done |]. intros _. exists p. cbn. split_and!; [done | lia | lia |].
    apply Forall_fmap, Forall_forall. intros r Hr. cbn. symmetry. apply Hall.
    apply list_elem_of_lookup in Hr as [i Hi]. destruct (Forall2_lookup_r _ _ _ _ _ Hrows Hi) as (j & _ & Hl).
    unfold zload in Hl. case_decide; [| done]. by eapply list_elem_of_lookup_2.
Qed.

Lemma AppendUnified_add_rows d s hash_type input append_sel append_count rows :
  bits_ok (radix_bits d) -> length (partitions d) = Z.to_nat (2 ^ radix_bits d) ->
  append_state_sizes (length (partitions d)) s ->
  Z.of_nat (length input) <= STANDARD_VECTOR_SIZE -> 0 <= append_count <= STANDARD_VECTOR_SIZE ->
  0 < radix_bits d \/ 0 < append_count ->
  (hash_type = CONSTANT_VECTOR -> constant_rows input) ->
  (hash_type <> CONSTANT_VECTOR -> append_sel = None \/ vector_type (partition_indices s) = FLAT_VECTOR) ->
  select_rows input append_sel append_count = Some rows ->
  exists s', AppendUnified hash d s hash_type input append_sel append_count =
      Some ({| radix_bits := radix_bits d; partitions := add_rows (radix_bits d) (partitions d) rows;
               count := count d + append_count |}, s') /\
    append_state_sizes (length (partitions d)) s' /\
    (hash_type <> CONSTANT_VECTOR -> vector_type (partition_indices s') = FLAT_VECTOR).
Proof.
  intros Hb Hlen (Hn & Hmap & Hi & Hps & Hrs) Hin Hcount Hne Hc Hf Hsel.
  destruct (select_rows_indices _ _ _ _ (proj1 Hcount) Hsel) as (idxs & Li & Lr & Hrows & Hidx & Hrange).
  assert (STANDARD_VECTOR_SIZE = 2048) as Hv by done.
  unfold AppendUnified.
  destruct (ComputePartitionIndices_ok (radix_bits d) hash_type input append_sel append_count idxs rows
    (partition_indices s)) as (v & -> & (Hv0 & Hv1 & Hv2) & Lv & Hvt); [done | lia | done .. | lia | lia | done | done |].
  cbn [mbind option_bind]. rewrite <- Hlen in Hv2. pose proof (bits_pow _ Hb) as Hpow.
  assert (Forall (fun p => 0 <= p < Z.of_nat (length (partitions d)))
    ((fun r => bin (radix_bits d) (hash r)) <$> rows)) as Hbins.
  { apply Forall_fmap, Forall_forall. intros r _. cbn. pose proof (bin_range _ (hash r) Hb). lia. }
  replace (MaxPartitionIndex d) with (Z.of_nat (length (partitions d)) - 1)
    by (unfold MaxPartitionIndex; rewrite NumberOfPartitions_pow by done; lia).
  destruct (UseFixedSizeMap d).
  - edestruct (append_selected_add_rows (length (partitions d)) _ (radix_bits d) v (fixed_selection s) (partitions d)
      input append_sel append_count idxs rows) as (s' & -> & Hok & Hp & Hr);
      [done | done | done | done | exact Hn | done | done | cbn; lia | cbn; lia | done .. |].
    cbn [mbind option_bind]. eexists. split; [done |].
    cbn [fixed_selection partition_sel reverse_partition_sel entries] in *. split; [| done].
    unfold append_state_sizes. cbn. split_and!; [done | done | lia .. ].
  - edestruct (append_selected_add_rows (length (partitions d)) _ (radix_bits d) v (perfect_selection s) (partitions d)
      input append_sel append_count idxs rows) as (s' & -> & Hok & Hp & Hr);
      [done | done | done | done | exact Hmap | done | done | cbn; lia | cbn; lia | done .. |].
    cbn [mbind option_bind]. eexists. split; [done |].
    cbn [perfect_selection partition_sel reverse_partition_sel entries] in *. split; [| done].
    unfold append_state_sizes. cbn. split_and!; [done | done | lia .. ].
Qed.

(** ** The rows of partitioned data *)

Lemma add_rows_app radix_bits parts rows rows' :
  add_rows radix_bits (add_rows radix_bits parts rows) rows' = add_rows radix_bits parts (rows ++ rows').
Proof.
  apply list_eq. intros p. unfold add_rows. rewrite !list_lookup_imap.
  destruct (parts !! p) as [part |]; [| done]. cbn. unfold bin_rows.
  by rewrite filter_app, app_assoc.
Qed.

(** The reference: the rows of every partition, in order. *)
Definition partitioned (radix_bits : Z) (rows : list A) : list (list A) :=
  (fun p => bin_rows radix_bits (Z.of_nat p) rows) <$> seq 0 (Z.to_nat (2 ^ radix_bits)).

Definition holds (d : PartitionedTupleData) (rows : list A) : Prop :=
  bits_ok (radix_bits d) /\ partitions d = partitioned (radix_bits d) rows /\
  count d = Z.of_nat (length rows).

Lemma length_partitioned radix_bits rows :
  length (partitioned radix_bits rows) = Z.to_nat (2 ^ radix_bits).
Proof. unfold partitioned. by rewrite length_fmap, length_seq. Qed.

Lemma partitioned_app radix_bits rows rows' :
  add_rows radix_bits (partitioned radix_bits rows) rows' = partitioned radix_bits (rows ++ rows').
Proof.
  apply list_eq. intros p. unfold add_rows, partitioned. rewrite list_lookup_imap, !list_lookup_fmap.
  destruct (decide (p < Z.to_nat (2 ^ radix_bits)))%nat; cycle 1.
  { rewrite !lookup_ge_None_2; [done | rewrite length_seq; lia ..]. }
  rewrite lookup_seq_lt by done. cbn. unfold bin_rows. by rewrite filter_app.
Qed.

Lemma PartitionedTupleData_new_holds bits :
  bits_ok bits ->
  exists d, PartitionedTupleData_new bits = Some d /\ radix_bits d = bits /\ holds d [].
Proof.
  intros H. unfold PartitionedTupleData_new. pose proof H as [_ H12].
  rewrite (proj2 (Z.leb_le _ _)) by done. eexists. split; [done |]. split; [done |].
  split; [done |]. split; [| done]. cbn [partitions radix_bits]. unfold partitioned.
  rewrite NumberOfPartitions_pow by done. generalize (Z.to_nat (2 ^ bits)). intros n.
  apply list_eq. intros i. rewrite list_lookup_fmap. destruct (decide (i < n)%nat).
  - by rewrite lookup_seq_lt, lookup_replicate_2 by lia.
  - rewrite !lookup_ge_None_2; [done | rewrite length_seq; lia | rewrite length_replicate; lia].
Qed.

Lemma holds_append_state d rows : holds d rows -> append_state_ok (length (partitions d)) (AppendState_new d).
Proof.
  intros (Hb & Hp & _). rewrite Hp, length_partitioned. by apply AppendState_new_ok.
Qed.

(** A call of [AppendUnified]: the type of the vector of hashes, the rows, the
    selection and the number of rows. *)
Abbreviation append_call := (VectorType * list A * option (list Z) * Z)%type.

Definition call_type (c : append_call) : VectorType := let '(t, _, _, _) := c in t.
Definition call_sel (c : append_call) : option (list Z) := let '(_, _, sel, _) := c in sel.

Definition call_append (st : PartitionedTupleData * PartitionSel) (c : append_call)
    : option (PartitionedTupleData * PartitionSel) :=
  let '(hash_type, input, append_sel, append_count) := c in
  AppendUnified hash (fst st) (snd st) hash_type input append_sel append_count.

(** A call that is made: the selection selects [rows], and a constant vector of
    hashes stands for rows that all have the hash. *)
Definition call_ok (c : append_call) (rows : list A) : Prop :=
  let '(hash_type, input, append_sel, append_count) := c in
  Z.of_nat (length input) <= STANDARD_VECTOR_SIZE /\ 0 <= append_count <= STANDARD_VECTOR_SIZE /\
  select_rows input append_sel append_count = Some rows /\
  (hash_type = CONSTANT_VECTOR -> constant_rows input).

Lemma call_append_holds d s c rows0 rows :
  holds d rows0 -> append_state_sizes (length (partitions d)) s -> 0 < radix_bits d \/ rows <> [] ->
  call_ok c rows ->
  (call_type c <> CONSTANT_VECTOR -> call_sel c = None \/ vector_type (partition_indices s) = FLAT_VECTOR) ->
  exists d' s', call_append (d, s) c = Some (d', s') /\
    radix_bits d' = radix_bits d /\ holds d' (rows0 ++ rows) /\
    append_state_sizes (length (partitions d')) s' /\
    (call_type c <> CONSTANT_VECTOR -> vector_type (partition_indices s') = FLAT_VECTOR).
Proof.
  destruct c as [[[hash_type input] append_sel] append_count]. cbn [call_type call_sel call_ok].
  intros (Hb & Hp & Hc) Hs Hne (Hin & Hcount & Hsel & Hconst) Hf.
  assert (length (partitions d) = Z.to_nat (2 ^ radix_bits d)) as Hlen by (by rewrite Hp, length_partitioned).
  destruct (select_rows_indices _ _ _ _ (proj1 Hcount) Hsel) as (_ & _ & Lr & _).
  destruct (AppendUnified_add_rows d s hash_type input append_sel append_count rows)
    as (s' & E & Hs' & Ht); [done .. | | done | done | done |].
  { destruct Hne as [| Hne]; [by left |]. right. destruct rows; [done |]. cbn in Lr. lia. }
  unfold call_append. cbn [fst snd].
  eexists _, s'. split; [exact E |]. cbn [radix_bits partitions count]. split; [done |].
  rewrite length_add_rows. split; [| done]. unfold holds. cbn [radix_bits partitions count].
  split; [done |]. split; [by rewrite Hp, partitioned_app | rewrite length_app; lia].
Qed.

Lemma AppendUnified_holds d s input append_sel append_count rows0 rows :
  holds d rows0 -> append_state_ok (length (partitions d)) s ->
  Z.of_nat (length input) <= STANDARD_VECTOR_SIZE -> 0 <= append_count <= STANDARD_VECTOR_SIZE ->
  0 < radix_bits d \/ 0 < append_count ->
  select_rows input append_sel append_count = Some rows ->
  exists d' s', AppendUnified hash d s FLAT_VECTOR input append_sel append_count = Some (d', s') /\
    radix_bits d' = radix_bits d /\ holds d' (rows0 ++ rows) /\
    append_state_ok (length (partitions d')) s'.
Proof.
  intros Hd [Hs Ht] Hin Hcount Hne Hsel.
  destruct (select_rows_indices _ _ _ _ (proj1 Hcount) Hsel) as (_ & _ & Lr & _).
  destruct (call_append_holds d s (FLAT_VECTOR, input, append_sel, append_count) rows0 rows)
    as (d' & s' & E & Hb & Hd' & Hs' & Ht'); [done | done | | done | by right |].
  { destruct Hne as [| Hne]; [by left | right; intros ->; cbn in Lr; lia]. }
  exists d', s'. split_and!; [exact E | done | done |]. by split; [| apply Ht'].
Qed.

(** A sequence of calls in which no selection follows a constant hash. *)
Lemma calls_append_holds d s calls rowss rows0 :
  holds d rows0 -> append_state_sizes (length (partitions d)) s -> 0 < radix_bits d ->
  Forall2 call_ok calls rowss ->
  Forall (fun c => call_sel c = None) calls \/
    vector_type (partition_indices s) = FLAT_VECTOR /\ Forall (fun c => call_type c <> CONSTANT_VECTOR) calls ->
  exists d' s', ofold call_append (d, s) calls = Some (d', s') /\
    radix_bits d' = radix_bits d /\ holds d' (rows0 ++ mjoin rowss).
Proof.
  intros Hd Hs Hb Hcalls. revert d s rows0 Hd Hs Hb.
  induction Hcalls as [| c rows calls rowss Hc _ IH]; intros d s rows0 Hd Hs Hb Hsafe.
  - exists d, s. cbn. by rewrite app_nil_r.
  - rewrite ofold_cons.
    destruct (call_append_holds d s c rows0 rows) as (d1 & s1 & E & Hb1 & Hd1 & Hs1 & Ht1);
      [done | done | by left | done | |].
    { intros _. destruct Hsafe as [[? _]%Forall_cons | [? _]]; [by left | by right]. }
    rewrite E. cbn [mbind option_bind].
    destruct (IH d1 s1 (rows0 ++ rows)) as (d2 & s2 & E2 & Hb2 & Hd2); [done | done | lia | |].
    { destruct Hsafe as [[_ ?]%Forall_cons | [_ [Ht ?]%Forall_cons]]; [by left | right; auto]. }
    exists d2, s2. rewrite mjoin_cons, app_assoc. split_and!; [done | lia | done].
Qed.

Lemma mjoin_bins (f : A -> Z) n rows :
  Forall (fun r => 0 <= f r < Z.of_nat n) rows ->
  mjoin ((fun p => filter (fun r => f r = Z.of_nat p) rows) <$> seq 0 n) ≡ₚ rows.
Proof.
  induction 1 as [| r rows Hr _ IH].
  - clear. generalize 0%nat. induction n as [| n IH]; intros i; [done |]. cbn. apply IH.
  - transitivity (r :: mjoin ((fun p => filter (fun r => f r = Z.of_nat p) rows) <$> seq 0 n));
      [| by rewrite IH]. clear IH. set (q := Z.to_nat (f r)).
    replace n with (q + S (n - q - 1))%nat by lia. rewrite !seq_app. cbn [seq].
    rewrite !fmap_app, !fmap_cons, !mjoin_app, !mjoin_cons.
    assert (forall l : list nat, q ∉ l ->
      (fun p => filter (fun r => f r = Z.of_nat p) (r :: rows)) <$> l =
      (fun p => filter (fun r => f r = Z.of_nat p) rows) <$> l) as E.
    { intros l Hl. apply list_fmap_ext. intros i p Hp%list_elem_of_lookup_2.
      rewrite filter_cons_False; [done |]. intros Hf. apply Hl. unfold q.
      rewrite Hf, Nat2Z.id. done. }
    rewrite !E by (rewrite elem_of_seq; lia).
    rewrite filter_cons_True by lia. cbn [app].
    by rewrite <- Permutation_middle.
Qed.

Lemma mjoin_partitioned radix_bits rows :
  bits_ok radix_bits -> mjoin (partitioned radix_bits rows) ≡ₚ rows.
Proof.
  intros Hb. apply (mjoin_bins (fun r => bin radix_bits (hash r))), Forall_forall. intros r _.
  pose proof (bin_range radix_bits (hash r) Hb). lia.
Qed.

(** ** Repartitioning: theorems *)

Section repartition.
Context (chunks : list A -> list (list A)) `{!ChunkIterator chunks}.

Lemma append_chunks d s rows0 cs :
  holds d rows0 -> append_state_ok (length (partitions d)) s -> 0 < radix_bits d ->
  Forall (fun chunk => Z.of_nat (length chunk) <= STANDARD_VECTOR_SIZE) cs ->
  exists d' s', ofold (append_chunk hash) (d, s) cs = Some (d', s') /\
    radix_bits d' = radix_bits d /\ holds d' (rows0 ++ mjoin cs) /\
    append_state_ok (length (partitions d')) s'.
Proof.
  intros Hd Hs Hb Hcs. revert d s rows0 Hd Hs Hb.
  induction Hcs as [| c cs Hc _ IH]; intros d s rows0 Hd Hs Hb.
  - exists d, s. cbn. by rewrite app_nil_r.
  - rewrite ofold_cons.
    destruct (AppendUnified_holds d s c None (Z.of_nat (length c)) rows0 c) as (d1 & s1 & E & Hb1 & Hd1 & Hs1);
      [done | done | done | lia | by left | |].
    { unfold select_rows, zrange. apply mapM_Some, Forall2_same_length_lookup_2.
      - rewrite length_fmap, length_seq. lia.
      - intros i x y Hx Hy. rewrite list_lookup_fmap in Hx.
        pose proof (lookup_lt_Some _ _ _ Hy). rewrite lookup_seq_lt in Hx by lia. cbn in Hx.
        injection Hx as <-. cbn [sel_index mbind option_bind]. unfold zload.
        rewrite decide_True by lia. by replace (Z.to_nat _) with i by lia. }
    assert (append_chunk hash (d, s) c = Some (d1, s1)) as -> by exact E. cbn [mbind option_bind].
    destruct (IH d1 s1 (rows0 ++ c)) as (d2 & s2 & E2 & Hb2 & Hd2 & Hs2); [done | done | lia |].
    exists d2, s2. rewrite mjoin_cons, app_assoc. split_and!; [done | lia | done | done].
Qed.

Lemma RepartitionFinalizeStates_range old_bits new_bits p :
  bits_ok old_bits -> bits_ok new_bits -> old_bits < new_bits ->
  exists finalized, RepartitionFinalizeStates old_bits new_bits p = Some finalized /\
    forall h, bin new_bits h ∈ finalized <-> bin old_bits h = p.
Proof.
  intros Ho Hn Hlt. unfold RepartitionFinalizeStates. rewrite (proj2 (Z.ltb_lt _ _)) by done.
  eexists. split; [done |]. intros h. rewrite elem_of_zrange.
  unfold bits_ok, MAX_RADIX_BITS in *.
  rewrite NumberOfPartitions_pow by (unfold bits_ok, MAX_RADIX_BITS; lia).
  rewrite <- (bin_refines old_bits new_bits h) by (unfold bits_ok, MAX_RADIX_BITS; lia).
  pose proof (Z.pow_pos_nonneg 2 (new_bits - old_bits)).
  pose proof (Z.div_mod (bin new_bits h) (2 ^ (new_bits - old_bits)) ltac:(lia)).
  pose proof (Z.mod_pos_bound (bin new_bits h) (2 ^ (new_bits - old_bits))). nia.
Qed.

Lemma move_partitions d rows new_data s :
  holds d rows -> holds new_data [] -> radix_bits d < radix_bits new_data ->
  append_state_ok (length (partitions new_data)) s ->
  exists d' s' f, ofold (move_partition hash chunks d) (new_data, s, [])
      (zrange 0 (Z.of_nat (length (partitions d)))) = Some (d', s', f) /\
    radix_bits d' = radix_bits new_data /\ holds d' (mjoin (partitions d)).
Proof.
  intros Hd Hnew Hlt Hs. pose proof Hd as (Hb & Hp & Hc).
  destruct (ofold_zrange_inv (move_partition hash chunks d)
    (fun i st => radix_bits (fst (fst st)) = radix_bits new_data /\
       holds (fst (fst st)) (mjoin (take (Z.to_nat i) (partitions d))) /\
       append_state_ok (length (partitions (fst (fst st)))) (snd (fst st)))
    0 (Z.of_nat (length (partitions d))) (new_data, s, [])) as ([[d' s'] f] & E & Hb' & Hd' & _);
    [lia | done | |].
  - intros i [[d1 s1] f1] Hi (Hb1 & Hd1 & Hs1). cbn [fst snd] in *. unfold move_partition.
    destruct (lookup_lt_is_Some_2 (partitions d) (Z.to_nat i)) as [part Hpart]; [lia |].
    assert (zload (partitions d) i = Some part) as -> by (unfold zload; by rewrite decide_True by lia).
    cbn [mbind option_bind].
    assert (mjoin (take (Z.to_nat (i + 1)) (partitions d)) =
      mjoin (take (Z.to_nat i) (partitions d)) ++ part) as Et.
    { replace (Z.to_nat (i + 1)) with (S (Z.to_nat i)) by lia.
      rewrite (take_S_r _ _ _ Hpart), mjoin_app, mjoin_cons. by rewrite app_nil_r. }
    destruct (Nat.eqb_spec (length part) 0) as [E0 | E0].
    + eexists. split; [done |]. cbn [fst snd]. apply nil_length_inv in E0 as ->.
      by rewrite Et, app_nil_r.
    + destruct (append_chunks d1 s1 _ (chunks part) Hd1 Hs1) as (d2 & s2 & E2 & Hb2 & Hd2 & Hs2).
      { destruct Hb. lia. } { apply chunks_size. }
      rewrite E2. cbn [mbind option_bind].
      destruct (RepartitionFinalizeStates_range (radix_bits d) (radix_bits d2) i) as (f & -> & _);
        [done | by destruct Hd2 | lia |].
      cbn [mbind option_bind]. eexists. split; [done |]. cbn [fst snd].
      rewrite Et. rewrite chunks_join in Hd2. split_and!; [lia | done | done].
  - exists d', s', f. cbn [fst snd] in *. split_and!; [done | done |].
    by rewrite Nat2Z.id, take_ge in Hd' by done.
Qed.

Lemma Repartition_holds d rows new_data :
  holds d rows -> holds new_data [] -> radix_bits d <= radix_bits new_data ->
  exists d' rows', Repartition hash chunks d new_data = Some d' /\
    radix_bits d' = radix_bits new_data /\ rows' ≡ₚ rows /\ holds d' rows'.
Proof.
  intros Hd Hnew Hle. pose proof Hd as (Hb & Hp & Hc). pose proof Hnew as (Hbn & Hpn & Hcn).
  unfold Repartition. rewrite Hp, Hpn, !length_partitioned.
  pose proof (bits_pow _ Hb). pose proof (bits_pow _ Hbn).
  destruct (Nat.eqb_spec (Z.to_nat (2 ^ radix_bits d)) (Z.to_nat (2 ^ radix_bits new_data))) as [E | E].
  - assert (radix_bits d = radix_bits new_data) as Eb.
    { destruct (decide (radix_bits d < radix_bits new_data)) as [Hlt |]; [| lia].
      pose proof (Z.pow_lt_mono_r 2 (radix_bits d) (radix_bits new_data)) as Hm.
      destruct Hb, Hbn. specialize (Hm ltac:(lia) ltac:(lia) Hlt). lia. }
    unfold CombinePartitions. destruct (Z.eqb_spec (count d) 0) as [E0 |].
    + assert (rows = []) as -> by (apply nil_length_inv; lia). exists new_data, []. done.
    + rewrite Hp, Hpn, !length_partitioned, <- E, Nat.eqb_refl.
      destruct (Nat.eqb_spec (Z.to_nat (2 ^ radix_bits d)) 0) as [| _]; [lia |].
      eexists _, rows. split; [done |]. cbn [radix_bits]. split_and!; [done | done |].
      unfold holds. cbn [radix_bits partitions count]. split; [done |]. split; [| rewrite Hcn; cbn; lia].
      rewrite <- Eb. apply list_eq. intros i. rewrite lookup_zip_with. unfold partitioned.
      rewrite !list_lookup_fmap. destruct (decide (i < Z.to_nat (2 ^ radix_bits d))%nat).
      * by rewrite lookup_seq_lt.
      * rewrite !lookup_ge_None_2; [done | rewrite length_seq; lia].
  - destruct (move_partitions d rows new_data (AppendState_new new_data)) as (d' & s' & f & E1 & Hb' & Hd').
    { done. } { done. }
    { destruct (decide (radix_bits d = radix_bits new_data)) as [Eb |]; [by rewrite Eb in E | lia]. }
    { by eapply holds_append_state. }
    rewrite Hp, length_partitioned in E1. rewrite E1. cbn [mbind option_bind].
    exists d', (mjoin (partitions d)). split_and!; [done | done | | done].
    rewrite Hp. by apply mjoin_partitioned.
Qed.

(** C34. Appending chunks of selected rows and then repartitioning to more radix
    bits, once or not at all, leaves exactly the rows that were appended, each of
    them in the partition of its hash, for all radix bits, with the fixed size map
    and with an unordered map in any order; a chunk adds its rows in order, and no
    row comes into a partition whose states are finalized.  The vectors of hashes
    may be constant if no chunk has a selection; with selections none may be,
    because the append state keeps the type of a constant vector. *)
Theorem partitioned_rows bits new_bits calls rowss :
  1 <= bits <= MAX_RADIX_BITS -> bits <= new_bits <= MAX_RADIX_BITS ->
  Forall2 call_ok calls rowss ->
  Forall (fun c => call_sel c = None) calls \/ Forall (fun c => call_type c <> CONSTANT_VECTOR) calls ->
  exists d0 d s new_data d' rows',
    PartitionedTupleData_new bits = Some d0 /\
    ofold call_append (d0, AppendState_new d0) calls = Some (d, s) /\
    partitions d = partitioned bits (mjoin rowss) /\
    PartitionedTupleData_new new_bits = Some new_data /\
    Repartition hash chunks d new_data = Some d' /\
    rows' ≡ₚ mjoin rowss /\ partitions d' = partitioned new_bits rows' /\
    forall p finalized h, RepartitionFinalizeStates bits new_bits p = Some finalized ->
      bin new_bits h ∈ finalized <-> bin bits h = p.
Proof.
  intros Hb Hn Hcalls Hsafe.
  destruct (PartitionedTupleData_new_holds bits) as (d0 & E0 & Eb0 & Hd0); [unfold bits_ok; lia |].
  destruct (PartitionedTupleData_new_holds new_bits) as (dn & En & Ebn & Hdn); [unfold bits_ok; lia |].
  pose proof (holds_append_state d0 [] Hd0) as [Hs0 Ht0].
  destruct (calls_append_holds d0 (AppendState_new d0) calls rowss []) as (d & s & E & Eb & Hd);
    [done | done | lia | done | by destruct Hsafe; [left | right] |].
  destruct (Repartition_holds d (mjoin rowss) dn Hd Hdn) as (d' & rows' & E' & Eb' & Hperm & Hd'); [lia |].
  exists d0, d, s, dn, d', rows'. split_and!; [done | done | | done | done | done | |].
  - destruct Hd as (_ & -> & _). by rewrite Eb, Eb0.
  - destruct Hd' as (_ & -> & _). by rewrite Eb', Ebn.
  - intros p finalized h Hf. destruct (decide (bits < new_bits)) as [Hlt |].
    + destruct (RepartitionFinalizeStates_range bits new_bits p) as (f & Ef & Hr);
        [unfold bits_ok; lia | unfold bits_ok; lia | done |].
      rewrite Hf in Ef. injection Ef as ->. apply Hr.
    + unfold RepartitionFinalizeStates in Hf. rewrite (proj2 (Z.ltb_ge _ _)) in Hf by lia. done.
Qed.
End repartition.
End append.

(** ** Witness and examples *)

Definition single_chunk {A} (rows : list A) : list (list A) :=
  (fun r => [r]) <$> rows.

#[export] Instance single_chunk_iterator {A} : ChunkIterator (single_chunk (A := A)).
Proof.
  unfold single_chunk. split; intros rows.
  - induction rows as [| r rows IH]; [done |]. rewrite fmap_cons, mjoin_cons, IH. done.
  - apply Forall_fmap, Forall_forall. intros r _. cbn. unfold STANDARD_VECTOR_SIZE. lia.
  - apply Forall_fmap, Forall_forall. done.
Qed.

(** An order of the unordered map. *)
#[export] Instance gmap_iteration : UnorderedIteration :=
  {| iteration m := (map_to_list m).*1; iteration_keys _ := reflexivity _ |}.

(** Rows whose hash is the row times [2 ^ 36]: 2 radix bits with the fixed size map
    and then 12 with the unordered map. *)
Definition example_hash (r : Z) : Z := r * 2 ^ 36.

Definition example_calls : list (VectorType * list Z * option (list Z) * Z) :=
  [(FLAT_VECTOR, [300; 2309; 4; 3084; 1285], Some [0; 1; 2; 4], 4); (FLAT_VECTOR, [301; 4000], None, 2)].

Lemma partitioned_rows_witness :
  exists d0 d s new_data d' rows',
    PartitionedTupleData_new 2 = Some d0 /\
    ofold (call_append example_hash) (d0, AppendState_new d0) example_calls = Some (d, s) /\
    partitions d = partitioned example_hash 2 [300; 2309; 4; 1285; 301; 4000] /\
    PartitionedTupleData_new 12 = Some new_data /\
    Repartition example_hash single_chunk d new_data = Some d' /\
    rows' ≡ₚ [300; 2309; 4; 1285; 301; 4000] /\ partitions d' = partitioned example_hash 12 rows' /\
    forall p finalized h, RepartitionFinalizeStates 2 12 p = Some finalized ->
      bin 12 h ∈ finalized <-> bin 2 h = p.
Proof.
  apply (partitioned_rows example_hash single_chunk 2 12 example_calls [[300; 2309; 4; 1285]; [301; 4000]]);
    [unfold MAX_RADIX_BITS; lia | unfold MAX_RADIX_BITS; lia | | right; by repeat constructor].
  repeat constructor; unfold STANDARD_VECTOR_SIZE; cbn; (lia || done).
Defined.

(** Both maps put the rows into the same partitions. *)
Example partitions_of_maps :
  (d0 ← PartitionedTupleData_new 9;
   '(d, _) ← ofold (call_append example_hash) (d0, AppendState_new d0) example_calls;
   Some (UseFixedSizeMap d0, omap (fun p => head p) (partitions d))) =
  Some (false, [4; 300; 1285; 2309; 4000]).
Proof. vm_compute. reflexivity. Qed.

(** A chunk with a constant hash and then a selection of rows with other hashes:
    all rows end in the partition of the first selected row. *)
Example stale_constant_indices :
  (d0 ← PartitionedTupleData_new 4;
   '(d, _) ← ofold (call_append example_hash) (d0, AppendState_new d0)
     [(CONSTANT_VECTOR, [300; 300], None, 2); (FLAT_VECTOR, [300; 2309; 4; 1285], Some [0; 1; 3], 3)];
   Some (filter (fun p => p <> []) (partitions d))) = Some [[300; 300; 300; 2309; 1285]] /\
  (bin 4 (example_hash 300), bin 4 (example_hash 2309), bin 4 (example_hash 1285)) = (1, 9, 5).
Proof. split; vm_compute; reflexivity. Qed.
