(* ===== verification/Pruning.v ===== *)
(** * Pruning rows that a rank predicate discards

    The contract of every pruning step of the window operator, which drops rows
    before the window function runs when the query keeps only the rows of rank
    at most [k].  A row is an element of [A], [part] is its PARTITION BY value
    and [ord] its ORDER BY value.

    [prune rk k D K] says that the rows [K] are the rows [D] without rows that the
    rank function [rk] (an instance of [RankFunction]: RANK or DENSE_RANK) gives a
    rank above [k].  It is what a component that prunes promises to the operator
    that evaluates [rk]: by [filter_pruned] the rows the predicate keeps, and by
    [rk_pruned] their ranks, are the same for [K] and for [D].  [prune_trans],
    [prune_app] and [prune_perm] compose the steps of a pipeline and the runs of a
    sort.  Merge Pruning keeps the contract for DENSE_RANK ([safe_prune]), which
    implies the one for RANK; partition pruning keeps the one for RANK only. *)

From stdpp Require Import gmap sets.
From S2P Require Import Prelude.

Section pruning.
Context {A : Type} (part ord : A -> Z).
Implicit Types (D K R : list A) (r x y : A) (k : Z).

(** [x] comes strictly before [r] in the partition of [r]. *)
Definition precedes (r x : A) : Prop := part x = part r /\ ord x < ord r.

#[export] Instance precedes_dec r x : Decision (precedes r x).
Proof. unfold precedes. apply _. Defined.

Definition smaller (D : list A) (r : A) : list A := filter (precedes r) D.

Definition rank (D : list A) (r : A) : Z := 1 + Z.of_nat (length (smaller D r)).

(** The distinct ORDER BY values that come before [r]. *)
Definition smaller_ords (D : list A) (r : A) : gset Z := list_to_set (ord <$> smaller D r).

Definition dense_rank (D : list A) (r : A) : Z := 1 + Z.of_nat (size (smaller_ords D r)).

(** ** Ranks *)

Lemma elem_of_smaller D r x : x ∈ smaller D r <-> x ∈ D /\ precedes r x.
Proof. unfold smaller. rewrite list_elem_of_filter. tauto. Qed.

Lemma elem_of_smaller_ords D r v :
  v ∈ smaller_ords D r <-> exists x, x ∈ D /\ precedes r x /\ ord x = v.
Proof.
  unfold smaller_ords. rewrite elem_of_list_to_set, list_elem_of_fmap.
  setoid_rewrite elem_of_smaller. naive_solver.
Qed.

#[global] Instance smaller_proper : Proper (Permutation ==> eq ==> Permutation) smaller.
Proof. intros D D' HD r ? <-. unfold smaller. by rewrite HD. Qed.

#[global] Instance rank_proper : Proper (Permutation ==> eq ==> eq) rank.
Proof. intros D D' HD r ? <-. unfold rank. by rewrite HD. Qed.

#[global] Instance dense_rank_proper : Proper (Permutation ==> eq ==> eq) dense_rank.
Proof.
  intros D D' HD r ? <-. unfold dense_rank. do 3 f_equal. apply set_eq. intros v.
  rewrite !elem_of_smaller_ords. by setoid_rewrite HD.
Qed.

Lemma dense_rank_mono D D' r r' :
  (forall x, x ∈ D -> precedes r x -> exists x', x' ∈ D' /\ precedes r' x' /\ ord x' = ord x) ->
  dense_rank D r <= dense_rank D' r'.
Proof.
  intros H. unfold dense_rank.
  assert (smaller_ords D r ⊆ smaller_ords D' r') as Hs%subseteq_size; [| lia].
  intros v. rewrite !elem_of_smaller_ords. intros (x & Hx & Hp & <-). by apply H.
Qed.

Lemma dense_rank_app_l D D' r : dense_rank D r <= dense_rank (D ++ D') r.
Proof. apply dense_rank_mono. intros x Hx Hp. exists x. rewrite elem_of_app. auto. Qed.

Lemma dense_rank_app_r D D' r : dense_rank D' r <= dense_rank (D ++ D') r.
Proof. apply dense_rank_mono. intros x Hx Hp. exists x. rewrite elem_of_app. auto. Qed.

Lemma size_list_to_set_le (l : list Z) : (size (list_to_set l : gset Z) <= length l)%nat.
Proof.
  induction l as [| x l IH]; [by rewrite list_to_set_nil, size_empty |].
  rewrite list_to_set_cons. cbn [length].
  pose proof (size_union_alt {[x]} (list_to_set l : gset Z)) as E. rewrite E, size_singleton.
  assert (size (list_to_set l ∖ {[x]} : gset Z) <= size (list_to_set l : gset Z))%nat
    by (apply subseteq_size; set_solver). lia.
Qed.

Lemma dense_rank_le_rank D r : dense_rank D r <= rank D r.
Proof.
  unfold dense_rank, rank, smaller_ords.
  pose proof (size_list_to_set_le (ord <$> smaller D r)) as H. rewrite length_fmap in H. lia.
Qed.

(** ** Rank functions *)

(** A rank depends on the rows that come before a row, and grows with them. *)
Class RankFunction (rk : list A -> A -> Z) : Prop := {
  rk_smaller : forall D K r, smaller K r ≡ₚ smaller D r -> rk K r = rk D r;
  rk_precedes : forall D r x, precedes r x -> rk D x <= rk D r;
  rk_app : forall D D' r, rk D r <= rk (D ++ D') r
}.

#[export] Instance dense_rank_function : RankFunction dense_rank.
Proof.
  split.
  - intros D K r H. unfold dense_rank, smaller_ords. do 3 f_equal. apply set_eq. intros v.
    rewrite !elem_of_list_to_set, !list_elem_of_fmap. by setoid_rewrite H.
  - intros D r x [Hp Ho]. apply dense_rank_mono. intros y Hy [Hyp Hyo]. exists y. split; [done |].
    split; [split; congruence || lia | done].
  - apply dense_rank_app_l.
Qed.

#[export] Instance rank_function : RankFunction rank.
Proof.
  split.
  - intros D K r H. unfold rank. by rewrite H.
  - intros D r x [Hp Ho]. unfold rank, smaller.
    assert (length (filter (precedes x) D) <= length (filter (precedes r) D))%nat; [| lia].
    induction D as [| y D IH]; [done |]. rewrite !filter_cons. unfold precedes in *.
    repeat case_decide; cbn [length]; lia.
  - intros D D' r. unfold rank, smaller. rewrite filter_app, length_app. lia.
Qed.

Definition prune (rk : list A -> A -> Z) (k : Z) (D K : list A) : Prop :=
  exists R, D ≡ₚ K ++ R /\ Forall (fun r => k < rk D r) R.

Definition safe_prune : Z -> list A -> list A -> Prop := prune dense_rank.

Section rank_function.
Context (rk : list A -> A -> Z) `{!RankFunction rk}.

#[global] Instance rk_proper : Proper (Permutation ==> eq ==> eq) rk.
Proof. intros D D' HD r ? <-. apply rk_smaller. by rewrite HD. Qed.

Lemma rk_app_r D D' r : rk D' r <= rk (D ++ D') r.
Proof. rewrite (rk_proper _ _ (Permutation_app_comm D D') r r eq_refl). apply rk_app. Qed.

(** ** What pruning preserves *)

Section pruned.
Context {k : Z} {D K R : list A}.
Context (HD : D ≡ₚ K ++ R) (HR : Forall (fun r => k < rk D r) R).

Lemma dropped_rank x : x ∈ R -> k < rk D x.
Proof. rewrite Forall_forall in HR. apply HR. Qed.

(** No row that comes before a row of rank at most [k] is dropped. *)
Lemma smaller_pruned r : rk D r <= k -> smaller K r ≡ₚ smaller D r.
Proof.
  intros Hr. rewrite HD. unfold smaller. rewrite filter_app.
  rewrite (filter_Forall_nil _ R); [by rewrite app_nil_r |].
  apply Forall_forall. intros x Hx Hp. apply dropped_rank in Hx.
  pose proof (rk_precedes D r x Hp). lia.
Qed.

Lemma smaller_shorter r x : x ∈ R -> precedes r x -> (length (smaller D x) < length (smaller D r))%nat.
Proof.
  intros Hx [Hp Ho].
  assert (x :: smaller D x ⊆+ smaller D r) as Hs%submseteq_length; [| cbn in Hs; lia].
  rewrite HD. unfold smaller. apply elem_of_Permutation in Hx as [R' ->].
  rewrite (Permutation_app_comm K), <- app_comm_cons. rewrite (filter_cons_True (precedes r)) by done.
  rewrite (filter_cons_False (precedes x)) by (unfold precedes; lia).
  apply submseteq_skip. generalize (R' ++ K). intros l.
  induction l as [| y l IHl]; [done |]. rewrite !filter_cons.
  unfold precedes at 1. repeat case_decide; unfold precedes in *.
  - by apply submseteq_skip.
  - lia.
  - by apply submseteq_cons.
  - done.
Qed.

(** A row whose rank is above [k] stays above [k]. *)
Lemma rk_pruned_above r : k < rk D r -> k < rk K r.
Proof.
  remember (length (smaller D r)) as n eqn:Hn. revert r Hn.
  induction (lt_wf n) as [n _ IH]. intros r Hn Hr.
  destruct (decide (Exists (precedes r) R)) as [Hex | Hno].
  - apply Exists_exists in Hex as (x & Hx & Hp).
    assert (k < rk K x) as Hk.
    { eapply IH; [| done | by apply dropped_rank]. subst n. by apply smaller_shorter. }
    pose proof (rk_precedes K r x Hp). lia.
  - assert (rk K r = rk D r) as ->; [| done]. apply rk_smaller. rewrite HD. unfold smaller. rewrite filter_app.
    rewrite (filter_Forall_nil _ R); [by rewrite app_nil_r |].
    apply Forall_forall. intros x Hx Hp. apply Hno, Exists_exists. eauto.
Qed.

Lemma rk_pruned r : rk D r <= k -> rk K r = rk D r.
Proof. intros Hr. by apply rk_smaller, smaller_pruned. Qed.

Lemma rk_pruned_iff r : rk K r <= k <-> rk D r <= k.
Proof.
  split; intros H.
  - destruct (decide (rk D r <= k)) as [| Hn]; [done |]. pose proof (rk_pruned_above r). lia.
  - by rewrite rk_pruned.
Qed.
End pruned.

(** ** The contract *)

(** The rows that a predicate on the rank keeps. *)
Lemma filter_pruned k D K :
  prune rk k D K -> filter (fun r => rk K r <= k) K ≡ₚ filter (fun r => rk D r <= k) D.
Proof.
  intros (R & HD & HR).
  rewrite (filter_Permutation (fun r => rk D r <= k) D (K ++ R)), filter_app by done.
  rewrite (filter_Forall_nil _ R), app_nil_r
    by (eapply Forall_impl; [exact HR |]; cbn; intros; lia).
  erewrite list_filter_iff; [done |]. intros r. by apply (rk_pruned_iff HD HR).
Qed.

(** ... and the ranks they get. *)
Lemma pruned_rank k D K r : prune rk k D K -> rk K r <= k -> rk K r = rk D r.
Proof. intros (R & HD & HR) Hr%(rk_pruned_iff HD HR). by apply (rk_pruned HD HR). Qed.

Lemma pruned_smaller k D K r : prune rk k D K -> rk K r <= k -> smaller K r ≡ₚ smaller D r.
Proof. intros (R & HD & HR) Hr%(rk_pruned_iff HD HR). by apply (smaller_pruned HD HR). Qed.

Lemma prune_refl k D : prune rk k D D.
Proof. exists []. by rewrite app_nil_r. Qed.

Lemma prune_perm k D D' K K' : D ≡ₚ D' -> K ≡ₚ K' -> prune rk k D K -> prune rk k D' K'.
Proof.
  intros HD HK (R & HR & HF). exists R. split; [by rewrite <- HD, <- HK |].
  eapply Forall_impl; [exact HF |]. intros r. cbn. by rewrite HD.
Qed.

Lemma prune_trans k D K K' : prune rk k D K -> prune rk k K K' -> prune rk k D K'.
Proof.
  intros (R & HD & HR) (R' & HK & HR'). exists (R' ++ R). split.
  - by rewrite HD, HK, app_assoc.
  - apply Forall_app. split; [| done]. eapply Forall_impl; [exact HR' |].
    intros r Hr. cbn in Hr. pose proof (rk_app K R r). rewrite HD. lia.
Qed.

Lemma prune_app k D D' K K' :
  prune rk k D K -> prune rk k D' K' -> prune rk k (D ++ D') (K ++ K').
Proof.
  intros (R & HD & HR) (R' & HD' & HR'). exists (R ++ R'). split.
  - rewrite HD, HD'. rewrite <- !app_assoc. apply Permutation_app_head.
    rewrite !app_assoc. apply Permutation_app_tail, Permutation_app_comm.
  - apply Forall_app. split.
    + eapply Forall_impl; [exact HR |]. intros r Hr. cbn in Hr. pose proof (rk_app D D' r). lia.
    + eapply Forall_impl; [exact HR' |]. intros r Hr. cbn in Hr. pose proof (rk_app_r D D' r). lia.
Qed.

Lemma prune_concat k Ds Ks : Forall2 (prune rk k) Ds Ks -> prune rk k (mjoin Ds) (mjoin Ks).
Proof.
  induction 1 as [| D K Ds Ks H _ IH]; [apply prune_refl |].
  cbn [mjoin list_join]. by apply prune_app.
Qed.

(** A filter that keeps the rows of rank at most [k] is safe. *)
Lemma prune_filter k (P : A -> Prop) `{!forall x, Decision (P x)} D :
  (forall r, r ∈ D -> rk D r <= k -> P r) -> prune rk k D (filter P D).
Proof.
  intros HP. exists (filter (fun r => ~ P r) D). split; [by rewrite filter_app_complement |].
  apply Forall_forall. intros r [Hr Hin]%list_elem_of_filter.
  destruct (decide (rk D r <= k)); [| lia]. destruct Hr. by apply HP.
Qed.
End rank_function.

(** What is safe for DENSE_RANK is safe for RANK. *)
Lemma safe_prune_rank k D K : safe_prune k D K -> prune rank k D K.
Proof.
  intros (R & HD & HR). exists R. split; [done |]. eapply Forall_impl; [exact HR |].
  intros r Hr. cbn in Hr. pose proof (dense_rank_le_rank D r). lia.
Qed.
End pruning.

(** The partition matters only up to equality on the rows. *)
Lemma rank_part_ext {A} (part part' ord : A -> Z) D r :
  (forall x, x ∈ D -> part x = part r <-> part' x = part' r) ->
  rank part ord D r = rank part' ord D r.
Proof.
  intros H. unfold rank, smaller. do 3 f_equal.
  induction D as [| x D IH]; [done |]. rewrite !filter_cons.
  pose proof (H x ltac:(by left)). rewrite IH by (intros; apply H; by right).
  unfold precedes. repeat case_decide; tauto || done.
Qed.

Section sorted.
Context {A : Type} (part ord : A -> Z).
Implicit Types (D : list A) (x y : A).

Abbreviation dense_rank := (dense_rank part ord).

(** ** Dense ranks in a sorted list *)

Definition key_le (x y : A) : Prop :=
  part x < part y \/ part x = part y /\ ord x <= ord y.

Lemma dense_rank_new D x :
  (forall y, y ∈ D -> part y <> part x) -> dense_rank D x = 1.
Proof.
  intros H. unfold Pruning.dense_rank.
  replace (smaller_ords part ord D x) with (∅ : gset Z); [by rewrite size_empty |].
  apply set_eq. intros v. rewrite elem_of_smaller_ords. split; [set_solver |].
  intros (y & Hy & [Hp _] & _). by destruct (H y).
Qed.

Lemma dense_rank_same D x y :
  part x = part y -> ord x = ord y -> dense_rank D x = dense_rank D y.
Proof.
  intros Hp Ho. apply Z.le_antisymm; apply dense_rank_mono;
    intros z Hz [? ?]; exists z; (split; [done | split; [split; congruence | done]]).
Qed.

Lemma dense_rank_next D x y :
  y ∈ D -> part x = part y -> ord y < ord x ->
  (forall z, z ∈ D -> part z = part y -> ord z <= ord y) ->
  dense_rank D x = dense_rank D y + 1.
Proof.
  intros Hy Hp Ho Hmax. unfold Pruning.dense_rank.
  replace (smaller_ords part ord D x) with ({[ord y]} ∪ smaller_ords part ord D y).
  - rewrite size_union, size_singleton; [lia |]. apply disjoint_singleton_l.
    rewrite elem_of_smaller_ords. intros (z & _ & [_ Hz] & E). lia.
  - apply set_eq. intros v. rewrite elem_of_union, elem_of_singleton, !elem_of_smaller_ords.
    split.
    + intros [-> | (z & Hz & [? ?] & <-)]; [exists y | exists z];
        (split; [done | split; [split; lia || congruence | done]]).
    + intros (z & Hz & [? ?] & <-). pose proof (Hmax z Hz ltac:(congruence)).
      destruct (decide (ord z = ord y)); [by left | right]. exists z.
      split; [done | split; [split; lia || congruence | done]].
Qed.

Lemma dense_rank_ge_1 D x : 1 <= dense_rank D x.
Proof. unfold Pruning.dense_rank. lia. Qed.

(** Rows that do not come before [x] do not count. *)
Lemma dense_rank_app_after D D' x :
  (forall y, y ∈ D' -> key_le x y) -> dense_rank (D ++ D') x = dense_rank D x.
Proof.
  intros H. apply Z.le_antisymm; [| apply dense_rank_app_l].
  apply dense_rank_mono. intros y [Hy | Hy]%elem_of_app Hp; [by exists y |].
  destruct Hp as [? ?]. destruct (H y Hy); lia.
Qed.
End sorted.
