(* ===== verification/Sort.v ===== *)
(** * The sort operator

    common/sort/sort.cpp and common/sort/sorted_run.cpp: every thread appends its
    rows to a run of its own, which it sorts and hands over when the run is larger
    than its share of the memory reservation (an external sort) or at the end; the
    runs are the input of the merger (SortedRunMerger).  A row is an element of
    [A], the key and the payload that the run stores; what the layouts of keys and
    payloads do to the columns of a row is in the section on columns.

    A thread runs from one critical section to the next.  [TemporaryMemoryState]
    answers a request with a reservation that depends on the rest of the database,
    so every request takes the answer from the environment, and the theorems hold
    for all answers.  A result of [None] is a failed assertion or a loop that does
    not end. *)

From S2P Require Import Prelude.

(** ** Expressions and columns *)

Section expressions.
Context {V E LogicalType : Type}.

Inductive Expression :=
  | BOUND_REF (return_type : LogicalType) (index : Z)
  | OTHER (return_type : LogicalType) (e : E).

Definition return_type (x : Expression) : LogicalType :=
  match x with BOUND_REF t _ | OTHER t _ => t end.

Record BoundOrderByNode := {
  order_type : OrderType;
  null_order : OrderByNullType;
  order_expression : Expression
}.

Context (eval : E -> list V -> V).

Definition eval_expression (x : Expression) (row : list V) : option V :=
  match x with
  | BOUND_REF _ index => zload row index
  | OTHER _ e => Some (eval e row)
  end.
End expressions.
Arguments Expression : clear implicits.
Arguments BoundOrderByNode : clear implicits.

(** ** Layouts of keys and payloads *)

Record SortProjectionColumn := {
  is_payload : bool;
  layout_col_idx : Z;
  output_col_idx : Z
}.

(** The order in which the columns are gathered. *)
Definition projection_le (lhs rhs : SortProjectionColumn) : Prop :=
  if eqb (is_payload lhs) (is_payload rhs) then layout_col_idx lhs <= layout_col_idx rhs
  else is_payload lhs = false.

#[export] Instance projection_le_dec lhs rhs : Decision (projection_le lhs rhs).
Proof. unfold projection_le. destruct (eqb _ _); apply _. Defined.

Section layout.
Context {V E LogicalType : Type}.

Record SortLayout := {
  payload_layout : list LogicalType;
  input_projection_map : list Z;
  output_projection_columns : list SortProjectionColumn
}.

(** [emplace] keeps the first key of an input column. *)
Definition input_column_to_key (orders : list (BoundOrderByNode E LogicalType)) : gmap Z Z :=
  foldl (fun m '(key_idx, order) =>
    match order_expression order with
    | BOUND_REF _ index =>
        match m !! index with None => <[index := Z.of_nat key_idx]> m | Some _ => m end
    | OTHER _ _ => m
    end) ∅ (imap pair orders).

(** One output column. *)
Definition project_column (keys : gmap Z Z) (input_types : list LogicalType)
    (s : SortLayout) (column : nat * Z) : option SortLayout :=
  let '(output_col, input_col_idx) := column in
  match keys !! input_col_idx with
  | Some key_idx =>
      Some {| payload_layout := payload_layout s; input_projection_map := input_projection_map s;
              output_projection_columns := output_projection_columns s ++
                [{| is_payload := false; layout_col_idx := key_idx; output_col_idx := Z.of_nat output_col |}] |}
  | None =>
      type ← zload input_types input_col_idx;
      Some {| payload_layout := payload_layout s ++ [type];
              input_projection_map := input_projection_map s ++ [input_col_idx];
              output_projection_columns := output_projection_columns s ++
                [{| is_payload := true; layout_col_idx := Z.of_nat (length (payload_layout s));
                    output_col_idx := Z.of_nat output_col |}] |}
  end.

(** All input columns, if no projection is given. *)
Definition fill_projection (input_types : list LogicalType) (projection_map : list Z) : list Z :=
  match projection_map with
  | [] => zrange 0 (Z.of_nat (length input_types))
  | _ => projection_map
  end.

Definition Sort_new (orders : list (BoundOrderByNode E LogicalType)) (input_types : list LogicalType)
    (projection_map : list Z) : option SortLayout :=
  s ← ofold (project_column (input_column_to_key orders) input_types)
        {| payload_layout := []; input_projection_map := []; output_projection_columns := [] |}
        (imap pair (fill_projection input_types projection_map));
  Some {| payload_layout := payload_layout s; input_projection_map := input_projection_map s;
          output_projection_columns := merge_sort projection_le (output_projection_columns s) |}.

(** The columns of the key and of the payload of a row in [Sink]. *)
Context (eval : E -> list V -> V).

Definition key_row (orders : list (BoundOrderByNode E LogicalType)) (row : list V) : option (list V) :=
  mapM (fun order => eval_expression eval (order_expression order) row) orders.

Definition sort_payload_row (s : SortLayout) (row : list V) : option (list V) :=
  mapM (zload row) (input_projection_map s).

(** [TemplatedScan] of one row: the columns of the decoded key up to the first
    column of the payload, then the columns of the payload. *)
Fixpoint scan_key (opcs : list SortProjectionColumn) (decoded_key : list V) (chunk : list (option V))
    : option (list (option V) * list SortProjectionColumn) :=
  match opcs with
  | [] => Some (chunk, [])
  | opc :: rest =>
      if is_payload opc then Some (chunk, opcs)
      else
        v ← zload decoded_key (layout_col_idx opc);
        chunk ← zstore chunk (output_col_idx opc) (Some v);
        scan_key rest decoded_key chunk
  end.

Fixpoint scan_payload (opcs : list SortProjectionColumn) (payload : list V) (chunk : list (option V))
    : option (list (option V)) :=
  match opcs with
  | [] => Some chunk
  | opc :: rest =>
      if is_payload opc then
        v ← zload payload (layout_col_idx opc);
        chunk ← zstore chunk (output_col_idx opc) (Some v);
        scan_payload rest payload chunk
      else None
  end.

Definition TemplatedScan (s : SortLayout) (decoded_key payload : list V) : option (list (option V)) :=
  let opcs := output_projection_columns s in
  let chunk := replicate (length opcs) None in
  first ← head opcs;
  '(chunk, rest) ← (if is_payload first then Some (chunk, opcs) else scan_key opcs decoded_key chunk);
  scan_payload rest payload chunk.
End layout.
Arguments SortLayout : clear implicits.

(** ** The interface

    What the hashed sort uses of the sort operator: global and local sink states and
    the calls on them; [Env] is what the environment decides in a call. *)

Record SortOps (R : Type) := {
  GSink : Type;
  LSink : Type;
  Env : Type;
  sort_global_new : GSink;
  sort_local_new : LSink;
  sort_sink : Env -> GSink -> LSink -> list R -> option (GSink * LSink);
  sort_combine : Env -> GSink -> LSink -> option GSink;
  sort_finalize : GSink -> GSink
}.
Arguments GSink {R}.
Arguments LSink {R}.
Arguments Env {R}.
Arguments sort_global_new {R}.
Arguments sort_local_new {R}.
Arguments sort_sink {R}.
Arguments sort_combine {R}.
Arguments sort_finalize {R}.

(** Its promise: with the local states [ls] that threads hold, no call fails and no
    row is lost or added, if a thread holds at most [sort_max_rows] rows. *)
Class SortSinkLaws {R : Type} (ops : SortOps R) := {
  global_rows : GSink ops -> list R;
  local_rows : LSink ops -> list R;
  sort_max_rows : Z;
  sort_inv : GSink ops -> list (LSink ops) -> Prop;
  sort_inv_new : sort_inv (sort_global_new ops) [];
  sort_inv_local : forall g ls, sort_inv g ls -> sort_inv g (sort_local_new ops :: ls);
  sort_inv_perm : forall g ls ls', ls ≡ₚ ls' -> sort_inv g ls -> sort_inv g ls';
  global_rows_new : global_rows (sort_global_new ops) = [];
  local_rows_new : local_rows (sort_local_new ops) = [];
  sort_sink_rows : forall env g l ls chunk,
    sort_inv g (l :: ls) -> Z.of_nat (length (local_rows l) + length chunk) <= sort_max_rows ->
    exists g' l', sort_sink ops env g l chunk = Some (g', l') /\ sort_inv g' (l' :: ls) /\
      global_rows g' ++ local_rows l' ≡ₚ global_rows g ++ local_rows l ++ chunk /\
      (length (local_rows l') <= length (local_rows l) + length chunk)%nat;
  sort_combine_rows : forall env g l ls,
    sort_inv g (l :: ls) ->
    exists g', sort_combine ops env g l = Some g' /\ sort_inv g' ls /\
      global_rows g' ≡ₚ global_rows g ++ local_rows l;
  sort_finalize_rows : forall g, sort_inv g [] -> global_rows (sort_finalize ops g) = global_rows g
}.

(** ** Sorted runs *)

Record SortedRun {A : Type} := {
  run_rows : list A;
  finalized : bool;
  (* the argument of [Finalize]: the data was reordered and can be unpinned *)
  run_external : bool
}.
Arguments SortedRun : clear implicits.

Definition SortedRun_new {A} : SortedRun A :=
  {| run_rows := []; finalized := false; run_external := false |}.

(** The chunks of a run that [DestroyData] destroys. *)
Definition DestroyData (tuple_idx_begin tuple_idx_end : Z) : option (Z * Z) :=
  let chunk_idx_start := tuple_idx_begin / STANDARD_VECTOR_SIZE in
  let chunk_idx_end := tuple_idx_end / STANDARD_VECTOR_SIZE in
  if chunk_idx_start =? chunk_idx_end then None else Some (chunk_idx_start, chunk_idx_end).

(** ** Global and local state of the sink *)

Record SortGlobalSinkState {A : Type} := {
  (* of the temporary memory state *)
  remaining_size : Z;
  reservation : Z;
  sg_sorted_runs : list (SortedRun A);
  sorted_tuples : Z;
  sg_external : bool;
  any_combined : bool;
  sg_total_count : Z;
  sg_partition_size : Z
}.
Arguments SortGlobalSinkState : clear implicits.

Record SortLocalSinkState {A : Type} := {
  sorted_run : option (SortedRun A);
  maximum_run_size : Z;
  sl_external : bool
}.
Arguments SortLocalSinkState : clear implicits.

Section sort.
Context {A : Type}.
(** [SizeInBytes] of the rows of a run, the sort of its keys, and the configuration. *)
Context (SizeInBytes : list A -> Z) (sort_run : list A -> list A).
Context (is_index_sort force_external verify_parallelism : bool).
Context (num_threads minimum_reservation : Z).

Abbreviation run := (SortedRun A).
Abbreviation global := (SortGlobalSinkState A).
Abbreviation local := (SortLocalSinkState A).

Definition SortedRun_Sink (chunk : list A) (r : run) : option run :=
  if finalized r then None
  else Some {| run_rows := run_rows r ++ chunk; finalized := false; run_external := run_external r |}.

Definition SortedRun_Finalize (external : bool) (r : run) : option run :=
  if finalized r then None
  else Some {| run_rows := sort_run (run_rows r); finalized := true; run_external := external |}.

Definition SortGlobalSinkState_new : global :=
  {| remaining_size := minimum_reservation; reservation := minimum_reservation;
     sg_sorted_runs := []; sorted_tuples := 0; sg_external := force_external; any_combined := false;
     sg_total_count := 0; sg_partition_size := 0 |}.

Definition SortLocalSinkState_new : local :=
  {| sorted_run := None; maximum_run_size := 0; sl_external := false |}.

Definition InitializeSortedRun (l : local) : option local :=
  match sorted_run l with
  | Some _ => None
  | None => Some {| sorted_run := Some SortedRun_new; maximum_run_size := maximum_run_size l;
                    sl_external := sl_external l |}
  end.

Definition UpdateLocalState (g : global) (l : local) : local :=
  {| sorted_run := sorted_run l; maximum_run_size := reservation g / num_threads;
     sl_external := sg_external g |}.

Definition set_external (g : global) : global :=
  {| remaining_size := remaining_size g; reservation := reservation g; sg_sorted_runs := sg_sorted_runs g;
     sorted_tuples := sorted_tuples g; sg_external := sg_external g || negb (any_combined g);
     any_combined := any_combined g; sg_total_count := sg_total_count g;
     sg_partition_size := sg_partition_size g |}.

(** [SetRemainingSizeAndUpdateReservation] with the answer of the memory manager. *)
Definition request_reservation (request answer : Z) (g : global) : option global :=
  if request =? 0 then None
  else Some {| remaining_size := request; reservation := answer; sg_sorted_runs := sg_sorted_runs g;
               sorted_tuples := sorted_tuples g; sg_external := sg_external g;
               any_combined := any_combined g; sg_total_count := sg_total_count g;
               sg_partition_size := sg_partition_size g |}.

(** [while (request < required) request *= 2]; 64 doublings are enough unless the
    request has become 0. *)
Fixpoint double_request (fuel : nat) (required request : Z) : option Z :=
  if request <? required then
    match fuel with
    | O => None
    | S fuel => double_request fuel required (u64 (request * 2))
    end
  else Some request.

Definition required_memory (r : run) : Z :=
  let required := u64 (num_threads * SizeInBytes (run_rows r)) in
  if is_index_sort then u64 (required * 4) else required.

Definition TryIncreaseReservation (answer : Z) (g : global) (l : local) : option global :=
  if sg_external g then None
  else if reservation g <? remaining_size g then Some (set_external g)
  else
    r ← sorted_run l;
    let required := required_memory r in
    request ← double_request 64 required (u64 (remaining_size g * 2));
    g ← request_reservation request answer g;
    Some (if reservation g <? required then set_external g else g).

Definition AddSortedRun (g : global) (l : local) : option (global * local) :=
  r ← sorted_run l;
  Some ({| remaining_size := remaining_size g; reservation := reservation g;
           sg_sorted_runs := sg_sorted_runs g ++ [r];
           sorted_tuples := sorted_tuples g + Z.of_nat (length (run_rows r));
           sg_external := sg_external g; any_combined := any_combined g;
           sg_total_count := sg_total_count g; sg_partition_size := sg_partition_size g |},
        {| sorted_run := None; maximum_run_size := maximum_run_size l; sl_external := sl_external l |}).

Definition set_run (r : run) (l : local) : local :=
  {| sorted_run := Some r; maximum_run_size := maximum_run_size l; sl_external := sl_external l |}.

(** Where a thread is: before its next chunk; before it takes the lock in [Sink];
    before [AddSortedRun] of [Sink]; in [Combine] before the last sort and before
    [AddSortedRun]; at the end. *)
Inductive SortPc : Set := sinking | locking | adding | finalizing | adding_last | done_sinking.

(** [TryFinishSink] up to [AddSortedRun]: [None] in the second component means
    that the sink is not done. *)
Definition TryFinishSink (l : local) : option (local * option SortPc) :=
  r ← sorted_run l;
  if SizeInBytes (run_rows r) <? maximum_run_size l then Some (l, Some sinking)
  else if sl_external l then
    r ← SortedRun_Finalize true r;
    Some (set_run r l, Some adding)
  else Some (l, None).

(** [Sink] up to the lock. *)
Definition sink_chunk (g : global) (l : local) (chunk : list A) : option (local * SortPc) :=
  l ← (match sorted_run l with
       | None => UpdateLocalState g <$> InitializeSortedRun l
       | Some _ => Some l
       end);
  r ← sorted_run l;
  r ← SortedRun_Sink chunk r;
  '(l, pc) ← TryFinishSink (set_run r l);
  Some (l, default locking pc).

(** [Sink] under the lock, and what follows it up to [AddSortedRun]. *)
Definition sink_locked (answer : Z) (g : global) (l : local) : option (global * local * SortPc) :=
  '(l, pc) ← TryFinishSink (UpdateLocalState g l);
  match pc with
  | Some pc => Some (g, l, pc)
  | None =>
      g ← TryIncreaseReservation answer g l;
      '(l, pc) ← TryFinishSink (UpdateLocalState g l);
      Some (g, l, default sinking pc)
  end.

Definition set_any_combined (g : global) : global :=
  {| remaining_size := remaining_size g; reservation := reservation g; sg_sorted_runs := sg_sorted_runs g;
     sorted_tuples := sorted_tuples g; sg_external := sg_external g; any_combined := true;
     sg_total_count := sg_total_count g; sg_partition_size := sg_partition_size g |}.

(** ** Threads *)

Record SortThread := {
  st_input : list (list A);
  st_pc : SortPc;
  st_local : local
}.

Definition sort_thread_step (answer : Z) (g : global) (t : SortThread) : option (global * SortThread) :=
  let l := st_local t in
  match st_pc t with
  | sinking =>
      match st_input t with
      | chunk :: input =>
          '(l, pc) ← sink_chunk g l chunk;
          Some (g, {| st_input := input; st_pc := pc; st_local := l |})
      | [] =>
          match sorted_run l with
          | None => Some (g, {| st_input := []; st_pc := done_sinking; st_local := l |})
          | Some _ => Some (set_any_combined g, {| st_input := []; st_pc := finalizing; st_local := l |})
          end
      end
  | locking =>
      '(g, l, pc) ← sink_locked answer g l;
      Some (g, {| st_input := st_input t; st_pc := pc; st_local := l |})
  | adding =>
      '(g, l) ← AddSortedRun g l;
      Some (g, {| st_input := st_input t; st_pc := sinking; st_local := l |})
  | finalizing =>
      r ← sorted_run l;
      r ← SortedRun_Finalize (sg_external g) r;
      Some (g, {| st_input := st_input t; st_pc := adding_last; st_local := set_run r l |})
  | adding_last =>
      '(g, l) ← AddSortedRun g l;
      Some (g, {| st_input := st_input t; st_pc := done_sinking; st_local := l |})
  | done_sinking => Some (g, t)
  end.

Record SortSystem := {
  ss_global : global;
  ss_threads : list SortThread
}.

Definition sort_system_step (s : SortSystem) (c : nat * Z) : option SortSystem :=
  t ← ss_threads s !! fst c;
  '(g, t) ← sort_thread_step (snd c) (ss_global s) t;
  Some {| ss_global := g; ss_threads := <[fst c := t]> (ss_threads s) |}.

Definition SortSystem_new (inputs : list (list (list A))) : SortSystem :=
  {| ss_global := SortGlobalSinkState_new;
     ss_threads := (fun input => {| st_input := input; st_pc := sinking;
                                      st_local := SortLocalSinkState_new |}) <$> inputs |}.

Definition run_sort (inputs : list (list (list A))) (schedule : list (nat * Z)) : option SortSystem :=
  ofold sort_system_step (SortSystem_new inputs) schedule.

(** ** Finalize *)

Definition DEFAULT_ROW_GROUP_SIZE : Z := 122880.

Definition set_counts (total_count partition_size : Z) (g : global) : global :=
  {| remaining_size := remaining_size g; reservation := reservation g; sg_sorted_runs := sg_sorted_runs g;
     sorted_tuples := sorted_tuples g; sg_external := sg_external g; any_combined := any_combined g;
     sg_total_count := total_count; sg_partition_size := partition_size |}.

(** Whether there can be output, and the state. *)
Definition Sort_Finalize (g : global) : bool * global :=
  match sg_sorted_runs g with
  | [] => (false, g)
  | _ =>
      let total_count :=
        foldl (fun total r => total + Z.of_nat (length (run_rows r))) (sg_total_count g) (sg_sorted_runs g) in
      (true, set_counts total_count
               (if (num_threads =? 1) || verify_parallelism then STANDARD_VECTOR_SIZE
                else Z.min total_count DEFAULT_ROW_GROUP_SIZE) g)
  end.

(** ** The calls of one thread without interruption *)

(** [Sink] with the answer to its request. *)
Definition Sort_Sink (answer : Z) (g : global) (l : local) (chunk : list A) : option (global * local) :=
  '(l, pc) ← sink_chunk g l chunk;
  '(g, l, pc) ← (match pc with
                 | locking => sink_locked answer g l
                 | _ => Some (g, l, pc)
                 end);
  match pc with
  | adding => AddSortedRun g l
  | _ => Some (g, l)
  end.

Definition Sort_Combine (g : global) (l : local) : option (global * local) :=
  match sorted_run l with
  | None => Some (g, l)
  | Some r =>
      let g := set_any_combined g in
      r ← SortedRun_Finalize (sg_external g) r;
      AddSortedRun g (set_run r l)
  end.

Definition Sort_ops : SortOps A := {|
  GSink := global; LSink := local; Env := Z;
  sort_global_new := SortGlobalSinkState_new;
  sort_local_new := SortLocalSinkState_new;
  sort_sink := Sort_Sink;
  sort_combine _ g l := fst <$> Sort_Combine g l;
  sort_finalize g := snd (Sort_Finalize g)
|}.
End sort.

(** ** Layouts: theorems *)

Section layout_theorems.
Context {V E LogicalType : Type} (eval : E -> list V -> V).
Implicit Types (orders : list (BoundOrderByNode E LogicalType)) (row : list V).

Definition refers_to orders (key_idx col : Z) : Prop :=
  exists order t, zload orders key_idx = Some order /\ order_expression order = BOUND_REF t col.

Lemma input_column_to_key_ok orders col key_idx :
  input_column_to_key orders !! col = Some key_idx -> refers_to orders key_idx col.
Proof.
  unfold input_column_to_key.
  assert (forall l (m : gmap Z Z), Forall (fun p => orders !! p.1 = Some p.2) l ->
    (forall c k, m !! c = Some k -> refers_to orders k c) ->
    forall c k, foldl (fun m '(key_idx, order) =>
      match order_expression order with
      | BOUND_REF _ index =>
          match m !! index with None => <[index := Z.of_nat key_idx]> m | Some _ => m end
      | OTHER _ _ => m
      end) m l !! c = Some k -> refers_to orders k c) as H.
  { induction l as [| [i o] l IH]; intros m Hl Hm; [exact Hm |].
    apply Forall_cons in Hl as [Ho Hl]. cbn [foldl]. apply IH; [done |].
    intros c k. destruct (order_expression o) as [t index |] eqn:Eo; [| apply Hm].
    destruct (m !! index) eqn:Em; [apply Hm |].
    destruct (decide (index = c)) as [-> |]; [| rewrite lookup_insert_ne by done; apply Hm].
    rewrite lookup_insert_eq. intros [= <-]. exists o, t. split; [| done].
    unfold zload. rewrite decide_True, Nat2Z.id by lia. exact Ho. }
  apply H; [| intros c k; by rewrite lookup_empty].
  apply Forall_lookup. intros i [j o] Hi. rewrite list_lookup_imap in Hi.
  destruct (orders !! i) eqn:Eo; [| done]. cbn in Hi. by injection Hi as <- <-.
Qed.

(** The projection [opc] finds input column [col]. *)
Definition opc_ok orders (m : list Z) (col : Z) (opc : SortProjectionColumn) : Prop :=
  if is_payload opc then zload m (layout_col_idx opc) = Some col
  else refers_to orders (layout_col_idx opc) col.

Definition opcs_ok orders (m : list Z) (n : nat) (cols : list Z) (opcs : list SortProjectionColumn) : Prop :=
  length opcs = length cols /\
  forall i opc, opcs !! i = Some opc ->
    output_col_idx opc = Z.of_nat (n + i) /\ exists col, cols !! i = Some col /\ opc_ok orders m col opc.

Lemma opc_ok_app orders m m' col opc : opc_ok orders m col opc -> opc_ok orders (m ++ m') col opc.
Proof.
  unfold opc_ok, zload. destruct (is_payload opc); [| done]. case_decide; [| done].
  intros Hc. by apply lookup_app_l_Some.
Qed.

Lemma project_columns_ok orders (input_types : list LogicalType) cols n (s : SortLayout LogicalType) :
  Forall (fun c => 0 <= c < Z.of_nat (length input_types)) cols ->
  length (payload_layout s) = length (input_projection_map s) ->
  Forall (fun c => 0 <= c < Z.of_nat (length input_types)) (input_projection_map s) ->
  exists s' opcs,
    ofold (project_column (input_column_to_key orders) input_types) s (imap (fun i c => ((n + i)%nat, c)) cols) = Some s' /\
    output_projection_columns s' = output_projection_columns s ++ opcs /\
    (exists m, input_projection_map s' = input_projection_map s ++ m) /\
    Forall (fun c => 0 <= c < Z.of_nat (length input_types)) (input_projection_map s') /\
    opcs_ok orders (input_projection_map s') n cols opcs.
Proof.
  intros Hcols. revert n s. induction Hcols as [| c cols Hc _ IH]; intros n s Hlen Hmap.
  { exists s, []. cbn [imap]. rewrite !app_nil_r. split_and!; [done | done | by exists []; rewrite app_nil_r | done |].
    by split. }
  set (opc := match input_column_to_key orders !! c with
    | Some key_idx => {| is_payload := false; layout_col_idx := key_idx; output_col_idx := Z.of_nat n |}
    | None => {| is_payload := true; layout_col_idx := Z.of_nat (length (payload_layout s));
                 output_col_idx := Z.of_nat n |}
    end).
  assert (exists s1, project_column (input_column_to_key orders) input_types s (n, c) = Some s1 /\
    output_projection_columns s1 = output_projection_columns s ++ [opc] /\
    (exists m, input_projection_map s1 = input_projection_map s ++ m) /\
    length (payload_layout s1) = length (input_projection_map s1) /\
    Forall (fun c => 0 <= c < Z.of_nat (length input_types)) (input_projection_map s1) /\
    opc_ok orders (input_projection_map s1) c opc)
    as (s1 & E1 & Eo & [m1 Em1] & Hlen1 & Hmap1 & Hok).
  { unfold project_column, opc. destruct (input_column_to_key orders !! c) as [k |] eqn:Ek.
    - eexists. split; [done |]. cbn. split_and!; [done | by exists []; rewrite app_nil_r | done | done |].
      by apply input_column_to_key_ok.
    - destruct (lookup_lt_is_Some_2 input_types (Z.to_nat c)) as [t Ht]; [lia |].
      assert (zload input_types c = Some t) as -> by (unfold zload; by rewrite decide_True by lia).
      cbn [mbind option_bind]. eexists. split; [done |]. cbn.
      split_and!; [done | by eexists | by rewrite !length_app, Hlen | by apply Forall_app_2; auto |].
      unfold opc_ok, zload. cbn. rewrite decide_True, Nat2Z.id, Hlen by lia. by apply list_lookup_middle. }
  destruct (IH (S n) s1 Hlen1 Hmap1) as (s2 & opcs & E2 & Eo2 & [m2 Em2] & Hmap2 & Hl & Hopcs).
  exists s2, (opc :: opcs). rewrite imap_cons, Nat.add_0_r, ofold_cons, E1. cbn [mbind option_bind].
  split_and!.
  - rewrite <- E2. f_equal. apply imap_ext. intros i x _. cbn. f_equal. lia.
  - by rewrite Eo2, Eo, <- app_assoc.
  - exists (m1 ++ m2). by rewrite Em2, Em1, app_assoc.
  - done.
  - split; [cbn; by rewrite Hl |]. intros [| i] o Ho.
    + cbn in Ho. injection Ho as <-. split; [unfold opc; destruct (_ !! _); cbn; lia |].
      exists c. split; [done |]. rewrite Em2. by apply opc_ok_app.
    + cbn in Ho. destruct (Hopcs i o Ho) as [Hi Hcol]. split; [lia | done].
Qed.

(** A chunk that agrees with [out] in the columns that [P] holds for. *)
Definition written (out : list V) (P : Z -> Prop) (chunk : list (option V)) : Prop :=
  length chunk = length out /\
  forall j v, P (Z.of_nat j) -> out !! j = Some v -> chunk !! j = Some (Some v).

Lemma written_store out P chunk j v :
  written out P chunk -> zload out j = Some v ->
  exists chunk', zstore chunk j (Some v) = Some chunk' /\ written out (fun i => P i \/ i = j) chunk'.
Proof.
  intros [Hl Hw] Hv. unfold zload in Hv. case_decide as Hj; [| done]. pose proof (lookup_lt_Some _ _ _ Hv) as Hlt.
  exists (<[Z.to_nat j := Some v]> chunk). split; [unfold zstore; by rewrite decide_True by lia |].
  split; [by rewrite length_insert |]. intros i w HP Hi. destruct (decide (i = Z.to_nat j)) as [-> |].
  - rewrite Hv in Hi. injection Hi as <-. apply list_lookup_insert_eq. lia.
  - rewrite list_lookup_insert_ne by done. destruct HP as [HP | HP]; [by apply Hw | lia].
Qed.

Lemma scan_payload_written out payload opcs chunk P :
  Forall (fun opc => is_payload opc = true /\
    exists v, zload payload (layout_col_idx opc) = Some v /\ zload out (output_col_idx opc) = Some v) opcs ->
  written out P chunk ->
  exists chunk', scan_payload opcs payload chunk = Some chunk' /\
    written out (fun j => P j \/ j ∈ output_col_idx <$> opcs) chunk'.
Proof.
  intros H. revert chunk P. induction H as [| opc opcs (Hp & v & Hv & Ho) _ IH]; intros chunk P Hw.
  - exists chunk. split; [done |]. destruct Hw as [? Hw]. split; [done |]. intros j w [HP | HP]; [by apply Hw |].
    by apply elem_of_nil in HP.
  - cbn [scan_payload]. rewrite Hp, Hv. cbn [mbind option_bind].
    destruct (written_store out P chunk _ v Hw Ho) as (chunk1 & -> & Hw1). cbn [mbind option_bind].
    destruct (IH chunk1 _ Hw1) as (chunk2 & -> & [Hl2 Hw2]). exists chunk2. split; [done |].
    split; [done |]. intros j w HP. apply Hw2. rewrite fmap_cons, elem_of_cons in HP. tauto.
Qed.

Lemma scan_key_written out key opcs rest chunk P :
  Forall (fun opc => is_payload opc = false /\
    exists v, zload key (layout_col_idx opc) = Some v /\ zload out (output_col_idx opc) = Some v) opcs ->
  Forall (fun opc => is_payload opc = true) rest -> written out P chunk ->
  exists chunk', scan_key (opcs ++ rest) key chunk = Some (chunk', rest) /\
    written out (fun j => P j \/ j ∈ output_col_idx <$> opcs) chunk'.
Proof.
  intros H Hrest. revert chunk P. induction H as [| opc opcs (Hp & v & Hv & Ho) _ IH]; intros chunk P Hw.
  - exists chunk. split; [by destruct Hrest as [| opc ? Hopc]; [| cbn; rewrite Hopc] |].
    destruct Hw as [? Hw]. split; [done |]. intros j w [HP | HP]; [by apply Hw |]. by apply elem_of_nil in HP.
  - cbn [scan_key app]. rewrite Hp, Hv. cbn [mbind option_bind].
    destruct (written_store out P chunk _ v Hw Ho) as (chunk1 & -> & Hw1). cbn [mbind option_bind].
    destruct (IH chunk1 _ Hw1) as (chunk2 & -> & [Hl2 Hw2]). exists chunk2. split; [done |].
    split; [done |]. intros j w HP. apply Hw2. rewrite fmap_cons, elem_of_cons in HP. tauto.
Qed.

#[export] Instance projection_le_total : Total projection_le.
Proof.
  intros [[] l o] [[] l' o']; unfold projection_le; cbn; lia || (by left) || (by right).
Qed.

#[export] Instance projection_le_trans : Transitive projection_le.
Proof.
  intros [[] l o] [[] l' o'] [[] l'' o'']; unfold projection_le; cbn; lia || done.
Qed.

(** The sorted projections: those of the key in front of those of the payload. *)
Lemma projections_split opcs :
  StronglySorted projection_le opcs ->
  exists keys payloads, opcs = keys ++ payloads /\ Forall (fun opc => is_payload opc = false) keys /\
    Forall (fun opc => is_payload opc = true) payloads.
Proof.
  induction 1 as [| opc opcs _ (keys & payloads & -> & Hk & Hp) Hle]; [by exists [], [] |].
  destruct (is_payload opc) eqn:Eo; [| by exists (opc :: keys), payloads; split_and!; [| constructor |]].
  exists [], (opc :: keys ++ payloads). split_and!; [done | done |]. constructor; [done |].
  eapply Forall_impl; [exact Hle |]. intros o. unfold projection_le. rewrite Eo.
  by destruct (is_payload o).
Qed.

(** What a projection reads in the key and the payload of a row. *)
Lemma opc_reads orders m col opc row key payload v :
  opc_ok orders m col opc -> key_row eval orders row = Some key -> mapM (zload row) m = Some payload ->
  zload row col = Some v ->
  zload (if is_payload opc then payload else key) (layout_col_idx opc) = Some v.
Proof.
  unfold opc_ok. intros Hok Hkey Hpay Hv. destruct (is_payload opc).
  - unfold zload in Hok |- *. case_decide; [| done]. apply mapM_Some in Hpay.
    destruct (Forall2_lookup_l _ _ _ _ _ Hpay Hok) as (w & Hw & Ew). rewrite Hv in Ew. by injection Ew as ->.
  - destruct Hok as (order & t & Ho & Eo). unfold zload in Ho |- *. case_decide; [| done].
    apply mapM_Some in Hkey. destruct (Forall2_lookup_l _ _ _ _ _ Hkey Ho) as (w & Hw & Ew).
    rewrite Eo in Ew. cbn in Ew. rewrite Hv in Ew. by injection Ew as ->.
Qed.

Lemma zload_range row c : 0 <= c < Z.of_nat (length row) -> is_Some (zload row c).
Proof. intros Hc. unfold zload. rewrite decide_True by lia. apply lookup_lt_is_Some. lia. Qed.

(** Every column is read by one of the projections, which finds its value. *)
Lemma opcs_read orders m cols opcs row key payload out :
  opcs_ok orders m 0 cols opcs -> key_row eval orders row = Some key ->
  mapM (zload row) m = Some payload -> mapM (zload row) cols = Some out ->
  Forall (fun opc => exists v, zload (if is_payload opc then payload else key) (layout_col_idx opc) = Some v /\
    zload out (output_col_idx opc) = Some v) opcs /\
  forall j, (j < length out)%nat -> Z.of_nat j ∈ output_col_idx <$> opcs.
Proof.
  intros [Hl Hopcs] Hkey Hpay Hout. apply mapM_Some in Hout. pose proof (Forall2_length _ _ _ Hout) as Hlen.
  split.
  - apply Forall_lookup. intros i opc Hi. destruct (Hopcs i opc Hi) as (Ho & col & Hcol & Hok).
    destruct (Forall2_lookup_l _ _ _ _ _ Hout Hcol) as (v & Hv & Er). exists v.
    split; [by eapply opc_reads |]. rewrite Ho. unfold zload. rewrite decide_True by lia.
    by rewrite Nat2Z.id.
  - intros j Hj. destruct (lookup_lt_is_Some_2 opcs j) as [opc Hopc]; [lia |].
    apply list_elem_of_fmap. exists opc. split; [| by eapply list_elem_of_lookup_2].
    destruct (Hopcs j opc Hopc) as [-> _]. lia.
Qed.

Lemma TemplatedScan_written s key payload (out : list V) :
  let opcs := output_projection_columns s in
  opcs <> [] -> length opcs = length out -> StronglySorted projection_le opcs ->
  Forall (fun opc => exists v, zload (if is_payload opc then payload else key) (layout_col_idx opc) = Some v /\
    zload out (output_col_idx opc) = Some v) opcs ->
  (forall j, (j < length out)%nat -> Z.of_nat j ∈ output_col_idx <$> opcs) ->
  TemplatedScan (LogicalType := LogicalType) s key payload = Some (Some <$> out).
Proof.
  intros opcs Hne Hlen Hsorted Hreads Hall. unfold TemplatedScan. fold opcs.
  destruct (projections_split opcs Hsorted) as (keys & payloads & Eopcs & Hk & Hp).
  assert (exists chunk, (if is_payload (hd {| is_payload := true; layout_col_idx := 0; output_col_idx := 0 |} opcs)
      then Some (replicate (length opcs) None, opcs)
      else scan_key opcs key (replicate (length opcs) None)) = Some (chunk, payloads) /\
    written out (fun j => j ∈ output_col_idx <$> keys) chunk) as (chunk & Escan & Hchunk).
  { destruct keys as [| opc keys].
    - exists (replicate (length opcs) None). cbn [app] in Eopcs. rewrite Eopcs in Hne |- *.
      destruct payloads as [| opc payloads]; [done |]. apply Forall_cons in Hp as [Hp _]. cbn [hd]. rewrite Hp.
      split; [done |]. split; [rewrite length_replicate, <- Eopcs; done |]. intros j v Hj.
      by apply elem_of_nil in Hj.
    - destruct (scan_key_written out key (opc :: keys) payloads (replicate (length opcs) None) (fun _ => False))
        as (chunk & Ec & [Hl Hw]).
      + rewrite Eopcs, Forall_app in Hreads. destruct Hreads as [Hreads _].
        eapply Forall_impl; [apply Forall_and; split; [exact Hk | exact Hreads] |].
        intros o (Ho & v & Hv & Hov). rewrite Ho in Hv. eauto.
      + done.
      + split; [by rewrite length_replicate | done].
      + exists chunk. rewrite Eopcs in Ec |- *. apply Forall_cons in Hk as [Hk _]. cbn [hd app]. rewrite Hk.
        split; [exact Ec |]. split; [done |]. intros j v Hj. apply Hw. by right. }
  destruct opcs as [| opc opcs'] eqn:Eq; [done |]. cbn [head mbind option_bind]. cbn [hd] in Escan.
  rewrite Escan. cbn [mbind option_bind].
  destruct (scan_payload_written out payload payloads chunk (fun j => j ∈ output_col_idx <$> keys))
    as (chunk' & Ec & [Hl Hw]).
  - rewrite Eopcs, Forall_app in Hreads. destruct Hreads as [_ Hreads].
    eapply Forall_impl; [apply Forall_and; split; [exact Hp | exact Hreads] |].
    intros o (Ho & v & Hv & Hov). rewrite Ho in Hv. eauto.
  - done.
  - rewrite Ec. f_equal. apply list_eq. intros j. rewrite list_lookup_fmap.
    destruct (out !! j) as [v |] eqn:Ej.
    + apply Hw; [| done]. pose proof (lookup_lt_Some _ _ _ Ej) as Hj. specialize (Hall j Hj).
      rewrite Eopcs, fmap_app, elem_of_app in Hall. tauto.
    + apply lookup_ge_None in Ej. apply lookup_ge_None. lia.
Qed.

(** C21. What the sort stores of a row (the values of its keys and the columns that
    are not keys) is enough to scan it: the scan gives the projected columns of the
    row, in their order, whatever columns are keys or repeated. *)
Theorem sort_columns_roundtrip orders (input_types : list LogicalType) projection_map :
  let cols := fill_projection input_types projection_map in
  cols <> [] -> Forall (fun c => 0 <= c < Z.of_nat (length input_types)) cols ->
  exists s, Sort_new orders input_types projection_map = Some s /\
    forall row key, length row = length input_types -> key_row eval orders row = Some key ->
      exists payload, sort_payload_row s row = Some payload /\
        TemplatedScan s key payload = Some (zload row <$> cols).
Proof.
  intros cols Hne Hcols. unfold Sort_new.
  assert (fill_projection input_types projection_map = cols) as -> by done. clearbody cols.
  destruct (project_columns_ok orders input_types cols 0
    {| payload_layout := []; input_projection_map := []; output_projection_columns := [] |} Hcols eq_refl)
    as (s & opcs & Es & Eo & _ & Hmap & Hopcs); [constructor |].
  cbn [output_projection_columns app] in Eo.
  change (imap (fun i c => ((0 + i)%nat, c)) cols) with (imap pair cols) in Es. rewrite Es. cbn [mbind option_bind].
  eexists. split; [done |]. intros row key Hrow Hkey. unfold sort_payload_row. cbn [input_projection_map].
  assert (exists payload, mapM (zload row) (input_projection_map s) = Some payload) as [payload Hpay].
  { apply mapM_is_Some. eapply Forall_impl; [exact Hmap |]. intros c Hc. cbn in Hc. apply zload_range. lia. }
  assert (exists out, mapM (zload row) cols = Some out) as [out Hout].
  { apply mapM_is_Some. eapply Forall_impl; [exact Hcols |]. intros c Hc. cbn in Hc. apply zload_range. lia. }
  destruct (opcs_read orders _ cols opcs row key payload out Hopcs Hkey Hpay Hout) as [Hreads Hall].
  pose proof Hout as Hout'. apply mapM_Some in Hout'. pose proof (Forall2_length _ _ _ Hout') as Hlen.
  destruct Hopcs as [Hl _]. pose proof (merge_sort_Permutation projection_le opcs) as Hperm.
  exists payload. split; [done |]. rewrite (TemplatedScan_written _ key payload out);
    cbn [output_projection_columns]; rewrite ?Eo.
  - f_equal. apply list_eq. intros j. rewrite !list_lookup_fmap. symmetry.
    destruct (cols !! j) as [c |] eqn:Ec.
    + destruct (Forall2_lookup_l _ _ _ _ _ Hout' Ec) as (v & -> & Ev). cbn. by rewrite Ev.
    + apply lookup_ge_None in Ec. rewrite (lookup_ge_None_2 out); [done | lia].
  - intros E0. rewrite E0 in Hperm. apply Permutation_nil_l in Hperm. subst opcs. rewrite <- Hperm in Hl.
    cbn in Hl. destruct cols; done.
  - rewrite Hperm. lia.
  - apply (StronglySorted_merge_sort projection_le).
  - by rewrite Hperm.
  - intros j Hj. rewrite Hperm. by apply Hall.
Qed.
End layout_theorems.

(** Three columns, sorted by the last one, by an expression and by the last one
    again, with the last column and the first projected. *)
Definition example_orders : list (BoundOrderByNode unit unit) :=
  let order e := {| order_type := ASCENDING; null_order := NULLS_FIRST; order_expression := e |} in
  [order (BOUND_REF tt 2); order (OTHER tt tt); order (BOUND_REF tt 2)].

Lemma sort_columns_roundtrip_witness :
  exists s, Sort_new example_orders [tt; tt; tt] [2; 0; 2] = Some s /\
    forall row key, length row = 3%nat -> key_row (fun _ r => znth 0 r 0 + 1) example_orders row = Some key ->
      exists payload, sort_payload_row s row = Some payload /\
        TemplatedScan s key payload = Some (zload row <$> [2; 0; 2]).
Proof.
  apply (sort_columns_roundtrip (fun _ r => znth 0 r 0 + 1) example_orders [tt; tt; tt] [2; 0; 2]);
    [done | repeat (constructor; [cbn; lia |]); constructor].
Defined.

(** ** Destroyed data *)

Lemma DestroyData_rows tuple_idx_begin tuple_idx_end first last i :
  0 <= tuple_idx_begin <= tuple_idx_end -> DestroyData tuple_idx_begin tuple_idx_end = Some (first, last) ->
  first * STANDARD_VECTOR_SIZE <= i < last * STANDARD_VECTOR_SIZE -> i < tuple_idx_end.
Proof.
  unfold DestroyData. intros Hb H Hi. case_match; [done |]. injection H as <- <-.
  unfold STANDARD_VECTOR_SIZE in *. pose proof (Z.mul_div_le tuple_idx_end 2048). lia.
Qed.
