(* ===== verification/SortInvariant.v ===== *)
(** * The sort operator: theorems

    Every interleaving of the threads of Sort keeps the invariant [sort_ok]: no
    assertion fails, the loop that doubles the request ends, no row is lost, and all
    runs that were handed over are sorted and were finalized with the same flag that
    the merger gets. *)

From S2P Require Import Prelude Sort.

Section sort_invariant.
Context {A : Type} (SizeInBytes : list A -> Z) (sort_run : list A -> list A) (le : A -> A -> Prop).
Context (is_index_sort force_external verify_parallelism : bool).
Context (num_threads minimum_reservation max_rows : Z).

(** The sort of a run sorts, and runs of at most [max_rows] rows fit in memory. *)
Context (Hsort : forall rows, sort_run rows ≡ₚ rows /\ StronglySorted le (sort_run rows)).
Context (Hthreads : 1 <= num_threads < 2 ^ 32).
Context (Hsize : forall rows, Z.of_nat (length rows) <= max_rows ->
  0 <= SizeInBytes rows /\ 4 * (num_threads * SizeInBytes rows) <= 2 ^ 61).
Context (Hminimum : 1 <= minimum_reservation <= 2 ^ 62).

Abbreviation run := (SortedRun A).
Abbreviation global := (SortGlobalSinkState A).
Abbreviation local := (SortLocalSinkState A).
Abbreviation thread := (SortThread (A := A)).
Abbreviation TryFinishSink := (TryFinishSink SizeInBytes sort_run).
Abbreviation sink_chunk := (sink_chunk SizeInBytes sort_run num_threads).
Abbreviation sink_locked := (sink_locked SizeInBytes sort_run is_index_sort num_threads).
Abbreviation TryIncreaseReservation := (TryIncreaseReservation SizeInBytes is_index_sort num_threads).

(** ** The request *)

Lemma double_request_ok fuel required request :
  1 <= request <= 2 ^ 63 -> required <= 2 ^ 62 -> required <= request * 2 ^ Z.of_nat fuel ->
  exists r, double_request fuel required request = Some r /\ required <= r /\ 1 <= r <= Z.max request (2 * required).
Proof.
  clear. revert request. induction fuel as [| fuel IH]; intros request Hr Hq Hf; cbn [double_request].
  - change (2 ^ Z.of_nat 0) with 1 in Hf. rewrite (proj2 (Z.ltb_ge _ _)) by lia. exists request. split; [done | lia].
  - destruct (Z.ltb_spec request required); [| exists request; split; [done | lia]].
    assert (u64 (request * 2) = request * 2) as -> by (apply u64_small; lia).
    rewrite Nat2Z.inj_succ, Z.pow_succ_r in Hf by lia.
    destruct (IH (request * 2)) as (r & E & Hle & Hb); [lia | done | lia |].
    exists r. split; [done |]. lia.
Qed.

Lemma required_memory_ok (r : run) :
  Z.of_nat (length (run_rows r)) <= max_rows ->
  num_threads * SizeInBytes (run_rows r) <= required_memory SizeInBytes is_index_sort num_threads r <= 2 ^ 61.
Proof.
  intros [H0 Hb]%Hsize. unfold required_memory.
  assert (0 <= num_threads * SizeInBytes (run_rows r)) by lia.
  rewrite (u64_small (num_threads * _)) by lia.
  destruct is_index_sort; [rewrite u64_small by lia |]; lia.
Qed.

(** ** The states *)

Definition run_done (external : bool) (r : run) : Prop :=
  finalized r = true /\ StronglySorted le (run_rows r) /\ run_external r = external.

Record global_ok (g : global) : Prop := {
  g_remaining : 1 <= remaining_size g <= 2 ^ 62;
  g_runs : Forall (run_done (sg_external g)) (sg_sorted_runs g);
  g_not_external : sg_sorted_runs g <> [] -> sg_external g = false -> any_combined g = true;
  g_tuples : sorted_tuples g = Z.of_nat (length (mjoin (run_rows <$> sg_sorted_runs g)));
  g_total : sg_total_count g = 0;
  g_partition_size : sg_partition_size g = 0
}.

Definition local_rows (l : local) : list A := default [] (run_rows <$> sorted_run l).

Definition pc_ok (g : global) (pc : SortPc) (l : local) : Prop :=
  (sl_external l = true -> sg_external g = true) /\
  match pc with
  | sinking => forall r, sorted_run l = Some r -> finalized r = false /\
      (any_combined g = false -> SizeInBytes (run_rows r) <= maximum_run_size l)
  | locking => exists r, sorted_run l = Some r /\ finalized r = false
  | adding => exists r, sorted_run l = Some r /\ run_done true r /\ sg_external g = true
  | finalizing => exists r, sorted_run l = Some r /\ finalized r = false /\ any_combined g = true
  | adding_last => exists r, sorted_run l = Some r /\ run_done (sg_external g) r /\ any_combined g = true
  | done_sinking => sorted_run l = None
  end.

(** What a step of one thread leaves for the others. *)
Record global_le (g g' : global) : Prop := {
  le_external : sg_external g = true -> sg_external g' = true;
  le_combined : any_combined g = true -> any_combined g' = true /\ sg_external g' = sg_external g
}.

Lemma sort_global_le_refl g : global_le g g.
Proof. by split. Qed.

Lemma pc_ok_mono g g' pc l : global_le g g' -> pc_ok g pc l -> pc_ok g' pc l.
Proof.
  intros [He Hc] [Hl Hpc]. split; [auto |]. destruct pc; [| done | | | | done].
  - intros r Hr. destruct (Hpc r Hr) as [Hf Hs]. split; [done |]. intros Ha. apply Hs.
    destruct (any_combined g) eqn:E; [| done]. destruct (Hc eq_refl) as [Ha' _]. congruence.
  - destruct Hpc as (r & ? & ? & ?). exists r. auto.
  - destruct Hpc as (r & ? & ? & Ha). exists r. destruct (Hc Ha). auto.
  - destruct Hpc as (r & ? & ? & Ha). exists r. destruct (Hc Ha) as [? ->]. auto.
Qed.

(** ** Steps of the sink *)

Lemma TryFinishSink_ok l r :
  sorted_run l = Some r -> finalized r = false ->
  exists l' pc, TryFinishSink l = Some (l', pc) /\
    ((pc = Some sinking /\ l' = l /\ SizeInBytes (run_rows r) < maximum_run_size l) \/
     (pc = Some adding /\ sl_external l = true /\ exists r', l' = set_run r' l /\ run_done true r' /\
        run_rows r' ≡ₚ run_rows r) \/
     (pc = None /\ l' = l /\ sl_external l = false /\ maximum_run_size l <= SizeInBytes (run_rows r))).
Proof.
  intros Hr Hf. unfold Sort.TryFinishSink. rewrite Hr. cbn [mbind option_bind].
  destruct (Z.ltb_spec (SizeInBytes (run_rows r)) (maximum_run_size l)); [by eexists _, _; split; [| left] |].
  destruct (sl_external l) eqn:El; [| eexists _, _; split; [done |]; by right; right].
  unfold SortedRun_Finalize. rewrite Hf. cbn [mbind option_bind]. eexists _, _. split; [done |]. right. left.
  split; [done |]. split; [done |]. eexists. split; [done |]. destruct (Hsort (run_rows r)). by split.
Qed.

(** What [Sink] does to the rows of the thread. *)
Definition sunk (g g' : global) (l : local) (chunk : list A) (l' : local) (pc : SortPc) : Prop :=
  pc_ok g' pc l' /\ local_rows l' ≡ₚ local_rows l ++ chunk /\ pc ∈ [sinking; locking; adding].

Lemma sink_chunk_ok g l chunk :
  pc_ok g sinking l ->
  exists l' pc, sink_chunk g l chunk = Some (l', pc) /\ sunk g g l chunk l' pc.
Proof.
  intros [Hext Hpc]. unfold Sort.sink_chunk.
  assert (exists l1 r, (match sorted_run l with
       | None => UpdateLocalState num_threads g <$> InitializeSortedRun l
       | Some _ => Some l
       end) = Some l1 /\ sorted_run l1 = Some r /\ finalized r = false /\
       (sl_external l1 = true -> sg_external g = true) /\ run_rows r = local_rows l)
    as (l1 & r & -> & Hr & Hf & Hext1 & Hrows).
  { unfold InitializeSortedRun, local_rows. destruct (sorted_run l) as [r |] eqn:Er.
    - exists l, r. destruct (Hpc r eq_refl). by split_and!.
    - eexists _, _. split; [done |]. by split_and!. }
  cbn [mbind option_bind]. rewrite Hr. cbn [mbind option_bind]. unfold SortedRun_Sink. rewrite Hf.
  cbn [mbind option_bind]. set (r1 := {| run_rows := run_rows r ++ chunk; finalized := false; run_external := _ |}).
  destruct (TryFinishSink_ok (set_run r1 l1) r1 eq_refl eq_refl) as (l2 & pc & -> & Hl2).
  cbn [mbind option_bind]. eexists _, _. split; [done |]. unfold sunk, pc_ok.
  destruct Hl2 as [(-> & -> & Hs) | [(-> & He & r' & -> & Hr' & Hp) | (-> & -> & He & Hs)]];
    cbn [default from_option id set_run sorted_run sl_external local_rows maximum_run_size] in *.
  - split_and!; [done | | by rewrite <- Hrows | set_solver]. intros r2 [= <-]. split; [done | lia].
  - split_and!; [done | | by rewrite <- Hrows | set_solver]. exists r'. split_and!; auto.
  - split_and!; [done | | by rewrite <- Hrows | set_solver]. by exists r1.
Qed.

(** The runs and the counters of the state stay as they are. *)
Record same_runs (g g' : global) : Prop := {
  same_sorted_runs : sg_sorted_runs g' = sg_sorted_runs g;
  same_tuples : sorted_tuples g' = sorted_tuples g;
  same_combined : any_combined g' = any_combined g;
  same_total : sg_total_count g' = sg_total_count g;
  same_partition_size : sg_partition_size g' = sg_partition_size g
}.

Lemma TryIncreaseReservation_ok answer g l r :
  1 <= remaining_size g <= 2 ^ 62 -> sg_external g = false -> sorted_run l = Some r ->
  Z.of_nat (length (run_rows r)) <= max_rows -> reservation g / num_threads <= SizeInBytes (run_rows r) ->
  exists g', TryIncreaseReservation answer g l = Some g' /\ 1 <= remaining_size g' <= 2 ^ 62 /\
    same_runs g g' /\ (any_combined g = true -> sg_external g' = false) /\
    (sg_external g' = false -> any_combined g = false ->
     SizeInBytes (run_rows r) <= reservation g' / num_threads).
Proof.
  intros Hrem Hext Hr Hlen Hmax. unfold Sort.TryIncreaseReservation. rewrite Hext.
  destruct (Z.ltb_spec (reservation g) (remaining_size g)).
  { eexists. split; [done |]. cbn. rewrite Hext. split; [done |]. split; [by split |].
    split; [by intros -> |]. by destruct (any_combined g). }
  rewrite Hr. cbn [mbind option_bind]. pose proof (required_memory_ok r Hlen) as Hreq.
  destruct (Hsize _ Hlen) as [H0 Hs].
  assert (u64 (remaining_size g * 2) = remaining_size g * 2) as -> by (apply u64_small; lia).
  destruct (double_request_ok 64 (required_memory SizeInBytes is_index_sort num_threads r)
    (remaining_size g * 2)) as (request & -> & Hge & Hb); [lia | lia | change (2 ^ Z.of_nat 64) with (2 ^ 64); lia |].
  cbn [mbind option_bind]. unfold request_reservation. rewrite (proj2 (Z.eqb_neq request 0)) by lia.
  cbn [mbind option_bind reservation].
  assert (reservation g < num_threads * SizeInBytes (run_rows r) + num_threads) as Hres.
  { pose proof (Z.mul_succ_div_gt (reservation g) num_threads). nia. }
  eexists. split; [done |]. destruct (Z.ltb_spec answer (required_memory SizeInBytes is_index_sort num_threads r));
    cbn; rewrite ?Hext; (split; [lia | split; [by split | split]]).
  - by intros ->.
  - intros He Hc. by rewrite Hc in He.
  - done.
  - intros _ _. apply Z.div_le_lower_bound; lia.
Qed.

Lemma sink_locked_ok answer g l :
  1 <= remaining_size g <= 2 ^ 62 -> pc_ok g locking l -> Z.of_nat (length (local_rows l)) <= max_rows ->
  exists g' l' pc, sink_locked answer g l = Some (g', l', pc) /\
    1 <= remaining_size g' <= 2 ^ 62 /\ same_runs g g' /\ global_le g g' /\ sunk g g' l [] l' pc /\ pc <> locking.
Proof.
  intros Hrem [Hext (r & Hr & Hf)] Hlen. unfold Sort.sink_locked. unfold local_rows in Hlen. rewrite Hr in Hlen.
  cbn [fmap option_fmap option_map default from_option id] in Hlen.
  destruct (TryFinishSink_ok (UpdateLocalState num_threads g l) r Hr Hf) as (l1 & pc & -> & Hl1).
  cbn [mbind option_bind]. unfold sunk, pc_ok, local_rows. rewrite Hr.
  destruct Hl1 as [(-> & -> & Hs) | [(-> & He & r' & -> & Hr' & Hp) | (-> & -> & He & Hs)]];
    cbn [UpdateLocalState set_run sorted_run sl_external maximum_run_size] in *.
  { eexists _, _, _. split; [done |]. split; [done |]. split; [done |]. split; [apply sort_global_le_refl |].
    cbn. rewrite Hr. split_and!; [done | | by rewrite app_nil_r | set_solver | done].
    intros r2 [= <-]. split; [done | lia]. }
  { eexists _, _, _. split; [done |]. split; [done |]. split; [done |]. split; [apply sort_global_le_refl |].
    cbn. split_and!; [done | | by rewrite app_nil_r | set_solver | done]. eauto. }
  destruct (TryIncreaseReservation_ok answer g (UpdateLocalState num_threads g l) r)
    as (g' & EI & Hrem' & [Hs1 Hs2 Hs3 Hs4] & Hc & Hmem); [done .. |].
  rewrite EI. cbn [mbind option_bind].
  assert (global_le g g') as Hle.
  { split; [congruence |]. intros Ha. rewrite Hs3. split; [done |]. rewrite He. auto. }
  destruct (TryFinishSink_ok (UpdateLocalState num_threads g' (UpdateLocalState num_threads g l)) r Hr Hf) as (l2 & pc & -> & Hl2).
  cbn [mbind option_bind]. eexists _, _, _. split; [done |]. split; [done |]. split; [by split |]. split; [done |].
  destruct Hl2 as [(-> & -> & Hs') | [(-> & He' & r' & -> & Hr' & Hp) | (-> & -> & He' & Hs')]];
    cbn [UpdateLocalState set_run sorted_run sl_external maximum_run_size default from_option id] in *; rewrite ?Hr.
  - split_and!; [done | | by rewrite app_nil_r | set_solver | done]. intros r2 [= <-]. split; [done | lia].
  - split_and!; [done | | by rewrite app_nil_r | set_solver | done]. eauto.
  - split_and!; [done | | by rewrite app_nil_r | set_solver | done]. intros r2 [= <-]. split; [done |].
    rewrite Hs3. auto.
Qed.

(** ** The invariant of the system *)

Abbreviation sort_thread_step := (sort_thread_step SizeInBytes sort_run is_index_sort num_threads).
Abbreviation sort_system_step := (sort_system_step SizeInBytes sort_run is_index_sort num_threads).

Definition runs_rows (g : global) : list A := mjoin (run_rows <$> sg_sorted_runs g).

(** A thread with the rows [T], of which some are handed over. *)
Definition thread_ok (g : global) (T : list A) (t : thread) : Prop :=
  pc_ok g (st_pc t) (st_local t) /\
  (st_pc t ∈ [finalizing; adding_last; done_sinking] -> st_input t = []) /\
  Z.of_nat (length T) <= max_rows /\
  (length (local_rows (st_local t)) + length (mjoin (st_input t)) <= length T)%nat.

(** The rows that a thread has not handed over. *)
Definition held (t : thread) : list A := local_rows (st_local t) ++ mjoin (st_input t).

Record sort_ok (inputs : list (list A)) (s : SortSystem (A := A)) : Prop := {
  sort_global_ok : global_ok (ss_global s);
  sort_threads_ok : Forall2 (thread_ok (ss_global s)) inputs (ss_threads s);
  sort_rows : runs_rows (ss_global s) ++ mjoin (held <$> ss_threads s) ≡ₚ mjoin inputs
}.

Lemma thread_ok_mono g g' T t : global_le g g' -> thread_ok g T t -> thread_ok g' T t.
Proof. intros Hle [Hpc Hrest]. split; [by eapply pc_ok_mono | done]. Qed.

(** What the step of a thread leaves. *)
Definition step_ok (T : list A) (g : global) (t : thread) (g' : global) (t' : thread) : Prop :=
  global_ok g' /\ global_le g g' /\ thread_ok g' T t' /\ runs_rows g' ++ held t' ≡ₚ runs_rows g ++ held t.

Lemma same_runs_ok g g' :
  global_ok g -> 1 <= remaining_size g' <= 2 ^ 62 -> same_runs g g' -> global_le g g' -> global_ok g'.
Proof.
  intros [_ Hruns Hne Ht Hz Hps] Hrem [Hs Hst Hc Hsz Hpz] [He Hce].
  split; rewrite ?Hs, ?Hst, ?Hc, ?Hsz, ?Hpz; [done | | | done | done | done].
  - destruct (sg_sorted_runs g) eqn:Er; [done |]. destruct (sg_external g) eqn:Ee.
    + by rewrite He.
    + destruct (Hce (Hne ltac:(done) eq_refl)) as [_ ->]. done.
  - intros Hr Ee. apply Hne; [done |]. destruct (sg_external g) eqn:E0; [| done]. rewrite He in Ee; done.
Qed.

(** The push of a finished run. *)
Lemma AddSortedRun_ok g l r :
  global_ok g -> sorted_run l = Some r -> run_done (sg_external g) r ->
  (sg_external g = false -> any_combined g = true) ->
  exists g' l', AddSortedRun g l = Some (g', l') /\ global_ok g' /\ global_le g g' /\
    any_combined g' = any_combined g /\ sg_external g' = sg_external g /\
    sorted_run l' = None /\ sl_external l' = sl_external l /\ runs_rows g' = runs_rows g ++ run_rows r.
Proof.
  intros [Hrem Hruns Hne Ht Hz Hps] Hr Hdone Hc. unfold AddSortedRun. rewrite Hr. cbn [mbind option_bind].
  eexists _, _. split; [done |]. unfold runs_rows. cbn [sg_sorted_runs].
  split; [| split_and!; [by split | done | done | done | done | by rewrite fmap_app, mjoin_app; cbn; rewrite app_nil_r]].
  split; cbn; [done | by apply Forall_app_2; [| constructor] | auto | | done | done].
  rewrite Ht, fmap_app, mjoin_app. cbn. rewrite app_nil_r, length_app. lia.
Qed.

Lemma sort_thread_step_ok answer T g t :
  global_ok g -> thread_ok g T t ->
  exists g' t', sort_thread_step answer g t = Some (g', t') /\ step_ok T g t g' t'.
Proof.
  intros Hg (Hpc & Hin & HT & Hlen). unfold Sort.sort_thread_step, step_ok, thread_ok, held.
  destruct t as [input pc l]. cbn [st_pc st_local st_input] in *. destruct pc.
  - destruct input as [| chunk input].
    + destruct (sorted_run l) as [r |] eqn:Er.
      * eexists _, _. split; [done |]. cbn [st_pc st_local st_input]. destruct Hg as [? ? ? ? ?].
        assert (global_le g (set_any_combined g)) by (split; cbn; auto).
        split; [split; cbn; auto |]. split; [done |]. split; [| done].
        destruct Hpc as [Hext Hpc]. destruct (Hpc r Er) as [Hf _].
        split; [split; [done | by exists r] |]. split_and!; [done | done | done].
      * eexists _, _. split; [done |]. cbn [st_pc st_local st_input].
        split; [done |]. split; [apply sort_global_le_refl |]. split; [| done]. destruct Hpc.
        split_and!; [done .. | done | done | done].
    + destruct (sink_chunk_ok g l chunk Hpc) as (l' & pc & -> & Hpc' & Hrows & Hin').
      cbn [mbind option_bind]. eexists _, _. split; [done |]. cbn [st_pc st_local st_input].
      split; [done |]. split; [apply sort_global_le_refl |]. rewrite mjoin_cons, Hrows, <- app_assoc.
      split; [| done]. split; [done |]. split; [set_solver |]. split; [done |].
      rewrite mjoin_cons, length_app in Hlen. rewrite !length_app. lia.
  - destruct (sink_locked_ok answer g l (g_remaining _ Hg) Hpc) as (g' & l' & pc & -> & Hrem & Hs & Hle & (Hpc' & Hrows & Hin') & _);
      [lia |].
    cbn [mbind option_bind]. eexists _, _. split; [done |]. cbn [st_pc st_local st_input].
    split; [by eapply same_runs_ok |]. split; [done |]. rewrite app_nil_r in Hrows.
    split; [| unfold runs_rows; by rewrite (same_sorted_runs _ _ Hs), Hrows].
    split; [done |]. split; [set_solver |]. split; [done |]. by rewrite Hrows.
  - destruct Hpc as [Hext (r & Hr & Hdone & He)].
    destruct (AddSortedRun_ok g l r Hg Hr) as (g' & l' & -> & Hg' & Hle & Hc & Hx & Hr' & Hl' & Hrows);
      [by rewrite He | by rewrite He |].
    cbn [mbind option_bind]. eexists _, _. split; [done |]. cbn [st_pc st_local st_input].
    unfold local_rows in *. rewrite Hr', Hr in *. cbn in *.
    split; [done |]. split; [done |]. split; [| by rewrite Hrows, <- app_assoc].
    split; [| split_and!; [set_solver | done | lia]].
    split; [by rewrite Hl', Hx |]. intros r2. by rewrite Hr'.
  - destruct Hpc as [Hext (r & Hr & Hf & Ha)]. rewrite Hr. cbn [mbind option_bind].
    unfold SortedRun_Finalize. rewrite Hf. cbn [mbind option_bind]. eexists _, _. split; [done |].
    cbn [st_pc st_local st_input]. destruct (Hsort (run_rows r)) as [Hp Hs]. unfold local_rows in *. rewrite Hr in *.
    cbn in *. rewrite Hin in * by set_solver. split; [done |]. split; [apply sort_global_le_refl |].
    split; [| by rewrite Hp]. split; [| split_and!; [done | done | rewrite Hp; done]].
    split; [done |]. eexists. split; [done |]. by split.
  - destruct Hpc as [Hext (r & Hr & Hdone & Ha)].
    destruct (AddSortedRun_ok g l r Hg Hr Hdone) as (g' & l' & -> & Hg' & Hle & Hc & Hx & Hr' & Hl' & Hrows);
      [done |].
    cbn [mbind option_bind]. eexists _, _. split; [done |]. cbn [st_pc st_local st_input].
    unfold local_rows in *. rewrite Hr', Hr in *. cbn in *. rewrite Hin in * by set_solver.
    split; [done |]. split; [done |]. split; [| by rewrite Hrows, <- app_assoc].
    split; [by split; [rewrite Hl', Hx |] |]. split_and!; [done | done | cbn; lia].
  - eexists _, _. split; [done |]. cbn [st_pc st_local st_input].
    split; [done |]. split; [apply sort_global_le_refl |]. by split.
Qed.

Lemma sort_system_step_ok inputs s c :
  sort_ok inputs s -> (fst c < length (ss_threads s))%nat ->
  exists s', sort_system_step s c = Some s' /\ sort_ok inputs s' /\
    length (ss_threads s') = length (ss_threads s).
Proof.
  intros [Hg Hts Hrows] Hc. unfold Sort.sort_system_step.
  destruct (lookup_lt_is_Some_2 _ _ Hc) as [t Ht]. rewrite Ht. cbn [mbind option_bind].
  destruct (Forall2_lookup_r _ _ _ _ _ Hts Ht) as (T & HT & Hok).
  destruct (sort_thread_step_ok (snd c) T (ss_global s) t Hg Hok) as (g' & t' & -> & Hg' & Hle & Hok' & Hheld).
  cbn [mbind option_bind]. eexists. split; [done |]. split; [| cbn; by rewrite length_insert].
  split; cbn [ss_global ss_threads].
  - done.
  - apply Forall2_lookup. intros i. destruct (decide (i = fst c)) as [-> | Hne].
    + rewrite list_lookup_insert_eq, HT by done. by constructor.
    + rewrite list_lookup_insert_ne by done. pose proof (proj1 (Forall2_lookup _ _ _) Hts i) as H.
      destruct H as [x y H |]; constructor. by eapply thread_ok_mono.
  - rewrite <- Hrows, list_fmap_insert.
    assert ((held <$> ss_threads s) !! fst c = Some (held t)) as Hh by (by rewrite list_lookup_fmap, Ht).
    destruct (mjoin_insert_perm _ _ _ (held t') Hh) as (rest & Hrest & Hrest').
    by rewrite Hrest', Hrest, app_assoc, Hheld, <- app_assoc.
Qed.

Lemma ofold_sort_ok inputs s schedule :
  sort_ok inputs s -> Forall (fun c => fst c < length (ss_threads s))%nat schedule ->
  exists s', ofold sort_system_step s schedule = Some s' /\ sort_ok inputs s' /\
    length (ss_threads s') = length (ss_threads s).
Proof.
  revert s. induction schedule as [| c schedule IH]; intros s Hs Hc; [by exists s |].
  apply Forall_cons in Hc as [Hc Hcs]. destruct (sort_system_step_ok inputs s c Hs Hc) as (s1 & E1 & Hs1 & Hl1).
  destruct (IH s1 Hs1) as (s2 & E2 & Hs2 & Hl2); [by rewrite Hl1 |].
  exists s2. rewrite ofold_cons, E1. cbn [mbind option_bind]. split_and!; [done | done | congruence].
Qed.

Abbreviation run_sort :=
  (run_sort SizeInBytes sort_run is_index_sort force_external num_threads minimum_reservation).

(** The rows that each thread receives. *)
Definition thread_inputs (inputs : list (list (list A))) : list (list A) :=
  (fun input => mjoin (M := list) input) <$> inputs.

Definition inputs_fit (inputs : list (list (list A))) : Prop :=
  Forall (fun input => Z.of_nat (length input) <= max_rows) (thread_inputs inputs).

Lemma SortSystem_new_ok (inputs : list (list (list A))) :
  inputs_fit inputs ->
  sort_ok (thread_inputs inputs) (SortSystem_new force_external minimum_reservation inputs).
Proof.
  intros Hi. split; cbn [ss_global ss_threads SortSystem_new].
  - by split.
  - unfold inputs_fit, thread_inputs in *. rewrite Forall_fmap in Hi.
    apply Forall2_fmap, Forall_Forall2_diag. eapply Forall_impl; [exact Hi |]. intros input Hlen. cbn in Hlen.
    unfold thread_ok. cbn [st_pc st_local st_input]. split; [by split |]. split; [set_solver |].
    split; [done | cbn; done].
  - cbn. rewrite <- list_fmap_compose. unfold compose, held. cbn. done.
Qed.

Lemma run_sort_ok (inputs : list (list (list A))) schedule :
  inputs_fit inputs ->
  Forall (fun c => fst c < length inputs)%nat schedule ->
  exists s, run_sort inputs schedule = Some s /\ sort_ok (thread_inputs inputs) s.
Proof.
  intros Hi Hc. destruct (ofold_sort_ok _ _ schedule (SortSystem_new_ok inputs Hi)) as (s & E1 & Hs & _).
  - cbn. by rewrite length_fmap.
  - by exists s.
Qed.

(** All threads are done. *)
Definition all_done (s : SortSystem (A := A)) : Prop := Forall (fun t => st_pc t = done_sinking) (ss_threads s).

#[global] Instance all_done_dec s : Decision (all_done s).
Proof.
  unfold all_done. apply Forall_dec. intros t. destruct (st_pc t); (by left) || (right; done).
Defined.

Lemma all_done_held inputs s :
  Forall2 (thread_ok (ss_global s)) inputs (ss_threads s) -> all_done s ->
  mjoin (held <$> ss_threads s) = [].
Proof.
  unfold all_done. induction 1 as [| T t Ts ts (Hpc & Hin & _) _ IH]; intros Hall; [done |].
  apply Forall_cons in Hall as [Ht Hall]. rewrite Ht in *. rewrite fmap_cons, mjoin_cons, IH by done.
  destruct Hpc as [_ Hnone]. unfold held, local_rows. rewrite Hnone, Hin by set_solver. done.
Qed.

Lemma foldl_count (runs : list run) total :
  foldl (fun total r => total + Z.of_nat (length (run_rows r))) total runs =
  total + Z.of_nat (length (mjoin (run_rows <$> runs))).
Proof.
  clear. revert total. induction runs as [| r runs IH]; intros total; [cbn; lia |].
  rewrite fmap_cons, mjoin_cons, length_app. cbn [foldl]. rewrite IH. lia.
Qed.


(** ** Termination *)

Definition sort_weight (t : thread) : nat :=
  match st_pc t with
  | sinking => 3 * length (st_input t) + 3
  | locking => 3 * length (st_input t) + 5
  | adding => 3 * length (st_input t) + 4
  | finalizing => 2
  | adding_last => 1
  | done_sinking => 0
  end.

Lemma sort_thread_step_weight answer T g t g' t' :
  global_ok g -> thread_ok g T t -> sort_thread_step answer g t = Some (g', t') ->
  (sort_weight t' <= sort_weight t - 1)%nat.
Proof.
  intros Hg (Hpc & _ & HT & Hlen) Hs. unfold Sort.sort_thread_step in Hs. destruct t as [input pc l].
  unfold sort_weight in *. cbn [st_pc st_local st_input] in *. destruct pc.
  - destruct input as [| chunk input].
    + destruct (sorted_run l); injection Hs as <- <-; cbn; lia.
    + destruct (sink_chunk_ok g l chunk Hpc) as (l' & pc & E1 & _ & _ & Hin). rewrite E1 in Hs.
      cbn in Hs. injection Hs as <- <-. cbn [st_pc st_input]. destruct pc; cbn [length]; try lia; set_solver.
  - destruct (TryFinishSink (UpdateLocalState num_threads g l)) as [[l1 pc1] |] eqn:E1;
      unfold Sort.sink_locked in Hs; rewrite E1 in Hs; [| done]. cbn [mbind option_bind] in Hs.
    assert (forall l2 l3 pc3, TryFinishSink l2 = Some (l3, pc3) -> pc3 ∈ [Some sinking; Some adding; None]) as Hpcs.
    { intros l2 l3 pc3 E2. unfold Sort.TryFinishSink in E2. destruct (sorted_run l2) as [r |]; [| done].
      cbn [mbind option_bind] in E2. repeat (case_match || simplify_option_eq); set_solver. }
    pose proof (Hpcs _ _ _ E1) as H1. destruct pc1 as [pc1 |].
    + cbn in Hs. injection Hs as <- <-. cbn [st_pc st_input]. destruct pc1; try lia; set_solver.
    + destruct (TryIncreaseReservation _ _ _) as [g2 |]; [| done]. cbn [mbind option_bind] in Hs.
      destruct (TryFinishSink (UpdateLocalState num_threads g2 l1)) as [[l3 pc3] |] eqn:E3; [| done].
      cbn in Hs. injection Hs as <- <-. cbn [st_pc st_input]. pose proof (Hpcs _ _ _ E3) as H3.
      destruct pc3 as [[] |]; cbn [default from_option id]; try lia; set_solver.
  - destruct (AddSortedRun g l) as [[g1 l1] |]; [| done]. cbn in Hs. injection Hs as <- <-. cbn. lia.
  - destruct (sorted_run l) as [r |]; [| done]. cbn [mbind option_bind] in Hs.
    destruct (SortedRun_Finalize _ _ r); [| done]. cbn in Hs. injection Hs as <- <-. cbn. lia.
  - destruct (AddSortedRun g l) as [[g1 l1] |]; [| done]. cbn in Hs. injection Hs as <- <-. cbn. lia.
  - injection Hs as <- <-. cbn. lia.
Qed.

Definition sort_turns (t : nat) (schedule : list (nat * Z)) : nat :=
  length (filter (fun c => fst c = t) schedule).

Lemma ofold_sort_done inputs s schedule :
  sort_ok inputs s -> Forall (fun c => fst c < length (ss_threads s))%nat schedule ->
  (forall i t, ss_threads s !! i = Some t -> (sort_weight t <= sort_turns i schedule)%nat) ->
  exists s', ofold sort_system_step s schedule = Some s' /\ all_done s'.
Proof.
  revert s. induction schedule as [| c schedule IH]; intros s Hs Hc Hw.
  { exists s. split; [done |]. unfold all_done. apply Forall_lookup. intros i t Ht. specialize (Hw i t Ht).
    unfold sort_turns, sort_weight in Hw. cbn in Hw. destruct (st_pc t); lia || done. }
  apply Forall_cons in Hc as [Hc Hcs].
  destruct (sort_system_step_ok inputs s c Hs Hc) as (s1 & E1 & Hs1 & Hl1).
  destruct (IH s1 Hs1) as (s2 & E2 & Hall); [by rewrite Hl1 | |].
  - intros i t' Ht'. pose proof E1 as E2. unfold Sort.sort_system_step in E2.
    destruct (ss_threads s !! fst c) as [t |] eqn:Et; [| done]. cbn [mbind option_bind] in E2.
    destruct (sort_thread_step (snd c) (ss_global s) t) as [[g' t1] |] eqn:Es; [| done].
    cbn in E2. injection E2 as <-. cbn [ss_threads] in Ht'.
    destruct (Forall2_lookup_r _ _ _ _ _ (sort_threads_ok _ _ Hs) Et) as (T & _ & Hok).
    pose proof (sort_thread_step_weight _ _ _ _ _ _ (sort_global_ok _ _ Hs) Hok Es) as Hstep.
    unfold sort_turns in *. destruct (decide (i = fst c)) as [-> | Hne].
    + rewrite list_lookup_insert_eq in Ht' by done. injection Ht' as <-.
      specialize (Hw _ _ Et). rewrite filter_cons_True in Hw by done. cbn [length] in Hw. lia.
    + rewrite list_lookup_insert_ne in Ht' by done. specialize (Hw _ _ Ht').
      by rewrite filter_cons_False in Hw by done.
  - exists s2. rewrite ofold_cons, E1. done.
Qed.

(** ** Finalize *)

Lemma Sort_Finalize_ok g :
  global_ok g ->
  let '(output, g') := Sort_Finalize verify_parallelism num_threads g in
  runs_rows g' = runs_rows g /\ Forall (run_done (sg_external g')) (sg_sorted_runs g') /\
  (output = false -> runs_rows g = []) /\
  sg_total_count g' = Z.of_nat (length (runs_rows g)) /\
  (runs_rows g <> [] -> 0 < sg_partition_size g') /\
  (0 < sg_partition_size g' \/ (runs_rows g' = [] /\ sg_partition_size g' = 0)).
Proof.
  intros [_ Hruns _ _ Hz Hps]. unfold Sort_Finalize. rewrite Hz, foldl_count. fold (runs_rows g).
  destruct (sg_sorted_runs g) as [| r rs] eqn:Er.
  - assert (runs_rows g = []) as E0 by (unfold runs_rows; by rewrite Er). rewrite E0, Er, Hz.
    split_and!; [done | constructor | done | done | done | by right].
  - set (ps := if _ || _ then _ else _).
    assert (0 < ps \/ (runs_rows g = [] /\ ps = 0)) as Hps'.
    { unfold ps, DEFAULT_ROW_GROUP_SIZE. case_match; [by left |]. destruct (runs_rows g); [by right | left].
      cbn [length]. lia. }
    change (runs_rows (set_counts _ ps g)) with (runs_rows g).
    cbn [sg_sorted_runs set_counts sg_external sg_total_count sg_partition_size]. rewrite Er.
    split_and!; [done | done | done | lia | | done]. intros Hne. by destruct Hps' as [| [? _]].
Qed.

(** ** Theorems *)

(** C8. In every interleaving of the threads, and whatever the memory manager
    answers, no assertion of the sink fails and the doubling of the request ends.
    As long as no thread has combined, a run that is kept between two chunks is not
    larger than the share of its thread.  When all threads are done, the runs hold
    all rows, each is sorted, and all were finalized with the flag that the merger
    gets; [Finalize] has their count. *)
Theorem Sort_runs (inputs : list (list (list A))) schedule :
  inputs_fit inputs -> Forall (fun c => fst c < length inputs)%nat schedule ->
  exists s, run_sort inputs schedule = Some s /\
    (any_combined (ss_global s) = false ->
     Forall (fun t => forall r, st_pc t = sinking -> sorted_run (st_local t) = Some r ->
       SizeInBytes (run_rows r) <= maximum_run_size (st_local t)) (ss_threads s)) /\
    (all_done s ->
     let '(output, g) := Sort_Finalize verify_parallelism num_threads (ss_global s) in
     runs_rows g ≡ₚ mjoin (thread_inputs inputs) /\
     Forall (run_done (sg_external g)) (sg_sorted_runs g) /\
     (output = false -> mjoin (thread_inputs inputs) = []) /\
     sg_total_count g = Z.of_nat (length (mjoin (thread_inputs inputs))) /\
     (mjoin (thread_inputs inputs) <> [] -> 0 < sg_partition_size g)).
Proof.
  intros Hi Hc. destruct (run_sort_ok inputs schedule Hi Hc) as (s & E1 & [Hg Hts Hrows]).
  exists s. split; [done |]. split.
  - intros Ha. apply Forall_lookup. intros i t Ht r Hpc Hr.
    destruct (Forall2_lookup_r _ _ _ _ _ Hts Ht) as (T & _ & [_ Hok] & _). rewrite Hpc in Hok.
    by apply (Hok r Hr).
  - intros Hall. rewrite (all_done_held _ s Hts Hall), app_nil_r in Hrows.
    pose proof (Sort_Finalize_ok (ss_global s) Hg) as H. destruct (Sort_Finalize _ _ _) as [output g].
    destruct H as (Hr & Hd & Ho & Ht & Hp & _). rewrite Hr.
    split_and!; [done | done | | by rewrite Ht, Hrows |].
    + intros E0. rewrite (Ho E0) in Hrows. by apply Permutation_nil_l in Hrows.
    + intros Hne. apply Hp. intros E0. rewrite E0 in Hrows. by apply Permutation_nil_l in Hrows.
Qed.

(** C9. A thread needs at most three steps for every chunk and three to combine:
    every schedule that gives each thread so many turns ends with all threads
    done. *)
Theorem Sort_terminates (inputs : list (list (list A))) schedule :
  inputs_fit inputs -> Forall (fun c => fst c < length inputs)%nat schedule ->
  (forall i input, inputs !! i = Some input -> (3 * length input + 3 <= sort_turns i schedule)%nat) ->
  exists s, run_sort inputs schedule = Some s /\ all_done s.
Proof.
  intros Hi Hc Hturns. unfold Sort.run_sort.
  apply (ofold_sort_done _ _ _ (SortSystem_new_ok inputs Hi)); [cbn; by rewrite length_fmap |].
  intros i t Ht. cbn in Ht. rewrite list_lookup_fmap in Ht.
  destruct (inputs !! i) as [input |] eqn:Ei; [| done]. cbn in Ht. injection Ht as <-.
  unfold sort_weight. cbn [st_pc st_input]. by apply Hturns.
Qed.

(** ** The interface *)

Abbreviation Sort_ops :=
  (Sort_ops SizeInBytes sort_run is_index_sort force_external verify_parallelism num_threads minimum_reservation).

Definition sort_inv_ok (g : global) (ls : list local) : Prop :=
  global_ok g /\ Forall (pc_ok g sinking) ls.

Lemma Sort_Sink_ok answer g l ls chunk :
  sort_inv_ok g (l :: ls) -> Z.of_nat (length (local_rows l) + length chunk) <= max_rows ->
  exists g' l', Sort_Sink SizeInBytes sort_run is_index_sort num_threads answer g l chunk = Some (g', l') /\
    sort_inv_ok g' (l' :: ls) /\ runs_rows g' ++ local_rows l' ≡ₚ runs_rows g ++ local_rows l ++ chunk /\
    (length (local_rows l') <= length (local_rows l) + length chunk)%nat.
Proof.
  intros [Hg [Hl Hls]%Forall_cons] Hlen. unfold Sort_Sink.
  destruct (sink_chunk_ok g l chunk Hl) as (l1 & pc1 & -> & Hpc1 & Hrows1 & Hin1). cbn [mbind option_bind].
  assert (length (local_rows l1) = (length (local_rows l) + length chunk)%nat) as Hlen1
    by (by rewrite Hrows1, length_app).
  assert (exists g2 l2 pc2, match pc1 with
      | locking => sink_locked answer g l1
      | _ => Some (g, l1, pc1)
      end = Some (g2, l2, pc2) /\ global_ok g2 /\ global_le g g2 /\ runs_rows g2 = runs_rows g /\
      sunk g g2 l chunk l2 pc2 /\ pc2 <> locking) as (g2 & l2 & pc2 & -> & Hg2 & Hle2 & Hruns2 & (Hpc2 & Hrows2 & Hin2) & Hne).
  { destruct pc1; try (exists g, l1; eexists; split_and!; [done | done | apply sort_global_le_refl | done | done | done]).
    destruct (sink_locked_ok answer g l1 (g_remaining _ Hg) Hpc1) as (g2 & l2 & pc2 & E2 & Hrem & Hs & Hle & (Hpc2 & Hrows2 & Hin2) & Hne);
      [lia |].
    exists g2, l2, pc2. split; [done |]. split; [by eapply same_runs_ok |]. split; [done |].
    split; [unfold runs_rows; by rewrite (same_sorted_runs _ _ Hs) |]. split.
    - split; [done |]. split; [by rewrite Hrows2, app_nil_r |]. done.
    - done. }
  cbn [mbind option_bind]. assert (Forall (pc_ok g2 sinking) ls) as Hls2.
  { eapply Forall_impl; [exact Hls |]. intros l0. by apply pc_ok_mono. }
  assert (pc2 = sinking \/ pc2 = adding) as [-> | ->].
  { clear -Hin2 Hne. rewrite !elem_of_cons, elem_of_nil in Hin2. naive_solver. }
  - exists g2, l2. rewrite Hruns2, Hrows2, length_app. split_and!; [done | | done | done]. by split; [| constructor].
  - destruct Hpc2 as [Hext2 (r & Hr & Hdone & He)].
    destruct (AddSortedRun_ok g2 l2 r Hg2 Hr) as (g3 & l3 & -> & Hg3 & Hle3 & Hc & Hx & Hr3 & Hl3 & Hrows3);
      [by rewrite He | by rewrite He |].
    assert (local_rows l3 = []) as E3 by (unfold local_rows; by rewrite Hr3).
    assert (local_rows l2 = run_rows r) as E2' by (unfold local_rows; by rewrite Hr).
    exists g3, l3. rewrite E2' in Hrows2. rewrite E3, app_nil_r, Hrows3, Hruns2, Hrows2.
    split; [done |]. split; [| split; [done | cbn; lia]]. split; [done |]. constructor.
    + split; [by rewrite Hl3, Hx |]. intros r2. by rewrite Hr3.
    + eapply Forall_impl; [exact Hls2 |]. intros l0. by apply pc_ok_mono.
Qed.

Lemma Sort_Combine_ok g l ls :
  sort_inv_ok g (l :: ls) ->
  exists g', (fst <$> Sort_Combine sort_run g l) = Some g' /\ sort_inv_ok g' ls /\
    runs_rows g' ≡ₚ runs_rows g ++ local_rows l.
Proof.
  intros [Hg [[Hext Hl] Hls]%Forall_cons]. unfold Sort_Combine, local_rows.
  destruct (sorted_run l) as [r |] eqn:Er; cycle 1.
  { exists g. cbn. rewrite app_nil_r. by split_and!. }
  destruct (Hl r eq_refl) as [Hf _]. unfold SortedRun_Finalize. rewrite Hf. cbn [mbind option_bind].
  destruct (Hsort (run_rows r)) as [Hp Hs].
  assert (global_le g (set_any_combined g)) as Hle by (split; cbn; auto).
  destruct (AddSortedRun_ok (set_any_combined g) (set_run {| run_rows := sort_run (run_rows r); finalized := true;
      run_external := sg_external g |} l) _ ltac:(by destruct Hg; split; cbn; auto) eq_refl)
    as (g' & l' & E2 & Hg' & Hle' & _ & _ & _ & _ & Hrows); [by split | done |].
  cbn [sg_external set_any_combined] in *. rewrite E2. exists g'. split; [done |]. split.
  - split; [done |]. eapply Forall_impl; [exact Hls |]. intros l0 H0.
    eapply pc_ok_mono; [exact Hle' |]. by eapply pc_ok_mono.
  - rewrite Hrows. cbn. by rewrite Hp.
Qed.

#[global] Instance Sort_laws : SortSinkLaws Sort_ops.
Proof.
  refine {| global_rows := runs_rows : GSink Sort_ops -> _; Sort.local_rows := local_rows : LSink Sort_ops -> _;
            sort_max_rows := max_rows; sort_inv := sort_inv_ok : GSink Sort_ops -> list (LSink Sort_ops) -> _ |}.
  - split; [| constructor]. by split.
  - intros g ls [Hg Hls]. split; [done |]. constructor; [by split | done].
  - intros g ls ls' Hp [Hg Hls]. split; [done |]. by rewrite <- Hp.
  - done.
  - done.
  - intros answer g l ls chunk. apply Sort_Sink_ok.
  - intros answer g l ls. apply Sort_Combine_ok.
  - intros g _. cbn. unfold Sort_Finalize. by destruct (sg_sorted_runs g).
Defined.
End sort_invariant.

(** ** Witnesses

    Two threads that sort numbers of 8 bytes with a reservation of 48 bytes; the
    memory manager grants nothing more, so the sort becomes external. *)

Definition example_size (rows : list Z) : Z := 8 * Z.of_nat (length rows).

Definition example_sort_inputs : list (list (list Z)) :=
  [[[5; 1]; [4; 9]; [3]]; [[8; 2]; [7]]].

Definition sort_schedule (n : nat) : list (nat * Z) := mjoin (replicate n [(0%nat, 48); (1%nat, 48)]).

Lemma merge_sort_sorts (rows : list Z) :
  merge_sort Z.le rows ≡ₚ rows /\ StronglySorted Z.le (merge_sort Z.le rows).
Proof. split; [apply merge_sort_Permutation | apply (StronglySorted_merge_sort Z.le)]. Qed.

Lemma example_size_fits rows :
  Z.of_nat (length rows) <= 1000 -> 0 <= example_size rows /\ 4 * (2 * example_size rows) <= 2 ^ 61.
Proof. unfold example_size. lia. Qed.

Lemma example_inputs_fit : inputs_fit 1000 example_sort_inputs.
Proof. unfold inputs_fit, example_sort_inputs. repeat constructor; cbn; lia. Qed.

Lemma sort_schedule_threads n : Forall (fun c => fst c < length example_sort_inputs)%nat (sort_schedule n).
Proof. unfold sort_schedule. apply Forall_join, Forall_replicate. cbn. repeat constructor. Qed.

Abbreviation example_sort n :=
  (run_sort example_size (merge_sort Z.le) false false 2 48 example_sort_inputs (sort_schedule n)).

(** The sort is external and has three runs. *)
Example example_runs_of_sort :
  (fun s => (sg_external (ss_global s), run_rows <$> sg_sorted_runs (ss_global s))) <$> example_sort 12 =
  Some (true, [[1; 4; 5; 9]; [2; 7; 8]; [3]]).
Proof. vm_compute. reflexivity. Qed.

Lemma Sort_runs_witness :
  exists s, example_sort 12 = Some s /\
    (any_combined (ss_global s) = false ->
     Forall (fun t => forall r, st_pc t = sinking -> sorted_run (st_local t) = Some r ->
       example_size (run_rows r) <= maximum_run_size (st_local t)) (ss_threads s)) /\
    (all_done s ->
     let '(output, g) := Sort_Finalize false 2 (ss_global s) in
     runs_rows g ≡ₚ mjoin (thread_inputs example_sort_inputs) /\
     Forall (run_done Z.le (sg_external g)) (sg_sorted_runs g) /\
     (output = false -> mjoin (thread_inputs example_sort_inputs) = []) /\
     sg_total_count g = Z.of_nat (length (mjoin (thread_inputs example_sort_inputs))) /\
     (mjoin (thread_inputs example_sort_inputs) <> [] -> 0 < sg_partition_size g)).
Proof.
  apply (Sort_runs example_size (merge_sort Z.le) Z.le false false false 2 48 1000);
    [exact merge_sort_sorts | lia | exact example_size_fits | lia | exact example_inputs_fit |].
  exact (sort_schedule_threads 12).
Defined.

Lemma Sort_terminates_witness :
  exists s, example_sort 12 = Some s /\ all_done s.
Proof.
  apply (Sort_terminates example_size (merge_sort Z.le) Z.le false false 2 48 1000);
    [exact merge_sort_sorts | lia | exact example_size_fits | lia | exact example_inputs_fit | |].
  - exact (sort_schedule_threads 12).
  - intros [| [| i]] input [= <-]; vm_compute; lia.
Defined.
