(* ===== verification/HashedSort.v ===== *)
(** * The hashed sort

    common/sort/hashed_sort.cpp: the sink of the window operator.  It computes the
    columns that the window function partitions and sorts by, distributes the rows
    of every thread by the hash of the PARTITION BY columns (RadixPartitioning) and
    gives them, hash group by hash group, to the sort.  With [shrink_partitions] a
    thread keeps, for every hash, a heap of the [predicate_value] smallest ORDER BY
    values and drops the rows above it (partition pruning); with
    [shrink_partitions_adaptive] it decides chunk by chunk whether pruning pays.

    A thread runs from one critical section to the next, so that a list of thread
    numbers is an interleaving.  HashedSortInvariant proves what every interleaving
    does.  A result of [None] is an assertion that fails, an exception or undefined
    behaviour.  All vectors of a chunk are flat: for a chunk with constant PARTITION BY
    values the pruning loop reads hashes that were not computed, and a selection
    that follows it goes to a wrong partition ([stale_constant_indices] of
    RadixPartitioning). *)

From S2P Require Import Prelude BitUtils Validity RadixPartitioning Sort.

(** ** WindowOperatorConfig *)

Record WindowOperatorConfig := {
  shrink_partitions : bool;
  simulate_shrink_partitions : bool;
  shrink_partitions_adaptive : bool;
  use_adaptivity_context : bool;
  predicate_value : Z;
  expected_partitions : Z;
  shrink_partitions_threshold : double
}.

(** ** HyperLogLog

    The registers of common/types/hyperloglog.cpp; the estimate of the number of
    elements from the counts of the registers is a parameter below. *)

Definition HLL_P : Z := 6.
Definition HLL_Q : Z := 64 - HLL_P.
Definition HLL_M : Z := Z.shiftl 1 HLL_P.

Definition HyperLogLog_new : list Z := replicate (Z.to_nat HLL_M) 0.

Definition HLL_Update (k : list Z) (i z : Z) : list Z :=
  <[Z.to_nat i := Z.max (znth 0 k i) z]> k.

Definition InsertElement (k : list Z) (h : Z) : list Z :=
  let i := Z.land h (Z.shiftl 1 HLL_P - 1) in
  let h := Z.lor (Z.shiftr h HLL_P) (Z.shiftl 1 HLL_Q) in
  HLL_Update k i (Trailing h + 1).

Definition ExtractCounts (k : list Z) : list Z :=
  (fun v => Z.of_nat (length (filter (eq v) k))) <$> zrange 0 (HLL_Q + 2).

(** ** Heaps of the smallest values *)

Definition INT32_MIN : Z := - 2 ^ 31.

(** [std::priority_queue<int32_t>] is the list of its values in descending order. *)
Fixpoint pq_push (v : Z) (q : list Z) : list Z :=
  match q with
  | [] => [v]
  | x :: q' => if x <=? v then v :: q else x :: pq_push v q'
  end.

(** [pop] and [top] of an empty queue are undefined. *)
Definition pq_pop (q : list Z) : option (list Z) :=
  match q with [] => None | _ :: q => Some q end.

Definition pq_top (q : list Z) : option Z := head q.

Record MinContainer := {
  mc_values : list Z;
  max_value : Z
}.

Definition MinContainer_new : MinContainer := {| mc_values := []; max_value := INT32_MIN |}.

(** One row of the pruning loop: the heaps after it and whether the row is kept. *)
Definition prune_row (value_count : Z) (minima : gmap Z MinContainer) (hash sort_value : Z)
    : option (gmap Z MinContainer * bool) :=
  let local_minima := default MinContainer_new (minima !! hash) in
  let minima := <[hash := local_minima]> minima in
  if Z.of_nat (length (mc_values local_minima)) <? value_count then
    Some (<[hash := {| mc_values := pq_push sort_value (mc_values local_minima);
                       max_value := Z.max (max_value local_minima) sort_value |}]> minima, true)
  else if sort_value <=? max_value local_minima then
    let values := pq_push sort_value (mc_values local_minima) in
    if value_count <? Z.of_nat (length values) then
      values ← pq_pop values;
      max_value ← pq_top values;
      Some (<[hash := {| mc_values := values; max_value := max_value |}]> minima, true)
    else Some (<[hash := {| mc_values := values; max_value := max_value local_minima |}]> minima, true)
  else Some (minima, false).

(** The loop over a chunk of hashes and sort values from row [i] on; the second
    component is the selection. *)
Fixpoint prune_rows (value_count i : Z) (minima : gmap Z MinContainer) (rows : list (Z * Z))
    : option (gmap Z MinContainer * list Z) :=
  match rows with
  | [] => Some (minima, [])
  | (hash, sort_value) :: rows =>
      '(minima, keep) ← prune_row value_count minima hash sort_value;
      '(minima, selection) ← prune_rows value_count (i + 1) minima rows;
      Some (minima, if (keep : bool) then i :: selection else selection)
  end.

(** ** The columns of the sort *)

Section columns.
Context {V E LogicalType : Type}.

Abbreviation Expression := (Expression E LogicalType).
Abbreviation BoundOrderByNode := (BoundOrderByNode E LogicalType).

Definition GenerateOrderings (partition_bys : list Expression) (order_bys : list BoundOrderByNode)
    : list BoundOrderByNode * list BoundOrderByNode :=
  let partitions := (fun pexpr => {| order_type := ASCENDING; null_order := NULLS_FIRST;
                                     order_expression := pexpr |}) <$> partition_bys in
  (partitions, partitions ++ order_bys).

Record HashedSort := {
  hs_partitions : list BoundOrderByNode;
  hs_orders : list BoundOrderByNode;
  sort_col_count : Z;
  payload_types : list LogicalType;
  force_payload : bool;
  scan_ids : list Z;
  sort_ids : list Z;
  sort_exprs : list E;
  estimated_cardinality : Z
}.

(** The orders with references to payload columns, the payload types, the sort
    columns and the expressions that must be computed. *)
Definition bind_order (acc : list BoundOrderByNode * list LogicalType * list Z * list E)
    (order : BoundOrderByNode) : list BoundOrderByNode * list LogicalType * list Z * list E :=
  let '(orders, types, ids, exprs) := acc in
  match order_expression order with
  | BOUND_REF _ index => (orders ++ [order], types, ids ++ [index], exprs)
  | OTHER t e =>
      let idx := Z.of_nat (length types) in
      (orders ++ [{| order_type := order_type order; null_order := null_order order;
                     order_expression := BOUND_REF t idx |}],
       types ++ [t], ids ++ [idx], exprs ++ [e])
  end.

(** [BOOLEAN] is the type of the forced payload column. *)
Definition HashedSort_new (BOOLEAN : LogicalType) (partition_bys : list Expression)
    (order_bys : list BoundOrderByNode) (input_types : list LogicalType)
    (estimated_cardinality : Z) (require_payload : bool) : HashedSort :=
  let '(partitions, orders) := GenerateOrderings partition_bys order_bys in
  let scan_ids := zrange 0 (Z.of_nat (length input_types)) in
  let '(orders, types, ids, exprs) := foldl bind_order ([], input_types, [], []) orders in
  let sort_col_count := Z.of_nat (length orders) + Z.of_nat (length partitions) in
  let force :=
    negb (sort_col_count =? 0) && require_payload &&
    (Z.of_nat (length types) <=? Z.of_nat (size (list_to_set ids : gset Z))) in
  {| hs_partitions := partitions; hs_orders := orders; sort_col_count := sort_col_count;
     payload_types := if force then types ++ [BOOLEAN] else types;
     force_payload := force; scan_ids := scan_ids; sort_ids := ids; sort_exprs := exprs;
     estimated_cardinality := estimated_cardinality |}.

(** ** Rows

    [eval] evaluates an expression on an input row, [hash_value] hashes a value
    and [int32_value] reads it as an [int32_t]. *)

Context (eval : E -> list V -> V) (null : V) (hash_value : V -> Z) (int32_value : V -> Z).

(** The payload: the input columns, the sort columns that are computed, and the
    forced column. *)
Definition payload_row (h : HashedSort) (row : list V) : list V :=
  row ++ ((fun e => eval e row) <$> sort_exprs h) ++ (if force_payload h then [null] else []).

Definition CombineHashScalar (a b : Z) : Z :=
  let a := Z.lxor a (Z.shiftr a 32) in
  Z.lxor (u64 (a * 0xd6e8feb86659fd93)) b.

(** The hash of the first PARTITION BY column. *)
Definition first_hash (h : HashedSort) (row : list V) : option Z :=
  order ← head (hs_partitions h);
  v ← eval_expression eval (order_expression order) row;
  Some (hash_value v).

Definition hash_row (h : HashedSort) (row : list V) : option Z :=
  values ← mapM (fun order => eval_expression eval (order_expression order) row) (hs_partitions h);
  match values with
  | [] => None
  | v :: vs => Some (foldl (fun hash v => CombineHashScalar hash (hash_value v)) (hash_value v) vs)
  end.

(** A row of the grouping data. *)
Record PayloadRow := {
  columns : list V;
  row_hash : Z
}.

Definition group_row (h : HashedSort) (row : list V) : option PayloadRow :=
  hash ← hash_row h row; Some {| columns := payload_row h row; row_hash := hash |}.

(** The column that is compared with the heaps, in the row of the input. *)
Definition sort_value (h : HashedSort) (row : list V) : option Z :=
  sort_column ← sort_ids h !! length (hs_partitions h);
  int32_value <$> zload row sort_column.
End columns.
Arguments HashedSort : clear implicits.
Arguments PayloadRow : clear implicits.

(** ** The state of the sink *)

Section sink.
Context {V E LogicalType : Type}.
Context (eval : E -> list V -> V) (null : V) (hash_value : V -> Z) (int32_value : V -> Z).
Context (EstimateCardinality : list Z -> Z).
Context (chunks : list (PayloadRow V) -> list (list (PayloadRow V))).
Context (ops : SortOps (list V)).
Context (config : WindowOperatorConfig) (h : HashedSort E LogicalType).

Abbreviation Chunk := (list (list V)).
Abbreviation row := (PayloadRow V).

(** [columns] of a group are its rows without a sort. *)
Record HashedSortGroup := {
  group_idx : Z;
  sort_global : option (GSink ops);
  group_columns : list (list V)
}.

Definition HashedSortGroup_new (with_sort : bool) (group_idx : Z) : HashedSortGroup :=
  {| group_idx := group_idx; sort_global := if with_sort then Some (sort_global_new ops) else None;
     group_columns := [] |}.

(** [grouping_data] never receives rows; only its radix bits matter. *)
Record GlobalSinkState := {
  grouping_data : option Z;
  fixed_bits : Z;
  hash_groups : list (option HashedSortGroup);
  max_bits : Z;
  gs_count : Z
}.

Record LocalSinkState := {
  local_grouping : option (PartitionedTupleData (A := row) * PartitionSel);
  sort_local : option (LSink ops);
  unsorted : option (list (list V));
  minima : gmap Z MinContainer;
  local_partition_count : Z;
  unique_partition_values : list Z;
  hashed_tuples : Z
}.

Definition set_grouping (d : option Z) (g : GlobalSinkState) : GlobalSinkState :=
  {| grouping_data := d; fixed_bits := fixed_bits g; hash_groups := hash_groups g;
     max_bits := max_bits g; gs_count := gs_count g |}.

Definition set_groups (groups : list (option HashedSortGroup)) (g : GlobalSinkState) : GlobalSinkState :=
  {| grouping_data := grouping_data g; fixed_bits := fixed_bits g; hash_groups := groups;
     max_bits := max_bits g; gs_count := gs_count g |}.

Definition set_local_grouping (d : option (PartitionedTupleData (A := row) * PartitionSel))
    (l : LocalSinkState) : LocalSinkState :=
  {| local_grouping := d; sort_local := sort_local l; unsorted := unsorted l; minima := minima l;
     local_partition_count := local_partition_count l;
     unique_partition_values := unique_partition_values l; hashed_tuples := hashed_tuples l |}.

(** ** Radix bits *)

(** [while (max_bits < 8 && (thread_pages >> max_bits) > 1)] *)
Fixpoint max_bits_loop (fuel : nat) (thread_pages max_bits : Z) : Z :=
  match fuel with
  | O => max_bits
  | S fuel =>
      if (max_bits <? 8) && (1 <? Z.shiftr thread_pages max_bits)
      then max_bits_loop fuel thread_pages (max_bits + 1)
      else max_bits
  end.

Fixpoint new_bits_loop (fuel : nat) (max_bits cardinality new_bits : Z) : Z :=
  match fuel with
  | O => new_bits
  | S fuel =>
      if (new_bits <? max_bits) &&
         (DEFAULT_ROW_GROUP_SIZE <? cardinality / NumberOfPartitions new_bits)
      then new_bits_loop fuel max_bits cardinality (new_bits + 1)
      else new_bits
  end.

(** The radix bits of new grouping data. *)
Definition CreatePartition (new_bits : Z) : option Z :=
  if new_bits <=? MAX_RADIX_BITS then Some new_bits else None.

Definition Rehash (cardinality : Z) (g : GlobalSinkState) : option GlobalSinkState :=
  if negb (fixed_bits g =? 0) then Some g
  else
    let bits := default 0 (grouping_data g) in
    let new_bits := if bits =? 0 then 4 else bits in
    let new_bits := new_bits_loop (Z.to_nat (max_bits g)) (max_bits g) cardinality new_bits in
    if new_bits =? bits then Some g
    else d ← CreatePartition new_bits; Some (set_grouping (Some d) g).

Definition GlobalSinkState_new (thread_pages : Z) : option GlobalSinkState :=
  let g := {| grouping_data := None; fixed_bits := 0; hash_groups := [];
              max_bits := max_bits_loop 8 thread_pages 1; gs_count := 0 |} in
  match hs_orders h, hs_partitions h with
  | [], _ => Some g
  | _, [] => Some (set_groups [Some (HashedSortGroup_new true 0)] g)
  | _, _ => Rehash (estimated_cardinality h) g
  end.

Definition LocalSinkState_new : LocalSinkState :=
  let sorted := negb (sort_col_count h =? 0) in
  {| local_grouping := None;
     sort_local := if sorted && (length (hs_partitions h) =? 0)%nat then Some (sort_local_new ops) else None;
     unsorted := if sorted then None else Some [];
     minima := ∅; local_partition_count := 0; unique_partition_values := HyperLogLog_new;
     hashed_tuples := 0 |}.

(** [SyncPartitioning], for the two sides of a join. *)
Definition SyncPartitioning (other g : GlobalSinkState) : option GlobalSinkState :=
  let fixed := default 0 (grouping_data other) in
  let old_bits := default 0 (grouping_data g) in
  d ← (if fixed =? old_bits then Some (grouping_data g) else Some <$> CreatePartition fixed);
  Some {| grouping_data := d; fixed_bits := fixed; hash_groups := hash_groups g;
          max_bits := max_bits g; gs_count := gs_count g |}.

Definition SyncLocalPartition (g : GlobalSinkState)
    (local : PartitionedTupleData (A := row) * PartitionSel)
    : option (PartitionedTupleData (A := row) * PartitionSel) :=
  new_bits ← grouping_data g;
  if radix_bits (fst local) =? new_bits then Some local
  else
    new_partition ← PartitionedTupleData_new new_bits;
    d ← Repartition row_hash chunks (fst local) new_partition;
    Some (d, AppendState_new d).

(** Under the lock of the global state. *)
Definition UpdateLocalPartition (g : GlobalSinkState) (l : LocalSinkState)
    : option (GlobalSinkState * LocalSinkState) :=
  match local_grouping l with
  | None =>
      bits ← grouping_data g;
      d ← PartitionedTupleData_new bits;
      Some (g, set_local_grouping (Some (d, AppendState_new d)) l)
  | Some local =>
      g ← Rehash (gs_count g) g;
      local ← SyncLocalPartition g local;
      Some (g, set_local_grouping (Some local) l)
  end.

(** ** Sink *)

Definition Hash (input : Chunk) (l : LocalSinkState) : option (list Z * LocalSinkState) :=
  hashes ← mapM (hash_row eval hash_value h) input;
  first ← mapM (first_hash eval hash_value h) input;
  Some (hashes,
    if shrink_partitions_adaptive config then
      if use_adaptivity_context config then
        let k := foldl InsertElement (unique_partition_values l) first in
        {| local_grouping := local_grouping l; sort_local := sort_local l; unsorted := unsorted l;
           minima := minima l; local_partition_count := EstimateCardinality (ExtractCounts k);
           unique_partition_values := k;
           hashed_tuples := hashed_tuples l + Z.of_nat (length input) |}
      else
        let k := foldl InsertElement HyperLogLog_new first in
        {| local_grouping := local_grouping l; sort_local := sort_local l; unsorted := unsorted l;
           minima := minima l; local_partition_count := EstimateCardinality (ExtractCounts k);
           unique_partition_values := unique_partition_values l; hashed_tuples := hashed_tuples l |}
    else l).

(** Whether pruning the chunk does not pay. *)
Definition adaptivity_skip (l : LocalSinkState) (chunk_size : Z) : bool :=
  if shrink_partitions_adaptive config then
    let k := u64 (predicate_value config) in
    let required_tuples := double_of_int (u64 (local_partition_count l * k)) in
    let tuples := if use_adaptivity_context config then hashed_tuples l else chunk_size in
    SFltb (shrink_partitions_threshold config) (double_div required_tuples (double_of_int tuples))
  else true.

Definition does_not_prune (l : LocalSinkState) (chunk_size : Z) : bool :=
  (negb (simulate_shrink_partitions config) && negb (shrink_partitions config)) ||
  (shrink_partitions_adaptive config && adaptivity_skip l chunk_size).

(** The vector of the hashes is flat, as all vectors of a chunk. *)
Definition append_local (l : LocalSinkState) (rows : list row) (append_sel : option (list Z))
    (append_count : Z) : option LocalSinkState :=
  local ← local_grouping l;
  local ← AppendUnified row_hash (fst local) (snd local) FLAT_VECTOR rows append_sel append_count;
  Some (set_local_grouping (Some local) l).

Definition set_minima (m : gmap Z MinContainer) (l : LocalSinkState) : LocalSinkState :=
  {| local_grouping := local_grouping l; sort_local := sort_local l; unsorted := unsorted l;
     minima := m; local_partition_count := local_partition_count l;
     unique_partition_values := unique_partition_values l; hashed_tuples := hashed_tuples l |}.

(** [Sink] with PARTITION BY. *)
Definition sink_partitioned (g : GlobalSinkState) (l : LocalSinkState) (input : Chunk)
    : option (GlobalSinkState * LocalSinkState) :=
  let chunk_size := Z.of_nat (length input) in
  '(hashes, l) ← Hash input l;
  let rows := zip_with (fun r hash => {| columns := payload_row eval null h r; row_hash := hash |})
                input hashes in
  if does_not_prune l chunk_size then
    '(g, l) ← UpdateLocalPartition g l;
    l ← append_local l rows None chunk_size;
    Some (g, l)
  else if simulate_shrink_partitions config then
    '(g, l) ← UpdateLocalPartition g l;
    let required_tuples_per_partition := u64 (u64 (predicate_value config) * expected_partitions config) in
    let result_count := Z.min chunk_size required_tuples_per_partition in
    l ← append_local l rows (Some (zrange 0 result_count)) result_count;
    Some (g, l)
  else
    '(g, l) ← UpdateLocalPartition g l;
    sort_values ← mapM (sort_value int32_value h) input;
    '(m, selection) ← prune_rows (u64 (predicate_value config)) 0 (minima l) (zip hashes sort_values);
    l ← append_local (set_minima m l) rows (Some selection) (Z.of_nat (length selection));
    Some (g, l).

(** The count of a chunk, before anything else. *)
Definition sink_count (g : GlobalSinkState) (input : Chunk) : GlobalSinkState :=
  {| grouping_data := grouping_data g; fixed_bits := fixed_bits g; hash_groups := hash_groups g;
     max_bits := max_bits g; gs_count := gs_count g + Z.of_nat (length input) |}.

Definition set_group (i : nat) (group : HashedSortGroup) (g : GlobalSinkState) : GlobalSinkState :=
  set_groups (<[i := Some group]> (hash_groups g)) g.

Definition set_sort_global (s : GSink ops) (group : HashedSortGroup) : HashedSortGroup :=
  {| group_idx := group_idx group; sort_global := Some s; group_columns := group_columns group |}.

Definition Sink (env : Env ops) (g : GlobalSinkState) (l : LocalSinkState) (input : Chunk)
    : option (GlobalSinkState * LocalSinkState) :=
  if sort_col_count h =? 0 then
    rows ← unsorted l;
    Some (g, {| local_grouping := local_grouping l; sort_local := sort_local l;
                unsorted := Some (rows ++ input); minima := minima l;
                local_partition_count := local_partition_count l;
                unique_partition_values := unique_partition_values l;
                hashed_tuples := hashed_tuples l |})
  else
    match sort_local l with
    | Some local =>
        group ← mjoin (hash_groups g !! 0%nat);
        global ← sort_global group;
        '(global, local) ← sort_sink ops env global local (payload_row eval null h <$> input);
        Some (set_group 0 (set_sort_global global group) g,
              {| local_grouping := local_grouping l; sort_local := Some local; unsorted := unsorted l;
                 minima := minima l; local_partition_count := local_partition_count l;
                 unique_partition_values := unique_partition_values l;
                 hashed_tuples := hashed_tuples l |})
    | None => sink_partitioned g l input
    end.

(** ** Combine *)

(** The groups that the partitions of a thread need. *)
Definition create_groups (groups : list (option HashedSortGroup)) (partitions : list (list row))
    : option (list (option HashedSortGroup)) :=
  let groups := if (length groups =? 0)%nat then replicate (length partitions) None else groups in
  ofold (fun groups group_idx =>
    hash_group ← zload groups group_idx;
    group_data ← zload partitions group_idx;
    match hash_group with
    | Some _ => Some groups
    | None =>
        if (length group_data =? 0)%nat then Some groups
        else zstore groups group_idx (Some (HashedSortGroup_new true group_idx))
    end) groups (zrange 0 (Z.of_nat (length partitions))).

(** Under the lock of the global state. *)
Definition CombineLocalPartition (g : GlobalSinkState) (l : LocalSinkState)
    : option (GlobalSinkState * LocalSinkState) :=
  match local_grouping l with
  | None => Some (g, l)
  | Some local =>
      local ← SyncLocalPartition g local;
      groups ← create_groups (hash_groups g) (partitions (fst local));
      Some ({| grouping_data := grouping_data g; fixed_bits := 1; hash_groups := groups;
               max_bits := max_bits g; gs_count := gs_count g |},
            set_local_grouping (Some local) l)
  end.

(** [Combine] without PARTITION BY. *)
Definition combine_unsorted (g : GlobalSinkState) (l : LocalSinkState)
    : option (GlobalSinkState * LocalSinkState) :=
  let l' := {| local_grouping := local_grouping l; sort_local := sort_local l; unsorted := None;
               minima := minima l; local_partition_count := local_partition_count l;
               unique_partition_values := unique_partition_values l;
               hashed_tuples := hashed_tuples l |} in
  match hash_groups g with
  | [] =>
      Some (set_groups [Some {| group_idx := 0; sort_global := None;
                                group_columns := default [] (unsorted l) |}] g, l')
  | [Some group] =>
      Some (set_groups [Some {| group_idx := group_idx group; sort_global := sort_global group;
                                group_columns := group_columns group ++ default [] (unsorted l) |}] g, l')
  | _ => None
  end.

Definition combine_sorted (env : Env ops) (g : GlobalSinkState) (l : LocalSinkState) (local : LSink ops)
    : option (GlobalSinkState * LocalSinkState) :=
  group ← mjoin (hash_groups g !! 0%nat);
  global ← sort_global group;
  global ← sort_combine ops env global local;
  Some (set_group 0 (set_sort_global global group) g,
        {| local_grouping := local_grouping l; sort_local := None; unsorted := unsorted l;
           minima := minima l; local_partition_count := local_partition_count l;
           unique_partition_values := unique_partition_values l; hashed_tuples := hashed_tuples l |}).

(** Where a thread is: before its next chunk, behind the count of a chunk, before
    partition [hash_bin] of its [Combine], before chunk [i] of the scan of that
    partition, or at the end. *)
Inductive Pc :=
  | running
  | counted (chunk : Chunk)
  | combining (hash_bin : nat)
  | scanning (hash_bin i : nat)
  | combined.

Definition set_sort_local (s : option (LSink ops)) (l : LocalSinkState) : LocalSinkState :=
  {| local_grouping := local_grouping l; sort_local := s; unsorted := unsorted l; minima := minima l;
     local_partition_count := local_partition_count l;
     unique_partition_values := unique_partition_values l; hashed_tuples := hashed_tuples l |}.

(** One partition of a thread becomes runs of its group: a new local state of the
    sort, a [Sink] for every chunk of the scan, and a [Combine]. *)
Definition start_bin (l : LocalSinkState) (hash_bin : nat) : option (LocalSinkState * Pc) :=
  '(d, _) ← local_grouping l;
  match partitions d !! hash_bin with
  | None => Some (l, combined)
  | Some partition =>
      if (length partition =? 0)%nat then Some (l, combining (S hash_bin))
      else Some (set_sort_local (Some (sort_local_new ops)) l, scanning hash_bin 0)
  end.

Definition scan_bin (env : Env ops) (g : GlobalSinkState) (l : LocalSinkState) (hash_bin i : nat)
    : option (GlobalSinkState * LocalSinkState * Pc) :=
  '(d, _) ← local_grouping l;
  partition ← partitions d !! hash_bin;
  group ← mjoin (hash_groups g !! hash_bin);
  global ← sort_global group;
  local ← sort_local l;
  match chunks partition !! i with
  | Some chunk =>
      '(global, local) ← sort_sink ops env global local (columns <$> chunk);
      Some (set_group hash_bin (set_sort_global global group) g, set_sort_local (Some local) l,
            scanning hash_bin (S i))
  | None =>
      global ← sort_combine ops env global local;
      Some (set_group hash_bin (set_sort_global global group) g, l, combining (S hash_bin))
  end.

(** ** Finalize *)

Inductive SinkFinalizeType : Set := READY | NO_OUTPUT_POSSIBLE.

Definition Finalize (g : GlobalSinkState) : option (SinkFinalizeType * GlobalSinkState) :=
  if gs_count g =? 0 then Some (NO_OUTPUT_POSSIBLE, g)
  else if sort_col_count h =? 0 then Some (READY, g)
  else if (length (hash_groups g) =? 0)%nat then None
  else
    groups ← mapM (fun group =>
      match group with
      | None => Some None
      | Some group =>
          global ← sort_global group;
          Some (Some (set_sort_global (sort_finalize ops global) group))
      end) (hash_groups g);
    Some (READY, set_groups groups g).

(** ** Threads *)

Record Thread := {
  th_input : list Chunk;
  th_pc : Pc;
  th_local : LocalSinkState
}.

Record SinkSystem := {
  sink_global : GlobalSinkState;
  sink_threads : list Thread
}.

(** The first step of [Combine]. *)
Definition combine_start (env : Env ops) (g : GlobalSinkState) (l : LocalSinkState)
    : option (GlobalSinkState * LocalSinkState * Pc) :=
  if sort_col_count h =? 0 then
    '(g, l) ← combine_unsorted g l; Some (g, l, combined)
  else
    match sort_local l with
    | Some local => '(g, l) ← combine_sorted env g l local; Some (g, l, combined)
    | None =>
        match local_grouping l with
        | None => Some (g, l, combined)
        | Some _ => '(g, l) ← CombineLocalPartition g l; Some (g, l, combining 0)
        end
    end.

Definition thread_step (env : Env ops) (g : GlobalSinkState) (t : Thread)
    : option (GlobalSinkState * Thread) :=
  let l := th_local t in
  match th_pc t with
  | running =>
      match th_input t with
      | chunk :: input =>
          Some (sink_count g chunk, {| th_input := input; th_pc := counted chunk; th_local := l |})
      | [] =>
          '(g, l, pc) ← combine_start env g l;
          Some (g, {| th_input := []; th_pc := pc; th_local := l |})
      end
  | counted chunk =>
      '(g, l) ← Sink env g l chunk;
      Some (g, {| th_input := th_input t; th_pc := running; th_local := l |})
  | combining hash_bin =>
      '(l, pc) ← start_bin l hash_bin;
      Some (g, {| th_input := th_input t; th_pc := pc; th_local := l |})
  | scanning hash_bin i =>
      '(g, l, pc) ← scan_bin env g l hash_bin i;
      Some (g, {| th_input := th_input t; th_pc := pc; th_local := l |})
  | combined => Some (g, t)
  end.

Definition system_step (s : SinkSystem) (c : nat * Env ops) : option SinkSystem :=
  t ← sink_threads s !! fst c;
  '(g, t) ← thread_step (snd c) (sink_global s) t;
  Some {| sink_global := g; sink_threads := <[fst c := t]> (sink_threads s) |}.

Definition SinkSystem_new (thread_pages : Z) (inputs : list (list Chunk)) : option SinkSystem :=
  g ← GlobalSinkState_new thread_pages;
  Some {| sink_global := g;
          sink_threads := (fun input => {| th_input := input; th_pc := running;
                                           th_local := LocalSinkState_new |}) <$> inputs |}.

Definition run_sink (thread_pages : Z) (inputs : list (list Chunk))
    (schedule : list (nat * Env ops)) : option SinkSystem :=
  s ← SinkSystem_new thread_pages inputs; ofold system_step s schedule.
End sink.

(** ** Collisions

    The heaps are found by the hash alone, so rows of different partitions with the
    same hash share a heap. *)

Lemma CombineHashScalar_solve a1 b1 a2 :
  CombineHashScalar a2 (Z.lxor (CombineHashScalar a2 0) (CombineHashScalar a1 b1)) =
  CombineHashScalar a1 b1.
Proof.
  unfold CombineHashScalar at 1 2. cbv zeta. rewrite Z.lxor_0_r, <- Z.lxor_assoc, Z.lxor_nilpotent.
  apply Z.lxor_0_l.
Qed.

Lemma prune_same_hash hash v w :
  INT32_MIN <= v < w -> exists m, prune_rows 1 0 ∅ [(hash, v); (hash, w)] = Some (m, [0]).
Proof.
  intros Hvw.
  assert (prune_row 1 ∅ hash v = Some (<[hash := {| mc_values := [v]; max_value := v |}]>
    (<[hash := MinContainer_new]> ∅), true)) as E1.
  { unfold prune_row. rewrite lookup_empty. cbn. by rewrite Z.max_r by lia. }
  cbn [prune_rows]. rewrite E1. cbn [mbind option_bind]. unfold prune_row. rewrite lookup_insert_eq.
  cbn [from_option id mc_values length max_value]. change (Z.of_nat 1 <? 1) with false.
  rewrite (proj2 (Z.leb_gt w v)) by lia. by eexists.
Qed.

(** C38. For every hash of a two-column partition and every hash of a first column
    there is a hash of a second column that gives the same combined hash, and
    pruning with predicate 1 then drops the row with the larger ORDER BY value,
    although it is the only row of its partition. *)
Theorem partition_pruning_collision a1 b1 a2 v w :
  INT32_MIN <= v < w ->
  exists b2 m, CombineHashScalar a1 b1 = CombineHashScalar a2 b2 /\
    prune_rows 1 0 ∅ [(CombineHashScalar a1 b1, v); (CombineHashScalar a2 b2, w)] = Some (m, [0]).
Proof.
  intros Hvw. exists (Z.lxor (CombineHashScalar a2 0) (CombineHashScalar a1 b1)).
  rewrite CombineHashScalar_solve. destruct (prune_same_hash (CombineHashScalar a1 b1) v w Hvw) as [m E].
  by exists m.
Qed.

Lemma partition_pruning_collision_witness :
  exists b2 m, CombineHashScalar 7 11 = CombineHashScalar 13 b2 /\
    prune_rows 1 0 ∅ [(CombineHashScalar 7 11, 3); (CombineHashScalar 13 b2, 4)] = Some (m, [0]).
Proof. apply (partition_pruning_collision 7 11 13 3 4). unfold INT32_MIN. lia. Defined.

(** A predicate of 0 keeps no value: the smallest [int32_t] is pushed and popped, and
    the top of an empty queue is read. *)
Example prune_row_predicate_zero : prune_row 0 ∅ 1 INT32_MIN = None.
Proof. reflexivity. Qed.
