(* ===== verification/HashedSortInvariant.v ===== *)
(** * The hashed sort: theorems

    Every interleaving of the threads of the hashed sort keeps the invariant
    [sink_ok]: no access fails, the radix bits of the threads that combine agree,
    and every hash group holds the rows that were kept and belong to it.  The rows
    that partition pruning drops are not needed for a predicate on RANK (Pruning),
    as long as no two partitions have the same hash. *)

From S2P Require Import Prelude Validity RadixPartitioning Pruning Sort HashedSort.

(** ** Heaps *)

Lemma pq_push_perm v q : pq_push v q ≡ₚ v :: q.
Proof.
  induction q as [| x q IH]; [done |]. cbn [pq_push]. destruct (x <=? v); [done |].
  rewrite IH. apply Permutation_swap.
Qed.

Lemma pq_push_sorted v q : StronglySorted Z.ge q -> StronglySorted Z.ge (pq_push v q).
Proof.
  induction 1 as [| x q Hq IH Hx]; [by repeat constructor |]. cbn [pq_push].
  destruct (Z.leb_spec x v).
  - constructor; [by constructor |]. constructor; [lia |].
    eapply Forall_impl; [exact Hx |]. cbn. intros. lia.
  - constructor; [done |]. rewrite pq_push_perm. constructor; [lia | done].
Qed.

Section heaps.
Context {A : Type} (hash ord : A -> Z) (k : Z).
Implicit Types (K rows : list A) (m : gmap Z MinContainer) (r : A).

Abbreviation pairs rows := ((fun r => (hash r, ord r)) <$> rows).
Abbreviation rank := (Pruning.rank hash ord).

(** The values of a heap are order values of rows with its hash. *)
Record heap_ok (K : list A) (h : Z) (c : MinContainer) : Prop := {
  heap_sorted : StronglySorted Z.ge (mc_values c);
  heap_max : Forall (fun v => v <= max_value c) (mc_values c);
  heap_rows : mc_values c ⊆+ (ord <$> filter (fun r => hash r = h) K);
  heap_size : Z.of_nat (length (mc_values c)) <= k
}.

Definition minima_ok (K : list A) (m : gmap Z MinContainer) : Prop :=
  forall h c, m !! h = Some c -> heap_ok K h c.

Lemma heap_ok_app K K' h c : heap_ok K h c -> heap_ok (K ++ K') h c.
Proof.
  intros [? ? Hr ?]. split; [done | done | | done].
  etransitivity; [exact Hr |]. rewrite filter_app, fmap_app. by apply submseteq_inserts_r.
Qed.

Lemma minima_ok_app K K' m : minima_ok K m -> minima_ok (K ++ K') m.
Proof. intros H h c Hc. by apply heap_ok_app, H. Qed.

Lemma minima_ok_perm K K' m : K ≡ₚ K' -> minima_ok K m -> minima_ok K' m.
Proof.
  intros HK H h c Hc. destruct (H h c Hc) as [? ? Hr ?]. split; [done | done | | done].
  by rewrite <- HK.
Qed.

Lemma minima_ok_insert K m h c : minima_ok K m -> heap_ok K h c -> minima_ok K (<[h := c]> m).
Proof.
  intros Hm Hc h' c' H. destruct (decide (h = h')) as [<- |].
  - rewrite lookup_insert_eq in H. by injection H as <-.
  - rewrite lookup_insert_ne in H by done. by apply Hm.
Qed.

Lemma heap_ok_new K h : 0 <= k -> heap_ok K h MinContainer_new.
Proof. intros Hk. split; cbn; [constructor | constructor | apply submseteq_nil_l | lia]. Qed.

(** A value that does not fit under the full heap has [k] smaller values. *)
Lemma full_heap_smaller K h c r :
  heap_ok K h c -> k <= Z.of_nat (length (mc_values c)) -> hash r = h -> max_value c < ord r ->
  k < rank K r.
Proof.
  intros [_ Hmax Hrows _] Hlen <- Hr. unfold Pruning.rank, smaller.
  assert (mc_values c ⊆+ (ord <$> filter (precedes hash ord r) K)) as Hs%submseteq_length.
  { revert Hrows Hmax. generalize (mc_values c). clear -Hr. intros vs Hrows Hmax.
    assert (filter (fun v => v < ord r) vs = vs) as E.
    { clear Hrows. induction Hmax as [| v vs Hv _ IH]; [done |].
      rewrite filter_cons_True by lia. by rewrite IH. }
    apply submseteq_Permutation in Hrows as [rest Hrest].
    transitivity (filter (fun v => v < ord r) (ord <$> filter (fun x => hash x = hash r) K)).
    { rewrite Hrest, filter_app, E. by apply submseteq_inserts_r. }
    clear. induction K as [| x K IH]; [done |]. rewrite !filter_cons. unfold precedes at 1.
    repeat case_decide; cbn [fmap list_fmap]; rewrite ?filter_cons; unfold precedes in *;
      repeat case_decide; try lia; try done.
    all: by apply submseteq_skip || done. }
  rewrite length_fmap in Hs. lia.
Qed.

Lemma push_heap_ok K h c r :
  heap_ok K h c -> hash r = h -> Z.of_nat (length (mc_values c)) < k ->
  heap_ok (K ++ [r]) h {| mc_values := pq_push (ord r) (mc_values c);
                          max_value := Z.max (max_value c) (ord r) |}.
Proof.
  intros [Hs Hm Hr Hl] <- Hlt. split; cbn [mc_values max_value].
  - by apply pq_push_sorted.
  - rewrite pq_push_perm. constructor; [lia |]. eapply Forall_impl; [exact Hm |]. cbn. intros. lia.
  - rewrite pq_push_perm, filter_app, fmap_app, filter_cons_True by done. cbn.
    rewrite (Permutation_app_comm _ [_]). by apply submseteq_skip.
  - rewrite (Permutation_length (pq_push_perm _ _)). cbn [length]. lia.
Qed.

Lemma pop_heap_ok K h c r :
  1 <= k -> heap_ok K h c -> hash r = h -> k <= Z.of_nat (length (mc_values c)) ->
  exists values v, pq_pop (pq_push (ord r) (mc_values c)) = Some values /\ pq_top values = Some v /\
    heap_ok (K ++ [r]) h {| mc_values := values; max_value := v |}.
Proof.
  intros Hk [Hs Hm Hr Hl] <- Hge.
  pose proof (pq_push_sorted (ord r) _ Hs) as Hs'.
  pose proof (pq_push_perm (ord r) (mc_values c)) as Hp.
  pose proof (Permutation_length Hp) as Hlen. cbn [length] in Hlen.
  destruct (pq_push (ord r) (mc_values c)) as [| x [| v values]] eqn:E; [cbn in Hlen; lia .. |].
  exists (v :: values), v. split_and!; [done | done |].
  inversion Hs' as [| ? ? Hs1 Hx]; subst. inversion Hs1 as [| ? ? Hs2 Hv]; subst.
  split; cbn [mc_values max_value].
  - done.
  - constructor; [lia |]. eapply Forall_impl; [exact Hv |]. cbn. intros. lia.
  - rewrite filter_app, fmap_app, filter_cons_True by done. cbn.
    transitivity (x :: v :: values); [by apply submseteq_cons |].
    rewrite Hp, (Permutation_app_comm _ [_]). by apply submseteq_skip.
  - cbn [length] in *. lia.
Qed.

Lemma prune_row_spec K m r :
  1 <= k -> minima_ok K m ->
  exists m' keep, prune_row k m (hash r) (ord r) = Some (m', keep) /\
    minima_ok (if keep : bool then K ++ [r] else K) m' /\ (keep = false -> k < rank K r).
Proof.
  intros Hk Hm. unfold prune_row.
  set (c := default MinContainer_new (m !! hash r)).
  assert (heap_ok K (hash r) c) as Hc.
  { unfold c. destruct (m !! hash r) as [c' |] eqn:E; [by apply Hm | apply heap_ok_new; lia]. }
  pose proof (minima_ok_insert K m (hash r) c Hm Hc) as Hm'.
  destruct (Z.ltb_spec (Z.of_nat (length (mc_values c))) k).
  { eexists _, true. split; [done |]. split; [| done].
    apply minima_ok_insert; [by apply minima_ok_app | by apply push_heap_ok]. }
  destruct (Z.leb_spec (ord r) (max_value c)).
  - destruct (pop_heap_ok K (hash r) c r) as (values & v & Hp & Ht & Hok); [done ..|].
    rewrite (Permutation_length (pq_push_perm _ _)). cbn [length].
    rewrite (proj2 (Z.ltb_lt _ _)) by lia. rewrite Hp. cbn [mbind option_bind]. rewrite Ht.
    cbn [mbind option_bind]. eexists _, true. split; [done |]. split; [| done].
    apply minima_ok_insert; [by apply minima_ok_app | done].
  - eexists _, false. split; [done |]. split; [done |]. intros _.
    by eapply full_heap_smaller.
Qed.

(** The loop over a chunk that starts at row [length pre] of [pre ++ rows]. *)
Lemma prune_rows_spec K m pre rows :
  1 <= k -> minima_ok K m ->
  exists m' selection kept dropped,
    prune_rows k (Z.of_nat (length pre)) m (pairs rows) = Some (m', selection) /\
    mapM (zload (pre ++ rows)) selection = Some kept /\ rows ≡ₚ kept ++ dropped /\
    (length kept <= length rows)%nat /\
    minima_ok (K ++ kept) m' /\ Forall (fun r => k < rank (K ++ kept) r) dropped.
Proof.
  intros Hk. revert K m pre. induction rows as [| r rows IH]; intros K m pre Hm.
  - exists m, [], [], []. cbn. rewrite app_nil_r. split_and!; [done .. | constructor].
  - destruct (prune_row_spec K m r Hk Hm) as (m1 & keep & E & Hm1 & Hdrop).
    cbn [fmap list_fmap prune_rows]. rewrite E. cbn [mbind option_bind].
    destruct (IH (if keep then K ++ [r] else K) m1 (pre ++ [r]) Hm1)
      as (m2 & sel & kept & dropped & E2 & Hsel & Hperm & Hlen & Hm2 & Hd).
    rewrite length_app, Nat2Z.inj_add in E2. change (Z.of_nat (length [r])) with 1 in E2.
    rewrite E2. cbn [mbind option_bind]. rewrite <- app_assoc in Hsel. cbn [app] in Hsel.
    assert (zload (pre ++ r :: rows) (Z.of_nat (length pre)) = Some r) as Hl.
    { unfold zload. rewrite decide_True, Nat2Z.id by lia. by apply list_lookup_middle. }
    destruct keep.
    + exists m2, (Z.of_nat (length pre) :: sel), (r :: kept), dropped.
      rewrite <- app_assoc in Hm2, Hd. cbn [app mapM length] in *. rewrite Hl, Hsel.
      split_and!; [done | done | by rewrite Hperm | lia | done | done].
    + exists m2, sel, kept, (r :: dropped).
      split_and!; [done | done | | cbn; lia | done | constructor; [| done]].
      * rewrite Hperm. apply Permutation_middle.
      * pose proof (rk_app hash ord (rk := rank) K kept r). specialize (Hdrop eq_refl). lia.
Qed.

(** Pruning one more chunk. *)
Lemma prune_chunk_safe D K rows kept dropped :
  prune rank k D K -> rows ≡ₚ kept ++ dropped -> Forall (fun r => k < rank (K ++ kept) r) dropped ->
  prune rank k (D ++ rows) (K ++ kept).
Proof.
  intros (R & HD & HR) Hrows Hd. exists (R ++ dropped).
  assert (D ++ rows ≡ₚ (K ++ kept) ++ R ++ dropped) as Hall.
  { rewrite HD, Hrows, <- !app_assoc. apply Permutation_app_head.
    rewrite !app_assoc. apply Permutation_app_tail, Permutation_app_comm. }
  split; [done |]. apply Forall_app. split.
  - eapply Forall_impl; [exact HR |]. intros r Hr. cbn in Hr.
    pose proof (rk_app hash ord (rk := rank) D rows r). lia.
  - eapply Forall_impl; [exact Hd |]. intros r Hr. cbn in Hr.
    pose proof (rk_app hash ord (rk := rank) (K ++ kept) (R ++ dropped) r).
    rewrite (rk_proper hash ord rank _ _ Hall r r eq_refl). lia.
Qed.
End heaps.

(** ** The invariant *)

Section invariant.
Context {V E LogicalType : Type}.
Context (eval : E -> list V -> V) (null : V) (hash_value : V -> Z) (int32_value : V -> Z).
Context (EstimateCardinality : list Z -> Z).
Context (chunks : list (PayloadRow V) -> list (list (PayloadRow V))) `{!ChunkIterator chunks}.
Context (ops : SortOps (list V)) `{!SortSinkLaws ops}.
Context (config : WindowOperatorConfig) (h : HashedSort E LogicalType).

Abbreviation row := (PayloadRow V).
Abbreviation Chunk := (list (list V)).
Abbreviation GlobalSinkState := (GlobalSinkState ops).
Abbreviation LocalSinkState := (LocalSinkState ops).
Abbreviation group_row := (group_row eval null hash_value h).
Abbreviation Thread := (Thread ops).

(** Sorting with PARTITION BY, without the simulation of pruning, and with a
    predicate that a heap can hold. *)
Context (Hparts : hs_partitions h <> []) (Horders : hs_orders h <> []) (Hcols : 0 < sort_col_count h).
Context (Hsimulate : simulate_shrink_partitions config = false).
Context (Hpredicate : shrink_partitions config = true -> 1 <= u64 (predicate_value config)).

Definition value_count : Z := u64 (predicate_value config).

(** The ORDER BY value that pruning compares. *)
Definition ord (r : row) : Z :=
  default 0 (c ← sort_ids h !! length (hs_partitions h); int32_value <$> zload (columns r) c).

Abbreviation rank := (Pruning.rank row_hash ord).

Definition row_ok (r : list V) : Prop :=
  is_Some (group_row r) /\ (shrink_partitions config = true -> is_Some (sort_value int32_value h r)).

Definition chunk_ok (chunk : Chunk) : Prop :=
  Z.of_nat (length chunk) <= STANDARD_VECTOR_SIZE /\ Forall row_ok chunk.

(** The payload rows of input rows. *)
Definition grouped (input : list (list V)) : list row := omap group_row input.

Definition kept_rows (l : LocalSinkState) : list row :=
  match local_grouping _ l with
  | Some (d, _) => mjoin (partitions d)
  | None => []
  end.

(** The kept rows [K] of the rows [D]. *)
Definition kept_ok (D K : list row) : Prop :=
  prune rank value_count D K /\ (shrink_partitions config = false -> D ≡ₚ K).

Record global_ok (g : GlobalSinkState) (bits : Z) : Prop := {
  g_bits : grouping_data _ g = Some bits;
  g_bits_range : 4 <= bits <= 8;
  g_max : max_bits _ g <= 8;
  g_fresh : fixed_bits _ g = 0 -> hash_groups _ g = [];
  g_fixed : fixed_bits _ g <> 0 -> length (hash_groups _ g) = Z.to_nat (2 ^ bits);
  g_groups : forall i group, hash_groups _ g !! i = Some (Some group) -> is_Some (sort_global _ group)
}.

(** The state of a thread that has sunk the rows [D]. *)
Definition local_ok (bits : Z) (l : LocalSinkState) (D : list row) : Prop :=
  sort_local _ l = None /\ kept_ok D (kept_rows l) /\ minima_ok row_hash ord value_count (kept_rows l) (minima _ l) /\
  match local_grouping _ l with
  | None => D = []
  | Some (d, s) =>
      (exists rows, holds row_hash d rows) /\ 4 <= radix_bits d <= bits /\
      append_state_ok (length (partitions d)) s
  end.

Lemma kept_holds l d s rows :
  local_grouping _ l = Some (d, s) -> holds row_hash d rows -> kept_rows l ≡ₚ rows.
Proof.
  intros E0 (Hb & Hp & _). unfold kept_rows. rewrite E0, Hp. by apply mjoin_partitioned.
Qed.

(** ** Rows *)

Lemma mapM_grouped input :
  Forall row_ok input -> mapM group_row input = Some (grouped input).
Proof.
  induction 1 as [| r input [[pr Hr] _] _ IH]; [done |]. unfold grouped. cbn [mapM].
  rewrite Hr. cbn [mbind option_bind omap list_omap]. rewrite Hr. fold (grouped input).
  rewrite IH. done.
Qed.

Lemma group_row_inv r pr :
  group_row r = Some pr ->
  exists hash, hash_row eval hash_value h r = Some hash /\
    pr = {| columns := payload_row eval null h r; row_hash := hash |}.
Proof.
  unfold HashedSort.group_row. intros H. destruct (hash_row _ _ _ _) as [hash |]; [| done].
  cbn in H. injection H as <-. eauto.
Qed.

Lemma first_hash_ok r : is_Some (group_row r) -> is_Some (first_hash eval hash_value h r).
Proof.
  intros [pr (hash & H & _)%group_row_inv]. unfold hash_row, first_hash in *.
  destruct (hs_partitions h) as [| p ps]; [done |]. cbn [head mbind option_bind mapM] in *.
  destruct (eval_expression _ _ _) as [v |]; [by eexists | done].
Qed.

Lemma ord_sort_value r pr v :
  group_row r = Some pr -> sort_value int32_value h r = Some v -> ord pr = v.
Proof.
  intros (hash & _ & ->)%group_row_inv Hv. unfold sort_value, ord in *.
  destruct (sort_ids h !! length (hs_partitions h)) as [c |]; [| done].
  cbn [mbind option_bind columns] in *. unfold payload_row, zload in *.
  case_decide; [| done]. destruct (r !! Z.to_nat c) as [x |] eqn:Ex; [| done].
  rewrite (lookup_app_l_Some _ _ _ _ Ex). cbn in *. by injection Hv.
Qed.

(** The hashes, the payload rows and the sort values of a chunk. *)
Lemma chunk_hashes chunk :
  Forall row_ok chunk ->
  mapM (hash_row eval hash_value h) chunk = Some (row_hash <$> grouped chunk) /\
  zip_with (fun r hash => {| columns := payload_row eval null h r; row_hash := hash |}) chunk
    (row_hash <$> grouped chunk) = grouped chunk /\
  is_Some (mapM (first_hash eval hash_value h) chunk) /\
  (shrink_partitions config = true ->
   mapM (sort_value int32_value h) chunk = Some (ord <$> grouped chunk)).
Proof.
  induction 1 as [| r chunk [[pr Hr] Hv] _ (IH1 & IH2 & IH3 & IH4)].
  - split_and!; [done | done | by eexists | done].
  - unfold grouped. cbn [mapM omap list_omap]. rewrite Hr. fold (grouped chunk).
    pose proof (group_row_inv _ _ Hr) as (hash & Hh & Epr).
    cbn [fmap list_fmap zip_with]. rewrite Hh, IH1, IH2. cbn [mbind option_bind].
    destruct (first_hash_ok r) as [f Hf]; [by eexists |]. destruct IH3 as [fs Hfs].
    rewrite Hf, Hfs. split_and!; [by subst pr | by subst pr | by eexists |].
    intros Hs. destruct (Hv Hs) as [v Ev]. rewrite Ev, (IH4 Hs). cbn.
    by rewrite (ord_sort_value r pr v).
Qed.

Lemma length_grouped chunk : Forall row_ok chunk -> length (grouped chunk) = length chunk.
Proof.
  intros H%mapM_grouped. symmetry. by apply mapM_Some, Forall2_length in H.
Qed.

(** ** Radix bits *)

Lemma new_bits_loop_range fuel mb c nb :
  4 <= nb <= 8 -> mb <= 8 -> nb <= new_bits_loop fuel mb c nb <= 8.
Proof.
  revert nb. induction fuel as [| fuel IH]; intros nb Hnb Hmb; cbn [new_bits_loop]; [lia |].
  case_if; [| lia]. bool_to_prop. specialize (IH (nb + 1) ltac:(lia) Hmb). lia.
Qed.

Lemma Rehash_ok c g bits :
  global_ok g bits ->
  exists g' bits', Rehash ops c g = Some g' /\ global_ok g' bits' /\ bits <= bits' /\
    fixed_bits _ g' = fixed_bits _ g /\ hash_groups _ g' = hash_groups _ g /\
    gs_count _ g' = gs_count _ g /\ (fixed_bits _ g <> 0 -> bits' = bits).
Proof.
  intros Hg. pose proof Hg as [Hb Hr Hm Hf Hx Hs]. unfold Rehash.
  destruct (Z.eqb_spec (fixed_bits _ g) 0) as [E0 | E0]; cbn [negb];
    [| by exists g, bits; split_and!].
  rewrite Hb. cbn [from_option id]. rewrite (proj2 (Z.eqb_neq bits 0)) by lia.
  pose proof (new_bits_loop_range (Z.to_nat (max_bits _ g)) (max_bits _ g) c bits Hr Hm) as Hn.
  destruct (Z.eqb_spec (new_bits_loop (Z.to_nat (max_bits _ g)) (max_bits _ g) c bits) bits);
    [by exists g, bits; split_and! |].
  unfold CreatePartition, MAX_RADIX_BITS. rewrite (proj2 (Z.leb_le _ _)) by lia.
  cbn [mbind option_bind].
  eexists _, (new_bits_loop (Z.to_nat (max_bits _ g)) (max_bits _ g) c bits). split; [done |].
  split; [| split_and!; [lia | done | done | done | done]].
  split; cbn; [done | lia | done | done | done | done].
Qed.

Lemma SyncLocalPartition_ok g bits d s rows :
  global_ok g bits -> holds row_hash d rows -> 4 <= radix_bits d <= bits ->
  append_state_ok (length (partitions d)) s ->
  exists d' s' rows', SyncLocalPartition chunks ops g (d, s) = Some (d', s') /\
    radix_bits d' = bits /\ rows' ≡ₚ rows /\ holds row_hash d' rows' /\
    append_state_ok (length (partitions d')) s'.
Proof.
  intros [Hb Hr _ _ _ _] Hd Hbits Hs. unfold SyncLocalPartition. rewrite Hb. cbn [mbind option_bind fst].
  destruct (Z.eqb_spec (radix_bits d) bits) as [E0 |]; [by exists d, s, rows |].
  destruct (PartitionedTupleData_new_holds (row_hash (V := V)) bits) as (dn & -> & Ebn & Hdn).
  { unfold bits_ok, MAX_RADIX_BITS. lia. }
  cbn [mbind option_bind].
  destruct (Repartition_holds row_hash chunks d rows dn Hd Hdn) as (d' & rows' & -> & Eb & Hp & Hd');
    [lia |].
  cbn [mbind option_bind]. exists d', (AppendState_new d'), rows'.
  split_and!; [done | lia | done | done | by eapply holds_append_state].
Qed.

(** ** Sink *)

(** What a step of one thread leaves for the others. *)
Record global_le (g g' : GlobalSinkState) (bits bits' : Z) : Prop := {
  le_bits : bits <= bits';
  le_fixed : fixed_bits _ g <> 0 -> bits' = bits /\ fixed_bits _ g' <> 0;
  le_groups : forall i group, hash_groups _ g !! i = Some (Some group) ->
    exists group', hash_groups _ g' !! i = Some (Some group')
}.

Lemma global_le_refl g bits : global_le g g bits bits.
Proof. split; [done | done | eauto]. Qed.

Lemma minima_ok_kept l D K :
  minima_ok row_hash ord value_count K l -> K ≡ₚ D -> minima_ok row_hash ord value_count D l.
Proof. intros H HK. by eapply minima_ok_perm. Qed.

Lemma UpdateLocalPartition_ok g bits l D :
  global_ok g bits -> local_ok bits l D ->
  exists g' bits' l' d s, UpdateLocalPartition chunks ops g l = Some (g', l') /\
    global_ok g' bits' /\ global_le g g' bits bits' /\ hash_groups _ g' = hash_groups _ g /\
    local_ok bits' l' D /\ local_grouping _ l' = Some (d, s) /\ minima _ l' = minima _ l.
Proof.
  intros Hg (Hsl & Hk & Hm & Hl). unfold UpdateLocalPartition.
  destruct (local_grouping _ l) as [[d s] |] eqn:El.
  - destruct (Rehash_ok (gs_count _ g) g bits Hg) as (g' & bits' & -> & Hg' & Hle & Hf & Hh & Hc & Hfx).
    cbn [mbind option_bind]. destruct Hl as ([rows Hd] & Hbits & Hs).
    destruct (SyncLocalPartition_ok g' bits' d s rows Hg' Hd) as (d' & s' & rows' & -> & Eb & Hp & Hd' & Hs');
      [lia | done |].
    cbn [mbind option_bind]. eexists g', bits', _, d', s'.
    split; [done |]. split; [done |].
    split; [split; [lia | intros Hx; rewrite Hf; auto | rewrite Hh; eauto] |].
    split; [done |]. split; [| done].
    assert (kept_rows (set_local_grouping _ (Some (d', s')) l) ≡ₚ kept_rows l) as Hkept.
    { rewrite (kept_holds l d s rows), (kept_holds _ d' s' rows') by done. done. }
    unfold local_ok. cbn [local_grouping sort_local minima set_local_grouping].
    split; [done |]. split.
    { destruct Hk as [H1 H2]. split; [by eapply (prune_perm (row_hash (V := V)) ord _) |].
      intros Hn. rewrite Hkept. by apply H2. }
    split; [by eapply minima_ok_kept |]. split; [by exists rows' |]. split; [lia | done].
  - rewrite (g_bits _ _ Hg). cbn [mbind option_bind]. pose proof (g_bits_range _ _ Hg).
    destruct (PartitionedTupleData_new_holds (row_hash (V := V)) bits) as (d & -> & Eb & Hd).
    { unfold bits_ok, MAX_RADIX_BITS. lia. }
    cbn [mbind option_bind]. eexists g, bits, _, d, _.
    split; [done |]. split; [done |]. split; [apply global_le_refl |]. split; [done |]. split; [| done].
    assert (kept_rows (set_local_grouping _ (Some (d, AppendState_new d)) l) ≡ₚ kept_rows l) as Hkept.
    { rewrite (kept_holds _ d (AppendState_new d) []) by done. unfold kept_rows. by rewrite El. }
    unfold local_ok. cbn [local_grouping sort_local minima set_local_grouping].
    split; [done |]. split.
    { destruct Hk as [H1 H2]. split; [by eapply (prune_perm (row_hash (V := V)) ord _) |].
      intros Hn. rewrite Hkept. by apply H2. }
    split; [by eapply minima_ok_kept |]. split; [by exists [] |]. split; [lia |].
    by eapply holds_append_state.
Qed.

Lemma append_local_ok bits l d s rows append_sel append_count selected :
  local_grouping _ l = Some (d, s) -> sort_local _ l = None ->
  (exists rows0, holds row_hash d rows0) -> 4 <= radix_bits d <= bits ->
  append_state_ok (length (partitions d)) s ->
  Z.of_nat (length rows) <= STANDARD_VECTOR_SIZE -> 0 <= append_count <= STANDARD_VECTOR_SIZE ->
  select_rows rows append_sel append_count = Some selected ->
  exists l' d' s', append_local ops l rows append_sel append_count = Some l' /\
    local_grouping _ l' = Some (d', s') /\ sort_local _ l' = None /\ minima _ l' = minima _ l /\
    (exists rows', holds row_hash d' rows') /\ 4 <= radix_bits d' <= bits /\
    append_state_ok (length (partitions d')) s' /\ kept_rows l' ≡ₚ kept_rows l ++ selected.
Proof.
  intros El Hsl [rows0 Hd] Hb Hs Hr Hc Hsel. unfold append_local. rewrite El. cbn [mbind option_bind fst snd].
  destruct (AppendUnified_holds row_hash d s rows append_sel append_count rows0 selected)
    as (d' & s' & -> & Eb & Hd' & Hs'); [done | done | done | done | lia | done |].
  cbn [mbind option_bind]. eexists _, d', s'. split; [done |]. split; [done |]. split; [done |].
  split; [done |]. split; [by eexists |]. split; [lia |]. split; [done |].
  rewrite (kept_holds l d s rows0), (kept_holds _ d' s' (rows0 ++ selected)) by done. done.
Qed.

Lemma select_rows_all {A} (rows : list A) : select_rows rows None (Z.of_nat (length rows)) = Some rows.
Proof.
  clear. unfold select_rows, zrange. apply mapM_Some, Forall2_same_length_lookup_2.
  - rewrite length_fmap, length_seq. lia.
  - intros i x y Hx Hy. rewrite list_lookup_fmap in Hx.
    pose proof (lookup_lt_Some _ _ _ Hy). rewrite lookup_seq_lt in Hx by lia. cbn in Hx.
    injection Hx as <-. cbn [sel_index mbind option_bind]. unfold zload.
    rewrite decide_True by lia. by replace (Z.to_nat _) with i by lia.
Qed.

Lemma znth_zrange (sel : list Z) : (znth 0 sel) <$> zrange 0 (Z.of_nat (length sel)) = sel.
Proof.
  clear. apply list_eq. intros i. unfold zrange. rewrite <- list_fmap_compose, list_lookup_fmap.
  destruct (decide (i < length sel)%nat).
  - rewrite lookup_seq_lt by lia. destruct (lookup_lt_is_Some_2 sel i) as [x Hx]; [done |].
    rewrite Hx. cbn. f_equal. apply znth_lookup. by replace (Z.to_nat _) with i by lia.
  - rewrite !lookup_ge_None_2; [done | lia | rewrite length_seq; lia].
Qed.

Lemma select_rows_selection {A} (rows : list A) sel selected :
  mapM (zload rows) sel = Some selected ->
  select_rows rows (Some sel) (Z.of_nat (length sel)) = Some selected.
Proof.
  clear. intros H. unfold select_rows. cbn [sel_index]. rewrite mapM_load.
  - by rewrite znth_zrange.
  - apply Forall_forall. intros j Hj%elem_of_zrange. lia.
Qed.

Abbreviation sink_partitioned :=
  (sink_partitioned eval null hash_value int32_value EstimateCardinality chunks ops config h).

(** [Hash] changes only the counters for the decision. *)
Lemma Hash_ok chunk l bits D :
  Forall row_ok chunk -> local_ok bits l D ->
  exists l', Hash eval hash_value EstimateCardinality ops config h chunk l =
      Some (row_hash <$> grouped chunk, l') /\ local_ok bits l' D.
Proof.
  intros Hc Hl. destruct (chunk_hashes chunk Hc) as (H1 & _ & [fs H3] & _).
  unfold Hash. rewrite H1, H3. cbn [mbind option_bind].
  eexists. split; [done |].
  destruct (shrink_partitions_adaptive config), (use_adaptivity_context config); exact Hl.
Qed.

(** The rows of a chunk that are kept: all of them, or those in the selection. *)
Lemma kept_ok_all D K rows : kept_ok D K -> kept_ok (D ++ rows) (K ++ rows).
Proof.
  intros [H1 H2]. split.
  - apply (prune_app row_hash ord _); [done | apply prune_refl].
  - intros Hs. by rewrite (H2 Hs).
Qed.

Lemma kept_ok_perm D K K' : K ≡ₚ K' -> kept_ok D K -> kept_ok D K'.
Proof.
  intros HK [H1 H2]. split; [by eapply (prune_perm row_hash ord _) |].
  intros Hs. by rewrite <- HK, <- (H2 Hs).
Qed.

Lemma sink_partitioned_ok g bits l D chunk :
  global_ok g bits -> local_ok bits l D -> chunk_ok chunk ->
  exists g' bits' l', sink_partitioned g l chunk = Some (g', l') /\
    global_ok g' bits' /\ global_le g g' bits bits' /\ hash_groups _ g' = hash_groups _ g /\
    local_ok bits' l' (D ++ grouped chunk) /\ is_Some (local_grouping _ l').
Proof.
  intros Hg Hl [Hsize Hrows].
  destruct (Hash_ok chunk l bits D Hrows Hl) as (l1 & EH & Hl1).
  destruct (chunk_hashes chunk Hrows) as (_ & Hzip & _ & Hvalues).
  pose proof (length_grouped chunk Hrows) as Hlen.
  destruct (UpdateLocalPartition_ok g bits l1 D Hg Hl1)
    as (g2 & bits2 & l2 & d & s & EU & Hg2 & Hle & Hh & Hl2 & Ed & Em).
  unfold HashedSort.sink_partitioned. rewrite EH. cbn [mbind option_bind]. rewrite Hzip, Hsimulate.
  destruct Hl2 as (Hsl & Hk & Hm & Hd). rewrite Ed in Hd. destruct Hd as (Hd & Hb & Hs).
  destruct (does_not_prune ops config l1 (Z.of_nat (length chunk))) eqn:Ep.
  - rewrite EU. cbn [mbind option_bind].
    destruct (append_local_ok bits2 l2 d s (grouped chunk) None (Z.of_nat (length chunk)) (grouped chunk))
      as (l3 & d3 & s3 & -> & Ed3 & Hsl3 & Hm3 & Hd3 & Hb3 & Hs3 & Hk3);
      [done | done | done | done | done | lia | lia | by rewrite <- Hlen, select_rows_all |].
    cbn [mbind option_bind]. exists g2, bits2, l3. split_and!; [done | done | done | done | | by rewrite Ed3].
    split; [done |]. split; [by eapply kept_ok_perm, kept_ok_all |].
    rewrite Ed3. split; [| done]. rewrite Hm3.
    eapply minima_ok_perm; [by symmetry | by apply minima_ok_app].
  - assert (shrink_partitions config = true) as Hshrink.
    { unfold does_not_prune in Ep. rewrite Hsimulate in Ep. by destruct (shrink_partitions config). }
    rewrite EU. cbn [mbind option_bind]. rewrite (Hvalues Hshrink). cbn [mbind option_bind].
    assert (zip (row_hash <$> grouped chunk) (ord <$> grouped chunk) =
      (fun r => (row_hash r, ord r)) <$> grouped chunk) as ->.
    { clear. induction (grouped chunk) as [| r rows IH]; [done |]. cbn. by rewrite IH. }
    destruct (prune_rows_spec row_hash ord value_count (kept_rows l2) (minima _ l2) [] (grouped chunk))
      as (m' & sel & kept & dropped & EP & Hsel & Hperm & Hkl & Hm' & Hdrop);
      [unfold value_count; auto | done |].
    fold value_count. change (Z.of_nat (length [])) with 0 in EP. rewrite EP. cbn [mbind option_bind].
    assert (length sel = length kept) as Hsl' by (by apply mapM_Some, Forall2_length in Hsel).
    destruct (append_local_ok bits2 (set_minima _ m' l2) d s (grouped chunk) (Some sel)
        (Z.of_nat (length sel)) kept)
      as (l3 & d3 & s3 & -> & Ed3 & Hsl3 & Hm3 & Hd3 & Hb3 & Hs3 & Hk3);
      [done | done | done | done | done | lia | lia | by apply select_rows_selection |].
    cbn [mbind option_bind]. exists g2, bits2, l3. split_and!; [done | done | done | done | | by rewrite Ed3].
    change (kept_rows (set_minima _ m' l2)) with (kept_rows l2) in Hk3.
    split; [done |]. split.
    { eapply kept_ok_perm; [by symmetry |]. split; [| by rewrite Hshrink].
      by eapply prune_chunk_safe; [apply Hk | |]. }
    rewrite Ed3. split; [| done]. rewrite Hm3. cbn [minima set_minima].
    by eapply minima_ok_perm; [symmetry |].
Qed.

(** ** Combine *)

Abbreviation HashedSortGroup := (HashedSortGroup ops).

Definition group_rows (o : option (option HashedSortGroup)) : list (list V) :=
  default [] (group ← mjoin o; global_rows <$> sort_global _ group).

Lemma create_groups_ok (groups : list (option HashedSortGroup)) (parts : list (list row)) :
  groups = [] \/ length groups = length parts ->
  let old i := mjoin (groups !! i) in
  exists groups', create_groups ops groups parts = Some groups' /\ length groups' = length parts /\
    forall i part, parts !! i = Some part ->
      groups' !! i = Some (match old i with
                           | Some group => Some group
                           | None => if (length part =? 0)%nat then None
                                     else Some (HashedSortGroup_new ops true (Z.of_nat i))
                           end).
Proof.
  intros Hlen old. unfold create_groups.
  set (groups0 := if (length groups =? 0)%nat then replicate (length parts) None else groups).
  assert (length groups0 = length parts /\ forall i, (i < length parts)%nat -> groups0 !! i = Some (old i))
    as [Hlen0 Hold].
  { unfold groups0, old. destruct (Nat.eqb_spec (length groups) 0) as [E0 | E0].
    - apply nil_length_inv in E0 as ->. split; [apply length_replicate |]. intros i Hi.
      by rewrite lookup_replicate_2.
    - destruct Hlen as [-> | Hlen]; [done |]. split; [done |]. intros i Hi.
      destruct (lookup_lt_is_Some_2 groups i) as [o ->]; [lia | done]. }
  set (step := fun (groups : list (option HashedSortGroup)) (group_idx : Z) => _).
  destruct (ofold_zrange_inv step (fun i gs => length gs = length parts /\ forall j part, parts !! j = Some part ->
      gs !! j = Some (match old j with
                      | Some group => Some group
                      | None => if decide (Z.of_nat j < i) then
                                  if (length part =? 0)%nat then None
                                  else Some (HashedSortGroup_new ops true (Z.of_nat j))
                                else None
                      end)) 0 (Z.of_nat (length parts)) groups0)
    as (groups' & E' & Hl' & Hg'); [lia | | |].
  - split; [done |]. intros j part Hj. rewrite Hold by (by eapply lookup_lt_Some).
    destruct (old j); [done |]. by rewrite decide_False by lia.
  - intros i gs Hi [Hl Hg]. unfold step.
    destruct (lookup_lt_is_Some_2 parts (Z.to_nat i)) as [part Hpart]; [lia |].
    assert (zload parts i = Some part) as -> by (unfold zload; by rewrite decide_True by lia).
    pose proof (Hg _ _ Hpart) as Hgi. rewrite Z2Nat.id, decide_False in Hgi by lia.
    assert (zload gs i = Some (old (Z.to_nat i))) as ->.
    { unfold zload. rewrite decide_True, Hgi by lia. by destruct (old (Z.to_nat i)). }
    cbn [mbind option_bind].
    assert (forall gs', length gs' = length parts ->
      gs' !! Z.to_nat i = Some (match old (Z.to_nat i) with
                                | Some group => Some group
                                | None => if (length part =? 0)%nat then None
                                          else Some (HashedSortGroup_new ops true i) end) ->
      (forall j, j <> Z.to_nat i -> gs' !! j = gs !! j) ->
      length gs' = length parts /\ forall j part, parts !! j = Some part ->
        gs' !! j = Some (match old j with
                      | Some group => Some group
                      | None => if decide (Z.of_nat j < i + 1) then
                                  if (length part =? 0)%nat then None
                                  else Some (HashedSortGroup_new ops true (Z.of_nat j))
                                else None
                      end)) as Hnext.
    { intros gs' H1 H2 H3. split; [done |]. intros j part' Hj.
      destruct (decide (j = Z.to_nat i)) as [-> | Hne].
      - rewrite H2, decide_True by lia. rewrite Z2Nat.id by lia.
        rewrite Hpart in Hj. by injection Hj as <-.
      - rewrite H3, (Hg _ _ Hj) by done. destruct (old j); [done |].
        destruct (decide (Z.of_nat j < i)); [by rewrite decide_True by lia | by rewrite decide_False by lia]. }
    destruct (old (Z.to_nat i)) as [group |] eqn:Eo.
    { exists gs. split; [done |]. apply Hnext; done. }
    destruct (Nat.eqb_spec (length part) 0) as [E0 | E0].
    { exists gs. split; [done |]. apply Hnext; done. }
    rewrite zstore_Some by lia. eexists. split; [done |].
    apply Hnext; [by rewrite length_insert | by rewrite list_lookup_insert_eq by lia |].
    intros j Hj. by rewrite list_lookup_insert_ne.
  - exists groups'. split; [exact E' |]. split; [done |]. intros i part Hi. rewrite (Hg' _ _ Hi).
    destruct (old i); [done |]. apply lookup_lt_Some in Hi. by rewrite decide_True by lia.
Qed.

(** ** The invariant of the system *)

Definition pending_chunks (t : Thread) : list Chunk :=
  match th_pc _ t with counted c => [c] | _ => [] end ++ th_input _ t.

Definition combine_ok (g : GlobalSinkState) (bits : Z) (t : Thread) : Prop :=
  pending_chunks t = [] /\
  forall d s, local_grouping _ (th_local _ t) = Some (d, s) ->
    fixed_bits _ g <> 0 /\ radix_bits d = bits /\
    forall i part, partitions d !! i = Some part -> part <> [] ->
      exists group, hash_groups _ g !! i = Some (Some group).

(** A thread in the scan of a partition holds a local state of the sort with at
    most the rows of the chunks that it has read. *)
Definition scan_ok (t : Thread) (hash_bin i : nat) : Prop :=
  exists d s part local, local_grouping _ (th_local _ t) = Some (d, s) /\
    partitions d !! hash_bin = Some part /\ part <> [] /\ (i <= length (chunks part))%nat /\
    sort_local _ (th_local _ t) = Some local /\
    (length (local_rows local) <= length (mjoin (take i (chunks part))))%nat.

Abbreviation quiet l := (set_sort_local ops None l).

(** [total] are the rows that the thread receives. *)
Definition thread_ok (g : GlobalSinkState) (bits : Z) (total : list row) (t : Thread) : Prop :=
  Z.of_nat (length total) <= sort_max_rows (ops := ops) /\
  exists D, total = D ++ grouped (mjoin (pending_chunks t)) /\ Forall chunk_ok (pending_chunks t) /\
    local_ok bits (quiet (th_local _ t)) D /\
    match th_pc _ t with
    | running | counted _ => sort_local _ (th_local _ t) = None
    | combining _ => combine_ok g bits t /\ is_Some (local_grouping _ (th_local _ t))
    | scanning hash_bin i => combine_ok g bits t /\ scan_ok t hash_bin i
    | combined => combine_ok g bits t
    end.

(** The rows of partition [i] that a thread has given to the sort of its group. *)
Definition delivered (i : nat) (t : Thread) : list row :=
  match th_pc _ t, local_grouping _ (th_local _ t) with
  | combining hash_bin, Some (d, _) =>
      if (i <? hash_bin)%nat then default [] (partitions d !! i) else []
  | scanning hash_bin j, Some (d, _) =>
      if (i <? hash_bin)%nat then default [] (partitions d !! i)
      else if (i =? hash_bin)%nat then mjoin (take j (chunks (default [] (partitions d !! i)))) else []
  | combined, Some (d, _) => default [] (partitions d !! i)
  | _, _ => []
  end.

(** The local state of the sort of group [i] that a thread holds. *)
Definition in_flight (i : nat) (t : Thread) : list (LSink ops) :=
  match th_pc _ t with
  | scanning hash_bin _ =>
      if (i =? hash_bin)%nat then option_list (sort_local _ (th_local _ t)) else []
  | _ => []
  end.

(** The sort of group [i], with the local states [ls], holds the rows [rows]. *)
Definition group_inv (o : option (option HashedSortGroup)) (ls : list (LSink ops)) (rows : list (list V)) : Prop :=
  group_rows o ++ mjoin (local_rows <$> ls) ≡ₚ rows /\
  match mjoin o with
  | Some group => forall s, sort_global _ group = Some s -> sort_inv s ls
  | None => ls = []
  end.

Lemma group_inv_perm o ls ls' rows rows' :
  ls ≡ₚ ls' -> rows ≡ₚ rows' -> group_inv o ls rows -> group_inv o ls' rows'.
Proof.
  intros Hl Hr [H1 H2]. split; [by rewrite <- Hl, <- Hr |].
  destruct (mjoin o) as [group |]; [| subst ls; by apply Permutation_nil_l in Hl].
  intros s Hs. eapply sort_inv_perm; [exact Hl | by apply H2].
Qed.

Record sink_ok (totals : list (list row)) (s : SinkSystem ops) (bits : Z) : Prop := {
  sink_global_ok : global_ok (sink_global _ s) bits;
  sink_threads_ok : Forall2 (thread_ok (sink_global _ s) bits) totals (sink_threads _ s);
  sink_groups_ok : forall i, group_inv (hash_groups _ (sink_global _ s) !! i)
    (mjoin (in_flight i <$> sink_threads _ s)) (columns <$> mjoin (delivered i <$> sink_threads _ s))
}.

Lemma sink_local_mono bits bits' l D : bits <= bits' -> local_ok bits l D -> local_ok bits' l D.
Proof.
  intros Hle (? & ? & ? & H). split_and!; [done | done | done |].
  destruct (local_grouping _ l) as [[d s] |]; [| done]. destruct H as (? & ? & ?).
  split_and!; [done | lia | lia | done].
Qed.

Lemma combine_ok_mono g g' bits bits' t :
  global_le g g' bits bits' -> combine_ok g bits t -> combine_ok g' bits' t.
Proof.
  intros [Hb Hf Hg] [Hp H]. split; [done |]. intros d s Hd. destruct (H d s Hd) as (Hx & Hr & Hgr).
  destruct (Hf Hx) as [-> Hx']. split_and!; [done | done |].
  intros i part Hi Hne. destruct (Hgr i part Hi Hne) as [group Hgroup]. by eapply Hg.
Qed.

Lemma sink_thread_mono g g' bits bits' total t :
  global_le g g' bits bits' -> thread_ok g bits total t -> thread_ok g' bits' total t.
Proof.
  intros Hle (Hmax & D & Ht & Hc & Hl & Hpc). split; [done |]. exists D.
  split_and!; [done | done | eapply sink_local_mono; [by destruct Hle | done] |].
  pose proof (combine_ok_mono g g' bits bits' t Hle).
  destruct (th_pc _ t); [done | done | destruct Hpc; auto .. | auto].
Qed.

(** What the step of a thread leaves. *)
Definition step_ok (bits : Z) (total : list row) (g : GlobalSinkState) (th : Thread)
    (g' : GlobalSinkState) (th' : Thread) : Prop :=
  exists bits', global_ok g' bits' /\ global_le g g' bits bits' /\ thread_ok g' bits' total th' /\
    forall i ls rows,
      group_inv (hash_groups _ g !! i) (in_flight i th ++ ls) ((columns <$> delivered i th) ++ rows) ->
      group_inv (hash_groups _ g' !! i) (in_flight i th' ++ ls) ((columns <$> delivered i th') ++ rows).

(** One thread moves. *)
Lemma sink_ok_step totals s bits t total th g' th' :
  sink_ok totals s bits -> sink_threads _ s !! t = Some th -> totals !! t = Some total ->
  step_ok bits total (sink_global _ s) th g' th' ->
  exists bits', sink_ok totals {| sink_global := g'; sink_threads := <[t := th']> (sink_threads _ s) |} bits'.
Proof.
  intros [Hg Hts Hgr] Hth Htotal (bits' & Hg' & Hle & Hth' & Hgroups). exists bits'.
  split; cbn [sink_global sink_threads].
  - done.
  - apply Forall2_lookup. intros i. destruct (decide (i = t)) as [-> | Hne].
    + rewrite list_lookup_insert_eq, Htotal by (by eapply lookup_lt_Some). by constructor.
    + rewrite list_lookup_insert_ne by done.
      pose proof (proj1 (Forall2_lookup _ _ _) Hts i) as H.
      destruct H as [x y H |]; constructor. by eapply sink_thread_mono.
  - intros i. specialize (Hgr i). rewrite !list_fmap_insert.
    assert ((in_flight i <$> sink_threads _ s) !! t = Some (in_flight i th)) as Hf
      by (by rewrite list_lookup_fmap, Hth).
    assert ((delivered i <$> sink_threads _ s) !! t = Some (delivered i th)) as Hd
      by (by rewrite list_lookup_fmap, Hth).
    destruct (mjoin_insert_perm _ _ _ (in_flight i th') Hf) as (ls & Hls & Hls').
    destruct (mjoin_insert_perm _ _ _ (delivered i th') Hd) as (rows & Hrows & Hrows').
    assert (columns <$> mjoin (delivered i <$> sink_threads _ s) ≡ₚ
      (columns <$> delivered i th) ++ (columns <$> rows)) as Hr1 by (by rewrite Hrows, fmap_app).
    assert (columns <$> mjoin (<[t := delivered i th']> (delivered i <$> sink_threads _ s)) ≡ₚ
      (columns <$> delivered i th') ++ (columns <$> rows)) as Hr2 by (by rewrite Hrows', fmap_app).
    eapply group_inv_perm; [symmetry; exact Hls' | symmetry; exact Hr2 |].
    apply Hgroups. eapply group_inv_perm; [exact Hls | exact Hr1 | exact Hgr].
Qed.

(** ** Steps *)

Lemma length_holds d (rows : list row) : holds row_hash d rows -> length (partitions d) = Z.to_nat (2 ^ radix_bits d).
Proof. intros (_ & -> & _). apply length_partitioned. Qed.

Lemma grouped_app a b : grouped (a ++ b) = grouped a ++ grouped b.
Proof. apply omap_app. Qed.

Abbreviation thread_step :=
  (thread_step eval null hash_value int32_value EstimateCardinality chunks ops config h).

Lemma local_ok_quiet bits l D :
  sort_local _ l = None -> local_ok bits (quiet l) D <-> local_ok bits l D.
Proof. intros Hs. split; intros (_ & H); by split. Qed.

Lemma count_step_ok env bits total g th chunk input :
  global_ok g bits -> thread_ok g bits total th ->
  th_pc _ th = running -> th_input _ th = chunk :: input ->
  exists g' th', thread_step env g th = Some (g', th') /\ step_ok bits total g th g' th'.
Proof.
  intros [Hb Hr Hm Hf Hx Hs] (Hmax & D & Ht & Hc & Hl & Hpc) Epc Ein. unfold HashedSort.thread_step.
  rewrite Epc, Ein in *. eexists _, _. split; [done |]. exists bits.
  unfold pending_chunks in Ht, Hc. rewrite Epc, Ein in *.
  split; [by split |]. split; [split; [done | done | by eauto] |].
  split; [by split; [| exists D] |].
  intros i ls rows. unfold delivered, in_flight. by rewrite Epc.
Qed.

Lemma sink_step_ok env bits total g th chunk :
  global_ok g bits -> thread_ok g bits total th -> th_pc _ th = counted chunk ->
  exists g' th', thread_step env g th = Some (g', th') /\ step_ok bits total g th g' th'.
Proof.
  intros Hg (Hmax & D & Ht & Hc & Hl & Hpc) Epc. unfold HashedSort.thread_step, Sink.
  unfold pending_chunks in Ht, Hc. rewrite Epc in *. cbn [app] in *.
  apply Forall_cons in Hc as [Hchunk Hc].
  rewrite (proj2 (Z.eqb_neq (sort_col_count h) 0)) by lia. rewrite Hpc.
  apply (local_ok_quiet _ _ _ Hpc) in Hl.
  destruct (sink_partitioned_ok g bits (th_local _ th) D chunk)
    as (g' & bits' & l' & -> & Hg' & Hle & Eh & Hl' & _); [done .. |].
  cbn [mbind option_bind]. eexists _, _. split; [done |]. exists bits'.
  split; [done |]. split; [done |]. split; [split; [done |] |].
  - exists (D ++ grouped chunk). unfold pending_chunks. cbn [th_pc th_input th_local app].
    split_and!; [| done | by apply local_ok_quiet; [apply Hl' |] | apply Hl'].
    rewrite Ht, mjoin_cons, grouped_app, app_assoc. done.
  - intros i ls rows. rewrite Eh. unfold delivered, in_flight. by rewrite Epc.
Qed.

(** The groups that a thread adds have empty sorts. *)
Lemma create_groups_new groups (parts : list (list row)) groups' :
  groups = [] \/ length groups = length parts ->
  create_groups ops groups parts = Some groups' ->
  length groups' = length parts /\
  (forall i ls rows, group_inv (groups !! i) ls rows -> group_inv (groups' !! i) ls rows) /\
  (forall i group, groups !! i = Some (Some group) -> groups' !! i = Some (Some group)) /\
  (forall i part, parts !! i = Some part -> part <> [] -> exists group, groups' !! i = Some (Some group)) /\
  (forall i group, groups' !! i = Some (Some group) ->
     groups !! i = Some (Some group) \/ is_Some (sort_global _ group)).
Proof.
  intros Hlen E0. destruct (create_groups_ok groups parts Hlen) as (gs & E1 & Hl & Hgs).
  rewrite E0 in E1. injection E1 as <-. split; [done |].
  assert (forall i, ~ (i < length parts)%nat -> groups !! i = None) as Hout.
  { intros i Hi. apply lookup_ge_None. destruct Hlen as [-> | Hlen]; cbn; lia. }
  assert (forall i part, parts !! i = Some part -> (i < length parts)%nat) as Hin by apply lookup_lt_Some.
  split_and!.
  - intros i ls rows. destruct (decide (i < length parts)%nat) as [Hi | Hi];
      [| rewrite Hout by done; by rewrite lookup_ge_None_2 by lia].
    destruct (lookup_lt_is_Some_2 parts i Hi) as [part Hpart]. rewrite (Hgs _ _ Hpart).
    unfold group_inv, group_rows.
    destruct (groups !! i) as [[group |] |]; cbn [mjoin option_join]; [done | |];
      intros [Hrows ->]; (destruct (length part =? 0)%nat; cbn [mbind option_bind fmap option_fmap option_map];
        [done |]); cbn; (split; [rewrite <- Hrows; cbn; by rewrite global_rows_new |]);
      intros s [= <-]; apply sort_inv_new.
  - intros i group Hi. assert (i < length parts)%nat as Hlt.
    { destruct (decide (i < length parts)%nat); [done |]. by rewrite Hout in Hi. }
    destruct (lookup_lt_is_Some_2 parts i Hlt) as [part Hpart]. by rewrite (Hgs _ _ Hpart), Hi.
  - intros i part Hpart Hne. rewrite (Hgs _ _ Hpart). destruct (mjoin (groups !! i)); [by eexists |].
    destruct part; [done |]. by eexists.
  - intros i group Hi. assert (i < length parts)%nat as Hlt by (rewrite <- Hl; by eapply lookup_lt_Some).
    destruct (lookup_lt_is_Some_2 parts i Hlt) as [part Hpart]. rewrite (Hgs _ _ Hpart) in Hi.
    destruct (groups !! i) as [[old |] |]; cbn [mjoin option_join] in Hi.
    + left. by injection Hi as ->.
    + destruct (length part =? 0)%nat; [done |]. injection Hi as <-. right. by eexists.
    + destruct (length part =? 0)%nat; [done |]. injection Hi as <-. right. by eexists.
Qed.

Lemma combine_start_ok env bits total g th :
  global_ok g bits -> thread_ok g bits total th -> th_pc _ th = running -> th_input _ th = [] ->
  exists g' th', thread_step env g th = Some (g', th') /\ step_ok bits total g th g' th'.
Proof.
  intros Hg (Hmax & D & Ht & Hc & Hl & Hpc) Epc Ein. unfold HashedSort.thread_step, combine_start.
  unfold pending_chunks in Ht, Hc. rewrite Epc, Ein in *. cbn [app] in *.
  rewrite (proj2 (Z.eqb_neq (sort_col_count h) 0)) by lia. rewrite Hpc.
  apply (local_ok_quiet _ _ _ Hpc) in Hl. pose proof Hl as (_ & Hk & Hm & Hd).
  destruct (local_grouping _ (th_local _ th)) as [[d s] |] eqn:Ed; cycle 1.
  { cbn [mbind option_bind]. eexists _, _. split; [done |]. exists bits.
    split; [done |]. split; [apply global_le_refl |]. split; [split; [done |] |].
    - exists D. cbn [th_local th_pc]. split_and!; [done | done | by apply local_ok_quiet |]. split; [done |].
      cbn [th_local]. intros d s E1. by rewrite Ed in E1.
    - intros i ls rows. unfold delivered, in_flight. rewrite Epc. cbn. by rewrite Ed. }
  destruct Hd as ([rows Hd] & Hbits & Hs). unfold CombineLocalPartition. rewrite Ed.
  destruct (SyncLocalPartition_ok g bits d s rows Hg Hd Hbits Hs)
    as (d' & s' & rows' & -> & Eb & Hp & Hd' & Hs').
  cbn [mbind option_bind fst]. pose proof (length_holds _ _ Hd') as Hlen. rewrite Eb in Hlen.
  pose proof Hg as [Hb Hr Hmx Hf Hx Hsg].
  assert (hash_groups _ g = [] \/ length (hash_groups _ g) = length (partitions d')) as Hgl.
  { destruct (decide (fixed_bits _ g = 0)) as [E0 | E0]; [left; auto | right; rewrite Hlen; auto]. }
  destruct (create_groups_ok (hash_groups _ g) (partitions d') Hgl) as (groups & EG & _).
  destruct (create_groups_new _ _ _ Hgl EG) as (Hl1 & Hrows & Hold & Hnew & Hsort).
  rewrite EG. cbn [mbind option_bind]. eexists _, _. split; [done |]. exists bits.
  set (l' := set_local_grouping _ _ _).
  assert (kept_rows l' ≡ₚ kept_rows (th_local _ th)) as Hkept.
  { unfold l'. rewrite (kept_holds (th_local _ th) d s rows), (kept_holds _ d' s' rows') by done. done. }
  split; [| split; [| split; [split; [done |] |]]].
  - split; cbn [grouping_data fixed_bits hash_groups max_bits]; [done | done | done | done | lia |].
    intros i group Hi. destruct (Hsort _ _ Hi) as [Hi' | Hi']; [by eapply Hsg | done].
  - split; cbn [fixed_bits hash_groups]; [done | done | eauto].
  - exists D. unfold pending_chunks. cbn [th_pc th_input th_local app].
    split; [done |]. split; [done |]. split.
    + split; [done |]. change (kept_rows (quiet l')) with (kept_rows l').
      split; [eapply kept_ok_perm; [symmetry; exact Hkept | done] |].
      split; [eapply minima_ok_kept; [exact Hm | by symmetry] |].
      cbn. split; [by exists rows' |]. split; [lia | done].
    + split; [| by eexists]. split; [done |]. cbn. intros d1 s1 E1. injection E1 as <- <-.
      split_and!; [done | done | done].
  - intros i ls rows0. cbn [hash_groups]. unfold delivered, in_flight. rewrite Epc. apply Hrows.
Qed.
(** ** The scan of the partitions *)

Definition scans (pc : Pc (V := V)) : Prop :=
  match pc with combining _ | scanning _ _ | combined => True | _ => False end.

(** A thread that only moves on in its scan. *)
Lemma scan_thread_ok g g' bits total th pc l' :
  thread_ok g bits total th -> scans (th_pc _ th) -> global_le g g' bits bits -> scans pc ->
  quiet l' = quiet (th_local _ th) -> is_Some (local_grouping _ l') ->
  (forall hash_bin i, pc = scanning hash_bin i ->
     scan_ok {| th_input := th_input _ th; th_pc := pc; th_local := l' |} hash_bin i) ->
  thread_ok g' bits total {| th_input := th_input _ th; th_pc := pc; th_local := l' |}.
Proof.
  intros Hth Hs Hle Hpc Hq Hd Hscan. pose proof (f_equal (local_grouping _) Hq) as El. cbn in El.
  apply (sink_thread_mono g g' bits bits total th Hle) in Hth as (Hmax & D & Ht & Hc & Hl & Hth).
  split; [done |]. exists D. cbn [th_local th_pc]. rewrite Hq.
  assert (combine_ok g' bits th) as Hco by (destruct (th_pc _ th); try done; tauto).
  destruct Hco as [Hpend Hco].
  assert (pending_chunks {| th_input := th_input _ th; th_pc := pc; th_local := l' |} = pending_chunks th) as Ep.
  { unfold pending_chunks in *. cbn. destruct (th_pc _ th), pc; done. }
  assert (combine_ok g' bits {| th_input := th_input _ th; th_pc := pc; th_local := l' |}) as Hco'.
  { split; [by rewrite Ep |]. cbn [th_local]. rewrite El. exact Hco. }
  rewrite Ep. split_and!; [done | done | done |]. destruct pc; try done; eauto.
Qed.

Lemma scan_thread_co g bits total th :
  thread_ok g bits total th -> scans (th_pc _ th) -> combine_ok g bits th.
Proof. intros (_ & D & _ & _ & _ & H) Hs. destruct (th_pc _ th); try done; tauto. Qed.

Lemma start_bin_ok env bits total g th hash_bin :
  global_ok g bits -> thread_ok g bits total th -> th_pc _ th = combining hash_bin ->
  exists g' th', thread_step env g th = Some (g', th') /\ step_ok bits total g th g' th'.
Proof.
  intros Hg Hth Epc. pose proof Hth as (_ & D & _ & _ & _ & Hpc). rewrite Epc in Hpc.
  destruct Hpc as [Hco [[d s] Ed]].
  unfold HashedSort.thread_step, start_bin. rewrite Epc, Ed. cbn [mbind option_bind].
  assert (scans (th_pc _ th)) as Hs by (by rewrite Epc).
  pose proof (fun pc l' => scan_thread_ok g g bits total th pc l' Hth Hs (global_le_refl g bits)) as Hnext.
  assert (forall i, delivered i th = if (i <? hash_bin)%nat then default [] (partitions d !! i) else []) as Hdel.
  { intros i. unfold delivered. by rewrite Epc, Ed. }
  assert (forall i, in_flight i th = []) as Hfl by (intros i; unfold in_flight; by rewrite Epc).
  destruct (partitions d !! hash_bin) as [part |] eqn:Hpart; cycle 1.
  { cbn [mbind option_bind]. eexists _, _. split; [done |]. exists bits. split; [done |].
    split; [apply global_le_refl |]. split; [by apply Hnext; [| | by eexists |] |].
    intros i ls rows. rewrite Hdel, Hfl. unfold in_flight, delivered. cbn [th_pc th_local]. rewrite Ed.
    apply lookup_ge_None in Hpart. destruct (Nat.ltb_spec i hash_bin); [done |].
    by rewrite (lookup_ge_None_2 (partitions d) i) by lia. }
  destruct (Nat.eqb_spec (length part) 0) as [E0 | E0]; cbn [mbind option_bind].
  { apply nil_length_inv in E0 as ->. eexists _, _. split; [done |]. exists bits. split; [done |].
    split; [apply global_le_refl |]. split; [by apply Hnext; [| | by eexists |] |].
    intros i ls rows. rewrite Hdel, Hfl. unfold in_flight, delivered. cbn [th_pc th_local]. rewrite Ed.
    destruct (Nat.ltb_spec i hash_bin), (Nat.ltb_spec i (S hash_bin)); try done; try lia.
    assert (i = hash_bin) as -> by lia. by rewrite Hpart. }
  eexists _, _. split; [done |]. exists bits. split; [done |].
  split; [apply global_le_refl |]. split.
  { apply Hnext; [done | done | by eexists |]. intros hb i [= <- <-].
    eexists d, s, part, _. cbn. split_and!; [done | done | by intros -> | lia | done |].
    by rewrite local_rows_new. }
  intros i ls rows. rewrite Hdel, Hfl. unfold in_flight, delivered. cbn [th_pc th_local local_grouping set_sort_local].
  rewrite Ed. destruct (Nat.ltb_spec i hash_bin), (Nat.eqb_spec i hash_bin); try done; try lia.
  subst i. cbn [take mjoin list_join fmap list_fmap app sort_local option_list].
  destruct (proj2 (proj2 (proj2 Hco d s Ed)) _ _ Hpart) as [group ->]; [by intros -> |].
  unfold group_inv. cbn [mjoin option_join]. intros [Hr Hi]. split.
  - rewrite <- Hr. cbn. by rewrite local_rows_new.
  - intros s0 Hs0. by apply sort_inv_local, Hi.
Qed.

Lemma part_fits g bits total th d s hash_bin part :
  thread_ok g bits total th -> local_grouping _ (th_local _ th) = Some (d, s) ->
  partitions d !! hash_bin = Some part -> Z.of_nat (length part) <= sort_max_rows (ops := ops).
Proof.
  intros (Hmax & D & -> & _ & (_ & [(R & HD & _) _] & _) & _) Ed Hpart.
  change (kept_rows (quiet (th_local _ th))) with (kept_rows (th_local _ th)) in HD.
  unfold kept_rows in HD. rewrite Ed in HD.
  destruct (mjoin_insert_perm _ _ _ [] Hpart) as (rest & Hrest & _).
  apply Permutation_length in HD, Hrest. rewrite !length_app in *. lia.
Qed.

Lemma chunks_take_S (rows : list row) i chunk :
  chunks rows !! i = Some chunk -> mjoin (take (S i) (chunks rows)) = mjoin (take i (chunks rows)) ++ chunk.
Proof.
  intros Hi. rewrite (take_S_r _ _ _ Hi), mjoin_app, mjoin_cons. by rewrite app_nil_r.
Qed.

Lemma length_chunks_take (rows : list row) i :
  (length (mjoin (take i (chunks rows))) <= length rows)%nat.
Proof.
  rewrite <- (chunks_join (chunks := chunks) rows) at 2. rewrite <- (take_drop i (chunks rows)) at 2.
  rewrite mjoin_app, length_app. lia.
Qed.
Lemma app_chunk_perm {B} (a l m t r c : list B) :
  a ++ l ++ m ≡ₚ t ++ r -> (a ++ l ++ c) ++ m ≡ₚ (t ++ c) ++ r.
Proof.
  clear. intros H0. rewrite <- !app_assoc, (Permutation_app_comm c m), (Permutation_app_comm c r), !app_assoc.
  apply Permutation_app_tail. by rewrite <- app_assoc.
Qed.

(** The group of a scanned partition after a call on its sort. *)
Lemma set_group_ok g bits hash_bin group global :
  global_ok g bits -> hash_groups _ g !! hash_bin = Some (Some group) ->
  global_ok (set_group _ hash_bin (set_sort_global _ global group) g) bits /\
  global_le g (set_group _ hash_bin (set_sort_global _ global group) g) bits bits.
Proof.
  intros [? ? ? Hf Hx Hsg] Hgroup.
  assert (hash_bin < length (hash_groups ops g))%nat as Hlt by (by eapply lookup_lt_Some).
  split; [split; cbn; [done | done | done | | by rewrite length_insert |] | split; [done | done |]].
  - intros E1. rewrite (Hf E1) in Hlt. cbn in Hlt. lia.
  - intros i group' Hi. destruct (decide (i = hash_bin)) as [-> |].
    + rewrite list_lookup_insert_eq in Hi by done. injection Hi as <-. by eexists.
    + rewrite list_lookup_insert_ne in Hi by done. by eapply Hsg.
  - cbn. intros i group' Hi. destruct (decide (i = hash_bin)) as [-> |].
    + rewrite list_lookup_insert_eq by done. by eexists.
    + rewrite list_lookup_insert_ne by done. by eexists.
Qed.

Lemma set_group_inv g hash_bin group global i ls rows :
  hash_groups _ g !! hash_bin = Some (Some group) ->
  (i = hash_bin -> sort_inv global ls /\ global_rows global ++ mjoin (local_rows <$> ls) ≡ₚ rows) ->
  (i <> hash_bin -> group_inv (hash_groups _ g !! i) ls rows) ->
  group_inv (hash_groups _ (set_group _ hash_bin (set_sort_global _ global group) g) !! i) ls rows.
Proof.
  intros Hgroup Heq Hne. cbn [hash_groups set_group set_groups]. destruct (decide (i = hash_bin)) as [-> |].
  - rewrite list_lookup_insert_eq by (by eapply lookup_lt_Some). destruct (Heq eq_refl) as [Hi Hr].
    split; [exact Hr |]. cbn. by intros s [= <-].
  - rewrite list_lookup_insert_ne by done. by apply Hne.
Qed.

Lemma scan_bin_ok env bits total g th hash_bin i :
  global_ok g bits -> thread_ok g bits total th -> th_pc _ th = scanning hash_bin i ->
  (exists ls rows, group_inv (hash_groups _ g !! hash_bin) (in_flight hash_bin th ++ ls) rows) ->
  exists g' th', thread_step env g th = Some (g', th') /\ step_ok bits total g th g' th'.
Proof.
  intros Hg Hth Epc (ls0 & rows0 & _ & Hinv0). pose proof Hth as (_ & D & _ & _ & _ & Hpc). rewrite Epc in Hpc.
  destruct Hpc as [Hco (d & s & part & local & Ed & Hpart & Hne & Hi & Eloc & Hlen)].
  unfold HashedSort.thread_step, scan_bin. rewrite Epc, Ed. cbn [mbind option_bind]. rewrite Hpart.
  destruct (proj2 (proj2 (proj2 Hco d s Ed)) _ _ Hpart Hne) as [group Hgroup]. rewrite Hgroup in Hinv0 |- *.
  cbn [mbind option_bind mjoin option_join] in *.
  destruct (g_groups _ _ Hg _ _ Hgroup) as [global Eglobal]. rewrite Eglobal, Eloc. cbn [mbind option_bind].
  assert (in_flight hash_bin th = [local]) as Hfl.
  { unfold in_flight. by rewrite Epc, Nat.eqb_refl, Eloc. }
  rewrite Hfl in Hinv0. specialize (Hinv0 _ Eglobal). cbn [app] in Hinv0.
  assert (scans (th_pc _ th)) as Hs by (by rewrite Epc).
  assert (forall j, (j <> hash_bin -> in_flight j th = []) /\
    delivered j th = if (j <? hash_bin)%nat then default [] (partitions d !! j)
      else if (j =? hash_bin)%nat then mjoin (take i (chunks part)) else []) as Hj.
  { intros j. unfold in_flight, delivered. rewrite Epc, Ed. split; [intros Hj; by destruct (Nat.eqb_spec j hash_bin) |].
    destruct (Nat.ltb_spec j hash_bin); [done |]. destruct (Nat.eqb_spec j hash_bin) as [-> |]; [| done].
    by rewrite Hpart. }
  assert (forall ls rows, group_inv (hash_groups _ g !! hash_bin) (local :: ls) rows ->
    sort_inv global (local :: ls) /\ global_rows global ++ local_rows local ++ mjoin (local_rows <$> ls) ≡ₚ rows) as Hinv.
  { intros ls rows. rewrite Hgroup. intros [Hr Hv]. split; [by apply Hv |]. rewrite <- Hr. unfold group_rows.
    cbn. by rewrite Eglobal. }
  destruct (chunks part !! i) as [chunk |] eqn:Ei; cbn [mbind option_bind].
  - assert (Z.of_nat (length (local_rows local) + length (columns <$> chunk)) <= sort_max_rows (ops := ops)) as Hmax.
    { pose proof (part_fits _ _ _ _ _ _ _ _ Hth Ed Hpart). pose proof (length_chunks_take part (S i)) as Hle.
      rewrite (chunks_take_S _ _ _ Ei), length_app in Hle. rewrite length_fmap. lia. }
    destruct (sort_sink_rows env global local ls0 (columns <$> chunk) Hinv0 Hmax)
      as (global' & local' & E1 & _ & _ & Hlen'). rewrite E1. cbn [mbind option_bind].
    destruct (set_group_ok g bits hash_bin group global' Hg Hgroup) as [Hg' Hle].
    eexists _, _. split; [done |]. exists bits. split; [done |]. split; [done |]. split.
    { apply (scan_thread_ok g); [done | done | done | done | done | cbn; rewrite Ed; by eexists |].
      intros hb j [= <- <-]. exists d, s, part, local'. cbn. split_and!; [done | done | done | | done |].
      - by eapply lookup_lt_Some.
      - rewrite (chunks_take_S _ _ _ Ei), length_app. rewrite length_fmap in Hlen'. lia. }
    intros j ls rows. destruct (Hj j) as [Hfj Hdj]. rewrite Hdj. intros Hr.
    apply set_group_inv; [done | |]; unfold in_flight, delivered; cbn [th_pc th_local].
    + intros ->. rewrite Nat.eqb_refl in *. rewrite Nat.ltb_irrefl in *.
      rewrite (Ed : local_grouping _ (set_sort_local _ (Some local') _) = _), Hpart.
      cbn [sort_local set_sort_local option_list]. cbn [default from_option id].
      rewrite Hfl in Hr. destruct (Hinv _ _ Hr) as [Hv Hrows].
      destruct (sort_sink_rows env global local ls (columns <$> chunk) Hv Hmax)
        as (global2 & local2 & E2 & Hv2 & Hrows2 & _). rewrite E1 in E2. injection E2 as <- <-.
      split; [done |].
      transitivity (global_rows global' ++ local_rows local' ++ mjoin (local_rows <$> ls)); [done |].
      rewrite app_assoc, Hrows2, (chunks_take_S _ _ _ Ei), fmap_app. by apply app_chunk_perm.
    + intros Hjn. rewrite (Hfj Hjn) in Hr. destruct (Nat.eqb_spec j hash_bin); [done |].
      rewrite (Ed : local_grouping _ (set_sort_local _ (Some local') _) = _). exact Hr.
  - destruct (sort_combine_rows env global local ls0 Hinv0) as (global' & E1 & _). rewrite E1. cbn [mbind option_bind].
    destruct (set_group_ok g bits hash_bin group global' Hg Hgroup) as [Hg' Hle].
    eexists _, _. split; [done |]. exists bits. split; [done |]. split; [done |]. split.
    { apply (scan_thread_ok g); [done | done | done | done | done | cbn; rewrite Ed; by eexists | done]. }
    intros j ls rows. destruct (Hj j) as [Hfj Hdj]. rewrite Hdj. intros Hr.
    apply lookup_ge_None in Ei.
    apply set_group_inv; [done | |]; unfold in_flight, delivered; cbn [th_pc th_local].
    + intros ->. rewrite Ed, Hpart. cbn [default from_option id]. rewrite (proj2 (Nat.ltb_lt _ _)) by lia.
      rewrite Nat.ltb_irrefl, Nat.eqb_refl, take_ge, chunks_join in Hr by done.
      rewrite Hfl in Hr. destruct (Hinv _ _ Hr) as [Hv Hrows].
      destruct (sort_combine_rows env global local ls Hv) as (global2 & E2 & Hv2 & Hrows2).
      rewrite E1 in E2. injection E2 as <-. split; [done |]. cbn [app]. by rewrite Hrows2, <- app_assoc.
    + intros Hjn. rewrite (Hfj Hjn) in Hr. rewrite Ed.
      destruct (Nat.ltb_spec j hash_bin), (Nat.ltb_spec j (S hash_bin)), (Nat.eqb_spec j hash_bin); done || lia.
Qed.
Abbreviation system_step :=
  (system_step eval null hash_value int32_value EstimateCardinality chunks ops config h).

Lemma sink_thread_step env bits total g th :
  global_ok g bits -> thread_ok g bits total th ->
  (forall i, exists ls rows, group_inv (hash_groups _ g !! i) (in_flight i th ++ ls) rows) ->
  exists g' th', thread_step env g th = Some (g', th') /\ step_ok bits total g th g' th'.
Proof.
  intros Hg Ht Hgr. destruct (th_pc _ th) as [| chunk | hash_bin | hash_bin i |] eqn:Epc.
  - destruct (th_input _ th) as [| chunk input] eqn:Ein.
    + by apply combine_start_ok.
    + by eapply count_step_ok.
  - by eapply sink_step_ok.
  - by eapply start_bin_ok.
  - by eapply scan_bin_ok.
  - unfold HashedSort.thread_step. rewrite Epc. eexists _, _. split; [done |]. exists bits.
    split; [done |]. split; [apply global_le_refl |]. split; [done |]. done.
Qed.

Lemma group_inv_thread totals s bits t th i :
  sink_ok totals s bits -> sink_threads _ s !! t = Some th ->
  exists ls rows, group_inv (hash_groups _ (sink_global _ s) !! i) (in_flight i th ++ ls) rows.
Proof.
  intros [_ _ Hgr] Hth. assert ((in_flight i <$> sink_threads _ s) !! t = Some (in_flight i th)) as Hf
    by (by rewrite list_lookup_fmap, Hth).
  destruct (mjoin_insert_perm _ _ _ [] Hf) as (ls & Hls & _). eexists ls, _.
  eapply group_inv_perm; [exact Hls | done | apply Hgr].
Qed.

Lemma sink_system_step totals s bits c :
  sink_ok totals s bits -> (fst c < length (sink_threads _ s))%nat ->
  exists s' bits', system_step s c = Some s' /\ sink_ok totals s' bits' /\
    length (sink_threads _ s') = length (sink_threads _ s).
Proof.
  intros Hs Hc. unfold HashedSort.system_step.
  destruct (lookup_lt_is_Some_2 _ _ Hc) as [th Hth]. rewrite Hth. cbn [mbind option_bind].
  destruct (Forall2_lookup_r _ _ _ _ _ (sink_threads_ok _ _ _ Hs) Hth) as (total & Htotal & Hok).
  destruct (sink_thread_step (snd c) bits total (sink_global _ s) th (sink_global_ok _ _ _ Hs) Hok)
    as (g' & th' & -> & Hstep); [intros i; by eapply group_inv_thread |].
  destruct (sink_ok_step totals s bits (fst c) total th g' th' Hs Hth Htotal Hstep) as [bits' Hs'].
  cbn [mbind option_bind]. eexists _, bits'. split; [done |]. split; [done |].
  cbn. by rewrite length_insert.
Qed.

Lemma ofold_system_ok totals s bits schedule :
  sink_ok totals s bits -> Forall (fun c => fst c < length (sink_threads _ s))%nat schedule ->
  exists s' bits', ofold system_step s schedule = Some s' /\ sink_ok totals s' bits' /\
    length (sink_threads _ s') = length (sink_threads _ s).
Proof.
  revert s bits. induction schedule as [| c schedule IH]; intros s bits Hs Hc; [by exists s, bits |].
  apply Forall_cons in Hc as [Hc Hcs].
  destruct (sink_system_step totals s bits c Hs Hc) as (s1 & bits1 & E1 & Hs1 & Hl1).
  destruct (IH s1 bits1 Hs1) as (s2 & bits2 & E2 & Hs2 & Hl2); [by rewrite Hl1 |].
  exists s2, bits2. rewrite ofold_cons, E1. cbn [mbind option_bind]. split_and!; [done | done | congruence].
Qed.

(** ** The initial state *)

Lemma max_bits_loop_le fuel pages mb : mb <= 8 -> max_bits_loop fuel pages mb <= 8.
Proof.
  clear. revert mb. induction fuel as [| fuel IH]; intros mb Hmb; cbn [max_bits_loop]; [lia |].
  case_if; [| lia]. bool_to_prop. apply IH. lia.
Qed.

Lemma GlobalSinkState_new_ok pages :
  exists g bits, GlobalSinkState_new ops h pages = Some g /\ global_ok g bits /\ hash_groups _ g = [] /\
    gs_count _ g = 0.
Proof.
  unfold GlobalSinkState_new. destruct (hs_orders h) as [| o os]; [done |].
  destruct (hs_partitions h) as [| p ps]; [done |]. unfold Rehash. cbn [fixed_bits grouping_data max_bits].
  rewrite Z.eqb_refl. cbn [negb from_option id].
  pose proof (max_bits_loop_le 8 pages 1 ltac:(lia)) as Hmax.
  pose proof (new_bits_loop_range (Z.to_nat (max_bits_loop 8 pages 1)) (max_bits_loop 8 pages 1)
    (estimated_cardinality h) 4 ltac:(lia) Hmax) as Hn.
  rewrite Z.eqb_refl. destruct (Z.eqb_spec (new_bits_loop (Z.to_nat (max_bits_loop 8 pages 1))
    (max_bits_loop 8 pages 1) (estimated_cardinality h) 4) 0) as [E0 |]; [lia |].
  unfold CreatePartition, MAX_RADIX_BITS. rewrite (proj2 (Z.leb_le _ _)) by lia.
  cbn [mbind option_bind]. eexists _, _. split; [done |]. split; [| done].
  split; cbn [grouping_data set_grouping fixed_bits hash_groups max_bits]; [done | done | done | done | done |].
  intros i group Hi. by rewrite lookup_nil in Hi.
Qed.

Lemma LocalSinkState_new_ok bits : local_ok bits (LocalSinkState_new ops h) [].
Proof.
  unfold LocalSinkState_new, local_ok. cbn [sort_local local_grouping kept_rows minima].
  rewrite (proj2 (Z.eqb_neq (sort_col_count h) 0)) by lia.
  destruct (hs_partitions h); [done |]. cbn. split; [done |].
  split; [split; [apply (prune_refl rank) | done] |]. split; [| done].
  intros hash c Hc. by rewrite lookup_empty in Hc.
Qed.

(** The payload rows that a thread receives. *)
Abbreviation thread_rows input := (grouped (mjoin input)).

(** The chunks are well-formed, and the sort can hold the rows of a thread. *)
Definition input_ok (input : list Chunk) : Prop :=
  Forall chunk_ok input /\ Z.of_nat (length (mjoin input)) <= sort_max_rows (ops := ops).

Lemma SinkSystem_new_ok pages inputs :
  Forall input_ok inputs ->
  exists s bits, SinkSystem_new ops h pages inputs = Some s /\
    sink_ok ((fun input => thread_rows input) <$> inputs) s bits /\
    length (sink_threads _ s) = length inputs.
Proof.
  intros Hi. unfold SinkSystem_new.
  destruct (GlobalSinkState_new_ok pages) as (g & bits & -> & Hg & Hh & _).
  cbn [mbind option_bind]. eexists _, bits. split; [done |].
  split; [| cbn; apply length_fmap]. split; cbn [sink_global sink_threads].
  - done.
  - apply Forall2_fmap, Forall_Forall2_diag. eapply Forall_impl; [exact Hi |]. intros input [Hc Hmax].
    pose proof (LocalSinkState_new_ok bits) as Hl. split.
    { rewrite length_grouped; [exact Hmax |]. apply Forall_join. eapply Forall_impl; [exact Hc |].
      by intros c [_ ?]. }
    exists []. unfold pending_chunks. cbn [th_pc th_input th_local app].
    split_and!; [done | done | by apply local_ok_quiet; [apply Hl |] | apply Hl].
  - intros i. rewrite Hh, lookup_nil, <- !list_fmap_compose. unfold compose, delivered, in_flight. cbn [th_pc].
    clear. unfold group_inv. cbn. induction inputs as [| input inputs [IH1 IH2]]; [done |]. split; [exact IH1 | exact IH2].
Qed.

Abbreviation run_sink :=
  (run_sink eval null hash_value int32_value EstimateCardinality chunks ops config h).

Lemma run_sink_ok pages inputs schedule :
  Forall input_ok inputs -> Forall (fun c => fst c < length inputs)%nat schedule ->
  exists s bits, run_sink pages inputs schedule = Some s /\
    sink_ok ((fun input => thread_rows input) <$> inputs) s bits.
Proof.
  intros Hi Hc. unfold HashedSort.run_sink.
  destruct (SinkSystem_new_ok pages inputs Hi) as (s0 & bits0 & -> & Hs0 & Hl0). cbn [mbind option_bind].
  destruct (ofold_system_ok _ s0 bits0 schedule Hs0) as (s & bits & E1 & Hs & _); [by rewrite Hl0 |].
  by exists s, bits.
Qed.

(** ** The end *)

Lemma combined_thread_ok g bits total th i :
  thread_ok g bits total th -> th_pc _ th = combined ->
  kept_ok total (kept_rows (th_local _ th)) /\
  delivered i th ≡ₚ (if (i <? Z.to_nat (2 ^ bits))%nat
                     then bin_rows row_hash bits (Z.of_nat i) (kept_rows (th_local _ th)) else []).
Proof.
  intros (_ & D & Ht & _ & Hl & Hpc) Epc. rewrite Epc in Hpc. destruct Hpc as [Hp Hd].
  rewrite Hp in Ht. unfold grouped in Ht. cbn in Ht. rewrite app_nil_r in Ht. subst total.
  destruct Hl as (_ & Hk & _ & Hg). cbn [local_grouping set_sort_local] in Hg. split; [exact Hk |].
  unfold delivered. rewrite Epc.
  destruct (local_grouping _ (th_local _ th)) as [[d s] |] eqn:Ed; cycle 1.
  { unfold kept_rows. rewrite Ed. by case_match. }
  destruct Hg as ([rows Hh] & _). destruct (Hd d s eq_refl) as (_ & <- & _).
  pose proof Hh as (_ & Hparts' & _). rewrite Hparts'.
  unfold partitioned. rewrite list_lookup_fmap. destruct (Nat.ltb_spec i (Z.to_nat (2 ^ radix_bits d))).
  - rewrite lookup_seq_lt by done. cbn. unfold bin_rows. by rewrite (kept_holds _ d s rows Ed Hh).
  - by rewrite lookup_ge_None_2 by (rewrite length_seq; lia).
Qed.

(** ** The count of the rows *)

Lemma Rehash_count c g g' : Rehash ops c g = Some g' -> gs_count _ g' = gs_count _ g.
Proof. clear. unfold Rehash. intros H. repeat (case_match || simplify_option_eq); done. Qed.

Lemma sink_partitioned_count g l chunk g' l' :
  sink_partitioned g l chunk = Some (g', l') -> gs_count _ g' = gs_count _ g.
Proof.
  clear. unfold HashedSort.sink_partitioned. intros H.
  assert (forall l g1 l1, UpdateLocalPartition chunks ops g l = Some (g1, l1) ->
    gs_count _ g1 = gs_count _ g) as HU.
  { intros l1 g1 l2. unfold UpdateLocalPartition. intros H1.
    repeat (case_match || simplify_option_eq); try done. all: by eapply Rehash_count. }
  destruct (Hash _ _ _ _ _ _ _ _) as [[hashes l1] |]; [| done]. cbn [mbind option_bind] in H.
  repeat (case_match || simplify_option_eq);
    match goal with H : UpdateLocalPartition _ _ _ _ = Some _ |- _ => by apply HU in H end.
Qed.

Lemma scan_bin_count env g l hash_bin i g' l' pc :
  scan_bin chunks ops env g l hash_bin i = Some (g', l', pc) -> gs_count _ g' = gs_count _ g.
Proof. clear. unfold scan_bin. intros H. by repeat (case_match || simplify_option_eq). Qed.

(** The rows that are counted and the rows that are still to come. *)
Lemma thread_step_count env g th g' th' :
  thread_step env g th = Some (g', th') ->
  gs_count _ g' + Z.of_nat (length (mjoin (th_input _ th'))) =
  gs_count _ g + Z.of_nat (length (mjoin (th_input _ th))).
Proof.
  clear -Hcols. unfold HashedSort.thread_step.
  destruct (th_pc _ th) as [| chunk | hash_bin | hash_bin i |] eqn:Epc.
  - destruct (th_input _ th) as [| chunk input] eqn:Ein.
    + unfold combine_start, combine_unsorted, combine_sorted, CombineLocalPartition.
      intros H. repeat (case_match || simplify_option_eq); done.
    + intros [= <- <-]. cbn [gs_count sink_count th_input]. rewrite mjoin_cons, length_app. lia.
  - unfold Sink. intros H. destruct (sort_col_count h =? 0); [by repeat (case_match || simplify_option_eq) |].
    destruct (sort_local _ (th_local _ th)); [by repeat (case_match || simplify_option_eq) |].
    destruct (sink_partitioned g (th_local _ th) chunk) as [[g1 l1] |] eqn:E1; [| done].
    apply sink_partitioned_count in E1. cbn in H. injection H as <- <-. by rewrite E1.
  - intros H. destruct (start_bin _ _ _) as [[l1 pc1] |]; [| done]. cbn in H. by injection H as <- <-.
  - intros H. destruct (scan_bin _ _ _ _ _ _ _) as [[[g1 l1] pc1] |] eqn:E1; [| done].
    apply scan_bin_count in E1. cbn in H. injection H as <- <-. by rewrite E1.
  - intros [= <- <-]. done.
Qed.

Definition to_come (s : SinkSystem ops) : Z :=
  gs_count _ (sink_global _ s) +
  Z.of_nat (length (mjoin (mjoin ∘ th_input _ <$> sink_threads _ s : list (list (list V))))).

Lemma length_mjoin_insert {A} (xs : list (list A)) i x x' :
  xs !! i = Some x ->
  Z.of_nat (length (mjoin (<[i := x']> xs))) =
  Z.of_nat (length (mjoin xs)) - Z.of_nat (length x) + Z.of_nat (length x').
Proof.
  clear. intros Hx. rewrite <- (take_drop_middle _ _ _ Hx) at 2.
  rewrite insert_take_drop by (by eapply lookup_lt_Some).
  rewrite !mjoin_app, !mjoin_cons, !length_app. lia.
Qed.

Lemma system_step_count s c s' : system_step s c = Some s' -> to_come s' = to_come s.
Proof.
  unfold HashedSort.system_step, to_come. intros H.
  destruct (sink_threads _ s !! fst c) as [th |] eqn:Eth; [| done]. cbn [mbind option_bind] in H.
  destruct (thread_step (snd c) (sink_global _ s) th) as [[g' th'] |] eqn:Es; [| done].
  apply thread_step_count in Es. cbn in H. injection H as <-. cbn [sink_global sink_threads].
  rewrite list_fmap_insert, (length_mjoin_insert _ _ (mjoin (th_input _ th))).
  - unfold compose. lia.
  - by rewrite list_lookup_fmap, Eth.
Qed.

Lemma run_sink_count pages inputs schedule s :
  run_sink pages inputs schedule = Some s ->
  to_come s = Z.of_nat (length (mjoin (mjoin inputs))).
Proof.
  unfold HashedSort.run_sink, SinkSystem_new. destruct (GlobalSinkState_new_ok pages) as (g & bits & -> & _ & _ & Hg).
  cbn [mbind option_bind]. set (s0 := {| sink_global := g; sink_threads := _ |}). intros H.
  assert (to_come s0 = Z.of_nat (length (mjoin (mjoin inputs)))) as <-.
  { unfold to_come, s0. cbn [sink_global sink_threads]. rewrite Hg, <- list_fmap_compose. unfold compose.
    cbn [th_input]. rewrite Z.add_0_l. f_equal. clear.
    induction inputs as [| input inputs IH]; [done |].
    rewrite fmap_cons, !mjoin_cons, mjoin_app, !length_app, IH. done. }
  revert H. generalize s0. induction schedule as [| c schedule IH]; intros s1 H.
  - by injection H as <-.
  - rewrite ofold_cons in H. destruct (system_step s1 c) as [s2 |] eqn:E1; [| done].
    apply system_step_count in E1. cbn [mbind option_bind] in H. rewrite <- E1. by apply IH.
Qed.

(** ** Finalize *)

(** The sort of every group was finalized when no thread had rows left. *)
Definition groups_finalized (g : GlobalSinkState) : Prop :=
  forall i group, hash_groups _ g !! i = Some (Some group) ->
    exists s0, sort_global _ group = Some (sort_finalize ops s0) /\ sort_inv s0 [].

Lemma Finalize_ok g bits :
  global_ok g bits -> (gs_count _ g <> 0 -> hash_groups _ g <> []) ->
  (forall i, exists rows, group_inv (hash_groups _ g !! i) [] rows) ->
  exists g', Finalize ops h g = Some (if gs_count _ g =? 0 then NO_OUTPUT_POSSIBLE else READY, g') /\
    length (hash_groups _ g') = length (hash_groups _ g) /\
    (forall i, group_rows (hash_groups _ g' !! i) = group_rows (hash_groups _ g !! i)) /\
    (gs_count _ g <> 0 -> groups_finalized g').
Proof.
  intros Hg Hne Hinv. unfold Finalize. destruct (Z.eqb_spec (gs_count _ g) 0); [by exists g |].
  rewrite (proj2 (Z.eqb_neq (sort_col_count h) 0)) by lia.
  destruct (Nat.eqb_spec (length (hash_groups _ g)) 0) as [E0 | _].
  { apply nil_length_inv in E0. by destruct Hne. }
  set (f := fun group : option HashedSortGroup => _).
  assert (exists groups, mapM f (hash_groups _ g) = Some groups) as [groups Hgroups].
  { apply mapM_is_Some, Forall_lookup. intros i [group |] Hi; cbn; [| by eexists].
    destruct (g_groups _ _ Hg i group Hi) as [global ->]. by eexists. }
  rewrite Hgroups. cbn [mbind option_bind]. eexists. split; [done |]. cbn [hash_groups set_groups].
  apply mapM_Some in Hgroups. split; [symmetry; by eapply Forall2_length |].
  assert (forall i group, groups !! i = Some (Some group) ->
    exists s0, sort_global _ group = Some (sort_finalize ops s0) /\ sort_inv s0 []) as Hfin.
  { intros i group Hi. destruct (Forall2_lookup_r _ _ _ _ _ Hgroups Hi) as (x & Hx & Ef).
    destruct x as [old |]; cbn in Ef; [| done]. destruct (sort_global _ old) as [s0 |] eqn:E1; [| done].
    cbn in Ef. injection Ef as <-. exists s0. split; [done |].
    destruct (Hinv i) as (rows & _ & Hv). rewrite Hx in Hv. by apply Hv. }
  split; [| by intros _]. intros i. destruct (Hinv i) as (rows & _ & Hi). pose proof (proj1 (Forall2_lookup _ _ _) Hgroups i) as H.
  destruct H as [x y H |]; [| done]. unfold group_rows. destruct x as [group |]; cbn in *.
  - destruct (sort_global _ group) as [global |]; [| done]. cbn in H. injection H as <-. cbn.
    by apply sort_finalize_rows, Hi.
  - by injection H as <-.
Qed.

Lemma combined_groups g bits total th :
  global_ok g bits -> thread_ok g bits total th -> th_pc _ th = combined -> total <> [] ->
  hash_groups _ g <> [].
Proof.
  intros Hg (_ & D & Ht & _ & Hl & Hpc) Epc Hne. rewrite Epc in Hpc. destruct Hpc as [Hp Hd].
  rewrite Hp in Ht. unfold grouped in Ht. cbn in Ht. rewrite app_nil_r in Ht. subst total.
  destruct Hl as (_ & _ & _ & Hd'). cbn [local_grouping set_sort_local] in Hd'. destruct (local_grouping _ (th_local _ th)) as [[d s] |]; [| done].
  destruct (Hd d s eq_refl) as (Hf & _ & _). pose proof (g_fixed _ _ Hg Hf) as Hlen.
  pose proof (g_bits_range _ _ Hg). intros E0. rewrite E0 in Hlen. cbn in Hlen.
  pose proof (Z.pow_pos_nonneg 2 bits). lia.
Qed.

(** ** The groups *)

(** All threads have combined. *)
Definition all_combined (s : SinkSystem ops) : Prop :=
  Forall (fun th => th_pc _ th = combined) (sink_threads _ s).

#[global] Instance all_combined_dec s : Decision (all_combined s).
Proof.
  unfold all_combined. apply Forall_dec. intros th.
  destruct (th_pc _ th); (by left) || (right; done).
Defined.

(** The payload rows of all threads. *)
Abbreviation input_rows inputs := (grouped (mjoin (mjoin inputs))).

Lemma all_combined_kept totals s bits :
  sink_ok totals s bits -> all_combined s ->
  kept_ok (mjoin totals) (mjoin (kept_rows ∘ th_local _ <$> sink_threads _ s)) /\
  forall i, mjoin (in_flight i <$> sink_threads _ s) = [] /\ mjoin (delivered i <$> sink_threads _ s) ≡ₚ
    (if (i <? Z.to_nat (2 ^ bits))%nat
     then bin_rows row_hash bits (Z.of_nat i) (mjoin (kept_rows ∘ th_local _ <$> sink_threads _ s)) else []).
Proof.
  intros [_ Hts _] Hall. unfold all_combined in Hall. revert Hall.
  induction Hts as [| total th totals' ths Ht _ IH]; intros Hall.
  - split; [split; [apply (prune_refl rank) | done] |]. intros i. cbn. split; [done |]. by case_match.
  - apply Forall_cons in Hall as [Epc Hall]. destruct (IH Hall) as [[Hk1 Hk2] Hd].
    pose proof (fun i => combined_thread_ok _ _ _ _ i Ht Epc) as Hth. destruct (Hth 0%nat) as [[Hk3 Hk4] _].
    rewrite fmap_cons, !mjoin_cons. split.
    + split; [by apply (prune_app row_hash ord _) |]. intros Hs. by rewrite (Hk4 Hs), (Hk2 Hs).
    + intros i. destruct (Hth i) as [_ Hdi], (Hd i) as [Hf Hdi2]. rewrite !fmap_cons, !mjoin_cons, Hf, Hdi, Hdi2.
      split; [unfold in_flight; by rewrite Epc |].
      destruct (i <? Z.to_nat (2 ^ bits))%nat; [| done]. unfold bin_rows. by rewrite filter_app.
Qed.

(** The rows of all groups. *)
Definition sorted_rows (groups : list (option HashedSortGroup)) : list (list V) :=
  mjoin ((fun group => group_rows (Some group)) <$> groups).

Lemma mjoin_Permutation {A} (xs ys : list (list A)) : Forall2 Permutation xs ys -> mjoin xs ≡ₚ mjoin ys.
Proof. clear. induction 1 as [| x y xs ys H _ IH]; [done |]. by rewrite !mjoin_cons, H, IH. Qed.

Lemma sorted_rows_bins groups bits (K : list row) :
  bits_ok bits -> groups = [] \/ length groups = Z.to_nat (2 ^ bits) ->
  (forall i, group_rows (groups !! i) ≡ₚ
     columns <$> (if (i <? Z.to_nat (2 ^ bits))%nat then bin_rows row_hash bits (Z.of_nat i) K else [])) ->
  sorted_rows groups ≡ₚ columns <$> K.
Proof.
  intros Hb Hlen H. rewrite <- (mjoin_partitioned row_hash bits K Hb). unfold sorted_rows.
  assert (columns <$> mjoin (partitioned row_hash bits K) =
    mjoin (fmap columns <$> partitioned row_hash bits K)) as ->.
  { clear. induction (partitioned row_hash bits K) as [| x xs IH]; [done |].
    by rewrite fmap_cons, !mjoin_cons, fmap_app, IH. }
  destruct Hlen as [-> | Hlen].
  - cbn [fmap list_fmap mjoin list_join]. symmetry. apply Permutation_nil_r.
    assert (forall xs : list (list (list V)), Forall (fun x => x = []) xs -> mjoin xs = []) as Hnil.
    { clear. induction 1 as [| x xs -> _ IH]; [done |]. by rewrite mjoin_cons, IH. }
    apply Hnil, Forall_lookup. intros i x Hx. rewrite list_lookup_fmap in Hx. unfold partitioned in Hx.
    rewrite list_lookup_fmap in Hx. destruct (decide (i < Z.to_nat (2 ^ bits)))%nat.
    + rewrite lookup_seq_lt in Hx by done. cbn in Hx. injection Hx as <-. specialize (H i).
      rewrite (proj2 (Nat.ltb_lt _ _)) in H by done. by apply Permutation_nil_l in H.
    + by rewrite lookup_ge_None_2 in Hx by (rewrite length_seq; lia).
  - apply mjoin_Permutation, Forall2_same_length_lookup_2.
    { by rewrite !length_fmap, length_partitioned. }
    intros i x y Hx Hy. rewrite list_lookup_fmap in Hx. rewrite list_lookup_fmap in Hy. specialize (H i).
    destruct (groups !! i) as [group |] eqn:Ei; [| done]. cbn in Hx. injection Hx as <-.
    apply lookup_lt_Some in Ei. unfold partitioned in Hy. rewrite list_lookup_fmap in Hy.
    rewrite lookup_seq_lt in Hy by lia. cbn in Hy. injection Hy as <-.
    by rewrite (proj2 (Nat.ltb_lt _ _)) in H by lia.
Qed.

(** What the groups hold at the end. *)
Record result_ok (inputs : list (list Chunk)) (g : GlobalSinkState) (K : list row) (bits : Z) : Prop := {
  result_bits : 4 <= bits <= 8;
  result_kept : kept_ok (input_rows inputs) K;
  result_group : forall i, (i < Z.to_nat (2 ^ bits))%nat ->
    group_rows (hash_groups _ g !! i) ≡ₚ columns <$> bin_rows row_hash bits (Z.of_nat i) K;
  result_rows : sorted_rows (hash_groups _ g) ≡ₚ columns <$> K;
  result_finalized : mjoin (mjoin inputs) <> [] -> groups_finalized g
}.

Lemma grouped_join inputs :
  mjoin ((fun input => thread_rows input) <$> inputs) = input_rows inputs.
Proof.
  clear. induction inputs as [| input inputs IH]; [done |].
  rewrite fmap_cons, !mjoin_cons, IH. unfold grouped. rewrite mjoin_app, <- omap_app. done.
Qed.

Lemma length_input_rows inputs :
  Forall input_ok inputs -> length (input_rows inputs) = length (mjoin (mjoin inputs)).
Proof.
  intros Hi. apply length_grouped, Forall_join, Forall_join.
  eapply Forall_impl; [exact Hi |]. intros input [Hin _]. eapply Forall_impl; [exact Hin |]. by intros c [_ ?].
Qed.

Lemma combined_input totals s bits :
  sink_ok totals s bits -> all_combined s ->
  mjoin (mjoin ∘ th_input _ <$> sink_threads _ s : list (list (list V))) = [].
Proof.
  intros [_ Hts _] Hall. unfold all_combined in Hall. revert Hall.
  induction Hts as [| total th totals' ths Ht _ IH]; intros Hall; [done |].
  apply Forall_cons in Hall as [Epc Hall]. destruct Ht as (_ & D & _ & _ & _ & Hp). rewrite Epc in Hp.
  destruct Hp as [Hp _]. unfold pending_chunks in Hp. rewrite Epc in Hp. cbn [app] in Hp.
  rewrite fmap_cons, mjoin_cons, (IH Hall). unfold compose. by rewrite Hp.
Qed.

(** Some thread created the groups if there are rows. *)
Lemma groups_exist totals s bits :
  sink_ok totals s bits -> all_combined s -> mjoin totals <> [] -> hash_groups _ (sink_global _ s) <> [].
Proof.
  intros [Hg Hts _] Hall Hne.
  assert (exists i x, totals !! i = Some x /\ x <> []) as (i & x & Hx & Hxne).
  { clear -Hne. induction totals as [| x xs IH]; [done |]. rewrite mjoin_cons in Hne.
    destruct x as [| y ys]; [| by exists 0%nat, (y :: ys)].
    destruct (IH Hne) as (i & x & Hx & Hxne). by exists (S i), x. }
  destruct (Forall2_lookup_l _ _ _ _ _ Hts Hx) as (th & Hth & Hok).
  eapply combined_groups; [done | done | | done]. unfold all_combined in Hall.
  exact (Forall_lookup_1 _ _ _ _ Hall Hth).
Qed.

Lemma combined_result pages inputs schedule s :
  Forall input_ok inputs -> Forall (fun c => fst c < length inputs)%nat schedule ->
  run_sink pages inputs schedule = Some s -> all_combined s ->
  exists g' K bits,
    Finalize ops h (sink_global _ s) =
      Some (if (length (mjoin (mjoin inputs)) =? 0)%nat then NO_OUTPUT_POSSIBLE else READY, g') /\
    result_ok inputs g' K bits.
Proof.
  intros Hi Hc Hrun Hall. pose proof (run_sink_count pages inputs schedule s Hrun) as Hcount.
  destruct (run_sink_ok pages inputs schedule Hi Hc) as (s' & bits & E1 & Hs).
  rewrite Hrun in E1. injection E1 as <-.
  destruct (all_combined_kept _ s bits Hs Hall) as [Hk Hd]. rewrite grouped_join in Hk.
  pose proof Hs as [Hg _ Hgr]. unfold to_come in Hcount.
  rewrite (combined_input _ s bits Hs Hall), Z.add_0_r in Hcount.
  pose proof (length_input_rows inputs Hi) as Hrows.
  destruct (Finalize_ok (sink_global _ s) bits Hg) as (g' & EF & Hlen & Hgroups & Hfinalized).
  { intros Hne. eapply groups_exist; [done | done |]. rewrite grouped_join. intros E0.
    rewrite E0 in Hrows. cbn in Hrows. lia. }
  { intros i. specialize (Hgr i). rewrite (proj1 (Hd i)) in Hgr. by eexists. }
  exists g', (mjoin (kept_rows ∘ th_local _ <$> sink_threads _ s)), bits. rewrite EF, Hcount.
  split; [do 3 f_equal; by destruct (length (mjoin (mjoin inputs))) |].
  assert (forall i, group_rows (hash_groups _ g' !! i) ≡ₚ
     columns <$> (if (i <? Z.to_nat (2 ^ bits))%nat
       then bin_rows row_hash bits (Z.of_nat i) (mjoin (kept_rows ∘ th_local _ <$> sink_threads _ s)) else []))
    as Hfinal.
  { intros i. rewrite Hgroups. destruct (Hgr i) as [Hi' _]. destruct (Hd i) as [Ef Hdi].
    rewrite Ef in Hi'. cbn in Hi'. by rewrite app_nil_r, Hdi in Hi'. }
  pose proof (g_bits_range _ _ Hg). split; [done | done | | |].
  - intros i Hi'. rewrite Hfinal. by rewrite (proj2 (Nat.ltb_lt _ _)) by done.
  - apply (sorted_rows_bins _ bits); [unfold bits_ok, MAX_RADIX_BITS; lia | | exact Hfinal].
    destruct (decide (fixed_bits _ (sink_global _ s) = 0)) as [E0 | E0].
    + left. apply nil_length_inv. by rewrite Hlen, (g_fresh _ _ Hg E0).
    + right. by rewrite Hlen, (g_fixed _ _ Hg E0).
  - intros Hne. apply Hfinalized. rewrite Hcount. destruct (mjoin (mjoin inputs)); [done | cbn; lia].
Qed.

(** ** Termination *)

(** The steps that the scan of partitions takes. *)
Fixpoint scan_cost (parts : list (list row)) : nat :=
  match parts with
  | [] => 0
  | part :: parts => 2 + length (chunks part) + scan_cost parts
  end.

(** The steps that a thread that receives [total] has left. *)
Definition weight (total : list row) (th : Thread) : nat :=
  let parts := match local_grouping _ (th_local _ th) with Some (d, _) => partitions d | None => [] end in
  match th_pc _ th with
  | running => 2 * length (th_input _ th) + 514 + length total
  | counted _ => 2 * length (th_input _ th) + 515 + length total
  | combining hash_bin => S (scan_cost (drop hash_bin parts))
  | scanning hash_bin i =>
      2 + scan_cost (drop (S hash_bin) parts) + (length (chunks (default [] (parts !! hash_bin))) - i)
  | combined => 0
  end.

Lemma length_chunks (rows : list row) : (length (chunks rows) <= length rows)%nat.
Proof.
  rewrite <- (chunks_join (chunks := chunks) rows) at 2. generalize (chunks_rows (chunks := chunks) rows).
  generalize (chunks rows). clear. induction 1 as [| c cs Hc _ IH]; [done |].
  rewrite mjoin_cons, length_app. destruct c; [done |]. cbn. lia.
Qed.

Lemma scan_cost_le parts : (scan_cost parts <= 2 * length parts + length (mjoin parts))%nat.
Proof.
  induction parts as [| part parts IH]; [done |]. cbn [scan_cost length]. rewrite mjoin_cons, length_app.
  pose proof (length_chunks part). lia.
Qed.

Lemma thread_scan_cost g bits total th d s :
  global_ok g bits -> thread_ok g bits total th -> local_grouping _ (th_local _ th) = Some (d, s) ->
  (scan_cost (partitions d) <= 512 + length total)%nat.
Proof.
  intros Hg (_ & D & -> & _ & (_ & [(R & HD & _) _] & _ & Hd) & _) Ed.
  change (kept_rows (quiet (th_local _ th))) with (kept_rows (th_local _ th)) in HD.
  cbn [local_grouping set_sort_local] in Hd. unfold kept_rows in HD. rewrite Ed in HD, Hd.
  destruct Hd as ([rows Hd] & Hb & _). pose proof (length_holds _ _ Hd) as Hlen.
  assert (2 ^ radix_bits d <= 2 ^ 8) as Hp.
  { apply Z.pow_le_mono_r; [lia |]. pose proof (g_bits_range _ _ Hg). lia. }
  apply Permutation_length in HD. rewrite length_app in HD. pose proof (scan_cost_le (partitions d)).
  rewrite length_app. lia.
Qed.

Lemma thread_step_weight env bits' total g th g' th' :
  global_ok g' bits' -> thread_ok g' bits' total th' ->
  thread_step env g th = Some (g', th') -> (weight total th' <= weight total th - 1)%nat.
Proof.
  intros Hg' Hth' Hs. unfold HashedSort.thread_step in Hs. unfold weight.
  destruct (th_pc _ th) as [| chunk | hash_bin | hash_bin i |] eqn:Epc.
  - destruct (th_input _ th) as [| chunk input] eqn:Ein; cycle 1.
    { injection Hs as <- <-. cbn [th_pc th_input length]. lia. }
    destruct (combine_start _ _ _ _ _ _) as [[[g1 l1] pc] |] eqn:E1; [| done]. cbn in Hs.
    injection Hs as <- <-. cbn [th_pc th_input th_local]. unfold combine_start in E1.
    assert (pc = combined \/ pc = combining 0) as [-> | ->]; [| lia |].
    { repeat (case_match || simplify_option_eq); auto. }
    rewrite drop_0. destruct (local_grouping _ l1) as [[d s] |] eqn:Ed; [| cbn; lia].
    pose proof (thread_scan_cost _ _ _ _ _ _ Hg' Hth' Ed). lia.
  - destruct (Sink _ _ _ _ _ _ _ _ _ _ _ _ _) as [[g1 l1] |]; [| done]. cbn in Hs.
    injection Hs as <- <-. cbn [th_pc th_input]. lia.
  - unfold start_bin in Hs. destruct (local_grouping _ (th_local _ th)) as [[d s] |] eqn:Ed; [| done].
    cbn [mbind option_bind] in Hs. destruct (partitions d !! hash_bin) as [part |] eqn:Ep; cycle 1.
    { injection Hs as <- <-. cbn [th_pc]. lia. }
    rewrite (drop_S _ _ _ Ep). cbn [scan_cost]. destruct (length part =? 0)%nat; injection Hs as <- <-;
      cbn [th_pc th_local local_grouping set_sort_local]; rewrite Ed, ?Ep; cbn; lia.
  - unfold scan_bin in Hs. destruct (local_grouping _ (th_local _ th)) as [[d s] |] eqn:Ed; [| done].
    cbn [mbind option_bind] in Hs. destruct (partitions d !! hash_bin) as [part |] eqn:Ep; [| done].
    cbn [mbind option_bind default from_option id] in *.
    destruct (mjoin (hash_groups _ g !! hash_bin)) as [group |]; [| done]. cbn [mbind option_bind] in Hs.
    destruct (sort_global _ group) as [global |]; [| done]. cbn [mbind option_bind] in Hs.
    destruct (sort_local _ (th_local _ th)) as [local |]; [| done]. cbn [mbind option_bind] in Hs.
    destruct (chunks part !! i) as [chunk |] eqn:Ei.
    + destruct (sort_sink _ _ _ _ _) as [[global1 local1] |]; [| done]. cbn in Hs. injection Hs as <- <-.
      cbn [th_pc th_local local_grouping set_sort_local]. rewrite Ed, Ep. cbn.
      apply lookup_lt_Some in Ei. lia.
    + destruct (sort_combine _ _ _ _) as [global1 |]; [| done]. cbn in Hs. injection Hs as <- <-.
      cbn [th_pc th_local]. rewrite Ed. lia.
  - injection Hs as <- <-. rewrite Epc. lia.
Qed.

(** How often a thread is scheduled. *)
Definition turns (t : nat) (schedule : list (nat * Env ops)) : nat :=
  length (filter (fun c => fst c = t) schedule).

Lemma ofold_system_combined totals s bits schedule :
  sink_ok totals s bits -> Forall (fun c => fst c < length (sink_threads _ s))%nat schedule ->
  (forall t total th, totals !! t = Some total -> sink_threads _ s !! t = Some th ->
     (weight total th <= turns t schedule)%nat) ->
  exists s', ofold system_step s schedule = Some s' /\ all_combined s'.
Proof.
  revert s bits. induction schedule as [| c schedule IH]; intros s bits Hs Hc Hw.
  { exists s. split; [done |]. unfold all_combined. apply Forall_lookup. intros t th Hth.
    destruct (Forall2_lookup_r _ _ _ _ _ (sink_threads_ok _ _ _ Hs) Hth) as (total & Htotal & _).
    specialize (Hw t total th Htotal Hth). unfold turns in Hw. cbn in Hw. unfold weight in Hw.
    destruct (th_pc _ th); [lia | lia | lia | lia | done]. }
  apply Forall_cons in Hc as [Hc Hcs].
  destruct (sink_system_step totals s bits c Hs Hc) as (s1 & bits1 & E1 & Hs1 & Hl1).
  destruct (IH s1 bits1 Hs1) as (s2 & E2 & Hall); [by rewrite Hl1 | |].
  - intros t total th' Htotal Hth'. pose proof E1 as E2. unfold HashedSort.system_step in E2.
    destruct (sink_threads _ s !! fst c) as [th |] eqn:Eth; [| done]. cbn [mbind option_bind] in E2.
    destruct (thread_step (snd c) (sink_global _ s) th) as [[g' th1] |] eqn:Es; [| done].
    cbn in E2. injection E2 as <-. destruct Hs1 as [Hg1 Hts1 _]. cbn [sink_global sink_threads] in *.
    unfold turns in *. destruct (decide (t = fst c)) as [-> | Hne].
    + pose proof (Forall2_lookup_lr _ _ _ _ _ _ Hts1 Htotal Hth') as Hok.
      rewrite list_lookup_insert_eq in Hth' by done. injection Hth' as <-.
      pose proof (thread_step_weight _ _ _ _ _ _ _ Hg1 Hok Es) as Hstep.
      specialize (Hw _ _ _ Htotal Eth). rewrite filter_cons_True in Hw by done. cbn [length] in Hw. lia.
    + rewrite list_lookup_insert_ne in Hth' by done. specialize (Hw _ _ _ Htotal Hth').
      by rewrite filter_cons_False in Hw by done.
  - exists s2. rewrite ofold_cons, E1. done.
Qed.

(** ** Theorems *)



(** ** The predicate on RANK *)

Definition column_ord (r : list V) : Z :=
  default 0 (c ← sort_ids h !! length (hs_partitions h); int32_value <$> zload r c).

Lemma rank_columns (part : list V -> Z) (D : list row) r :
  Pruning.rank part column_ord (columns <$> D) (columns r) = Pruning.rank (part ∘ columns) ord D r.
Proof. clear. unfold Pruning.rank, smaller. rewrite filter_fmap_comp, length_fmap. done. Qed.

Lemma kept_ok_filter (part : list V -> Z) D K :
  kept_ok D K ->
  (forall x y, x ∈ D -> y ∈ D -> row_hash x = row_hash y <-> part (columns x) = part (columns y)) ->
  filter (fun r => Pruning.rank part column_ord (columns <$> K) r <= value_count) (columns <$> K) ≡ₚ
  filter (fun r => Pruning.rank part column_ord (columns <$> D) r <= value_count) (columns <$> D).
Proof.
  intros [Hk _] Hpart. pose proof Hk as (R & HD & _).
  assert (forall r, r ∈ K -> r ∈ D) as HKD.
  { intros r Hr. rewrite HD. apply elem_of_app. by left. }
  assert (forall L, (forall r, r ∈ L -> r ∈ D) ->
    filter (fun r => Pruning.rank part column_ord (columns <$> L) r <= value_count) (columns <$> L) =
    columns <$> filter (fun r => rank L r <= value_count) L) as Hrank.
  { intros L HL. rewrite filter_fmap_comp. f_equal. apply filter_iff_in. intros r Hr.
    rewrite rank_columns. rewrite (rank_part_ext row_hash (part ∘ columns)); [done |].
    intros x Hx. unfold compose. apply Hpart; auto. }
  rewrite (Hrank K HKD), (Hrank D (fun r Hr => Hr)). apply fmap_Permutation.
  by apply (filter_pruned row_hash ord rank).
Qed.

End invariant.

(** ** Witnesses

    Rows of a PARTITION BY and an ORDER BY column, hashed so that the partitions of 4
    radix bits are the values modulo 16, and a sort that only collects rows. *)

Definition list_sort : SortOps (list Z) := {|
  GSink := list (list Z); LSink := list (list Z); Env := unit;
  sort_global_new := []; sort_local_new := [];
  sort_sink _ g l chunk := Some (g, l ++ chunk);
  sort_combine _ g l := Some (g ++ l);
  sort_finalize g := g
|}.

#[export] Instance list_sort_laws : SortSinkLaws list_sort.
Proof.
  refine {| global_rows := fun g : GSink list_sort => g; local_rows := fun l : LSink list_sort => l;
            sort_max_rows := 1000; sort_inv := fun _ _ => True |}; try done.
  - intros env g l ls chunk _ _. exists g, (l ++ chunk). by rewrite length_app.
  - intros env g l ls _. by exists (g ++ l).
Defined.

Definition example_sort : HashedSort unit unit :=
  HashedSort_new tt [BOUND_REF tt 0]
    [{| order_type := ASCENDING; null_order := NULLS_FIRST; order_expression := BOUND_REF tt 1 |}]
    [tt; tt] 100 true.

Definition example_config : WindowOperatorConfig := {|
  shrink_partitions := true; simulate_shrink_partitions := false; shrink_partitions_adaptive := false;
  use_adaptivity_context := false; predicate_value := 2; expected_partitions := 0;
  shrink_partitions_threshold := S754_zero false
|}.

Definition example_eval (e : unit) (row : list Z) : Z := 0.
Definition example_hash (v : Z) : Z := u64 (v * 2 ^ 44).

Definition example_inputs : list (list (list (list Z))) :=
  [[[[1; 5]; [2; 7]; [1; 3]; [1; 4]]; [[1; 9]]]; [[[2; 6]; [2; 8]; [2; 1]; [3; 0]]]].

Definition sink_schedule (n : nat) : list (nat * unit) :=
  mjoin (replicate n [(0%nat, tt); (1%nat, tt)]).

Abbreviation example_run n :=
  (run_sink example_eval 0 example_hash id (fun _ => 0) single_chunk list_sort example_config example_sort
    4 example_inputs (sink_schedule n)).

Abbreviation example_input_ok :=
  (input_ok example_eval 0 example_hash id list_sort example_config example_sort).

Lemma example_chunks : Forall example_input_ok example_inputs.
Proof.
  assert (forall a b, row_ok example_eval 0 example_hash id example_config example_sort [a; b]) as Hrow.
  { intros a b. split; [by eexists | intros _; by eexists]. }
  unfold example_inputs.
  repeat (constructor; [split; [repeat (constructor; [split; [by vm_compute | auto] |]); auto | by vm_compute] |]).
  constructor.
Qed.

Lemma sink_schedule_threads n : Forall (fun c => fst c < length example_inputs)%nat (sink_schedule n).
Proof.
  unfold sink_schedule. apply Forall_join, Forall_replicate. cbn. repeat constructor.
Qed.



Definition example_final_sink : SinkSystem list_sort :=
  default {| sink_global := {| grouping_data := None; fixed_bits := 0; hash_groups := []; max_bits := 0;
                               gs_count := 0 |}; sink_threads := [] |} (example_run 60).

Definition example_part (r : list Z) : Z := znth 0 r 0.

Abbreviation example_rows :=
  (grouped example_eval 0 example_hash example_sort (mjoin (mjoin example_inputs))).

