(* ===== verification/MergePath.v ===== *)
(** * K-way merge path

    The computation of the partition boundaries of the merge of sorted runs:
    [ComputeBoundaryDelta] and [TemplatedComputePartitionBoundaries] of
    common/sort/sorted_run_merger.cpp.  A sorted run is the list of its keys and
    [lt] is the [operator<] of the keys.  A failed [D_ASSERT], an access outside
    of a run and an operation on an empty vector are [None]; positions and counts
    of rows are far from the bound of [idx_t] and are integers here.

    The theorems show that the loop terminates and cuts the runs in such a way
    that exactly [(p + 1) * partition_size] keys are before the cut and none of
    them comes after a key behind it in the order of the merge (by key, then by
    run), that there is only one such cut, and so that the result does not depend
    on the boundaries of other partitions that the search starts from. *)

From S2P Require Import Prelude.

(** ** The code *)

Record SortedRunPartitionBoundary := {
  rb_begin : Z;
  rb_end : Z
}.

#[export] Instance SortedRunPartitionBoundary_eq_dec : EqDecision SortedRunPartitionBoundary.
Proof. solve_decision. Defined.

Definition AlignValue (n val : Z) : Z := ((n + (val - 1)) / val) * val.

Definition ComputeBoundaryDelta (total_remaining k : Z)
  (run_boundary : SortedRunPartitionBoundary) : option Z :=
  if rb_begin run_boundary <? rb_end run_boundary then
    let run_remaining := rb_end run_boundary - rb_begin run_boundary in
    Some (Z.min (AlignValue total_remaining k / k) run_remaining)
  else None.

(** [v.erase(std::find(v.begin(), v.end(), x))] *)
Fixpoint erase (x : nat) (v : list nat) : list nat :=
  match v with
  | [] => []
  | y :: v => if (x =? y)%nat then v else y :: erase x v
  end.

Section code.
Context {A : Type} (lt : A -> A -> bool) (runs : list (list A)).

Definition run_key (run_idx : nat) (i : Z) : option A :=
  run ← runs !! run_idx; zload run i.

Definition total_count : Z := zsum (fun run => Z.of_nat (length run)) runs.

(** The run, the step and the key with which the next step may be made. *)
Record Candidate := {
  min_idx : nat;
  min_delta : Z;
  min_value : A
}.

Definition candidate (total_remaining k : Z) (run_boundaries : list SortedRunPartitionBoundary)
  (run_idx : nat) : option Candidate :=
  run_boundary ← run_boundaries !! run_idx;
  run_delta ← ComputeBoundaryDelta total_remaining k run_boundary;
  run_value ← run_key run_idx (rb_begin run_boundary + run_delta - 1);
  Some {| min_idx := run_idx; min_delta := run_delta; min_value := run_value |}.

Definition find_min (total_remaining : Z) (active_run_idxs : list nat)
  (run_boundaries : list SortedRunPartitionBoundary) : option Candidate :=
  let k := Z.of_nat (length active_run_idxs) in
  match active_run_idxs with
  | [] => None
  | run_idx :: rest =>
      c ← candidate total_remaining k run_boundaries run_idx;
      ofold (fun c run_idx =>
        d ← candidate total_remaining k run_boundaries run_idx;
        Some (if lt (min_value d) (min_value c) then d else c)) c rest
  end.

Record PathState := {
  total_remaining : Z;
  active_run_idxs : list nat;
  run_boundaries : list SortedRunPartitionBoundary
}.

(** One iteration of the loop. *)
Definition path_step (s : PathState) : option PathState :=
  c ← find_min (total_remaining s) (active_run_idxs s) (run_boundaries s);
  b ← run_boundaries s !! min_idx c;
  let b' := {| rb_begin := rb_begin b + min_delta c; rb_end := rb_end b |} in
  if min_delta c <=? total_remaining s then
    Some {| total_remaining := total_remaining s - min_delta c;
            active_run_idxs :=
              if rb_begin b' =? rb_end b' then erase (min_idx c) (active_run_idxs s)
              else active_run_idxs s;
            run_boundaries := <[min_idx c := b']> (run_boundaries s) |}
  else None.

(** [while (total_remaining != 0)]; [None] if [fuel] iterations are not enough. *)
Fixpoint path_loop (fuel : nat) (s : PathState) : option PathState :=
  if total_remaining s =? 0 then Some s
  else match fuel with
       | O => None
       | S fuel => path_step s ≫= path_loop fuel
       end.

(** The runs that are not fixed yet. *)
Definition active_runs (bs : list SortedRunPartitionBoundary) : list nat :=
  List.filter (fun j => match bs !! j with
                        | Some b => negb (rb_begin b =? rb_end b)
                        | None => false
                        end) (seq 0 (length bs)).

(** What is left of [total_remaining] after the boundaries that are known. *)
Definition reduce_remaining (total_remaining : Z) (bs : list SortedRunPartitionBoundary) : option Z :=
  ofold (fun n b => if rb_begin b <=? n then Some (n - rb_begin b) else None) total_remaining bs.

Definition TemplatedComputePartitionBoundaries (num_partitions partition_size p_idx : Z)
  (bs : list SortedRunPartitionBoundary) : option (list SortedRunPartitionBoundary) :=
  if p_idx =? num_partitions - 1 then
    Some (zip_with (fun run b => {| rb_begin := Z.of_nat (length run); rb_end := rb_end b |}) runs bs)
  else
    n ← reduce_remaining ((p_idx + 1) * partition_size) bs;
    if n <? total_count then
      s ← path_loop (Z.to_nat n)
        {| total_remaining := n; active_run_idxs := active_runs bs; run_boundaries := bs |};
      Some ((fun b => {| rb_begin := rb_begin b; rb_end := rb_begin b |}) <$> run_boundaries s)
    else None.
End code.

Arguments min_idx {A} c.
Arguments min_delta {A} c.
Arguments min_value {A} c.

Example path_ex : TemplatedComputePartitionBoundaries Z.ltb
  [[1; 4; 4; 6]; [2; 4; 5]; [4]] 2 5 0
  [{| rb_begin := 0; rb_end := 4 |}; {| rb_begin := 0; rb_end := 3 |}; {| rb_begin := 0; rb_end := 1 |}]
  = Some [{| rb_begin := 3; rb_end := 3 |}; {| rb_begin := 2; rb_end := 2 |}; {| rb_begin := 0; rb_end := 0 |}].
Proof. vm_compute. reflexivity. Qed.

(** ** Order of the merge *)

Section path.
Context {A : Type} (lt : A -> A -> bool) `{!StrictWeakOrder lt} (runs : list (list A)).
Implicit Types (x y v : A) (i j m : nat) (q r : Z) (bs : list SortedRunPartitionBoundary).

Abbreviation run_key := (run_key runs).
Abbreviation candidate := (candidate runs).
Abbreviation find_min := (find_min lt runs).
Abbreviation path_step := (path_step lt runs).
Abbreviation path_loop := (path_loop lt runs).

(** Every run is sorted: no key comes before an earlier one of its run. *)
Definition runs_sorted : Prop :=
  forall j q r x y, q <= r -> run_key j q = Some x -> run_key j r = Some y -> lt y x = false.

(** The key [y] of run [j] comes before the key [x] of run [i]. *)
Definition key_before (j : nat) (y : A) (i : nat) (x : A) : bool :=
  lt y x || (negb (lt x y) && (j <? i)%nat).

Lemma lt_irrefl x : lt x x = false.
Proof. destruct (lt x x) eqn:E; [by apply swo_asym in E as E'; congruence | done]. Qed.

Lemma lt_trans_l x y z : lt x y = true -> lt z y = false -> lt x z = true.
Proof. intros Hxy Hzy. destruct (swo_cotrans x z y Hxy) as [|]; congruence. Qed.

Lemma lt_trans_r x y z : lt x y = true -> lt x z = false -> lt z y = true.
Proof. intros Hxy Hxz. destruct (swo_cotrans x z y Hxy) as [|]; congruence. Qed.

Lemma key_before_false j y i x :
  key_before j y i x = false <-> lt y x = false /\ ((j < i)%nat -> lt x y = true).
Proof.
  unfold key_before. rewrite orb_false_iff, andb_false_iff, negb_false_iff, Nat.ltb_ge.
  split; intros [? H]; (split; [done |]).
  - intros ?. destruct H; [done | lia].
  - destruct (lt x y); [by left |]. right.
    destruct (decide (j < i)%nat) as [Hlt |]; [by specialize (H Hlt) | lia].
Qed.

(** If [z] comes before [x] and [v] does not, then [z] comes before [v]. *)
Lemma key_before_trans l z i x m v :
  key_before l z i x = true -> key_before m v i x = false -> key_before l z m v = true.
Proof.
  intros H1 [H2 H3]%key_before_false. unfold key_before in *.
  apply orb_true_iff in H1 as [H1 | H1].
  - by rewrite (lt_trans_l z x v).
  - apply andb_true_iff in H1 as [Hxz%negb_true_iff Hli%Nat.ltb_lt].
    destruct (lt v z) eqn:Evz.
    { assert (lt v x = true); [| congruence]. by apply (lt_trans_l v z x). }
    destruct (decide (m < i)%nat) as [Hmi | Hmi].
    + rewrite (lt_trans_r x v z) by auto. done.
    + rewrite (proj2 (Nat.ltb_lt l m)) by lia. by rewrite orb_true_r.
Qed.

Lemma key_before_total j y i x :
  i <> j -> key_before j y i x = false -> key_before i x j y = true.
Proof.
  intros Hij [H1 H2]%key_before_false. unfold key_before.
  destruct (lt x y) eqn:E; [done |]. cbn. rewrite H1. cbn. apply Nat.ltb_lt.
  destruct (decide (j < i)%nat) as [Hlt |]; [| lia]. by specialize (H2 Hlt).
Qed.

(** Behind a key that does not come before [x] there is none that does. *)
Lemma key_before_sorted j q r y z i x :
  runs_sorted -> q <= r -> run_key j q = Some y -> run_key j r = Some z ->
  key_before j y i x = false -> key_before j z i x = false.
Proof.
  intros Hs Hqr Hy Hz [H1 H2]%key_before_false. pose proof (Hs j q r y z Hqr Hy Hz) as Hzy.
  apply key_before_false. split.
  - destruct (lt z x) eqn:E; [| done]. pose proof (lt_trans_r z x y E Hzy). congruence.
  - intros Hji. apply (lt_trans_l x y z); auto.
Qed.

(** ** Cuts *)

(** [cut] is the prefix of the merge of [n] keys: no key behind it comes before
    a key of it. *)
Definition is_cut (n : Z) (cut : list Z) : Prop :=
  Forall2 (fun run c => 0 <= c <= Z.of_nat (length run)) runs cut /\
  zsum id cut = n /\
  forall i q x c j r y d,
    cut !! i = Some c -> 0 <= q < c -> run_key i q = Some x ->
    cut !! j = Some d -> d <= r -> run_key j r = Some y ->
    key_before j y i x = false.

Lemma run_key_Some j run q :
  runs !! j = Some run -> 0 <= q < Z.of_nat (length run) -> exists x, run_key j q = Some x.
Proof.
  intros Hj Hq. unfold MergePath.run_key, zload. rewrite Hj. cbn.
  rewrite decide_True by lia.
  destruct (lookup_lt_is_Some_2 run (Z.to_nat q)) as [x Hx]; [lia | by exists x].
Qed.

Lemma run_key_inv j q x :
  run_key j q = Some x -> exists run, runs !! j = Some run /\ 0 <= q < Z.of_nat (length run).
Proof.
  unfold MergePath.run_key, zload. destruct (runs !! j) as [run |]; cbn; [| done].
  case_decide; [| done]. intros E%lookup_lt_Some. exists run. split; [done | lia].
Qed.

(** A list that is somewhere above another one of at least the same sum is
    somewhere below it. *)
Lemma zsum_below (l k : list Z) i c d :
  length l = length k -> l !! i = Some c -> k !! i = Some d -> d < c -> zsum id l <= zsum id k ->
  exists j c' d', l !! j = Some c' /\ k !! j = Some d' /\ c' < d'.
Proof.
  revert k i. induction l as [| x l IH]; intros [| y k] i Hlen Hi Hk Hdc Hs; try done.
  injection Hlen as Hlen. rewrite !zsum_cons in Hs. unfold id in Hs at 1 3.
  destruct (decide (x < y)) as [Hxy | Hxy]; [by exists 0%nat, x, y |].
  destruct i as [| i]; cbn in Hi, Hk.
  - injection Hi as ->. injection Hk as ->.
    assert (exists i c d, l !! i = Some c /\ k !! i = Some d /\ c < d) as (j & Hj).
    { clear IH Hxy. assert (zsum id l < zsum id k) as Hs' by lia. clear Hs Hdc.
      revert k Hlen Hs'. induction l as [| x l IH]; intros [| y k] Hlen Hs'; try done.
      injection Hlen as Hlen. rewrite !zsum_cons in Hs'. unfold id in Hs' at 1 3.
      destruct (decide (x < y)); [by exists 0%nat, x, y |].
      destruct (IH k Hlen) as (j & Hj); [lia | by exists (S j)]. }
    by exists (S j).
  - destruct (IH k i Hlen Hi Hk Hdc) as (j & Hj); [lia | by exists (S j)].
Qed.

Lemma is_cut_lookup n cut i c :
  is_cut n cut -> cut !! i = Some c ->
  exists run, runs !! i = Some run /\ 0 <= c <= Z.of_nat (length run).
Proof.
  intros (HF & _ & _) Hc. destruct (Forall2_lookup_r _ _ _ _ _ HF Hc) as (run & ? & ?). eauto.
Qed.

Lemma is_cut_length n cut : is_cut n cut -> length cut = length runs.
Proof. intros (HF & _ & _). symmetry. by eapply Forall2_length. Qed.

(** The cuts of growing sizes are nested; in particular a cut is unique. *)
Lemma is_cut_mono n n' cut cut' i c c' :
  is_cut n cut -> is_cut n' cut' -> n <= n' ->
  cut !! i = Some c -> cut' !! i = Some c' -> c <= c'.
Proof.
  intros H H' Hn Hc Hc'. destruct (decide (c <= c')) as [| Hcc]; [done |].
  destruct (zsum_below cut cut' i c c') as (j & d & d' & Hd & Hd' & Hdd).
  { by rewrite (is_cut_length n), (is_cut_length n'). }
  { done. } { done. } { lia. } { destruct H as (_ & -> & _), H' as (_ & -> & _). done. }
  destruct (is_cut_lookup _ _ _ _ H Hc) as (run & Hrun & Hcb).
  destruct (is_cut_lookup _ _ _ _ H' Hc') as (run' & Hrun' & Hcb').
  destruct (is_cut_lookup _ _ _ _ H' Hd') as (runj & Hrunj & Hdb).
  destruct (is_cut_lookup _ _ _ _ H Hd) as (runj' & Hrunj' & Hdb').
  simplify_eq.
  destruct (run_key_Some i run c' Hrun) as [x Hx]; [lia |].
  destruct (run_key_Some j runj d Hrunj) as [y Hy]; [lia |].
  destruct H as (_ & _ & H), H' as (_ & _ & H').
  pose proof (H i c' x c j d y d Hc ltac:(lia) Hx Hd ltac:(lia) Hy) as B1.
  pose proof (H' j d y d' i c' x c' Hd' ltac:(lia) Hy Hc' ltac:(lia) Hx) as B2.
  destruct (decide (i = j)) as [-> | Hij]; [simplify_eq; lia |].
  apply key_before_total in B1; [congruence | done].
Qed.

Lemma is_cut_unique n cut cut' : is_cut n cut -> is_cut n cut' -> cut = cut'.
Proof.
  intros H H'. apply list_eq_same_length with (length runs);
    [by eapply is_cut_length .. |].
  intros i c c' _ Hc Hc'.
  pose proof (is_cut_mono _ _ _ _ _ _ _ H H' ltac:(lia) Hc Hc').
  pose proof (is_cut_mono _ _ _ _ _ _ _ H' H ltac:(lia) Hc' Hc). lia.
Qed.

(** ** Active runs *)

Definition well_formed (bs : list SortedRunPartitionBoundary) : Prop :=
  Forall2 (fun run b => 0 <= rb_begin b <= rb_end b /\ rb_end b <= Z.of_nat (length run)) runs bs.

Lemma elem_of_active_runs bs j :
  j ∈ active_runs bs <-> exists b, bs !! j = Some b /\ rb_begin b <> rb_end b.
Proof.
  unfold active_runs. rewrite list_elem_of_In, filter_In, <- list_elem_of_In, elem_of_seq. split.
  - intros [_ H]. destruct (bs !! j) as [b |]; [| done]. exists b. split; [done |].
    by apply negb_true_iff, Z.eqb_neq in H.
  - intros (b & Hb & Hne). rewrite Hb. apply lookup_lt_Some in Hb as ?. split; [lia |].
    by apply negb_true_iff, Z.eqb_neq.
Qed.

Lemma filter_seq_sorted (P : nat -> bool) n k : StronglySorted Nat.lt (List.filter P (seq n k)).
Proof.
  revert n. induction k as [| k IH]; intros n; [constructor |]. cbn [seq List.filter].
  destruct (P n); [| apply IH]. constructor; [apply IH |].
  apply Forall_forall. intros j Hj%list_elem_of_In. apply filter_In in Hj as [Hj _].
  apply list_elem_of_In, elem_of_seq in Hj. lia.
Qed.

Lemma erase_filter (P Q : nat -> bool) m n k :
  P m = true -> Q m = false -> (forall j, j <> m -> Q j = P j) ->
  erase m (List.filter P (seq n k)) = List.filter Q (seq n k).
Proof.
  intros HP HQ HPQ. revert n. induction k as [| k IH]; intros n; [done |].
  cbn [seq List.filter]. destruct (decide (n = m)) as [-> | Hne].
  - rewrite HP, HQ. cbn [erase]. rewrite Nat.eqb_refl. apply List.filter_ext_in.
    intros j Hj%list_elem_of_In%elem_of_seq. symmetry. apply HPQ. lia.
  - rewrite HPQ by done. destruct (P n); [| apply IH]. cbn [erase].
    rewrite (proj2 (Nat.eqb_neq m n)) by done. f_equal. apply IH.
Qed.

Lemma active_runs_insert bs m b b' :
  bs !! m = Some b -> rb_begin b <> rb_end b ->
  active_runs (<[m := b']> bs) =
  if rb_begin b' =? rb_end b' then erase m (active_runs bs) else active_runs bs.
Proof.
  intros Hm Hb. unfold active_runs. rewrite length_insert.
  pose proof (lookup_lt_Some _ _ _ Hm) as Hlt.
  assert (forall j, j <> m -> (<[m := b']> bs) !! j = bs !! j) as Hj
    by (intros; by apply list_lookup_insert_ne).
  assert ((<[m := b']> bs) !! m = Some b') as Hmm by (by apply list_lookup_insert_eq).
  destruct (Z.eqb_spec (rb_begin b') (rb_end b')) as [E | E].
  - symmetry. apply erase_filter.
    + rewrite Hm. by apply negb_true_iff, Z.eqb_neq.
    + rewrite Hmm. by apply negb_false_iff, Z.eqb_eq.
    + intros j Hne. by rewrite Hj.
  - apply List.filter_ext. intros j. destruct (decide (j = m)) as [-> | Hne].
    + rewrite Hm, Hmm. transitivity true; [| symmetry]; by apply negb_true_iff, Z.eqb_neq.
    + by rewrite Hj.
Qed.

(** ** The step sizes *)

(** [ceil(n / k)] *)
Lemma AlignValue_div n k : 1 <= k -> AlignValue n k / k = (n + (k - 1)) / k.
Proof. intros. unfold AlignValue. by rewrite Z.div_mul by lia. Qed.

Lemma ceil_bounds n k :
  1 <= k -> 1 <= n -> 1 <= (n + (k - 1)) / k /\ k * ((n + (k - 1)) / k - 1) < n.
Proof.
  intros Hk Hn. pose proof (Z.div_mod (n + (k - 1)) k ltac:(lia)).
  pose proof (Z.mod_pos_bound (n + (k - 1)) k ltac:(lia)).
  split; [| lia]. apply Z.div_le_lower_bound; lia.
Qed.

Lemma candidate_Some bs n k j b :
  well_formed bs -> 1 <= n -> 1 <= k -> bs !! j = Some b -> rb_begin b <> rb_end b ->
  exists d, candidate n k bs j = Some d /\ min_idx d = j /\
    1 <= min_delta d <= rb_end b - rb_begin b /\ min_delta d <= (n + (k - 1)) / k /\
    run_key j (rb_begin b + min_delta d - 1) = Some (min_value d).
Proof.
  intros Hwf Hn Hk Hb Hne.
  destruct (Forall2_lookup_r _ _ _ _ _ Hwf Hb) as (run & Hrun & Hbound & Hlen).
  destruct (ceil_bounds n k Hk Hn) as [Hc _].
  unfold MergePath.candidate, ComputeBoundaryDelta. rewrite Hb. cbn [mbind option_bind].
  rewrite (proj2 (Z.ltb_lt _ _)), AlignValue_div by lia. cbn [mbind option_bind].
  set (delta := Z.min _ _).
  destruct (run_key_Some j run (rb_begin b + delta - 1) Hrun) as [x Hx]; [lia |].
  rewrite Hx. cbn [mbind option_bind]. eexists. split_and!; [done | done | cbn; lia .. | exact Hx].
Qed.

(** ** The minimum *)

(** [d] does not come before [c]. *)
Definition not_before (d c : Candidate (A := A)) : Prop :=
  key_before (min_idx d) (min_value d) (min_idx c) (min_value c) = false.

Lemma fold_min (f : nat -> option (Candidate (A := A))) rest pre c :
  (forall j, j ∈ rest -> exists d, f j = Some d /\ min_idx d = j) ->
  StronglySorted Nat.lt (pre ++ rest) ->
  min_idx c ∈ pre -> f (min_idx c) = Some c ->
  (forall j, j ∈ pre -> exists d, f j = Some d /\ min_idx d = j /\ not_before d c) ->
  exists c', ofold (fun c run_idx =>
      d ← f run_idx; Some (if lt (min_value d) (min_value c) then d else c)) c rest = Some c' /\
    min_idx c' ∈ pre ++ rest /\ f (min_idx c') = Some c' /\
    forall j, j ∈ pre ++ rest -> exists d, f j = Some d /\ not_before d c'.
Proof.
  revert pre c. induction rest as [| r rest IH]; intros pre c Hf Hs Hc Hfc Hpre.
  - rewrite app_nil_r. exists c. split_and!; [done.. |]. intros j Hj.
    destruct (Hpre j Hj) as (d & ? & _ & ?). eauto.
  - rewrite ofold_cons. destruct (Hf r) as (d & Hd & Hi); [by left |]. rewrite Hd.
    cbn [mbind option_bind].
    assert (forall j, j ∈ pre -> (j < r)%nat) as Hlt.
    { intros j Hj. apply (StronglySorted_app_1_elem_of _ _ _ _ _ Hs Hj). by left. }
    replace (pre ++ r :: rest) with ((pre ++ [r]) ++ rest) in * by (by rewrite <- app_assoc).
    apply IH; [intros; apply Hf; by right | done | | |].
    + destruct (lt (min_value d) (min_value c)); rewrite elem_of_app; [right | by left].
      rewrite Hi. by left.
    + destruct (lt (min_value d) (min_value c)); [by rewrite Hi | done].
    + intros j [Hj | ->%list_elem_of_singleton]%elem_of_app.
      * destruct (Hpre j Hj) as (e & He & Hei & Hnb). exists e. split_and!; [done | done |].
        destruct (lt (min_value d) (min_value c)) eqn:E; [| done].
        apply key_before_false in Hnb as [Hnb _]. apply key_before_false. split.
        -- destruct (lt (min_value e) (min_value d)) eqn:E'; [| done].
           destruct (swo_cotrans _ (min_value c) _ E') as [| E'']; [congruence |].
           apply swo_asym in E. congruence.
        -- intros _. by apply (lt_trans_l _ (min_value c)).
      * exists d. split_and!; [done.. |].
        destruct (lt (min_value d) (min_value c)) eqn:E; apply key_before_false.
        -- split; [apply lt_irrefl | lia].
        -- split; [done |]. rewrite Hi. specialize (Hlt _ Hc). lia.
Qed.

Lemma find_min_Some bs n :
  well_formed bs -> 1 <= n -> active_runs bs <> [] ->
  let k := Z.of_nat (length (active_runs bs)) in
  exists c, find_min n (active_runs bs) bs = Some c /\ min_idx c ∈ active_runs bs /\
    candidate n k bs (min_idx c) = Some c /\
    forall j, j ∈ active_runs bs -> exists d, candidate n k bs j = Some d /\ not_before d c.
Proof.
  intros Hwf Hn Hne k. unfold MergePath.find_min. fold k.
  assert (forall j, j ∈ active_runs bs -> exists d, candidate n k bs j = Some d /\ min_idx d = j)
    as Hcand.
  { intros j (b & Hb & Hbb)%elem_of_active_runs.
    destruct (candidate_Some bs n k j b) as (d & ? & ? & _); [done | done | | done | done | eauto].
    subst k. destruct (active_runs bs); [done | cbn; lia]. }
  pose proof (filter_seq_sorted (fun j => match bs !! j with
    | Some b => negb (rb_begin b =? rb_end b) | None => false end) 0 (length bs)) as Hs.
  fold (active_runs bs) in Hs.
  destruct (active_runs bs) as [| j rest]; [done |].
  destruct (Hcand j) as (d & Hd & Hi); [by left |]. rewrite Hd. cbn [mbind option_bind].
  change (j :: rest) with ([j] ++ rest) in *.
  apply fold_min with (f := candidate n k bs).
  - intros i Hi'. apply Hcand. rewrite elem_of_app. by right.
  - done.
  - rewrite Hi. by left.
  - by rewrite Hi.
  - intros i ->%list_elem_of_singleton. exists d. split_and!; [done | done |].
    apply key_before_false. split; [apply lt_irrefl | lia].
Qed.

(** ** The loop *)

Definition remaining (b : SortedRunPartitionBoundary) : Z := rb_end b - rb_begin b.

Record path_ok (s : PathState) : Prop := {
  path_wf : well_formed (run_boundaries s);
  path_active : active_run_idxs s = active_runs (run_boundaries s);
  path_rem : 0 <= total_remaining s <= zsum remaining (run_boundaries s)
}.

Definition advance (b : SortedRunPartitionBoundary) (delta : Z) : SortedRunPartitionBoundary :=
  {| rb_begin := rb_begin b + delta; rb_end := rb_end b |}.

(** What a step does. *)
Record step_spec (s : PathState) (m : nat) (delta : Z) (v : A) (b : SortedRunPartitionBoundary)
  (s' : PathState) : Prop := {
  step_b : run_boundaries s !! m = Some b;
  step_ne : rb_begin b <> rb_end b;
  step_delta : 1 <= delta <= rb_end b - rb_begin b;
  step_key : run_key m (rb_begin b + delta - 1) = Some v;
  step_rem : total_remaining s' = total_remaining s - delta;
  step_bs : run_boundaries s' = <[m := advance b delta]> (run_boundaries s);
  step_ceil : let k := Z.of_nat (length (active_run_idxs s)) in
    delta <= (total_remaining s + (k - 1)) / k;
  step_others : let k := Z.of_nat (length (active_run_idxs s)) in
    forall j bj, run_boundaries s !! j = Some bj -> rb_begin bj <> rb_end bj ->
    exists e y, 1 <= e <= (total_remaining s + (k - 1)) / k /\
      run_key j (rb_begin bj + e - 1) = Some y /\ key_before j y m v = false
}.

Lemma active_runs_nonempty bs :
  0 < zsum remaining bs -> active_runs bs <> [].
Proof.
  intros Hpos Hnil.
  assert (zsum remaining bs <= zsum (fun _ => 0) bs) as Hle.
  { apply zsum_le. intros b [j Hj]%list_elem_of_lookup. unfold remaining.
    destruct (decide (rb_begin b = rb_end b)); [lia |].
    assert (j ∈ active_runs bs) as Hin by (apply elem_of_active_runs; eauto).
    rewrite Hnil in Hin. by apply not_elem_of_nil in Hin. }
  assert (zsum (fun _ : SortedRunPartitionBoundary => 0) bs = 0) as E; [| lia].
  clear. by induction bs.
Qed.

Lemma well_formed_advance bs m b delta :
  well_formed bs -> bs !! m = Some b -> 0 <= delta <= rb_end b - rb_begin b ->
  well_formed (<[m := advance b delta]> bs).
Proof.
  intros Hwf Hb Hd. destruct (Forall2_lookup_r _ _ _ _ _ Hwf Hb) as (run & Hrun & ? & ?).
  unfold well_formed. rewrite <- (list_insert_id runs m run) by done.
  apply Forall2_insert; [done |]. unfold advance. cbn. lia.
Qed.

Lemma path_step_ok s :
  path_ok s -> 1 <= total_remaining s ->
  exists m delta v b s', path_step s = Some s' /\ path_ok s' /\ step_spec s m delta v b s'.
Proof.
  intros [Hwf Hact Hrem] Hn. set (n := total_remaining s) in *.
  set (bs := run_boundaries s) in *.
  assert (active_runs bs <> []) as Hne by (apply active_runs_nonempty; lia).
  destruct (find_min_Some bs n Hwf Hn Hne) as (c & Hc & Hin & Hcand & Hmin).
  set (k := Z.of_nat (length (active_runs bs))) in *.
  assert (1 <= k) as Hk by (subst k; destruct (active_runs bs); [done | cbn; lia]).
  apply elem_of_active_runs in Hin as (b & Hb & Hbe).
  destruct (candidate_Some bs n k (min_idx c) b) as (d & Hd & _ & Hdelta & Hceil & Hkey);
    [done..|]. rewrite Hcand in Hd. injection Hd as <-.
  destruct (ceil_bounds n k Hk Hn) as [_ Hcn].
  assert (min_delta c <= n) as Hdn by nia.
  eexists (min_idx c), (min_delta c), (min_value c), b, _.
  unfold MergePath.path_step. rewrite Hact. fold n bs. rewrite Hc. cbn [mbind option_bind].
  rewrite Hb. cbn [mbind option_bind rb_begin rb_end]. rewrite (proj2 (Z.leb_le _ _)) by done.
  split_and!; [done | |].
  - split; cbn [total_remaining run_boundaries active_run_idxs].
    + by apply well_formed_advance; [| | lia].
    + by rewrite (active_runs_insert bs _ b (advance b (min_delta c))).
    + rewrite (zsum_insert remaining bs _ b _ Hb). unfold remaining at 2 3. cbn. lia.
  - split; cbn [total_remaining run_boundaries]; rewrite ?Hact; fold n bs k; try done.
    intros j bj Hj Hne'. destruct (Hmin j) as (e & He & Hnb).
    { apply elem_of_active_runs. eauto. }
    destruct (candidate_Some bs n k j bj) as (e' & He' & Hi & ? & ? & ?); [done..|].
    rewrite He in He'. injection He' as <-. exists (min_delta e), (min_value e).
    unfold not_before in Hnb. rewrite Hi in Hnb. split_and!; [lia | lia | done | done].
Qed.

(** The loop ends within [total_remaining] iterations, and keeps every invariant
    of its steps. *)
Lemma path_loop_inv (I : PathState -> Prop) fuel s :
  (forall s m delta v b s', path_ok s -> 1 <= total_remaining s -> I s ->
    step_spec s m delta v b s' -> I s') ->
  path_ok s -> I s -> total_remaining s <= Z.of_nat fuel ->
  exists s', path_loop fuel s = Some s' /\ path_ok s' /\ I s' /\ total_remaining s' = 0.
Proof.
  intros Hstep. revert s. induction fuel as [| fuel IH]; intros s Hok HI Hf; cbn [MergePath.path_loop].
  - pose proof (path_rem s Hok). rewrite (proj2 (Z.eqb_eq (total_remaining s) 0)) by lia.
    exists s. split; [done |]. split; [done |]. split; [done | lia].
  - destruct (Z.eqb_spec (total_remaining s) 0); [by exists s |].
    assert (1 <= total_remaining s) as Hn by (destruct Hok; lia).
    destruct (path_step_ok s Hok Hn) as (m & delta & v & b & s' & -> & Hok' & Hs).
    cbn [mbind option_bind]. apply IH; [done | exact (Hstep s m delta v b s' Hok Hn HI Hs) |].
    destruct Hs. lia.
Qed.

(** ** The loop keeps the order of the merge *)

Definition begin_at (bs : list SortedRunPartitionBoundary) (j : nat) : Z :=
  match bs !! j with Some b => rb_begin b | None => 0 end.

(** The number of keys of run [j] from position [b] on that come before [x]. *)
Definition untaken (j : nat) (b : Z) (i : nat) (x : A) : Z :=
  match runs !! j with
  | Some run =>
      zcount (fun q => match run_key j q with
                       | Some y => key_before j y i x
                       | None => false
                       end) b (Z.of_nat (length run))
  | None => 0
  end.

Definition total_untaken (bs : list SortedRunPartitionBoundary) (i : nat) (x : A) : Z :=
  zsum (fun j => untaken j (begin_at bs j) i x) (seq 0 (length runs)).

Lemma untaken_nonneg j b i x : 0 <= untaken j b i x.
Proof. unfold untaken. destruct (runs !! j); [apply zcount_nonneg | lia]. Qed.

Lemma untaken_mono j b i x m v :
  key_before m v i x = false -> untaken j b i x <= untaken j b m v.
Proof.
  intros H. unfold untaken. destruct (runs !! j) as [run |]; [| done].
  apply zcount_mono. intros q _. destruct (run_key j q) as [y |]; [| done].
  intros Hy. by eapply key_before_trans.
Qed.

Lemma untaken_le j b q y i x :
  runs_sorted -> b <= q -> run_key j q = Some y -> key_before j y i x = false ->
  untaken j b i x <= q - b.
Proof.
  intros Hs Hbq Hy Hb. unfold untaken. destruct (run_key_inv _ _ _ Hy) as (run & -> & Hq).
  rewrite (zcount_split _ b q) by lia. rewrite (zcount_none _ q).
  - pose proof (zcount_le (fun q => match run_key j q with
      | Some y => key_before j y i x | None => false end) b q). lia.
  - intros r Hr. destruct (run_key j r) as [z |] eqn:Ez; [| done].
    apply (key_before_sorted j q r y z); [done | lia | done..].
Qed.

(** No key behind [v] in its run comes before [v]. *)
Lemma untaken_own m b v : runs_sorted -> run_key m (b - 1) = Some v -> untaken m b m v <= 0.
Proof.
  intros Hs Hv. unfold untaken. destruct (run_key_inv _ _ _ Hv) as (run & -> & Hb).
  rewrite zcount_none; [done |]. intros q Hq. destruct (run_key m q) as [y |] eqn:Hy; [| done].
  apply (key_before_sorted m (b - 1) q v); [done | lia | done | done |].
  apply key_before_false. split; [apply lt_irrefl | lia].
Qed.

Lemma untaken_before j b delta y i x :
  runs_sorted -> 0 <= b -> 1 <= delta -> run_key j (b + delta - 1) = Some y ->
  key_before j y i x = true -> untaken j (b + delta) i x = untaken j b i x - delta.
Proof.
  intros Hs Hb Hd Hy Hbef. unfold untaken.
  destruct (run_key_inv _ _ _ Hy) as (run & Hrun & Hq). rewrite Hrun.
  rewrite (zcount_split _ b (b + delta)) by lia. rewrite (zcount_all _ b (b + delta)); [lia | lia |].
  intros r Hr. destruct (run_key_Some j run r Hrun) as [z Hz]; [lia |]. rewrite Hz.
  destruct (key_before j z i x) eqn:E; [done |].
  pose proof (key_before_sorted j r (b + delta - 1) z y i x Hs ltac:(lia) Hz Hy E). congruence.
Qed.

Lemma zsum_filter_le (f : nat -> Z) (P : nat -> bool) B l :
  0 <= B -> (forall j, j ∈ l -> f j <= if P j then B else 0) ->
  zsum f l <= Z.of_nat (length (List.filter P l)) * B.
Proof.
  intros HB. induction l as [| j l IH]; intros H; [done |]. rewrite zsum_cons.
  pose proof (H j ltac:(by left)). specialize (IH ltac:(intros; apply H; by right)).
  cbn [List.filter]. destruct (P j); cbn [length]; lia.
Qed.

Lemma zsum_filter_le_but (f : nat -> Z) (P : nat -> bool) B l m :
  0 <= B -> m ∈ l -> P m = true -> f m <= 0 ->
  (forall j, j ∈ l -> f j <= if P j then B else 0) ->
  zsum f l <= (Z.of_nat (length (List.filter P l)) - 1) * B.
Proof.
  intros HB (l1 & l2 & ->)%list_elem_of_split HP Hm H.
  rewrite zsum_app, zsum_cons, List.filter_app, length_app. cbn [List.filter]. rewrite HP.
  cbn [length].
  pose proof (zsum_filter_le f P B l1 HB ltac:(intros; apply H; apply elem_of_app; by left)).
  pose proof (zsum_filter_le f P B l2 HB
    ltac:(intros; apply H; apply elem_of_app; right; by right)). lia.
Qed.

(** At most [total_remaining] keys that are not taken come before a taken key. *)
Definition takes_first (s : PathState) : Prop :=
  forall i q x, 0 <= q < begin_at (run_boundaries s) i -> run_key i q = Some x ->
    total_untaken (run_boundaries s) i x <= total_remaining s.

(** A run that is fixed has no key left. *)
Definition fixed_runs_taken (bs : list SortedRunPartitionBoundary) : Prop :=
  forall j b run, bs !! j = Some b -> runs !! j = Some run -> rb_begin b = rb_end b ->
    rb_begin b = Z.of_nat (length run).

Lemma begin_at_insert bs m b delta j :
  bs !! m = Some b ->
  begin_at (<[m := advance b delta]> bs) j =
  if decide (j = m) then rb_begin b + delta else begin_at bs j.
Proof.
  intros Hm. unfold begin_at. pose proof (lookup_lt_Some _ _ _ Hm).
  case_decide as E; [subst; by rewrite list_lookup_insert_eq |].
  by rewrite list_lookup_insert_ne.
Qed.

(** The keys that come before the last key a step takes fit in what remains. *)
Lemma step_untaken_bound s m delta v b s' :
  runs_sorted -> path_ok s -> 1 <= total_remaining s -> fixed_runs_taken (run_boundaries s) ->
  step_spec s m delta v b s' ->
  total_untaken (run_boundaries s') m v <= total_remaining s - delta.
Proof.
  intros Hs [Hwf Hact Hrem] Hn Hfix Hst. rewrite (step_bs _ _ _ _ _ _ Hst).
  pose proof (step_b _ _ _ _ _ _ Hst) as Hb. pose proof (step_ne _ _ _ _ _ _ Hst) as Hne.
  pose proof (step_delta _ _ _ _ _ _ Hst) as Hd. pose proof (step_key _ _ _ _ _ _ Hst) as Hk.
  pose proof (step_ceil _ _ _ _ _ _ Hst) as Hceil. pose proof (step_others _ _ _ _ _ _ Hst) as Hoth.
  cbn zeta in Hceil, Hoth.
  rewrite Hact in Hceil, Hoth. set (bs := run_boundaries s) in *. set (n := total_remaining s) in *.
  pose proof (Forall2_length _ _ _ Hwf) as Hlen.
  set (P := fun j => match bs !! j with
    | Some b => negb (rb_begin b =? rb_end b) | None => false end).
  assert (active_runs bs = List.filter P (seq 0 (length runs))) as Hactive
    by (unfold active_runs; by rewrite <- Hlen).
  rewrite Hactive in Hceil, Hoth. set (k := Z.of_nat (length (List.filter P _))) in *.
  assert (P m = true) as HPm by (unfold P; rewrite Hb; by apply negb_true_iff, Z.eqb_neq).
  assert (m ∈ seq 0 (length runs)) as Hm
    by (apply elem_of_seq; apply lookup_lt_Some in Hb; lia).
  assert (1 <= k) as Hk1.
  { assert (m ∈ List.filter P (seq 0 (length runs))) as Hin
      by (apply list_elem_of_In, filter_In; split; [by apply list_elem_of_In | done]).
    subst k. destruct (List.filter P _); [by apply not_elem_of_nil in Hin | cbn; lia]. }
  destruct (ceil_bounds n k Hk1 Hn) as [Hc1 Hcn]. set (c := (n + (k - 1)) / k) in *.
  transitivity ((k - 1) * (c - 1)); [| nia].
  apply (zsum_filter_le_but _ _ _ _ m); [lia | done | done | |].
  - rewrite begin_at_insert, decide_True by done. by apply untaken_own.
  - intros j Hj. rewrite begin_at_insert by done. case_decide as E.
    { subst j. rewrite HPm. etransitivity; [by apply untaken_own | lia]. }
    apply elem_of_seq in Hj. destruct (lookup_lt_is_Some_2 bs j) as [bj Hbj]; [lia |].
    unfold begin_at, P. rewrite Hbj. destruct (Z.eqb_spec (rb_begin bj) (rb_end bj)) as [Ee | Ee].
    + cbn [negb]. destruct (Forall2_lookup_r _ _ _ _ _ Hwf Hbj) as (runj & Hrunj & _).
      pose proof (Hfix j bj runj Hbj Hrunj Ee) as Hfull. unfold untaken. rewrite Hrunj.
      rewrite zcount_nil by lia. done.
    + cbn [negb]. destruct (Hoth j bj Hbj Ee) as (e & y & He & Hy & Hnb).
      etransitivity; [eapply untaken_le; [done | | exact Hy | done]; lia | lia].
Qed.

Lemma step_takes_first s m delta v b s' :
  runs_sorted -> path_ok s -> 1 <= total_remaining s -> fixed_runs_taken (run_boundaries s) ->
  takes_first s -> step_spec s m delta v b s' -> takes_first s'.
Proof.
  intros Hs Hok Hn Hfix HI Hst i q x Hq Hx.
  pose proof (step_untaken_bound _ _ _ _ _ _ Hs Hok Hn Hfix Hst) as Hbound.
  pose proof (step_b _ _ _ _ _ _ Hst) as Hb. pose proof (step_delta _ _ _ _ _ _ Hst) as Hd.
  pose proof (step_key _ _ _ _ _ _ Hst) as Hk. rewrite (step_rem _ _ _ _ _ _ Hst).
  pose proof (path_wf _ Hok) as Hwf.
  destruct (Forall2_lookup_r _ _ _ _ _ Hwf Hb) as (runm & Hrunm & Hbm & _).
  destruct (key_before m v i x) eqn:E; cycle 1.
  { etransitivity; [| exact Hbound]. apply zsum_le. intros j _. by apply untaken_mono. }
  rewrite (step_bs _ _ _ _ _ _ Hst) in Hq |- *. rewrite begin_at_insert in Hq by done.
  assert (q < begin_at (run_boundaries s) i) as Hold.
  { case_decide as Em; [| lia]. subst i. unfold begin_at. rewrite Hb.
    destruct (decide (q < rb_begin b)); [done |].
    assert (key_before m v m x = false); [| congruence].
    apply (key_before_sorted m q (rb_begin b + delta - 1) x v); [done | lia | done | done |].
    apply key_before_false. split; [apply lt_irrefl | lia]. }
  pose proof (HI i q x ltac:(lia) Hx) as Hx'. unfold total_untaken in *.
  set (g := fun j => if decide (j = m) then delta else 0).
  assert (delta <= zsum g (seq 0 (length runs))) as Hg.
  { assert (g m = delta) as Egm by (unfold g; by rewrite decide_True). rewrite <- Egm at 1.
    apply (zsum_member g); [intros j _; unfold g; destruct (decide (j = m)); lia |].
    apply elem_of_seq. apply lookup_lt_Some in Hrunm. lia. }
  transitivity (zsum (fun j => untaken j (begin_at (run_boundaries s) j) i x) (seq 0 (length runs))
    - zsum g (seq 0 (length runs))); [| lia].
  apply Z.le_add_le_sub_r. rewrite <- zsum_plus. apply zsum_le. intros j _. unfold g.
  rewrite begin_at_insert by done. destruct (decide (j = m)) as [Em |]; [| lia]. subst j.
  rewrite (untaken_before m (rb_begin b) delta v) by (done || lia).
  unfold begin_at. rewrite Hb. lia.
Qed.

(** ** The boundaries of a partition *)

Context (partition_size : Z).

Definition num_partitions : Z := (total_count runs + (partition_size - 1)) / partition_size.

(** The number of keys in front of the end of partition [p]. *)
Definition cut_size (p : Z) : Z := Z.min ((p + 1) * partition_size) (total_count runs).

(** The initial ends of partition [p]. *)
Definition ends_default (p : Z) (bs : list SortedRunPartitionBoundary) : Prop :=
  Forall2 (fun run b => rb_end b = Z.min (Z.of_nat (length run)) ((p + 1) * partition_size)) runs bs.

(** What the search starts from: the begins are those of a partition that is not
    behind [p], the ends are initial or those of [p]. *)
Definition boundaries_ok (p : Z) (bs : list SortedRunPartitionBoundary) : Prop :=
  (exists n, n <= cut_size p /\ is_cut n (rb_begin <$> bs)) /\
  (ends_default p bs \/ is_cut (cut_size p) (rb_end <$> bs)).

Lemma num_partitions_last p :
  0 < partition_size -> p + 1 < num_partitions -> (p + 1) * partition_size < total_count runs.
Proof.
  unfold num_partitions. intros Hp H.
  pose proof (Z.div_mod (total_count runs + (partition_size - 1)) partition_size ltac:(lia)).
  pose proof (Z.mod_pos_bound (total_count runs + (partition_size - 1)) partition_size Hp).
  nia.
Qed.

Lemma num_partitions_total :
  0 < partition_size -> total_count runs <= num_partitions * partition_size.
Proof.
  unfold num_partitions. intros Hp.
  pose proof (Z.div_mod (total_count runs + (partition_size - 1)) partition_size ltac:(lia)).
  pose proof (Z.mod_pos_bound (total_count runs + (partition_size - 1)) partition_size Hp). lia.
Qed.

Lemma reduce_remaining_Some n bs :
  (forall b, b ∈ bs -> 0 <= rb_begin b) -> zsum rb_begin bs <= n ->
  reduce_remaining n bs = Some (n - zsum rb_begin bs).
Proof.
  unfold reduce_remaining. revert n. induction bs as [| b bs IH]; intros n Hpos Hn.
  - cbn. f_equal. lia.
  - rewrite ofold_cons. rewrite zsum_cons in *.
    pose proof (zsum_nonneg rb_begin bs ltac:(intros; apply Hpos; by right)).
    rewrite (proj2 (Z.leb_le _ _)) by lia. cbn [mbind option_bind].
    rewrite IH; [f_equal; lia | intros; apply Hpos; by right | lia].
Qed.

(** The runs up to [n] keys each hold [n] keys if all of them do. *)
Lemma zsum_min_total n :
  0 <= n -> n <= total_count runs -> n <= zsum (fun run : list A => Z.min (Z.of_nat (length run)) n) runs.
Proof.
  intros H0 Hn.
  destruct (decide (Exists (fun run : list A => n <= Z.of_nat (length run)) runs)) as [Hex | Hno].
  - apply Exists_exists in Hex as (run & Hin & Hlen).
    set (f := fun run : list A => Z.min (Z.of_nat (length run)) n).
    transitivity (f run); [unfold f; lia |].
    apply zsum_member; [intros; unfold f; lia | done].
  - rewrite (zsum_ext _ (fun run : list A => Z.of_nat (length run))); [exact Hn |].
    intros run Hrun. cbn. apply not_Exists_Forall in Hno; [| apply _].
    rewrite Forall_forall in Hno. specialize (Hno run Hrun). cbn in Hno. lia.
Qed.

Lemma well_formed_start p bs :
  runs_sorted -> 0 < partition_size -> boundaries_ok p bs ->
  well_formed bs /\ 0 <= zsum rb_begin bs <= cut_size p /\
  cut_size p <= zsum rb_begin bs + zsum remaining bs.
Proof.
  intros Hs Hp [(n & Hn & Hcut) Hend].
  assert (zsum rb_begin bs = n) as Hsum
    by (destruct Hcut as (_ & <- & _); by rewrite zsum_fmap).
  assert (zsum rb_begin bs + zsum remaining bs = zsum rb_end bs) as Hends.
  { rewrite <- zsum_plus. apply zsum_ext. intros b _. unfold remaining. lia. }
  pose proof (is_cut_length _ _ Hcut) as Hlen. rewrite length_fmap in Hlen.
  assert (forall j b, bs !! j = Some b -> exists run, runs !! j = Some run /\
    0 <= rb_begin b <= Z.of_nat (length run)) as Hb.
  { intros j b Hj. apply (is_cut_lookup _ _ j _ Hcut). rewrite list_lookup_fmap, Hj. done. }
  assert (forall b, b ∈ bs -> 0 <= rb_begin b) as Hpos.
  { intros b [j Hj]%list_elem_of_lookup. destruct (Hb j b Hj) as (? & ? & ?). lia. }
  pose proof (zsum_nonneg rb_begin bs Hpos) as Hnn.
  rewrite Hends, Hsum. split; [| split; [lia |]].
  - apply Forall2_same_length_lookup. split; [done |]. intros j run b Hrun Hj.
    destruct (Hb j b Hj) as (run' & Hrun' & Hbb). simplify_eq. destruct Hend as [Hd | Hd].
    + destruct (Forall2_lookup_r _ _ _ _ _ Hd Hj) as (run' & Hrun' & ->). simplify_eq.
      pose proof (zsum_member rb_begin bs b Hpos ltac:(by eapply list_elem_of_lookup_2)).
      unfold cut_size in Hn. lia.
    + assert ((rb_end <$> bs) !! j = Some (rb_end b)) as He by (by rewrite list_lookup_fmap, Hj).
      assert ((rb_begin <$> bs) !! j = Some (rb_begin b)) as Hbe
        by (by rewrite list_lookup_fmap, Hj).
      destruct (is_cut_lookup _ _ _ _ Hd He) as (run' & Hrun' & ?). simplify_eq.
      pose proof (is_cut_mono _ _ _ _ _ _ _ Hcut Hd Hn Hbe He). lia.
  - destruct Hend as [Hd | (_ & <- & _)]; [| by rewrite zsum_fmap].
    assert (zsum rb_end bs = zsum (fun run : list A =>
      Z.min (Z.of_nat (length run)) ((p + 1) * partition_size)) runs) as ->.
    { clear -Hd. induction Hd as [| run b rs bs E _ IH]; [done |].
      rewrite !zsum_cons, IH. by rewrite E. }
    unfold cut_size in *.
    etransitivity; [apply (zsum_min_total (Z.min ((p + 1) * partition_size) (total_count runs))); lia |].
    apply zsum_le. intros run _. lia.
Qed.

Lemma takes_first_start n rem active bs :
  is_cut n (rb_begin <$> bs) -> 0 <= rem ->
  takes_first {| total_remaining := rem; active_run_idxs := active; run_boundaries := bs |}.
Proof.
  intros Hcut Hrem i q x Hq Hx. cbn [run_boundaries total_remaining] in *.
  transitivity 0; [| done]. unfold total_untaken.
  assert (zsum (fun _ : nat => 0) (seq 0 (length runs)) = 0) as <-
    by (clear; induction (seq 0 (length runs)); done).
  apply zsum_le. intros j Hj%elem_of_seq. unfold untaken.
  destruct (lookup_lt_is_Some_2 runs j) as [run Hrun]; [lia |]. rewrite Hrun.
  rewrite zcount_none; [done |]. intros r Hr. unfold begin_at in *.
  destruct (bs !! i) as [b |] eqn:Hb; [| lia].
  destruct (bs !! j) as [bj |] eqn:Hbj; cycle 1.
  { apply lookup_ge_None in Hbj. pose proof (is_cut_length _ _ Hcut) as Hlen.
    rewrite length_fmap in Hlen. apply lookup_lt_Some in Hrun. lia. }
  destruct (run_key j r) as [y |] eqn:Hy; [| done].
  destruct Hcut as (_ & _ & Hcut).
  apply (Hcut i q x (rb_begin b) j r y (rb_begin bj)); rewrite ?list_lookup_fmap, ?Hb, ?Hbj;
    done || lia.
Qed.

(** When nothing remains the begins are a cut. *)
Lemma takes_first_cut s n :
  path_ok s -> takes_first s -> total_remaining s = 0 -> zsum rb_begin (run_boundaries s) = n ->
  is_cut n (rb_begin <$> run_boundaries s).
Proof.
  intros [Hwf _ _] HI H0 Hn. split_and!.
  - apply Forall2_fmap_r. eapply Forall2_impl; [exact Hwf |]. cbn. intros. lia.
  - by rewrite zsum_fmap.
  - intros i q x c j r y d Hc Hq Hx Hd Hr Hy.
    rewrite list_lookup_fmap in Hc, Hd.
    destruct (run_boundaries s !! i) as [b |] eqn:Hb; [| done]. injection Hc as <-.
    destruct (run_boundaries s !! j) as [bj |] eqn:Hbj; [| done]. injection Hd as <-.
    assert (total_untaken (run_boundaries s) i x <= 0) as Hle.
    { rewrite <- H0. apply (HI i q x); [| done]. unfold begin_at. by rewrite Hb. }
    destruct (run_key_inv _ _ _ Hy) as (run & Hrun & Hrr).
    assert (untaken j (begin_at (run_boundaries s) j) i x <= 0) as Hj.
    { etransitivity; [| exact Hle]. unfold total_untaken.
      apply (zsum_member (fun j => untaken j (begin_at (run_boundaries s) j) i x)).
      - intros. apply untaken_nonneg.
      - apply elem_of_seq. apply lookup_lt_Some in Hrun. lia. }
    unfold untaken, begin_at in Hj. rewrite Hrun, Hbj in Hj.
    pose proof (zcount_nonneg (fun q => match run_key j q with
      | Some y => key_before j y i x | None => false end) (rb_begin bj) (Z.of_nat (length run))).
    pose proof (zcount_zero_inv _ (rb_begin bj) (Z.of_nat (length run)) r
      ltac:(apply Z.le_antisymm; [exact Hj | done]) ltac:(lia)) as E.
    cbn beta in E. by rewrite Hy in E.
Qed.

Abbreviation as_boundary := (fun c : Z => {| rb_begin := c; rb_end := c |}).

(** All rows are a cut. *)
Lemma is_cut_all : is_cut (total_count runs) ((fun run : list A => Z.of_nat (length run)) <$> runs).
Proof.
  split_and!.
  - apply Forall2_fmap_r, Forall_Forall2_diag, Forall_true. intros. cbn. lia.
  - by rewrite zsum_fmap.
  - intros i q x c j r y d _ _ _ Hd Hr Hy. rewrite list_lookup_fmap in Hd.
    destruct (run_key_inv _ _ _ Hy) as (run & Hrun & ?). rewrite Hrun in Hd. injection Hd as <-. lia.
Qed.

(** The last partition ends at the ends of the runs. *)
Lemma last_partition_boundaries p bs :
  0 < partition_size -> p = num_partitions - 1 -> boundaries_ok p bs ->
  cut_size p = total_count runs /\
  zip_with (fun (run : list A) b => {| rb_begin := Z.of_nat (length run); rb_end := rb_end b |}) runs bs
  = as_boundary <$> ((fun run : list A => Z.of_nat (length run)) <$> runs).
Proof.
  intros Hp -> [(n & _ & Hcut) Hend]. pose proof (num_partitions_total Hp) as Htot.
  assert (cut_size (num_partitions - 1) = total_count runs) as HN by (unfold cut_size; lia).
  split; [done |]. pose proof (is_cut_length _ _ Hcut) as Hlen. rewrite length_fmap in Hlen.
  apply list_eq_same_length with (length runs);
    [by rewrite !length_fmap | by rewrite length_zip_with, Hlen, Nat.min_id |].
  intros j b1 b2 _ H1 H2. apply lookup_zip_with_Some in H1 as (run & b & -> & Hrun & Hb).
  rewrite !list_lookup_fmap, Hrun in H2. injection H2 as <-. f_equal.
  destruct Hend as [Hd | Hd].
  - destruct (Forall2_lookup_r _ _ _ _ _ Hd Hb) as (run' & Hrun' & ->). simplify_eq.
    pose proof (zsum_member (fun run : list A => Z.of_nat (length run)) runs run
      ltac:(intros; cbn; lia) ltac:(by eapply list_elem_of_lookup_2)) as Hm.
    unfold total_count in Htot. cbn in Hm. lia.
  - rewrite HN in Hd. pose proof (is_cut_unique _ _ _ Hd is_cut_all) as E.
    apply (f_equal (fun l => l !! j)) in E. rewrite !list_lookup_fmap, Hrun, Hb in E.
    by injection E.
Qed.

(** The loop reaches the cut from whatever boundaries of other partitions it
    starts. *)
Lemma path_loop_cut p bs :
  runs_sorted -> 0 < partition_size -> p + 1 < num_partitions -> boundaries_ok p bs ->
  let n := cut_size p - zsum rb_begin bs in
  exists s, path_loop (Z.to_nat n)
      {| total_remaining := n; active_run_idxs := active_runs bs; run_boundaries := bs |} = Some s /\
    is_cut (cut_size p) (rb_begin <$> run_boundaries s).
Proof.
  intros Hs Hp Hlast Hok n. destruct (well_formed_start p bs Hs Hp Hok) as (Hwf & Hsum & Hrem).
  destruct Hok as [(n0 & _ & Hcut) Hend].
  pose proof (num_partitions_last p Hp Hlast) as HN.
  set (s0 := {| total_remaining := n; active_run_idxs := active_runs bs; run_boundaries := bs |}).
  assert (path_ok s0) as Hok0 by (split; cbn; [done | done |]; fold (zsum remaining bs); lia).
  destruct Hend as [Hend | Hend].
  - destruct (path_loop_inv (fun s => ends_default p (run_boundaries s) /\
      zsum rb_begin (run_boundaries s) + total_remaining s = cut_size p /\ takes_first s)
      (Z.to_nat n) s0) as (s & Hs' & Hok & (_ & Hn & HI) & H0).
    + intros s m delta v b s' Hok H1 (Hd & Hn & HI) Hst.
      rewrite (step_rem _ _ _ _ _ _ Hst), (step_bs _ _ _ _ _ _ Hst).
      pose proof (step_b _ _ _ _ _ _ Hst) as Hb. split_and!.
      * destruct (Forall2_lookup_r _ _ _ _ _ Hd Hb) as (run & Hrun & E).
        unfold ends_default. rewrite <- (list_insert_id runs m run) by done.
        by apply Forall2_insert.
      * rewrite (zsum_insert rb_begin _ _ _ _ Hb). cbn. lia.
      * apply (step_takes_first s m delta v b s'); try done.
        intros j bj run Hbj Hrun E.
        destruct (Forall2_lookup_r _ _ _ _ _ Hd Hbj) as (run' & Hrun' & E'). simplify_eq.
        assert (rb_begin bj <= zsum rb_begin (run_boundaries s)).
        { apply zsum_member; [| by eapply list_elem_of_lookup_2].
          intros b' [i Hi]%list_elem_of_lookup.
          destruct (Forall2_lookup_r _ _ _ _ _ (path_wf _ Hok) Hi) as (? & ? & ? & ?). lia. }
        unfold cut_size in *. lia.
    + done.
    + cbn [run_boundaries total_remaining s0]. split_and!; [done | lia |]. apply (takes_first_start n0); [done | lia].
    + cbn. lia.
    + exists s. split; [done |]. apply takes_first_cut; [done | done | done | lia].
  - destruct (path_loop_inv (fun s => rb_end <$> run_boundaries s = rb_end <$> bs /\
      zsum rb_begin (run_boundaries s) + total_remaining s = cut_size p)
      (Z.to_nat n) s0) as (s & Hs' & Hok & (He & Hn) & H0).
    + intros s m delta v b s' Hok H1 (He & Hn) Hst.
      rewrite (step_rem _ _ _ _ _ _ Hst), (step_bs _ _ _ _ _ _ Hst).
      pose proof (step_b _ _ _ _ _ _ Hst) as Hb. split.
      * rewrite list_fmap_insert, <- He. cbn. rewrite list_insert_id; [done |].
        by rewrite list_lookup_fmap, Hb.
      * rewrite (zsum_insert rb_begin _ _ _ _ Hb). cbn. lia.
    + done.
    + cbn [run_boundaries total_remaining s0]. split; [done | lia].
    + cbn. lia.
    + exists s. split; [done |].
      assert (rb_begin <$> run_boundaries s = rb_end <$> bs) as ->; [| done].
      rewrite <- He. apply list_fmap_ext. intros j b Hb.
      apply (zsum_le_eq rb_begin rb_end (run_boundaries s));
        [| | by eapply list_elem_of_lookup_2].
      * intros b' [i Hi]%list_elem_of_lookup.
        destruct (Forall2_lookup_r _ _ _ _ _ (path_wf _ Hok) Hi) as (? & ? & ? & ?). lia.
      * destruct Hend as (_ & Hend & _).
        assert (zsum rb_end (run_boundaries s) = cut_size p); [| lia].
        rewrite <- Hend, <- He. by rewrite zsum_fmap.
Qed.

(** No row is a cut. *)
Lemma is_cut_zero : is_cut 0 ((fun _ : list A => 0) <$> runs).
Proof.
  split_and!.
  - apply Forall2_fmap_r, Forall_Forall2_diag, Forall_true. intros. cbn. lia.
  - clear. induction runs; [done |]. rewrite fmap_cons, zsum_cons. done.
  - intros i q x c j r y d Hc Hq. rewrite list_lookup_fmap in Hc.
    destruct (runs !! i); [| done]. injection Hc as <-. lia.
Qed.

Lemma runs_sorted_Forall :
  Forall (StronglySorted (fun x y => lt y x = false)) runs -> runs_sorted.
Proof.
  intros Hs j q r x y Hqr Hx Hy.
  destruct (run_key_inv _ _ _ Hx) as (run & Hrun & Hq). destruct (run_key_inv _ _ _ Hy) as (run' & ? & Hr).
  simplify_eq. unfold MergePath.run_key, zload in Hx, Hy. rewrite Hrun in Hx, Hy. cbn in Hx, Hy.
  rewrite decide_True in Hx by lia. rewrite decide_True in Hy by lia. pose proof (Forall_lookup_1 _ _ _ _ Hs Hrun) as Hsr. cbn in Hsr.
  destruct (decide (q = r)) as [-> | Hne]; [simplify_eq; apply lt_irrefl |].
  rewrite <- (take_drop (S (Z.to_nat q)) run) in Hsr.
  apply (StronglySorted_app_1_elem_of _ _ _ _ _ Hsr).
  - apply (list_elem_of_lookup_2 _ (Z.to_nat q)). by rewrite lookup_take_lt by lia.
  - apply (list_elem_of_lookup_2 _ (Z.to_nat r - S (Z.to_nat q))). rewrite lookup_drop.
    by replace (S (Z.to_nat q) + (Z.to_nat r - S (Z.to_nat q)))%nat with (Z.to_nat r) by lia.
Qed.

(** The boundaries that the search finds are the cut, for every partition. *)
Lemma TemplatedComputePartitionBoundaries_cut p bs :
  runs_sorted -> 0 < partition_size -> 0 <= p < num_partitions -> boundaries_ok p bs ->
  exists cut, is_cut (cut_size p) cut /\
    TemplatedComputePartitionBoundaries lt runs num_partitions partition_size p bs =
    Some (as_boundary <$> cut).
Proof.
  intros Hs Hp Hpp Hok. unfold TemplatedComputePartitionBoundaries.
  destruct (Z.eqb_spec p (num_partitions - 1)) as [E | E].
  - destruct (last_partition_boundaries p bs Hp E Hok) as [HN Heq].
    exists ((fun run : list A => Z.of_nat (length run)) <$> runs). rewrite HN. split; [apply is_cut_all |].
    by rewrite <- Heq.
  - pose proof (num_partitions_last p Hp ltac:(lia)) as HN.
    destruct (well_formed_start p bs Hs Hp Hok) as (Hwf & Hsum & _).
    destruct (path_loop_cut p bs Hs Hp ltac:(lia) Hok) as (s & Hloop & Hcut).
    assert (cut_size p = (p + 1) * partition_size) as HNe by (unfold cut_size; lia).
    rewrite HNe in Hloop, Hsum.
    rewrite reduce_remaining_Some; [| | lia].
    + cbn [mbind option_bind]. rewrite (proj2 (Z.ltb_lt _ _)) by lia. rewrite Hloop.
      cbn [mbind option_bind]. exists (rb_begin <$> run_boundaries s). split; [done |].
      by rewrite <- list_fmap_compose.
    + intros b [j Hj]%list_elem_of_lookup.
      destruct (Forall2_lookup_r _ _ _ _ _ Hwf Hj) as (? & ? & ? & ?). lia.
Qed.

(** C22. Computing the boundaries of a partition terminates without a failed
    assertion, whatever (already computed) boundaries of an earlier partition the
    search starts from, and gives the one cut of the runs in front of which are
    exactly [(p + 1) * partition_size] keys (all of them for the last partition),
    none of which comes behind a key after the cut. *)
Theorem TemplatedComputePartitionBoundaries_correct p bs :
  runs_sorted -> 0 < partition_size -> 0 <= p < num_partitions -> boundaries_ok p bs ->
  exists cut, is_cut (cut_size p) cut /\ (forall cut', is_cut (cut_size p) cut' -> cut' = cut) /\
    TemplatedComputePartitionBoundaries lt runs num_partitions partition_size p bs =
    Some (as_boundary <$> cut).
Proof.
  intros Hs Hp Hpp Hok.
  destruct (TemplatedComputePartitionBoundaries_cut p bs Hs Hp Hpp Hok) as (cut & Hcut & E).
  exists cut. split; [done |]. split; [| done]. intros cut' Hcut'.
  by apply (is_cut_unique (cut_size p)).
Qed.
End path.

(** ** Witness *)

Definition path_runs : list (list Z) := [[1; 4; 4; 6]; [2; 4; 5]; [4]].

Lemma TemplatedComputePartitionBoundaries_correct_witness :
  exists cut, is_cut Z.ltb path_runs 5 cut /\
    (forall cut', is_cut Z.ltb path_runs 5 cut' -> cut' = cut) /\
    TemplatedComputePartitionBoundaries Z.ltb path_runs 2 5 0
      [{| rb_begin := 0; rb_end := 4 |}; {| rb_begin := 0; rb_end := 3 |};
       {| rb_begin := 0; rb_end := 1 |}] =
    Some ((fun c : Z => {| rb_begin := c; rb_end := c |}) <$> cut).
Proof.
  apply (TemplatedComputePartitionBoundaries_correct Z.ltb path_runs 5 0).
  - apply runs_sorted_Forall; [apply _ |]. repeat constructor.
  - lia.
  - vm_compute. split; [discriminate | reflexivity].
  - split.
    + exists 0. split; [vm_compute; discriminate |]. apply is_cut_zero.
    + left. repeat constructor.
Defined.
