(* ===== verification/SortedRunMerger.v ===== *)
(** * The merger of sorted runs

    common/sort/sorted_run_merger.cpp: the keys of the sorted runs are cut into
    partitions of [partition_size] keys, every thread takes a partition, computes
    its boundaries (MergePath), merges it and scans it.  With [use_filter] the
    merge and the scan drop the keys behind the first [predicate] ORDER BY values
    of a window partition (Merge Pruning).

    A thread is the record [LocalState] and its position between two critical
    sections; [thread_step] runs it to the next one, so that a sequence of thread
    numbers is an interleaving.  MergerInvariant proves what every interleaving
    does; here is what the two columns are that pruning reads from a key. *)

From S2P Require Import Prelude SortKey Pruning MergePath.

(** ** Values of the columns in a key *)

Definition ORDER_BY_MASK : Z := 0x000000ffffffffff.
Definition PARTITION_BITS : Z := 24.
Definition FIRST_ORDER_BITS : Z := 16.
Definition SECOND_ORDER_BITS : Z := 48.

Definition extract_partition (key : SortKey) : Z :=
  Z.shiftr (znth 0 (parts key) 0) PARTITION_BITS.

(** [D_ASSERT(!(key.part1 << FIRST_ORDER_BITS))]: the second part of the key has
    only two bytes of the column. *)
Definition order_by_asserted (key : SortKey) : bool :=
  u64 (Z.shiftl (znth 0 (parts key) 1) FIRST_ORDER_BITS) =? 0.

Definition order_by_value (key : SortKey) : Z :=
  Z.lor (Z.land ORDER_BY_MASK (u64 (Z.shiftl (znth 0 (parts key) 0) FIRST_ORDER_BITS)))
        (Z.shiftr (znth 0 (parts key) 1) SECOND_ORDER_BITS).

Definition extract_order_by (key : SortKey) : option Z :=
  if order_by_asserted key then Some (order_by_value key) else None.

(** ** The state *)

Inductive SortedRunMergerTask : Set :=
  | COMPUTE_BOUNDARIES
  | ACQUIRE_BOUNDARIES
  | MERGE_PARTITION
  | SCAN_PARTITION
  | FINISHED.

#[export] Instance SortedRunMergerTask_eq_dec : EqDecision SortedRunMergerTask.
Proof. solve_decision. Defined.

Record SortedRunMergePartition := {
  partition_boundaries : list SortedRunPartitionBoundary;
  begin_computed : bool;
  scanned : bool
}.

(** Where a thread is inside of its task: at its start, in the search of
    [ComputePartitionBoundaries] for an earlier partition (the next one to look
    at is [prev - 1]), before it writes the boundaries of partition [p] to the
    next partition, before it writes them to [p] itself, and before it copies the
    boundaries at the end of [AcquirePartitionBoundaries]. *)
Inductive Point : Set :=
  | at_start
  | at_search (p prev : nat)
  | at_publish_begin (p : nat)
  | at_publish_end (p : nat)
  | at_copy.

(** The partition that pruning is in, its last ORDER BY value that was kept and
    how many there were. *)
Record Group := {
  g_partition : Z;
  g_order_by : Z;
  g_order_by_count : Z
}.

Definition Group_0 : Group := {| g_partition := 0; g_order_by := 0; g_order_by_count := 0 |}.

Section merger.
Context {A : Type}.

Record SortedRunMerger := {
  sorted_runs : list (list A);
  partition_size : Z;
  external : bool;
  is_index_sort : bool;
  use_filter : bool;
  (* the key type is NO_PAYLOAD_FIXED_16 *)
  fixed_16 : bool;
  (* operator< of the keys *)
  key_lt : A -> A -> bool;
  (* extract_partition and extract_order_by: the value, and the assertion *)
  key_partition : A -> Z;
  key_order_by : A -> Z;
  key_asserted : A -> bool;
  (* WindowOperatorConfig::get().predicate_value *)
  predicate : Z;
  num_threads : nat;
  TuplesPerBlock : Z;
  vergesort : list A -> list A
}.

Record LocalState := {
  task : SortedRunMergerTask;
  point : Point;
  partition_idx : option nat;
  local_boundaries : list SortedRunPartitionBoundary;
  merged_partition : list A;
  merged_partition_index : Z;
  group : Group;
  skipped_tuples : Z
}.

Record GlobalState := {
  next_partition_idx : nat;
  partitions : list SortedRunMergePartition;
  total_scanned : Z;
  destroy_partition_idx : nat;
  materialized_partitions : list (option (list A))
}.

Context (m : SortedRunMerger).

(** The member [total_count]. *)
Definition merger_total_count : Z := MergePath.total_count (sorted_runs m).

Definition merger_partitions : nat :=
  Z.to_nat ((merger_total_count + (partition_size m - 1)) / partition_size m).

Definition SortedRunMergePartition_new (p : nat) : SortedRunMergePartition :=
  let maximum_end := (Z.of_nat p + 1) * partition_size m in
  {| partition_boundaries := (fun run =>
       {| rb_begin := 0; rb_end := Z.min (Z.of_nat (length run)) maximum_end |}) <$> sorted_runs m;
     begin_computed := (p =? 0)%nat;
     scanned := false |}.

Definition GlobalState_new : GlobalState :=
  {| next_partition_idx := 0;
     partitions := SortedRunMergePartition_new <$> seq 0 merger_partitions;
     total_scanned := 0;
     destroy_partition_idx := 0;
     materialized_partitions := [] |}.

Definition LocalState_new : LocalState :=
  {| task := FINISHED; point := at_start; partition_idx := None; local_boundaries := [];
     merged_partition := []; merged_partition_index := 0; group := Group_0; skipped_tuples := 0 |}.

(** ** Updates *)

Definition set_task (t : SortedRunMergerTask) (pt : Point) (l : LocalState) : LocalState :=
  {| task := t; point := pt; partition_idx := partition_idx l;
     local_boundaries := local_boundaries l; merged_partition := merged_partition l;
     merged_partition_index := merged_partition_index l; group := group l;
     skipped_tuples := skipped_tuples l |}.

Definition set_boundaries (bs : list SortedRunPartitionBoundary) (l : LocalState) : LocalState :=
  {| task := task l; point := point l; partition_idx := partition_idx l;
     local_boundaries := bs; merged_partition := merged_partition l;
     merged_partition_index := merged_partition_index l; group := group l;
     skipped_tuples := skipped_tuples l |}.

Definition set_partition (p : nat) (q : SortedRunMergePartition) (g : GlobalState) : GlobalState :=
  {| next_partition_idx := next_partition_idx g;
     partitions := <[p := q]> (partitions g);
     total_scanned := total_scanned g;
     destroy_partition_idx := destroy_partition_idx g;
     materialized_partitions := materialized_partitions g |}.

(** [AssignTask]: the thread must have finished its task. *)
Definition AssignTask (g : GlobalState) (l : LocalState) : option (bool * GlobalState * LocalState) :=
  match partition_idx l, task l with
  | None, FINISHED =>
      if (next_partition_idx g =? merger_partitions)%nat then Some (false, g, l)
      else Some (true,
        {| next_partition_idx := S (next_partition_idx g); partitions := partitions g;
           total_scanned := total_scanned g; destroy_partition_idx := destroy_partition_idx g;
           materialized_partitions := materialized_partitions g |},
        {| task := COMPUTE_BOUNDARIES; point := at_start;
           partition_idx := Some (next_partition_idx g);
           local_boundaries := local_boundaries l; merged_partition := merged_partition l;
           merged_partition_index := merged_partition_index l; group := group l;
           skipped_tuples := skipped_tuples l |})
  | _, _ => None
  end.

(** [None] when the partition index does not fit the task. *)
Definition TaskFinished (l : LocalState) : option bool :=
  match task l, partition_idx l with
  | FINISHED, None => Some true
  | FINISHED, Some _ => None
  | _, Some _ => Some false
  | _, None => None
  end.

(** ** Boundaries *)

Definition compute_boundaries (p : nat) (bs : list SortedRunPartitionBoundary) :
  option (list SortedRunPartitionBoundary) :=
  TemplatedComputePartitionBoundaries (key_lt m) (sorted_runs m) (Z.of_nat merger_partitions)
    (partition_size m) (Z.of_nat p) bs.

(** Copies the boundaries of partition [p] under its lock, and starts the search
    for an earlier partition if its begin is not known. *)
Definition compute_start (p : nat) (g : GlobalState) (l : LocalState) : option LocalState :=
  current_partition ← partitions g !! p;
  let bs := partition_boundaries current_partition in
  if begin_computed current_partition then
    bs' ← compute_boundaries p bs;
    Some (set_task COMPUTE_BOUNDARIES (at_publish_begin p) (set_boundaries bs' l))
  else Some (set_task COMPUTE_BOUNDARIES (at_search p p) (set_boundaries bs l)).

(** One iteration of [for (prev = p_idx; prev > 1; prev--)]. *)
Definition compute_search (p prev : nat) (g : GlobalState) (l : LocalState) : option LocalState :=
  if (1 <? prev)%nat then
    prev_partition ← partitions g !! (prev - 1)%nat;
    if begin_computed prev_partition then
      let bs := zip_with (fun b q => {| rb_begin := rb_begin q; rb_end := rb_end b |})
                  (local_boundaries l) (partition_boundaries prev_partition) in
      bs' ← compute_boundaries p bs;
      Some (set_task COMPUTE_BOUNDARIES (at_publish_begin p) (set_boundaries bs' l))
    else Some (set_task COMPUTE_BOUNDARIES (at_search p (prev - 1)) l)
  else
    bs' ← compute_boundaries p (local_boundaries l);
    Some (set_task COMPUTE_BOUNDARIES (at_publish_begin p) (set_boundaries bs' l)).

(** [D_ASSERT(computed_boundary.begin == computed_boundary.end)] *)
Definition boundaries_computed (bs : list SortedRunPartitionBoundary) : bool :=
  forallb (fun b => rb_begin b =? rb_end b) bs.

(** Sets the begin of the next partition, unless another thread has done so. *)
Definition publish_begin (p : nat) (g : GlobalState) (l : LocalState) :
  option (GlobalState * LocalState) :=
  let l' := set_task COMPUTE_BOUNDARIES (at_publish_end p) l in
  if (p =? merger_partitions - 1)%nat then Some (g, l')
  else
    next_partition ← partitions g !! S p;
    if begin_computed next_partition then Some (g, l')
    else if boundaries_computed (local_boundaries l) then
      let bs := zip_with (fun q b => {| rb_begin := rb_begin b; rb_end := rb_end q |})
                  (partition_boundaries next_partition) (local_boundaries l) in
      Some (set_partition (S p) {| partition_boundaries := bs; begin_computed := true;
                                   scanned := scanned next_partition |} g, l')
    else None.

(** Sets the end of partition [p]; a thread that computed the boundaries of the
    partition before its own one goes on acquiring its begin. *)
Definition publish_end (p : nat) (g : GlobalState) (l : LocalState) :
  option (GlobalState * LocalState) :=
  current_partition ← partitions g !! p;
  if boundaries_computed (local_boundaries l) then
    let bs := zip_with (fun q b => {| rb_begin := rb_begin q; rb_end := rb_end b |})
                (partition_boundaries current_partition) (local_boundaries l) in
    let g' := set_partition p {| partition_boundaries := bs;
                                 begin_computed := begin_computed current_partition;
                                 scanned := scanned current_partition |} g in
    Some (g', if decide (partition_idx l = Some p) then set_task ACQUIRE_BOUNDARIES at_start l
              else set_task ACQUIRE_BOUNDARIES at_copy l)
  else None.

(** [AcquirePartitionBoundaries] *)
Definition acquire_start (p : nat) (g : GlobalState) (l : LocalState) : option LocalState :=
  current_partition ← partitions g !! p;
  if begin_computed current_partition then
    Some (set_task MERGE_PARTITION at_start (set_boundaries (partition_boundaries current_partition) l))
  else
    match p with
    | O => None
    | S p' => compute_start p' g l
    end.

Definition acquire_copy (p : nat) (g : GlobalState) (l : LocalState) : option LocalState :=
  current_partition ← partitions g !! p;
  if begin_computed current_partition then
    Some (set_task MERGE_PARTITION at_start (set_boundaries (partition_boundaries current_partition) l))
  else None.

(** ** Merge Pruning *)

(** Whether a key with these values is kept; [first] for the first key of a run or
    partition. *)
Definition prune_values (first : bool) (s : Group) (partition_value order_value : Z) : Group * bool :=
  if first || negb (partition_value =? g_partition s) then
    ({| g_partition := partition_value; g_order_by := order_value; g_order_by_count := 1 |}, true)
  else
    let same_order := order_value =? g_order_by s in
    if same_order || (negb same_order && (g_order_by_count s <? predicate m)) then
      ({| g_partition := g_partition s; g_order_by := order_value;
          g_order_by_count := g_order_by_count s + Z.b2z (negb same_order) |}, true)
    else (s, false).

(** [None] when the assertion of [extract_order_by] fails. *)
Definition prune_key (first : bool) (s : Group) (key : A) : option (Group * bool) :=
  let partition_value := key_partition m key in
  order_value ← (if key_asserted m key then Some (key_order_by m key) else None);
  Some (prune_values first s partition_value order_value).

(** The keys of a run that are kept, and the number of the others. *)
Fixpoint prune_run (first : bool) (s : Group) (keys : list A) : option (list A * Z) :=
  match keys with
  | [] => Some ([], 0)
  | key :: keys =>
      '(s', keep) ← prune_key first s key;
      '(kept, skipped) ← prune_run false s' keys;
      Some (if (keep : bool) then (key :: kept, skipped) else (kept, skipped + 1))
  end.

(** ** Merge *)

Definition run_slice (run : list A) (b : SortedRunPartitionBoundary) : list A :=
  take (Z.to_nat (rb_end b - rb_begin b)) (drop (Z.to_nat (rb_begin b)) run).

Definition do_merge_pruning : bool := use_filter m && fixed_16 m.

(** Appends the keys of a run to the keys, the skipped tuples and the active runs. *)
Definition merge_run (acc : list A * Z * Z) (rb : list A * SortedRunPartitionBoundary) :
  option (list A * Z * Z) :=
  let '(keys, skipped, active_runs) := acc in
  let '(run, b) := rb in
  if rb_begin b =? rb_end b then Some acc
  else
    '(kept, n) ←
      (if do_merge_pruning then prune_run true Group_0 (run_slice run b)
       else Some (run_slice run b, 0));
    Some (keys ++ kept, skipped + n, active_runs + 1).

Definition TemplatedMergePartition (bs : list SortedRunPartitionBoundary) : option (list A * Z) :=
  '(keys, skipped, active_runs) ← ofold merge_run ([], 0, 0) (zip (sorted_runs m) bs);
  (* the allocation of the merged partition *)
  if Z.of_nat (length keys) <=? partition_size m then
    Some (if (active_runs =? 1) || is_index_sort m then keys else vergesort m keys, skipped)
  else None.

Definition merge_partition (l : LocalState) : option LocalState :=
  '(keys, skipped) ← TemplatedMergePartition (local_boundaries l);
  Some {| task := SCAN_PARTITION; point := at_start; partition_idx := partition_idx l;
          local_boundaries := local_boundaries l; merged_partition := keys;
          merged_partition_index := 0;
          group := if do_merge_pruning then Group_0 else group l;
          skipped_tuples := skipped |}.

(** ** Scan *)

(** The loop of the scan with pruning: the chunk, the keys passed and the state
    of the group after it. *)
Fixpoint scan_loop (first : bool) (s : Group) (count : Z) (keys : list A)
    : option (list A * Z * Group) :=
  match keys with
  | [] => Some ([], 0, s)
  | key :: keys =>
      if count <? STANDARD_VECTOR_SIZE then
        '(s', keep) ← prune_key first s key;
        '(chunk, i, s'') ← scan_loop false s' (if (keep : bool) then count + 1 else count) keys;
        Some (if (keep : bool) then key :: chunk else chunk, i + 1, s'')
      else Some ([], 0, s)
  end.

Definition TemplatedScanPartition (l : LocalState) : option (list A * LocalState) :=
  let rest := drop (Z.to_nat (merged_partition_index l)) (merged_partition l) in
  '(chunk, n, s) ←
    (if do_merge_pruning then scan_loop (merged_partition_index l =? 0) (group l) 0 rest
     else
       let chunk := take (Z.to_nat STANDARD_VECTOR_SIZE) rest in
       Some (chunk, Z.of_nat (length chunk), group l));
  Some (chunk,
   {| task := task l; point := point l; partition_idx := partition_idx l;
      local_boundaries := local_boundaries l; merged_partition := merged_partition l;
      merged_partition_index := merged_partition_index l + n; group := s;
      skipped_tuples := skipped_tuples l |}).

(** ** Materialization *)

Definition MaterializePartition (p : nat) (g : GlobalState) (l : LocalState) :
  GlobalState * LocalState :=
  let rest := drop (Z.to_nat (merged_partition_index l)) (merged_partition l) in
  let mp := materialized_partitions g in
  let mp := mp ++ replicate (S p - length mp) None in
  ({| next_partition_idx := next_partition_idx g; partitions := partitions g;
      total_scanned := total_scanned g; destroy_partition_idx := destroy_partition_idx g;
      materialized_partitions := <[p := Some rest]> mp |},
   {| task := task l; point := point l; partition_idx := partition_idx l;
      local_boundaries := local_boundaries l; merged_partition := merged_partition l;
      merged_partition_index := Z.of_nat (length (merged_partition l)); group := group l;
      skipped_tuples := skipped_tuples l |}).

(** [None] before the first materialization, and for a partition that is missing. *)
Definition GetSortedRun (g : GlobalState) : option (list A) :=
  match materialized_partitions g with
  | [] => None
  | _ => mjoin <$> mapM id (materialized_partitions g)
  end.

(** ** Destroying scanned data *)

(** The number of partitions that are scanned before the first one that is not. *)
Fixpoint scanned_prefix (ps : list SortedRunMergePartition) : nat :=
  match ps with
  | [] => 0
  | p :: ps => if scanned p then S (scanned_prefix ps) else 0
  end.

(** The end of partition [p] in every run. *)
Definition partition_ends (g : GlobalState) (p : nat) : option (list Z) :=
  q ← partitions g !! p; Some (rb_end <$> partition_boundaries q).

(** The rows [(begin, end)] of every run that are destroyed; nothing is destroyed
    by a thread that does not get the lock. *)
Definition DestroyScannedData (owns_lock : bool) (g : GlobalState) :
  option (GlobalState * list (Z * Z)) :=
  let d := destroy_partition_idx g in
  let e := (d + scanned_prefix (drop d (partitions g)))%nat in
  if negb (external m) || negb owns_lock || (e <? num_threads m)%nat
     || (e - num_threads m <=? d)%nat then Some (g, [])
  else
    let e := (e - num_threads m)%nat in
    let total_tuples_to_destroy := Z.of_nat (e - d) * partition_size m in
    let tuples_to_destroy_per_partition := total_tuples_to_destroy / Z.of_nat merger_partitions in
    if tuples_to_destroy_per_partition / TuplesPerBlock m =? 0 then Some (g, [])
    else
      begins ← (if (d =? 0)%nat then Some ((fun _ => 0) <$> sorted_runs m) else partition_ends g d);
      ends ← (if (e =? merger_partitions)%nat then
                Some ((fun run => Z.of_nat (length run)) <$> sorted_runs m)
              else partition_ends g e);
      Some ({| next_partition_idx := next_partition_idx g; partitions := partitions g;
               total_scanned := total_scanned g; destroy_partition_idx := e;
               materialized_partitions := materialized_partitions g |}, zip begins ends).

(** ** The steps of a thread *)

Inductive SourceResultType : Set := HAVE_MORE_OUTPUT | SOURCE_FINISHED.

(** What a step lets the others see: a chunk of partition [p], or the end of
    partition [p] with the result of [ExecuteTask] and the rows destroyed. *)
Inductive Event :=
  | ev_none
  | ev_idle
  | ev_chunk (p : nat) (chunk : list A)
  | ev_done (p : nat) (result : SourceResultType) (destroyed : list (Z * Z)).

(** The end of a partition: [fetch_add] gives the count before the addition. *)
Definition finish_partition (owns_lock : bool) (p : nat) (g : GlobalState) (l : LocalState) :
  option (GlobalState * LocalState * Event) :=
  '(g, destroyed) ← DestroyScannedData owns_lock g;
  partition ← partitions g !! p;
  let g := set_partition p {| partition_boundaries := partition_boundaries partition;
                              begin_computed := begin_computed partition;
                              scanned := true |} g in
  let scan_count_after_adding := total_scanned g in
  let g :=
    {| next_partition_idx := next_partition_idx g; partitions := partitions g;
       total_scanned :=
         total_scanned g + (Z.of_nat (length (merged_partition l)) + skipped_tuples l);
       destroy_partition_idx := destroy_partition_idx g;
       materialized_partitions := materialized_partitions g |} in
  let l :=
    {| task := FINISHED; point := at_start; partition_idx := None;
       local_boundaries := local_boundaries l; merged_partition := merged_partition l;
       merged_partition_index := merged_partition_index l; group := group l;
       skipped_tuples := skipped_tuples l |} in
  Some (g, l, ev_done p (if scan_count_after_adding =? merger_total_count then SOURCE_FINISHED
                         else HAVE_MORE_OUTPUT) destroyed).

(** The task SCAN_PARTITION, with a chunk to fill or to materialize. *)
Definition scan_partition (materialize owns_lock : bool) (p : nat) (g : GlobalState) (l : LocalState) :
  option (GlobalState * LocalState * Event) :=
  if materialize then
    let '(g, l) := MaterializePartition p g l in finish_partition owns_lock p g l
  else
    '(chunk, l) ← TemplatedScanPartition l;
    if (length chunk =? 0)%nat then finish_partition owns_lock p g l
    else Some (g, l, ev_chunk p chunk).

Definition ExecuteTask (materialize owns_lock : bool) (g : GlobalState) (l : LocalState) :
  option (GlobalState * LocalState * Event) :=
  match task l, point l, partition_idx l with
  | COMPUTE_BOUNDARIES, at_start, Some p => l' ← compute_start p g l; Some (g, l', ev_none)
  | COMPUTE_BOUNDARIES, at_search p prev, Some _ =>
      l' ← compute_search p prev g l; Some (g, l', ev_none)
  | COMPUTE_BOUNDARIES, at_publish_begin p, Some _ =>
      '(g', l') ← publish_begin p g l; Some (g', l', ev_none)
  | COMPUTE_BOUNDARIES, at_publish_end p, Some _ =>
      '(g', l') ← publish_end p g l; Some (g', l', ev_none)
  | ACQUIRE_BOUNDARIES, at_start, Some p => l' ← acquire_start p g l; Some (g, l', ev_none)
  | ACQUIRE_BOUNDARIES, at_copy, Some p => l' ← acquire_copy p g l; Some (g, l', ev_none)
  | MERGE_PARTITION, at_start, Some _ => l' ← merge_partition l; Some (g, l', ev_none)
  | SCAN_PARTITION, at_start, Some p => scan_partition materialize owns_lock p g l
  | _, _, _ => None
  end.

(** The loops of [GetData] and [MaterializeSortedRun]. *)
Definition thread_step (materialize owns_lock : bool) (g : GlobalState) (l : LocalState) :
  option (GlobalState * LocalState * Event) :=
  finished ← TaskFinished l;
  if (finished : bool) then
    '(assigned, g', l') ← AssignTask g l;
    Some (g', l', if (assigned : bool) then ev_none else ev_idle)
  else ExecuteTask materialize owns_lock g l.

(** ** Interleavings *)

Record System := {
  shared : GlobalState;
  threads : list LocalState;
  events : list Event
}.

Definition System_new (n : nat) : System :=
  {| shared := GlobalState_new; threads := replicate n LocalState_new; events := [] |}.

(** One step of thread [fst c]; [snd c] tells whether it gets the lock to destroy. *)
Definition system_step (materialize : bool) (s : System) (c : nat * bool) : option System :=
  l ← threads s !! fst c;
  '(g', l', e) ← thread_step materialize (snd c) (shared s) l;
  Some {| shared := g'; threads := <[fst c := l']> (threads s); events := events s ++ [e] |}.

Definition run_system (materialize : bool) (n : nat) (schedule : list (nat * bool)) : option System :=
  ofold (system_step materialize) (System_new n) schedule.

(** The keys scanned from partition [p]. *)
Definition output (s : System) (p : nat) : list A :=
  mjoin ((fun e => match e with
                   | ev_chunk q chunk => if decide (q = p) then chunk else []
                   | _ => []
                   end) <$> events s).
End merger.

(** ** The columns in a key of 16 bytes *)

Lemma extract_order_by_parts hi lo c :
  0 <= lo < 2 ^ 24 -> 0 <= c < 2 ^ 16 ->
  Z.lor (Z.land ORDER_BY_MASK (u64 (Z.shiftl (hi * 2 ^ 24 + lo) FIRST_ORDER_BITS)))
        (Z.shiftr (c * 2 ^ 48) SECOND_ORDER_BITS) = lo * 2 ^ 16 + c.
Proof.
  intros Hlo Hc. unfold FIRST_ORDER_BITS, SECOND_ORDER_BITS.
  rewrite (shiftr_pow c 48 48 0), Z.mul_1_r by lia.
  change ORDER_BY_MASK with (Z.ones 40). rewrite Z.land_comm, Z.land_ones by lia.
  unfold u64. rewrite Z.shiftl_mul_pow2 by lia.
  rewrite Z.mod_mod_divide by (exists (2 ^ 24); reflexivity).
  replace ((hi * 2 ^ 24 + lo) * 2 ^ 16) with (lo * 2 ^ 16 + hi * 2 ^ 40) by lia.
  rewrite Z.mod_add, Z.mod_small by lia. rewrite Z.lor_comm, lor_shift by lia. lia.
Qed.

(** The order of the keys is the order of the two columns. *)
Lemma FixedLess_columns hi lo c hi' lo' c' :
  0 <= lo < 2 ^ 24 -> 0 <= c < 2 ^ 16 -> 0 <= lo' < 2 ^ 24 -> 0 <= c' < 2 ^ 16 ->
  SortKeyLessThan 2 [hi * 2 ^ 24 + lo; c * 2 ^ 48] [hi' * 2 ^ 24 + lo'; c' * 2 ^ 48] =
  (hi <? hi') || ((hi =? hi') && (lo * 2 ^ 16 + c <? lo' * 2 ^ 16 + c')).
Proof.
  intros. cbn [SortKeyLessThan hd tl].
  destruct (Z.ltb_spec (hi * 2 ^ 24 + lo) (hi' * 2 ^ 24 + lo')), (Z.ltb_spec hi hi'),
    (Z.eqb_spec (hi * 2 ^ 24 + lo) (hi' * 2 ^ 24 + lo')), (Z.eqb_spec hi hi'),
    (Z.ltb_spec (c * 2 ^ 48) (c' * 2 ^ 48)), (Z.ltb_spec (lo * 2 ^ 16 + c) (lo' * 2 ^ 16 + c'));
    cbn [orb andb]; lia || done.
Qed.

Lemma be_load_app l r : be_load (l ++ r) = be_load l * 256 ^ Z.of_nat (length r) + be_load r.
Proof.
  induction l as [| b l IH]; [cbn; lia |]. cbn [app be_load]. rewrite IH, length_app.
  rewrite Nat2Z.inj_add, Z.pow_add_r by lia. lia.
Qed.

(** The key of a string of two columns of 5 bytes. *)
Definition key_of_columns (p o : list Z) : option SortKey :=
  FixedConstruct (FixedSortKey 2 16 false) (p ++ o) 0.

Lemma key_of_columns_parts p o :
  Forall is_byte p -> Forall is_byte o -> length p = 5%nat -> length o = 5%nat ->
  exists key lo c, key_of_columns p o = Some key /\
    0 <= lo < 2 ^ 24 /\ 0 <= c < 2 ^ 16 /\ be_load o = lo * 2 ^ 16 + c /\
    parts key = [be_load p * 2 ^ 24 + lo; c * 2 ^ 48].
Proof.
  intros Bp Bo Lp Lo.
  destruct o as [| o0 [| o1 [| o2 [| o3 [| o4 [| ? ?]]]]]]; try done.
  do 5 (apply Forall_cons in Bo as [? Bo]). clear Lo Bo.
  unfold key_of_columns.
  rewrite (FixedConstruct_parts NO_PAYLOAD_FIXED_16) by (done || rewrite length_app, Lp; cbn; lia).
  set (lo := o0 * 65536 + o1 * 256 + o2). set (c := o3 * 256 + o4).
  eexists _, lo, c. unfold is_byte in *. split_and!; [done | lia .. | cbn; lia |].
  cbn [parts PARTS FixedSortKey INLINE_LENGTH].
  assert (pad 16 (p ++ [o0; o1; o2; o3; o4]) =
    (p ++ [o0; o1; o2]) ++ [o3; o4; 0; 0; 0; 0; 0; 0]) as ->.
  { unfold pad. rewrite length_app, Lp. cbn [length Nat.add Z.to_nat]. rewrite <- !app_assoc. done. }
  assert (length (p ++ [o0; o1; o2]) = 8%nat) as L8 by (by rewrite length_app, Lp).
  assert (Forall is_byte ((p ++ [o0; o1; o2]) ++ [o3; o4; 0; 0; 0; 0; 0; 0])) as B16.
  { unfold is_byte. repeat (apply Forall_app; split); [done | repeat constructor; lia ..]. }
  rewrite ByteSwap_cons by (done || rewrite length_app, L8; done).
  rewrite drop_app_length', take_app_length' by done.
  apply Forall_app in B16 as [_ B8]. rewrite ByteSwap_cons by done.
  rewrite take_ge by done. cbn [drop load_parts ByteSwap fmap list_fmap]. f_equal.
  - rewrite be_load_app. cbn. lia.
  - f_equal. cbn. lia.
Qed.

(** In a key of two columns of 5 bytes (a validity byte and 4 bytes of data)
    [extract_partition] and [extract_order_by], whose assertion holds, are the values
    of the first and of the second column, and [operator<] compares the keys by these two values. *)
Theorem extract_columns p o p' o' :
  Forall is_byte p -> Forall is_byte o -> Forall is_byte p' -> Forall is_byte o' ->
  length p = 5%nat -> length o = 5%nat -> length p' = 5%nat -> length o' = 5%nat ->
  exists k k', key_of_columns p o = Some k /\ key_of_columns p' o' = Some k' /\
    extract_partition k = be_load p /\ extract_order_by k = Some (be_load o) /\
    FixedLess (FixedSortKey 2 16 false) k k' =
      (extract_partition k <? extract_partition k') ||
      ((extract_partition k =? extract_partition k') && (order_by_value k <? order_by_value k')).
Proof.
  intros Bp Bo Bp' Bo' Lp Lo Lp' Lo'.
  destruct (key_of_columns_parts p o Bp Bo Lp Lo) as (k & lo & c & Ek & Hlo & Hc & Eo & Pk).
  destruct (key_of_columns_parts p' o' Bp' Bo' Lp' Lo') as (k' & lo' & c' & Ek' & Hlo' & Hc' & Eo' & Pk').
  exists k, k'. unfold extract_partition, extract_order_by, order_by_asserted, order_by_value, FixedLess.
  rewrite Pk, Pk', !znth_0, !znth_1, Eo, !extract_order_by_parts by done.
  unfold PARTITION_BITS. rewrite !Z.shiftr_div_pow2 by lia.
  rewrite !Z.div_add_l, !(Z.div_small lo), !(Z.div_small lo'), !Z.add_0_r by lia.
  split_and!; [done | done | done | | by apply FixedLess_columns].
  unfold FIRST_ORDER_BITS. rewrite Z.shiftl_mul_pow2 by lia.
  replace (c * 2 ^ 48 * 2 ^ 16) with (c * 2 ^ 64) by lia. unfold u64. by rewrite Z.mod_mul by done.
Qed.

(** With two ORDER BY columns, 15 bytes in all, the assertion fails. *)
Example extract_order_by_second_column :
  option_map extract_order_by
    (FixedConstruct (FixedSortKey 2 16 false)
      ([1; 128; 0; 0; 3] ++ [1; 128; 0; 0; 7] ++ [1; 128; 0; 0; 1]) 0) = Some None.
Proof. vm_compute. reflexivity. Qed.

(** With a first column of 9 bytes (BIGINT) [extract_partition] reads only its
    first 5 bytes: the keys of two different partitions get the same value, and
    pruning takes them for one partition. *)
Theorem extract_partition_wide :
  exists k k',
    FixedConstruct (FixedSortKey 2 16 false) ([1; 128; 0; 0; 0; 0; 0; 0; 1] ++ [1; 128; 0; 0; 7]) 0 = Some k /\
    FixedConstruct (FixedSortKey 2 16 false) ([1; 128; 0; 0; 0; 0; 0; 0; 2] ++ [1; 128; 0; 0; 7]) 0 = Some k' /\
    k <> k' /\ extract_partition k = extract_partition k'.
Proof.
  do 2 eexists. split; [vm_compute; reflexivity |]. split; [vm_compute; reflexivity |].
  split; [discriminate | vm_compute; reflexivity].
Qed.

(** ** Witness *)

Lemma extract_columns_witness :
  exists k k', key_of_columns [1; 128; 0; 0; 3] [1; 127; 255; 255; 254] = Some k /\
    key_of_columns [1; 128; 0; 0; 3] [1; 128; 0; 0; 9] = Some k' /\
    extract_partition k = be_load [1; 128; 0; 0; 3] /\
    extract_order_by k = Some (be_load [1; 127; 255; 255; 254]) /\
    FixedLess (FixedSortKey 2 16 false) k k' =
      (extract_partition k <? extract_partition k') ||
      ((extract_partition k =? extract_partition k') && (order_by_value k <? order_by_value k')).
Proof. apply extract_columns; [bytes | bytes | bytes | bytes | reflexivity ..]. Defined.
