(* ===== verification/MergerInvariant.v ===== *)
(** * The merger of sorted runs: theorems

    Every interleaving of the threads of SortedRunMerger keeps the invariant
    [system_ok], from which the theorems at the end follow: the partitions are
    given out once and merged between the same cuts, the chunks that are scanned
    (or the run that is materialized) are the sorted keys, pruning is safe in the
    sense of Pruning, only scanned rows are destroyed, and the threads terminate.

    With Merge Pruning the theorems assume that the assertion of [extract_order_by] holds
    of the keys ([keys_asserted]) and, about what is kept, that [operator<] compares
    them by the two columns ([keys_compare_columns]); [int_columns_pruned] shows that keys
    of two nullable columns of 4 bytes are such. *)

From S2P Require Import Prelude SortKey Pruning MergePath SortedRunMerger.

(** ** Partitions and their boundaries *)

Section invariant.
Context {A : Type} (m : SortedRunMerger (A := A)).
Context `{!StrictWeakOrder (key_lt m)}.
Context (Hruns : Forall (StronglySorted (fun x y => key_lt m y x = false)) (sorted_runs m)).
Context (Hsize : 0 < partition_size m).
Implicit Types (p i : nat) (q : SortedRunMergePartition) (g : GlobalState (A := A)) (l : LocalState (A := A))
  (bs : list SortedRunPartitionBoundary).

Abbreviation runs := (sorted_runs m).
Abbreviation is_cut := (is_cut (key_lt m) runs).
Abbreviation P := (merger_partitions m).
Abbreviation le := (fun x y : A => key_lt m y x = false).

Lemma Hsorted : runs_sorted (key_lt m) runs.
Proof. by apply runs_sorted_Forall. Qed.

(** The keys in front of partition [p], and in front of the end of it. *)
Definition keys_before (p : nat) : Z := cut_size runs (partition_size m) (Z.of_nat p - 1).

Definition keys_upto (p : nat) : Z := cut_size runs (partition_size m) (Z.of_nat p).

Lemma keys_before_S p : keys_before (S p) = keys_upto p.
Proof. unfold keys_before, keys_upto. f_equal. lia. Qed.

Lemma total_count_nonneg : 0 <= total_count runs.
Proof. apply zsum_nonneg. intros. cbn. lia. Qed.

Lemma keys_before_0 : keys_before 0 = 0.
Proof. unfold keys_before, cut_size. pose proof total_count_nonneg. lia. Qed.

Lemma keys_before_upto p : keys_before p <= keys_upto p.
Proof. unfold keys_before, keys_upto, cut_size. nia. Qed.

Lemma keys_before_nonneg p : 0 <= keys_before p.
Proof. unfold keys_before, cut_size. pose proof total_count_nonneg. nia. Qed.

Lemma merger_partitions_Z : Z.of_nat P = num_partitions runs (partition_size m).
Proof.
  unfold merger_partitions, merger_total_count, num_partitions.
  rewrite Z2Nat.id; [done |]. pose proof total_count_nonneg. apply Z.div_pos; lia.
Qed.

Lemma keys_before_lt p : (p < P)%nat -> keys_before p < keys_upto p.
Proof.
  intros Hp. unfold keys_before, keys_upto, cut_size.
  destruct (decide (p = 0)%nat) as [-> | Hne].
  - assert (total_count runs <> 0); [| pose proof total_count_nonneg; cbn; lia].
    intros E. unfold merger_partitions, merger_total_count in Hp. rewrite E in Hp.
    rewrite Z.div_small in Hp by lia. cbn in Hp. lia.
  - pose proof (num_partitions_last runs (partition_size m) (Z.of_nat p - 1) Hsize) as H.
    rewrite <- merger_partitions_Z in H. specialize (H ltac:(lia)). nia.
Qed.

Lemma keys_before_P : keys_before P = total_count runs.
Proof.
  unfold keys_before, cut_size. rewrite merger_partitions_Z.
  pose proof (num_partitions_total runs (partition_size m) Hsize). lia.
Qed.

Definition zero_begins (bs : list SortedRunPartitionBoundary) : Prop :=
  rb_begin <$> bs = (fun _ => 0) <$> runs.

Definition ends_ok (p : nat) (bs : list SortedRunPartitionBoundary) : Prop :=
  ends_default runs (partition_size m) (Z.of_nat p) bs \/ is_cut (keys_upto p) (rb_end <$> bs).

(** The begin of a partition is the cut before it once it is computed; its end is
    initial or the cut behind it. *)
Definition partition_ok (p : nat) (q : SortedRunMergePartition) : Prop :=
  (if begin_computed q then is_cut (keys_before p) (rb_begin <$> partition_boundaries q)
   else zero_begins (partition_boundaries q)) /\
  ends_ok p (partition_boundaries q).

Lemma zero_begins_cut bs : zero_begins bs -> is_cut 0 (rb_begin <$> bs).
Proof. intros ->. apply is_cut_zero. Qed.

Lemma boundaries_ok_cut p bs n :
  is_cut n (rb_begin <$> bs) -> n <= keys_upto p -> ends_ok p bs ->
  boundaries_ok (key_lt m) runs (partition_size m) (Z.of_nat p) bs.
Proof. intros Hc Hn He. split; [by exists n | done]. Qed.

(** Both boundaries of partition [p]. *)
Definition exact_boundaries (p : nat) (bs : list SortedRunPartitionBoundary) : Prop :=
  is_cut (keys_before p) (rb_begin <$> bs) /\ is_cut (keys_upto p) (rb_end <$> bs).

(** The result of a computation for partition [p]: its end, as begin and end. *)
Definition computed (p : nat) (bs : list SortedRunPartitionBoundary) : Prop :=
  exists cut, is_cut (keys_upto p) cut /\ bs = (fun c => {| rb_begin := c; rb_end := c |}) <$> cut.

Lemma compute_boundaries_Some p bs n :
  (p < P)%nat -> is_cut n (rb_begin <$> bs) -> n <= keys_upto p -> ends_ok p bs ->
  exists bs', compute_boundaries m p bs = Some bs' /\ computed p bs'.
Proof.
  intros Hp Hc Hn He. unfold compute_boundaries. rewrite merger_partitions_Z.
  destruct (TemplatedComputePartitionBoundaries_cut (key_lt m) runs (partition_size m)
    (Z.of_nat p) bs) as (cut & Hcut & E).
  - apply Hsorted.
  - done.
  - rewrite <- merger_partitions_Z. lia.
  - by eapply boundaries_ok_cut.
  - rewrite E. eexists. split; [done |]. by exists cut.
Qed.

Lemma computed_boundaries p bs :
  computed p bs ->
  boundaries_computed bs = true /\ is_cut (keys_upto p) (rb_begin <$> bs) /\
  is_cut (keys_upto p) (rb_end <$> bs).
Proof.
  intros (cut & Hcut & ->). rewrite <- !list_fmap_compose.
  assert (forall f : Z -> Z, (forall c, f c = c) -> f <$> cut = cut) as Hid.
  { intros f Hf. rewrite <- (list_fmap_id cut) at 2. by apply list_fmap_ext. }
  rewrite !Hid by done. split; [| done]. unfold boundaries_computed.
  apply forallb_forall. intros b Hb%list_elem_of_In%list_elem_of_fmap.
  destruct Hb as (c & -> & _). apply Z.eqb_refl.
Qed.

(** ** What a thread knows *)

Definition end_known g i : Prop :=
  exists q, partitions g !! i = Some q /\ is_cut (keys_upto i) (rb_end <$> partition_boundaries q).

Definition begin_known g i : Prop :=
  exists q, partitions g !! i = Some q /\ begin_computed q = true.

(** A thread that owns partition [i] works on it or on the partition before it. *)
Definition works_on g i p : Prop :=
  (p < P)%nat /\ (p = i \/ S p = i /\ end_known g i).

Definition local_ok g l : Prop :=
  match partition_idx l, task l, point l with
  | None, FINISHED, at_start => True
  | Some i, t, pt =>
      (i < P)%nat /\
      match t, pt with
      | COMPUTE_BOUNDARIES, at_start => True
      | COMPUTE_BOUNDARIES, at_search p prev =>
          works_on g i p /\ (prev <= p)%nat /\
          zero_begins (local_boundaries l) /\ ends_ok p (local_boundaries l)
      | COMPUTE_BOUNDARIES, at_publish_begin p => works_on g i p /\ computed p (local_boundaries l)
      | COMPUTE_BOUNDARIES, at_publish_end p =>
          works_on g i p /\ computed p (local_boundaries l) /\
          ((S p < P)%nat -> begin_known g (S p))
      | ACQUIRE_BOUNDARIES, at_start => end_known g i
      | ACQUIRE_BOUNDARIES, at_copy => end_known g i /\ begin_known g i
      | MERGE_PARTITION, at_start => end_known g i /\ exact_boundaries i (local_boundaries l)
      | SCAN_PARTITION, at_start => end_known g i
      | _, _ => False
      end
  | _, _, _ => False
  end.

Record global_ok g : Prop := {
  ok_length : length (partitions g) = P;
  ok_partitions : forall p q, partitions g !! p = Some q -> partition_ok p q;
  ok_first : begin_known g 0 \/ P = 0%nat;
  ok_next : (next_partition_idx g <= P)%nat;
  ok_scanned : forall p q, partitions g !! p = Some q -> scanned q = true ->
    is_cut (keys_upto p) (rb_end <$> partition_boundaries q);
  ok_destroyed : forall p q, (p < destroy_partition_idx g)%nat -> partitions g !! p = Some q ->
    scanned q = true
}.

(** What is known stays known. *)
Definition knows_more g g' : Prop :=
  (forall i, end_known g i -> end_known g' i) /\ (forall i, begin_known g i -> begin_known g' i).

Lemma local_ok_mono g g' l : knows_more g g' -> local_ok g l -> local_ok g' l.
Proof.
  intros [He Hb]. unfold local_ok, works_on.
  destruct (partition_idx l), (task l), (point l); naive_solver.
Qed.

Lemma knows_more_refl g : knows_more g g.
Proof. by split. Qed.

(** Replacing a partition. *)
Lemma set_partition_ok g p q0 q :
  global_ok g -> partitions g !! p = Some q0 -> partition_ok p q ->
  (begin_computed q0 = true -> begin_computed q = true) ->
  (scanned q0 = true -> scanned q = true) ->
  (scanned q = true -> is_cut (keys_upto p) (rb_end <$> partition_boundaries q)) ->
  global_ok (set_partition p q g).
Proof.
  intros [Hl Hp Hf Hn Hs Hd] Hq0 Hq Hb Hsc Hse.
  pose proof (lookup_lt_Some _ _ _ Hq0) as Hlt.
  assert (forall i qi, <[p := q]> (partitions g) !! i = Some qi ->
    i = p /\ qi = q \/ i <> p /\ partitions g !! i = Some qi) as Hcase.
  { intros i qi Hi. destruct (decide (i = p)) as [-> | Hne]; [left | right].
    - rewrite list_lookup_insert_eq in Hi by done. by injection Hi as <-.
    - by rewrite list_lookup_insert_ne in Hi. }
  split; cbn.
  - by rewrite length_insert.
  - intros i qi [[-> ->] | [_ Hi]]%Hcase; [done | by apply Hp].
  - destruct Hf as [(qf & Hqf & Hbf) | Hf]; [left | by right]. unfold begin_known. cbn.
    destruct (decide (p = 0)%nat) as [-> | Hne].
    + exists q. rewrite list_lookup_insert_eq by done. simplify_eq. auto.
    + exists qf. by rewrite list_lookup_insert_ne by lia.
  - done.
  - intros i qi [[-> ->] | [_ Hi]]%Hcase; [done | by apply Hs].
  - intros i qi Hi [[-> ->] | [_ Hqi]]%Hcase; [apply Hsc; by eapply Hd | by eapply Hd].
Qed.

Lemma set_partition_knows g p q0 q :
  partitions g !! p = Some q0 ->
  (is_cut (keys_upto p) (rb_end <$> partition_boundaries q0) ->
   is_cut (keys_upto p) (rb_end <$> partition_boundaries q)) ->
  (begin_computed q0 = true -> begin_computed q = true) ->
  knows_more g (set_partition p q g).
Proof.
  intros Hq0 He Hb. pose proof (lookup_lt_Some _ _ _ Hq0) as Hlt.
  split; intros i (qi & Hi & Hk); (destruct (decide (i = p)) as [-> | Hne];
    [exists q; cbn; rewrite list_lookup_insert_eq by done; simplify_eq; auto
    |exists qi; cbn; by rewrite list_lookup_insert_ne by done]).
Qed.

Lemma set_partition_lookup g p q0 q :
  partitions g !! p = Some q0 -> partitions (set_partition p q g) !! p = Some q.
Proof. intros H. cbn. apply list_lookup_insert_eq. by eapply lookup_lt_Some. Qed.

(** ** The steps of the computation of boundaries *)

Lemma ends_ok_partition g p q :
  global_ok g -> partitions g !! p = Some q -> ends_ok p (partition_boundaries q).
Proof. intros Hg Hq. by apply (ok_partitions _ Hg). Qed.

Lemma lookup_partition g p : global_ok g -> (p < P)%nat -> exists q, partitions g !! p = Some q.
Proof. intros Hg Hp. apply lookup_lt_is_Some_2. rewrite (ok_length _ Hg). lia. Qed.

Lemma set_task_idx t pt l : partition_idx (set_task t pt l) = partition_idx l.
Proof. done. Qed.

Lemma local_ok_publish_begin g i p bs l :
  partition_idx l = Some i -> (i < P)%nat -> works_on g i p -> computed p bs ->
  local_ok g (set_task COMPUTE_BOUNDARIES (at_publish_begin p) (set_boundaries bs l)).
Proof. intros Hi HiP Hw Hc. unfold local_ok. cbn. by rewrite Hi. Qed.

Lemma compute_start_ok g l i p :
  global_ok g -> partition_idx l = Some i -> (i < P)%nat -> works_on g i p ->
  exists l', compute_start m p g l = Some l' /\ local_ok g l' /\ partition_idx l' = Some i.
Proof.
  intros Hg Hi HiP Hw. pose proof (proj1 Hw) as HpP.
  destruct (lookup_partition g p Hg HpP) as [q Hq].
  pose proof (ok_partitions _ Hg p q Hq) as [Hb He].
  unfold compute_start. rewrite Hq. cbn [mbind option_bind].
  destruct (begin_computed q) eqn:E.
  - destruct (compute_boundaries_Some p (partition_boundaries q) (keys_before p)) as (bs' & -> & Hc);
      [done | done | apply keys_before_upto | done |].
    eexists. split; [done |]. split; [by eapply local_ok_publish_begin | done].
  - eexists. split; [done |]. split; [| done]. unfold local_ok. cbn. rewrite Hi.
    split_and!; [done | done | done | done | done].
Qed.

Lemma zip_with_begins bs bs' :
  length bs = length bs' ->
  rb_begin <$> zip_with (fun b b' => {| rb_begin := rb_begin b'; rb_end := rb_end b |}) bs bs'
  = rb_begin <$> bs' /\
  rb_end <$> zip_with (fun b b' => {| rb_begin := rb_begin b'; rb_end := rb_end b |}) bs bs'
  = rb_end <$> bs.
Proof.
  revert bs'. induction bs as [| b bs IH]; intros [| b' bs'] Hlen; try done.
  injection Hlen as Hlen. destruct (IH bs' Hlen) as [IH1 IH2].
  cbn [zip_with]. rewrite !fmap_cons, IH1, IH2. done.
Qed.

Lemma ends_ok_ext p bs bs' : rb_end <$> bs = rb_end <$> bs' -> ends_ok p bs -> ends_ok p bs'.
Proof.
  intros E [H | H]; [left | right; by rewrite <- E].
  apply Forall2_fmap_r with (f := rb_end)
    (P := fun (run : list A) e => e = Z.min (Z.of_nat (length run)) ((Z.of_nat p + 1) * partition_size m)) in H.
  rewrite E in H. by apply Forall2_fmap_r in H.
Qed.

Lemma ends_ok_length p bs : ends_ok p bs -> length bs = length runs.
Proof.
  intros [H | H]; [symmetry; by eapply Forall2_length |].
  apply is_cut_length in H. by rewrite length_fmap in H.
Qed.

Lemma compute_search_ok g l i p prev :
  global_ok g -> partition_idx l = Some i -> (i < P)%nat -> works_on g i p -> (prev <= p)%nat ->
  zero_begins (local_boundaries l) -> ends_ok p (local_boundaries l) ->
  exists l', compute_search m p prev g l = Some l' /\ local_ok g l' /\ partition_idx l' = Some i.
Proof.
  intros Hg Hi HiP Hw Hprev Hz He. pose proof (proj1 Hw) as HpP. unfold compute_search.
  destruct (Nat.ltb_spec 1 prev) as [H1 | H1].
  - destruct (lookup_partition g (prev - 1) Hg ltac:(lia)) as [q Hq].
    pose proof (ok_partitions _ Hg _ q Hq) as [Hb Hq'].
    rewrite Hq. cbn [mbind option_bind]. destruct (begin_computed q) eqn:E.
    + destruct (zip_with_begins (local_boundaries l) (partition_boundaries q)) as [Zb Ze].
      { rewrite (ends_ok_length p), (ends_ok_length (prev - 1)); done. }
      destruct (compute_boundaries_Some p (zip_with
        (fun b b' => {| rb_begin := rb_begin b'; rb_end := rb_end b |})
        (local_boundaries l) (partition_boundaries q)) (keys_before (prev - 1))) as (bs' & -> & Hc).
      * done.
      * by rewrite Zb.
      * unfold keys_before, keys_upto, cut_size. nia.
      * by eapply ends_ok_ext; [symmetry; exact Ze |].
      * eexists. split; [done |]. split; [by eapply local_ok_publish_begin | done].
    + eexists. split; [done |]. split; [| done]. unfold local_ok. cbn. rewrite Hi.
      split_and!; [done | done | lia | done | done].
  - destruct (compute_boundaries_Some p (local_boundaries l) 0) as (bs' & -> & Hc).
    + done.
    + by apply zero_begins_cut.
    + pose proof (keys_before_nonneg p). pose proof (keys_before_upto p). lia.
    + done.
    + eexists. split; [done |]. split; [by eapply local_ok_publish_begin | done].
Qed.

(** A step that only changes boundaries. *)
Definition frame g g' : Prop :=
  next_partition_idx g' = next_partition_idx g /\
  scanned <$> partitions g' = scanned <$> partitions g /\
  total_scanned g' = total_scanned g /\
  destroy_partition_idx g' = destroy_partition_idx g /\
  materialized_partitions g' = materialized_partitions g.

Lemma frame_refl g : frame g g.
Proof. by unfold frame. Qed.

Lemma frame_set_partition g p q0 q :
  partitions g !! p = Some q0 -> scanned q = scanned q0 -> frame g (set_partition p q g).
Proof.
  intros Hq0 E. unfold frame. cbn. split_and!; [done | | done | done | done].
  rewrite list_fmap_insert, E. apply list_insert_id. by rewrite list_lookup_fmap, Hq0.
Qed.

(** What a step that may change the shared state establishes. *)
Definition step_ok g l g' l' : Prop :=
  global_ok g' /\ local_ok g' l' /\ knows_more g g'.

Lemma step_ok_local g l l' : global_ok g -> local_ok g l' -> step_ok g l g l'.
Proof. intros. split_and!; [done | done | apply knows_more_refl]. Qed.

Lemma publish_begin_ok g l i p :
  global_ok g -> partition_idx l = Some i -> (i < P)%nat -> works_on g i p ->
  computed p (local_boundaries l) ->
  exists g' l', publish_begin m p g l = Some (g', l') /\ step_ok g l g' l' /\
    partition_idx l' = Some i /\ frame g g'.
Proof.
  intros Hg Hi HiP Hw Hc. pose proof (proj1 Hw) as HpP. unfold publish_begin.
  assert (forall g', works_on g' i p -> ((S p < P)%nat -> begin_known g' (S p)) ->
    local_ok g' (set_task COMPUTE_BOUNDARIES (at_publish_end p) l)) as Hl.
  { intros g' Hw' Hb. unfold local_ok. cbn. by rewrite Hi. }
  destruct (Nat.eqb_spec p (P - 1)) as [E | E].
  { do 2 eexists. split; [done |]. split; [| by split; [| apply frame_refl]].
    apply step_ok_local; [done |]. apply Hl; [done | lia]. }
  destruct (lookup_partition g (S p) Hg ltac:(lia)) as [q Hq]. rewrite Hq. cbn [mbind option_bind].
  destruct (begin_computed q) eqn:Eb.
  { do 2 eexists. split; [done |]. split; [| by split; [| apply frame_refl]].
    apply step_ok_local; [done |]. apply Hl; [done | by exists q]. }
  destruct (computed_boundaries _ _ Hc) as (-> & Hcb & _).
  pose proof (ends_ok_partition g (S p) q Hg Hq) as He.
  set (q' := {| begin_computed := true |}).
  destruct (zip_with_begins (partition_boundaries q) (local_boundaries l)) as [Zb Ze].
  { rewrite (ends_ok_length (S p)) by done. apply is_cut_length in Hcb.
    by rewrite length_fmap in Hcb. }
  assert (partition_ok (S p) q') as Hq'.
  { split; cbn; [rewrite Zb, keys_before_S; done |]. by eapply ends_ok_ext; [symmetry; exact Ze |]. }
  assert (knows_more g (set_partition (S p) q' g)) as Hk.
  { eapply set_partition_knows; [done | | done]. cbn. by rewrite Ze. }
  do 2 eexists. split; [done |]. split; [split_and! | split_and!].
  - eapply set_partition_ok; [done | done | done | done | done |].
    intros Hsc. cbn. rewrite Ze. by apply (ok_scanned _ Hg).
  - apply Hl; [by destruct Hw as (? & [? | [? ?]]); split; auto; right; split; auto; apply Hk |].
    intros _. exists q'. split; [| done]. by eapply set_partition_lookup.
  - done.
  - done.
  - by eapply frame_set_partition.
Qed.

Lemma publish_end_ok g l i p :
  global_ok g -> partition_idx l = Some i -> (i < P)%nat -> works_on g i p ->
  computed p (local_boundaries l) -> ((S p < P)%nat -> begin_known g (S p)) ->
  exists g' l', publish_end p g l = Some (g', l') /\ step_ok g l g' l' /\
    partition_idx l' = Some i /\ frame g g'.
Proof.
  intros Hg Hi HiP Hw Hc Hb. pose proof (proj1 Hw) as HpP. unfold publish_end.
  destruct (lookup_partition g p Hg HpP) as [q Hq]. rewrite Hq. cbn [mbind option_bind].
  destruct (computed_boundaries _ _ Hc) as (-> & _ & Hce).
  pose proof (ok_partitions _ Hg p q Hq) as [Hqb Hqe].
  set (q' := {| scanned := scanned q |}).
  destruct (zip_with_begins (local_boundaries l) (partition_boundaries q)) as [Zb Ze].
  { rewrite (ends_ok_length p (partition_boundaries q)) by done. apply is_cut_length in Hce.
    by rewrite length_fmap in Hce. }
  assert (partition_boundaries q' = zip_with
    (fun b b' => {| rb_begin := rb_begin b'; rb_end := rb_end b |})
    (local_boundaries l) (partition_boundaries q)) as E.
  { apply (zip_with_flip (fun b b' => {| rb_begin := rb_begin b'; rb_end := rb_end b |})). }
  assert (is_cut (keys_upto p) (rb_end <$> partition_boundaries q')) as Hcut by (by rewrite E, Ze).
  assert (partition_ok p q') as Hq'.
  { split; [| by right]. rewrite E. cbn. unfold zero_begins. rewrite Zb. done. }
  assert (knows_more g (set_partition p q' g)) as Hk by (by eapply set_partition_knows).
  do 2 eexists. split; [done |]. split; [split_and! |].
  - by eapply set_partition_ok.
  - assert (end_known (set_partition p q' g) p) as Hep.
    { exists q'. split; [by eapply set_partition_lookup | done]. }
    rewrite Hi. case_decide as Ei; unfold local_ok; cbn; rewrite Hi.
    + injection Ei as ->. done.
    + destruct Hw as (_ & [-> | [<- Hei]]); [done |]. split; [done |].
      split; [by apply Hk | apply Hk, Hb; lia].
  - done.
  - split; [rewrite Hi; by case_decide | by eapply frame_set_partition].
Qed.

(** A partition whose begin and end are known is ready to be merged. *)
Lemma ready_boundaries g p q :
  global_ok g -> partitions g !! p = Some q -> begin_computed q = true -> end_known g p ->
  exact_boundaries p (partition_boundaries q).
Proof.
  intros Hg Hq Hb (q' & Hq' & He). simplify_eq.
  pose proof (ok_partitions _ Hg p q Hq) as [Hqb _]. rewrite Hb in Hqb. done.
Qed.

Lemma acquire_start_ok g l i :
  global_ok g -> partition_idx l = Some i -> (i < P)%nat -> end_known g i ->
  exists l', acquire_start m i g l = Some l' /\ local_ok g l' /\ partition_idx l' = Some i.
Proof.
  intros Hg Hi HiP He. unfold acquire_start.
  destruct (lookup_partition g i Hg HiP) as [q Hq]. rewrite Hq. cbn [mbind option_bind].
  destruct (begin_computed q) eqn:Eb.
  - eexists. split; [done |]. split; [| done]. unfold local_ok. cbn. rewrite Hi.
    split_and!; [done | done |]. by eapply ready_boundaries.
  - destruct i as [| p].
    + destruct (ok_first _ Hg) as [(q' & Hq' & Hb') | ?]; [congruence | lia].
    + apply compute_start_ok; [done | done | done |]. split; [lia | by right].
Qed.

(** ** Merging the slices of a partition *)

(** The loops without the assertion of [extract_order_by]. *)
Definition keep_key (first : bool) (s : Group) (key : A) : Group * bool :=
  prune_values m first s (key_partition m key) (key_order_by m key).

Fixpoint keep_run (first : bool) (s : Group) (keys : list A) : list A * Z :=
  match keys with
  | [] => ([], 0)
  | key :: keys =>
      let '(s', keep) := keep_key first s key in
      let '(kept, skipped) := keep_run false s' keys in
      if keep then (key :: kept, skipped) else (kept, skipped + 1)
  end.

(** The assertion holds for all keys if they are pruned. *)
Definition keys_asserted (keys : list A) : Prop :=
  do_merge_pruning m = true -> Forall (fun key => key_asserted m key = true) keys.

Lemma keys_asserted_sub keys keys' :
  (forall x, x ∈ keys -> x ∈ keys') -> keys_asserted keys' -> keys_asserted keys.
Proof.
  intros Hin H Hp. specialize (H Hp). rewrite Forall_forall in *. intros x Hx. by apply H, Hin.
Qed.

Lemma prune_key_keep first s key :
  key_asserted m key = true -> prune_key m first s key = Some (keep_key first s key).
Proof. intros H. unfold prune_key. by rewrite H. Qed.

Lemma prune_run_keep first s keys :
  Forall (fun key => key_asserted m key = true) keys ->
  prune_run m first s keys = Some (keep_run first s keys).
Proof.
  intros H. revert first s. induction H as [| key keys Hk _ IH]; intros first s; [done |].
  cbn [prune_run keep_run]. rewrite prune_key_keep by done. cbn [mbind option_bind].
  destruct (keep_key first s key) as [s' keep]. rewrite IH. cbn [mbind option_bind].
  by destruct (keep_run false s' keys), keep.
Qed.

Lemma keep_run_sublist first s keys : fst (keep_run first s keys) `sublist_of` keys.
Proof.
  revert first s. induction keys as [| key keys IH]; intros first s; [done |].
  cbn [keep_run]. destruct (keep_key first s key) as [s' keep].
  specialize (IH false s'). destruct (keep_run false s' keys) as [kept n].
  destruct keep; cbn [fst] in *; by constructor.
Qed.

Lemma keep_run_count first s keys :
  Z.of_nat (length (fst (keep_run first s keys))) + snd (keep_run first s keys)
  = Z.of_nat (length keys).
Proof.
  revert first s. induction keys as [| key keys IH]; intros first s; [done |].
  cbn [keep_run]. destruct (keep_key first s key) as [s' keep].
  specialize (IH false s'). destruct (keep_run false s' keys) as [kept n].
  destruct keep; cbn [fst snd length] in *; lia.
Qed.

(** The keys of a slice that the merge reads, and the number of the others. *)
Definition read_slice (keys : list A) : list A * Z :=
  if do_merge_pruning m then keep_run true Group_0 keys else (keys, 0).

Lemma read_slice_sublist keys : fst (read_slice keys) `sublist_of` keys.
Proof. unfold read_slice. destruct (do_merge_pruning m); [apply keep_run_sublist | done]. Qed.

Lemma read_slice_count keys :
  Z.of_nat (length (fst (read_slice keys))) + snd (read_slice keys) = Z.of_nat (length keys).
Proof. unfold read_slice. destruct (do_merge_pruning m); [apply keep_run_count | cbn; lia]. Qed.

Lemma read_slice_nil : read_slice [] = ([], 0).
Proof. unfold read_slice. by destruct (do_merge_pruning m). Qed.

Definition slices (rs : list (list A)) (bs : list SortedRunPartitionBoundary) : list (list A) :=
  zip_with run_slice rs bs.

Definition active (rs : list (list A)) (bs : list SortedRunPartitionBoundary) : Z :=
  zsum (fun rb => Z.b2z (negb (rb_begin (snd rb) =? rb_end (snd rb)))) (zip rs bs).

Lemma merge_run_eq keys skipped n run b :
  keys_asserted (run_slice run b) ->
  merge_run m (keys, skipped, n) (run, b) =
  Some (keys ++ fst (read_slice (run_slice run b)), skipped + snd (read_slice (run_slice run b)),
   n + Z.b2z (negb (rb_begin b =? rb_end b))).
Proof.
  intros Hk. unfold merge_run. destruct (Z.eqb_spec (rb_begin b) (rb_end b)) as [E | E]; cbn [negb Z.b2z].
  - assert (run_slice run b = []) as ->.
    { unfold run_slice. by replace (Z.to_nat (rb_end b - rb_begin b)) with 0%nat by lia. }
    rewrite read_slice_nil. cbn [fst snd]. by rewrite app_nil_r, !Z.add_0_r.
  - assert ((if do_merge_pruning m then prune_run m true Group_0 (run_slice run b)
             else Some (run_slice run b, 0)) = Some (read_slice (run_slice run b))) as ->.
    { unfold read_slice. destruct (do_merge_pruning m) eqn:Ep; [by apply prune_run_keep, Hk | done]. }
    cbn [mbind option_bind]. by destruct (read_slice (run_slice run b)).
Qed.

Lemma ofold_merge_run rs bs keys skipped n :
  Forall keys_asserted rs ->
  ofold (merge_run m) (keys, skipped, n) (zip rs bs) =
  Some (keys ++ mjoin ((fun s => fst (read_slice s)) <$> slices rs bs),
   skipped + zsum (fun s => snd (read_slice s)) (slices rs bs), n + active rs bs).
Proof.
  intros Hrs. revert bs keys skipped n. induction Hrs as [| run rs Hrun _ IH]; intros [| b bs] keys skipped n;
    try (cbn; by rewrite app_nil_r, !Z.add_0_r).
  unfold slices, active in *. cbn [zip_with]. rewrite ofold_cons, merge_run_eq; cycle 1.
  { eapply keys_asserted_sub; [| exact Hrun]. intros x Hx.
    eapply elem_of_submseteq; [exact Hx |]. apply sublist_submseteq. unfold run_slice.
    etransitivity; [apply sublist_take | apply sublist_drop]. }
  cbn [mbind option_bind]. rewrite IH.
  rewrite fmap_cons, !zsum_cons. cbn [mjoin list_join snd fst].
  by rewrite app_assoc, !Z.add_assoc.
Qed.

(** ** The slices of all partitions *)

Lemma length_run_slice (run : list A) b :
  0 <= rb_begin b <= rb_end b -> rb_end b <= Z.of_nat (length run) ->
  Z.of_nat (length (run_slice run b)) = rb_end b - rb_begin b.
Proof. intros. unfold run_slice. rewrite length_take, length_drop. lia. Qed.

(** The boundaries of a partition are ordered positions of the runs. *)
Lemma exact_well_formed p bs : exact_boundaries p bs -> well_formed runs bs.
Proof.
  intros [Hb He]. pose proof (is_cut_length _ _ _ _ Hb) as Hlen. rewrite length_fmap in Hlen.
  apply Forall2_same_length_lookup. split; [done |]. intros j run b Hrun Hj.
  assert ((rb_begin <$> bs) !! j = Some (rb_begin b)) as Hjb by (by rewrite list_lookup_fmap, Hj).
  assert ((rb_end <$> bs) !! j = Some (rb_end b)) as Hje by (by rewrite list_lookup_fmap, Hj).
  destruct (is_cut_lookup _ _ _ _ _ _ Hb Hjb) as (r1 & Hr1 & ?).
  destruct (is_cut_lookup _ _ _ _ _ _ He Hje) as (r2 & Hr2 & ?). simplify_eq.
  pose proof (is_cut_mono _ _ _ _ _ _ _ _ _ Hb He (keys_before_upto p) Hjb Hje). lia.
Qed.

Lemma length_slices rs bs :
  Forall2 (fun run b => 0 <= rb_begin b <= rb_end b /\ rb_end b <= Z.of_nat (length run)) rs bs ->
  zsum (fun s => Z.of_nat (length s)) (slices rs bs) = zsum rb_end bs - zsum rb_begin bs.
Proof.
  induction 1 as [| run b rs bs Hb _ IH]; [done |]. unfold slices in *. cbn [zip_with].
  rewrite !zsum_cons, IH, length_run_slice by lia. lia.
Qed.

(** The keys that the merge of a partition reads. *)
Definition read_keys (bs : list SortedRunPartitionBoundary) : list A :=
  mjoin ((fun s => fst (read_slice s)) <$> slices runs bs).

Lemma read_keys_bound p bs :
  exact_boundaries p bs ->
  Z.of_nat (length (read_keys bs)) + zsum (fun s => snd (read_slice s)) (slices runs bs) =
    keys_upto p - keys_before p /\
  Z.of_nat (length (read_keys bs)) <= partition_size m.
Proof.
  intros Hx. pose proof (exact_well_formed p bs Hx) as Hwf.
  destruct Hx as [(_ & Hb & _) (_ & He & _)]. rewrite zsum_fmap in Hb, He.
  assert (forall k, Z.of_nat (length (mjoin ((fun s : list A => fst (read_slice s)) <$> k))) +
    zsum (fun s => snd (read_slice s)) k = zsum (fun s => Z.of_nat (length s)) k) as Hcount.
  { induction k as [| s k IH]; [done |]. rewrite fmap_cons, !zsum_cons. rewrite mjoin_cons.
    rewrite length_app. cbn beta. pose proof (read_slice_count s). lia. }
  specialize (Hcount (slices runs bs)). rewrite length_slices in Hcount by done.
  fold (read_keys bs) in Hcount.
  assert (0 <= zsum (fun s : list A => snd (read_slice s)) (slices runs bs)) as Hpos.
  { apply zsum_nonneg. intros s _. pose proof (read_slice_count s).
    pose proof (sublist_length _ _ (read_slice_sublist s)). lia. }
  change (zsum rb_begin bs = keys_before p) in Hb. change (zsum rb_end bs = keys_upto p) in He.
  split; [lia |].
  assert (keys_upto p - keys_before p <= partition_size m); [| lia].
  unfold keys_before, keys_upto, cut_size. rewrite Z.sub_add, Z.mul_add_distr_r. lia.
Qed.

Lemma read_keys_elem bs x : x ∈ read_keys bs -> x ∈ mjoin runs.
Proof.
  unfold read_keys. intros (k & Hx & (sl & -> & Hsl)%list_elem_of_fmap)%list_elem_of_join.
  apply elem_of_lookup_zip_with in Hsl as (j & run & b & -> & Hrun & _).
  apply list_elem_of_join. exists run. split; [| by eapply list_elem_of_lookup_2].
  eapply elem_of_submseteq; [exact Hx |]. apply sublist_submseteq.
  etransitivity; [apply read_slice_sublist |]. unfold run_slice.
  etransitivity; [apply sublist_take | apply sublist_drop].
Qed.

(** A slice of one run is sorted. *)
Lemma read_slice_sorted run b :
  run ∈ runs -> StronglySorted le (fst (read_slice (run_slice run b))).
Proof.
  intros Hrun. rewrite Forall_forall in Hruns. specialize (Hruns run Hrun).
  eapply StronglySorted_sublist; [| exact Hruns].
  etransitivity; [apply read_slice_sublist |]. unfold run_slice.
  etransitivity; [apply sublist_take | apply sublist_drop].
Qed.

(** If only one run is active the keys that are read are sorted already. *)
Lemma read_keys_one_run rs bs :
  (forall run, run ∈ rs -> run ∈ runs) ->
  active rs bs <= 1 ->
  StronglySorted le (mjoin ((fun s => fst (read_slice s)) <$> slices rs bs)).
Proof.
  revert bs. induction rs as [| run rs IH]; intros [| b bs] Hin Ha; try constructor.
  unfold slices, active in *. cbn [zip_with] in *. rewrite fmap_cons. rewrite zsum_cons in Ha.
  rewrite mjoin_cons. cbn [snd] in *.
  assert (forall rs bs, 0 <= zsum (fun rb : list A * SortedRunPartitionBoundary =>
    Z.b2z (negb (rb_begin (snd rb) =? rb_end (snd rb)))) (zip rs bs)) as Hnn.
  { intros. apply zsum_nonneg. intros [? x] _. cbn. destruct (rb_begin x =? rb_end x); cbn; lia. }
  pose proof (Hnn rs bs). destruct (Z.eqb_spec (rb_begin b) (rb_end b)) as [E | E]; cbn in Ha.
  - assert (run_slice run b = []) as ->.
    { unfold run_slice. by replace (Z.to_nat (rb_end b - rb_begin b)) with 0%nat by lia. }
    rewrite read_slice_nil. cbn [fst app]. apply IH; [| lia]. intros. apply Hin. by right.
  - assert (mjoin ((fun s => fst (read_slice s)) <$> zip_with run_slice rs bs) = []) as ->.
    { clear IH Hin. assert (zsum (fun rb : list A * SortedRunPartitionBoundary =>
        Z.b2z (negb (rb_begin (snd rb) =? rb_end (snd rb)))) (zip rs bs) <= 0) as H0 by lia.
      clear Ha H. revert bs H0. induction rs as [| r rs IH]; intros [| c bs] H0; try done.
      cbn [zip_with] in *. rewrite zsum_cons in H0. cbn [snd] in H0. pose proof (Hnn rs bs).
      destruct (Z.eqb_spec (rb_begin c) (rb_end c)) as [Ec | Ec]; cbn in H0; [| lia].
      rewrite fmap_cons, mjoin_cons, IH by lia.
      assert (run_slice r c = []) as ->.
      { unfold run_slice. by replace (Z.to_nat (rb_end c - rb_begin c)) with 0%nat by lia. }
      by rewrite read_slice_nil. }
    rewrite app_nil_r. apply read_slice_sorted, Hin. by left.
Qed.

(** What is used of the library's sort. *)
Context (Hvergesort : forall keys, vergesort m keys ≡ₚ keys /\ StronglySorted le (vergesort m keys)).

(** The assertion about the columns that are read for pruning. *)
Context (Hasserted : keys_asserted (mjoin runs)).

Lemma runs_asserted : Forall keys_asserted runs.
Proof.
  apply Forall_forall. intros run Hrun. eapply keys_asserted_sub; [| exact Hasserted].
  intros x Hx. apply list_elem_of_join. by exists run.
Qed.

(** Merging a partition fits the allocation, and gives the keys that it reads
    from the runs, sorted; the others are counted. *)
Lemma TemplatedMergePartition_Some p bs :
  exact_boundaries p bs ->
  exists keys skipped, TemplatedMergePartition m bs = Some (keys, skipped) /\
    keys ≡ₚ read_keys bs /\ (is_index_sort m = false -> StronglySorted le keys) /\
    Z.of_nat (length keys) + skipped = keys_upto p - keys_before p.
Proof.
  intros Hx. destruct (read_keys_bound p bs Hx) as [Hcount Hfit].
  unfold TemplatedMergePartition. rewrite ofold_merge_run, app_nil_l, !Z.add_0_l by apply runs_asserted.
  cbn [mbind option_bind].
  fold (read_keys bs). rewrite (proj2 (Z.leb_le _ _)) by done. do 2 eexists. split; [done |].
  destruct (Hvergesort (read_keys bs)) as [Hperm Hsort].
  destruct (Z.eqb_spec (active runs bs) 1) as [E | E]; cbn [orb].
  - split_and!; [done | | done]. intros _. apply read_keys_one_run; [done | lia].
  - destruct (is_index_sort m); [split_and!; [done | done | done] |].
    split_and!; [done | done |]. by rewrite Hperm.
Qed.

(** ** Scanning a partition *)

(** The keys that the scan of a merged partition returns. *)
Definition final_keys (keys : list A) : list A :=
  if do_merge_pruning m then fst (keep_run true Group_0 keys) else keys.

(** The keys that a scan still has to return. *)
Definition rest_keys (l : LocalState (A := A)) : list A :=
  let rest := drop (Z.to_nat (merged_partition_index l)) (merged_partition l) in
  if do_merge_pruning m then fst (keep_run (merged_partition_index l =? 0) (group l) rest)
  else rest.

Lemma keep_run_first s s' keys : keep_run true s keys = keep_run true s' keys.
Proof. by destruct keys. Qed.

Lemma scan_loop_spec first s count keys chunk n s' :
  scan_loop m first s count keys = Some (chunk, n, s') ->
  fst (keep_run first s keys) =
    chunk ++ fst (keep_run (first && (n =? 0)) s' (drop (Z.to_nat n) keys)) /\
  0 <= n <= Z.of_nat (length keys) /\
  count + Z.of_nat (length chunk) <= Z.max count STANDARD_VECTOR_SIZE /\
  (chunk = [] -> count < STANDARD_VECTOR_SIZE -> n = Z.of_nat (length keys)) /\
  (n = 0 -> chunk = [] /\ s' = s).
Proof.
  revert first s count chunk n s'. induction keys as [| key keys IH];
    intros first s count chunk n s' E; cbn [scan_loop] in E.
  - injection E as <- <- <-. cbn. split_and!; done || lia.
  - destruct (Z.ltb_spec count STANDARD_VECTOR_SIZE) as [Hc | Hc]; cycle 1.
    { injection E as <- <- <-. rewrite andb_true_r. cbn [length]. split_and!; done || lia. }
    cbn [keep_run]. destruct (key_asserted m key) eqn:Ea; [| unfold prune_key in E; by rewrite Ea in E].
    rewrite prune_key_keep in E by done. cbn [mbind option_bind] in E.
    destruct (keep_key first s key) as [s1 keep] eqn:Ek.
    destruct (scan_loop m false s1 _ keys) as [[[chunk1 i] s2] |] eqn:El; [| done].
    cbn [mbind option_bind] in E.
    apply IH in El as (IH1 & IH2 & IH3 & IH4 & IH5). injection E as <- <- <-.
    destruct (keep_run false s1 keys) as [kept k] eqn:Ep. cbn [fst] in IH1.
    assert (drop (Z.to_nat (i + 1)) (key :: keys) = drop (Z.to_nat i) keys) as ->
      by (by replace (Z.to_nat (i + 1)) with (S (Z.to_nat i)) by lia).
    rewrite (proj2 (Z.eqb_neq (i + 1) 0)), andb_false_r by lia. cbn [andb] in IH1.
    destruct keep; cbn [fst length]; subst kept; split_and!; try done; lia || intros; try lia.
    specialize (IH4 ltac:(done) ltac:(done)). lia.
Qed.

Lemma scan_loop_Some first s count keys :
  Forall (fun key => key_asserted m key = true) keys -> is_Some (scan_loop m first s count keys).
Proof.
  intros H. revert first s count. induction H as [| key keys Hk _ IH]; intros first s count; [by eexists |].
  cbn [scan_loop]. destruct (count <? STANDARD_VECTOR_SIZE); [| by eexists].
  rewrite prune_key_keep by done. cbn [mbind option_bind]. destruct (keep_key first s key) as [s1 keep].
  destruct (IH false s1 (if keep then count + 1 else count)) as [[[chunk i] s2] ->].
  cbn [mbind option_bind]. by eexists.
Qed.

Lemma TemplatedScanPartition_Some l :
  keys_asserted (merged_partition l) -> exists chunk l', TemplatedScanPartition m l = Some (chunk, l').
Proof.
  intros Hk. unfold TemplatedScanPartition. destruct (do_merge_pruning m) eqn:Ed; [| by do 2 eexists].
  destruct (scan_loop_Some (merged_partition_index l =? 0) (group l) 0
    (drop (Z.to_nat (merged_partition_index l)) (merged_partition l))) as [[[chunk n] s] ->].
  - by apply Forall_drop, Hk.
  - by do 2 eexists.
Qed.

Lemma TemplatedScanPartition_spec l chunk l' :
  TemplatedScanPartition m l = Some (chunk, l') ->
  0 <= merged_partition_index l <= Z.of_nat (length (merged_partition l)) ->
  rest_keys l = chunk ++ rest_keys l' /\
  (chunk = [] -> rest_keys l = []) /\
  merged_partition_index l <= merged_partition_index l' <= Z.of_nat (length (merged_partition l)) /\
  (chunk <> [] -> merged_partition_index l < merged_partition_index l') /\
  Z.of_nat (length chunk) <= STANDARD_VECTOR_SIZE /\
  merged_partition l' = merged_partition l /\ partition_idx l' = partition_idx l /\
  task l' = task l /\ point l' = point l /\ skipped_tuples l' = skipped_tuples l /\
  local_boundaries l' = local_boundaries l.
Proof.
  intros E Hi. unfold TemplatedScanPartition in E. unfold rest_keys.
  set (idx := merged_partition_index l) in *. set (keys := merged_partition l) in *.
  destruct (do_merge_pruning m) eqn:Ed.
  - destruct (scan_loop m (idx =? 0) (group l) 0 (drop (Z.to_nat idx) keys)) as [[[c n] s] |] eqn:El; [| done].
    cbn [mbind option_bind] in E. injection E as <- <-. cbn. apply scan_loop_spec in El as (E1 & E2 & E3 & E4 & E5).
    rewrite length_drop in *.
    assert (Z.of_nat (length keys - Z.to_nat idx) = Z.of_nat (length keys) - idx) as El by lia.
    rewrite drop_drop in E1.
    replace (Z.to_nat idx + Z.to_nat n)%nat with (Z.to_nat (idx + n)) in E1 by lia.
    replace (idx + n =? 0) with ((idx =? 0) && (n =? 0))
      by (destruct (Z.eqb_spec idx 0), (Z.eqb_spec n 0), (Z.eqb_spec (idx + n) 0); cbn; lia || done).
    split_and!; try done; try lia.
    + intros ->. rewrite E1. specialize (E4 eq_refl ltac:(done)).
      rewrite drop_ge by lia. done.
    + intros Hc. destruct (decide (n = 0)) as [Hn |]; [by destruct (E5 Hn) | lia].
  - injection E as <- <-. cbn. rewrite length_take, length_drop.
    set (k := Z.to_nat STANDARD_VECTOR_SIZE).
    assert (k = 2048%nat) as Hk by done. split_and!; try done; try lia.
    + replace (Z.to_nat (idx + _)) with (Z.to_nat idx + Nat.min k (length keys - Z.to_nat idx))%nat by lia.
      rewrite <- drop_drop. set (rest := drop (Z.to_nat idx) keys).
      assert (length rest = (length keys - Z.to_nat idx)%nat) as <- by (apply length_drop).
      destruct (decide (k <= length rest)%nat).
      * rewrite Nat.min_l by done. by rewrite take_drop.
      * rewrite Nat.min_r, take_ge, drop_ge by lia. by rewrite app_nil_r.
    + intros Hc. apply (f_equal length) in Hc. rewrite length_take, length_drop in Hc. cbn in Hc.
      apply drop_ge. lia.
    + intros Hc. destruct (decide (length keys - Z.to_nat idx = 0)%nat) as [E0 |]; [| lia].
      destruct Hc. by rewrite drop_ge, take_nil by lia.
Qed.

(** ** Destroying *)

(** Every run is destroyed up to the end of a partition [e] such that this
    partition and all partitions before it are scanned. *)
Definition destroyed_ok g (ranges : list (Z * Z)) : Prop :=
  ranges = [] \/
  exists e, (e < P)%nat /\ is_cut (keys_upto e) (snd <$> ranges) /\
    forall p q, (p <= e)%nat -> partitions g !! p = Some q -> scanned q = true.

Lemma scanned_prefix_length ps : (scanned_prefix ps <= length ps)%nat.
Proof. induction ps as [| q ps IH]; [done |]. cbn. destruct (scanned q); lia. Qed.

Lemma scanned_prefix_lookup ps p q :
  (p < scanned_prefix ps)%nat -> ps !! p = Some q -> scanned q = true.
Proof.
  revert p. induction ps as [| q0 ps IH]; intros p Hp Hq; [done |]. cbn in Hp.
  destruct (scanned q0) eqn:E; [| lia].
  destruct p as [| p]; cbn in Hq; [by simplify_eq |]. apply (IH p); [lia | done].
Qed.

Lemma zip_snd {B C} (l : list B) (k : list C) : length l = length k -> (zip l k).*2 = k.
Proof. intros. apply snd_zip. lia. Qed.

Context (Hthreads : (1 <= num_threads m)%nat).

Lemma DestroyScannedData_ok owns g :
  global_ok g ->
  exists g' ranges, DestroyScannedData m owns g = Some (g', ranges) /\ destroyed_ok g ranges /\
    global_ok g' /\ knows_more g g' /\
    partitions g' = partitions g /\ next_partition_idx g' = next_partition_idx g /\
    total_scanned g' = total_scanned g /\
    materialized_partitions g' = materialized_partitions g.
Proof.
  intros Hg. unfold DestroyScannedData. set (d := destroy_partition_idx g).
  set (e := (d + scanned_prefix (drop d (partitions g)))%nat).
  assert (exists g' ranges, Some (g, @nil (Z * Z)) = Some (g', ranges) /\ destroyed_ok g ranges /\
    global_ok g' /\ knows_more g g' /\
    partitions g' = partitions g /\ next_partition_idx g' = next_partition_idx g /\
    total_scanned g' = total_scanned g /\
    materialized_partitions g' = materialized_partitions g) as Hnone.
  { exists g, []. split_and!; try done. by left. }
  destruct (negb (external m) || negb owns || _ || _) eqn:E; [exact Hnone |].
  apply orb_false_iff in E as [E Hde%Nat.leb_gt]. apply orb_false_iff in E as [_ He%Nat.ltb_ge].
  destruct (_ / TuplesPerBlock m =? 0); [exact Hnone |]. clear Hnone.
  pose proof (scanned_prefix_length (drop d (partitions g))) as Hpre.
  rewrite length_drop, (ok_length _ Hg) in Hpre. set (e' := (e - num_threads m)%nat) in *.
  assert (e' < P)%nat as He' by lia. rewrite (proj2 (Nat.eqb_neq e' P)) by lia.
  assert (forall p q, (p < e)%nat -> partitions g !! p = Some q -> scanned q = true) as Hsc.
  { intros p q Hp Hq. destruct (decide (p < d)%nat); [by eapply (ok_destroyed _ Hg) |].
    apply (scanned_prefix_lookup (drop d (partitions g)) (p - d)); [lia |].
    rewrite lookup_drop. by replace (d + (p - d))%nat with p by lia. }
  destruct (lookup_partition g e' Hg He') as [qe Hqe].
  pose proof (ok_scanned _ Hg e' qe Hqe (Hsc e' qe ltac:(lia) Hqe)) as Hcut.
  pose proof (is_cut_length _ _ _ _ Hcut) as Hlen.
  assert (exists begins, (if (d =? 0)%nat then Some ((fun _ => 0) <$> runs) else partition_ends g d)
    = Some begins /\ length begins = length runs) as (begins & -> & Hbegins).
  { destruct (Nat.eqb_spec d 0); [eexists; split; [done | by rewrite length_fmap] |].
    unfold partition_ends. destruct (lookup_partition g d Hg ltac:(lia)) as [qd Hqd].
    rewrite Hqd. eexists. split; [done |]. rewrite length_fmap.
    eapply ends_ok_length, ends_ok_partition; done. }
  unfold partition_ends. rewrite Hqe. cbn [mbind option_bind].
  do 2 eexists. split; [done |]. split_and!; try done.
  - right. exists e'. split_and!; [done | rewrite zip_snd; [done | lia] |].
    intros p q Hp. apply Hsc. lia.
  - destruct Hg. split; cbn; try done. intros p q Hp. apply Hsc. lia.
Qed.

(** ** The steps of a thread *)

Definition merged (l : LocalState (A := A)) (i : nat) : Prop :=
  exists bs, exact_boundaries i bs /\
    TemplatedMergePartition m bs = Some (merged_partition l, skipped_tuples l).

(** What a step of a thread may do. *)
Inductive step_kind (mat : bool) g l g' l' : Event (A := A) -> Prop :=
  | kind_idle :
      g' = g -> l' = l -> partition_idx l = None -> next_partition_idx g = P ->
      step_kind mat g l g' l' ev_idle
  | kind_assign :
      partition_idx l = None -> partition_idx l' = Some (next_partition_idx g) ->
      task l' <> SCAN_PARTITION -> (next_partition_idx g < P)%nat ->
      next_partition_idx g' = S (next_partition_idx g) -> partitions g' = partitions g ->
      total_scanned g' = total_scanned g ->
      materialized_partitions g' = materialized_partitions g ->
      step_kind mat g l g' l' ev_none
  | kind_internal i :
      partition_idx l = Some i -> partition_idx l' = Some i ->
      task l <> SCAN_PARTITION -> task l' <> SCAN_PARTITION -> frame g g' ->
      step_kind mat g l g' l' ev_none
  | kind_merge i :
      partition_idx l = Some i -> partition_idx l' = Some i ->
      task l = MERGE_PARTITION -> point l = at_start ->
      task l' = SCAN_PARTITION -> point l' = at_start -> g' = g ->
      merged l' i -> merged_partition_index l' = 0 ->
      step_kind mat g l g' l' ev_none
  | kind_chunk i chunk :
      partition_idx l = Some i -> task l = SCAN_PARTITION -> g' = g -> mat = false ->
      TemplatedScanPartition m l = Some (chunk, l') -> chunk <> [] ->
      step_kind mat g l g' l' (ev_chunk i chunk)
  | kind_done i ranges :
      partition_idx l = Some i -> partition_idx l' = None -> task l = SCAN_PARTITION ->
      (mat = false -> exists l1, TemplatedScanPartition m l = Some ([], l1)) ->
      next_partition_idx g' = next_partition_idx g ->
      scanned <$> partitions g' = <[i := true]> (scanned <$> partitions g) ->
      total_scanned g' =
        total_scanned g + (Z.of_nat (length (merged_partition l)) + skipped_tuples l) ->
      materialized_partitions g' =
        materialized_partitions (if mat then fst (MaterializePartition i g l) else g) ->
      destroyed_ok g ranges ->
      step_kind mat g l g' l' (ev_done i
        (if total_scanned g =? merger_total_count m then SOURCE_FINISHED else HAVE_MORE_OUTPUT)
        ranges).

Lemma finish_partition_ok owns i g l :
  global_ok g -> (i < P)%nat -> end_known g i ->
  exists g' l' ranges,
    finish_partition m owns i g l = Some (g', l', ev_done i
      (if total_scanned g =? merger_total_count m then SOURCE_FINISHED else HAVE_MORE_OUTPUT)
      ranges) /\
    step_ok g l g' l' /\ destroyed_ok g ranges /\
    partition_idx l' = None /\ next_partition_idx g' = next_partition_idx g /\
    scanned <$> partitions g' = <[i := true]> (scanned <$> partitions g) /\
    total_scanned g' =
      total_scanned g + (Z.of_nat (length (merged_partition l)) + skipped_tuples l) /\
    materialized_partitions g' = materialized_partitions g.
Proof.
  intros Hg Hi (qe & Hqe & Hcut). unfold finish_partition.
  destruct (DestroyScannedData_ok owns g Hg) as
    (g1 & ranges & -> & Hr & Hg1 & Hk1 & Hp1 & Hn1 & Ht1 & Hm1).
  cbn [mbind option_bind]. rewrite Hp1, Hqe. cbn [mbind option_bind].
  set (q := {| scanned := true |}).
  assert (global_ok (set_partition i q g1)) as Hg2.
  { eapply set_partition_ok; [done | by rewrite Hp1 | | done | done | done].
    by apply (ok_partitions _ Hg i qe). }
  assert (knows_more g1 (set_partition i q g1)) as Hk2
    by (eapply set_partition_knows; [by rewrite Hp1 | done | done]).
  do 3 eexists. split; [cbn; rewrite Ht1; done |]. split; [split_and! |].
  - destruct Hg2. split; done.
  - done.
  - destruct Hk1 as [K1 K1'], Hk2 as [K2 K2'].
    split; intros p Hp; [apply K2, K1, Hp | apply K2', K1', Hp].
  - split_and!; cbn; rewrite ?Hn1, ?Ht1, ?Hm1, ?Hp1; try done. by rewrite list_fmap_insert.
Qed.

Lemma TemplatedScanPartition_local g l chunk l' :
  TemplatedScanPartition m l = Some (chunk, l') -> local_ok g l -> local_ok g l'.
Proof.
  unfold TemplatedScanPartition, local_ok. destruct (if do_merge_pruning m then _ else _) as [[[c n] s] |]; [| done].
  cbn [mbind option_bind]. intros [= <- <-]. done.
Qed.

(** A scan needs a position in the merged partition, and keys of two columns. *)
Definition scan_ok l : Prop :=
  task l = SCAN_PARTITION ->
  0 <= merged_partition_index l <= Z.of_nat (length (merged_partition l)) /\
  keys_asserted (merged_partition l).

Lemma scan_partition_ok mat owns i g l :
  global_ok g -> local_ok g l -> partition_idx l = Some i -> task l = SCAN_PARTITION ->
  end_known g i -> (i < P)%nat -> scan_ok l ->
  exists g' l' e, scan_partition m mat owns i g l = Some (g', l', e) /\
    step_ok g l g' l' /\ step_kind mat g l g' l' e.
Proof.
  intros Hg Hl Hi Ht He HiP Hscan. destruct (Hscan Ht) as [Hidx Hkeys]. unfold scan_partition. destruct mat.
  - destruct (MaterializePartition i g l) as [g1 l1] eqn:E.
    assert (global_ok g1 /\ end_known g1 i /\ next_partition_idx g1 = next_partition_idx g /\
      partitions g1 = partitions g /\ total_scanned g1 = total_scanned g) as
      (Hg1 & He1 & Hn1 & Hp1 & Ht1).
    { unfold MaterializePartition in E. injection E as <- <-. split; [by destruct Hg |]. done. }
    assert (merged_partition l1 = merged_partition l /\ skipped_tuples l1 = skipped_tuples l) as
      (Hm & Hs) by (unfold MaterializePartition in E; by injection E as <- <-).
    destruct (finish_partition_ok owns i g1 l1) as
      (g' & l' & ranges & Hf & (Hg' & Hl' & Hk) & Hr & Hpi & Hn' & Hsc & Htot & Hmat); [done..|].
    rewrite Hf, Ht1. do 3 eexists. split; [done |]. split.
    + split_and!; [done | done |]. destruct Hk as [K1 K2].
      split; intros p Hp; [apply K1 | apply K2]; unfold end_known, begin_known in *; by rewrite Hp1.
    + apply kind_done; rewrite ?E; try done; try congruence.
      unfold destroyed_ok in *. by rewrite <- Hp1.
  - destruct (TemplatedScanPartition_Some l Hkeys) as (chunk & l1 & E). rewrite E. cbn [mbind option_bind].
    pose proof (TemplatedScanPartition_spec _ _ _ E Hidx) as
      (_ & _ & _ & _ & _ & Hm & Hpi & Htask & _ & Hs & _).
    destruct (Nat.eqb_spec (length chunk) 0) as [E0 | E0].
    + destruct (finish_partition_ok owns i g l1) as
        (g' & l' & ranges & -> & Hok & Hr & Hpi' & Hn' & Hsc & Htot & Hmat); [done..|].
      do 3 eexists. split; [done |]. split; [done |].
      apply kind_done; try done; try congruence. intros _. exists l1. by destruct chunk.
    + do 3 eexists. split; [done |]. split.
      * apply step_ok_local; [done |]. by eapply TemplatedScanPartition_local.
      * apply kind_chunk; try done. by destruct chunk.
Qed.

Lemma merge_partition_ok g l i :
  partition_idx l = Some i -> (i < P)%nat -> end_known g i ->
  exact_boundaries i (local_boundaries l) ->
  exists l', merge_partition m l = Some l' /\ local_ok g l' /\ partition_idx l' = Some i /\
    task l' = SCAN_PARTITION /\ point l' = at_start /\ merged l' i /\ merged_partition_index l' = 0.
Proof.
  intros Hi HiP He Hx. destruct (TemplatedMergePartition_Some i _ Hx) as (keys & sk & E & _).
  unfold merge_partition. rewrite E. cbn [mbind option_bind]. eexists. split; [done |].
  split_and!; try done.
  - unfold local_ok. cbn. by rewrite Hi.
  - by exists (local_boundaries l).
Qed.

Lemma AssignTask_ok mat g l :
  global_ok g -> partition_idx l = None -> task l = FINISHED -> local_ok g l ->
  exists b g' l', AssignTask m g l = Some (b, g', l') /\ step_ok g l g' l' /\
    step_kind mat g l g' l' (if b then ev_none else ev_idle).
Proof.
  intros Hg Hi Ht Hl. unfold AssignTask. rewrite Hi, Ht.
  destruct (Nat.eqb_spec (next_partition_idx g) P) as [E | E].
  - do 3 eexists. split; [done |]. split; [by apply step_ok_local | by apply kind_idle].
  - pose proof (ok_next _ Hg). do 3 eexists. split; [done |]. split.
    + split_and!; [| split; [cbn; lia | done] | by split].
      destruct Hg. split; try done. cbn. lia.
    + apply kind_assign; try done. lia.
Qed.

(** Before the merge the steps stay before the scan. *)
Lemma compute_start_task p g l l' : compute_start m p g l = Some l' -> task l' <> SCAN_PARTITION.
Proof. unfold compute_start. intros E. by opt_inv E. Qed.

Lemma compute_search_task p prev g l l' :
  compute_search m p prev g l = Some l' -> task l' <> SCAN_PARTITION.
Proof. unfold compute_search. intros E. by opt_inv E. Qed.

Lemma publish_begin_task p g l g' l' :
  publish_begin m p g l = Some (g', l') -> task l' <> SCAN_PARTITION.
Proof. unfold publish_begin. intros E. by opt_inv E. Qed.

Lemma publish_end_task p g l g' l' :
  publish_end p g l = Some (g', l') -> task l' <> SCAN_PARTITION.
Proof.
  unfold publish_end. destruct (decide (partition_idx l = Some p)); intros E; by opt_inv E.
Qed.

Lemma acquire_start_task p g l l' : acquire_start m p g l = Some l' -> task l' <> SCAN_PARTITION.
Proof.
  unfold acquire_start. destruct (partitions g !! p) as [q |]; [cbn | done].
  destruct (begin_computed q); [intros [= <-]; done |].
  destruct p; [done | apply compute_start_task].
Qed.

(** No step of a thread fails. *)
Lemma thread_step_ok mat owns g l :
  global_ok g -> local_ok g l -> scan_ok l ->
  exists g' l' e, thread_step m mat owns g l = Some (g', l', e) /\
    step_ok g l g' l' /\ step_kind mat g l g' l' e.
Proof.
  intros Hg Hl Hscan. pose proof Hl as Hl0. unfold local_ok in Hl.
  unfold thread_step, TaskFinished.
  destruct (partition_idx l) as [i |] eqn:Hi.
  - destruct Hl as [HiP Hl].
    assert (forall l', local_ok g l' -> partition_idx l' = Some i -> task l <> SCAN_PARTITION ->
      task l' <> SCAN_PARTITION ->
      step_ok g l g l' /\ step_kind mat g l g l' ev_none) as Hlocal.
    { intros l' Hl' Hi' Ht Ht'. split; [by apply step_ok_local |].
      eapply kind_internal; [done | done | done | done | apply frame_refl]. }
    destruct (task l) eqn:Ht, (point l) as [| p prev | p | p |] eqn:Hp; try done;
      cbn [mbind option_bind]; unfold ExecuteTask; rewrite Ht, Hp, Hi.
    + destruct (compute_start_ok g l i i) as (l' & E & Hl' & Hi'); [done..| by split; [| left] |].
      rewrite E. cbn [mbind option_bind]. do 3 eexists. split; [done |].
      apply Hlocal; try done. by eapply compute_start_task.
    + destruct Hl as (Hw & Hprev & Hz & He).
      destruct (compute_search_ok g l i p prev) as (l' & E & Hl' & Hi'); [done..|].
      rewrite E. cbn [mbind option_bind]. do 3 eexists. split; [done |].
      apply Hlocal; try done. by eapply compute_search_task.
    + destruct Hl as (Hw & Hc).
      destruct (publish_begin_ok g l i p) as (g' & l' & E & Hok & Hi' & Hf); [done..|].
      rewrite E. cbn [mbind option_bind]. do 3 eexists. split; [done |]. split; [done |].
      eapply kind_internal; try done; [congruence | by eapply publish_begin_task].
    + destruct Hl as (Hw & Hc & Hb).
      destruct (publish_end_ok g l i p) as (g' & l' & E & Hok & Hi' & Hf); [done..|].
      rewrite E. cbn [mbind option_bind]. do 3 eexists. split; [done |]. split; [done |].
      eapply kind_internal; try done; [congruence | by eapply publish_end_task].
    + destruct (acquire_start_ok g l i) as (l' & E & Hl' & Hi'); [done..|].
      rewrite E. cbn [mbind option_bind]. do 3 eexists. split; [done |].
      apply Hlocal; try done. by eapply acquire_start_task.
    + destruct Hl as (He & (q & Hq & Hb)). unfold acquire_copy. rewrite Hq. cbn [mbind option_bind].
      rewrite Hb. do 3 eexists. split; [done |]. apply Hlocal; try done.
      unfold local_ok. cbn. rewrite Hi. split_and!; [done | done |]. by eapply ready_boundaries.
    + destruct Hl as (He & Hx).
      destruct (merge_partition_ok g l i) as (l' & E & Hl' & Hi' & Ht' & Hp' & Hm & Hz); [done..|].
      rewrite E. cbn [mbind option_bind]. do 3 eexists. split; [done |].
      split; [by apply step_ok_local |]. by eapply kind_merge.
    + by apply scan_partition_ok.
  - destruct (task l) eqn:Ht, (point l) eqn:Hp; try done. cbn [mbind option_bind].
    destruct (AssignTask_ok mat g l) as (b & g' & l' & E & Hok & Hk); [done..|].
    rewrite E. cbn [mbind option_bind]. do 3 eexists. done.
Qed.

(** ** The invariant of the system *)

Definition owners (ts : list (LocalState (A := A))) : list nat := omap partition_idx ts.

Definition finished (es : list (Event (A := A))) : list nat :=
  omap (fun e => match e with ev_done p _ _ => Some p | _ => None end) es.

(** What is known of the keys of partition [p] outside of the merger: the chunks
    that were returned, or the run that was materialized. *)
Definition result (mat : bool) (s : System (A := A)) (p : nat) : list A :=
  if mat then
    match materialized_partitions (shared s) !! p with Some (Some keys) => keys | _ => [] end
  else output s p.

Definition final (mat : bool) (keys : list A) : list A := if mat then keys else final_keys keys.

Definition content_ok (mat : bool) (r : nat -> list A) l : Prop :=
  match partition_idx l with
  | None => True
  | Some i =>
      if decide (task l = SCAN_PARTITION) then
        merged l i /\ 0 <= merged_partition_index l <= Z.of_nat (length (merged_partition l)) /\
        (mat = true -> merged_partition_index l = 0) /\
        r i ++ (if mat then merged_partition l else rest_keys l) = final mat (merged_partition l)
      else r i = []
  end.

(** Partition [p] was merged between its boundaries, and is known completely. *)
Definition partition_done (mat : bool) (r : nat -> list A) (p : nat) : Prop :=
  exists bs keys skipped, exact_boundaries p bs /\
    TemplatedMergePartition m bs = Some (keys, skipped) /\ r p = final mat keys.

Definition partition_count (p : nat) : Z := keys_upto p - keys_before p.

(** What the end of a partition reports. *)
Definition event_ok (es : list (Event (A := A))) (e : Event (A := A)) : Prop :=
  match e with
  | ev_done p res ranges =>
      res = HAVE_MORE_OUTPUT /\
      (ranges = [] \/ exists e, (e < P)%nat /\ is_cut (keys_upto e) (snd <$> ranges) /\
         forall p, (p <= e)%nat -> p ∈ finished es)
  | ev_chunk p chunk => chunk <> [] /\ Z.of_nat (length chunk) <= STANDARD_VECTOR_SIZE
  | _ => True
  end.

Record system_ok (mat : bool) (s : System (A := A)) : Prop := {
  sys_global : global_ok (shared s);
  sys_local : forall t l, threads s !! t = Some l -> local_ok (shared s) l;
  sys_content : forall t l, threads s !! t = Some l -> content_ok mat (result mat s) l;
  sys_owners : owners (threads s) ++ finished (events s) ≡ₚ seq 0 (next_partition_idx (shared s));
  sys_done : forall p, p ∈ finished (events s) -> partition_done mat (result mat s) p;
  sys_untouched : forall p, (next_partition_idx (shared s) <= p)%nat -> result mat s p = [];
  sys_total : total_scanned (shared s) = zsum partition_count (finished (events s));
  sys_scanned : forall p, (p < P)%nat ->
    (scanned <$> partitions (shared s)) !! p = Some true <-> p ∈ finished (events s);
  sys_events : Forall (event_ok (events s)) (events s)
}.

Lemma output_snoc g ts es e p :
  output {| shared := g; threads := ts; events := es ++ [e] |} p =
  output {| shared := g; threads := ts; events := es |} p ++
  match e with ev_chunk q chunk => if decide (q = p) then chunk else [] | _ => [] end.
Proof.
  unfold output. cbn [events]. rewrite fmap_app, mjoin_app. f_equal. cbn. by rewrite app_nil_r.
Qed.

Lemma finished_snoc es e :
  finished (es ++ [e]) = finished es ++ match e with ev_done p _ _ => [p] | _ => [] end.
Proof. unfold finished. rewrite omap_app. by destruct e. Qed.

Lemma event_ok_snoc es e e' : event_ok es e -> event_ok (es ++ [e']) e.
Proof.
  destruct e as [| | | p res ranges]; try done. cbn. intros [-> H]. split; [done |].
  destruct H as [-> | (x & Hx & Hc & Hf)]; [by left | right]. exists x. split_and!; [done | done |].
  intros p' Hp'. rewrite finished_snoc, elem_of_app. left. by apply Hf.
Qed.

(** ** Every step keeps the invariant *)

Lemma content_ok_ext mat r r' l :
  (forall i, partition_idx l = Some i -> r' i = r i) -> content_ok mat r l -> content_ok mat r' l.
Proof. unfold content_ok. destruct (partition_idx l) as [i |]; [| done]. intros E. by rewrite E. Qed.

Lemma owners_NoDup mat s : system_ok mat s -> NoDup (owners (threads s) ++ finished (events s)).
Proof. intros Hs. rewrite (sys_owners _ _ Hs). apply NoDup_seq. Qed.

Lemma owner_assigned mat s t l i :
  system_ok mat s -> threads s !! t = Some l -> partition_idx l = Some i ->
  (i < next_partition_idx (shared s))%nat /\ i ∉ finished (events s).
Proof.
  intros Hs Hl Hi.
  assert (i ∈ owners (threads s)) as Ho.
  { apply list_elem_of_omap. exists l. split; [by eapply list_elem_of_lookup_2 | done]. }
  split.
  - assert (i ∈ seq 0 (next_partition_idx (shared s))) as Hseq
      by (rewrite <- (sys_owners _ _ Hs), elem_of_app; by left).
    apply elem_of_seq in Hseq. lia.
  - pose proof (owners_NoDup _ _ Hs) as (_ & Hd & _)%NoDup_app. by apply Hd.
Qed.

Lemma owner_unique mat s t t' l l' i :
  system_ok mat s -> threads s !! t = Some l -> threads s !! t' = Some l' ->
  partition_idx l = Some i -> partition_idx l' = Some i -> t = t'.
Proof.
  intros Hs Hl Hl' Hi Hi'. pose proof (owners_NoDup _ _ Hs) as (Hnd & _ & _)%NoDup_app.
  by eapply (omap_NoDup_lookup partition_idx).
Qed.

Lemma finished_assigned mat s p :
  system_ok mat s -> p ∈ finished (events s) -> (p < next_partition_idx (shared s))%nat.
Proof.
  intros Hs Hp. assert (p ∈ seq 0 (next_partition_idx (shared s))) as Hseq%elem_of_seq; [| lia].
  rewrite <- (sys_owners _ _ Hs), elem_of_app. by right.
Qed.

Definition after (s : System (A := A)) g' t l' e : System (A := A) :=
  {| shared := g'; threads := <[t := l']> (threads s); events := events s ++ [e] |}.

(** What a step has to establish for the invariant. *)
Lemma system_ok_after mat s g' t l l' e :
  system_ok mat s -> threads s !! t = Some l ->
  step_ok (shared s) l g' l' ->
  (forall p, partition_idx l <> Some p -> result mat (after s g' t l' e) p = result mat s p) ->
  content_ok mat (result mat (after s g' t l' e)) l' ->
  option_list (partition_idx l') ++ finished [e] ++ seq 0 (next_partition_idx (shared s)) ≡ₚ
    option_list (partition_idx l) ++ seq 0 (next_partition_idx g') ->
  (next_partition_idx (shared s) <= next_partition_idx g')%nat ->
  (forall p, p ∈ finished [e] -> partition_done mat (result mat (after s g' t l' e)) p) ->
  total_scanned g' = total_scanned (shared s) + zsum partition_count (finished [e]) ->
  (forall p, (p < P)%nat -> (scanned <$> partitions g') !! p = Some true <->
     (scanned <$> partitions (shared s)) !! p = Some true \/ p ∈ finished [e]) ->
  event_ok (events s) e ->
  system_ok mat (after s g' t l' e).
Proof.
  intros Hs Hl (Hg' & Hl' & Hk) Hr Hc Ho Hn Hd Ht Hsc He.
  pose proof (lookup_lt_Some _ _ _ Hl) as Hlt.
  assert (finished (events s ++ [e]) = finished (events s) ++ finished [e]) as Hfin
    by (unfold finished; apply omap_app).
  assert (forall t2 l2, <[t := l']> (threads s) !! t2 = Some l2 ->
    t2 = t /\ l2 = l' \/ t2 <> t /\ threads s !! t2 = Some l2) as Hcase.
  { intros t2 l2 H2. destruct (decide (t2 = t)) as [-> |]; [left | right].
    - rewrite list_lookup_insert_eq in H2 by done. by injection H2 as <-.
    - by rewrite list_lookup_insert_ne in H2. }
  split; cbn [after shared threads events].
  - done.
  - intros t2 l2 [[-> ->] | [_ H2]]%Hcase; [done |]. eapply local_ok_mono; [done |].
    by eapply (sys_local _ _ Hs).
  - intros t2 l2 [[-> ->] | [Hne H2]]%Hcase; [done |].
    apply (content_ok_ext _ (result mat s)); [| by eapply (sys_content _ _ Hs)].
    intros j Hj. apply Hr. intros Hi. destruct Hne. by eapply owner_unique.
  - rewrite Hfin. destruct (omap_insert_perm partition_idx (threads s) t l l' Hl) as (rest & H1 & H2).
    pose proof (sys_owners _ _ Hs) as Hso. unfold owners in *. rewrite H1 in Hso. rewrite H2.
    apply (Permutation_app_inv_l (option_list (partition_idx l))). rewrite <- Ho, <- Hso.
    solve_Permutation.
  - intros p Hp. rewrite Hfin in Hp. apply elem_of_app in Hp as [Hp | Hp]; [| by apply Hd].
    destruct (sys_done _ _ Hs p Hp) as (bs & keys & sk & Hx & Hm & E). exists bs, keys, sk.
    split_and!; [done | done |]. rewrite Hr; [done |]. intros Hi.
    by destruct (owner_assigned _ _ _ _ _ Hs Hl Hi).
  - intros p Hp. rewrite Hr; [apply (sys_untouched _ _ Hs); lia |]. intros Hi.
    destruct (owner_assigned _ _ _ _ _ Hs Hl Hi). lia.
  - rewrite Hfin, zsum_app, Ht, (sys_total _ _ Hs). done.
  - intros p Hp. rewrite Hfin, elem_of_app, Hsc, (sys_scanned _ _ Hs) by done. done.
  - apply Forall_app. split; [| constructor; [by apply event_ok_snoc | done]].
    eapply Forall_impl; [apply (sys_events _ _ Hs) |]. intros. by apply event_ok_snoc.
Qed.

Lemma partition_count_sum n : zsum partition_count (seq 0 n) = keys_before n.
Proof.
  induction n as [| n IH]; [by rewrite keys_before_0 |].
  rewrite seq_S, zsum_app, IH, zsum_cons, keys_before_S. unfold partition_count. cbn. lia.
Qed.

Lemma partition_count_nonneg p : 0 <= partition_count p.
Proof. unfold partition_count. pose proof (keys_before_upto p). lia. Qed.

(** While a partition is not finished the count is not the total. *)
Lemma total_scanned_lt mat s t l i :
  system_ok mat s -> threads s !! t = Some l -> partition_idx l = Some i -> (i < P)%nat ->
  total_scanned (shared s) < merger_total_count m.
Proof.
  intros Hs Hl Hi HiP. rewrite (sys_total _ _ Hs). unfold merger_total_count.
  pose proof (zsum_perm partition_count _ _ (sys_owners _ _ Hs)) as E.
  rewrite zsum_app, partition_count_sum in E.
  assert (keys_before (next_partition_idx (shared s)) <= total_count runs)
    by (unfold keys_before, cut_size; lia).
  assert (partition_count i <= zsum partition_count (owners (threads s))).
  { apply zsum_member; [intros; apply partition_count_nonneg |].
    apply list_elem_of_omap. exists l. split; [by eapply list_elem_of_lookup_2 | done]. }
  pose proof (keys_before_lt i HiP). unfold partition_count in *. lia.
Qed.

Lemma merged_count l i :
  merged l i -> Z.of_nat (length (merged_partition l)) + skipped_tuples l = partition_count i.
Proof.
  intros (bs & Hx & E). destruct (TemplatedMergePartition_Some i bs Hx) as (k & sk & E' & _ & _ & H).
  rewrite E in E'. by injection E' as <- <-.
Qed.

Lemma merged_asserted l i : merged l i -> keys_asserted (merged_partition l).
Proof.
  intros (bs & Hx & E). destruct (TemplatedMergePartition_Some i bs Hx) as (k & sk & E' & Hperm & _).
  rewrite E in E'. injection E' as <- <-. eapply keys_asserted_sub; [| exact Hasserted].
  intros x Hx'. rewrite Hperm in Hx'. by eapply read_keys_elem.
Qed.

Lemma scan_ok_content mat r l : content_ok mat r l -> (partition_idx l = None -> task l <> SCAN_PARTITION) ->
  scan_ok l.
Proof.
  intros Hc Hn Ht. unfold content_ok in Hc. destruct (partition_idx l) as [i |]; [| by destruct Hn].
  rewrite decide_True in Hc by done. split; [apply Hc | eapply merged_asserted, Hc].
Qed.

Lemma content_scan mat r l i :
  content_ok mat r l -> partition_idx l = Some i -> task l = SCAN_PARTITION ->
  merged l i /\ 0 <= merged_partition_index l <= Z.of_nat (length (merged_partition l)) /\
  (mat = true -> merged_partition_index l = 0) /\
  r i ++ (if mat then merged_partition l else rest_keys l) = final mat (merged_partition l).
Proof. unfold content_ok. intros Hc Hi Ht. by rewrite Hi, decide_True in Hc by done. Qed.

Lemma content_before_scan mat r l i :
  content_ok mat r l -> partition_idx l = Some i -> task l <> SCAN_PARTITION -> r i = [].
Proof. unfold content_ok. intros Hc Hi Ht. by rewrite Hi, decide_False in Hc by done. Qed.

(** The results do not change if nothing is returned or materialized. *)
Lemma result_same mat s g' t l' e p :
  materialized_partitions g' = materialized_partitions (shared s) ->
  (forall c, e <> ev_chunk p c) ->
  result mat (after s g' t l' e) p = result mat s p.
Proof.
  intros Hm He. unfold result, after. cbn [shared]. rewrite Hm. destruct mat; [done |].
  rewrite output_snoc. destruct s as [g ts es]. cbn [events].
  destruct e as [| | q c |]; rewrite ?app_nil_r; try done.
  rewrite decide_False by (intros ->; by destruct (He c)). by rewrite app_nil_r.
Qed.

Lemma result_chunk s g' t l' p i c :
  result false (after s g' t l' (ev_chunk i c)) p =
  result false s p ++ (if decide (i = p) then c else []).
Proof. unfold result, after. rewrite output_snoc. by destruct s. Qed.

Lemma result_materialized s g' t l' l i e p :
  materialized_partitions g' = materialized_partitions (fst (MaterializePartition i (shared s) l)) ->
  result true (after s g' t l' e) p =
  if decide (p = i) then drop (Z.to_nat (merged_partition_index l)) (merged_partition l)
  else result true s p.
Proof.
  intros E. unfold result, after. cbn [shared]. rewrite E. cbn [MaterializePartition fst materialized_partitions].
  set (mp := materialized_partitions (shared s)).
  assert (i < length (mp ++ replicate (S i - length mp) None))%nat as Hlt
    by (rewrite length_app, length_replicate; lia).
  case_decide as Ep; [subst; by rewrite list_lookup_insert_eq |].
  rewrite list_lookup_insert_ne by done.
  destruct (decide (p < length mp)%nat).
  - by rewrite lookup_app_l by done.
  - rewrite lookup_app_r by lia. rewrite (lookup_ge_None_2 mp) by lia.
    destruct (decide (p - length mp < S i - length mp)%nat);
      [by rewrite lookup_replicate_2 | by rewrite lookup_ge_None_2 by (rewrite length_replicate; lia)].
Qed.

(** ** The cases of a step *)

Section cases.
Context (mat : bool) (s : System (A := A)) (t : nat) (l : LocalState (A := A)).
Context (Hs : system_ok mat s) (Hl : threads s !! t = Some l).

Lemma same_results g' l' e p :
  materialized_partitions g' = materialized_partitions (shared s) ->
  (forall p c, e <> ev_chunk p c) ->
  result mat (after s g' t l' e) p = result mat s p.
Proof. intros Hm He. by apply result_same. Qed.

Lemma system_ok_assign g' l' :
  step_ok (shared s) l g' l' ->
  partition_idx l = None -> partition_idx l' = Some (next_partition_idx (shared s)) ->
  task l' <> SCAN_PARTITION -> next_partition_idx g' = S (next_partition_idx (shared s)) ->
  partitions g' = partitions (shared s) -> total_scanned g' = total_scanned (shared s) ->
  materialized_partitions g' = materialized_partitions (shared s) ->
  system_ok mat (after s g' t l' ev_none).
Proof.
  intros Hok Hi Hi' Ht Hn Hp Htot Hm.
  apply (system_ok_after mat s g' t l); try done; rewrite ?Hi, ?Hi', ?Hn, ?Hp; try done.
  - intros p _. by apply same_results.
  - unfold content_ok. rewrite Hi', decide_False by done. rewrite same_results by done.
    by apply (sys_untouched _ _ Hs).
  - cbn [option_list finished omap list_omap app]. rewrite seq_S. cbn [Nat.add].
    by rewrite Permutation_app_comm.
  - lia.
  - intros p Hp'. by apply not_elem_of_nil in Hp'.
  - cbn. lia.
  - intros p _. split; [by left |]. by intros [| ?%not_elem_of_nil].
Qed.

Lemma system_ok_internal g' l' i :
  step_ok (shared s) l g' l' -> partition_idx l = Some i -> partition_idx l' = Some i ->
  frame (shared s) g' -> content_ok mat (result mat s) l' ->
  system_ok mat (after s g' t l' ev_none).
Proof.
  intros Hok Hi Hi' (Hn & Hsc & Htot & _ & Hm) Hc.
  apply (system_ok_after mat s g' t l); try done; rewrite ?Hi, ?Hi', ?Hn, ?Hsc; try done.
  - intros p _. by apply same_results.
  - eapply content_ok_ext; [| exact Hc]. intros. by apply same_results.
  - intros p Hp'. by apply not_elem_of_nil in Hp'.
  - cbn. lia.
  - intros p _. split; [by left |]. by intros [| ?%not_elem_of_nil].
Qed.

Lemma system_ok_done g' l' i ranges res :
  step_ok (shared s) l g' l' -> partition_idx l = Some i -> partition_idx l' = None ->
  merged l i -> result mat (after s g' t l' (ev_done i res ranges)) i = final mat (merged_partition l) ->
  (forall p, p <> i -> result mat (after s g' t l' (ev_done i res ranges)) p = result mat s p) ->
  next_partition_idx g' = next_partition_idx (shared s) ->
  scanned <$> partitions g' = <[i := true]> (scanned <$> partitions (shared s)) ->
  total_scanned g' =
    total_scanned (shared s) + (Z.of_nat (length (merged_partition l)) + skipped_tuples l) ->
  destroyed_ok (shared s) ranges -> res = HAVE_MORE_OUTPUT ->
  system_ok mat (after s g' t l' (ev_done i res ranges)).
Proof.
  intros Hok Hi Hi' Hm Hri Hr Hn Hsc Htot Hd Hres.
  assert (i < P)%nat as HiP.
  { pose proof (sys_local _ _ Hs t l Hl) as Hloc. unfold local_ok in Hloc. rewrite Hi in Hloc. tauto. }
  assert (length (scanned <$> partitions (shared s)) = P) as Hlen
    by (rewrite length_fmap; apply (ok_length _ (sys_global _ _ Hs))).
  apply (system_ok_after mat s g' t l); try done; rewrite ?Hi, ?Hi', ?Hn; try done.
  - intros p Hp. apply Hr. congruence.
  - unfold content_ok. by rewrite Hi'.
  - intros p ->%list_elem_of_singleton. destruct Hm as (bs & Hx & E). by exists bs, (merged_partition l), (skipped_tuples l).
  - rewrite Htot, (merged_count l i) by done. cbn. lia.
  - intros p Hp. cbn [finished omap list_omap]. rewrite list_elem_of_singleton, Hsc.
    destruct (decide (p = i)) as [-> | Hne].
    + rewrite list_lookup_insert_eq by lia. tauto.
    + rewrite list_lookup_insert_ne by done. tauto.
  - split; [done |]. destruct Hd as [-> | (e & He & Hcut & Hall)]; [by left | right].
    exists e. split_and!; [done | done |]. intros p Hp. apply (sys_scanned _ _ Hs p ltac:(lia)).
    destruct (lookup_partition (shared s) p (sys_global _ _ Hs) ltac:(lia)) as [q Hq].
    rewrite list_lookup_fmap, Hq. cbn. f_equal. by eapply Hall.
Qed.

Lemma system_ok_merge l' i :
  step_ok (shared s) l (shared s) l' -> partition_idx l = Some i -> partition_idx l' = Some i ->
  task l <> SCAN_PARTITION -> task l' = SCAN_PARTITION -> merged l' i ->
  merged_partition_index l' = 0 ->
  system_ok mat (after s (shared s) t l' ev_none).
Proof.
  intros Hok Hi Hi' Ht Ht' Hm Hz. apply (system_ok_internal _ _ i); try done.
  unfold content_ok. rewrite Hi', decide_True by done. rewrite Hz.
  split_and!; [done | done | lia | done |].
  rewrite (content_before_scan _ _ _ _ (sys_content _ _ Hs t l Hl) Hi Ht).
  unfold final, final_keys, rest_keys. rewrite Hz. cbn [app]. change (Z.to_nat 0) with 0%nat.
  cbn [drop]. destruct mat; [done |]. destruct (do_merge_pruning m); [| done].
  by rewrite (keep_run_first (group l') Group_0).
Qed.

Lemma system_ok_chunk l' i chunk :
  mat = false -> step_ok (shared s) l (shared s) l' -> partition_idx l = Some i ->
  task l = SCAN_PARTITION -> TemplatedScanPartition m l = Some (chunk, l') -> chunk <> [] ->
  system_ok mat (after s (shared s) t l' (ev_chunk i chunk)).
Proof.
  intros Hmat Hok Hi Ht E Hchunk.
  destruct (content_scan _ _ _ _ (sys_content _ _ Hs t l Hl) Hi Ht) as (Hm & Hidx & _ & Hr).
  destruct (TemplatedScanPartition_spec _ _ _ E Hidx) as
    (Hrest & _ & Hidx' & _ & Hlen & Hmp & Hpi & Htask & _ & Hsk & _).
  apply (system_ok_after mat s (shared s) t l); try done; rewrite ?Hpi; try done.
  - intros p Hp. subst mat. rewrite result_chunk, decide_False by congruence. by rewrite app_nil_r.
  - unfold content_ok. rewrite Hpi, Hi, Htask, decide_True by done.
    split_and!; [unfold merged; by rewrite Hmp, Hsk | lia | rewrite Hmp; lia | by subst mat |].
    subst mat. rewrite result_chunk, decide_True, Hmp, <- app_assoc, <- Hrest by done. exact Hr.
  - intros p Hp'. by apply not_elem_of_nil in Hp'.
  - cbn. lia.
  - intros p _. split; [by left |]. by intros [| ?%not_elem_of_nil].
Qed.
End cases.

Lemma local_finished g l : local_ok g l -> partition_idx l = None -> task l <> SCAN_PARTITION.
Proof. unfold local_ok. intros Hl Hi. rewrite Hi in Hl. by destruct (task l). Qed.

Lemma system_ok_finish mat s t l g' l' i ranges :
  system_ok mat s -> threads s !! t = Some l -> step_ok (shared s) l g' l' ->
  step_kind mat (shared s) l g' l' (ev_done i
    (if total_scanned (shared s) =? merger_total_count m then SOURCE_FINISHED
     else HAVE_MORE_OUTPUT) ranges) ->
  system_ok mat (after s g' t l' (ev_done i
    (if total_scanned (shared s) =? merger_total_count m then SOURCE_FINISHED
     else HAVE_MORE_OUTPUT) ranges)).
Proof.
  intros Hs Hl Hok Hk. inversion Hk as [| | | | | ? ? Hi Hi' Ht Hempty Hn Hsc Htot Hm Hd]; subst.
  pose proof (sys_content _ _ Hs t l Hl) as Hc.
  destruct (content_scan _ _ _ _ Hc Hi Ht) as (Hmerged & Hidx & Hz & Hr).
  pose proof (sys_local _ _ Hs t l Hl) as Hloc. unfold local_ok in Hloc. rewrite Hi in Hloc.
  apply (system_ok_done mat s t l Hs Hl); try done.
  - destruct mat.
    + rewrite (result_materialized _ _ _ _ l i) by done. rewrite decide_True by done.
      by rewrite Hz by done.
    + rewrite result_same by done. rewrite <- Hr.
      destruct (Hempty eq_refl) as [l1 E].
      destruct (TemplatedScanPartition_spec _ _ _ E Hidx) as (_ & Hnil & _).
      rewrite Hnil; [by rewrite app_nil_r | done].
  - intros p Hp. destruct mat.
    + rewrite (result_materialized _ _ _ _ l i) by done. by rewrite decide_False by done.
    + by rewrite result_same by done.
  - pose proof (total_scanned_lt _ _ _ _ _ Hs Hl Hi (proj1 Hloc)).
    by rewrite (proj2 (Z.eqb_neq _ _)) by lia.
Qed.

(** Every step of every thread succeeds and keeps the invariant. *)
Lemma system_step_kind mat s t owns l :
  system_ok mat s -> threads s !! t = Some l ->
  exists g' l' e, system_step m mat s (t, owns) = Some (after s g' t l' e) /\
    system_ok mat (after s g' t l' e) /\ step_kind mat (shared s) l g' l' e.
Proof.
  intros Hs Hl. unfold system_step. cbn [fst snd]. rewrite Hl. cbn [mbind option_bind].
  pose proof (sys_local _ _ Hs t l Hl) as Hloc.
  destruct (thread_step_ok mat owns (shared s) l) as (g' & l' & e & E & Hok & Hk).
  { apply (sys_global _ _ Hs). } { done. }
  { apply (scan_ok_content mat (result mat s)); [by eapply sys_content |]. by eapply local_finished. }
  rewrite E. cbn [mbind option_bind]. exists g', l', e. split; [done |]. split; [| done].
  destruct Hk as [Eg El Hi Hn | Hi Hi' Ht' HP Hn Hp Htot Hm | i Hi Hi' Hti Hti' Hf
    | i Hi Hi' Hti _ Hti' _ Eg Hm Hz | i chunk Hi Hti Eg Hmat Hc Hne
    | i ranges Hi Hi' Hti H1 H2 H3 H4 H5 H6].
  - rewrite Eg, El. rewrite Eg, El in Hok. apply (system_ok_after mat s (shared s) t l); try done.
    + intros p _. by apply same_results.
    + unfold content_ok. by rewrite Hi.
    + intros p Hp'. by apply not_elem_of_nil in Hp'.
    + cbn. lia.
    + intros p _. split; [by left |]. by intros [| ?%not_elem_of_nil].
  - by apply (system_ok_assign mat s t l Hs Hl).
  - eapply (system_ok_internal mat s t l Hs Hl); try done.
    unfold content_ok. rewrite Hi', decide_False by done.
    by apply (content_before_scan mat _ l); [eapply sys_content | |].
  - rewrite Eg in Hok |- *. apply (system_ok_merge mat s t l Hs Hl l' i); congruence || done.
  - rewrite Eg in Hok |- *. by apply (system_ok_chunk mat s t l Hs Hl l' i).
  - apply system_ok_finish with (l := l); try done. by apply kind_done.
Qed.

Lemma system_step_ok mat s t owns :
  system_ok mat s -> (t < length (threads s))%nat ->
  exists s', system_step m mat s (t, owns) = Some s' /\ system_ok mat s' /\
    length (threads s') = length (threads s).
Proof.
  intros Hs Ht. destruct (lookup_lt_is_Some_2 (threads s) t Ht) as [l Hl].
  destruct (system_step_kind mat s t owns l Hs Hl) as (g' & l' & e & E & Hs' & _).
  eexists. split; [exact E |]. split; [done |]. cbn. apply length_insert.
Qed.

Lemma System_new_ok mat n : system_ok mat (System_new m n).
Proof.
  assert (forall p q, partitions (GlobalState_new m) !! p = Some q ->
    q = SortedRunMergePartition_new m p /\ (p < P)%nat) as Hnew.
  { intros p q Hq. cbn in Hq. rewrite list_lookup_fmap in Hq.
    destruct (seq 0 P !! p) eqn:E; [| done]. apply lookup_seq in E as [-> ?].
    by injection Hq as <-. }
  assert (forall p, zero_begins (partition_boundaries (SortedRunMergePartition_new m p))) as Hzero.
  { intros p. unfold zero_begins. cbn. by rewrite <- list_fmap_compose. }
  split; try done.
  - split.
    + cbn. by rewrite length_fmap, length_seq.
    + intros p q [-> Hp]%Hnew. split.
      * cbn [SortedRunMergePartition_new begin_computed]. destruct (Nat.eqb_spec p 0) as [-> |].
        -- rewrite keys_before_0. by apply zero_begins_cut.
        -- apply Hzero.
      * left. apply Forall2_fmap_r, Forall_Forall2_diag, Forall_true. done.
    + destruct (decide (P = 0)%nat) as [| HP]; [by right | left].
      exists (SortedRunMergePartition_new m 0). split; [| done].
      cbn. rewrite list_lookup_fmap, lookup_seq_lt by lia. done.
    + cbn. lia.
    + intros p q [-> _]%Hnew. done.
    + intros p q Hp. cbn in Hp. lia.
  - intros t l [-> _]%lookup_replicate. done.
  - intros t l [-> _]%lookup_replicate. done.
  - cbn. rewrite app_nil_r. induction n as [| n IH]; [done |]. cbn. done.
  - intros p Hp. by apply not_elem_of_nil in Hp.
  - intros p _. by destruct mat.
  - intros p Hp. split; [| by intros ?%not_elem_of_nil]. cbn.
    rewrite <- list_fmap_compose, list_lookup_fmap. by destruct (seq 0 P !! p).
Qed.

(** Every interleaving runs without a failed assertion and keeps the invariant. *)
Lemma run_system_ok mat n schedule :
  Forall (fun c => (fst c < n)%nat) schedule ->
  exists s, run_system m mat n schedule = Some s /\ system_ok mat s /\ length (threads s) = n.
Proof.
  intros Hsched. unfold run_system.
  assert (forall s0, system_ok mat s0 -> length (threads s0) = n ->
    exists s, ofold (system_step m mat) s0 schedule = Some s /\ system_ok mat s /\
      length (threads s) = n) as H.
  { induction Hsched as [| [t owns] schedule Ht _ IH]; intros s0 Hs0 Hn; [by exists s0 |].
    rewrite ofold_cons. destruct (system_step_ok mat s0 t owns) as (s1 & -> & Hs1 & Hl1);
      [done | cbn in Ht; lia |]. cbn [mbind option_bind]. apply IH; [done | lia]. }
  apply H; [apply System_new_ok | apply length_replicate].
Qed.

(** ** Merge Pruning keeps the first ORDER BY values *)

Abbreviation part := (key_partition m).
Abbreviation ord := (key_order_by m).
Abbreviation dense_rank := (dense_rank part ord).
Abbreviation safe_prune := (safe_prune part ord (predicate m)).

(** The state of the pruning loop behind the sorted keys [pre], [y] being the last
    of them. *)
Definition group_ok (pre : list A) (y : A) (s : Group) : Prop :=
  g_partition s = part y /\
  g_order_by_count s = Z.min (dense_rank pre y) (Z.max 1 (predicate m)) /\
  if dense_rank pre y <=? Z.max 1 (predicate m) then g_order_by s = ord y
  else g_order_by s < ord y.

(** A key is kept if and only if its dense rank among the keys up to it is at most
    the predicate (at least 1). *)
Lemma keep_key_spec pre y s x :
  y ∈ pre -> (forall z, z ∈ pre -> key_le part ord z y) -> key_le part ord y x -> group_ok pre y s ->
  let d := dense_rank pre x in
  snd (keep_key false s x) = (d <=? Z.max 1 (predicate m)) /\
  (forall pre', dense_rank pre' x = d -> group_ok pre' x (fst (keep_key false s x))).
Proof.
  intros Hy Hmax Hyx (Hp & Hc & Ho) d. unfold keep_key, prune_values, group_ok. cbn [orb].
  pose proof (dense_rank_ge_1 part ord pre y) as H1. set (k := Z.max 1 (predicate m)) in *.
  assert (forall z, z ∈ pre -> part z = part y -> ord z <= ord y) as Hmaxp.
  { intros z Hz E. destruct (Hmax z Hz) as [|[_ ?]]; lia. }
  rewrite Hp. destruct (Z.eqb_spec (part x) (part y)) as [Ep | Ep]; cbn [negb]; cycle 1.
  { assert (d = 1) as E1.
    { apply dense_rank_new. intros z Hz E. destruct (Hmax z Hz) as [|[? ?]], Hyx as [|[? ?]]; lia. }
    rewrite E1. cbn [fst snd]. rewrite (proj2 (Z.leb_le 1 k)) by lia. split; [done |].
    intros pre' Hd. rewrite Hd. cbn. rewrite (proj2 (Z.leb_le 1 k)) by lia.
    split_and!; [done | lia | done]. }
  assert (ord y <= ord x) as Hoyx by (destruct Hyx as [|[_ ?]]; lia).
  destruct (decide (ord x = ord y)) as [Eo | Eo].
  - assert (d = dense_rank pre y) as Ed by (by apply dense_rank_same).
    rewrite Ed. destruct (Z.leb_spec (dense_rank pre y) k) as [Hk | Hk].
    + rewrite Ho, Eo, Z.eqb_refl. cbn [orb fst snd negb Z.b2z]. split; [done |].
      intros pre' Hd. rewrite Hd. cbn. rewrite (proj2 (Z.leb_le _ k)) by lia.
      split_and!; [done | lia | done].
    + rewrite (proj2 (Z.eqb_neq (ord x) _)), (proj2 (Z.ltb_ge _ (predicate m))) by lia.
      cbn [orb andb negb fst snd]. split; [done |]. intros pre' Hd. rewrite Hd.
      rewrite (proj2 (Z.leb_gt _ k)) by lia. split_and!; [congruence | lia | lia].
  - assert (d = dense_rank pre y + 1) as Ed by (apply dense_rank_next; [done | done | lia | done]).
    rewrite Ed. destruct (Z.leb_spec (dense_rank pre y) k) as [Hk | Hk].
    + rewrite Ho, (proj2 (Z.eqb_neq (ord x) _)) by done. cbn [orb negb andb Z.b2z].
      destruct (Z.ltb_spec (g_order_by_count s) (predicate m)) as [Hl | Hl]; cbn [fst snd].
      * rewrite (proj2 (Z.leb_le _ k)) by lia. split; [done |]. intros pre' Hd.
        rewrite Hd. cbn. rewrite (proj2 (Z.leb_le _ k)) by lia.
        split_and!; [done | lia | done].
      * rewrite (proj2 (Z.leb_gt _ k)) by lia. split; [done |]. intros pre' Hd.
        rewrite Hd. rewrite (proj2 (Z.leb_gt _ k)) by lia.
        split_and!; [congruence | lia | lia].
    + rewrite (proj2 (Z.eqb_neq (ord x) _)), (proj2 (Z.ltb_ge _ (predicate m))) by lia.
      cbn [orb andb negb fst snd]. rewrite (proj2 (Z.leb_gt _ k)) by lia. split; [done |].
      intros pre' Hd. rewrite Hd. rewrite (proj2 (Z.leb_gt _ k)) by lia.
      split_and!; [congruence | lia | lia].
Qed.

Abbreviation key_le := (key_le part ord).

Lemma key_le_refl x : key_le x x.
Proof. right. lia. Qed.

Lemma keep_run_suffix pre y s suf :
  StronglySorted key_le (pre ++ suf) -> y ∈ pre -> (forall z, z ∈ pre -> key_le z y) ->
  group_ok pre y s ->
  fst (keep_run false s suf) =
  filter (fun x => dense_rank (pre ++ suf) x <= Z.max 1 (predicate m)) suf.
Proof.
  revert pre y s. induction suf as [| x suf IH]; intros pre y s Hs Hy Hmax Hg; [done |].
  pose proof Hs as (Hps & _ & Hxs)%StronglySorted_app.
  apply StronglySorted_cons in Hxs as [Hx _]. rewrite Forall_forall in Hx.
  assert (forall z, z ∈ x :: suf -> key_le x z) as Hafter.
  { intros z [-> | Hz]%elem_of_cons; [apply key_le_refl | by apply Hx]. }
  assert (dense_rank (pre ++ x :: suf) x = dense_rank pre x) as Ed
    by (by apply dense_rank_app_after).
  assert (dense_rank (pre ++ [x]) x = dense_rank pre x) as Ed'.
  { apply dense_rank_app_after. intros z ->%list_elem_of_singleton. apply key_le_refl. }
  destruct (keep_key_spec pre y s x) as [Hkeep Hg']; [done | done | | done |].
  { apply Hps; [done | by left]. }
  specialize (Hg' _ Ed'). cbn [keep_run]. destruct (keep_key false s x) as [s' keep].
  cbn [fst snd] in Hkeep, Hg'.
  replace (pre ++ x :: suf) with ((pre ++ [x]) ++ suf) in * by (by rewrite <- app_assoc).
  assert (fst (keep_run false s' suf) =
    filter (fun z => dense_rank ((pre ++ [x]) ++ suf) z <= Z.max 1 (predicate m)) suf) as IH'.
  { apply (IH _ x); [done | apply elem_of_app; right; by left | | done].
    intros z [Hz | ->%list_elem_of_singleton]%elem_of_app; [| apply key_le_refl].
    apply Hps; [done | by left]. }
  destruct (keep_run false s' suf) as [kept n]. cbn [fst] in IH'. rewrite filter_cons, Ed.
  subst keep. destruct (Z.leb_spec (dense_rank pre x) (Z.max 1 (predicate m))) as [Hk | Hk];
    case_decide; try lia; cbn [fst]; by rewrite IH'.
Qed.

(** Pruning a sorted list of keys keeps exactly the keys whose dense rank in it is
    at most the predicate, and at least the first ORDER BY value. *)
Lemma keep_run_filter s keys :
  StronglySorted key_le keys ->
  fst (keep_run true s keys) =
  filter (fun x => dense_rank keys x <= Z.max 1 (predicate m)) keys.
Proof.
  intros Hs. destruct keys as [| x keys]; [done |]. cbn [keep_run keep_key prune_values orb].
  pose proof Hs as [Hx _]%StronglySorted_cons. rewrite Forall_forall in Hx.
  assert (forall D, (forall z, z ∈ D -> key_le x z) -> dense_rank D x = 1) as E1.
  { intros D HD. rewrite <- (app_nil_l D), dense_rank_app_after by done.
    apply dense_rank_new. intros y Hy. by apply not_elem_of_nil in Hy. }
  set (s' := {| g_partition := part x |}).
  assert (group_ok [x] x s') as Hg.
  { unfold group_ok. rewrite E1 by (intros z ->%list_elem_of_singleton; apply key_le_refl).
    rewrite (proj2 (Z.leb_le 1 _)) by lia. cbn. split_and!; [done | lia | done]. }
  pose proof (keep_run_suffix [x] x s' keys Hs ltac:(by left)
    ltac:(intros z ->%list_elem_of_singleton; apply key_le_refl) Hg) as IH.
  destruct (keep_run false s' keys) as [kept n]. cbn [fst app] in *.
  rewrite filter_cons_True, <- IH; [done |].
  rewrite E1; [lia |]. intros z [-> | Hz]%elem_of_cons; [apply key_le_refl | by apply Hx].
Qed.

Lemma keep_run_safe s keys :
  StronglySorted key_le keys -> safe_prune keys (fst (keep_run true s keys)).
Proof.
  intros Hs. rewrite keep_run_filter by done. apply (prune_filter _). intros. lia.
Qed.

(** ** All partitions *)

(** The keys in front of a cut. *)
Definition prefix_keys (cut : list Z) : list A :=
  mjoin (zip_with (fun run c => take (Z.to_nat c) run) runs cut).

Lemma run_slice_take (run : list A) b :
  0 <= rb_begin b <= rb_end b ->
  take (Z.to_nat (rb_end b)) run = take (Z.to_nat (rb_begin b)) run ++ run_slice run b.
Proof.
  clear. intros Hb. unfold run_slice. rewrite take_take_drop. f_equal. lia.
Qed.

(** The keys of a partition are those between the two cuts. *)
Lemma prefix_keys_next p bs :
  exact_boundaries p bs ->
  prefix_keys (rb_end <$> bs) ≡ₚ prefix_keys (rb_begin <$> bs) ++ mjoin (slices runs bs).
Proof.
  intros Hx%exact_well_formed. unfold prefix_keys, slices, well_formed in *. clear -Hx.
  induction Hx as [| run b rs bs Hb _ IH]; [done |].
  destruct Hb as [Hb _]. rewrite !fmap_cons. cbn [zip_with].
  rewrite !mjoin_cons, IH, (run_slice_take run b) by done.
  rewrite <- !app_assoc. apply Permutation_app_head. rewrite !app_assoc.
  apply Permutation_app_tail, Permutation_app_comm.
Qed.

Lemma prefix_keys_all : prefix_keys ((fun run : list A => Z.of_nat (length run)) <$> runs) = mjoin runs.
Proof.
  unfold prefix_keys. f_equal. clear. induction (sorted_runs m) as [| run rs IH]; [done |].
  rewrite fmap_cons. cbn [zip_with]. rewrite IH, take_ge by lia. done.
Qed.

Lemma prefix_keys_zero : prefix_keys ((fun _ : list A => 0) <$> runs) = [].
Proof.
  unfold prefix_keys. clear. induction (sorted_runs m) as [| run rs IH]; [done |].
  rewrite fmap_cons. cbn [zip_with]. by rewrite mjoin_cons, IH.
Qed.

(** What pruning needs: [operator<] compares the two columns that it reads. *)
Definition keys_compare_columns : Prop :=
  forall x y, x ∈ mjoin runs -> y ∈ mjoin runs ->
    key_lt m x y = (part x <? part y) || ((part x =? part y) && (ord x <? ord y)).

Lemma le_key_le x y :
  keys_compare_columns -> x ∈ mjoin runs -> y ∈ mjoin runs -> le x y -> key_le x y.
Proof.
  intros H Hx Hy Hle. cbn beta in Hle. rewrite H in Hle by done. unfold Pruning.key_le.
  destruct (Z.ltb_spec (part y) (part x)), (Z.eqb_spec (part y) (part x)),
    (Z.ltb_spec (ord y) (ord x)); cbn in Hle; lia || done.
Qed.

Lemma sorted_key_le keys :
  keys_compare_columns -> (forall x, x ∈ keys -> x ∈ mjoin runs) -> StronglySorted le keys ->
  StronglySorted key_le keys.
Proof.
  intros H Hin Hs. induction Hs as [| x keys Hs IH Hx]; constructor.
  - apply IH. intros. apply Hin. by right.
  - rewrite Forall_forall in *. intros y Hy. apply le_key_le; [done | apply Hin | apply Hin |].
    + by left.
    + by right.
    + by apply Hx.
Qed.

Lemma elem_of_prefix n cut x :
  is_cut n cut -> x ∈ prefix_keys cut ->
  exists i r c, cut !! i = Some c /\ 0 <= r < c /\ run_key runs i r = Some x.
Proof.
  intros Hcut (k & Hx & Hk)%list_elem_of_join.
  apply elem_of_lookup_zip_with in Hk as (i & run & c & -> & Hrun & Hc).
  apply list_elem_of_lookup in Hx as [q Hq]. apply lookup_take_Some in Hq as [Hq Hlt].
  exists i, (Z.of_nat q), c. split_and!; [done | lia | lia |].
  unfold run_key, zload. rewrite Hrun. cbn. rewrite decide_True, Nat2Z.id by lia. done.
Qed.

Lemma elem_of_slices bs x :
  x ∈ mjoin (slices runs bs) ->
  exists j r b, bs !! j = Some b /\ rb_begin b <= r /\ run_key runs j r = Some x.
Proof.
  intros (k & Hx & Hk)%list_elem_of_join.
  apply elem_of_lookup_zip_with in Hk as (j & run & b & -> & Hrun & Hb).
  apply list_elem_of_lookup in Hx as [q Hq]. apply lookup_take_Some in Hq as [Hq _].
  rewrite lookup_drop in Hq. exists j, (Z.of_nat (Z.to_nat (rb_begin b) + q)), b.
  split_and!; [done | lia |]. unfold run_key, zload. rewrite Hrun. cbn.
  rewrite decide_True, Nat2Z.id by lia. done.
Qed.

Lemma run_key_elem j r x : run_key runs j r = Some x -> x ∈ mjoin runs.
Proof.
  unfold run_key, zload. destruct (runs !! j) as [run |] eqn:E; cbn; [| done].
  case_decide; [| done]. intros Hx. apply list_elem_of_join. exists run.
  split; by eapply list_elem_of_lookup_2.
Qed.

Lemma slices_elem bs x : x ∈ mjoin (slices runs bs) -> x ∈ mjoin runs.
Proof. intros (j & r & b & _ & _ & H)%elem_of_slices. by eapply run_key_elem. Qed.

(** Every key in front of the begin of a partition is before its keys. *)
Lemma prefix_le_slices p bs x y :
  exact_boundaries p bs -> x ∈ prefix_keys (rb_begin <$> bs) -> y ∈ mjoin (slices runs bs) ->
  le x y.
Proof.
  intros [Hb _] Hx Hy. pose proof Hb as (_ & _ & Hcut).
  apply (elem_of_prefix _ _ _ Hb) in Hx as (i & q & c & Hc & Hq & Hxk).
  apply elem_of_slices in Hy as (j & r & b & Hbj & Hr & Hyk).
  assert ((rb_begin <$> bs) !! j = Some (rb_begin b)) as Hd by (by rewrite list_lookup_fmap, Hbj).
  pose proof (Hcut i q x c j r y _ Hc Hq Hxk Hd Hr Hyk) as Hbef.
  by apply key_before_false in Hbef as [? _].
Qed.

Lemma slices_sorted rs bs k :
  Forall (StronglySorted le) rs -> k ∈ slices rs bs -> StronglySorted le k.
Proof.
  intros Hrs (j & run & b & -> & Hrun & _)%elem_of_lookup_zip_with.
  eapply StronglySorted_sublist; [| by eapply Forall_lookup_1].
  unfold run_slice. etransitivity; [apply sublist_take | apply sublist_drop].
Qed.

(** ** What a merged partition holds *)

(** The keys that are known of a partition: all of its keys, sorted, or without
    those that are not needed. *)
Definition keys_ok (all keys : list A) : Prop :=
  (is_index_sort m = false -> StronglySorted le keys) /\
  (forall x, x ∈ keys -> x ∈ all) /\
  (do_merge_pruning m = false -> keys ≡ₚ all) /\
  (do_merge_pruning m = true -> is_index_sort m = false -> keys_compare_columns ->
   safe_prune all keys).

Lemma read_keys_ok bs : 
  (forall x, x ∈ read_keys bs -> x ∈ mjoin (slices runs bs)) /\
  (do_merge_pruning m = false -> read_keys bs = mjoin (slices runs bs)) /\
  (do_merge_pruning m = true -> keys_compare_columns -> safe_prune (mjoin (slices runs bs)) (read_keys bs)).
Proof.
  unfold read_keys. split_and!.
  - intros x (k & Hx & (sl & -> & Hsl)%list_elem_of_fmap)%list_elem_of_join.
    apply list_elem_of_join. exists sl. split; [| done].
    by eapply elem_of_submseteq, sublist_submseteq, read_slice_sublist.
  - intros Hp. unfold read_slice. rewrite Hp. cbn [fst]. by rewrite list_fmap_id.
  - intros Hp Hc. apply (prune_concat part ord _ _).
    apply Forall2_fmap_r, Forall_Forall2_diag, Forall_forall. intros sl Hsl.
    unfold read_slice. rewrite Hp. apply keep_run_safe.
    apply sorted_key_le; [done | | by eapply slices_sorted].
    intros x Hx. apply (slices_elem bs). apply list_elem_of_join. by exists sl.
Qed.

Lemma merged_keys_ok p bs keys skipped :
  exact_boundaries p bs -> TemplatedMergePartition m bs = Some (keys, skipped) ->
  keys_ok (mjoin (slices runs bs)) keys.
Proof.
  intros Hx E. destruct (TemplatedMergePartition_Some p bs Hx) as (k & sk & E' & Hperm & Hsort & _).
  rewrite E in E'. injection E' as <- <-. destruct (read_keys_ok bs) as (Hin & Heq & Hsafe).
  split_and!; [done | | |].
  - intros x Hxk. apply Hin. by rewrite <- Hperm.
  - intros Hp. by rewrite Hperm, Heq.
  - intros Hp _ Hc. eapply (prune_perm part ord _ _); [reflexivity | by symmetry |]. by apply Hsafe.
Qed.

Lemma final_keys_ok mat p bs keys skipped :
  exact_boundaries p bs -> TemplatedMergePartition m bs = Some (keys, skipped) ->
  keys_ok (mjoin (slices runs bs)) (final mat keys).
Proof.
  intros Hx E. pose proof (merged_keys_ok p bs keys skipped Hx E) as Hok.
  unfold final, final_keys. destruct mat; [exact Hok |].
  destruct (do_merge_pruning m) eqn:Hp; [| exact Hok]. destruct Hok as (Hsort & Hin & _ & Hsafe).
  pose proof (keep_run_sublist true Group_0 keys) as Hsub. split_and!.
  - intros Hi. eapply StronglySorted_sublist; [exact Hsub | by apply Hsort].
  - intros x Hx'. apply Hin. by eapply elem_of_submseteq, sublist_submseteq.
  - intros. congruence.
  - intros _ Hi Hc. eapply (prune_trans part ord _ _); [by apply Hsafe |]. apply keep_run_safe.
    apply sorted_key_le; [done | | by apply Hsort].
    intros x Hx'. apply (slices_elem bs). by apply Hin.
Qed.

(** The keys of the first partitions, put together. *)
Lemma partitions_keys_ok mat r n :
  (forall p, (p < n)%nat -> partition_done mat r p) ->
  exists cut, is_cut (keys_before n) cut /\ keys_ok (prefix_keys cut) (mjoin (r <$> seq 0 n)).
Proof.
  induction n as [| n IH]; intros Hdone.
  - exists ((fun _ => 0) <$> runs). rewrite keys_before_0, prefix_keys_zero.
    split; [apply is_cut_zero |]. split_and!; try done.
    + intros _. constructor.
    + intros _ _ _. apply prune_refl.
  - destruct IH as (cut & Hcut & Hsort & Hin & Hperm & Hsafe); [intros; apply Hdone; lia |].
    destruct (Hdone n) as (bs & keys & sk & Hx & E & Hr); [lia |].
    destruct (final_keys_ok mat n bs keys sk Hx E) as (Hsort' & Hin' & Hperm' & Hsafe').
    pose proof (is_cut_unique _ _ _ _ _ Hcut (proj1 Hx)) as ->.
    pose proof (prefix_keys_next n bs Hx) as Hnext.
    exists (rb_end <$> bs). rewrite keys_before_S. split; [apply Hx |].
    rewrite seq_S, fmap_app, mjoin_app. cbn [Nat.add fmap list_fmap]. rewrite mjoin_cons.
    cbn [mjoin list_join]. rewrite app_nil_r, Hr. split_and!.
    + intros Hi. apply StronglySorted_app. split_and!; [| by apply Hsort | by apply Hsort'].
      intros x y Hxx Hyy. eapply prefix_le_slices; [exact Hx | by apply Hin | by apply Hin'].
    + intros x Hxx. rewrite Hnext. apply elem_of_app in Hxx as [H | H]; apply elem_of_app; auto.
    + intros Hp. rewrite Hnext, <- Hperm, <- Hperm' by done. done.
    + intros Hp Hi Hc. eapply (prune_perm part ord _ _); [symmetry; exact Hnext | reflexivity |].
      apply (prune_app part ord _ _); [by apply Hsafe | by apply Hsafe'].
Qed.

(** All partitions are assigned and no thread works on one. *)
Definition all_finished (s : System (A := A)) : Prop :=
  next_partition_idx (shared s) = P /\ Forall (fun l => partition_idx l = None) (threads s).

Lemma owners_nil ts : Forall (fun l => partition_idx l = None) ts -> owners ts = [].
Proof. induction 1 as [| l ts Hl _ IH]; [done |]. cbn. by rewrite Hl. Qed.

Lemma all_finished_keys mat s :
  system_ok mat s -> all_finished s ->
  keys_ok (mjoin runs) (mjoin (result mat s <$> seq 0 P)).
Proof.
  intros Hs [Hn Hts].
  destruct (partitions_keys_ok mat (result mat s) P) as (cut & Hcut & Hok).
  - intros p Hp. apply (sys_done _ _ Hs). pose proof (sys_owners _ _ Hs) as Ho.
    rewrite owners_nil, Hn in Ho by done. cbn in Ho. rewrite Ho. apply elem_of_seq. lia.
  - rewrite keys_before_P in Hcut.
    rewrite (is_cut_unique _ _ _ _ _ Hcut (is_cut_all (key_lt m) runs)), prefix_keys_all in Hok.
    exact Hok.
Qed.

(** C2. Whatever the order in which the threads run, no assertion of the merger
    fails and no key is written outside of the allocation, every partition belongs to one
    thread at most, is not given out again once it is finished, and a thread
    merges its partition between the two cuts of the runs, although several
    threads may compute and publish the same boundary.  With Merge Pruning this
    assumes that the keys hold nothing behind the first ORDER BY column, which
    [extract_order_by] asserts of every key that it reads ([keys_asserted]): with two
    ORDER BY columns the assertion fails ([second_order_column_fails]). *)
Theorem interleavings_safe mat n schedule :
  Forall (fun c => (fst c < n)%nat) schedule ->
  exists s, run_system m mat n schedule = Some s /\
    NoDup (owners (threads s) ++ finished (events s)) /\
    forall t l i, threads s !! t = Some l -> partition_idx l = Some i ->
      task l = MERGE_PARTITION -> exact_boundaries i (local_boundaries l).
Proof.
  intros Hsched. destruct (run_system_ok mat n schedule Hsched) as (s & E & Hs & _).
  exists s. split_and!; [done | by eapply owners_NoDup |].
  intros t l i Hl Hi Ht. pose proof (sys_local _ _ Hs t l Hl) as Hloc.
  unfold local_ok in Hloc. rewrite Hi, Ht in Hloc.
  destruct Hloc as [_ Hloc]. destruct (point l); try done. apply Hloc.
Qed.

(** C3. When all partitions are scanned without Merge Pruning, the chunks that GetData
    returned, put together in the order of the partitions, are the keys of all
    runs in sorted order. *)
Theorem GetData_sorted n schedule s :
  Forall (fun c => (fst c < n)%nat) schedule -> run_system m false n schedule = Some s ->
  all_finished s -> do_merge_pruning m = false -> is_index_sort m = false ->
  let keys := mjoin (output s <$> seq 0 P) in
  keys ≡ₚ mjoin runs /\ StronglySorted (fun x y => key_lt m y x = false) keys.
Proof.
  intros Hsched E Hfin Hp Hi. destruct (run_system_ok false n schedule Hsched) as (s' & E' & Hs & _).
  rewrite E in E'. injection E' as <-.
  destruct (all_finished_keys false s Hs Hfin) as (Hsort & _ & Hperm & _).
  split; [by apply Hperm | by apply Hsort].
Qed.

(** C4. With Merge Pruning, on the runs and once more on the scan, of keys that
    [operator<] compares exactly by the two values that pruning reads from them
    ([keys_compare_columns]) and that hold nothing behind these ([keys_asserted]), the
    chunks are sorted and hold every row whose RANK or DENSE_RANK is at most the predicate:
    filtering them by either function gives the rows and the ranks that filtering
    all keys gives. *)
Theorem merge_pruning_safe n schedule s :
  Forall (fun c => (fst c < n)%nat) schedule -> run_system m false n schedule = Some s ->
  all_finished s -> do_merge_pruning m = true -> is_index_sort m = false -> keys_compare_columns ->
  let keys := mjoin (output s <$> seq 0 P) in
  let rank := rank (key_partition m) (key_order_by m) in
  let dense_rank := Pruning.dense_rank (key_partition m) (key_order_by m) in
  StronglySorted (fun x y => key_lt m y x = false) keys /\
  filter (fun r => rank keys r <= predicate m) keys ≡ₚ
    filter (fun r => rank (mjoin runs) r <= predicate m) (mjoin runs) /\
  filter (fun r => dense_rank keys r <= predicate m) keys ≡ₚ
    filter (fun r => dense_rank (mjoin runs) r <= predicate m) (mjoin runs) /\
  forall r, dense_rank keys r <= predicate m ->
    rank keys r = rank (mjoin runs) r /\ dense_rank keys r = dense_rank (mjoin runs) r.
Proof.
  intros Hsched E Hfin Hp Hi Hc. destruct (run_system_ok false n schedule Hsched) as (s' & E' & Hs & _).
  rewrite E in E'. injection E' as <-.
  destruct (all_finished_keys false s Hs Hfin) as (Hsort & _ & _ & Hsafe). cbn zeta.
  specialize (Hsafe Hp Hi Hc). split_and!.
  - by apply Hsort.
  - by apply (filter_pruned part ord _), safe_prune_rank.
  - by apply (filter_pruned part ord _).
  - intros r Hr.
    pose proof (pruned_smaller part ord (Pruning.dense_rank part ord) _ _ _ r Hsafe Hr) as Hsm.
    split; by apply (rk_smaller part ord).
Qed.

(** What a thread destroys of the runs of an external sort ends, in every
    run, at the cut behind a partition such that it and all partitions before it
    are scanned. *)
Theorem DestroyScannedData_scanned mat n schedule s p res ranges :
  Forall (fun c => (fst c < n)%nat) schedule -> run_system m mat n schedule = Some s ->
  ev_done p res ranges ∈ events s -> ranges <> [] ->
  exists e, (e < P)%nat /\ is_cut (keys_upto e) (snd <$> ranges) /\
    forall p', (p' <= e)%nat -> p' ∈ finished (events s).
Proof.
  intros Hsched E Hev Hne. destruct (run_system_ok mat n schedule Hsched) as (s' & E' & Hs & _).
  rewrite E in E'. injection E' as <-.
  pose proof (sys_events _ _ Hs) as Hall. rewrite Forall_forall in Hall.
  destruct (Hall _ Hev) as [_ [? | Hex]]; done.
Qed.

(** What ExecuteTask returned at the end of each partition. *)
Definition task_results (s : System (A := A)) : list SourceResultType :=
  omap (fun e => match e with ev_done _ res _ => Some res | _ => None end) (events s).

(** No thread ever gets FINISHED from ExecuteTask: [fetch_add] returns the
    count before the addition, which is less than the total.  The comment of
    MaterializeSortedRun says that the thread that completes the materialization
    returns FINISHED. *)
Theorem ExecuteTask_never_finished mat n schedule s :
  Forall (fun c => (fst c < n)%nat) schedule -> run_system m mat n schedule = Some s ->
  Forall (fun res => res = HAVE_MORE_OUTPUT) (task_results s).
Proof.
  intros Hsched E. destruct (run_system_ok mat n schedule Hsched) as (s' & E' & Hs & _).
  rewrite E in E'. injection E' as <-. pose proof (sys_events _ _ Hs) as Hall.
  unfold task_results. induction Hall as [| e evs He _ IH]; [constructor |].
  destruct e; cbn; [exact IH .. |]. constructor; [by destruct He | exact IH].
Qed.

(** ** Termination *)

Abbreviation keys_max := (Z.to_nat (partition_size m)).

(** A bound of the number of steps that a thread still makes for its partition. *)
Definition weight (l : LocalState (A := A)) : nat :=
  match partition_idx l, task l, point l with
  | Some i, COMPUTE_BOUNDARIES, at_start => keys_max + 12 + 2 * P
  | Some i, COMPUTE_BOUNDARIES, at_search p prev =>
      prev + if decide (p = i) then keys_max + 10 + P else keys_max + 6
  | Some i, COMPUTE_BOUNDARIES, at_publish_begin p =>
      if decide (p = i) then keys_max + 9 + P else keys_max + 5
  | Some i, COMPUTE_BOUNDARIES, at_publish_end p =>
      if decide (p = i) then keys_max + 8 + P else keys_max + 4
  | Some i, ACQUIRE_BOUNDARIES, at_start => keys_max + 7 + P
  | Some i, ACQUIRE_BOUNDARIES, at_copy => keys_max + 3
  | Some i, MERGE_PARTITION, at_start => keys_max + 2
  | Some i, SCAN_PARTITION, at_start =>
      S (length (merged_partition l) - Z.to_nat (merged_partition_index l))
  | _, _, _ => 0
  end.

Definition partition_weight : nat := keys_max + 13 + 2 * P.

(** The cases of [weight] after a step. *)
Ltac weigh Hi := unfold weight; cbn; rewrite ?Hi; repeat case_decide; simplify_eq; try lia.

Lemma compute_start_weight g l l' i :
  partition_idx l = Some i -> (i < P)%nat -> compute_start m i g l = Some l' ->
  (weight l' < keys_max + 12 + 2 * P)%nat.
Proof. unfold compute_start. intros Hi HiP E. opt_inv E; weigh Hi. Qed.

Lemma compute_search_weight g l l' i p prev :
  partition_idx l = Some i -> task l = COMPUTE_BOUNDARIES -> point l = at_search p prev ->
  compute_search m p prev g l = Some l' -> (weight l' < weight l)%nat.
Proof.
  intros Hi Ht Hp E. unfold weight at 2. rewrite Hi, Ht, Hp. unfold compute_search in E.
  destruct (Nat.ltb_spec 1 prev) in E; opt_inv E; weigh Hi.
Qed.

Lemma publish_begin_weight g l g' l' i p :
  partition_idx l = Some i -> task l = COMPUTE_BOUNDARIES -> point l = at_publish_begin p ->
  publish_begin m p g l = Some (g', l') -> (weight l' < weight l)%nat.
Proof.
  intros Hi Ht Hp E. unfold weight at 2. rewrite Hi, Ht, Hp. unfold publish_begin in E.
  opt_inv E; weigh Hi.
Qed.

Lemma publish_end_weight g l g' l' i p :
  partition_idx l = Some i -> task l = COMPUTE_BOUNDARIES -> point l = at_publish_end p ->
  publish_end p g l = Some (g', l') -> (weight l' < weight l)%nat.
Proof.
  intros Hi Ht Hp E. unfold weight at 2. rewrite Hi, Ht, Hp. unfold publish_end in E.
  rewrite Hi in E. destruct (decide (Some i = Some p)) in E; opt_inv E; weigh Hi.
Qed.

Lemma acquire_start_weight g l l' i :
  partition_idx l = Some i -> (i < P)%nat -> acquire_start m i g l = Some l' ->
  (weight l' < keys_max + 7 + P)%nat.
Proof.
  intros Hi HiP E. unfold acquire_start in E. destruct (partitions g !! i); [cbn in E | done].
  destruct (begin_computed _); [injection E as <-; weigh Hi |]. destruct i as [| j]; [done |].
  unfold compute_start in E. opt_inv E; weigh Hi.
Qed.

(** A step that is not idle brings the end of the partition nearer. *)
Lemma step_kind_weight mat owns g l g' l' e :
  local_ok g l -> scan_ok l -> thread_step m mat owns g l = Some (g', l', e) ->
  step_kind mat g l g' l' e -> e <> ev_idle ->
  partition_idx l = None /\ next_partition_idx g' = S (next_partition_idx g) /\
    (next_partition_idx g < P)%nat /\ (weight l' < partition_weight)%nat \/
  next_partition_idx g' = next_partition_idx g /\ (weight l' < weight l)%nat.
Proof.
  intros Hl Hscan E Hk Hidle. pose proof Hl as Hl0. unfold local_ok in Hl.
  destruct Hk as [? | Hi Hi' Ht' HP Hn _ _ _ | i Hi Hi' Hti Hti' (Hn & _)
    | i Hi Hi' Hti Hpt Hti' Hpt' Eg Hm Hz | i chunk Hi Hti Eg Hmat Hc Hne | i ranges Hi Hi' Hti _ Hn _ _ _ _];
    [done | left | right; rewrite Hn | right; rewrite Eg | right; rewrite Eg | right; rewrite Hn];
    (split; [done |]).
  - unfold partition_weight. split_and!; [done | done |]. unfold thread_step, TaskFinished in E.
    rewrite Hi in Hl, E. destruct (task l) eqn:Ht; try done. cbn in E. unfold AssignTask in E.
    rewrite Hi, Ht in E. destruct (next_partition_idx g =? P)%nat; [done |].
    cbn in E. injection E as <- <-. weigh Hi.
  - rewrite Hi in Hl. destruct Hl as [HiP Hl]. unfold thread_step, TaskFinished in E. rewrite Hi in E.
    destruct (task l) eqn:Ht, (point l) as [| p prev | p | p |] eqn:Hp; try done;
      cbn [mbind option_bind] in E; unfold ExecuteTask in E; rewrite Ht, Hp, Hi in E.
    + destruct (compute_start m i g l) as [l1 |] eqn:E1; [| done]. injection E as <- <-.
      unfold weight at 2. rewrite Hi, Ht, Hp. by apply (compute_start_weight g l l1 i).
    + destruct (compute_search m p prev g l) as [l1 |] eqn:E1; [| done]. injection E as <- <-.
      by apply (compute_search_weight g l l1 i p prev).
    + destruct (publish_begin m p g l) as [[g1 l1] |] eqn:E1; [| done]. injection E as <- <-.
      by apply (publish_begin_weight g l g1 l1 i p).
    + destruct (publish_end p g l) as [[g1 l1] |] eqn:E1; [| done]. injection E as <- <-.
      by apply (publish_end_weight g l g1 l1 i p).
    + destruct (acquire_start m i g l) as [l1 |] eqn:E1; [| done]. injection E as <- <-.
      unfold weight at 2. rewrite Hi, Ht, Hp. by apply (acquire_start_weight g l l1 i).
    + destruct (acquire_copy i g l) as [l1 |] eqn:E1; [| done]. injection E as <- <-.
      unfold weight at 2. rewrite Hi, Ht, Hp. unfold acquire_copy in E1. opt_inv E1. weigh Hi.
    + unfold merge_partition in E. destruct (TemplatedMergePartition m _) as [[k sk] |]; [| done].
      cbn in E. injection E as <- <-. done.
  - destruct Hm as (bs & Hx & Em).
    destruct (TemplatedMergePartition_Some i bs Hx) as (k & sk & Em' & Hperm & _).
    rewrite Em in Em'. injection Em' as <- <-.
    destruct (read_keys_bound i bs Hx) as [_ Hfit]. rewrite <- Hperm in Hfit.
    unfold weight. rewrite Hi, Hi', Hti, Hti', Hpt, Hpt', Hz. lia.
  - destruct (TemplatedScanPartition_spec _ _ _ Hc (proj1 (Hscan Hti))) as
      (_ & _ & Hidx & Hlt & _ & Hmp & Hpi & Htask & Hpt & _).
    rewrite Hi, Hti in Hl. destruct Hl as [_ Hl]. destruct (point l) eqn:Hp; try done.
    unfold weight. rewrite Hpi, Htask, Hpt, Hi, Hti, Hp, Hmp. specialize (Hlt Hne). destruct (Hscan Hti). lia.
  - rewrite Hi, Hti in Hl. destruct Hl as [_ Hl]. destruct (point l) eqn:Hp; try done.
    unfold weight. rewrite Hi, Hi', Hti, Hp. lia.
Qed.

Definition total_weight (ts : list (LocalState (A := A))) : Z :=
  zsum (fun l => Z.of_nat (weight l)) ts.

(** A bound of the number of steps that all threads still make. *)
Definition measure (s : System (A := A)) : Z :=
  Z.of_nat (P - next_partition_idx (shared s)) * Z.of_nat partition_weight +
  total_weight (threads s).

(** The steps that were not idle. *)
Definition busy_steps (es : list (Event (A := A))) : Z :=
  zsum (fun e => match e with ev_idle => 0 | _ => 1 end) es.

Lemma system_step_measure mat s t owns s' :
  system_ok mat s -> system_step m mat s (t, owns) = Some s' ->
  busy_steps (events s') + measure s' <= busy_steps (events s) + measure s.
Proof.
  intros Hs E. unfold system_step in E. cbn [fst snd] in E.
  destruct (threads s !! t) as [l |] eqn:Hl; [| done]. cbn [mbind option_bind] in E.
  pose proof (sys_local _ _ Hs t l Hl) as Hloc. pose proof (sys_content _ _ Hs t l Hl) as Hc.
  assert (scan_ok l) as Hscan
    by (eapply scan_ok_content; [exact Hc |]; by eapply local_finished).
  destruct (thread_step_ok mat owns (shared s) l) as (g' & l' & e & Et & _ & Hk);
    [apply (sys_global _ _ Hs) | done | done |].
  rewrite Et in E. cbn [mbind option_bind] in E. injection E as <-.
  unfold measure, total_weight, busy_steps. cbn [shared threads events].
  rewrite zsum_app, zsum_cons, (zsum_insert _ _ _ _ _ Hl). cbn [zsum foldr].
  assert (e = ev_idle \/ e <> ev_idle) as [-> | Hidle] by (destruct e; first [by left | by right]).
  - inversion Hk; subst. lia.
  - assert (match e with ev_idle => 0 | _ => 1 end <= 1) by (by destruct e).
    destruct (step_kind_weight _ _ _ _ _ _ _ Hloc Hscan Et Hk Hidle) as
      [(Hi & Hn & HP & Hw) | (Hn & Hw)]; rewrite Hn; [| lia].
    assert (weight l = 0%nat) as E0 by (unfold weight; by rewrite Hi). rewrite E0. nia.
Qed.

Lemma run_system_measure mat n schedule s :
  Forall (fun c => (fst c < n)%nat) schedule -> run_system m mat n schedule = Some s ->
  busy_steps (events s) + measure s <= measure (System_new m n).
Proof.
  intros Hsched E. unfold run_system in E.
  assert (forall s0, system_ok mat s0 -> length (threads s0) = n ->
    ofold (system_step m mat) s0 schedule = Some s ->
    busy_steps (events s) + measure s <= busy_steps (events s0) + measure s0) as H.
  { clear E. induction Hsched as [| [t owns] schedule Ht _ IH]; intros s0 Hs0 Hn E.
    - injection E as <-. done.
    - rewrite ofold_cons in E.
      destruct (system_step_ok mat s0 t owns) as (s1 & E1 & Hs1 & Hl1); [done | cbn in Ht; lia |].
      rewrite E1 in E. cbn [mbind option_bind] in E.
      pose proof (system_step_measure _ _ _ _ _ Hs0 E1).
      specialize (IH s1 Hs1 ltac:(lia) E). lia. }
  apply (H _ (System_new_ok mat n) (length_replicate _ _) E).
Qed.

Lemma idle_step mat s t owns s' l :
  system_ok mat s -> threads s !! t = Some l -> system_step m mat s (t, owns) = Some s' ->
  events s' = events s ++ [ev_idle] ->
  partition_idx l = None /\ next_partition_idx (shared s) = P.
Proof.
  intros Hs Hl E He. unfold system_step in E. cbn [fst snd] in E. rewrite Hl in E.
  cbn [mbind option_bind] in E.
  destruct (thread_step_ok mat owns (shared s) l) as (g' & l' & e & Et & _ & Hk).
  { apply (sys_global _ _ Hs). } { by eapply sys_local. }
  { eapply scan_ok_content; [by eapply sys_content |]. eapply local_finished. by eapply sys_local. }
  rewrite Et in E. cbn [mbind option_bind] in E. injection E as <-. cbn in He.
  apply app_inv_head in He. injection He as ->. by inversion Hk.
Qed.

Lemma measure_nonneg s : 0 <= measure s.
Proof.
  unfold measure, total_weight. pose proof (zsum_nonneg (fun l => Z.of_nat (weight l)) (threads s)
    ltac:(intros; cbn; lia)). nia.
Qed.

Lemma measure_new n :
  measure (System_new m n) = Z.of_nat P * (partition_size m + 13 + 2 * Z.of_nat P).
Proof.
  unfold measure. cbn [System_new shared threads GlobalState_new next_partition_idx].
  assert (total_weight (replicate n LocalState_new) = 0) as ->.
  { unfold total_weight. clear. induction n as [| n IH]; [done |]. cbn [replicate].
    rewrite zsum_cons, IH. done. }
  unfold partition_weight. nia.
Qed.

(** C5. The merge ends: the threads make at most a fixed number of steps that are
    not idle, in every interleaving, and when no thread can make such a step all
    partitions are scanned and finished (with Merge Pruning, for keys that satisfy the
    assertion of [extract_order_by]). *)
Theorem merger_terminates mat n schedule s :
  (0 < n)%nat -> Forall (fun c => (fst c < n)%nat) schedule ->
  run_system m mat n schedule = Some s ->
  busy_steps (events s) <= Z.of_nat P * (partition_size m + 13 + 2 * Z.of_nat P) /\
  ((forall t, (t < n)%nat -> exists s', system_step m mat s (t, true) = Some s' /\
      events s' = events s ++ [ev_idle]) -> all_finished s).
Proof.
  intros Hn Hsched E. destruct (run_system_ok mat n schedule Hsched) as (s1 & E1 & Hs & Hlen).
  rewrite E in E1. injection E1 as <-. split.
  - pose proof (run_system_measure mat n schedule s Hsched E) as H.
    pose proof (measure_nonneg s). rewrite measure_new in H. lia.
  - intros Hidle.
    assert (forall t l, threads s !! t = Some l ->
      partition_idx l = None /\ next_partition_idx (shared s) = P) as Hall.
    { intros t l Hl. pose proof (lookup_lt_Some _ _ _ Hl) as Ht. rewrite Hlen in Ht.
      destruct (Hidle t Ht) as (s' & Es & He). by eapply idle_step. }
    destruct (lookup_lt_is_Some_2 (threads s) 0) as [l0 Hl0]; [lia |]. split.
    + by apply (Hall 0%nat l0).
    + apply Forall_lookup. intros t l Hl. by apply (Hall t l).
Qed.

(** ** The materialized run *)

(** The runs that are materialized are those of the finished partitions. *)
Definition materialized_ok (s : System (A := A)) : Prop :=
  (length (materialized_partitions (shared s)) <= P)%nat /\
  forall p, (exists keys, materialized_partitions (shared s) !! p = Some (Some keys)) <->
    p ∈ finished (events s).

Lemma MaterializePartition_lookup g l i p :
  (exists keys, materialized_partitions (fst (MaterializePartition i g l)) !! p = Some (Some keys)) <->
  (exists keys, materialized_partitions g !! p = Some (Some keys)) \/ p = i.
Proof.
  cbn [MaterializePartition fst materialized_partitions]. set (mp := materialized_partitions g).
  assert (i < length (mp ++ replicate (S i - length mp) None))%nat as Hlt
    by (rewrite length_app, length_replicate; lia).
  destruct (decide (p = i)) as [-> | Hne].
  - rewrite list_lookup_insert_eq by done. split; [by right | by eexists].
  - rewrite list_lookup_insert_ne by done. split; [intros [k Hk]; left | intros [[k Hk] | ?]; [| done]].
    + exists k. apply lookup_app_Some in Hk as [| [_ Hk]]; [done |].
      by apply lookup_replicate in Hk as [? _].
    + exists k. by apply lookup_app_l_Some.
Qed.

Lemma MaterializePartition_length g l i :
  (i < P)%nat -> (length (materialized_partitions g) <= P)%nat ->
  (length (materialized_partitions (fst (MaterializePartition i g l))) <= P)%nat.
Proof.
  intros. cbn [MaterializePartition fst materialized_partitions].
  rewrite length_insert, length_app, length_replicate. lia.
Qed.

Lemma system_step_materialized s t owns s' :
  system_ok true s -> materialized_ok s -> system_step m true s (t, owns) = Some s' ->
  materialized_ok s'.
Proof.
  intros Hs [Hlen Hmat] E. unfold system_step in E. cbn [fst snd] in E.
  destruct (threads s !! t) as [l |] eqn:Hl; [| done]. cbn [mbind option_bind] in E.
  pose proof (sys_local _ _ Hs t l Hl) as Hloc.
  destruct (thread_step_ok true owns (shared s) l) as (g' & l' & e & Et & _ & Hk).
  { apply (sys_global _ _ Hs). } { done. }
  { eapply scan_ok_content; [by eapply sys_content |]. by eapply local_finished. }
  rewrite Et in E. cbn [mbind option_bind] in E. injection E as <-.
  unfold materialized_ok. cbn [shared events].
  setoid_rewrite finished_snoc. setoid_rewrite elem_of_app.
  destruct Hk as [-> ? ? ? | ? ? ? ? ? ? ? Hm | ? ? ? ? ? (_ & _ & _ & _ & Hm)
    | ? ? ? ? ? ? ? -> ? ? | ? ? ? ? ? ? ? ? | i ranges Hi ? ? ? ? ? ? Hm ?];
    try done; rewrite ?Hm.
  1-4: (split; [done |]; intros p; rewrite Hmat; split; [by left | by intros [| ?%not_elem_of_nil]]).
  unfold local_ok in Hloc. rewrite Hi in Hloc. split.
  - apply MaterializePartition_length; [apply Hloc | done].
  - intros p. rewrite MaterializePartition_lookup, Hmat, list_elem_of_singleton. done.
Qed.

Lemma run_system_materialized n schedule s :
  Forall (fun c => (fst c < n)%nat) schedule -> run_system m true n schedule = Some s ->
  materialized_ok s.
Proof.
  intros Hsched E. unfold run_system in E.
  assert (forall s0, system_ok true s0 -> materialized_ok s0 -> length (threads s0) = n ->
    ofold (system_step m true) s0 schedule = Some s -> materialized_ok s) as H.
  { clear E. induction Hsched as [| [t owns] schedule Ht _ IH]; intros s0 Hs0 Hm0 Hn E.
    - by injection E as <-.
    - rewrite ofold_cons in E.
      destruct (system_step_ok true s0 t owns) as (s1 & E1 & Hs1 & Hl1); [done | cbn in Ht; lia |].
      pose proof (system_step_materialized _ _ _ _ Hs0 Hm0 E1). rewrite E1 in E.
      apply (IH s1); [done | done | lia | done]. }
  apply (H (System_new m n)); [apply System_new_ok | | apply length_replicate | done].
  split; [cbn; lia |]. intros p. cbn. split; [by intros [? ?] | by intros ?%not_elem_of_nil].
Qed.

Lemma mapM_id_Some (l : list (option (list A))) (r : nat -> list A) :
  (forall p, (p < length l)%nat -> l !! p = Some (Some (r p))) ->
  mapM id l = Some (r <$> seq 0 (length l)).
Proof.
  revert r. induction l as [| x l IH]; intros r H; [done |].
  pose proof (H 0%nat ltac:(cbn; lia)) as H0. injection H0 as ->.
  cbn [mapM length seq fmap list_fmap]. cbn. rewrite (IH (fun p => r (S p))).
  - cbn. by rewrite <- fmap_S_seq, <- list_fmap_compose.
  - intros p Hp. apply (H (S p)). cbn. lia.
Qed.

(** When all partitions are materialized, GetSortedRun puts one run together
    that holds the keys of all runs in sorted order (with Merge Pruning, those
    that are needed for a predicate on RANK or DENSE_RANK). *)
Theorem GetSortedRun_sorted n schedule s :
  Forall (fun c => (fst c < n)%nat) schedule -> run_system m true n schedule = Some s ->
  all_finished s -> is_index_sort m = false -> (0 < P)%nat ->
  exists keys, GetSortedRun (shared s) = Some keys /\
    StronglySorted (fun x y => key_lt m y x = false) keys /\
    (do_merge_pruning m = false -> keys ≡ₚ mjoin runs) /\
    (do_merge_pruning m = true -> keys_compare_columns ->
     Pruning.safe_prune (key_partition m) (key_order_by m) (predicate m) (mjoin runs) keys).
Proof.
  intros Hsched E Hfin Hi HP. destruct (run_system_ok true n schedule Hsched) as (s' & E' & Hs & _).
  rewrite E in E'. injection E' as <-.
  destruct (run_system_materialized n schedule s Hsched E) as [Hlen Hmat].
  destruct (all_finished_keys true s Hs Hfin) as (Hsort & _ & Hperm & Hsafe).
  assert (forall p, (p < P)%nat -> p ∈ finished (events s)) as Hall.
  { intros p Hp. pose proof (sys_owners _ _ Hs) as Ho. destruct Hfin as [Hn Hts].
    rewrite owners_nil, Hn in Ho by done. cbn in Ho. rewrite Ho. apply elem_of_seq. lia. }
  assert (length (materialized_partitions (shared s)) = P) as HlenP.
  { destruct (proj2 (Hmat (P - 1)%nat)) as [k Hk]; [apply Hall; lia |].
    apply lookup_lt_Some in Hk. lia. }
  exists (mjoin (result true s <$> seq 0 P)).
  assert (mapM id (materialized_partitions (shared s)) = Some (result true s <$> seq 0 P)) as Hmap.
  { rewrite <- HlenP. apply mapM_id_Some. intros p Hp. rewrite HlenP in Hp.
    destruct (proj2 (Hmat p)) as [k Hk]; [by apply Hall |]. unfold result. by rewrite Hk. }
  split; [| split; [by apply Hsort | split; [done | intros; by apply Hsafe]]].
  unfold GetSortedRun. rewrite Hmap. destruct (materialized_partitions (shared s)); [cbn in HlenP; lia | done].
Qed.
End invariant.

(** ** Keys of two columns

    The keys of NO_PAYLOAD_FIXED_16 that are made of a nullable 4-byte PARTITION BY
    column and a nullable 4-byte ORDER BY column meet what pruning needs. *)

#[export] Instance SortKeyLessThan_order n : StrictWeakOrder (SortKeyLessThan n).
Proof.
  assert (forall n l r, SortKeyLessThan (S n) l r =
    (hd 0 l <? hd 0 r) || ((hd 0 l =? hd 0 r) && SortKeyLessThan n (tl l) (tl r))) as E.
  { intros [| n'] l r; [| done]. cbn. by rewrite andb_false_r, orb_false_r. }
  induction n as [| n IH]; split; try done.
  - intros l r. rewrite !E. pose proof (swo_asym (lt := SortKeyLessThan n) (tl l) (tl r)) as Ha.
    destruct (Z.ltb_spec (hd 0 l) (hd 0 r)), (Z.ltb_spec (hd 0 r) (hd 0 l)),
      (Z.eqb_spec (hd 0 l) (hd 0 r)), (Z.eqb_spec (hd 0 r) (hd 0 l)); cbn; auto || lia.
  - intros l k r. rewrite !E. pose proof (swo_cotrans (lt := SortKeyLessThan n) (tl l) (tl k) (tl r)) as Hc.
    destruct (Z.ltb_spec (hd 0 l) (hd 0 k)), (Z.ltb_spec (hd 0 k) (hd 0 r)); cbn [orb]; auto.
    destruct (Z.ltb_spec (hd 0 l) (hd 0 r)), (Z.eqb_spec (hd 0 l) (hd 0 r)); cbn [orb andb]; try lia || done.
    by rewrite (proj2 (Z.eqb_eq (hd 0 l) (hd 0 k))), (proj2 (Z.eqb_eq (hd 0 k) (hd 0 r))) by lia.
Qed.

Definition traits_16 : SortKeyTraits := FixedSortKey 2 16 false.

#[export] Instance FixedLess_order k : StrictWeakOrder (FixedLess k).
Proof.
  unfold FixedLess. split; [intros x y; apply swo_asym | intros x y z; apply swo_cotrans].
Qed.

Definition int_key (k : SortKey) : Prop :=
  exists p o, Forall is_byte p /\ Forall is_byte o /\ length p = 5%nat /\ length o = 5%nat /\
    key_of_columns p o = Some k.

(** The merger that reads its keys as the code does. *)
Definition int_merger (runs : list (list SortKey)) (size k : Z) (threads : nat)
    (sort : list SortKey -> list SortKey) : SortedRunMerger (A := SortKey) := {|
  sorted_runs := runs; partition_size := size; external := false; is_index_sort := false;
  use_filter := true; fixed_16 := true; key_lt := FixedLess traits_16;
  key_partition := extract_partition; key_order_by := order_by_value; key_asserted := order_by_asserted;
  predicate := k; num_threads := threads; TuplesPerBlock := 1; vergesort := sort |}.

Lemma int_keys k k' :
  int_key k -> int_key k' ->
  order_by_asserted k = true /\
  FixedLess traits_16 k k' = (extract_partition k <? extract_partition k') ||
    ((extract_partition k =? extract_partition k') && (order_by_value k <? order_by_value k')).
Proof.
  intros (p & o & Hp & Ho & Lp & Lo & E) (p' & o' & Hp' & Ho' & Lp' & Lo' & E').
  destruct (extract_columns p o p' o') as (k1 & k2 & E1 & E2 & _ & Ea & El); [done .. |].
  rewrite E in E1. injection E1 as <-. rewrite E' in E2. injection E2 as <-. split; [| exact El].
  unfold extract_order_by in Ea. by destruct (order_by_asserted k).
Qed.

(** C39. Merge Pruning of the keys of a nullable 4-byte PARTITION BY column and a
    nullable 4-byte ORDER BY column: in every interleaving no assertion of the merger
    fails, the one about the ORDER BY column included, and when all partitions are
    scanned the chunks give the same rows and ranks for a predicate on RANK as all
    keys.  The columns are read from the bytes of the keys and compared as the code
    does. *)
Theorem int_columns_pruned runs size k threads sort n schedule :
  Forall (StronglySorted (fun x y => FixedLess traits_16 y x = false)) runs -> 0 < size ->
  (forall keys, sort keys ≡ₚ keys /\ StronglySorted (fun x y => FixedLess traits_16 y x = false) (sort keys)) ->
  (1 <= threads)%nat -> Forall int_key (mjoin runs) -> Forall (fun c => (fst c < n)%nat) schedule ->
  exists s, run_system (int_merger runs size k threads sort) false n schedule = Some s /\
    (all_finished (int_merger runs size k threads sort) s ->
     let keys := mjoin (output s <$> seq 0 (merger_partitions (int_merger runs size k threads sort))) in
     let rank := Pruning.rank extract_partition order_by_value in
     StronglySorted (fun x y => FixedLess traits_16 y x = false) keys /\
     filter (fun r => rank keys r <= k) keys ≡ₚ filter (fun r => rank (mjoin runs) r <= k) (mjoin runs)).
Proof.
  intros Hruns Hsize Hsort Hthreads Hkeys Hsched. set (m := int_merger _ _ _ _ _).
  rewrite Forall_forall in Hkeys.
  assert (keys_asserted m (mjoin (sorted_runs m))) as Ha.
  { intros _. apply Forall_forall. intros x Hx. by apply (int_keys x x); apply Hkeys. }
  assert (keys_compare_columns m) as Hc.
  { intros x y Hx Hy. by apply int_keys; apply Hkeys. }
  destruct (run_system_ok m Hruns Hsize Hsort Ha Hthreads false n schedule Hsched) as (s & E & Hs & _).
  exists s. split; [done |]. intros Hfin.
  destruct (all_finished_keys m Hruns Hsize Hsort Ha Hthreads false s Hs Hfin) as (Hsorted & _ & _ & Hsafe).
  split; [by apply Hsorted |].
  by apply (filter_pruned extract_partition order_by_value _), safe_prune_rank, Hsafe.
Qed.

(** ** Witnesses

    Three runs of keys that hold the partition and the order value as quotient and
    remainder by 4, merged by two threads that alternate. *)

Definition example_merger : SortedRunMerger (A := Z) := {|
  sorted_runs := [[1; 4; 4; 6]; [2; 4; 5]; [4]];
  partition_size := 3; external := true; is_index_sort := false; use_filter := true;
  fixed_16 := true; key_lt := Z.ltb; key_partition := fun x => x / 4;
  key_order_by := fun x => x mod 4; key_asserted := fun _ => true; predicate := 1; num_threads := 1; TuplesPerBlock := 1;
  vergesort := merge_sort Z.le |}.

Definition example_merger_all : SortedRunMerger (A := Z) := {|
  sorted_runs := [[1; 4; 4; 6]; [2; 4; 5]; [4]];
  partition_size := 3; external := true; is_index_sort := false; use_filter := false;
  fixed_16 := true; key_lt := Z.ltb; key_partition := fun x => x / 4;
  key_order_by := fun x => x mod 4; key_asserted := fun _ => true; predicate := 1; num_threads := 1; TuplesPerBlock := 1;
  vergesort := merge_sort Z.le |}.

(** The assertion about the keys holds. *)
Lemma example_asserted (keys : list Z) (b : bool) :
  b = true -> Forall (fun _ => true = true) keys.
Proof. intros _. by apply Forall_true. Qed.

Definition example_schedule : list (nat * bool) := mjoin (replicate 30 [(0%nat, true); (1%nat, true)]).

Definition final_system (m : SortedRunMerger (A := Z)) (materialize : bool) : System (A := Z) :=
  default (System_new m 2) (run_system m materialize 2 example_schedule).

Lemma example_runs :
  Forall (StronglySorted (fun x y => Z.ltb y x = false)) [[1; 4; 4; 6]; [2; 4; 5]; [4]].
Proof. repeat constructor. Qed.

Lemma merge_sort_runs (keys : list Z) :
  merge_sort Z.le keys ≡ₚ keys /\ StronglySorted (fun x y => Z.ltb y x = false) (merge_sort Z.le keys).
Proof.
  split; [apply merge_sort_Permutation |].
  rewrite <- (list_fmap_id (merge_sort Z.le keys)).
  apply (StronglySorted_fmap _ Z.le); [intros x y H; cbn in *; lia |].
  apply (StronglySorted_merge_sort Z.le).
Qed.

Lemma example_final m mat :
  is_Some (run_system m mat 2 example_schedule) ->
  run_system m mat 2 example_schedule = Some (final_system m mat).
Proof. intros [s E]. unfold final_system. by rewrite E. Qed.

Lemma example_schedule_threads : Forall (fun c => (fst c < 2)%nat) example_schedule.
Proof. unfold example_schedule. cbn. repeat constructor. Qed.

(** The order of the example's keys is the order of their columns. *)
Lemma example_columns : keys_compare_columns example_merger.
Proof.
  intros x y _ _. cbn. pose proof (Z.div_mod x 4 ltac:(lia)). pose proof (Z.div_mod y 4 ltac:(lia)).
  pose proof (Z.mod_pos_bound x 4). pose proof (Z.mod_pos_bound y 4).
  destruct (Z.ltb_spec x y), (Z.ltb_spec (x / 4) (y / 4)), (Z.eqb_spec (x / 4) (y / 4)),
    (Z.ltb_spec (x mod 4) (y mod 4)); cbn; lia || done.
Qed.

Lemma interleavings_safe_witness :
  exists s, run_system example_merger true 2 (take 30 example_schedule) = Some s /\
    NoDup (owners (threads s) ++ finished (events s)) /\
    forall t l i, threads s !! t = Some l -> partition_idx l = Some i ->
      task l = MERGE_PARTITION -> exact_boundaries example_merger i (local_boundaries l).
Proof.
  apply (interleavings_safe example_merger example_runs eq_refl merge_sort_runs (example_asserted _ _) (le_n 1)).
  apply Forall_take. exact example_schedule_threads.
Defined.

Lemma GetData_sorted_witness :
  mjoin (output (final_system example_merger_all false) <$> seq 0 3) ≡ₚ [1; 4; 4; 6; 2; 4; 5; 4] /\
  StronglySorted (fun x y => Z.ltb y x = false)
    (mjoin (output (final_system example_merger_all false) <$> seq 0 3)).
Proof.
  apply (GetData_sorted example_merger_all example_runs eq_refl merge_sort_runs (example_asserted _ _) (le_n 1)
    2 example_schedule); [exact example_schedule_threads | apply example_final; vm_compute; by eexists |
    | done | done].
  split; [done | vm_compute; repeat constructor].
Defined.

Lemma merge_pruning_safe_witness :
  let keys := [1; 4; 4; 4; 4; 5] in
  mjoin (output (final_system example_merger false) <$> seq 0 (merger_partitions example_merger)) = keys /\
  filter (fun r => rank (key_partition example_merger) (key_order_by example_merger) keys r <=
      predicate example_merger) keys ≡ₚ
    filter (fun r => rank (key_partition example_merger) (key_order_by example_merger)
        (mjoin (sorted_runs example_merger)) r <= predicate example_merger)
      (mjoin (sorted_runs example_merger)).
Proof.
  assert (mjoin (output (final_system example_merger false) <$>
      seq 0 (merger_partitions example_merger)) = [1; 4; 4; 4; 4; 5]) as E by (vm_compute; reflexivity).
  pose proof (merge_pruning_safe example_merger example_runs eq_refl merge_sort_runs (example_asserted _ _) (le_n 1)
    2 example_schedule (final_system example_merger false) example_schedule_threads) as H.
  cbv zeta in H. rewrite E in H. split; [exact E |].
  apply H; [apply example_final; vm_compute; by eexists | | done | done | exact example_columns].
  split; [done | vm_compute; repeat constructor].
Defined.

Lemma DestroyScannedData_scanned_witness :
  exists e, (e < 3)%nat /\
    MergePath.is_cut Z.ltb (sorted_runs example_merger) (keys_upto example_merger e) [3; 2; 1] /\
    forall p', (p' <= e)%nat -> p' ∈ finished (events (final_system example_merger true)).
Proof.
  apply (DestroyScannedData_scanned example_merger example_runs eq_refl merge_sort_runs (example_asserted _ _) (le_n 1)
    true 2 example_schedule _ 2 HAVE_MORE_OUTPUT [(0, 3); (0, 2); (0, 1)]);
    [exact example_schedule_threads | apply example_final; vm_compute; by eexists | | discriminate].
  apply list_elem_of_lookup_2 with 26%nat. vm_compute. reflexivity.
Defined.

Lemma ExecuteTask_never_finished_witness :
  length (task_results (final_system example_merger false)) = 3%nat /\
  Forall (fun res => res = HAVE_MORE_OUTPUT) (task_results (final_system example_merger false)).
Proof.
  split; [vm_compute; reflexivity |].
  apply (ExecuteTask_never_finished example_merger example_runs eq_refl merge_sort_runs (example_asserted _ _) (le_n 1)
    false 2 example_schedule); [exact example_schedule_threads |].
  apply example_final; vm_compute; by eexists.
Defined.

Lemma merger_terminates_witness :
  busy_steps (events (final_system example_merger false)) <= 3 * (3 + 13 + 2 * 3) /\
  all_finished example_merger (final_system example_merger false).
Proof.
  destruct (merger_terminates example_merger example_runs eq_refl merge_sort_runs (example_asserted _ _) (le_n 1)
    false 2 example_schedule (final_system example_merger false)) as [Hb Hf];
    [lia | exact example_schedule_threads | apply example_final; vm_compute; by eexists |].
  split; [exact Hb | apply Hf]. intros [| [| t]] Ht; [| | lia].
  - eexists. split; vm_compute; reflexivity.
  - eexists. split; vm_compute; reflexivity.
Defined.

Lemma GetSortedRun_sorted_witness :
  exists keys, GetSortedRun (shared (final_system example_merger true)) = Some keys /\
    StronglySorted (fun x y => Z.ltb y x = false) keys /\
    (do_merge_pruning example_merger = false -> keys ≡ₚ [1; 4; 4; 6; 2; 4; 5; 4]) /\
    (do_merge_pruning example_merger = true -> keys_compare_columns example_merger ->
     Pruning.safe_prune (fun x => x / 4) (fun x => x mod 4) 1 [1; 4; 4; 6; 2; 4; 5; 4] keys).
Proof.
  apply (GetSortedRun_sorted example_merger example_runs eq_refl merge_sort_runs (example_asserted _ _) (le_n 1)
    2 example_schedule); [exact example_schedule_threads | apply example_final; vm_compute; by eexists |
    | done | vm_compute; lia].
  split; [done | vm_compute; repeat constructor].
Defined.

(** A key whose assertion fails is not read. *)
Example second_order_column_fails :
  run_system {| sorted_runs := [[1; 2]]; partition_size := 3; external := false; is_index_sort := false;
    use_filter := true; fixed_16 := true; key_lt := Z.ltb; key_partition := fun x => x / 4;
    key_order_by := fun x => x mod 4; key_asserted := fun x => x =? 1; predicate := 1; num_threads := 1;
    TuplesPerBlock := 1; vergesort := merge_sort Z.le |} false 1 (replicate 10 (0%nat, true)) = None.
Proof. vm_compute. reflexivity. Qed.

(** Keys with PARTITION BY values 0 and 1 and ORDER BY values 1, 2 and 3. *)
Definition example_int_key (p o : Z) : SortKey :=
  default {| parts := []; size := 0; data := 0; payload := 0 |}
    (key_of_columns [1; 128; 0; 0; p] [1; 128; 0; 0; o]).

Lemma example_int_key_ok p o : 0 <= p < 256 -> 0 <= o < 256 -> int_key (example_int_key p o).
Proof.
  intros Hp Ho.
  assert (forall b, 0 <= b < 256 -> Forall is_byte [1; 128; 0; 0; b]) as Hb
    by (intros; unfold is_byte; repeat constructor; lia).
  destruct (key_of_columns_parts [1; 128; 0; 0; p] [1; 128; 0; 0; o]) as (key & _ & _ & E & _); [auto | auto | done .. |].
  exists [1; 128; 0; 0; p], [1; 128; 0; 0; o]. unfold example_int_key. rewrite E. split_and!; auto.
Qed.

Definition key_leb (x y : SortKey) : Prop := FixedLess traits_16 y x = false.

#[local] Instance key_leb_dec x y : Decision (key_leb x y).
Proof. unfold key_leb. apply _. Defined.

Definition example_int_runs : list (list SortKey) :=
  [[example_int_key 0 1; example_int_key 0 3; example_int_key 1 2]; [example_int_key 0 2; example_int_key 1 1]].

Definition example_int_merger : SortedRunMerger (A := SortKey) :=
  int_merger example_int_runs 2 1 2 (merge_sort key_leb).

Lemma key_leb_sort (keys : list SortKey) :
  merge_sort key_leb keys ≡ₚ keys /\ StronglySorted key_leb (merge_sort key_leb keys).
Proof.
  assert (Total key_leb).
  { intros x y. unfold key_leb. destruct (FixedLess traits_16 y x) eqn:E; [right; by apply swo_asym | by left]. }
  assert (Transitive key_leb).
  { intros x y z. unfold key_leb. intros Hxy Hyz. destruct (FixedLess traits_16 z x) eqn:E; [| done].
    destruct (swo_cotrans z y x E); congruence. }
  split; [apply merge_sort_Permutation | apply (StronglySorted_merge_sort key_leb)].
Qed.

(** What the two threads return. *)
Definition example_int_kept : list SortKey :=
  [example_int_key 0 1; example_int_key 0 3; example_int_key 1 1; example_int_key 1 2].

Lemma int_columns_pruned_witness :
  exists s, run_system example_int_merger false 2 example_schedule = Some s /\
    all_finished example_int_merger s /\
    mjoin (output s <$> seq 0 3) = example_int_kept /\
    filter (fun r => Pruning.rank extract_partition order_by_value example_int_kept r <= 1)
      example_int_kept ≡ₚ
    filter (fun r => Pruning.rank extract_partition order_by_value (mjoin example_int_runs) r <= 1)
      (mjoin example_int_runs).
Proof.
  edestruct (int_columns_pruned example_int_runs 2 1 2 (merge_sort key_leb) 2 example_schedule) as (s & E & H).
  - repeat constructor.
  - lia.
  - exact key_leb_sort.
  - lia.
  - repeat constructor; apply example_int_key_ok; lia.
  - exact example_schedule_threads.
  - exists s. split; [exact E |].
    assert (s = default (System_new example_int_merger 2)
      (run_system example_int_merger false 2 example_schedule)) as Es by (unfold example_int_merger; by rewrite E).
    assert (all_finished example_int_merger s) as Hfin.
    { rewrite Es. split; [vm_compute; reflexivity |]. apply (bool_decide_unpack _). vm_compute. exact I. }
    assert (mjoin (output s <$> seq 0 3) = example_int_kept) as Ek
      by (rewrite Es; vm_compute; reflexivity).
    split_and!; [done | done |]. destruct (H Hfin) as [_ Hf]. cbv zeta in Hf.
    change (merger_partitions (int_merger _ _ _ _ _)) with 3%nat in Hf. rewrite Ek in Hf. exact Hf.
Defined.
