(* ===== verification/SortSource.v ===== *)
(** * The source of the sort operator

    The source part of common/sort/sort.cpp, common/types/batched_data_collection.cpp and
    the tasks of common/sort/hashed_sort.cpp that materialize a hash group: every
    task scans chunks from the merger (SortedRunMerger) into a collection of its
    own, in which the chunks of a partition are a batch, then merges it into the
    collection of the sort, and the last task takes the batches in their order as
    the columns of the hash group.

    A task runs from one critical section or atomic access to the next, its calls of
    the merger one step of the merger at a time.  A result of [None] is a failed
    assertion, an exception or an access to runs that were destroyed. *)

From S2P Require Import Prelude MergePath Sort SortedRunMerger MergerInvariant.

(** ** BatchedDataCollection *)

Section batches.
Context {A : Type}.

Record BatchedDataCollection := {
  data : gmap nat (list A);
  (* the batch of the last collection *)
  last_collection : option nat
}.

Definition BatchedDataCollection_new : BatchedDataCollection :=
  {| data := ∅; last_collection := None |}.

Definition Append (input : list A) (batch_index : nat) (c : BatchedDataCollection)
    : option BatchedDataCollection :=
  if decide (last_collection c = Some batch_index) then
    collection ← data c !! batch_index;
    Some {| data := <[batch_index := collection ++ input]> (data c); last_collection := last_collection c |}
  else
    match data c !! batch_index with
    | Some _ => None
    | None => Some {| data := <[batch_index := input]> (data c); last_collection := Some batch_index |}
    end.

(** The collection after the merge, and [other]. *)
Definition Merge (c other : BatchedDataCollection)
    : option (BatchedDataCollection * BatchedDataCollection) :=
  if decide (map_Forall (fun batch_index _ => data c !! batch_index = None) (data other)) then
    Some ({| data := data c ∪ data other; last_collection := last_collection c |},
          {| data := ∅; last_collection := last_collection other |})
  else None.

Definition batch_le (x y : nat * list A) : Prop := (fst x <= fst y)%nat.

#[export] Instance batch_le_dec x y : Decision (batch_le x y).
Proof. unfold batch_le. apply _. Defined.

Definition FetchCollection (c : BatchedDataCollection) : list A * BatchedDataCollection :=
  (mjoin (snd <$> merge_sort batch_le (map_to_list (data c))),
   {| data := ∅; last_collection := last_collection c |}).
End batches.
Arguments BatchedDataCollection : clear implicits.

(** ** The merger of a sink *)

Section source.
Context {A : Type}.

(** The merger's count of its runs, all of which must be finalized. *)
Fixpoint SortedRunsTotalCount (sorted_runs : list (SortedRun A)) : option Z :=
  match sorted_runs with
  | [] => Some 0
  | sorted_run :: sorted_runs =>
      if finalized sorted_run then
        total_count ← SortedRunsTotalCount sorted_runs;
        Some (Z.of_nat (length (run_rows sorted_run)) + total_count)
      else None
  end.

(** [config] has what the merger does not get from the sink: the key type, the
    configuration and the sort of a partition. *)
Definition SortGlobalSourceState_merger (config : SortedRunMerger) (sink : SortGlobalSinkState A)
    : option SortedRunMerger :=
  _ ← SortedRunsTotalCount (sg_sorted_runs sink);
  Some
  {| sorted_runs := run_rows <$> sg_sorted_runs sink;
     partition_size := sg_partition_size sink;
     external := Sort.sg_external sink;
     is_index_sort := false;
     use_filter := use_filter config; fixed_16 := fixed_16 config; key_lt := key_lt config;
     key_partition := key_partition config; key_order_by := key_order_by config;
     key_asserted := key_asserted config;
     predicate := predicate config; num_threads := num_threads config;
     TuplesPerBlock := TuplesPerBlock config; vergesort := vergesort config |}.

(** ** The tasks of a hash group *)

(** Where a task is: in the loop of [MaterializeColumnData], before its merge into
    the collection of the sort, before it reads the progress, before the count of
    the completed tasks, or at its end. *)
Inductive TaskPc : Set :=
  | mat_scan
  | mat_merge
  | mat_check
  | mat_complete (res : SourceResultType)
  | mat_done.

#[export] Instance TaskPc_eq_dec : EqDecision TaskPc.
Proof. assert (EqDecision SourceResultType) by solve_decision. solve_decision. Defined.

Record SourceTask := {
  task_pc : TaskPc;
  local_column_data : BatchedDataCollection A
}.

Record SourceSystem := {
  merger_state : System (A := A);
  column_data : option (BatchedDataCollection A);
  (* the runs are destroyed *)
  runs_destroyed : bool;
  source_tasks : list SourceTask;
  tasks_completed : nat;
  hash_group_columns : option (list A)
}.

Context (m : SortedRunMerger (A := A)).

Definition set_source_task (t : nat) (task : SourceTask) (s : SourceSystem) : SourceSystem :=
  {| merger_state := merger_state s; column_data := column_data s; runs_destroyed := runs_destroyed s;
     source_tasks := <[t := task]> (source_tasks s); tasks_completed := tasks_completed s;
     hash_group_columns := hash_group_columns s |}.

Definition set_merger_state (ms : System) (s : SourceSystem) : SourceSystem :=
  {| merger_state := ms; column_data := column_data s; runs_destroyed := runs_destroyed s;
     source_tasks := source_tasks s; tasks_completed := tasks_completed s;
     hash_group_columns := hash_group_columns s |}.

(** The batch of a chunk. *)
Definition GetPartitionData (ms : System (A := A)) (t : nat) : option nat :=
  l ← threads ms !! t; partition_idx l.

(** A step of the loop of [MaterializeColumnData]; it ends with an empty chunk. *)
Definition materialize_scan (s : SourceSystem) (t : nat) (owns_lock : bool) (task : SourceTask)
    : option SourceSystem :=
  let break := {| task_pc := mat_merge; local_column_data := local_column_data task |} in
  if merger_total_count m =? 0 then Some (set_source_task t break s)
  else
    ms ← system_step m false (merger_state s) (t, owns_lock);
    e ← last (events ms);
    match e with
    | ev_idle => Some (set_source_task t break (set_merger_state ms s))
    | ev_chunk _ chunk =>
        if runs_destroyed s then None
        else
          batch_index ← GetPartitionData ms t;
          c ← Append chunk batch_index (local_column_data task);
          Some (set_source_task t {| task_pc := mat_scan; local_column_data := c |} (set_merger_state ms s))
    | _ => if runs_destroyed s then None else Some (set_merger_state ms s)
    end.

(** The merge under the lock of the source state. *)
Definition materialize_merge (s : SourceSystem) (t : nat) (task : SourceTask) : option SourceSystem :=
  '(c, local) ← match column_data s with
                | None => Some (local_column_data task, BatchedDataCollection_new)
                | Some c => Merge c (local_column_data task)
                end;
  Some {| merger_state := merger_state s; column_data := Some c; runs_destroyed := runs_destroyed s;
          source_tasks := <[t := {| task_pc := mat_check; local_column_data := local |}]> (source_tasks s);
          tasks_completed := tasks_completed s; hash_group_columns := hash_group_columns s |}.

(** The result, and the destruction of the runs when everything is scanned. *)
Definition materialize_check (s : SourceSystem) (t : nat) (task : SourceTask) : SourceSystem :=
  let finished := total_scanned (shared (merger_state s)) =? merger_total_count m in
  {| merger_state := merger_state s; column_data := column_data s;
     runs_destroyed := runs_destroyed s || (finished && negb (merger_total_count m =? 0));
     source_tasks :=
       <[t := {| task_pc := mat_complete (if finished then SOURCE_FINISHED else HAVE_MORE_OUTPUT);
                 local_column_data := local_column_data task |}]> (source_tasks s);
     tasks_completed := tasks_completed s; hash_group_columns := hash_group_columns s |}.

Definition GetColumnData (s : SourceSystem) : option (list A * SourceSystem) :=
  c ← column_data s;
  let '(columns, c) := FetchCollection c in
  Some (columns,
        {| merger_state := merger_state s; column_data := Some c; runs_destroyed := runs_destroyed s;
           source_tasks := source_tasks s; tasks_completed := tasks_completed s;
           hash_group_columns := hash_group_columns s |}).

(** The end of [HashedSortMaterializeTask::ExecuteTask]. *)
Definition task_complete (s : SourceSystem) (t : nat) (task : SourceTask) : option SourceSystem :=
  let s := {| merger_state := merger_state s; column_data := column_data s;
              runs_destroyed := runs_destroyed s;
              source_tasks := <[t := {| task_pc := mat_done; local_column_data := local_column_data task |}]>
                (source_tasks s);
              tasks_completed := S (tasks_completed s); hash_group_columns := hash_group_columns s |} in
  if (tasks_completed s =? length (source_tasks s))%nat then
    '(columns, s) ← GetColumnData s;
    Some {| merger_state := merger_state s; column_data := column_data s;
            runs_destroyed := runs_destroyed s; source_tasks := source_tasks s;
            tasks_completed := tasks_completed s; hash_group_columns := Some columns |}
  else Some s.

Definition source_step (s : SourceSystem) (c : nat * bool) : option SourceSystem :=
  task ← source_tasks s !! fst c;
  match task_pc task with
  | mat_scan => materialize_scan s (fst c) (snd c) task
  | mat_merge => materialize_merge s (fst c) task
  | mat_check => Some (materialize_check s (fst c) task)
  | mat_complete _ => task_complete s (fst c) task
  | mat_done => Some s
  end.

Definition SourceSystem_new (tasks_scheduled : nat) : SourceSystem :=
  {| merger_state := System_new m tasks_scheduled;
     column_data := None; runs_destroyed := false;
     source_tasks := replicate tasks_scheduled
       {| task_pc := mat_scan; local_column_data := BatchedDataCollection_new |};
     tasks_completed := 0; hash_group_columns := None |}.

Definition run_source (tasks_scheduled : nat) (schedule : list (nat * bool)) : option SourceSystem :=
  ofold source_step (SourceSystem_new tasks_scheduled) schedule.
End source.
Arguments SourceSystem : clear implicits.

(** ** The count of the runs *)

(** The merger of finalized runs has their rows; a run that is not finalized fails. *)
Lemma SortedRunsTotalCount_finalized {A} (sorted_runs : list (SortedRun A)) :
  Forall (fun run => finalized run = true) sorted_runs ->
  SortedRunsTotalCount sorted_runs = Some (MergePath.total_count (run_rows <$> sorted_runs)).
Proof.
  induction 1 as [| run runs Hrun _ IH]; [done |]. cbn [SortedRunsTotalCount]. by rewrite Hrun, IH.
Qed.

Lemma SortGlobalSourceState_merger_Some {A} config (sink : SortGlobalSinkState A) :
  Forall (fun run => finalized run = true) (sg_sorted_runs sink) ->
  exists m, SortGlobalSourceState_merger config sink = Some m /\
    sorted_runs m = run_rows <$> sg_sorted_runs sink /\ partition_size m = sg_partition_size sink /\
    is_index_sort m = false /\ use_filter m = use_filter config /\ fixed_16 m = fixed_16 config /\
    key_lt m = key_lt config /\ key_partition m = key_partition config /\
    key_order_by m = key_order_by config /\ key_asserted m = key_asserted config /\
    predicate m = predicate config /\ num_threads m = num_threads config /\ vergesort m = vergesort config.
Proof.
  intros H. unfold SortGlobalSourceState_merger. rewrite (SortedRunsTotalCount_finalized _ H).
  by eexists.
Qed.

(** ** Batches: lemmas *)

Section batch_lemmas.
Context {A : Type}.
Implicit Types (c : BatchedDataCollection A).

Lemma map_to_list_seq (d : gmap nat (list A)) n :
  (forall b rows, d !! b = Some rows -> (b < n)%nat) ->
  omap (fun b => pair b <$> d !! b) (seq 0 n) ≡ₚ map_to_list d.
Proof.
  intros Hn. apply NoDup_Permutation.
  - assert (forall ks, NoDup ks -> NoDup (omap (fun b => pair b <$> d !! b) ks)) as H; [| apply H, NoDup_seq].
    induction 1 as [| b ks Hb _ IH]; [constructor |]. cbn. destruct (d !! b) as [rows |]; cbn; [| done].
    constructor; [| done]. intros (b' & Hb' & E)%list_elem_of_omap. destruct (d !! b'); [| done].
    cbn in E. injection E as -> _. done.
  - apply NoDup_map_to_list.
  - intros [b rows]. rewrite elem_of_map_to_list, list_elem_of_omap. split.
    + intros (b' & _ & E). destruct (d !! b') eqn:E'; [| done]. cbn in E. by injection E as <- <-.
    + intros E. exists b. rewrite E. split; [| done]. apply elem_of_seq. specialize (Hn _ _ E). lia.
Qed.

Lemma omap_seq_sorted (d : gmap nat (list A)) k n :
  StronglySorted batch_le (omap (fun b => pair b <$> d !! b) (seq k n)).
Proof.
  revert k. induction n as [| n IH]; intros k; [constructor |]. cbn. destruct (d !! k); cbn; [| apply IH].
  constructor; [apply IH |]. apply Forall_forall. intros [b' rows'] (b & Hb & E)%list_elem_of_omap.
  destruct (d !! b); [| done]. cbn in E. injection E as <- <-. apply elem_of_seq in Hb. unfold batch_le. cbn. lia.
Qed.

#[local] Instance batch_le_total : Total (batch_le (A := A)).
Proof. intros [a ra] [b rb]. unfold batch_le. cbn. lia. Qed.

#[local] Instance batch_le_trans : Transitive (batch_le (A := A)).
Proof. intros [a ra] [b rb] [c rc]. unfold batch_le. cbn. lia. Qed.

(** The batches come in the order of their indices. *)
Lemma FetchCollection_rows c (f : nat -> list A) n :
  (forall b, option_list (data c !! b) = match f b with [] => [] | rows => [rows] end) ->
  (forall b, (n <= b)%nat -> f b = []) ->
  fst (FetchCollection c) = mjoin (f <$> seq 0 n).
Proof.
  intros Hf Hn. cbn [fst FetchCollection].
  assert (forall b rows, data c !! b = Some rows -> rows = f b /\ (b < n)%nat) as Hd.
  { intros b rows E. specialize (Hf b). rewrite E in Hf. cbn in Hf.
    destruct (f b) as [| x xs] eqn:Eb; [done |]. injection Hf as ->. split; [done |].
    destruct (decide (b < n)%nat); [done |]. rewrite Hn in Eb by lia. done. }
  assert (merge_sort batch_le (map_to_list (data c)) = omap (fun b => pair b <$> data c !! b) (seq 0 n)) as ->.
  { apply (StronglySorted_unique_strong batch_le).
    - intros [b rows] [b' rows'] Hx Hy H1 H2.
      rewrite merge_sort_Permutation, elem_of_map_to_list in Hx.
      apply list_elem_of_omap in Hy as (b2 & _ & E). destruct (data c !! b2) eqn:Eb; [| done].
      cbn in E. injection E as <- <-. unfold batch_le in H1, H2. cbn in H1, H2.
      assert (b = b2) as -> by lia. congruence.
    - apply (StronglySorted_merge_sort batch_le).
    - apply omap_seq_sorted.
    - rewrite merge_sort_Permutation. symmetry. apply map_to_list_seq. intros b rows E. by destruct (Hd b rows E). }
  generalize 0%nat at 1 2. clear -Hf. induction n as [| n IH]; intros k; [done |]. cbn [seq omap list_omap].
  rewrite fmap_cons, mjoin_cons, <- IH. specialize (Hf k).
  destruct (data c !! k) as [rows |]; cbn in Hf |- *.
  - destruct (f k); [done |]. injection Hf as ->. done.
  - by destruct (f k).
Qed.
End batch_lemmas.

(** ** What the columns hold *)

Section columns.
Context {A : Type} (m : SortedRunMerger (A := A)).

(** The keys of the runs in sorted order, or those that pruning must keep. *)
Definition columns_ok (columns : list A) : Prop :=
  (is_index_sort m = false -> StronglySorted (fun x y => key_lt m y x = false) columns) /\
  (do_merge_pruning m = false -> columns ≡ₚ mjoin (sorted_runs m)) /\
  (do_merge_pruning m = true -> is_index_sort m = false -> keys_compare_columns m ->
   Pruning.safe_prune (key_partition m) (key_order_by m) (predicate m) (mjoin (sorted_runs m)) columns).

(** The turns of a task that are enough. *)
Definition enough_turns (turns : nat) : Prop :=
  Z.of_nat (merger_partitions m) * (partition_size m + 13 + 2 * Z.of_nat (merger_partitions m)) + 4 <=
  Z.of_nat turns.

#[export] Instance enough_turns_dec turns : Decision (enough_turns turns).
Proof. unfold enough_turns. apply _. Defined.
End columns.

(** ** The invariant *)

Section source_invariant.
Context {A : Type} (m : SortedRunMerger (A := A)).
Context `{!StrictWeakOrder (key_lt m)}.
Context (Hruns : Forall (StronglySorted (fun x y => key_lt m y x = false)) (sorted_runs m)).
Context (Hsize : 0 < partition_size m).
Context (Hvergesort : forall keys, vergesort m keys ≡ₚ keys /\
  StronglySorted (fun x y => key_lt m y x = false) (vergesort m keys)).
Context (Hasserted : keys_asserted m (mjoin (sorted_runs m))).
Context (Hthreads : (1 <= num_threads m)%nat).

Abbreviation P := (merger_partitions m).
Abbreviation system_ok := (system_ok m false).
Abbreviation all_finished := (all_finished m).
Abbreviation task := (SourceTask (A := A)).
Implicit Types (s : SourceSystem A) (ms : System (A := A)) (c : BatchedDataCollection A).

(** The collections that hold batch [b]. *)
Definition task_batches s (b : nat) : list (list A) :=
  option_list (c ← column_data s; data c !! b) ++
  omap (fun task : task => data (local_column_data task) !! b) (source_tasks s).

(** The batch [b] of a partition from which chunks were returned. *)
Definition batch ms (b : nat) : list (list A) :=
  match output ms b with [] => [] | rows => [rows] end.

(** What is known of a task and its state of the merger. *)
Definition task_ok s (l : LocalState (A := A)) (task : task) : Prop :=
  match task_pc task with
  | mat_scan =>
      (forall b, partition_idx l = Some b ->
         task_batches s b ≡ₚ option_list (data (local_column_data task) !! b) /\
         (is_Some (data (local_column_data task) !! b) ->
          last_collection (local_column_data task) = Some b)) /\
      (forall b, last_collection (local_column_data task) = Some b ->
         is_Some (data (local_column_data task) !! b))
  | pc =>
      partition_idx l = None /\ next_partition_idx (shared (merger_state s)) = P /\
      (pc <> mat_merge -> data (local_column_data task) = ∅ /\ is_Some (column_data s))
  end.

Definition completed (tasks : list task) : nat :=
  length (omap (fun task : SourceTask => match task_pc task with mat_done => Some tt | _ => None end) tasks).

Definition all_done s : Prop := Forall (fun task => task_pc task = mat_done) (source_tasks s).

Record source_ok s : Prop := {
  src_system : system_ok (merger_state s);
  src_length : length (threads (merger_state s)) = length (source_tasks s);
  src_tasks : forall t task l, source_tasks s !! t = Some task -> threads (merger_state s) !! t = Some l ->
    task_ok s l task;
  src_completed : tasks_completed s = completed (source_tasks s);
  src_destroyed : runs_destroyed s = true -> all_finished (merger_state s);
  src_columns :
    match hash_group_columns s with
    | None => (source_tasks s <> [] -> ~ all_done s) /\
        forall b, task_batches s b ≡ₚ batch (merger_state s) b
    | Some columns => all_done s /\ columns = mjoin (output (merger_state s) <$> seq 0 P)
    end
}.

Lemma completed_all tasks :
  (completed tasks <= length tasks)%nat /\
  (completed tasks = length tasks <-> Forall (fun task => task_pc task = mat_done) tasks).
Proof.
  clear. unfold completed. induction tasks as [| task tasks [IH1 IH2]]; [done |]. cbn [omap list_omap].
  destruct (task_pc task) eqn:E; cbn [length].
  5: { split; [lia |]. rewrite Forall_cons, <- IH2. split; [intros; split; [done | lia] | intros [_ ?]; lia]. }
  all: split; [lia |]; split; [lia |]; intros [H _]%Forall_cons; congruence.
Qed.

Lemma completed_insert tasks t task task' :
  tasks !! t = Some task -> task_pc task <> mat_done ->
  completed (<[t := task']> tasks) = (completed tasks + match task_pc task' with mat_done => 1 | _ => 0 end)%nat.
Proof.
  clear. intros Ht Hpc. unfold completed.
  destruct (omap_insert_perm (fun task : SourceTask => match task_pc task with mat_done => Some tt | _ => None end)
    tasks t task task' Ht) as (rest & H1 & H2).
  rewrite H1, H2, !length_app. destruct (task_pc task), (task_pc task'); cbn; lia || done.
Qed.

(** One task changes: what the collections hold. *)
Lemma task_batches_insert s t task b :
  source_tasks s !! t = Some task ->
  exists rest, task_batches s b ≡ₚ option_list (data (local_column_data task) !! b) ++ rest /\
    forall s' task', source_tasks s' = <[t := task']> (source_tasks s) -> column_data s' = column_data s ->
      task_batches s' b ≡ₚ option_list (data (local_column_data task') !! b) ++ rest.
Proof.
  intros Ht. destruct (omap_insert_perm (fun task : SourceTask => data (local_column_data task) !! b)
    (source_tasks s) t task task Ht) as (rest & H1 & _).
  set (g := option_list (c ← column_data s; data c !! b)).
  exists (g ++ rest). split; [unfold task_batches; fold g; rewrite H1; apply Permutation_app_swap_app |].
  intros s' task' Es Ec. unfold task_batches. rewrite Es, Ec. fold g.
  destruct (omap_insert_perm (fun task : SourceTask => data (local_column_data task) !! b)
    (source_tasks s) t task task' Ht) as (rest' & H1' & H2').
  rewrite H1 in H1'. apply Permutation_app_inv_l in H1'. rewrite H2', H1'. apply Permutation_app_swap_app.
Qed.

(** A task of which nothing changes. *)
Lemma other_task_ok s s' l task :
  task_ok s l task ->
  (next_partition_idx (shared (merger_state s)) = P -> next_partition_idx (shared (merger_state s')) = P) ->
  (is_Some (column_data s) -> is_Some (column_data s')) ->
  (forall b, partition_idx l = Some b -> task_pc task = mat_scan -> task_batches s' b ≡ₚ task_batches s b) ->
  task_ok s' l task.
Proof.
  clear. intros Hok Hn Hc Hb. unfold task_ok in *. destruct (task_pc task) eqn:E0;
    [| destruct Hok as (H1 & H2 & H3); split_and!; [done | auto |]; intros Hne; destruct (H3 Hne); auto ..].
  destruct Hok as [H1 H2]. split; [| done]. intros b Hi. destruct (H1 b Hi) as [Hp Hl].
  split; [by rewrite Hb | done].
Qed.

Lemma columns_none s t task :
  source_ok s -> source_tasks s !! t = Some task -> task_pc task <> mat_done ->
  hash_group_columns s = None /\ forall b, task_batches s b ≡ₚ batch (merger_state s) b.
Proof.
  intros Hs Ht Hpc. pose proof (src_columns _ Hs) as Hc.
  destruct (hash_group_columns s); [| split; [done | apply Hc]].
  destruct Hc as [Hd _]. by destruct Hpc, (Forall_lookup_1 _ _ _ _ Hd Ht).
Qed.

Lemma not_all_done_insert s t task :
  (t < length (source_tasks s))%nat -> task_pc task <> mat_done ->
  ~ Forall (fun task => task_pc task = mat_done) (<[t := task]> (source_tasks s)).
Proof.
  clear. intros Ht Hpc Hd. apply Hpc.
  apply (Forall_lookup_1 (fun task : SourceTask => task_pc task = mat_done) _ t _ Hd). by rewrite list_lookup_insert_eq.
Qed.

(** A step of a task that scans. *)
Lemma scan_step_ok s t task l pc' c' ms' l' :
  source_ok s -> source_tasks s !! t = Some task -> task_pc task = mat_scan ->
  threads (merger_state s) !! t = Some l -> system_ok ms' ->
  threads ms' = <[t := l']> (threads (merger_state s)) ->
  (next_partition_idx (shared (merger_state s)) = P -> next_partition_idx (shared ms') = P) ->
  (runs_destroyed s = true -> all_finished ms') ->
  pc' = mat_scan \/ pc' = mat_merge ->
  let task' := {| task_pc := pc'; local_column_data := c' |} in
  let s' := set_source_task t task' (set_merger_state ms' s) in
  (forall b, task_batches s' b ≡ₚ batch ms' b) ->
  (forall b t' l0, t' <> t -> threads (merger_state s) !! t' = Some l0 -> partition_idx l0 = Some b ->
     output ms' b = output (merger_state s) b) ->
  task_ok s' l' task' -> source_ok s'.
Proof.
  intros Hs Ht Epc Hl Hms Hts Hn Hdestroyed Hpc task' s' Hb Hout Hok.
  destruct (columns_none s t task Hs Ht ltac:(by rewrite Epc)) as [Hnone Hb0].
  pose proof (lookup_lt_Some _ _ _ Ht) as Hlt.
  assert (task_pc task' <> mat_done) as Hne by (destruct Hpc; by subst pc').
  split; cbn [s' set_source_task set_merger_state merger_state source_tasks runs_destroyed tasks_completed
    hash_group_columns].
  - done.
  - rewrite Hts, !length_insert. apply (src_length _ Hs).
  - intros t2 task2 l2 H2 Hl2. rewrite Hts in Hl2. destruct (decide (t2 = t)) as [-> | Hne2].
    + rewrite list_lookup_insert_eq in H2 by done.
      rewrite list_lookup_insert_eq in Hl2 by (by eapply lookup_lt_Some).
      injection H2 as <-. by injection Hl2 as <-.
    + rewrite list_lookup_insert_ne in H2 by done. rewrite list_lookup_insert_ne in Hl2 by done.
      eapply (other_task_ok s); [by eapply (src_tasks _ Hs) | done | done |].
      intros b Hi _. fold s'. rewrite Hb, Hb0. unfold batch. by rewrite (Hout b t2 l2).
  - rewrite (completed_insert _ _ _ _ Ht) by (by rewrite Epc). rewrite (src_completed _ Hs).
    destruct Hpc as [-> | ->]; cbn; lia.
  - done.
  - rewrite Hnone. split; [| done]. intros _. by apply not_all_done_insert.
Qed.

Lemma set_source_task_id s t task : source_tasks s !! t = Some task -> set_source_task t task s = s.
Proof. clear. intros Ht. destruct s. unfold set_source_task. cbn in *. by rewrite list_insert_id. Qed.

Lemma all_finished_step ms t l g' l' e :
  all_finished ms -> threads ms !! t = Some l -> step_kind m false (shared ms) l g' l' e ->
  e = ev_idle /\ all_finished (after ms g' t l' e).
Proof.
  intros [Hn Hall] Hl Hk. pose proof (Forall_lookup_1 _ _ _ _ Hall Hl) as Hi. cbn in Hi.
  destruct Hk; try congruence; [| lia]. split; [done |]. subst g' l'. split; [done |].
  cbn. by apply Forall_insert.
Qed.

Lemma output_after ms g' t l' e b :
  output (after ms g' t l' e) b =
  output ms b ++ match e with ev_chunk q chunk => if decide (q = b) then chunk else [] | _ => [] end.
Proof. unfold after. rewrite output_snoc. by destruct ms. Qed.

Lemma batch_ext ms ms' b : output ms' b = output ms b -> batch ms' b = batch ms b.
Proof. unfold batch. by intros ->. Qed.

(** ** Steps *)

(** A task that stays in its loop and gets no chunk. *)
Lemma scan_nothing_ok s t task l g' l' e :
  source_ok s -> source_tasks s !! t = Some task -> task_pc task = mat_scan ->
  threads (merger_state s) !! t = Some l ->
  step_kind m false (shared (merger_state s)) l g' l' e ->
  system_ok (after (merger_state s) g' t l' e) ->
  (forall p chunk, e <> ev_chunk p chunk) -> e <> ev_idle ->
  source_ok (set_merger_state (after (merger_state s) g' t l' e) s).
Proof.
  intros Hs Ht Epc Hl Hk Hms Hchunk Hidle. set (ms' := after _ _ _ _ _).
  rewrite <- (set_source_task_id (set_merger_state ms' s) t task Ht).
  destruct task as [pc c]. cbn in Epc. subst pc.
  destruct (columns_none s t _ Hs Ht ltac:(done)) as [Hnone Hb].
  assert (forall b, output ms' b = output (merger_state s) b) as Hout.
  { intros b. unfold ms'. rewrite output_after. destruct e; rewrite ?app_nil_r; try done. by destruct (Hchunk p chunk). }
  pose proof (src_tasks _ Hs t _ l Ht Hl) as [Hown Hlast]. cbn [task_pc local_column_data] in Hown, Hlast.
  assert (forall b, task_batches (set_source_task t {| task_pc := mat_scan; local_column_data := c |}
    (set_merger_state ms' s)) b = task_batches s b) as Hsame.
  { intros b. rewrite (set_source_task_id (set_merger_state ms' s) t _ Ht). done. }
  eapply (scan_step_ok s t _ l mat_scan c ms' l'); try done.
  - intros Hn. unfold ms'. cbn [after shared].
    pose proof (ok_next _ _ (sys_global _ _ _ Hms)) as Hle. cbn [after shared] in Hle.
    destruct Hk as [| | ? ? ? ? ? Hf | | |]; try congruence; try lia.
    destruct Hf as [Hf _]. congruence.
  - intros Hd. destruct (all_finished_step _ t l g' l' e (src_destroyed _ Hs Hd) Hl Hk). congruence.
  - by left.
  - intros b. rewrite Hsame, Hb. by rewrite (batch_ext (merger_state s) ms').
  - unfold task_ok. cbn [task_pc local_column_data]. split; [| exact Hlast]. intros b Hi. rewrite Hsame.
    destruct Hk as [| | i Hi1 Hi2 | i Hi1 Hi2 | | i ranges Hi1 Hi2]; try congruence.
    + assert (b = next_partition_idx (shared (merger_state s))) as -> by congruence.
      assert (batch (merger_state s) (next_partition_idx (shared (merger_state s))) = []) as E0.
      { unfold batch. pose proof (sys_untouched _ _ _ (src_system _ Hs) _ (le_n _)) as E0. cbn [result] in E0.
        by rewrite E0. }
      destruct (task_batches_insert s t _ (next_partition_idx (shared (merger_state s))) Ht) as (rest & Hr & _).
      rewrite Hb, E0 in Hr |- *. apply Permutation_nil_l in Hr. symmetry in Hr.
      apply app_nil in Hr as [Hr _].
      cbn [local_column_data] in Hr. rewrite Hr. split; [done |]. destruct (data c !! _); [done |].
      by intros [? ?].
    + assert (b = i) as -> by congruence. by apply Hown.
    + assert (b = i) as -> by congruence. by apply Hown.
Qed.

(** The end of the loop. *)
Lemma scan_break_ok s t task l ms' :
  source_ok s -> source_tasks s !! t = Some task -> task_pc task = mat_scan ->
  threads (merger_state s) !! t = Some l -> system_ok ms' -> shared ms' = shared (merger_state s) ->
  threads ms' = threads (merger_state s) -> (forall b, output ms' b = output (merger_state s) b) ->
  partition_idx l = None -> next_partition_idx (shared (merger_state s)) = P ->
  source_ok (set_source_task t {| task_pc := mat_merge; local_column_data := local_column_data task |}
    (set_merger_state ms' s)).
Proof.
  intros Hs Ht Epc Hl Hms Hsh Hts Hout Hi Hn.
  destruct (columns_none s t task Hs Ht ltac:(by rewrite Epc)) as [Hnone Hb].
  eapply (scan_step_ok s t task l mat_merge _ ms' l); try done.
  - by rewrite Hts, list_insert_id.
  - by rewrite Hsh.
  - intros Hd. destruct (src_destroyed _ Hs Hd) as [H1 H2]. split; [by rewrite Hsh | by rewrite Hts].
  - by right.
  - intros b. rewrite (batch_ext (merger_state s) ms') by done. rewrite <- Hb.
    destruct (task_batches_insert s t task b Ht) as (rest & Hr & Hr').
    by rewrite Hr, (Hr' _ {| task_pc := mat_merge; local_column_data := local_column_data task |}).
  - unfold task_ok. cbn [task_pc]. split_and!; [done | change (next_partition_idx (shared ms') = P); by rewrite Hsh | done].
Qed.

Lemma Append_ok c b input :
  (is_Some (data c !! b) -> last_collection c = Some b) ->
  (forall b, last_collection c = Some b -> is_Some (data c !! b)) ->
  exists c', Append input b c = Some c' /\ last_collection c' = Some b /\
    data c' = <[b := default [] (data c !! b) ++ input]> (data c).
Proof.
  clear. intros H1 H2. unfold Append. case_decide as Hd.
  - destruct (H2 b Hd) as [rows E0]. rewrite E0. cbn. by eexists.
  - destruct (data c !! b) as [rows |] eqn:E0; [destruct Hd; apply H1; by eexists |]. cbn. by eexists.
Qed.

Lemma scan_chunk_ok s t task l l' i chunk :
  source_ok s -> source_tasks s !! t = Some task -> task_pc task = mat_scan ->
  threads (merger_state s) !! t = Some l -> partition_idx l = Some i -> partition_idx l' = Some i ->
  chunk <> [] -> system_ok (after (merger_state s) (shared (merger_state s)) t l' (ev_chunk i chunk)) ->
  exists c, Append chunk i (local_column_data task) = Some c /\
    source_ok (set_source_task t {| task_pc := mat_scan; local_column_data := c |}
      (set_merger_state (after (merger_state s) (shared (merger_state s)) t l' (ev_chunk i chunk)) s)).
Proof.
  intros Hs Ht Epc Hl Hi Hi' Hchunk Hms. set (ms' := after _ _ _ _ _) in *.
  destruct (columns_none s t task Hs Ht ltac:(by rewrite Epc)) as [Hnone Hb].
  pose proof (src_tasks _ Hs t _ l Ht Hl) as Hok. unfold task_ok in Hok. rewrite Epc in Hok.
  destruct Hok as [Hown Hlast]. destruct (Hown i Hi) as [Hbi Hlasti].
  destruct (Append_ok _ i chunk Hlasti Hlast) as (c' & E & Hl' & Hd'). exists c'. split; [done |].
  assert (forall b, i <> b -> output ms' b = output (merger_state s) b) as Hout.
  { intros b Hb'. unfold ms'. rewrite output_after, decide_False by done. by rewrite app_nil_r. }
  assert (forall b, task_batches (set_source_task t {| task_pc := mat_scan; local_column_data := c' |}
    (set_merger_state ms' s)) b ≡ₚ batch ms' b) as Hbatches.
  { intros b. destruct (task_batches_insert s t task b Ht) as (rest & Hr & Hr').
    rewrite (Hr' _ {| task_pc := mat_scan; local_column_data := c' |}) by done. cbn [local_column_data]. rewrite Hd'.
    destruct (decide (i = b)) as [<- | Hne].
    - rewrite lookup_insert_eq. cbn [option_list]. rewrite Hbi in Hr. rewrite <- (app_nil_r (option_list _)) in Hr at 1.
      apply Permutation_app_inv_l, Permutation_nil_l in Hr as <-.
      assert (default [] (data (local_column_data task) !! i) = output (merger_state s) i) as E1.
      { rewrite Hb in Hbi. unfold batch in Hbi. destruct (data (local_column_data task) !! i) as [rows |];
          destruct (output (merger_state s) i) eqn:Eo; cbn in Hbi |- *; try done.
        - by apply Permutation_nil_l in Hbi.
        - apply Permutation_singleton_inj in Hbi. done.
        - by apply Permutation_nil_r in Hbi. }
      rewrite E1. unfold batch, ms'. rewrite output_after, decide_True by done. cbn.
      destruct (output (merger_state s) i ++ chunk) eqn:E2; [| done]. apply app_nil in E2. tauto.
    - rewrite lookup_insert_ne by done. rewrite <- Hr, Hb. by rewrite (batch_ext (merger_state s) ms') by auto. }
  eapply (scan_step_ok s t task l mat_scan c' ms' l'); try done.
  - intros Hd. destruct (src_destroyed _ Hs Hd) as [_ H]. pose proof (Forall_lookup_1 _ _ _ _ H Hl). cbn in *. congruence.
  - by left.
  - intros b t2 l2 Hne Hl2 Hi2. apply Hout. intros ->. destruct Hne.
    by eapply (owner_unique m false (merger_state s)); [apply (src_system _ Hs) | | | |].
  - unfold task_ok. cbn [task_pc local_column_data]. split.
    + intros b Hib. rewrite Hi' in Hib. injection Hib as <-. split; [| done].
      rewrite Hbatches, Hd', lookup_insert_eq. unfold batch, ms'. rewrite output_after, decide_True by done.
      rewrite Hb in Hbi. unfold batch in Hbi. cbn.
      destruct (output (merger_state s) i) as [| x xs] eqn:Eo; destruct (data (local_column_data task) !! i) as [rows |];
        cbn in Hbi |- *.
      * by apply Permutation_nil_l in Hbi.
      * by destruct chunk.
      * apply Permutation_singleton_inj in Hbi as <-. done.
      * by apply Permutation_nil_r in Hbi.
    + cbn [local_column_data]. intros b Hlb. rewrite Hl' in Hlb. injection Hlb as <-. rewrite Hd', lookup_insert_eq. by eexists.
Qed.

(** A step of a task behind its loop. *)
Lemma late_step_ok s s' t task task' :
  source_ok s -> source_tasks s !! t = Some task -> task_pc task <> mat_done ->
  merger_state s' = merger_state s -> source_tasks s' = <[t := task']> (source_tasks s) ->
  task_pc task' <> mat_done -> (is_Some (column_data s) -> is_Some (column_data s')) ->
  (runs_destroyed s' = true -> all_finished (merger_state s)) ->
  tasks_completed s' = tasks_completed s -> hash_group_columns s' = hash_group_columns s ->
  (forall b, task_batches s' b ≡ₚ task_batches s b) ->
  (forall l, threads (merger_state s) !! t = Some l -> task_ok s l task -> task_ok s' l task') ->
  source_ok s'.
Proof.
  intros Hs Ht Hpc Hm Hts Hpc' Hcol Hd Hcomp Hcols Hb Hok.
  destruct (columns_none s t task Hs Ht Hpc) as [Hnone Hb0]. pose proof (lookup_lt_Some _ _ _ Ht) as Hlt.
  split; rewrite ?Hm, ?Hts, ?Hcomp, ?Hcols.
  - apply (src_system _ Hs).
  - rewrite length_insert. apply (src_length _ Hs).
  - intros t2 task2 l2 H2 Hl2. destruct (decide (t2 = t)) as [-> | Hne].
    + rewrite list_lookup_insert_eq in H2 by done. injection H2 as <-.
      apply Hok; [done |]. by eapply (src_tasks _ Hs).
    + rewrite list_lookup_insert_ne in H2 by done.
      eapply (other_task_ok s); [by eapply (src_tasks _ Hs) | by rewrite Hm | done | intros; apply Hb].
  - rewrite (completed_insert _ _ _ _ Ht) by done. rewrite (src_completed _ Hs). destruct (task_pc task'); done || lia.
  - exact Hd.
  - rewrite Hnone. split; [| intros b; by rewrite Hb]. intros _. unfold all_done. rewrite Hts.
    by apply not_all_done_insert.
Qed.

Lemma Merge_ok c other :
  (forall b, data c !! b = None \/ data other !! b = None) ->
  exists c' other', Merge c other = Some (c', other') /\ data other' = ∅ /\
    forall b, option_list (data c' !! b) ≡ₚ option_list (data c !! b) ++ option_list (data other !! b).
Proof.
  clear. intros H. unfold Merge. rewrite decide_True.
  - eexists _, _. split; [done |]. split; [done |]. intros b. cbn [data]. rewrite lookup_union.
    destruct (H b) as [-> | ->]; destruct (_ !! b); done.
  - intros b rows E0. destruct (H b); congruence.
Qed.

Lemma batch_short ms b (x y : list A) rest : ~ x :: y :: rest ≡ₚ batch ms b.
Proof.
  clear. intros H%Permutation_length. unfold batch in H. destruct (output ms b); cbn in H; lia.
Qed.

Lemma materialize_merge_ok s t task :
  source_ok s -> source_tasks s !! t = Some task -> task_pc task = mat_merge ->
  exists s', materialize_merge s t task = Some s' /\ source_ok s' /\
    length (source_tasks s') = length (source_tasks s).
Proof.
  intros Hs Ht Epc. assert (task_pc task <> mat_done) as Hpc by (by rewrite Epc).
  destruct (columns_none s t task Hs Ht Hpc) as [Hnone Hb0].
  assert (exists c local, (match column_data s with
      | None => Some (local_column_data task, BatchedDataCollection_new)
      | Some c => Merge c (local_column_data task)
      end) = Some (c, local) /\ data local = ∅ /\
      forall b, option_list (data c !! b) ≡ₚ option_list (c ← column_data s; data c !! b) ++
        option_list (data (local_column_data task) !! b)) as (c & local & E & Hlocal & Hc).
  { destruct (column_data s) as [c |] eqn:Ec; [| by eexists _, _].
    apply Merge_ok. intros b. specialize (Hb0 b). destruct (task_batches_insert s t task b Ht) as (rest & Hr & _).
    unfold task_batches in Hb0. rewrite Ec in Hb0. cbn in Hb0.
    destruct (data c !! b) as [x |] eqn:E1; [right | by left].
    destruct (data (local_column_data task) !! b) as [y |] eqn:E2; [| done]. exfalso.
    destruct (omap_insert_perm (fun task : SourceTask => data (local_column_data task) !! b)
      (source_tasks s) t task task Ht) as (rest' & H1 & _). rewrite E2 in H1.
    cbn in Hb0. rewrite H1 in Hb0. by apply batch_short in Hb0. }
  unfold materialize_merge. rewrite E. cbn [mbind option_bind]. eexists. split; [done |].
  split; [| cbn; apply length_insert].
  eapply (late_step_ok s _ t task {| task_pc := mat_check; local_column_data := local |}); try done.
  - apply (src_destroyed _ Hs).
  - intros b. unfold task_batches. cbn [column_data source_tasks mbind option_bind]. rewrite Hc, <- app_assoc.
    apply Permutation_app_head.
    destruct (omap_insert_perm (fun task : SourceTask => data (local_column_data task) !! b)
      (source_tasks s) t task {| task_pc := mat_check; local_column_data := local |} Ht) as (rest & H1 & H2).
    rewrite H1, H2. cbn [local_column_data]. by rewrite Hlocal, lookup_empty.
  - intros l Hl Hok. unfold task_ok in Hok |- *. rewrite Epc in Hok. destruct Hok as (H1 & H2 & _).
    split_and!; [done | done |]. intros _. split; [done | by eexists].
Qed.

Lemma materialize_check_ok s t task :
  source_ok s -> source_tasks s !! t = Some task -> task_pc task = mat_check ->
  source_ok (materialize_check m s t task).
Proof.
  intros Hs Ht Epc. assert (task_pc task <> mat_done) as Hpc by (by rewrite Epc).
  destruct (columns_none s t task Hs Ht Hpc) as [Hnone Hb0].
  assert (exists l, threads (merger_state s) !! t = Some l) as [l Hl].
  { apply lookup_lt_is_Some. rewrite (src_length _ Hs). by eapply lookup_lt_Some. }
  pose proof (src_tasks _ Hs _ _ _ Ht Hl) as Hok. unfold task_ok in Hok. rewrite Epc in Hok.
  destruct Hok as (Hi & Hn & He).
  eapply (late_step_ok s _ t task); try done.
  - cbn [runs_destroyed materialize_check]. intros [Hd | Hd]%orb_true_iff; [by apply (src_destroyed _ Hs) |].
    apply andb_true_iff in Hd as [Hd%Z.eqb_eq _]. split; [done |].
    apply Forall_lookup. intros t2 l2 Hl2. cbn. destruct (partition_idx l2) as [i |] eqn:E2; [| done].
    assert (i < P)%nat as HiP.
    { destruct (owner_assigned m Hthreads false _ _ _ _ (src_system _ Hs) Hl2 E2). lia. }
    pose proof (total_scanned_lt m Hsize Hthreads false _ _ _ _ (src_system _ Hs) Hl2 E2 HiP). lia.
  - intros b. destruct (task_batches_insert s t task b Ht) as (rest & Hr & Hr').
    rewrite Hr. exact (Hr' (materialize_check m s t task) _ eq_refl eq_refl).
  - intros l2 Hl2 _. rewrite Hl in Hl2. injection Hl2 as <-. unfold task_ok. cbn [task_pc].
    split_and!; [done | done |]. intros _. by apply He.
Qed.

Lemma source_thread s t task :
  source_ok s -> source_tasks s !! t = Some task -> exists l, threads (merger_state s) !! t = Some l.
Proof.
  intros Hs Ht. apply lookup_lt_is_Some. rewrite (src_length _ Hs). by eapply lookup_lt_Some.
Qed.

(** The collection of the sort when all tasks have merged. *)
Lemma merged_columns s :
  source_ok s -> hash_group_columns s = None -> source_tasks s <> [] ->
  (forall t task, source_tasks s !! t = Some task ->
     task_pc task <> mat_scan /\ task_pc task <> mat_merge) ->
  exists c, column_data s = Some c /\
    fst (FetchCollection c) = mjoin (output (merger_state s) <$> seq 0 P).
Proof.
  intros Hs Hnone Hne Hpc. pose proof (src_columns _ Hs) as Hb. rewrite Hnone in Hb. destruct Hb as [_ Hb].
  assert (forall t task, source_tasks s !! t = Some task ->
    next_partition_idx (shared (merger_state s)) = P /\ data (local_column_data task) = ∅ /\
    is_Some (column_data s)) as Hall.
  { intros t task Ht. destruct (source_thread s t task Hs Ht) as [l Hl].
    pose proof (src_tasks _ Hs _ _ _ Ht Hl) as Hok. destruct (Hpc _ _ Ht) as [H1 H2]. unfold task_ok in Hok.
    destruct (task_pc task); [done | done | ..]; destruct Hok as (_ & Hn & He); (split; [done |]);
      by apply He. }
  assert (exists task, source_tasks s !! 0%nat = Some task) as [task0 Ht0]
    by (destruct (source_tasks s) as [| task0 ts]; [done | by exists task0]).
  destruct (Hall _ _ Ht0) as (Hn & _ & [c Hc]). exists c. split; [done |].
  apply FetchCollection_rows.
  - intros b. specialize (Hb b). unfold task_batches in Hb. rewrite Hc in Hb. cbn [mbind option_bind] in Hb.
    assert (omap (fun task : SourceTask => data (local_column_data task) !! b) (source_tasks s) = []) as E0.
    { assert (Forall (fun task : SourceTask => data (local_column_data task) = ∅) (source_tasks s)) as Hempty
        by (apply Forall_lookup; intros t task Ht; by apply (Hall t task)).
      clear -Hempty. induction Hempty as [| task ts E _ IH]; [done |]. cbn. by rewrite E, lookup_empty. }
    rewrite E0, app_nil_r in Hb. fold (batch (merger_state s) b). unfold batch in *.
    destruct (data c !! b), (output (merger_state s) b); cbn in Hb |- *; try done.
    + symmetry in Hb. by apply Permutation_nil_l in Hb.
    + by apply Permutation_singleton_inj in Hb as <-.
    + by apply Permutation_nil_l in Hb.
  - intros b Hle. apply (sys_untouched _ _ _ (src_system _ Hs)). lia.
Qed.

Lemma task_complete_ok s t task res :
  source_ok s -> source_tasks s !! t = Some task -> task_pc task = mat_complete res ->
  exists s', task_complete s t task = Some s' /\ source_ok s' /\
    length (source_tasks s') = length (source_tasks s).
Proof.
  intros Hs Ht Epc. assert (task_pc task <> mat_done) as Hpc by (by rewrite Epc).
  destruct (columns_none s t task Hs Ht Hpc) as [Hnone Hb0]. pose proof (lookup_lt_Some _ _ _ Ht) as Hlt.
  unfold task_complete.
  set (task' := {| task_pc := mat_done; local_column_data := local_column_data task |}).
  set (s1 := {| tasks_completed := S (tasks_completed s) |}).
  assert (tasks_completed s1 = completed (source_tasks s1)) as Hcomp.
  { cbn [tasks_completed source_tasks s1]. rewrite (completed_insert _ _ _ _ Ht) by done.
    rewrite (src_completed _ Hs). cbn [task_pc task']. lia. }
  assert (forall b, task_batches s1 b ≡ₚ task_batches s b) as Hb1.
  { intros b. destruct (task_batches_insert s t task b Ht) as (rest & Hr & Hr').
    by rewrite Hr, (Hr' s1 task'). }
  assert (forall t2 task2 l2, source_tasks s1 !! t2 = Some task2 ->
    threads (merger_state s) !! t2 = Some l2 -> task_ok s1 l2 task2) as Htasks.
  { intros t2 task2 l2 H2 Hl2. cbn in H2. destruct (decide (t2 = t)) as [-> | Hne].
    - rewrite list_lookup_insert_eq in H2 by done. injection H2 as <-.
      pose proof (src_tasks _ Hs _ _ _ Ht Hl2) as Hok. unfold task_ok in Hok |- *. rewrite Epc in Hok.
      destruct Hok as (H1 & H2 & H3). split_and!; [done | done |]. intros _. by apply H3.
    - rewrite list_lookup_insert_ne in H2 by done.
      eapply (other_task_ok s); [by eapply (src_tasks _ Hs) | done | done | intros; apply Hb1]. }
  pose proof (completed_all (source_tasks s1)) as [_ Hall]. rewrite <- Hcomp in Hall.
  destruct (Nat.eqb_spec (tasks_completed s1) (length (source_tasks s1))) as [El | El].
  - assert (source_ok s) as Hs' by done. apply Hall in El.
    destruct (merged_columns s Hs Hnone) as (c & Hc & Hrows).
    { intros E0. by rewrite E0 in Ht. }
    { intros t2 task2 H2. destruct (decide (t2 = t)) as [-> | Hne].
      - rewrite Ht in H2. injection H2 as <-. by rewrite Epc.
      - assert (source_tasks s1 !! t2 = Some task2) as H2' by (cbn; by rewrite list_lookup_insert_ne).
        pose proof (Forall_lookup_1 _ _ _ _ El H2') as E2. cbn in E2. by rewrite E2. }
    unfold GetColumnData. cbn [column_data s1]. rewrite Hc. cbn [mbind option_bind].
    eexists. split; [done |]. split; [| cbn; apply length_insert].
    split; cbn [merger_state source_tasks runs_destroyed tasks_completed hash_group_columns].
    + apply (src_system _ Hs).
    + cbn. rewrite length_insert. apply (src_length _ Hs).
    + intros t2 task2 l2 H2 Hl2. eapply (other_task_ok s1); [by eapply Htasks | done | by intros _; eexists |].
      intros b _ E2. pose proof (Forall_lookup_1 _ _ _ _ El H2) as E3. cbn in E3. congruence.
    + exact Hcomp.
    + apply (src_destroyed _ Hs).
    + split; [exact El | exact Hrows].
  - exists s1. split; [done |]. split; [| cbn; apply length_insert].
    split; [apply (src_system _ Hs) | cbn; rewrite length_insert; apply (src_length _ Hs) | exact Htasks |
      exact Hcomp | apply (src_destroyed _ Hs) |].
    cbn [hash_group_columns s1]. rewrite Hnone. split.
    + intros _ Hd. by apply El, Hall.
    + intros b. by rewrite Hb1.
Qed.

Lemma materialize_scan_ok s t owns task :
  source_ok s -> source_tasks s !! t = Some task -> task_pc task = mat_scan ->
  exists s', materialize_scan m s t owns task = Some s' /\ source_ok s' /\
    length (source_tasks s') = length (source_tasks s).
Proof.
  intros Hs Ht Epc. destruct (source_thread s t task Hs Ht) as [l Hl]. unfold materialize_scan.
  destruct (Z.eqb_spec (merger_total_count m) 0) as [E0 | E0].
  { assert (P = 0%nat) as HP.
    { unfold merger_partitions. rewrite E0. cbn. rewrite Z.div_small by lia. done. }
    pose proof (ok_next _ _ (sys_global _ _ _ (src_system _ Hs))) as Hn.
    assert (partition_idx l = None) as Hi.
    { destruct (partition_idx l) as [i |] eqn:Ei; [| done].
      destruct (owner_assigned m Hthreads false _ _ _ _ (src_system _ Hs) Hl Ei). lia. }
    eexists. split; [done |]. split; [| cbn; apply length_insert].
    assert (s = set_merger_state (merger_state s) s) as Es by (by destruct s). rewrite Es.
    eapply scan_break_ok; try done; [apply (src_system _ Hs) | lia]. }
  destruct (system_step_kind m Hruns Hsize Hvergesort Hasserted Hthreads false (merger_state s) t owns l
    (src_system _ Hs) Hl) as (g' & l' & e & -> & Hms & Hk).
  cbn [mbind option_bind]. change (events (after (merger_state s) g' t l' e)) with (events (merger_state s) ++ [e]). rewrite last_snoc. cbn [mbind option_bind].
  assert (e <> ev_idle -> runs_destroyed s = false) as Hnd.
  { intros He. destruct (runs_destroyed s) eqn:Ed; [| done].
    by destruct (all_finished_step _ t l g' l' e (src_destroyed _ Hs Ed) Hl Hk). }
  destruct e as [| | i chunk | i res ranges].
  - rewrite Hnd by done. eexists. split; [done |]. split; [| done].
    by eapply scan_nothing_ok.
  - eexists. split; [done |]. split; [| cbn; apply length_insert].
    inversion Hk as [Hg Hl' Hi Hn | | | | |]. subst g' l'.
    eapply scan_break_ok; try done.
    + cbn. by apply list_insert_id.
    + intros b. rewrite output_after. by rewrite app_nil_r.
  - rewrite Hnd by done. inversion Hk as [| | | | ? ? Hi Htask Hg _ Hscan Hne |]. subst.
    assert (partition_idx l' = Some i) as Hi'.
    { unfold TemplatedScanPartition in Hscan.
      destruct (if do_merge_pruning m then _ else _) as [[[c0 n0] s0] |]; [| done].
      cbn [mbind option_bind] in Hscan. by injection Hscan as <- <-. }
    destruct (scan_chunk_ok s t task l l' i chunk Hs Ht Epc Hl Hi Hi' Hne Hms) as (c & Ec & Hs').
    unfold GetPartitionData. cbn [after threads]. rewrite list_lookup_insert_eq by (by eapply lookup_lt_Some).
    cbn [mbind option_bind]. rewrite Hi'. cbn [mbind option_bind]. rewrite Ec. cbn [mbind option_bind].
    eexists. split; [done |]. split; [exact Hs' | cbn; apply length_insert].
  - rewrite Hnd by done. eexists. split; [done |]. split; [| done].
    by eapply scan_nothing_ok.
Qed.

Lemma source_step_ok s (c : nat * bool) :
  source_ok s -> (fst c < length (source_tasks s))%nat ->
  exists s', source_step m s c = Some s' /\ source_ok s' /\ length (source_tasks s') = length (source_tasks s).
Proof.
  intros Hs Hc. destruct (lookup_lt_is_Some_2 _ _ Hc) as [task Ht]. unfold source_step. rewrite Ht.
  cbn [mbind option_bind]. destruct (task_pc task) as [| | | res |] eqn:Epc.
  - by apply materialize_scan_ok.
  - by apply materialize_merge_ok.
  - eexists. split; [done |]. split; [by apply materialize_check_ok | cbn; apply length_insert].
  - by eapply task_complete_ok.
  - by exists s.
Qed.

Lemma SourceSystem_new_ok n : source_ok (SourceSystem_new m n).
Proof.
  split; cbn [SourceSystem_new merger_state source_tasks tasks_completed runs_destroyed hash_group_columns].
  - by apply System_new_ok.
  - cbn. by rewrite !length_replicate.
  - intros t task l [-> _]%lookup_replicate [-> _]%lookup_replicate. unfold task_ok. cbn. split; done.
  - clear. unfold completed. induction n as [| n IH]; [done |]. exact IH.
  - done.
  - split.
    + intros Hne Hd. destruct n as [| n]; [done |]. by apply Forall_cons in Hd as [Hd _].
    + intros b. unfold task_batches. cbn. clear. induction n as [| n IH]; [done |]. cbn. rewrite lookup_empty. exact IH.
Qed.

Lemma ofold_source_ok s schedule :
  source_ok s -> Forall (fun p => fst p < length (source_tasks s))%nat schedule ->
  exists s', ofold (source_step m) s schedule = Some s' /\ source_ok s' /\
    length (source_tasks s') = length (source_tasks s).
Proof.
  intros Hs Hc. revert s Hs Hc. induction schedule as [| c schedule IH]; intros s Hs Hc; [by exists s |].
  apply Forall_cons in Hc as [Hc Hcs]. destruct (source_step_ok s c Hs Hc) as (s1 & E1 & Hs1 & Hl1).
  destruct (IH s1 Hs1) as (s2 & E2 & Hs2 & Hl2); [by rewrite Hl1 |].
  exists s2. rewrite ofold_cons, E1. split_and!; [done | done | congruence].
Qed.

(** ** Termination *)

Definition pc_weight (pc : TaskPc) : Z :=
  match pc with mat_scan => 4 | mat_merge => 3 | mat_check => 2 | mat_complete _ => 1 | mat_done => 0 end.

Definition source_weight s (task : task) : Z := measure m (merger_state s) + pc_weight (task_pc task).

(** A step of a task makes its weight smaller and that of no other task larger. *)
Lemma source_step_weight s (p : nat * bool) s' task :
  source_ok s -> source_step m s p = Some s' -> source_tasks s !! fst p = Some task ->
  measure m (merger_state s') <= measure m (merger_state s) /\
  exists task', source_tasks s' = <[fst p := task']> (source_tasks s) /\
    (task_pc task = mat_done -> task_pc task' = mat_done) /\
    (task_pc task <> mat_done -> source_weight s' task' < source_weight s task).
Proof.
  intros Hs E Ht. unfold source_step in E. rewrite Ht in E. cbn [mbind option_bind] in E. unfold source_weight.
  destruct task as [pc c]. cbn [task_pc] in E |- *. destruct pc as [| | | res |].
  - unfold materialize_scan in E. destruct (merger_total_count m =? 0).
    { injection E as <-. split; [done |]. eexists. split; [done |]. cbn. split; [done | lia]. }
    destruct (system_step m false (merger_state s) (fst p, snd p)) as [ms |] eqn:Em; [| done].
    cbn [mbind option_bind] in E.
    pose proof (system_step_measure m Hruns Hsize Hvergesort Hasserted Hthreads false _ _ _ _ (src_system _ Hs) Em) as Hm.
    assert (exists e, events ms = events (merger_state s) ++ [e]) as [e He].
    { unfold system_step in Em. destruct (threads (merger_state s) !! _) as [l |]; [| done].
      cbn [mbind option_bind] in Em. destruct (thread_step _ _ _ _ _) as [[[g' l'] e] |]; [| done].
      injection Em as <-. by eexists. }
    rewrite He, last_snoc in E. cbn [mbind option_bind] in E.
    rewrite He in Hm. unfold busy_steps in Hm. rewrite zsum_app, zsum_cons in Hm. cbn [zsum foldr] in Hm.
    destruct e as [| | i chunk | i r d].
    + destruct (runs_destroyed s); [done |]. injection E as <-. cbn [merger_state set_merger_state source_tasks].
      split; [lia |]. exists {| task_pc := mat_scan; local_column_data := c |}.
      split; [by rewrite list_insert_id |]. split; [done | cbn; lia].
    + injection E as <-. cbn [merger_state set_merger_state set_source_task source_tasks].
      split; [lia |]. eexists. split; [done |]. cbn. split; [done | lia].
    + destruct (runs_destroyed s); [done |].
      destruct (GetPartitionData ms (fst p)) as [b |]; [| done]. cbn [mbind option_bind] in E.
      destruct (Append chunk b _) as [c' |]; [| done]. cbn [mbind option_bind] in E. injection E as <-.
      cbn [merger_state set_merger_state set_source_task source_tasks].
      split; [lia |]. eexists. split; [done |]. cbn. split; [done | lia].
    + destruct (runs_destroyed s); [done |]. injection E as <-. cbn [merger_state set_merger_state source_tasks].
      split; [lia |]. exists {| task_pc := mat_scan; local_column_data := c |}.
      split; [by rewrite list_insert_id |]. split; [done | cbn; lia].
  - unfold materialize_merge in E. destruct (match column_data s with None => _ | Some _ => _ end) as [[c' local] |];
      [| done]. cbn [mbind option_bind] in E. injection E as <-. split; [done |]. eexists. split; [done |].
    cbn. split; [done | lia].
  - injection E as <-. split; [done |]. eexists. split; [done |].
    cbn. split; [done | lia].
  - unfold task_complete in E. cbn [tasks_completed source_tasks local_column_data] in E. destruct (_ =? _)%nat.
    + unfold GetColumnData in E. cbn [column_data] in E. destruct (column_data s) as [c' |]; [| done].
      cbn in E. injection E as <-. split; [done |]. eexists. split; [done |]. cbn. split; [done | lia].
    + injection E as <-. split; [done |]. eexists. split; [done |]. cbn. split; [done | lia].
  - injection E as <-. split; [done |]. exists {| task_pc := mat_done; local_column_data := c |}.
    split; [by rewrite list_insert_id |]. done.
Qed.

Definition source_turns (t : nat) (schedule : list (nat * bool)) : nat :=
  length (filter (fun p => fst p = t) schedule).

Lemma ofold_source_done s schedule :
  source_ok s -> Forall (fun p => fst p < length (source_tasks s))%nat schedule ->
  (forall t task, source_tasks s !! t = Some task ->
     task_pc task = mat_done \/ source_weight s task <= Z.of_nat (source_turns t schedule)) ->
  exists s', ofold (source_step m) s schedule = Some s' /\ all_done s'.
Proof.
  intros Hs Hc Hw. revert s Hs Hc Hw. induction schedule as [| p schedule IH]; intros s Hs Hc Hw.
  { exists s. split; [done |]. unfold all_done. apply Forall_lookup. intros t task Ht.
    destruct (Hw t task Ht) as [| Hle]; [done |]. unfold source_turns, source_weight in Hle. cbn in Hle.
    pose proof (measure_nonneg m Hthreads (merger_state s)). destruct (task_pc task); cbn in Hle; lia || done. }
  apply Forall_cons in Hc as [Hc Hcs]. destruct (lookup_lt_is_Some_2 _ _ Hc) as [task Ht].
  destruct (source_step_ok s p Hs Hc) as (s1 & E1 & Hs1 & Hl1).
  destruct (source_step_weight s p s1 task Hs E1 Ht) as (Hm & task' & Hts & Hdone & Hless).
  destruct (IH s1 Hs1) as (s2 & E2 & Hall); [by rewrite Hl1 | |].
  - intros t task2 Ht2. rewrite Hts in Ht2. unfold source_turns in *. destruct (decide (t = fst p)) as [-> | Hne].
    + rewrite list_lookup_insert_eq in Ht2 by done. injection Ht2 as <-.
      destruct (decide (task_pc task' = mat_done)) as [| Hne]; [by left | right].
      assert (task_pc task <> mat_done) as Hpc by (intros ?; auto).
      specialize (Hless Hpc). destruct (Hw _ _ Ht) as [| Hle]; [done |].
      rewrite filter_cons_True in Hle by done. cbn [length] in Hle. lia.
    + rewrite list_lookup_insert_ne in Ht2 by done. destruct (Hw _ _ Ht2) as [| Hle]; [by left | right].
      rewrite filter_cons_False in Hle by done. unfold source_weight in *. lia.
  - exists s2. rewrite ofold_cons, E1. done.
Qed.

(** ** All tasks are done *)

Lemma run_source_ok n schedule :
  Forall (fun p => fst p < n)%nat schedule ->
  exists s, run_source m n schedule = Some s /\ source_ok s /\ length (source_tasks s) = n.
Proof.
  intros Hsched.
  destruct (ofold_source_ok (SourceSystem_new m n) schedule (SourceSystem_new_ok n)) as (s & E & Hs & Hl);
    [by cbn; rewrite length_replicate |].
  exists s. split_and!; [exact E | done |]. cbn in Hl. by rewrite length_replicate in Hl.
Qed.

Lemma run_source_done n schedule :
  Forall (fun p => fst p < n)%nat schedule ->
  (forall t, (t < n)%nat -> enough_turns m (source_turns t schedule)) ->
  exists s, run_source m n schedule = Some s /\ all_done s.
Proof.
  intros Hsched Hturns.
  apply (ofold_source_done (SourceSystem_new m n) schedule (SourceSystem_new_ok n));
    [by cbn; rewrite length_replicate |].
  intros t task [-> Ht]%lookup_replicate. right. unfold source_weight. cbn [merger_state SourceSystem_new task_pc].
  rewrite (measure_new m Hsize Hthreads). cbn [pc_weight]. by apply Hturns.
Qed.

Lemma all_done_finished s :
  source_ok s -> all_done s -> (0 < length (source_tasks s))%nat -> all_finished (merger_state s).
Proof.
  intros Hs Hall Hn.
  assert (forall t l, threads (merger_state s) !! t = Some l ->
    partition_idx l = None /\ next_partition_idx (shared (merger_state s)) = P) as H.
  { intros t l Ht. destruct (lookup_lt_is_Some_2 (source_tasks s) t) as [task Htask].
    { rewrite <- (src_length _ Hs). by eapply lookup_lt_Some. }
    pose proof (src_tasks _ Hs _ _ _ Htask Ht) as Hok.
    pose proof (Forall_lookup_1 _ _ _ _ Hall Htask) as Epc. cbn in Epc. unfold task_ok in Hok.
    rewrite Epc in Hok. tauto. }
  destruct (lookup_lt_is_Some_2 (threads (merger_state s)) 0) as [l0 Hl0]; [by rewrite (src_length _ Hs) |].
  split; [by apply (H 0%nat l0) |]. apply Forall_lookup. intros t l Ht. by apply (H t l).
Qed.

Lemma all_done_columns s :
  source_ok s -> all_done s -> (0 < length (source_tasks s))%nat ->
  exists columns, hash_group_columns s = Some columns /\ columns_ok m columns.
Proof.
  intros Hs Hall Hn. pose proof (src_columns _ Hs) as Hc. destruct (hash_group_columns s) as [columns |].
  - destruct Hc as [_ ->]. eexists. split; [done |].
    destruct (all_finished_keys m Hruns Hsize Hvergesort Hasserted Hthreads false _ (src_system _ Hs)
      (all_done_finished s Hs Hall Hn)) as (H1 & _ & H2 & H3).
    by split_and!.
  - destruct Hc as [Hnot _]. destruct Hnot; [| done]. intros E0. rewrite E0 in Hn. cbn in Hn. lia.
Qed.

(** ** Theorems *)

(** C19. Whatever the order in which the tasks of a hash group run, no assertion, no
    merge of batches and no access to destroyed runs fails, and when all tasks are
    done the columns of the group are the chunks of the merger in the order of its
    partitions: all keys of the runs in sorted order, or, with Merge Pruning, sorted
    keys that contain every key of DENSE_RANK at most the predicate.

    With Merge Pruning the keys hold nothing behind the two columns that are read of
    them, as [extract_order_by] asserts ([keys_asserted]); and the second half needs that
    [operator<] compares exactly these two columns ([keys_compare_columns] in
    [columns_ok]), which keys of two integers of 4 bytes satisfy and keys with a first
    column of 9 bytes do not (finding sorted_run_merger.cpp:25). *)
Theorem ColumnData_sorted n schedule :
  (0 < n)%nat -> Forall (fun p => fst p < n)%nat schedule ->
  exists s, run_source m n schedule = Some s /\
    (Forall (fun task => task_pc task = mat_done) (source_tasks s) ->
     exists columns, hash_group_columns s = Some columns /\ columns_ok m columns).
Proof.
  intros Hn Hsched. destruct (run_source_ok n schedule Hsched) as (s & E & Hs & Hl).
  exists s. split; [exact E |]. intros Hall. by apply all_done_columns; [| | rewrite Hl].
Qed.

(** C20. Every schedule that gives each task a fixed number of turns, which depends
    only on the number and the size of the partitions, ends with all tasks done (with
    Merge Pruning, for keys that satisfy the assertion of [extract_order_by]). *)
Theorem MaterializeColumnData_terminates n schedule :
  Forall (fun p => fst p < n)%nat schedule ->
  (forall t, (t < n)%nat -> enough_turns m (source_turns t schedule)) ->
  exists s, run_source m n schedule = Some s /\ Forall (fun task => task_pc task = mat_done) (source_tasks s).
Proof. intros Hsched Hturns. by apply run_source_done. Qed.
End source_invariant.

(** ** Witnesses

    The merger of MergerInvariant without pruning, with two tasks. *)

Definition source_schedule (n : nat) : list (nat * bool) := mjoin (replicate n [(0%nat, true); (1%nat, false)]).

Lemma source_schedule_tasks n : Forall (fun p => fst p < 2)%nat (source_schedule n).
Proof. unfold source_schedule. apply Forall_join, Forall_replicate. cbn. repeat constructor. Qed.

Example example_columns_of_group :
  (s ← run_source example_merger_all 2 (source_schedule 40); hash_group_columns s) =
  Some [1; 2; 4; 4; 4; 4; 5; 6].
Proof. vm_compute. reflexivity. Qed.

Lemma ColumnData_sorted_witness :
  exists s, run_source example_merger_all 2 (source_schedule 40) = Some s /\
    (Forall (fun task => task_pc task = mat_done) (source_tasks s) ->
     exists columns, hash_group_columns s = Some columns /\ columns_ok example_merger_all columns).
Proof.
  apply (ColumnData_sorted example_merger_all example_runs eq_refl merge_sort_runs (example_asserted _ _) (le_n 1));
    [lia | exact (source_schedule_tasks 40)].
Defined.

Lemma MaterializeColumnData_terminates_witness :
  exists s, run_source example_merger_all 2 (source_schedule 100) = Some s /\
    Forall (fun task => task_pc task = mat_done) (source_tasks s).
Proof.
  apply (MaterializeColumnData_terminates example_merger_all example_runs eq_refl merge_sort_runs (example_asserted _ _) (le_n 1));
    [exact (source_schedule_tasks 100) |].
  intros [| [| t]] Ht; [vm_compute; discriminate .. | lia].
Defined.
