(* ===== verification/HashGroups.v ===== *)
(** * The sorted hash groups

    The input of the window functions: the hashed sort (HashedSort) on the sort
    operator (Sort), whose runs every hash group merges and materializes in tasks
    (SortSource).  The theorems put those of the parts together: whatever the threads
    that sink, combine, merge and materialize do in which order, every hash group is
    sorted, and partition pruning and Merge Pruning together do not change the result
    of a predicate on RANK, if hashes do not collide and the keys are compared by the
    columns that the merger reads. *)

From S2P Require Import Prelude Validity RadixPartitioning Pruning MergePath Sort SortInvariant.
From S2P Require Import HashedSort HashedSortInvariant SortedRunMerger MergerInvariant SortSource.

(** ** Materialization of the groups *)

Section groups.
Context {V : Type}.

(** What a merger of a group does not get from the sort. *)
Context (merger_config : SortedRunMerger (A := list V)).

(** The tasks of a hash group, [HashedSortMaterializeEvent::Schedule]. *)
Definition MaxThreads (m : SortedRunMerger (A := list V)) : nat := Nat.max (merger_partitions m) 1.

Definition tasks_scheduled (m : SortedRunMerger (A := list V)) : nat :=
  Nat.min (SortedRunMerger.num_threads m) (MaxThreads m).

Definition group_merger (sink : SortGlobalSinkState (list V)) : option SortedRunMerger :=
  SortGlobalSourceState_merger merger_config sink.

(** The columns of a group after its tasks ran in the order of a schedule. *)
Definition materialize_group (schedule : list (nat * bool)) (sink : SortGlobalSinkState (list V))
    : option (list (list V)) :=
  m ← group_merger sink;
  s ← run_source m (tasks_scheduled m) schedule; hash_group_columns s.
End groups.

Section materialize.
Context {V : Type} (ops : SortOps (list V)) (merger_config : SortedRunMerger (A := list V)).
Context (sink_of : GSink ops -> SortGlobalSinkState (list V)).

(** All groups; the tasks of different groups share nothing, so every group has a
    schedule of its own. *)
Definition MaterializeHashGroups (schedules : nat -> list (nat * bool))
    (groups : list (option (HashedSortGroup ops))) : option (list (list (list V))) :=
  mapM (fun '(group_idx, group) =>
    match group with
    | None => Some []
    | Some group =>
        sink ← sort_global _ group;
        materialize_group merger_config (schedules group_idx) (sink_of sink)
    end) (imap pair groups).
End materialize.

(** ** One group *)

Section group.
Context {A : Type} (m : SortedRunMerger (A := A)).
Context `{!StrictWeakOrder (key_lt m)}.
Context (Hruns : Forall (StronglySorted (fun x y => key_lt m y x = false)) (sorted_runs m)).
Context (Hvergesort : forall keys, vergesort m keys ≡ₚ keys /\
  StronglySorted (fun x y => key_lt m y x = false) (vergesort m keys)).
Context (Hasserted : keys_asserted m (mjoin (sorted_runs m))).
Context (Hthreads : (1 <= SortedRunMerger.num_threads m)%nat).

Definition set_partition_size (n : Z) : SortedRunMerger :=
  {| sorted_runs := sorted_runs m; partition_size := n; external := external m;
     is_index_sort := is_index_sort m; use_filter := use_filter m; fixed_16 := fixed_16 m;
     key_lt := key_lt m; key_partition := key_partition m; key_order_by := key_order_by m;
     key_asserted := key_asserted m;
     predicate := predicate m; SortedRunMerger.num_threads := SortedRunMerger.num_threads m;
     TuplesPerBlock := TuplesPerBlock m; vergesort := vergesort m |}.

(** Without rows the size of the partitions does not matter. *)
Lemma run_source_empty n schedule :
  merger_total_count m = 0 -> partition_size m = 0 ->
  run_source m n schedule = run_source (set_partition_size 1) n schedule.
Proof.
  intros H0 Hp. unfold run_source.
  assert (merger_partitions m = 0%nat /\ merger_partitions (set_partition_size 1) = 0%nat) as [E1 E2].
  { unfold merger_partitions. cbn [partition_size set_partition_size].
    change (merger_total_count (set_partition_size 1)) with (merger_total_count m). rewrite H0, Hp. done. }
  assert (SourceSystem_new m n = SourceSystem_new (set_partition_size 1) n) as ->.
  { unfold SourceSystem_new, System_new, GlobalState_new. by rewrite E1, E2. }
  generalize (SourceSystem_new (set_partition_size 1) n). induction schedule as [| c schedule IH]; intros s; [done |].
  rewrite !ofold_cons.
  assert (source_step m s c = source_step (set_partition_size 1) s c) as ->.
  { unfold source_step. destruct (source_tasks s !! fst c) as [task |]; [| done]. cbn [mbind option_bind].
    destruct (task_pc task); try done. unfold materialize_scan.
    change (merger_total_count (set_partition_size 1)) with (merger_total_count m). by rewrite H0. }
  destruct (source_step _ s c); [apply IH | done].
Qed.

Lemma run_source_columns n schedule :
  0 < partition_size m \/ (merger_total_count m = 0 /\ partition_size m = 0) ->
  (0 < n)%nat -> Forall (fun p => fst p < n)%nat schedule ->
  (forall t, (t < n)%nat -> enough_turns m (source_turns t schedule)) ->
  exists s columns, run_source m n schedule = Some s /\ hash_group_columns s = Some columns /\
    columns_ok m columns.
Proof.
  intros Hsize Hn Hsched Hturns.
  assert (forall m' : SortedRunMerger (A := A), (StrictWeakOrder (key_lt m')) ->
    Forall (StronglySorted (fun x y => key_lt m' y x = false)) (sorted_runs m') -> 0 < partition_size m' ->
    (forall keys, vergesort m' keys ≡ₚ keys /\ StronglySorted (fun x y => key_lt m' y x = false) (vergesort m' keys)) ->
    keys_asserted m' (mjoin (sorted_runs m')) -> (1 <= SortedRunMerger.num_threads m')%nat ->
    (forall t, (t < n)%nat -> enough_turns m' (source_turns t schedule)) ->
    exists s columns, run_source m' n schedule = Some s /\ hash_group_columns s = Some columns /\
      columns_ok m' columns) as H.
  { intros m' Ho Hr Hs Hv Ha Ht Htu. destruct (run_source_done m' Hr Hs Hv Ha Ht n schedule Hsched Htu) as (s & E & Hd).
    destruct (run_source_ok m' Hr Hs Hv Ha Ht n schedule Hsched) as (s' & E' & Hok & Hl). rewrite E in E'.
    injection E' as <-. destruct (all_done_columns m' Hr Hs Hv Ha Ht s Hok Hd) as (columns & Ec & Hc); [lia |].
    by exists s, columns. }
  destruct Hsize as [Hs | [H0 Hp]]; [by apply H |].
  rewrite run_source_empty by done.
  destruct (H (set_partition_size 1)) as (s & columns & E & Ec & Hc); [done | done | done | done | exact Hasserted | done | |].
  - intros t Ht. specialize (Hturns t Ht). unfold enough_turns in *.
    assert (merger_partitions (set_partition_size 1) = merger_partitions m) as ->.
    { unfold merger_partitions. cbn [partition_size set_partition_size].
      change (merger_total_count (set_partition_size 1)) with (merger_total_count m). rewrite H0, Hp. done. }
    assert (merger_partitions m = 0%nat) as E0 by (unfold merger_partitions; by rewrite H0, Hp).
    rewrite E0 in Hturns |- *. lia.
  - exists s, columns. split_and!; [done | done | exact Hc].
Qed.
End group.

(** ** All groups *)

Section all_groups.
Context {V E LogicalType : Type}.
Context (eval : E -> list V -> V) (null : V) (hash_value : V -> Z) (int32_value : V -> Z).
Context (EstimateCardinality : list Z -> Z).
Context (chunks : list (PayloadRow V) -> list (list (PayloadRow V))) `{!ChunkIterator chunks}.
Context (config : WindowOperatorConfig) (h : HashedSort E LogicalType).

(** Sorting with PARTITION BY, as in HashedSortInvariant. *)
Context (Hparts : hs_partitions h <> []) (Horders : hs_orders h <> []) (Hcols : 0 < sort_col_count h).
Context (Hsimulate : simulate_shrink_partitions config = false).
Context (Hpredicate : shrink_partitions config = true -> 1 <= u64 (predicate_value config)).

(** The merger reads its columns from keys of the payload rows. *)
Context (merger_config : SortedRunMerger (A := list V)).
Abbreviation key_lt := (key_lt merger_config).
Abbreviation le := (fun x y : list V => key_lt y x = false).
Context `{!StrictWeakOrder key_lt}.
Context (Hvergesort : forall keys, vergesort merger_config keys ≡ₚ keys /\
  StronglySorted le (vergesort merger_config keys)).
Context (Hconfig : predicate merger_config = value_count config).
Context (Hord : key_order_by merger_config = column_ord int32_value h).

(** The sort of a run and its memory, as in SortInvariant. *)
Context (SizeInBytes : list (list V) -> Z) (sort_run : list (list V) -> list (list V)).
Context (force_external verify_parallelism : bool) (minimum_reservation max_rows : Z).
Context (Hsort : forall rows, sort_run rows ≡ₚ rows /\ StronglySorted le (sort_run rows)).
Context (Hnum_threads : 1 <= Z.of_nat (SortedRunMerger.num_threads merger_config) < 2 ^ 32).
Context (Hsize : forall rows, Z.of_nat (length rows) <= max_rows ->
  0 <= SizeInBytes rows /\
  4 * (Z.of_nat (SortedRunMerger.num_threads merger_config) * SizeInBytes rows) <= 2 ^ 61).
Context (Hminimum : 1 <= minimum_reservation <= 2 ^ 62).

Definition sort_operator : SortOps (list V) :=
  Sort_ops SizeInBytes sort_run false force_external verify_parallelism
    (Z.of_nat (SortedRunMerger.num_threads merger_config)) minimum_reservation.

#[local] Instance sort_operator_laws : SortSinkLaws sort_operator :=
  Sort_laws SizeInBytes sort_run le false force_external verify_parallelism
    (Z.of_nat (SortedRunMerger.num_threads merger_config)) minimum_reservation max_rows
    Hsort Hnum_threads Hsize Hminimum.

Abbreviation sink := (SortGlobalSinkState (list V)).
Abbreviation group_merger := (group_merger merger_config).
Abbreviation asserted := (keys_asserted merger_config).

(** A finalized sort is ready to be merged. *)
Definition sink_ready (g : sink) : Prop :=
  Forall (run_done le (sg_external g)) (sg_sorted_runs g) /\
  (0 < sg_partition_size g \/ (runs_rows g = [] /\ sg_partition_size g = 0)).

Lemma finalized_ready (g0 : sink) :
  sort_inv (ops := sort_operator) g0 [] -> sink_ready (sort_finalize sort_operator g0).
Proof.
  intros [Hg _]. cbn.
  pose proof (Sort_Finalize_ok le verify_parallelism (Z.of_nat (SortedRunMerger.num_threads merger_config))
    Hnum_threads g0 Hg) as H.
  destruct (Sort_Finalize _ _ g0) as [output g']. cbn. by destruct H as (_ & Hd & _ & _ & _ & Hp).
Qed.

(** A schedule of the tasks of a group in which every task has enough turns. *)
Definition group_schedule_ok (g : sink) (schedule : list (nat * bool)) : Prop :=
  forall m, group_merger g = Some m ->
    Forall (fun p => fst p < tasks_scheduled m)%nat schedule /\
    forall t, (t < tasks_scheduled m)%nat -> enough_turns m (source_turns t schedule).

Lemma materialize_group_ok g schedule :
  sink_ready g -> group_schedule_ok g schedule -> asserted (runs_rows g) ->
  exists m columns, group_merger g = Some m /\
    materialize_group merger_config schedule g = Some columns /\ columns_ok m columns.
Proof.
  intros [Hd Hp] Hsched Ha.
  assert (Forall (fun run => finalized run = true) (sg_sorted_runs g)) as Hfin.
  { eapply Forall_impl; [exact Hd |]. by intros r (Hr & _). }
  pose proof (SortedRunsTotalCount_finalized _ Hfin) as Ecount.
  unfold materialize_group, group_schedule_ok, HashGroups.group_merger, SortGlobalSourceState_merger in *.
  rewrite Ecount in Hsched |- *. cbn [mbind option_bind] in Hsched |- *.
  match goal with |- exists m _, Some ?x = Some m /\ _ => set (m := x) in *; exists m end.
  destruct (Hsched m eq_refl) as [Hs Ht].
  destruct (run_source_columns m) with (n := tasks_scheduled m) (schedule := schedule)
    as (s & columns & E1 & Ec & Hc); try done.
  - cbn. apply Forall_fmap. eapply Forall_impl; [exact Hd |]. intros r (_ & Hr & _). exact Hr.
  - cbn. lia.
  - destruct Hp as [Hp | [H0 Hp]]; [by left | right]. split; [| done].
    pose proof (length_mjoin (run_rows <$> sg_sorted_runs g)) as Hl. unfold runs_rows in H0. rewrite H0 in Hl.
    symmetry. exact Hl.
  - unfold tasks_scheduled, MaxThreads. cbn. lia.
  - exists columns. split; [done |]. rewrite E1. cbn. by rewrite Ec.
Qed.

Abbreviation group_rows := (group_rows sort_operator).
Abbreviation sorted_rows := (sorted_rows sort_operator).
Abbreviation all_combined := (all_combined sort_operator).
Abbreviation hash_groups := (hash_groups sort_operator).
Abbreviation row := (PayloadRow V).
Abbreviation input_rows inputs := (grouped eval null hash_value h (mjoin (mjoin inputs))).

(** Every group has a schedule in which its tasks have enough turns. *)
Definition schedules_ok (groups : list (option (HashedSortGroup sort_operator)))
    (schedules : nat -> list (nat * bool)) : Prop :=
  forall i group g, groups !! i = Some (Some group) -> sort_global _ group = Some g ->
    group_schedule_ok g (schedules i).

(** [operator<] compares the partition and then the ORDER BY value. *)
Definition keys_order (rows : list (list V)) : Prop :=
  forall x y, x ∈ rows -> y ∈ rows ->
    key_lt x y = (key_partition merger_config x <? key_partition merger_config y) ||
      ((key_partition merger_config x =? key_partition merger_config y) &&
       (column_ord int32_value h x <? column_ord int32_value h y)).

Abbreviation safe_prune :=
  (safe_prune (key_partition merger_config) (column_ord int32_value h) (value_count config)).

(** The columns of one group. *)
Lemma group_columns_ok g schedule columns :
  sink_ready g -> group_schedule_ok g schedule ->
  keys_order (runs_rows g) -> asserted (runs_rows g) ->
  materialize_group merger_config schedule g = Some columns ->
  StronglySorted le columns /\ safe_prune (runs_rows g) columns.
Proof.
  intros Hr Hs Hk Ha E0.
  destruct (materialize_group_ok g schedule Hr Hs Ha) as (m & columns' & Em & E1 & Hsorted & Hall & Hprune).
  rewrite E0 in E1. injection E1 as <-. unfold HashGroups.group_merger, SortGlobalSourceState_merger in Em.
  destruct (SortedRunsTotalCount _) in Em; [| done]. injection Em as <-.
  cbn in Hsorted, Hall, Hprune. split; [by apply Hsorted |].
  destruct (do_merge_pruning _) eqn:Ep in Hall, Hprune.
  - rewrite Hconfig, Hord in Hprune. apply Hprune; [done | done |]. unfold keys_compare_columns. cbn.
    exact Hk.
  - eapply (prune_perm _ _ _); [reflexivity | symmetry; by apply Hall | apply (prune_refl _)].
Qed.

Definition rows_of (groups : list (option (HashedSortGroup sort_operator))) : list (list (list V)) :=
  (fun group => group_rows (Some group)) <$> groups.

Lemma MaterializeHashGroups_ok (groups : list (option (HashedSortGroup sort_operator))) schedules :
  (forall i group (g : GSink sort_operator), groups !! i = Some (Some group) -> sort_global _ group = Some g -> sink_ready g) ->
  (forall i group, groups !! i = Some (Some group) -> is_Some (sort_global _ group)) ->
  schedules_ok groups schedules -> keys_order (sorted_rows groups) -> asserted (sorted_rows groups) ->
  exists columns, MaterializeHashGroups sort_operator merger_config id schedules groups = Some columns /\
    Forall (StronglySorted le) columns /\
    Forall2 safe_prune (rows_of groups) columns.
Proof.
  intros Hready Hsome Hsched Hkeys Hasserted. unfold MaterializeHashGroups.
  assert (forall k gs, (forall i group, gs !! i = Some group -> groups !! (k + i)%nat = Some group) ->
    exists columns, mapM (fun '(group_idx, group) =>
        match group with
        | None => Some []
        | Some group => sink ← sort_global _ group; materialize_group merger_config (schedules group_idx) (id sink)
        end) (imap (fun i group => ((k + i)%nat, group)) gs) = Some columns /\
      Forall (StronglySorted le) columns /\
      Forall2 safe_prune (rows_of gs) columns) as H; [| by apply (H 0%nat)].
  intros k gs. revert k. induction gs as [| group gs IH]; intros k Hgs.
  { exists []. split_and!; [done | constructor | constructor]. }
  rewrite imap_cons, Nat.add_0_r. cbn [mapM].
  assert (groups !! k = Some group) as Hk by (rewrite <- (Nat.add_0_r k); by apply Hgs).
  destruct (IH (S k)) as (columns & E1 & Hs & Hp).
  { intros i gr Hi. rewrite Nat.add_succ_comm. by apply Hgs. }
  assert (exists cs, match group with
      | None => Some []
      | Some group => sink ← sort_global _ group; materialize_group merger_config (schedules k) (id sink)
      end = Some cs /\ StronglySorted le cs /\ safe_prune (group_rows (Some group)) cs) as (cs & Ec & Hcs & Hcp).
  { destruct group as [group |]; cycle 1.
    { exists []. split_and!; [done | constructor | apply (prune_refl _)]. }
    destruct (Hsome k group Hk) as [g Hg]. rewrite Hg. cbn [mbind option_bind id].
    pose proof (Hready k group g Hk Hg) as Hr. pose proof (Hsched k group g Hk Hg) as Hgs'.
    assert (group_rows (Some (Some group)) = runs_rows g) as Egr
      by (unfold HashedSortInvariant.group_rows; cbn; by rewrite Hg).
    assert (forall x, x ∈ runs_rows g -> x ∈ sorted_rows groups) as Hin.
    { intros x Hx. apply list_elem_of_join. exists (group_rows (Some (Some group))). rewrite Egr. split; [done |].
      apply list_elem_of_fmap. exists (Some group). rewrite Egr. split; [done | by eapply list_elem_of_lookup_2]. }
    assert (asserted (runs_rows g)) as Hag by (by eapply keys_asserted_sub).
    destruct (materialize_group_ok g (schedules k) Hr Hgs' Hag) as (m & cs & _ & Ec & _).
    exists cs. split; [done |]. rewrite Egr.
    eapply group_columns_ok; [done | done | | done | done]. intros x y Hx Hy. apply Hkeys; by apply Hin. }
  rewrite Ec. cbn [mbind option_bind].
  rewrite (imap_ext _ (fun i group => ((S k + i)%nat, group))) by (intros; cbn; f_equal; lia).
  rewrite E1. cbn [mbind option_bind]. exists (cs :: columns).
  split_and!; [done | by constructor | by constructor].
Qed.
Abbreviation columns_of rows := (columns <$> rows : list (list V)).
Abbreviation input_ok := (input_ok eval null hash_value int32_value sort_operator config h).
Abbreviation run_sink := (run_sink eval null hash_value int32_value EstimateCardinality chunks sort_operator config h).
Abbreviation part := (key_partition merger_config).
Abbreviation ord := (column_ord int32_value h).

Lemma finalized_groups (g : GlobalSinkState sort_operator) :
  groups_finalized sort_operator g ->
  (forall i group (s : GSink sort_operator), hash_groups g !! i = Some (Some group) ->
     sort_global _ group = Some s -> sink_ready s) /\
  (forall i group, hash_groups g !! i = Some (Some group) -> is_Some (sort_global _ group)).
Proof.
  intros Hf. split.
  - intros i group s Hi Es. destruct (Hf i group Hi) as (s0 & E0 & Hs0). rewrite Es in E0.
    injection E0 as ->. by apply finalized_ready.
  - intros i group Hi. destruct (Hf i group Hi) as (s0 & E0 & _). by eexists.
Qed.

(** C18. Whatever the order in which threads sink and combine their rows and the tasks
    of every hash group merge and materialize it, if every task has enough turns the
    columns of every group are sorted, and the rows of RANK at most the predicate
    among those of all groups are those among the rows of the input: what partition
    pruning and Merge Pruning drop together changes no result of such a predicate,
    provided that

    - two rows have the same hash exactly if they are of the same partition (with a
      collision, rows of another partition can be dropped: [partition_pruning_collision]
      of HashedSort);
    - the merger reads the partition and the first ORDER BY column of the heaps, and
      [operator<] compares exactly these two ([Hord] and [keys_order]);
    - with Merge Pruning, the assertion of [extract_order_by] holds for all keys: they
      hold nothing behind the two columns ([asserted]). *)
Theorem window_input_safe pages inputs schedule s :
  Forall input_ok inputs -> Forall (fun c => fst c < length inputs)%nat schedule ->
  run_sink pages inputs schedule = Some s -> all_combined s -> mjoin (mjoin inputs) <> [] ->
  (forall x y, x ∈ input_rows inputs -> y ∈ input_rows inputs ->
    row_hash x = row_hash y <-> part (columns x) = part (columns y)) ->
  keys_order (columns_of (input_rows inputs)) -> asserted (columns_of (input_rows inputs)) ->
  exists g', Finalize sort_operator h (sink_global _ s) = Some (READY, g') /\
    forall schedules, schedules_ok (hash_groups g') schedules ->
    exists groups, MaterializeHashGroups sort_operator merger_config id schedules (hash_groups g') = Some groups /\
      Forall (StronglySorted le) groups /\
      let all := columns_of (input_rows inputs) in
      filter (fun r => Pruning.rank part ord (mjoin groups) r <= value_count config) (mjoin groups) ≡ₚ
      filter (fun r => Pruning.rank part ord all r <= value_count config) all.
Proof.
  intros Hi Hc Hrun Hall Hne Hpart Hkeys Hasserted.
  destruct (combined_result eval null hash_value int32_value EstimateCardinality chunks sort_operator config h
    Hparts Horders Hcols Hsimulate Hpredicate pages inputs schedule s Hi Hc Hrun Hall)
    as (g' & K & bits & EF & [_ Hk _ Hrows Hfinal]).
  destruct (finalized_groups g' (Hfinal Hne)) as [Hready Hsome]. exists g'. split.
  { rewrite EF. by destruct (mjoin (mjoin inputs)). }
  intros schedules Hsched.
  destruct (MaterializeHashGroups_ok (hash_groups g') schedules Hready Hsome Hsched) as (groups & EM & Hsorted & Hprune).
  1, 2: pose proof Hk as [(R & HD & _) _].
  { intros x y Hx Hy. apply Hkeys; rewrite HD, fmap_app; apply elem_of_app; left; by rewrite <- Hrows. }
  { eapply keys_asserted_sub; [| exact Hasserted]. intros x Hx. rewrite HD, fmap_app. apply elem_of_app. left.
    by rewrite <- Hrows. }
  exists groups. split_and!; [done | done |]. cbn zeta.
  rewrite <- (kept_ok_filter int32_value config h part _ _ Hk Hpart).
  apply (prune_concat part ord (Pruning.dense_rank part ord)), safe_prune_rank in Hprune.
  rewrite (filter_pruned part ord (Pruning.rank part ord) _ _ _ Hprune).
  change (mjoin (rows_of (hash_groups g'))) with (sorted_rows (hash_groups g')).
  etransitivity; [by apply filter_Permutation, Hrows |].
  apply reflexive_eq, filter_iff_in. intros r _. by rewrite Hrows.
Qed.
End all_groups.

(** ** Witness

    The example of HashedSortInvariant with the sort operator, two threads for every
    hash group, and Merge Pruning. *)

Section by_code.
Context {T : Type} (code : T -> Z).

Definition code_lt (x y : T) : bool := code x <? code y.
Definition code_le (x y : T) : Prop := code x <= code y.

#[export] Instance code_order : StrictWeakOrder code_lt.
Proof. unfold code_lt. split; intros; rewrite ?Z.ltb_lt, ?Z.ltb_ge in *; lia. Qed.

#[export] Instance code_le_dec : RelDecision code_le.
Proof. intros x y. unfold code_le. apply _. Defined.

Lemma code_sort (rows : list T) :
  merge_sort code_le rows ≡ₚ rows /\ StronglySorted (fun x y => code_lt y x = false) (merge_sort code_le rows).
Proof.
  assert (Total code_le) by (intros x y; unfold code_le; lia).
  assert (Transitive code_le) by (intros x y z; unfold code_le; lia).
  split; [apply merge_sort_Permutation |].
  rewrite <- (list_fmap_id (merge_sort code_le rows)).
  apply (StronglySorted_fmap _ code_le); [intros x y ?; unfold code_lt, code_le in *; cbn; lia |].
  apply (StronglySorted_merge_sort code_le).
Qed.
End by_code.

Definition row_code (r : list Z) : Z := 100 * znth 0 r 0 + znth 0 r 1.

Definition example_merger_config : SortedRunMerger (A := list Z) := {|
  sorted_runs := []; partition_size := 0; external := false; is_index_sort := false; use_filter := true;
  fixed_16 := true; key_lt := code_lt row_code; key_partition := example_part;
  key_order_by := column_ord id example_sort; key_asserted := (fun _ => true); predicate := value_count example_config;
  SortedRunMerger.num_threads := 2; TuplesPerBlock := 1; vergesort := merge_sort (code_le row_code) |}.

Definition example_row_size (rows : list (list Z)) : Z := 16 * Z.of_nat (length rows).

Abbreviation example_operator :=
  (sort_operator example_merger_config example_row_size (merge_sort (code_le row_code)) false false 48).

Definition example_env_schedule (n : nat) : list (nat * Z) := mjoin (replicate n [(0%nat, 48); (1%nat, 48)]).

Abbreviation example_operator_run n :=
  (run_sink example_eval 0 example_hash id (fun _ => 0) single_chunk example_operator example_config example_sort
    4 example_inputs (example_env_schedule n)).

Definition example_operator_sink : SinkSystem example_operator :=
  default {| sink_global := {| grouping_data := None; fixed_bits := 0; hash_groups := []; max_bits := 0;
                               gs_count := 0 |}; sink_threads := [] |} (example_operator_run 60).

Definition example_final : GlobalSinkState example_operator :=
  default (sink_global _ example_operator_sink)
    (snd <$> Finalize example_operator example_sort (sink_global _ example_operator_sink)).

(** All tasks of a group in turn. *)
Definition example_schedules (i : nat) : list (nat * bool) :=
  match hash_groups _ example_final !! i with
  | Some (Some group) =>
      match sort_global _ group with
      | Some sink =>
          let n := default 0%nat (tasks_scheduled <$> group_merger example_merger_config sink) in
          mjoin (replicate 100 ((fun t => (t, true)) <$> seq 0 n))
      | None => []
      end
  | _ => []
  end.

Example example_materialized :
  filter (fun columns => columns <> []) <$>
    MaterializeHashGroups example_operator example_merger_config id example_schedules (hash_groups _ example_final) =
  Some [[[1; 3; 0]; [1; 4; 0]]; [[2; 1; 0]; [2; 6; 0]]; [[3; 0; 0]]].
Proof. vm_compute. reflexivity. Qed.

Lemma example_row_size_fits rows :
  Z.of_nat (length rows) <= 1000 -> 0 <= example_row_size rows /\ 4 * (Z.of_nat 2 * example_row_size rows) <= 2 ^ 61.
Proof. unfold example_row_size. lia. Qed.

Lemma example_num_threads : 1 <= Z.of_nat (SortedRunMerger.num_threads example_merger_config) < 2 ^ 32.
Proof. cbn. lia. Qed.

Lemma example_minimum : 1 <= 48 <= 2 ^ 62.
Proof. lia. Qed.

#[local] Instance example_operator_laws : SortSinkLaws example_operator :=
  sort_operator_laws example_merger_config example_row_size (merge_sort (code_le row_code)) false false 48 1000
    (code_sort row_code) example_num_threads example_row_size_fits example_minimum.

Lemma example_operator_chunks :
  Forall (input_ok example_eval 0 example_hash id example_operator example_config example_sort) example_inputs.
Proof.
  assert (forall a b, row_ok example_eval 0 example_hash id example_config example_sort [a; b]) as Hrow.
  { intros a b. split; [by eexists | intros _; by eexists]. }
  unfold example_inputs.
  repeat (constructor; [split; [repeat (constructor; [split; [by vm_compute | auto] |]); auto | by vm_compute] |]).
  constructor.
Qed.

Lemma example_env_threads n : Forall (fun c => fst c < length example_inputs)%nat (example_env_schedule n).
Proof. unfold example_env_schedule. apply Forall_join, Forall_replicate. cbn. repeat constructor. Qed.

Lemma example_parts x y :
  x ∈ example_rows -> y ∈ example_rows ->
  row_hash x = row_hash y <-> example_part (columns x) = example_part (columns y).
Proof.
  assert (Forall (fun x => Forall (fun y => row_hash x = row_hash y <->
    example_part (columns x) = example_part (columns y)) example_rows) example_rows) as Hpart.
  { apply (bool_decide_unpack _). vm_compute. exact I. }
  intros Hx Hy. rewrite Forall_forall in Hpart. specialize (Hpart x Hx).
  rewrite Forall_forall in Hpart. exact (Hpart y Hy).
Qed.

Lemma example_keys_order : keys_order id example_sort example_merger_config (columns <$> example_rows).
Proof.
  assert (Forall (fun x => Forall (fun y =>
    code_lt row_code x y = (example_part x <? example_part y) || ((example_part x =? example_part y) &&
      (column_ord id example_sort x <? column_ord id example_sort y))) (columns <$> example_rows))
    (columns <$> example_rows)) as Ho.
  { apply (bool_decide_unpack _). vm_compute. exact I. }
  intros x y Hx Hy. rewrite Forall_forall in Ho. specialize (Ho x Hx).
  rewrite Forall_forall in Ho. exact (Ho y Hy).
Qed.

Lemma example_operator_sink_run : example_operator_run 60 = Some example_operator_sink.
Proof. apply default_Some. vm_compute. reflexivity. Qed.

Definition example_group_check (i : nat) (group : option (HashedSortGroup example_operator)) : bool :=
  match group with
  | Some group =>
      match sort_global _ group with
      | Some sink =>
          match group_merger example_merger_config sink with
          | Some m =>
              bool_decide (Forall (fun p => fst p < tasks_scheduled m)%nat (example_schedules i)) &&
              forallb (fun t => bool_decide (enough_turns m (source_turns t (example_schedules i))))
                (seq 0 (tasks_scheduled m))
          | None => true
          end
      | None => true
      end
  | None => true
  end.

Lemma example_schedules_ok :
  schedules_ok example_merger_config example_row_size (merge_sort (code_le row_code)) false false 48
    (hash_groups _ example_final) example_schedules.
Proof.
  assert (forallb id (imap example_group_check (hash_groups _ example_final)) = true) as Hcheck
    by (vm_compute; reflexivity).
  intros i group g Hi Hg m Em. pose proof (imap_forallb _ _ _ _ Hcheck Hi) as Hi'.
  unfold example_group_check in Hi'. rewrite Hg, Em in Hi'. cbn [id] in Hi'.
  apply andb_true_iff in Hi' as [H1 H2]. split; [exact (bool_decide_eq_true_1 _ H1) |].
  intros t Ht. rewrite forallb_forall in H2. apply (bool_decide_eq_true_1 _), H2, in_seq. cbn zeta in Ht. lia.
Qed.

Lemma window_input_safe_witness :
  exists groups,
    MaterializeHashGroups example_operator example_merger_config id example_schedules (hash_groups _ example_final) =
      Some groups /\
    Forall (StronglySorted (fun x y => code_lt row_code y x = false)) groups /\
    let all := columns <$> example_rows in
    filter (fun r => Pruning.rank example_part (column_ord id example_sort) (mjoin groups) r <=
      value_count example_config) (mjoin groups) ≡ₚ
    filter (fun r => Pruning.rank example_part (column_ord id example_sort) all r <=
      value_count example_config) all.
Proof.
  edestruct (window_input_safe example_eval 0 example_hash id (fun _ => 0) single_chunk example_config
    example_sort) with (merger_config := example_merger_config) (SizeInBytes := example_row_size)
    (sort_run := merge_sort (code_le row_code)) (force_external := false) (verify_parallelism := false)
    (minimum_reservation := 48) (max_rows := 1000)
    (schedule := example_env_schedule 60) (pages := 4) (inputs := example_inputs) (s := example_operator_sink)
    (Hsort := code_sort row_code) (Hnum_threads := example_num_threads) (Hsize := example_row_size_fits)
    (Hminimum := example_minimum) as (g' & E1 & Hmat).
  1-5: done.
  - apply code_order.
  - exact (code_sort row_code).
  - reflexivity.
  - reflexivity.
  - exact example_operator_chunks.
  - exact (example_env_threads 60).
  - exact example_operator_sink_run.
  - apply (bool_decide_unpack _). vm_compute. exact I.
  - discriminate.
  - exact example_parts.
  - exact example_keys_order.
  - intros _. apply Forall_true. done.
  - assert (g' = example_final) as -> by (unfold example_final; by rewrite E1).
    exact (Hmat example_schedules example_schedules_ok).
Defined.
