(* ===== verification/MergeSortThreads.v ===== *)
(** * The threads that build a merge sort tree

    The invariant of the threads of [Build]: the levels below [build_level] are complete,
    every run of that level that was given out is built or waits in exactly one thread,
    and the count of completed runs, on which the next level waits, lags behind by the
    threads that are not through.  No interleaving fails, a thread that leaves [Build]
    has seen the complete tree, and all threads leave it. *)

From S2P Require Import Prelude Validity MaskSearch Boundaries RangeSearch Aggregates MergeSortTree MergeSortGames MergeSortRuns MergeSortBuild.

Section threads.
Context {traits : MergeSortTraits} {k c : nat} `{!MergeSortTraitsOk k c} (leaves : list Z).
Context (Hn : Z.of_nat (length leaves) < 2 ^ offset_bits).
Context (Hleaves : Forall (fun v => v < 2 ^ element_bits) leaves).
Context (garbage : RunElement) (top : nat).
Abbreviation n := (Z.of_nat (length leaves)).
Abbreviation num_runs := (num_runs leaves).
Abbreviation run_built := (run_built leaves).
Abbreviation level_done := (level_done leaves).
Implicit Types (t : Tree) (l : nat) (r : Z) (th : TreeBuilder) (ths : list TreeBuilder) (m : MergeSortTree) (s : BuildSystem).

(** The run of a thread. *)
Definition pending th : option Z :=
  match th with AtBuildRun _ r | AtComplete _ r => Some r | _ => None end.

Definition busy th : Z := match pending th with Some _ => 1 | None => 0 end.

Definition build_thread_ok m th : Prop :=
  match th with
  | AtLoop => True
  | AtTryNextRun => (build_level m <= top)%nat \/ build_num_runs m <= build_complete m
  | AtBuildRun l r => l = build_level m /\ (l <= top)%nat /\ 0 <= r < build_run m
  | AtComplete l r => l = build_level m /\ (l <= top)%nat /\ 0 <= r < build_run m /\ run_built (tree m) l r
  | BuildDone => (top < build_level m)%nat
  end.

(** The level that is built. *)
Record level_open m ths : Prop := {
  lo_length : build_run_length m = width (build_level m);
  lo_num_runs : build_num_runs m = num_runs (build_level m);
  lo_run : 0 <= build_run m <= num_runs (build_level m);
  lo_complete : build_complete m + zsum busy ths = build_run m;
  lo_given : forall r, 0 <= r < build_run m ->
    run_built (tree m) (build_level m) r \/ exists j, ths !! j = Some (AtBuildRun (build_level m) r)
}.

Record build_ok s : Prop := {
  bo_shape : shape leaves top (tree (fst s));
  bo_positive : (1 <= build_level (fst s))%nat;
  bo_below : forall l, (l < build_level (fst s))%nat -> (l <= top)%nat -> level_done (tree (fst s)) l;
  bo_open : (build_level (fst s) <= top)%nat -> level_open (fst s) (snd s);
  bo_threads : forall j th, snd s !! j = Some th -> build_thread_ok (fst s) th;
  bo_apart : forall i j th th' r, snd s !! i = Some th -> snd s !! j = Some th' ->
    pending th = Some r -> pending th' = Some r -> i = j
}.

Lemma busy_nonneg ths : 0 <= zsum busy ths.
Proof. apply zsum_nonneg. intros th _. unfold busy. by destruct (pending th). Qed.

Lemma not_busy ths j th : zsum busy ths = 0 -> ths !! j = Some th -> pending th = None.
Proof.
  intros Hz Hj%list_elem_of_lookup_2.
  assert (busy th <= zsum busy ths) as Hm.
  { apply zsum_member; [| done]. intros th' _. unfold busy. by destruct (pending th'). }
  unfold busy in Hm at 1. destruct (pending th); [lia | done].
Qed.

(** A thread that is not given a run moves. *)
Lemma build_ok_idle m ths j th th' :
  ths !! j = Some th -> pending th = None -> pending th' = None -> build_thread_ok m th' ->
  build_ok (m, ths) -> build_ok (m, <[j := th']> ths).
Proof.
  intros Hj Hp Hp' Hth' [H1 H2 H3 H4 H5 H6]. cbn [fst snd] in *. split; cbn [fst snd]; try done.
  - intros Hl. destruct (H4 Hl) as [L1 L2 L3 L4 L5]. split; [done.. | |].
    + rewrite (zsum_insert _ _ _ _ th' Hj). unfold busy at 2 3. rewrite Hp, Hp'. lia.
    + intros r Hr. destruct (L5 r Hr) as [? | [i Hi]]; [by left | right]. exists i.
      rewrite list_lookup_insert_ne; [done |]. intros ->. rewrite Hj in Hi. injection Hi as ->. done.
  - intros i thi Hi. destruct (decide (i = j)) as [-> | Hne].
    + rewrite list_lookup_insert_eq in Hi by (by eapply lookup_lt_Some). by injection Hi as <-.
    + rewrite list_lookup_insert_ne in Hi by done. by apply (H5 i).
  - assert (forall i thi r, <[j:=th']> ths !! i = Some thi -> pending thi = Some r -> ths !! i = Some thi) as Hi.
    { intros i thi r Hi Hr. destruct (decide (i = j)) as [-> | Hne].
      - rewrite list_lookup_insert_eq in Hi by (by eapply lookup_lt_Some). injection Hi as <-. by rewrite Hp' in Hr.
      - by rewrite list_lookup_insert_ne in Hi by done. }
    intros i i' thi thi' r Hi1 Hi2 Hr1 Hr2. eapply (H6 i i'); eauto.
Qed.

(** No thread has a run when the level is complete, or after the last level. *)
Lemma level_complete m ths :
  build_ok (m, ths) -> build_num_runs m <= build_complete m ->
  ((build_level m <= top)%nat -> level_done (tree m) (build_level m)) /\
  forall j th, ths !! j = Some th -> pending th = None.
Proof.
  intros [H1 H2 H3 H4 H5 H6] Hc. cbn [fst snd] in *.
  destruct (decide (build_level m <= top)%nat) as [Hl | Hl].
  - destruct (H4 Hl) as [L1 L2 L3 L4 L5]. pose proof (busy_nonneg ths). assert (zsum busy ths = 0) as Hz by lia.
    split; [| intros j th; by apply not_busy]. intros _ r Hr Hlt. apply num_runs_lt in Hlt; [| done].
    destruct (L5 r ltac:(lia)) as [? | [j Hj]]; [done |]. by apply not_busy in Hj.
  - split; [done |]. intros j th Hj. specialize (H5 j th Hj). destruct th; cbn in *; try done; lia.
Qed.

(** The next level. *)
Lemma build_ok_advance m m' ths :
  build_ok (m, ths) -> build_num_runs m <= build_complete m ->
  tree m' = tree m -> build_level m' = S (build_level m) ->
  ((build_level m' <= top)%nat -> build_run_length m' = width (build_level m') /\
    build_num_runs m' = num_runs (build_level m') /\ build_run m' = 0 /\ build_complete m' = 0) ->
  ((top < build_level m')%nat -> build_num_runs m' <= build_complete m') ->
  build_ok (m', ths).
Proof.
  intros Hok Hc Et El Hopen Hclosed. destruct (level_complete m ths Hok Hc) as [Hdone Hidle].
  destruct Hok as [H1 H2 H3 H4 H5 H6]. cbn [fst snd] in *. split; cbn [fst snd]; rewrite ?Et; try done.
  - lia.
  - intros l Hl Htop. destruct (decide (l = build_level m)) as [-> |]; [by apply Hdone | apply H3; lia].
  - intros Hl. destruct (Hopen Hl) as (E1 & E2 & E3 & E4). pose proof (num_runs_nonneg leaves (build_level m')) as Hnn.
    assert (zsum busy ths = 0) as Hz.
    { transitivity (zsum (fun _ : TreeBuilder => 0) ths); [| apply zsum_zero]. apply zsum_ext.
      intros th [j Hj]%list_elem_of_lookup_1. unfold busy. by rewrite (Hidle j). }
    split; [done | done | lia | lia |]. intros r Hr. lia.
  - intros j th Hj. specialize (H5 j th Hj). specialize (Hidle j th Hj). destruct th; cbn in *; try done; lia.
Qed.

(** The next run of the level goes to a thread. *)
Lemma build_ok_give m ths j th :
  build_ok (m, ths) -> (build_level m <= top)%nat -> build_run m < build_num_runs m ->
  ths !! j = Some th -> pending th = None ->
  build_ok (mkMergeSortTree (tree m) (build_level m) (build_complete m) (build_run m + 1) (build_run_length m) (build_num_runs m),
    <[j := AtBuildRun (build_level m) (build_run m)]> ths).
Proof.
  intros [H1 H2 H3 H4 H5 H6] Hl Hrun Hj Hp. cbn [fst snd] in *. pose proof (lookup_lt_Some _ _ _ Hj) as Hjl.
  destruct (H4 Hl) as [L1 L2 L3 L4 L5].
  assert (forall i thi r, ths !! i = Some thi -> pending thi = Some r -> r < build_run m) as Hlow.
  { intros i thi r Hi Hr. specialize (H5 i thi Hi). destruct thi; cbn in *; try done; injection Hr as <-; lia. }
  split; cbn [fst snd tree build_level]; try done.
  - intros _. split; cbn [tree build_level build_complete build_run build_run_length build_num_runs]; [done | done | lia | |].
    + rewrite (zsum_insert _ _ _ _ _ Hj). unfold busy at 2 3. rewrite Hp. cbn [pending]. lia.
    + intros r Hr. destruct (decide (r = build_run m)) as [-> | Hne].
      { right. exists j. by rewrite list_lookup_insert_eq. }
      destruct (L5 r ltac:(lia)) as [? | [i Hi]]; [by left | right]. exists i.
      rewrite list_lookup_insert_ne; [done |]. intros ->. rewrite Hj in Hi. injection Hi as ->. done.
  - intros i thi Hi. destruct (decide (i = j)) as [-> | Hne].
    + rewrite list_lookup_insert_eq in Hi by done. injection Hi as <-. cbn. lia.
    + rewrite list_lookup_insert_ne in Hi by done. specialize (H5 i thi Hi). destruct thi; cbn in *; destruct_and?; split_and?; try done; lia.
  - intros i i' thi thi' r Hi Hi' Hr Hr'. destruct (decide (i = j)) as [-> | Hne], (decide (i' = j)) as [-> | Hne']; try done.
    + rewrite list_lookup_insert_eq in Hi by done. injection Hi as <-. cbn in Hr. injection Hr as <-.
      rewrite list_lookup_insert_ne in Hi' by done. specialize (Hlow _ _ _ Hi' Hr'). lia.
    + rewrite list_lookup_insert_eq in Hi' by done. injection Hi' as <-. cbn in Hr'. injection Hr' as <-.
      rewrite list_lookup_insert_ne in Hi by done. specialize (Hlow _ _ _ Hi Hr). lia.
    + rewrite !list_lookup_insert_ne in Hi, Hi' by done. eapply (H6 i i'); eauto.
Qed.

(** The run of a thread is built. *)
Lemma build_ok_run m ths j l r :
  build_ok (m, ths) -> ths !! j = Some (AtBuildRun l r) ->
  exists t', BuildRun garbage l r (tree m) = Some t' /\
    build_ok (mkMergeSortTree t' (build_level m) (build_complete m) (build_run m) (build_run_length m) (build_num_runs m),
      <[j := AtComplete l r]> ths).
Proof.
  intros [H1 H2 H3 H4 H5 H6] Hj. cbn [fst snd] in *. pose proof (lookup_lt_Some _ _ _ Hj) as Hjl.
  destruct (H5 j _ Hj) as (-> & Hl & Hr). destruct (H4 Hl) as [L1 L2 L3 L4 L5].
  destruct (build_level m) as [| l] eqn:El; [lia |].
  assert (r * width (S l) < n) as Hlt by (apply num_runs_lt; lia).
  destruct (BuildRun_tree leaves Hn Hleaves garbage top (tree m) l r H1 Hl (H3 l ltac:(lia) ltac:(lia)) (proj1 Hr) Hlt)
    as (t' & E & Hsh & Hnew & Hold).
  exists t'. split; [done |].
  assert (forall i, i <> j -> <[j := AtComplete (S l) r]> ths !! i = ths !! i) as Hi by (intros; by rewrite list_lookup_insert_ne).
  assert (<[j := AtComplete (S l) r]> ths !! j = Some (AtComplete (S l) r)) as Hjj by by rewrite list_lookup_insert_eq.
  split; cbn [fst snd tree build_level]; try done.
  - intros l' Hl' Ht r' Hr' Hlt'. apply Hold; [lia | done.. |]. by apply H3.
  - intros _. split; cbn [tree build_level build_complete build_run build_run_length build_num_runs]; [done | done | lia | |].
    + rewrite (zsum_insert _ _ _ _ _ Hj). unfold busy at 2 3. cbn [pending]. lia.
    + intros r' Hr'. destruct (L5 r' Hr') as [Hb | [i Hib]].
      { left. apply Hold; [lia | lia | apply num_runs_lt; lia | done]. }
      destruct (decide (i = j)) as [-> | Hne].
      { left. rewrite Hj in Hib. injection Hib as ->. done. }
      right. exists i. by rewrite Hi.
  - intros i thi Hith. destruct (decide (i = j)) as [-> | Hne].
    + rewrite Hjj in Hith. injection Hith as <-. cbn. done.
    + rewrite Hi in Hith by done. specialize (H5 i thi Hith). destruct thi; cbn in *; rewrite ?El in *; try done.
      destruct H5 as (-> & ? & ? & Hb). split_and!; [done | lia | lia | lia |].
      apply Hold; [lia | lia | apply num_runs_lt; lia | done].
  - intros i i' thi thi' r' Hith Hith' Hp Hp'.
    assert (forall i thi, <[j := AtComplete (S l) r]> ths !! i = Some thi -> pending thi = Some r' ->
      exists th0, ths !! i = Some th0 /\ pending th0 = Some r') as Hback.
    { intros i0 th0 H0 Hp0. destruct (decide (i0 = j)) as [-> | Hne]; [| rewrite Hi in H0 by done; eauto].
      rewrite Hjj in H0. injection H0 as <-. eauto. }
    destruct (Hback _ _ Hith Hp) as (? & ? & ?), (Hback _ _ Hith' Hp') as (? & ? & ?). eapply (H6 i i'); eauto.
Qed.

Lemma build_ok_complete m ths j l r :
  build_ok (m, ths) -> ths !! j = Some (AtComplete l r) ->
  build_ok (mkMergeSortTree (tree m) (build_level m) (build_complete m + 1) (build_run m) (build_run_length m) (build_num_runs m),
    <[j := AtLoop]> ths).
Proof.
  intros [H1 H2 H3 H4 H5 H6] Hj. cbn [fst snd] in *. pose proof (lookup_lt_Some _ _ _ Hj) as Hjl.
  destruct (H5 j _ Hj) as (-> & Hl & Hr & Hb). destruct (H4 Hl) as [L1 L2 L3 L4 L5].
  assert (forall i, i <> j -> <[j := AtLoop]> ths !! i = ths !! i) as Hi by (intros; by rewrite list_lookup_insert_ne).
  assert (<[j := AtLoop]> ths !! j = Some AtLoop) as Hjj by by rewrite list_lookup_insert_eq.
  split; cbn [fst snd tree build_level]; try done.
  - intros _. split; cbn [tree build_level build_complete build_run build_run_length build_num_runs]; [done | done | lia | |].
    + rewrite (zsum_insert _ _ _ _ _ Hj). unfold busy at 2 3. cbn [pending]. lia.
    + intros r' Hr'. destruct (L5 r' Hr') as [? | [i Hib]]; [by left | right].
      exists i. rewrite Hi; [done |]. intros ->. rewrite Hj in Hib. done.
  - intros i thi Hith. destruct (decide (i = j)) as [-> | Hne].
    + rewrite Hjj in Hith. injection Hith as <-. done.
    + rewrite Hi in Hith by done. specialize (H5 i thi Hith). destruct thi; cbn in *; try done. lia.
  - assert (forall i thi r', <[j := AtLoop]> ths !! i = Some thi -> pending thi = Some r' -> ths !! i = Some thi) as Hback.
    { intros i thi r' H0 Hp0. destruct (decide (i = j)) as [-> | Hne]; [| by rewrite Hi in H0].
      rewrite Hjj in H0. by injection H0 as <-. }
    intros i i' thi thi' r' Hith Hith' Hp Hp'. eapply (H6 i i'); eauto.
Qed.

(** ** Progress *)

(** The runs of the levels above a level, and the runs that are not given out. *)
Definition later l : Z := zsum num_runs (seq (S l) (top - l)).

Definition to_give m : Z :=
  if (build_level m <=? top)%nat then build_num_runs m - build_run m + later (build_level m) else 0.

Definition thread_work th : Z :=
  match th with AtBuildRun _ _ => 2 | AtComplete _ _ => 1 | _ => 0 end.

Definition work s : Z :=
  3 * to_give (fst s) + Z.of_nat (S top - build_level (fst s)) + zsum thread_work (snd s).

Lemma later_S l : (l < top)%nat -> later l = num_runs (S l) + later (S l).
Proof. intros Hl. unfold later. replace (top - l)%nat with (S (top - S l)) by lia. done. Qed.

Lemma later_nonneg l : 0 <= later l.
Proof. apply zsum_nonneg. intros l' _. apply num_runs_nonneg. Qed.

Lemma work_nonneg s : build_ok s -> 0 <= work s.
Proof.
  intros Hok. unfold work, to_give.
  assert (0 <= zsum thread_work (snd s)) by (apply zsum_nonneg; intros th _; destruct th; cbn; lia).
  destruct (Nat.leb_spec (build_level (fst s)) top) as [Hl | Hl]; [| lia].
  destruct (bo_open _ Hok Hl) as [L1 L2 L3 L4 L5]. pose proof (later_nonneg (build_level (fst s))). lia.
Qed.

(** What a step of thread [j] is. *)
Inductive step_kind s (j : nat) s' : Prop :=
  | StepWork : work s' < work s -> step_kind s j s'
  | StepTry : (build_level (fst s) <= top)%nat -> snd s !! j = Some AtLoop -> s' = (fst s, <[j := AtTryNextRun]> (snd s)) ->
      step_kind s j s'
  | StepYield : (build_level (fst s) <= top)%nat -> snd s !! j = Some AtTryNextRun -> 0 < zsum busy (snd s) ->
      s' = (fst s, <[j := AtLoop]> (snd s)) -> step_kind s j s'
  | StepLeave : (top < build_level (fst s))%nat -> (top < build_level (fst s'))%nat -> work s' = work s ->
      (snd s !! j = Some AtTryNextRun /\ snd s' = <[j := AtLoop]> (snd s) \/
       snd s !! j = Some AtLoop /\ snd s' = <[j := BuildDone]> (snd s)) -> step_kind s j s'
  | StepNone : snd s !! j = Some BuildDone \/ snd s !! j = None -> s' = s -> step_kind s j s'.

Lemma TryNextRun_ok m ths j :
  build_ok (m, ths) -> ths !! j = Some AtTryNextRun ->
  let '(m', run) := TryNextRun m in
  let th' := match run with Some (l, r) => AtBuildRun l r | None => AtLoop end in
  build_ok (m', <[j := th']> ths) /\ step_kind (m, ths) j (m', <[j := th']> ths).
Proof.
  intros Hok Hj. pose proof (bo_threads _ Hok j _ Hj) as Hth. cbn [fst snd build_thread_ok] in Hth.
  pose proof (bo_shape _ Hok) as (Ht & Hlow & _). cbn [fst] in Ht, Hlow.
  assert (forall th', zsum thread_work (<[j := th']> ths) = zsum thread_work ths + thread_work th') as Hw.
  { intros th'. rewrite (zsum_insert _ _ _ _ _ Hj). cbn [thread_work]. lia. }
  unfold TryNextRun. rewrite Ht.
  destruct (Z.leb_spec (build_num_runs m) (build_complete m)) as [Hc | Hc].
  - destruct (Nat.leb_spec (S top) (S (build_level m))) as [Hl | Hl]; cbn [negb].
    + assert (build_ok (mkMergeSortTree (tree m) (S (build_level m)) (build_complete m) (build_run m) (build_run_length m)
        (build_num_runs m), ths)) as Hok' by (eapply build_ok_advance; [exact Hok | exact Hc | done | done | cbn; lia | done]).
      split; [by eapply build_ok_idle |].
      destruct (decide (build_level m = top)) as [El | El].
      * apply StepWork. unfold work, to_give. cbn [fst snd build_level build_run build_num_runs]. rewrite Hw, El, Nat.leb_refl.
        rewrite (proj2 (Nat.leb_gt (S top) top)) by lia. cbn [thread_work].
        pose proof (bo_open _ Hok ltac:(cbn; lia)) as [L1 L2 L3 L4 L5]. cbn [fst] in *. pose proof (later_nonneg top). lia.
      * apply StepLeave; cbn [fst snd build_level]; [lia | lia | | by left].
        unfold work, to_give. cbn [fst snd build_level build_run build_num_runs]. rewrite Hw. cbn [thread_work].
        rewrite !(proj2 (Nat.leb_gt _ top)) by lia. lia.
    + rewrite LowestLevel_level, Hlow.
      pose proof (bo_open _ Hok ltac:(cbn; lia)) as [L1 L2 L3 L4 L5]. cbn [fst snd] in *.
      assert (build_run_length m * FANOUT = width (S (build_level m))) as Ew by by rewrite L1, width_S.
      rewrite Ew. fold (MergeSortBuild.num_runs leaves (S (build_level m))).
      set (m1 := mkMergeSortTree (tree m) (S (build_level m)) 0 0 (width (S (build_level m))) (num_runs (S (build_level m)))).
      assert (build_ok (m1, ths)) as Hok' by (eapply build_ok_advance; [exact Hok | exact Hc | done | done | done | cbn; lia]).
      pose proof (num_runs_nonneg leaves (S (build_level m))) as Hnn. pose proof (later_S (build_level m) ltac:(lia)) as Hlater.
      assert (Z.of_nat (S top - build_level m) = Z.of_nat (S top - S (build_level m)) + 1) as Hlv by lia.
      destruct (Z.leb_spec (build_num_runs m1) (build_run m1)) as [Hz | Hz]; cbn [build_num_runs build_run m1] in Hz.
      * split; [by eapply build_ok_idle |].
        apply StepWork. unfold work, to_give. cbn [fst snd build_level build_run build_num_runs m1].
        rewrite Hw, !(proj2 (Nat.leb_le _ top)) by lia. cbn [thread_work]. lia.
      * split; [apply (build_ok_give m1 ths j AtTryNextRun); cbn; try done; lia |].
        apply StepWork. unfold work, to_give. cbn [fst snd build_level build_run build_num_runs m1 tree build_complete build_run_length].
        rewrite Hw, !(proj2 (Nat.leb_le _ top)) by lia. cbn [thread_work]. lia.
  - destruct Hth as [Hl | ?]; [| lia]. pose proof (bo_open _ Hok Hl) as [L1 L2 L3 L4 L5]. cbn [fst snd negb] in *.
    destruct (Z.leb_spec (build_num_runs m) (build_run m)) as [Hr | Hr].
    + split; [by eapply build_ok_idle |]. apply StepYield; cbn [fst snd]; [done | done | lia | done].
    + split; [by apply (build_ok_give m ths j AtTryNextRun) |].
      apply StepWork. unfold work, to_give. cbn [fst snd build_level build_run build_num_runs].
      rewrite Hw, !(proj2 (Nat.leb_le _ top)) by lia. cbn [thread_work]. lia.
Qed.

(** No step fails. *)
Lemma build_step_ok s j :
  build_ok s -> exists s', build_system_step garbage s j = Some s' /\ build_ok s' /\ step_kind s j s' /\
    length (snd s') = length (snd s).
Proof.
  intros Hok. destruct s as [m ths]. unfold build_system_step. cbn [fst snd].
  destruct (ths !! j) as [th |] eqn:Hj.
  2: { exists (m, ths). split_and!; [done.. | | done]. apply StepNone; [by right | done]. }
  assert (forall th', zsum thread_work (<[j := th']> ths) = zsum thread_work ths - thread_work th + thread_work th') as Hw.
  { intros th'. by rewrite (zsum_insert _ _ _ _ _ Hj). }
  pose proof (bo_shape _ Hok) as (Ht & _ & _). cbn [fst] in Ht.
  destruct th as [| | l r | l r |]; cbn [build_thread_step mbind option_bind].
  - eexists. split; [done |]. cbn [snd]. rewrite length_insert. rewrite Ht.
    destruct (Nat.ltb_spec (build_level m) (S top)) as [Hl | Hl].
    + split_and!; [eapply build_ok_idle; try done; cbn; lia | apply StepTry; cbn; [lia | done | done] | done].
    + split_and!; [eapply build_ok_idle; try done; cbn; lia | | done]. apply StepLeave; cbn [fst snd]; [lia | lia | | by right].
      unfold work. cbn [fst snd]. rewrite Hw. cbn [thread_work]. lia.
  - pose proof (TryNextRun_ok m ths j Hok Hj) as H. destruct (TryNextRun m) as [m' run]. destruct H as [H1 H2].
    cbn [mbind option_bind]. eexists. split; [done |]. cbn [snd]. by rewrite length_insert.
  - destruct (build_ok_run m ths j l r Hok Hj) as (t' & -> & Hok'). cbn [mbind option_bind].
    eexists. split; [done |]. cbn [snd]. rewrite length_insert. split_and!; [done | | done].
    apply StepWork. unfold work, to_give. cbn [fst snd build_level build_run build_num_runs]. rewrite Hw. cbn [thread_work]. lia.
  - eexists. split; [done |]. cbn [snd]. rewrite length_insert. split_and!; [by eapply build_ok_complete | | done].
    apply StepWork. unfold work, to_give. cbn [fst snd build_level build_run build_num_runs]. rewrite Hw. cbn [thread_work]. lia.
  - eexists. split; [done |]. cbn [snd]. rewrite list_insert_id by done. split_and!; [done | | done].
    apply StepNone; [by left | done].
Qed.

Lemma step_work s j s' : build_ok s -> step_kind s j s' -> work s' <= work s.
Proof.
  intros Hok [Hp | Hl Hj -> | Hl Hj Hb -> | Hl Hl' -> _ | _ ->]; [lia | | | lia | lia].
  all: unfold work; cbn [fst snd]; rewrite (zsum_insert _ _ _ _ _ Hj); cbn [thread_work]; lia.
Qed.

(** Any steps. *)
Lemma build_steps_ok s schedule :
  build_ok s -> exists s', ofold (build_system_step garbage) s schedule = Some s' /\ build_ok s' /\ work s' <= work s /\
    length (snd s') = length (snd s).
Proof.
  revert s. induction schedule as [| j schedule IH]; intros s Hok; [exists s; split_and!; [done | done | lia | done] |].
  destruct (build_step_ok s j Hok) as (s1 & E1 & Hok1 & Hk & Hl1). rewrite ofold_cons, E1. cbn [mbind option_bind].
  destruct (IH s1 Hok1) as (s2 & E2 & Hok2 & Hp & Hl2). exists s2. pose proof (step_work _ _ _ Hok Hk).
  split_and!; [done | done | lia | lia].
Qed.

(** ** Rounds *)

Lemma step_others s i s' j : build_system_step garbage s i = Some s' -> j <> i -> snd s' !! j = snd s !! j.
Proof.
  intros E Hne. unfold build_system_step in E. destruct (snd s !! i) as [th |]; [| by injection E as <-].
  destruct (build_thread_step garbage (fst s) th) as [[m' th'] |]; [| done]. cbn [mbind option_bind] in E.
  injection E as <-. cbn [snd]. by rewrite list_lookup_insert_ne.
Qed.

(** The first step of [schedule], and the rest of it. *)
Lemma steps_cons s j schedule s' :
  build_ok s -> ofold (build_system_step garbage) s (j :: schedule) = Some s' ->
  exists s1, build_system_step garbage s j = Some s1 /\ build_ok s1 /\ step_kind s j s1 /\ work s1 <= work s /\
    ofold (build_system_step garbage) s1 schedule = Some s' /\ work s' <= work s1.
Proof.
  intros Hok E. destruct (build_step_ok s j Hok) as (s1 & E1 & Hok1 & Hk & _). exists s1.
  rewrite ofold_cons, E1 in E. cbn [mbind option_bind] in E.
  destruct (build_steps_ok s1 schedule Hok1) as (s2 & E2 & _ & Hw & _). rewrite E in E2. injection E2 as <-.
  split_and!; try done. by eapply step_work.
Qed.

(** A thread with a run makes progress. *)
Lemma pending_works s j th schedule s' :
  build_ok s -> snd s !! j = Some th -> pending th <> None -> j ∈ schedule ->
  ofold (build_system_step garbage) s schedule = Some s' -> work s' < work s.
Proof.
  revert s. induction schedule as [| i schedule IH]; intros s Hok Hj Hp Hin E; [by apply not_elem_of_nil in Hin |].
  destruct (steps_cons s i schedule s' Hok E) as (s1 & E1 & Hok1 & Hk & Hw1 & E2 & Hw2).
  destruct (decide (j = i)) as [-> | Hne].
  - destruct Hk as [Hw | _ Hi _ | _ Hi _ _ | _ _ _ [[Hi _] | [Hi _]] | [Hi | Hi] _]; [lia | rewrite Hj in Hi; injection Hi as ->; done..|].
    by rewrite Hj in Hi.
  - apply elem_of_cons in Hin as [? | Hin]; [done |]. rewrite <- (step_others s i s1 j E1 Hne) in Hj.
    specialize (IH s1 Hok1 Hj Hp Hin E2). lia.
Qed.

(** While no thread has a run, a thread at the lock makes progress, and every thread gets there. *)
Lemma waiting_works s j schedule s' :
  build_ok s -> (build_level (fst s) <= top)%nat -> zsum busy (snd s) = 0 -> (j < length (snd s))%nat ->
  (j ∈ schedule \/ snd s !! j = Some AtTryNextRun) ->
  ofold (build_system_step garbage) s schedule = Some s' ->
  work s' < work s \/
  ((build_level (fst s') <= top)%nat /\ zsum busy (snd s') = 0 /\ snd s' !! j = Some AtTryNextRun /\
    ~ (j ∈ schedule /\ snd s !! j = Some AtTryNextRun)).
Proof.
  revert s. induction schedule as [| i schedule IH]; intros s Hok Hl Hb Hjl Hj E.
  { injection E as <-. right. destruct Hj as [Hj | Hj]; [by apply not_elem_of_nil in Hj |].
    split_and!; [done.. |]. intros [Hj' _]. by apply not_elem_of_nil in Hj'. }
  destruct (steps_cons s i schedule s' Hok E) as (s1 & E1 & Hok1 & Hk & Hw1 & E2 & Hw2).
  destruct Hk as [Hw | _ Hi Es | _ _ Hpos _ | Hgt _ _ _ | Hi ->]; [lia | | lia | lia |].
  - subst s1. assert (zsum busy (<[i := AtTryNextRun]> (snd s)) = 0) as Hb1 by (rewrite (zsum_insert _ _ _ _ _ Hi); cbn; lia).
    destruct (IH (fst s, <[i := AtTryNextRun]> (snd s)) Hok1 Hl Hb1) as [Hw | (H1 & H2 & H3 & H4)]; cbn [snd].
    + by rewrite length_insert.
    + destruct (decide (j = i)) as [-> | Hne]; [right; rewrite list_lookup_insert_eq; [done | by eapply lookup_lt_Some] |].
      rewrite list_lookup_insert_ne by done. destruct Hj as [Hj | Hj]; [| by right].
      apply elem_of_cons in Hj as [? | Hj]; [done | by left].
    + done.
    + left. lia.
    + right. split_and!; [done.. |]. intros [Hin Hs].
      assert (j <> i) as Hne by (intros ->; rewrite Hs in Hi; discriminate).
      apply elem_of_cons in Hin as [? | Hin]; [done |]. apply H4. split; [done |]. cbn [snd].
      by rewrite list_lookup_insert_ne.
  - assert (j <> i) as Hne.
    { intros ->. destruct Hi as [Hi | Hi].
      - pose proof (bo_threads _ Hok _ _ Hi) as Ht. cbn in Ht. lia.
      - apply lookup_ge_None_1 in Hi. lia. }
    destruct (IH s Hok Hl Hb Hjl) as [Hw | (H1 & H2 & H3 & H4)].
    + destruct Hj as [Hj | Hj]; [| by right]. apply elem_of_cons in Hj as [? | Hj]; [done | by left].
    + done.
    + by left.
    + right. split_and!; [done.. |]. intros [Hin Hs]. apply elem_of_cons in Hin as [? | Hin]; [done |]. by apply H4.
Qed.

(** The steps that a thread is away from its end after the last level. *)
Definition distance th : nat := match th with AtLoop => 1 | BuildDone => 0 | _ => 2 end.

Lemma leaving s schedule s' :
  build_ok s -> (top < build_level (fst s))%nat -> ofold (build_system_step garbage) s schedule = Some s' ->
  (top < build_level (fst s'))%nat /\
  forall j th, snd s !! j = Some th -> exists th', snd s' !! j = Some th' /\ (distance th' <= distance th)%nat /\
    (j ∈ schedule -> (distance th' <= distance th - 1)%nat).
Proof.
  revert s. induction schedule as [| i schedule IH]; intros s Hok Hl E.
  { injection E as <-. split; [done |]. intros j th Hj. exists th. split_and!; [done | lia |]. by intros ?%not_elem_of_nil. }
  destruct (steps_cons s i schedule s' Hok E) as (s1 & E1 & Hok1 & Hk & Hw1 & E2 & Hw2).
  assert (work s = 0) as Hw0.
  { unfold work, to_give. rewrite (proj2 (Nat.leb_gt _ top)) by lia.
    assert (zsum thread_work (snd s) = 0) as ->; [| lia]. transitivity (zsum (fun _ : TreeBuilder => 0) (snd s)); [| apply zsum_zero].
    apply zsum_ext. intros th [j Hj]%list_elem_of_lookup_1. pose proof (bo_threads _ Hok _ _ Hj) as Ht.
    destruct th; cbn in *; try done; lia. }
  pose proof (work_nonneg s1 Hok1) as Hnn.
  assert ((top < build_level (fst s1))%nat /\ forall j th, snd s !! j = Some th -> exists th', snd s1 !! j = Some th' /\
    (distance th' <= distance th)%nat /\ (j = i -> (distance th' <= distance th - 1)%nat)) as [Hl1 H1].
  { assert (forall j th, snd s !! j = Some th -> j <> i -> exists th', snd s1 !! j = Some th' /\
      (distance th' <= distance th)%nat /\ (j = i -> (distance th' <= distance th - 1)%nat)) as Ho.
    { intros j th Hj Hne. exists th. rewrite (step_others s i s1 j E1 Hne). split_and!; [done | lia |]. intros. done. }
    destruct Hk as [Hw | ? _ _ | ? _ _ _ | _ Hl1 _ Hi | Hi ->]; [lia | lia | lia | |].
    - split; [done |]. intros j th Hj. destruct (decide (j = i)) as [-> | Hne]; [| by apply Ho].
      destruct Hi as [[Hi Es] | [Hi Es]]; rewrite Hi in Hj; injection Hj as <-; rewrite Es;
        (eexists; split; [by rewrite list_lookup_insert_eq by (by eapply lookup_lt_Some) | cbn; split; [lia | intros _; lia]]).
    - split; [done |]. intros j th Hj. destruct (decide (j = i)) as [-> | Hne]; [| by apply Ho].
      destruct Hi as [Hi | Hi]; [| by rewrite Hi in Hj]. rewrite Hi in Hj. injection Hj as <-.
      exists BuildDone. split_and!; [done | lia | cbn; lia]. }
  destruct (IH s1 Hok1 Hl1 E2) as [Hl2 H2]. split; [done |]. intros j th Hj.
  destruct (H1 j th Hj) as (th1 & Hj1 & Hd1 & Hd1'). destruct (H2 j th1 Hj1) as (th2 & Hj2 & Hd2 & Hd2').
  exists th2. split_and!; [done | lia |]. intros [-> | Hin]%elem_of_cons; [specialize (Hd1' eq_refl) | specialize (Hd2' Hin)]; lia.
Qed.

(** Every thread makes a step in a round. *)
Definition round_ok (threads : nat) (round : list nat) : Prop := forall j, (j < threads)%nat -> j ∈ round.

Lemma build_two_rounds s round1 round2 s' :
  build_ok s -> (build_level (fst s) <= top)%nat -> (0 < length (snd s))%nat ->
  round_ok (length (snd s)) round1 -> round_ok (length (snd s)) round2 ->
  ofold (build_system_step garbage) s (round1 ++ round2) = Some s' -> work s' < work s.
Proof.
  intros Hok Hl Hne Hr1 Hr2 E. rewrite ofold_app in E.
  destruct (build_steps_ok s round1 Hok) as (s1 & E1 & Hok1 & Hw1 & Hl1). rewrite E1 in E. cbn [mbind option_bind] in E.
  destruct (build_steps_ok s1 round2 Hok1) as (s2 & E2 & Hok2 & Hw2 & Hl2). rewrite E in E2. injection E2 as <-.
  destruct (decide (zsum busy (snd s) = 0)) as [Hb | Hb].
  - destruct (waiting_works s 0 round1 s1 Hok Hl Hb Hne) as [Hw | (Hl' & Hb' & Hj & _)]; [left; by apply Hr1 | done | lia |].
    assert (0 < length (snd s1))%nat as Hne1 by lia.
    destruct (waiting_works s1 0 round2 s' Hok1 Hl' Hb' Hne1) as [Hw | (_ & _ & _ & H)]; [by right | done | lia |].
    exfalso. apply H. split; [by apply Hr2 | done].
  - assert (exists j th, snd s !! j = Some th /\ pending th <> None) as (j & th & Hj & Hp).
    { destruct (decide (Forall (fun th => pending th = None) (snd s))) as [Hf | Hf].
      - exfalso. apply Hb. transitivity (zsum (fun _ : TreeBuilder => 0) (snd s)); [| apply zsum_zero].
        apply zsum_ext. intros th Hth. rewrite Forall_forall in Hf. unfold busy. by rewrite Hf.
      - apply not_Forall_Exists in Hf; [| intros th; apply _]. apply Exists_exists in Hf as (th & Hth & Hp).
        apply list_elem_of_lookup_1 in Hth as [j Hj]. by exists j, th. }
    assert (work s1 < work s); [| lia]. apply (pending_works s j th round1 s1); try done. apply Hr1. by eapply lookup_lt_Some.
Qed.

Lemma leave_rounds s round1 round2 rest s1 :
  build_ok s -> (top < build_level (fst s))%nat ->
  round_ok (length (snd s)) round1 -> round_ok (length (snd s)) round2 ->
  ofold (build_system_step garbage) s (round1 ++ round2) = Some s1 ->
  exists s', ofold (build_system_step garbage) s1 rest = Some s' /\ build_ok s' /\ length (snd s') = length (snd s) /\
    Forall (fun th => th = BuildDone) (snd s').
Proof.
  intros Hok Hl Hr1 Hr2 E1. destruct (build_steps_ok s round1 Hok) as (s0 & E0 & Hok0 & _ & Hl0).
  rewrite ofold_app, E0 in E1. cbn [mbind option_bind] in E1.
  destruct (build_steps_ok s0 round2 Hok0) as (s1' & E1' & Hok1 & _ & Hl1). rewrite E1 in E1'. injection E1' as <-.
  destruct (build_steps_ok s1 rest Hok1) as (s' & E' & Hok' & _ & Hl').
  destruct (leaving s round1 s0 Hok Hl E0) as [Hg0 H0]. destruct (leaving s0 round2 s1 Hok0 Hg0 E1) as [Hg1 H1].
  destruct (leaving s1 rest s' Hok1 Hg1 E') as [_ H2].
  exists s'. split_and!; [done | done | lia |]. apply Forall_lookup. intros j th' Hj'.
  pose proof (lookup_lt_Some _ _ _ Hj') as Hjl. destruct (lookup_lt_is_Some_2 (snd s) j ltac:(lia)) as [th Hj].
  destruct (H0 j th Hj) as (th0 & Hj0 & _ & Hd0). specialize (Hd0 (Hr1 j ltac:(lia))).
  destruct (H1 j th0 Hj0) as (th1 & Hj1 & _ & Hd1). specialize (Hd1 (Hr2 j ltac:(lia))).
  destruct (H2 j th1 Hj1) as (th2 & Hj2 & Hd2 & _). rewrite Hj' in Hj2. injection Hj2 as <-.
  destruct th, th'; cbn in *; try done; lia.
Qed.

Lemma rounds_finish (w : nat) s rounds :
  build_ok s -> work s <= Z.of_nat w -> (2 * w + 2 <= length rounds)%nat -> Forall (round_ok (length (snd s))) rounds ->
  exists s', ofold (build_system_step garbage) s (mjoin rounds) = Some s' /\ build_ok s' /\ length (snd s') = length (snd s) /\
    Forall (fun th => th = BuildDone) (snd s').
Proof.
  revert s rounds. induction w as [| w IH]; intros s rounds Hok Hw Hlen Hr;
    destruct rounds as [| round1 [| round2 rounds]]; cbn [length] in Hlen; try lia;
    apply Forall_cons in Hr as [Hr1 Hr]; apply Forall_cons in Hr as [Hr2 Hr];
    change (mjoin (round1 :: round2 :: rounds)) with (round1 ++ round2 ++ mjoin rounds); rewrite app_assoc, ofold_app;
    destruct (build_steps_ok s (round1 ++ round2) Hok) as (s1 & E1 & Hok1 & Hw1 & Hl1); rewrite E1; cbn [mbind option_bind];
    destruct (decide (length (snd s) = 0)%nat) as [H0 | H0].
  1, 3: destruct (build_steps_ok s1 (mjoin rounds) Hok1) as (s2 & E2 & Hok2 & _ & Hl2); exists s2; split_and!; [done | done | lia |];
    rewrite (nil_length_inv (snd s2)) by lia; done.
  all: destruct (Nat.le_gt_cases (build_level (fst s)) top) as [Hl | Hl].
  2, 4: destruct (leave_rounds s round1 round2 (mjoin rounds) s1 Hok Hl Hr1 Hr2 E1) as (s2 & ? & ? & ? & ?);
    exists s2; split_and!; [done | done | lia | done].
  all: pose proof (build_two_rounds s round1 round2 s1 Hok Hl ltac:(lia) Hr1 Hr2 E1).
  - pose proof (work_nonneg s1 Hok1). lia.
  - rewrite <- Hl1 in Hr. destruct (IH s1 rounds Hok1 ltac:(lia) ltac:(lia) Hr) as (s2 & E2 & Hok2 & Hl2 & Hd).
    exists s2. split_and!; [done | done | lia | done].
Qed.
End threads.

(** ** The tree that is built *)

Section allocate.
Context {traits : MergeSortTraits} {k c : nat} `{!MergeSortTraitsOk k c} (leaves : list Z).
Abbreviation n := (Z.of_nat (length leaves)).
Abbreviation num_runs := (num_runs leaves).
Implicit Types l : nat.

Definition new_level l : Level := (replicate (length leaves) 0, allocate_cascades (num_runs l) (width l)).

Lemma allocate_levels_ok fuel top l :
  is_top leaves top -> (l <= top)%nat -> (top - l <= fuel)%nat ->
  allocate_levels fuel n (width l) = Some (new_level <$> seq (S l) (top - l)).
Proof.
  intros [Htop Hlow]. revert l. induction fuel as [| fuel IH]; intros l Hl Hf; cbn [allocate_levels].
  - replace l with top by lia. rewrite (proj2 (Z.leb_le _ _) Htop), Nat.sub_diag. done.
  - destruct (decide (l = top)) as [-> | Hne].
    { rewrite (proj2 (Z.leb_le _ _) Htop), Nat.sub_diag. done. }
    rewrite (proj2 (Z.leb_gt _ _) (Hlow l ltac:(lia))), <- width_S. rewrite IH by lia. cbn [mbind option_bind].
    rewrite Nat2Z.id. replace (top - l)%nat with (S (top - S l)) by lia. done.
Qed.

Lemma Allocate_ok top :
  is_top leaves top -> (top <= length leaves)%nat ->
  exists m, Allocate n = Some m /\ length (tree m) = S top /\ shape leaves top (tree (with_leaves leaves m)) /\
    build_level m = 1%nat /\ build_complete m = 0 /\ build_run m = 0 /\ build_run_length m = width 1 /\
    build_num_runs m = num_runs 1.
Proof.
  intros Htop Hle. unfold Allocate. rewrite Nat2Z.id.
  pose proof (allocate_levels_ok (length leaves) top 0 Htop ltac:(lia) ltac:(lia)) as E.
  change (width 0) with 1 in E. rewrite E. cbn [mbind option_bind]. rewrite Nat.sub_0_r.
  assert (FANOUT = width 1) as Ew by (unfold width; by rewrite Z.pow_1_r).
  set (m := mkMergeSortTree _ _ _ _ _ _). exists m. split; [done |].
  split; [| split]; [| change (tree (with_leaves leaves m)) with ((leaves, []) :: (new_level <$> seq 1 top)) | split_and!; try done].
  - cbn [tree m length]. by rewrite length_fmap, length_seq.
  - split_and!; [cbn [length]; by rewrite length_fmap, length_seq | done |].
    intros [| l] Hl; [done |].
    unfold level_elements, level_cascades. change ((_ :: ?L) !! S l) with (L !! l).
    rewrite list_lookup_fmap, lookup_seq_lt by lia. cbn [fmap option_fmap option_map default fst snd new_level Nat.add].
    unfold id. rewrite length_replicate. split; [done |]. unfold allocate_cascades. rewrite (proj2 (Z.ltb_lt 0 CASCADING)) by (pose proof CASCADING_pos; lia).
    cbn [andb Nat.ltb Nat.leb]. case_match; [| done]. rewrite length_replicate, Z2Nat.id; [done |].
    pose proof FANOUT_ge. pose proof CASCADING_pos. pose proof (run_width_pos (S l)). pose proof (num_runs_nonneg leaves (S l)).
    assert (0 <= width (S l) / CASCADING) by (apply Z.div_pos; lia).
    apply Z.mul_nonneg_nonneg; [apply Z.mul_nonneg_nonneg |]; lia.
  - unfold MergeSortBuild.num_runs. cbn [build_num_runs m]. by rewrite Ew.
Qed.

Lemma num_runs_le l : num_runs l <= n.
Proof.
  unfold MergeSortBuild.num_runs. pose proof (run_width_pos l). assert ((n + width l - 1) / width l < n + 1); [| lia].
  apply Z.div_lt_upper_bound; nia.
Qed.
End allocate.

Section build.
Context {traits : MergeSortTraits} {k c : nat} `{!MergeSortTraitsOk k c} (leaves : list Z).
Context (Hn : Z.of_nat (length leaves) < 2 ^ offset_bits).
Context (Hleaves : Forall (fun v => v < 2 ^ element_bits) leaves).
Abbreviation n := (Z.of_nat (length leaves)).

Lemma new_build_ok top m threads :
  shape leaves top (tree (with_leaves leaves m)) -> build_level m = 1%nat -> build_complete m = 0 -> build_run m = 0 ->
  build_run_length m = width 1 -> build_num_runs m = num_runs leaves 1 ->
  build_ok leaves top (with_leaves leaves m, replicate threads AtLoop).
Proof.
  intros Hs E1 E2 E3 E4 E5. pose proof (num_runs_nonneg leaves 1) as Hnn.
  assert (forall j th, replicate threads AtLoop !! j = Some th -> th = AtLoop) as Hj.
  { intros j th Hj. by apply lookup_replicate in Hj as [-> _]. }
  split; cbn [fst snd]; [done | cbn; lia | | | |].
  - intros l Hl _. cbn [with_leaves build_level] in Hl. replace l with 0%nat by lia. by eapply level_0_done.
  - intros Hl. split; cbn [with_leaves build_level build_complete build_run build_run_length build_num_runs]; rewrite ?E1, ?E2, ?E3; [done | done | lia | |].
    + replace (zsum busy (replicate threads AtLoop)) with 0; [done |]. clear Hj. by induction threads.
    + intros r Hr. lia.
  - intros j th ->%Hj. done.
  - intros i j th th' r ->%Hj. done.
Qed.

(** C25. However the threads that build a merge sort tree over the written leaves
    interleave, no step fails - no access is out of bounds and no loop goes on - and when
    one of them is done every level is complete: its runs are sorted, have the leaves of
    their part, and their cascading pointers divide their child runs. *)
Theorem Build_correct garbage threads schedule :
  exists m s, Allocate n = Some m /\ Build garbage (with_leaves leaves m) threads schedule = Some s /\
    (BuildDone ∈ snd s -> tree_complete leaves (length (tree m) - 1) (tree (fst s))).
Proof.
  destruct (top_exists leaves) as (top & Htop & Hle).
  destruct (Allocate_ok leaves top Htop Hle) as (m & E & Hl & Hs & E1 & E2 & E3 & E4 & E5).
  destruct (build_steps_ok leaves Hn Hleaves garbage top _ schedule (new_build_ok top m threads Hs E1 E2 E3 E4 E5))
    as (s & Eb & Hok & _). exists m, s. split_and!; [done | done |].
  intros [j Hj]%list_elem_of_lookup_1. rewrite Hl. pose proof (bo_threads _ _ _ Hok _ _ Hj) as Hd. cbn in Hd.
  replace (S top - 1)%nat with top by lia. split; [apply Hok |]. intros l Hlt. apply (bo_below _ _ _ Hok); lia.
Qed.

(** C26. The threads finish: when every thread takes a step in each of as many rounds as 6
    times the leaves and 2 more for each level above the leaves, and 2 more, they are all
    done, so no thread waits forever for the runs of another. *)
Theorem Build_terminates garbage threads rounds :
  Forall (fun round => forall j, (j < threads)%nat -> j ∈ round) rounds ->
  exists m, Allocate n = Some m /\
    ((6 * n + 2) * (Z.of_nat (length (tree m)) - 1) + 2 <= Z.of_nat (length rounds) ->
     exists s, Build garbage (with_leaves leaves m) threads (mjoin rounds) = Some s /\
       length (snd s) = threads /\ Forall (fun th => th = BuildDone) (snd s)).
Proof.
  intros Hr. destruct (top_exists leaves) as (top & Htop & Hle).
  destruct (Allocate_ok leaves top Htop Hle) as (m & E & Hl & Hs & E1 & E2 & E3 & E4 & E5). exists m. split; [done |].
  rewrite Hl. intros Hlen. pose proof (new_build_ok top m threads Hs E1 E2 E3 E4 E5) as Hok.
  assert (work leaves top (with_leaves leaves m, replicate threads AtLoop) <= (3 * n + 1) * Z.of_nat top) as Hw.
  { unfold work, to_give. cbn [fst snd with_leaves build_level build_num_runs build_run]. rewrite E1, E3, E5.
    replace (zsum thread_work (replicate threads AtLoop)) with 0 by (clear; by induction threads).
    assert (forall a len, zsum (num_runs leaves) (seq a len) <= n * Z.of_nat len) as Hz.
    { intros a len. revert a. induction len as [| len IH]; intros a; cbn [seq]; [cbn; lia |]. rewrite zsum_cons.
      pose proof (num_runs_le leaves a). specialize (IH (S a)). lia. }
    destruct (Nat.leb_spec 1 top); [| lia]. specialize (Hz 1%nat top).
    replace (num_runs leaves 1 - 0 + later leaves top 1) with (later leaves top 0) by (rewrite (later_S leaves top 0) by lia; lia).
    unfold later. rewrite Nat.sub_0_r. lia. }
  destruct (rounds_finish leaves Hn Hleaves garbage top (Z.to_nat ((3 * n + 1) * Z.of_nat top))
    (with_leaves leaves m, replicate threads AtLoop) rounds Hok) as (s & Es & _ & Hls & Hd).
  - lia.
  - lia.
  - cbn [snd]. rewrite length_replicate. done.
  - exists s. split_and!; [done | rewrite Hls; cbn [snd]; apply length_replicate | done].
Qed.
End build.

(** ** An example: runs of two, with pointers for every element *)

Definition example_traits : MergeSortTraits := {| FANOUT := 2; CASCADING := 1; element_bits := 32; offset_bits := 32 |}.

#[export] Instance example_traits_ok : @MergeSortTraitsOk example_traits 0 0.
Proof. by split. Qed.

Definition example_leaves : list Z := [3; 1; 4; 1; 5].

Definition example_build_rounds (rounds : nat) : list (list nat) := replicate rounds [1; 0]%nat.

Example example_built :
  (m ← Allocate (traits := example_traits) 5;
   s ← Build (traits := example_traits) (0, 0) (with_leaves example_leaves m) 2 (mjoin (example_build_rounds 20));
   Some (snd s, tree (fst s) !! 3%nat)) =
  Some ([BuildDone; BuildDone],
    Some ([1; 1; 3; 4; 5], [0; 4; 1; 4; 2; 4; 3; 4; 4; 4; 4; 5; 4; 5; 0; 0; 0; 0; 0; 0])).
Proof. vm_compute. reflexivity. Qed.

Lemma Build_correct_witness :
  exists m s, Allocate (traits := example_traits) 5 = Some m /\
    Build (traits := example_traits) (0, 0) (with_leaves example_leaves m) 2 (mjoin (example_build_rounds 20)) = Some s /\
    (BuildDone ∈ snd s -> tree_complete (traits := example_traits) example_leaves (length (tree m) - 1) (tree (fst s))).
Proof.
  apply (Build_correct (traits := example_traits) example_leaves).
  - reflexivity.
  - apply (bool_decide_unpack _). vm_compute. exact I.
Defined.

Lemma Build_terminates_witness :
  exists m, Allocate (traits := example_traits) 5 = Some m /\
    exists s, Build (traits := example_traits) (0, 0) (with_leaves example_leaves m) 2 (mjoin (example_build_rounds 98)) = Some s /\
      length (snd s) = 2%nat /\ Forall (fun th => th = BuildDone) (snd s).
Proof.
  destruct (Build_terminates (traits := example_traits) (k := 0) (c := 0) example_leaves) with
    (garbage := (0, 0) : RunElement) (threads := 2%nat) (rounds := example_build_rounds 98) as (m & E & H).
  - reflexivity.
  - apply (bool_decide_unpack _). vm_compute. exact I.
  - apply Forall_replicate. intros [| [| j]] Hj; [set_solver | set_solver | lia].
  - exists m. split; [exact E |]. apply H. vm_compute in E. injection E as <-. vm_compute. discriminate.
Defined.
