(* ===== verification/MergeSortSearch.v ===== *)
(** * Searching in a merge sort tree

    On a complete tree the search of a value in a run - in the whole run, or in the part
    that the cascading pointers leave - gives the number of leaves of the run below it.
    With that, SelectNth finds the n-th leaf whose value is in the frames, and the runs
    that AggregateLowerBound aggregates cover exactly the leaves of its range. *)

From S2P Require Import Prelude Validity MaskSearch Boundaries RangeSearch Aggregates WindowValue MergeSortTree MergeSortGames MergeSortRuns MergeSortBuild MergeSortThreads.

(** ** Searching a run *)

Section runs.
Context {traits : MergeSortTraits} {k c : nat} `{!MergeSortTraitsOk k c} (leaves : list Z).
Context (top : nat) (t : Tree) (Ht : tree_complete leaves top t).
Abbreviation n := (Z.of_nat (length leaves)).
Abbreviation run_begin := (run_begin (length leaves)).
Abbreviation run_size := (run_size (length leaves)).
Abbreviation els := (level_elements t).
Abbreviation cas := (level_cascades t).
Implicit Types (l : nat) (r i j p x : Z).

(** The lower bound of [x] in run [r] of level [l]. *)
Definition bound l r x : Z := run_begin l r + count_lt leaves x (run_begin l r) (run_begin l (r + 1)).

Lemma bound_range l r x : 0 <= r -> run_begin l r <= bound l r x <= run_begin l (r + 1).
Proof.
  intros Hr. unfold bound. pose proof (count_lt_le leaves x (run_begin l r) (run_begin l (r + 1))).
  pose proof (run_begin_mono (length leaves) l r (r + 1)). lia.
Qed.

Lemma complete_run l r : (l <= top)%nat -> 0 <= r -> run_ok leaves l (els l) r.
Proof. intros Hl Hr. apply level_done_runs; [| done]. by apply Ht. Qed.

Lemma complete_length l : (l <= top)%nat -> length (els l) = length leaves.
Proof. intros Hl. by apply (proj1 Ht). Qed.

(** The elements of a run before its bound are the ones below [x]. *)
Lemma run_below l r x p :
  (l <= top)%nat -> 0 <= r -> run_begin l r <= p < run_begin l (r + 1) -> (znth 0 (els l) p <? x) = (p <? bound l r x).
Proof.
  intros Hl Hr Hp. destruct (complete_run l r Hl Hr) as [Hs Hc]. unfold bound. rewrite <- Hc. unfold count_lt.
  pose proof (lower_monotone Z.ltb (znth 0 (els l)) _ _ x Hs) as Hm.
  rewrite (zcount_split _ _ p) by lia. rewrite (zcount_cons _ p) by lia.
  destruct (znth 0 (els l) p <? x) eqn:E; symmetry.
  - pose proof (zcount_prefix _ _ p _ Hm Hp E) as Hcp. rewrite zcount_snoc, E in Hcp by lia.
    pose proof (zcount_nonneg (fun i => znth 0 (els l) i <? x) (p + 1) (run_begin l (r + 1))).
    apply Z.ltb_lt. cbn [Z.b2z] in *. lia.
  - pose proof (zcount_suffix _ _ p _ Hm Hp E) as Hcp. rewrite zcount_cons, E in Hcp by lia.
    pose proof (zcount_le (fun i => znth 0 (els l) i <? x) (run_begin l r) p).
    apply Z.ltb_ge. cbn [Z.b2z] in *. lia.
Qed.

(** How many elements of a part of a run are below [x]. *)
Lemma count_part l r x a b :
  (l <= top)%nat -> 0 <= r -> run_begin l r <= a <= b -> b <= run_begin l (r + 1) ->
  count_lt (els l) x a b = Z.max a (Z.min b (bound l r x)) - a.
Proof.
  intros Hl Hr Ha Hb. set (m := Z.max a (Z.min b (bound l r x))). unfold count_lt.
  rewrite (zcount_split _ a m b) by lia. rewrite zcount_all, zcount_none; [lia | | lia |].
  - intros i Hi. rewrite (run_below l r) by (done || lia). lia.
  - intros i Hi. rewrite (run_below l r) by (done || lia). lia.
Qed.

Lemma level_lower_bound_part l r x a b :
  (l <= top)%nat -> 0 <= r -> run_begin l r <= a <= bound l r x -> bound l r x <= b <= run_begin l (r + 1) ->
  level_lower_bound (els l) a b x = Some (bound l r x).
Proof.
  intros Hl Hr Ha Hb. unfold level_lower_bound. pose proof (run_begin_range (length leaves) l r Hr).
  pose proof (run_begin_range (length leaves) l (r + 1) ltac:(lia)). rewrite bool_decide_true by (rewrite complete_length by done; lia).
  destruct (complete_run l r Hl Hr) as [Hs _]. rewrite (lower_bound_of Z.ltb); [| | lia].
  - unfold bound_of. f_equal. change (zcount (fun i => znth 0 (els l) i <? x) a b) with (count_lt (els l) x a b).
    rewrite (count_part l r) by (done || lia). lia.
  - eapply sorted_sub; [done | lia..].
Qed.

Lemma level_lower_bound_run l r x :
  (l <= top)%nat -> 0 <= r -> level_lower_bound (els l) (run_begin l r) (run_begin l (r + 1)) x = Some (bound l r x).
Proof. intros Hl Hr. pose proof (bound_range l r x Hr). apply level_lower_bound_part; done || lia. Qed.

(** ** Searching with cascading pointers *)

(** What is counted in a run is counted in its child runs. *)
Lemma child_sum (f : Z -> bool) l r :
  0 <= r ->
  zsum (fun i => zcount f (run_begin l (r * FANOUT + i)) (run_begin l (r * FANOUT + i + 1))) (zrange 0 FANOUT) =
    zcount f (run_begin (S l) r) (run_begin (S l) (r + 1)).
Proof.
  intros Hr. pose proof FANOUT_ge as Hf.
  rewrite (zsum_ext _ (fun i => zcount f 0 (run_begin l (r * FANOUT + (i + 1))) - zcount f 0 (run_begin l (r * FANOUT + i)))).
  - rewrite (zsum_telescope (fun i => zcount f 0 (run_begin l (r * FANOUT + i)))) by lia. rewrite !run_begin_child.
    replace ((r + 1) * FANOUT) with (r * FANOUT + FANOUT) by ring. rewrite Z.add_0_r.
    assert (0 <= r * FANOUT) as H0 by (apply Z.mul_nonneg_nonneg; lia).
    pose proof (run_begin_range (length leaves) l (r * FANOUT) H0).
    pose proof (run_begin_mono (length leaves) l (r * FANOUT) (r * FANOUT + FANOUT)) as Hm.
    rewrite (zcount_split f 0 (run_begin l (r * FANOUT))) by lia. lia.
  - intros i Hi%elem_of_zrange. rewrite Z.add_assoc.
    assert (0 <= r * FANOUT + i) as H0 by (pose proof (Z.mul_nonneg_nonneg r FANOUT); lia).
    pose proof (run_begin_range (length leaves) l (r * FANOUT + i) H0).
    pose proof (run_begin_mono (length leaves) l (r * FANOUT + i) (r * FANOUT + i + 1)) as Hm.
    rewrite (zcount_split f 0 (run_begin l (r * FANOUT + i)) (run_begin l (r * FANOUT + i + 1))) by lia. lia.
Qed.

Lemma level_cascades_length l :
  (0 < l <= top)%nat -> CASCADING < width l ->
  Z.of_nat (length (cas l)) = FANOUT * num_runs leaves l * (width l / CASCADING + 2).
Proof.
  intros Hl Hw. destruct (proj2 (proj2 (proj1 Ht)) l ltac:(lia)) as [_ ->].
  rewrite (proj2 (Nat.ltb_lt 0 l)), (proj2 (Z.ltb_lt _ _) Hw) by lia. done.
Qed.

(** The pointers before and after the bound of a run enclose the bounds of its child runs. *)
Lemma cascade_enclose l r i x :
  (S l <= top)%nat -> 0 <= r -> r * width (S l) < n -> CASCADING < width (S l) -> 0 <= i < FANOUT ->
  let j := (bound (S l) r x - run_begin (S l) r) / CASCADING in
  run_begin l (r * FANOUT + i) <= znth 0 (cas (S l)) (cascade_row (S l) r j + i) <= bound l (r * FANOUT + i) x /\
  bound l (r * FANOUT + i) x <= znth 0 (cas (S l)) (cascade_row (S l) r (j + 1) + i) <= run_begin l (r * FANOUT + i + 1) /\
  0 <= cascade_row (S l) r j + i /\ cascade_row (S l) r (j + 1) + i < Z.of_nat (length (cas (S l))).
Proof.
  intros Hl Hr Hlt Hw Hi. pose proof (bound_range (S l) r x Hr) as Hb. pose proof CASCADING_pos as Hcp. pose proof FANOUT_ge as Hf.
  set (L := bound (S l) r x - run_begin (S l) r) in *. set (j := L / CASCADING). cbn zeta.
  assert (0 <= L <= run_size (S l) r) as HL by (unfold L, MergeSortRuns.run_size; lia).
  pose proof (Z_div_mod_eq_full L CASCADING) as Ej. fold j in Ej.
  assert (0 < CASCADING) as Hcp' by lia. pose proof (Z.mod_pos_bound L CASCADING Hcp') as Hm.
  assert (0 <= j) as Hj0 by (apply Z.div_pos; lia).
  assert (j <= rows (run_size (S l) r)) as Hj.
  { unfold rows. apply Z.div_le_lower_bound; lia. }
  destruct (proj2 Ht (S l) Hl r Hr Hlt) as [_ Hcok]. pose proof (level_cascades_length (S l) ltac:(lia) Hw) as Hcl.
  destruct (cascade_rows_apart leaves (S l) r Hr Hlt Hw) as [Ha1 Ha2].
  pose proof (cascade_rows_fit leaves (S l) r Hr Hlt Hw) as Hfit.
  assert (cas (S l) <> []) as Hne.
  { intros E. rewrite E in Hcl. cbn [length] in Hcl. pose proof (cascade_row_mono (S l) r 0 (rows (run_size (S l) r) + 1)) as Hmn.
    specialize (Hmn ltac:(lia)). pose proof (cascade_row_index (S l) r (rows (run_size (S l) r) + 1)) as Hix.
    rewrite <- Z.add_assoc in Hix. change (1 + 1) with 2 in Hix. lia. }
  specialize (Hcok l eq_refl Hne).
  assert (forall i, 0 <= i < FANOUT -> 0 <= r * FANOUT + i) as Hri by (intros; pose proof (Z.mul_nonneg_nonneg r FANOUT); lia).
  assert (forall y a b i, 0 <= i < FANOUT -> run_begin l (r * FANOUT + i) <= a <= b -> b <= run_begin l (r * FANOUT + i + 1) ->
    count_lt (els l) y a b = Z.max a (Z.min b (bound l (r * FANOUT + i) y)) - a) as Hcount.
  { intros y a b i0 Hi0 ? ?. apply count_part; [lia | by apply Hri | done | done]. }
  assert (forall i, 0 <= i < FANOUT -> run_begin l (r * FANOUT + i) <= bound l (r * FANOUT + i) x <= run_begin l (r * FANOUT + i + 1)) as Hbi.
  { intros i0 Hi0. apply bound_range. by apply Hri. }
  split; [| split; [| split]].
  - destruct (Hcok j ltac:(lia)) as (Hv & Hs & Hx). rewrite Z.min_l in Hs, Hx by lia. specialize (Hx x).
    rewrite (count_part (S l) r) in Hx by (done || lia). rewrite Z.min_l, Z.max_r in Hx by lia.
    specialize (Hv i Hi) as Hvi. split; [lia |].
    assert (count_lt (els l) x (run_begin l (r * FANOUT + i)) (znth 0 (cas (S l)) (cascade_row (S l) r j + i)) =
      znth 0 (cas (S l)) (cascade_row (S l) r j + i) - run_begin l (r * FANOUT + i)) as E.
    { refine (zsum_le_eq (fun i => count_lt (els l) x (run_begin l (r * FANOUT + i)) (znth 0 (cas (S l)) (cascade_row (S l) r j + i)))
        (fun i => znth 0 (cas (S l)) (cascade_row (S l) r j + i) - run_begin l (r * FANOUT + i)) (zrange 0 FANOUT) _ _ i _).
      - intros i0 Hi0%elem_of_zrange. specialize (Hv i0 Hi0). rewrite (Hcount _ _ _ i0) by (done || lia). specialize (Hbi i0 Hi0). lia.
      - lia.
      - by apply elem_of_zrange. }
    rewrite (Hcount _ _ _ i) in E by (done || lia). specialize (Hbi i Hi). lia.
  - destruct (Hcok (j + 1) ltac:(lia)) as (Hv & Hs & Hx). specialize (Hx x).
    rewrite (count_part (S l) r) in Hx by (done || (unfold MergeSortRuns.run_size in *; lia)).
    specialize (Hv i Hi) as Hvi. split; [| lia].
    assert (zsum (fun i => bound l (r * FANOUT + i) x - run_begin l (r * FANOUT + i)) (zrange 0 FANOUT) = L) as HsL.
    { rewrite (zsum_ext _ (fun i => zcount (fun p => znth 0 leaves p <? x) (run_begin l (r * FANOUT + i)) (run_begin l (r * FANOUT + i + 1)))).
      - rewrite child_sum by done. unfold L, bound, count_lt. lia.
      - intros i0 _. unfold bound, count_lt. lia. }
    assert (count_lt (els l) x (run_begin l (r * FANOUT + i)) (znth 0 (cas (S l)) (cascade_row (S l) r (j + 1) + i)) =
      bound l (r * FANOUT + i) x - run_begin l (r * FANOUT + i)) as E.
    { refine (zsum_le_eq (fun i => count_lt (els l) x (run_begin l (r * FANOUT + i)) (znth 0 (cas (S l)) (cascade_row (S l) r (j + 1) + i)))
        (fun i => bound l (r * FANOUT + i) x - run_begin l (r * FANOUT + i)) (zrange 0 FANOUT) _ _ i _).
      - intros i0 Hi0%elem_of_zrange. specialize (Hv i0 Hi0). rewrite (Hcount _ _ _ i0) by (done || lia). specialize (Hbi i0 Hi0). lia.
      - rewrite HsL, <- Hx. unfold MergeSortRuns.run_size in *. lia.
      - by apply elem_of_zrange. }
    rewrite (Hcount _ _ _ i) in E by (done || lia). specialize (Hbi i Hi). lia.
  - pose proof (cascade_row_mono (S l) r 0 j ltac:(lia)). lia.
  - pose proof (cascade_row_mono (S l) r (j + 2) (rows (run_size (S l) r) + 2)) as Hmn. specialize (Hmn ltac:(lia)).
    pose proof (cascade_row_index (S l) r (j + 1)) as Hix. rewrite <- Z.add_assoc in Hix. change (1 + 1) with 2 in Hix. lia.
Qed.

(** A search with the pointers at the bound of the parent run gives the bound of the child run. *)
Lemma cascade_search_run l r i x :
  (S l <= top)%nat -> 0 <= r -> r * width (S l) < n -> CASCADING < width (S l) -> 0 <= i < FANOUT ->
  cascade_search (els l) (cas (S l)) (cascade_row (S l) r ((bound (S l) r x - run_begin (S l) r) / CASCADING) + i) x =
    Some (bound l (r * FANOUT + i) x).
Proof.
  intros Hl Hr Hlt Hw Hi. destruct (cascade_enclose l r i x Hl Hr Hlt Hw Hi) as (H1 & H2 & H3 & H4). cbn zeta in *.
  set (j := _ / CASCADING) in *. unfold cascade_search. pose proof FANOUT_ge.
  pose proof (cascade_row_index (S l) r j) as Hix. rewrite (zload_Some 0) by lia. cbn [mbind option_bind].
  replace (cascade_row (S l) r j + i + FANOUT) with (cascade_row (S l) r (j + 1) + i) by lia.
  rewrite (zload_Some 0) by lia. cbn [mbind option_bind].
  apply level_lower_bound_part; [lia | pose proof (Z.mul_nonneg_nonneg r FANOUT); lia | lia | lia].
Qed.

(** The index of the pointers for a bound: the code divides the position in the level. *)
Lemma cascade_index l r x :
  (l <= top)%nat -> 0 <= r -> r * width l <= n -> CASCADING < width l ->
  (bound l r x / CASCADING + 2 * r) * FANOUT = cascade_row l r ((bound l r x - run_begin l r) / CASCADING).
Proof.
  intros Hl Hr Hlt Hw. destruct (width_divide l Hw) as [d Hd]. pose proof CASCADING_pos. rewrite run_begin_small by done.
  unfold cascade_row. rewrite Hd, Z.div_mul by lia.
  replace (bound l r x) with (bound l r x - r * (d * CASCADING) + r * d * CASCADING) at 1 by ring.
  rewrite Z.div_add by lia. ring.
Qed.
End runs.

(** ** SelectNth *)

(** The parts of a frame are apart, so a value is in one of them at most. *)
Lemma frames_apart frames v :
  frames_ordered frames ->
  zsum (fun frame : FrameBounds => Z.b2z ((fst frame <=? v) && (v <? snd frame))) frames = Z.b2z (in_frames frames v).
Proof.
  intros [Hf Hs]. induction frames as [| frame frames IH]; [done |].
  apply Forall_cons in Hf as [H0 Hf]. inversion Hs as [| ? ? Hs' Hlt]; subst. rewrite zsum_cons, IH by done.
  change (in_frames (frame :: frames) v) with (((fst frame <=? v) && (v <? snd frame)) || in_frames frames v).
  destruct ((fst frame <=? v) && (v <? snd frame)) eqn:E; cbn [orb]; [| done].
  replace (in_frames frames v) with false; [done |]. symmetry. unfold in_frames. apply not_true_iff_false.
  intros (q & Hq & E')%existsb_exists. rewrite Forall_forall in Hlt. apply list_elem_of_In in Hq. specialize (Hlt q Hq).
  bool_to_prop. lia.
Qed.

Lemma zsum_zcount {A} (f : A -> Z -> bool) (g : Z -> bool) (l : list A) a b :
  (forall i, a <= i < b -> zsum (fun x => Z.b2z (f x i)) l = Z.b2z (g i)) ->
  zsum (fun x => zcount (f x) a b) l = zcount g a b.
Proof.
  intros H. destruct (Z.le_gt_cases b a) as [Hab | Hab].
  { rewrite zcount_nil by lia. rewrite (zsum_ext _ (fun _ => 0)) by (intros; by rewrite zcount_nil by lia). apply zsum_zero. }
  replace b with (a + Z.of_nat (Z.to_nat (b - a))) in * by lia. clear Hab.
  induction (Z.to_nat (b - a)) as [| m IH]; cbn [Z.of_nat].
  - rewrite zcount_nil by lia. rewrite (zsum_ext _ (fun _ => 0)) by (intros; by rewrite zcount_nil by lia). apply zsum_zero.
  - replace (a + Z.of_nat (S m)) with (a + Z.of_nat m + 1) in * by lia. rewrite zcount_snoc by lia.
    rewrite (zsum_ext _ (fun x => zcount (f x) a (a + Z.of_nat m) + Z.b2z (f x (a + Z.of_nat m)))) by (intros; by rewrite zcount_snoc by lia).
    rewrite zsum_plus, IH, H by (intros; try apply H; lia). done.
Qed.

Lemma foldl_u64 {A} (g : A -> Z) (l : list A) m :
  (forall x, x ∈ l -> 0 <= g x) -> 0 <= m -> m + zsum g l < 2 ^ 64 ->
  foldl (fun m x => u64 (m + u64 (g x))) m l = m + zsum g l.
Proof.
  revert m. induction l as [| x l IH]; intros m Hg Hm Hs; cbn [foldl]; [cbn; lia |]. rewrite zsum_cons in *.
  pose proof (Hg x ltac:(by left)). assert (0 <= zsum g l) by (apply zsum_nonneg; intros; apply Hg; by right).
  unfold u64 in *. rewrite (Z.mod_small (g x)), (Z.mod_small (m + g x)) by lia.
  rewrite IH; [lia | | lia | lia]. intros; apply Hg; by right.
Qed.

Section select.
Context {traits : MergeSortTraits} {k c : nat} `{!MergeSortTraitsOk k c} (leaves : list Z).
Context (Hn : Z.of_nat (length leaves) < 2 ^ 64).
Context (top : nat) (t : Tree) (Ht : tree_complete leaves top t) (Htop : is_top leaves top).
Context (frames : list FrameBounds) (Hframes : frames_ordered frames) (position : Z) (Hposition : 0 <= position).
Abbreviation n := (Z.of_nat (length leaves)).
Abbreviation run_begin := (run_begin (length leaves)).
Abbreviation bound := (bound leaves).
Abbreviation els := (level_elements t).
Abbreviation cas := (level_cascades t).
Implicit Types (l : nat) (r i j p x m : Z).

(** The leaves whose values are in the frames. *)
Definition leaf_in i : bool := in_frames frames (znth 0 leaves i).

Definition frame_count l r : Z := zcount leaf_in (run_begin l r) (run_begin l (r + 1)).

Abbreviation total := (zcount leaf_in 0 n).

Lemma frame_bounds l r (frame : FrameBounds) :
  frame ∈ frames -> 0 <= r -> bound l r (snd frame) - bound l r (fst frame) =
    zcount (fun i => (fst frame <=? znth 0 leaves i) && (znth 0 leaves i <? snd frame)) (run_begin l r) (run_begin l (r + 1)).
Proof.
  intros Hf Hr. destruct Hframes as [Hle _]. rewrite Forall_forall in Hle. specialize (Hle frame Hf).
  unfold MergeSortSearch.bound, count_lt.
  assert (forall a b, zcount (fun i => znth 0 leaves i <? snd frame) a b =
    zcount (fun i => znth 0 leaves i <? fst frame) a b +
    zcount (fun i => (fst frame <=? znth 0 leaves i) && (znth 0 leaves i <? snd frame)) a b) as H; [| rewrite H; lia].
  intros a b. destruct (Z.le_gt_cases b a) as [Hab | Hab]; [by rewrite !zcount_nil by lia |].
  replace b with (a + Z.of_nat (Z.to_nat (b - a))) by lia. induction (Z.to_nat (b - a)) as [| m IH].
  - by rewrite !zcount_nil by lia.
  - replace (a + Z.of_nat (S m)) with (a + Z.of_nat m + 1) by lia. rewrite !zcount_snoc, IH by lia.
    repeat match goal with |- context [?x <? ?y] => destruct (Z.ltb_spec x y) | |- context [?x <=? ?y] => destruct (Z.leb_spec x y) end; cbn; lia.
Qed.

Lemma matched_frames l r :
  0 <= r -> zsum (fun frame : FrameBounds => bound l r (snd frame) - bound l r (fst frame)) frames = frame_count l r.
Proof.
  intros Hr. unfold frame_count. rewrite <- (zsum_zcount (fun (frame : FrameBounds) i =>
    (fst frame <=? znth 0 leaves i) && (znth 0 leaves i <? snd frame)) leaf_in frames) by (intros; by apply frames_apart).
  apply zsum_ext. intros frame Hf. by apply frame_bounds.
Qed.

Lemma frame_count_range l r : 0 <= r -> 0 <= frame_count l r <= n.
Proof.
  intros Hr. unfold frame_count. pose proof (zcount_nonneg leaf_in (run_begin l r) (run_begin l (r + 1))).
  pose proof (zcount_le leaf_in (run_begin l r) (run_begin l (r + 1))).
  pose proof (run_begin_range (length leaves) l r Hr). pose proof (run_begin_range (length leaves) l (r + 1) ltac:(lia)). lia.
Qed.

Lemma foldl_matched l r :
  0 <= r ->
  foldl (fun m (frame : FrameBounds) => u64 (m + u64 (bound l r (snd frame) - bound l r (fst frame)))) 0 frames = frame_count l r.
Proof.
  intros Hr. pose proof (frame_count_range l r Hr). rewrite foldl_u64; rewrite ?matched_frames by done; [lia | | lia | lia].
  intros frame Hf. rewrite frame_bounds by done. apply zcount_nonneg.
Qed.

(** *** The levels with cascading pointers *)

(** The cascade indices for child [i] of run [r]. *)
Definition cascade_idx l r x : Z := cascade_row l r ((bound l r x - run_begin l r) / CASCADING).

Definition frame_cascades l r i : list (Z * Z) :=
  (fun frame : FrameBounds => (cascade_idx l r (fst frame) + i, cascade_idx l r (snd frame) + i)) <$> frames.

Lemma cascade_matches_child l r i :
  (S l <= top)%nat -> 0 <= r -> r * width (S l) < n -> CASCADING < width (S l) -> 0 <= i < FANOUT ->
  cascade_matches (els l) (cas (S l)) frames (frame_cascades (S l) r i) =
    Some ((fun frame => (bound l (r * FANOUT + i) (fst frame), bound l (r * FANOUT + i) (snd frame))) <$> frames,
      frame_count l (r * FANOUT + i)).
Proof.
  intros Hl Hr Hlt Hw Hi. unfold cascade_matches, frame_cascades.
  assert (0 <= r * FANOUT + i) as Hq by (pose proof (Z.mul_nonneg_nonneg r FANOUT); lia).
  assert (forall x, cascade_search (els l) (cas (S l)) (cascade_idx (S l) r x + i) x = Some (bound l (r * FANOUT + i) x)) as Hs
    by (intros x; by apply (cascade_search_run leaves top t Ht)).
  assert (mapM (fun '(frame, cascade_idx) =>
      first ← cascade_search (els l) (cas (S l)) (fst cascade_idx) (fst frame);
      second ← cascade_search (els l) (cas (S l)) (snd cascade_idx) (snd frame);
      Some (first, second)) (zip frames ((fun frame : FrameBounds =>
        (cascade_idx (S l) r (fst frame) + i, cascade_idx (S l) r (snd frame) + i)) <$> frames)) =
    Some ((fun frame : FrameBounds => (bound l (r * FANOUT + i) (fst frame), bound l (r * FANOUT + i) (snd frame))) <$> frames)) as ->.
  { clear Hframes. induction frames as [| frame fs IH]; [done |]. cbn [fmap list_fmap zip zip_with mapM].
    cbn [fst snd]. rewrite !Hs. cbn [mbind option_bind].
    rewrite IH. done. }
  cbn [mbind option_bind]. f_equal. f_equal. rewrite <- foldl_matched by done.
  rewrite foldl_fmap. done.
Qed.

Lemma select_cascaded_child_ok fuel l r i m :
  (S l <= top)%nat -> 0 <= r -> r * width (S l) < n -> CASCADING < width (S l) -> 0 <= i <= FANOUT ->
  FANOUT - i < Z.of_nat fuel -> 0 <= m < zcount leaf_in (run_begin l (r * FANOUT + i)) (run_begin (S l) (r + 1)) ->
  exists q m', select_cascaded_child fuel (els l) (cas (S l)) frames (frame_cascades (S l) r i) (r * FANOUT + i) m =
      Some ((fun frame : FrameBounds => ((bound l q (fst frame) / CASCADING + 2 * q) * FANOUT,
        (bound l q (snd frame) / CASCADING + 2 * q) * FANOUT)) <$> frames, q, m') /\
    r * FANOUT <= q < (r + 1) * FANOUT /\ 0 <= m' < frame_count l q /\
    zcount leaf_in 0 (run_begin l q) + m' = zcount leaf_in 0 (run_begin l (r * FANOUT + i)) + m.
Proof.
  intros Hl Hr Hlt Hw. revert i m. induction fuel as [| fuel IH]; intros i m Hi Hf Hm; [lia |].
  pose proof FANOUT_ge as HF. assert (0 <= r * FANOUT) as H0 by (apply Z.mul_nonneg_nonneg; lia).
  assert (i < FANOUT) as Hi'.
  { destruct (decide (i = FANOUT)) as [-> |]; [| lia]. rewrite run_begin_child in Hm.
    replace ((r + 1) * FANOUT) with (r * FANOUT + FANOUT) in Hm by ring. rewrite zcount_nil in Hm by lia. lia. }
  cbn [select_cascaded_child]. rewrite cascade_matches_child by (done || lia). cbn [mbind option_bind].
  pose proof (run_begin_range (length leaves) l (r * FANOUT + i)) as Hb. specialize (Hb ltac:(lia)).
  pose proof (run_begin_mono (length leaves) l (r * FANOUT + i) (r * FANOUT + i + 1)) as Hb1. specialize (Hb1 ltac:(lia)).
  destruct (Z.ltb_spec m (frame_count l (r * FANOUT + i))) as [Hc | Hc].
  - exists (r * FANOUT + i), m. split_and!; [| lia | lia | lia | lia | done].
    do 3 f_equal. rewrite <- list_fmap_compose. done.
  - assert ((fun c : Z * Z => (fst c + 1, snd c + 1)) <$> frame_cascades (S l) r i = frame_cascades (S l) r (i + 1)) as ->.
    { unfold frame_cascades. rewrite <- list_fmap_compose. apply list_fmap_ext. intros ? frame _. cbn. f_equal; lia. }
    rewrite <- Z.add_assoc. unfold frame_count in *.
    assert (zcount leaf_in (run_begin l (r * FANOUT + i)) (run_begin (S l) (r + 1)) =
      zcount leaf_in (run_begin l (r * FANOUT + i)) (run_begin l (r * FANOUT + i + 1)) +
      zcount leaf_in (run_begin l (r * FANOUT + i + 1)) (run_begin (S l) (r + 1))) as Es.
    { apply zcount_split. split; [done |]. rewrite run_begin_child. apply run_begin_mono. nia. }
    destruct (IH (i + 1) (m - zcount leaf_in (run_begin l (r * FANOUT + i)) (run_begin l (r * FANOUT + i + 1))))
      as (q & m' & E & Hq & Hm' & Ec); [lia | lia | rewrite Z.add_assoc; lia |].
    exists q, m'. split; [done |]. split; [done |]. split; [done |]. rewrite Ec, Z.add_assoc.
    rewrite (zcount_split leaf_in 0 (run_begin l (r * FANOUT + i)) (run_begin l (r * FANOUT + i + 1))) by lia. lia.
Qed.

(** Run [r] has the leaf at [position], or is the last one when there is no such leaf. *)
Record select_inv l r m : Prop := {
  si_run : 0 <= r /\ r * width l < n;
  si_rest : 0 <= m;
  si_before : zcount leaf_in 0 (run_begin l r) + m = position;
  si_found : position < total -> m < frame_count l r;
  si_beyond : total <= position -> n <= (r + 1) * width l
}.

Lemma count_before_run l r : 0 <= r -> zcount leaf_in 0 (run_begin l r) + frame_count l r = zcount leaf_in 0 (run_begin l (r + 1)).
Proof.
  intros Hr. unfold frame_count. pose proof (run_begin_range (length leaves) l r Hr).
  pose proof (run_begin_mono (length leaves) l r (r + 1) ltac:(lia)). symmetry. apply zcount_split. lia.
Qed.

Lemma count_before_le p : 0 <= p <= n -> zcount leaf_in 0 p <= total.
Proof. intros Hp. rewrite (zcount_split leaf_in 0 p n) by lia. pose proof (zcount_nonneg leaf_in p n). lia. Qed.

(** The leaf is in the run when enough leaves are counted. *)
Lemma select_inv_found l r m :
  0 <= r -> r * width l < n -> 0 <= m -> zcount leaf_in 0 (run_begin l r) + m = position -> m < frame_count l r -> select_inv l r m.
Proof.
  intros Hr Hlt Hm Hp Hc. split; [done | done | done | done |]. intros Hbeyond. exfalso.
  pose proof (count_before_run l r Hr). pose proof (count_before_le (run_begin l (r + 1))) as Hle.
  specialize (Hle (run_begin_range (length leaves) l (r + 1) ltac:(lia))). lia.
Qed.

Lemma select_inv_last l r m :
  0 <= r -> r * width l < n <= (r + 1) * width l -> 0 <= m -> zcount leaf_in 0 (run_begin l r) + m = position -> select_inv l r m.
Proof.
  intros Hr Hlt Hm Hp. split; [lia | done | done | | lia]. intros Hfound.
  pose proof (count_before_run l r Hr) as Hc. replace (run_begin l (r + 1)) with n in Hc by (unfold MergeSortRuns.run_begin; lia). lia.
Qed.

Abbreviation cascade_indices l r := ((fun frame : FrameBounds => (cascade_idx l r (fst frame), cascade_idx l r (snd frame))) <$> frames).

Lemma frame_cascades_0 l r : frame_cascades l r 0 = cascade_indices l r.
Proof. unfold frame_cascades. apply list_fmap_ext. intros ? frame _. by rewrite !Z.add_0_r. Qed.

(** [d] levels from the run of level [min_level + d] down. *)
Lemma select_cascaded_ok d min_level r m :
  (1 <= min_level)%nat -> CASCADING < width min_level -> (min_level + d <= top)%nat -> position < total ->
  select_inv (min_level + d) r m ->
  exists r' m', select_cascaded d t (min_level + d - 1) frames (cascade_indices (min_level + d) r) (r * FANOUT) m =
      Some (r' * FANOUT, m') /\ select_inv min_level r' m'.
Proof.
  intros Hmin Hw. revert r m. induction d as [| d IH]; intros r m Hd Hpos Hinv.
  { rewrite Nat.add_0_r in *. by exists r, m. }
  replace (min_level + S d - 1)%nat with (min_level + d)%nat by lia. replace (min_level + S d)%nat with (S (min_level + d)) in * by lia.
  set (l := (min_level + d)%nat) in *. cbn [select_cascaded].
  rewrite (level_lookup leaves top t l (proj1 Ht)) by lia. rewrite (level_lookup leaves top t (S l) (proj1 Ht)) by lia.
  cbn [mbind option_bind fst snd]. rewrite <- frame_cascades_0. destruct Hinv as [[Hr Hlt] Hm Hb Hf _]. pose proof FANOUT_ge as HF.
  assert (CASCADING < width (S l) /\ CASCADING < width l) as [HwS Hwl].
  { assert (forall d', width min_level <= width (min_level + d')) as Hmono.
    { intros d'. unfold width. apply Z.pow_le_mono_r; lia. }
    pose proof (Hmono d) as H1. pose proof (Hmono (S d)) as H2. rewrite Nat.add_succ_r in H2. fold l in H1, H2. lia. }
  destruct (select_cascaded_child_ok (S (length (cas (S l)))) l r 0 m) as (q & m' & E & Hq & Hm' & Eb); try done.
  - lia.
  - pose proof (level_cascades_length leaves top t Ht (S l) ltac:(lia) HwS) as Hcl.
    pose proof (proj1 (cascade_rows_apart leaves (S l) r Hr Hlt HwS)). pose proof (cascade_rows_fit leaves (S l) r Hr Hlt HwS).
    pose proof (cascade_row_le (S l) 0 r ltac:(lia)). unfold cascade_row in *. pose proof CASCADING_pos.
    assert (0 <= width (S l) / CASCADING) by (apply Z.div_pos; lia). nia.
  - rewrite Z.add_0_r. rewrite <- run_begin_child. specialize (Hf Hpos). unfold frame_count in Hf. lia.
  - rewrite Z.add_0_r in E, Eb. rewrite E. cbn [mbind option_bind]. rewrite <- run_begin_child in Eb.
    assert (select_inv l q m') as Hinv'.
    { apply select_inv_found; [nia | | lia | lia | lia].
      unfold frame_count in Hm'. destruct (Z.lt_ge_cases (q * width l) n) as [| Hge]; [done |].
      pose proof (run_width_pos l). rewrite zcount_nil in Hm' by (unfold MergeSortRuns.run_begin; lia). lia. }
    destruct (IH q m' ltac:(lia) Hpos Hinv') as (r'' & m'' & E' & Hinv''). exists r'', m''. split; [| done].
    rewrite <- E'. f_equal. apply list_fmap_ext. intros ? frame _. destruct Hinv' as [[Hq0 Hqlt] _ _ _ _].
    unfold cascade_idx. by rewrite !(cascade_index leaves top) by (done || lia).
Qed.

(** *** The other levels *)

Lemma run_interval l r : (r + 1) * width l < n -> run_begin l (r + 1) = r * width l + width l.
Proof. intros Hlt. rewrite run_begin_small by lia. ring. Qed.

Lemma uncascaded_matches l r :
  (l <= top)%nat -> 0 <= r -> (r + 1) * width l < n ->
  ofold (fun matched (frame : FrameBounds) =>
    lower_match ← level_lower_bound (els l) (r * width l) (r * width l + width l) (fst frame);
    upper_match ← level_lower_bound (els l) lower_match (r * width l + width l) (snd frame);
    Some (u64 (matched + u64 (upper_match - lower_match)))) 0 frames = Some (frame_count l r).
Proof.
  intros Hl Hr Hlt. pose proof (run_width_pos l). rewrite <- (run_interval l r Hlt).
  rewrite <- (run_begin_small (length leaves) l r) by lia. rewrite <- foldl_matched by done.
  assert (forall frame, frame ∈ frames -> level_lower_bound (els l) (bound l r (fst frame)) (run_begin l (r + 1)) (snd frame) =
    Some (bound l r (snd frame))) as Hupper.
  { intros frame Hf. pose proof (bound_range leaves l r (fst frame) Hr). pose proof (bound_range leaves l r (snd frame) Hr).
    apply (level_lower_bound_part leaves top t Ht); [done | done | | lia]. split; [lia |].
    pose proof (frame_bounds l r frame Hf Hr) as Hb. pose proof (zcount_nonneg (fun i => (fst frame <=? znth 0 leaves i) &&
      (znth 0 leaves i <? snd frame)) (run_begin l r) (run_begin l (r + 1))). lia. }
  generalize 0. revert Hupper. clear Hframes. induction frames as [| frame fs IH]; intros Hupper m; [done |].
  rewrite ofold_cons. rewrite (level_lower_bound_run leaves top t Ht) by done. cbn [mbind option_bind].
  rewrite Hupper by by left. cbn [mbind option_bind foldl]. apply IH. intros; apply Hupper; by right.
Qed.

Lemma select_child_ok fuel l r m :
  (l <= top)%nat -> 0 <= r -> r * width l < n -> n - (r + 1) * width l <= Z.of_nat fuel ->
  0 <= m -> zcount leaf_in 0 (run_begin l r) + m = position ->
  exists r' m', select_child fuel (els l) (width l) frames (r * width l) (r * width l + width l) r m = Some (r', m') /\
    select_inv l r' m'.
Proof.
  intros Hl. pose proof (run_width_pos l) as Hw. revert r m. induction fuel as [| fuel IH]; intros r m Hr Hlt Hf Hm Hp; cbn [select_child];
    rewrite (complete_length leaves top t Ht) by done; destruct (Z.ltb_spec (r * width l + width l) n) as [Hlt' | Hge]; try lia.
  - exists r, m. split; [done |]. apply select_inv_last; [done | lia | done | done].
  - rewrite uncascaded_matches by (done || lia). cbn [mbind option_bind].
    destruct (Z.ltb_spec m (frame_count l r)) as [Hc | Hc].
    + exists r, m. split; [done |]. by apply select_inv_found.
    + pose proof (count_before_run l r Hr). pose proof (frame_count_range l r Hr).
      destruct (IH (r + 1) (m - frame_count l r)) as (r' & m' & E & Hinv); [lia | lia | lia | lia | lia |].
      exists r', m'. split; [| done]. rewrite <- E. f_equal; ring.
  - exists r, m. split; [done |]. apply select_inv_last; [done | lia | done | done].
Qed.

Lemma select_uncascaded_ok l r m :
  (S l <= top)%nat -> select_inv (S l) r m ->
  exists r' m', select_uncascaded t l (width l) frames (r * FANOUT) m = Some (r' * FANOUT, m') /\ select_inv 1 r' m'.
Proof.
  revert r m. induction l as [| l IH]; intros r m Hl Hinv; cbn [select_uncascaded]; [by exists r, m |].
  rewrite (level_lookup leaves top t (S l) (proj1 Ht)) by lia. cbn [mbind option_bind fst].
  destruct Hinv as [[Hr Hlt] Hm Hb _ _]. pose proof FANOUT_ge as HF. pose proof (run_width_pos (S l)).
  rewrite run_begin_child in Hb. rewrite width_S in Hlt.
  destruct (select_child_ok (length (els (S l))) (S l) (r * FANOUT) m) as (q & m' & E & Hinv).
  - lia.
  - nia.
  - lia.
  - rewrite (complete_length leaves top t Ht) by lia. nia.
  - done.
  - done.
  - rewrite E. cbn [mbind option_bind]. rewrite width_S, Z.div_mul by lia. apply IH; [lia | done].
Qed.

(** *** The leaves *)

Lemma foldl_leaf p m :
  1 <= m < 2 ^ 64 -> let v := znth 0 leaves p in
  foldl (fun n (frame : FrameBounds) => u64 (n - Z.b2z ((fst frame <=? v) && (v <? snd frame)))) m frames = m - Z.b2z (leaf_in p).
Proof.
  intros Hm v. change (leaf_in p) with (in_frames frames v). rewrite <- (frames_apart frames v Hframes).
  assert (zsum (fun frame : FrameBounds => Z.b2z ((fst frame <=? v) && (v <? snd frame))) frames <= m) as Hs.
  { rewrite frames_apart by done. destruct (in_frames frames v); cbn; lia. }
  assert (0 <= m < 2 ^ 64) as Hm' by lia. clear Hm Hframes. revert m Hm' Hs.
  induction frames as [| frame fs IH]; intros m Hm Hs; cbn [foldl]; [cbn [zsum foldr]; lia |]. rewrite zsum_cons in *.
  assert (0 <= zsum (fun frame : FrameBounds => Z.b2z ((fst frame <=? v) && (v <? snd frame))) fs).
  { apply zsum_nonneg. intros f _. by destruct ((fst f <=? v) && (v <? snd f)). }
  destruct ((fst frame <=? v) && (v <? snd frame)); cbn [Z.b2z] in *; unfold u64 at 2; rewrite Z.mod_small by lia; rewrite IH; lia.
Qed.

Lemma select_leaf_ok fuel limit p m :
  0 <= p <= limit -> limit <= n -> limit - p <= Z.of_nat fuel -> 1 <= m < 2 ^ 64 ->
  exists p' m', select_leaf fuel leaves frames limit p m = Some (p', m') /\
    (m' = 0 /\ p <= p' < limit /\ leaf_in p' = true /\ zcount leaf_in p p' = m - 1 \/
     m' = m - zcount leaf_in p limit /\ 1 <= m' /\ p' = limit).
Proof.
  revert p m. induction fuel as [| fuel IH]; intros p m Hp Hl Hf Hm; cbn [select_leaf];
    destruct (Z.ltb_spec p limit) as [Hlt | Hge]; try lia.
  - exists p, m. split; [done |]. right. rewrite zcount_nil by lia. lia.
  - rewrite (zload_Some 0) by lia. cbn [mbind option_bind]. rewrite foldl_leaf by done.
    destruct (Z.eqb_spec (m - Z.b2z (leaf_in p)) 0) as [E | E].
    + exists p, (m - Z.b2z (leaf_in p)). split; [done |]. left. rewrite zcount_nil by lia.
      destruct (leaf_in p); cbn [Z.b2z] in *; split_and!; try done; lia.
    + destruct (IH (p + 1) (m - Z.b2z (leaf_in p))) as (p' & m' & E' & Hres); [lia | lia | lia | destruct (leaf_in p); cbn [Z.b2z] in *; lia |].
      exists p', m'. split; [done |]. destruct Hres as [(-> & Hp' & Hin & Hc) | (-> & Hm' & ->)].
      * left. split_and!; [done | lia | lia | done |]. rewrite zcount_cons by lia. lia.
      * right. rewrite (zcount_cons _ p limit) by lia. lia.
  - exists p, m. split; [done |]. right. rewrite zcount_nil by lia. lia.
Qed.

(** Where the search ends, from a run of the lowest inner level. *)
Lemma select_end r m :
  (1 <= top)%nat -> position + 1 < 2 ^ 64 -> select_inv 1 r m ->
  exists p, select_leaf (Z.to_nat FANOUT) leaves frames (Z.min (r * FANOUT + FANOUT) n) (r * FANOUT) (m + 1) =
      Some (p, Z.max 0 (position + 1 - total)) /\
    (position < total -> 0 <= p < n /\ leaf_in p = true /\ zcount leaf_in 0 p = position).
Proof.
  intros Htop1 Hsmall [[Hr Hlt] Hm Hb Hf Hbeyond]. pose proof FANOUT_ge as HF. assert (width 1 = FANOUT) as Ew by (unfold width; by rewrite Z.pow_1_r).
  rewrite Ew in *. assert (0 <= r * FANOUT) by (apply Z.mul_nonneg_nonneg; lia).
  assert (run_begin 1 r = r * FANOUT) as Er by (rewrite run_begin_small; rewrite Ew; lia).
  assert (run_begin 1 (r + 1) = Z.min (r * FANOUT + FANOUT) n) as Er1 by (unfold MergeSortRuns.run_begin; rewrite Ew; f_equal; ring).
  unfold frame_count in Hf. rewrite Er, Er1 in *. set (limit := Z.min _ _) in *.
  pose proof (zcount_nonneg leaf_in 0 (r * FANOUT)).
  destruct (select_leaf_ok (Z.to_nat FANOUT) limit (r * FANOUT) (m + 1)) as (p & m' & E & Hres); [lia | lia | lia | lia |].
  exists p. rewrite E. destruct (Z.lt_ge_cases position total) as [Hlt' | Hge].
  - specialize (Hf Hlt'). destruct Hres as [(-> & Hp & Hin & Hc) | (-> & Hm' & ->)]; [| lia].
    split; [f_equal; f_equal; lia |]. intros _. split; [lia |]. split; [done |].
    rewrite (zcount_split leaf_in 0 (r * FANOUT) p) by lia. lia.
  - specialize (Hbeyond Hge). assert (limit = n) as El by lia.
    pose proof (zcount_split leaf_in 0 (r * FANOUT) n) as Hsp. specialize (Hsp ltac:(lia)). rewrite El in *.
    destruct Hres as [(-> & Hp & Hin & Hc) | (-> & Hm' & ->)].
    + exfalso. rewrite (zcount_split leaf_in (r * FANOUT) p n), (zcount_cons leaf_in p n), Hin in Hsp by lia. cbn [Z.b2z] in Hsp.
      pose proof (zcount_nonneg leaf_in (p + 1) n). lia.
    + split; [f_equal; f_equal; lia | lia].
Qed.

Lemma lowest_cascading_ok fuel l :
  CASCADING < width (l + fuel) ->
  let l' := lowest_cascading fuel l (width l) in (l <= l')%nat /\ CASCADING < width l' /\ forall i : nat, (l <= i < l')%nat -> width i <= CASCADING.
Proof.
  revert l. induction fuel as [| fuel IH]; intros l Hw; cbn zeta; cbn [lowest_cascading].
  { rewrite Nat.add_0_r in Hw. split_and!; [lia | done | lia]. }
  destruct (Z.leb_spec (width l) CASCADING) as [Hle | Hgt]; [| split_and!; [lia | done | lia]].
  rewrite <- width_S. rewrite Nat.add_succ_r in Hw. destruct (IH (S l) Hw) as (H1 & H2 & H3).
  split_and!; [lia | done |]. intros i Hi. destruct (decide (i = l)) as [-> |]; [done | apply H3; lia].
Qed.

(** The lowest level whose runs are longer than the distance of the pointers. *)
Lemma LowestCascadingLevel_ok :
  (1 <= LowestCascadingLevel)%nat /\ CASCADING < width LowestCascadingLevel /\
  forall i : nat, (i < LowestCascadingLevel)%nat -> width i <= CASCADING.
Proof.
  pose proof CASCADING_pos as Hc. pose proof (lowest_cascading_ok (S (Z.to_nat CASCADING)) 0) as H.
  pose proof (width_lin leaves (S (Z.to_nat CASCADING))) as Hlin.
  specialize (H ltac:(cbn [Nat.add]; lia)). change (lowest_cascading _ 0 (width 0)) with LowestCascadingLevel in H.
  destruct H as (_ & H1 & H2). split_and!; [| done | intros i Hi; apply H2; lia].
  destruct (decide (LowestCascadingLevel = 0%nat)) as [E |]; [| lia]. rewrite E, width_0 in H1. lia.
Qed.

(** The search of the n-th leaf in the frames, and of the leaves that are missing when
    there are less, which only the search without pointers can tell. *)
Lemma SelectNthElement_position :
  position + 1 < 2 ^ 64 ->
  (position < total ->
    exists p, SelectNthElement t frames position = Some (p, 0) /\ 0 <= p < n /\ leaf_in p = true /\ zcount leaf_in 0 p = position) /\
  (total <= position -> (1 <= top <= S LowestCascadingLevel)%nat ->
    exists p, SelectNthElement t frames position = Some (p, position + 1 - total)).
Proof.
  intros Hsmall. unfold SelectNthElement. rewrite (proj1 (proj1 Ht)).
  destruct (Nat.ltb_spec (S top) 2) as [Hl | Hl].
  { assert (top = 0)%nat as E by lia. destruct Htop as [Ht1 _]. rewrite E, width_0 in Ht1. split; [intros Hp | lia].
    pose proof (zcount_le leaf_in 0 n). assert (n = 1) as En by lia. rewrite En in *.
    rewrite zcount_cons, zcount_nil in Hp by lia. exists 0. destruct (leaf_in 0); cbn [Z.b2z] in Hp; [| lia].
    assert (position = 0) as -> by lia. split_and!; [done | lia | lia | done | by rewrite zcount_nil]. }
  destruct LowestCascadingLevel_ok as (Hmin & Hw & _). set (min_level := LowestCascadingLevel) in *.
  assert (1 <= top)%nat as Htop1 by lia. replace (S top - 2)%nat with (top - 1)%nat by lia. replace (S (top - 1)) with top by lia.
  pose proof (proj2 Htop (top - 1)%nat ltac:(lia)) as Hsize. pose proof (run_width_pos (top - 1)) as Hwp.
  assert (run_begin top 0 = 0 /\ run_begin top 1 = n) as [Eb Ee].
  { destruct Htop as [Ht1 _]. unfold MergeSortRuns.run_begin. split; lia. }
  assert (select_inv top 0 position) as Hinv.
  { split; [lia | done | | |].
    - rewrite Eb, zcount_nil by lia. lia.
    - unfold frame_count. change (0 + 1) with 1. rewrite Eb, Ee. done.
    - intros _. destruct Htop. lia. }
  assert (forall l r m, (S l <= top)%nat -> select_inv (S l) r m ->
    exists p, ('(result, n) ← select_uncascaded t l (FANOUT ^ Z.of_nat l) frames (r * FANOUT) m;
        level ← head t;
        select_leaf (Z.to_nat FANOUT) (fst level) frames (Z.min (result + FANOUT) (Z.of_nat (length (fst level)))) result (n + 1)) =
      Some (p, Z.max 0 (position + 1 - total)) /\
    (position < total -> 0 <= p < n /\ leaf_in p = true /\ zcount leaf_in 0 p = position)) as Hend.
  { intros l r m Hl' Hi. destruct (select_uncascaded_ok l r m Hl' Hi) as (r' & m' & E & Hi').
    change (FANOUT ^ Z.of_nat l) with (width l). rewrite E. cbn [mbind option_bind].
    pose proof (level_lookup leaves top t 0 (proj1 Ht) ltac:(lia)) as E0. rewrite <- head_lookup in E0. rewrite E0. cbn [mbind option_bind fst].
    rewrite (proj1 (proj2 (proj1 Ht))). by apply select_end. }
  destruct (Nat.ltb_spec min_level (top - 1)) as [Hc | Hc].
  - split; [intros Hpos | lia]. rewrite (level_lookup leaves top t top (proj1 Ht)) by lia. cbn [mbind option_bind fst].
    rewrite (complete_length leaves top t Ht) by done.
    assert (mapM (fun frame : FrameBounds =>
        lower_idx ← level_lower_bound (els top) 0 n (fst frame); upper_idx ← level_lower_bound (els top) 0 n (snd frame);
        Some (lower_idx / CASCADING * FANOUT, upper_idx / CASCADING * FANOUT)) frames = Some (cascade_indices top 0)) as ->.
    { apply mapM_Some, Forall2_fmap_r, Forall_Forall2_diag, Forall_forall. intros frame _. unfold compose.
      pose proof (fun x => level_lower_bound_run leaves top t Ht top 0 x ltac:(lia) ltac:(lia)) as Hb. rewrite Z.add_0_l, Eb, Ee in Hb.
      rewrite !Hb. cbn [mbind option_bind]. f_equal. unfold cascade_idx. rewrite Eb, !Z.sub_0_r. unfold cascade_row. f_equal; ring. }
    cbn [mbind option_bind].
    destruct (select_cascaded_ok (top - min_level) min_level 0 position Hmin Hw ltac:(lia) Hpos) as (r' & m' & E & Hinv').
    { by replace (min_level + (top - min_level))%nat with top by lia. }
    replace (min_level + (top - min_level))%nat with top in E by lia. rewrite Z.mul_0_l in E. rewrite E. cbn [mbind option_bind].
    replace min_level with (S (min_level - 1)) in Hinv' by lia.
    destruct (Hend (min_level - 1)%nat r' m' ltac:(lia) Hinv') as (p & -> & Hp). exists p. split; [f_equal; f_equal; lia | by apply Hp].
  - cbn [mbind option_bind]. replace top with (S (top - 1)) in Hinv by lia.
    destruct (Hend (top - 1)%nat 0 position ltac:(lia) Hinv) as (p & E & Hp). rewrite Z.mul_0_l in E. rewrite E. split.
    + intros Hpos. exists p. split; [f_equal; f_equal; lia | by apply Hp].
    + intros Hpos _. exists p. f_equal. f_equal. lia.
Qed.
End select.

(** ** Examples *)

Definition example_tree : option Tree :=
  m ← Allocate (traits := example_traits) 5;
  s ← Build (traits := example_traits) (0, 0) (with_leaves example_leaves m) 2 (mjoin (example_build_rounds 20));
  Some (tree (fst s)).

(** The leaves 3, 1 and 1 are in [[0, 4)]; 4 and 5 are not. *)
Example select_in_frame :
  (fun t => (fun n => SelectNthElement (traits := example_traits) t [(0, 4)] n) <$> [0; 1; 2]) <$> example_tree =
    Some [Some (0, 0); Some (1, 0); Some (3, 0)].
Proof. vm_compute. reflexivity. Qed.

(** With pointers the search of a leaf that is not there goes on to the right of the last
    child run and reads beyond the pointers. *)
Example select_beyond_cascaded :
  (fun t => SelectNthElement (traits := example_traits) t [(0, 4)] 3) <$> example_tree = Some None.
Proof. vm_compute. reflexivity. Qed.

(** A tree of one leaf gives this leaf, in whatever frame. *)
Example select_one_leaf : SelectNthElement (traits := MergeSortTree32) [([7], [])] [(0, 0)] 0 = Some (0, 0).
Proof. reflexivity. Qed.
