(* ===== verification/MergeSortAggregate.v ===== *)
(** * Aggregating the leaves of a range below a value

    The runs that AggregateLowerBound hands to its callback cover exactly the leaves of
    the range, with or without cascading pointers, so their counts add up to the number of
    leaves below the needle. *)

From S2P Require Import Prelude Validity MaskSearch Boundaries RangeSearch Aggregates WindowValue MergeSortTree MergeSortGames MergeSortRuns MergeSortBuild MergeSortSearch.

(** The elements of a run that an aggregate is called for. *)
Definition call_count (call : AggregateCall) : Z := snd call - snd (fst call).

Section aggregate.
Context {traits : MergeSortTraits} {k c : nat} `{!MergeSortTraitsOk k c} (leaves : list Z).
Context (Hn : 3 * FANOUT * (FANOUT + 1) * Z.of_nat (length leaves) < 2 ^ 64).
Context (top : nat) (t : Tree) (Ht : tree_complete leaves top t) (Htop : is_top leaves top).
Context (lower upper needle : Z) (Hlower : 0 <= lower) (Hupper : upper <= Z.of_nat (length leaves)).
Abbreviation n := (Z.of_nat (length leaves)).
Abbreviation run_begin := (run_begin (length leaves)).
Abbreviation bound := (bound leaves).
Abbreviation els := (level_elements t).
Abbreviation cas := (level_cascades t).
Abbreviation below := (count_lt leaves needle).
Implicit Types (l : nat) (q idx first second : Z) (calls : list AggregateCall).

Lemma run_interval_le l q : 0 <= q -> (q + 1) * width l <= n -> run_begin l q = q * width l /\ run_begin l (q + 1) = (q + 1) * width l.
Proof. intros Hq Hle. pose proof (run_width_pos l). split; apply run_begin_small; lia. Qed.

Lemma bound_count l q : 0 <= q -> (q + 1) * width l <= n -> bound l q needle - q * width l = below (q * width l) ((q + 1) * width l).
Proof. intros Hq Hle. destruct (run_interval_le l q Hq Hle) as [E1 E2]. unfold MergeSortSearch.bound. rewrite E1, E2. lia. Qed.

Lemma calls_snoc calls l a b : zsum call_count (calls ++ [(l, a, b)]) = zsum call_count calls + (b - a).
Proof. rewrite zsum_app. unfold zsum at 2. cbn [foldr]. unfold call_count. cbn [fst snd]. lia. Qed.

(** The complete runs to the left. *)
Lemma aggregate_left_ok fuel search l q idx calls :
  lower <= q * width l <= n -> q * width l - lower <= Z.of_nat fuel ->
  (forall j, 0 <= j -> lower <= (q - 1 - j) * width l -> search ((q - 1 - j) * width l) (idx - j) = Some (bound l (q - 1 - j) needle)) ->
  exists m calls', aggregate_left fuel search l (width l) lower (q * width l) idx calls = Some ((q - m) * width l, idx - m, calls') /\
    0 <= m /\ lower <= (q - m) * width l < lower + width l /\
    zsum call_count calls' = zsum call_count calls + below ((q - m) * width l) (q * width l).
Proof.
  pose proof (run_width_pos l) as Hw. revert q idx calls.
  assert (forall q idx calls, lower <= q * width l -> q * width l - lower < width l ->
    0 <= 0 /\ lower <= (q - 0) * width l < lower + width l /\
    zsum call_count calls = zsum call_count calls + below ((q - 0) * width l) (q * width l)) as Hdone.
  { intros q idx calls H1 H2. rewrite Z.sub_0_r. unfold count_lt. rewrite zcount_nil by lia. lia. }
  induction fuel as [| fuel IH]; intros q idx calls Hq Hf Hsearch; cbn [aggregate_left];
    destruct (Z.leb_spec (width l) (q * width l - lower)) as [Hle | Hgt].
  1: lia.
  1, 3: exists 0, calls; rewrite !Z.sub_0_r; split; [done |]; destruct (Hdone q idx calls) as (H1 & H2 & H3); [lia.. |];
    rewrite Z.sub_0_r in *; done.
  replace (q * width l - width l) with ((q - 1) * width l) by ring.
  pose proof (Hsearch 0 ltac:(lia)) as Hs. rewrite !Z.sub_0_r in Hs. rewrite Hs by lia. cbn [mbind option_bind].
  assert (0 <= q - 1) as Hq0 by nia.
  destruct (IH (q - 1) (idx - 1) (calls ++ [(l, (q - 1) * width l, bound l (q - 1) needle)])) as (m & calls' & E & Hm & Hr & Ec); [lia | lia | |].
  { intros j Hj Hlo. replace (q - 1 - 1 - j) with (q - 1 - (j + 1)) in * by lia. replace (idx - 1 - j) with (idx - (j + 1)) by lia.
    apply Hsearch; lia. }
  exists (m + 1), calls'. replace (q - (m + 1)) with (q - 1 - m) by lia. replace (idx - (m + 1)) with (idx - 1 - m) by lia.
  split_and!; [done | lia | lia | lia |]. rewrite Ec, calls_snoc.
  pose proof (bound_count l (q - 1) Hq0) as Hbc. rewrite Z.sub_add in Hbc. rewrite Hbc by lia.
  unfold count_lt. rewrite (zcount_split _ ((q - 1 - m) * width l) ((q - 1) * width l) (q * width l)) by nia. lia.
Qed.

(** The complete runs to the right. *)
Lemma aggregate_right_ok fuel search l q idx calls :
  0 <= q -> q * width l <= upper -> upper - q * width l <= Z.of_nat fuel ->
  (forall j, 0 <= j -> (q + j + 1) * width l <= upper -> search ((q + j) * width l) (idx + j) = Some (bound l (q + j) needle)) ->
  exists m calls', aggregate_right fuel search l (width l) upper (q * width l) idx calls = Some ((q + m) * width l, idx + m, calls') /\
    0 <= m /\ (q + m) * width l <= upper < (q + m) * width l + width l /\
    zsum call_count calls' = zsum call_count calls + below (q * width l) ((q + m) * width l).
Proof.
  pose proof (run_width_pos l) as Hw. revert q idx calls.
  induction fuel as [| fuel IH]; intros q idx calls Hq0 Hq Hf Hsearch; cbn [aggregate_right];
    destruct (Z.leb_spec (width l) (upper - q * width l)) as [Hle | Hgt].
  1: lia.
  1, 3: exists 0, calls; rewrite !Z.add_0_r; unfold count_lt; rewrite zcount_nil by lia; split_and!; [done | lia..].
  pose proof (Hsearch 0 ltac:(lia)) as Hs. rewrite !Z.add_0_r in Hs. rewrite Hs by lia. cbn [mbind option_bind].
  replace (q * width l + width l) with ((q + 1) * width l) by ring.
  destruct (IH (q + 1) (idx + 1) (calls ++ [(l, q * width l, bound l q needle)])) as (m & calls' & E & Hm & Hr & Ec); [lia | lia | lia | |].
  { intros j Hj Hlo. replace (q + 1 + j) with (q + (j + 1)) in * by lia. replace (idx + 1 + j) with (idx + (j + 1)) by lia.
    apply Hsearch; lia. }
  exists (m + 1), calls'. replace (q + (m + 1)) with (q + 1 + m) by lia. replace (idx + (m + 1)) with (idx + 1 + m) by lia.
  split_and!; [done | lia | lia | lia |]. rewrite Ec, calls_snoc. rewrite (bound_count l q) by lia.
  unfold count_lt. rewrite (zcount_split _ (q * width l) ((q + 1) * width l) ((q + 1 + m) * width l)) by nia. lia.
Qed.

(** ** The levels without pointers *)

Lemma aggregate_uncascaded_ok l q1 q2 calls :
  (l <= top)%nat -> lower <= q1 * width (l - 1) -> q1 * width (l - 1) <= q2 * width (l - 1) -> q2 * width (l - 1) <= upper ->
  exists first second calls', aggregate_uncascaded t l (width l) lower upper needle (q1 * width (l - 1), q2 * width (l - 1)) calls =
      Some ((first, second), calls') /\ lower <= first <= q1 * width (l - 1) /\ q2 * width (l - 1) <= second <= upper /\
    zsum call_count calls' = zsum call_count calls + below first (q1 * width (l - 1)) + below (q2 * width (l - 1)) second.
Proof.
  revert q1 q2 calls. induction l as [| [| l] IH]; intros q1 q2 calls Hl H1 H2 H3.
  1, 2: cbn [Nat.sub] in *; exists (q1 * width 0), (q2 * width 0), calls; unfold count_lt; rewrite !zcount_nil by lia; split_and!; [done | lia..].
  cbn [aggregate_uncascaded]. replace (S (S l) - 1)%nat with (S l) in * by lia. set (l1 := S l) in *. pose proof FANOUT_ge as HF.
  pose proof (run_width_pos l1) as Hw. pose proof (run_width_pos l) as Hwl.
  assert (width (S l1) / FANOUT = width l1) as -> by (rewrite width_S; apply Z.div_mul; lia).
  rewrite (level_lookup leaves top t l1 (proj1 Ht)) by lia. cbn [mbind option_bind fst snd].
  rewrite (complete_length leaves top t Ht) by lia.
  assert (forall q, 0 <= q -> (q + 1) * width l1 <= n -> level_lower_bound (els l1) (q * width l1) (q * width l1 + width l1) needle = Some (bound l1 q needle)) as Hs.
  { intros q Hq Hle. destruct (run_interval_le l1 q Hq Hle) as [E1 E2]. replace (q * width l1 + width l1) with ((q + 1) * width l1) by ring.
    rewrite <- E1, <- E2. apply (level_lower_bound_run leaves top t Ht); [lia | done]. }
  destruct (aggregate_left_ok (length leaves) (fun run_begin _ => level_lower_bound (els l1) run_begin (run_begin + width l1) needle)
    l1 q1 0 calls) as (m1 & calls1 & -> & Hm1 & Hr1 & Ec1); [lia | lia | |].
  { intros j Hj Hlo. apply Hs; nia. }
  cbn [mbind option_bind].
  destruct (aggregate_right_ok (length leaves) (fun run_begin _ => level_lower_bound (els l1) run_begin (run_begin + width l1) needle)
    l1 q2 0 calls1) as (m2 & calls2 & -> & Hm2 & Hr2 & Ec2); [nia | lia | lia | |].
  { intros j Hj Hhi. apply Hs; [nia | lia]. }
  cbn [mbind option_bind]. replace (l1 - 1)%nat with l in IH by lia.
  assert (forall q, q * width l1 = q * FANOUT * width l) as Ew by (intros q; unfold l1; rewrite width_S; ring).
  assert ((q1 - m1) * width l1 <= q1 * width l1 /\ q2 * width l1 <= (q2 + m2) * width l1) as [Hm1' Hm2'] by nia.
  pose proof (IH ((q1 - m1) * FANOUT) ((q2 + m2) * FANOUT) calls2) as H. rewrite <- !Ew in H.
  destruct H as (first & second & calls3 & E & Hfirst & Hsecond & Ec3); [lia.. |].
  exists first, second, calls3. split; [done |]. split; [lia |]. split; [lia |]. rewrite Ec3, Ec2, Ec1. unfold count_lt.
  rewrite (zcount_split _ first ((q1 - m1) * width l1) (q1 * width l1)) by nia.
  rewrite (zcount_split _ (q2 * width l1) ((q2 + m2) * width l1) second) by nia. lia.
Qed.

(** ** The leaves *)

Lemma aggregate_leaves_ok first last :
  0 <= first <= last -> last <= n ->
  exists calls, aggregate_leaves leaves needle first last = Some calls /\ zsum call_count calls = below first last.
Proof.
  intros Hf Hl. exists ((fun p => (0%nat, p, p + Z.b2z (znth 0 leaves p <? needle))) <$> zrange first last). split.
  - apply mapM_Some, Forall2_fmap_r, Forall_Forall2_diag, Forall_forall. intros p Hp%elem_of_zrange. unfold compose.
    rewrite (zload_Some 0) by lia. done.
  - rewrite zsum_fmap. unfold count_lt. replace last with (first + Z.of_nat (Z.to_nat (last - first))) by lia.
    induction (Z.to_nat (last - first)) as [| m IH]; [by rewrite zcount_nil, zrange_nil by lia |].
    replace (first + Z.of_nat (S m)) with (first + Z.of_nat m + 1) by lia. rewrite zcount_snoc, zrange_snoc, zsum_app, IH by lia.
    unfold zsum at 1. cbn [foldr]. unfold call_count. cbn [fst snd]. lia.
Qed.

(** ** The levels with pointers *)

Lemma cascades_small l : (0 < l <= top)%nat -> CASCADING < width l -> Z.of_nat (length (cas l)) < 2 ^ 64.
Proof.
  intros Hl Hw. rewrite (level_cascades_length leaves top t Ht) by done. pose proof FANOUT_ge as HF. pose proof CASCADING_pos as HC.
  destruct l as [| l]; [lia |]. pose proof (proj2 Htop l ltac:(lia)) as Hwl. pose proof (run_width_pos l) as Hwp. rewrite width_S in *.
  set (w := width l * FANOUT) in *. assert (w <= FANOUT * n) as Hwn by nia.
  assert (1 <= w) as Hw1 by (unfold w; nia).
  assert (w / CASCADING <= w) as H1 by (apply Z.div_le_upper_bound; nia).
  assert (0 <= w / CASCADING) as H0 by (apply Z.div_pos; lia).
  assert (num_runs leaves (S l) * w <= n + w - 1) as H2.
  { unfold num_runs. rewrite width_S. fold w. pose proof (Z.mul_div_le (n + w - 1) w). lia. }
  pose proof (num_runs_nonneg leaves (S l)) as Hnn.
  assert (num_runs leaves (S l) * (w / CASCADING + 2) <= 3 * (n + w)) by nia. nia.
Qed.

(** The pointers of all children of a run are there. *)
Lemma cascade_idx_range l q x :
  (S l <= top)%nat -> 0 <= q -> q * width (S l) < n -> CASCADING < width (S l) ->
  0 <= cascade_idx leaves (S l) q x /\ cascade_idx leaves (S l) q x + FANOUT < 2 ^ 64.
Proof.
  intros Hl Hq Hlt Hw. pose proof FANOUT_ge as HF. pose proof (cascades_small (S l) ltac:(lia) Hw) as Hs.
  assert (0 <= 0 < FANOUT /\ 0 <= FANOUT - 1 < FANOUT) as [Hi0 Hi1] by lia.
  destruct (cascade_enclose leaves top t Ht l q 0 x Hl Hq Hlt Hw Hi0) as (_ & _ & H0 & _).
  destruct (cascade_enclose leaves top t Ht l q (FANOUT - 1) x Hl Hq Hlt Hw Hi1) as (_ & _ & _ & H1).
  rewrite cascade_row_index in H1. unfold cascade_idx. cbn zeta in *. lia.
Qed.

(** The cascade indices before the runs of level [l]: on the left, after the increment of
    the loop, the last child run before [q1] of the run with [lower]; on the right the
    child run [q2] of the run with [upper]. *)
Definition left_index l q1 idx : Prop :=
  lower < q1 * width l -> exists P, 0 <= P /\ P * width (S l) < n /\ P * width (S l) <= lower /\ q1 <= (P + 1) * FANOUT /\
    u64 (idx + (FANOUT - 1)) = cascade_idx leaves (S l) P needle + (q1 - P * FANOUT) - 1.

Definition right_index l q2 idx : Prop :=
  q2 * width l < upper -> exists P, 0 <= P /\ P * width (S l) < n /\ upper <= (P + 1) * width (S l) /\ P * FANOUT <= q2 /\
    idx = cascade_idx leaves (S l) P needle + (q2 - P * FANOUT).

(** The searches of a level. *)
Lemma left_search l q1 idx j :
  (S l <= top)%nat -> CASCADING < width (S l) -> left_index l q1 idx -> 0 <= j -> 0 <= q1 - 1 - j -> lower < (q1 - j) * width l ->
  cascade_search (els l) (cas (S l)) (u64 (idx + (FANOUT - 1)) - j) needle = Some (bound l (q1 - 1 - j) needle).
Proof.
  intros Hl Hw Hidx Hj Hq Hlo. pose proof (run_width_pos l). destruct Hidx as (P & HP & Hlt & HPlo & Hle & E); [nia |].
  rewrite width_S in HPlo. assert (P * FANOUT <= q1 - 1 - j) by nia. rewrite E.
  replace (cascade_idx leaves (S l) P needle + (q1 - P * FANOUT) - 1 - j) with (cascade_idx leaves (S l) P needle + (q1 - 1 - j - P * FANOUT)) by lia.
  replace (q1 - 1 - j) with (P * FANOUT + (q1 - 1 - j - P * FANOUT)) at 2 by lia.
  apply (cascade_search_run leaves top t Ht); [done.. | lia].
Qed.

Lemma right_search l q2 idx j :
  (S l <= top)%nat -> CASCADING < width (S l) -> right_index l q2 idx -> 0 <= q2 -> 0 <= j -> (q2 + j) * width l < upper ->
  cascade_search (els l) (cas (S l)) (idx + j) needle = Some (bound l (q2 + j) needle).
Proof.
  intros Hl Hw Hidx Hq Hj Hhi. pose proof (run_width_pos l). destruct Hidx as (P & HP & Hlt & HPhi & Hle & E); [nia |].
  rewrite width_S in HPhi. assert (q2 + j < (P + 1) * FANOUT) by nia. rewrite E.
  replace (cascade_idx leaves (S l) P needle + (q2 - P * FANOUT) + j) with (cascade_idx leaves (S l) P needle + (q2 + j - P * FANOUT)) by lia.
  replace (q2 + j) with (P * FANOUT + (q2 + j - P * FANOUT)) at 2 by lia.
  apply (cascade_search_run leaves top t Ht); [done.. | lia].
Qed.

(** One level: the runs, and the indices for the level below. *)
Lemma cascaded_level l q1 q2 idx1 idx2 calls :
  (S l <= top)%nat -> CASCADING < width (S l) ->
  lower <= q1 * width l -> q1 * width l <= q2 * width l -> q2 * width l <= upper ->
  left_index l q1 idx1 -> right_index l q2 idx2 ->
  let search (idx : Z) := cascade_search (els l) (cas (S l)) idx needle in
  let entry bound idx := ((idx / CASCADING + 2 * (bound / width l)) * FANOUT) in
  exists q1' q2' idx1' idx2' calls1 calls2,
    aggregate_left (length leaves) (fun _ => search) l (width l) lower (q1 * width l) (u64 (idx1 + (FANOUT - 1))) calls =
      Some (q1' * width l, idx1', calls1) /\
    aggregate_right (length leaves) (fun _ => search) l (width l) upper (q2 * width l) idx2 calls1 =
      Some (q2' * width l, idx2', calls2) /\
    lower <= q1' * width l <= q1 * width l /\ q2 * width l <= q2' * width l <= upper /\
    zsum call_count calls2 = zsum call_count calls + below (q1' * width l) (q1 * width l) + below (q2 * width l) (q2' * width l) /\
    (exists idx1'', (if negb (q1' * width l =? lower) then idx ← search idx1'; Some (entry lower idx) else Some idx1') = Some idx1'' /\
      forall l', l = S l' -> CASCADING < width l -> left_index l' (q1' * FANOUT) idx1'') /\
    (exists idx2'', (if negb (q2' * width l =? upper) then idx ← search idx2'; Some (entry upper idx) else Some idx2') = Some idx2'' /\
      forall l', l = S l' -> CASCADING < width l -> right_index l' (q2' * FANOUT) idx2'').
Proof.
  intros Hl Hw H1 H2 H3 Hleft Hright search entry. pose proof (run_width_pos l) as Hwp. pose proof FANOUT_ge as HF.
  destruct (aggregate_left_ok (length leaves) (fun _ => search) l q1 (u64 (idx1 + (FANOUT - 1))) calls)
    as (m1 & calls1 & E1 & Hm1 & Hr1 & Ec1); [lia | lia | |].
  { intros j Hj Hlo. apply left_search; try done; [nia | nia]. }
  destruct (aggregate_right_ok (length leaves) (fun _ => search) l q2 idx2 calls1) as (m2 & calls2 & E2 & Hm2 & Hr2 & Ec2);
    [nia | lia | lia | |].
  { intros j Hj Hhi. apply right_search; try done; [nia | nia]. }
  exists (q1 - m1), (q2 + m2), (u64 (idx1 + (FANOUT - 1)) - m1), (idx2 + m2), calls1, calls2.
  split; [done |]. split; [done |]. split; [nia |]. split; [nia |]. split; [lia |]. split.
  - destruct (Z.eqb_spec ((q1 - m1) * width l) lower) as [Eq | Ne]; cbn [negb].
    { eexists. split; [done |]. intros l' -> _ Hlt. rewrite width_S in Eq. lia. }
    assert (0 <= q1 - 1 - m1) as Hq0 by nia.
    assert (search (u64 (idx1 + (FANOUT - 1)) - m1) = Some (bound l (q1 - 1 - m1) needle)) as -> by (apply left_search; try done; lia).
    cbn [mbind option_bind]. eexists. split; [done |]. intros l' -> Hw' _. exists (q1 - 1 - m1).
    assert (lower / width (S l') = q1 - 1 - m1) as Ediv by (symmetry; apply Z.div_unique with (lower - (q1 - 1 - m1) * width (S l')); nia).
    split_and!; [done | nia | nia | lia |]. unfold entry. rewrite Ediv, (cascade_index leaves top) by (done || lia || nia).
    fold (cascade_idx leaves (S l') (q1 - 1 - m1) needle).
    destruct (cascade_idx_range l' (q1 - 1 - m1) needle ltac:(lia) Hq0 ltac:(nia) Hw') as [Hi0 Hi1].
    unfold u64. rewrite Z.mod_small by lia. lia.
  - destruct (Z.eqb_spec ((q2 + m2) * width l) upper) as [Eq | Ne]; cbn [negb].
    { eexists. split; [done |]. intros l' -> _ Hlt. rewrite width_S in Eq. lia. }
    assert (0 <= q2 + m2) as Hq0 by nia.
    assert (search (idx2 + m2) = Some (bound l (q2 + m2) needle)) as -> by (apply right_search; try done; [nia | lia]).
    cbn [mbind option_bind]. eexists. split; [done |]. intros l' -> Hw' _. exists (q2 + m2).
    assert (upper / width (S l') = q2 + m2) as Ediv by (symmetry; apply Z.div_unique with (upper - (q2 + m2) * width (S l')); nia).
    split_and!; [done | nia | nia | lia |]. unfold entry. rewrite Ediv, (cascade_index leaves top) by (done || lia || nia).
    fold (cascade_idx leaves (S l') (q2 + m2) needle). lia.
Qed.

Lemma aggregate_cascaded_ok s l q1 q2 idx1 idx2 calls :
  (S l <= top)%nat -> (s <= l)%nat -> (forall l', (l - s <= l' <= l)%nat -> CASCADING < width (S l')) ->
  lower <= q1 * width l -> q1 * width l <= q2 * width l -> q2 * width l <= upper ->
  left_index l q1 idx1 -> right_index l q2 idx2 ->
  exists r1 r2 calls', aggregate_cascaded (S s) t (S l) (width (S l)) lower upper needle (q1 * width l, q2 * width l) (idx1, idx2) calls =
      Some ((r1 * width (l - s), r2 * width (l - s)), calls') /\
    lower <= r1 * width (l - s) <= q1 * width l /\ q2 * width l <= r2 * width (l - s) <= upper /\
    zsum call_count calls' = zsum call_count calls + below (r1 * width (l - s)) (q1 * width l) + below (q2 * width l) (r2 * width (l - s)).
Proof.
  pose proof FANOUT_ge as HF. revert l q1 q2 idx1 idx2 calls. induction s as [| s IH]; intros l q1 q2 idx1 idx2 calls Hl Hs Hw H1 H2 H3 Hleft Hright.
  all: destruct (cascaded_level l q1 q2 idx1 idx2 calls Hl (Hw l ltac:(lia)) H1 H2 H3 Hleft Hright)
    as (q1' & q2' & idx1' & idx2' & calls1 & calls2 & E1 & E2 & Hr1 & Hr2 & Ec & (i1 & Ei1 & Hi1) & (i2 & Ei2 & Hi2)).
  all: assert (width (S l) / FANOUT = width l) as Ew by (rewrite width_S; apply Z.div_mul; lia).
  2: remember (S s) as s1 eqn:Es1.
  all: cbn [aggregate_cascaded]; rewrite Ew.
  all: rewrite (level_lookup leaves top t l (proj1 Ht)), (level_lookup leaves top t (S l) (proj1 Ht)) by lia;
    cbn [mbind option_bind fst snd]; rewrite (complete_length leaves top t Ht) by lia; rewrite E1; cbn [mbind option_bind];
    rewrite Ei1; cbn [mbind option_bind]; rewrite E2; cbn [mbind option_bind]; rewrite Ei2; cbn [mbind option_bind].
  - rewrite Nat.sub_0_r. exists q1', q2', calls2. by destruct l.
  - subst s1. destruct l as [| l]; [lia |]. pose proof (run_width_pos l). rewrite !width_S in *.
    replace (q1' * (width l * FANOUT)) with (q1' * FANOUT * width l) in * by ring.
    replace (q2' * (width l * FANOUT)) with (q2' * FANOUT * width l) in * by ring. rewrite <- (width_S l).
    destruct (IH l (q1' * FANOUT) (q2' * FANOUT) i1 i2 calls2) as (r1 & r2 & calls' & E & Hr1' & Hr2' & Ec'); try lia.
    + intros l' Hl'. apply Hw. lia.
    + apply Hi1; [done |]. rewrite <- width_S. apply (Hw l). lia.
    + apply Hi2; [done |]. rewrite <- width_S. apply (Hw l). lia.
    + exists r1, r2, calls'. change (S l - S s)%nat with (l - s)%nat. rewrite E, ?width_S. split; [done |]. split; [lia |]. split; [lia |].
      rewrite Ec', Ec. unfold count_lt.
      rewrite (zcount_split _ (r1 * width (l - s)) (q1' * FANOUT * width l) (q1 * (width l * FANOUT))) by lia.
      rewrite (zcount_split _ (q2 * (width l * FANOUT)) (q2' * FANOUT * width l) (r2 * width (l - s))) by lia. lia.
Qed.

(** ** The entry point *)

Lemma entry_point_ok fuel l :
  lower < upper -> (l <= top)%nat -> (top - l < fuel)%nat -> lower / width l < (upper - 1) / width l ->
  exists p, (l <= p < top)%nat /\ entry_point fuel (lower / width l) ((upper - 1) / width l) l (width l) =
      Some (lower / width (S p), (upper - 1) / width p, S p, width (S p)) /\
    lower / width (S p) = (upper - 1) / width (S p) /\ lower / width p < (upper - 1) / width p.
Proof.
  intros Hlt. revert l. pose proof FANOUT_ge as HF.
  induction fuel as [| fuel IH]; intros l Hl Hf Hne; [lia |]. cbn [entry_point]. pose proof (run_width_pos l) as Hw.
  assert (l < top)%nat as Hl'.
  { destruct (decide (l = top)) as [-> |]; [| lia]. destruct Htop as [H1 _]. rewrite !Z.div_small in Hne by lia. lia. }
  rewrite !Z.div_div by lia. rewrite <- width_S. destruct (Z.eqb_spec (lower / width (S l)) ((upper - 1) / width (S l))) as [E | Ne].
  - exists l. rewrite <- E. split_and!; [lia | lia | done | done | done].
  - destruct (IH (S l) ltac:(lia) ltac:(lia)) as (p & Hp & E & Hp1 & Hp2).
    + pose proof (run_width_pos (S l)). pose proof (Z.div_le_mono lower (upper - 1) (width (S l))). lia.
    + exists p. split; [lia |]. done.
Qed.

(** What is below the needle on both sides of a part of the range, and in the part. *)
Lemma aggregate_end first second calls :
  lower <= first <= second -> second <= upper -> zsum call_count calls = below first second ->
  exists calls', (left ← aggregate_leaves leaves needle lower first; right ← aggregate_leaves leaves needle second upper;
      Some (calls ++ left ++ right)) = Some calls' /\ zsum call_count calls' = below lower upper.
Proof.
  intros H1 H2 Ec. destruct (aggregate_leaves_ok lower first) as (left & -> & E1); [lia | lia |].
  destruct (aggregate_leaves_ok second upper) as (right & -> & E2); [lia | lia |]. cbn [mbind option_bind].
  eexists. split; [done |]. rewrite !zsum_app, Ec, E1, E2. unfold count_lt.
  rewrite (zcount_split _ lower first upper), (zcount_split _ first second upper) by lia. lia.
Qed.

(** The levels with pointers, from the run that has the whole range. *)
Lemma aggregate_entry p run prev :
  (S p <= top)%nat -> 0 <= run -> run * width (S p) <= lower -> upper <= (run + 1) * width (S p) ->
  lower < prev * width p < upper ->
  exists level r1 r2 calls,
    (if (LowestCascadingLevel <? S p)%nat then
       data ← t !! S p;
       let entry_first := run * width (S p) in
       let entry_second := Z.min (entry_first + width (S p)) n in
       entry_idx ← level_lower_bound (fst data) entry_first entry_second needle;
       let idx := (entry_idx / CASCADING + 2 * (entry_first / width (S p))) * FANOUT in
       let correction := prev - run * FANOUT in
       let steps := (S (S p) - LowestCascadingLevel)%nat in
       '(curr, calls) ← aggregate_cascaded steps t (S p) (width (S p)) lower upper needle (prev * width p, prev * width p)
         (u64 (idx - (FANOUT - correction)), idx + correction) [];
       Some (curr, calls, (S p - steps)%nat, width (S p) / FANOUT ^ Z.of_nat steps)
     else Some ((prev * width p, prev * width p), [], S p, width (S p))) =
    Some ((r1 * width (level - 1), r2 * width (level - 1)), calls, level, width level) /\
    (level <= S p)%nat /\ lower <= r1 * width (level - 1) <= r2 * width (level - 1) /\ r2 * width (level - 1) <= upper /\
    zsum call_count calls = below (r1 * width (level - 1)) (r2 * width (level - 1)).
Proof.
  intros Hp Hrun Hlo Hhi Hmid. pose proof FANOUT_ge as HF. pose proof (run_width_pos p) as Hwp. destruct (LowestCascadingLevel_ok leaves) as (Hmin & Hw & _).
  destruct (Nat.ltb_spec LowestCascadingLevel (S p)) as [Hc | Hc].
  2: { exists (S p), prev, prev, []. replace (S p - 1)%nat with p by lia. unfold count_lt. rewrite zcount_nil by lia. split_and!; (done || lia). }
  rewrite (level_lookup leaves top t (S p) (proj1 Ht)) by done. cbn [mbind option_bind fst]. cbn zeta.
  assert (forall l, (LowestCascadingLevel <= l)%nat -> CASCADING < width l) as Hwide.
  { intros l Hl. assert (width LowestCascadingLevel <= width l); [| lia]. unfold width. apply Z.pow_le_mono_r; lia. }
  assert (run * width (S p) < n) as Hrunlt by lia.
  assert (run_begin (S p) run = run * width (S p)) as Eb by (apply run_begin_small; lia).
  assert (run_begin (S p) (run + 1) = Z.min (run * width (S p) + width (S p)) n) as Ee by (unfold MergeSortRuns.run_begin; f_equal; ring).
  rewrite <- Ee, <- Eb, (level_lower_bound_run leaves top t Ht) by done. cbn [mbind option_bind]. rewrite Eb.
  rewrite Z.div_mul by (pose proof (run_width_pos (S p)); lia).
  rewrite (cascade_index leaves top (S p)) by (done || lia || (apply Hwide; lia)). fold (cascade_idx leaves (S p) run needle).
  pose proof (Hwide (S p) ltac:(lia)) as HwS. destruct (cascade_idx_range p run needle Hp Hrun Hrunlt HwS) as [Hi0 Hi1].
  set (idx := cascade_idx leaves (S p) run needle) in *. rewrite width_S in Hlo, Hhi, Hrunlt.
  assert (run * FANOUT < prev < (run + 1) * FANOUT) as Hprev by nia.
  assert (S (S p) - LowestCascadingLevel = S (S p - LowestCascadingLevel))%nat as -> by lia.
  destruct (aggregate_cascaded_ok (S p - LowestCascadingLevel) p prev prev (u64 (idx - (FANOUT - (prev - run * FANOUT))))
    (idx + (prev - run * FANOUT)) []) as (r1 & r2 & calls & E & Hr1 & Hr2 & Ec); try lia.
  - intros l' Hl'. apply Hwide. lia.
  - intros _. exists run. rewrite width_S. split_and!; [done | lia | lia | lia |]. fold idx. unfold u64.
    rewrite Zplus_mod_idemp_l, Z.mod_small by lia. lia.
  - intros _. exists run. rewrite width_S. split_and!; [done | lia | lia | lia |]. fold idx. done.
  - rewrite E. cbn [mbind option_bind].
    assert (S p - S (S p - LowestCascadingLevel) = p - (S p - LowestCascadingLevel))%nat as -> by lia.
    set (l := (p - (S p - LowestCascadingLevel))%nat) in *.
    assert (width (S p) / FANOUT ^ Z.of_nat (S (S p - LowestCascadingLevel)) = width l) as ->.
    { unfold width. rewrite <- Z.pow_sub_r by lia. f_equal. lia. }
    assert (exists d, width l = d * width (l - 1)) as [d Ed].
    { destruct l as [| l']; [exists 1; cbn [Nat.sub]; lia | exists FANOUT; replace (S l' - 1)%nat with l' by lia; rewrite width_S; ring]. }
    exists l, (r1 * d), (r2 * d), calls. rewrite <- !Z.mul_assoc, <- Ed. split_and!; [done | lia | lia | lia | lia |].
    rewrite Ec. unfold count_lt.
    rewrite (zcount_split _ (r1 * width l) (prev * width p) (r2 * width l)) by lia. cbn [zsum foldr]. lia.
Qed.

Lemma AggregateLowerBound_count :
  exists calls, AggregateLowerBound t lower upper needle = Some calls /\ zsum call_count calls = below lower upper.
Proof.
  unfold AggregateLowerBound. destruct (Z.leb_spec upper lower) as [Hle | Hlt].
  { exists []. unfold count_lt. by rewrite zcount_nil by lia. }
  rewrite LowestLevel_level, (proj1 (proj2 (proj1 Ht))). destruct (LowestCascadingLevel_ok leaves) as (Hmin & Hw & _).
  destruct (Z.ltb_spec (Z.of_nat (length leaves)) upper); [lia |]. cbn [mbind option_bind].
  destruct (Z.eqb_spec lower (upper - 1)) as [Eq | Ne]; cbn [mbind option_bind].
  - rewrite (proj2 (Nat.ltb_ge LowestCascadingLevel 0)) by lia. cbn [mbind option_bind aggregate_uncascaded fst snd].
    apply aggregate_end; [lia | lia |]. unfold count_lt. by rewrite zcount_nil by lia.
  - destruct (entry_point_ok (length t) 0 Hlt) as (p & Hp & E & Erun & Hprev); rewrite ?(proj1 (proj1 Ht)), ?width_0, ?Z.div_1_r in *; [lia | lia | lia |].
    rewrite E. cbn [mbind option_bind]. pose proof FANOUT_ge as HF. pose proof (run_width_pos p) as Hwp. pose proof (run_width_pos (S p)) as HwS.
    set (run := lower / width (S p)) in *. set (prev := (upper - 1) / width p) in *.
    assert (prev * width (S p) / FANOUT = prev * width p) as ->.
    { rewrite width_S, Z.mul_assoc. apply Z.div_mul. lia. }
    assert (0 < width p /\ 0 < width (S p)) as [Hwp0 HwS0] by lia.
    pose proof (Z.mul_div_le (upper - 1) (width p) Hwp0) as Hprev1. fold prev in Hprev1.
    pose proof (Z.mul_succ_div_gt lower (width p) Hwp0) as Hprev2.
    pose proof (Z.mul_div_le lower (width (S p)) HwS0) as Hrun1. fold run in Hrun1.
    pose proof (Z.mul_succ_div_gt (upper - 1) (width (S p)) HwS0) as Hrun2. rewrite <- Erun in Hrun2.
    destruct (aggregate_entry p run prev) as (level & r1 & r2 & calls & E' & Hlevel & Hr & Hr2 & Ec);
      [lia | apply Z.div_pos; lia | lia | lia | nia |].
    cbn zeta in E'. rewrite E'. cbn [mbind option_bind].
    destruct (aggregate_uncascaded_ok level r1 r2 calls) as (first & second & calls' & Eu & Hf & Hs & Eu2); [lia | lia | lia | lia |].
    rewrite Eu. cbn [mbind option_bind fst snd]. apply aggregate_end; [lia | lia |]. rewrite Eu2, Ec. unfold count_lt.
    rewrite (zcount_split _ first (r1 * width (level - 1)) second) by lia.
    rewrite (zcount_split _ (r1 * width (level - 1)) (r2 * width (level - 1)) second) by lia. lia.
Qed.
End aggregate.
