(* ===== verification/WindowTrees.v ===== *)
(** * Trees of argument orders

    WindowMergeSortTree of function/window/window_merge_sort_tree.cpp with its two kinds,
    window_index_tree.cpp and window_token_tree.cpp: threads sort the rows by the argument
    order in stages, fill the leaves of a merge sort tree - with the row numbers in the
    sorted order, or with the tokens (dense ranks) of the rows - and build it.

    The sort is used through the interface of Sort ([SortOps]); the chunks it gives at the end
    are the parameter [materialize].  A row of the sort is its key columns and its index, which
    has the width of the tree: INTEGER, that is 31 bits and a sign, or BIGINT. *)

From S2P Require Import Prelude Validity MaskSearch Boundaries RangeSearch Aggregates WindowMasks WindowValue Rank Sort MergeSortTree.

Inductive WindowMergeSortStage : Set := INIT | COMBINE | FINALIZE | SORTED | FINISHED.

#[export] Instance WindowMergeSortStage_dec : EqDecision WindowMergeSortStage.
Proof. solve_decision. Defined.

(** The classes: WindowIndexTree, and WindowTokenTree, which may order equal rows by their
    index ([unique]). *)
Inductive TreeKind : Set := IndexLeaves | TokenLeaves (key_cols : nat) (unique : bool).

(** The constructor: the width of the indices and of the tree, and the columns of the keys. *)
Definition tree_traits (count : Z) (force_external : bool) : MergeSortTraits :=
  if (count <? 2 ^ 32 - 1) && negb force_external then MergeSortTree32 else MergeSortTree64.

Definition key_cols_size (orders : nat) (unique : bool) : nat := (orders + Nat.b2n unique)%nat.

Section trees.
Context {V : Type} (distinct_from : V -> V -> bool) (index_value : Z -> V).
Context {traits : MergeSortTraits}.
Abbreviation SortRow := (list V * Z)%type.
Abbreviation SortedChunks := (list (list SortRow)).
Context (ops : SortOps SortRow) (materialize : GSink ops -> SortedChunks).

(** ** Sinking rows *)

(** The index column is INTEGER for a tree of 32 bits and BIGINT for one of 64: the largest
    number it holds, and the conversion to its type. *)
Definition index_maximum : Z := 2 ^ (element_bits - 1) - 1.

Definition index_wrap (z : Z) : Z := (z + 2 ^ (element_bits - 1)) mod 2 ^ element_bits - 2 ^ (element_bits - 1).

(** [TemplatedGenerateSequence] with the increment 1, which the sort runs when it reads the
    sequence vector; [None] is its exception for a start outside the type. *)
Definition GenerateSequence (start : Z) (count : nat) : option (list Z) :=
  if index_maximum <? start then None
  else Some ((fun i => index_wrap (start + Z.of_nat i)) <$> seq 0 count).

(** [WindowMergeSortTreeLocalState::Sink]: the chunk with the indices of its rows, sliced by FILTER. *)
Definition sort_chunk (order_columns : list (list V)) (row_idx : Z) (filter_sel : option (list nat)) : option (list SortRow) :=
  indices ← GenerateSequence (i64 row_idx) (length order_columns);
  let rows := zip order_columns indices in
  match filter_sel with
  | None => Some rows
  | Some sel => mapM (fun i => rows !! i) sel
  end.

Definition tree_Sink (env : Env ops) (global : GSink ops) (local : LSink ops) (order_columns : list (list V)) (row_idx : Z)
    (filter_sel : option (list nat)) : option (GSink ops * LSink ops) :=
  rows ← sort_chunk order_columns row_idx filter_sel;
  sort_sink ops env global local rows.

(** ** The state *)

Record WindowMergeSortTree : Type := mkSortTree {
  build_stage : WindowMergeSortStage;
  total_tasks : nat;
  tasks_assigned : nat;
  tasks_completed : nat;
  global_sink : option (GSink ops);
  local_sinks : list (LSink ops);
  sorted : option SortedChunks;
  mst : option MergeSortTree;
  deltas : list Z
}.

Definition set_mst (m : MergeSortTree) (g : WindowMergeSortTree) : WindowMergeSortTree :=
  mkSortTree (build_stage g) (total_tasks g) (tasks_assigned g) (tasks_completed g) (global_sink g) (local_sinks g) (sorted g) (Some m) (deltas g).

Definition set_deltas (deltas : list Z) (g : WindowMergeSortTree) : WindowMergeSortTree :=
  mkSortTree (build_stage g) (total_tasks g) (tasks_assigned g) (tasks_completed g) (global_sink g) (local_sinks g) (sorted g) (mst g) deltas.

Definition WindowMergeSortTree_new (global : GSink ops) (locals : list (LSink ops)) : WindowMergeSortTree :=
  mkSortTree INIT 0 0 0 (Some global) locals None None [].

(** A new stage with its first task. *)
Definition next_stage (stage : WindowMergeSortStage) (tasks : nat) (g : WindowMergeSortTree) : WindowMergeSortTree :=
  mkSortTree stage tasks 1 0 (global_sink g) (local_sinks g) (sorted g) (mst g) (deltas g).

Definition assign_task (g : WindowMergeSortTree) : WindowMergeSortTree :=
  mkSortTree (build_stage g) (total_tasks g) (S (tasks_assigned g)) (tasks_completed g) (global_sink g) (local_sinks g) (sorted g) (mst g) (deltas g).

(** Threads sink chunks one after the other: the thread, what the environment decides, the columns of the
    argument order, the number of the first row and the selection of FILTER. *)
Record SinkCall : Type := mkSinkCall {
  sink_thread : nat;
  sink_env : Env ops;
  sink_columns : list (list V);
  sink_row_idx : Z;
  sink_filter : option (list nat)
}.

Definition tree_sink_step (s : GSink ops * list (LSink ops)) (call : SinkCall) : option (GSink ops * list (LSink ops)) :=
  local ← snd s !! sink_thread call;
  '(global, local) ← tree_Sink (sink_env call) (fst s) local (sink_columns call) (sink_row_idx call) (sink_filter call);
  Some (global, <[sink_thread call := local]> (snd s)).

(** Each thread has made its local state. *)
Definition run_tree_sinks (threads : nat) (calls : list SinkCall) : option (GSink ops * list (LSink ops)) :=
  ofold tree_sink_step (sort_global_new ops, replicate threads (sort_local_new ops)) calls.

(** ** Leaves *)

(** [block_begin] and [block_end] of a task. *)
Definition task_blocks (collection : SortedChunks) (tasks task : nat) : nat * nat :=
  (Nat.div (task * length collection) tasks, Nat.div ((task + 1) * length collection) tasks).

(** The columns of the indices and of the keys of a collection. *)
Definition index_column (chunks : SortedChunks) : list (list (list Z)) := (fun chunk : list SortRow => (fun r => [snd r]) <$> chunk) <$> chunks.

Definition key_columns (unique : bool) (chunks : SortedChunks) : list (list (list V)) :=
  (fun chunk : list SortRow => (fun r => fst r ++ (if unique then [index_value (snd r)] else [])) <$> chunk) <$> chunks.

Definition store_index (i : Z) : Z := i mod 2 ^ element_bits.

(** [std::copy] of a chunk into the leaves. *)
Definition copy_indices (leaves : list Z) (row_idx : Z) (chunk : list (list Z)) : option (list Z) :=
  fst <$> ofold (fun '(leaves, i) row => v ← head row; leaves ← zstore leaves i (store_index v); Some (leaves, i + 1))
    (leaves, row_idx) chunk.

(** [for (auto block_curr = block_begin; block_curr < block_end; ++block_curr)] *)
Fixpoint copy_index_blocks (blocks : nat) (chunks : list (list (list Z))) (s : Scanner) (row_idx : Z) (leaves : list Z) : option (list Z) :=
  match blocks with
  | O => Some leaves
  | S blocks =>
      match Scan chunks s with
      | (None, _) => Some leaves
      | (Some chunk, s) =>
          if (length chunk =? 0)%nat then Some leaves
          else
            leaves ← copy_indices leaves row_idx chunk;
            copy_index_blocks blocks chunks s (row_idx + Z.of_nat (length chunk)) leaves
      end
  end.

(** [WindowIndexTreeLocalState::BuildLeaves] *)
Definition IndexBuildLeaves (g : WindowMergeSortTree) (task : nat) : option WindowMergeSortTree :=
  collection ← sorted g;
  if (length (mjoin collection) =? 0)%nat then Some g
  else
    m ← mst g;
    let '(block_begin, block_end) := task_blocks collection (total_tasks g) task in
    let chunks := index_column collection in
    let scanner := ScannerAt chunks block_begin in
    leaves ← copy_index_blocks (block_end - block_begin) chunks scanner (Scanned scanner) (LowestLevel (tree m));
    Some (set_mst (with_leaves leaves m) g).

(** The operation of the delta scanner. *)
Definition store_deltas (deltas : list Z) (call : DeltaCall V) : option (list Z) :=
  let ndistinct := length (call_distinct call) in
  let count := (length (call_prev call) `min` length (call_curr call))%nat in
  deltas ← ofold (fun deltas j => scan_idx ← call_matching call !! j; zstore deltas (Z.of_nat scan_idx + call_row call) 0) deltas
    (seq 0 (count - ndistinct));
  ofold (fun deltas j => scan_idx ← call_distinct call !! j; zstore deltas (Z.of_nat scan_idx + call_row call) 1) deltas (seq 0 ndistinct).

(** [WindowTokenTreeLocalState::BuildLeaves] *)
Definition TokenBuildLeaves (key_count : nat) (unique : bool) (g : WindowMergeSortTree) (task : nat) : option WindowMergeSortTree :=
  collection ← sorted g;
  let '(block_begin, block_end) := task_blocks collection (total_tasks g) task in
  deltas ← (if (block_begin =? 0)%nat then zstore (deltas g) 0 0 else Some (deltas g));
  calls ← WindowDeltaScanner distinct_from (key_columns unique collection) block_begin block_end (key_cols_size key_count unique);
  deltas ← ofold store_deltas deltas calls;
  Some (set_deltas deltas g).

Definition BuildLeaves (kind : TreeKind) (g : WindowMergeSortTree) (task : nat) : option WindowMergeSortTree :=
  match kind with
  | IndexLeaves => IndexBuildLeaves g task
  | TokenLeaves key_cols unique => TokenBuildLeaves key_cols unique g task
  end.

(** [BuildTokens]: the loop over the deltas. *)
Fixpoint build_tokens (chunks : list (list (list Z))) (deltas : list Z) (s : Scanner) (payload_chunk : list (list Z)) (i : nat)
    (token : Z) (tokens : list Z) : option (list Z) :=
  match deltas with
  | [] => Some tokens
  | d :: deltas =>
      let '(scanned, s) := if (length payload_chunk <=? i)%nat then Scan chunks s else (Some payload_chunk, s) in
      match scanned with
      | None => Some tokens
      | Some chunk =>
          let i := if (length payload_chunk <=? i)%nat then 0%nat else i in
          let token := (token + d) mod 2 ^ element_bits in
          row ← chunk !! i;
          row_idx ← head row;
          tokens ← zstore tokens (store_index row_idx) token;
          build_tokens chunks deltas s chunk (S i) token tokens
      end
  end.

Definition BuildTokens (g : WindowMergeSortTree) (tokens : list Z) : option (list Z) :=
  collection ← sorted g;
  if (length (mjoin collection) =? 0)%nat then Some tokens
  else
    let chunks := index_column collection in
    build_tokens chunks (deltas g) (ScannerAt chunks 0) [] 0 0 tokens.

(** [MeasurePayloadBlocks] of both classes. *)
Definition MeasurePayloadBlocks (kind : TreeKind) (g : WindowMergeSortTree) : option WindowMergeSortTree :=
  collection ← sorted g;
  let count := length (mjoin collection) in
  m ← Allocate (Z.of_nat count);
  let g := set_mst m g in
  Some (match kind with IndexLeaves => g | TokenLeaves _ _ => set_deltas (replicate count 0) g end).

(** [Finished] of both classes. *)
Definition Finished (kind : TreeKind) (g : WindowMergeSortTree) : option WindowMergeSortTree :=
  g ← match kind with
      | IndexLeaves => Some g
      | TokenLeaves _ _ =>
          m ← mst g;
          tokens ← BuildTokens g (LowestLevel (tree m));
          Some (set_deltas [] (set_mst (with_leaves tokens m) g))
      end;
  Some (mkSortTree (build_stage g) (total_tasks g) (tasks_assigned g) (tasks_completed g) None [] None (mst g) (deltas g)).

(** ** The stages *)

(** The new state, and the stage and the number of the task if there is one. *)
Definition TryPrepareSortStage (kind : TreeKind) (g : WindowMergeSortTree)
    : option (WindowMergeSortTree * option (WindowMergeSortStage * nat)) :=
  match build_stage g with
  | INIT => Some (next_stage COMBINE (length (local_sinks g)) g, Some (COMBINE, 0%nat))
  | COMBINE =>
      if (tasks_assigned g <? total_tasks g)%nat then Some (assign_task g, Some (COMBINE, tasks_assigned g))
      else if (tasks_completed g <? tasks_assigned g)%nat then Some (g, None)
      else Some (next_stage FINALIZE 1 g, Some (FINALIZE, 0%nat))
  | FINALIZE =>
      if (tasks_completed g <? tasks_assigned g)%nat then Some (g, None)
      else
        g ← MeasurePayloadBlocks kind g;
        Some (next_stage SORTED (length (local_sinks g)) g, Some (SORTED, 0%nat))
  | SORTED =>
      if (tasks_assigned g <? total_tasks g)%nat then Some (assign_task g, Some (SORTED, tasks_assigned g))
      else if (tasks_completed g <? tasks_assigned g)%nat then Some (g, None)
      else
        g ← Finished kind g;
        Some (mkSortTree FINISHED (total_tasks g) (tasks_assigned g) (tasks_completed g) (global_sink g) (local_sinks g) (sorted g)
          (mst g) (deltas g), Some (FINISHED, 0%nat))
  | FINISHED => Some (g, Some (FINISHED, 0%nat))
  end.

Definition ExecuteSortTask (kind : TreeKind) (env : Env ops) (g : WindowMergeSortTree) (stage : WindowMergeSortStage) (task : nat)
    : option WindowMergeSortTree :=
  match stage with
  | COMBINE =>
      local_sink ← local_sinks g !! task;
      global ← global_sink g;
      global ← sort_combine ops env global local_sink;
      Some (mkSortTree (build_stage g) (total_tasks g) (tasks_assigned g) (tasks_completed g) (Some global) (local_sinks g) (sorted g)
        (mst g) (deltas g))
  | FINALIZE =>
      global ← global_sink g;
      let global := sort_finalize ops global in
      Some (mkSortTree (build_stage g) (total_tasks g) (tasks_assigned g) (tasks_completed g) (Some global) (local_sinks g)
        (Some (materialize global)) (mst g) (deltas g))
  | SORTED => BuildLeaves kind g task
  | _ => Some g
  end.

(** ** Threads

    A thread in [Finalize]: at the test of the loop, at the lock, in its task, and at the
    increment at the end of [ExecuteSortTask]; then in [Build].  The tasks of a stage that run at the
    same time write different rows (or the same value), so each is one step; the steps of
    the combining threads of a sort are those of SortInvariant. *)
Inductive SortTreeThread : Set :=
  | FinalizeLoop
  | FinalizePrepare
  | FinalizeTask (stage : WindowMergeSortStage) (task : nat)
  | FinalizeCompleted
  | Building (builder : TreeBuilder).

Definition sort_tree_thread_step (kind : TreeKind) (garbage : RunElement) (env : Env ops) (g : WindowMergeSortTree) (th : SortTreeThread)
    : option (WindowMergeSortTree * SortTreeThread) :=
  match th with
  | FinalizeLoop => Some (g, if decide (build_stage g = FINISHED) then Building AtLoop else FinalizePrepare)
  | FinalizePrepare =>
      '(g, task) ← TryPrepareSortStage kind g;
      Some (g, match task with Some (stage, task) => FinalizeTask stage task | None => FinalizeLoop end)
  | FinalizeTask stage task => g ← ExecuteSortTask kind env g stage task; Some (g, FinalizeCompleted)
  | FinalizeCompleted =>
      Some (mkSortTree (build_stage g) (total_tasks g) (tasks_assigned g) (S (tasks_completed g)) (global_sink g) (local_sinks g)
        (sorted g) (mst g) (deltas g), FinalizeLoop)
  | Building builder =>
      m ← mst g;
      '(m, builder) ← build_thread_step garbage m builder;
      Some (set_mst m g, Building builder)
  end.

Definition SortTreeSystem : Type := WindowMergeSortTree * list SortTreeThread.

Definition sort_tree_step (kind : TreeKind) (garbage : RunElement) (s : SortTreeSystem) (turn : nat * Env ops) : option SortTreeSystem :=
  match snd s !! fst turn with
  | None => Some s
  | Some th => '(g, th) ← sort_tree_thread_step kind garbage (snd turn) (fst s) th; Some (g, <[fst turn := th]> (snd s))
  end.

Definition run_sort_tree (kind : TreeKind) (garbage : RunElement) (global : GSink ops) (locals : list (LSink ops)) (threads : nat)
    (schedule : list (nat * Env ops)) : option SortTreeSystem :=
  ofold (sort_tree_step kind garbage) (WindowMergeSortTree_new global locals, replicate threads FinalizeLoop) schedule.
End trees.

(** ** Searching the trees *)

Section search.
Context {traits : MergeSortTraits}.
Implicit Types t : Tree.

Definition NthElement t (i : Z) : option Z := zload (LowestLevel t) i.

(** [WindowIndexTree::SelectNth] *)
Definition IndexTree_SelectNth t (frames : list FrameBounds) (n : Z) : option (Z * Z) :=
  nth ← SelectNthElement t frames n;
  if negb (snd nth =? 0) then Some nth else leaf ← NthElement t (fst nth); Some (leaf, 0).

Definition TokenRank t (lower upper row_idx : Z) : option Z :=
  needle ← zload (LowestLevel t) row_idx;
  calls ← AggregateLowerBound t lower upper needle;
  Some (foldl (fun rank (call : AggregateCall) => u64 (rank + (snd call - snd (fst call)))) 1 calls).

Definition NextPeer t (lower upper row_idx : Z) : option Z :=
  needle ← (fun token => (token + 1) mod 2 ^ element_bits) <$> zload (LowestLevel t) row_idx;
  calls ← AggregateLowerBound t lower upper needle;
  Some (foldl (fun idx (call : AggregateCall) => u64 (idx + (snd call - snd (fst call)))) lower calls).

(** The trees that the functions use. *)
Definition index_tree t : WindowIndexTree := mkIndexTree (IndexTree_SelectNth t).

Definition token_tree_of t : WindowTokenTree :=
  mkTree (fun lower upper row_idx => default 0 (TokenRank t lower upper row_idx))
    (fun lower upper row_idx => default 0 (NextPeer t lower upper row_idx)).
End search.
