(* ===== verification/WindowTreesInvariant.v ===== *)
(** * Trees of argument orders: proofs

    What the tasks write into the leaves and the deltas, the invariant of the threads
    that sort, fill and build a tree, and what the finished trees give the functions: the
    n-th row of a frame in the argument order, the rank of a row among the rows of its frame
    and the end of its peers. *)

From S2P Require Import Prelude Validity MaskSearch Boundaries RangeSearch Aggregates WindowMasks WindowMasksInvariant WindowValue Rank Sort MergeSortTree MergeSortGames MergeSortRuns MergeSortBuild MergeSortThreads MergeSortSearch MergeSortAggregate WindowTrees.

(** ** Arrays *)

(** [l'] is [l] with [exp] written to [[a, b)]. *)
Definition written (a b : Z) (exp : Z -> Z) (l l' : list Z) : Prop :=
  length l' = length l /\ forall p, 0 <= p -> znth 0 l' p = if decide (a <= p < b) then exp p else znth 0 l p.

Lemma written_nil a exp l : written a a exp l l.
Proof. split; [done |]. intros p Hp. by rewrite decide_False by lia. Qed.

Lemma written_app a m b exp l l' l'' : a <= m <= b -> written a m exp l l' -> written m b exp l' l'' -> written a b exp l l''.
Proof.
  intros Hm [H1 H2] [H3 H4]. split; [congruence |]. intros p Hp. rewrite H4, H2 by done. repeat case_decide; try done; lia.
Qed.

Lemma written_ext a b exp exp' l l' :
  (forall p, a <= p < b -> exp p = exp' p) -> written a b exp l l' -> written a b exp' l l'.
Proof. intros He [H1 H2]. split; [done |]. intros p Hp. rewrite H2 by done. case_decide; [by apply He | done]. Qed.

(** A loop over a selection that stores one value. *)
Lemma store_selection (sel : list nat) (k : nat) (row v : Z) (l : list Z) :
  k = length sel -> 0 <= row -> (forall j, j ∈ sel -> row + Z.of_nat j < Z.of_nat (length l)) ->
  exists l', ofold (fun l j => idx ← sel !! j; zstore l (Z.of_nat idx + row) v) l (seq 0 k) = Some l' /\ length l' = length l /\
    forall p, 0 <= p -> znth 0 l' p = if decide (row <= p /\ Z.to_nat (p - row) ∈ sel) then v else znth 0 l p.
Proof.
  intros -> Hrow Hsel.
  destruct (ofold_seq_inv (fun l j => idx ← sel !! j; zstore l (Z.of_nat idx + row) v)
    (fun i l' => length l' = length l /\ forall p, 0 <= p ->
      znth 0 l' p = if decide (row <= p /\ Z.to_nat (p - row) ∈ take i sel) then v else znth 0 l p) (length sel) l)
    as (l' & E & H1 & H2).
  - split; [done |]. intros p Hp. rewrite decide_False; [done |]. rewrite take_0. intros [_ H]. by apply not_elem_of_nil in H.
  - intros i l1 Hi [H1 H2]. destruct (lookup_lt_is_Some_2 sel i Hi) as [j Hj]. rewrite Hj. cbn [mbind option_bind].
    pose proof (Hsel j (list_elem_of_lookup_2 _ _ _ Hj)). rewrite zstore_Some by lia. eexists. split; [done |].
    rewrite length_insert. split; [done |]. intros p Hp. rewrite znth_insert, H2 by lia.
    rewrite (take_S_r _ _ _ Hj). destruct (decide (p = Z.of_nat j + row)) as [-> | Hne].
    + rewrite !decide_True; [done | | lia]. split; [lia |]. apply elem_of_app. right. apply list_elem_of_singleton. lia.
    + rewrite decide_False by lia. apply decide_ext. rewrite elem_of_app, list_elem_of_singleton.
      split; [intros [? ?]; by split; [| left] | intros [? [? | ?]]; [done | lia]].
  - exists l'. rewrite take_ge in H2 by lia. done.
Qed.

(** ** Collections *)

Definition chunk_start {A} (chunks : list (list A)) (b : nat) : Z := Z.of_nat (length (mjoin (take b chunks))).

Lemma mjoin_fmap {A B} (f : A -> B) (chunks : list (list A)) : mjoin ((fun chunk : list A => f <$> chunk) <$> chunks) = f <$> mjoin chunks.
Proof. induction chunks as [| chunk chunks IH]; [done |]. cbn [fmap list_fmap]. rewrite !mjoin_cons, fmap_app. by f_equal. Qed.

Lemma block_start_fmap {A V} (f : A -> list V) (chunks : list (list A)) b :
  block_start ((fun chunk : list A => f <$> chunk) <$> chunks) b = chunk_start chunks b.
Proof. unfold block_start, chunk_start. rewrite <- fmap_take, mjoin_fmap. by rewrite length_fmap. Qed.

Lemma fmap_nonempty {A B} (f : A -> B) (chunks : list (list A)) :
  Forall (fun chunk => chunk <> []) chunks -> Forall (fun chunk => chunk <> []) ((fun chunk : list A => f <$> chunk) <$> chunks).
Proof. intros H. apply Forall_fmap. eapply Forall_impl; [exact H |]. intros chunk Hc. unfold compose. by destruct chunk. Qed.

Section leaves.
Context {V : Type} (distinct_from : V -> V -> bool) (index_value : Z -> V) {traits : MergeSortTraits}.
Abbreviation SortRow := (list V * Z)%type.
Context (chunks : list (list SortRow)) (Hne : Forall (fun chunk => chunk <> []) chunks).
Abbreviation rows := (mjoin chunks).
Abbreviation n := (Z.of_nat (length (mjoin chunks))).
Abbreviation index_rows := (index_column (V := V) chunks).

(** The index of the row at a position of the order. *)
Definition row_index (p : Z) : Z := snd (default ([], 0) (rows !! Z.to_nat p)).

Lemma chunk_start_range b : 0 <= chunk_start chunks b <= n.
Proof. unfold chunk_start. rewrite <- (take_drop b chunks) at 3. rewrite mjoin_app, length_app. lia. Qed.

Lemma chunk_start_mono a b : (a <= b)%nat -> chunk_start chunks a <= chunk_start chunks b.
Proof.
  intros H. pose proof (block_start_mono ((fun chunk : list SortRow => (fun r => [snd r]) <$> chunk) <$> chunks) a b H) as Hm.
  by rewrite !block_start_fmap in Hm.
Qed.

(** *** The leaves of an index tree *)

Lemma copy_indices_ok (chunk : list SortRow) leaves i :
  0 <= i -> i + Z.of_nat (length chunk) <= Z.of_nat (length leaves) ->
  exists leaves', copy_indices leaves i ((fun r => [snd r]) <$> chunk) = Some leaves' /\
    written i (i + Z.of_nat (length chunk)) (fun p => store_index (snd (default ([], 0) (chunk !! Z.to_nat (p - i))))) leaves leaves'.
Proof.
  intros Hi Hl. unfold copy_indices. rewrite ofold_fmap. cut (exists leaves', ofold (fun s (r : SortRow) => (fun '(leaves, i) (row : list Z) =>
    v ← head row; leaves ← zstore leaves i (store_index v); Some (leaves, i + 1)) s [snd r]) (leaves, i) chunk =
      Some (leaves', i + Z.of_nat (length chunk)) /\
    written i (i + Z.of_nat (length chunk)) (fun p => store_index (snd (default ([], 0) (chunk !! Z.to_nat (p - i))))) leaves leaves').
  { intros (leaves' & E & H). exists leaves'. split; [| done]. etransitivity; [| exact (f_equal (fmap (M := option) fst) E)]. done. }
  revert leaves i Hi Hl. induction chunk as [| r chunk IH]; intros leaves i Hi Hl.
  { exists leaves. split; [by rewrite Z.add_0_r |]. rewrite Z.add_0_r. apply written_nil. }
  rewrite ofold_cons. cbn [head mbind option_bind length] in *. rewrite zstore_Some by lia. cbn [mbind option_bind].
  destruct (IH (<[Z.to_nat i := store_index (snd r)]> leaves) (i + 1)) as (leaves' & E & H); [lia | rewrite length_insert; lia |].
  exists leaves'. split; [rewrite E; f_equal; f_equal; lia |].
  apply (written_app i (i + 1) _ _ leaves (<[Z.to_nat i := store_index (snd r)]> leaves)); [lia | |].
  - split; [by rewrite length_insert |]. intros p Hp. rewrite znth_insert by lia. repeat case_decide; try done; try lia.
    subst. by rewrite Z.sub_diag.
  - replace (i + Z.of_nat (S (length chunk))) with (i + 1 + Z.of_nat (length chunk)) by lia.
    eapply written_ext; [| exact H]. intros p Hp. replace (Z.to_nat (p - i)) with (S (Z.to_nat (p - (i + 1)))) by lia. done.
Qed.

Lemma copy_index_blocks_ok blocks b s leaves :
  scanned_to index_rows b s -> (b + blocks <= length chunks)%nat -> length leaves = length rows ->
  exists leaves', copy_index_blocks blocks index_rows s (chunk_start chunks b) leaves = Some leaves' /\
    written (chunk_start chunks b) (chunk_start chunks (b + blocks)) (fun p => store_index (row_index p)) leaves leaves'.
Proof.
  revert b s leaves. induction blocks as [| blocks IH]; intros b s leaves Hs Hb Hl; cbn [copy_index_blocks].
  { exists leaves. rewrite Nat.add_0_r. split; [done | apply written_nil]. }
  destruct (lookup_lt_is_Some_2 chunks b) as [chunk Hc]; [lia |].
  assert (index_rows !! b = Some ((fun r => [snd r]) <$> chunk)) as Hi by (unfold index_column; by rewrite list_lookup_fmap, Hc).
  destruct (Scan_ok index_rows b s _ Hs Hi) as (s' & -> & Hs').
  pose proof (block_start_S index_rows b _ Hi) as Hst. unfold index_column in Hst. rewrite !block_start_fmap, length_fmap in Hst.
  pose proof (chunk_start_range (S b)). pose proof (chunk_start_range b).
  rewrite length_fmap. pose proof (Forall_lookup_1 _ _ _ _ Hne Hc) as Hcne.
  rewrite (proj2 (Nat.eqb_neq _ _)) by (destruct chunk; done).
  destruct (copy_indices_ok chunk leaves (chunk_start chunks b)) as (leaves1 & -> & H1); [lia | lia |]. cbn [mbind option_bind].
  rewrite <- Hst. destruct (IH (S b) s' leaves1 Hs') as (leaves' & E & H2); [lia | rewrite (proj1 H1); done |].
  exists leaves'. split; [exact E |]. rewrite Nat.add_succ_r, <- Nat.add_succ_l.
  pose proof (chunk_start_mono (S b) (S b + blocks) ltac:(lia)).
  apply (written_app _ (chunk_start chunks (S b)) _ _ leaves leaves1); [lia | | done]. rewrite Hst.
  eapply written_ext; [| exact H1]. intros p Hp. unfold row_index.
  assert (chunk !! Z.to_nat (p - chunk_start chunks b) = rows !! Z.to_nat p) as ->; [| done].
  assert (forall (A : Type) (cs : list (list A)) i ch j, cs !! i = Some ch -> (j < length ch)%nat ->
    ch !! j = mjoin cs !! (length (mjoin (take i cs)) + j)%nat) as Hg.
  { intros A cs i ch j Hch Hj. rewrite <- (take_drop_middle cs i ch Hch) at 2. rewrite mjoin_app, mjoin_cons, lookup_app_r, lookup_app_l by lia.
    f_equal. lia. }
  rewrite (Hg _ chunks b chunk _ Hc) by lia. f_equal. unfold chunk_start in *. lia.
Qed.

(** *** The deltas of a token tree *)

Context (key_count : nat) (unique : bool).
Abbreviation key_rows := (key_columns index_value unique chunks).
Abbreviation key := (key_count + Nat.b2n unique)%nat.

(** A row differs from the one before it. *)
Definition row_delta (p : Z) : Z := if p =? 0 then 0 else Z.b2z (row_changes distinct_from key_rows 0 key p).

Lemma store_deltas_ok call deltas :
  call_ok distinct_from key_rows key call -> length deltas = length rows ->
  exists deltas', store_deltas deltas call = Some deltas' /\
    written (call_row call) (call_row call + Z.of_nat (call_length call)) row_delta deltas deltas'.
Proof.
  intros Hok Hl. destruct Hok as [H1 H2 Hp Hc Ht Hf] eqn:Eok. clear Eok. unfold store_deltas.
  set (differs := rows_differ distinct_from (call_prev call) (call_curr call) (seq 0 key)) in *.
  assert (call_distinct call ≡ₚ List.filter differs (seq 0 (call_length call))) as Hd.
  { rewrite Ht. etransitivity; [apply DistinctFrom_true |]. by rewrite Nat.sub_0_r. }
  assert (length (mjoin key_rows) = length rows) as Hlr by (unfold key_columns; by rewrite mjoin_fmap, length_fmap).
  assert (length (call_matching call) + length (call_distinct call) = call_length call)%nat as Hsum.
  { rewrite Hf, Hd. rewrite <- (length_seq (call_length call) 0) at 3. clear. induction (seq 0 (call_length call)) as [| j l IH]; [done |].
    cbn. destruct (differs j); cbn; lia. }
  assert (forall j, j ∈ call_matching call <-> (j < call_length call)%nat /\ differs j = false) as Hmatch.
  { intros j. rewrite Hf, list_elem_of_In, List.filter_In, <- list_elem_of_In, elem_of_seq, negb_true_iff. split; intros [? ?]; (split; [lia | done]). }
  assert (forall j, j ∈ call_distinct call <-> (j < call_length call)%nat /\ differs j = true) as Hdist.
  { intros j. rewrite Hd, list_elem_of_In, List.filter_In, <- list_elem_of_In, elem_of_seq. split; intros [? ?]; (split; [lia | done]). }
  fold (call_length call).
  destruct (store_selection (call_matching call) (call_length call - length (call_distinct call)) (call_row call) 0 deltas)
    as (d1 & -> & Hl1 & E1); [lia | lia | |].
  { intros j [Hj _]%Hmatch. rewrite Hl. lia. }
  cbn [mbind option_bind].
  destruct (store_selection (call_distinct call) (length (call_distinct call)) (call_row call) 1 d1) as (d2 & -> & Hl2 & E2); [lia | lia | |].
  { intros j [Hj _]%Hdist. rewrite Hl1, Hl. lia. }
  exists d2. split; [done |]. split; [lia |]. intros p Hp0. rewrite E2, E1 by done.
  assert (call_row call <= p < call_row call + Z.of_nat (call_length call) ->
    row_delta p = Z.b2z (differs (Z.to_nat (p - call_row call)))) as Hdelta.
  { intros Hr. unfold row_delta. rewrite (proj2 (Z.eqb_neq p 0)) by lia. f_equal. unfold row_changes. rewrite Nat.sub_0_r.
    assert (call_ok distinct_from key_rows key call) as Hok' by by split.
    unfold differs. rewrite (call_differs distinct_from key_rows key call) by (done || lia). do 2 f_equal. lia. }
  destruct (decide (call_row call <= p < call_row call + Z.of_nat (call_length call))) as [Hr | Hr].
  - rewrite (Hdelta Hr). destruct (differs (Z.to_nat (p - call_row call))) eqn:Ed.
    + by rewrite decide_True by (split; [lia | apply Hdist; split; [lia | done]]).
    + rewrite decide_False by (intros [_ [_ Hx]%Hdist]; congruence).
      by rewrite decide_True by (split; [lia | apply Hmatch; split; [lia | done]]).
  - rewrite decide_False by (intros [? [? _]%Hdist]; lia). by rewrite decide_False by (intros [? [? _]%Hmatch]; lia).
Qed.

Lemma calls_stored a calls b deltas :
  calls_cover distinct_from key_rows key a calls b -> length deltas = length rows ->
  exists deltas', ofold store_deltas deltas calls = Some deltas' /\ a <= b /\ written a b row_delta deltas deltas'.
Proof.
  revert a deltas. induction calls as [| call calls IH]; intros a deltas Hc Hl; cbn [calls_cover] in Hc.
  { subst b. exists deltas. split; [done |]. split; [lia | apply written_nil]. }
  destruct Hc as (Hok & <- & _ & _ & _ & Hc). rewrite ofold_cons.
  destruct (store_deltas_ok call deltas Hok Hl) as (d1 & -> & H1). cbn [mbind option_bind].
  destruct (IH _ d1 Hc) as (d2 & E & Hab & H2); [rewrite (proj1 H1); done |]. exists d2. split; [exact E |].
  split; [lia |]. eapply written_app; [| exact H1 | exact H2]. lia.
Qed.

Lemma WindowDeltaScanner_empty b :
  (b <= length chunks)%nat -> WindowDeltaScanner distinct_from key_rows b b key = Some [].
Proof.
  intros Hb. unfold WindowDeltaScanner. destruct (Nat.eqb_spec (length (mjoin key_rows)) 0) as [| Hn]; [done |].
  assert (Forall (fun chunk => chunk <> []) key_rows) as Hnek by (by apply fmap_nonempty).
  assert (length key_rows = length chunks) as Hlk by (unfold key_columns; by rewrite length_fmap).
  set (c := if (b =? 0)%nat then 0%nat else pred b).
  assert (c < length key_rows)%nat as Hc.
  { unfold c. destruct (Nat.eqb_spec b 0); [| lia]. destruct key_rows as [| ch ks]; [done | cbn; lia]. }
  destruct (lookup_lt_is_Some_2 key_rows c Hc) as [chunk Hch].
  destruct (Scan_ok key_rows c (ScannerAt key_rows c) chunk) as (s & -> & Hs); [apply ScannerAt_ok; lia | done |].
  pose proof (Forall_lookup_1 _ _ _ _ Hnek Hch) as Hcne. unfold c. destruct b as [| b]; cbn [Nat.eqb pred]; [done |].
  replace (3 * (S b - b))%nat with 3%nat by lia. cbn [delta_loop]. rewrite (proj2 (Nat.leb_gt (S b) b)) by lia. cbn [Nat.ltb Nat.leb].
  destruct (last chunk) as [d |] eqn:El; [| by apply last_None in El]. cbn [mbind option_bind]. by rewrite Nat.leb_refl.
Qed.

(** The deltas of the blocks [[b, e)], and the first one. *)
Lemma deltas_stored b e deltas :
  (b <= e <= length chunks)%nat -> rows <> [] -> length deltas = length rows ->
  exists deltas', (deltas ← (if (b =? 0)%nat then zstore deltas 0 0 else Some deltas);
      calls ← WindowDeltaScanner distinct_from key_rows b e key; ofold store_deltas deltas calls) = Some deltas' /\
    length deltas' = length deltas /\
    forall p, 0 <= p -> (chunk_start chunks b <= p < chunk_start chunks e -> znth 0 deltas' p = row_delta p) /\
      (znth 0 deltas' p = row_delta p \/ znth 0 deltas' p = znth 0 deltas p).
Proof.
  intros Hb Hrows Hl. assert (0 < n) as Hn by (destruct rows; [done | cbn; lia]).
  assert (exists d0, (if (b =? 0)%nat then zstore deltas 0 0 else Some deltas) = Some d0 /\ length d0 = length deltas /\
    forall p, 0 <= p -> znth 0 d0 p = if decide (b = 0%nat /\ p = 0) then 0 else znth 0 deltas p) as (d0 & -> & Hl0 & E0).
  { destruct (Nat.eqb_spec b 0) as [-> | Hne0].
    - rewrite zstore_Some by lia. eexists. split; [done |]. rewrite length_insert. split; [done |]. intros p Hp.
      rewrite znth_insert by lia. destruct (decide (p = 0)); [by rewrite !decide_True by lia | by rewrite !decide_False by lia].
    - exists deltas. split_and!; [done | done |]. intros p Hp. rewrite decide_False by lia. done. }
  cbn [mbind option_bind]. assert (row_delta 0 = 0) as Hd0 by done.
  assert (exists calls, WindowDeltaScanner distinct_from key_rows b e key = Some calls /\
    exists d1, ofold store_deltas d0 calls = Some d1 /\ written (Z.max 1 (chunk_start chunks b)) (Z.max 1 (chunk_start chunks e)) row_delta d0 d1)
    as (calls & -> & d1 & E1 & H1).
  { assert (length key_rows = length chunks) as Hlk by (unfold key_columns; by rewrite length_fmap).
    destruct (decide (b = e)) as [<- | Hlt].
    - exists []. split; [apply WindowDeltaScanner_empty; lia |]. exists d0. split; [done |]. apply written_nil.
    - destruct (WindowDeltaScanner_ok distinct_from key_rows key (fmap_nonempty _ _ Hne) b e) as (calls & E & Hc & _); [lia |].
      exists calls. split; [exact E |]. unfold key_columns in Hc. rewrite !block_start_fmap in Hc. fold (key_columns index_value unique chunks) in Hc.
      assert (1 <= chunk_start chunks e) as He.
      { destruct e as [| e]; [lia |]. destruct (lookup_lt_is_Some_2 chunks e) as [chunk Hch]; [lia |].
        pose proof (Forall_lookup_1 _ _ _ _ Hne Hch). unfold chunk_start. rewrite (take_S_r _ _ _ Hch), mjoin_app, length_app.
        cbn [mjoin list_join]. rewrite app_nil_r. destruct chunk; [done | cbn; lia]. }
      destruct (calls_stored _ _ _ d0 Hc) as (d1 & E1 & _ & H1); [lia |]. exists d1. split; [exact E1 |]. by rewrite (Z.max_r 1 (chunk_start chunks e)). }
  exists d1. split; [exact E1 |]. destruct H1 as [Hl1 H1]. split; [lia |]. intros p Hp. rewrite H1, E0 by done.
  pose proof (chunk_start_range b). split.
  - intros Hr. destruct (decide (Z.max 1 (chunk_start chunks b) <= p < Z.max 1 (chunk_start chunks e))) as [D1 | D1]; [done |].
    assert (p = 0) as -> by lia. rewrite decide_True; [done |]. split; [| done].
    destruct b as [| b]; [done |]. exfalso. destruct (lookup_lt_is_Some_2 chunks b) as [chunk Hch]; [lia |].
    pose proof (Forall_lookup_1 _ _ _ _ Hne Hch). unfold chunk_start in Hr at 1. rewrite (take_S_r _ _ _ Hch), mjoin_app, length_app in Hr.
    cbn [mjoin list_join] in Hr. rewrite app_nil_r in Hr. destruct chunk; [done | cbn in Hr; lia].
  - destruct (decide (Z.max 1 (chunk_start chunks b) <= p < Z.max 1 (chunk_start chunks e))); [by left |].
    destruct (decide (b = 0%nat /\ p = 0)) as [[_ ->] | D2]; [by left | by right].
Qed.

(** *** The tokens *)

(** The dense rank of the row at a position of the order, from 0. *)
Definition token_at (p : Z) : Z := zcount (row_changes distinct_from key_rows 0 key) 1 (p + 1).

Context (Hindex : forall p, 0 <= p < n -> 0 <= row_index p < n).
Context (Hapart : forall p q, 0 <= p < n -> 0 <= q < n -> row_index p = row_index q -> p = q).
Context (Hbits : n <= 2 ^ element_bits).

Lemma token_next p : 0 <= p -> zcount (row_changes distinct_from key_rows 0 key) 1 p + row_delta p = token_at p.
Proof.
  intros Hp. unfold token_at, row_delta. destruct (Z.eqb_spec p 0) as [-> | Hp0]; [by rewrite !zcount_nil by lia |].
  by rewrite zcount_snoc by lia.
Qed.

Lemma token_range p : 0 <= p -> 0 <= token_at p <= p.
Proof. intros Hp. unfold token_at. pose proof (zcount_nonneg (row_changes distinct_from key_rows 0 key) 1 (p + 1)).
  pose proof (zcount_le (row_changes distinct_from key_rows 0 key) 1 (p + 1)). lia. Qed.

(** The next row of the scan. *)
Lemma next_row p c s payload i :
  (p < length rows)%nat -> scanned_to index_rows c s ->
  drop i payload ++ mjoin (drop c index_rows) = drop p (mjoin index_rows) ->
  exists chunk s' c', (if (length payload <=? i)%nat then Scan index_rows s else (Some payload, s)) = (Some chunk, s') /\
    scanned_to index_rows c' s' /\
    let i' := if (length payload <=? i)%nat then 0%nat else i in
    chunk !! i' = Some [row_index (Z.of_nat p)] /\
    drop (S i') chunk ++ mjoin (drop c' index_rows) = drop (S p) (mjoin index_rows).
Proof.
  intros Hp Hs E. assert (mjoin index_rows = (fun r => [snd r]) <$> rows) as Eall by (unfold index_column; apply mjoin_fmap).
  destruct (lookup_lt_is_Some_2 rows p Hp) as [r Hr].
  assert (mjoin index_rows !! p = Some [row_index (Z.of_nat p)]) as Hrow.
  { rewrite Eall, list_lookup_fmap, Hr. unfold row_index. rewrite Nat2Z.id, Hr. done. }
  assert (forall chunk c' i', drop i' chunk ++ mjoin (drop c' index_rows) = drop p (mjoin index_rows) -> (i' < length chunk)%nat ->
    chunk !! i' = Some [row_index (Z.of_nat p)] /\ drop (S i') chunk ++ mjoin (drop c' index_rows) = drop (S p) (mjoin index_rows)) as Hnext.
  { intros chunk c' i' E' Hi. destruct (lookup_lt_is_Some_2 chunk i' Hi) as [row Hc]. rewrite (drop_S _ _ _ Hc), (drop_S _ _ _ Hrow) in E'.
    cbn [app] in E'. injection E' as -> E'. done. }
  destruct (Nat.leb_spec (length payload) i) as [Hle | Hlt].
  - rewrite drop_ge in E by done. cbn [app] in E. destruct (index_rows !! c) as [chunk |] eqn:Hc.
    2: { rewrite drop_ge in E by (by apply lookup_ge_None_1). rewrite (drop_S _ _ _ Hrow) in E. done. }
    destruct (Scan_ok index_rows c s chunk Hs Hc) as (s' & Es & Hs'). exists chunk, s', (S c). split; [done |]. split; [done |].
    rewrite (drop_S _ _ _ Hc), mjoin_cons in E. apply Hnext; [by rewrite drop_0 |].
    pose proof (Forall_lookup_1 _ _ _ _ (fmap_nonempty (fun r : SortRow => [snd r]) _ Hne) Hc). destruct chunk; [done | cbn; lia].
  - exists payload, s, c. split; [done |]. split; [done |]. by apply Hnext.
Qed.

Lemma build_tokens_ok deltas p c s payload i token tokens :
  scanned_to index_rows c s ->
  drop i payload ++ mjoin (drop c index_rows) = drop p (mjoin index_rows) ->
  (p + length deltas = length rows)%nat ->
  (forall j d, deltas !! j = Some d -> d = row_delta (Z.of_nat (p + j))) ->
  token = zcount (row_changes distinct_from key_rows 0 key) 1 (Z.of_nat p) ->
  length tokens = length rows ->
  exists tokens', build_tokens index_rows deltas s payload i token tokens = Some tokens' /\ length tokens' = length tokens /\
    (forall q, Z.of_nat p <= q < n -> znth 0 tokens' (row_index q) = token_at q) /\
    (forall x, 0 <= x -> (forall q, Z.of_nat p <= q < n -> row_index q <> x) -> znth 0 tokens' x = znth 0 tokens x).
Proof.
  revert p c s payload i token tokens. induction deltas as [| d deltas IH]; intros p c s payload i token tokens Hs E Hp Hd Htok Hl;
    cbn [build_tokens length] in *.
  { exists tokens. split_and!; [done | done | lia | done]. }
  destruct (next_row p c s payload i ltac:(lia) Hs E) as (chunk & s' & c' & -> & Hs' & Hrow & E'). rewrite Hrow. cbn [mbind option_bind head].
  pose proof (Hindex (Z.of_nat p) ltac:(lia)) as Hr. pose proof (token_range (Z.of_nat p) ltac:(lia)) as Ht.
  assert (store_index (row_index (Z.of_nat p)) = row_index (Z.of_nat p)) as -> by (unfold store_index; rewrite Z.mod_small; lia).
  assert ((token + d) mod 2 ^ element_bits = token_at (Z.of_nat p)) as ->.
  { rewrite (Hd 0%nat d eq_refl), Nat.add_0_r, Htok, token_next by lia. apply Z.mod_small. lia. }
  rewrite zstore_Some by lia. cbn [mbind option_bind].
  destruct (IH (S p) c' s' chunk (S (if (length payload <=? i)%nat then 0 else i)) (token_at (Z.of_nat p))
    (<[Z.to_nat (row_index (Z.of_nat p)) := token_at (Z.of_nat p)]> tokens)) as (tokens' & -> & Hl' & H1 & H2); [done | done | lia | | | |].
  - intros j dj Hj. replace (S p + j)%nat with (p + S j)%nat by lia. by apply Hd.
  - unfold token_at. by replace (Z.of_nat p + 1) with (Z.of_nat (S p)) by lia.
  - by rewrite length_insert.
  - rewrite length_insert in Hl'. exists tokens'. split_and!; [done | done | |].
    + intros q Hq. destruct (decide (q = Z.of_nat p)) as [-> | Hne0]; [| apply H1; lia].
      rewrite H2; [| lia | intros q' Hq' Heq; apply Hapart in Heq; lia]. rewrite znth_insert by lia. by rewrite decide_True.
    + intros x Hx Hno. rewrite H2, znth_insert by (done || lia || (intros q Hq; apply Hno; lia)).
      rewrite decide_False; [done |]. intros Hx'. apply (Hno (Z.of_nat p)); lia.
Qed.
End leaves.
