(* ===== verification/WindowTreeThreads.v ===== *)
(** * The threads that sort, fill and build a tree of argument orders

    The invariant of the stages of a WindowMergeSortTree: which rows are combined, which
    blocks are filled, and, once the tree is finished, the invariant of the threads in [Build].
    No interleaving fails, and a thread that leaves [Build] has seen the complete tree over
    the sorted rows. *)

From S2P Require Import Prelude Validity MaskSearch Boundaries RangeSearch Aggregates WindowMasks WindowMasksInvariant WindowValue Rank Sort MergeSortTree MergeSortGames MergeSortRuns MergeSortBuild MergeSortThreads WindowTrees WindowTreesInvariant.

(** ** The sorted rows

    What the trees use of the source of the sort: the chunks of a finalized sink are its
    rows in the order. *)
Class SortSourceLaws {R : Type} (ops : SortOps R) `{!SortSinkLaws ops} (materialize : GSink ops -> list (list R)) (le : relation R) : Prop := {
  materialize_chunks g : sort_inv g [] -> Forall (fun chunk => chunk <> []) (materialize (sort_finalize ops g));
  materialize_rows g : sort_inv g [] -> mjoin (materialize (sort_finalize ops g)) ≡ₚ global_rows g;
  materialize_sorted g : sort_inv g [] -> Sorted le (mjoin (materialize (sort_finalize ops g)))
}.

(** ** Merge sort trees *)

Section allocate.
Context {traits : MergeSortTraits}.

Lemma with_leaves_twice a b m : with_leaves a (with_leaves b m) = with_leaves a m.
Proof. unfold with_leaves. cbn [tree build_level build_complete build_run build_run_length build_num_runs]. by destruct (tree m). Qed.

Lemma LowestLevel_with_leaves a m : tree m <> [] -> LowestLevel (tree (with_leaves a m)) = a.
Proof. unfold with_leaves, LowestLevel. cbn [tree]. by destruct (tree m). Qed.

Lemma Allocate_leaves count m : Allocate count = Some m -> tree m <> [] /\ LowestLevel (tree m) = replicate (Z.to_nat count) 0.
Proof. unfold Allocate. destruct (allocate_levels _ _ _); [| done]. intros [= <-]. done. Qed.
End allocate.

Section tasks.
Context {V : Type} (distinct_from : V -> V -> bool) (index_value : Z -> V) {traits : MergeSortTraits}.
Abbreviation SortRow := (list V * Z)%type.
Context (ops : SortOps SortRow) (materialize : GSink ops -> list (list SortRow)).
Abbreviation State := (WindowMergeSortTree (V := V) ops).
Implicit Types (g : State) (C : list (list SortRow)) (arr : list Z) (task : nat).

(** ** Tasks that fill blocks *)

(** What a kind of tree fills: the leaves or the deltas. *)
Definition expected (kind : TreeKind) C (p : Z) : Z :=
  match kind with
  | IndexLeaves => store_index (row_index C p)
  | TokenLeaves key_cols unique => row_delta distinct_from index_value C key_cols unique p
  end.

Definition put (kind : TreeKind) (m : MergeSortTree) arr g : State :=
  match kind with
  | IndexLeaves => set_mst ops (with_leaves arr m) g
  | TokenLeaves _ _ => set_deltas ops arr (set_mst ops m g)
  end.

(** The rows of the blocks of a task. *)
Definition task_begin C (tasks task : nat) : Z := chunk_start C (Nat.div (task * length C) tasks).

Definition filled (kind : TreeKind) C (tasks task : nat) arr : Prop :=
  forall p, task_begin C tasks task <= p < task_begin C tasks (task + 1) -> znth 0 arr p = expected kind C p.

Lemma task_begin_0 C tasks : (0 < tasks)%nat -> task_begin C tasks 0 = 0.
Proof. intros Ht. unfold task_begin, chunk_start. by rewrite Nat.Div0.div_0_l. Qed.

Lemma task_begin_last C tasks : (0 < tasks)%nat -> task_begin C tasks tasks = Z.of_nat (length (mjoin C)).
Proof.
  intros Ht. unfold task_begin, chunk_start. rewrite Nat.mul_comm, Nat.div_mul by lia. by rewrite take_ge.
Qed.

(** The tasks cover all rows. *)
Lemma tasks_cover kind C tasks arr :
  (0 < tasks)%nat -> (forall task, (task < tasks)%nat -> filled kind C tasks task arr) ->
  forall p, 0 <= p < Z.of_nat (length (mjoin C)) -> znth 0 arr p = expected kind C p.
Proof.
  intros Ht Hf p Hp. rewrite <- (task_begin_last C tasks Ht) in Hp.
  assert (forall t, (t <= tasks)%nat -> p < task_begin C tasks t -> znth 0 arr p = expected kind C p) as H; [| apply (H tasks); lia].
  induction t as [| t IH]; intros Hle Hlt; [rewrite task_begin_0 in Hlt; lia |].
  destruct (Z.lt_ge_cases p (task_begin C tasks t)) as [? | Hge]; [apply IH; [lia | done] |].
  apply (Hf t); [lia |]. by rewrite Nat.add_1_r.
Qed.

Lemma task_blocks_range C tasks task :
  (task < tasks)%nat -> (Nat.div (task * length C) tasks <= Nat.div ((task + 1) * length C) tasks <= length C)%nat.
Proof.
  intros Ht. split; [apply Nat.Div0.div_le_mono; nia |]. apply Nat.Div0.div_le_upper_bound. nia.
Qed.

Lemma IndexBuildLeaves_ok g C m arr task :
  sorted ops g = Some C -> Forall (fun chunk => chunk <> []) C -> (task < total_tasks ops g)%nat -> tree m <> [] ->
  mst ops g = Some (with_leaves arr m) -> length arr = length (mjoin C) ->
  exists arr', IndexBuildLeaves ops g task = Some (set_mst ops (with_leaves arr' m) g) /\ length arr' = length arr /\
    filled IndexLeaves C (total_tasks ops g) task arr' /\
    forall p, 0 <= p -> znth 0 arr' p = expected IndexLeaves C p \/ znth 0 arr' p = znth 0 arr p.
Proof.
  intros Es Hne Ht Hm Em Hl. unfold IndexBuildLeaves. rewrite Es. cbn [mbind option_bind].
  destruct (Nat.eqb_spec (length (mjoin C)) 0) as [Hz | Hnz].
  { exists arr. split_and!; [| done | | by right].
    - f_equal. destruct g; cbn in *. by subst.
    - intros p Hp. unfold task_begin in Hp. pose proof (chunk_start_range C (Nat.div (task * length C) (total_tasks ops g))).
      pose proof (chunk_start_range C (Nat.div ((task + 1) * length C) (total_tasks ops g))). lia. }
  rewrite Em. cbn [mbind option_bind]. unfold task_blocks. rewrite LowestLevel_with_leaves by done.
  pose proof (task_blocks_range C (total_tasks ops g) task Ht) as Hb. unfold filled, task_begin.
  set (b := Nat.div (task * length C) (total_tasks ops g)) in *. set (e := Nat.div ((task + 1) * length C) (total_tasks ops g)) in *.
  assert (scanned_to (index_column C) b (ScannerAt (index_column C) b)) as Hs.
  { apply ScannerAt_ok. unfold index_column. rewrite length_fmap. lia. }
  assert (Scanned (ScannerAt (index_column C) b) = chunk_start C b) as ->.
  { unfold Scanned. destruct Hs as (_ & -> & _). unfold index_column. apply block_start_fmap. }
  destruct (copy_index_blocks_ok C Hne (e - b) b _ arr Hs) as (arr' & -> & Hl' & Hw); [lia | done |]. cbn [mbind option_bind].
  replace (b + (e - b))%nat with e in Hw by lia. exists arr'. rewrite with_leaves_twice.
  pose proof (chunk_start_range C b). split_and!; [done | done | |].
  - intros p Hp. rewrite Hw, decide_True by lia. done.
  - intros p Hp. rewrite Hw by done. case_decide; [by left | by right].
Qed.

Lemma TokenBuildLeaves_ok key_cols unique g C arr task :
  sorted ops g = Some C -> Forall (fun chunk => chunk <> []) C -> (task < total_tasks ops g)%nat -> mjoin C <> [] ->
  deltas ops g = arr -> length arr = length (mjoin C) ->
  exists arr', TokenBuildLeaves distinct_from index_value ops key_cols unique g task = Some (set_deltas ops arr' g) /\ length arr' = length arr /\
    filled (TokenLeaves key_cols unique) C (total_tasks ops g) task arr' /\
    forall p, 0 <= p -> znth 0 arr' p = expected (TokenLeaves key_cols unique) C p \/ znth 0 arr' p = znth 0 arr p.
Proof.
  intros Es Hne Ht Hrows Ed Hl. unfold TokenBuildLeaves. rewrite Es. cbn [mbind option_bind]. unfold task_blocks. rewrite Ed.
  pose proof (task_blocks_range C (total_tasks ops g) task Ht) as Hb. unfold filled, task_begin.
  set (b := Nat.div (task * length C) (total_tasks ops g)) in *. set (e := Nat.div ((task + 1) * length C) (total_tasks ops g)) in *.
  destruct (deltas_stored distinct_from index_value C Hne key_cols unique b e arr Hb Hrows Hl) as (arr' & E & Hl' & Hw).
  exists arr'. split; [| split_and!; [done | intros p Hp; apply Hw; [pose proof (chunk_start_range C b); lia | done] | intros p Hp; by apply Hw]].
  destruct (if (b =? 0)%nat then zstore arr 0 0 else Some arr) as [d0 |]; [| done]. cbn [mbind option_bind] in *.
  destruct (WindowDeltaScanner _ _ _ _ _) as [calls |]; [| done]. cbn [mbind option_bind] in *. by rewrite E.
Qed.

(** ** The kinds of trees *)

Definition array_ok (kind : TreeKind) (m : MergeSortTree) arr g : Prop :=
  match kind with
  | IndexLeaves => mst ops g = Some (with_leaves arr m)
  | TokenLeaves _ _ => mst ops g = Some m /\ deltas ops g = arr
  end.

(** The rows that a tree of a kind is made for: the rows of a token tree are numbered. *)
Definition input_ok (kind : TreeKind) (input : list SortRow) : Prop :=
  match kind with
  | IndexLeaves => True
  | TokenLeaves _ _ => input <> [] /\ snd <$> input ≡ₚ zrange 0 (Z.of_nat (length input))
  end.

Definition leaves_ok (kind : TreeKind) C (leaves : list Z) : Prop :=
  length leaves = length (mjoin C) /\
  forall p, 0 <= p < Z.of_nat (length (mjoin C)) ->
    match kind with
    | IndexLeaves => znth 0 leaves p = store_index (row_index C p)
    | TokenLeaves key_cols unique => znth 0 leaves (row_index C p) = token_at distinct_from index_value C key_cols unique p
    end.

Lemma BuildLeaves_ok kind g C m arr task :
  sorted ops g = Some C -> Forall (fun chunk => chunk <> []) C -> input_ok kind (mjoin C) -> (task < total_tasks ops g)%nat -> tree m <> [] ->
  array_ok kind m arr g -> length arr = length (mjoin C) ->
  exists arr', BuildLeaves distinct_from index_value ops kind g task = Some (put kind m arr' g) /\ length arr' = length arr /\
    filled kind C (total_tasks ops g) task arr' /\
    forall p, 0 <= p -> znth 0 arr' p = expected kind C p \/ znth 0 arr' p = znth 0 arr p.
Proof.
  intros Es Hne Hi Ht Hm Ha Hl. destruct kind as [| key_cols unique]; cbn [BuildLeaves put].
  - by apply IndexBuildLeaves_ok.
  - destruct Ha as [Em Ed], Hi as [Hne0 _].
    destruct (TokenBuildLeaves_ok key_cols unique g C arr task Es Hne Ht Hne0 Ed Hl) as (arr' & -> & H).
    exists arr'. split; [| done]. f_equal. destruct g; cbn in *. by subst.
Qed.

Lemma put_ok kind m arr g : array_ok kind m arr (put kind m arr g).
Proof. by destruct kind. Qed.

Lemma MeasurePayloadBlocks_ok kind g C :
  sorted ops g = Some C -> forall m, Allocate (Z.of_nat (length (mjoin C))) = Some m ->
  exists arr, MeasurePayloadBlocks ops kind g = Some (put kind m arr g) /\ length arr = length (mjoin C).
Proof.
  intros Es m Em. exists (replicate (length (mjoin C)) 0). unfold MeasurePayloadBlocks. rewrite Es. cbn [mbind option_bind]. rewrite Em.
  cbn [mbind option_bind]. split; [| apply length_replicate]. destruct kind; [| done]. cbn [put]. do 3 f_equal.
  destruct (Allocate_leaves _ _ Em) as [Hm Hl]. rewrite Nat2Z.id in Hl. rewrite <- Hl. destruct m as [t bl bc br brl bnr]. unfold with_leaves, LowestLevel.
  cbn [tree build_level build_complete build_run build_run_length build_num_runs] in *. destruct t as [| [els cas] t]; done.
Qed.

Lemma row_index_lookup C p : 0 <= p < Z.of_nat (length (mjoin C)) -> (snd <$> mjoin C) !! Z.to_nat p = Some (row_index C p).
Proof.
  intros Hp. destruct (lookup_lt_is_Some_2 (mjoin C) (Z.to_nat p)) as [r Hr]; [lia |]. unfold row_index. by rewrite list_lookup_fmap, Hr.
Qed.

(** The numbers of rows are different, and all of them occur. *)
Lemma numbered C :
  snd <$> mjoin C ≡ₚ zrange 0 (Z.of_nat (length (mjoin C))) ->
  (forall p, 0 <= p < Z.of_nat (length (mjoin C)) -> 0 <= row_index C p < Z.of_nat (length (mjoin C))) /\
  (forall p q, 0 <= p < Z.of_nat (length (mjoin C)) -> 0 <= q < Z.of_nat (length (mjoin C)) -> row_index C p = row_index C q -> p = q) /\
  (forall x, 0 <= x < Z.of_nat (length (mjoin C)) -> exists p, 0 <= p < Z.of_nat (length (mjoin C)) /\ row_index C p = x).
Proof.
  intros Hperm. split_and!.
  - intros p Hp. apply row_index_lookup, list_elem_of_lookup_2 in Hp. rewrite Hperm in Hp. by apply elem_of_zrange in Hp.
  - intros p q Hp Hq E. assert (NoDup (snd <$> mjoin C)) as Hnd by (rewrite Hperm; apply NoDup_zrange).
    pose proof (row_index_lookup C p Hp) as H1. pose proof (row_index_lookup C q Hq) as H2. rewrite E in H1.
    pose proof (NoDup_lookup _ _ _ _ Hnd H1 H2). lia.
  - intros x Hx. assert (x ∈ snd <$> mjoin C) as [i Hi]%list_elem_of_lookup_1 by (rewrite Hperm; by apply elem_of_zrange).
    pose proof (lookup_lt_Some _ _ _ Hi) as Hil. rewrite length_fmap in Hil. exists (Z.of_nat i). split; [lia |].
    pose proof (row_index_lookup C (Z.of_nat i) ltac:(lia)) as H1. rewrite Nat2Z.id, Hi in H1. by injection H1.
Qed.

Lemma Finished_ok kind g C m arr :
  sorted ops g = Some C -> Forall (fun chunk => chunk <> []) C -> input_ok kind (mjoin C) -> tree m <> [] ->
  LowestLevel (tree m) = replicate (length (mjoin C)) 0 -> Z.of_nat (length (mjoin C)) <= 2 ^ element_bits ->
  array_ok kind m arr g -> length arr = length (mjoin C) ->
  (forall p, 0 <= p < Z.of_nat (length (mjoin C)) -> znth 0 arr p = expected kind C p) ->
  exists leaves ds, Finished ops kind g = Some (mkSortTree ops (build_stage ops g) (total_tasks ops g) (tasks_assigned ops g)
      (tasks_completed ops g) None [] None (Some (with_leaves leaves m)) ds) /\
    leaves_ok kind C leaves /\ Forall (fun v => v < 2 ^ element_bits) leaves.
Proof.
  intros Es Hne Hi Hm Hlow Hbits Ha Hl Hf. assert (forall leaves, length leaves = length (mjoin C) ->
    (forall x, 0 <= x < Z.of_nat (length (mjoin C)) -> znth 0 leaves x < 2 ^ element_bits) -> Forall (fun v => v < 2 ^ element_bits) leaves) as Hall.
  { intros leaves Hll Hv. apply Forall_lookup_2. intros i v Hiv. pose proof (lookup_lt_Some _ _ _ Hiv).
    specialize (Hv (Z.of_nat i) ltac:(lia)). unfold znth in Hv. by rewrite Nat2Z.id, Hiv in Hv. }
  destruct kind as [| key_cols unique]; unfold Finished; cbn [array_ok expected] in *.
  - cbn [mbind option_bind]. rewrite Ha. exists arr, (deltas ops g). split_and!; [done | done |]. apply Hall; [done |].
    intros x Hx. rewrite Hf by done. apply Z.mod_pos_bound. lia.
  - destruct Ha as [Em Ed], Hi as [_ Hperm]. rewrite Em. cbn [mbind option_bind]. unfold BuildTokens. rewrite Es. cbn [mbind option_bind].
    destruct (numbered C Hperm) as (Hr & Hinj & Hsurj).
    assert (exists tokens, (if (length (mjoin C) =? 0)%nat then Some (LowestLevel (tree m))
        else build_tokens (index_column C) (deltas ops g) (ScannerAt (index_column C) 0) [] 0 0 (LowestLevel (tree m))) = Some tokens /\
      leaves_ok (TokenLeaves key_cols unique) C tokens) as (tokens & -> & Hok).
    { destruct (Nat.eqb_spec (length (mjoin C)) 0) as [Hz | Hnz].
      { exists (LowestLevel (tree m)). split; [done |]. split; [rewrite Hlow; apply length_replicate | lia]. }
      destruct (build_tokens_ok distinct_from index_value C Hne key_cols unique Hr Hinj Hbits (deltas ops g) 0 0 (ScannerAt (index_column C) 0) [] 0 0
        (LowestLevel (tree m))) as (tokens & E & Hlt & Ht & _).
      - apply ScannerAt_ok. lia.
      - by rewrite drop_nil, !drop_0.
      - rewrite Ed. lia.
      - intros j d Hj. pose proof (lookup_lt_Some _ _ _ Hj). rewrite Ed in *. rewrite <- Hf by lia. unfold znth.
        rewrite Nat2Z.id. cbn [Nat.add]. by rewrite Hj.
      - by rewrite zcount_nil by lia.
      - rewrite Hlow. apply length_replicate.
      - exists tokens. split; [exact E |]. split; [rewrite Hlt, Hlow; apply length_replicate |]. intros p Hp. by apply Ht. }
    cbn [mbind option_bind]. eexists tokens, []. split_and!; [done | done |]. apply Hall; [apply Hok |].
    intros x Hx. destruct (Hsurj x Hx) as (p & Hp & <-). rewrite (proj2 Hok p Hp).
    pose proof (token_range distinct_from index_value C key_cols unique p). lia.
Qed.
End tasks.

(** ** Threads *)

Definition task_of (th : SortTreeThread) : option nat := match th with FinalizeTask _ task => Some task | _ => None end.

(** The tasks that threads have and have not carried out. *)
Definition held (ths : list SortTreeThread) : list nat := omap task_of ths.

(** A task that is not counted as completed. *)
Definition active (th : SortTreeThread) : Z := match th with FinalizeTask _ _ | FinalizeCompleted => 1 | _ => 0 end.

Definition builder_of (th : SortTreeThread) : TreeBuilder := match th with Building builder => builder | _ => AtLoop end.

Definition sort_thread_ok (stage : WindowMergeSortStage) (th : SortTreeThread) : Prop :=
  match th with FinalizeTask s _ => s = stage | Building _ => stage = FINISHED | _ => True end.

Lemma active_nonneg ths : 0 <= zsum active ths.
Proof. apply zsum_nonneg. intros th _. by destruct th. Qed.

Lemma held_insert ths j th :
  ths !! j = Some th ->
  exists rest, held ths ≡ₚ option_list (task_of th) ++ rest /\ forall th', held (<[j := th']> ths) ≡ₚ option_list (task_of th') ++ rest.
Proof.
  intros Hj. exists (held (take j ths) ++ held (drop (S j) ths)).
  assert (forall l1 x l2, held (l1 ++ x :: l2) ≡ₚ option_list (task_of x) ++ held l1 ++ held l2) as H.
  { intros l1 x l2. unfold held. rewrite omap_app. cbn [omap list_omap]. destruct (task_of x); cbn [option_list app]; [| done].
    symmetry. apply (Permutation_middle (omap task_of l1)). }
  split; [rewrite <- (take_drop_middle ths j th Hj) at 1; apply H |]. intros th'.
  rewrite insert_take_drop by (by eapply lookup_lt_Some). apply H.
Qed.

Lemma held_active ths : zsum active ths = 0 -> held ths = [].
Proof.
  induction ths as [| th ths IH]; [done |]. rewrite zsum_cons. pose proof (active_nonneg ths). intros Hz. unfold held. cbn [omap list_omap].
  destruct th; cbn [active task_of] in *; try lia; apply IH; lia.
Qed.

Section threads.
Context {V : Type} (distinct_from : V -> V -> bool) (index_value : Z -> V).
Context {traits : MergeSortTraits} {k c : nat} `{!MergeSortTraitsOk k c}.
Abbreviation SortRow := (list V * Z)%type.
Context (ops : SortOps SortRow) `{!SortSinkLaws ops} (materialize : GSink ops -> list (list SortRow)) (le : relation SortRow).
Context `{!SortSourceLaws ops materialize le} (kind : TreeKind) (garbage : RunElement).
Context (input : list SortRow) (Hinput : input_ok kind input) (locals : list (LSink ops)) (Hlocals : locals <> []).
Abbreviation n := (Z.of_nat (length input)).
Context (Hbits : n <= 2 ^ element_bits) (Hoffset : n < 2 ^ offset_bits).
Abbreviation State := (WindowMergeSortTree (V := V) ops).
Implicit Types (g : State) (ths : list SortTreeThread) (th : SortTreeThread) (C : list (list SortRow)) (h : list nat).

(** The sorted rows. *)
Record collection_ok C : Prop := {
  co_chunks : Forall (fun chunk => chunk <> []) C;
  co_rows : mjoin C ≡ₚ input;
  co_sorted : Sorted le (mjoin C)
}.

Definition local_at (task : nat) : LSink ops := default (sort_local_new ops) (locals !! task).

(** What is combined, sorted and filled when the tasks [h] are still to be carried out. *)
Definition combined g h : Prop :=
  exists gs, global_sink ops g = Some gs /\
    let todo := h ++ seq (tasks_assigned ops g) (total_tasks ops g - tasks_assigned ops g) in
    sort_inv gs (local_at <$> todo) /\ global_rows gs ++ (todo ≫= fun task => local_rows (local_at task)) ≡ₚ input.

Definition finalized_data g h : Prop :=
  exists gs, global_sink ops g = Some gs /\
    (0%nat ∈ h /\ sort_inv gs [] /\ global_rows gs ≡ₚ input \/
     0%nat ∉ h /\ exists C, sorted ops g = Some C /\ collection_ok C).

Definition sorted_data g h : Prop :=
  exists C m arr, sorted ops g = Some C /\ collection_ok C /\ Allocate n = Some m /\ array_ok ops kind m arr g /\
    length arr = length input /\
    forall task, (task < tasks_assigned ops g)%nat -> task ∉ h -> filled distinct_from index_value kind C (total_tasks ops g) task arr.

Record tasks_ok g ths : Prop := {
  to_locals : local_sinks ops g = locals;
  to_count : Z.of_nat (tasks_completed ops g) + zsum active ths = Z.of_nat (tasks_assigned ops g);
  to_assigned : (1 <= tasks_assigned ops g <= total_tasks ops g)%nat;
  to_NoDup : NoDup (held ths);
  to_held : forall task, task ∈ held ths -> (task < tasks_assigned ops g)%nat
}.

(** The threads build the tree. *)
Definition finished_ok (tree : option MergeSortTree) ths : Prop :=
  exists C leaves top m, collection_ok C /\ leaves_ok distinct_from index_value kind C leaves /\ is_top leaves top /\
    Forall (fun v => v < 2 ^ element_bits) leaves /\ tree = Some m /\ build_ok leaves top (m, builder_of <$> ths).

Definition stage_ok g ths : Prop :=
  match build_stage ops g with
  | INIT =>
      local_sinks ops g = locals /\ zsum active ths = 0 /\
      exists gs, global_sink ops g = Some gs /\ sort_inv gs locals /\ global_rows gs ++ mjoin (local_rows <$> locals) ≡ₚ input
  | COMBINE => tasks_ok g ths /\ total_tasks ops g = length locals /\ combined g (held ths)
  | FINALIZE => tasks_ok g ths /\ total_tasks ops g = 1%nat /\ finalized_data g (held ths)
  | SORTED => tasks_ok g ths /\ total_tasks ops g = length locals /\ sorted_data g (held ths)
  | FINISHED => finished_ok (mst ops g) ths
  end.

Definition sort_tree_ok (s : SortTreeSystem ops) : Prop :=
  Forall (sort_thread_ok (build_stage ops (fst s))) (snd s) /\ stage_ok (fst s) (snd s).

(** *** Tasks of threads *)

Lemma tasks_ok_move g ths j th th' :
  ths !! j = Some th -> active th = 0 -> active th' = 0 -> tasks_ok g ths -> tasks_ok g (<[j := th']> ths).
Proof.
  intros Hj Ha Ha' [H1 H2 H3 H4 H5]. destruct (held_insert ths j th Hj) as (rest & Hr & Hr').
  specialize (Hr' th'). assert (held (<[j := th']> ths) ≡ₚ held ths) as Hp.
  { rewrite Hr, Hr'. destruct th, th'; try done. }
  split; [done | | done | by rewrite Hp | intros task; rewrite Hp; apply H5].
  rewrite (zsum_insert _ _ _ _ _ Hj), Ha, Ha'. lia.
Qed.

Lemma held_idle ths j th th' : ths !! j = Some th -> active th = 0 -> active th' = 0 -> held (<[j := th']> ths) ≡ₚ held ths.
Proof.
  intros Hj Ha Ha'. destruct (held_insert ths j th Hj) as (rest & Hr & Hr'). rewrite Hr, (Hr' th'). by destruct th, th'.
Qed.

Lemma held_give ths j th stage task :
  ths !! j = Some th -> active th = 0 -> held (<[j := FinalizeTask stage task]> ths) ≡ₚ task :: held ths.
Proof.
  intros Hj Ha. destruct (held_insert ths j th Hj) as (rest & Hr & Hr'). rewrite Hr, Hr'. by destruct th.
Qed.

Lemma held_execute ths j stage task :
  ths !! j = Some (FinalizeTask stage task) -> held ths ≡ₚ task :: held (<[j := FinalizeCompleted]> ths).
Proof. intros Hj. destruct (held_insert ths j _ Hj) as (rest & Hr & Hr'). by rewrite Hr, Hr'. Qed.

Lemma combined_perm g h h' : h ≡ₚ h' -> combined g h -> combined g h'.
Proof.
  intros Hp (gs & Eg & Hi & Hr). exists gs. split; [done |]. cbn zeta in *. split.
  - eapply sort_inv_perm; [| exact Hi]. by rewrite Hp.
  - by rewrite <- Hp.
Qed.

Lemma finalized_perm g h h' : h ≡ₚ h' -> finalized_data g h -> finalized_data g h'.
Proof. intros Hp (gs & Eg & H). exists gs. split; [done |]. by rewrite <- Hp. Qed.

Lemma sorted_perm g h h' : h ≡ₚ h' -> sorted_data g h -> sorted_data g h'.
Proof.
  intros Hp (C & m & arr & H1 & H2 & H3 & H4 & H5 & H6). exists C, m, arr. split_and!; try done.
  intros task Ht. rewrite <- Hp. by apply H6.
Qed.

(** *** Steps *)

Lemma collection_length C : collection_ok C -> length (mjoin C) = length input.
Proof. intros H. by rewrite (co_rows _ H). Qed.

Lemma finished_move m ths j th th' :
  ths !! j = Some th -> builder_of th' = builder_of th -> finished_ok m ths -> finished_ok m (<[j := th']> ths).
Proof.
  intros Hj Hb (C & leaves & top & m' & H1 & H2 & H3 & H4 & H5 & H6). exists C, leaves, top, m'. split_and!; try done.
  rewrite list_fmap_insert, Hb, list_insert_id; [done |]. by rewrite list_lookup_fmap, Hj.
Qed.

(** A thread without a task goes on to a point without a task. *)
Lemma idle_ok g ths j th th' :
  ths !! j = Some th -> active th = 0 -> active th' = 0 -> builder_of th' = builder_of th ->
  sort_thread_ok (build_stage ops g) th' -> sort_tree_ok (g, ths) -> sort_tree_ok (g, <[j := th']> ths).
Proof.
  intros Hj Ha Ha' Hb Hth [Hall Hst]. split; cbn [fst snd] in *; [by apply Forall_insert |].
  pose proof (held_idle _ _ _ _ Hj Ha Ha') as Hh. unfold stage_ok in *. destruct (build_stage ops g).
  - destruct Hst as (H1 & H2 & H3). split_and!; [done | | done]. rewrite (zsum_insert _ _ _ _ _ Hj). lia.
  - destruct Hst as (H1 & H2 & H3). split_and!; [by eapply tasks_ok_move | done | by eapply combined_perm].
  - destruct Hst as (H1 & H2 & H3). split_and!; [by eapply tasks_ok_move | done | by eapply finalized_perm].
  - destruct Hst as (H1 & H2 & H3). split_and!; [by eapply tasks_ok_move | done | by eapply sorted_perm].
  - by eapply finished_move.
Qed.

(** Threads without tasks in any stage. *)
Lemma threads_idle stage stage' ths :
  stage <> FINISHED -> zsum active ths = 0 -> Forall (sort_thread_ok stage) ths -> Forall (sort_thread_ok stage') ths.
Proof.
  intros Hs Hz Hall. apply Forall_forall. intros th Hth. rewrite Forall_forall in Hall. specialize (Hall th Hth).
  assert (active th <= zsum active ths) as Ha by (apply zsum_member; [intros th' _; by destruct th' | done]).
  destruct th; cbn in *; try done; lia.
Qed.

Lemma new_stage_tasks g ths j stage tasks :
  ths !! j = Some FinalizePrepare -> zsum active ths = 0 -> local_sinks ops g = locals -> (1 <= tasks)%nat ->
  tasks_ok (next_stage ops stage tasks g) (<[j := FinalizeTask stage 0]> ths) /\ held (<[j := FinalizeTask stage 0]> ths) ≡ₚ [0%nat].
Proof.
  intros Hj Hz El Ht. assert (held (<[j := FinalizeTask stage 0]> ths) ≡ₚ [0%nat]) as Hh.
  { rewrite (held_give _ _ _ stage 0 Hj eq_refl). by rewrite held_active. }
  split; [| done]. split; cbn [next_stage local_sinks tasks_completed tasks_assigned total_tasks]; [done | | lia | |].
  - rewrite (zsum_insert _ _ _ _ _ Hj). cbn [active]. lia.
  - rewrite Hh. apply NoDup_singleton.
  - intros task. rewrite Hh, list_elem_of_singleton. lia.
Qed.

Lemma assign_tasks g ths j stage :
  ths !! j = Some FinalizePrepare -> tasks_ok g ths -> (tasks_assigned ops g < total_tasks ops g)%nat ->
  tasks_ok (assign_task ops g) (<[j := FinalizeTask stage (tasks_assigned ops g)]> ths).
Proof.
  intros Hj [H1 H2 H3 H4 H5] Hlt. pose proof (held_give _ _ _ stage (tasks_assigned ops g) Hj eq_refl) as Hh.
  split; cbn [assign_task local_sinks tasks_completed tasks_assigned total_tasks]; [done | | lia | |].
  - rewrite (zsum_insert _ _ _ _ _ Hj). cbn [active]. lia.
  - rewrite Hh. apply NoDup_cons. split; [| done]. intros Hin. apply H5 in Hin. lia.
  - intros task. rewrite Hh, elem_of_cons. intros [-> | Hin]; [lia |]. apply H5 in Hin. lia.
Qed.

(** The tasks of a stage are done. *)
Lemma tasks_done g ths :
  tasks_ok g ths -> (tasks_assigned ops g <= tasks_completed ops g)%nat -> zsum active ths = 0 /\ held ths = [].
Proof.
  intros [H1 H2 H3 H4 H5] Hc. pose proof (active_nonneg ths). assert (zsum active ths = 0) by lia. split; [done | by apply held_active].
Qed.

Lemma locals_at : local_at <$> seq 0 (length locals) = locals.
Proof.
  apply list_eq. intros i. rewrite list_lookup_fmap. unfold local_at. destruct (decide (i < length locals)%nat) as [Hi | Hi].
  - rewrite lookup_seq_lt by done. cbn. destruct (lookup_lt_is_Some_2 locals i Hi) as [l ->]. done.
  - rewrite lookup_seq_ge by lia. cbn. symmetry. apply lookup_ge_None_2. lia.
Qed.

Lemma locals_rows : (seq 0 (length locals) ≫= fun task => local_rows (local_at task)) = mjoin (local_rows <$> locals).
Proof.
  rewrite <- locals_at at 2. induction (seq 0 (length locals)) as [| task tasks IH]; [done |].
  rewrite bind_cons, !fmap_cons, mjoin_cons. by rewrite IH.
Qed.

(** *** Stages *)

Definition prepared g ths (j : nat) : Prop :=
  exists g' task, TryPrepareSortStage ops kind g = Some (g', task) /\
    sort_tree_ok (g', <[j := match task with Some (stage, task) => FinalizeTask stage task | None => FinalizeLoop end]> ths).

Lemma stage_waits g ths j : sort_tree_ok (g, ths) -> ths !! j = Some FinalizePrepare -> TryPrepareSortStage ops kind g = Some (g, None) -> prepared g ths j.
Proof. intros Hok Hj E. exists g, None. split; [done |]. by eapply idle_ok. Qed.

(** A stage begins when no thread has a task. *)
Lemma stage_begins g ths j g' stage task :
  Forall (sort_thread_ok (build_stage ops g)) ths -> build_stage ops g <> FINISHED -> zsum active ths = 0 ->
  TryPrepareSortStage ops kind g = Some (g', Some (stage, task)) -> build_stage ops g' = stage ->
  stage_ok g' (<[j := FinalizeTask stage task]> ths) -> prepared g ths j.
Proof.
  intros Hall Hf Hz E Es H. exists g', (Some (stage, task)). split; [done |]. split; [| done]. cbn [fst snd]. rewrite Es.
  apply Forall_insert; [| done]. by eapply threads_idle.
Qed.

Lemma stage_gives g ths j stage :
  Forall (sort_thread_ok (build_stage ops g)) ths -> build_stage ops g = stage ->
  TryPrepareSortStage ops kind g = Some (assign_task ops g, Some (stage, tasks_assigned ops g)) ->
  stage_ok (assign_task ops g) (<[j := FinalizeTask stage (tasks_assigned ops g)]> ths) -> prepared g ths j.
Proof.
  intros Hall Es E H. exists (assign_task ops g), (Some (stage, tasks_assigned ops g)). split; [done |]. split; [| done]. cbn [fst snd].
  by apply Forall_insert.
Qed.

Lemma locals_length : (1 <= length locals)%nat.
Proof. destruct locals; [done | cbn; lia]. Qed.

Lemma prepare_init g ths j :
  sort_tree_ok (g, ths) -> ths !! j = Some FinalizePrepare -> build_stage ops g = INIT -> prepared g ths j.
Proof.
  intros [Hall Hst] Hj Es. cbn [fst snd] in *. unfold stage_ok in Hst. rewrite Es in Hst.
  destruct Hst as (El & Hz & gs & Eg & Hi & Hr). pose proof locals_length.
  eapply (stage_begins g ths j _ COMBINE 0); [done | by rewrite Es | done | unfold TryPrepareSortStage; by rewrite Es | done |].
  destruct (new_stage_tasks g ths j COMBINE (length (local_sinks ops g)) Hj Hz El) as [Ht Hh]; [by rewrite El |].
  split_and!; [done | by rewrite <- El |]. apply (combined_perm _ [0%nat]); [done |]. exists gs. split; [done |]. cbn zeta.
  cbn [next_stage tasks_assigned total_tasks app]. rewrite El.
  assert (0%nat :: seq 1 (length locals - 1) = seq 0 (length locals)) as -> by (destruct locals; [done | cbn; by rewrite Nat.sub_0_r]).
  by rewrite locals_at, locals_rows.
Qed.

Lemma prepare_combine g ths j :
  sort_tree_ok (g, ths) -> ths !! j = Some FinalizePrepare -> build_stage ops g = COMBINE -> prepared g ths j.
Proof.
  intros Hok Hj Es. pose proof Hok as [Hall Hst]. cbn [fst snd] in *. unfold stage_ok in Hst. rewrite Es in Hst.
  destruct Hst as (Ht & Etot & gs & Eg & Hi & Hr). cbn zeta in *.
  destruct (Nat.lt_ge_cases (tasks_assigned ops g) (total_tasks ops g)) as [Hlt | Hge].
  - eapply (stage_gives g ths j COMBINE); [done | done | unfold TryPrepareSortStage; by rewrite Es, (proj2 (Nat.ltb_lt _ _) Hlt) |].
    unfold stage_ok. cbn [assign_task build_stage]. rewrite Es. split_and!; [by apply assign_tasks | done |].
    eapply combined_perm; [symmetry; by eapply held_give |]. exists gs. split; [done |]. cbn zeta.
    cbn [assign_task tasks_assigned total_tasks]. replace (total_tasks ops g - tasks_assigned ops g)%nat with
      (S (total_tasks ops g - S (tasks_assigned ops g))) in * by lia. cbn [seq] in *.
    pose proof (Permutation_middle (held ths) (seq (S (tasks_assigned ops g)) (total_tasks ops g - S (tasks_assigned ops g))) (tasks_assigned ops g)) as Hp.
    cbn [app]. split; [eapply sort_inv_perm; [| exact Hi] |]; by rewrite Hp.
  - destruct (Nat.lt_ge_cases (tasks_completed ops g) (tasks_assigned ops g)) as [Hw | Hdone].
    { apply stage_waits; [done | done |]. unfold TryPrepareSortStage. by rewrite Es, (proj2 (Nat.ltb_ge _ _) Hge), (proj2 (Nat.ltb_lt _ _) Hw). }
    destruct (tasks_done g ths Ht Hdone) as [Hz Hh0].
    eapply (stage_begins g ths j _ FINALIZE 0); [done | by rewrite Es | done |
      unfold TryPrepareSortStage; by rewrite Es, (proj2 (Nat.ltb_ge _ _) Hge), (proj2 (Nat.ltb_ge _ _) Hdone) | done |].
    destruct (new_stage_tasks g ths j FINALIZE 1 Hj Hz (to_locals _ _ Ht)) as [Ht' Hh]; [lia |].
    split_and!; [done | done |]. apply (finalized_perm _ [0%nat]); [done |]. exists gs. split; [done |]. left.
    rewrite Hh0 in Hi, Hr. replace (total_tasks ops g - tasks_assigned ops g)%nat with 0%nat in * by lia. cbn in Hi, Hr. rewrite app_nil_r in Hr.
    split_and!; [by left | done | done].
Qed.

Lemma prepare_finalize g ths j :
  sort_tree_ok (g, ths) -> ths !! j = Some FinalizePrepare -> build_stage ops g = FINALIZE -> prepared g ths j.
Proof.
  intros Hok Hj Es. pose proof Hok as [Hall Hst]. cbn [fst snd] in *. unfold stage_ok in Hst. rewrite Es in Hst.
  destruct Hst as (Ht & Etot & gs & Eg & Hc). pose proof locals_length.
  destruct (Nat.lt_ge_cases (tasks_completed ops g) (tasks_assigned ops g)) as [Hw | Hdone].
  { apply stage_waits; [done | done |]. unfold TryPrepareSortStage. by rewrite Es, (proj2 (Nat.ltb_lt _ _) Hw). }
  destruct (tasks_done g ths Ht Hdone) as [Hz Hh0]. destruct Hc as [[Hin _] | [_ (C & EC & HC)]]; [rewrite Hh0 in Hin; by apply not_elem_of_nil in Hin |].
  destruct (top_exists (replicate (length input) 0)) as (top & Htop & Hle).
  destruct (Allocate_ok (replicate (length input) 0) top Htop Hle) as (m & Em & _). rewrite length_replicate in Em.
  destruct (MeasurePayloadBlocks_ok ops kind g C EC m) as (arr & Epay & Hla); [by rewrite collection_length |].
  assert (local_sinks ops (put ops kind m arr g) = locals) as El by (rewrite <- (to_locals _ _ Ht); by destruct kind).
  eapply (stage_begins g ths j _ SORTED 0); [done | by rewrite Es | done |
    unfold TryPrepareSortStage; by rewrite Es, (proj2 (Nat.ltb_ge _ _) Hdone), Epay | done |].
  rewrite El. destruct (new_stage_tasks (put ops kind m arr g) ths j SORTED (length locals) Hj Hz El) as [Ht' Hh]; [done |].
  split_and!; [done | done |]. exists C, m, arr. split_and!; [by destruct kind | done | done | by destruct kind | by rewrite Hla, collection_length |].
  intros task. cbn [next_stage tasks_assigned]. intros Hlt Hno. exfalso. apply Hno. rewrite Hh. apply list_elem_of_singleton. lia.
Qed.

(** The trees are filled: [Finished]. *)
Lemma sorted_finished g ths :
  tasks_ok g ths -> total_tasks ops g = tasks_assigned ops g -> held ths = [] -> sorted_data g (held ths) ->
  exists C leaves m ds, Finished ops kind g = Some (mkSortTree ops (build_stage ops g) (total_tasks ops g) (tasks_assigned ops g)
      (tasks_completed ops g) None [] None (Some (with_leaves leaves m)) ds) /\
    collection_ok C /\ leaves_ok distinct_from index_value kind C leaves /\ Forall (fun v => v < 2 ^ element_bits) leaves /\
    Allocate n = Some m.
Proof.
  intros Ht Etot Hh0 (C & m & arr & H1 & H2 & H3 & H4 & H5 & H6).
  destruct (Allocate_leaves _ _ H3) as [Hm Hlow]. rewrite Nat2Z.id in Hlow. pose proof (collection_length C H2) as HlC.
  assert (0 < total_tasks ops g)%nat as Htot by (pose proof (to_assigned _ _ Ht); lia).
  destruct (Finished_ok distinct_from index_value ops kind g C m arr H1 (co_chunks _ H2)) as (leaves & ds & E & Hleaves & Hsmall);
    [| done | by rewrite HlC | by rewrite HlC | done | by rewrite HlC | |].
  - destruct kind; [done |]. destruct Hinput as [Hi1 Hi2]. split; [by intros Hnil; rewrite Hnil in HlC; destruct input |].
    rewrite HlC, <- Hi2. by rewrite (co_rows _ H2).
  - apply (tasks_cover distinct_from index_value kind C (total_tasks ops g)); [done |]. intros task Hlt. apply H6; [lia |].
    rewrite Hh0. apply not_elem_of_nil.
  - by exists C, leaves, m, ds.
Qed.

Lemma prepare_sorted g ths j :
  sort_tree_ok (g, ths) -> ths !! j = Some FinalizePrepare -> build_stage ops g = SORTED -> prepared g ths j.
Proof.
  intros Hok Hj Es. pose proof Hok as [Hall Hst]. cbn [fst snd] in *. unfold stage_ok in Hst. rewrite Es in Hst.
  destruct Hst as (Ht & Etot & Hc). destruct (Nat.lt_ge_cases (tasks_assigned ops g) (total_tasks ops g)) as [Hlt | Hge].
  - eapply (stage_gives g ths j SORTED); [done | done | unfold TryPrepareSortStage; by rewrite Es, (proj2 (Nat.ltb_lt _ _) Hlt) |].
    unfold stage_ok. cbn [assign_task build_stage]. rewrite Es. split_and!; [by apply assign_tasks | done |].
    destruct Hc as (C & m & arr & H1 & H2 & H3 & H4 & H5 & H6). eapply sorted_perm; [symmetry; by eapply held_give |].
    exists C, m, arr. split_and!; [done.. | by destruct kind | done |]. cbn [assign_task tasks_assigned total_tasks].
    intros task Hlt' Hno. apply not_elem_of_cons in Hno as [Hne Hno]. apply H6; [lia | done].
  - destruct (Nat.lt_ge_cases (tasks_completed ops g) (tasks_assigned ops g)) as [Hw | Hdone].
    { apply stage_waits; [done | done |]. unfold TryPrepareSortStage. by rewrite Es, (proj2 (Nat.ltb_ge _ _) Hge), (proj2 (Nat.ltb_lt _ _) Hw). }
    destruct (tasks_done g ths Ht Hdone) as [Hz Hh0]. pose proof (to_assigned _ _ Ht).
    destruct (sorted_finished g ths Ht ltac:(lia) Hh0 Hc) as (C & leaves & m & ds & Ef & HC & Hleaves & Hsmall & Em).
    eapply (stage_begins g ths j _ FINISHED 0); [done | by rewrite Es | done |
      unfold TryPrepareSortStage; by rewrite Es, (proj2 (Nat.ltb_ge _ _) Hge), (proj2 (Nat.ltb_ge _ _) Hdone), Ef | done |].
    unfold stage_ok. cbn [build_stage mst]. assert (length leaves = length input) as Hll by (by rewrite (proj1 Hleaves), collection_length).
    destruct (top_exists leaves) as (top & Htop & Hle). destruct (Allocate_ok leaves top Htop Hle) as (m' & Em' & _ & Hs & E1 & E2 & E3 & E4 & E5).
    rewrite Hll, Em in Em'. injection Em' as <-. exists C, leaves, top, (with_leaves leaves m). split_and!; try done.
    assert (builder_of <$> <[j := FinalizeTask FINISHED 0]> ths = replicate (length ths) AtLoop) as ->; [| by apply new_build_ok].
    symmetry. apply replicate_as_Forall. split; [by rewrite length_fmap, length_insert |]. apply Forall_fmap.
    apply Forall_insert; [| done]. eapply Forall_impl; [exact Hall |]. intros th' Hth'. unfold compose. rewrite Es in Hth'. by destruct th'.
Qed.

Lemma prepare_ok g ths j : sort_tree_ok (g, ths) -> ths !! j = Some FinalizePrepare -> prepared g ths j.
Proof.
  intros Hok Hj. destruct (build_stage ops g) eqn:Es;
    [by apply prepare_init | by apply prepare_combine | by apply prepare_finalize | by apply prepare_sorted |].
  destruct Hok as [Hall Hst]. cbn [fst snd] in *. exists g, (Some (FINISHED, 0%nat)). split; [unfold TryPrepareSortStage; by rewrite Es |].
  split; cbn [fst snd]; [by apply Forall_insert |]. unfold stage_ok in *. rewrite Es in *. by eapply finished_move.
Qed.

(** *** Tasks *)

Definition same_tasks g g' : Prop :=
  build_stage ops g' = build_stage ops g /\ total_tasks ops g' = total_tasks ops g /\ tasks_assigned ops g' = tasks_assigned ops g /\
  tasks_completed ops g' = tasks_completed ops g /\ local_sinks ops g' = local_sinks ops g.

Lemma execute_tasks g g' ths j stage task :
  tasks_ok g ths -> ths !! j = Some (FinalizeTask stage task) -> same_tasks g g' ->
  tasks_ok g' (<[j := FinalizeCompleted]> ths) /\ task ∉ held (<[j := FinalizeCompleted]> ths).
Proof.
  intros [H1 H2 H3 H4 H5] Hj (E1 & E2 & E3 & E4 & E5). pose proof (held_execute ths j stage task Hj) as Hh.
  rewrite Hh in H4. apply NoDup_cons in H4 as [Hno Hnd]. split; [| done]. split; rewrite ?E2, ?E3, ?E4, ?E5; try done.
  - rewrite (zsum_insert _ _ _ _ _ Hj). cbn [active]. lia.
  - intros task' Hin. apply H5. rewrite Hh. by right.
Qed.

Definition executed g ths (j : nat) (stage : WindowMergeSortStage) (task : nat) env : Prop :=
  exists g', ExecuteSortTask distinct_from index_value ops materialize kind env g stage task = Some g' /\
    sort_tree_ok (g', <[j := FinalizeCompleted]> ths).

Lemma executed_stage g g' ths j stage task env :
  Forall (sort_thread_ok (build_stage ops g)) ths -> tasks_ok g ths -> ths !! j = Some (FinalizeTask stage task) ->
  ExecuteSortTask distinct_from index_value ops materialize kind env g stage task = Some g' -> same_tasks g g' ->
  (tasks_ok g' (<[j := FinalizeCompleted]> ths) -> task ∉ held (<[j := FinalizeCompleted]> ths) ->
    stage_ok g' (<[j := FinalizeCompleted]> ths)) -> executed g ths j stage task env.
Proof.
  intros Hall Ht Hj E Hs H. destruct (execute_tasks g g' ths j stage task Ht Hj Hs) as [Ht' Hno].
  exists g'. split; [done |]. split; [| by apply H]. cbn [fst snd]. rewrite (proj1 Hs). by apply Forall_insert.
Qed.

Lemma execute_combine g ths j task env :
  sort_tree_ok (g, ths) -> build_stage ops g = COMBINE -> ths !! j = Some (FinalizeTask COMBINE task) -> executed g ths j COMBINE task env.
Proof.
  intros [Hall Hst] Es Hj. cbn [fst snd] in *. unfold stage_ok in Hst. rewrite Es in Hst. destruct Hst as (Ht & Etot & gs & Eg & Hi & Hr).
  cbn zeta in *. pose proof (held_execute ths j COMBINE task Hj) as Hh.
  assert (task < tasks_assigned ops g)%nat as Hlt by (apply (to_held _ _ Ht); rewrite Hh; by left). pose proof (to_assigned _ _ Ht).
  destruct (lookup_lt_is_Some_2 locals task) as [local Hl]; [lia |].
  assert (local_at task = local) as El by (unfold local_at; by rewrite Hl).
  set (h := held (<[j := FinalizeCompleted]> ths)) in *.
  set (later := seq (tasks_assigned ops g) (total_tasks ops g - tasks_assigned ops g)) in *.
  destruct (sort_combine_rows env gs local (local_at <$> h ++ later)) as (gs' & Ec & Hi' & Hr').
  { eapply sort_inv_perm; [| exact Hi]. rewrite Hh. cbn [app]. by rewrite fmap_cons, El. }
  eapply executed_stage; [done | done | done | cbn [ExecuteSortTask]; rewrite (to_locals _ _ Ht), Hl; cbn [mbind option_bind]; rewrite Eg;
    cbn [mbind option_bind]; rewrite Ec; reflexivity | split_and!; try done; symmetry; apply Ht |].
  intros Ht' Hno. unfold stage_ok. cbn [build_stage]. rewrite Es in Ht' |- *. split_and!; [done | done |].
  exists gs'. split; [done |]. cbn [tasks_assigned total_tasks]. fold later h. split; [done |].
  rewrite Hr', <- Hr, Hh. cbn [app]. rewrite bind_cons, El. by rewrite app_assoc.
Qed.

Lemma execute_finalize g ths j task env :
  sort_tree_ok (g, ths) -> build_stage ops g = FINALIZE -> ths !! j = Some (FinalizeTask FINALIZE task) -> executed g ths j FINALIZE task env.
Proof.
  intros [Hall Hst] Es Hj. cbn [fst snd] in *. unfold stage_ok in Hst. rewrite Es in Hst. destruct Hst as (Ht & Etot & gs & Eg & Hc).
  pose proof (held_execute ths j FINALIZE task Hj) as Hh.
  assert (task < tasks_assigned ops g)%nat as Hlt by (apply (to_held _ _ Ht); rewrite Hh; by left). pose proof (to_assigned _ _ Ht).
  assert (task = 0)%nat as -> by lia. destruct Hc as [(_ & Hi & Hr) | [Hno _]]; [| exfalso; apply Hno; rewrite Hh; by left].
  eapply executed_stage; [done | done | done | cbn [ExecuteSortTask]; rewrite Eg; reflexivity | by split_and! |].
  intros Ht' Hno. unfold stage_ok. cbn [build_stage]. rewrite Es in Ht' |- *. split_and!; [done | done |].
  exists (sort_finalize ops gs). split; [done |]. right. split; [done |]. eexists. split; [done |].
  split; [by apply materialize_chunks | by rewrite materialize_rows | by apply materialize_sorted].
Qed.

Lemma execute_sorted g ths j task env :
  sort_tree_ok (g, ths) -> build_stage ops g = SORTED -> ths !! j = Some (FinalizeTask SORTED task) -> executed g ths j SORTED task env.
Proof.
  intros [Hall Hst] Es Hj. cbn [fst snd] in *. unfold stage_ok in Hst. rewrite Es in Hst.
  destruct Hst as (Ht & Etot & C & m & arr & H1 & H2 & H3 & H4 & H5 & H6).
  pose proof (held_execute ths j SORTED task Hj) as Hh. pose proof (to_assigned _ _ Ht). pose proof (collection_length C H2) as HlC.
  assert (task < tasks_assigned ops g)%nat as Hlt by (apply (to_held _ _ Ht); rewrite Hh; by left).
  assert (input_ok kind (mjoin C)) as HiC.
  { destruct kind; [done |]. destruct Hinput as [Hi1 Hi2]. split; [by intros Hnil; rewrite Hnil in HlC; destruct input |].
    rewrite HlC, <- Hi2. by rewrite (co_rows _ H2). }
  destruct (BuildLeaves_ok distinct_from index_value ops kind g C m arr task H1 (co_chunks _ H2) HiC ltac:(lia)
    (proj1 (Allocate_leaves _ _ H3)) H4 ltac:(by rewrite HlC)) as (arr' & E & Hl' & Hf & Hmono).
  assert (same_tasks g (put ops kind m arr' g)) as Hs by (destruct kind; by split_and!).
  eapply executed_stage; [done | done | done | exact E | exact Hs |]. intros Ht' Hno. unfold stage_ok. rewrite (proj1 Hs), Es.
  split_and!; [done | by destruct kind |].
  exists C, m, arr'. split_and!; [by destruct kind | done | done | apply put_ok | congruence |].
  assert (total_tasks ops (put ops kind m arr' g) = total_tasks ops g) as -> by by destruct kind.
  assert (tasks_assigned ops (put ops kind m arr' g) = tasks_assigned ops g) as -> by by destruct kind.
  intros task' Hlt' Hno'. destruct (decide (task' = task)) as [-> | Hne]; [done |].
  intros p Hp. assert (0 <= p) by (pose proof (chunk_start_range C (Nat.div (task' * length C) (total_tasks ops g))); unfold task_begin in Hp; lia).
  destruct (Hmono p ltac:(done)) as [-> | ->]; [done |]. apply (H6 task'); [done | | done].
  rewrite Hh. by apply not_elem_of_cons.
Qed.

Lemma execute_ok g ths j stage task env :
  sort_tree_ok (g, ths) -> ths !! j = Some (FinalizeTask stage task) -> executed g ths j stage task env.
Proof.
  intros Hok Hj. assert (stage = build_stage ops g) as ->.
  { destruct Hok as [Hall _]. exact (Forall_lookup_1 _ _ _ _ Hall Hj). }
  destruct (build_stage ops g) eqn:Es; [| by apply execute_combine | by apply execute_finalize | by apply execute_sorted |].
  - destruct Hok as [_ Hst]. cbn [fst snd] in Hst. unfold stage_ok in Hst. rewrite Es in Hst. destruct Hst as (_ & Hz & _).
    pose proof (held_execute ths j INIT task Hj) as Hh. rewrite held_active in Hh by done. by apply Permutation_nil_cons in Hh.
  - destruct Hok as [Hall Hst]. cbn [fst snd] in *. exists g. split; [done |]. split; cbn [fst snd]; [by apply Forall_insert |].
    unfold stage_ok in *. rewrite Es in *. by eapply finished_move.
Qed.

(** The increment at the end of a task. *)
Definition complete_task g : State :=
  mkSortTree ops (build_stage ops g) (total_tasks ops g) (tasks_assigned ops g) (S (tasks_completed ops g)) (global_sink ops g)
    (local_sinks ops g) (sorted ops g) (mst ops g) (deltas ops g).

Lemma completed_ok g ths j :
  sort_tree_ok (g, ths) -> ths !! j = Some FinalizeCompleted -> sort_tree_ok (complete_task g, <[j := FinalizeLoop]> ths).
Proof.
  intros [Hall Hst] Hj. cbn [fst snd] in *. split; cbn [fst snd complete_task build_stage]; [by apply Forall_insert |].
  assert (held (<[j := FinalizeLoop]> ths) ≡ₚ held ths) as Hh.
  { destruct (held_insert ths j _ Hj) as (rest & Hr & Hr'). by rewrite Hr, Hr'. }
  assert (tasks_ok g ths -> tasks_ok (complete_task g) (<[j := FinalizeLoop]> ths)) as Ht.
  { intros [H1 H2 H3 H4 H5].
    split; cbn [complete_task local_sinks tasks_completed tasks_assigned total_tasks]; [done | | done | by rewrite Hh | intros task; rewrite Hh; apply H5].
    rewrite (zsum_insert _ _ _ _ _ Hj). cbn [active]. lia. }
  unfold stage_ok in *. cbn [complete_task build_stage local_sinks total_tasks mst] in *. destruct (build_stage ops g).
  - destruct Hst as (_ & Hz & _). assert (active FinalizeCompleted <= zsum active ths) as Ha; [| cbn in Ha; lia].
    apply zsum_member; [intros th _; by destruct th | by eapply list_elem_of_lookup_2].
  - destruct Hst as (H1 & H2 & H3). split_and!; [by apply Ht | done |]. apply (combined_perm _ (held ths)); [by symmetry | done].
  - destruct Hst as (H1 & H2 & H3). split_and!; [by apply Ht | done |]. apply (finalized_perm _ (held ths)); [by symmetry | done].
  - destruct Hst as (H1 & H2 & H3). split_and!; [by apply Ht | done |]. apply (sorted_perm _ (held ths)); [by symmetry |].
    exact H3.
  - by eapply finished_move.
Qed.

Lemma building_ok g ths j builder :
  sort_tree_ok (g, ths) -> ths !! j = Some (Building builder) ->
  exists m m' builder', mst ops g = Some m /\ build_thread_step garbage m builder = Some (m', builder') /\
    sort_tree_ok (set_mst ops m' g, <[j := Building builder']> ths).
Proof.
  intros [Hall Hst] Hj. cbn [fst snd] in *. pose proof (Forall_lookup_1 _ _ _ _ Hall Hj) as Es. cbn in Es.
  unfold stage_ok in Hst. rewrite Es in Hst. destruct Hst as (C & leaves & top & m & H1 & H2 & H3 & H4 & H5 & H6).
  assert (Z.of_nat (length leaves) < 2 ^ offset_bits) as Hn by (by rewrite (proj1 H2), collection_length).
  destruct (build_step_ok leaves Hn H4 garbage top (m, builder_of <$> ths) j H6) as (s' & E & Hok & _).
  unfold build_system_step in E. cbn [fst snd] in E. rewrite list_lookup_fmap, Hj in E. cbn [fmap option_fmap option_map builder_of] in E.
  destruct (build_thread_step garbage m builder) as [[m' builder'] |] eqn:Eb; [| done]. cbn [mbind option_bind] in E. injection E as <-.
  exists m, m', builder'. split_and!; [done.. |]. split; cbn [fst snd].
  - apply Forall_insert; [by destruct g | by destruct g].
  - unfold stage_ok. assert (build_stage ops (set_mst ops m' g) = FINISHED) as -> by by destruct g.
    exists C, leaves, top, m'. split_and!; [done.. |]. rewrite list_fmap_insert. exact Hok.
Qed.

Lemma sort_tree_step_ok s turn :
  sort_tree_ok s ->
  exists s', sort_tree_step distinct_from index_value ops materialize kind garbage s turn = Some s' /\ sort_tree_ok s' /\
    length (snd s') = length (snd s).
Proof.
  intros Hok. destruct s as [g ths], turn as [j env]. unfold sort_tree_step. cbn [fst snd].
  destruct (ths !! j) as [th |] eqn:Hj; [| by exists (g, ths)].
  assert (forall g' th', sort_tree_thread_step distinct_from index_value ops materialize kind garbage env g th = Some (g', th') ->
    sort_tree_ok (g', <[j := th']> ths) ->
    exists s', ('(g, th) ← sort_tree_thread_step distinct_from index_value ops materialize kind garbage env g th; Some (g, <[j := th]> ths)) = Some s' /\
      sort_tree_ok s' /\ length (snd s') = length ths) as Hstep.
  { intros g' th' -> H. cbn [mbind option_bind]. eexists. split_and!; [done | done |]. cbn [snd]. apply length_insert. }
  destruct th as [| | stage task | | builder]; cbn [sort_tree_thread_step] in Hstep |- *.
  - eapply Hstep; [done |]. eapply idle_ok; [done | done | by case_decide | by case_decide | by case_decide | done].
  - destruct (prepare_ok g ths j Hok Hj) as (g' & task & E & H). rewrite E in *. cbn [mbind option_bind] in *. by eapply Hstep.
  - destruct (execute_ok g ths j stage task env Hok Hj) as (g' & E & H). rewrite E in *. cbn [mbind option_bind] in *. by eapply Hstep.
  - eapply Hstep; [done |]. by apply completed_ok.
  - destruct (building_ok g ths j builder Hok Hj) as (m & m' & builder' & E & Eb & H). rewrite E in *. cbn [mbind option_bind] in *.
    rewrite Eb in *. cbn [mbind option_bind] in *. by eapply Hstep.
Qed.

Lemma sort_tree_steps_ok s schedule :
  sort_tree_ok s ->
  exists s', ofold (sort_tree_step distinct_from index_value ops materialize kind garbage) s schedule = Some s' /\ sort_tree_ok s' /\
    length (snd s') = length (snd s).
Proof.
  revert s. induction schedule as [| turn schedule IH]; intros s Hok; [by exists s |].
  destruct (sort_tree_step_ok s turn Hok) as (s1 & E1 & Hok1 & Hl1). rewrite ofold_cons, E1. cbn [mbind option_bind].
  destruct (IH s1 Hok1) as (s2 & E2 & Hok2 & Hl2). exists s2. split_and!; [done | done | congruence].
Qed.

(** The threads begin when all rows are in the sinks. *)
Lemma sort_tree_new_ok gs threads :
  sort_inv gs locals -> global_rows gs ++ mjoin (local_rows <$> locals) ≡ₚ input ->
  sort_tree_ok (WindowMergeSortTree_new ops gs locals, replicate threads FinalizeLoop).
Proof.
  intros Hi Hr. split; cbn [fst snd]; [by apply Forall_replicate |]. unfold stage_ok, WindowMergeSortTree_new. cbn [build_stage].
  split_and!; [done | | by exists gs]. induction threads as [| threads IH]; [done |]. cbn [replicate]. by rewrite zsum_cons.
Qed.

(** What a thread that leaves [Build] has seen. *)
Lemma sort_tree_done s j :
  sort_tree_ok s -> snd s !! j = Some (Building BuildDone) ->
  exists C leaves top m, collection_ok C /\ leaves_ok distinct_from index_value kind C leaves /\ is_top leaves top /\
    mst ops (fst s) = Some m /\ tree_complete leaves top (tree m).
Proof.
  destruct s as [g ths]. intros [Hall Hst] Hj. cbn [fst snd] in *. pose proof (Forall_lookup_1 _ _ _ _ Hall Hj) as Es. cbn in Es.
  unfold stage_ok in Hst. rewrite Es in Hst. destruct Hst as (C & leaves & top & m & H1 & H2 & H3 & H4 & H5 & H6).
  exists C, leaves, top, m. split_and!; try done.
  assert ((builder_of <$> ths) !! j = Some BuildDone) as Hb by (by rewrite list_lookup_fmap, Hj).
  pose proof (bo_threads _ _ _ H6 j _ Hb) as Hd. cbn in Hd. split; [apply H6 |]. intros l Hl. apply (bo_below _ _ _ H6); cbn; lia.
Qed.
End threads.
