(* ===== verification/WindowTreeSearch.v ===== *)
(** * What the trees of argument orders give the functions

    The tree of an IndexTree finds the n-th row of a frame in the argument order, which
    is the interface that the value functions use (WindowValue), and the tokens of a token
    tree give the rank of a row among the rows of its frame and the end of its peers. *)

From S2P Require Import Prelude Validity MaskSearch Boundaries RangeSearch Aggregates WindowMasks WindowMasksInvariant WindowValue Rank Sort MergeSortTree MergeSortGames MergeSortRuns MergeSortBuild MergeSortThreads MergeSortSearch MergeSortAggregate WindowTrees WindowTreesInvariant WindowTreeThreads.

(** ** Positions in a filtered list *)

Lemma filter_count {A} (f : A -> bool) (d : A) (l : list A) :
  Z.of_nat (length (List.filter f l)) = zcount (fun i => f (znth d l i)) 0 (Z.of_nat (length l)).
Proof.
  induction l as [| x l IH] using rev_ind; [by rewrite zcount_nil |].
  rewrite List.filter_app, !length_app. cbn [length List.filter]. replace (Z.of_nat (length l + 1)) with (Z.of_nat (length l) + 1) by lia.
  rewrite zcount_snoc by lia. rewrite (zcount_ext _ (fun i => f (znth d l i)) 0 (Z.of_nat (length l))).
  - rewrite <- IH. assert (znth d (l ++ [x]) (Z.of_nat (length l)) = x) as ->.
    { unfold znth. rewrite Nat2Z.id, list_lookup_middle by done. done. }
    destruct (f x); cbn [length Z.b2z]; lia.
  - intros i Hi. unfold znth. by rewrite lookup_app_l by lia.
Qed.

(** The element with [n] matches before it is the [n]-th match. *)
Lemma filter_lookup {A} (f : A -> bool) (d : A) (l : list A) (p : Z) :
  0 <= p < Z.of_nat (length l) -> f (znth d l p) = true ->
  List.filter f l !! Z.to_nat (zcount (fun i => f (znth d l i)) 0 p) = Some (znth d l p).
Proof.
  intros Hp Hf. destruct (lookup_lt_is_Some_2 l (Z.to_nat p)) as [x Hx]; [lia |].
  assert (znth d l p = x) as Ex by (unfold znth; by rewrite Hx). rewrite Ex in *.
  rewrite <- (take_drop_middle l (Z.to_nat p) x Hx) at 1. rewrite List.filter_app. cbn [List.filter]. rewrite Hf.
  assert (zcount (fun i => f (znth d l i)) 0 p = Z.of_nat (length (List.filter f (take (Z.to_nat p) l)))) as ->.
  { rewrite (filter_count f d), length_take_le by lia. rewrite Z2Nat.id by lia. apply zcount_ext. intros i Hi. unfold znth.
    by rewrite lookup_take_lt by lia. }
  rewrite Nat2Z.id, lookup_app_r, Nat.sub_diag by lia. done.
Qed.

Section index.
Context {V : Type} {traits : MergeSortTraits} {k c : nat} `{!MergeSortTraitsOk k c}.
Context (C : list (list (list V * Z))) (leaves : list Z) (top : nat) (t : Tree).
Abbreviation order := (snd <$> mjoin C).
Context (Hleaves : length leaves = length (mjoin C)).
Context (Hstored : forall p, 0 <= p < Z.of_nat (length (mjoin C)) -> znth 0 leaves p = store_index (row_index C p)).
Context (Hrange : Forall (fun i => 0 <= i < 2 ^ element_bits) order).
Context (Ht : tree_complete leaves top t) (Htop : is_top leaves top) (Hn : Z.of_nat (length leaves) < 2 ^ 64).

Lemma leaves_order : leaves = order.
Proof.
  apply list_eq. intros i. destruct (decide (i < length leaves)%nat) as [Hi | Hi].
  - pose proof (Hstored (Z.of_nat i) ltac:(lia)) as E. pose proof (row_index_lookup C (Z.of_nat i) ltac:(lia)) as Er. rewrite Nat2Z.id in Er.
    rewrite Er. destruct (lookup_lt_is_Some_2 leaves i Hi) as [v Hv]. unfold znth in E. rewrite Nat2Z.id, Hv in E. cbn in E. unfold id in E.
    rewrite Hv. f_equal. rewrite E. unfold store_index. apply Z.mod_small. by apply (Forall_lookup_1 _ _ _ _ Hrange Er).
  - rewrite !lookup_ge_None_2; [done | rewrite length_fmap; lia | lia].
Qed.

Lemma NthElement_leaf p : 0 <= p < Z.of_nat (length leaves) -> NthElement t p = Some (znth 0 order p).
Proof.
  intros Hp. unfold NthElement. rewrite LowestLevel_level, (proj1 (proj2 (proj1 Ht))), <- leaves_order. by apply zload_Some.
Qed.

Lemma selected_length frames : Z.of_nat (length (selected frames order)) = zcount (leaf_in leaves frames) 0 (Z.of_nat (length leaves)).
Proof. rewrite leaves_order. unfold selected. by rewrite (filter_count _ 0). Qed.

Lemma index_tree_found frames n r :
  frames_ordered frames -> 0 <= n -> selected frames order !! Z.to_nat n = Some r -> IndexTree_SelectNth t frames n = Some (r, 0).
Proof.
  intros Hf Hpos Hr. pose proof (lookup_lt_Some _ _ _ Hr) as Hlt.
  assert (n < zcount (leaf_in leaves frames) 0 (Z.of_nat (length leaves))) as Htotal by (rewrite <- selected_length; lia).
  pose proof (zcount_le (leaf_in leaves frames) 0 (Z.of_nat (length leaves))).
  destruct (SelectNthElement_position leaves Hn top t Ht Htop frames Hf n Hpos ltac:(lia)) as [Hfound _].
  destruct (Hfound Htotal) as (p & E & Hp & Hin & Ec). unfold IndexTree_SelectNth. rewrite E. cbn [mbind option_bind snd fst Z.eqb negb].
  rewrite NthElement_leaf by done. cbn [mbind option_bind]. f_equal. f_equal.
  unfold leaf_in in Hin, Ec. rewrite leaves_order in Hin, Ec, Hp. pose proof (filter_lookup (in_frames frames) 0 order p Hp Hin) as El.
  rewrite Ec in El. unfold selected in Hr. rewrite Hr in El. by injection El.
Qed.

Lemma index_tree_laws : NoDup order -> IndexTreeLaws (index_tree t) order.
Proof. intros Hnd. split; [done |]. intros frames n r. apply index_tree_found. Qed.

Lemma index_tree_overflow : (1 <= top <= S LowestCascadingLevel)%nat -> IndexTreeOverflow (index_tree t) order.
Proof.
  intros Hlevels frames n Hf [Hlo Hhi]. assert (0 <= n) as Hpos by lia.
  destruct (SelectNthElement_position leaves Hn top t Ht Htop frames Hf n Hpos ltac:(lia)) as [_ Hbeyond].
  rewrite selected_length in Hlo. destruct (Hbeyond Hlo Hlevels) as (p & E). exists p. cbn [SelectNth index_tree]. unfold IndexTree_SelectNth.
  rewrite E. cbn [mbind option_bind snd fst]. rewrite (proj2 (Z.eqb_neq _ 0)) by lia. by rewrite selected_length.
Qed.
End index.

(** ** Tokens *)

Section tokens.
Context {V : Type} (distinct_from : V -> V -> bool) (index_value : Z -> V) {traits : MergeSortTraits} {k c : nat} `{!MergeSortTraitsOk k c}.
Abbreviation SortRow := (list V * Z)%type.
Context (le : relation SortRow) `{!Transitive le, !Total le} (key_cols : nat) (unique : bool).

(** The columns by which the rows are compared, and whether they differ. *)
Definition compare_row (r : SortRow) : list V := fst r ++ (if unique then [index_value (snd r)] else []).

Definition key_distinct (r1 r2 : SortRow) : bool :=
  rows_differ distinct_from [compare_row r1] [compare_row r2] (seq 0 (key_cols + Nat.b2n unique)) 0.

Context (input : list SortRow).
(** The comparison of the delta scanner is that of the sort. *)
Context (Hkeys : forall r1 r2, r1 ∈ input -> r2 ∈ input -> le r1 r2 -> key_distinct r1 r2 = false <-> le r2 r1).
Context (C : list (list SortRow)) (HC : mjoin C ≡ₚ input) (Hsorted : Sorted le (mjoin C)).
Abbreviation rows := (mjoin C).
Abbreviation n := (Z.of_nat (length (mjoin C))).
Abbreviation token := (token_at distinct_from index_value C key_cols unique).
Abbreviation changes := (row_changes distinct_from (key_columns index_value unique C) 0 (key_cols + Nat.b2n unique)).
Implicit Types (p q : nat) (r : SortRow).

Lemma rows_le p q r1 r2 : (p <= q)%nat -> rows !! p = Some r1 -> rows !! q = Some r2 -> le r1 r2.
Proof.
  intros Hpq H1 H2. destruct (decide (p = q)) as [-> | Hne].
  { rewrite H1 in H2. injection H2 as <-. destruct (total le r1 r1); done. }
  pose proof (Sorted_StronglySorted le rows Hsorted) as Hs. rewrite <- (take_drop_middle rows p r1 H1) in Hs.
  apply StronglySorted_app_1_r in Hs. apply StronglySorted_inv in Hs as [_ Hall]. rewrite Forall_forall in Hall. apply Hall.
  apply list_elem_of_lookup_2 with (q - S p)%nat. rewrite lookup_drop. by replace (S p + (q - S p))%nat with q by lia.
Qed.

Lemma row_changes_step p r1 r2 :
  rows !! p = Some r1 -> rows !! S p = Some r2 -> changes (Z.of_nat (S p)) = false <-> le r2 r1.
Proof.
  intros H1 H2. assert (changes (Z.of_nat (S p)) = key_distinct r1 r2) as ->.
  { unfold row_changes, key_distinct. rewrite Nat.sub_0_r. replace (Z.to_nat (Z.of_nat (S p) - 1)) with p by lia. unfold rows_differ.
    assert (mjoin (key_columns index_value unique C) = compare_row <$> rows) as -> by (unfold key_columns; apply mjoin_fmap).
    assert (forall l l' : list nat, l = l' -> existsb (fun c => column_differs distinct_from (compare_row <$> rows) (tail (compare_row <$> rows)) c p) l =
      existsb (fun c => column_differs distinct_from [compare_row r1] [compare_row r2] c 0) l') as Hex; [| by apply Hex].
    intros l ? <-. induction l as [| x l IH]; [done |]. cbn [existsb]. rewrite IH. f_equal. unfold column_differs.
    rewrite lookup_tail, !list_lookup_fmap, H1, H2. done. }
  apply Hkeys; [rewrite <- HC; by eapply list_elem_of_lookup_2.. |]. eapply rows_le; [| done..]. lia.
Qed.

(** A later row has a larger token when it is not equal. *)
Lemma token_lt_after p d r1 r2 :
  rows !! p = Some r1 -> rows !! (p + d)%nat = Some r2 -> token (Z.of_nat p) < token (Z.of_nat (p + d)) <-> ~ le r2 r1.
Proof.
  intros H1 H2. assert (token (Z.of_nat (p + d)) - token (Z.of_nat p) = zcount changes (Z.of_nat p + 1) (Z.of_nat (p + d) + 1)) as E.
  { unfold token_at. rewrite (zcount_split _ 1 (Z.of_nat p + 1)) by lia. lia. }
  assert (zcount changes (Z.of_nat p + 1) (Z.of_nat (p + d) + 1) = 0 <-> le r2 r1) as Hz.
  2: { pose proof (zcount_nonneg changes (Z.of_nat p + 1) (Z.of_nat (p + d) + 1)). split.
       - intros Hlt Hle. apply Hz in Hle. lia.
       - intros Hle. assert (zcount changes (Z.of_nat p + 1) (Z.of_nat (p + d) + 1) <> 0) by (intros ?%Hz; done). lia. }
  clear E. revert r2 H2. induction d as [| d IH]; intros r2 H2.
  { rewrite Nat.add_0_r in *. rewrite zcount_nil by lia. split; [intros _ | done]. eapply rows_le; done. }
  destruct (lookup_lt_is_Some_2 rows (p + d)) as [r Hr]; [apply lookup_lt_Some in H2; lia |].
  replace (p + S d)%nat with (S (p + d)) in * by lia. pose proof (row_changes_step _ _ _ Hr H2) as Hstep.
  replace (Z.of_nat (S (p + d)) + 1) with ((Z.of_nat (p + d) + 1) + 1) by lia. rewrite zcount_snoc by lia.
  pose proof (zcount_nonneg changes (Z.of_nat p + 1) (Z.of_nat (p + d) + 1)).
  replace (Z.of_nat (p + d) + 1) with (Z.of_nat (S (p + d))) at 2 by lia. split.
  - intros Hz. assert (le r r1) as Hle by (apply (IH r Hr); destruct (changes _); cbn in Hz; lia).
    assert (le r2 r) as Hle2; [| by transitivity r]. apply Hstep. destruct (changes (Z.of_nat (S (p + d)))); [cbn in Hz; lia | done].
  - intros Hle. assert (le r1 r) by (eapply rows_le; [| done..]; lia). assert (le r r2) by (eapply rows_le; [| done..]; lia).
    assert (zcount changes (Z.of_nat p + 1) (Z.of_nat (p + d) + 1) = 0) as -> by (apply (IH r Hr); by transitivity r2).
    rewrite (proj2 Hstep); [done |]. by transitivity r1.
Qed.

Lemma token_lt p q r1 r2 : rows !! p = Some r1 -> rows !! q = Some r2 -> token (Z.of_nat p) < token (Z.of_nat q) <-> ~ le r2 r1.
Proof.
  intros H1 H2. destruct (Nat.le_ge_cases p q) as [Hle | Hge].
  - replace q with (p + (q - p))%nat in * by lia. by apply token_lt_after.
  - split; [| intros Hno; exfalso; apply Hno; by eapply rows_le]. unfold token_at. intros Hlt.
    rewrite (zcount_split _ 1 (Z.of_nat q + 1) (Z.of_nat p + 1)) in Hlt by lia.
    pose proof (zcount_nonneg changes (Z.of_nat q + 1) (Z.of_nat p + 1)). lia.
Qed.
End tokens.

(** ** Ranks in a frame *)

Lemma filter_Permutation {A} (f : A -> bool) (l l' : list A) : l ≡ₚ l' -> List.filter f l ≡ₚ List.filter f l'.
Proof.
  induction 1 as [| x l l' _ IH | x y l | l1 l2 l3 _ IH1 _ IH2]; cbn; [done | by destruct (f x); [f_equiv |] | | by transitivity (List.filter f l2)].
  destruct (f x), (f y); try done. apply perm_swap.
Qed.

Lemma filter_nothing {A} (f : A -> bool) (l : list A) : (forall x, x ∈ l -> f x = false) -> List.filter f l = [].
Proof.
  induction l as [| x l IH]; intros Hf; [done |]. cbn. rewrite Hf by by left. apply IH. intros y Hy. apply Hf. by right.
Qed.

Section ranks.
Context {V : Type} (distinct_from : V -> V -> bool) (index_value : Z -> V) {traits : MergeSortTraits} {k c : nat} `{!MergeSortTraitsOk k c}.
Abbreviation SortRow := (list V * Z)%type.
Context (le : relation SortRow) `{!Transitive le, !Total le, !RelDecision le} (key_cols : nat) (unique : bool).
Context (input : list SortRow) (Hindex : snd <$> input ≡ₚ zrange 0 (Z.of_nat (length input))).
Context (Hkeys : forall r1 r2, r1 ∈ input -> r2 ∈ input -> le r1 r2 -> key_distinct distinct_from index_value key_cols unique r1 r2 = false <-> le r2 r1).
Context (C : list (list SortRow)) (HC : mjoin C ≡ₚ input) (Hsorted : Sorted le (mjoin C)).
Context (leaves : list Z) (top : nat) (t : Tree).
Context (Hleaves : leaves_ok distinct_from index_value (TokenLeaves key_cols unique) C leaves).
Context (Ht : tree_complete leaves top t) (Htop : is_top leaves top).
Abbreviation n := (Z.of_nat (length input)).
Context (Hn : 3 * FANOUT * (FANOUT + 1) * n < 2 ^ 64) (Hbits : n < 2 ^ element_bits).
Implicit Types (r : SortRow) (lower upper : Z).

(** The rows of a frame that a predicate holds of. *)
Definition frame_rows (f : SortRow -> bool) lower upper : Z :=
  Z.of_nat (length (List.filter (fun r => (lower <=? snd r) && (snd r <? upper) && f r) input)).

Lemma leaves_length : length leaves = length input.
Proof. rewrite (proj1 Hleaves). by rewrite HC. Qed.

Lemma sorted_index : snd <$> mjoin C ≡ₚ zrange 0 (Z.of_nat (length (mjoin C))).
Proof. by rewrite HC. Qed.

(** The row with a number, and its leaf. *)
Lemma row_leaf r : r ∈ input -> exists p, mjoin C !! p = Some r /\ 0 <= snd r < n /\
  znth 0 leaves (snd r) = token_at distinct_from index_value C key_cols unique (Z.of_nat p) /\ Z.of_nat p < n.
Proof.
  intros Hr. rewrite <- HC in Hr. apply list_elem_of_lookup_1 in Hr as [p Hp]. pose proof (lookup_lt_Some _ _ _ Hp) as Hlt.
  assert (length (mjoin C) = length input) as El by (by rewrite HC).
  assert (row_index C (Z.of_nat p) = snd r) as Er by (unfold row_index; by rewrite Nat2Z.id, Hp).
  destruct (numbered C sorted_index) as (Hrange & _ & _). pose proof (Hrange (Z.of_nat p) ltac:(lia)) as H1. rewrite Er, El in H1.
  exists p. split_and!; [done | lia | lia | | lia]. rewrite <- Er. apply (proj2 Hleaves). lia.
Qed.

Lemma count_rows (f : SortRow -> bool) (g : Z -> bool) lower upper :
  0 <= lower -> upper <= n -> (forall r, r ∈ input -> g (snd r) = f r) -> zcount g lower upper = frame_rows f lower upper.
Proof.
  intros Hlo Hup Hfg. unfold frame_rows. rewrite (List.filter_ext_in _ (fun r => (fun i => (lower <=? i) && (i <? upper) && g i) (snd r))).
  2: { intros r Hr%list_elem_of_In. by rewrite Hfg. }
  rewrite <- (length_fmap snd), <- (filter_fmap snd (fun i => (lower <=? i) && (i <? upper) && g i)). rewrite (filter_Permutation _ _ _ Hindex).
  change (Z.of_nat (length (List.filter ?h (zrange ?a ?b)))) with (zcount h a b).
  destruct (Z.le_gt_cases upper lower) as [Hle | Hgt].
  { rewrite zcount_nil, zcount_none by (lia || (intros i Hi; destruct (Z.leb_spec lower i), (Z.ltb_spec i upper); done || lia)). done. }
  rewrite (zcount_split _ 0 lower n), (zcount_split _ lower upper n) by lia.
  rewrite (zcount_none _ 0 lower), (zcount_none _ upper n).
  - rewrite Z.add_0_r. apply zcount_ext. intros i Hi. by rewrite (proj2 (Z.leb_le _ _)), (proj2 (Z.ltb_lt _ _)) by lia.
  - intros i Hi. by rewrite (proj2 (Z.ltb_ge i upper)), andb_false_r by lia.
  - intros i Hi. by rewrite (proj2 (Z.leb_gt lower i)) by lia.
Qed.

Lemma rank_sum (x : Z) (calls : list AggregateCall) (count : Z) :
  zsum call_count calls = count -> 0 <= count <= n -> 0 <= x <= n + 1 ->
  foldl (fun rank (call : AggregateCall) => u64 (rank + (snd call - snd (fst call)))) x calls = x + count.
Proof.
  intros Es Hc Hx. assert (forall l y, u64 (foldl (fun rank (call : AggregateCall) => u64 (rank + (snd call - snd (fst call)))) y l) = u64 (y + zsum call_count l)) as Hf.
  { induction l as [| call l IH]; intros y; cbn [foldl]; [cbn; by rewrite Z.add_0_r |]. rewrite IH, zsum_cons. unfold u64, call_count.
    rewrite Zplus_mod_idemp_l. f_equal. lia. }
  assert (0 <= n < 2 ^ 62) by (pose proof FANOUT_ge; nia).
  assert (u64 (x + count) = x + count) as Eu by (unfold u64; apply Z.mod_small; lia). rewrite <- Eu, <- Es, <- Hf.
  destruct calls as [| call calls] using rev_ind; [cbn; unfold u64; symmetry; apply Z.mod_small; lia |].
  rewrite foldl_snoc. unfold u64. by rewrite Z.mod_mod by lia.
Qed.

(** [TokenRank]: one more than the rows of the frame that come before the row. *)
Lemma TokenRank_rows r lower upper :
  r ∈ input -> 0 <= lower -> upper <= n ->
  TokenRank t lower upper (snd r) = Some (1 + frame_rows (fun r' => bool_decide (~ le r r')) lower upper).
Proof.
  intros Hr Hlo Hup. destruct (row_leaf r Hr) as (p & Hp & Hi & El & Hpn). unfold TokenRank.
  pose proof leaves_length as Hll.
  rewrite LowestLevel_level, (proj1 (proj2 (proj1 Ht))), (zload_Some 0) by lia. cbn [mbind option_bind].
  destruct (AggregateLowerBound_count leaves ltac:(by rewrite Hll) top t Ht Htop lower upper (znth 0 leaves (snd r)) Hlo ltac:(by rewrite Hll))
    as (calls & -> & Ec). cbn [mbind option_bind]. f_equal.
  assert (count_lt leaves (znth 0 leaves (snd r)) lower upper = frame_rows (fun r' => bool_decide (~ le r r')) lower upper) as Eq.
  { apply count_rows; [done.. |]. intros r' Hr'. destruct (row_leaf r' Hr') as (p' & Hp' & _ & El' & _). rewrite El, El'.
    apply eq_bool_prop_intro. rewrite Is_true_true, Z.ltb_lt, Is_true_true, bool_decide_eq_true. by eapply token_lt. }
  rewrite Eq in Ec. apply rank_sum; [done | | lia]. rewrite <- Eq. unfold count_lt. split; [apply zcount_nonneg |].
  pose proof (zcount_le (fun i => znth 0 leaves i <? znth 0 leaves (snd r)) lower upper). lia.
Qed.

(** [NextPeer]: the begin of the frame and the rows of it that do not come after the row. *)
Lemma NextPeer_rows r lower upper :
  r ∈ input -> 0 <= lower <= n -> upper <= n ->
  NextPeer t lower upper (snd r) = Some (lower + frame_rows (fun r' => bool_decide (le r' r)) lower upper).
Proof.
  intros Hr Hlo Hup. destruct (row_leaf r Hr) as (p & Hp & Hi & El & Hpn). unfold NextPeer. pose proof leaves_length as Hll.
  rewrite LowestLevel_level, (proj1 (proj2 (proj1 Ht))), (zload_Some 0) by lia. cbn [fmap option_fmap option_map mbind option_bind].
  pose proof (token_range distinct_from index_value C key_cols unique (Z.of_nat p) ltac:(lia)) as Htok.
  rewrite Z.mod_small by lia.
  destruct (AggregateLowerBound_count leaves ltac:(by rewrite Hll) top t Ht Htop lower upper (znth 0 leaves (snd r) + 1) ltac:(lia) ltac:(by rewrite Hll))
    as (calls & -> & Ec). cbn [mbind option_bind]. f_equal.
  assert (count_lt leaves (znth 0 leaves (snd r) + 1) lower upper = frame_rows (fun r' => bool_decide (le r' r)) lower upper) as Eq.
  { apply count_rows; [lia | done |]. intros r' Hr'. destruct (row_leaf r' Hr') as (p' & Hp' & _ & El' & _). rewrite El, El'.
    pose proof (token_lt distinct_from index_value le key_cols unique input Hkeys C HC Hsorted p p' r r' Hp Hp') as Hlt.
    destruct (decide (le r' r)) as [Hle | Hno].
    - rewrite bool_decide_eq_true_2 by done. apply Z.ltb_lt. destruct (Z.lt_ge_cases (token_at distinct_from index_value C key_cols unique (Z.of_nat p))
        (token_at distinct_from index_value C key_cols unique (Z.of_nat p'))) as [H | H]; [by apply Hlt in H | lia].
    - rewrite bool_decide_eq_false_2 by done. apply Z.ltb_ge. apply Hlt in Hno. lia. }
  rewrite Eq in Ec. apply rank_sum; [done | | lia]. rewrite <- Eq. unfold count_lt. split; [apply zcount_nonneg |].
  pose proof (zcount_le (fun i => znth 0 leaves i <? znth 0 leaves (snd r) + 1) lower upper). lia.
Qed.

(** *** Row numbers *)

Context (Hunique : forall r1 r2, r1 ∈ input -> r2 ∈ input -> le r1 r2 -> le r2 r1 -> r1 = r2).

Lemma before_take (l : list Z) p x : NoDup l -> l !! p = Some x -> before x l = take p l.
Proof.
  revert p. induction l as [| y l IH]; intros p Hnd Hp; [done |]. apply NoDup_cons in Hnd as [Hno Hnd]. cbn [before].
  destruct p as [| p]; cbn in Hp; [injection Hp as ->; by rewrite Z.eqb_refl |].
  rewrite (proj2 (Z.eqb_neq y x)) by (intros ->; apply Hno; by eapply list_elem_of_lookup_2). cbn. f_equal. by apply IH.
Qed.

Lemma rows_before r p lower upper :
  mjoin C !! p = Some r ->
  frame_rows (fun r' => bool_decide (~ le r r')) lower upper = Z.of_nat (length (selected [(lower, upper)] (take p (snd <$> mjoin C)))).
Proof.
  intros Hp. unfold frame_rows. rewrite <- (filter_Permutation _ _ _ HC). rewrite <- (take_drop_middle (mjoin C) p r Hp) at 1.
  rewrite List.filter_app. assert (NoDup (mjoin C)) as Hnd.
  { apply (NoDup_fmap_1 snd). rewrite HC, Hindex. apply NoDup_zrange. }
  assert (forall q r', mjoin C !! q = Some r' -> r' ∈ input) as Hin by (intros q r' Hq; rewrite <- HC; by eapply list_elem_of_lookup_2).
  assert (List.filter (fun r' => (lower <=? snd r') && (snd r' <? upper) && bool_decide (~ le r r')) (r :: drop (S p) (mjoin C)) = []) as ->.
  { apply filter_nothing. intros r' Hr'. rewrite <- (drop_S _ _ _ Hp) in Hr'. apply list_elem_of_lookup_1 in Hr' as [q Hq]. rewrite lookup_drop in Hq.
    rewrite bool_decide_eq_false_2, andb_false_r; [done |]. intros Hno. apply Hno. eapply (rows_le le C Hsorted p (p + q)); [lia | done..]. }
  rewrite app_nil_r, <- fmap_take. unfold selected. rewrite filter_fmap, length_fmap. do 2 f_equal. apply List.filter_ext_in.
  intros r' Hr'%list_elem_of_In. apply list_elem_of_lookup_1 in Hr' as [q Hq]. apply lookup_take_Some in Hq as [Hq Hlt].
  unfold in_frames. cbn [existsb fst snd]. rewrite orb_false_r, bool_decide_eq_true_2, andb_true_r; [done |]. intros Hle.
  assert (le r' r) as Hle' by (eapply (rows_le le C Hsorted q p); [lia | done..]).
  pose proof (Hunique r r' (Hin p r Hp) (Hin q r' Hq) Hle Hle') as ->. pose proof (NoDup_lookup _ _ _ _ Hnd Hp Hq). lia.
Qed.

Lemma row_tree_laws : RowTreeLaws (token_tree_of t) (snd <$> mjoin C).
Proof.
  intros lower upper row Hlo Hin Hrow. apply list_elem_of_lookup_1 in Hrow as [p Hp]. pose proof Hp as Hx.
  rewrite list_lookup_fmap in Hp. destruct (mjoin C !! p) as [r |] eqn:Hr; [| done]. injection Hp as <-.
  assert (NoDup (snd <$> mjoin C)) as Hnd by (rewrite HC, Hindex; apply NoDup_zrange).
  rewrite (before_take _ p (snd r) Hnd Hx), <- (rows_before r p) by done. cbn [token_tree_of Rank].
  assert (r ∈ input) as Hri by (rewrite <- HC; by eapply list_elem_of_lookup_2).
  destruct (Z.le_gt_cases upper n) as [Hup | Hup]; [by rewrite TokenRank_rows by (done || lia) |].
  assert (lower = upper) as <-.
  { destruct (decide (lower = upper)) as [? | Hne]; [done |]. specialize (Hin (upper - 1) ltac:(lia)).
    rewrite HC, Hindex, elem_of_zrange in Hin. lia. }
  destruct (row_leaf r Hri) as (q & _ & Hi & _ & _). pose proof leaves_length as Hll. unfold TokenRank.
  rewrite LowestLevel_level, (proj1 (proj2 (proj1 Ht))), (zload_Some 0) by lia. cbn [mbind option_bind].
  unfold AggregateLowerBound. rewrite Z.leb_refl. cbn [mbind option_bind default foldl]. unfold frame_rows.
  rewrite filter_nothing; [done |]. intros r' _. destruct (Z.leb_spec lower (snd r')), (Z.ltb_spec (snd r') lower); done || lia.
Qed.
End ranks.
