(* ===== verification/WindowTreeRuns.v ===== *)
(** * From the rows to the functions

    The threads sink the rows of a partition, sort them and build the tree; whatever the
    interleaving, a thread that has left [Build] uses a tree that finds the n-th row of a
    frame in the argument order, or ranks the rows of a frame in it. *)

From S2P Require Import Prelude Validity MaskSearch Boundaries RangeSearch Aggregates WindowMasks WindowMasksInvariant WindowValue Rank Sort MergeSortTree MergeSortGames MergeSortRuns MergeSortBuild MergeSortThreads MergeSortSearch MergeSortAggregate WindowTrees WindowTreesInvariant WindowTreeThreads WindowTreeSearch.

(** ** Sinking *)

Section sinks.
Context {V : Type} {traits : MergeSortTraits} (Helement : 1 <= element_bits <= 64).
Abbreviation SortRow := (list V * Z)%type.
Context (ops : SortOps SortRow) `{!SortSinkLaws ops}.
Implicit Types (calls : list (SinkCall (V := V) ops)) (ls : list (LSink ops)).

(** The rows of a call with the numbers that the index column means. *)
Definition call_rows (call : SinkCall ops) : list SortRow :=
  let rows := imap (fun i key => (key, sink_row_idx ops call + Z.of_nat i)) (sink_columns ops call) in
  match sink_filter ops call with
  | None => rows
  | Some sel => omap (fun i => rows !! i) sel
  end.

Definition sunk_rows calls : list SortRow := mjoin (call_rows <$> calls).

(** The rows of a chunk have numbers that the type of the index column holds, below 2^31 in a
    tree of 32 bits, and its selection is one of its rows. *)
Definition chunk_ok (call : SinkCall ops) : Prop :=
  0 <= sink_row_idx ops call <= index_maximum /\
  sink_row_idx ops call + Z.of_nat (length (sink_columns ops call)) <= index_maximum + 1 /\
  Forall (fun i => i < length (sink_columns ops call))%nat (default [] (sink_filter ops call)).

(** The threads exist, and the chunks fit the index column. *)
Definition calls_ok (threads : nat) calls : Prop :=
  Forall (fun call => (sink_thread ops call < threads)%nat /\ chunk_ok call) calls.

Lemma index_wrap_small z : 0 <= z <= index_maximum -> index_wrap z = z.
Proof.
  unfold index_wrap, index_maximum. intros Hz.
  assert (2 ^ element_bits = 2 * 2 ^ (element_bits - 1)) as E.
  { rewrite <- Z.pow_succ_r by lia. f_equal. lia. }
  rewrite Z.mod_small by lia. lia.
Qed.

Lemma index_maximum_64 : index_maximum < 2 ^ 63.
Proof.
  unfold index_maximum. assert (2 ^ (element_bits - 1) <= 2 ^ 63) by (apply Z.pow_le_mono_r; lia). lia.
Qed.

(** The chunk that is sunk. *)
Lemma sort_chunk_rows call :
  chunk_ok call ->
  sort_chunk (sink_columns ops call) (sink_row_idx ops call) (sink_filter ops call) = Some (call_rows call).
Proof.
  intros (Hstart & Hend & Hsel). unfold sort_chunk, GenerateSequence. pose proof index_maximum_64.
  rewrite i64_small by lia. destruct (Z.ltb_spec index_maximum (sink_row_idx ops call)); [lia |].
  cbn [mbind option_bind]. unfold call_rows.
  assert (zip (sink_columns ops call) ((fun i => index_wrap (sink_row_idx ops call + Z.of_nat i)) <$>
      seq 0 (length (sink_columns ops call))) =
    imap (fun i key => (key, sink_row_idx ops call + Z.of_nat i)) (sink_columns ops call)) as ->.
  { apply list_eq. intros i. rewrite list_lookup_imap. destruct (sink_columns ops call !! i) as [key |] eqn:E; cbn [fmap option_fmap option_map].
    - pose proof (lookup_lt_Some _ _ _ E) as Hi. apply lookup_zip_Some. rewrite list_lookup_fmap, lookup_seq_lt by done.
      cbn [fmap option_fmap option_map]. rewrite Nat.add_0_l, index_wrap_small by lia. done.
    - apply lookup_ge_None_1 in E. apply lookup_ge_None_2. rewrite length_zip_with, length_fmap, length_seq. lia. }
  destruct (sink_filter ops call) as [sel |]; [| done]. change (default [] (Some sel)) with sel in Hsel.
  set (rows := imap _ _). assert (length rows = length (sink_columns ops call)) as El by apply length_imap.
  rewrite <- El in Hsel. clearbody rows. clear -Hsel. induction Hsel as [| i sel Hi _ IH]; [done |].
  cbn [mapM omap list_omap]. destruct (lookup_lt_is_Some_2 _ _ Hi) as [row ->]. by rewrite IH.
Qed.

Lemma call_rows_index call :
  chunk_ok call -> Forall (fun i => 0 <= i < 2 ^ element_bits) (snd <$> call_rows call).
Proof.
  intros (Hstart & Hend & _). assert (index_maximum < 2 ^ element_bits) as Hmax.
  { unfold index_maximum. assert (2 ^ (element_bits - 1) <= 2 ^ element_bits) by (apply Z.pow_le_mono_r; lia). lia. }
  assert (forall i row, imap (fun i key => (key, sink_row_idx ops call + Z.of_nat i)) (sink_columns ops call) !! i = Some row ->
    0 <= snd row < 2 ^ element_bits) as H.
  { intros i row E. rewrite list_lookup_imap in E. destruct (sink_columns ops call !! i) eqn:Ei; [| done].
    injection E as <-. apply lookup_lt_Some in Ei. cbn [snd]. lia. }
  apply Forall_fmap. unfold call_rows. apply Forall_forall. intros row Hrow.
  destruct (sink_filter ops call) as [sel |].
  - apply list_elem_of_omap in Hrow as (i & _ & E). by eapply H.
  - apply list_elem_of_lookup_1 in Hrow as [i E]. by eapply H.
Qed.

(** A chunk whose first row has a number that the index column cannot hold is refused. *)
Lemma sort_chunk_start columns row_idx filter_sel :
  index_maximum < row_idx < 2 ^ 63 -> sort_chunk (V := V) columns row_idx filter_sel = None.
Proof.
  intros H. unfold sort_chunk, GenerateSequence. rewrite i64_small.
  - destruct (Z.ltb_spec index_maximum row_idx); [done | lia].
  - assert (0 < 2 ^ (element_bits - 1)) by (apply Z.pow_pos_nonneg; lia). unfold index_maximum in H. lia.
Qed.

Definition sunk (rows : list SortRow) (s : GSink ops * list (LSink ops)) : Prop :=
  sort_inv (fst s) (snd s) /\ global_rows (fst s) ++ mjoin (local_rows <$> snd s) ≡ₚ rows /\
  Forall (fun l => (length (local_rows l) <= length rows)%nat) (snd s).

Lemma tree_sink_step_ok rows s call :
  sunk rows s -> (sink_thread ops call < length (snd s))%nat ->
  chunk_ok call ->
  Z.of_nat (length rows + length (call_rows call)) <= sort_max_rows ->
  exists s', tree_sink_step ops s call = Some s' /\ sunk (rows ++ call_rows call) s' /\ length (snd s') = length (snd s).
Proof.
  destruct s as [g ls]. unfold sunk. cbn [fst snd]. intros (Hi & Hr & Hl) Ht Hc%sort_chunk_rows Hmax.
  generalize dependent (call_rows call). intros chunk Hc Hmax.
  set (j := sink_thread ops call) in *. destruct (lookup_lt_is_Some_2 ls j Ht) as [l Hj].
  pose proof (delete_Permutation ls j l Hj) as Hp. pose proof (Forall_lookup_1 _ _ _ _ Hl Hj) as Hll. cbn in Hll.
  destruct (sort_sink_rows (sink_env ops call) g l (delete j ls) chunk) as (g' & l' & E & Hi' & Hr' & Hl').
  { by eapply sort_inv_perm. }
  { lia. }
  assert (forall l0, <[j := l0]> ls ≡ₚ l0 :: delete j ls) as Hins.
  { intros l0. rewrite insert_take_drop, delete_take_drop by done. symmetry. apply Permutation_middle. }
  generalize (delete j ls), Hp, Hins, Hi'. clear Hp Hins Hi'. intros rest Hp Hins Hi'.
  exists (g', <[j := l']> ls). unfold tree_sink_step. fold j. cbn [fst snd]. rewrite Hj. cbn [mbind option_bind]. unfold tree_Sink.
  rewrite Hc. cbn [mbind option_bind]. rewrite E. cbn [mbind option_bind]. split_and!; [done | | | | by rewrite length_insert].
  - eapply sort_inv_perm; [symmetry; apply Hins | done].
  - rewrite (Hins l'), fmap_cons, mjoin_cons, app_assoc, Hr', <- Hr, Hp, fmap_cons, mjoin_cons. rewrite <- !app_assoc. by rewrite (Permutation_app_comm chunk).
  - rewrite length_app. apply Forall_insert; [| lia]. eapply Forall_impl; [exact Hl |]. cbn. lia.
Qed.

Lemma tree_sinks_ok threads rows s calls :
  sunk rows s -> length (snd s) = threads -> calls_ok threads calls -> Z.of_nat (length rows + length (sunk_rows calls)) <= sort_max_rows ->
  exists s', ofold (tree_sink_step ops) s calls = Some s' /\ sunk (rows ++ sunk_rows calls) s' /\ length (snd s') = threads.
Proof.
  revert rows s. induction calls as [| call calls IH]; intros rows s Hs Hl Hc Hmax; [exists s; by rewrite app_nil_r |].
  apply Forall_cons in Hc as [[Ht Hsel] Hc]. unfold sunk_rows in *. rewrite fmap_cons, mjoin_cons, length_app in *.
  destruct (tree_sink_step_ok rows s call Hs) as (s1 & E1 & Hs1 & Hl1); [by rewrite Hl | done | lia |].
  rewrite ofold_cons, E1. cbn [mbind option_bind].
  destruct (IH (rows ++ call_rows call) s1 Hs1) as (s2 & E2 & Hs2 & Hl2); [congruence | done | rewrite length_app; lia |].
  exists s2. rewrite app_assoc. done.
Qed.

Lemma run_tree_sinks_ok threads calls :
  calls_ok threads calls -> Z.of_nat (length (sunk_rows calls)) <= sort_max_rows ->
  exists gs ls, run_tree_sinks ops threads calls = Some (gs, ls) /\ length ls = threads /\ sort_inv gs ls /\
    global_rows gs ++ mjoin (local_rows <$> ls) ≡ₚ sunk_rows calls.
Proof.
  intros Hc Hmax. destruct (tree_sinks_ok threads [] (sort_global_new ops, replicate threads (sort_local_new ops)) calls) as ([gs ls] & E & (Hi & Hr & _) & Hl);
    [| apply length_replicate | done | done | by exists gs, ls].
  split_and!; cbn [fst snd].
  - clear. induction threads as [| threads IH]; cbn [replicate]; [apply sort_inv_new | by apply sort_inv_local].
  - rewrite global_rows_new. clear. induction threads as [| threads IH]; cbn [replicate]; [done |]. by rewrite fmap_cons, mjoin_cons, local_rows_new.
  - apply Forall_replicate. by rewrite local_rows_new.
Qed.
End sinks.

Lemma sunk_rows_index {V} {traits : MergeSortTraits} (ops : SortOps (list V * Z)) threads calls :
  1 <= element_bits <= 64 -> calls_ok ops threads calls ->
  Forall (fun i => 0 <= i < 2 ^ element_bits) (snd <$> sunk_rows ops calls).
Proof.
  intros He Hc. unfold sunk_rows. induction Hc as [| call calls [_ Hcall] _ IH]; [constructor |].
  rewrite fmap_cons, mjoin_cons, fmap_app. apply Forall_app. split; [by apply call_rows_index | done].
Qed.

(** ** The trees *)

Section trees.
Context {V : Type} (distinct_from : V -> V -> bool) (index_value : Z -> V).
Context {traits : MergeSortTraits} {k c : nat} `{!MergeSortTraitsOk k c}.
Abbreviation SortRow := (list V * Z)%type.
Context (ops : SortOps SortRow) `{!SortSinkLaws ops} (materialize : GSink ops -> list (list SortRow)).
Context (le : relation SortRow) `{!SortSourceLaws ops materialize le} (garbage : RunElement).
Implicit Types (calls : list (SinkCall (V := V) ops)) (schedule : list (nat * Env ops)).
Abbreviation run kind gs ls workers schedule := (run_sort_tree distinct_from index_value ops materialize kind garbage gs ls workers schedule).

(** Any schedule of the threads of a tree. *)
Lemma tree_run_ok kind threads calls workers schedule :
  (0 < threads)%nat -> calls_ok ops threads calls -> Z.of_nat (length (sunk_rows ops calls)) <= sort_max_rows ->
  input_ok kind (sunk_rows ops calls) ->
  Z.of_nat (length (sunk_rows ops calls)) <= 2 ^ element_bits -> Z.of_nat (length (sunk_rows ops calls)) < 2 ^ offset_bits ->
  exists gs ls s, run_tree_sinks ops threads calls = Some (gs, ls) /\ run kind gs ls workers schedule = Some s /\
    (Building BuildDone ∈ snd s ->
      exists C leaves top m, mst ops (fst s) = Some m /\ mjoin C ≡ₚ sunk_rows ops calls /\ Sorted le (mjoin C) /\
        leaves_ok distinct_from index_value kind C leaves /\ is_top leaves top /\ tree_complete leaves top (tree m)).
Proof.
  intros Ht Hc Hmax Hi Hbits Hoffset. destruct (run_tree_sinks_ok element_range ops threads calls Hc Hmax) as (gs & ls & E & Hl & Hinv & Hrows).
  assert (ls <> []) as Hls by (intros ->; cbn in Hl; lia).
  destruct (sort_tree_steps_ok distinct_from index_value ops materialize le kind garbage (sunk_rows ops calls) Hi ls Hls Hbits Hoffset _ schedule
    (sort_tree_new_ok distinct_from index_value ops le kind (sunk_rows ops calls) ls gs workers Hinv Hrows)) as (s & Es & Hok & _).
  exists gs, ls, s. split_and!; [done | done |]. intros [j Hj]%list_elem_of_lookup_1.
  destruct (sort_tree_done _ _ _ _ _ _ _ s j Hok Hj) as (C & leaves & top & m & H1 & H2 & H3 & H4 & H5).
  exists C, leaves, top, m. split_and!; [done | apply H1 | apply H1 | done..].
Qed.

(** C27. WindowIndexTree: whatever the interleaving of the threads that sink chunks, combine the
    local sorts, finalize the sort, copy the row numbers into the leaves and build the
    levels, no step fails, and a thread that has left [Build] sees a tree that finds the n-th
    row of every frame in an argument order of the rows that were sunk.  Without levels with
    cascading pointers it also counts the rows that are missing for a position.

    The row numbers fit the index column ([calls_ok]): they are below 2^31 in the tree of 32
    bits that the constructor chooses for fewer than 2^32 - 1 rows; a chunk that starts
    above fails ([sort_chunk_start], [index_column_overflow]).  The sort is one
    that keeps and orders the rows ([SortSourceLaws]); the operator of Sort is one when Merge
    Pruning does not apply to its keys ([tree_sort_source] of WindowTreeSort), that is
    without shrink_runs or with keys other than FIXED_16. *)
Theorem index_tree_correct threads calls workers schedule :
  (0 < threads)%nat -> calls_ok ops threads calls -> Z.of_nat (length (sunk_rows ops calls)) <= sort_max_rows ->
  Z.of_nat (length (sunk_rows ops calls)) <= 2 ^ element_bits -> Z.of_nat (length (sunk_rows ops calls)) < 2 ^ offset_bits ->
  NoDup (snd <$> sunk_rows ops calls) ->
  exists gs ls s, run_tree_sinks ops threads calls = Some (gs, ls) /\ run IndexLeaves gs ls workers schedule = Some s /\
    (Building BuildDone ∈ snd s ->
      exists rows m, mst ops (fst s) = Some m /\ rows ≡ₚ sunk_rows ops calls /\ Sorted le rows /\
        IndexTreeLaws (index_tree (tree m)) (snd <$> rows) /\
        ((2 <= length (tree m) <= 2 + LowestCascadingLevel)%nat -> IndexTreeOverflow (index_tree (tree m)) (snd <$> rows))).
Proof.
  intros Ht Hc Hmax Hbits Hoffset Hnd. pose proof (sunk_rows_index ops threads calls element_range Hc) as Hrange.
  destruct (tree_run_ok IndexLeaves threads calls workers schedule Ht Hc Hmax I Hbits Hoffset) as (gs & ls & s & E & Es & Hdone).
  exists gs, ls, s. split_and!; [done | done |]. intros Hb. destruct (Hdone Hb) as (C & leaves & top & m & Em & HC & Hs & Hl & Htop & Hcomplete).
  exists (mjoin C), m. assert (Z.of_nat (length leaves) < 2 ^ 64) as Hn.
  { rewrite (proj1 Hl), HC. eapply Z.lt_le_trans; [exact Hoffset |]. apply Z.pow_le_mono_r; [lia | apply offset_max]. }
  rewrite <- HC in Hnd, Hrange. split_and!; [done | done | done | |].
  - exact (index_tree_laws C leaves top _ (proj1 Hl) (proj2 Hl) Hrange Hcomplete Htop Hn Hnd).
  - intros Hlevels. refine (index_tree_overflow C leaves top _ (proj1 Hl) (proj2 Hl) Hrange Hcomplete Htop Hn _).
    rewrite (proj1 (proj1 Hcomplete)) in Hlevels. lia.
Qed.

(** C28. WindowTokenTree: whatever the interleaving, no step fails, and for a thread that has
    left [Build] the rank of a row in a frame is one more than the rows of the frame that come
    before it in the argument order, and the end of its peers is the begin of the frame and the
    rows of it that do not come after the row.  If no two rows are equal in the order, the ranks are
    the row numbers that LEAD and LAG use.  The conditions on the row numbers and on the
    sort are those of [index_tree_correct]: in particular the sort does not prune, which a
    unique tree over one INTEGER order does with shrink_runs on, since its key is FIXED_16. *)
Theorem token_tree_correct `{!Transitive le, !Total le, !RelDecision le} key_cols unique threads calls workers schedule :
  (0 < threads)%nat -> calls_ok ops threads calls -> Z.of_nat (length (sunk_rows ops calls)) <= sort_max_rows ->
  sunk_rows ops calls <> [] -> snd <$> sunk_rows ops calls ≡ₚ zrange 0 (Z.of_nat (length (sunk_rows ops calls))) ->
  (forall r1 r2, r1 ∈ sunk_rows ops calls -> r2 ∈ sunk_rows ops calls -> le r1 r2 ->
    key_distinct distinct_from index_value key_cols unique r1 r2 = false <-> le r2 r1) ->
  Z.of_nat (length (sunk_rows ops calls)) < 2 ^ element_bits -> Z.of_nat (length (sunk_rows ops calls)) < 2 ^ offset_bits ->
  3 * FANOUT * (FANOUT + 1) * Z.of_nat (length (sunk_rows ops calls)) < 2 ^ 64 ->
  exists gs ls s, run_tree_sinks ops threads calls = Some (gs, ls) /\ run (TokenLeaves key_cols unique) gs ls workers schedule = Some s /\
    (Building BuildDone ∈ snd s ->
      exists m, mst ops (fst s) = Some m /\
        (forall r lower upper, r ∈ sunk_rows ops calls -> 0 <= lower <= Z.of_nat (length (sunk_rows ops calls)) ->
          upper <= Z.of_nat (length (sunk_rows ops calls)) ->
          TokenRank (tree m) lower upper (snd r) = Some (1 + frame_rows (sunk_rows ops calls) (fun r' => bool_decide (~ le r r')) lower upper) /\
          NextPeer (tree m) lower upper (snd r) = Some (lower + frame_rows (sunk_rows ops calls) (fun r' => bool_decide (le r' r)) lower upper)) /\
        ((forall r1 r2, r1 ∈ sunk_rows ops calls -> r2 ∈ sunk_rows ops calls -> le r1 r2 -> le r2 r1 -> r1 = r2) ->
          exists rows, rows ≡ₚ sunk_rows ops calls /\ Sorted le rows /\ RowTreeLaws (token_tree_of (tree m)) (snd <$> rows))).
Proof.
  intros Ht Hc Hmax Hne Hindex Hkeys Hbits Hoffset Hn.
  destruct (tree_run_ok (TokenLeaves key_cols unique) threads calls workers schedule Ht Hc Hmax (conj Hne Hindex) ltac:(lia) Hoffset)
    as (gs & ls & s & E & Es & Hdone).
  exists gs, ls, s. split_and!; [done | done |]. intros Hb. destruct (Hdone Hb) as (C & leaves & top & m & Em & HC & Hs & Hl & Htop & Hcomplete).
  exists m. split_and!; [done | |].
  - intros r lower upper Hr Hlo Hup. split.
    + by apply (TokenRank_rows distinct_from index_value le key_cols unique _ Hindex Hkeys C HC Hs leaves top (tree m) Hl Hcomplete Htop Hn); [| lia |].
    + by apply (NextPeer_rows distinct_from index_value le key_cols unique _ Hindex Hkeys C HC Hs leaves top (tree m) Hl Hcomplete Htop Hn Hbits).
  - intros Hunique. exists (mjoin C). split_and!; [done | done |].
    by apply (row_tree_laws distinct_from index_value le key_cols unique _ Hindex Hkeys C HC Hs leaves top (tree m) Hl Hcomplete Htop Hn).
Qed.
End trees.

(** The constructor chooses a tree that is wide enough for its rows. *)
Lemma tree_traits_fit count force_external (rows : Z) :
  0 <= rows <= count -> count < 2 ^ 52 ->
  rows < 2 ^ @element_bits (tree_traits count force_external) /\ rows < 2 ^ @offset_bits (tree_traits count force_external) /\
  3 * @FANOUT (tree_traits count force_external) * (@FANOUT (tree_traits count force_external) + 1) * rows < 2 ^ 64 /\
  @MergeSortTraitsOk (tree_traits count force_external) 4 5.
Proof.
  intros Hr Hc. unfold tree_traits. destruct ((count <? 2 ^ 32 - 1) && negb force_external) eqn:E.
  - apply andb_true_iff in E as [E%Z.ltb_lt _]. cbn [MergeSortTree32 element_bits offset_bits FANOUT].
    split_and!; [lia | lia | lia | exact MergeSortTree32_ok].
  - cbn [MergeSortTree64 element_bits offset_bits FANOUT]. split_and!; [lia | lia | nia | exact MergeSortTree64_ok].
Qed.

(** ** Examples and witnesses

    Two threads sink five rows with one column; the sort collects the rows and gives them in chunks of two. *)

Fixpoint chunks_of_two {A} (rows : list A) : list (list A) :=
  match rows with
  | [] => []
  | [x] => [[x]]
  | x :: y :: rows => [x; y] :: chunks_of_two rows
  end.

Definition row_le (r1 r2 : list Z * Z) : Prop := hd 0 (fst r1) <= hd 0 (fst r2).

#[export] Instance row_le_dec : RelDecision row_le.
Proof. intros r1 r2. apply Z_le_dec. Defined.

#[export] Instance row_le_total : Total row_le.
Proof. intros r1 r2. unfold row_le. lia. Qed.

#[export] Instance row_le_trans : Transitive row_le.
Proof. intros r1 r2 r3. unfold row_le. lia. Qed.

Definition rows_sort : SortOps (list Z * Z) := {|
  GSink := list (list Z * Z); LSink := list (list Z * Z); Env := unit;
  sort_global_new := []; sort_local_new := [];
  sort_sink _ g l chunk := Some (g, l ++ chunk);
  sort_combine _ g l := Some (g ++ l);
  sort_finalize g := g
|}.

#[export] Instance rows_sort_laws : SortSinkLaws rows_sort.
Proof.
  refine {| global_rows := fun g : GSink rows_sort => g; local_rows := fun l : LSink rows_sort => l;
            sort_max_rows := 1000; sort_inv := fun _ _ => True |}; try done.
  - intros env g l ls chunk _ _. exists g, (l ++ chunk). by rewrite length_app.
  - intros env g l ls _. by exists (g ++ l).
Defined.

Definition rows_materialize (g : GSink rows_sort) : list (list (list Z * Z)) := chunks_of_two (merge_sort row_le g).

Lemma chunks_of_two_ok {A} (rows : list A) : mjoin (chunks_of_two rows) = rows /\ Forall (fun chunk => chunk <> []) (chunks_of_two rows).
Proof.
  revert rows. fix IH 1. intros [| x [| y rows]]; [by split | split; [done | by repeat constructor] |].
  destruct (IH rows) as [E1 E2]. cbn [chunks_of_two]. split; [by rewrite mjoin_cons, E1 | by constructor].
Qed.

#[export] Instance rows_materialize_laws : SortSourceLaws rows_sort rows_materialize row_le.
Proof.
  split; intros g _; cbn [sort_finalize rows_sort]; unfold rows_materialize; rewrite ?(proj1 (chunks_of_two_ok _)).
  - apply chunks_of_two_ok.
  - apply merge_sort_Permutation.
  - apply Sorted_merge_sort. apply _.
Qed.

Definition different (x y : Z) : bool := negb (x =? y).

Definition example_calls : list (SinkCall (V := Z) rows_sort) :=
  [mkSinkCall rows_sort 1 tt [[20]; [10]; [30]] 2 None; mkSinkCall rows_sort 0 tt [[30]; [10]] 0 None].

Definition example_schedule : list (nat * unit) := mjoin (replicate 60 [(0%nat, tt); (1%nat, tt)]).

Definition example_sort_tree (kind : TreeKind) : option (Tree * bool) :=
  '(gs, ls) ← run_tree_sinks (traits := example_traits) rows_sort 2 example_calls;
  s ← run_sort_tree (traits := example_traits) different id rows_sort rows_materialize kind (0, 0) gs ls 2 example_schedule;
  m ← mst rows_sort (fst s);
  Some (tree m, forallb (fun th => match th with Building BuildDone => true | _ => false end) (snd s)).

(** The rows of the frame [[1, 4)] in the order. *)
Example example_index_tree :
  (fun '(t, finished) => (finished, LowestLevel t, (fun n => IndexTree_SelectNth (traits := example_traits) t [(1, 4)] n) <$> [0; 1; 2])) <$>
    example_sort_tree IndexLeaves = Some (true, [1; 3; 2; 4; 0], [Some (1, 0); Some (3, 0); Some (2, 0)]).
Proof. vm_compute. reflexivity. Qed.

(** Ranks and ends of peers of the five rows in the frame [[0, 4)]. *)
Example example_token_tree :
  (fun '(t, finished) => (finished, LowestLevel t, (fun row => TokenRank (traits := example_traits) t 0 4 row) <$> [0; 1; 2; 3; 4],
      (fun row => NextPeer (traits := example_traits) t 0 4 row) <$> [0; 1; 2; 3; 4])) <$> example_sort_tree (TokenLeaves 1 false) =
    Some (true, [2; 0; 1; 0; 2], [Some 4; Some 1; Some 3; Some 1; Some 4], [Some 4; Some 2; Some 3; Some 2; Some 4]).
Proof. vm_compute. reflexivity. Qed.

Lemma example_calls_ok : calls_ok (traits := example_traits) rows_sort 2 example_calls.
Proof.
  unfold example_calls, calls_ok. rewrite !Forall_cons. unfold chunk_ok, index_maximum.
  split_and!; cbn; repeat constructor; lia.
Qed.

(** The constructor chooses 32 bits for 2^31 + 2 rows, and the sink of the row 2^31 fails. *)
Example index_column_overflow :
  tree_traits (2 ^ 31 + 2) false = MergeSortTree32 /\
  sort_chunk (traits := MergeSortTree32) [[10]; [20]] (2 ^ 31) None = None /\
  sort_chunk (traits := MergeSortTree64) [[10]; [20]] (2 ^ 31) None = Some [([10], 2 ^ 31); ([20], 2 ^ 31 + 1)].
Proof. vm_compute. done. Qed.

Lemma index_tree_correct_witness :
  exists gs ls s, run_tree_sinks (traits := example_traits) rows_sort 2 example_calls = Some (gs, ls) /\
    run_sort_tree (traits := example_traits) different id rows_sort rows_materialize IndexLeaves (0, 0) gs ls 2 example_schedule = Some s /\
    (Building BuildDone ∈ snd s ->
      exists rows m, mst rows_sort (fst s) = Some m /\ rows ≡ₚ sunk_rows rows_sort example_calls /\ Sorted row_le rows /\
        IndexTreeLaws (index_tree (traits := example_traits) (tree m)) (snd <$> rows) /\
        ((2 <= length (tree m) <= 2 + LowestCascadingLevel (traits := example_traits))%nat ->
          IndexTreeOverflow (index_tree (traits := example_traits) (tree m)) (snd <$> rows))).
Proof.
  apply (index_tree_correct (traits := example_traits) different id rows_sort rows_materialize row_le (0, 0) 2 example_calls 2 example_schedule).
  - lia.
  - exact example_calls_ok.
  - apply (bool_decide_unpack _). vm_compute. exact I.
  - apply (bool_decide_unpack _). vm_compute. exact I.
  - apply (bool_decide_unpack _). vm_compute. exact I.
  - apply (bool_decide_unpack _). vm_compute. exact I.
Defined.

Lemma example_keys r1 r2 :
  r1 ∈ sunk_rows rows_sort example_calls -> r2 ∈ sunk_rows rows_sort example_calls -> row_le r1 r2 ->
  key_distinct different id 1 false r1 r2 = false <-> row_le r2 r1.
Proof.
  assert (Forall (fun r1 => Forall (fun r2 => row_le r1 r2 -> key_distinct different id 1 false r1 r2 = false <-> row_le r2 r1)
    (sunk_rows rows_sort example_calls)) (sunk_rows rows_sort example_calls)) as H.
  { apply (bool_decide_unpack _). vm_compute. exact I. }
  intros H1 H2. rewrite Forall_forall in H. specialize (H r1 H1). rewrite Forall_forall in H. by apply H.
Qed.

Lemma token_tree_correct_witness :
  exists gs ls s, run_tree_sinks (traits := example_traits) rows_sort 2 example_calls = Some (gs, ls) /\
    run_sort_tree (traits := example_traits) different id rows_sort rows_materialize (TokenLeaves 1 false) (0, 0) gs ls 2 example_schedule = Some s /\
    (Building BuildDone ∈ snd s ->
      exists m, mst rows_sort (fst s) = Some m /\
        (forall r lower upper, r ∈ sunk_rows rows_sort example_calls -> 0 <= lower <= 5 -> upper <= 5 ->
          TokenRank (traits := example_traits) (tree m) lower upper (snd r) =
            Some (1 + frame_rows (sunk_rows rows_sort example_calls) (fun r' => bool_decide (~ row_le r r')) lower upper) /\
          NextPeer (traits := example_traits) (tree m) lower upper (snd r) =
            Some (lower + frame_rows (sunk_rows rows_sort example_calls) (fun r' => bool_decide (row_le r' r)) lower upper)) /\
        ((forall r1 r2, r1 ∈ sunk_rows rows_sort example_calls -> r2 ∈ sunk_rows rows_sort example_calls -> row_le r1 r2 -> row_le r2 r1 -> r1 = r2) ->
          exists rows, rows ≡ₚ sunk_rows rows_sort example_calls /\ Sorted row_le rows /\
            RowTreeLaws (token_tree_of (traits := example_traits) (tree m)) (snd <$> rows))).
Proof.
  apply (token_tree_correct (traits := example_traits) different id rows_sort rows_materialize row_le (0, 0) 1 false 2 example_calls 2 example_schedule).
  - lia.
  - exact example_calls_ok.
  - apply (bool_decide_unpack _). vm_compute. exact I.
  - done.
  - apply (bool_decide_unpack _). vm_compute. exact I.
  - exact example_keys.
  - apply (bool_decide_unpack _). vm_compute. exact I.
  - apply (bool_decide_unpack _). vm_compute. exact I.
  - apply (bool_decide_unpack _). vm_compute. exact I.
Defined.

(** LEAD uses two trees, and only the row numbers order equal rows: here the index tree
    has row 4 before row 0, the row numbers row 0 before row 4, and the row after row 0 is
    found to be row 0 itself. *)
Definition row_lex_le (r1 r2 : list Z * Z) : Prop :=
  hd 0 (fst r1) < hd 0 (fst r2) \/ hd 0 (fst r1) = hd 0 (fst r2) /\ snd r1 <= snd r2.

#[export] Instance row_lex_le_dec : RelDecision row_lex_le.
Proof. intros r1 r2. unfold row_lex_le. apply _. Defined.

Definition rows_materialize_unique (g : GSink rows_sort) : list (list (list Z * Z)) := chunks_of_two (merge_sort row_lex_le g).

Definition example_row_tree : option Tree :=
  '(gs, ls) ← run_tree_sinks (traits := example_traits) rows_sort 2 example_calls;
  s ← run_sort_tree (traits := example_traits) different id rows_sort rows_materialize_unique (TokenLeaves 1 true) (0, 0) gs ls 2 example_schedule;
  m ← mst rows_sort (fst s); Some (tree m).

Example lead_of_equal_row :
  (rows ← example_row_tree; '(index, _) ← example_sort_tree IndexLeaves;
   leadlag_tree_row WINDOW_LEAD [[Some 100; Some 101; Some 102; Some 103; Some 104]] None None
     (token_tree_of (traits := example_traits) rows, index_tree (traits := example_traits) index) 0 5 0 0) = Some (Ok [Some 100]).
Proof. vm_compute. reflexivity. Qed.
