(* ===== verification/WindowTreeRounds.v ===== *)
(** * The threads of a tree finish

    When every thread takes a step in each of enough rounds, all stages are finished and all
    threads leave [Build]: no thread waits forever for the tasks of another. *)

From S2P Require Import Prelude Validity MaskSearch Boundaries RangeSearch Aggregates WindowMasks WindowMasksInvariant WindowValue Rank Sort MergeSortTree MergeSortGames MergeSortRuns MergeSortBuild MergeSortThreads WindowTrees WindowTreesInvariant WindowTreeThreads WindowTreeSearch WindowTreeRuns.

Section progress.
Context {V : Type} (distinct_from : V -> V -> bool) (index_value : Z -> V).
Context {traits : MergeSortTraits} {k c : nat} `{!MergeSortTraitsOk k c}.
Abbreviation SortRow := (list V * Z)%type.
Context (ops : SortOps SortRow) `{!SortSinkLaws ops} (materialize : GSink ops -> list (list SortRow)) (le : relation SortRow).
Context `{!SortSourceLaws ops materialize le} (kind : TreeKind) (garbage : RunElement).
Context (input : list SortRow) (Hinput : input_ok kind input) (locals : list (LSink ops)) (Hlocals : locals <> []).
Abbreviation n := (Z.of_nat (length input)).
Context (Hbits : n <= 2 ^ element_bits) (Hoffset : n < 2 ^ offset_bits).
Abbreviation State := (WindowMergeSortTree (V := V) ops).
Abbreviation System := (SortTreeSystem (V := V) ops).
Abbreviation sort_tree_ok := (sort_tree_ok distinct_from index_value ops le kind input locals).
Abbreviation step := (sort_tree_step distinct_from index_value ops materialize kind garbage).
Abbreviation finished s := (build_stage ops (fst s) = FINISHED).
Implicit Types (g : State) (s : System) (ths : list SortTreeThread) (j : nat) (turn : nat * Env ops) (schedule : list (nat * Env ops)).

(** ** What is left *)

Definition tasks_left g : Z :=
  let stage := Z.of_nat (total_tasks ops g - tasks_assigned ops g) in
  let L := Z.of_nat (length locals) in
  match build_stage ops g with
  | INIT => 2 * L + 2
  | COMBINE => stage + L + 2
  | FINALIZE => stage + L + 1
  | SORTED => stage + 1
  | FINISHED => 0
  end.

Definition task_work (th : SortTreeThread) : Z := match th with FinalizeTask _ _ => 2 | FinalizeCompleted => 1 | _ => 0 end.

Definition stage_work s : Z := 3 * tasks_left (fst s) + zsum task_work (snd s).

Lemma stage_work_nonneg s : 0 <= stage_work s.
Proof.
  unfold stage_work, tasks_left. assert (0 <= zsum task_work (snd s)) by (apply zsum_nonneg; intros th _; destruct th; cbn; lia).
  destruct (build_stage ops (fst s)); lia.
Qed.

(** A thread that moves the stage on in its next step. *)
Definition hot s j : Prop :=
  (exists stage task, snd s !! j = Some (FinalizeTask stage task)) \/ snd s !! j = Some FinalizeCompleted \/
  (zsum active (snd s) = 0 /\ snd s !! j = Some FinalizePrepare).

(** What a step does before the last stage. *)
Inductive stage_step s j s' : Prop :=
  | StageFinished : finished s' -> stage_step s j s'
  | StageWork : stage_work s' < stage_work s -> stage_step s j s'
  | StageLoop : snd s !! j = Some FinalizeLoop -> s' = (fst s, <[j := FinalizePrepare]> (snd s)) -> stage_step s j s'
  | StageWait : snd s !! j = Some FinalizePrepare -> 0 < zsum active (snd s) -> s' = (fst s, <[j := FinalizeLoop]> (snd s)) -> stage_step s j s'
  | StageNone : snd s !! j = None -> s' = s -> stage_step s j s'.

Lemma zsum_task_work ths j th th' : ths !! j = Some th -> zsum task_work (<[j := th']> ths) = zsum task_work ths - task_work th + task_work th'.
Proof. apply zsum_insert. Qed.

Lemma Execute_same env g stage task g' :
  ExecuteSortTask distinct_from index_value ops materialize kind env g stage task = Some g' -> same_tasks ops g g'.
Proof.
  assert (same_tasks ops g g) as Hrefl by by split_and!.
  destruct stage; cbn [ExecuteSortTask]; try (by intros [= <-]).
  - destruct (local_sinks ops g !! task) as [local |]; [| done]. cbn [mbind option_bind]. destruct (global_sink ops g) as [gs |]; [| done].
    cbn [mbind option_bind]. destruct (sort_combine ops env gs local); [| done]. intros [= <-]. by split_and!.
  - destruct (global_sink ops g) as [gs |]; [| done]. intros [= <-]. by split_and!.
  - unfold BuildLeaves, IndexBuildLeaves, TokenBuildLeaves. destruct kind; destruct (sorted ops g) as [C |]; try done; cbn [mbind option_bind].
    + case_match; [by intros [= <-] |]. destruct (mst ops g); [| done]. cbn [mbind option_bind]. unfold task_blocks.
      destruct (copy_index_blocks _ _ _ _ _); [| done]. intros [= <-]. by split_and!.
    + unfold task_blocks. match goal with |- context [(if ?b then ?x else ?y) ≫= _] => destruct (if b then x else y) end; [| done]. cbn [mbind option_bind].
      destruct (WindowDeltaScanner _ _ _ _ _); [| done]. cbn [mbind option_bind]. destruct (ofold _ _ _); [| done]. intros [= <-]. by split_and!.
Qed.

(** [TryPrepareSortStage] gives a task unless threads are busy. *)
Lemma prepare_work g ths j g' task :
  sort_tree_ok (g, ths) -> ths !! j = Some FinalizePrepare -> build_stage ops g <> FINISHED ->
  TryPrepareSortStage ops kind g = Some (g', task) ->
  match task with
  | None => g' = g /\ 0 < zsum active ths
  | Some _ => build_stage ops g' = FINISHED \/ tasks_left g' = tasks_left g - 1
  end.
Proof.
  intros [_ Hst] Hj Hf E. cbn [fst snd] in Hst. assert (1 <= length locals)%nat as HL by (destruct locals; [done | cbn; lia]). unfold stage_ok in Hst. unfold TryPrepareSortStage in E.
  unfold tasks_left. destruct (build_stage ops g) eqn:Es; [| | | | done].
  - destruct Hst as (El & _). injection E as <- <-. right. cbn [next_stage build_stage total_tasks tasks_assigned]. rewrite El. lia.
  - destruct Hst as ([H1 H2 H3 _ _] & _). destruct (Nat.ltb_spec (tasks_assigned ops g) (total_tasks ops g)) as [Hlt | Hge];
      [| destruct (Nat.ltb_spec (tasks_completed ops g) (tasks_assigned ops g)) as [Hw | Hd]]; injection E as <- <-.
    + right. cbn [assign_task build_stage total_tasks tasks_assigned]. rewrite Es. lia.
    + split; [done | lia].
    + right. cbn [next_stage build_stage total_tasks tasks_assigned]. lia.
  - destruct Hst as ([H1 H2 H3 _ _] & Etot & _). destruct (Nat.ltb_spec (tasks_completed ops g) (tasks_assigned ops g)) as [Hw | Hd];
      [injection E as <- <-; split; [done | lia] |].
    unfold MeasurePayloadBlocks in E. destruct (sorted ops g); [| done]. cbn [mbind option_bind] in E. destruct (Allocate _); [| done].
    cbn [mbind option_bind] in E. injection E as <- <-. right.
    destruct kind; cbn [next_stage build_stage total_tasks tasks_assigned local_sinks set_mst set_deltas]; rewrite H1; lia.
  - destruct Hst as ([H1 H2 H3 _ _] & _). destruct (Nat.ltb_spec (tasks_assigned ops g) (total_tasks ops g)) as [Hlt | Hge];
      [| destruct (Nat.ltb_spec (tasks_completed ops g) (tasks_assigned ops g)) as [Hw | Hd]].
    + injection E as <- <-. right. cbn [assign_task build_stage total_tasks tasks_assigned]. rewrite Es. lia.
    + injection E as <- <-. split; [done | lia].
    + destruct (Finished ops kind g); [| done]. cbn [mbind option_bind] in E. injection E as <- <-. by left.
Qed.

Lemma sort_step_kind s turn s' :
  sort_tree_ok s -> ~ finished s -> step s turn = Some s' -> stage_step s (fst turn) s'.
Proof.
  intros Hok Hf E. destruct s as [g ths], turn as [j env]. unfold sort_tree_step in E. cbn [fst snd] in *.
  destruct (ths !! j) as [th |] eqn:Hj; [| injection E as <-; by apply StageNone].
  destruct (sort_tree_thread_step _ _ _ _ _ _ _ _ _) as [[g' th'] |] eqn:Et; [| done]. cbn [mbind option_bind] in E. injection E as <-.
  destruct th as [| | stage task | | builder]; cbn [sort_tree_thread_step] in Et.
  - injection Et as <- <-. rewrite decide_False by done. by apply StageLoop.
  - destruct (TryPrepareSortStage ops kind g) as [[g1 task] |] eqn:Ep; [| done]. cbn [mbind option_bind] in Et. injection Et as <- <-.
    pose proof (prepare_work g ths j g1 task Hok Hj Hf Ep) as Hp. destruct task as [[stage task] |].
    + destruct Hp as [Hp | Hp]; [by apply StageFinished |]. apply StageWork. unfold stage_work. cbn [fst snd]. rewrite (zsum_task_work _ _ _ _ Hj), Hp. cbn. lia.
    + destruct Hp as [-> Ha]. by apply StageWait.
  - destruct (ExecuteSortTask _ _ _ _ _ _ _ _ _) as [g1 |] eqn:Ex; [| done]. cbn [mbind option_bind] in Et. injection Et as <- <-.
    destruct (Execute_same _ _ _ _ _ Ex) as (E1 & E2 & E3 & _). apply StageWork. unfold stage_work, tasks_left. cbn [fst snd].
    rewrite E1, E2, E3, (zsum_task_work _ _ _ _ Hj). cbn [task_work]. lia.
  - injection Et as <- <-. apply StageWork. unfold stage_work, tasks_left. cbn [fst snd build_stage total_tasks tasks_assigned].
    rewrite (zsum_task_work _ _ _ _ Hj). cbn [task_work]. lia.
  - exfalso. apply Hf. destruct Hok as [Hall _]. exact (Forall_lookup_1 _ _ _ _ Hall Hj).
Qed.

(** ** Before the last stage *)

Lemma step_ok s turn : sort_tree_ok s -> exists s', step s turn = Some s' /\ sort_tree_ok s' /\ length (snd s') = length (snd s).
Proof. intros Hok. exact (sort_tree_step_ok distinct_from index_value ops materialize le kind garbage input Hinput locals Hlocals Hbits Hoffset s turn Hok). Qed.

Lemma steps_ok s schedule :
  sort_tree_ok s -> exists s', ofold step s schedule = Some s' /\ sort_tree_ok s' /\ length (snd s') = length (snd s).
Proof. intros Hok. exact (sort_tree_steps_ok distinct_from index_value ops materialize le kind garbage input Hinput locals Hlocals Hbits Hoffset s schedule Hok). Qed.

(** The first step of a schedule, and the rest. *)
Lemma ofold_step s turn schedule s' :
  sort_tree_ok s -> ofold step s (turn :: schedule) = Some s' ->
  exists s1, step s turn = Some s1 /\ sort_tree_ok s1 /\ ofold step s1 schedule = Some s'.
Proof.
  intros Hok E. destruct (step_ok s turn Hok) as (s1 & E1 & Hok1 & _). exists s1. rewrite ofold_cons, E1 in E. done.
Qed.

Lemma finished_step s turn s' :
  sort_tree_ok s -> finished s -> step s turn = Some s' ->
  finished s' /\ (snd s !! fst turn = None /\ s' = s \/
    exists th th', snd s !! fst turn = Some th /\ snd s' = <[fst turn := th']> (snd s) /\
      match th with
      | FinalizeLoop => th' = Building AtLoop
      | FinalizePrepare => th' = FinalizeTask FINISHED 0
      | FinalizeTask _ _ => th' = FinalizeCompleted
      | FinalizeCompleted => th' = FinalizeLoop
      | Building _ => exists builder, th' = Building builder
      end).
Proof.
  intros Hok Hf E. destruct s as [g ths], turn as [j env]. unfold sort_tree_step in E. cbn [fst snd] in *.
  destruct (ths !! j) as [th |] eqn:Hj; [| injection E as <-; split; [done | by left]].
  destruct (sort_tree_thread_step _ _ _ _ _ _ _ _ _) as [[g' th'] |] eqn:Et; [| done]. cbn [mbind option_bind] in E. injection E as <-.
  assert (build_stage ops g' = FINISHED /\ match th with
      | FinalizeLoop => th' = Building AtLoop | FinalizePrepare => th' = FinalizeTask FINISHED 0 | FinalizeTask _ _ => th' = FinalizeCompleted
      | FinalizeCompleted => th' = FinalizeLoop | Building _ => exists builder, th' = Building builder end) as [Hf' Hth].
  { destruct th as [| | stage task | | builder]; cbn [sort_tree_thread_step] in Et.
    - injection Et as <- <-. by rewrite decide_True.
    - unfold TryPrepareSortStage in Et. rewrite Hf in Et. by injection Et as <- <-.
    - destruct (ExecuteSortTask _ _ _ _ _ _ _ _ _) as [g1 |] eqn:Ex; [| done]. injection Et as <- <-.
      destruct (Execute_same _ _ _ _ _ Ex) as [E1 _]. by rewrite E1.
    - by injection Et as <- <-.
    - destruct (mst ops g) as [m |]; [| done]. cbn [mbind option_bind] in Et.
      destruct (build_thread_step garbage m builder) as [[m' builder'] |]; [| done]. injection Et as <- <-. split; [by destruct g | by exists builder']. }
  split; [done |]. right. by exists th, th'.
Qed.

Lemma finished_steps s schedule s' : sort_tree_ok s -> finished s -> ofold step s schedule = Some s' -> finished s'.
Proof.
  revert s. induction schedule as [| turn schedule IH]; intros s Hok Hf E; [by injection E as <- |].
  destruct (ofold_step _ _ _ _ Hok E) as (s1 & E1 & Hok1 & E2). apply (IH s1); [done | | done]. exact (proj1 (finished_step s turn s1 Hok Hf E1)).
Qed.

Lemma step_work_le s j s' : stage_step s j s' -> finished s' \/ stage_work s' <= stage_work s.
Proof.
  intros [Hf | Hw | Hj -> | Hj _ -> | _ ->]; [by left | right; lia | right.. | right; lia];
    unfold stage_work; cbn [fst snd]; rewrite (zsum_task_work _ _ _ _ Hj); cbn [task_work]; lia.
Qed.

Lemma steps_work_le s schedule s' : sort_tree_ok s -> ofold step s schedule = Some s' -> finished s' \/ stage_work s' <= stage_work s.
Proof.
  revert s. induction schedule as [| turn schedule IH]; intros s Hok E; [right; injection E as <-; lia |].
  destruct (ofold_step _ _ _ _ Hok E) as (s1 & E1 & Hok1 & E2). destruct (decide (finished s)) as [Hf | Hf].
  { left. eapply finished_steps; [exact Hok1 | | exact E2]. exact (proj1 (finished_step s turn s1 Hok Hf E1)). }
  destruct (step_work_le _ _ _ (sort_step_kind s turn s1 Hok Hf E1)) as [Hf1 | Hw]; [left; by eapply finished_steps |].
  destruct (IH s1 Hok1 E2) as [? | ?]; [by left | right; lia].
Qed.

(** A step without a task leaves a hot thread hot. *)
Lemma hot_step s i j s' :
  hot s j -> stage_step s i s' ->
  finished s' \/ stage_work s' < stage_work s \/ (hot s' j /\ i <> j /\ stage_work s' = stage_work s /\ (~ finished s -> ~ finished s')).
Proof.
  intros Hh [Hf | Hw | Hi -> | Hi Ha -> | Hi ->]; [by left | by right; left | right; right.. ].
  - assert (i <> j) as Hne by (intros ->; destruct Hh as [(stage & task & Hj) | [Hj | [_ Hj]]]; by rewrite Hi in Hj).
    split_and!; [| done | unfold stage_work; cbn [fst snd]; rewrite (zsum_task_work _ _ _ _ Hi); cbn [task_work]; lia | done].
    unfold hot. cbn [snd]. rewrite list_lookup_insert_ne by done. destruct Hh as [? | [? | [Hz ?]]]; [by left | by right; left | right; right].
    rewrite (zsum_insert _ _ _ _ _ Hi). cbn [active]. split; [lia | done].
  - assert (i <> j) as Hne by (intros ->; destruct Hh as [(stage & task & Hj) | [Hj | [Hz Hj]]]; [by rewrite Hi in Hj.. | lia]).
    split_and!; [| done | unfold stage_work; cbn [fst snd]; rewrite (zsum_task_work _ _ _ _ Hi); cbn [task_work]; lia | done].
    unfold hot. cbn [snd]. rewrite list_lookup_insert_ne by done. destruct Hh as [? | [? | [Hz ?]]]; [by left | by right; left | lia].
  - split_and!; [done | | done | done]. intros ->. destruct Hh as [(stage & task & Hj) | [Hj | [_ Hj]]]; by rewrite Hi in Hj.
Qed.

Lemma hot_steps s j schedule s' :
  sort_tree_ok s -> ~ finished s -> hot s j -> ofold step s schedule = Some s' ->
  finished s' \/ stage_work s' < stage_work s \/ (hot s' j /\ j ∉ fst <$> schedule /\ stage_work s' = stage_work s /\ ~ finished s').
Proof.
  revert s. induction schedule as [| turn schedule IH]; intros s Hok Hf Hh E.
  { injection E as <-. right. right. split_and!; [done | apply not_elem_of_nil | done | done]. }
  destruct (ofold_step _ _ _ _ Hok E) as (s1 & E1 & Hok1 & E2).
  destruct (hot_step s (fst turn) j s1 Hh (sort_step_kind s turn s1 Hok Hf E1)) as [Hf1 | [Hw | (Hh1 & Hne & Hw & Hnf)]].
  - left. by eapply finished_steps.
  - destruct (steps_work_le _ _ _ Hok1 E2) as [? | ?]; [by left | right; left; lia].
  - destruct (IH s1 Hok1 (Hnf Hf) Hh1 E2) as [? | [? | (H1 & H2 & H3 & H4)]]; [by left | right; left; lia | right; right].
    split_and!; [done | | lia | done]. rewrite fmap_cons. by apply not_elem_of_cons.
Qed.

(** A thread at the test of the loop when no thread has a task. *)
Lemma warm_steps s j schedule s' :
  sort_tree_ok s -> ~ finished s -> zsum active (snd s) = 0 -> snd s !! j = Some FinalizeLoop -> j ∈ fst <$> schedule ->
  ofold step s schedule = Some s' ->
  finished s' \/ stage_work s' < stage_work s \/ (hot s' j /\ stage_work s' = stage_work s /\ ~ finished s').
Proof.
  revert s. induction schedule as [| turn schedule IH]; intros s Hok Hf Hz Hj Hin E; [by apply not_elem_of_nil in Hin |].
  destruct (ofold_step _ _ _ _ Hok E) as (s1 & E1 & Hok1 & E2).
  destruct (sort_step_kind s turn s1 Hok Hf E1) as [Hf1 | Hw | Hi Es | Hi Ha Es | Hi Es].
  - left. by eapply finished_steps.
  - destruct (steps_work_le _ _ _ Hok1 E2) as [? | ?]; [by left | right; left; lia].
  - assert (~ finished s1 /\ zsum active (snd s1) = 0 /\ stage_work s1 = stage_work s) as (Hf1 & Hz1 & Hw1).
    { rewrite Es. unfold stage_work. cbn [fst snd]. rewrite (zsum_task_work _ _ _ _ Hi), (zsum_insert _ _ _ _ _ Hi). cbn [active task_work]. split_and!; [done | lia | lia]. }
    destruct (decide (fst turn = j)) as [Hij | Hij].
    + assert (hot s1 j) as Hh1.
      { right. right. split; [done |]. rewrite Es, Hij. cbn [snd]. apply list_lookup_insert_eq. by eapply lookup_lt_Some. }
      destruct (hot_steps s1 j schedule s' Hok1 Hf1 Hh1 E2) as [? | [? | (H1 & _ & H3 & H4)]]; [by left | right; left; lia | right; right].
      split_and!; [done | lia | done].
    + rewrite fmap_cons in Hin. apply elem_of_cons in Hin as [-> | Hin]; [done |].
      assert (snd s1 !! j = Some FinalizeLoop) as Hj1 by (rewrite Es; cbn [snd]; by rewrite list_lookup_insert_ne).
      destruct (IH s1 Hok1 Hf1 Hz1 Hj1 Hin E2) as [? | [? | (H1 & H3 & H4)]]; [by left | right; left; lia | right; right].
      split_and!; [done | lia | done].
  - lia.
  - subst s1. rewrite fmap_cons in Hin. apply elem_of_cons in Hin as [-> | Hin]; [by rewrite Hi in Hj |]. by apply IH.
Qed.

Lemma active_thread ths : 0 < zsum active ths -> exists j th, ths !! j = Some th /\ 0 < active th.
Proof.
  induction ths as [| th ths IH]; [cbn; lia |]. rewrite zsum_cons. intros Hz. destruct (Z.lt_ge_cases 0 (active th)) as [Ha | Ha]; [by exists 0%nat, th |].
  destruct IH as (j & th' & Hj & Ha'); [lia |]. by exists (S j), th'.
Qed.

Definition tree_round (threads : nat) (round : list (nat * Env ops)) : Prop := round_ok threads (fst <$> round).

Lemma two_stage_rounds s round1 round2 s' :
  sort_tree_ok s -> ~ finished s -> (0 < length (snd s))%nat ->
  tree_round (length (snd s)) round1 -> tree_round (length (snd s)) round2 ->
  ofold step s (round1 ++ round2) = Some s' -> finished s' \/ stage_work s' < stage_work s.
Proof.
  intros Hok Hf Hne Hr1 Hr2 E.
  assert (forall j, hot s j -> (j < length (snd s))%nat -> finished s' \/ stage_work s' < stage_work s) as Hhot.
  { intros j Hh Hj. destruct (hot_steps s j _ s' Hok Hf Hh E) as [? | [? | (_ & Hno & _)]]; [by left | by right |]. exfalso. apply Hno.
    rewrite fmap_app. apply elem_of_app. left. by apply Hr1. }
  destruct (Z.eq_dec (zsum active (snd s)) 0) as [Hz | Hz].
  - destruct (lookup_lt_is_Some_2 (snd s) 0 Hne) as [th Hj]. pose proof Hok as [Hall _]. pose proof (Forall_lookup_1 _ _ _ _ Hall Hj) as Hth.
    destruct th as [| | stage task | | builder]; [| apply (Hhot 0%nat); [right; right; done | done] | apply (Hhot 0%nat); [left; eauto | done] |
      apply (Hhot 0%nat); [right; left; done | done] | done].
    rewrite ofold_app in E. destruct (steps_ok s round1 Hok) as (s1 & E1 & Hok1 & Hl1). rewrite E1 in E. cbn [mbind option_bind] in E.
    destruct (warm_steps s 0 round1 s1 Hok Hf Hz Hj (Hr1 0%nat Hne) E1) as [Hf1 | [Hw1 | (Hh1 & Hw1 & Hf1)]].
    + left. by eapply finished_steps.
    + destruct (steps_work_le _ _ _ Hok1 E) as [? | ?]; [by left | right; lia].
    + destruct (hot_steps s1 0 round2 s' Hok1 Hf1 Hh1 E) as [? | [? | (_ & Hno & _)]]; [by left | right; lia |]. exfalso. by apply Hno, Hr2.
  - destruct (active_thread (snd s)) as (j & th & Hj & Ha); [pose proof (active_nonneg (snd s)); lia |].
    apply (Hhot j); [| by eapply lookup_lt_Some]. destruct th; cbn in Ha; try lia; [left; eauto | right; left; done].
Qed.

Lemma stage_work_pos s : ~ finished s -> 0 < stage_work s.
Proof.
  intros Hf. unfold stage_work, tasks_left. assert (0 <= zsum task_work (snd s)) by (apply zsum_nonneg; intros th _; destruct th; cbn; lia).
  destruct (build_stage ops (fst s)); try lia. done.
Qed.

(** Enough rounds finish all stages. *)
Lemma stage_rounds (w : nat) s rounds :
  sort_tree_ok s -> stage_work s <= Z.of_nat w -> (0 < length (snd s))%nat -> (2 * w <= length rounds)%nat ->
  Forall (tree_round (length (snd s))) rounds ->
  exists s1 done_rounds rest, rounds = done_rounds ++ rest /\ ofold step s (mjoin done_rounds) = Some s1 /\ sort_tree_ok s1 /\ finished s1 /\
    length (snd s1) = length (snd s) /\ (length done_rounds <= 2 * w)%nat.
Proof.
  revert s rounds. induction w as [| w IH]; intros s rounds Hok Hw Hne Hlen Hr; destruct (decide (finished s)) as [Hf | Hf];
    [exists s, [], rounds; split_and!; done || (cbn; lia) | pose proof (stage_work_pos s Hf); lia | exists s, [], rounds; split_and!; done || (cbn; lia) |].
  destruct rounds as [| round1 [| round2 rounds]]; cbn [length] in Hlen; [lia.. |].
  apply Forall_cons in Hr as [Hr1 Hr]. apply Forall_cons in Hr as [Hr2 Hr].
  destruct (steps_ok s (round1 ++ round2) Hok) as (s2 & E2 & Hok2 & Hl2).
  destruct (two_stage_rounds s round1 round2 s2 Hok Hf Hne Hr1 Hr2 E2) as [Hf2 | Hw2].
  - exists s2, [round1; round2], rounds. split_and!; [done | | done | done | done | cbn; lia].
    rewrite !mjoin_cons. cbn [mjoin list_join]. by rewrite app_nil_r.
  - destruct (IH s2 rounds Hok2) as (s1 & done_rounds & rest & -> & E1 & Hok1 & Hf1 & Hl1 & Hd); [lia | by rewrite Hl2 | lia | by rewrite Hl2 |].
    exists s1, (round1 :: round2 :: done_rounds), rest. split_and!; [done | | done | done | by rewrite Hl1 | cbn [length]; lia].
    rewrite !mjoin_cons, app_assoc, ofold_app, E2. cbn [mbind option_bind]. exact E1.
Qed.

(** ** The last stage *)

(** The steps of a thread to [Build]. *)
Definition steps_to_build (th : SortTreeThread) : nat :=
  match th with Building _ => 0 | FinalizeLoop => 1 | FinalizeCompleted => 2 | FinalizeTask _ _ => 3 | FinalizePrepare => 4 end.

Lemma to_build s schedule s' :
  sort_tree_ok s -> finished s -> ofold step s schedule = Some s' ->
  forall j th, snd s !! j = Some th -> exists th', snd s' !! j = Some th' /\ (steps_to_build th' <= steps_to_build th)%nat /\
    (j ∈ fst <$> schedule -> (steps_to_build th' <= steps_to_build th - 1)%nat).
Proof.
  revert s. induction schedule as [| turn schedule IH]; intros s Hok Hf E j th Hj.
  { injection E as <-. exists th. split_and!; [done | lia |]. by intros ?%not_elem_of_nil. }
  destruct (ofold_step _ _ _ _ Hok E) as (s1 & E1 & Hok1 & E2). destruct (finished_step s turn s1 Hok Hf E1) as [Hf1 Hs].
  assert (exists th1, snd s1 !! j = Some th1 /\ (steps_to_build th1 <= steps_to_build th)%nat /\
    (j = fst turn -> (steps_to_build th1 <= steps_to_build th - 1)%nat)) as (th1 & Hj1 & Hle1 & Hlt1).
  { destruct Hs as [[Hn ->] | (th0 & th1 & Hi & Es & Hth)]; [exists th; split_and!; [done | lia |]; intros ->; by rewrite Hn in Hj |].
    rewrite Es. destruct (decide (j = fst turn)) as [-> | Hne].
    - rewrite Hj in Hi. injection Hi as ->. exists th1. rewrite list_lookup_insert_eq by (by eapply lookup_lt_Some).
      destruct th0; [subst; cbn.. | destruct Hth as [b ->]; cbn]; split_and!; done || lia.
    - exists th. rewrite list_lookup_insert_ne by done. split_and!; [done | lia | done]. }
  destruct (IH s1 Hok1 Hf1 E2 j th1 Hj1) as (th' & Hj' & Hle & Hlt). exists th'. split_and!; [done | lia |].
  rewrite fmap_cons, elem_of_cons. intros [? | ?]; [specialize (Hlt1 ltac:(done)); lia | specialize (Hlt ltac:(done)); lia].
Qed.

(** After four rounds all threads are in [Build]. *)
Lemma build_rounds s round1 round2 round3 round4 s' :
  sort_tree_ok s -> finished s -> Forall (tree_round (length (snd s))) [round1; round2; round3; round4] ->
  ofold step s (mjoin [round1; round2; round3; round4]) = Some s' -> Forall (fun th => steps_to_build th = 0%nat) (snd s').
Proof.
  intros Hok Hf Hr E.
  assert (forall (rounds : list (list (nat * Env ops))) d s, sort_tree_ok s -> finished s -> Forall (tree_round (length (snd s))) rounds ->
    ofold step s (mjoin rounds) = Some s' -> Forall (fun th => (steps_to_build th <= d)%nat) (snd s) ->
    Forall (fun th => (steps_to_build th <= d - length rounds)%nat) (snd s')) as H.
  { clear s Hok Hf Hr E. induction rounds as [| round rounds IH]; intros d s Hok Hf Hr E Hd.
    { injection E as <-. cbn [length]. by rewrite Nat.sub_0_r. }
    apply Forall_cons in Hr as [Hr1 Hr]. rewrite mjoin_cons, ofold_app in E. destruct (steps_ok s round Hok) as (s1 & E1 & Hok1 & Hl1).
    rewrite E1 in E. cbn [mbind option_bind] in E. cbn [length]. replace (d - S (length rounds))%nat with (d - 1 - length rounds)%nat by lia.
    apply (IH (d - 1)%nat s1 Hok1); [exact (finished_steps s round s1 Hok Hf E1) | by rewrite Hl1 | done |].
    apply Forall_lookup_2. intros j th1 Hj1. destruct (lookup_lt_is_Some_2 (snd s) j) as [th Hj]; [rewrite <- Hl1; by eapply lookup_lt_Some |].
    destruct (to_build s round s1 Hok Hf E1 j th Hj) as (th' & Hj' & _ & Hlt). rewrite Hj1 in Hj'. injection Hj' as <-.
    specialize (Hlt (Hr1 j ltac:(by eapply lookup_lt_Some))). pose proof (Forall_lookup_1 _ _ _ _ Hd Hj) as Hdj. cbn in Hdj. lia. }
  pose proof (H _ 4%nat s Hok Hf Hr E) as H4. eapply Forall_impl; [apply H4 |].
  - apply Forall_forall. intros th _. destruct th; cbn; lia.
  - cbn [length]. intros th Hth. lia.
Qed.

(** In [Build] the steps are those of MergeSortThreads. *)
Lemma building_steps g m bs schedule m' bs' :
  mst ops g = Some m -> ofold (build_system_step garbage) (m, bs) (fst <$> schedule) = Some (m', bs') ->
  exists g', ofold step (g, Building <$> bs) schedule = Some (g', Building <$> bs').
Proof.
  revert g m bs. induction schedule as [| [j env] schedule IH]; intros g m bs Em E.
  { injection E as <- <-. by exists g. }
  rewrite fmap_cons, ofold_cons in E. rewrite ofold_cons. cbn [fst] in E.
  assert (forall x, build_system_step garbage (m, x) j =
    match x !! j with None => Some (m, x) | Some b => '(m', b') ← build_thread_step garbage m b; Some (m', <[j := b']> x) end) as Eb by done.
  assert (forall x, step (g, x) (j, env) = match x !! j with None => Some (g, x)
    | Some th => '(g', th') ← sort_tree_thread_step distinct_from index_value ops materialize kind garbage env g th; Some (g', <[j := th']> x) end) as Es by done.
  rewrite Eb in E. rewrite Es, list_lookup_fmap.
  destruct (bs !! j) as [b |] eqn:Hb; cbn [fmap option_fmap option_map mbind option_bind] in *; [| by eapply IH].
  cbn [sort_tree_thread_step]. rewrite Em. cbn [mbind option_bind]. destruct (build_thread_step garbage m b) as [[m1 b1] |]; [| done].
  cbn [mbind option_bind] in *. rewrite <- list_fmap_insert. by apply (IH (set_mst ops m1 g) m1).
Qed.
End progress.

(** ** All threads finish *)

Section bound.
Context {traits : MergeSortTraits} {k c : nat} `{!MergeSortTraitsOk k c} (leaves : list Z) (top : nat).
Abbreviation n := (Z.of_nat (length leaves)).

Lemma top_le : is_top leaves top -> Z.of_nat top <= n.
Proof.
  intros [_ Hlow]. destruct top as [| l]; [lia |]. specialize (Hlow l ltac:(lia)). pose proof (width_lin leaves l). lia.
Qed.

(** The work of the threads in [Build] at any time. *)
Lemma work_bound s : build_ok leaves top s -> work leaves top s <= (3 * n + 1) * Z.of_nat top + 2 * Z.of_nat (length (snd s)).
Proof.
  intros Hok. unfold work, to_give.
  assert (zsum thread_work (snd s) <= 2 * Z.of_nat (length (snd s))) as Hth.
  { clear Hok. induction (snd s) as [| th ths IH]; [done |]. rewrite zsum_cons. cbn [length]. assert (thread_work th <= 2) by (destruct th; cbn; lia). lia. }
  assert (forall a len, zsum (num_runs leaves) (seq a len) <= n * Z.of_nat len) as Hz.
  { intros a len. revert a. induction len as [| len IH]; intros a; cbn [seq]; [cbn; lia |]. rewrite zsum_cons.
    pose proof (num_runs_le leaves a). specialize (IH (S a)). lia. }
  pose proof (bo_positive _ _ _ Hok). destruct (Nat.leb_spec (build_level (fst s)) top) as [Hl | Hl]; [| nia].
  destruct (bo_open _ _ _ Hok Hl) as [L1 L2 L3 L4 L5]. rewrite L2.
  assert (num_runs leaves (build_level (fst s)) - build_run (fst s) + later leaves top (build_level (fst s)) <= n * Z.of_nat top) as Hgive; [| nia].
  specialize (Hz (build_level (fst s)) (S (top - build_level (fst s)))). cbn [seq] in Hz. rewrite zsum_cons in Hz. fold (later leaves top (build_level (fst s))) in Hz.
  nia.
Qed.
End bound.

Section terminates.
Context {V : Type} (distinct_from : V -> V -> bool) (index_value : Z -> V).
Context {traits : MergeSortTraits} {k c : nat} `{!MergeSortTraitsOk k c}.
Abbreviation SortRow := (list V * Z)%type.
Context (ops : SortOps SortRow) `{!SortSinkLaws ops} (materialize : GSink ops -> list (list SortRow)) (le : relation SortRow).
Context `{!SortSourceLaws ops materialize le} (kind : TreeKind) (garbage : RunElement).
Abbreviation step := (sort_tree_step distinct_from index_value ops materialize kind garbage).

(** The rounds that are enough for the stages, with [threads] local sorts, and for a tree of [rows] leaves. *)
Definition enough_rounds (threads workers rows : Z) : Z := 12 * (threads + 1) + 4 + 2 * ((3 * rows + 1) * rows + 2 * workers) + 2.

Lemma finished_rounds (input : list SortRow) (locals : list (LSink ops)) s rounds :
  input_ok kind input -> locals <> [] -> Z.of_nat (length input) <= 2 ^ element_bits -> Z.of_nat (length input) < 2 ^ offset_bits ->
  sort_tree_ok distinct_from index_value ops le kind input locals s -> build_stage ops (fst s) = FINISHED ->
  Forall (tree_round ops (length (snd s))) rounds ->
  4 + 2 * ((3 * Z.of_nat (length input) + 1) * Z.of_nat (length input) + 2 * Z.of_nat (length (snd s))) + 2 <= Z.of_nat (length rounds) ->
  exists s', ofold step s (mjoin rounds) = Some s' /\ Forall (fun th => th = Building BuildDone) (snd s').
Proof.
  intros Hinput Hlocals Hbits Hoffset Hok Hf Hr Hlen.
  destruct rounds as [| round1 [| round2 [| round3 [| round4 rounds]]]]; cbn [length] in Hlen; [lia.. |].
  change (round1 :: round2 :: round3 :: round4 :: rounds) with ([round1; round2; round3; round4] ++ rounds) in *.
  apply Forall_app in Hr as [Hr1 Hr]. rewrite mjoin_app, ofold_app.
  destruct (steps_ok distinct_from index_value ops materialize le kind garbage input Hinput locals Hlocals Hbits Hoffset s
    (mjoin [round1; round2; round3; round4]) Hok) as (s1 & E1 & Hok1 & Hl1).
  pose proof (build_rounds distinct_from index_value ops materialize le kind garbage input Hinput locals Hlocals Hbits Hoffset s
    round1 round2 round3 round4 s1 Hok Hf Hr1 E1) as Hb. rewrite E1. cbn [mbind option_bind].
  pose proof (finished_steps distinct_from index_value ops materialize le kind garbage input Hinput locals Hlocals Hbits Hoffset s _ s1 Hok Hf E1) as Hf1.
  destruct s1 as [g1 ths1]. cbn [fst snd] in *. destruct Hok1 as [_ Hst]. cbn [fst snd] in Hst. unfold stage_ok in Hst. rewrite Hf1 in Hst.
  destruct Hst as (C & leaves & top & m & HC & Hleaves & Htop & Hsmall & Em & Hbuild).
  assert (length leaves = length input) as Hll by (rewrite (proj1 Hleaves); by rewrite (co_rows _ _ _ HC)).
  assert (Building <$> (builder_of <$> ths1) = ths1) as Eths.
  { clear -Hb. induction Hb as [| th ths Hth _ IH]; [done |]. rewrite !fmap_cons, IH. by destruct th. }
  pose proof (work_bound leaves top _ Hbuild) as Hw. pose proof (top_le leaves top Htop) as Htl. cbn [snd] in Hw. rewrite length_fmap, Hl1 in Hw.
  set (w := (3 * Z.of_nat (length input) + 1) * Z.of_nat (length input) + 2 * Z.of_nat (length (snd s))) in *.
  assert (0 <= w) as Hw0 by lia.
  destruct (rounds_finish leaves ltac:(by rewrite Hll) Hsmall garbage top (Z.to_nat w) (m, builder_of <$> ths1) ((fun round : list (nat * Env ops) => fst <$> round) <$> rounds) Hbuild)
    as ([m' bs'] & Es & _ & _ & Hd).
  - rewrite Z2Nat.id by done. rewrite Hll in Hw, Htl. unfold w. nia.
  - rewrite length_fmap. cbn [app length] in Hlen. lia.
  - apply Forall_fmap. cbn [snd]. rewrite length_fmap, Hl1. exact Hr.
  - rewrite mjoin_fmap in Es. destruct (building_steps distinct_from index_value ops materialize kind garbage g1 m _ _ _ _ Em Es) as [g' E'].
    rewrite Eths in E'. rewrite E'. eexists. split; [done |]. cbn [snd]. apply Forall_fmap. eapply Forall_impl; [exact Hd |]. by intros th ->.
Qed.

End terminates.

(** ** Witness *)

Definition example_tree_rounds (rounds : nat) : list (list (nat * Env rows_sort)) := replicate rounds [(1%nat, tt); (0%nat, tt)].

