(* ===== verification/WindowTreeSort.v ===== *)
(** * The sort of a tree of argument orders

    The operator of Sort with the merger of its runs, as one thread materializes it, is a
    source of sorted rows for WindowMergeSortTree when the merger does not prune; the
    theorems of WindowTreeRuns hold for it. *)

From S2P Require Import Prelude RadixPartitioning MergePath Sort SortInvariant SortedRunMerger MergerInvariant SortSource HashGroups WindowTrees WindowTreesInvariant WindowTreeThreads.

Section sort_source.
Context {A : Type} (merger_config : SortedRunMerger (A := A)).
Abbreviation key_lt := (key_lt merger_config).
Abbreviation le := (fun x y : A => key_lt y x = false).
Context `{!StrictWeakOrder key_lt}.
Context (Hvergesort : forall keys, vergesort merger_config keys ≡ₚ keys /\ StronglySorted le (vergesort merger_config keys)).
Context (chunks : list A -> list (list A)) `{!ChunkIterator chunks}.

(** The sort of a run and its memory, as in SortInvariant. *)
Context (SizeInBytes : list A -> Z) (sort_run : list A -> list A).
Context (force_external verify_parallelism : bool) (minimum_reservation max_rows : Z).
Context (Hsort : forall rows, sort_run rows ≡ₚ rows /\ StronglySorted le (sort_run rows)).
Context (Hnum_threads : 1 <= Z.of_nat (SortedRunMerger.num_threads merger_config) < 2 ^ 32).
Context (Hsize : forall rows, Z.of_nat (length rows) <= max_rows ->
  0 <= SizeInBytes rows /\ 4 * (Z.of_nat (SortedRunMerger.num_threads merger_config) * SizeInBytes rows) <= 2 ^ 61).
Context (Hminimum : 1 <= minimum_reservation <= 2 ^ 62).

Definition tree_sort : SortOps A :=
  Sort_ops SizeInBytes sort_run false force_external verify_parallelism (Z.of_nat (SortedRunMerger.num_threads merger_config)) minimum_reservation.

#[local] Instance tree_sort_laws : SortSinkLaws tree_sort :=
  Sort_laws SizeInBytes sort_run le false force_external verify_parallelism
    (Z.of_nat (SortedRunMerger.num_threads merger_config)) minimum_reservation max_rows Hsort Hnum_threads Hsize Hminimum.

Abbreviation sink := (SortGlobalSinkState A).
Abbreviation merger := (SortGlobalSourceState_merger merger_config).

(** The turns of the thread that materializes the rows. *)
Context (schedule : sink -> list (nat * bool)).
Context (Hschedule : forall g m, merger g = Some m ->
  Forall (fun p => fst p < 1)%nat (schedule g) /\ enough_turns m (source_turns 0 (schedule g))).

(** [MaterializeColumnData] and [GetColumnData] of one thread; the collection has chunks. *)
Definition materialize_data (g : sink) : option (list A) :=
  m ← merger g; s ← run_source m 1 (schedule g); hash_group_columns s.

Definition materialize_sorted (g : sink) : list (list A) := chunks (default [] (materialize_data g)).

Context (Hpruning : use_filter merger_config && fixed_16 merger_config = false).

Lemma materialize_columns (g : sink) :
  sort_inv (ops := tree_sort) g [] ->
  exists columns, materialize_data (sort_finalize tree_sort g) = Some columns /\ columns ≡ₚ runs_rows g /\ StronglySorted le columns.
Proof.
  intros [Hg _].
  pose proof (Sort_Finalize_ok le verify_parallelism (Z.of_nat (SortedRunMerger.num_threads merger_config)) Hnum_threads g Hg) as H.
  unfold materialize_data. cbn [tree_sort Sort_ops sort_finalize].
  destruct (Sort_Finalize _ _ g) as [output g'] eqn:Ef. cbn [snd]. destruct H as (Hr & Hd & _ & _ & _ & Hp).
  assert (Forall (fun run => finalized run = true) (sg_sorted_runs g')) as Hfin.
  { eapply Forall_impl; [exact Hd |]. by intros r (Hf & _). }
  pose proof (SortedRunsTotalCount_finalized _ Hfin) as Ecount. specialize (Hschedule g').
  unfold SortGlobalSourceState_merger in Hschedule |- *. rewrite Ecount in Hschedule |- *.
  cbn [mbind option_bind] in Hschedule |- *.
  match goal with |- exists _, run_source ?x _ _ ≫= _ = _ /\ _ => set (m := x) in * end.
  destruct (Hschedule m eq_refl) as [Hs Ht].
  destruct (run_source_columns m) with (n := 1%nat) (schedule := schedule g') as (s & columns & E & Ec & Hc1 & Hc2 & _); try done.
  - cbn. apply Forall_fmap. eapply Forall_impl; [exact Hd |]. intros r (_ & Hsorted & _). exact Hsorted.
  - intros Hp'. unfold do_merge_pruning in Hp'. cbn in Hp'. congruence.
  - cbn. lia.
  - destruct Hp as [Hp | [H0 Hp]]; [by left | right]. split; [| done].
    pose proof (length_mjoin (run_rows <$> sg_sorted_runs g')) as Hl. unfold runs_rows in H0. rewrite H0 in Hl. symmetry. exact Hl.
  - lia.
  - intros t Hlt. by replace t with 0%nat by lia.
  - exists columns. rewrite E. cbn [mbind option_bind]. rewrite Ec. split_and!; [done | | by apply Hc1].
    rewrite (Hc2 Hpruning), <- Hr. done.
Qed.

(** C40. The sort operator with its merger is a source of sorted rows for the trees of
    argument orders, if Merge Pruning does not apply to its keys: materializing a
    finalized sort fails no assertion and returns, and its chunks hold the rows that
    were sunk, in sorted order. *)
Theorem tree_sort_source :
  (forall g : GSink tree_sort, sort_inv g [] -> is_Some (materialize_data (sort_finalize tree_sort g))) /\
  SortSourceLaws tree_sort materialize_sorted le.
Proof.
  split.
  { intros g Hg. destruct (materialize_columns g Hg) as (columns & E & _). by eexists. }
  split; intros g Hg; destruct (materialize_columns g Hg) as (columns & E & Hp & Hs);
    unfold materialize_sorted; rewrite E; cbn [default]; rewrite ?chunks_join; [apply chunks_rows | done |].
  by apply StronglySorted_Sorted.
Qed.
End sort_source.

(** ** Witness

    Integers sorted by one thread, which takes as many turns as the number of its rows asks for. *)

Definition example_size (rows : list Z) : Z := 8 * Z.of_nat (length rows).

Abbreviation example_tree_sort := (tree_sort example_merger_all example_size (merge_sort Z.le) false false 64).

Definition example_turns (g : SortGlobalSinkState Z) : list (nat * bool) :=
  match SortGlobalSourceState_merger example_merger_all g with
  | Some m =>
      replicate (Z.to_nat (Z.of_nat (merger_partitions m) * (partition_size m + 13 + 2 * Z.of_nat (merger_partitions m)) + 4))
        (0%nat, true)
  | None => []
  end.

Lemma example_turns_enough g m :
  SortGlobalSourceState_merger example_merger_all g = Some m ->
  Forall (fun p => fst p < 1)%nat (example_turns g) /\ enough_turns m (source_turns 0 (example_turns g)).
Proof.
  intros E. unfold example_turns. rewrite E. split; [apply Forall_replicate; cbn; lia |].
  unfold enough_turns, source_turns. generalize (Z.of_nat (merger_partitions m) * (partition_size m + 13 + 2 * Z.of_nat (merger_partitions m)) + 4).
  intros z. assert (forall n, filter (fun p : nat * bool => fst p = 0%nat) (replicate n (0%nat, true)) = replicate n (0%nat, true)) as ->.
  { induction n as [| n IH]; [done |]. cbn [replicate]. by rewrite filter_cons_True, IH. }
  rewrite length_replicate. lia.
Qed.

Lemma example_tree_size_fits (rows : list Z) :
  Z.of_nat (length rows) <= 1000 -> 0 <= example_size rows /\ 4 * (Z.of_nat 1 * example_size rows) <= 2 ^ 61.
Proof. unfold example_size. lia. Qed.

Lemma example_one_thread : 1 <= Z.of_nat (SortedRunMerger.num_threads example_merger_all) < 2 ^ 32.
Proof. done. Qed.

Lemma example_reservation : 1 <= 64 <= 2 ^ 62.
Proof. done. Qed.

#[local] Instance example_tree_sort_laws : SortSinkLaws example_tree_sort :=
  tree_sort_laws example_merger_all example_size (merge_sort Z.le) false false 64 1000 merge_sort_runs example_one_thread
    example_tree_size_fits example_reservation.

Lemma tree_sort_source_witness :
  (forall g : GSink example_tree_sort, sort_inv g [] ->
    is_Some (materialize_data example_merger_all example_turns (sort_finalize example_tree_sort g))) /\
  SortSourceLaws example_tree_sort (materialize_sorted example_merger_all single_chunk example_turns) (fun x y => Z.ltb y x = false).
Proof.
  exact (tree_sort_source example_merger_all merge_sort_runs single_chunk example_size (merge_sort Z.le) false false 64 1000
    merge_sort_runs example_one_thread example_tree_size_fits example_reservation example_turns example_turns_enough eq_refl).
Defined.
